(* ===== verification/_CoqProject ===== *)
-Q . S2P
Prelude.v
Graphemes.v
Strings.v
Bytes.v
Document.v
Cells.v
Normalize.v
Operations.v
OperationsTheory.v
ToggleTheory.v
InsertTheory.v
Rules.v
InverseTheory.v
PlainText.v
WellFormed.v
RulesTheory.v
Undo.v
Input.v
Editor.v
EditorTheory.v
PositionTheory.v
Threading.v
SubjectTheory.v
ThreadingTheory.v
ThreadsTheory.v
CollectTheory.v
ThreadProperties.v
FolderLabel.v
FolderTheory.v
PackFormat.v
PackFormatTheory.v
PackStore.v
PackRun.v
PackInvariant.v
PackPut.v
PackReads.v
PackGc.v
PackThreads.v
PackRecovery.v
PackRebuild.v
PackRefinement.v
PackProperties.v
ActionTypes.v
Journal.v
Worker.v
JournalTheory.v
WorkerTheory.v
WorkerSteps.v
WorkerRuns.v
WorkerPass.v
WorkerLife.v
ActionInstances.v
ActionProperties.v
ActionRequests.v
ActionResolve.v
ActionResolveTheory.v
ActionUi.v
ActionUiTheory.v
ActionUiDispatch.v
ActionUiReach.v
ActionUiProperties.v
Civil.v
CivilInstances.v
Recurrence.v
RecurrenceTheory.v
RecurrenceLoops.v
RecurrenceEvents.v
RecurrenceReconcile.v
RecurrenceProperties.v
Mailbox.v
Batch.v
BatchTheory.v
BatchProperties.v
Keybinding.v
KeybindingProperties.v
SmartQuery.v
SmartTheory.v
SmartProperties.v
Search.v
SearchProperties.v
