(* ===== verification/Prelude.v ===== *)
(** * Ratatoskr: a verification library for the core of the email client

    Ratatoskr (src/) is a desktop email client: an iced application (crate
    [app]) and a background service (crate [service]) that share a SQLite
    database (crates [db], [db-read]) and a blob store (crate [stores]), the
    service talking to the mail providers (crate [sync] and the provider
    crates), the application composing with its own rich text editor (crate
    [rte]).  The library models the parts whose correctness does not lie in a
    third party, as executable definitions, and proves what they promise.

    ** The parts and where they are

    - {b The rich text editor}, crate [rte].  [Document] is document.rs (runs,
      blocks, positions), [Normalize] normalize.rs, [Operations] operations.rs
      (the edit operations with their panics, position maps and inverses),
      [Rules] rules.rs (from actions of the user to operations), [Undo] undo.rs,
      [Input] widget/input.rs (keys and motions), [Editor]
      widget/editor_state.rs, the state everything else acts on: [perform] runs
      a rule, applies its operations, normalizes, moves the selection and
      records the group in the undo stack.  [Cells] is the abstract content of a
      run list (clusters with their style and link) against which the
      operations are specified.
    - {b Conversations}, crate [sync]: [Threading] is threading.rs, the JWZ
      algorithm, as an arena of containers with parent and child indices.
    - {b Identifiers}, crate [types]: [FolderLabel] is folder_label.rs.
    - {b The attachment store}, crate [stores]: [PackFormat] and [PackStore] are
      attachment_pack.rs (frames, logs, index rows, writer, eviction,
      compaction, recovery); [PackThreads] gives the compaction of
      attachment_pack.rs as a state machine beside other threads.
    - {b Actions}: the user archives, stars, moves...  [ActionResolve]
      (crate [app], action_resolve.rs) turns an intent into a plan with its
      optimistic changes; [ActionUi] (handlers/commands.rs, update.rs,
      service_client.rs) dispatches it over the wire types of [ActionTypes]
      (crate [service-api]); [ActionRequests] is the handler that journals it,
      [Journal] (crate [db], action_journal.rs) the tables, [Worker] (crate
      [service], actions/worker.rs) the executor that drains them and notifies
      the application, which updates its plans in flight.  [Batch] is what the
      executor calls for a batch (actions/batch.rs and the files of the
      operations beside it), with the queue of retries, over the mail tables of
      [Mailbox].
    - {b Calendars}, crates [db] and [calendar]: [Civil] is the interface of the
      calendar library, [Recurrence] the expansion of recurrence rules
      (calendars/view/rrule/mod.rs), with the view and the reconciliation of
      deletions that use it.
    - {b Commands}, crates [cmdk] and [app]: [Keybinding] is id.rs,
      keybinding.rs, the defaults of registry/ and handlers/keyboard.rs, from a
      key press to the command it runs.
    - {b Queries}, crates [smart-folder], [types] and [app]: [SmartQuery] is the
      parser of the query language (parser/), the SQL it becomes
      (sql_builder.rs) as predicates on the rows of [Mailbox] and its
      neighbours, the three readers, and the completion in the search bar
      (handlers/search.rs).
    - {b Search}, crates [core], [search] and [app]: [Search] is
      search_pipeline.rs, the way of a query to a list of threads - through the
      statements of [SmartQuery], the index (search/src/lib.rs), or both - with
      the attribution of matches and the grouping of hits.

    The files [Prelude], [Graphemes], [Strings] and [Bytes] carry what the parts
    share: the [Vec] operations that panic, strings as characters and as bytes,
    numerals, machine widths.  The files whose names end in [Theory], [Steps],
    [Specs], [Runs], [Pass], [Life], [Reach], [Invariant] hold lemmas; those in
    [Properties] the theorems, and at their end closed runs in which the code
    does not do what it means to (so do [EditorTheory] and [ActionRequests]);
    those in [Instances] concrete parameters for the witnesses.

    ** Conventions

    A panic is [None] of an [option] in the outermost position; a Rust [Option]
    inside it is a second [option].  A Rust [Result] is a sum or an [option],
    as each file says.  Offsets are [nat], stored integers [N] or [Z] with their
    saturation, wrap-around or failure written out.  Loops are structural or
    run on fuel.

    ** What the theorems show

    - Editor: every operation is undone exactly by its inverse
      ([InverseTheory]); the undo stack walks the history of documents of plain
      text, but for the edits that [EditorTheory] names ([EditorTheory]), edits never panic and keep the document and
      the selection well formed ([WellFormed], [EditorTheory]); normalization
      terminates at a canonical form with the same content ([Normalize]); the
      effect of insertion, deletion and toggles on the cells ([RulesTheory],
      [InsertTheory], [ToggleTheory]).
    - Conversations ([ThreadProperties], [SubjectTheory]): [build_threads] is
      total, and of the messages it keeps - the last one of each Message-ID -
      loses and duplicates none when the references have no loop; two messages
      are in one thread only when references or subjects connect them, and
      replies are in the thread of what they reply to.
    - Attachment store ([PackProperties]): a store refines a map from hashes to
      blobs over every run of requests, collections and crashes; compaction
      among other threads keeps what is live; recovery and rebuilding restore
      the index; operations never get stuck.
    - Actions ([ActionProperties], [ActionRequests], [ActionResolveTheory],
      [ActionUiProperties]): each completion tells what the journal holds, each
      operation is executed at most once in a process, a service that lives
      finishes; undo inverts the plan; the application shows the journal's
      outcomes and never panics.
    - The batch executor ([BatchProperties]): how a label change can end, that
      its confirmation agrees with the recomputation from the messages, that a
      batch is answered in full, each place by its account, where moves go, what is refused without a
      trace with an engine, the keys and the budget of the queue of retries - and that a retry
      never reaches a provider.
    - Calendars ([RecurrenceProperties]): what a parsed rule satisfies, the
      days a month rule selects, the instances each frequency yields in closed
      form, the bounds of the expansion, that a rule which is expanded does not
      show an overridden slot again, and for which series re-anchoring keeps the
      answer of the reconciliation.
    - Commands ([KeybindingProperties]): what a key press does, that the lookups
      agree with the bindings in force and no two commands hold clashing ones,
      when a binding is refused, and what survives a restart.
    - Queries ([SmartProperties]; [SmartTheory] has the query's meaning and the
      reading from left to right): which threads the statements select,
      condition by condition, each parameter number standing for its value;
      what is written reads back field by field, a completed query too; when
      reading panics.
    - Search ([SearchProperties]): what the results of a search are, in terms
      of the hits of the index, when it fails and with which error, and which
      match a result names.

    ** Parameters

    Code that is not in the repository is a class with the laws the code relies
    on: grapheme segmentation and character classes ([Segmentation],
    [CharTables]), the lowercase table ([TextTables]), the blob hashes and their
    hexadecimal form ([PackHashing]), the order in which SQLite returns rows
    ([TableScan]), serialization ([Serde]), the outcome of provider calls
    ([Providers]), fresh identifiers ([new_v7]), civil dates and time zones
    ([Civil.Jiff]), the sync engine ([Batch.Engine]), JSON ([Batch.Json]), the
    clock ([Batch.Runtime], [SmartQuery.Clock]), the orders of hash maps
    ([HashOrder]) and of the rows SQLite sorts
    ([SmartQuery.ThreadScan]), its [LIKE] and [LOWER] ([SmartQuery.SqliteText])
    and its errors ([Search.SqliteErrors]), the search engine with its query
    parser and snippets ([Search.Tantivy]).
    Failing devices and statements are schedules given to the runs.  Each class
    has an instance, on which the witnesses compute.

    ** Fuel and bounds

    [normalize_while] stops after two tests of its condition whatever the dirty
    list ([normalize_blocks_fuel_spec]); the walks of [Threading] take as fuel
    the size of the arena, which bounds an acyclic path, and
    [ThreadProperties.build_threads_total] shows it enough; a scan of a pack
    advances by a frame header, so the length of the file is enough; a drain of
    the worker takes one more than the work left in the journal, and
    [ActionProperties.healthy_service_finishes] shows it enough; the loops of
    [Recurrence] have the step bounds of the source itself; the lexer of
    [SmartQuery] visits at most every byte of its input, and
    [SmartProperties.query_is_its_segments] shows that it reads to the end.

    ** Not modelled

    Rendering and event plumbing of iced; HTML parsing and serialization of the
    editor; SQL beyond the tables named above; the provider clients, OAuth, IPC
    framing and process management; opening and writing the search index.  They
    are I/O, third-party formats or glue.  Of the executor: the account groups of
    a batch beside each other, the sending of read receipts, the creation of
    labels and folders.  Pure and not modelled are the palette of crate [cmdk],
    the filters and bundles of crate [sync], the editor's HTML serializer and
    compose documents, importing of contacts. *)

From stdpp Require Export base tactics option list strings gmap.
From Stdlib Require Export Ascii Lia.
From Stdlib Require String.

(** ** Vectors

    The [Vec] operations that panic when the index is out of range: the panic
    is [None]. *)

Definition vec_insert {A} (i : nat) (x : A) (l : list A) : option (list A) :=
  if decide (i ≤ length l) then Some (take i l ++ x :: drop i l) else None.

Definition vec_remove {A} (i : nat) (l : list A) : option (list A) :=
  if decide (i < length l) then Some (take i l ++ drop (S i) l) else None.

(** [slot = value] through [get_mut]: nothing happens out of range. *)
Definition vec_set {A} (i : nat) (x : A) (l : list A) : list A := <[i := x]> l.

Lemma vec_insert_Some {A} i (x : A) l l' :
  vec_insert i x l = Some l' ↔ i ≤ length l ∧ l' = take i l ++ x :: drop i l.
Proof. unfold vec_insert. case_decide; split; intros ?; destruct_and?; simplify_eq; auto; lia. Qed.

Lemma vec_remove_Some {A} i (l l' : list A) :
  vec_remove i l = Some l' ↔ i < length l ∧ l' = take i l ++ drop (S i) l.
Proof. unfold vec_remove. case_decide; split; intros ?; destruct_and?; simplify_eq; auto; lia. Qed.

(** Repeated application in the option monad. *)
Fixpoint iter_opt {A} (n : nat) (f : A → option A) (x : A) : option A :=
  match n with
  | O => Some x
  | S n => y ← f x; iter_opt n f y
  end.

Definition is_nil {A} (l : list A) : bool := match l with [] => true | _ => false end.

Lemma is_nil_spec {A} (l : list A) : is_nil l = true ↔ l = [].
Proof. by destruct l. Qed.

Lemma list_alter_eq {A} (f : A → A) (l : list A) i x :
  l !! i = Some x → alter f i l = <[i := f x]> l.
Proof.
  revert i. induction l as [|y l IH]; intros [|i] E; simpl in *; [done..| |].
  - by injection E as ->.
  - rewrite <- (IH i E). done.
Qed.

Lemma list_alter_none {A} (f : A → A) (l : list A) i : l !! i = None → alter f i l = l.
Proof.
  revert i. induction l as [|y l IH]; intros [|i] E; simpl in *; [done..|].
  by rewrite <- (IH i E) at 2.
Qed.

(** Case analysis on the binds and the tests of an [option] computation that
    returned. *)
Ltac inv_step H :=
  lazymatch type of H with
  | None = Some _ => discriminate H
  | Some _ = None => discriminate H
  | mbind _ ?e = Some _ =>
      let E := fresh "E" in destruct e eqn:E; cbn [mbind option_bind] in H
  | match ?e with _ => _ end = Some _ =>
      let E := fresh "E" in destruct e eqn:E
  end.
Ltac inv_run H := repeat (inv_step H); try (injection H; clear H; intros; subst).

(** A loop over a list whose body can panic, and a search whose test can. *)
Fixpoint fold_opt {A B} (f : A → B → option A) (l : list B) (x : A) : option A :=
  match l with
  | [] => Some x
  | b :: l => y ← f x b; fold_opt f l y
  end.

Fixpoint find_map_opt {A B} (f : A → option (option B)) (l : list A) : option (option B) :=
  match l with
  | [] => Some None
  | a :: l =>
      r ← f a;
      match r with Some b => Some (Some b) | None => find_map_opt f l end
  end.

Lemma fold_opt_app {A B} (f : A → B → option A) l1 l2 x :
  fold_opt f (l1 ++ l2) x = fold_opt f l1 x ≫= fold_opt f l2.
Proof.
  revert x. induction l1 as [|b l1 IH]; intros x; [done|]. cbn [fold_opt app].
  destruct (f x b); [apply IH|done].
Qed.

Lemma mjoin_perm {A} (xss yss : list (list A)) : xss ≡ₚ yss → mjoin xss ≡ₚ mjoin yss.
Proof.
  induction 1 as [|xs xss yss _ IH|xs ys xss|? ? ? _ IH1 _ IH2]; cbn; [done|by rewrite IH| |by etrans].
  by rewrite !app_assoc, (Permutation_app_comm xs ys).
Qed.

(** ** Hash maps *)

(** The order in which a hash map or hash set is visited. *)
Class HashOrder := {
  hash_order {A} : list A → list A;
  hash_order_rows {A} (l : list A) : hash_order l ≡ₚ l
}.
