(* ===== verification/Graphemes.v ===== *)
(** * Graphemes: strings and the grapheme segmentation the editor counts in

    A Rust [String] is its UTF-8 bytes ([text]).  Every offset of the rich text
    editor counts extended grapheme clusters, which the third-party crate
    [unicode_segmentation] computes; it is the parameter [graphemes] of the
    class [Segmentation], whose laws are the documented behaviour of UAX #29
    segmentation.  [text_len] and [text_to_byte_offset] are
    src/crates/rte/src/document.rs. *)

From S2P Require Import Prelude.

Abbreviation text := (list ascii).

(** String literals of the source. *)
Definition lit (s : string) : text := String.list_ascii_of_string s.

Definition byte_val (c : ascii) : N := N_of_ascii c.

(** The ASCII bytes 0x20 to 0x7e. *)
Definition printable (c : ascii) : Prop := (32 ≤ byte_val c ≤ 126)%N.

(** ** Characters of a string: UTF-8 decoding *)

Fixpoint chars_go (acc : N) (need : nat) (s : text) : list N :=
  match s with
  | [] => []
  | b :: s' =>
      let v := byte_val b in
      match need with
      | O =>
          if (v <? 128)%N then v :: chars_go 0 0 s'
          else if (v <? 224)%N then chars_go (N.land v 31) 1 s'
          else if (v <? 240)%N then chars_go (N.land v 15) 2 s'
          else chars_go (N.land v 7) 3 s'
      | S n =>
          let acc' := (acc * 64 + N.land v 63)%N in
          match n with
          | O => acc' :: chars_go 0 0 s'
          | S _ => chars_go acc' n s'
          end
      end
  end.

(** [str::chars] *)
Definition chars (s : text) : list N := chars_go 0 0 s.

(** [char::is_whitespace]: the White_Space property. *)
Definition is_whitespace (c : N) : bool :=
  ((9 <=? c) && (c <=? 13) || (c =? 32) || (c =? 133) || (c =? 160) || (c =? 5760)
   || ((8192 <=? c) && (c <=? 8202)) || (c =? 8232) || (c =? 8233) || (c =? 8239)
   || (c =? 8287) || (c =? 12288))%N.

(** [s.trim().is_empty()] *)
Definition trims_to_empty (s : text) : bool := forallb is_whitespace (chars s).

(** ** Segmentation *)

Class Segmentation := {
  graphemes : text → list text;
  (** The clusters are consecutive slices of the string ... *)
  graphemes_concat s : concat (graphemes s) = s;
  (** ... none of them empty. *)
  graphemes_ne s g : g ∈ graphemes s → g ≠ [];
  (** Cutting at a cluster boundary changes no cluster on either side. *)
  graphemes_take n s : graphemes (concat (take n (graphemes s))) = take n (graphemes s);
  graphemes_drop n s : graphemes (concat (drop n (graphemes s))) = drop n (graphemes s);
  (** A printable ASCII character is a cluster of its own. *)
  graphemes_ascii s : Forall printable s → graphemes s = (λ c, [c]) <$> s
}.

Section Length.
Context `{Segmentation}.

Definition text_len (s : text) : nat := length (graphemes s).

(** The byte index of the [offset]-th cluster, the length of the string
    when there is no such cluster. *)
Definition text_to_byte_offset (s : text) (offset : nat) : nat :=
  if decide (offset < length (graphemes s))
  then length (concat (take offset (graphemes s)))
  else length s.

(** No cluster forms across the join of [a] and [b]. *)
Definition seam (a b : text) : Prop := graphemes (a ++ b) = graphemes a ++ graphemes b.

Lemma text_to_byte_offset_concat s n :
  text_to_byte_offset s n = length (concat (take n (graphemes s))).
Proof.
  unfold text_to_byte_offset. case_decide as Hn; [done|].
  rewrite take_ge by lia. by rewrite graphemes_concat.
Qed.

Lemma concat_take_drop s n :
  concat (take n (graphemes s)) ++ concat (drop n (graphemes s)) = s.
Proof. by rewrite <- concat_app, take_drop, graphemes_concat. Qed.

Lemma text_to_byte_offset_le s n : text_to_byte_offset s n ≤ length s.
Proof.
  rewrite text_to_byte_offset_concat.
  pose proof (f_equal length (concat_take_drop s n)) as E.
  rewrite length_app in E. lia.
Qed.

Lemma take_byte_offset s n :
  take (text_to_byte_offset s n) s = concat (take n (graphemes s)).
Proof.
  rewrite text_to_byte_offset_concat.
  pose proof (concat_take_drop s n) as E.
  by rewrite <- E at 2; rewrite take_app_length.
Qed.

Lemma drop_byte_offset s n :
  drop (text_to_byte_offset s n) s = concat (drop n (graphemes s)).
Proof.
  rewrite text_to_byte_offset_concat.
  pose proof (concat_take_drop s n) as E.
  by rewrite <- E at 2; rewrite drop_app_length.
Qed.

Lemma graphemes_take_byte s n :
  graphemes (take (text_to_byte_offset s n) s) = take n (graphemes s).
Proof. by rewrite take_byte_offset, graphemes_take. Qed.

Lemma graphemes_drop_byte s n :
  graphemes (drop (text_to_byte_offset s n) s) = drop n (graphemes s).
Proof. by rewrite drop_byte_offset, graphemes_drop. Qed.

Lemma graphemes_nil : graphemes [] = [].
Proof.
  destruct (graphemes []) as [|g gs] eqn:E; [done|].
  pose proof (graphemes_concat []) as Hc. rewrite E in Hc. simpl in Hc.
  apply app_eq_nil in Hc as [-> _].
  exfalso. apply (graphemes_ne [] []); [|done]. rewrite E. set_solver.
Qed.

Lemma graphemes_nil_inv s : graphemes s = [] → s = [].
Proof. intros E. by rewrite <- (graphemes_concat s), E. Qed.

Lemma text_len_nil : text_len [] = 0.
Proof. unfold text_len. by rewrite graphemes_nil. Qed.

Lemma text_len_0 s : text_len s = 0 ↔ s = [].
Proof.
  unfold text_len. split.
  - intros ?%nil_length_inv. by apply graphemes_nil_inv.
  - intros ->. by rewrite graphemes_nil.
Qed.

Lemma text_len_seam a b : seam a b → text_len (a ++ b) = text_len a + text_len b.
Proof. unfold seam, text_len. intros ->. by rewrite length_app. Qed.

(** A slice between two cluster boundaries. *)
Lemma graphemes_slice s i j :
  i ≤ j →
  graphemes (drop (text_to_byte_offset s i) (take (text_to_byte_offset s j) s))
  = drop i (take j (graphemes s)).
Proof.
  intros Hij. set (t := take (text_to_byte_offset s j) s).
  assert (Ht : graphemes t = take j (graphemes s)) by apply graphemes_take_byte.
  assert (Ho : text_to_byte_offset s i = text_to_byte_offset t i).
  { rewrite !text_to_byte_offset_concat, Ht, take_take. do 3 f_equal. lia. }
  by rewrite Ho, graphemes_drop_byte, Ht.
Qed.

Lemma seam_nil_l b : seam [] b.
Proof. unfold seam. by rewrite graphemes_nil. Qed.

Lemma seam_nil_r a : seam a [].
Proof. unfold seam. by rewrite graphemes_nil, !app_nil_r. Qed.

Lemma seam_ascii a b : Forall printable a → Forall printable b → seam a b.
Proof.
  intros Ha Hb. unfold seam.
  rewrite !graphemes_ascii by (auto; by apply Forall_app_2). apply fmap_app.
Qed.
End Length.

(** ** Concrete segmentations

    [byte_segmentation]: every byte is a cluster, which is UAX #29 on printable
    ASCII.  [mark_segmentation]: a non-ASCII byte extends the cluster before it,
    the way a combining mark does. *)

Lemma concat_singletons {A} (s : list A) : concat ((λ c, [c]) <$> s) = s.
Proof. induction s as [|c s IH]; [done|]. rewrite fmap_cons. simpl. by f_equal. Qed.

Definition byte_graphemes (s : text) : list text := (λ c, [c]) <$> s.

Lemma byte_graphemes_concat s : concat (byte_graphemes s) = s.
Proof. apply concat_singletons. Qed.

Lemma byte_graphemes_ne s g : g ∈ byte_graphemes s → g ≠ [].
Proof. intros (c & -> & _)%list_elem_of_fmap. done. Qed.

Lemma byte_graphemes_take n s :
  byte_graphemes (concat (take n (byte_graphemes s))) = take n (byte_graphemes s).
Proof. unfold byte_graphemes. rewrite <- fmap_take. f_equal. apply concat_singletons. Qed.

Lemma byte_graphemes_drop n s :
  byte_graphemes (concat (drop n (byte_graphemes s))) = drop n (byte_graphemes s).
Proof. unfold byte_graphemes. rewrite <- fmap_drop. f_equal. apply concat_singletons. Qed.

Definition byte_segmentation : Segmentation := {|
  graphemes := byte_graphemes;
  graphemes_concat := byte_graphemes_concat;
  graphemes_ne := byte_graphemes_ne;
  graphemes_take := byte_graphemes_take;
  graphemes_drop := byte_graphemes_drop;
  graphemes_ascii s _ := eq_refl
|}.

Definition extends (c : ascii) : bool := (128 <=? byte_val c)%N.

Definition push_char (c : ascii) (gs : list text) : list text :=
  match gs with
  | (d :: g) :: gs' => if extends d then (c :: d :: g) :: gs' else [c] :: gs
  | _ => [c] :: gs
  end.

Fixpoint mark_graphemes (s : text) : list text :=
  match s with
  | [] => []
  | c :: s' => push_char c (mark_graphemes s')
  end.

Lemma mark_graphemes_concat s : concat (mark_graphemes s) = s.
Proof.
  induction s as [|c s IH]; [done|]. simpl. rewrite <- IH at 2.
  destruct (mark_graphemes s) as [|[|d g] gs]; [done..|].
  simpl. by destruct (extends d).
Qed.

Lemma mark_graphemes_ne s g : g ∈ mark_graphemes s → g ≠ [].
Proof.
  revert g. induction s as [|c s IH]; intros g; simpl; [set_solver|].
  destruct (mark_graphemes s) as [|[|d g'] gs]; simpl; [set_solver|set_solver|].
  destruct (extends d); set_solver.
Qed.

Lemma mark_graphemes_drop n s :
  mark_graphemes (concat (drop n (mark_graphemes s))) = drop n (mark_graphemes s).
Proof.
  revert n. induction s as [|c s IH]; intros n; [by destruct n|].
  destruct n as [|n].
  { rewrite !drop_0. by rewrite mark_graphemes_concat. }
  simpl. destruct (mark_graphemes s) as [|[|d g] gs] eqn:E; simpl.
  - by destruct n.
  - apply (IH n).
  - destruct (extends d); [apply (IH (S n))|apply (IH n)].
Qed.

Lemma mark_graphemes_take n s :
  mark_graphemes (concat (take n (mark_graphemes s))) = take n (mark_graphemes s).
Proof.
  revert n. induction s as [|c s IH]; intros n; [by destruct n|].
  destruct n as [|n]; [done|].
  simpl. destruct (mark_graphemes s) as [|[|d g] gs] eqn:E.
  - by destruct n.
  - exfalso. apply (mark_graphemes_ne s []); [|done]. rewrite E. set_solver.
  - pose proof (IH n) as IHn. pose proof (IH (S n)) as IHS.
    cbn [push_char]. destruct (extends d) eqn:Hd.
    + change (push_char c (mark_graphemes (concat (take (S n) ((d :: g) :: gs))))
              = take (S n) ((c :: d :: g) :: gs)).
      rewrite IHS. simpl. by rewrite Hd.
    + change (push_char c (mark_graphemes (concat (take n ((d :: g) :: gs))))
              = [c] :: take n ((d :: g) :: gs)).
      rewrite IHn. destruct n as [|n]; [done|]. simpl. by rewrite Hd.
Qed.

Lemma mark_graphemes_ascii s :
  Forall printable s → mark_graphemes s = (λ c, [c]) <$> s.
Proof.
  induction 1 as [|c s Hc Hs IH]; [done|]. cbn [mark_graphemes]. rewrite IH.
  destruct Hs as [|d s Hd Hs]; [done|].
  assert (extends d = false) as Hx.
  { unfold extends. apply N.leb_gt. unfold printable in Hd. lia. }
  rewrite !fmap_cons. simpl. by rewrite Hx.
Qed.

Definition mark_segmentation : Segmentation := {|
  graphemes := mark_graphemes;
  graphemes_concat := mark_graphemes_concat;
  graphemes_ne := mark_graphemes_ne;
  graphemes_take := mark_graphemes_take;
  graphemes_drop := mark_graphemes_drop;
  graphemes_ascii := mark_graphemes_ascii
|}.
