(* ===== verification/Strings.v ===== *)
(** * Strings: a Rust [str] as its characters

    The crates outside the rich text editor work on strings character by
    character.  Here a string is the list of its Unicode scalar values, with the
    operations of the standard library those crates use.  Byte indices appear
    where the source slices by bytes: [slice_from] is [None] where Rust panics.
    [TextTables] holds the Unicode lowercase table. *)

From S2P Require Import Prelude.
From S2P Require Import Graphemes.

Abbreviation str := (list N).

(** String literals of the source (ASCII). *)
Definition slit (s : string) : str := N_of_ascii <$> String.list_ascii_of_string s.

(** ** UTF-8 *)

Definition byte_of (n : N) : ascii := ascii_of_N n.

(** The bytes of a [char]. *)
Definition encode_char (c : N) : text :=
  (if c <? 128 then [byte_of c]
   else if c <? 2048 then [byte_of (192 + c / 64); byte_of (128 + c mod 64)]
   else if c <? 65536 then
     [byte_of (224 + c / 4096); byte_of (128 + c / 64 mod 64); byte_of (128 + c mod 64)]
   else
     [byte_of (240 + c / 262144); byte_of (128 + c / 4096 mod 64);
      byte_of (128 + c / 64 mod 64); byte_of (128 + c mod 64)])%N.

(** Collecting characters into a string of bytes. *)
Definition encode (cs : list N) : text := cs ≫= encode_char.

(** [char::len_utf8] *)
Definition len_utf8 (c : N) : nat :=
  if (c <? 128)%N then 1 else if (c <? 2048)%N then 2 else if (c <? 65536)%N then 3 else 4.

(** [&s[n..]], which panics when byte [n] is not a character boundary. *)
Fixpoint slice_from (n : nat) (s : str) : option str :=
  match n with
  | O => Some s
  | S _ =>
      match s with
      | [] => None
      | c :: s' => if len_utf8 c <=? n then slice_from (n - len_utf8 c) s' else None
      end
  end.

(** ** Character classes *)

(** [char::is_control]: the general category Cc. *)
Definition is_control (c : N) : bool := ((c <? 32) || ((127 <=? c) && (c <=? 159)))%N.

(** [char::to_ascii_lowercase] *)
Definition lower_char (c : N) : N := if ((65 <=? c) && (c <=? 90))%N then (c + 32)%N else c.

(** [str::to_ascii_lowercase] *)
Definition to_ascii_lowercase (s : str) : str := lower_char <$> s.

(** [str::to_lowercase].  A string in lower case starts with an ASCII word
    exactly when the string starts with it up to the case of ASCII letters: no
    other character has an ASCII lowercase image, except for the letters i and k
    (U+0130 and U+212A). *)
Class TextTables := {
  lowercase : str → str;
  lowercase_prefix p s : Forall (λ c, (c < 128 ∧ c ≠ 105 ∧ c ≠ 107)%N) p →
    (p `prefix_of` lowercase s ↔ p `prefix_of` to_ascii_lowercase s)
}.

(** The table restricted to ASCII. *)
Definition ascii_text : TextTables :=
  {| lowercase := to_ascii_lowercase; lowercase_prefix _ _ _ := conj (λ H, H) (λ H, H) |}.

(** ** Trimming and searching *)

(** [str::trim_start_matches], by a test on characters. *)
Fixpoint trim_start_by (f : N → bool) (s : str) : str :=
  match s with
  | [] => []
  | c :: s' => if f c then trim_start_by f s' else s
  end.

Definition trim_end_by (f : N → bool) (s : str) : str := reverse (trim_start_by f (reverse s)).

Definition trim_start : str → str := trim_start_by is_whitespace.
Definition trim_end : str → str := trim_end_by is_whitespace.

(** [str::trim] *)
Definition trim (s : str) : str := trim_end (trim_start s).

(** [str::strip_prefix] *)
Fixpoint strip_prefix (p s : str) : option str :=
  match p, s with
  | [], _ => Some s
  | a :: p', b :: s' => if (a =? b)%N then strip_prefix p' s' else None
  | _ :: _, [] => None
  end.

(** [str::strip_suffix] *)
Definition strip_suffix (p s : str) : option str :=
  reverse <$> strip_prefix (reverse p) (reverse s).

Definition starts_with (p s : str) : bool := bool_decide (is_Some (strip_prefix p s)).

(** What comes before and after the first [c], as [find] and two slices or
    [splitn(2, c)] give it. *)
Fixpoint split_once (c : N) (s : str) : option (str * str) :=
  match s with
  | [] => None
  | x :: s' =>
      if (x =? c)%N then Some ([], s')
      else '(a, b) ← split_once c s'; Some (x :: a, b)
  end.

(** [str::split] by a character *)
Fixpoint split_char (c : N) (s : str) : list str :=
  match s with
  | [] => [[]]
  | x :: s' =>
      if (x =? c)%N then [] :: split_char c s'
      else match split_char c s' with
           | p :: ps => (x :: p) :: ps
           | [] => [[x]]
           end
  end.

(** [str::split_once] by a string *)
Fixpoint split_once_str (p s : str) : option (str * str) :=
  match strip_prefix p s with
  | Some r => Some ([], r)
  | None =>
      match s with
      | [] => None
      | x :: s' => '(a, b) ← split_once_str p s'; Some (x :: a, b)
      end
  end.

Fixpoint split_whitespace_go (cur : str) (s : str) : list str :=
  let done := if is_nil cur then [] else [cur] in
  match s with
  | [] => done
  | c :: s' =>
      if is_whitespace c then done ++ split_whitespace_go [] s'
      else split_whitespace_go (cur ++ [c]) s'
  end.

(** [str::split_whitespace] *)
Definition split_whitespace : str → list str := split_whitespace_go [].

(** ** Order *)

(** [str::cmp], and the order of SQLite for text: by bytes, which is by characters. *)
Fixpoint str_leb (x y : str) : bool :=
  match x, y with
  | [], _ => true
  | _ :: _, [] => false
  | a :: x, b :: y => (a <? b)%N || ((a =? b)%N && str_leb x y)
  end.

Definition str_le (x y : str) : Prop := str_leb x y = true.

#[export] Instance str_le_dec x y : Decision (str_le x y).
Proof. unfold str_le. apply _. Defined.

(** Not tried for equations of booleans. *)
#[global] Typeclasses Opaque str_le.

(** ** Lemmas *)

Lemma strip_prefix_Some p s r : strip_prefix p s = Some r ↔ s = p ++ r.
Proof.
  revert s. induction p as [|a p IH]; intros [|b s]; simpl; try naive_solver.
  destruct (N.eqb_spec a b) as [<-|Hne]; [rewrite IH|]; naive_solver.
Qed.

Lemma strip_prefix_app p s : strip_prefix p (p ++ s) = Some s.
Proof. by apply strip_prefix_Some. Qed.

Lemma strip_suffix_Some p s r : strip_suffix p s = Some r ↔ s = r ++ p.
Proof.
  unfold strip_suffix. destruct (strip_prefix (reverse p) (reverse s)) as [t|] eqn:E; simpl.
  - apply strip_prefix_Some in E. apply (f_equal reverse) in E.
    rewrite reverse_app, !reverse_involutive in E. split.
    + by intros [= <-].
    + intros ->. f_equal. by apply app_inj_2 in E as [-> _].
  - split; [done|]. intros ->. rewrite reverse_app in E. by rewrite strip_prefix_app in E.
Qed.

Lemma strip_suffix_app p s : strip_suffix p (s ++ p) = Some s.
Proof. by apply strip_suffix_Some. Qed.

Lemma starts_with_spec p s : starts_with p s = true ↔ p `prefix_of` s.
Proof.
  unfold starts_with. rewrite bool_decide_eq_true. split.
  - intros [r Hr]. exists r. by apply strip_prefix_Some.
  - intros [r ->]. exists r. apply strip_prefix_app.
Qed.

Lemma split_once_Some c s a b : split_once c s = Some (a, b) ↔ s = a ++ c :: b ∧ c ∉ a.
Proof.
  revert a. induction s as [|x s IH]; intros a; simpl.
  { split; [done|]. intros [E _]. by destruct a. }
  destruct (N.eqb_spec x c) as [->|Hne].
  - split; [intros [= <- <-]; split; [done|set_solver]|].
    intros [E Hn]. destruct a as [|y a]; simplify_eq/=; [done|]. set_solver.
  - destruct (split_once c s) as [[a' b']|] eqn:Es; simpl.
    + split.
      * intros [= <- <-]. destruct (proj1 (IH a') eq_refl) as [-> Hn].
        split; [done|set_solver].
      * intros [E Hn]. destruct a as [|y a]; simplify_eq/=.
        assert (Some (a', b') = Some (a, b)) as [= <- <-]; [|done].
        apply IH. split; [done|set_solver].
    + split; [done|]. intros [E Hn]. destruct a as [|y a]; simplify_eq/=.
      assert (None = Some (a, b)) as ?; [|done]. apply IH. split; [done|set_solver].
Qed.

Lemma split_once_None c s : split_once c s = None ↔ c ∉ s.
Proof.
  induction s as [|x s IH]; simpl; [set_solver|].
  destruct (N.eqb_spec x c) as [->|Hne]; [set_solver|].
  destruct (split_once c s) as [[a b]|]; simpl; set_solver.
Qed.

Lemma trim_start_by_suffix f s : ∃ w, s = w ++ trim_start_by f s ∧ Forall (λ c, f c = true) w.
Proof.
  induction s as [|c s (w & E & Hw)]; simpl; [by exists []|].
  destruct (f c) eqn:Ec; [|by exists []]. exists (c :: w). split; [simpl; by f_equal|by constructor].
Qed.

Lemma trim_start_by_head f c s : trim_start_by f s = c :: tail (trim_start_by f s) → f c = false.
Proof. induction s as [|x s IH]; simpl; [done|]. destruct (f x) eqn:E; naive_solver. Qed.

Lemma trim_start_by_length f s : length (trim_start_by f s) ≤ length s.
Proof. destruct (trim_start_by_suffix f s) as (w & E & _). rewrite E at 2. rewrite length_app. lia. Qed.

Lemma trim_start_by_id f c s : f c = false → trim_start_by f (c :: s) = c :: s.
Proof. simpl. by intros ->. Qed.

Lemma trim_start_by_app f w s :
  Forall (λ c, f c = true) w → trim_start_by f (w ++ s) = trim_start_by f s.
Proof. by induction 1 as [|c w Hc _ IH]; simpl; [|rewrite Hc]. Qed.

Lemma split_char_end c s : c ∉ s → split_char c s = [s].
Proof.
  induction s as [|x s IH]; [done|]. intros [Hx Hs]%not_elem_of_cons. cbn.
  rewrite (proj2 (N.eqb_neq x c)) by done. by rewrite IH.
Qed.

Lemma split_char_app c a s : c ∉ a → split_char c (a ++ c :: s) = a :: split_char c s.
Proof.
  induction a as [|x a IH]; cbn; [by rewrite N.eqb_refl|]. intros [Hx Ha]%not_elem_of_cons.
  rewrite (proj2 (N.eqb_neq x c)) by done. by rewrite IH.
Qed.
