(* ===== verification/Bytes.v ===== *)
(** * Bytes and numerals

    What the storage code uses of the standard library on byte slices:
    little-endian integers ([to_le_bytes], [from_le_bytes]), [copy_from_slice]
    into a fixed array, and the decimal numerals of [format!] and
    [str::parse]. *)

From S2P Require Import Prelude.
From S2P Require Import Strings.
From Stdlib Require Export Init.Byte.
From Stdlib Require Strings.Byte.

Abbreviation bytes := (list byte).

#[export] Instance byte_eq_dec : EqDecision byte := Byte.byte_eq_dec.

(** [n as u8] *)
Definition byte_of_N (n : N) : byte := from_option id x00 (Byte.of_N (n mod 256)).

Lemma byte_of_N_to_N b : byte_of_N (Byte.to_N b) = b.
Proof. by destruct b. Qed.

Lemma to_N_byte_of_N n : Byte.to_N (byte_of_N n) = (n mod 256)%N.
Proof.
  unfold byte_of_N. destruct (Byte.of_N (n mod 256)) as [b|] eqn:E; simpl.
  - by apply Byte.to_of_N.
  - apply Byte.of_N_None_iff in E. pose proof (N.mod_lt n 256 ltac:(done)). lia.
Qed.

Lemma to_N_lt b : (Byte.to_N b < 256)%N.
Proof. pose proof (Byte.to_N_bounded b). lia. Qed.

#[export] Instance byte_countable : Countable byte.
Proof. exact (inj_countable' Byte.to_N byte_of_N byte_of_N_to_N). Defined.

#[export] Instance to_N_inj : Inj (=) (=) Byte.to_N.
Proof. intros a b E. by rewrite <- (byte_of_N_to_N a), E, byte_of_N_to_N. Qed.

(** The length of a slice, as a [u64]. *)
Definition blen (l : bytes) : N := N.of_nat (length l).

Lemma blen_app a b : blen (a ++ b) = (blen a + blen b)%N.
Proof. unfold blen. rewrite length_app. lia. Qed.

Lemma blen_nil : blen [] = 0%N.
Proof. done. Qed.

Create Rewrite HintDb bytes.
#[export] Hint Rewrite blen_app blen_nil : bytes.

(** ** Machine integers *)

Definition u32_max : N := 4294967295.
Definition u64_max : N := 18446744073709551615.

(** [u32::saturating_add], [u64::saturating_add] *)
Definition sat_add_u32 (a b : N) : N := N.min (a + b) u32_max.
Definition sat_add_u64 (a b : N) : N := N.min (a + b) u64_max.

Lemma sat_add_u64_exact a b : (a + b ≤ u64_max)%N → sat_add_u64 a b = (a + b)%N.
Proof. apply N.min_l. Qed.

Lemma sat_add_u64_le a b k : (sat_add_u64 a b ≤ k)%N → (k < u64_max)%N → (a + b ≤ k)%N.
Proof. unfold sat_add_u64. generalize u64_max. lia. Qed.

Lemma sat_add_u32_exact a b : (a + b ≤ u32_max)%N → sat_add_u32 a b = (a + b)%N.
Proof. apply N.min_l. Qed.

(** [n.to_le_bytes()] for an integer of [k] bytes *)
Fixpoint le_bytes (k : nat) (n : N) : bytes :=
  match k with
  | O => []
  | S k => byte_of_N n :: le_bytes k (n / 256)%N
  end.

(** [from_le_bytes] *)
Fixpoint le_value (l : bytes) : N :=
  match l with
  | [] => 0
  | b :: l => (Byte.to_N b + 256 * le_value l)%N
  end.

Lemma length_le_bytes k n : length (le_bytes k n) = k.
Proof. revert n. induction k as [|k IH]; intros n; simpl; [done|by rewrite IH]. Qed.

Lemma le_value_le_bytes k n : le_value (le_bytes k n) = (n mod 256 ^ N.of_nat k)%N.
Proof.
  revert n. induction k as [|k IH]; intros n.
  { simpl. by rewrite N.mod_1_r. }
  cbn [le_bytes le_value]. rewrite IH, to_N_byte_of_N.
  replace (N.of_nat (S k)) with (N.succ (N.of_nat k)) by lia.
  rewrite N.pow_succ_r', N.Div0.mod_mul_r. lia.
Qed.

Lemma le_value_small k n : (n < 256 ^ N.of_nat k)%N → le_value (le_bytes k n) = n.
Proof. intros H. rewrite le_value_le_bytes. by apply N.mod_small. Qed.

Lemma le_value_lt l : (le_value l < 256 ^ blen l)%N.
Proof.
  induction l as [|b l IH]; [by vm_compute|].
  cbn [le_value]. replace (blen (b :: l)) with (N.succ (blen l)) by (unfold blen; simpl; lia).
  rewrite N.pow_succ_r'. pose proof (to_N_lt b). nia.
Qed.

Lemma le_bytes_le_value l : le_bytes (length l) (le_value l) = l.
Proof.
  induction l as [|b l IH]; [done|]. cbn [length le_bytes le_value].
  pose proof (to_N_lt b). f_equal.
  - apply (inj Byte.to_N). rewrite to_N_byte_of_N.
    rewrite N.mul_comm, N.Div0.mod_add. by apply N.mod_small.
  - rewrite N.mul_comm, N.div_add by done. rewrite N.div_small, N.add_0_l by done. done.
Qed.

Lemma le_bytes_inj k a b :
  (a < 256 ^ N.of_nat k)%N → (b < 256 ^ N.of_nat k)%N → le_bytes k a = le_bytes k b → a = b.
Proof. intros Ha Hb E. rewrite <- (le_value_small k a), <- (le_value_small k b), E by done. done. Qed.

(** ** Slices by [u64] offsets *)

Definition bdrop (n : N) (l : bytes) : bytes := drop (N.to_nat n) l.
Definition btake (n : N) (l : bytes) : bytes := take (N.to_nat n) l.

Lemma bdrop_app a b : bdrop (blen a) (a ++ b) = b.
Proof. unfold bdrop, blen. rewrite Nat2N.id. apply drop_app_length. Qed.

Lemma bdrop_app_le n a b : (n ≤ blen a)%N → bdrop n (a ++ b) = bdrop n a ++ b.
Proof. unfold bdrop, blen. intros H. apply drop_app_le. lia. Qed.

Lemma btake_app a b : btake (blen a) (a ++ b) = a.
Proof. unfold btake, blen. rewrite Nat2N.id. apply take_app_length. Qed.

Lemma blen_bdrop n l : blen (bdrop n l) = (blen l - n)%N.
Proof. unfold blen, bdrop. rewrite length_drop. lia. Qed.

Lemma blen_btake n l : blen (btake n l) = N.min n (blen l).
Proof. unfold blen, btake. rewrite length_take. lia. Qed.

Lemma btake_bdrop n l : btake n l ++ bdrop n l = l.
Proof. apply take_drop. Qed.

Lemma btake_all n l : (blen l ≤ n)%N → btake n l = l.
Proof. unfold btake, blen. intros. apply take_ge. lia. Qed.

Lemma bdrop_all n l : (blen l ≤ n)%N → bdrop n l = [].
Proof. unfold bdrop, blen. intros. apply drop_ge. lia. Qed.

Lemma bdrop_bdrop n m l : bdrop n (bdrop m l) = bdrop (m + n) l.
Proof. unfold bdrop. rewrite drop_drop. f_equal. lia. Qed.

#[export] Hint Rewrite blen_bdrop blen_btake : bytes.

(** ** Decimal numerals *)

Fixpoint decimal_go (fuel : nat) (n : N) (acc : str) : str :=
  match fuel with
  | O => acc
  | S fuel =>
      let acc := (48 + n mod 10)%N :: acc in
      if (n <? 10)%N then acc else decimal_go fuel (n / 10)%N acc
  end.

(** [format!] of an unsigned integer: a digit per step, and a number has at most
    as many digits as bits. *)
Definition decimal (n : N) : str := decimal_go (S (N.to_nat (N.size n))) n [].

(** [format!] with the width [0k]: zeros on the left up to [k] characters *)
Definition decimal_pad (k : nat) (n : N) : str :=
  replicate (k - length (decimal n)) 48%N ++ decimal n.

(** [u32::parse]: an optional plus sign, then at least one digit, no overflow *)
Fixpoint parse_digits (max acc : N) (s : str) : option N :=
  match s with
  | [] => Some acc
  | c :: s =>
      if ((48 <=? c) && (c <=? 57))%N then
        let acc := (acc * 10 + (c - 48))%N in
        if (acc <=? max)%N then parse_digits max acc s else None
      else None
  end.

Definition parse_unsigned (max : N) (s : str) : option N :=
  let s := match s with 43%N :: (_ :: _) as r => tail s | _ => s end in
  if is_nil s then None else parse_digits max 0 s.

(** Lemmas: the digits of [n] read back as [n]. *)

Definition is_digit (c : N) : Prop := (48 ≤ c ≤ 57)%N.

Lemma last_digit n : is_digit (48 + n mod 10)%N.
Proof.
  pose proof (N.mod_lt n 10 ltac:(done)) as H. unfold is_digit.
  generalize dependent (n mod 10)%N. lia.
Qed.

Lemma decimal_go_digits fuel n acc : Forall is_digit acc → Forall is_digit (decimal_go fuel n acc).
Proof.
  revert n acc. induction fuel as [|fuel IH]; intros n acc H; [done|]. cbn [decimal_go].
  assert (Forall is_digit ((48 + n mod 10)%N :: acc)) by (constructor; [apply last_digit|done]).
  destruct (n <? 10)%N; [done|by apply IH].
Qed.

Lemma decimal_digits n : Forall is_digit (decimal n).
Proof. by apply decimal_go_digits. Qed.

(** The value of a string of digits. *)
Definition digits_value (acc : N) (s : str) : N := foldl (λ a c, (a * 10 + (c - 48))%N) acc s.

Lemma digits_value_app acc s t : digits_value acc (s ++ t) = digits_value (digits_value acc s) t.
Proof. unfold digits_value. apply foldl_app. Qed.

Lemma digits_value_mono acc s : (acc ≤ digits_value acc s)%N.
Proof.
  revert acc. induction s as [|c s IH]; intros acc; [done|].
  change (digits_value acc (c :: s)) with (digits_value (acc * 10 + (c - 48)) s).
  specialize (IH (acc * 10 + (c - 48))%N). lia.
Qed.

Lemma parse_digits_spec max s acc :
  Forall is_digit s → (digits_value acc s ≤ max)%N →
  parse_digits max acc s = Some (digits_value acc s).
Proof.
  intros Hs. revert acc. induction Hs as [|c s Hc _ IH]; intros acc H; [done|]. cbn [parse_digits].
  unfold is_digit in Hc. rewrite (proj2 (N.leb_le 48 c)), (proj2 (N.leb_le c 57)) by lia.
  cbn [andb]. change (digits_value acc (c :: s)) with (digits_value (acc * 10 + (c - 48)) s) in *.
  pose proof (digits_value_mono (acc * 10 + (c - 48)) s).
  rewrite (proj2 (N.leb_le _ max)) by lia. by apply IH.
Qed.

Lemma decimal_go_value fuel n acc k :
  (n < 2 ^ N.of_nat fuel)%N → fuel ≠ 0 →
  digits_value k (decimal_go fuel n acc) =
  digits_value (digits_value k (decimal_go fuel n [])) acc.
Proof.
  revert n acc. induction fuel as [|fuel IH]; intros n acc Hn Hf; [done|]. cbn [decimal_go].
  destruct (N.ltb_spec n 10); [done|].
  assert (n / 10 < 2 ^ N.of_nat fuel)%N as Hd.
  { replace (N.of_nat (S fuel)) with (N.succ (N.of_nat fuel)) in Hn by lia.
    rewrite N.pow_succ_r' in Hn. apply N.Div0.div_lt_upper_bound. lia. }
  assert (fuel ≠ 0) by (intros ->; simpl in *; lia).
  rewrite (IH _ (_ :: acc)), (IH _ [_]) by done. done.
Qed.

Lemma decimal_go_correct fuel n :
  (n < 2 ^ N.of_nat fuel)%N → fuel ≠ 0 → digits_value 0 (decimal_go fuel n []) = n.
Proof.
  revert n. induction fuel as [|fuel IH]; intros n Hn Hf; [done|]. cbn [decimal_go].
  destruct (N.ltb_spec n 10) as [H10|H10].
  { cbn. rewrite N.mod_small; lia. }
  assert (n / 10 < 2 ^ N.of_nat fuel)%N as Hd.
  { replace (N.of_nat (S fuel)) with (N.succ (N.of_nat fuel)) in Hn by lia.
    rewrite N.pow_succ_r' in Hn. apply N.Div0.div_lt_upper_bound. lia. }
  assert (fuel ≠ 0) by (intros ->; simpl in *; lia).
  rewrite decimal_go_value, IH by done.
  change (digits_value (n / 10) [(48 + n mod 10)%N])
    with (n / 10 * 10 + (48 + n mod 10 - 48))%N.
  rewrite (N.div_mod' n 10) at 3. generalize (n / 10)%N (n mod 10)%N. lia.
Qed.

Lemma decimal_value n : digits_value 0 (decimal n) = n.
Proof.
  apply decimal_go_correct; [|done].
  rewrite Nat2N.inj_succ, N2Nat.id, N.pow_succ_r'. pose proof (N.size_gt n). lia.
Qed.

Lemma decimal_go_length fuel n acc : length acc ≤ length (decimal_go fuel n acc).
Proof.
  revert n acc. induction fuel as [|fuel IH]; intros n acc; cbn [decimal_go]; [lia|].
  destruct (n <? 10)%N; simpl; [lia|]. specialize (IH (n / 10)%N ((48 + n mod 10)%N :: acc)).
  simpl in IH. lia.
Qed.

Lemma decimal_nonempty n : decimal n ≠ [].
Proof.
  unfold decimal. cbn [decimal_go]. destruct (n <? 10)%N; [done|].
  intros E. pose proof (decimal_go_length (N.to_nat (N.size n)) (n / 10) [(48 + n mod 10)%N]) as H.
  rewrite E in H. simpl in H. lia.
Qed.

Lemma digits_value_zeros k s : digits_value 0 (replicate k 48%N ++ s) = digits_value 0 s.
Proof. induction k as [|k IH]; [done|]. exact IH. Qed.

(** A padded numeral parses back to its number. *)
Lemma parse_decimal_pad k n :
  (n ≤ u32_max)%N → parse_unsigned u32_max (decimal_pad k n) = Some n.
Proof.
  intros Hn.
  assert (Forall is_digit (decimal_pad k n)) as Hd.
  { apply Forall_app. split; [|apply decimal_digits]. apply Forall_replicate. unfold is_digit. lia. }
  assert (decimal_pad k n ≠ []) as Hne.
  { unfold decimal_pad. pose proof (decimal_nonempty n). by destruct (replicate _ _). }
  assert (digits_value 0 (decimal_pad k n) = n) as Hv.
  { unfold decimal_pad. rewrite digits_value_zeros. apply decimal_value. }
  revert Hd Hne Hv. generalize (decimal_pad k n). intros s Hd Hne Hv.
  unfold parse_unsigned.
  assert (match s with 43%N :: (_ :: _) as r => tail s | _ => s end = s) as ->.
  { destruct Hd as [|c s Hc _]; [done|]. unfold is_digit in Hc.
    destruct (decide (c = 43%N)) as [->|]; [lia|].
    repeat (case_match; try done). }
  destruct s as [|c s]; [done|]. cbn [is_nil].
  rewrite parse_digits_spec by (done || lia). by rewrite Hv.
Qed.

Lemma decimal_pad_inj k : Inj (=) (=) (λ n, decimal_pad k n).
Proof.
  intros a b E. rewrite <- (decimal_value a), <- (decimal_value b).
  apply (f_equal (digits_value 0)) in E. unfold decimal_pad in E. by rewrite !digits_value_zeros in E.
Qed.
