(* ===== verification/Document.v ===== *)
(** * Document: the editor's document model

    The data and the operations of src/crates/rte/src/document.rs: styled runs,
    blocks, positions, selections, slices and the run utilities of the edit
    operations.  [Arc] sharing is not observable and is left out.  An offset
    counts grapheme clusters ([Graphemes]); [usize] offsets and indices are
    [nat] (a document does not reach 2^64 clusters). *)

From S2P Require Import Prelude.
From S2P Require Import Graphemes.

(** ** Inline styles

    [InlineStyle] is a [u8] of flags ([bitflags!]): its operations are the bit
    operations on the flag word. *)

Definition InlineStyle := N.

Definition BOLD : InlineStyle := 1%N.
Definition ITALIC : InlineStyle := 2%N.
Definition UNDERLINE : InlineStyle := 4%N.
Definition STRIKETHROUGH : InlineStyle := 8%N.

#[export] Instance InlineStyle_eq_dec : EqDecision InlineStyle := N.eq_dec.

Definition style_empty : InlineStyle := 0%N.
Definition style_is_empty (s : InlineStyle) : bool := (s =? 0)%N.
Definition style_contains (s bit : InlineStyle) : bool := (N.land s bit =? bit)%N.
Definition style_insert (s bit : InlineStyle) : InlineStyle := N.lor s bit.
Definition style_remove (s bit : InlineStyle) : InlineStyle := N.ldiff s bit.
Definition style_toggle (s bit : InlineStyle) : InlineStyle := N.lxor s bit.
Definition style_symmetric_difference (a b : InlineStyle) : InlineStyle := N.lxor a b.

(** [InlineStyle::iter]: the named flags contained in the value, then its
    unknown bits together. *)
Definition style_bits (s : InlineStyle) : list InlineStyle :=
  filter (λ b, style_contains s b = true) [BOLD; ITALIC; UNDERLINE; STRIKETHROUGH]
  ++ (let rest := N.ldiff s 15 in if (rest =? 0)%N then [] else [rest]).

(** ** Styled runs *)

Record StyledRun := mkRun {
  run_text : text;
  run_style : InlineStyle;
  run_link : option text
}.

#[export] Instance StyledRun_eq_dec : EqDecision StyledRun.
Proof. solve_decision. Defined.

Definition run_plain (t : text) : StyledRun := mkRun t style_empty None.
Definition run_styled (t : text) (s : InlineStyle) : StyledRun := mkRun t s None.
Definition run_linked (t : text) (s : InlineStyle) (href : text) : StyledRun :=
  mkRun t s (Some href).

Definition run_same_formatting (a b : StyledRun) : bool :=
  bool_decide (run_style a = run_style b) && bool_decide (run_link a = run_link b).

Definition run_is_empty (r : StyledRun) : bool := is_nil (run_text r).

Definition run_with_text (r : StyledRun) (t : text) : StyledRun :=
  mkRun t (run_style r) (run_link r).

Section Runs.
Context `{Segmentation}.

Definition run_char_len (r : StyledRun) : nat := text_len (run_text r).

Definition run_char_to_byte_offset (r : StyledRun) (o : nat) : nat :=
  text_to_byte_offset (run_text r) o.

(** [StyledRun::split_at].  The byte offset is the start of a cluster or the
    length of the text, where [str::split_at] does not panic. *)
Definition run_split_at (r : StyledRun) (o : nat) : StyledRun * StyledRun :=
  let b := run_char_to_byte_offset r o in
  (run_with_text r (take b (run_text r)), run_with_text r (drop b (run_text r))).

(** [&run.text[from..to]] for two cluster offsets of the run. *)
Definition run_slice (r : StyledRun) (from to : nat) : StyledRun :=
  run_with_text r (drop (run_char_to_byte_offset r from)
                     (take (run_char_to_byte_offset r to) (run_text r))).

Definition runs_char_len (rs : list StyledRun) : nat := sum_list_with run_char_len rs.
End Runs.

(** ** Blocks *)

Inductive HeadingLevel := H1 | H2 | H3.

#[export] Instance HeadingLevel_eq_dec : EqDecision HeadingLevel.
Proof. solve_decision. Defined.

Definition level_as_u8 (l : HeadingLevel) : N :=
  match l with H1 => 1%N | H2 => 2%N | H3 => 3%N end.

Definition level_from_u8 (n : N) : option HeadingLevel :=
  match n with
  | 1%N => Some H1
  | 2%N => Some H2
  | 3%N => Some H3
  | _ => None
  end.

Inductive TextAlignment := AlignLeft | AlignCenter | AlignRight.

Record BlockAttrs := mkAttrs { alignment : TextAlignment; attr_indent_level : N }.

Definition attrs_default : BlockAttrs := mkAttrs AlignLeft 0.

Inductive Block :=
| Paragraph (runs : list StyledRun)
| Heading (level : HeadingLevel) (runs : list StyledRun)
| ListItem (ordered : bool) (indent_level : N) (runs : list StyledRun)
| BlockQuote (blocks : list Block)
| HorizontalRule
| Image (src alt : text) (width height : option N).

Inductive BlockKind :=
| KParagraph
| KHeading (level : HeadingLevel)
| KListItem (ordered : bool)
| KBlockQuote
| KHorizontalRule
| KImage.

#[export] Instance BlockKind_eq_dec : EqDecision BlockKind.
Proof. solve_decision. Defined.

Definition block_empty_paragraph : Block := Paragraph [run_plain []].
Definition block_paragraph (t : text) : Block := Paragraph [run_plain t].
Definition block_list_item (t : text) (ordered : bool) : Block :=
  ListItem ordered 0 [run_plain t].
Definition block_list_item_with_indent (t : text) (ordered : bool) (indent : N) : Block :=
  ListItem ordered indent [run_plain t].

Definition block_runs (b : Block) : option (list StyledRun) :=
  match b with
  | Paragraph rs | Heading _ rs | ListItem _ _ rs => Some rs
  | _ => None
  end.

(** Writing through [runs_mut]. *)
Definition block_set_runs (b : Block) (rs : list StyledRun) : Block :=
  match b with
  | Paragraph _ => Paragraph rs
  | Heading l _ => Heading l rs
  | ListItem o i _ => ListItem o i rs
  | _ => b
  end.

Definition newline : text := ["010"%char].

(** Children joined with a newline. *)
Definition join_lines (ls : list text) : text :=
  match ls with
  | [] => []
  | l :: ls => l ++ (ls ≫= λ l, newline ++ l)
  end.

Fixpoint block_flattened_text (b : Block) : text :=
  match b with
  | Image _ alt _ _ => alt
  | BlockQuote bs => join_lines (map block_flattened_text bs)
  | Paragraph rs | Heading _ rs | ListItem _ _ rs => rs ≫= run_text
  | HorizontalRule => []
  end.

Definition block_is_inline (b : Block) : bool :=
  match b with Paragraph _ | Heading _ _ | ListItem _ _ _ => true | _ => false end.
Definition block_is_container (b : Block) : bool :=
  match b with BlockQuote _ => true | _ => false end.
Definition block_is_atomic (b : Block) : bool := negb (block_is_inline b).

Definition block_attrs (b : Block) : BlockAttrs :=
  match b with
  | ListItem _ indent _ => mkAttrs AlignLeft indent
  | _ => attrs_default
  end.

Definition block_with_attrs (b : Block) (a : BlockAttrs) : option Block :=
  match b with
  | ListItem o _ rs => Some (ListItem o (attr_indent_level a) rs)
  | Paragraph _ | Heading _ _ | BlockQuote _ => Some b
  | HorizontalRule | Image _ _ _ _ => None
  end.

Definition block_kind (b : Block) : BlockKind :=
  match b with
  | Paragraph _ => KParagraph
  | Heading l _ => KHeading l
  | ListItem o _ _ => KListItem o
  | BlockQuote _ => KBlockQuote
  | HorizontalRule => KHorizontalRule
  | Image _ _ _ _ => KImage
  end.

(** [block_with_runs_like]: the template's type around new runs. *)
Definition block_with_runs_like (template : Block) (rs : list StyledRun) : Block :=
  match template with
  | Heading l _ => Heading l rs
  | ListItem o i _ => ListItem o i rs
  | _ => Paragraph rs
  end.

Section Blocks.
Context `{Segmentation}.

Definition block_char_len (b : Block) : nat :=
  match block_runs b with
  | Some rs => runs_char_len rs
  | None => 1
  end.

Fixpoint resolve_offset_go (rs : list StyledRun) (i remaining : nat)
    : option (nat * nat) :=
  match rs with
  | [] => None
  | r :: rest =>
      let len := run_char_len r in
      if (remaining <? len) || ((remaining =? len) && is_nil rest)
      then Some (i, remaining)
      else resolve_offset_go rest (S i) (remaining - len)
  end.
End Blocks.

(** ** Positions and selections *)

Record DocPosition := mkPos { block_index : nat; offset : nat }.

#[export] Instance DocPosition_eq_dec : EqDecision DocPosition.
Proof. solve_decision. Defined.

Definition pos_zero : DocPosition := mkPos 0 0.

(** The derived order: block index first, then offset. *)
Definition pos_lt (p q : DocPosition) : Prop :=
  block_index p < block_index q ∨ (block_index p = block_index q ∧ offset p < offset q).
Definition pos_le (p q : DocPosition) : Prop :=
  block_index p < block_index q ∨ (block_index p = block_index q ∧ offset p ≤ offset q).

#[export] Instance pos_lt_dec p q : Decision (pos_lt p q).
Proof. unfold pos_lt. apply _. Defined.
#[export] Instance pos_le_dec p q : Decision (pos_le p q).
Proof. unfold pos_le. apply _. Defined.

Definition pos_min (p q : DocPosition) : DocPosition := if decide (pos_le p q) then p else q.
Definition pos_max (p q : DocPosition) : DocPosition := if decide (pos_le p q) then q else p.

Record DocSelection := mkSel { anchor : DocPosition; focus : DocPosition }.

#[export] Instance DocSelection_eq_dec : EqDecision DocSelection.
Proof. solve_decision. Defined.

Definition sel_caret (p : DocPosition) : DocSelection := mkSel p p.
Definition sel_range (a f : DocPosition) : DocSelection := mkSel a f.
Definition sel_is_collapsed (s : DocSelection) : bool := bool_decide (anchor s = focus s).
Definition sel_start (s : DocSelection) : DocPosition := pos_min (anchor s) (focus s).
Definition sel_end (s : DocSelection) : DocPosition := pos_max (anchor s) (focus s).

(** [block_range], as the first index and the index past the last. *)
Definition sel_block_range (s : DocSelection) : nat * nat :=
  (block_index (sel_start s), block_index (sel_end s) + 1).

(** ** Slices *)

Record DocSlice := mkSlice {
  slice_blocks : list Block;
  open_start : bool;
  open_end : bool
}.

Definition slice_single (b : Block) : DocSlice := mkSlice [b] false false.
Definition slice_inline_fragment (rs : list StyledRun) : DocSlice :=
  mkSlice [Paragraph rs] true true.

(** ** Documents *)

Record Document := mkDoc { blocks : list Block }.

Definition doc_new : Document := mkDoc [block_empty_paragraph].

Definition doc_from_blocks (bs : list Block) : Document :=
  match bs with [] => doc_new | _ => mkDoc bs end.

Definition doc_block_count (d : Document) : nat := length (blocks d).
Definition doc_block (d : Document) (i : nat) : option Block := blocks d !! i.

(** [replace_block]: the document after it and the block it returns. *)
Definition doc_replace_block (d : Document) (i : nat) (b : Block)
    : Document * option Block :=
  (mkDoc (vec_set i b (blocks d)), blocks d !! i).

(** [insert_block] panics when the index is past the end. *)
Definition doc_insert_block (d : Document) (i : nat) (b : Block) : option Document :=
  mkDoc <$> vec_insert i b (blocks d).

(** [remove_block] refuses to remove the last block and panics when the index
    is out of range. *)
Definition doc_remove_block (d : Document) (i : nat)
    : option (Document * option Block) :=
  if length (blocks d) <=? 1 then Some (d, None)
  else bs ← vec_remove i (blocks d); Some (mkDoc bs, blocks d !! i).

Definition doc_flattened_text (d : Document) : text :=
  join_lines (map block_flattened_text (blocks d)).

(** *** Run extraction *)

Section Documents.
Context `{Segmentation}.

(** The loop of [extract_runs]: the parts of the runs inside [a, b), where
    the first run starts at [pos]. *)
Fixpoint extract_overlaps (rs : list StyledRun) (pos a b : nat) : list StyledRun :=
  match rs with
  | [] => []
  | r :: rest =>
      let run_end := pos + run_char_len r in
      if run_end <=? a then extract_overlaps rest run_end a b
      else if b <=? pos then []
      else run_slice r (Nat.max a pos - pos) (Nat.min b run_end - pos)
           :: extract_overlaps rest run_end a b
  end.

Definition extract_runs (rs : list StyledRun) (a b : nat) : list StyledRun :=
  if b <=? a then [run_plain []]
  else match extract_overlaps rs 0 a b with
       | [] => [run_plain []]
       | out => out
       end.

Definition doc_total_char_len (d : Document) : nat :=
  sum_list_with block_char_len (blocks d).

(** [Document::slice] on a selection inside one block. *)
Definition slice_one_block (b : Block) (s e : nat) : option DocSlice :=
  if (s =? 0) && (block_char_len b <=? e) then Some (mkSlice [b] false false)
  else match block_runs b with
       | Some rs =>
           Some (mkSlice [block_with_runs_like b (extract_runs rs s e)] true true)
       | None => None
       end.

Definition doc_slice (d : Document) (s e : DocPosition) : option DocSlice :=
  if decide (pos_le e s) then None
  else
    sb ← doc_block d (block_index s);
    eb ← doc_block d (block_index e);
    if block_index s =? block_index e
    then slice_one_block sb (offset s) (offset e)
    else
      let first :=
        match block_runs sb with
        | Some rs => [block_with_runs_like sb (extract_runs rs (offset s) (block_char_len sb))]
        | None => if offset s =? 0 then [sb] else []
        end in
      let middle :=
        take (block_index e - S (block_index s)) (drop (S (block_index s)) (blocks d)) in
      let last :=
        match block_runs eb with
        | Some rs => [block_with_runs_like eb (extract_runs rs 0 (offset e))]
        | None => if 0 <? offset e then [eb] else []
        end in
      Some (mkSlice (first ++ middle ++ last) (0 <? offset s)
              (offset e <? block_char_len eb)).

Definition doc_is_valid_position (d : Document) (p : DocPosition) : bool :=
  match doc_block d (block_index p) with
  | Some b => offset p <=? block_char_len b
  | None => false
  end.

Definition block_len_at (d : Document) (i : nat) : nat :=
  match doc_block d i with Some b => block_char_len b | None => 0 end.

Definition doc_clamp_position (d : Document) (p : DocPosition) : DocPosition :=
  let i := Nat.min (block_index p) (length (blocks d) - 1) in
  mkPos i (Nat.min (offset p) (block_len_at d i)).

Definition doc_end_position (d : Document) : DocPosition :=
  let i := length (blocks d) - 1 in mkPos i (block_len_at d i).

(** *** Splitting runs *)

(** [split_runs_at]: the runs after the split and the index of the first run
    at or past [o]; [pos] and [i] are the loop's. *)
Fixpoint split_runs_at_go (rs : list StyledRun) (pos i o : nat) : list StyledRun * nat :=
  match rs with
  | [] => ([], i)
  | r :: rest =>
      if pos =? o then (rs, i)
      else if o <? pos + run_char_len r then
        let '(r1, r2) := run_split_at r (o - pos) in (r1 :: r2 :: rest, i + 1)
      else
        let '(rest', k) := split_runs_at_go rest (pos + run_char_len r) (i + 1) o in
        (r :: rest', k)
  end.

Definition split_runs_at (rs : list StyledRun) (o : nat) : list StyledRun * nat :=
  split_runs_at_go rs 0 0 o.

(** [isolate_runs]: the runs after the splits and the range it returns; the
    assertion [start <= end] is the [None]. *)
Definition isolate_runs (rs : list StyledRun) (a b : nat)
    : option (list StyledRun * (nat * nat)) :=
  if b <? a then None
  else if is_nil rs || (a =? b) then Some (rs, (0, 0))
  else
    let '(rs1, i) := split_runs_at rs a in
    let '(rs2, j) := split_runs_at rs1 b in
    Some (rs2, (i, j)).

(** [Block::resolve_offset] *)
Definition block_resolve_offset (b : Block) (o : nat) : option (nat * nat) :=
  rs ← block_runs b; resolve_offset_go rs 0 o.
End Documents.
