(* ===== verification/Cells.v ===== *)
(** * Cells: the abstract content of a run list

    A run list is abstracted to its cells, the sequence of (grapheme cluster,
    formatting) pairs a reader of the document sees, and to its formatted bytes.
    The run utilities of [Document] are shown to be [take], [drop] and
    concatenation of cells, and a block is abstracted to its shape and cells
    ([abs_block]), the specification level of the edit operations. *)

From S2P Require Import Prelude.
From S2P Require Import Graphemes.
From S2P Require Import Document.

Definition Fmt : Type := InlineStyle * option text.
Definition Cell : Type := text * Fmt.

Definition run_fmt (r : StyledRun) : Fmt := (run_style r, run_link r).

Section Cells.
Context `{Segmentation}.

Definition run_cells (r : StyledRun) : list Cell :=
  (λ g, (g, run_fmt r)) <$> graphemes (run_text r).

Definition cells (rs : list StyledRun) : list Cell := rs ≫= run_cells.

Definition fbytes (rs : list StyledRun) : list (ascii * Fmt) :=
  rs ≫= λ r, (λ c, (c, run_fmt r)) <$> run_text r.

(** The formatted bytes are a function of the cells. *)
Definition cells_fbytes (cs : list Cell) : list (ascii * Fmt) :=
  cs ≫= λ c, (λ b, (b, c.2)) <$> c.1.

Lemma cells_app rs1 rs2 : cells (rs1 ++ rs2) = cells rs1 ++ cells rs2.
Proof. apply bind_app. Qed.

Lemma cells_cons r rs : cells (r :: rs) = run_cells r ++ cells rs.
Proof. done. Qed.

Lemma length_run_cells r : length (run_cells r) = run_char_len r.
Proof. apply length_fmap. Qed.

Lemma length_cells rs : length (cells rs) = runs_char_len rs.
Proof.
  induction rs as [|r rs IH]; [done|].
  by rewrite cells_cons, length_app, length_run_cells, IH.
Qed.

Lemma runs_char_len_app rs1 rs2 :
  runs_char_len (rs1 ++ rs2) = runs_char_len rs1 + runs_char_len rs2.
Proof. by rewrite <- !length_cells, cells_app, length_app. Qed.

Lemma run_cells_empty r : run_is_empty r = true → run_cells r = [].
Proof.
  unfold run_is_empty, run_cells. intros ->%is_nil_spec. by rewrite graphemes_nil.
Qed.

Lemma cells_plain_empty : cells [run_plain []] = [].
Proof. unfold cells. simpl. unfold run_cells. simpl. by rewrite graphemes_nil. Qed.

Lemma run_char_len_0 r : run_char_len r = 0 ↔ run_is_empty r = true.
Proof. unfold run_char_len, run_is_empty. by rewrite text_len_0, is_nil_spec. Qed.

Lemma cells_fbytes_app cs1 cs2 :
  cells_fbytes (cs1 ++ cs2) = cells_fbytes cs1 ++ cells_fbytes cs2.
Proof. apply bind_app. Qed.

Lemma run_cells_fbytes r :
  cells_fbytes (run_cells r) = (λ c, (c, run_fmt r)) <$> run_text r.
Proof.
  unfold run_cells, cells_fbytes. rewrite <- (graphemes_concat (run_text r)) at 2.
  induction (graphemes (run_text r)) as [|g gs IH]; [done|].
  rewrite fmap_cons, bind_cons, IH. simpl. by rewrite fmap_app.
Qed.

Lemma cells_fbytes_cells rs : cells_fbytes (cells rs) = fbytes rs.
Proof.
  induction rs as [|r rs IH]; [done|].
  rewrite cells_cons, cells_fbytes_app, IH, run_cells_fbytes. done.
Qed.

Lemma cells_nil_inv rs : cells rs = [] → Forall (λ r, run_is_empty r = true) rs.
Proof.
  induction rs as [|r rs IH]; [done|]. rewrite cells_cons.
  intros [Hr Hrs]%app_eq_nil. constructor; [|by apply IH].
  apply run_char_len_0. by rewrite <- length_run_cells, Hr.
Qed.

(** ** Splitting and slicing one run *)

Lemma run_split_at_cells r n r1 r2 :
  run_split_at r n = (r1, r2) →
  run_cells r1 = take n (run_cells r) ∧ run_cells r2 = drop n (run_cells r)
  ∧ run_fmt r1 = run_fmt r ∧ run_fmt r2 = run_fmt r.
Proof.
  unfold run_split_at, run_char_to_byte_offset. intros [= <- <-].
  unfold run_cells; simpl. unfold run_fmt; simpl.
  rewrite graphemes_take_byte, graphemes_drop_byte.
  by rewrite fmap_take, fmap_drop.
Qed.

Lemma run_slice_cells r i j :
  i ≤ j → run_cells (run_slice r i j) = drop i (take j (run_cells r)).
Proof.
  intros Hij. unfold run_slice, run_cells, run_char_to_byte_offset; simpl.
  rewrite graphemes_slice by done. unfold run_fmt; simpl.
  by rewrite fmap_drop, fmap_take.
Qed.

Opaque run_split_at run_slice run_char_len.

(** ** [split_runs_at] *)

Lemma split_runs_at_go_spec rs pos i o rs' k :
  pos ≤ o → split_runs_at_go rs pos i o = (rs', k) →
  cells rs' = cells rs ∧ i ≤ k ≤ i + length rs'
  ∧ cells (take (k - i) rs') = take (o - pos) (cells rs).
Proof.
  revert pos i rs' k. induction rs as [|r rs IH]; simpl; intros pos i rs' k Hpos E.
  { simplify_eq. split_and!; [done|simpl; lia..|]. by rewrite !take_nil. }
  destruct (Nat.eqb_spec pos o) as [->|Hne].
  { simplify_eq. rewrite !Nat.sub_diag. simpl. split_and!; [done|lia..|done]. }
  destruct (Nat.ltb_spec o (pos + run_char_len r)) as [Hlt|Hge].
  - destruct (run_split_at r (o - pos)) as [r1 r2] eqn:Es. injection E as <- <-.
    apply run_split_at_cells in Es as (E1 & E2 & _).
    rewrite !cells_cons, E1, E2.
    replace (i + 1 - i) with 1 by lia. cbn [take length].
    split_and!; [by rewrite app_assoc, take_drop|lia..|].
    rewrite cells_cons, E1, app_nil_r.
    rewrite take_app_le by (rewrite length_run_cells; lia). done.
  - destruct (split_runs_at_go rs (pos + run_char_len r) (i + 1) o) as [rest' k'] eqn:Er.
    simplify_eq. apply IH in Er as (Ec & Hk & Et); [|lia].
    rewrite !cells_cons, Ec. split_and!; [done|simpl; lia..|].
    replace (k - i) with (S (k - (i + 1))) by lia. cbn [take]. rewrite cells_cons, Et.
    rewrite take_app_ge by (rewrite length_run_cells; lia).
    rewrite length_run_cells. do 2 f_equal. lia.
Qed.

Lemma split_runs_at_spec rs o rs' k :
  split_runs_at rs o = (rs', k) →
  cells rs' = cells rs ∧ k ≤ length rs'
  ∧ cells (take k rs') = take o (cells rs) ∧ cells (drop k rs') = drop o (cells rs).
Proof.
  intros E. apply split_runs_at_go_spec in E as (Ec & Hk & Et); [|lia].
  rewrite !Nat.sub_0_r in Et. split_and!; [done|lia|done|].
  apply (app_inv_head (cells (take k rs'))).
  by rewrite <- cells_app, take_drop, Ec, Et, take_drop.
Qed.

(** A split strictly past a prefix leaves the prefix alone. *)
Lemma split_runs_at_go_prefix pre rs pos i o :
  pos + length (cells pre) < o →
  split_runs_at_go (pre ++ rs) pos i o =
    let '(rs', k) := split_runs_at_go rs (pos + length (cells pre)) (i + length pre) o in
    (pre ++ rs', k).
Proof.
  revert pos i. induction pre as [|r pre IH]; cbn [split_runs_at_go app length]; intros pos i Hlt.
  { change (cells []) with (@nil Cell). cbn [length].
    rewrite !Nat.add_0_r. by destruct (split_runs_at_go rs pos i o). }
  rewrite cells_cons, length_app, length_run_cells in Hlt |- *.
  destruct (Nat.eqb_spec pos o); [lia|].
  destruct (Nat.ltb_spec o (pos + run_char_len r)); [lia|].
  rewrite IH by lia.
  replace (pos + (run_char_len r + length (cells pre)))
    with (pos + run_char_len r + length (cells pre)) by lia.
  replace (i + S (length pre)) with (i + 1 + length pre) by lia.
  by destruct (split_runs_at_go rs _ _ o).
Qed.

(** ** [isolate_runs] *)

Lemma isolate_runs_spec rs a b rs' i j :
  isolate_runs rs a b = Some (rs', (i, j)) →
  a ≤ b ∧ cells rs' = cells rs ∧ i ≤ j ≤ length rs'
  ∧ (a = b ∨ rs = [] → rs' = rs ∧ i = 0 ∧ j = 0)
  ∧ (a < b → cells (take i rs') = take a (cells rs) ∧ cells (take j rs') = take b (cells rs)
             ∧ cells (drop j rs') = drop b (cells rs)).
Proof.
  unfold isolate_runs. destruct (Nat.ltb_spec b a) as [|Hab]; [done|].
  destruct (is_nil rs || (a =? b)) eqn:Hz.
  { intros [= <- <- <-]. apply orb_true_iff in Hz. split_and!; [done|done|lia|lia|done|].
    intros Hlt. destruct Hz as [Hz|Hz]; [|apply Nat.eqb_eq in Hz; lia].
    apply is_nil_spec in Hz as ->.
    simpl. by rewrite !take_nil, drop_nil. }
  apply orb_false_iff in Hz as [Hnil Hne%Nat.eqb_neq].
  destruct (split_runs_at rs a) as [rs1 k1] eqn:E1.
  destruct (split_runs_at rs1 b) as [rs2 k2] eqn:E2. intros [= <- <- <-].
  pose proof (split_runs_at_spec _ _ _ _ E1) as (C1 & K1 & T1 & D1).
  pose proof (split_runs_at_spec _ _ _ _ E2) as (C2 & K2 & T2 & D2).
  assert (Hpre : length (cells (take k1 rs1)) < b).
  { rewrite T1, length_take. lia. }
  unfold split_runs_at in E2. rewrite <- (take_drop k1 rs1) in E2.
  rewrite split_runs_at_go_prefix in E2 by (simpl; lia).
  destruct (split_runs_at_go (drop k1 rs1) _ _ b) as [rs3 k3] eqn:E3. simplify_eq.
  apply split_runs_at_go_spec in E3 as (_ & K3 & _); [|simpl; lia].
  rewrite length_take in K3.
  split_and!; [done|congruence|lia|done| |].
  { intros [?| ->]; [lia|done]. }
  intros _. rewrite T2, C1, D2, C1. split_and!; [|done|done].
  rewrite take_app_le by (rewrite length_take; lia).
  rewrite take_take, Nat.min_l by lia. done.
Qed.

Lemma isolate_runs_Some rs a b : a ≤ b → ∃ rs' r, isolate_runs rs a b = Some (rs', r).
Proof.
  intros Hab. unfold isolate_runs. destruct (Nat.ltb_spec b a); [lia|].
  destruct (is_nil rs || (a =? b)); [eauto|].
  destruct (split_runs_at rs a) as [rs1 k1].
  destruct (split_runs_at rs1 b) as [rs2 k2]. eauto.
Qed.

(** ** [extract_runs] *)

Lemma extract_overlaps_cells rs pos a b :
  a ≤ b →
  cells (extract_overlaps rs pos a b) = drop (a - pos) (take (b - pos) (cells rs)).
Proof.
  intros Hab. revert pos. induction rs as [|r rs IH]; cbn [extract_overlaps]; intros pos.
  { change (cells []) with (@nil Cell). by rewrite take_nil, drop_nil. }
  rewrite cells_cons.
  destruct (Nat.leb_spec (pos + run_char_len r) a) as [Ha|Ha].
  - rewrite IH. rewrite take_app_ge by (rewrite length_run_cells; lia).
    rewrite drop_app_ge by (rewrite length_run_cells; lia).
    rewrite length_run_cells. f_equal; [lia|]. f_equal. lia.
  - destruct (Nat.leb_spec b pos) as [Hb|Hb].
    + replace (b - pos) with 0 by lia. by rewrite take_0, drop_nil.
    + rewrite cells_cons, IH, run_slice_cells by lia.
      destruct (decide (pos + run_char_len r ≤ b)) as [Hend|Hend].
      * rewrite (take_app_ge (run_cells r)) by (rewrite length_run_cells; lia).
        rewrite drop_app_le by (rewrite length_run_cells; lia).
        rewrite length_run_cells.
        rewrite (take_ge (run_cells r)) by (rewrite length_run_cells; lia).
        f_equal; [f_equal; lia|].
        replace (a - (pos + run_char_len r)) with 0 by lia. rewrite drop_0.
        f_equal. lia.
      * rewrite take_app_le by (rewrite length_run_cells; lia).
        replace (b - (pos + run_char_len r)) with 0 by lia.
        rewrite take_0, drop_nil, app_nil_r. f_equal; [lia|]. f_equal. lia.
Qed.

Lemma extract_runs_cells rs a b :
  a ≤ b → cells (extract_runs rs a b) = drop a (take b (cells rs)).
Proof.
  intros Hab. unfold extract_runs.
  destruct (Nat.leb_spec b a).
  { replace b with a by lia. rewrite cells_plain_empty, drop_ge; [done|].
    rewrite length_take. lia. }
  pose proof (extract_overlaps_cells rs 0 a b Hab) as E.
  rewrite !Nat.sub_0_r in E. rewrite <- E.
  destruct (extract_overlaps rs 0 a b); [apply cells_plain_empty|done].
Qed.

Lemma extract_runs_ne rs a b : extract_runs rs a b ≠ [].
Proof.
  unfold extract_runs. destruct (b <=? a); [done|].
  by destruct (extract_overlaps rs 0 a b).
Qed.
End Cells.

#[global] Opaque run_split_at run_slice run_char_len.

(** ** Abstract blocks

    A block seen through an abstraction [A] of its run list: the type and the
    attributes of an inline block, its children or its atomic data. *)

Inductive Shape := SPara | SHead (l : HeadingLevel) | SItem (ordered : bool) (indent : N).

Inductive ABlock (A : Type) :=
| AInline (s : Shape) (content : A)
| AQuote (bs : list (ABlock A))
| ARule
| AImage (src alt : text) (width height : option N).

Arguments AInline {A}.
Arguments AQuote {A}.
Arguments ARule {A}.
Arguments AImage {A}.

(** Induction on blocks with the hypothesis for every child. *)
Fixpoint Block_ind_nested (P : Block → Prop)
    (HP : ∀ rs, P (Paragraph rs)) (HH : ∀ l rs, P (Heading l rs))
    (HL : ∀ o i rs, P (ListItem o i rs))
    (HQ : ∀ bs, Forall P bs → P (BlockQuote bs))
    (HR : P HorizontalRule) (HI : ∀ s a w h, P (Image s a w h)) (b : Block) : P b :=
  match b with
  | Paragraph rs => HP rs
  | Heading l rs => HH l rs
  | ListItem o i rs => HL o i rs
  | BlockQuote bs =>
      HQ bs ((fix go bs : Forall P bs :=
                match bs with
                | [] => Forall_nil_2 P
                | b :: bs => Forall_cons_2 P b bs
                               (Block_ind_nested P HP HH HL HQ HR HI b) (go bs)
                end) bs)
  | HorizontalRule => HR
  | Image s a w h => HI s a w h
  end.

Section Abstraction.
Context {A : Type} (f : list StyledRun → A).

Fixpoint abs_with (b : Block) : ABlock A :=
  match b with
  | Paragraph rs => AInline SPara (f rs)
  | Heading l rs => AInline (SHead l) (f rs)
  | ListItem o i rs => AInline (SItem o i) (f rs)
  | BlockQuote bs => AQuote (map abs_with bs)
  | HorizontalRule => ARule
  | Image s a w h => AImage s a w h
  end.
End Abstraction.

Definition block_shape (b : Block) : Shape :=
  match b with
  | Heading l _ => SHead l
  | ListItem o i _ => SItem o i
  | _ => SPara
  end.

Section AbstractDocuments.
Context `{Segmentation}.

Definition abs_block : Block → ABlock (list Cell) := abs_with cells.
Definition abs_doc (d : Document) : list (ABlock (list Cell)) := abs_block <$> blocks d.

Lemma abs_block_inline b rs :
  block_runs b = Some rs → abs_block b = AInline (block_shape b) (cells rs).
Proof. by destruct b; intros [= <-]. Qed.

Lemma abs_block_with_runs_like b rs :
  abs_block (block_with_runs_like b rs) = AInline (block_shape b) (cells rs).
Proof. by destruct b. Qed.

Lemma abs_block_set_runs b rs rs' :
  block_runs b = Some rs → abs_block (block_set_runs b rs') = AInline (block_shape b) (cells rs').
Proof. by destruct b. Qed.

Lemma block_runs_set_runs b rs rs' :
  block_runs b = Some rs → block_runs (block_set_runs b rs') = Some rs'.
Proof. by destruct b. Qed.

Lemma block_runs_with_runs_like b rs : block_runs (block_with_runs_like b rs) = Some rs.
Proof. by destruct b. Qed.

Lemma block_is_inline_runs b : block_is_inline b = true ↔ is_Some (block_runs b).
Proof. destruct b; simpl; (split; [intros ?|intros [rs' Hrs]]); by eauto. Qed.

Lemma block_atomic_runs b : block_is_atomic b = true ↔ block_runs b = None.
Proof. by destruct b. Qed.

Lemma block_char_len_runs b rs :
  block_runs b = Some rs → block_char_len b = length (cells rs).
Proof. unfold block_char_len. intros ->. by rewrite length_cells. Qed.

Lemma block_char_len_atomic b : block_runs b = None → block_char_len b = 1.
Proof. unfold block_char_len. by intros ->. Qed.

(** Reading an abstract document back. *)
Lemma abs_doc_lookup d i b : doc_block d i = Some b → abs_doc d !! i = Some (abs_block b).
Proof. unfold doc_block, abs_doc. intros E. by rewrite list_lookup_fmap, E. Qed.

Lemma length_abs_doc d : length (abs_doc d) = doc_block_count d.
Proof. apply length_fmap. Qed.

Lemma abs_doc_lookup_inv d i a :
  abs_doc d !! i = Some a → ∃ b, doc_block d i = Some b ∧ abs_block b = a.
Proof.
  unfold doc_block, abs_doc. rewrite list_lookup_fmap.
  destruct (blocks d !! i) as [b|]; [|done]. intros [= <-]. eauto.
Qed.

Lemma abs_block_inline_inv b sh cs :
  abs_block b = AInline sh cs →
  ∃ rs, block_runs b = Some rs ∧ block_shape b = sh ∧ cells rs = cs.
Proof. destruct b; intros [= <- <-]; eauto. Qed.

Lemma abs_doc_inline_inv d i sh cs :
  abs_doc d !! i = Some (AInline sh cs) →
  ∃ b rs, doc_block d i = Some b ∧ block_runs b = Some rs ∧ block_shape b = sh ∧ cells rs = cs.
Proof.
  intros (b & Hb & (rs & ? & ? & ?)%abs_block_inline_inv)%abs_doc_lookup_inv. eauto 6.
Qed.

Lemma abs_doc_replace d i b :
  abs_doc (doc_replace_block d i b).1 = <[i := abs_block b]> (abs_doc d).
Proof. unfold abs_doc, doc_replace_block, vec_set. simpl. by rewrite list_fmap_insert. Qed.

Lemma abs_doc_inline_len d i b :
  doc_block d i = Some b → block_is_inline b = true →
  ∃ rs, block_runs b = Some rs ∧ block_char_len b = length (cells rs)
        ∧ abs_doc d !! i = Some (AInline (block_shape b) (cells rs)).
Proof.
  intros Hb [rs Hrs]%block_is_inline_runs. exists rs.
  split_and!; [done|by apply block_char_len_runs|].
  erewrite abs_doc_lookup by done. by rewrite (abs_block_inline _ rs).
Qed.

Lemma abs_inline_char_len b sh cs : abs_block b = AInline sh cs → block_char_len b = length cs.
Proof. intros (rs & Hrs & _ & <-)%abs_block_inline_inv. by apply block_char_len_runs. Qed.

Lemma abs_block_char_len b1 b2 :
  abs_block b1 = abs_block b2 → block_char_len b1 = block_char_len b2.
Proof.
  intros E. destruct (abs_block b2) as [sh cs| | |] eqn:E2; [|by destruct b1, b2..].
  by rewrite (abs_inline_char_len _ _ _ E), (abs_inline_char_len _ _ _ E2).
Qed.

Lemma abs_doc_valid d1 d2 p :
  abs_doc d1 = abs_doc d2 → doc_is_valid_position d1 p = doc_is_valid_position d2 p.
Proof.
  intros E. apply (f_equal (lookup (block_index p))) in E. unfold abs_doc in E.
  rewrite !list_lookup_fmap in E. unfold doc_is_valid_position, doc_block.
  destruct (blocks d1 !! _) as [b1|], (blocks d2 !! _) as [b2|]; try done.
  injection E as E. by rewrite (abs_block_char_len b1 b2).
Qed.
End AbstractDocuments.
