(* ===== verification/Normalize.v ===== *)
(** * Normalize: the normalization pass

    src/crates/rte/src/normalize.rs: merging adjacent runs of one formatting,
    dropping empty runs and restoring the structural minimum, over the whole
    document or over its dirty blocks.  The theorems show that the pass keeps
    the formatted content, reaches a normal form that depends on nothing else,
    and that its safety valve never cuts it short. *)

From S2P Require Import Prelude.
From S2P Require Import Graphemes.
From S2P Require Import Document.
From S2P Require Import Cells.

(** ** Runs *)

(** The second pass of [normalize_runs]: [merged] is the vector built so far. *)
Fixpoint merge_loop (merged rs : list StyledRun) : list StyledRun :=
  match rs with
  | [] => merged
  | r :: rest =>
      match last merged with
      | Some l =>
          if run_same_formatting l r
          then merge_loop (removelast merged ++ [run_with_text l (run_text l ++ run_text r)]) rest
          else merge_loop (merged ++ [r]) rest
      | None => merge_loop (merged ++ [r]) rest
      end
  end.

Definition normalize_runs (rs : list StyledRun) : list StyledRun :=
  match rs with
  | [] => [run_plain []]
  | _ =>
      match filter (λ r, run_is_empty r = false) rs with
      | [] => [run_plain []]
      | non_empty =>
          match merge_loop [] non_empty with
          | [] => [run_plain []]
          | merged => merged
          end
      end
  end.

(** ** Blocks *)

(** [normalize_child_blocks] with the block normalizer as an argument. *)
Definition normalize_child_blocks (nb : Block → Block) (bs : list Block) : list Block :=
  map nb (match bs with [] => [block_empty_paragraph] | _ => bs end).

Fixpoint normalize_block (b : Block) : Block :=
  match b with
  | Paragraph rs => Paragraph (normalize_runs rs)
  | Heading l rs => Heading l (normalize_runs rs)
  | ListItem o i rs => ListItem o i (normalize_runs rs)
  | BlockQuote bs =>
      BlockQuote (match bs with
                  | [] => [Paragraph (normalize_runs [run_plain []])]
                  | _ => map normalize_block bs
                  end)
  | HorizontalRule => HorizontalRule
  | Image _ _ _ _ => b
  end.

(** ** The dirty-block loop *)

Definition SAFETY_MULTIPLIER : nat := 42.

(** [usize::saturating_mul]: the product of two lengths the process can hold
    does not saturate. *)
Definition max_iterations (dirty : list nat) : nat :=
  Nat.max (length dirty * SAFETY_MULTIPLIER) 1.

(** The inner loop over one batch; [break] leaves the rest of the batch. *)
Fixpoint normalize_batch (batch : list nat) (iterations max : nat) (bs : list Block)
    : list Block * nat :=
  match batch with
  | [] => (bs, iterations)
  | i :: rest =>
      match bs !! i with
      | None => normalize_batch rest iterations max bs
      | Some b =>
          let iterations := S iterations in
          if max <? iterations then (bs, iterations)
          else normalize_batch rest iterations max (<[i := normalize_block b]> bs)
      end
  end.

(** The [while] loop, with fuel: a pass takes the pending indices and leaves
    none. *)
Fixpoint normalize_while (fuel : nat) (pending : list nat) (iterations max : nat)
    (bs : list Block) : option (list Block) :=
  match fuel with
  | O => None
  | S fuel =>
      if negb (is_nil pending) && (iterations <? max)
      then let '(bs', iterations') := normalize_batch pending iterations max bs in
           normalize_while fuel [] iterations' max bs'
      else Some bs
  end.

Definition at_least_one (bs : list Block) : list Block :=
  match bs with [] => [block_empty_paragraph] | _ => bs end.

Definition normalize_blocks_fuel (fuel : nat) (d : Document) (dirty : list nat)
    : option Document :=
  bs ← normalize_while fuel dirty 0 (max_iterations dirty) (at_least_one (blocks d));
  Some (mkDoc (at_least_one bs)).

(** Two tests of the loop condition are enough ([normalize_blocks_fuel_spec]). *)
Definition normalize_blocks (d : Document) (dirty : list nat) : Document :=
  default d (normalize_blocks_fuel 2 d dirty).

Definition normalize (d : Document) : Document :=
  let bs := at_least_one (blocks d) in normalize_blocks (mkDoc bs) (seq 0 (length bs)).

Lemma normalize_block_quote bs :
  normalize_block (BlockQuote bs) = BlockQuote (normalize_child_blocks normalize_block bs).
Proof. by destruct bs. Qed.

(** ** The content the pass keeps *)

(** The formatted bytes of a block; an empty quote reads as a quote of one
    empty paragraph. *)
Fixpoint content_block (b : Block) : ABlock (list (ascii * Fmt)) :=
  match b with
  | Paragraph rs => AInline SPara (fbytes rs)
  | Heading l rs => AInline (SHead l) (fbytes rs)
  | ListItem o i rs => AInline (SItem o i) (fbytes rs)
  | BlockQuote bs =>
      AQuote (match bs with [] => [AInline SPara []] | _ => map content_block bs end)
  | HorizontalRule => ARule
  | Image s a w h => AImage s a w h
  end.

Definition content_doc (d : Document) : list (ABlock (list (ascii * Fmt))) :=
  map content_block (at_least_one (blocks d)).

(** ** Normal forms *)

Fixpoint adjacent_differ (rs : list StyledRun) : Prop :=
  match rs with
  | r1 :: ((r2 :: _) as rest) => run_fmt r1 ≠ run_fmt r2 ∧ adjacent_differ rest
  | _ => True
  end.

Definition run_nonempty (r : StyledRun) : Prop := run_text r ≠ [].

(** No empty run and no two adjacent runs of one formatting, or the single
    plain empty run that anchors the cursor. *)
Definition normal_runs (rs : list StyledRun) : Prop :=
  rs = [run_plain []] ∨ (rs ≠ [] ∧ Forall run_nonempty rs ∧ adjacent_differ rs).

Fixpoint normal_block (b : Block) : Prop :=
  match b with
  | Paragraph rs | Heading _ rs | ListItem _ _ rs => normal_runs rs
  | BlockQuote bs =>
      bs ≠ [] ∧ (fix go bs := match bs with [] => True | b :: bs => normal_block b ∧ go bs end) bs
  | HorizontalRule | Image _ _ _ _ => True
  end.

Definition normal_doc (d : Document) : Prop := blocks d ≠ [] ∧ Forall normal_block (blocks d).

Lemma normal_block_quote bs :
  normal_block (BlockQuote bs) ↔ bs ≠ [] ∧ Forall normal_block bs.
Proof.
  simpl. assert (∀ bs, (fix go bs := match bs with
    | [] => True | b :: bs => normal_block b ∧ go bs end) bs ↔ Forall normal_block bs) as E.
  { clear bs. intros bs. induction bs as [|b bs IH]; [done|]. by rewrite Forall_cons, IH. }
  by rewrite E.
Qed.

(** ** The merge *)

Lemma run_same_formatting_spec a b : run_same_formatting a b = true ↔ run_fmt a = run_fmt b.
Proof.
  unfold run_same_formatting, run_fmt. rewrite andb_true_iff, !bool_decide_eq_true.
  split; [intros [-> ->]; done|by intros [= -> ->]].
Qed.

(** The loop with the last merged run held apart. *)
Fixpoint merge_from (l : StyledRun) (rs : list StyledRun) : list StyledRun :=
  match rs with
  | [] => [l]
  | r :: rest =>
      if run_same_formatting l r
      then merge_from (run_with_text l (run_text l ++ run_text r)) rest
      else l :: merge_from r rest
  end.

Lemma merge_loop_from pre l rs : merge_loop (pre ++ [l]) rs = pre ++ merge_from l rs.
Proof.
  revert pre l. induction rs as [|r rs IH]; intros pre l; simpl; [done|].
  rewrite last_snoc. destruct (run_same_formatting l r).
  - by rewrite removelast_last, IH.
  - rewrite IH. by rewrite <- app_assoc.
Qed.

Lemma merge_loop_nil r rs : merge_loop [] (r :: rs) = merge_from r rs.
Proof. simpl. apply (merge_loop_from []). Qed.

Lemma merge_from_fbytes l rs : fbytes (merge_from l rs) = fbytes (l :: rs).
Proof.
  revert l. induction rs as [|r rs IH]; intros l; simpl; [done|].
  destruct (run_same_formatting l r) eqn:E.
  - apply run_same_formatting_spec in E. rewrite IH. unfold fbytes. simpl.
    rewrite fmap_app, <- app_assoc. unfold run_fmt in *; simpl.
    by injection E as -> ->.
  - unfold fbytes in *. simpl. f_equal. apply IH.
Qed.

(** The head of a merge keeps the formatting of the run it started from. *)
Lemma merge_from_head l rs : ∃ h t, merge_from l rs = h :: t ∧ run_fmt h = run_fmt l.
Proof.
  revert l. induction rs as [|r rs IH]; intros l; simpl; [eauto|].
  destruct (run_same_formatting l r); [|eauto].
  destruct (IH (run_with_text l (run_text l ++ run_text r))) as (h & t & -> & E). eauto.
Qed.

Lemma merge_from_normal l rs :
  run_nonempty l → Forall run_nonempty rs →
  Forall run_nonempty (merge_from l rs) ∧ adjacent_differ (merge_from l rs).
Proof.
  intros Hl Hrs. revert l Hl. induction Hrs as [|r rs Hr Hrs IH]; intros l Hl; simpl.
  { split; [by constructor|done]. }
  destruct (run_same_formatting l r) eqn:E.
  - apply IH. unfold run_nonempty in *. simpl. by destruct (run_text l).
  - destruct (IH r Hr) as [H1 H2]. split; [by constructor|].
    destruct (merge_from_head r rs) as (h & t & Eh & Ef). rewrite Eh in *.
    split; [|done]. rewrite Ef. intros Heq%run_same_formatting_spec. congruence.
Qed.

Lemma filter_nonempty rs :
  Forall run_nonempty (filter (λ r, run_is_empty r = false) rs).
Proof.
  apply Forall_forall. intros r [Hr _]%list_elem_of_filter.
  unfold run_nonempty, run_is_empty in *. by destruct (run_text r).
Qed.

Lemma fbytes_cons r rs :
  fbytes (r :: rs) = ((λ c, (c, run_fmt r)) <$> run_text r) ++ fbytes rs.
Proof. done. Qed.

Lemma fbytes_filter_nonempty rs :
  fbytes (filter (λ r, run_is_empty r = false) rs) = fbytes rs.
Proof.
  induction rs as [|r rs IH]; [done|]. rewrite filter_cons. case_decide as Hr.
  - by rewrite !fbytes_cons, IH.
  - rewrite fbytes_cons, IH. unfold run_is_empty in Hr. by destruct (run_text r).
Qed.

Lemma fbytes_plain_empty : fbytes [run_plain []] = [].
Proof. done. Qed.

Lemma normalize_runs_fbytes rs : fbytes (normalize_runs rs) = fbytes rs.
Proof.
  rewrite <- (fbytes_filter_nonempty rs). destruct rs as [|r rs]; [done|].
  unfold normalize_runs. destruct (filter _ (r :: rs)) as [|r' rs']; [done|].
  rewrite merge_loop_nil, <- merge_from_fbytes.
  by destruct (merge_from r' rs').
Qed.

Lemma normalize_runs_normal rs : normal_runs (normalize_runs rs).
Proof.
  destruct rs as [|r rs]; [by left|]. unfold normalize_runs.
  pose proof (filter_nonempty (r :: rs)) as Hf.
  destruct (filter _ (r :: rs)) as [|r' rs']; [by left|].
  apply Forall_cons in Hf as [Hr' Hrs'].
  rewrite merge_loop_nil. destruct (merge_from_normal r' rs' Hr' Hrs') as [H1 H2].
  destruct (merge_from_head r' rs') as (h & t & E & _). rewrite E in *.
  right. by split_and!.
Qed.

(** ** Uniqueness of normal forms *)

Lemma fbytes_nonempty r rs : run_nonempty r → fbytes (r :: rs) ≠ [].
Proof. rewrite fbytes_cons. unfold run_nonempty. by destruct (run_text r). Qed.

(** A constant-formatting prefix followed by something that starts with another
    formatting is cut in one place only. *)
Lemma fmt_prefix_inj (f : Fmt) (t1 t2 : text) (k1 k2 : list (ascii * Fmt)) :
  ((λ c, (c, f)) <$> t1) ++ k1 = ((λ c, (c, f)) <$> t2) ++ k2 →
  (∀ c k, k1 ≠ (c, f) :: k) → (∀ c k, k2 ≠ (c, f) :: k) →
  t1 = t2 ∧ k1 = k2.
Proof.
  revert t2. induction t1 as [|c t1 IH]; intros [|c' t2] E H1 H2; simpl in *; simplify_eq.
  - done.
  - by destruct (H1 c' (((λ c, (c, f)) <$> t2) ++ k2)).
  - by destruct (H2 c (((λ c, (c, f)) <$> t1) ++ k1)).
  - destruct (IH t2) as [-> ->]; auto.
Qed.

Lemma adjacent_differ_head r rs c k :
  Forall run_nonempty rs → adjacent_differ (r :: rs) → fbytes rs ≠ (c, run_fmt r) :: k.
Proof.
  destruct rs as [|r' rs]; [done|]. intros [Hr' _]%Forall_cons [Hne _].
  rewrite fbytes_cons. unfold run_nonempty in *.
  destruct (run_text r') as [|c' t]; [done|]. simpl. intros ?. simplify_eq.
Qed.

Lemma adjacent_differ_tail r rs : adjacent_differ (r :: rs) → adjacent_differ rs.
Proof. destruct rs; [done|]. by intros [_ ?]. Qed.

Lemma nonempty_runs_unique rs1 rs2 :
  Forall run_nonempty rs1 → adjacent_differ rs1 →
  Forall run_nonempty rs2 → adjacent_differ rs2 →
  fbytes rs1 = fbytes rs2 → rs1 = rs2.
Proof.
  intros H1. revert rs2. induction H1 as [|r1 rs1 Hr1 H1 IH]; intros rs2 A1 H2 A2 E.
  { destruct rs2 as [|r2 rs2]; [done|]. apply Forall_cons in H2 as [Hr2 _].
    symmetry in E. by apply fbytes_nonempty in E. }
  destruct rs2 as [|r2 rs2]; [by apply fbytes_nonempty in E|].
  apply Forall_cons in H2 as [Hr2 H2].
  assert (Ef : run_fmt r1 = run_fmt r2).
  { rewrite !fbytes_cons in E. unfold run_nonempty in *.
    destruct (run_text r1), (run_text r2); simpl in E; congruence. }
  rewrite !fbytes_cons, <- Ef in E. apply fmt_prefix_inj in E as [Et E].
  - f_equal.
    + destruct r1, r2; unfold run_fmt in Ef; simpl in *. congruence.
    + apply IH; eauto using adjacent_differ_tail.
  - intros c k. by apply adjacent_differ_head.
  - intros c k. rewrite Ef. by apply adjacent_differ_head.
Qed.

Lemma normal_runs_unique rs1 rs2 :
  normal_runs rs1 → normal_runs rs2 → fbytes rs1 = fbytes rs2 → rs1 = rs2.
Proof.
  intros [->|(N1 & F1 & A1)] [->|(N2 & F2 & A2)] E; [done|..].
  - destruct rs2; [done|]. apply Forall_cons in F2 as [Hr _].
    symmetry in E. by apply fbytes_nonempty in E.
  - destruct rs1; [done|]. apply Forall_cons in F1 as [Hr _]. by apply fbytes_nonempty in E.
  - by apply nonempty_runs_unique.
Qed.

Lemma normalize_runs_eq rs1 rs2 :
  normalize_runs rs1 = normalize_runs rs2 ↔ fbytes rs1 = fbytes rs2.
Proof.
  split; intros E.
  - by rewrite <- (normalize_runs_fbytes rs1), E, normalize_runs_fbytes.
  - apply normal_runs_unique; auto using normalize_runs_normal.
    by rewrite !normalize_runs_fbytes.
Qed.

Lemma normalize_runs_id rs : normal_runs rs → normalize_runs rs = rs.
Proof.
  intros Hn. apply normal_runs_unique; auto using normalize_runs_normal.
  apply normalize_runs_fbytes.
Qed.

Lemma normal_block_inline b rs :
  block_runs b = Some rs → normal_block b ↔ normal_runs rs.
Proof. by destruct b; intros [= <-]. Qed.

Lemma empty_paragraph_normal : normal_block block_empty_paragraph.
Proof. by left. Qed.

(** ** Blocks *)

Lemma normalize_block_content b : content_block (normalize_block b) = content_block b.
Proof.
  induction b as [rs|l rs|o i rs|bs IH| |s a w h] using Block_ind_nested; simpl;
    rewrite ?normalize_runs_fbytes; try done.
  assert (map content_block (map normalize_block bs) = map content_block bs) as Em.
  { induction IH as [|b bs Hb _ IHs]; [done|]. simpl. by rewrite Hb, IHs. }
  destruct bs; [done|]. simpl in *. by rewrite Em.
Qed.

Lemma normalize_block_normal b : normal_block (normalize_block b).
Proof.
  induction b as [rs|l rs|o i rs|bs IH| |s a w h] using Block_ind_nested;
    try apply normalize_runs_normal; try done.
  rewrite normalize_block_quote, normal_block_quote. unfold normalize_child_blocks.
  destruct bs as [|b bs].
  - split; [done|]. by repeat constructor; left.
  - split; [done|]. by rewrite Forall_map.
Qed.

Lemma map_unique {A B} (P : A → Prop) (f : A → B) (l1 l2 : list A) :
  Forall (λ x, ∀ y, P x → P y → f x = f y → x = y) l1 →
  Forall P l1 → Forall P l2 → map f l1 = map f l2 → l1 = l2.
Proof.
  intros Hinj. revert l2.
  induction Hinj as [|x l1 Hx _ IH]; intros [|y l2] H1 H2 E; try done.
  apply Forall_cons in H1 as [? ?], H2 as [? ?]. injection E as ? ?. f_equal; auto.
Qed.

Lemma normal_block_unique b1 b2 :
  normal_block b1 → normal_block b2 → content_block b1 = content_block b2 → b1 = b2.
Proof.
  revert b2. induction b1 as [rs|l rs|o i rs|bs IH| |s a w h] using Block_ind_nested;
    intros [rs2|l2 rs2|o2 i2 rs2|bs2| |s2 a2 w2 h2] H1 H2 E; try done;
    try (simpl in E; simplify_eq; f_equal; by apply normal_runs_unique).
  apply normal_block_quote in H1 as [N1 F1], H2 as [N2 F2]. f_equal.
  destruct bs as [|b bs], bs2 as [|b2 bs2]; [done..|].
  injection E as E1 E2.
  apply (map_unique normal_block content_block); [exact IH|done|done|].
  simpl. congruence.
Qed.

Lemma normalize_block_id b : normal_block b → normalize_block b = b.
Proof.
  intros Hb. apply normal_block_unique; auto using normalize_block_normal.
  apply normalize_block_content.
Qed.

Lemma normalize_block_idemp b : normalize_block (normalize_block b) = normalize_block b.
Proof. apply normalize_block_id, normalize_block_normal. Qed.

(** ** The loop *)

Definition normalize_dirty (dirty : list nat) (bs : list Block) : list Block :=
  foldl (λ bs i, alter normalize_block i bs) bs dirty.

Lemma normalize_batch_run batch it max bs :
  it + length batch ≤ max →
  ∃ it', normalize_batch batch it max bs = (normalize_dirty batch bs, it') ∧ it' ≤ max.
Proof.
  revert it bs. induction batch as [|i batch IH]; simpl; intros it bs Hmax; [eauto with lia|].
  destruct (bs !! i) as [b|] eqn:Eb.
  - destruct (Nat.ltb_spec max (S it)); [lia|].
    rewrite <- (list_alter_eq normalize_block bs i b Eb). apply IH. lia.
  - destruct (IH it bs) as (it' & E & ?); [lia|]. rewrite E.
    unfold normalize_dirty. simpl. rewrite list_alter_none by done. eauto.
Qed.

Lemma normalize_while_run fuel dirty bs :
  2 ≤ fuel →
  normalize_while fuel dirty 0 (max_iterations dirty) bs = Some (normalize_dirty dirty bs).
Proof.
  intros Hf. destruct fuel as [|[|fuel]]; [lia..|].
  assert (Hm : 0 + length dirty ≤ max_iterations dirty ∧ 1 ≤ max_iterations dirty).
  { unfold max_iterations, SAFETY_MULTIPLIER. lia. }
  destruct Hm as [Hm Hm1].
  cbn [normalize_while]. destruct (Nat.ltb_spec 0 (max_iterations dirty)); [|lia].
  destruct dirty as [|i dirty]; [done|].
  destruct (normalize_batch_run _ _ _ bs Hm) as (it' & E & _).
  cbn [is_nil negb andb]. rewrite E. by destruct fuel.
Qed.

Lemma normalize_dirty_lookup dirty bs k :
  normalize_dirty dirty bs !! k =
    (if decide (k ∈ dirty) then normalize_block <$> bs !! k else bs !! k).
Proof.
  revert bs. induction dirty as [|i dirty IH]; intros bs; [done|].
  unfold normalize_dirty in *. simpl. rewrite IH.
  rewrite list_lookup_alter. destruct (decide (k = i)) as [->|Hne].
  - rewrite (decide_True (P := i ∈ i :: dirty)) by set_solver.
    destruct (decide (i = i)); [|done].
    case_decide; [|done]. destruct (bs !! i); simpl; [|done].
    by rewrite normalize_block_idemp.
  - destruct (decide (i = k)); [congruence|].
    assert (k ∈ i :: dirty ↔ k ∈ dirty) as Ei by set_solver.
    by rewrite (decide_ext _ _ _ _ Ei).
Qed.

Lemma at_least_one_ne bs : at_least_one bs ≠ [].
Proof. by destruct bs. Qed.

Lemma at_least_one_id bs : bs ≠ [] → at_least_one bs = bs.
Proof. by destruct bs. Qed.

(** The normalized blocks: exactly the dirty ones change. *)
Definition normalized_at (dirty : list nat) (bs : list Block) : list Block :=
  imap (λ i b, if decide (i ∈ dirty) then normalize_block b else b) bs.

Lemma normalize_dirty_at dirty bs : normalize_dirty dirty bs = normalized_at dirty bs.
Proof.
  apply list_eq. intros k. rewrite normalize_dirty_lookup. unfold normalized_at.
  rewrite list_lookup_imap. case_decide; by destruct (bs !! k).
Qed.

Lemma normalized_at_ne dirty bs : bs ≠ [] → normalized_at dirty bs ≠ [].
Proof. by destruct bs. Qed.

Lemma normalize_blocks_fuel_spec fuel d dirty :
  2 ≤ fuel →
  normalize_blocks_fuel fuel d dirty
    = Some (mkDoc (normalized_at dirty (at_least_one (blocks d)))).
Proof.
  intros Hf. unfold normalize_blocks_fuel. rewrite normalize_while_run by done. simpl.
  rewrite normalize_dirty_at, at_least_one_id; [done|].
  apply normalized_at_ne, at_least_one_ne.
Qed.

Lemma normalize_blocks_spec d dirty :
  normalize_blocks d dirty = mkDoc (normalized_at dirty (at_least_one (blocks d))).
Proof. unfold normalize_blocks. by rewrite normalize_blocks_fuel_spec by lia. Qed.

Lemma normalize_spec d : normalize d = mkDoc (map normalize_block (at_least_one (blocks d))).
Proof.
  unfold normalize. rewrite normalize_blocks_spec. f_equal. simpl.
  rewrite (at_least_one_id (at_least_one _)) by apply at_least_one_ne.
  apply list_eq. intros k. unfold normalized_at. rewrite list_lookup_imap.
  set (bs := at_least_one (blocks d)).
  assert (map normalize_block bs !! k = normalize_block <$> bs !! k) as -> by apply list_lookup_fmap.
  destruct (bs !! k) eqn:E; [|done]. simpl. rewrite decide_True; [done|].
  apply elem_of_seq. apply lookup_lt_Some in E. lia.
Qed.

Lemma length_normalize_blocks d dirty :
  blocks d ≠ [] → length (blocks (normalize_blocks d dirty)) = length (blocks d).
Proof.
  intros Hne. rewrite normalize_blocks_spec. simpl. unfold normalized_at.
  by rewrite length_imap, at_least_one_id.
Qed.

Lemma normalize_id d : normal_doc d → normalize d = d.
Proof.
  intros [Hne Hd]. rewrite normalize_spec, at_least_one_id by done.
  destruct d as [bs]. simpl in *. f_equal.
  induction Hd as [|b bs Hb Hd IH]; [done|]. simpl. rewrite normalize_block_id by done.
  f_equal. destruct bs; [done|]. by apply IH.
Qed.

Lemma normalize_normal d : normal_doc (normalize d).
Proof.
  rewrite normalize_spec. split; simpl.
  - by destruct (blocks d).
  - rewrite Forall_map. apply Forall_true. intros b. apply normalize_block_normal.
Qed.

Lemma normalize_content d : content_doc (normalize d) = content_doc d.
Proof.
  rewrite normalize_spec. unfold content_doc. simpl.
  rewrite at_least_one_id by (by destruct (blocks d)).
  rewrite map_map. apply map_ext. apply normalize_block_content.
Qed.

Lemma normal_doc_unique d1 d2 :
  normal_doc d1 → normal_doc d2 → content_doc d1 = content_doc d2 → d1 = d2.
Proof.
  destruct d1 as [bs1], d2 as [bs2]. intros [N1 F1] [N2 F2]. unfold content_doc; simpl in *.
  rewrite !at_least_one_id by done. intros E. f_equal.
  eapply (map_unique normal_block content_block); eauto.
  apply Forall_true. intros b ? ? ? ?. by apply normal_block_unique.
Qed.

(** The cells determine the content. *)
Lemma abs_block_content `{Segmentation} b1 b2 :
  abs_block b1 = abs_block b2 → content_block b1 = content_block b2.
Proof.
  revert b2. induction b1 as [rs|l rs|o i rs|bs IH| |s a w h] using Block_ind_nested;
    intros [rs2|l2 rs2|o2 i2 rs2|bs2| |s2 a2 w2 h2] E; try done; cbn in E;
    try (injection E; intros; subst; simpl; rewrite <- !cells_fbytes_cells; congruence).
  - injection E as E. simpl. f_equal.
    assert (map content_block bs = map content_block bs2) as Em.
    { revert bs2 E. induction IH as [|b bs Hb _ IHs]; intros [|b2 bs2] E; try done.
      injection E as E1 E2. simpl. f_equal; [by apply Hb|by apply IHs]. }
    destruct bs, bs2; done.
  - congruence.
Qed.

Lemma abs_doc_content `{Segmentation} d1 d2 :
  abs_doc d1 = abs_doc d2 → content_doc d1 = content_doc d2.
Proof.
  unfold abs_doc, content_doc. destruct d1 as [bs1], d2 as [bs2]. simpl. intros E.
  assert (map content_block bs1 = map content_block bs2) as Em.
  { revert bs2 E. induction bs1 as [|b bs1 IH]; intros [|b2 bs2] E; try done.
    injection E as E1 E2. simpl. f_equal; [by apply abs_block_content|by apply IH]. }
  by destruct bs1, bs2.
Qed.

(** ** Properties *)

(** C29. Normalization is canonical: two documents have the same normal form
    exactly when they have the same content (block structure, text and
    formatting of every character), so the normal form does not depend on how
    the edits cut the text into runs. *)
Theorem normalize_canonical (d1 d2 : Document) :
  normalize d1 = normalize d2 ↔ content_doc d1 = content_doc d2.
Proof.
  split; intros E.
  - by rewrite <- (normalize_content d1), E, normalize_content.
  - apply normal_doc_unique; auto using normalize_normal. by rewrite !normalize_content.
Qed.

(** [normalize] establishes the document invariant (a block, a run in every
    inline block, no empty run beside another, no two adjacent runs of one
    formatting, at every depth of quoting), keeps the content and changes
    nothing on a second pass. *)
Theorem normalize_establishes_invariant (d : Document) :
  normal_doc (normalize d) ∧ content_doc (normalize d) = content_doc d
  ∧ normalize (normalize d) = normalize d.
Proof.
  split_and!; auto using normalize_normal, normalize_content, normalize_id.
Qed.

(** The dirty-block pass terminates before its safety valve (42 times the
    number of dirty indices) can stop it: with any fuel from two loop tests on
    it normalizes every dirty block that exists and leaves every other block as
    it was, out-of-range and repeated indices included. *)
Theorem normalize_blocks_terminates (fuel : nat) (d : Document) (dirty : list nat)
    (Hfuel : 2 ≤ fuel) :
  normalize_blocks_fuel fuel d dirty = Some (normalize_blocks d dirty)
  ∧ blocks (normalize_blocks d dirty)
    = imap (λ i b, if decide (i ∈ dirty) then normalize_block b else b)
        (at_least_one (blocks d)).
Proof. by rewrite normalize_blocks_fuel_spec, normalize_blocks_spec. Qed.

Lemma normalize_blocks_terminates_witness :
  2 ≤ 2 ∧
  normalize_blocks_fuel 2 (mkDoc [Paragraph [run_plain (lit "a"); run_plain (lit "b")]]) [0; 7; 0]
  = Some (mkDoc [Paragraph [run_plain (lit "ab")]]).
Proof.
  split; [lia|].
  etrans; [apply (normalize_blocks_terminates 2); lia|]. vm_compute. reflexivity.
Defined.
