(* ===== verification/Operations.v ===== *)
(** * Operations: edit operations, position maps and inverses

    src/crates/rte/src/operations.rs.  [apply] and its helpers return [None]
    where the code panics (an [expect], an [assert!], a [Vec] index out of
    range); otherwise the new document and the position map. *)

From S2P Require Import Prelude.
From S2P Require Import Graphemes.
From S2P Require Import Document.

(** ** Position maps *)

Record PosMapEntry := mkEntry { old_offset : nat; old_len : nat; new_len : nat }.

Inductive StructuralChange :=
| Split (block_index split_offset : nat)
| Merge (block_index merge_offset : nat)
| Insert (block_index count : nat)
| Remove (block_index : nat)
| RemoveRange (block_index count : nat)
| CrossBlockDelete (start_block removed_count start_offset : nat).

Record PosMap := mkPosMap {
  pm_block_index : nat;
  pm_entries : list PosMapEntry;
  pm_structural : option StructuralChange
}.

Definition posmap_identity : PosMap := mkPosMap 0 [] None.

Definition map_structural (m : PosMap) (p : DocPosition) : DocPosition :=
  match pm_structural m with
  | None => p
  | Some (Split bi so) =>
      if (block_index p =? bi) && (so <? offset p) then mkPos (bi + 1) (offset p - so)
      else if bi <? block_index p then mkPos (block_index p + 1) (offset p)
      else p
  | Some (Merge bi mo) =>
      if block_index p =? bi then mkPos (bi - 1) (offset p + mo)
      else if bi <? block_index p then mkPos (block_index p - 1) (offset p)
      else p
  | Some (Insert bi count) =>
      if bi <=? block_index p then mkPos (block_index p + count) (offset p) else p
  | Some (Remove bi) =>
      if block_index p =? bi then mkPos bi 0
      else if bi <? block_index p then mkPos (block_index p - 1) (offset p)
      else p
  | Some (RemoveRange bi count) =>
      let end_block := bi + count in
      if (bi <=? block_index p) && (block_index p <? end_block) then mkPos bi 0
      else if end_block <=? block_index p then mkPos (block_index p - count) (offset p)
      else p
  | Some (CrossBlockDelete sb removed so) =>
      let end_block := sb + removed in
      if (sb <? block_index p) && (block_index p <=? end_block) then mkPos sb so
      else if end_block <? block_index p then mkPos (block_index p - removed) (offset p)
      else p
  end.

(** The loop of [map_entries] on the offset. *)
Fixpoint map_entries_go (es : list PosMapEntry) (o : nat) : nat :=
  match es with
  | [] => o
  | e :: es =>
      if o <=? old_offset e then o
      else if o <? old_offset e + old_len e then old_offset e + new_len e
      else map_entries_go es
             (if old_len e <=? new_len e then o + (new_len e - old_len e)
              else o - (old_len e - new_len e))
  end.

Definition map_entries (m : PosMap) (p : DocPosition) : DocPosition :=
  if negb (block_index p =? pm_block_index m) || is_nil (pm_entries m) then p
  else mkPos (block_index p) (map_entries_go (pm_entries m) (offset p)).

Definition posmap_map (m : PosMap) (p : DocPosition) : DocPosition :=
  map_entries m (map_structural m p).

(** ** Operations *)

Record DeletedContent := mkDeleted { del_blocks : list Block; end_tail : option Block }.

Inductive EditOp :=
| InsertText (position : DocPosition) (t : text)
| DeleteRange (s e : DocPosition) (deleted : DeletedContent)
| SplitBlock (position : DocPosition)
| MergeBlocks (bi : nat) (saved : Block) (merge_offset : nat)
| ToggleInlineStyle (s e : DocPosition) (style_bit : InlineStyle)
| SetBlockType (bi : nat) (old new : BlockKind)
| SetBlockAttrs (bi : nat) (old new : BlockAttrs)
| InsertBlock (index : nat) (b : Block)
| RemoveBlock (index : nat) (saved : Block)
| ReplaceBlock (index : nat) (old new : Block)
| RestoreMergedBlock (bi : nat) (saved : Block) (merge_offset : nat).

(** The result of an operation: a panic, or the document and its map. *)
Abbreviation op_result := (option (Document * PosMap)).

(** Inserting blocks one after the other from index [i] on. *)
Fixpoint vec_insert_seq {A} (i : nat) (xs l : list A) : option (list A) :=
  match xs with
  | [] => Some l
  | x :: xs => l' ← vec_insert i x l; vec_insert_seq (S i) xs l'
  end.

(** [matches!(doc.block(0), Some(Paragraph { runs }) if all runs are empty)] *)
Definition first_block_blank (bs : list Block) : bool :=
  match bs !! 0 with
  | Some (Paragraph rs) => forallb run_is_empty rs
  | _ => false
  end.

Section Operations.
Context `{Segmentation}.

(** *** Run utilities *)

Fixpoint extract_from_go (rs : list StyledRun) (pos o : nat) : list StyledRun :=
  match rs with
  | [] => []
  | r :: rest =>
      let run_end := pos + run_char_len r in
      if run_end <=? o then extract_from_go rest run_end o
      else if o <=? pos then r :: extract_from_go rest run_end o
      else
        let '(_, r2) := run_split_at r (o - pos) in
        if run_is_empty r2 then extract_from_go rest run_end o
        else r2 :: extract_from_go rest run_end o
  end.

Definition extract_runs_from_offset (rs : list StyledRun) (o : nat) : list StyledRun :=
  extract_from_go rs 0 o.

Fixpoint extract_up_to_go (rs : list StyledRun) (pos o : nat) : list StyledRun :=
  match rs with
  | [] => []
  | r :: rest =>
      if o <=? pos then []
      else if pos + run_char_len r <=? o
      then r :: extract_up_to_go rest (pos + run_char_len r) o
      else
        let '(r1, _) := run_split_at r (o - pos) in
        if run_is_empty r1 then extract_up_to_go rest (pos + run_char_len r) o
        else r1 :: extract_up_to_go rest (pos + run_char_len r) o
  end.

Definition extract_runs_up_to (rs : list StyledRun) (o : nat) : list StyledRun :=
  extract_up_to_go rs 0 o.

Fixpoint truncate_go (rs : list StyledRun) (pos o : nat) : list StyledRun :=
  match rs with
  | [] => []
  | r :: rest =>
      if pos + run_char_len r <=? o then r :: truncate_go rest (pos + run_char_len r) o
      else if o <=? pos then []
      else [(run_split_at r (o - pos)).1]
  end.

Definition truncate_runs (rs : list StyledRun) (o : nat) : list StyledRun :=
  truncate_go rs 0 o.

Definition or_plain_empty (rs : list StyledRun) : list StyledRun :=
  match rs with [] => [run_plain []] | _ => rs end.

Definition extract_runs_from_range (rs : list StyledRun) (a b : nat) : list StyledRun :=
  if b <=? a then [run_plain []] else or_plain_empty (extract_overlaps rs 0 a b).

(** *** InsertText *)

(** Inserting [t] into the text of [r] at the cluster offset [o]. *)
Definition run_insert_str (r : StyledRun) (o : nat) (t : text) : StyledRun :=
  let b := run_char_to_byte_offset r o in
  run_with_text r (take b (run_text r) ++ t ++ drop b (run_text r)).

Definition run_push_str (r : StyledRun) (t : text) : StyledRun :=
  run_with_text r (run_text r ++ t).

Definition run_unlinked (r : StyledRun) (t : text) : StyledRun :=
  mkRun t (run_style r) None.

(** The loop of [insert_text_into_runs]: [before] are the runs passed, [None]
    is leaving the loop without a [return]. *)
Fixpoint insert_text_go (before rs : list StyledRun) (pos o : nat) (t : text)
    : option (list StyledRun) :=
  match rs with
  | [] => None
  | r :: rest =>
      let run_len := run_char_len r in
      let at_start :=
        if o =? pos then
          match last before with
          | None =>
              if bool_decide (is_Some (run_link r))
              then Some (before ++ run_unlinked r t :: r :: rest)
              else None
          | Some prev =>
              if bool_decide (is_Some (run_link prev)) || bool_decide (is_Some (run_link r))
              then Some (before ++ run_unlinked prev t :: r :: rest)
              else Some (removelast before ++ run_push_str prev t :: r :: rest)
          end
        else None in
      match at_start with
      | Some out => Some out
      | None =>
          if o <? pos + run_len
          then Some (before ++ run_insert_str r (o - pos) t :: rest)
          else if o =? pos + run_len then
            if bool_decide (is_Some (run_link r))
            then Some (before ++ r :: run_unlinked r t :: rest)
            else Some (before ++ run_push_str r t :: rest)
          else insert_text_go (before ++ [r]) rest (pos + run_len) o t
      end
  end.

Definition insert_text_into_runs (rs : list StyledRun) (o : nat) (t : text)
    : list StyledRun :=
  match insert_text_go [] rs 0 o t with
  | Some out => out
  | None =>
      match last rs with
      | Some l => removelast rs ++ [run_push_str l t]
      | None => []
      end
  end.

Definition apply_insert_text (d : Document) (p : DocPosition) (t : text) : op_result :=
  b ← doc_block d (block_index p);
  match block_runs b with
  | None => Some (d, mkPosMap (block_index p) [] None)
  | Some rs =>
      let b' := block_set_runs b (insert_text_into_runs rs (offset p) t) in
      Some ((doc_replace_block d (block_index p) b').1,
            mkPosMap (block_index p) [mkEntry (offset p) 0 (text_len t)] None)
  end.

(** *** DeleteRange *)

Definition apply_single_block_delete (d : Document) (s e : DocPosition) : op_result :=
  b ← doc_block d (block_index s);
  let i := block_index s in
  match block_runs b with
  | None =>
      if (offset s =? 0) && (block_char_len b <=? offset e) then
        if doc_block_count d =? 1
        then Some ((doc_replace_block d i block_empty_paragraph).1, mkPosMap i [] None)
        else
          bs ← vec_remove i (blocks d);
          Some (mkDoc bs, mkPosMap i [] (Some (Remove i)))
      else Some (d, mkPosMap i [] None)
  | Some rs =>
      '(rs', (ra, rb)) ← isolate_runs rs (offset s) (offset e);
      let rs'' := if ra <? rb then take ra rs' ++ drop rb rs' else rs' in
      Some ((doc_replace_block d i (block_set_runs b (or_plain_empty rs''))).1,
            mkPosMap i [mkEntry (offset s) (offset e - offset s) 0] None)
  end.

Definition build_cross_delete_replacement (sb : Block) (so : nat) (eb : Block) (eo : nat)
    : option Block :=
  match block_runs sb with
  | Some srs =>
      let tail :=
        match block_runs eb with
        | Some ers => extract_runs_from_offset ers eo
        | None => []
        end in
      Some (block_set_runs sb (or_plain_empty (truncate_runs srs so ++ tail)))
  | None =>
      ers ← block_runs eb;
      match extract_runs_from_offset ers eo with
      | [] => None
      | tail => Some (block_with_runs_like eb tail)
      end
  end.

Definition apply_cross_block_delete (d : Document) (s e : DocPosition) : op_result :=
  eb ← doc_block d (block_index e);
  sb ← doc_block d (block_index s);
  let i := block_index s in
  let last_removed :=
    if block_is_inline eb || (0 <? offset e) then block_index e else block_index e - 1 in
  match build_cross_delete_replacement sb (offset s) eb (offset e) with
  | Some nb =>
      let n := last_removed - i in
      bs ← iter_opt n (vec_remove (i + 1)) (blocks (doc_replace_block d i nb).1);
      Some (mkDoc bs,
            mkPosMap i [mkEntry (offset s) 0 0]
              (if 0 <? n then Some (CrossBlockDelete i n (offset s)) else None))
  | None =>
      let n := last_removed - i + 1 in
      bs ← iter_opt n (vec_remove i) (blocks d);
      Some (mkDoc (match bs with [] => [block_empty_paragraph] | _ => bs end),
            mkPosMap i [] (Some (RemoveRange i n)))
  end.

(** [apply_restore_deleted_from_atomic_start], for two blocks or more:
    [first :: middle ++ [last]]. *)
Definition apply_restore_from_atomic (d : Document) (p : DocPosition)
    (first : Block) (middle : list Block) (last : Block) (tail : option Block)
    : op_result :=
  let count := length (first :: middle ++ [last]) in
  let i := Nat.min (block_index p) (doc_block_count d) in
  let runs_of b := default [] (block_runs b) in
  let restored_last :=
    match tail with
    | Some t => block_with_runs_like last (runs_of last ++ runs_of t)
    | None => last
    end in
  let consumed := match tail with Some _ => true | None => false end in
  bs1 ← (if consumed && (i <? doc_block_count d) then vec_remove i (blocks d)
         else Some (blocks d));
  let bs2 :=
    if (length bs1 =? 1) && first_block_blank bs1 && (i =? 0) then [] else bs1 in
  bs3 ← vec_insert_seq i (first :: middle ++ [restored_last]) bs2;
  Some (mkDoc bs3, mkPosMap i [] (Some (Insert i count))).

(** The restore of one deleted block. *)
Definition apply_restore_single (d : Document) (p : DocPosition) (b0 : Block) : op_result :=
  match block_runs b0 with
  | None =>
      let i := Nat.min (block_index p) (doc_block_count d) in
      if (doc_block_count d =? 1) && (i =? 0) && first_block_blank (blocks d)
      then Some ((doc_replace_block d 0 b0).1, mkPosMap 0 [] None)
      else
        bs ← vec_insert i b0 (blocks d);
        Some (mkDoc bs, mkPosMap i [] (Some (Insert i 1)))
  | Some drs =>
      b ← doc_block d (block_index p);
      let b' :=
        match block_runs b with
        | Some rs =>
            block_set_runs b
              (or_plain_empty (extract_runs_up_to rs (offset p) ++ drs
                               ++ extract_runs_from_offset rs (offset p)))
        | None => b
        end in
      Some ((doc_replace_block d (block_index p) b').1,
            mkPosMap (block_index p) [mkEntry (offset p) 0 (runs_char_len drs)] None)
  end.

(** The restore of [first :: middle ++ [last]] around the merged block. *)
Definition apply_restore_cross (d : Document) (p : DocPosition)
    (first : Block) (middle : list Block) (last : Block) (tail : option Block)
    : op_result :=
  merged ← doc_block d (block_index p);
  let i := block_index p in
  let runs_of b := default [] (block_runs b) in
  let head_runs := extract_runs_up_to (runs_of merged) (offset p) in
  let tail_runs := match tail with Some t => runs_of t | None => [] end in
  let first' := block_with_runs_like first (or_plain_empty (head_runs ++ runs_of first)) in
  let last' :=
    if block_is_inline last
    then block_with_runs_like last (or_plain_empty (runs_of last ++ tail_runs))
    else last in
  bs1 ← vec_remove i (blocks d);
  bs2 ← vec_insert_seq i (first' :: middle ++ [last']) bs1;
  Some (mkDoc bs2,
        mkPosMap i [] (Some (Insert i (length (first :: middle ++ [last]))))).

Definition apply_restore_deleted (d : Document) (p : DocPosition) (del : DeletedContent)
    : op_result :=
  match del_blocks del with
  | [] => None
  | [b0] => apply_restore_single d p b0
  | first :: rest =>
      let middle := removelast rest in
      let lastb := List.last rest first in
      if block_is_inline first
      then apply_restore_cross d p first middle lastb (end_tail del)
      else apply_restore_from_atomic d p first middle lastb (end_tail del)
  end.

Definition apply_delete_range (d : Document) (s e : DocPosition) (del : DeletedContent)
    : op_result :=
  if decide (pos_lt e s) then None
  else if bool_decide (s = e) && negb (is_nil (del_blocks del))
  then apply_restore_deleted d s del
  else if block_index s =? block_index e
  then apply_single_block_delete d s e
  else apply_cross_block_delete d s e.

(** *** SplitBlock, MergeBlocks, RestoreMergedBlock *)

Fixpoint split_offset_go (rs : list StyledRun) (pos o : nat)
    : list StyledRun * list StyledRun :=
  match rs with
  | [] => ([], [])
  | r :: rest =>
      if pos + run_char_len r <=? o then
        let '(l, rt) := split_offset_go rest (pos + run_char_len r) o in (r :: l, rt)
      else if o <=? pos then ([], r :: rest)
      else let '(r1, r2) := run_split_at r (o - pos) in ([r1], r2 :: rest)
  end.

Definition split_runs_at_offset (rs : list StyledRun) (o : nat)
    : list StyledRun * list StyledRun :=
  let '(l, rt) := split_offset_go rs 0 o in (or_plain_empty l, or_plain_empty rt).

Definition split_block_at (b : Block) (o : nat) : Block * Block :=
  match b with
  | Paragraph rs =>
      let '(l, rt) := split_runs_at_offset rs o in (Paragraph l, Paragraph rt)
  | Heading lv rs =>
      let '(l, rt) := split_runs_at_offset rs o in (Heading lv l, Heading lv rt)
  | ListItem od ind rs =>
      let '(l, rt) := split_runs_at_offset rs o in (ListItem od ind l, ListItem od ind rt)
  | _ => (b, block_empty_paragraph)
  end.

Definition apply_split_block (d : Document) (p : DocPosition) : op_result :=
  b ← doc_block d (block_index p);
  let i := block_index p in
  let '(b1, b2) := split_block_at b (offset p) in
  bs ← vec_insert (i + 1) b2 (blocks (doc_replace_block d i b1).1);
  Some (mkDoc bs, mkPosMap i [] (Some (Split i (offset p)))).

Definition merge_two_blocks (b1 b2 : Block) : Block :=
  let rs := or_plain_empty (default [] (block_runs b1) ++ default [] (block_runs b2)) in
  match b1 with
  | Heading l _ => Heading l rs
  | ListItem o i _ => ListItem o i rs
  | _ => Paragraph rs
  end.

Definition apply_merge_blocks (d : Document) (i : nat) (_merge_offset : nat) : op_result :=
  if negb (0 <? i) then None
  else if negb (i <? doc_block_count d) then None
  else
    prev ← doc_block d (i - 1);
    cur ← doc_block d i;
    let n := block_char_len prev in
    bs ← vec_remove i (blocks (doc_replace_block d (i - 1) (merge_two_blocks prev cur)).1);
    Some (mkDoc bs, mkPosMap (i - 1) [mkEntry n 0 0] (Some (Merge i n))).

Definition apply_restore_merged_block (d : Document) (i : nat) (saved : Block)
    (merge_offset : nat) : op_result :=
  let mi := i - 1 in
  merged ← doc_block d mi;
  let left_runs := extract_runs_up_to (default [] (block_runs merged)) merge_offset in
  bs ← vec_insert i saved
         (blocks (doc_replace_block d mi (block_with_runs_like merged left_runs)).1);
  Some (mkDoc bs, mkPosMap mi [] (Some (Insert i 1))).

(** *** ToggleInlineStyle *)

(** The walk of [all_text_has_style] over one block's runs. *)
Fixpoint runs_have_style (rs : list StyledRun) (pos a b : nat) (bit : InlineStyle) : bool :=
  match rs with
  | [] => true
  | r :: rest =>
      let run_end := pos + run_char_len r in
      if run_end <=? a then runs_have_style rest run_end a b bit
      else if b <=? pos then true
      else if (0 <? run_char_len r) && negb (style_contains (run_style r) bit) then false
      else runs_have_style rest run_end a b bit
  end.

(** The part of block [bi] inside the range. *)
Definition range_in_block (s e : DocPosition) (bi : nat) (b : Block) : nat * nat :=
  (if bi =? block_index s then offset s else 0,
   if bi =? block_index e then offset e else block_char_len b).

Definition range_blocks (s e : DocPosition) : list nat :=
  seq (block_index s) (block_index e + 1 - block_index s).

Definition all_text_has_style (d : Document) (s e : DocPosition) (bit : InlineStyle) : bool :=
  forallb (λ bi,
    match doc_block d bi with
    | None => true
    | Some b =>
        match block_runs b with
        | None => true
        | Some rs => let '(a, z) := range_in_block s e bi b in runs_have_style rs 0 a z bit
        end
    end) (range_blocks s e).

Definition set_style (remove : bool) (bit : InlineStyle) (r : StyledRun) : StyledRun :=
  mkRun (run_text r)
    (if remove then style_remove (run_style r) bit else style_insert (run_style r) bit)
    (run_link r).

Definition toggle_block (remove : bool) (s e : DocPosition) (bit : InlineStyle)
    (bi : nat) (d : Document) : option Document :=
  match doc_block d bi with
  | Some b =>
      match block_runs b with
      | Some rs =>
          let '(a, z) := range_in_block s e bi b in
          if z <=? a then Some d
          else
            '(rs', (i, j)) ← isolate_runs rs a z;
            let rs'' := take i rs' ++ (set_style remove bit <$> take (j - i) (drop i rs'))
                        ++ drop j rs' in
            Some (doc_replace_block d bi (block_set_runs b rs'')).1
      | None => Some d
      end
  | None => Some d
  end.

Fixpoint toggle_blocks (remove : bool) (s e : DocPosition) (bit : InlineStyle)
    (bis : list nat) (d : Document) : option Document :=
  match bis with
  | [] => Some d
  | bi :: bis =>
      d' ← toggle_block remove s e bit bi d; toggle_blocks remove s e bit bis d'
  end.

Definition apply_toggle_inline_style (d : Document) (s e : DocPosition) (bit : InlineStyle)
    : op_result :=
  if decide (pos_lt s e) then
    let remove := all_text_has_style d s e bit in
    d' ← toggle_blocks remove s e bit (range_blocks s e) d;
    Some (d', mkPosMap (block_index s) [] None)
  else None.

(** *** SetBlockType, SetBlockAttrs, block insertion and removal *)

Definition block_as_kind (b : Block) (k : BlockKind) : Block :=
  let rs :=
    match b with
    | BlockQuote bs =>
        match bs with
        | [] => []
        | c :: _ => default [] (block_runs c)
        end
    | _ => default [] (block_runs b)
    end in
  let new_runs := or_plain_empty rs in
  match k with
  | KParagraph => Paragraph new_runs
  | KHeading l => Heading l new_runs
  | KListItem o => ListItem o 0 new_runs
  | KBlockQuote => BlockQuote [Paragraph new_runs]
  | KHorizontalRule => HorizontalRule
  | KImage => Image [] (block_flattened_text b) None None
  end.

Definition apply_set_block_type (d : Document) (i : nat) (new : BlockKind) : op_result :=
  b ← doc_block d i;
  Some ((doc_replace_block d i (block_as_kind b new)).1, mkPosMap i [] None).

Definition apply_set_block_attrs (d : Document) (i : nat) (new : BlockAttrs) : op_result :=
  b ← doc_block d i;
  let d' :=
    match block_with_attrs b new with
    | Some b' => (doc_replace_block d i b').1
    | None => d
    end in
  Some (d', mkPosMap i [] None).

Definition apply_insert_block (d : Document) (i : nat) (b : Block) : op_result :=
  d' ← doc_insert_block d i b;
  Some (d', mkPosMap i [] (Some (Insert i 1))).

Definition apply_remove_block (d : Document) (i : nat) : op_result :=
  if i <? doc_block_count d then
    '(d', removed) ← doc_remove_block d i;
    Some (d', mkPosMap i []
                (match removed with Some _ => Some (Remove i) | None => None end))
  else Some (d, mkPosMap i [] None).

Definition apply_replace_block (d : Document) (i : nat) (b : Block) : op_result :=
  match doc_replace_block d i b with
  | (_, None) => None
  | (d', Some _) => Some (d', mkPosMap i [] None)
  end.

(** ** [EditOp::apply] *)

Definition apply (op : EditOp) (d : Document) : op_result :=
  match op with
  | InsertText p t => apply_insert_text d p t
  | DeleteRange s e del => apply_delete_range d s e del
  | SplitBlock p => apply_split_block d p
  | MergeBlocks i _ mo => apply_merge_blocks d i mo
  | ToggleInlineStyle s e bit => apply_toggle_inline_style d s e bit
  | SetBlockType i _ new => apply_set_block_type d i new
  | SetBlockAttrs i _ new => apply_set_block_attrs d i new
  | InsertBlock i b => apply_insert_block d i b
  | RemoveBlock i _ => apply_remove_block d i
  | ReplaceBlock i _ new => apply_replace_block d i new
  | RestoreMergedBlock i saved mo => apply_restore_merged_block d i saved mo
  end.

(** Applying a list of operations, keeping the document. *)
Fixpoint apply_all (ops : list EditOp) (d : Document) : option Document :=
  match ops with
  | [] => Some d
  | op :: ops => '(d', _) ← apply op d; apply_all ops d'
  end.

(** ** [EditOp::invert] and [EditOp::invert_with_doc] *)

Definition invert_delete_range (s e : DocPosition) (del : DeletedContent) : EditOp :=
  DeleteRange s s (mkDeleted (del_blocks del) (end_tail del)).

Definition invert_inner (op : EditOp) (d : option Document) : EditOp :=
  match op with
  | InsertText p t =>
      let n := text_len t in
      let deleted_runs :=
        match (d ≫= λ d, doc_block d (block_index p)) ≫= block_runs with
        | Some rs => extract_runs_from_range rs (offset p) (offset p + n)
        | None => [run_plain t]
        end in
      DeleteRange p (mkPos (block_index p) (offset p + n))
        (mkDeleted [Paragraph deleted_runs] None)
  | DeleteRange s e del => invert_delete_range s e del
  | SplitBlock p => MergeBlocks (block_index p + 1) block_empty_paragraph (offset p)
  | MergeBlocks i saved mo => RestoreMergedBlock i saved mo
  | ToggleInlineStyle s e bit => ToggleInlineStyle s e bit
  | SetBlockType i old new => SetBlockType i new old
  | SetBlockAttrs i old new => SetBlockAttrs i new old
  | InsertBlock i b => RemoveBlock i b
  | RemoveBlock i saved => InsertBlock i saved
  | ReplaceBlock i old new => ReplaceBlock i new old
  | RestoreMergedBlock i saved mo => MergeBlocks i saved mo
  end.

Definition invert (op : EditOp) : EditOp := invert_inner op None.
Definition invert_with_doc (op : EditOp) (d : Document) : EditOp := invert_inner op (Some d).
End Operations.
