(* ===== verification/OperationsTheory.v ===== *)
(** * OperationsTheory: what the edit operations do to the content

    The run utilities of [Operations] as [take] and [drop] of cells, the effect
    of every operation on the abstract document, and the inverses. *)

From S2P Require Import Prelude.
From S2P Require Import Graphemes.
From S2P Require Import Document.
From S2P Require Import Cells.
From S2P Require Import Normalize.
From S2P Require Import Operations.

(** ** Vectors *)

Lemma iter_remove_spec {A} n i (l : list A) :
  i + n ≤ length l → iter_opt n (vec_remove i) l = Some (take i l ++ drop (i + n) l).
Proof.
  revert l. induction n as [|n IH]; intros l Hl; simpl.
  { by rewrite Nat.add_0_r, take_drop. }
  assert (vec_remove i l = Some (take i l ++ drop (S i) l)) as ->.
  { apply vec_remove_Some. split; [lia|done]. }
  simpl. rewrite IH by (rewrite length_app, length_take, length_drop; lia).
  f_equal. rewrite take_app_le by (rewrite length_take; lia).
  rewrite take_take, Nat.min_id. f_equal.
  rewrite drop_app_ge by (rewrite length_take; lia).
  rewrite length_take, drop_drop. f_equal. lia.
Qed.

Lemma vec_insert_seq_spec {A} i (xs l : list A) :
  i ≤ length l → vec_insert_seq i xs l = Some (take i l ++ xs ++ drop i l).
Proof.
  revert i l. induction xs as [|x xs IH]; intros i l Hi; simpl.
  { by rewrite take_drop. }
  assert (vec_insert i x l = Some (take i l ++ x :: drop i l)) as ->.
  { apply vec_insert_Some. done. }
  simpl. rewrite IH by (rewrite length_app; simpl; rewrite length_take, length_drop; lia).
  f_equal.
  assert (length (take i l) = i) as Ei by (rewrite length_take; lia).
  rewrite take_app_ge, drop_app_ge by lia. rewrite Ei.
  replace (S i - i) with 1 by lia. simpl. rewrite drop_0. by rewrite <- app_assoc.
Qed.

Lemma take_insert_ge {A} (l : list A) i j x : j ≤ i → take j (<[i := x]> l) = take j l.
Proof. intros. by rewrite take_insert_ge. Qed.

Section Theory.
Context `{Segmentation}.

(** ** Run utilities *)

Lemma or_plain_empty_cells rs : cells (or_plain_empty rs) = cells rs.
Proof. destruct rs; [apply cells_plain_empty|done]. Qed.

Lemma or_plain_empty_ne rs : or_plain_empty rs ≠ [].
Proof. by destruct rs. Qed.

Lemma extract_from_go_cells rs pos o :
  cells (extract_from_go rs pos o) = drop (o - pos) (cells rs).
Proof.
  revert pos. induction rs as [|r rs IH]; intros pos; cbn [extract_from_go].
  { change (cells []) with (@nil Cell). by rewrite drop_nil. }
  rewrite cells_cons.
  destruct (Nat.leb_spec (pos + run_char_len r) o) as [Ho|Ho].
  { rewrite IH, drop_app_ge by (rewrite length_run_cells; lia).
    rewrite length_run_cells. f_equal. lia. }
  destruct (Nat.leb_spec o pos) as [Hp|Hp].
  { rewrite cells_cons, IH. replace (o - pos) with 0 by lia.
    by replace (o - (pos + run_char_len r)) with 0 by lia. }
  destruct (run_split_at r (o - pos)) as [r1 r2] eqn:E.
  apply run_split_at_cells in E as (_ & E2 & _).
  rewrite drop_app_le by (rewrite length_run_cells; lia). rewrite <- E2.
  assert (cells (extract_from_go rs (pos + run_char_len r) o) = cells rs) as Er.
  { rewrite IH. by replace (o - (pos + run_char_len r)) with 0 by lia. }
  destruct (run_is_empty r2) eqn:Ee; rewrite ?cells_cons, Er; [|done].
  by rewrite run_cells_empty.
Qed.

Lemma extract_runs_from_offset_cells rs o :
  cells (extract_runs_from_offset rs o) = drop o (cells rs).
Proof. unfold extract_runs_from_offset. by rewrite extract_from_go_cells, Nat.sub_0_r. Qed.

Lemma extract_up_to_go_cells rs pos o :
  cells (extract_up_to_go rs pos o) = take (o - pos) (cells rs).
Proof.
  revert pos. induction rs as [|r rs IH]; intros pos; cbn [extract_up_to_go].
  { change (cells []) with (@nil Cell). by rewrite take_nil. }
  rewrite cells_cons. destruct (Nat.leb_spec o pos) as [Hp|Hp].
  { by replace (o - pos) with 0 by lia. }
  destruct (Nat.leb_spec (pos + run_char_len r) o) as [Ho|Ho].
  { rewrite cells_cons, IH, take_app_ge by (rewrite length_run_cells; lia).
    rewrite length_run_cells. do 2 f_equal. lia. }
  destruct (run_split_at r (o - pos)) as [r1 r2] eqn:E.
  apply run_split_at_cells in E as (E1 & _).
  rewrite take_app_le by (rewrite length_run_cells; lia). rewrite <- E1.
  assert (cells (extract_up_to_go rs (pos + run_char_len r) o) = []) as Er.
  { rewrite IH. by replace (o - (pos + run_char_len r)) with 0 by lia. }
  destruct (run_is_empty r1) eqn:Ee; rewrite ?cells_cons, Er; [|by rewrite app_nil_r].
  by rewrite run_cells_empty.
Qed.

Lemma extract_runs_up_to_cells rs o : cells (extract_runs_up_to rs o) = take o (cells rs).
Proof. unfold extract_runs_up_to. by rewrite extract_up_to_go_cells, Nat.sub_0_r. Qed.

Lemma truncate_go_cells rs pos o :
  pos ≤ o → cells (truncate_go rs pos o) = take (o - pos) (cells rs).
Proof.
  revert pos. induction rs as [|r rs IH]; intros pos Hpos; cbn [truncate_go].
  { change (cells []) with (@nil Cell). by rewrite take_nil. }
  rewrite cells_cons.
  destruct (Nat.leb_spec (pos + run_char_len r) o) as [Ho|Ho].
  { rewrite cells_cons, IH, take_app_ge by (rewrite ?length_run_cells; lia).
    rewrite length_run_cells. do 2 f_equal. lia. }
  rewrite take_app_le by (rewrite length_run_cells; lia).
  destruct (Nat.leb_spec o pos) as [Hp|Hp].
  { by replace (o - pos) with 0 by lia. }
  destruct (run_split_at r (o - pos)) as [r1 r2] eqn:E.
  apply run_split_at_cells in E as (E1 & _). cbn [fst].
  rewrite cells_cons, E1. apply app_nil_r.
Qed.

Lemma truncate_runs_cells rs o : cells (truncate_runs rs o) = take o (cells rs).
Proof. unfold truncate_runs. rewrite truncate_go_cells by lia. by rewrite Nat.sub_0_r. Qed.

Lemma split_offset_go_cells rs pos o l r :
  pos ≤ o → split_offset_go rs pos o = (l, r) →
  cells l = take (o - pos) (cells rs) ∧ cells r = drop (o - pos) (cells rs).
Proof.
  revert pos l r. induction rs as [|x rs IH]; intros pos l r Hpos; cbn [split_offset_go].
  { intros [= <- <-]. change (cells []) with (@nil Cell). by rewrite take_nil, drop_nil. }
  rewrite cells_cons.
  destruct (Nat.leb_spec (pos + run_char_len x) o) as [Ho|Ho].
  { destruct (split_offset_go rs _ o) as [l' r'] eqn:E. intros [= <- <-].
    apply IH in E as [El Er]; [|lia]. rewrite cells_cons, El, Er.
    rewrite take_app_ge, drop_app_ge by (rewrite length_run_cells; lia).
    rewrite length_run_cells.
    by replace (o - pos - run_char_len x) with (o - (pos + run_char_len x)) by lia. }
  rewrite take_app_le, drop_app_le by (rewrite length_run_cells; lia).
  destruct (Nat.leb_spec o pos) as [Hp|Hp].
  { intros [= <- <-]. by replace (o - pos) with 0 by lia. }
  destruct (run_split_at x (o - pos)) as [r1 r2] eqn:E. intros [= <- <-].
  apply run_split_at_cells in E as (E1 & E2 & _).
  rewrite !cells_cons, E1, E2. by rewrite app_nil_r.
Qed.

Lemma split_runs_at_offset_cells rs o l r :
  split_runs_at_offset rs o = (l, r) →
  cells l = take o (cells rs) ∧ cells r = drop o (cells rs) ∧ l ≠ [] ∧ r ≠ [].
Proof.
  unfold split_runs_at_offset. destruct (split_offset_go rs 0 o) as [l' r'] eqn:E.
  intros [= <- <-]. apply split_offset_go_cells in E as [El Er]; [|lia].
  rewrite !or_plain_empty_cells, El, Er, Nat.sub_0_r.
  split_and!; [done|done|apply or_plain_empty_ne..].
Qed.

Lemma extract_runs_from_range_eq rs a b :
  extract_runs_from_range rs a b = extract_runs rs a b.
Proof.
  unfold extract_runs_from_range, extract_runs. destruct (b <=? a); [done|].
  by destruct (extract_overlaps rs 0 a b).
Qed.

Lemma extract_runs_from_range_cells rs a b :
  a ≤ b → cells (extract_runs_from_range rs a b) = drop a (take b (cells rs)).
Proof. rewrite extract_runs_from_range_eq. apply extract_runs_cells. Qed.

(** ** Deleting and restoring inside one block *)

Lemma drop_range_cells rs a b rs' i j :
  isolate_runs rs a b = Some (rs', (i, j)) →
  cells (if i <? j then take i rs' ++ drop j rs' else rs')
  = take a (cells rs) ++ drop b (cells rs).
Proof.
  intros (Hab & Ec & Hij & Heq & Hlt)%isolate_runs_spec.
  destruct (decide (a = b ∨ rs = [])) as [Hz|Hz].
  { destruct (Heq Hz) as (-> & -> & ->). rewrite Nat.ltb_irrefl.
    destruct Hz as [->| ->]; [by rewrite take_drop|].
    change (cells []) with (@nil Cell). by rewrite take_nil, drop_nil. }
  destruct Hlt as (Ti & Tj & Dj); [lia|].
  destruct (Nat.ltb_spec i j) as [Hlt|Hge].
  { by rewrite cells_app, Ti, Dj. }
  assert (i = j) as -> by lia. rewrite Ec. rewrite <- (take_drop j rs') in Ec.
  rewrite cells_app, Dj in Ec. rewrite Ti in Ec. done.
Qed.

Lemma apply_single_block_delete_inline d i a z b rs :
  doc_block d i = Some b → block_runs b = Some rs → a ≤ z →
  ∃ d', apply_single_block_delete d (mkPos i a) (mkPos i z)
          = Some (d', mkPosMap i [mkEntry a (z - a) 0] None)
        ∧ abs_doc d' = <[i := AInline (block_shape b)
                                 (take a (cells rs) ++ drop z (cells rs))]> (abs_doc d).
Proof.
  intros Hb Hrs Haz. unfold apply_single_block_delete. simpl. rewrite Hb. simpl. rewrite Hrs.
  destruct (isolate_runs_Some rs a z Haz) as (rs' & [ra rb] & E). rewrite E. simpl.
  eexists. split; [done|].
  change (mkDoc (vec_set ?i ?b (blocks d))) with (doc_replace_block d i b).1.
  rewrite abs_doc_replace, (abs_block_set_runs b rs) by done.
  by rewrite or_plain_empty_cells, (drop_range_cells _ _ _ _ _ _ E).
Qed.

Lemma apply_restore_single_inline d i a b rs b0 drs :
  doc_block d i = Some b → block_runs b = Some rs → block_runs b0 = Some drs →
  ∃ d' m, apply_restore_single d (mkPos i a) b0 = Some (d', m)
    ∧ abs_doc d' = <[i := AInline (block_shape b)
                            (take a (cells rs) ++ cells drs ++ drop a (cells rs))]> (abs_doc d).
Proof.
  intros Hb Hrs Hdrs. unfold apply_restore_single. rewrite Hdrs. simpl. rewrite Hb. simpl.
  rewrite Hrs. do 2 eexists. split; [done|].
  change (mkDoc (vec_set ?i ?b (blocks d))) with (doc_replace_block d i b).1.
  rewrite abs_doc_replace, (abs_block_set_runs b rs) by done.
  by rewrite or_plain_empty_cells, !cells_app, extract_runs_up_to_cells,
    extract_runs_from_offset_cells.
Qed.

(** ** Deleting and restoring across blocks *)

Lemma take_S_insert {A} (l : list A) i x :
  i < length l → take (i + 1) (<[i := x]> l) = take i l ++ [x].
Proof.
  intros Hi. rewrite insert_take_drop by done.
  assert (length (take i l) = i) as E by (rewrite length_take; lia).
  rewrite take_app_ge by lia. rewrite E. by replace (i + 1 - i) with 1 by lia.
Qed.

Lemma drop_insert_gt' {A} (l : list A) i j x : i < j → drop j (<[i := x]> l) = drop j l.
Proof. intros. by apply drop_insert_lt. Qed.

(** The last block a cross-block deletion removes. *)
Definition last_removed (eb : Block) (e : DocPosition) : nat :=
  if block_is_inline eb || (0 <? offset e) then block_index e else block_index e - 1.

Definition runs_or_nil (b : Block) : list StyledRun := default [] (block_runs b).

Lemma apply_cross_block_delete_inline d s e sb eb rs :
  doc_block d (block_index s) = Some sb → doc_block d (block_index e) = Some eb →
  block_runs sb = Some rs → block_index s < block_index e →
  ∃ d' m, apply_cross_block_delete d s e = Some (d', m)
    ∧ pm_block_index m = block_index s
    ∧ abs_doc d' = take (block_index s) (abs_doc d)
        ++ [AInline (block_shape sb)
              (take (offset s) (cells rs)
               ++ (if block_is_inline eb then drop (offset e) (cells (runs_or_nil eb)) else []))]
        ++ drop (last_removed eb e + 1) (abs_doc d).
Proof.
  intros Hs He Hrs Hlt. unfold apply_cross_block_delete. rewrite Hs, He. simpl.
  fold (last_removed eb e). unfold build_cross_delete_replacement. rewrite Hrs. simpl.
  apply lookup_lt_Some in Hs as Hls. apply lookup_lt_Some in He as Hle.
  assert (block_index s ≤ last_removed eb e ≤ block_index e) as Hlr.
  { unfold last_removed. destruct (block_is_inline eb || _); lia. }
  rewrite iter_remove_spec by (unfold vec_set; rewrite length_insert; lia).
  simpl. do 2 eexists. split; [done|]. split; [done|].
  unfold abs_doc at 1, vec_set. simpl.
  rewrite take_S_insert, drop_insert_gt' by lia.
  rewrite !fmap_app, fmap_take, fmap_drop. fold (abs_doc d).
  rewrite <- app_assoc. f_equal. cbn [fmap list_fmap map].
  rewrite (abs_block_set_runs sb rs) by done.
  rewrite or_plain_empty_cells, cells_app, truncate_runs_cells.
  replace (block_index s + 1 + (last_removed eb e - block_index s))
    with (last_removed eb e + 1) by lia.
  unfold runs_or_nil. destruct eb; simpl; rewrite ?extract_runs_from_offset_cells; done.
Qed.

Lemma apply_restore_cross_spec d i a b rs first frs mid lastb tail :
  doc_block d i = Some b → block_runs b = Some rs → block_runs first = Some frs →
  ∃ d' m, apply_restore_cross d (mkPos i a) first mid lastb tail = Some (d', m)
    ∧ abs_doc d' = take i (abs_doc d)
        ++ [AInline (block_shape first) (take a (cells rs) ++ cells frs)]
        ++ (abs_block <$> mid)
        ++ [if block_is_inline lastb
            then AInline (block_shape lastb)
                   (cells (runs_or_nil lastb)
                    ++ match tail with Some t => cells (runs_or_nil t) | None => [] end)
            else abs_block lastb]
        ++ drop (i + 1) (abs_doc d).
Proof.
  intros Hb Hrs Hfrs. unfold apply_restore_cross. cbn [block_index offset]. rewrite Hb.
  cbn [mbind option_bind]. apply lookup_lt_Some in Hb as Hl.
  assert (vec_remove i (blocks d) = Some (take i (blocks d) ++ drop (S i) (blocks d))) as ->.
  { by apply vec_remove_Some. }
  cbn [mbind option_bind]. rewrite vec_insert_seq_spec
    by (rewrite length_app, length_take, length_drop; lia).
  cbn [mbind option_bind]. do 2 eexists. split; [done|].
  assert (length (take i (blocks d)) = i) as Ei by (rewrite length_take; lia).
  unfold abs_doc at 1. cbn [blocks].
  rewrite take_app_length', drop_app_length' by done.
  rewrite <- app_comm_cons, !fmap_app, fmap_cons, !fmap_app, fmap_take, fmap_drop.
  fold (abs_doc d). replace (i + 1) with (S i) by lia. f_equal.
  rewrite abs_block_with_runs_like, or_plain_empty_cells, cells_app, extract_runs_up_to_cells.
  rewrite Hrs, Hfrs. cbn [default app]. f_equal. rewrite <- app_assoc. f_equal.
  cbn [fmap list_fmap map app]. f_equal.
  unfold runs_or_nil. destruct (block_is_inline lastb); [|done].
  rewrite abs_block_with_runs_like, or_plain_empty_cells, cells_app.
  by destruct tail.
Qed.

(** ** Splitting and merging *)

Lemma apply_split_block_inline d i a b rs :
  doc_block d i = Some b → block_runs b = Some rs →
  ∃ d', apply_split_block d (mkPos i a) = Some (d', mkPosMap i [] (Some (Split i a)))
    ∧ abs_doc d' = take i (abs_doc d)
        ++ [AInline (block_shape b) (take a (cells rs));
            AInline (block_shape b) (drop a (cells rs))]
        ++ drop (i + 1) (abs_doc d).
Proof.
  intros Hb Hrs. unfold apply_split_block. simpl. rewrite Hb. simpl.
  apply lookup_lt_Some in Hb as Hl.
  destruct (split_block_at b a) as [b1 b2] eqn:Es.
  assert (abs_block b1 = AInline (block_shape b) (take a (cells rs))
          ∧ abs_block b2 = AInline (block_shape b) (drop a (cells rs))) as [E1 E2].
  { destruct b; try discriminate Hrs; injection Hrs as ->; cbn [split_block_at] in Es;
      destruct (split_runs_at_offset rs a) as [l r] eqn:Er; injection Es as <- <-;
      apply split_runs_at_offset_cells in Er as (El & Er & _); cbn;
      by rewrite ?El, ?Er. }
  assert (vec_insert (i + 1) b2 (vec_set i b1 (blocks d))
          = Some (take i (blocks d) ++ [b1; b2] ++ drop (i + 1) (blocks d))) as ->.
  { apply vec_insert_Some. unfold vec_set. rewrite length_insert. split; [lia|].
    rewrite take_S_insert, drop_insert_gt' by lia. by rewrite <- app_assoc. }
  cbn [mbind option_bind]. eexists. split; [done|].
  unfold abs_doc at 1. cbn [blocks]. rewrite !fmap_app, fmap_take, fmap_drop.
  cbn [fmap list_fmap map]. by rewrite E1, E2.
Qed.

Lemma merge_two_blocks_abs b1 b2 rs1 :
  block_runs b1 = Some rs1 →
  abs_block (merge_two_blocks b1 b2)
  = AInline (block_shape b1) (cells rs1 ++ cells (runs_or_nil b2)).
Proof.
  unfold merge_two_blocks, runs_or_nil.
  destruct b1; intros [= ->]; cbn [block_runs default abs_block abs_with block_shape];
    cbn; by rewrite or_plain_empty_cells, cells_app.
Qed.

Lemma apply_merge_blocks_inline d i mo b1 b2 rs1 :
  0 < i → doc_block d (i - 1) = Some b1 → doc_block d i = Some b2 →
  block_runs b1 = Some rs1 →
  ∃ d', apply_merge_blocks d i mo
        = Some (d', mkPosMap (i - 1) [mkEntry (length (cells rs1)) 0 0]
                      (Some (Merge i (length (cells rs1)))))
    ∧ abs_doc d' = take (i - 1) (abs_doc d)
        ++ [AInline (block_shape b1) (cells rs1 ++ cells (runs_or_nil b2))]
        ++ drop (i + 1) (abs_doc d).
Proof.
  intros Hi Hb1 Hb2 Hrs. unfold apply_merge_blocks.
  apply lookup_lt_Some in Hb2 as Hl.
  unfold doc_block_count.
  destruct (Nat.ltb_spec 0 i); [|lia].
  destruct (Nat.ltb_spec i (length (blocks d))); [|lia]. simpl.
  rewrite Hb1, Hb2. cbn [mbind option_bind].
  rewrite (block_char_len_runs b1 rs1) by done.
  assert (vec_remove i (vec_set (i - 1) (merge_two_blocks b1 b2) (blocks d))
          = Some (take (i - 1) (blocks d) ++ [merge_two_blocks b1 b2]
                  ++ drop (i + 1) (blocks d))) as ->.
  { apply vec_remove_Some. unfold vec_set. rewrite length_insert. split; [done|].
    rewrite drop_insert_gt' by lia. rewrite <- (Nat.sub_add 1 i) at 3 by lia.
    rewrite take_S_insert by lia. rewrite <- app_assoc.
    by replace (S i) with (i + 1) by lia. }
  cbn [mbind option_bind]. eexists. split; [done|].
  unfold abs_doc at 1. cbn [blocks]. rewrite !fmap_app, fmap_take, fmap_drop.
  cbn [fmap list_fmap map]. by rewrite (merge_two_blocks_abs b1 b2 rs1).
Qed.

Lemma apply_restore_merged_inline d i saved mo b rs :
  0 < i → doc_block d (i - 1) = Some b → block_runs b = Some rs →
  ∃ d' m, apply_restore_merged_block d i saved mo = Some (d', m)
    ∧ abs_doc d' = take (i - 1) (abs_doc d)
        ++ [AInline (block_shape b) (take mo (cells rs)); abs_block saved]
        ++ drop i (abs_doc d).
Proof.
  intros Hi Hb Hrs. unfold apply_restore_merged_block. rewrite Hb.
  cbn [mbind option_bind]. rewrite Hrs. cbn [from_option id].
  apply lookup_lt_Some in Hb as Hl.
  set (lb := block_with_runs_like b (extract_runs_up_to rs mo)).
  assert (vec_insert i saved (blocks (doc_replace_block d (i - 1) lb).1)
          = Some (take (i - 1) (blocks d) ++ [lb; saved] ++ drop i (blocks d))) as ->.
  { apply vec_insert_Some. unfold doc_replace_block, vec_set. cbn [fst blocks].
    rewrite length_insert. split; [lia|].
    rewrite drop_insert_gt' by lia. rewrite <- (Nat.sub_add 1 i) at 3 by lia.
    rewrite take_S_insert by lia. by rewrite <- app_assoc. }
  cbn [mbind option_bind]. do 2 eexists. split; [done|].
  unfold abs_doc at 1. cbn [blocks]. rewrite !fmap_app, fmap_take, fmap_drop.
  cbn [fmap list_fmap map]. unfold lb.
  by rewrite abs_block_with_runs_like, extract_runs_up_to_cells.
Qed.
End Theory.
