(* ===== verification/ToggleTheory.v ===== *)
(** * ToggleTheory: toggling an inline style over a range

    [ToggleInlineStyle] of [Operations] against its specification on cells: the
    bit is removed from every cell of the range when all of them have it,
    added otherwise, and nothing else changes. *)

From S2P Require Import Prelude.
From S2P Require Import Graphemes.
From S2P Require Import Document.
From S2P Require Import Cells.
From S2P Require Import Operations.
From S2P Require Import OperationsTheory.

(** Applying [f] to the elements from [a] up to [z]. *)
Definition map_range {A} (f : A → A) (a z : nat) (l : list A) : list A :=
  if z <=? a then l else take a l ++ (f <$> take (z - a) (drop a l)) ++ drop z l.

Lemma map_range_lookup {A} (f : A → A) a z l k :
  map_range f a z l !! k = (if decide (a ≤ k < z) then f <$> l !! k else l !! k).
Proof.
  unfold map_range. destruct (Nat.leb_spec z a) as [Hz|Hz].
  { rewrite decide_False by lia. done. }
  destruct (decide (k < a)) as [Ha|Ha].
  { rewrite decide_False by lia.
    destruct (decide (k < length l)) as [Hk|Hk].
    - rewrite lookup_app_l by (rewrite length_take; lia). by apply lookup_take_lt.
    - rewrite !lookup_ge_None_2; [done|lia|].
      rewrite !length_app, length_fmap, !length_take, !length_drop. lia. }
  destruct (decide (length l ≤ k)) as [Hk|Hk].
  { rewrite (lookup_ge_None_2 l) by done. rewrite lookup_ge_None_2; [by case_decide|].
    rewrite !length_app, length_fmap, !length_take, !length_drop. lia. }
  rewrite lookup_app_r by (rewrite length_take; lia). rewrite length_take.
  destruct (decide (k < z)) as [Hkz|Hkz].
  - rewrite decide_True by lia.
    rewrite lookup_app_l by (rewrite length_fmap, length_take, length_drop; lia).
    rewrite list_lookup_fmap, lookup_take_lt by lia. rewrite lookup_drop. do 2 f_equal. lia.
  - rewrite decide_False by lia.
    rewrite lookup_app_r by (rewrite length_fmap, length_take, length_drop; lia).
    rewrite length_fmap, length_take, length_drop, lookup_drop. f_equal. lia.
Qed.

Lemma length_map_range {A} (f : A → A) a z l : length (map_range f a z l) = length l.
Proof.
  unfold map_range. destruct (Nat.leb_spec z a); [done|].
  rewrite !length_app, length_fmap, !length_take, !length_drop. lia.
Qed.

Lemma map_range_compose {A} (f g : A → A) a z l :
  map_range g a z (map_range f a z l) = map_range (λ x, g (f x)) a z l.
Proof.
  apply list_eq. intros k. rewrite !map_range_lookup.
  case_decide; [|done]. by destruct (l !! k).
Qed.

(** The elements of the range. *)
Definition in_range {A} (a z : nat) (l : list A) : list A := drop a (take z l).

Lemma in_range_lookup {A} a z (l : list A) x :
  x ∈ in_range a z l ↔ ∃ k, a ≤ k < z ∧ l !! k = Some x.
Proof.
  unfold in_range. rewrite list_elem_of_lookup. split.
  - intros [k Hk]. rewrite lookup_drop in Hk. exists (a + k).
    assert (a + k < z).
    { apply lookup_lt_Some in Hk. rewrite length_take in Hk. lia. }
    rewrite lookup_take_lt in Hk by done. split; [lia|done].
  - intros (k & Hk & Hx). exists (k - a). rewrite lookup_drop.
    replace (a + (k - a)) with k by lia. by rewrite lookup_take_lt by lia.
Qed.

Lemma map_range_id {A} (f : A → A) a z l :
  (∀ x, x ∈ in_range a z l → f x = x) → map_range f a z l = l.
Proof.
  intros Hf. apply list_eq. intros k. rewrite map_range_lookup. case_decide as Hk; [|done].
  destruct (l !! k) as [x|] eqn:E; [|done]. simpl. f_equal. apply Hf.
  apply in_range_lookup. eauto.
Qed.

Lemma map_range_forall {A} (f : A → A) (P : A → Prop) a z l :
  (∀ x, x ∈ in_range a z l → P (f x)) → ∀ y, y ∈ in_range a z (map_range f a z l) → P y.
Proof.
  intros Hf y (k & Hk & Hy)%in_range_lookup. rewrite map_range_lookup, decide_True in Hy by done.
  destruct (l !! k) as [x|] eqn:E; [|done]. injection Hy as <-. apply Hf.
  apply in_range_lookup. eauto.
Qed.

Section Toggle.
Context `{Segmentation}.

(** ** Cells *)

Definition set_cell (remove : bool) (bit : InlineStyle) (c : Cell) : Cell :=
  (c.1, (if remove then style_remove c.2.1 bit else style_insert c.2.1 bit, c.2.2)).

Definition has_bit (bit : InlineStyle) (c : Cell) : bool := style_contains c.2.1 bit.

Lemma set_style_cells remove bit rs :
  cells (set_style remove bit <$> rs) = set_cell remove bit <$> cells rs.
Proof.
  induction rs as [|r rs IH]; [done|].
  rewrite fmap_cons, !cells_cons, fmap_app, IH. f_equal.
  unfold run_cells. rewrite <- list_fmap_compose. done.
Qed.

Lemma isolated_range_cells rs a z rs' i j :
  isolate_runs rs a z = Some (rs', (i, j)) → a < z →
  cells (take (j - i) (drop i rs')) = take (z - a) (drop a (cells rs)).
Proof.
  intros (Hab & Ec & Hij & Heq & Hlt)%isolate_runs_spec Haz.
  destruct (Hlt Haz) as (Ti & Tj & Dj).
  apply (app_inv_head (cells (take i rs'))). rewrite <- cells_app, Ti.
  replace (take i rs') with (take i (take j rs')) by (rewrite take_take; f_equal; lia).
  replace (take (j - i) (drop i rs')) with (drop i (take j rs'))
    by (rewrite skipn_firstn_comm; done).
  rewrite take_drop, Tj. rewrite <- skipn_firstn_comm.
  rewrite <- (take_drop a (take z (cells rs))) at 1. f_equal.
  rewrite take_take. f_equal. lia.
Qed.

(** ** One block *)

(** The specification on one abstract block. *)
Definition abs_range (s e : DocPosition) (bi len : nat) : nat * nat :=
  (if bi =? block_index s then offset s else 0,
   if bi =? block_index e then offset e else len).

Definition toggle_at (remove : bool) (bit : InlineStyle) (s e : DocPosition) (bi : nat)
    (ab : ABlock (list Cell)) : ABlock (list Cell) :=
  match ab with
  | AInline sh cs =>
      let '(a, z) := abs_range s e bi (length cs) in
      AInline sh (map_range (set_cell remove bit) a z cs)
  | _ => ab
  end.

Lemma toggle_block_abs remove s e bit bi d :
  ∃ d', toggle_block remove s e bit bi d = Some d'
    ∧ abs_doc d' = alter (toggle_at remove bit s e bi) bi (abs_doc d).
Proof.
  unfold toggle_block. destruct (doc_block d bi) as [b|] eqn:Hb; cycle 1.
  { eexists. split; [done|]. rewrite list_alter_none; [done|].
    unfold abs_doc. rewrite list_lookup_fmap. unfold doc_block in Hb. by rewrite Hb. }
  rewrite (list_alter_eq _ _ _ _ (abs_doc_lookup _ _ _ Hb)).
  destruct (block_runs b) as [rs|] eqn:Hrs; cycle 1.
  { eexists. split; [done|]. symmetry. apply list_insert_id.
    erewrite abs_doc_lookup by done. f_equal. by destruct b. }
  rewrite (abs_block_inline b rs) by done. unfold range_in_block.
  rewrite (block_char_len_runs b rs) by done. unfold toggle_at, abs_range.
  set (a := if bi =? block_index s then offset s else 0).
  set (z := if bi =? block_index e then offset e else length (cells rs)).
  destruct (Nat.leb_spec z a) as [Hz|Hz].
  { eexists. split; [done|]. unfold map_range. destruct (Nat.leb_spec z a); [|lia].
    symmetry. apply list_insert_id. erewrite abs_doc_lookup by done.
    by rewrite (abs_block_inline b rs). }
  destruct (isolate_runs_Some rs a z) as (rs' & [i j] & E); [lia|]. rewrite E. simpl.
  eexists. split; [done|].
  change (mkDoc (vec_set ?i ?b (blocks d))) with (doc_replace_block d i b).1.
  rewrite abs_doc_replace, (abs_block_set_runs b rs) by done.
  rewrite !cells_app, set_style_cells, (isolated_range_cells _ _ _ _ _ _ E) by done.
  apply isolate_runs_spec in E as (_ & _ & _ & _ & Hlt). destruct (Hlt Hz) as (-> & _ & ->).
  unfold map_range. destruct (Nat.leb_spec z a); [lia|done].
Qed.

(** ** All the blocks of the range *)

Definition toggle_spec (remove : bool) (bit : InlineStyle) (s e : DocPosition)
    (ad : list (ABlock (list Cell))) : list (ABlock (list Cell)) :=
  imap (λ bi ab, if decide (block_index s ≤ bi ≤ block_index e)
                 then toggle_at remove bit s e bi ab else ab) ad.

Lemma toggle_blocks_abs remove s e bit k n d :
  ∃ d', toggle_blocks remove s e bit (seq k n) d = Some d'
    ∧ abs_doc d' = imap (λ bi ab, if decide (k ≤ bi < k + n)
                                  then toggle_at remove bit s e bi ab else ab) (abs_doc d).
Proof.
  revert k d. induction n as [|n IH]; intros k d.
  { eexists. split; [done|]. apply list_eq. intros j. rewrite list_lookup_imap.
    destruct (abs_doc d !! j); [|done]. simpl. by rewrite decide_False by lia. }
  cbn [seq toggle_blocks]. destruct (toggle_block_abs remove s e bit k d) as (d1 & -> & E1).
  cbn [mbind option_bind]. destruct (IH (S k) d1) as (d2 & -> & E2).
  eexists. split; [done|]. rewrite E2, E1. apply list_eq. intros j.
  rewrite !list_lookup_imap. destruct (decide (j = k)) as [->|Hj].
  - rewrite list_lookup_alter_eq. destruct (abs_doc d !! k) as [ab|]; [|done]. simpl.
    rewrite decide_False by lia. by rewrite decide_True by lia.
  - rewrite list_lookup_alter_ne by done. destruct (abs_doc d !! j) as [ab|]; [|done]. simpl.
    do 2 case_decide; (done || lia).
Qed.

Lemma apply_toggle_abs d s e bit :
  pos_lt s e →
  ∃ d', apply_toggle_inline_style d s e bit
          = Some (d', mkPosMap (block_index s) [] None)
    ∧ abs_doc d' = toggle_spec (all_text_has_style d s e bit) bit s e (abs_doc d).
Proof.
  intros Hlt. unfold apply_toggle_inline_style. rewrite decide_True by done.
  unfold range_blocks.
  destruct (toggle_blocks_abs (all_text_has_style d s e bit) s e bit (block_index s)
              (block_index e + 1 - block_index s) d) as (d' & -> & E).
  eexists. split; [done|]. rewrite E. unfold toggle_spec. apply list_eq. intros j.
  rewrite !list_lookup_imap. destruct (abs_doc d !! j); [|done]. simpl.
  assert (block_index s ≤ block_index e) by (destruct Hlt as [|[]]; lia).
  do 2 case_decide; (done || lia).
Qed.

(** ** Does all the text of the range have the style? *)

Lemma forallb_run_cells bit r :
  forallb (has_bit bit) (run_cells r)
  = negb ((0 <? run_char_len r) && negb (style_contains (run_style r) bit)).
Proof.
  rewrite <- length_run_cells. unfold run_cells. rewrite length_fmap.
  induction (graphemes (run_text r)) as [|g gs IH]; [done|].
  rewrite fmap_cons. cbn [forallb]. rewrite IH. unfold has_bit. cbn [run_fmt fst snd length].
  destruct (style_contains (run_style r) bit); [by destruct (length gs)|done].
Qed.

(** A part of one run's cells has the bit when the run has it. *)
Lemma forallb_run_part bit r i j :
  i < j ∨ run_char_len r = 0 → j ≤ run_char_len r →
  forallb (has_bit bit) (drop i (take j (run_cells r)))
  = negb ((0 <? run_char_len r) && negb (style_contains (run_style r) bit)).
Proof.
  intros Hij Hj. destruct (Nat.ltb_spec 0 (run_char_len r)); cycle 1.
  { replace j with 0 by lia. by rewrite take_0, drop_nil. }
  cbn [andb]. rewrite negb_involutive. apply eq_true_iff_eq.
  rewrite forallb_forall. split.
  - intros Hf. pose proof (length_run_cells r) as Hl.
    destruct (lookup_lt_is_Some_2 (run_cells r) i) as [c Hc]; [lia|].
    assert (c ∈ in_range i j (run_cells r)) as Hin.
    { apply in_range_lookup. exists i. split; [lia|done]. }
    apply list_elem_of_In in Hin. specialize (Hf c Hin). unfold run_cells in Hc.
    rewrite list_lookup_fmap in Hc. destruct (graphemes (run_text r) !! i); [|done].
    simpl in Hc. by simplify_eq.
  - intros Hs c Hin%list_elem_of_In. apply in_range_lookup in Hin as (k & _ & Hk).
    unfold run_cells in Hk. rewrite list_lookup_fmap in Hk.
    destruct (graphemes (run_text r) !! k); [|done]. simpl in Hk. by simplify_eq.
Qed.

Lemma runs_have_style_spec rs pos a z bit :
  a < z ∨ z = 0 ∨ pos + length (cells rs) ≤ a → a ≤ z →
  runs_have_style rs pos a z bit
  = forallb (has_bit bit) (in_range (a - pos) (z - pos) (cells rs)).
Proof.
  unfold in_range. revert pos.
  induction rs as [|r rs IH]; intros pos Hc Haz; cbn [runs_have_style].
  { change (cells []) with (@nil Cell). by rewrite take_nil, drop_nil. }
  rewrite cells_cons. rewrite cells_cons, length_app, length_run_cells in Hc.
  destruct (Nat.leb_spec (pos + run_char_len r) a) as [Ha|Ha].
  { rewrite IH by lia. rewrite take_app_ge by (rewrite length_run_cells; lia).
    rewrite drop_app_ge by (rewrite length_run_cells; lia). rewrite length_run_cells.
    do 2 f_equal; [lia|]. f_equal. lia. }
  destruct (Nat.leb_spec z pos) as [Hz|Hz].
  { replace (z - pos) with 0 by lia. by rewrite take_0, drop_nil. }
  assert (a < z) as Hlt by lia.
  set (len := run_char_len r) in *.
  assert (drop (a - pos) (take (z - pos) (run_cells r ++ cells rs))
          = drop (a - pos) (take (Nat.min (z - pos) len) (run_cells r))
            ++ drop (a - (pos + len)) (take (z - (pos + len)) (cells rs))) as ->.
  { replace (a - (pos + len)) with 0 by lia. rewrite drop_0.
    destruct (decide (z - pos ≤ len)) as [Hzl|Hzl].
    - rewrite take_app_le by (rewrite length_run_cells; lia).
      rewrite Nat.min_l by done. replace (z - (pos + len)) with 0 by lia.
      by rewrite take_0, app_nil_r.
    - rewrite take_app_ge by (rewrite length_run_cells; lia).
      rewrite Nat.min_r by lia. rewrite (take_ge (run_cells r) len)
        by (rewrite length_run_cells; lia).
      rewrite drop_app_le by (rewrite length_run_cells; lia).
      rewrite length_run_cells. do 2 f_equal. fold len. lia. }
  rewrite forallb_app, forallb_run_part by (fold len; lia).
  fold len. destruct ((0 <? len) && negb (style_contains (run_style r) bit)); [done|].
  cbn [negb andb]. apply IH; lia.
Qed.

(** [c] is a cell of the range [s, e) of the abstract document. *)
Definition range_cell (s e : DocPosition) (ad : list (ABlock (list Cell))) (c : Cell)
    : Prop :=
  ∃ bi sh cs, block_index s ≤ bi ≤ block_index e ∧ ad !! bi = Some (AInline sh cs)
    ∧ c ∈ in_range (abs_range s e bi (length cs)).1 (abs_range s e bi (length cs)).2 cs.

Definition range_valid (d : Document) (s e : DocPosition) : Prop :=
  pos_lt s e ∧ doc_is_valid_position d s = true ∧ doc_is_valid_position d e = true.

Lemma valid_offset d p b :
  doc_is_valid_position d p = true → doc_block d (block_index p) = Some b →
  offset p ≤ block_char_len b.
Proof.
  unfold doc_is_valid_position. intros Hv Hb. rewrite Hb in Hv. by apply Nat.leb_le.
Qed.

Lemma abs_range_bounds d s e bi b rs :
  range_valid d s e → block_index s ≤ bi ≤ block_index e →
  doc_block d bi = Some b → block_runs b = Some rs →
  let '(a, z) := abs_range s e bi (length (cells rs)) in
  a ≤ z ∧ (a < z ∨ z = 0 ∨ length (cells rs) ≤ a).
Proof.
  intros (Hlt & Hs & He) Hbi Hb Hrs. unfold abs_range.
  pose proof (block_char_len_runs b rs Hrs) as Hl.
  destruct (Nat.eqb_spec bi (block_index s)) as [->|Hns].
  - pose proof (valid_offset _ _ _ Hs Hb) as Hos.
    destruct (Nat.eqb_spec (block_index s) (block_index e)) as [E|E]; [|lia].
    destruct Hlt as [|[_ Hlt]]; lia.
  - destruct (Nat.eqb_spec bi (block_index e)) as [->|Hne]; lia.
Qed.

Lemma all_text_has_style_spec d s e bit :
  range_valid d s e →
  all_text_has_style d s e bit = true ↔
  (∀ c, range_cell s e (abs_doc d) c → has_bit bit c = true).
Proof.
  intros Hv. unfold all_text_has_style. rewrite forallb_forall.
  assert (block_index s ≤ block_index e) as Hse by (destruct Hv as [[|[]] _]; lia).
  assert (∀ bi b rs, block_index s ≤ bi ≤ block_index e → doc_block d bi = Some b →
    block_runs b = Some rs →
    (let '(a, z) := range_in_block s e bi b in runs_have_style rs 0 a z bit)
    = forallb (has_bit bit) (in_range (abs_range s e bi (length (cells rs))).1
                               (abs_range s e bi (length (cells rs))).2 (cells rs))) as Hblk.
  { intros bi b rs Hbi Hb Hrs.
    pose proof (abs_range_bounds d s e bi b rs Hv Hbi Hb Hrs) as Hbd.
    unfold range_in_block. rewrite (block_char_len_runs b rs) by done.
    unfold abs_range in *. cbn [fst snd]. rewrite runs_have_style_spec by lia.
    by rewrite !Nat.sub_0_r. }
  unfold range_blocks. split.
  - intros Hf c (bi & sh & cs & Hbi & Hl & Hc).
    apply abs_doc_inline_inv in Hl as (b & rs & Hb & Hrs & <- & <-).
    specialize (Hf bi). rewrite Hb, Hrs, (Hblk bi b rs) in Hf by done.
    rewrite forallb_forall in Hf. apply Hf; [apply in_seq; lia|]. by apply list_elem_of_In.
  - intros Hall bi Hbi%in_seq. destruct (doc_block d bi) as [b|] eqn:Hb; [|done].
    destruct (block_runs b) as [rs|] eqn:Hrs; [|done].
    rewrite (Hblk bi b rs) by (done || lia). apply forallb_forall. intros c Hc%list_elem_of_In.
    apply Hall. exists bi, (block_shape b), (cells rs). split_and!; [lia|lia| |done].
    erewrite abs_doc_lookup by done. by rewrite (abs_block_inline b rs).
Qed.

(** The range cells after a toggle are the images of those before. *)
Lemma range_cell_toggle remove bit s e ad c :
  range_cell s e (toggle_spec remove bit s e ad) c ↔
  ∃ c0, range_cell s e ad c0 ∧ c = set_cell remove bit c0.
Proof.
  split.
  - intros (bi & sh & cs & Hbi & Hl & (k & Hk & Hc)%in_range_lookup).
    unfold toggle_spec in Hl. rewrite list_lookup_imap in Hl.
    destruct (ad !! bi) as [ab|] eqn:E; [|done]. simpl in Hl. rewrite decide_True in Hl by done.
    destruct ab as [sh0 cs0| | |]; [|done..]. unfold toggle_at in Hl.
    destruct (abs_range s e bi (length cs0)) as [a z] eqn:Er. injection Hl as -> <-.
    rewrite length_map_range, Er in Hk. cbn [fst snd] in Hk. rewrite map_range_lookup, decide_True in Hc by done.
    destruct (cs0 !! k) as [c0|] eqn:Ec; [|done]. injection Hc as <-.
    exists c0. split; [|done]. exists bi, sh, cs0. split_and!; [lia|lia|done|].
    rewrite Er. apply in_range_lookup. eauto.
  - intros (c0 & (bi & sh & cs & Hbi & Hl & (k & Hk & Hc)%in_range_lookup) & ->).
    destruct (abs_range s e bi (length cs)) as [a z] eqn:Er. cbn [fst snd] in Hk.
    exists bi, sh, (map_range (set_cell remove bit) a z cs). split; [done|]. split.
    + unfold toggle_spec. rewrite list_lookup_imap, Hl. cbn [fmap option_fmap option_map].
      rewrite decide_True by done. unfold toggle_at. by rewrite Er.
    + rewrite length_map_range, Er. apply in_range_lookup. exists k. split; [done|].
      by rewrite map_range_lookup, decide_True, Hc.
Qed.

Lemma set_cell_insert_has bit c : has_bit bit (set_cell false bit c) = true.
Proof.
  unfold has_bit, set_cell, style_contains, style_insert. simpl. apply N.eqb_eq.
  apply N.bits_inj. intros n. rewrite N.land_spec, N.lor_spec.
  by destruct (N.testbit c.2.1 n), (N.testbit bit n).
Qed.

Lemma set_cell_remove_has bit c :
  bit ≠ 0%N → has_bit bit (set_cell true bit c) = false.
Proof.
  intros Hb. unfold has_bit, set_cell, style_contains, style_remove. simpl.
  apply N.eqb_neq. intros E. apply Hb. rewrite <- E. apply N.bits_inj. intros n.
  rewrite N.land_spec, N.ldiff_spec, N.bits_0.
  by destruct (N.testbit c.2.1 n), (N.testbit bit n).
Qed.

(** Adding the bit then removing it gives back a cell without it, removing
    then adding one with it. *)
Lemma set_cell_back (remove : bool) (bit : InlineStyle) (c : Cell) :
  (if remove then has_bit bit c = true else N.land c.2.1 bit = 0%N) →
  set_cell (negb remove) bit (set_cell remove bit c) = c.
Proof.
  destruct c as [g [st l]]. unfold has_bit, set_cell, style_contains. simpl.
  intros Hc. destruct remove; simpl; unfold style_insert, style_remove.
  - apply N.eqb_eq in Hc. do 2 f_equal. apply N.bits_inj. intros n.
    apply (f_equal (λ x, N.testbit x n)) in Hc. rewrite N.land_spec in Hc.
    rewrite N.lor_spec, N.ldiff_spec. by destruct (N.testbit st n), (N.testbit bit n).
  - do 2 f_equal. apply N.bits_inj. intros n.
    apply (f_equal (λ x, N.testbit x n)) in Hc. rewrite N.land_spec, N.bits_0 in Hc.
    rewrite N.ldiff_spec, N.lor_spec. by destruct (N.testbit st n), (N.testbit bit n).
Qed.

(** The range has the bit everywhere or nowhere. *)
Definition range_uniform (d : Document) (s e : DocPosition) (bit : InlineStyle) : Prop :=
  all_text_has_style d s e bit = true
  ∨ ∀ c : Cell, range_cell s e (abs_doc d) c → N.land c.2.1 bit = 0%N.

Lemma toggle_spec_back (remove : bool) (bit : InlineStyle) s e ad :
  (∀ c : Cell, range_cell s e ad c →
    if remove then has_bit bit c = true else N.land c.2.1 bit = 0%N) →
  toggle_spec (negb remove) bit s e (toggle_spec remove bit s e ad) = ad.
Proof.
  intros Hc. unfold toggle_spec. apply list_eq. intros j. rewrite !list_lookup_imap.
  destruct (ad !! j) as [ab|] eqn:E; [|done]. simpl. f_equal. case_decide as Hj; [|done].
  destruct ab as [sh cs| | |]; [|done..]. unfold toggle_at.
  destruct (abs_range s e j (length cs)) as [a z] eqn:Er. rewrite length_map_range, Er.
  f_equal. rewrite map_range_compose. apply map_range_id. intros c Hin.
  apply set_cell_back, Hc. exists j, sh, cs. split_and!; [lia|lia|done|]. by rewrite Er.
Qed.

Lemma toggle_spec_valid d d' remove bit s e :
  abs_doc d' = toggle_spec remove bit s e (abs_doc d) →
  ∀ p, doc_is_valid_position d' p = doc_is_valid_position d p.
Proof.
  intros E p. unfold doc_is_valid_position, doc_block.
  pose proof (f_equal (lookup (block_index p)) E) as Ep. unfold toggle_spec in Ep.
  rewrite list_lookup_imap in Ep. unfold abs_doc in Ep. rewrite !list_lookup_fmap in Ep.
  destruct (blocks d' !! block_index p) as [b'|], (blocks d !! block_index p) as [b|];
    [|done..].
  simpl in Ep. injection Ep as Ep. f_equal.
  case_decide; [|by apply abs_block_char_len].
  destruct (abs_block b) as [sh cs| | |] eqn:Eb; cbn in Ep;
    [|by apply abs_block_char_len; rewrite Eb..].
  destruct (abs_range s e (block_index p) (length cs)) as [a z].
  by rewrite (abs_inline_char_len _ _ _ Ep), (abs_inline_char_len _ _ _ Eb), length_map_range.
Qed.

(** ** Properties *)

(** [ToggleInlineStyle] on a valid range does not panic; when every cluster
    of the range has the style none has it afterwards, otherwise all have it,
    and each block differs from before only by that bit on the clusters of the
    range. *)
Theorem toggle_effect (d : Document) (s e : DocPosition) (bit : InlineStyle)
    (Hv : range_valid d s e) (Hbit : bit ≠ 0%N) :
  ∃ d' m, apply (ToggleInlineStyle s e bit) d = Some (d', m)
    ∧ abs_doc d' = toggle_spec (all_text_has_style d s e bit) bit s e (abs_doc d)
    ∧ ((∀ c, range_cell s e (abs_doc d) c → has_bit bit c = true) →
       ∀ c, range_cell s e (abs_doc d') c → has_bit bit c = false)
    ∧ ((∃ c, range_cell s e (abs_doc d) c ∧ has_bit bit c = false) →
       ∀ c, range_cell s e (abs_doc d') c → has_bit bit c = true).
Proof.
  destruct (apply_toggle_abs d s e bit (proj1 Hv)) as (d' & E & A).
  pose proof (all_text_has_style_spec d s e bit Hv) as Hs.
  exists d', (mkPosMap (block_index s) [] None). split_and!; [exact E|exact A|..]; rewrite A.
  - intros Hall c (c0 & _ & ->)%range_cell_toggle. apply Hs in Hall as ->.
    by apply set_cell_remove_has.
  - intros (c1 & Hc1 & Hno) c (c0 & _ & ->)%range_cell_toggle.
    destruct (all_text_has_style d s e bit).
    + destruct Hs as [Hs _]. rewrite (Hs eq_refl c1 Hc1) in Hno. done.
    + apply set_cell_insert_has.
Qed.
End Toggle.

#[local] Existing Instance byte_segmentation.

Definition toggle_demo : Document :=
  mkDoc [Paragraph [run_plain (lit "ab"); run_styled (lit "c") BOLD]; Heading H1 [run_plain (lit "x")]].

Lemma toggle_effect_witness :
  ∃ d' m, apply (ToggleInlineStyle (mkPos 0 1) (mkPos 1 1) BOLD) toggle_demo = Some (d', m)
    ∧ (∀ c, range_cell (mkPos 0 1) (mkPos 1 1) (abs_doc d') c → has_bit BOLD c = true).
Proof.
  destruct (toggle_effect toggle_demo (mkPos 0 1) (mkPos 1 1) BOLD) as (d' & m & E & _ & _ & Hset).
  - split; [left; simpl; lia|]. split; vm_compute; reflexivity.
  - discriminate.
  - exists d', m. split; [exact E|]. apply Hset.
    exists (lit "b", (0%N, None)). split; [|vm_compute; reflexivity].
    exists 0, SPara, [(lit "a", (0%N, None)); (lit "b", (0%N, None)); (lit "c", (1%N, None))].
    split; [simpl; lia|]. split; [vm_compute; reflexivity|].
    apply in_range_lookup. exists 1. split; [simpl; lia|reflexivity].
Defined.
