(* ===== verification/InsertTheory.v ===== *)
(** * InsertTheory: inserting text

    [InsertText] of [Operations] puts the text, with one formatting, between the
    clusters before the offset and the clusters after it. *)

From S2P Require Import Prelude.
From S2P Require Import Graphemes.
From S2P Require Import Document.
From S2P Require Import Cells.
From S2P Require Import Operations.
From S2P Require Import OperationsTheory.

Section Insert.
Context `{Segmentation}.

Definition fmt_text (f : Fmt) (t : text) : list (ascii * Fmt) := (λ c, (c, f)) <$> t.
Definition fmt_cells (f : Fmt) (t : text) : list Cell := (λ g, (g, f)) <$> graphemes t.

Lemma run_cells_fmt r : run_cells r = fmt_cells (run_fmt r) (run_text r).
Proof. done. Qed.

Lemma fbytes_app rs1 rs2 : fbytes (rs1 ++ rs2) = fbytes rs1 ++ fbytes rs2.
Proof. apply bind_app. Qed.

(** [t] fuses with no cluster of the runs: neither with what precedes a
    cluster boundary of a run nor with what follows it. *)
Definition no_fuse (rs : list StyledRun) (t : text) : Prop :=
  ∀ r n, r ∈ rs →
    let a := take (run_char_to_byte_offset r n) (run_text r) in
    let b := drop (run_char_to_byte_offset r n) (run_text r) in
    seam a t ∧ seam (a ++ t) b.

Lemma no_fuse_app rs1 rs2 t : no_fuse (rs1 ++ rs2) t ↔ no_fuse rs1 t ∧ no_fuse rs2 t.
Proof.
  unfold no_fuse. split.
  - intros Hf. split; intros r n Hr; apply Hf; set_solver.
  - intros [H1 H2] r n [Hr|Hr]%elem_of_app; auto.
Qed.

Lemma no_fuse_cons r rs t : no_fuse (r :: rs) t ↔ no_fuse [r] t ∧ no_fuse rs t.
Proof. apply (no_fuse_app [r] rs). Qed.

Lemma no_fuse_ascii rs t :
  Forall printable t → Forall (λ r, Forall printable (run_text r)) rs → no_fuse rs t.
Proof.
  intros Ht Hrs r n Hr. rewrite Forall_forall in Hrs. specialize (Hrs r Hr). simpl.
  split; apply seam_ascii; [by apply Forall_take|done| |by apply Forall_drop].
  apply Forall_app. split; [by apply Forall_take|done].
Qed.

(** ** The result of the insertion *)

(** The runs [rs'] are [rs] with [t], formatted [f], at the offset [o]. *)
Record inserted (rs : list StyledRun) (o : nat) (t : text) (rs' : list StyledRun)
    (f : Fmt) : Prop := {
  ins_bytes : fbytes rs' = cells_fbytes (take o (cells rs)) ++ fmt_text f t
                           ++ cells_fbytes (drop o (cells rs));
  ins_cells : no_fuse rs t →
              cells rs' = take o (cells rs) ++ fmt_cells f t ++ drop o (cells rs);
  ins_ne : rs' ≠ []
}.

(** The three ways a run is changed. *)
Lemma insert_str_inserted r n t :
  fbytes [run_insert_str r n t]
    = cells_fbytes (take n (run_cells r)) ++ fmt_text (run_fmt r) t
      ++ cells_fbytes (drop n (run_cells r))
  ∧ (no_fuse [r] t →
     cells [run_insert_str r n t]
     = take n (run_cells r) ++ fmt_cells (run_fmt r) t ++ drop n (run_cells r)).
Proof.
  unfold run_insert_str. set (b := run_char_to_byte_offset r n).
  assert (run_split_at r n = (run_with_text r (take b (run_text r)),
                              run_with_text r (drop b (run_text r)))) as Es by done.
  apply run_split_at_cells in Es as (E1 & E2 & _ & _). rewrite <- E1, <- E2.
  rewrite !run_cells_fbytes. split.
  - unfold fbytes. simpl. rewrite app_nil_r. unfold run_fmt. simpl.
    by rewrite !fmap_app.
  - intros Hf. destruct (Hf r n) as [Hs1 Hs2]; [set_solver|]. fold b in Hs1, Hs2.
    rewrite cells_cons. change (cells []) with (@nil Cell). rewrite app_nil_r.
    unfold run_cells, fmt_cells, run_fmt. simpl. rewrite app_assoc, Hs2, Hs1.
    by rewrite !fmap_app, app_assoc.
Qed.

Lemma run_push_str_insert r t :
  run_push_str r t = run_insert_str r (run_char_len r) t.
Proof.
  unfold run_push_str, run_insert_str, run_char_to_byte_offset.
  rewrite text_to_byte_offset_concat.
  assert (run_char_len r = length (graphemes (run_text r))) as ->.
  { rewrite <- length_run_cells. apply length_fmap. }
  rewrite (take_ge (graphemes _)), graphemes_concat by lia.
  by rewrite take_ge, drop_ge, app_nil_r by lia.
Qed.

Lemma push_str_inserted r t :
  fbytes [run_push_str r t] = fbytes [r] ++ fmt_text (run_fmt r) t
  ∧ (no_fuse [r] t → cells [run_push_str r t] = run_cells r ++ fmt_cells (run_fmt r) t).
Proof.
  rewrite run_push_str_insert. destruct (insert_str_inserted r (run_char_len r) t) as [E1 E2].
  rewrite take_ge, drop_ge in E1, E2 by (by rewrite length_run_cells).
  rewrite E1. rewrite app_nil_r in E2. split; [|done].
  rewrite run_cells_fbytes. unfold cells_fbytes, fbytes. simpl. by rewrite !app_nil_r.
Qed.

Lemma unlinked_inserted r t :
  fbytes [run_unlinked r t] = fmt_text (run_style r, None) t
  ∧ cells [run_unlinked r t] = fmt_cells (run_style r, None) t.
Proof.
  unfold run_unlinked. split.
  - unfold fbytes. simpl. by rewrite app_nil_r.
  - rewrite cells_cons. change (cells []) with (@nil Cell). by rewrite app_nil_r.
Qed.

(** [mid] replaces [rmid] and is [rmid] with the text at [n]. *)
Lemma inserted_local before rmid mid after n t f :
  n ≤ length (cells rmid) →
  fbytes mid = cells_fbytes (take n (cells rmid)) ++ fmt_text f t
               ++ cells_fbytes (drop n (cells rmid)) →
  (no_fuse rmid t →
   cells mid = take n (cells rmid) ++ fmt_cells f t ++ drop n (cells rmid)) →
  mid ≠ [] →
  inserted (before ++ rmid ++ after) (length (cells before) + n) t (before ++ mid ++ after) f.
Proof.
  intros Hn Eb Ec Hm.
  assert (take (length (cells before) + n) (cells (before ++ rmid ++ after))
          = cells before ++ take n (cells rmid)) as Et.
  { rewrite !cells_app, take_app_add. f_equal. by apply take_app_le. }
  assert (drop (length (cells before) + n) (cells (before ++ rmid ++ after))
          = drop n (cells rmid) ++ cells after) as Ed.
  { rewrite !cells_app, drop_app_add. by apply drop_app_le. }
  constructor.
  - rewrite Et, Ed, !fbytes_app, Eb, !cells_fbytes_app, !cells_fbytes_cells.
    by rewrite <- !app_assoc.
  - intros (_ & [Hf _]%no_fuse_app)%no_fuse_app.
    rewrite Et, Ed, !cells_app, Ec by done. by rewrite <- !app_assoc.
  - destruct before; [|done]. by destruct mid.
Qed.

Lemma cells_one r : cells [r] = run_cells r.
Proof. rewrite cells_cons. change (cells []) with (@nil Cell). apply app_nil_r. Qed.

Lemma fbytes_one_cons r rs : fbytes (r :: rs) = cells_fbytes (run_cells r) ++ fbytes rs.
Proof. by rewrite run_cells_fbytes. Qed.

(** The style [InsertText] gives the text: the one of the first run the offset
    is in or at an end of. *)
Fixpoint insertion_style (rs : list StyledRun) (pos o : nat) : option InlineStyle :=
  match rs with
  | [] => None
  | r :: rest =>
      if (pos <=? o) && (o <=? pos + run_char_len r) then Some (run_style r)
      else insertion_style rest (pos + run_char_len r) o
  end.

Lemma insert_text_go_spec before rs o t out :
  before = [] ∨ length (cells before) < o →
  insert_text_go before rs (length (cells before)) o t = Some out →
  ∃ f, inserted (before ++ rs) o t out f
       ∧ insertion_style rs (length (cells before)) o = Some f.1.
Proof.
  revert before. induction rs as [|r rest IH]; intros before Hb; [done|].
  cbn [insert_text_go insertion_style]. set (pos := length (cells before)) in *.
  assert (pos ≤ o) as Hpos by (destruct Hb as [->|]; [simpl in pos|]; unfold pos in *; simpl; lia).
  assert (∀ n mid f, n = o - pos → n ≤ run_char_len r → mid ≠ [] →
    fbytes mid = cells_fbytes (take n (run_cells r)) ++ fmt_text f t
                 ++ cells_fbytes (drop n (run_cells r)) →
    (no_fuse [r] t →
     cells mid = take n (run_cells r) ++ fmt_cells f t ++ drop n (run_cells r)) →
    inserted (before ++ r :: rest) o t (before ++ mid ++ rest) f) as Hloc.
  { intros n mid f -> Hn Hm Eb Ec. replace o with (pos + (o - pos)) at 1 by lia.
    apply (inserted_local before [r] mid rest); rewrite ?cells_one, ?length_run_cells; done. }
  destruct (Nat.leb_spec pos o); [|lia].
  destruct (unlinked_inserted r t) as [Ub Uc].
  pose proof (length_run_cells r) as Hlen.
  intros E.
  destruct (Nat.leb_spec o (pos + run_char_len r)) as [Hin|Hout]; cbn [andb]; cycle 1.
  { destruct (Nat.eqb_spec o pos); [lia|].
    destruct (Nat.ltb_spec o (pos + run_char_len r)); [lia|].
    destruct (Nat.eqb_spec o (pos + run_char_len r)); [lia|].
    assert (pos + run_char_len r = length (cells (before ++ [r]))) as Ep.
    { rewrite cells_app, cells_one, length_app, Hlen. done. }
    rewrite Ep in E |- *. apply IH in E as (f & Hi & Hs); [|right; lia].
    exists f. rewrite <- app_assoc in Hi. done. }
  destruct (Nat.eqb_spec o pos) as [Hop|Hop].
  - destruct Hb as [->|]; [|unfold pos in *; lia]. cbn [last] in E.
    destruct (bool_decide (is_Some (run_link r))) eqn:Hl.
    { injection E as <-. exists (run_style r, None). split; [|done].
      apply (Hloc 0 [run_unlinked r t; r]); [lia|lia|done| |].
      - rewrite take_0, drop_0, run_cells_fbytes. unfold fbytes. simpl. by rewrite app_nil_r.
      - intros _. rewrite take_0, drop_0. by rewrite cells_cons, cells_one, <- Uc, cells_one. }
    destruct (Nat.ltb_spec o (pos + run_char_len r)) as [Hlt|Hge].
    { injection E as <-. exists (run_fmt r). split; [|done].
      destruct (insert_str_inserted r (o - pos) t).
      by apply (Hloc (o - pos) [run_insert_str r (o - pos) t]); [|lia|..]. }
    destruct (Nat.eqb_spec o (pos + run_char_len r)) as [Heq|]; [|lia]. simplify_eq.
    exists (run_fmt r). split; [|done]. destruct (push_str_inserted r t) as [Pb Pc].
    apply (Hloc (run_char_len r) [run_push_str r t]); [lia|lia|done|..].
    + rewrite take_ge, drop_ge, Pb, fbytes_one_cons by lia. cbn. by rewrite !app_nil_r.
    + intros Hf. rewrite take_ge, drop_ge, Pc by (done || lia). by rewrite app_nil_r.
  - destruct (Nat.ltb_spec o (pos + run_char_len r)) as [Hlt|Hge].
    { injection E as <-. exists (run_fmt r). split; [|done].
      destruct (insert_str_inserted r (o - pos) t).
      by apply (Hloc (o - pos) [run_insert_str r (o - pos) t]); [|lia|..]. }
    destruct (Nat.eqb_spec o (pos + run_char_len r)) as [Heq|]; [|lia].
    destruct (bool_decide (is_Some (run_link r))) eqn:Hl; simplify_eq.
    + exists (run_style r, None). split; [|done].
      apply (Hloc (run_char_len r) [r; run_unlinked r t]); [lia|lia|done|..].
      * rewrite take_ge, drop_ge, fbytes_one_cons, Ub by lia. cbn. by rewrite app_nil_r.
      * intros _. rewrite take_ge, drop_ge, cells_cons, Uc by lia. by rewrite app_nil_r.
    + exists (run_fmt r). split; [|done]. destruct (push_str_inserted r t) as [Pb Pc].
      apply (Hloc (run_char_len r) [run_push_str r t]); [lia|lia|done|..].
      * rewrite take_ge, drop_ge, Pb, fbytes_one_cons by lia. cbn. by rewrite !app_nil_r.
      * intros Hf. rewrite take_ge, drop_ge, Pc by (done || lia). by rewrite app_nil_r.
Qed.

(** The loop returns at every offset of the runs. *)
Lemma insert_text_go_Some before rs pos o t :
  rs ≠ [] → pos ≤ o ≤ pos + length (cells rs) →
  is_Some (insert_text_go before rs pos o t).
Proof.
  revert before pos. induction rs as [|r rest IH]; intros before pos Hne Ho; [done|].
  rewrite cells_cons, length_app, length_run_cells in Ho. cbn [insert_text_go].
  match goal with |- is_Some (match ?x with _ => _ end) => destruct x; [done|] end.
  destruct (Nat.ltb_spec o (pos + run_char_len r)); [done|].
  destruct (Nat.eqb_spec o (pos + run_char_len r)).
  { by destruct (bool_decide (is_Some (run_link r))). }
  apply IH; [|lia]. intros ->. change (cells []) with (@nil Cell) in Ho. simpl in Ho. lia.
Qed.

Lemma insert_text_into_runs_spec rs o t :
  rs ≠ [] → o ≤ length (cells rs) →
  ∃ f, inserted rs o t (insert_text_into_runs rs o t) f
       ∧ insertion_style rs 0 o = Some f.1.
Proof.
  intros Hne Ho. unfold insert_text_into_runs.
  destruct (insert_text_go_Some [] rs 0 o t) as [out E]; [done|lia|].
  rewrite E. apply (insert_text_go_spec [] rs o t out); [by left|done].
Qed.

(** [apply_insert_text] at a valid position of an inline block. *)
Lemma apply_insert_text_inline d i o t b rs :
  doc_block d i = Some b → block_runs b = Some rs → rs ≠ [] → o ≤ length (cells rs) →
  ∃ d' rs' f, apply_insert_text d (mkPos i o) t
              = Some (d', mkPosMap i [mkEntry o 0 (text_len t)] None)
    ∧ d' = (doc_replace_block d i (block_set_runs b rs')).1
    ∧ inserted rs o t rs' f ∧ insertion_style rs 0 o = Some f.1.
Proof.
  intros Hb Hrs Hne Ho. unfold apply_insert_text. cbn [block_index offset].
  rewrite Hb. cbn [mbind option_bind]. rewrite Hrs.
  destruct (insert_text_into_runs_spec rs o t Hne Ho) as (f & Hi & Hs). eauto 8.
Qed.
(** ** Properties *)

(** [InsertText] puts its text, in one formatting, exactly at the offset:
    the formatted bytes of the block are those of the clusters before the
    offset, the new text, those of the clusters after it, whatever the
    segmentation does at the seams; and when the text fuses with no cluster
    the clusters are too. *)
Theorem insert_text_effect (rs : list StyledRun) (o : nat) (t : text)
    (Hne : rs ≠ []) (Ho : o ≤ runs_char_len rs) :
  ∃ f, fbytes (insert_text_into_runs rs o t)
       = cells_fbytes (take o (cells rs)) ++ ((λ c, (c, f)) <$> t)
         ++ cells_fbytes (drop o (cells rs))
    ∧ (no_fuse rs t →
       cells (insert_text_into_runs rs o t)
       = take o (cells rs) ++ ((λ g, (g, f)) <$> graphemes t) ++ drop o (cells rs)).
Proof.
  rewrite <- length_cells in Ho.
  destruct (insert_text_into_runs_spec rs o t Hne Ho) as (f & Hi & _).
  exists f. split; [apply Hi|]. intros Hf. by apply (ins_cells _ _ _ _ _ Hi).
Qed.
End Insert.

#[local] Existing Instance byte_segmentation.

Lemma insert_text_effect_witness :
  ∃ f, fbytes (insert_text_into_runs [run_plain (lit "ad"); run_styled (lit "e") BOLD] 1
                 (lit "bc"))
       = cells_fbytes (take 1 (cells [run_plain (lit "ad"); run_styled (lit "e") BOLD]))
         ++ ((λ c, (c, f)) <$> lit "bc")
         ++ cells_fbytes (drop 1 (cells [run_plain (lit "ad"); run_styled (lit "e") BOLD])).
Proof.
  destruct (insert_text_effect [run_plain (lit "ad"); run_styled (lit "e") BOLD] 1 (lit "bc"))
    as (f & Hb & _).
  - discriminate.
  - vm_compute. lia.
  - exists f. exact Hb.
Defined.
