(* ===== verification/Rules.v ===== *)
(** * Rules: from user actions to edit operations

    src/crates/rte/src/rules.rs: [resolve] turns an [EditAction] into the list of
    [EditOp]s to apply.  A result in [option] is [None] where the code panics
    (an operation it applies to its scratch copy panics). *)

From S2P Require Import Prelude.
From S2P Require Import Graphemes.
From S2P Require Import Document.
From S2P Require Import Operations.

Inductive EditAction :=
| AInsertText (t : text)
| ADeleteBackward
| ADeleteForward
| ADeleteSelection
| ASplitBlock
| AToggleInlineStyle (style : InlineStyle)
| ASetBlockType (kind : BlockKind).

Definition runs_are_effectively_empty (rs : list StyledRun) : bool :=
  forallb run_is_empty rs.

Definition block_is_atomic_at (d : Document) (i : nat) : bool :=
  match doc_block d i with Some b => block_is_atomic b | None => false end.

Definition remove_or_clear_block (d : Document) (i : nat) : EditOp :=
  let b := default block_empty_paragraph (doc_block d i) in
  if doc_block_count d <=? 1 then ReplaceBlock i b block_empty_paragraph
  else RemoveBlock i b.

(** The caret position after deleting a selection. *)
Definition post_delete_position (d : Document) (sel : DocSelection) : DocPosition :=
  let start := sel_start sel in
  if (0 <? offset start) && (block_index start + 1 <? doc_block_count d)
     && block_is_atomic_at d (block_index start)
  then mkPos (block_index start + 1) 0
  else start.

Section Rules.
Context `{Segmentation}.

(** The loop of [extract_deleted_runs] is the one of [extract_runs]. *)
Definition extract_deleted_runs (rs : list StyledRun) (a b : nat) : list StyledRun :=
  if b <=? a then [run_plain []] else or_plain_empty (extract_overlaps rs 0 a b).

(** *** Styles at a position *)

Definition last_style (rs : list StyledRun) : InlineStyle :=
  match last rs with Some r => run_style r | None => style_empty end.

Definition runs_at (d : Document) (p : DocPosition) : option (list StyledRun) :=
  doc_block d (block_index p) ≫= block_runs.

Definition resolve_style_at (d : Document) (p : DocPosition) : InlineStyle :=
  match runs_at d p with
  | None | Some [] => style_empty
  | Some rs =>
      match resolve_offset_go rs 0 (offset p) with
      | None => last_style rs
      | Some (i, o) =>
          let style_of j := match rs !! j with Some r => run_style r | None => style_empty end in
          if (o =? 0) && (0 <? i) then
            match rs !! (i - 1) with
            | Some prev =>
                if bool_decide (is_Some (run_link prev)) then style_of i else run_style prev
            | None => style_empty
            end
          else style_of i
      end
  end.

Fixpoint style_at_go (rs : list StyledRun) (char_pos o : nat) : option InlineStyle :=
  match rs with
  | [] => None
  | r :: rest =>
      if o <? char_pos + run_char_len r then Some (run_style r)
      else style_at_go rest (char_pos + run_char_len r) o
  end.

Definition style_at_position (d : Document) (p : DocPosition) : InlineStyle :=
  match runs_at d p with
  | None => style_empty
  | Some rs => default (last_style rs) (style_at_go rs 0 (offset p))
  end.

Fixpoint run_style_go (rs : list StyledRun) (char_pos o : nat) : option InlineStyle :=
  match rs with
  | [] => None
  | r :: rest =>
      if (char_pos <=? o) && (o <=? char_pos + run_char_len r) then Some (run_style r)
      else run_style_go rest (char_pos + run_char_len r) o
  end.

Definition run_style_at (d : Document) (p : DocPosition) : InlineStyle :=
  match runs_at d p with
  | None | Some [] => style_empty
  | Some rs => default (last_style rs) (run_style_go rs 0 (offset p))
  end.

(** *** Deleting a selection *)

Definition deleted_single (b : Block) (so eo : nat) : DeletedContent :=
  match block_runs b with
  | Some rs => mkDeleted [block_with_runs_like b (extract_deleted_runs rs so eo)] None
  | None =>
      if (so =? 0) && (block_char_len b <=? eo) then mkDeleted [b] None
      else mkDeleted [block_empty_paragraph] None
  end.

(** The parts of the start block and of the end block that a deletion across
    blocks captures, and what remains of the end block. *)
Definition deleted_head (b : Block) (so : nat) : list Block :=
  match block_runs b with
  | Some rs => [block_with_runs_like b (extract_deleted_runs rs so (block_char_len b))]
  | None => if so =? 0 then [b] else []
  end.

Definition deleted_last (b : Block) (eo : nat) : list Block * option Block :=
  match block_runs b with
  | Some rs =>
      let tail_runs := extract_deleted_runs rs eo (block_char_len b) in
      ([block_with_runs_like b (extract_deleted_runs rs 0 eo)],
       if runs_are_effectively_empty tail_runs then None
       else Some (block_with_runs_like b tail_runs))
  | None => (if 0 <? eo then [b] else [], None)
  end.

Definition middle_blocks (d : Document) (i j : nat) : list Block :=
  take (j - S i) (drop (S i) (blocks d)).

Definition build_deleted_content (d : Document) (s e : DocPosition) : DeletedContent :=
  if block_index s =? block_index e then
    match doc_block d (block_index s) with
    | Some b => deleted_single b (offset s) (offset e)
    | None => mkDeleted [block_empty_paragraph] None
    end
  else
    let head :=
      match doc_block d (block_index s) with
      | Some b => deleted_head b (offset s)
      | None => []
      end in
    let '(lastb, tail) :=
      match doc_block d (block_index e) with
      | Some b => deleted_last b (offset e)
      | None => ([], None)
      end in
    let bs := head ++ middle_blocks d (block_index s) (block_index e) ++ lastb in
    mkDeleted (match bs with [] => [block_empty_paragraph] | _ => bs end) tail.

Definition build_delete_selection (d : Document) (sel : DocSelection) : list EditOp :=
  let s := post_delete_position d sel in
  let e := sel_end sel in
  if decide (pos_le e s) then []
  else [DeleteRange s e (build_deleted_content d s e)].

Definition resolve_delete_selection (d : Document) (sel : DocSelection) : list EditOp :=
  if sel_is_collapsed sel then [] else build_delete_selection d sel.

(** *** Insert *)

(** The toggles that give the inserted text its style. *)
Definition style_fixups (diff : InlineStyle) (p : DocPosition) (t : text) : list EditOp :=
  if style_is_empty diff then []
  else ToggleInlineStyle p (mkPos (block_index p) (offset p + text_len t)) <$> style_bits diff.

Definition insert_with_style (d : Document) (p : DocPosition) (t : text)
    (style : InlineStyle) : list EditOp :=
  InsertText p t :: style_fixups (style_symmetric_difference style (run_style_at d p)) p t.

Definition resolve_insert (d : Document) (sel : DocSelection) (t : text)
    (pending : InlineStyle) : option (list EditOp) :=
  if sel_is_collapsed sel then
    let p := focus sel in
    let style := if style_is_empty pending then resolve_style_at d p else pending in
    Some (insert_with_style d p t style)
  else
    let p := post_delete_position d sel in
    let style := if style_is_empty pending then style_at_position d p else pending in
    let delete_ops := build_delete_selection d sel in
    post_delete ← apply_all delete_ops d;
    Some (delete_ops ++ insert_with_style post_delete p t style).

(** *** Backspace *)

Definition resolve_merge_backward (d : Document) (i : nat) : list EditOp :=
  if i =? 0 then []
  else
    match doc_block d i, doc_block d (i - 1) with
    | Some cur, Some prev =>
        if negb (block_is_inline cur) || negb (block_is_inline prev) then []
        else [MergeBlocks i cur (block_char_len prev)]
    | _, _ => []
    end.

Definition resolve_delete_char_backward (d : Document) (p : DocPosition) : list EditOp :=
  match doc_block d (block_index p) with
  | None => []
  | Some b =>
      match block_runs b with
      | None => []
      | Some rs =>
          let before := offset p - 1 in
          if block_char_len b <=? before then []
          else [DeleteRange (mkPos (block_index p) before) p
                  (mkDeleted
                     [block_with_runs_like b (extract_deleted_runs rs before (offset p))]
                     None)]
      end
  end.

Definition resolve_delete_backward (d : Document) (sel : DocSelection) : list EditOp :=
  if negb (sel_is_collapsed sel) then build_delete_selection d sel
  else
    let p := focus sel in
    if (block_index p =? 0) && (offset p =? 0) then []
    else if offset p =? 0 then
      match doc_block d (block_index p - 1) with
      | Some prev =>
          if block_is_atomic prev then [RemoveBlock (block_index p - 1) prev]
          else resolve_merge_backward d (block_index p)
      | None => resolve_merge_backward d (block_index p)
      end
    else if block_is_atomic_at d (block_index p)
    then [remove_or_clear_block d (block_index p)]
    else resolve_delete_char_backward d p.

(** *** Delete *)

Definition resolve_merge_forward (d : Document) (i : nat) : list EditOp :=
  if doc_block_count d <=? i + 1 then []
  else
    match doc_block d (i + 1), doc_block d i with
    | Some next, Some cur =>
        if negb (block_is_inline next) || negb (block_is_inline cur) then []
        else [MergeBlocks (i + 1) next (block_char_len cur)]
    | _, _ => []
    end.

Definition resolve_delete_char_forward (d : Document) (p : DocPosition) : list EditOp :=
  match doc_block d (block_index p) with
  | None => []
  | Some b =>
      match block_runs b with
      | None => []
      | Some rs =>
          if block_char_len b <=? offset p then []
          else [DeleteRange p (mkPos (block_index p) (offset p + 1))
                  (mkDeleted
                     [block_with_runs_like b
                        (extract_deleted_runs rs (offset p) (offset p + 1))]
                     None)]
      end
  end.

Definition resolve_delete_forward (d : Document) (sel : DocSelection) : list EditOp :=
  if negb (sel_is_collapsed sel) then build_delete_selection d sel
  else
    let p := focus sel in
    match doc_block d (block_index p) with
    | None => []
    | Some b =>
        let at_end := block_char_len b <=? offset p in
        let is_last := doc_block_count d - 1 <=? block_index p in
        if at_end && is_last then []
        else if at_end then
          match doc_block d (block_index p + 1) with
          | Some next =>
              if block_is_atomic next then [RemoveBlock (block_index p + 1) next]
              else resolve_merge_forward d (block_index p)
          | None => resolve_merge_forward d (block_index p)
          end
        else if block_is_atomic_at d (block_index p) && (offset p =? 0)
        then [remove_or_clear_block d (block_index p)]
        else resolve_delete_char_forward d p
    end.

(** *** Enter *)

Definition split_at (d : Document) (p : DocPosition) (b : Block) : list EditOp :=
  match b with
  | Image _ _ _ _ => [InsertBlock (block_index p + 1) block_empty_paragraph]
  | ListItem _ _ rs =>
      if forallb (λ r, trims_to_empty (run_text r)) rs
      then [SetBlockType (block_index p) (block_kind b) KParagraph]
      else [SplitBlock p]
  | Heading l _ =>
      if block_char_len b <=? offset p
      then [SplitBlock p; SetBlockType (block_index p + 1) (KHeading l) KParagraph]
      else [SplitBlock p]
  | _ => [SplitBlock p]
  end.

Definition resolve_split_block (d : Document) (sel : DocSelection) : list EditOp :=
  let '(p, delete_ops) :=
    if sel_is_collapsed sel then (focus sel, [])
    else (post_delete_position d sel, build_delete_selection d sel) in
  match doc_block d (block_index p) with
  | None => delete_ops
  | Some b => delete_ops ++ split_at d p b
  end.

(** *** Toggling a style *)

(** The walks of [find_link_boundaries] over the runs with the same link. *)
Fixpoint link_start (rs : list StyledRun) (href : text) (i : nat) : nat :=
  match i with
  | O => O
  | S j =>
      match rs !! j with
      | Some r => if bool_decide (run_link r = Some href) then link_start rs href j else i
      | None => i
      end
  end.

Fixpoint link_end (rs : list StyledRun) (href : text) (fuel i : nat) : nat :=
  match fuel with
  | O => i
  | S fuel =>
      match rs !! (i + 1) with
      | Some r => if bool_decide (run_link r = Some href) then link_end rs href fuel (i + 1) else i
      | None => i
      end
  end.

Definition find_link_boundaries (d : Document) (p : DocPosition)
    : option (DocPosition * DocPosition) :=
  rs ← runs_at d p;
  if is_nil rs then None
  else
    '(i, o) ← resolve_offset_go rs 0 (offset p);
    r ← rs !! i;
    href ← (match run_link r with
            | Some h => Some h
            | None =>
                if (o =? 0) && (0 <? i) then prev ← rs !! (i - 1); run_link prev else None
            end);
    let anchor_run := if bool_decide (run_link r = Some href) then i else i - 1 in
    let a := link_start rs href anchor_run in
    let z := link_end rs href (length rs) anchor_run in
    let so := runs_char_len (take a rs) in
    Some (mkPos (block_index p) so,
          mkPos (block_index p) (so + runs_char_len (take (z + 1 - a) (drop a rs)))).

Definition resolve_toggle_style (d : Document) (sel : DocSelection) (style : InlineStyle)
    : list EditOp :=
  if sel_is_collapsed sel then
    match find_link_boundaries d (focus sel) with
    | Some (s, e) => [ToggleInlineStyle s e style]
    | None => []
    end
  else if bool_decide (sel_start sel = sel_end sel) then []
  else [ToggleInlineStyle (sel_start sel) (sel_end sel) style].

(** *** Setting the block type *)

Definition resolve_set_block_type (d : Document) (sel : DocSelection) (kind : BlockKind)
    : list EditOp :=
  let i := block_index (focus sel) in
  match doc_block d i with
  | None => []
  | Some b =>
      let cur := block_kind b in
      let new := if bool_decide (cur = kind) then KParagraph else kind in
      if bool_decide (cur = new) then []
      else if bool_decide (cur ∈ [KHorizontalRule; KImage]) then []
      else if bool_decide (new ∈ [KHorizontalRule; KImage; KBlockQuote]) then []
      else [SetBlockType i cur new]
  end.

(** ** [resolve] *)

Definition resolve (d : Document) (sel : DocSelection) (action : EditAction)
    (pending : InlineStyle) : option (list EditOp) :=
  match action with
  | AInsertText t => resolve_insert d sel t pending
  | ADeleteBackward => Some (resolve_delete_backward d sel)
  | ADeleteForward => Some (resolve_delete_forward d sel)
  | ADeleteSelection => Some (resolve_delete_selection d sel)
  | ASplitBlock => Some (resolve_split_block d sel)
  | AToggleInlineStyle style => Some (resolve_toggle_style d sel style)
  | ASetBlockType kind => Some (resolve_set_block_type d sel kind)
  end.
End Rules.
