(* ===== verification/InverseTheory.v ===== *)
(** * InverseTheory: undoing an edit operation

    [EditOp::invert_with_doc] against [EditOp::apply]: for every operation the
    editor emits under the conditions of [undoable], applying the inverse to the
    edited document gives the content of the document before the edit. *)

From S2P Require Import Prelude.
From S2P Require Import Graphemes.
From S2P Require Import Document.
From S2P Require Import Cells.
From S2P Require Import Operations.
From S2P Require Import OperationsTheory.
From S2P Require Import ToggleTheory.
From S2P Require Import InsertTheory.
From S2P Require Import Rules.
From S2P Require Import Normalize.

(** ** Splices of lists *)

Section Splice.
Context {A : Type}.
Implicit Types l r : list A.

Lemma take_splice i l r : i ≤ length l → take i (take i l ++ r) = take i l.
Proof. intros. by rewrite take_app_length' by (rewrite length_take; lia). Qed.

Lemma drop_splice i n l m r :
  i ≤ length l → n = length m → drop (i + n) (take i l ++ m ++ r) = r.
Proof.
  intros Hi ->. rewrite app_assoc, drop_app_length'; [done|].
  rewrite length_app, length_take. lia.
Qed.

Lemma lookup_splice i k l m r :
  i ≤ length l → k < length m → (take i l ++ m ++ r) !! (i + k) = m !! k.
Proof.
  intros Hi Hk. rewrite lookup_app_r by (rewrite length_take; lia).
  rewrite length_take, lookup_app_l by lia. f_equal. lia.
Qed.

Lemma lookup_splice_0 i l x m r :
  i ≤ length l → (take i l ++ (x :: m) ++ r) !! i = Some x.
Proof.
  intros Hi. pose proof (lookup_splice i 0 l (x :: m) r Hi) as E.
  rewrite Nat.add_0_r in E. apply E. simpl. lia.
Qed.

Lemma insert_splice i l x y m r :
  i ≤ length l →
  <[i := x]> (take i l ++ (y :: m) ++ r) = take i l ++ (x :: m) ++ r.
Proof.
  intros Hi. rewrite insert_app_r_alt by (rewrite length_take; lia).
  rewrite length_take. by replace (i - Nat.min i (length l)) with 0 by lia.
Qed.

Lemma splice_id i l x : l !! i = Some x → take i l ++ [x] ++ drop (i + 1) l = l.
Proof.
  intros Hx. cbn [app]. replace (i + 1) with (S i) by lia. by apply take_drop_middle.
Qed.

Lemma two_splice_id i j l x y :
  i < j → l !! i = Some x → l !! j = Some y →
  take i l ++ [x] ++ take (j - S i) (drop (S i) l) ++ [y] ++ drop (j + 1) l = l.
Proof.
  intros Hij Hx Hy. etransitivity; [|apply (splice_id i l x Hx)].
  do 2 f_equal. rewrite (Nat.add_1_r i).
  etransitivity; [|apply (take_drop (j - S i) (drop (S i) l))]. f_equal.
  rewrite drop_drop. replace (S i + (j - S i)) with j by lia.
  rewrite (drop_S l y j Hy). by rewrite Nat.add_1_r.
Qed.
End Splice.

Section Inverse.
Context `{Segmentation}.

(** [op] can be undone on [d]: it applies, and the inverse computed from any
    document with the resulting content restores the content of [d]. *)
Definition undone (d : Document) (op : EditOp) : Prop :=
  ∃ d1 m1, apply op d = Some (d1, m1) ∧
    ∀ d1', abs_doc d1' = abs_doc d1 →
      ∃ d2 m2, apply (invert_with_doc op d1') d1' = Some (d2, m2)
               ∧ abs_doc d2 = abs_doc d.

Lemma doc_block_abs_inline d i b rs :
  doc_block d i = Some b → block_runs b = Some rs →
  abs_doc d !! i = Some (AInline (block_shape b) (cells rs)).
Proof.
  intros Hb Hrs. erewrite abs_doc_lookup by done. by rewrite (abs_block_inline b rs).
Qed.

Lemma length_fmt_cells f t : length (fmt_cells f t) = text_len t.
Proof. apply length_fmap. Qed.

Lemma undone_insert d i o t b rs :
  doc_block d i = Some b → block_runs b = Some rs → rs ≠ [] → o ≤ length (cells rs) →
  no_fuse rs t → undone d (InsertText (mkPos i o) t).
Proof.
  intros Hb Hrs Hne Ho Hf.
  destruct (apply_insert_text_inline d i o t b rs) as (d1 & rs1 & f & E & -> & Hi & _);
    [done..|].
  do 2 eexists. split; [exact E|]. intros d1' E1.
  rewrite abs_doc_replace, (abs_block_set_runs b rs), (ins_cells _ _ _ _ _ Hi) in E1 by done.
  pose proof (doc_block_abs_inline _ _ _ _ Hb Hrs) as Ha.
  apply lookup_lt_Some in Ha as Hlt.
  destruct (abs_doc_inline_inv d1' i (block_shape b)
              (take o (cells rs) ++ fmt_cells f t ++ drop o (cells rs)))
    as (b1 & r1 & Hb1 & Hr1 & Hsh & Hc1).
  { rewrite E1. by apply list_lookup_insert_eq. }
  unfold invert_with_doc. cbn [invert_inner mbind option_bind block_index offset apply].
  rewrite Hb1. cbn [mbind option_bind]. rewrite Hr1. unfold apply_delete_range.
  rewrite decide_False by (unfold pos_lt; simpl; lia).
  assert (length (take o (cells rs)) = o) as Hlo by (rewrite length_take; lia).
  destruct (decide (t = [])) as [->|Ht].
  - rewrite text_len_nil, Nat.add_0_r. rewrite bool_decide_true by done.
    cbn [andb negb is_nil del_blocks].
    unfold apply_restore_deleted. cbn [del_blocks].
    destruct (apply_restore_single_inline d1' i o b1 r1
                (Paragraph (extract_runs_from_range r1 o o))
                (extract_runs_from_range r1 o o)) as (d2 & m2 & E2 & A2); [done..|].
    do 2 eexists. split; [exact E2|]. rewrite A2, E1, list_insert_insert_eq.
    rewrite extract_runs_from_range_cells by lia.
    rewrite drop_ge by (rewrite length_take; lia). cbn [app].
    rewrite take_drop, Hc1, Hsh. unfold fmt_cells. rewrite graphemes_nil. cbn [fmap list_fmap map app].
    rewrite take_drop. by apply list_insert_id.
  - assert (text_len t ≠ 0) by (by rewrite text_len_0).
    rewrite bool_decide_false by (intros [=]; lia). cbn [andb].
    cbn [block_index]. rewrite Nat.eqb_refl.
    destruct (apply_single_block_delete_inline d1' i o (o + text_len t) b1 r1)
      as (d2 & E2 & A2); [done..|lia|].
    do 2 eexists. split; [exact E2|]. rewrite A2, E1, list_insert_insert_eq, Hc1, Hsh.
    rewrite take_app_length' by done. rewrite drop_app_ge by lia. rewrite Hlo.
    rewrite drop_app_length' by (rewrite length_fmt_cells; lia).
    rewrite take_drop. by apply list_insert_id.
Qed.

Lemma undone_split d i o b rs :
  doc_block d i = Some b → block_runs b = Some rs → undone d (SplitBlock (mkPos i o)).
Proof.
  intros Hb Hrs. destruct (apply_split_block_inline d i o b rs) as (d1 & E & A); [done..|].
  do 2 eexists. split; [exact E|]. intros d1' E1. rewrite A in E1.
  pose proof (doc_block_abs_inline _ _ _ _ Hb Hrs) as Ha. apply lookup_lt_Some in Ha as Hlt.
  destruct (abs_doc_inline_inv d1' i (block_shape b) (take o (cells rs)))
    as (b1 & r1 & Hb1 & Hr1 & Hs1 & Hc1).
  { rewrite E1. apply lookup_splice_0. lia. }
  destruct (abs_doc_inline_inv d1' (i + 1) (block_shape b) (drop o (cells rs)))
    as (b2 & r2 & Hb2 & Hr2 & Hs2 & Hc2).
  { rewrite E1. rewrite lookup_splice; simpl; (done || lia). }
  unfold invert_with_doc. cbn [invert_inner apply block_index offset].
  destruct (apply_merge_blocks_inline d1' (i + 1) o b1 b2 r1) as (d2 & E2 & A2);
    [lia|by replace (i + 1 - 1) with i by lia|done|done|].
  do 2 eexists. split; [exact E2|]. rewrite A2, E1. replace (i + 1 - 1) with i by lia.
  unfold runs_or_nil. rewrite Hr2. cbn [from_option id]. rewrite Hs1, Hc1, Hc2, take_drop.
  rewrite take_splice by lia. replace (i + 1 + 1) with (i + 2) by lia.
  rewrite drop_splice by (simpl; lia). by apply splice_id.
Qed.

Lemma undone_merge d i b1 b2 rs1 mo :
  0 < i → doc_block d (i - 1) = Some b1 → doc_block d i = Some b2 →
  block_runs b1 = Some rs1 → mo = length (cells rs1) →
  undone d (MergeBlocks i b2 mo).
Proof.
  intros Hi Hb1 Hb2 Hrs ->.
  destruct (apply_merge_blocks_inline d i (length (cells rs1)) b1 b2 rs1) as (d1 & E & A);
    [done..|].
  do 2 eexists. split; [exact E|]. intros d1' E1. rewrite A in E1.
  pose proof (doc_block_abs_inline _ _ _ _ Hb1 Hrs) as Ha1.
  pose proof (abs_doc_lookup _ _ _ Hb2) as Ha2. apply lookup_lt_Some in Ha2 as Hlt.
  destruct (abs_doc_inline_inv d1' (i - 1) (block_shape b1) (cells rs1 ++ cells (runs_or_nil b2)))
    as (b & r & Hb & Hr & Hs & Hc).
  { rewrite E1. apply lookup_splice_0. lia. }
  unfold invert_with_doc. cbn [invert_inner apply].
  destruct (apply_restore_merged_inline d1' i b2 (length (cells rs1)) b r)
    as (d2 & m2 & E2 & A2); [done..|].
  do 2 eexists. split; [exact E2|]. rewrite A2, E1, Hc, Hs, take_app_length.
  rewrite take_splice by lia.
  match goal with |- context [drop i (take (i - 1) ?l ++ [?x] ++ ?r)] =>
    pose proof (drop_splice (i - 1) 1 l [x] r) as D end.
  replace (i - 1 + 1) with i in D by lia. rewrite D by (simpl; lia).
  pose proof (splice_id (i - 1) (abs_doc d) _ Ha1) as Es.
  replace (i - 1 + 1) with i in Es by lia.
  rewrite (drop_S (abs_doc d) (abs_block b2) i Ha2) in Es.
  by rewrite Nat.add_1_r.
Qed.

(** ** Deletions *)

Lemma extract_deleted_runs_cells rs a b :
  a ≤ b → cells (extract_deleted_runs rs a b) = drop a (take b (cells rs)).
Proof. apply extract_runs_from_range_cells. Qed.

Lemma apply_delete_lt d s e del :
  pos_lt s e →
  apply (DeleteRange s e del) d
  = if block_index s =? block_index e then apply_single_block_delete d s e
    else apply_cross_block_delete d s e.
Proof.
  intros Hlt. cbn [apply]. unfold apply_delete_range, pos_lt in *.
  rewrite decide_False by lia. rewrite bool_decide_false; [done|].
  intros ->. lia.
Qed.

(** Undoing a deletion is the restore. *)
Lemma apply_undo_delete d s e del d' :
  del_blocks del ≠ [] →
  apply (invert_with_doc (DeleteRange s e del) d') d = apply_restore_deleted d s del.
Proof.
  intros Hne. unfold invert_with_doc. cbn [invert_inner apply invert_delete_range].
  unfold apply_delete_range. rewrite decide_False by (unfold pos_lt; lia).
  rewrite bool_decide_true by done. destruct del as [bs tl]. cbn [del_blocks end_tail] in *.
  by destruct bs.
Qed.

Lemma undone_delete_single d i a z b rs :
  doc_block d i = Some b → block_runs b = Some rs → a < z →
  undone d (DeleteRange (mkPos i a) (mkPos i z)
              (build_deleted_content d (mkPos i a) (mkPos i z))).
Proof.
  intros Hb Hrs Haz. unfold build_deleted_content. cbn [block_index offset].
  rewrite Nat.eqb_refl, Hb. unfold deleted_single. rewrite Hrs. unfold undone.
  rewrite apply_delete_lt by (right; simpl; lia). cbn [block_index]. rewrite Nat.eqb_refl.
  destruct (apply_single_block_delete_inline d i a z b rs) as (d1 & E & A); [done|done|lia|].
  do 2 eexists. split; [exact E|]. intros d1' E1. rewrite A in E1.
  pose proof (doc_block_abs_inline _ _ _ _ Hb Hrs) as Ha. apply lookup_lt_Some in Ha as Hlt.
  destruct (abs_doc_inline_inv d1' i (block_shape b) (take a (cells rs) ++ drop z (cells rs)))
    as (b1 & r1 & Hb1 & Hr1 & Hs1 & Hc1).
  { rewrite E1. by apply list_lookup_insert_eq. }
  rewrite apply_undo_delete by done. unfold apply_restore_deleted. cbn [del_blocks].
  edestruct (apply_restore_single_inline d1' i a b1 r1) as (d2 & m2 & E2 & A2);
    [done|done|apply block_runs_with_runs_like|].
  do 2 eexists. split; [exact E2|].
  rewrite A2, E1, list_insert_insert_eq, extract_deleted_runs_cells, Hc1, Hs1 by lia.
  rewrite list_insert_id; [done|]. rewrite Ha. do 2 f_equal.
  destruct (decide (a ≤ length (cells rs))) as [Hle|Hgt].
  - rewrite take_app_length', drop_app_length' by (rewrite length_take; lia).
    rewrite skipn_firstn_comm. rewrite <- (take_drop a (cells rs)) at 1. f_equal.
    rewrite <- (take_drop (z - a) (drop a (cells rs))) at 1. f_equal.
    rewrite drop_drop. f_equal. lia.
  - rewrite !(take_ge (cells rs)), !(drop_ge (cells rs)) by lia.
    rewrite app_nil_r, take_ge, drop_ge by lia. by rewrite app_nil_r.
Qed.

Lemma apply_restore_deleted_many d p first mid lastb tail :
  block_is_inline first = true →
  apply_restore_deleted d p (mkDeleted (first :: mid ++ [lastb]) tail)
  = apply_restore_cross d p first mid lastb tail.
Proof.
  intros Hf. unfold apply_restore_deleted. cbn [del_blocks end_tail].
  destruct (mid ++ [lastb]) as [|m ms] eqn:E; [by destruct mid|].
  rewrite <- E, removelast_last, last_last, Hf. done.
Qed.

Lemma runs_or_nil_cells b rs : block_runs b = Some rs → cells (runs_or_nil b) = cells rs.
Proof. unfold runs_or_nil. by intros ->. Qed.

Lemma abs_middle d i j :
  abs_block <$> middle_blocks d i j = take (j - S i) (drop (S i) (abs_doc d)).
Proof. unfold middle_blocks, abs_doc. by rewrite fmap_take, fmap_drop. Qed.

(** The abstract document after a deletion from block [i] to block [lr]. *)
Definition cross_deleted (d : Document) (i so lr : nat) (sh : Shape)
    (cs tail : list Cell) : list (ABlock (list Cell)) :=
  take i (abs_doc d) ++ [AInline sh (take so cs ++ tail)] ++ drop (lr + 1) (abs_doc d).

Lemma restore_cross_back d d1 i so lr sh cs X first mid lastb tail :
  abs_doc d !! i = Some (AInline sh cs) → i < lr → so ≤ length cs →
  abs_doc d1 = cross_deleted d i so lr sh cs X →
  abs_block first = AInline sh (drop so cs) →
  abs_block <$> mid = take (lr - S i) (drop (S i) (abs_doc d)) →
  abs_doc d !! lr = Some
    (if block_is_inline lastb
     then AInline (block_shape lastb)
            (cells (runs_or_nil lastb)
             ++ match tail with Some t => cells (runs_or_nil t) | None => [] end)
     else abs_block lastb) →
  ∃ d2 m2, apply_restore_cross d1 (mkPos i so) first mid lastb tail = Some (d2, m2)
    ∧ abs_doc d2 = abs_doc d.
Proof.
  intros Ha Hlr Hso E1 Hf Hmid Hlast. apply lookup_lt_Some in Ha as Hlt.
  unfold cross_deleted in E1.
  destruct (abs_doc_inline_inv d1 i sh (take so cs ++ X)) as (b & r & Hb & Hr & Hs & Hc).
  { rewrite E1. apply lookup_splice_0. lia. }
  apply abs_block_inline_inv in Hf as (frs & Hfr & Hfs & Hfc).
  edestruct (apply_restore_cross_spec d1 i so b r first frs mid lastb tail)
    as (d2 & m2 & E2 & A2); [done..|].
  do 2 eexists. split; [exact E2|]. rewrite A2, E1, Hmid, Hc, Hfs, Hfc.
  rewrite take_splice by lia. rewrite drop_splice by (simpl; lia).
  rewrite take_app_length' by (rewrite length_take; lia). rewrite take_drop.
  apply two_splice_id; [done..|]. exact Hlast.
Qed.

Lemma effectively_empty_cells rs : runs_are_effectively_empty rs = true → cells rs = [].
Proof.
  induction rs as [|r rs IH]; [done|]. cbn [runs_are_effectively_empty forallb].
  intros [Er Ers]%andb_true_iff. rewrite cells_cons, run_cells_empty by done. by apply IH.
Qed.

Lemma deleted_last_inline eb ers eo :
  block_runs eb = Some ers → eo ≤ block_char_len eb →
  ∃ lb tail, deleted_last eb eo = ([lb], tail) ∧ block_is_inline lb = true
    ∧ AInline (block_shape lb)
        (cells (runs_or_nil lb)
         ++ match tail with Some t => cells (runs_or_nil t) | None => [] end)
      = abs_block eb.
Proof.
  intros He Heo. unfold deleted_last. rewrite He.
  do 2 eexists. split; [done|]. rewrite (abs_block_inline eb ers He).
  rewrite (runs_or_nil_cells _ _ (block_runs_with_runs_like eb _)).
  rewrite (block_char_len_runs eb ers He) in *.
  pose proof (extract_deleted_runs_cells ers eo (length (cells ers)) Heo) as Et.
  rewrite (take_ge (cells ers)) in Et by lia.
  split; [by apply block_is_inline_runs; rewrite block_runs_with_runs_like|].
  assert (block_shape (block_with_runs_like eb (extract_deleted_runs ers 0 eo))
          = block_shape eb) as -> by (by destruct eb).
  f_equal. rewrite extract_deleted_runs_cells by lia. rewrite drop_0.
  transitivity (take eo (cells ers) ++ drop eo (cells ers)); [|apply take_drop].
  f_equal. rewrite <- Et. destruct (runs_are_effectively_empty _) eqn:Ee.
  - symmetry. by apply effectively_empty_cells.
  - by rewrite (runs_or_nil_cells _ _ (block_runs_with_runs_like eb _)).
Qed.

Lemma undone_delete_cross d i so j eo sb eb rs :
  doc_block d i = Some sb → block_runs sb = Some rs → so ≤ length (cells rs) →
  doc_block d j = Some eb → eo ≤ block_char_len eb → i < j →
  undone d (DeleteRange (mkPos i so) (mkPos j eo)
              (build_deleted_content d (mkPos i so) (mkPos j eo))).
Proof.
  intros Hsb Hrs Hso Heb Heo Hij. unfold undone.
  rewrite apply_delete_lt by (left; simpl; lia). cbn [block_index].
  destruct (Nat.eqb_spec i j) as [|Hne]; [lia|].
  destruct (apply_cross_block_delete_inline d (mkPos i so) (mkPos j eo) sb eb rs)
    as (d1 & m1 & E & _ & A); [done..|].
  do 2 eexists. split; [exact E|]. intros d1' E1. rewrite A in E1. clear E A.
  unfold build_deleted_content. cbn [block_index offset] in *.
  destruct (Nat.eqb_spec i j) as [|_]; [lia|]. rewrite Hsb, Heb.
  unfold deleted_head. rewrite Hrs.
  set (first := block_with_runs_like sb _).
  pose proof (doc_block_abs_inline _ _ _ _ Hsb Hrs) as Ha.
  pose proof (abs_doc_lookup _ _ _ Heb) as Hae.
  assert (abs_block first = AInline (block_shape sb) (drop so (cells rs))) as Hf.
  { unfold first. rewrite abs_block_with_runs_like, extract_deleted_runs_cells
      by (rewrite (block_char_len_runs sb rs Hrs); lia).
    rewrite (block_char_len_runs sb rs Hrs). by rewrite (take_ge (cells rs)). }
  assert (block_is_inline first = true) as Hfi.
  { apply block_is_inline_runs. unfold first. by rewrite block_runs_with_runs_like. }
  destruct (block_runs eb) as [ers|] eqn:Hers.
  { destruct (deleted_last_inline eb ers eo) as (lb & tail & -> & Hlb & El); [done..|].
    rewrite apply_undo_delete by done. cbn [app].
    rewrite apply_restore_deleted_many by done.
    apply (restore_cross_back d d1' i so j (block_shape sb) (cells rs)
             (if block_is_inline eb then drop eo (cells (runs_or_nil eb)) else []));
      [done|done|done| |done|apply abs_middle|].
    - rewrite E1. unfold last_removed. assert (block_is_inline eb = true) as ->; [|done].
      apply block_is_inline_runs. eauto.
    - rewrite Hlb, El. done. }
  assert (block_is_inline eb = false) as Hie by (by destruct eb).
  unfold deleted_last. rewrite Hers. unfold last_removed in E1. rewrite Hie in E1.
  cbn [orb offset block_index] in E1.
  destruct (Nat.ltb_spec 0 eo) as [Heo0|Heo0].
  { rewrite apply_undo_delete by done. cbn [app]. rewrite apply_restore_deleted_many by done.
    apply (restore_cross_back d d1' i so j (block_shape sb) (cells rs) []);
      [done|done|done|done|done|apply abs_middle|]. by rewrite Hie. }
  rewrite apply_undo_delete by done. rewrite app_nil_r. cbn [app].
  destruct (decide (S i = j)) as [Hj|Hj].
  - unfold middle_blocks. replace (j - S i) with 0 by lia. rewrite take_0.
    unfold apply_restore_deleted. cbn [del_blocks].
    replace (j - 1 + 1) with (i + 1) in E1 by lia.
    assert (i < length (abs_doc d)) as Hlt by (by apply lookup_lt_Some in Ha).
    destruct (abs_doc_inline_inv d1' i (block_shape sb) (take so (cells rs) ++ []))
      as (b & r & Hb & Hr & Hs & Hc).
    { rewrite E1. apply lookup_splice_0. lia. }
    apply abs_block_inline_inv in Hf as (frs & Hfr & Hfs & Hfc).
    destruct (apply_restore_single_inline d1' i so b r first frs) as (d2 & m2 & E2 & A2);
      [done..|].
    do 2 eexists. split; [exact E2|]. rewrite A2, E1, Hc, Hs, Hfc, app_nil_r.
    rewrite insert_splice by lia.
    rewrite take_take, Nat.min_id, (drop_ge (take so _)) by (rewrite length_take; lia).
    rewrite app_nil_r, take_drop.
    by apply (splice_id i).
  - destruct (lookup_lt_is_Some_2 (blocks d) (j - 1)) as [lb Hlb].
    { apply lookup_lt_Some in Heb. lia. }
    assert (middle_blocks d i j = middle_blocks d i (j - 1) ++ [lb]) as ->.
    { unfold middle_blocks. replace (j - S i) with (S (j - 1 - S i)) by lia.
      apply take_S_r. rewrite lookup_drop. by replace (S i + (j - 1 - S i)) with (j - 1) by lia. }
    rewrite apply_restore_deleted_many by done.
    apply (restore_cross_back d d1' i so (j - 1) (block_shape sb) (cells rs) []);
      [done|lia|done|done|done|apply abs_middle|].
    rewrite app_nil_r. erewrite abs_doc_lookup by done.
    destruct (block_is_inline lb) eqn:Hil; [|done].
    apply block_is_inline_runs in Hil as [lrs Hlrs].
    by rewrite (abs_block_inline lb lrs Hlrs), (runs_or_nil_cells lb lrs Hlrs).
Qed.

(** ** Styles, block types and whole blocks *)

Lemma range_valid_eq d d' s e remove bit :
  abs_doc d' = toggle_spec remove bit s e (abs_doc d) →
  range_valid d s e → range_valid d' s e.
Proof.
  intros E (Hlt & Hs & He). split_and!; [done|..];
    by rewrite (toggle_spec_valid d d' remove bit s e E).
Qed.

(** With no text in the range a toggle changes nothing. *)
Lemma toggle_spec_no_text remove bit s e ad :
  (∀ c, ¬ range_cell s e ad c) → toggle_spec remove bit s e ad = ad.
Proof.
  intros Hn. unfold toggle_spec. apply list_eq. intros j. rewrite list_lookup_imap.
  destruct (ad !! j) as [ab|] eqn:E; [|done]. simpl. f_equal. case_decide as Hj; [|done].
  destruct ab as [sh cs| | |]; [|done..]. unfold toggle_at.
  destruct (abs_range s e j (length cs)) as [a z] eqn:Er. f_equal.
  apply map_range_id. intros c Hin. exfalso. apply (Hn c). exists j, sh, cs.
  by rewrite Er.
Qed.

Lemma undone_toggle d s e bit :
  range_valid d s e → range_uniform d s e bit → bit ≠ 0%N →
  undone d (ToggleInlineStyle s e bit).
Proof.
  intros Hv Hu Hbit. pose proof Hv as (Hlt & _ & _).
  destruct (apply_toggle_abs d s e bit Hlt) as (d1 & E & A).
  do 2 eexists. split; [exact E|]. intros d1' E1. rewrite A in E1.
  pose proof (range_valid_eq _ _ _ _ _ _ E1 Hv) as Hv1.
  destruct (apply_toggle_abs d1' s e bit Hlt) as (d2 & E2 & A2).
  unfold invert_with_doc. cbn [invert_inner]. do 2 eexists. split; [exact E2|].
  rewrite A2, E1. pose proof (all_text_has_style_spec d s e bit Hv) as S0.
  pose proof (all_text_has_style_spec d1' s e bit Hv1) as S1. rewrite E1 in S1.
  destruct (all_text_has_style d s e bit) eqn:R0.
  - destruct S0 as [S0 _]. specialize (S0 eq_refl).
    destruct (all_text_has_style d1' s e bit) eqn:R1.
    + destruct S1 as [S1 _]. specialize (S1 eq_refl).
      assert (∀ c, ¬ range_cell s e (abs_doc d) c) as Hn.
      { intros c Hc. assert (range_cell s e (toggle_spec true bit s e (abs_doc d))
                               (set_cell true bit c)) as Hc1
          by (apply range_cell_toggle; eauto).
        apply S1 in Hc1. by rewrite set_cell_remove_has in Hc1. }
      rewrite !toggle_spec_no_text; [done|done|by rewrite toggle_spec_no_text].
    + apply (toggle_spec_back true). exact S0.
  - assert (all_text_has_style d1' s e bit = true) as ->.
    { apply S1. intros c (c0 & _ & ->)%range_cell_toggle. apply set_cell_insert_has. }
    apply (toggle_spec_back false). destruct Hu as [Hu|Hu]; [congruence|exact Hu].
Qed.

(** The kinds a block can be given without losing its runs. *)
Definition inline_kind (k : BlockKind) : bool :=
  match k with KParagraph | KHeading _ | KListItem _ => true | _ => false end.

(** The shape a kind gives a block. *)
Definition kind_shape (k : BlockKind) : Shape :=
  match k with KHeading l => SHead l | KListItem o => SItem o 0 | _ => SPara end.

Lemma abs_block_as_kind b rs k :
  block_runs b = Some rs → inline_kind k = true →
  abs_block (block_as_kind b k) = AInline (kind_shape k) (cells rs).
Proof.
  intros Hrs Hk.
  assert (block_as_kind b k = block_as_kind (Paragraph rs) k) as ->.
  { by destruct b, k; simplify_eq/=. }
  destruct k; try discriminate Hk; cbn; by rewrite or_plain_empty_cells.
Qed.

Lemma undone_set_type d i b rs new :
  doc_block d i = Some b → block_runs b = Some rs → inline_kind new = true →
  attr_indent_level (block_attrs b) = 0%N →
  undone d (SetBlockType i (block_kind b) new).
Proof.
  intros Hb Hrs Hn Hind. unfold undone. cbn [apply]. unfold apply_set_block_type.
  rewrite Hb. cbn [mbind option_bind]. do 2 eexists. split; [done|]. intros d1' E1.
  rewrite abs_doc_replace, (abs_block_as_kind b rs new) in E1 by done.
  pose proof (doc_block_abs_inline _ _ _ _ Hb Hrs) as Ha. apply lookup_lt_Some in Ha as Hlt.
  destruct (abs_doc_inline_inv d1' i (kind_shape new) (cells rs))
    as (b1 & r1 & Hb1 & Hr1 & Hs1 & Hc1).
  { rewrite E1. by apply list_lookup_insert_eq. }
  unfold invert_with_doc. cbn [invert_inner apply]. unfold apply_set_block_type.
  rewrite Hb1. cbn [mbind option_bind]. do 2 eexists. split; [done|].
  rewrite abs_doc_replace, (abs_block_as_kind b1 r1), E1, list_insert_insert_eq, Hc1
    by (done || by destruct b).
  rewrite list_insert_id; [done|]. rewrite Ha. do 2 f_equal.
  by destruct b; simpl in Hind |- *; subst.
Qed.

Lemma undone_set_attrs d i b new :
  doc_block d i = Some b → undone d (SetBlockAttrs i (block_attrs b) new).
Proof.
  intros Hb. unfold undone. cbn [apply]. unfold apply_set_block_attrs. rewrite Hb.
  cbn [mbind option_bind]. do 2 eexists. split; [done|]. intros d1' E1.
  unfold invert_with_doc. cbn [invert_inner apply]. unfold apply_set_block_attrs.
  pose proof (abs_doc_lookup _ _ _ Hb) as Ha. apply lookup_lt_Some in Ha as Hlt.
  assert (abs_doc d1' !! i = Some (abs_block (default b (block_with_attrs b new)))) as Ha1.
  { rewrite E1. destruct (block_with_attrs b new) as [b1|]; cbn [from_option]; [|done].
    rewrite abs_doc_replace. by apply list_lookup_insert_eq. }
  apply abs_doc_lookup_inv in Ha1 as (b1' & Hb1 & Eb1). rewrite Hb1.
  cbn [mbind option_bind]. do 2 eexists. split; [done|].
  assert (abs_doc d1' = <[i := abs_block b1']> (abs_doc d)) as E1'.
  { rewrite E1, Eb1. destruct (block_with_attrs b new) as [b1|]; cbn [from_option id].
    - by rewrite abs_doc_replace.
    - symmetry. by apply list_insert_id. }
  assert (match block_with_attrs b1' (block_attrs b) with
          | Some b2 => abs_block b2 = abs_block b
          | None => abs_block b1' = abs_block b
          end) as Hback.
  { clear -Eb1. destruct b, b1'; cbn in *; simplify_eq; cbn; congruence. }
  destruct (block_with_attrs b1' (block_attrs b)) as [b2|].
  - rewrite abs_doc_replace, E1', list_insert_insert_eq, Hback. by apply list_insert_id.
  - rewrite E1', Hback. by apply list_insert_id.
Qed.

Lemma undone_insert_block d i b :
  i ≤ doc_block_count d → blocks d ≠ [] → undone d (InsertBlock i b).
Proof.
  intros Hi Hne. unfold undone. cbn [apply]. unfold apply_insert_block, doc_insert_block.
  assert (vec_insert i b (blocks d) = Some (take i (blocks d) ++ b :: drop i (blocks d))) as ->.
  { apply vec_insert_Some. done. }
  cbn [fmap option_fmap option_map mbind option_bind]. do 2 eexists. split; [done|].
  intros d1' E1. unfold abs_doc in E1 at 2. cbn [blocks] in E1.
  rewrite fmap_app, fmap_cons, fmap_take, fmap_drop in E1. fold (abs_doc d) in E1.
  unfold doc_block_count in *.
  assert (length (blocks d1') = S (length (blocks d))) as Hl.
  { pose proof (length_abs_doc d1') as Hl. unfold doc_block_count in Hl. rewrite <- Hl, E1.
    rewrite length_app. cbn [length]. rewrite length_take, length_drop, length_abs_doc.
    unfold doc_block_count. lia. }
  assert (0 < length (blocks d)) by (destruct (blocks d); simpl; [done|lia]).
  unfold invert_with_doc. cbn [invert_inner apply]. unfold apply_remove_block, doc_block_count.
  destruct (Nat.ltb_spec i (length (blocks d1'))); [|lia].
  unfold doc_remove_block. destruct (Nat.leb_spec (length (blocks d1')) 1); [lia|].
  assert (vec_remove i (blocks d1') = Some (take i (blocks d1') ++ drop (S i) (blocks d1'))) as ->.
  { by apply vec_remove_Some. }
  cbn [mbind option_bind]. do 2 eexists. split; [done|]. unfold abs_doc at 1. cbn [blocks].
  rewrite fmap_app, fmap_take, fmap_drop. fold (abs_doc d1'). rewrite E1.
  rewrite take_splice by (rewrite length_abs_doc; unfold doc_block_count; lia).
  replace (S i) with (i + 1) by lia.
  change (?x :: drop i ?l) with ([x] ++ drop i l).
  rewrite drop_splice by (rewrite ?length_abs_doc; unfold doc_block_count; simpl; lia).
  apply take_drop.
Qed.

Lemma undone_remove_block d i b :
  doc_block d i = Some b → 1 < doc_block_count d → undone d (RemoveBlock i b).
Proof.
  intros Hb Hc. unfold undone, doc_block_count in *. cbn [apply].
  unfold apply_remove_block, doc_block_count. apply lookup_lt_Some in Hb as Hlt.
  destruct (Nat.ltb_spec i (length (blocks d))); [|lia].
  unfold doc_remove_block. destruct (Nat.leb_spec (length (blocks d)) 1); [lia|].
  assert (vec_remove i (blocks d) = Some (take i (blocks d) ++ drop (S i) (blocks d))) as ->.
  { by apply vec_remove_Some. }
  cbn [mbind option_bind]. do 2 eexists. split; [done|]. intros d1' E1.
  unfold abs_doc in E1 at 2. cbn [blocks] in E1.
  rewrite fmap_app, fmap_take, fmap_drop in E1. fold (abs_doc d) in E1.
  pose proof (abs_doc_lookup _ _ _ Hb) as Ha. apply lookup_lt_Some in Ha as Hla.
  assert (i ≤ length (blocks d1')) as Hl.
  { pose proof (length_abs_doc d1') as Hl. unfold doc_block_count in Hl. rewrite <- Hl, E1.
    rewrite length_app, length_take. lia. }
  unfold invert_with_doc. cbn [invert_inner apply]. unfold apply_insert_block, doc_insert_block.
  assert (vec_insert i b (blocks d1') = Some (take i (blocks d1') ++ b :: drop i (blocks d1')))
    as ->.
  { by apply vec_insert_Some. }
  cbn [fmap option_fmap option_map mbind option_bind]. do 2 eexists. split; [done|].
  unfold abs_doc at 1. cbn [blocks]. rewrite fmap_app, fmap_cons, fmap_take, fmap_drop.
  fold (abs_doc d1'). rewrite E1, take_splice by lia.
  rewrite drop_app_length' by (rewrite length_take; lia). by apply take_drop_middle.
Qed.

Lemma undone_replace_block d i old new :
  doc_block d i = Some old → undone d (ReplaceBlock i old new).
Proof.
  intros Hb. unfold undone. cbn [apply]. unfold apply_replace_block, doc_replace_block.
  unfold doc_block in Hb. rewrite Hb. do 2 eexists. split; [done|]. intros d1' E1.
  unfold invert_with_doc. cbn [invert_inner apply]. unfold apply_replace_block, doc_replace_block.
  pose proof (abs_doc_lookup d i old Hb) as Ha. apply lookup_lt_Some in Ha as Hla.
  destruct (abs_doc_lookup_inv d1' i (abs_block new)) as (b1 & Hb1 & _).
  { rewrite E1. unfold abs_doc, vec_set. cbn [blocks]. rewrite list_fmap_insert.
    by apply list_lookup_insert_eq. }
  unfold doc_block in Hb1. rewrite Hb1. do 2 eexists. split; [done|].
  unfold abs_doc at 1, vec_set. cbn [blocks]. rewrite list_fmap_insert. fold (abs_doc d1').
  rewrite E1. unfold abs_doc at 1, vec_set. cbn [blocks]. rewrite list_fmap_insert.
  fold (abs_doc d). rewrite list_insert_insert_eq. by apply list_insert_id.
Qed.

(** ** The operations that can be undone *)

(** A position in the text of an inline block. *)
Definition text_position (d : Document) (p : DocPosition) : Prop :=
  ∃ b rs, doc_block d (block_index p) = Some b ∧ block_runs b = Some rs ∧ rs ≠ []
          ∧ offset p ≤ length (cells rs).

Inductive undoable (d : Document) : EditOp → Prop :=
| undoable_insert p t :
    text_position d p → no_fuse (default [] (runs_at d p)) t → undoable d (InsertText p t)
| undoable_delete s e :
    text_position d s → doc_is_valid_position d e = true → pos_lt s e →
    undoable d (DeleteRange s e (build_deleted_content d s e))
| undoable_split p : text_position d p → undoable d (SplitBlock p)
| undoable_merge i b1 b2 :
    0 < i → doc_block d (i - 1) = Some b1 → block_is_inline b1 = true →
    doc_block d i = Some b2 → undoable d (MergeBlocks i b2 (block_char_len b1))
| undoable_toggle s e bit :
    range_valid d s e → range_uniform d s e bit → bit ≠ 0%N →
    undoable d (ToggleInlineStyle s e bit)
| undoable_type i b new :
    doc_block d i = Some b → block_is_inline b = true → inline_kind new = true →
    attr_indent_level (block_attrs b) = 0%N → undoable d (SetBlockType i (block_kind b) new)
| undoable_attrs i b new :
    doc_block d i = Some b → undoable d (SetBlockAttrs i (block_attrs b) new)
| undoable_insert_block i b :
    i ≤ doc_block_count d → blocks d ≠ [] → undoable d (InsertBlock i b)
| undoable_remove_block i b :
    doc_block d i = Some b → 1 < doc_block_count d → undoable d (RemoveBlock i b)
| undoable_replace_block i old new :
    doc_block d i = Some old → undoable d (ReplaceBlock i old new).

Lemma undoable_undone d op : undoable d op → undone d op.
Proof.
  intros [p t Hp Hf|s e Hs He Hlt|p Hp|i b1 b2 Hi Hb1 Hin Hb2|s e bit ? ? ?
         |i b new Hb Hin Hk Ha|i b new Hb|i b Hi Hne|i b Hb Hc|i old new Hb].
  - destruct Hp as (b & rs & Hb & Hrs & Hne & Ho). destruct p as [i o]. cbn in *.
    unfold runs_at in Hf. cbn [block_index] in Hf. rewrite Hb in Hf. cbn in Hf.
    rewrite Hrs in Hf. by apply (undone_insert d i o t b rs).
  - destruct Hs as (b & rs & Hb & Hrs & Hne & Ho). destruct s as [i o], e as [j eo]. cbn in *.
    destruct Hlt as [Hlt|[Heq Hlt]]; cbn in *.
    + destruct (doc_block d j) as [eb|] eqn:Heb.
      * apply (undone_delete_cross d i o j eo b eb rs); try done.
        by apply (valid_offset d (mkPos j eo)).
      * unfold doc_is_valid_position in He. cbn in He. unfold doc_block in Heb.
        by rewrite Heb in He.
    + subst j. by apply (undone_delete_single d i o eo b rs).
  - destruct Hp as (b & rs & Hb & Hrs & Hne & Ho). destruct p as [i o].
    by apply (undone_split d i o b rs).
  - apply block_is_inline_runs in Hin as [rs Hrs].
    apply (undone_merge d i b1 b2 rs); try done. by apply block_char_len_runs.
  - by apply undone_toggle.
  - apply block_is_inline_runs in Hin as [rs Hrs]. by apply (undone_set_type d i b rs).
  - by apply undone_set_attrs.
  - by apply undone_insert_block.
  - by apply undone_remove_block.
  - by apply undone_replace_block.
Qed.

(** ** Groups of operations *)

(** [EditorState::undo]'s loop: the inverses, last operation first. *)
Fixpoint undo_ops (rev_ops : list EditOp) (d : Document) : option Document :=
  match rev_ops with
  | [] => Some d
  | op :: rest => '(d', _) ← apply (invert_with_doc op d) d; undo_ops rest d'
  end.

(** [d'] is [d] after the operations, where the run structure (and nothing a
    reader sees) may change between them, as normalization does. *)
Inductive edited : Document → list EditOp → Document → Prop :=
| edited_nil d : edited d [] d
| edited_cons d op d1 m d1' ops d' :
    undoable d op → apply op d = Some (d1, m) → abs_doc d1' = abs_doc d1 →
    edited d1' ops d' → edited d (op :: ops) d'.

Lemma undo_ops_app l1 l2 d :
  undo_ops (l1 ++ l2) d = d' ← undo_ops l1 d; undo_ops l2 d'.
Proof.
  revert d. induction l1 as [|op l1 IH]; intros d; [done|]. cbn [app undo_ops].
  destruct (apply (invert_with_doc op d) d) as [[d' m]|]; [apply IH|done].
Qed.

Lemma edited_app d ops1 d1 ops2 d2 :
  edited d ops1 d1 → edited d1 ops2 d2 → edited d (ops1 ++ ops2) d2.
Proof.
  intros H1. revert ops2 d2.
  induction H1 as [d|d op da m da' ops d' Hu Ha Ea He IH]; intros ops2 d2 H2; [done|].
  cbn [app]. econstructor; eauto.
Qed.

Lemma undo_ops_spec d ops d' d1 :
  edited d ops d' → abs_doc d1 = abs_doc d' →
  ∃ d0, undo_ops (rev ops) d1 = Some d0 ∧ abs_doc d0 = abs_doc d.
Proof.
  intros He. revert d1. induction He as [d|d op da m da' ops d' Hu Ha Ea He IH]; intros d1 E1.
  { exists d1. done. }
  destruct (IH d1 E1) as (da1 & E & A). cbn [rev]. rewrite undo_ops_app, E.
  cbn [mbind option_bind undo_ops].
  destruct (undoable_undone d op Hu) as (da0 & m0 & Ha0 & Hback). simplify_eq.
  destruct (Hback da1) as (d0 & m1 & -> & A0); [congruence|].
  cbn [mbind option_bind]. eauto.
Qed.

(** ** Properties *)

(** C12. Undo of one operation: an operation that [undoable] describes applies
    without a panic, and the inverse [invert_with_doc] computes from the
    edited document (whatever its runs were normalized to) applies and
    restores the content of every block. *)
Theorem op_undo_round_trip (d : Document) (op : EditOp) (Hu : undoable d op) :
  ∃ d1 m1, apply op d = Some (d1, m1) ∧
    ∀ d1', abs_doc d1' = abs_doc d1 →
      ∃ d2 m2, apply (invert_with_doc op d1') d1' = Some (d2, m2) ∧ abs_doc d2 = abs_doc d.
Proof. exact (undoable_undone d op Hu). Qed.

(** Undo of a group: the inverses of its operations, applied last operation
    first, restore the content of the document before the group, and
    normalizing restores the document itself when it was normalized. *)
Theorem group_undo_round_trip (d d' d1 : Document) (ops : list EditOp)
    (He : edited d ops d') (E1 : abs_doc d1 = abs_doc d') :
  ∃ d0, undo_ops (rev ops) d1 = Some d0 ∧ abs_doc d0 = abs_doc d
        ∧ (normal_doc d → normalize d0 = d).
Proof.
  destruct (undo_ops_spec d ops d' d1 He E1) as (d0 & E0 & A0). exists d0.
  split_and!; [done|done|]. intros Hn. rewrite <- (normalize_id d Hn).
  apply normalize_canonical. by apply abs_doc_content.
Qed.
End Inverse.

#[local] Existing Instance byte_segmentation.

Definition undo_demo : Document :=
  mkDoc [Heading H1 [run_plain (lit "ab"); run_styled (lit "cd") BOLD]; HorizontalRule;
         ListItem true 0 [run_plain (lit "ef")]].

(** The deletion from inside the heading to inside the list item. *)
Definition undo_demo_op : EditOp :=
  DeleteRange (mkPos 0 3) (mkPos 2 1)
    (build_deleted_content undo_demo (mkPos 0 3) (mkPos 2 1)).

Lemma undo_demo_undoable : undoable undo_demo undo_demo_op.
Proof.
  apply undoable_delete.
  - exists (Heading H1 [run_plain (lit "ab"); run_styled (lit "cd") BOLD]),
      [run_plain (lit "ab"); run_styled (lit "cd") BOLD].
    split_and!; [reflexivity|reflexivity|discriminate|vm_compute; lia].
  - vm_compute. reflexivity.
  - left. simpl. lia.
Defined.

Lemma op_undo_round_trip_witness :
  ∃ d1 m1, apply undo_demo_op undo_demo = Some (d1, m1)
    ∧ ∃ d2 m2, apply (invert_with_doc undo_demo_op d1) d1 = Some (d2, m2)
               ∧ abs_doc d2 = abs_doc undo_demo.
Proof.
  destruct (op_undo_round_trip undo_demo undo_demo_op undo_demo_undoable) as (d1 & m1 & E & Hb).
  exists d1, m1. split; [exact E|]. apply Hb. reflexivity.
Defined.

Lemma group_undo_round_trip_witness :
  ∃ d1 d0, apply_all [undo_demo_op; SplitBlock (mkPos 0 1)] undo_demo = Some d1
    ∧ undo_ops [SplitBlock (mkPos 0 1); undo_demo_op] d1 = Some d0
    ∧ abs_doc d0 = abs_doc undo_demo.
Proof.
  destruct (apply undo_demo_op undo_demo) as [[da ma]|] eqn:Ea; [|vm_compute in Ea; discriminate].
  destruct (apply (SplitBlock (mkPos 0 1)) da) as [[db mb]|] eqn:Eb;
    [|vm_compute in Ea; injection Ea as <- <-; vm_compute in Eb; discriminate].
  destruct (group_undo_round_trip undo_demo db db [undo_demo_op; SplitBlock (mkPos 0 1)])
    as (d0 & E0 & A0 & _); [|reflexivity|].
  - apply (edited_cons _ _ da ma da); [exact undo_demo_undoable|exact Ea|reflexivity|].
    apply (edited_cons _ _ db mb db); [|exact Eb|reflexivity|constructor].
    apply undoable_split. vm_compute in Ea. injection Ea as <- <-.
    do 2 eexists. split; [reflexivity|]. split; [reflexivity|]. split; [discriminate|].
    vm_compute. lia.
  - exists db, d0. split; [|split; [exact E0|exact A0]].
    cbn [apply_all]. rewrite Ea. cbn [mbind option_bind]. rewrite Eb. reflexivity.
Defined.
