(* ===== verification/PlainText.v ===== *)
(** * PlainText: documents in printable ASCII

    On printable ASCII text the clusters are the bytes, so the cells are a
    function of the content: normalization, which may join two runs, keeps
    them.  The conditions on cluster fusion of the edit operations hold. *)

From S2P Require Import Prelude.
From S2P Require Import Graphemes.
From S2P Require Import Document.
From S2P Require Import Cells.
From S2P Require Import Normalize.
From S2P Require Import Operations.
From S2P Require Import InsertTheory.

Definition plain_runs (rs : list StyledRun) : Prop :=
  Forall (λ r, Forall printable (run_text r)) rs.

(** Printable text at every depth, and no quote without a block. *)
Fixpoint plain_block (b : Block) : Prop :=
  match b with
  | Paragraph rs | Heading _ rs | ListItem _ _ rs => plain_runs rs
  | BlockQuote bs =>
      bs ≠ [] ∧ (fix go bs := match bs with [] => True | b :: bs => plain_block b ∧ go bs end) bs
  | HorizontalRule | Image _ _ _ _ => True
  end.

Definition plain_doc (d : Document) : Prop := blocks d ≠ [] ∧ Forall plain_block (blocks d).

Lemma plain_block_quote bs :
  plain_block (BlockQuote bs) ↔ bs ≠ [] ∧ Forall plain_block bs.
Proof.
  cbn [plain_block]. apply and_iff_compat_l. induction bs as [|b bs IH].
  - split; [constructor|done].
  - rewrite Forall_cons. by rewrite IH.
Qed.

Lemma plain_block_runs b rs : plain_block b → block_runs b = Some rs → plain_runs rs.
Proof. by destruct b; intros ? [= <-]. Qed.

Lemma plain_runs_fbytes rs : plain_runs rs ↔ Forall (λ p, printable p.1) (fbytes rs).
Proof.
  unfold plain_runs, fbytes. induction rs as [|r rs IH]; [split; constructor|].
  rewrite Forall_cons, bind_cons, Forall_app, <- IH.
  apply and_iff_compat_r. symmetry. apply Forall_fmap.
Qed.

Section Plain.
Context `{Segmentation}.

Lemma plain_cells rs :
  plain_runs rs → cells rs = (λ p, ([p.1], p.2)) <$> fbytes rs.
Proof.
  induction 1 as [|r rs Hr Hrs IH]; [done|].
  rewrite cells_cons, IH, fbytes_cons, fmap_app. f_equal.
  unfold run_cells. rewrite graphemes_ascii by done. by rewrite <- !list_fmap_compose.
Qed.

Lemma plain_cells_eq rs1 rs2 :
  plain_runs rs1 → fbytes rs2 = fbytes rs1 → plain_runs rs2 ∧ cells rs2 = cells rs1.
Proof.
  intros Hp E. assert (plain_runs rs2) as H2.
  { apply plain_runs_fbytes. rewrite E. by apply plain_runs_fbytes. }
  split; [done|]. by rewrite !plain_cells, E.
Qed.

Lemma normalize_block_plain b :
  plain_block b → plain_block (normalize_block b) ∧ abs_block (normalize_block b) = abs_block b.
Proof.
  induction b as [rs|l rs|o i rs|bs IH| |s a w h] using Block_ind_nested; intros Hb.
  1-3: destruct (plain_cells_eq rs (normalize_runs rs) Hb) as [Hp Hc];
    [apply normalize_runs_fbytes|]; split; [exact Hp|]; cbn; by rewrite Hc.
  - rewrite normalize_block_quote. apply plain_block_quote in Hb as [Hne Hbs].
    assert (normalize_child_blocks normalize_block bs = map normalize_block bs) as ->
      by (by destruct bs).
    rewrite plain_block_quote.
    assert (Forall plain_block (map normalize_block bs)
            ∧ map abs_block (map normalize_block bs) = map abs_block bs) as [Hp Ha].
    { clear Hne. induction IH as [|b bs Hb _ IHs]; [done|].
      apply Forall_cons in Hbs as [Hpb Hbs].
      destruct (Hb Hpb) as [H1 H2], (IHs Hbs) as [H3 H4]. split; [by constructor|].
      cbn [map]. by rewrite H2, H4. }
    split; [split; [by destruct bs|done]|]. cbn [abs_block abs_with]. f_equal. exact Ha.
  - done.
  - done.
Qed.

Lemma normalize_blocks_plain d dirty :
  plain_doc d →
  plain_doc (normalize_blocks d dirty) ∧ abs_doc (normalize_blocks d dirty) = abs_doc d.
Proof.
  intros [Hne Hp]. rewrite normalize_blocks_spec. unfold plain_doc, abs_doc. cbn [blocks].
  rewrite at_least_one_id by done. split_and!.
  - by apply normalized_at_ne.
  - apply Forall_lookup. intros i b. unfold normalized_at. rewrite list_lookup_imap.
    destruct (blocks d !! i) as [b0|] eqn:E; [|done]. intros [= <-].
    rewrite Forall_lookup in Hp. specialize (Hp i b0 E).
    case_decide; [by apply normalize_block_plain|done].
  - apply list_eq. intros i. unfold normalized_at. rewrite !list_lookup_fmap, list_lookup_imap.
    destruct (blocks d !! i) as [b0|] eqn:E; [|done]. cbn. f_equal.
    rewrite Forall_lookup in Hp. specialize (Hp i b0 E).
    case_decide; [by apply normalize_block_plain|done].
Qed.

Lemma normalize_plain d :
  plain_doc d → plain_doc (normalize d) ∧ abs_doc (normalize d) = abs_doc d.
Proof.
  intros Hp. unfold normalize. rewrite at_least_one_id by apply Hp.
  destruct d as [bs]. by apply normalize_blocks_plain.
Qed.

Lemma plain_no_fuse rs t : plain_runs rs → Forall printable t → no_fuse rs t.
Proof. intros. by apply no_fuse_ascii. Qed.

(** The content decides plainness and the cells. *)
Lemma abs_block_plain b1 b2 :
  plain_block b1 → abs_block b2 = abs_block b1 → plain_block b2.
Proof.
  revert b2. induction b1 as [rs|l rs|o i rs|bs IH| |s a w h] using Block_ind_nested;
    intros b2 Hb E; destruct b2 as [rs2|l2 rs2|o2 i2 rs2|bs2| |s2 a2 w2 h2]; try done;
    cbn in E; try (apply plain_runs_fbytes; injection E; intros; 
      rewrite <- cells_fbytes_cells; simplify_eq; 
      match goal with Hc : cells _ = cells _ |- _ => rewrite Hc end;
      rewrite cells_fbytes_cells; by apply plain_runs_fbytes).
  injection E as E. apply plain_block_quote in Hb as [Hne Hbs]. apply plain_block_quote.
  split; [by destruct bs, bs2|]. clear Hne. revert bs2 E.
  induction IH as [|b bs Hb _ IHs]; intros [|b2 bs2] E; try done.
  apply Forall_cons in Hbs as [Hpb Hbs]. injection E as E1 E2.
  constructor; [by apply Hb|by apply IHs].
Qed.

Lemma abs_doc_plain d1 d2 : plain_doc d1 → abs_doc d2 = abs_doc d1 → plain_doc d2.
Proof.
  intros [Hne Hp] E. unfold plain_doc, abs_doc in *. split; [by destruct (blocks d1), (blocks d2)|].
  revert E. generalize (blocks d2). clear Hne. induction Hp as [|b bs Hb _ IH]; intros [|b2 bs2] E;
    try done. injection E as E1 E2. constructor; [by eapply abs_block_plain|by apply IH].
Qed.

(** Plainness of cells, which the edits cut and concatenate. *)
Definition plain_cells_of (cs : list Cell) : Prop := Forall (λ c, Forall printable c.1) cs.

Lemma plain_runs_cells rs : plain_runs rs ↔ plain_cells_of (cells rs).
Proof.
  rewrite plain_runs_fbytes, <- cells_fbytes_cells. unfold plain_cells_of, cells_fbytes.
  induction (cells rs) as [|c cs IH]; [split; constructor|].
  rewrite Forall_cons, bind_cons, Forall_app, IH.
  apply and_iff_compat_r. apply Forall_fmap.
Qed.

Lemma plain_fmt_cells f t : Forall printable t → plain_cells_of (fmt_cells f t).
Proof.
  intros Ht. unfold fmt_cells, plain_cells_of. rewrite graphemes_ascii by done.
  rewrite <- list_fmap_compose. apply Forall_fmap. eapply Forall_impl; [exact Ht|].
  intros c Hc. by constructor.
Qed.

Lemma plain_doc_cells d i sh cs :
  plain_doc d → abs_doc d !! i = Some (AInline sh cs) → plain_cells_of cs.
Proof.
  intros [_ Hp] (b & rs & Hb & Hrs & _ & <-)%abs_doc_inline_inv. apply plain_runs_cells.
  eapply plain_block_runs; [|done]. rewrite Forall_lookup in Hp. by eapply Hp.
Qed.

(** A document is plain when each block is one of a plain document or an
    inline block of plain cells. *)
Lemma plain_from_abs d d1 :
  plain_doc d → blocks d1 ≠ [] →
  (∀ ab, ab ∈ abs_doc d1 → ab ∈ abs_doc d
     ∨ ∃ sh cs, ab = AInline sh cs ∧ plain_cells_of cs) →
  plain_doc d1.
Proof.
  intros [_ Hp] Hne Hab. split; [done|]. apply Forall_lookup. intros i b Hb.
  pose proof (abs_doc_lookup d1 i b Hb) as Ha. apply list_elem_of_lookup_2 in Ha as Hin.
  destruct (Hab _ Hin) as [Hd|(sh & cs & E & Hcs)].
  - apply list_elem_of_lookup in Hd as [j Hj]. apply abs_doc_lookup_inv in Hj as (b0 & Hb0 & E).
    rewrite Forall_lookup in Hp. eapply abs_block_plain; [|by symmetry]. by eapply Hp.
  - apply abs_block_inline_inv in E as (rs & Hrs & _ & <-). apply plain_runs_cells in Hcs.
    by destruct b; simplify_eq/=.
Qed.

Lemma plain_insert_abs d d1 i sh cs :
  plain_doc d → blocks d1 ≠ [] → abs_doc d1 = <[i := AInline sh cs]> (abs_doc d) →
  plain_cells_of cs → plain_doc d1.
Proof.
  intros Hd Hne E Hcs. eapply plain_from_abs; [done|done|]. rewrite E.
  intros ab Hin%list_elem_of_lookup. destruct Hin as [j Hj].
  apply list_lookup_insert_Some in Hj as [(-> & <- & _)|[_ Hj]]; [eauto|].
  left. by eapply list_elem_of_lookup_2.
Qed.
End Plain.
