(* ===== verification/WellFormed.v ===== *)
(** * WellFormed: the invariant of the document between edits

    A document has a block, and every inline block has a run to type into.
    Every operation the editor emits preserves it. *)

From S2P Require Import Prelude.
From S2P Require Import Graphemes.
From S2P Require Import Document.
From S2P Require Import Cells.
From S2P Require Import Normalize.
From S2P Require Import Operations.
From S2P Require Import OperationsTheory.
From S2P Require Import ToggleTheory.
From S2P Require Import InsertTheory.

Definition wf_block (b : Block) : Prop := block_runs b ≠ Some [].
Definition wf_blocks (bs : list Block) : Prop := Forall wf_block bs.
Definition wf_doc (d : Document) : Prop := blocks d ≠ [] ∧ wf_blocks (blocks d).

Lemma wf_block_atomic b : block_runs b = None → wf_block b.
Proof. unfold wf_block. by intros ->. Qed.

Lemma wf_with_runs_like b rs : rs ≠ [] → wf_block (block_with_runs_like b rs).
Proof. unfold wf_block. destruct b; cbn; congruence. Qed.

Lemma wf_set_runs b rs : rs ≠ [] → wf_block (block_set_runs b rs).
Proof. unfold wf_block. destruct b; cbn; congruence. Qed.

Lemma wf_empty_paragraph : wf_block block_empty_paragraph.
Proof. done. Qed.

Lemma wf_normal_block b : normal_block b → wf_block b.
Proof.
  unfold wf_block. intros Hn E. apply (normal_block_inline b []) in Hn; [|done].
  by destruct Hn as [Hn|[Hn _]].
Qed.

Create HintDb wf.
#[export] Hint Resolve wf_with_runs_like wf_set_runs wf_empty_paragraph or_plain_empty_ne : wf.

Lemma wf_lookup bs i b : wf_blocks bs → bs !! i = Some b → wf_block b.
Proof. unfold wf_blocks. rewrite Forall_lookup. eauto. Qed.

Lemma wf_vec_set bs i b : wf_blocks bs → wf_block b → wf_blocks (vec_set i b bs).
Proof. intros. by apply Forall_insert. Qed.

Lemma wf_vec_insert bs i b bs' :
  wf_blocks bs → wf_block b → vec_insert i b bs = Some bs' → wf_blocks bs' ∧ bs' ≠ [].
Proof.
  intros Hbs Hb (_ & ->)%vec_insert_Some. split; [|by destruct (take i bs)].
  apply Forall_app. split; [by apply Forall_take|]. constructor; [done|by apply Forall_drop].
Qed.

Lemma wf_vec_remove bs i bs' : wf_blocks bs → vec_remove i bs = Some bs' → wf_blocks bs'.
Proof.
  intros Hbs (_ & ->)%vec_remove_Some.
  apply Forall_app. split; [by apply Forall_take|by apply Forall_drop].
Qed.

Lemma wf_iter_remove n i bs bs' :
  wf_blocks bs → iter_opt n (vec_remove i) bs = Some bs' → wf_blocks bs'.
Proof.
  revert bs. induction n as [|n IH]; intros bs Hbs; cbn [iter_opt]; [by intros [= <-]|].
  destruct (vec_remove i bs) as [bs1|] eqn:E; [|done]. cbn [mbind option_bind].
  apply IH. by eapply wf_vec_remove.
Qed.

(** Removals at [S i] keep block [i]. *)
Lemma iter_remove_ne {A} n i (l l' : list A) :
  i < length l → iter_opt n (vec_remove (i + 1)) l = Some l' → l' ≠ [].
Proof.
  revert l. induction n as [|n IH]; intros l Hi; cbn [iter_opt].
  { intros [= <-] ->. simpl in Hi. lia. }
  destruct (vec_remove (i + 1) l) as [l1|] eqn:E; [|done]. cbn [mbind option_bind].
  apply IH. apply vec_remove_Some in E as (Hl & ->).
  rewrite length_app, length_take. lia.
Qed.

Lemma wf_vec_insert_seq bs i xs bs' :
  wf_blocks bs → wf_blocks xs → vec_insert_seq i xs bs = Some bs' →
  wf_blocks bs' ∧ (xs ≠ [] → bs' ≠ []).
Proof.
  revert i bs. induction xs as [|x xs IH]; intros i bs Hbs Hxs; cbn [vec_insert_seq].
  { by intros [= <-]. }
  apply Forall_cons in Hxs as [Hx Hxs].
  destruct (vec_insert i x bs) as [bs1|] eqn:E; [|done]. cbn [mbind option_bind].
  eapply wf_vec_insert in E as [Hw Hne]; [|done..]. intros E.
  destruct (IH _ _ Hw Hxs E) as [Hw' Hne']. split; [done|]. intros _.
  destruct xs; [by injection E as <-|by apply Hne'].
Qed.

Section WellFormed.
Context `{Segmentation}.

Lemma split_runs_at_go_len rs pos i o rs' k :
  split_runs_at_go rs pos i o = (rs', k) → length rs ≤ length rs'.
Proof.
  revert pos i rs' k. induction rs as [|r rs IH]; intros pos i rs' k; cbn [split_runs_at_go].
  { intros [= <- <-]. done. }
  destruct (pos =? o); [by intros [= <- <-]|].
  destruct (o <? pos + run_char_len r).
  - destruct (run_split_at r (o - pos)). intros [= <- <-]. simpl. lia.
  - destruct (split_runs_at_go rs _ (i + 1) o) as [rest k'] eqn:E. intros [= <- <-].
    apply IH in E. simpl. lia.
Qed.

Lemma isolate_runs_len rs a z rs' r :
  isolate_runs rs a z = Some (rs', r) → length rs ≤ length rs'.
Proof.
  unfold isolate_runs. destruct (z <? a); [done|].
  destruct (is_nil rs || (a =? z)); [by intros [= <- <-]|].
  destruct (split_runs_at rs a) as [rs1 i] eqn:E1.
  destruct (split_runs_at rs1 z) as [rs2 j] eqn:E2. intros [= <- <-].
  apply split_runs_at_go_len in E1, E2. lia.
Qed.

Lemma wf_toggle_block remove s e bit bi d d' :
  wf_doc d → toggle_block remove s e bit bi d = Some d' → wf_doc d'.
Proof.
  intros [Hne Hw]. unfold toggle_block.
  destruct (doc_block d bi) as [b|] eqn:Hb; [|by intros [= <-]].
  destruct (block_runs b) as [rs|] eqn:Hrs; [|by intros [= <-]].
  destruct (range_in_block s e bi b) as [a z].
  destruct (z <=? a); [by intros [= <-]|].
  destruct (isolate_runs rs a z) as [[rs' [i j]]|] eqn:E; [|done].
  cbn [mbind option_bind]. intros [= <-]. split; cbn [doc_replace_block fst blocks].
  - unfold vec_set. intros Hn%(f_equal length). rewrite length_insert in Hn.
    by destruct (blocks d).
  - apply wf_vec_set; [done|]. apply wf_set_runs. intros Hn%(f_equal length).
    rewrite !length_app, length_fmap, !length_take, !length_drop in Hn. simpl in Hn.
    pose proof (isolate_runs_len _ _ _ _ _ E) as Hl.
    apply isolate_runs_spec in E as (_ & _ & Hij & _).
    pose proof (wf_lookup _ _ _ Hw Hb) as Hbw. unfold wf_block in Hbw. rewrite Hrs in Hbw.
    destruct rs; [done|]. simpl in Hl. lia.
Qed.

Lemma wf_toggle_blocks remove s e bit bis d d' :
  wf_doc d → toggle_blocks remove s e bit bis d = Some d' → wf_doc d'.
Proof.
  revert d. induction bis as [|bi bis IH]; intros d Hd; cbn [toggle_blocks]; [by intros [= <-]|].
  destruct (toggle_block remove s e bit bi d) as [d1|] eqn:E; [|done].
  cbn [mbind option_bind]. apply IH. by eapply wf_toggle_block.
Qed.

(** ** The operations *)

Lemma wf_replace d i b : wf_doc d → wf_block b → wf_doc (doc_replace_block d i b).1.
Proof.
  intros [Hne Hw] Hb. split; cbn [doc_replace_block fst blocks]; [|by apply wf_vec_set].
  unfold vec_set. intros Hn%(f_equal length). rewrite length_insert in Hn.
  by destruct (blocks d).
Qed.

Lemma wf_doc_block d i b : wf_doc d → doc_block d i = Some b → wf_block b.
Proof. intros [_ Hw]. by apply wf_lookup. Qed.

Lemma apply_insert_text_wf d p t d' m :
  wf_doc d → doc_is_valid_position d p = true →
  apply_insert_text d p t = Some (d', m) → wf_doc d'.
Proof.
  intros Hd Hv E. unfold apply_insert_text in E. inv_run E; [|done].
  apply wf_replace; [done|]. apply wf_set_runs.
  rename E0 into Hb, E1 into Hrs. pose proof (wf_doc_block _ _ _ Hd Hb) as Hw.
  destruct (insert_text_into_runs_spec l (offset p) t) as (f & Hi & _);
    [|by rewrite <- (block_char_len_runs _ _ Hrs); eapply valid_offset|by eapply ins_ne].
  unfold wf_block in Hw. congruence.
Qed.

Lemma apply_single_block_delete_wf d s e d' m :
  wf_doc d → apply_single_block_delete d s e = Some (d', m) → wf_doc d'.
Proof.
  intros Hd E. unfold apply_single_block_delete in E. inv_run E.
  - apply wf_replace; auto with wf.
  - apply wf_replace; auto with wf.
  - split; cbn [blocks]; [|by eapply wf_vec_remove; [apply Hd|]].
    match goal with Hr : vec_remove _ _ = Some _ |- _ =>
      apply vec_remove_Some in Hr as (Hi & ->) end.
    intros Hn%(f_equal length). rewrite length_app, length_take, length_drop in Hn.
    match goal with Hc : (doc_block_count _ =? 1) = false |- _ =>
      apply Nat.eqb_neq in Hc; unfold doc_block_count in Hc end. simpl in Hn. lia.
  - done.
Qed.

Lemma apply_cross_block_delete_wf d s e d' m :
  wf_doc d → apply_cross_block_delete d s e = Some (d', m) → wf_doc d'.
Proof.
  intros Hd E. unfold apply_cross_block_delete in E. inv_run E.
  - assert (wf_block b1) as Hb1.
    { match goal with Hc : build_cross_delete_replacement _ _ _ _ = Some _ |- _ =>
        unfold build_cross_delete_replacement in Hc; inv_run Hc end; auto with wf. }
    match goal with Hi : iter_opt _ _ _ = Some _ |- _ => rename Hi into Hit end.
    pose proof (wf_replace d (block_index s) b1 Hd Hb1) as [_ Hw].
    split; cbn [blocks]; [|by eapply wf_iter_remove].
    eapply iter_remove_ne; [|exact Hit]. cbn [doc_replace_block fst blocks].
    unfold vec_set. rewrite length_insert. by eapply lookup_lt_Some.
  - split; cbn [blocks]; [by destruct l|].
    destruct l; [by repeat constructor|].
    eapply wf_iter_remove; [apply Hd|done].
Qed.

(** The content of a deletion that a restore writes back. *)
Definition del_wf (del : DeletedContent) : Prop :=
  wf_blocks (del_blocks del)
  ∧ ∀ t, end_tail del = Some t → ∃ rs, block_runs t = Some rs ∧ rs ≠ [].

Lemma apply_restore_single_wf d p b0 d' m :
  wf_doc d → wf_block b0 → apply_restore_single d p b0 = Some (d', m) → wf_doc d'.
Proof.
  intros Hd Hb E. unfold apply_restore_single in E. inv_run E.
  - apply wf_replace; [done|]. destruct (block_runs b); [auto with wf|by eapply wf_doc_block].
  - by apply wf_replace.
  - split; cbn [blocks]; eapply wf_vec_insert; (done || apply Hd).
Qed.

Lemma apply_restore_cross_wf d p first mid lastb tail d' m :
  wf_doc d → wf_blocks (first :: mid ++ [lastb]) →
  apply_restore_cross d p first mid lastb tail = Some (d', m) → wf_doc d'.
Proof.
  intros Hd (_ & [Hm [Hl _]%Forall_cons]%Forall_app)%Forall_cons E.
  unfold apply_restore_cross in E. inv_step E; [|done]. inv_step E; [|done]. inv_step E; [|done].
  injection E as <- <-. rename E2 into Hins, E1 into Hrem.
  eapply wf_vec_insert_seq in Hins as [Hw Hne].
  - split; [by apply Hne|done].
  - eapply wf_vec_remove; [apply Hd|done].
  - constructor; [apply wf_with_runs_like, or_plain_empty_ne|].
    apply Forall_app. split; [done|]. apply Forall_singleton.
    destruct (block_is_inline lastb); [apply wf_with_runs_like, or_plain_empty_ne|done].
Qed.

Lemma apply_restore_from_atomic_wf d p first mid lastb tail d' m :
  wf_doc d → wf_blocks (first :: mid ++ [lastb]) →
  (∀ t, tail = Some t → ∃ rs, block_runs t = Some rs ∧ rs ≠ []) →
  apply_restore_from_atomic d p first mid lastb tail = Some (d', m) → wf_doc d'.
Proof.
  intros Hd (Hf & [Hm [Hl _]%Forall_cons]%Forall_app)%Forall_cons Ht E.
  unfold apply_restore_from_atomic in E. inv_step E; [|done]. inv_step E; [|done].
  injection E as <- <-. rename E1 into Hins, E0 into Hrem.
  eapply wf_vec_insert_seq in Hins as [Hw Hne].
  - split; [by apply Hne|done].
  - destruct (_ && _ && _); [constructor|].
    destruct (_ && _) in Hrem; [eapply wf_vec_remove; [apply Hd|done]|].
    injection Hrem as <-. apply Hd.
  - constructor; [done|]. apply Forall_app. split; [done|]. apply Forall_singleton.
    destruct tail as [t|]; [|done]. apply wf_with_runs_like.
    destruct (Ht t eq_refl) as (rs & -> & Hrs). cbn [from_option id].
    intros [_ ?]%app_eq_nil. done.
Qed.

Lemma removelast_last_split {A} (x : A) l : l ≠ [] → l = removelast l ++ [List.last l x].
Proof. intros. by apply app_removelast_last. Qed.

Lemma apply_restore_deleted_wf d p del d' m :
  wf_doc d → del_wf del → apply_restore_deleted d p del = Some (d', m) → wf_doc d'.
Proof.
  intros Hd [Hbs Ht] E. unfold apply_restore_deleted in E.
  destruct (del_blocks del) as [|b0 [|b1 rest]]; [done| |].
  { apply Forall_cons in Hbs as [Hbs _]. by eapply apply_restore_single_wf. }
  rewrite (removelast_last_split b0 (b1 :: rest)) in Hbs by done.
  destruct (block_is_inline b0);
    [by eapply apply_restore_cross_wf|by eapply apply_restore_from_atomic_wf].
Qed.

Lemma split_block_at_wf b o b1 b2 :
  wf_block b → split_block_at b o = (b1, b2) → wf_block b1 ∧ wf_block b2.
Proof.
  intros Hb. unfold wf_block.
  destruct b; cbn [split_block_at]; try (intros [= <- <-]; by split);
    destruct (split_runs_at_offset _ o) as [l r] eqn:Es; intros [= <- <-];
    apply split_runs_at_offset_cells in Es as (_ & _ & Hl & Hr); cbn; split; congruence.
Qed.

Lemma apply_split_block_wf d p d' m :
  wf_doc d → apply_split_block d p = Some (d', m) → wf_doc d'.
Proof.
  intros Hd E. unfold apply_split_block in E. inv_step E; [|done].
  destruct (split_block_at b (offset p)) as [b1 b2] eqn:Es. inv_run E.
  apply split_block_at_wf in Es as [H1 H2]; [|by eapply wf_doc_block].
  pose proof (wf_replace d (block_index p) b1 Hd H1) as [_ Hw].
  split; cbn [blocks]; eapply wf_vec_insert; eauto.
Qed.

Lemma apply_merge_blocks_wf d i mo d' m :
  wf_doc d → apply_merge_blocks d i mo = Some (d', m) → wf_doc d'.
Proof.
  intros Hd E. unfold apply_merge_blocks in E. inv_run E.
  rename E0 into Hi, E1 into Hl, E4 into Hrem.
  assert (wf_block (merge_two_blocks b b0)) as Hb.
  { unfold merge_two_blocks, wf_block.
    destruct b; cbn; intros [= Hn]; by eapply or_plain_empty_ne. }
  pose proof (wf_replace d (i - 1) _ Hd Hb) as [_ Hw].
  split; cbn [blocks]; [|by eapply wf_vec_remove].
  apply vec_remove_Some in Hrem as (Hlt & ->). intros Hn%(f_equal length).
  apply negb_false_iff, Nat.ltb_lt in Hi.
  rewrite length_app, length_take in Hn. cbn [length] in Hn. lia.
Qed.

Lemma block_as_kind_wf b k : wf_block (block_as_kind b k).
Proof.
  unfold wf_block. destruct k; cbn; try done; intros [= Hn]; by eapply or_plain_empty_ne.
Qed.

Lemma block_with_attrs_wf b a b' :
  wf_block b → block_with_attrs b a = Some b' → wf_block b'.
Proof. unfold wf_block. by destruct b; intros ? [= <-]. Qed.

(** The operations the editor applies: every operation but the one that only
    an undo makes, with valid positions and blocks in the invariant. *)
Definition op_wf (d : Document) (op : EditOp) : Prop :=
  match op with
  | InsertText p _ => doc_is_valid_position d p = true
  | DeleteRange s e del => s = e → del_wf del
  | InsertBlock _ b => wf_block b
  | ReplaceBlock _ _ new => wf_block new
  | RestoreMergedBlock _ _ _ => False
  | _ => True
  end.

Lemma apply_wf d op d' m :
  wf_doc d → op_wf d op → apply op d = Some (d', m) → wf_doc d'.
Proof.
  intros Hd Hop E. destruct op; cbn [apply] in E; cbn [op_wf] in Hop.
  - by eapply apply_insert_text_wf.
  - unfold apply_delete_range in E. inv_step E; [done|].
    inv_step E.
    { apply andb_true_iff in E1 as [Hse _]. apply bool_decide_eq_true in Hse.
      eapply apply_restore_deleted_wf; eauto. }
    inv_step E; [by eapply apply_single_block_delete_wf|by eapply apply_cross_block_delete_wf].
  - by eapply apply_split_block_wf.
  - by eapply apply_merge_blocks_wf.
  - unfold apply_toggle_inline_style in E. inv_run E. by eapply wf_toggle_blocks.
  - unfold apply_set_block_type in E. inv_run E. apply wf_replace; [done|].
    apply block_as_kind_wf.
  - unfold apply_set_block_attrs in E. inv_step E; [|done]. injection E as <- <-.
    destruct (block_with_attrs b new) as [b'|] eqn:Eb; [|done].
    apply wf_replace; [done|]. eapply block_with_attrs_wf; [|done]. by eapply wf_doc_block.
  - unfold apply_insert_block, doc_insert_block in E.
    destruct (vec_insert index b (blocks d)) as [bs|] eqn:Ei; [|done].
    injection E as <- <-. split; eapply wf_vec_insert; (done || apply Hd).
  - unfold apply_remove_block, doc_remove_block in E. inv_step E; [|by injection E as <- <-].
    destruct (length (blocks d) <=? 1) eqn:El; cbn in E; [by injection E as <- <-|].
    destruct (vec_remove index (blocks d)) as [bs|] eqn:Er; [|done]. cbn in E.
    injection E as <- <-. split; cbn [blocks]; [|by eapply wf_vec_remove; [apply Hd|]].
    apply vec_remove_Some in Er as (Hlt & ->). intros Hn%(f_equal length).
    apply Nat.leb_gt in El. rewrite length_app, length_take, length_drop in Hn. simpl in Hn. lia.
  - unfold apply_replace_block in E. destruct (doc_replace_block d index new) as [d1 [o|]] eqn:Er;
      [|done]. injection E as <- <-.
    change d1 with (d1, Some o).1. rewrite <- Er. by apply wf_replace.
  - done.
Qed.

(** ** Properties *)

(** C39. Every operation the editor emits keeps the document invariant: there is
    a block, and each inline block has a run to type into.  (Without a run
    [InsertText] would drop the text.) *)
Theorem apply_preserves_invariant (d d' : Document) (op : EditOp) (m : PosMap)
    (Hd : wf_doc d) (Hop : op_wf d op) (E : apply op d = Some (d', m)) : wf_doc d'.
Proof. by eapply apply_wf. Qed.
End WellFormed.

#[local] Existing Instance byte_segmentation.

Definition wf_demo : Document := mkDoc [HorizontalRule; Paragraph [run_plain (lit "ab")]].

Lemma apply_preserves_invariant_witness :
  apply (DeleteRange (mkPos 0 0) (mkPos 1 2) (mkDeleted [] None)) wf_demo
    = Some (mkDoc [block_empty_paragraph], mkPosMap 0 [] (Some (RemoveRange 0 2)))
  ∧ wf_doc (mkDoc [block_empty_paragraph]).
Proof.
  assert (apply (DeleteRange (mkPos 0 0) (mkPos 1 2) (mkDeleted [] None)) wf_demo
    = Some (mkDoc [block_empty_paragraph], mkPosMap 0 [] (Some (RemoveRange 0 2)))) as E
    by (vm_compute; reflexivity).
  split; [exact E|].
  refine (apply_preserves_invariant wf_demo _ _ _ _ _ E).
  - split; [discriminate|]. repeat constructor; discriminate.
  - simpl. discriminate.
Defined.
