(* ===== verification/RulesTheory.v ===== *)
(** * RulesTheory: the rules resolve to operations that apply and undo

    On a document in the invariant and a selection that starts in text, the
    operations of [Rules.resolve] apply without a panic, the typed text gets the
    style the rules decided, and every operation can be undone. *)

From S2P Require Import Prelude.
From S2P Require Import Graphemes.
From S2P Require Import Document.
From S2P Require Import Cells.
From S2P Require Import Normalize.
From S2P Require Import Operations.
From S2P Require Import OperationsTheory.
From S2P Require Import ToggleTheory.
From S2P Require Import InsertTheory.
From S2P Require Import Rules.
From S2P Require Import InverseTheory.
From S2P Require Import PlainText.
From S2P Require Import WellFormed.

Definition named_bit (b : InlineStyle) : Prop := b ∈ [BOLD; ITALIC; UNDERLINE; STRIKETHROUGH].

Lemma named_bit_ne b : named_bit b → b ≠ 0%N.
Proof. unfold named_bit. intros Hb ->. by repeat (apply elem_of_cons in Hb as [Hb|Hb]; [done|]); apply elem_of_nil in Hb. Qed.

(** A named flag is a single bit: a style has it or has nothing of it. *)
Lemma named_bit_dec σ b : named_bit b → style_contains σ b = true ∨ N.land σ b = 0%N.
Proof.
  unfold named_bit, style_contains. intros Hb.
  assert (∃ k, b = (2 ^ k)%N) as [k ->].
  { repeat (apply elem_of_cons in Hb as [->|Hb];
      [first [by exists 0%N|by exists 1%N|by exists 2%N|by exists 3%N]|]).
    by apply elem_of_nil in Hb. }
  destruct (N.testbit σ k) eqn:E; [left; apply N.eqb_eq|right]; apply N.bits_inj; intros n;
    rewrite N.land_spec, ?N.bits_0, N.pow2_bits_eqb;
    destruct (N.eqb_spec k n) as [->|]; rewrite ?E; by rewrite ?andb_false_r.
Qed.

Create HintDb plain.

Section RulesTheory.
Context `{Segmentation}.

(** The operations apply one after the other, and each can be undone. *)
Definition ran (d : Document) (ops : list EditOp) (d' : Document) : Prop :=
  edited d ops d' ∧ apply_all ops d = Some d'.

Lemma ran_nil d : ran d [] d.
Proof. split; [constructor|done]. Qed.

Lemma ran_cons d op d1 m ops d' :
  undoable d op → apply op d = Some (d1, m) → ran d1 ops d' → ran d (op :: ops) d'.
Proof.
  intros Hu E [He Ha]. split; [by econstructor|]. cbn [apply_all]. by rewrite E.
Qed.

Lemma apply_all_app ops1 ops2 d :
  apply_all (ops1 ++ ops2) d = d' ← apply_all ops1 d; apply_all ops2 d'.
Proof.
  revert d. induction ops1 as [|op ops1 IH]; intros d; [done|]. cbn [app apply_all].
  destruct (apply op d) as [[d1 m]|]; [apply IH|done].
Qed.

Lemma ran_app d ops1 d1 ops2 d2 : ran d ops1 d1 → ran d1 ops2 d2 → ran d (ops1 ++ ops2) d2.
Proof.
  intros [E1 A1] [E2 A2]. split; [by eapply edited_app|]. by rewrite apply_all_app, A1.
Qed.

(** ** The style fixups of an insertion *)

(** The cells of one block's range, formatted with one style. *)
Definition set_range_style (σ : InlineStyle) : Cell → Cell := λ c, (c.1, (σ, c.2.2)).

Lemma range_cell_one d i o z sh cs c :
  abs_doc d !! i = Some (AInline sh cs) →
  range_cell (mkPos i o) (mkPos i z) (abs_doc d) c ↔ c ∈ in_range o z cs.
Proof.
  intros Ha. unfold range_cell, abs_range. cbn [block_index offset]. split.
  - intros (bi & sh' & cs' & Hbi & Hl & Hc). assert (bi = i) as -> by lia.
    rewrite Nat.eqb_refl in Hc. by simplify_eq.
  - intros Hc. exists i, sh, cs. rewrite Nat.eqb_refl. split_and!; [lia|lia|done|done].
Qed.

Lemma toggle_spec_one remove bit i o z ad sh cs :
  ad !! i = Some (AInline sh cs) →
  toggle_spec remove bit (mkPos i o) (mkPos i z) ad
  = <[i := AInline sh (map_range (set_cell remove bit) o z cs)]> ad.
Proof.
  intros Ha. apply lookup_lt_Some in Ha as Hlt. unfold toggle_spec. apply list_eq. intros j.
  rewrite list_lookup_imap. cbn [block_index]. destruct (decide (j = i)) as [->|Hj].
  - rewrite list_lookup_insert_eq by done. rewrite Ha. cbn [fmap option_fmap option_map].
    rewrite decide_True by lia. unfold toggle_at, abs_range. cbn [block_index offset].
    by rewrite Nat.eqb_refl.
  - rewrite list_lookup_insert_ne by done. destruct (ad !! j); [|done].
    cbn [fmap option_fmap option_map]. by rewrite decide_False by lia.
Qed.

Lemma valid_abs d i o sh cs :
  abs_doc d !! i = Some (AInline sh cs) →
  doc_is_valid_position d (mkPos i o) = (o <=? length cs).
Proof.
  intros (b & rs & Hb & Hrs & <- & <-)%abs_doc_inline_inv. unfold doc_is_valid_position.
  cbn [block_index offset]. rewrite Hb. by rewrite (block_char_len_runs b rs).
Qed.

Lemma named_toggle_style σ bit :
  named_bit bit →
  (if style_contains σ bit then style_remove σ bit else style_insert σ bit) = N.lxor σ bit.
Proof.
  intros Hb. destruct (named_bit_dec σ bit Hb) as [Hc|Hc].
  - rewrite Hc. unfold style_contains in Hc. apply N.eqb_eq in Hc. unfold style_remove.
    apply N.bits_inj. intros n. apply (f_equal (λ x, N.testbit x n)) in Hc.
    rewrite N.land_spec in Hc. rewrite N.ldiff_spec, N.lxor_spec.
    by destruct (N.testbit σ n), (N.testbit bit n).
  - assert (style_contains σ bit = false) as ->.
    { unfold style_contains. rewrite Hc. apply N.eqb_neq. intros E.
      by apply (named_bit_ne bit Hb). }
    unfold style_insert. apply N.bits_inj. intros n.
    apply (f_equal (λ x, N.testbit x n)) in Hc. rewrite N.land_spec, N.bits_0 in Hc.
    rewrite N.lor_spec, N.lxor_spec. by destruct (N.testbit σ n), (N.testbit bit n).
Qed.

(** Toggling named flags one after the other over a range of one style. *)
Lemma toggles_edited d i o z sh cs σ bits :
  wf_doc d → abs_doc d !! i = Some (AInline sh cs) → o < z → z ≤ length cs →
  (∀ c : Cell, c ∈ in_range o z cs → c.2.1 = σ) → Forall named_bit bits →
  ∃ d', ran d (ToggleInlineStyle (mkPos i o) (mkPos i z) <$> bits) d'
    ∧ wf_doc d'
    ∧ abs_doc d' = <[i := AInline sh
                      (map_range (set_range_style (foldl N.lxor σ bits)) o z cs)]> (abs_doc d).
Proof.
  intros Hw Ha Hoz Hz Hσ Hbits. revert d cs σ Hw Ha Hz Hσ.
  induction Hbits as [|bit bits Hbit _ IH]; intros d cs σ Hw Ha Hz Hσ.
  { exists d. split_and!; [apply ran_nil|done|]. cbn [foldl].
    rewrite map_range_id, list_insert_id; [done|done|].
    intros [g [s l]] Hc. unfold set_range_style. cbn. by rewrite <- (Hσ _ Hc). }
  assert (range_valid d (mkPos i o) (mkPos i z)) as Hv.
  { split_and!; [by right|rewrite (valid_abs _ _ _ _ _ Ha); apply Nat.leb_le; lia..]. }
  destruct (lookup_lt_is_Some_2 cs o) as [c0 Hc0]; [lia|].
  assert (c0 ∈ in_range o z cs) as Hin0 by (apply in_range_lookup; exists o; split; [lia|done]).
  assert (all_text_has_style d (mkPos i o) (mkPos i z) bit = style_contains σ bit) as Hall.
  { apply eq_true_iff_eq. rewrite all_text_has_style_spec by done. split.
    - intros Hc. rewrite <- (Hσ c0 Hin0). apply Hc. by eapply range_cell_one.
    - intros Hs c Hc. unfold has_bit. rewrite (Hσ c); [done|]. by eapply range_cell_one. }
  assert (undoable d (ToggleInlineStyle (mkPos i o) (mkPos i z) bit)) as Hu.
  { apply undoable_toggle; [done| |by apply named_bit_ne]. unfold range_uniform.
    rewrite Hall. destruct (named_bit_dec σ bit Hbit) as [Hc|Hc]; [by left|right].
    intros c Hin. rewrite (Hσ c); [done|]. by eapply range_cell_one. }
  destruct (apply_toggle_abs d (mkPos i o) (mkPos i z) bit) as (d1 & E1 & A1); [apply Hv|].
  assert (wf_doc d1) as Hw1 by (by eapply (apply_wf d (ToggleInlineStyle _ _ _))).
  rewrite Hall, (toggle_spec_one _ _ _ _ _ _ sh cs) in A1 by done.
  set (cs1 := map_range (set_cell (style_contains σ bit) bit) o z cs) in A1.
  apply lookup_lt_Some in Ha as Hlt.
  destruct (IH d1 cs1 (N.lxor σ bit)) as (d2 & E2 & Hw2 & A2).
  { done. }
  { rewrite A1. by apply list_lookup_insert_eq. }
  { unfold cs1. by rewrite length_map_range. }
  { apply map_range_forall. intros c Hc. unfold set_cell. cbn [fst snd].
    rewrite (Hσ c Hc). by apply named_toggle_style. }
  exists d2. split_and!; [by eapply ran_cons|done|].
  rewrite A2, A1, list_insert_insert_eq. cbn [foldl]. do 2 f_equal. unfold cs1.
  by rewrite map_range_compose.
Qed.

(** ** Inserting styled text *)

Lemma run_style_go_insertion rs pos o : run_style_go rs pos o = insertion_style rs pos o.
Proof. revert pos. induction rs as [|r rs IH]; intros pos; cbn; [done|]. by rewrite IH. Qed.

Definition known_style (s : InlineStyle) : Prop := (s < 16)%N.

Lemma foldl_lxor σ bits : foldl N.lxor σ bits = N.lxor σ (foldl N.lxor 0%N bits).
Proof.
  revert σ. induction bits as [|b bits IH]; intros σ; cbn [foldl]; [by rewrite N.lxor_0_r|].
  rewrite IH, (IH (N.lxor 0 b)), N.lxor_0_l. apply N.lxor_assoc.
Qed.

Lemma known_style_cases diff :
  known_style diff → Forall named_bit (style_bits diff) ∧ foldl N.lxor 0%N (style_bits diff) = diff.
Proof.
  unfold known_style. intros Hd.
  assert (diff ∈ (N.of_nat <$> seq 0 16)) as Hin.
  { apply list_elem_of_fmap. exists (N.to_nat diff). split; [lia|]. apply elem_of_seq. lia. }
  clear Hd. cbn in Hin.
  repeat (apply elem_of_cons in Hin as [->|Hin];
    [split; [unfold named_bit; repeat constructor; cbn; set_solver|reflexivity]|]).
  by apply elem_of_nil in Hin.
Qed.

Lemma style_bits_empty : style_bits 0%N = [].
Proof. reflexivity. Qed.

(** The fixups as toggles, whether or not there is a difference. *)
Lemma style_fixups_bits diff p t :
  style_fixups diff p t
  = ToggleInlineStyle p (mkPos (block_index p) (offset p + text_len t)) <$> style_bits diff.
Proof.
  unfold style_fixups, style_is_empty. destruct (N.eqb_spec diff 0) as [->|]; [|done].
  by rewrite style_bits_empty.
Qed.

Lemma runs_at_inline d i o sh cs :
  abs_doc d !! i = Some (AInline sh cs) →
  ∃ b rs, doc_block d i = Some b ∧ block_runs b = Some rs ∧ block_shape b = sh
          ∧ cells rs = cs ∧ runs_at d (mkPos i o) = Some rs.
Proof.
  intros (b & rs & Hb & Hrs & Hs & Hc)%abs_doc_inline_inv. exists b, rs.
  split_and!; try done. unfold runs_at. cbn [block_index]. by rewrite Hb.
Qed.

Lemma insert_with_style_edited d i o t sh cs style :
  wf_doc d → abs_doc d !! i = Some (AInline sh cs) → o ≤ length cs → t ≠ [] →
  no_fuse (default [] (runs_at d (mkPos i o))) t →
  known_style (style_symmetric_difference style (run_style_at d (mkPos i o))) →
  ∃ d' link, ran d (insert_with_style d (mkPos i o) t style) d' ∧ wf_doc d'
    ∧ abs_doc d' = <[i := AInline sh (take o cs ++ fmt_cells (style, link) t ++ drop o cs)]>
                     (abs_doc d).
Proof.
  intros Hw Ha Ho Ht Hf Hk.
  destruct (runs_at_inline d i o sh cs Ha) as (b & rs & Hb & Hrs & <- & <- & Hat).
  assert (rs ≠ []) as Hne.
  { pose proof (wf_doc_block _ _ _ Hw Hb) as Hwb. unfold wf_block in Hwb. congruence. }
  destruct (apply_insert_text_inline d i o t b rs) as (d1 & rs1 & f & E & Ed1 & Hi & Hs);
    [done..|].
  assert (run_style_at d (mkPos i o) = f.1) as Hst.
  { unfold run_style_at. rewrite Hat. cbn [offset]. rewrite run_style_go_insertion, Hs.
    by destruct rs. }
  assert (undoable d (InsertText (mkPos i o) t)) as Hu.
  { apply undoable_insert; [|done]. exists b, rs. done. }
  assert (wf_doc d1) as Hw1.
  { eapply (apply_wf d (InsertText _ t)); [done| |exact E]. cbn [op_wf].
    rewrite (valid_abs _ _ _ _ _ Ha). by apply Nat.leb_le. }
  rewrite Hat in Hf. cbn [from_option id] in Hf.
  pose proof (ins_cells _ _ _ _ _ Hi Hf) as Hc1.
  set (cs1 := take o (cells rs) ++ fmt_cells f t ++ drop o (cells rs)) in *.
  assert (abs_doc d1 = <[i := AInline (block_shape b) cs1]> (abs_doc d)) as A1.
  { rewrite Ed1, abs_doc_replace, (abs_block_set_runs b rs) by done. by rewrite Hc1. }
  apply lookup_lt_Some in Ha as Hlt.
  assert (length (take o (cells rs)) = o) as Hlo by (rewrite length_take; lia).
  assert (text_len t ≠ 0) by (by rewrite text_len_0).
  pose proof (length_fmt_cells f t) as Hlf.
  rewrite Hst in Hk. destruct (known_style_cases _ Hk) as [Hbits Hfold].
  destruct (toggles_edited d1 i o (o + text_len t) (block_shape b) cs1 f.1
              (style_bits (style_symmetric_difference style f.1)))
    as (d2 & E2 & Hw2 & A2); [done| |lia| | |done|].
  { rewrite A1. by apply list_lookup_insert_eq. }
  { unfold cs1. rewrite !length_app. lia. }
  { intros c (k & Hk2 & Hl)%in_range_lookup. unfold cs1 in Hl.
    rewrite lookup_app_r in Hl by lia. rewrite lookup_app_l in Hl by lia.
    unfold fmt_cells in Hl. rewrite list_lookup_fmap in Hl.
    destruct (graphemes t !! (k - _)); [|done]. by injection Hl as <-. }
  exists d2, f.2. unfold insert_with_style. rewrite Hst, style_fixups_bits.
  cbn [block_index offset]. split_and!; [by eapply ran_cons|done|].
  rewrite A2, A1, list_insert_insert_eq, foldl_lxor, Hfold.
  unfold style_symmetric_difference.
  rewrite (N.lxor_comm style), <- N.lxor_assoc, N.lxor_nilpotent, N.lxor_0_l.
  do 2 f_equal. unfold map_range, cs1. destruct (Nat.leb_spec (o + text_len t) o); [lia|].
  rewrite take_app_length' by done. rewrite drop_app_length' by done. f_equal.
  replace (o + text_len t - o) with (text_len t) by lia.
  rewrite take_app_length' by done. rewrite drop_app_ge by lia. rewrite Hlo.
  replace (o + text_len t - o) with (text_len t) by lia.
  rewrite drop_app_length' by done. f_equal. unfold fmt_cells.
  rewrite <- list_fmap_compose. done.
Qed.

(** ** Edits of plain documents *)

(** The document stays in the invariant and plain. *)
Definition good_edit (d : Document) (ops : list EditOp) (d' : Document) : Prop :=
  ran d ops d' ∧ wf_doc d' ∧ plain_doc d'.

Lemma good_edit_nil d : wf_doc d → plain_doc d → good_edit d [] d.
Proof. intros. split_and!; [apply ran_nil|done|done]. Qed.

Lemma good_edit_app d ops1 d1 ops2 d2 :
  good_edit d ops1 d1 → good_edit d1 ops2 d2 → good_edit d (ops1 ++ ops2) d2.
Proof. intros (E1 & _ & _) (E2 & ? & ?). split_and!; [by eapply ran_app|done|done]. Qed.

(** One operation, from its effect on the abstract document. *)
Lemma good_edit_one d op d1 m :
  wf_doc d → plain_doc d → undoable d op → op_wf d op → apply op d = Some (d1, m) →
  (∀ ab, ab ∈ abs_doc d1 → ab ∈ abs_doc d
     ∨ ∃ sh cs, ab = AInline sh cs ∧ plain_cells_of cs) →
  good_edit d [op] d1.
Proof.
  intros Hw Hp Hu Hop E Hab. pose proof (apply_wf _ _ _ _ Hw Hop E) as Hw1.
  split_and!; [eapply ran_cons; [done..|apply ran_nil]|done|].
  eapply plain_from_abs; [done| |done]. apply Hw1.
Qed.

Lemma elem_of_splice (d : Document) i j (mid : list (ABlock (list Cell))) ab :
  ab ∈ take i (abs_doc d) ++ mid ++ drop j (abs_doc d) → ab ∈ abs_doc d ∨ ab ∈ mid.
Proof.
  intros [Hab|[Hab|Hab]%elem_of_app]%elem_of_app; [left| |left].
  - rewrite <- (take_drop i (abs_doc d)). apply elem_of_app. by left.
  - by right.
  - rewrite <- (take_drop j (abs_doc d)). apply elem_of_app. by right.
Qed.

Lemma elem_of_insert (ad : list (ABlock (list Cell))) i x ab :
  ab ∈ <[i := x]> ad → ab ∈ ad ∨ ab = x.
Proof.
  intros [j Hj]%list_elem_of_lookup.
  apply list_lookup_insert_Some in Hj as [(_ & <- & _)|[_ Hj]]; [by right|].
  left. by eapply list_elem_of_lookup_2.
Qed.

Lemma plain_cells_app cs1 cs2 :
  plain_cells_of cs1 → plain_cells_of cs2 → plain_cells_of (cs1 ++ cs2).
Proof. intros. by apply Forall_app. Qed.

Lemma plain_cells_take n cs : plain_cells_of cs → plain_cells_of (take n cs).
Proof. apply Forall_take. Qed.

Lemma plain_cells_drop n cs : plain_cells_of cs → plain_cells_of (drop n cs).
Proof. apply Forall_drop. Qed.

Hint Resolve plain_cells_app plain_cells_take plain_cells_drop plain_doc_cells
  plain_fmt_cells : plain.

Lemma text_position_abs d i o sh cs :
  wf_doc d → abs_doc d !! i = Some (AInline sh cs) → o ≤ length cs →
  text_position d (mkPos i o).
Proof.
  intros Hw (b & rs & Hb & Hrs & _ & <-)%abs_doc_inline_inv Ho. exists b, rs.
  split_and!; [done|done| |done]. pose proof (wf_doc_block _ _ _ Hw Hb) as Hwb.
  unfold wf_block in Hwb. congruence.
Qed.

(** *** Deleting *)

Lemma delete_good d i o e sh cs :
  wf_doc d → plain_doc d → abs_doc d !! i = Some (AInline sh cs) → o ≤ length cs →
  doc_is_valid_position d e = true → pos_lt (mkPos i o) e →
  ∃ d1 cs1, good_edit d [DeleteRange (mkPos i o) e (build_deleted_content d (mkPos i o) e)] d1
    ∧ apply_all [DeleteRange (mkPos i o) e (build_deleted_content d (mkPos i o) e)] d = Some d1
    ∧ abs_doc d1 !! i = Some (AInline sh cs1) ∧ o ≤ length cs1
    ∧ doc_block_count d1 ≤ doc_block_count d.
Proof.
  intros Hw Hp Ha Ho He Hlt.
  pose proof (text_position_abs d i o sh cs Hw Ha Ho) as Ht.
  assert (undoable d (DeleteRange (mkPos i o) e (build_deleted_content d (mkPos i o) e))) as Hu
    by (by apply undoable_delete).
  assert (op_wf d (DeleteRange (mkPos i o) e (build_deleted_content d (mkPos i o) e))) as Hop.
  { cbn [op_wf]. intros <-. unfold pos_lt in Hlt. cbn in Hlt. lia. }
  pose proof (abs_doc_inline_inv _ _ _ _ Ha) as (b & rs & Hb & Hrs & Hsh & Hcs).
  apply lookup_lt_Some in Ha as Hli. pose proof (plain_doc_cells _ _ _ _ Hp Ha) as Hpc.
  assert (∃ d1 m cs1 j, apply (DeleteRange (mkPos i o) e (build_deleted_content d (mkPos i o) e)) d
            = Some (d1, m) ∧ i < j
            ∧ abs_doc d1 = take i (abs_doc d) ++ [AInline sh cs1] ++ drop j (abs_doc d)
            ∧ o ≤ length cs1 ∧ plain_cells_of cs1) as (d1 & m & cs1 & j & E & Hij & A & Ho1 & Hp1).
  { rewrite apply_delete_lt by done. cbn [block_index].
    destruct e as [j z]. cbn [block_index]. destruct (Nat.eqb_spec i j) as [<-|Hne].
    - destruct Hlt as [Hlt|[_ Hlt]]; cbn in Hlt; [lia|].
      destruct (apply_single_block_delete_inline d i o z b rs) as (d1 & E & A);
        [done|done|lia|].
      exists d1. do 2 eexists. exists (S i). split; [exact E|]. rewrite A, Hsh, Hcs.
      rewrite insert_take_drop by done. split_and!; [lia|done| |auto with plain].
      rewrite length_app, length_take. lia.
    - destruct Hlt as [Hlt|[Heq _]]; cbn in *; [|done].
      destruct (doc_block d j) as [eb|] eqn:Heb; cycle 1.
      { unfold doc_is_valid_position, doc_block in *. cbn in He. by rewrite Heb in He. }
      destruct (apply_cross_block_delete_inline d (mkPos i o) (mkPos j z) b eb rs)
        as (d1 & m & E & _ & A); [done..|].
      exists d1, m. do 2 eexists. split; [exact E|]. cbn [block_index offset] in A.
      rewrite A, Hsh, Hcs. split; [|split; [done|]].
      { unfold last_removed. cbn [block_index offset]. destruct (_ || _); lia. }
      split; [rewrite length_app, length_take; lia|].
      apply plain_cells_app; [auto with plain|].
      destruct (block_is_inline eb) eqn:Hi; [|constructor].
      apply block_is_inline_runs in Hi as [ers Hers]. apply plain_cells_drop.
      rewrite (runs_or_nil_cells eb ers Hers).
      eapply plain_doc_cells; [done|]. by eapply doc_block_abs_inline. }
  exists d1, cs1. split_and!.
  - eapply good_edit_one; [done..|]. rewrite A. intros ab Hin.
    apply elem_of_splice in Hin as [Hin|Hin%list_elem_of_singleton]; [by left|right; eauto].
  - cbn [apply_all]. by rewrite E.
  - rewrite A. apply lookup_splice_0. lia.
  - done.
  - rewrite <- !length_abs_doc, A, !length_app, length_take, length_drop. simpl. lia.
Qed.

(** *** Selections *)

(** Both ends of the selection are valid and it starts in text. *)
Definition text_selection (d : Document) (sel : DocSelection) : Prop :=
  doc_is_valid_position d (anchor sel) = true ∧ doc_is_valid_position d (focus sel) = true
  ∧ ∃ sh cs, abs_doc d !! block_index (sel_start sel) = Some (AInline sh cs).

Lemma sel_start_valid d sel : text_selection d sel → doc_is_valid_position d (sel_start sel) = true.
Proof. intros (Ha & Hf & _). unfold sel_start, pos_min. by case_decide. Qed.

Lemma sel_end_valid d sel : text_selection d sel → doc_is_valid_position d (sel_end sel) = true.
Proof. intros (Ha & Hf & _). unfold sel_end, pos_max. by case_decide. Qed.

Lemma sel_ends_lt sel : sel_is_collapsed sel = false → pos_lt (sel_start sel) (sel_end sel).
Proof.
  unfold sel_is_collapsed, sel_start, sel_end, pos_min, pos_max.
  intros Hc%bool_decide_eq_false. destruct sel as [[i o] [j z]]. cbn in *.
  case_decide as Hle; unfold pos_le, pos_lt in *; cbn in *.
  - destruct Hle as [|[-> Hle]]; [by left|]. right. split; [done|].
    destruct (decide (o = z)) as [->|]; [done|lia].
  - destruct (decide (j = i)) as [->|]; [right; split; [done|lia]|left; lia].
Qed.

Lemma sel_start_collapsed sel : sel_is_collapsed sel = true → sel_start sel = focus sel.
Proof.
  unfold sel_is_collapsed, sel_start, pos_min. intros E%bool_decide_eq_true.
  rewrite E. by case_decide.
Qed.

Lemma text_selection_offset d sel sh cs :
  text_selection d sel → abs_doc d !! block_index (sel_start sel) = Some (AInline sh cs) →
  offset (sel_start sel) ≤ length cs.
Proof.
  intros Hs Ha. pose proof (sel_start_valid d sel Hs) as Hv.
  destruct (sel_start sel) as [i o]. rewrite (valid_abs _ _ _ _ _ Ha) in Hv. by apply Nat.leb_le.
Qed.

Lemma atomic_at_abs d i sh cs :
  abs_doc d !! i = Some (AInline sh cs) → block_is_atomic_at d i = false.
Proof.
  intros (b & rs & Hb & Hrs & _)%abs_doc_inline_inv. unfold block_is_atomic_at. rewrite Hb.
  by destruct b.
Qed.

Lemma post_delete_text d sel :
  text_selection d sel → post_delete_position d sel = sel_start sel.
Proof.
  intros (_ & _ & sh & cs & Ha). unfold post_delete_position.
  by rewrite (atomic_at_abs _ _ _ _ Ha), andb_false_r.
Qed.

Lemma delete_selection_good d sel :
  wf_doc d → plain_doc d → text_selection d sel → sel_is_collapsed sel = false →
  ∃ sh cs cs1 d1, abs_doc d !! block_index (sel_start sel) = Some (AInline sh cs)
    ∧ good_edit d (build_delete_selection d sel) d1
    ∧ apply_all (build_delete_selection d sel) d = Some d1
    ∧ abs_doc d1 !! block_index (sel_start sel) = Some (AInline sh cs1)
    ∧ offset (sel_start sel) ≤ length cs1.
Proof.
  intros Hw Hp Hs Hc. pose proof Hs as (_ & _ & sh & cs & Ha).
  pose proof (text_selection_offset d sel sh cs Hs Ha) as Ho.
  pose proof (sel_end_valid d sel Hs) as He. pose proof (sel_ends_lt sel Hc) as Hlt.
  unfold build_delete_selection. rewrite post_delete_text by done.
  rewrite decide_False by (unfold pos_lt, pos_le in *; lia).
  destruct (sel_start sel) as [i o].
  destruct (delete_good d i o (sel_end sel) sh cs) as (d1 & cs1 & ? & ? & ? & ? & _);
    [done..|]. eauto 10.
Qed.

(** *** Typing *)

Lemma named_bits_known diff : Forall named_bit (style_bits diff) → known_style diff.
Proof.
  unfold style_bits, known_style. intros [_ Hr]%Forall_app.
  destruct (N.eqb_spec (N.ldiff diff 15) 0) as [E|E].
  - assert (diff = N.land diff 15) as ->.
    { rewrite <- (N.lxor_0_r (N.land diff 15)), <- E. apply N.bits_inj. intros n.
      rewrite N.lxor_spec, N.land_spec, N.ldiff_spec.
      by destruct (N.testbit diff n), (N.testbit 15 n). }
    change 15%N with (N.ones 4). rewrite N.land_ones. by apply N.mod_lt.
  - exfalso. apply Forall_cons in Hr as [Hr _]. unfold named_bit in Hr.
    assert (N.land (N.ldiff diff 15) 15 = 0%N) as E0.
    { apply N.bits_inj. intros n. rewrite N.land_spec, N.ldiff_spec, N.bits_0.
      by destruct (N.testbit diff n), (N.testbit 15 n). }
    repeat (apply elem_of_cons in Hr as [Hr|Hr]; [rewrite Hr in E0; discriminate E0|]).
    by apply elem_of_nil in Hr.
Qed.

Lemma plain_runs_at d p : plain_doc d → plain_runs (default [] (runs_at d p)).
Proof.
  intros [_ Hp]. unfold runs_at. destruct (doc_block d (block_index p)) as [b|] eqn:Hb;
    [|constructor]. cbn [mbind option_bind].
  destruct (block_runs b) as [rs|] eqn:Hrs; [|constructor]. cbn [from_option id].
  eapply plain_block_runs; [|done]. rewrite Forall_lookup in Hp. by eapply Hp.
Qed.

(** The toggles among the operations are of named flags. *)
Definition toggles_named (ops : list EditOp) : Prop :=
  ∀ s e bit, ToggleInlineStyle s e bit ∈ ops → named_bit bit.

Lemma toggles_named_app ops1 ops2 :
  toggles_named (ops1 ++ ops2) → toggles_named ops1 ∧ toggles_named ops2.
Proof. unfold toggles_named. intros Ht. split; intros s e bit Hin; apply (Ht s e); apply elem_of_app; auto. Qed.

Lemma insert_with_style_good d i o t sh cs style :
  wf_doc d → plain_doc d → abs_doc d !! i = Some (AInline sh cs) → o ≤ length cs → t ≠ [] →
  Forall printable t → toggles_named (insert_with_style d (mkPos i o) t style) →
  ∃ d' link, good_edit d (insert_with_style d (mkPos i o) t style) d'
    ∧ abs_doc d' = <[i := AInline sh (take o cs ++ fmt_cells (style, link) t ++ drop o cs)]>
                     (abs_doc d).
Proof.
  intros Hw Hp Ha Ho Ht Hpt Hn.
  destruct (insert_with_style_edited d i o t sh cs style) as (d' & link & E & Hw' & A);
    [done..| | |].
  - apply plain_no_fuse; [by apply plain_runs_at|done].
  - apply named_bits_known, Forall_forall. intros bit Hbit. eapply Hn.
    unfold insert_with_style. rewrite style_fixups_bits. apply elem_of_cons. right.
    apply list_elem_of_fmap. eauto.
  - exists d', link. split; [|done]. split_and!; [done|done|].
    pose proof (plain_doc_cells _ _ _ _ Hp Ha).
    eapply plain_insert_abs; [done|apply Hw'|done|]. auto 6 with plain.
Qed.

Lemma resolve_insert_good d sel t pending :
  wf_doc d → plain_doc d → text_selection d sel → t ≠ [] → Forall printable t →
  (∀ ops, resolve_insert d sel t pending = Some ops → toggles_named ops) →
  ∃ ops d', resolve_insert d sel t pending = Some ops ∧ good_edit d ops d'.
Proof.
  intros Hw Hp Hs Ht Hpt Hn. unfold resolve_insert in *.
  destruct (sel_is_collapsed sel) eqn:Hc.
  - pose proof Hs as (_ & _ & sh & cs & Ha).
    pose proof (text_selection_offset d sel sh cs Hs Ha) as Ho.
    rewrite sel_start_collapsed in Ha, Ho by done. specialize (Hn _ eq_refl).
    destruct (focus sel) as [i o]. cbn in *.
    edestruct (insert_with_style_good d i o t sh cs) as (d' & link & Hg & _);
      [done..|exact Hn|]. eauto.
  - destruct (delete_selection_good d sel) as (sh & cs & cs1 & d1 & _ & Hg1 & E1 & Ha1 & Ho1);
      [done..|].
    rewrite E1 in *. cbn [mbind option_bind] in *. rewrite post_delete_text in * by done.
    specialize (Hn _ eq_refl). apply toggles_named_app in Hn as [_ Hn].
    destruct (sel_start sel) as [i o]. cbn in *.
    edestruct (insert_with_style_good d1 i o t sh cs1) as (d' & link & Hg & _);
      [apply Hg1|apply Hg1|done..|exact Hn|].
    eexists _, d'. split; [done|]. by eapply good_edit_app.
Qed.

(** *** Removing, merging and splitting blocks *)

Lemma remove_good d i b :
  wf_doc d → plain_doc d → doc_block d i = Some b → 1 < doc_block_count d →
  ∃ d1, good_edit d [RemoveBlock i b] d1.
Proof.
  intros Hw Hp Hb Hc. pose proof (undoable_remove_block d i b Hb Hc) as Hu.
  assert (apply (RemoveBlock i b) d
          = Some (mkDoc (take i (blocks d) ++ drop (S i) (blocks d)),
                  mkPosMap i [] (Some (Remove i)))) as E.
  { apply lookup_lt_Some in Hb as Hlt. unfold doc_block_count in Hc.
    cbn [apply]. unfold apply_remove_block, doc_block_count, doc_remove_block.
    destruct (Nat.ltb_spec i (length (blocks d))); [|lia].
    destruct (Nat.leb_spec (length (blocks d)) 1); [lia|].
    assert (vec_remove i (blocks d) = Some (take i (blocks d) ++ drop (S i) (blocks d))) as ->
      by (by apply vec_remove_Some).
    cbn. unfold doc_block in Hb. by rewrite Hb. }
  eexists. eapply good_edit_one; [done..|exact E|]. unfold abs_doc at 1. cbn [blocks].
  rewrite fmap_app, fmap_take, fmap_drop. fold (abs_doc d). intros ab Hin. left.
  rewrite <- (app_nil_l (drop _ _)) in Hin.
  apply elem_of_splice in Hin as [Hin|Hin]; [done|]. by apply elem_of_nil in Hin.
Qed.

Lemma merge_good d i b1 b2 :
  wf_doc d → plain_doc d → 0 < i → doc_block d (i - 1) = Some b1 → block_is_inline b1 = true →
  doc_block d i = Some b2 → block_is_inline b2 = true →
  ∃ d1, good_edit d [MergeBlocks i b2 (block_char_len b1)] d1.
Proof.
  intros Hw Hp Hi Hb1 Hi1 Hb2 Hi2.
  pose proof (undoable_merge d i b1 b2 Hi Hb1 Hi1 Hb2) as Hu.
  apply block_is_inline_runs in Hi1 as [rs1 Hrs1], Hi2 as [rs2 Hrs2].
  destruct (apply_merge_blocks_inline d i (block_char_len b1) b1 b2 rs1) as (d1 & E & A);
    [done..|].
  exists d1. eapply good_edit_one; [done..|exact E|]. rewrite A. intros ab Hin.
  apply elem_of_splice in Hin as [Hin|Hin%list_elem_of_singleton]; [by left|right].
  do 2 eexists. split; [done|]. rewrite (runs_or_nil_cells b2 rs2 Hrs2).
  pose proof (plain_doc_cells _ _ _ _ Hp (doc_block_abs_inline _ _ _ _ Hb1 Hrs1)).
  pose proof (plain_doc_cells _ _ _ _ Hp (doc_block_abs_inline _ _ _ _ Hb2 Hrs2)).
  auto with plain.
Qed.

Lemma split_good d i o sh cs :
  wf_doc d → plain_doc d → abs_doc d !! i = Some (AInline sh cs) → o ≤ length cs →
  ∃ d1, good_edit d [SplitBlock (mkPos i o)] d1
    ∧ abs_doc d1 !! (i + 1) = Some (AInline sh (drop o cs)).
Proof.
  intros Hw Hp Ha Ho.
  pose proof (undoable_split d _ (text_position_abs d i o sh cs Hw Ha Ho)) as Hu.
  pose proof (plain_doc_cells _ _ _ _ Hp Ha) as Hpc. apply lookup_lt_Some in Ha as Hlt.
  apply abs_doc_inline_inv in Ha as (b & rs & Hb & Hrs & <- & <-).
  destruct (apply_split_block_inline d i o b rs) as (d1 & E & A); [done..|].
  exists d1. split.
  - eapply good_edit_one; [done..|exact E|]. rewrite A. intros ab Hin.
    apply elem_of_splice in Hin as [Hin|Hin]; [by left|right].
    apply elem_of_cons in Hin as [->|Hin%list_elem_of_singleton]; subst; eauto with plain.
  - rewrite A, lookup_splice by (simpl; lia). done.
Qed.

(** *** Block types *)

Definition shape_kind (sh : Shape) : BlockKind :=
  match sh with SPara => KParagraph | SHead l => KHeading l | SItem o _ => KListItem o end.

Definition shape_indent (sh : Shape) : N := match sh with SItem _ n => n | _ => 0%N end.

Lemma shape_kind_spec b : block_is_inline b = true → block_kind b = shape_kind (block_shape b).
Proof. by destruct b. Qed.

Lemma set_type_good d i sh cs new :
  wf_doc d → plain_doc d → abs_doc d !! i = Some (AInline sh cs) → inline_kind new = true →
  shape_indent sh = 0%N → ∃ d1, good_edit d [SetBlockType i (shape_kind sh) new] d1.
Proof.
  intros Hw Hp Ha Hn Hind. pose proof (plain_doc_cells _ _ _ _ Hp Ha) as Hpc.
  apply abs_doc_inline_inv in Ha as (b & rs & Hb & Hrs & <- & <-).
  assert (block_is_inline b = true) as Hi by (apply block_is_inline_runs; eauto).
  rewrite <- shape_kind_spec by done.
  assert (undoable d (SetBlockType i (block_kind b) new)) as Hu.
  { apply undoable_type; [done..|]. by destruct b. }
  eexists. eapply good_edit_one; [done|done|exact Hu|done| |].
  - cbn [apply]. unfold apply_set_block_type. by rewrite Hb.
  - rewrite abs_doc_replace, (abs_block_as_kind b rs) by done.
    intros ab [Hin|Hin]%elem_of_insert; [by left|right; eauto].
Qed.

(** *** Toggles *)

Lemma plain_map_range f a z cs :
  (∀ c : Cell, (f c).1 = c.1) → plain_cells_of cs → plain_cells_of (map_range f a z cs).
Proof.
  intros Hf Hcs. unfold plain_cells_of in *. rewrite Forall_lookup in *. intros k c.
  rewrite map_range_lookup. case_decide; [|apply Hcs].
  intros (c0 & E & ->)%fmap_Some. rewrite Hf. exact (Hcs k c0 E).
Qed.

Lemma toggle_good d s e bit :
  wf_doc d → plain_doc d → range_valid d s e → range_uniform d s e bit → bit ≠ 0%N →
  ∃ d1, good_edit d [ToggleInlineStyle s e bit] d1.
Proof.
  intros Hw Hp Hv Hu Hb. destruct (apply_toggle_abs d s e bit) as (d1 & E & A); [apply Hv|].
  exists d1. eapply good_edit_one; [done|done|by apply undoable_toggle|done|exact E|].
  rewrite A. intros ab [j Hj]%list_elem_of_lookup. unfold toggle_spec in Hj.
  rewrite list_lookup_imap in Hj. destruct (abs_doc d !! j) as [ab0|] eqn:E0; [|done].
  cbn in Hj. injection Hj as <-. apply list_elem_of_lookup_2 in E0 as Hin0.
  case_decide; [|by left].
  destruct ab0 as [sh cs| | |]; [right|by left..]. unfold toggle_at.
  destruct (abs_range s e j (length cs)) as [a z]. do 2 eexists. split; [done|].
  apply plain_map_range; [done|]. by eapply plain_doc_cells.
Qed.

(** *** Backspace and Delete *)

Lemma caret_text d sel :
  text_selection d sel → sel_is_collapsed sel = true →
  ∃ b rs, doc_block d (block_index (focus sel)) = Some b ∧ block_runs b = Some rs
    ∧ block_is_inline b = true
    ∧ abs_doc d !! block_index (focus sel) = Some (AInline (block_shape b) (cells rs))
    ∧ block_char_len b = length (cells rs) ∧ offset (focus sel) ≤ length (cells rs).
Proof.
  intros Hs Hc. pose proof Hs as (_ & _ & sh & cs & Ha).
  pose proof (text_selection_offset d sel sh cs Hs Ha) as Ho.
  rewrite sel_start_collapsed in Ha, Ho by done.
  pose proof Ha as (b & rs & Hb & Hrs & <- & <-)%abs_doc_inline_inv. exists b, rs.
  split_and!; [done|done| |done|by apply block_char_len_runs|done].
  apply block_is_inline_runs. eauto.
Qed.

Lemma delete_char_good d i o z b rs :
  wf_doc d → plain_doc d → doc_block d i = Some b → block_runs b = Some rs →
  o < z → z ≤ length (cells rs) →
  ∃ d1, good_edit d [DeleteRange (mkPos i o) (mkPos i z)
                       (mkDeleted [block_with_runs_like b (extract_deleted_runs rs o z)] None)] d1.
Proof.
  intros Hw Hp Hb Hrs Hoz Hz. pose proof (doc_block_abs_inline _ _ _ _ Hb Hrs) as Ha.
  assert (build_deleted_content d (mkPos i o) (mkPos i z)
          = mkDeleted [block_with_runs_like b (extract_deleted_runs rs o z)] None) as Ed.
  { unfold build_deleted_content. cbn [block_index offset]. rewrite Nat.eqb_refl, Hb.
    unfold deleted_single. by rewrite Hrs. }
  rewrite <- Ed.
  destruct (delete_good d i o (mkPos i z) (block_shape b) (cells rs)) as (d1 & cs1 & Hg & _);
    [done|done|done|lia| |by right|eauto].
  rewrite (valid_abs _ _ _ _ _ Ha). by apply Nat.leb_le.
Qed.

Lemma resolve_delete_backward_good d sel :
  wf_doc d → plain_doc d → text_selection d sel →
  ∃ d', good_edit d (resolve_delete_backward d sel) d'.
Proof.
  intros Hw Hp Hs. unfold resolve_delete_backward.
  destruct (sel_is_collapsed sel) eqn:Hc; cbn [negb]; cycle 1.
  { destruct (delete_selection_good d sel) as (?&?&?&d1&?&?&?); eauto. }
  destruct (caret_text d sel Hs Hc) as (b & rs & Hb & Hrs & Hi & Ha & Hl & Ho).
  destruct (focus sel) as [i o]. cbn [block_index offset] in *.
  apply lookup_lt_Some in Hb as Hlt.
  assert (∀ j c, doc_block d j = Some c → j < length (blocks d)) as Hlen
    by (intros j c; apply lookup_lt_Some).
  destruct (Nat.eqb_spec i 0) as [->|Hi0], (Nat.eqb_spec o 0) as [->|Ho0]; cbn [andb].
  - eauto using good_edit_nil.
  - rewrite (atomic_at_abs _ _ _ _ Ha). unfold resolve_delete_char_backward.
    cbn [block_index offset]. rewrite Hb, Hrs.
    destruct (Nat.leb_spec (block_char_len b) (o - 1)); [eauto using good_edit_nil|].
    apply delete_char_good; (done || lia).
  - destruct (doc_block d (i - 1)) as [prev|] eqn:Hprev; cycle 1.
    { unfold resolve_merge_backward. rewrite Hb, Hprev. destruct (i =? 0);
        eauto using good_edit_nil. }
    destruct (block_is_atomic prev) eqn:Hat.
    { apply remove_good; [done..|]. unfold doc_block_count. lia. }
    unfold resolve_merge_backward. destruct (Nat.eqb_spec i 0); [lia|]. rewrite Hb, Hprev, Hi.
    unfold block_is_atomic in Hat. apply negb_false_iff in Hat. rewrite Hat. cbn [negb orb].
    apply merge_good; (done || lia).
  - rewrite (atomic_at_abs _ _ _ _ Ha). unfold resolve_delete_char_backward.
    cbn [block_index offset]. rewrite Hb, Hrs.
    destruct (Nat.leb_spec (block_char_len b) (o - 1)); [eauto using good_edit_nil|].
    apply delete_char_good; (done || lia).
Qed.

Lemma resolve_delete_forward_good d sel :
  wf_doc d → plain_doc d → text_selection d sel →
  ∃ d', good_edit d (resolve_delete_forward d sel) d'.
Proof.
  intros Hw Hp Hs. unfold resolve_delete_forward.
  destruct (sel_is_collapsed sel) eqn:Hc; cbn [negb]; cycle 1.
  { destruct (delete_selection_good d sel) as (?&?&?&d1&?&?&?); eauto. }
  destruct (caret_text d sel Hs Hc) as (b & rs & Hb & Hrs & Hi & Ha & Hl & Ho).
  destruct (focus sel) as [i o]. cbn [block_index offset] in *. rewrite Hb.
  destruct (Nat.leb_spec (block_char_len b) o) as [Hend|Hend]; cbn [andb].
  - destruct (doc_block_count d - 1 <=? i); [eauto using good_edit_nil|].
    destruct (doc_block d (i + 1)) as [next|] eqn:Hnext; cycle 1.
    { unfold resolve_merge_forward. rewrite Hnext.
      destruct (doc_block_count d <=? i + 1); eauto using good_edit_nil. }
    assert (i + 1 < doc_block_count d) as Hlt by (by apply lookup_lt_Some in Hnext).
    destruct (block_is_atomic next) eqn:Hat; [apply remove_good; (done || lia)|].
    unfold resolve_merge_forward. destruct (Nat.leb_spec (doc_block_count d) (i + 1)); [lia|].
    rewrite Hnext, Hb, Hi. unfold block_is_atomic in Hat. apply negb_false_iff in Hat.
    rewrite Hat. cbn [negb orb].
    apply merge_good; [done|done|lia| |done|done|done]. by replace (i + 1 - 1) with i by lia.
  - rewrite (atomic_at_abs _ _ _ _ Ha). cbn [andb]. unfold resolve_delete_char_forward.
    cbn [block_index offset]. rewrite Hb, Hrs.
    destruct (Nat.leb_spec (block_char_len b) o); [lia|].
    apply delete_char_good; (done || lia).
Qed.

(** *** Enter *)

(** A blank list item is left with its indentation: it has to be zero. *)
Definition exits_flat (b : Block) : Prop :=
  match b with
  | ListItem _ indent rs =>
      forallb (λ r, trims_to_empty (run_text r)) rs = true → indent = 0%N
  | _ => True
  end.

Lemma split_at_good d d1 i o b rs cs1 :
  doc_block d i = Some b → block_runs b = Some rs → exits_flat b →
  wf_doc d1 → plain_doc d1 →
  abs_doc d1 !! i = Some (AInline (block_shape b) cs1) → o ≤ length cs1 →
  ∃ d', good_edit d1 (split_at d (mkPos i o) b) d'.
Proof.
  intros Hb Hrs Hf Hw Hp Ha Ho.
  destruct (split_good d1 i o _ cs1 Hw Hp Ha Ho) as (d2 & Hg & Ha2).
  destruct b as [rs0|l rs0|od ind rs0|bs| |src alt w h]; try discriminate Hrs;
    cbn [split_at block_index offset block_shape] in *.
  - eauto.
  - destruct (block_char_len (Heading l rs0) <=? o); [|eauto].
    destruct (set_type_good d2 (i + 1) (SHead l) (drop o cs1) KParagraph) as (d3 & Hg3);
      [apply Hg|apply Hg|done..|].
    exists d3. by eapply (good_edit_app _ [_]).
  - destruct (forallb _ rs0) eqn:Hbl; [|eauto].
    by apply (set_type_good d1 i (SItem od ind) cs1); [..|apply Hf].
Qed.

Lemma resolve_split_block_good d sel b :
  wf_doc d → plain_doc d → text_selection d sel →
  doc_block d (block_index (sel_start sel)) = Some b → exits_flat b →
  ∃ d', good_edit d (resolve_split_block d sel) d'.
Proof.
  intros Hw Hp Hs Hb Hf. unfold resolve_split_block.
  destruct (sel_is_collapsed sel) eqn:Hc.
  - destruct (caret_text d sel Hs Hc) as (b0 & rs & Hb0 & Hrs & Hi & Ha & Hl & Ho).
    rewrite sel_start_collapsed in Hb by done. simplify_eq. rewrite Hb.
    destruct (focus sel) as [i o]. cbn [app]. by eapply split_at_good.
  - destruct (delete_selection_good d sel) as (sh & cs & cs1 & d1 & Ha & Hg & _ & Ha1 & Ho1);
      [done..|]. rewrite post_delete_text, Hb by done.
    apply abs_doc_inline_inv in Ha as (b0 & rs & Hb0 & Hrs & <- & _). simplify_eq.
    destruct (sel_start sel) as [i o]. cbn [block_index offset] in *.
    edestruct (split_at_good d d1 i o) as (d' & Hg'); [done..|apply Hg|apply Hg|done|done|].
    exists d'. by eapply good_edit_app.
Qed.

(** *** Toggling and block types *)

Lemma runs_char_len_take_le a n rs :
  runs_char_len (take a rs) + runs_char_len (take n (drop a rs)) ≤ runs_char_len rs.
Proof.
  rewrite <- runs_char_len_app.
  assert (take a rs ++ take n (drop a rs) = take (a + n) rs) as ->.
  { rewrite <- (take_drop a (take (a + n) rs)), take_take, Nat.min_l by lia. f_equal.
    rewrite skipn_firstn_comm. f_equal. lia. }
  rewrite <- (take_drop (a + n) rs) at 2. rewrite runs_char_len_app. lia.
Qed.

(** The link span is inside the block. *)
Lemma find_link_boundaries_valid d p s e :
  find_link_boundaries d p = Some (s, e) →
  doc_is_valid_position d s = true ∧ doc_is_valid_position d e = true
  ∧ block_index s = block_index p ∧ block_index e = block_index p ∧ offset s ≤ offset e.
Proof.
  unfold find_link_boundaries, runs_at. intros E.
  destruct (doc_block d (block_index p)) as [b|] eqn:Hb; [|done]. cbn in E.
  destruct (block_runs b) as [rs|] eqn:Hrs; [|done]. cbn [mbind option_bind] in E.
  destruct (is_nil rs); [done|]. inv_step E; [|done]. destruct p0 as [i o]. inv_step E; [|done].
  inv_step E; [|done]. injection E as <- <-. unfold doc_is_valid_position.
  cbn [block_index offset]. rewrite Hb. unfold block_char_len. rewrite Hrs.
  match goal with |- context [take ?n (drop ?a rs)] =>
    pose proof (runs_char_len_take_le a n rs) end.
  split_and!; [apply Nat.leb_le; lia|apply Nat.leb_le; lia|done|done|lia].
Qed.

Lemma resolve_toggle_style_cases d sel style :
  text_selection d sel →
  resolve_toggle_style d sel style = []
  ∨ ∃ s e, resolve_toggle_style d sel style = [ToggleInlineStyle s e style]
      ∧ doc_is_valid_position d s = true ∧ doc_is_valid_position d e = true.
Proof.
  intros Hs. unfold resolve_toggle_style. destruct (sel_is_collapsed sel) eqn:Hc.
  - destruct (find_link_boundaries d (focus sel)) as [[s e]|] eqn:E; [|by left].
    apply find_link_boundaries_valid in E as (? & ? & _). right. eauto.
  - destruct (bool_decide (sel_start sel = sel_end sel)); [by left|]. right.
    do 2 eexists. split; [done|]. auto using sel_start_valid, sel_end_valid.
Qed.

(** *** Every action *)

(** What the text, the toggle and the block types have to meet for the edit to
    be undone exactly: printable text that is not empty and styles of named
    flags, a range with the style everywhere or nowhere, a text block that is
    not indented. *)
Definition action_ok (d : Document) (sel : DocSelection) (action : EditAction)
    (pending : InlineStyle) : Prop :=
  match action with
  | AInsertText t =>
      t ≠ [] ∧ Forall printable t
      ∧ ∀ ops, resolve_insert d sel t pending = Some ops → toggles_named ops
  | AToggleInlineStyle style =>
      style ≠ 0%N ∧
      ∀ s e, resolve_toggle_style d sel style = [ToggleInlineStyle s e style] →
             pos_lt s e ∧ range_uniform d s e style
  | ASetBlockType _ =>
      ∃ sh cs, abs_doc d !! block_index (focus sel) = Some (AInline sh cs)
               ∧ shape_indent sh = 0%N
  | ASplitBlock =>
      ∀ b, doc_block d (block_index (sel_start sel)) = Some b → exits_flat b
  | ADeleteBackward | ADeleteForward | ADeleteSelection => True
  end.

Lemma resolve_set_block_type_good d sel kind sh cs :
  wf_doc d → plain_doc d →
  abs_doc d !! block_index (focus sel) = Some (AInline sh cs) → shape_indent sh = 0%N →
  ∃ d', good_edit d (resolve_set_block_type d sel kind) d'.
Proof.
  intros Hw Hp Ha Hind. pose proof Ha as (b & rs & Hb & Hrs & Hsh & _)%abs_doc_inline_inv.
  unfold resolve_set_block_type. rewrite Hb.
  assert (block_is_inline b = true) as Hi by (apply block_is_inline_runs; eauto).
  rewrite shape_kind_spec, Hsh by done.
  set (new := if bool_decide (shape_kind sh = kind) then KParagraph else kind).
  destruct (bool_decide (shape_kind sh = new)); [eauto using good_edit_nil|].
  destruct (bool_decide (shape_kind sh ∈ _)); [eauto using good_edit_nil|].
  destruct (bool_decide (new ∈ _)) eqn:Hn; [eauto using good_edit_nil|].
  apply (set_type_good d _ sh cs); [done..| |done].
  apply bool_decide_eq_false in Hn. destruct new; try done; exfalso; apply Hn; set_solver.
Qed.

Lemma resolve_good d sel action pending :
  wf_doc d → plain_doc d → text_selection d sel → action_ok d sel action pending →
  ∃ ops d', resolve d sel action pending = Some ops ∧ good_edit d ops d'.
Proof.
  intros Hw Hp Hs Hok. destruct action as [t| | | | |style|kind]; cbn [resolve action_ok] in *.
  - destruct Hok as (Ht & Hpt & Hn). by apply resolve_insert_good.
  - destruct (resolve_delete_backward_good d sel) as [d' ?]; eauto.
  - destruct (resolve_delete_forward_good d sel) as [d' ?]; eauto.
  - unfold resolve_delete_selection. destruct (sel_is_collapsed sel) eqn:Hc.
    + eauto using good_edit_nil.
    + destruct (delete_selection_good d sel) as (?&?&?&d1&?&?&?); eauto.
  - pose proof Hs as (_ & _ & sh & cs & (b & rs & Hb & _)%abs_doc_inline_inv).
    destruct (resolve_split_block_good d sel b) as [d' ?]; eauto.
  - destruct Hok as [Hne Hok].
    destruct (resolve_toggle_style_cases d sel style Hs) as [E|(s & e & E & Hvs & Hve)].
    + rewrite E. eauto using good_edit_nil.
    + rewrite E. destruct (Hok s e E) as [Hlt Hu].
      destruct (toggle_good d s e style) as [d' ?]; [done..|]. eauto.
  - destruct Hok as (sh & cs & Ha & Hind).
    destruct (resolve_set_block_type_good d sel kind sh cs) as [d' ?]; eauto.
Qed.

(** ** Properties *)


(** Deleting a selection that starts in text removes exactly what it
    covers: the start block keeps its clusters before the selection, followed
    by the clusters of the end block after it when that block is text; the
    blocks in between are gone, an atomic end block only when the selection
    reaches past its start, and every other block is as it was. *)
Theorem delete_selection_effect (d : Document) (sel : DocSelection) (sh : Shape)
    (cs : list Cell) (eb : Block)
    (Hs : text_selection d sel) (Hc : sel_is_collapsed sel = false)
    (Ha : abs_doc d !! block_index (sel_start sel) = Some (AInline sh cs))
    (Hb : doc_block d (block_index (sel_end sel)) = Some eb) :
  ∃ ops d', resolve d sel ADeleteSelection style_empty = Some ops ∧ apply_all ops d = Some d'
    ∧ abs_doc d' = take (block_index (sel_start sel)) (abs_doc d)
        ++ [AInline sh
              (take (offset (sel_start sel)) cs
               ++ (if block_is_inline eb
                   then drop (offset (sel_end sel)) (cells (runs_or_nil eb)) else []))]
        ++ drop ((if block_is_inline eb || (0 <? offset (sel_end sel))
                  then block_index (sel_end sel) else block_index (sel_end sel) - 1) + 1)
             (abs_doc d).
Proof.
  pose proof (sel_ends_lt sel Hc) as Hlt.
  cbn [resolve]. unfold resolve_delete_selection, build_delete_selection.
  rewrite Hc, post_delete_text by done.
  rewrite decide_False by (unfold pos_lt, pos_le in *; lia).
  match goal with |- context [DeleteRange ?s ?e ?del] =>
    assert (∃ d1 m, apply (DeleteRange s e del) d = Some (d1, m)
      ∧ abs_doc d1 = take (block_index s) (abs_doc d)
          ++ [AInline sh (take (offset s) cs
               ++ (if block_is_inline eb then drop (offset e) (cells (runs_or_nil eb)) else []))]
          ++ drop ((if block_is_inline eb || (0 <? offset e)
                    then block_index e else block_index e - 1) + 1) (abs_doc d))
      as (d1 & m & E & A) end;
    [|do 2 eexists; split; [done|]; split; [|exact A]; cbn [apply_all]; by rewrite E].
  rewrite apply_delete_lt by done.
  pose proof Ha as (b & rs & Hsb & Hrs & <- & <-)%abs_doc_inline_inv.
  destruct (sel_start sel) as [i o], (sel_end sel) as [j z]. cbn [block_index offset] in *.
  destruct (Nat.eqb_spec i j) as [<-|Hij].
  - assert (o ≤ z) by (unfold pos_lt in Hlt; cbn in Hlt; lia).
    destruct (apply_single_block_delete_inline d i o z b rs) as (d1 & E & A); [done..|].
    do 2 eexists. split; [exact E|]. rewrite A. simplify_eq.
    apply lookup_lt_Some in Ha as Hli. rewrite insert_take_drop by done.
    assert (block_is_inline eb = true) as -> by (apply block_is_inline_runs; eauto).
    cbn [orb]. rewrite (runs_or_nil_cells eb rs Hrs). by replace (i + 1) with (S i) by lia.
  - assert (i < j) by (unfold pos_lt in Hlt; cbn in Hlt; lia).
    destruct (apply_cross_block_delete_inline d (mkPos i o) (mkPos j z) b eb rs)
      as (d1 & m & E & _ & A); [done..|]. eauto.
Qed.
End RulesTheory.

#[local] Existing Instance byte_segmentation.

Definition rules_demo : Document :=
  mkDoc [Paragraph [run_plain (lit "ab"); run_styled (lit "cd") BOLD]; HorizontalRule;
         Paragraph [run_plain (lit "ef")]].



Lemma delete_selection_effect_witness :
  ∃ ops d', resolve rules_demo (sel_range (mkPos 2 1) (mkPos 0 3)) ADeleteSelection style_empty
            = Some ops
    ∧ apply_all ops rules_demo = Some d'
    ∧ abs_doc d' = [AInline SPara [(lit "a", (0%N, None)); (lit "b", (0%N, None));
                                   (lit "c", (BOLD, None)); (lit "f", (0%N, None))]].
Proof.
  destruct (delete_selection_effect rules_demo (sel_range (mkPos 2 1) (mkPos 0 3)) SPara
              [(lit "a", (0%N, None)); (lit "b", (0%N, None)); (lit "c", (1%N, None));
               (lit "d", (1%N, None))] (Paragraph [run_plain (lit "ef")]))
    as (ops & d' & Er & Ea & A).
  - split; [vm_compute; reflexivity|]. split; [vm_compute; reflexivity|].
    do 2 eexists. vm_compute. reflexivity.
  - reflexivity.
  - vm_compute. reflexivity.
  - reflexivity.
  - exists ops, d'. split; [exact Er|]. split; [exact Ea|]. rewrite A. vm_compute. reflexivity.
Defined.
