(* ===== verification/Undo.v ===== *)
(** * Undo: the undo stack

    src/crates/rte/src/undo.rs: groups of operations, their merging while the
    user types, the redo stack and the bound on the number of groups.  A [Vec]
    is a list in the same order: the last element is the top of the stack. *)

From S2P Require Import Prelude.
From S2P Require Import Graphemes.
From S2P Require Import Document.
From S2P Require Import Operations.

Record UndoGroup := mkGroup {
  group_ops : list EditOp;
  cursor_before : DocSelection;
  cursor_after : DocSelection
}.

Record UndoStack := mkStack {
  undo_groups : list UndoGroup;
  redo_groups : list UndoGroup;
  max_entries : nat;
  force_new_group : bool
}.

Definition stack_new (max : nat) : UndoStack := mkStack [] [] max false.
Definition stack_default : UndoStack := stack_new 100.

Definition is_insert_text (op : EditOp) : bool :=
  match op with InsertText _ _ => true | _ => false end.

Definition all_insert_text (ops : list EditOp) : bool := forallb is_insert_text ops.

Section Undo.
Context `{Segmentation}.

(** The scans of [last_insert_end] and [first_insert_position]. *)
Fixpoint insert_end_scan (rev_ops : list EditOp) : option DocPosition :=
  match rev_ops with
  | [] => None
  | InsertText p t :: _ => Some (mkPos (block_index p) (offset p + text_len t))
  | _ :: rest => insert_end_scan rest
  end.

Definition last_insert_end (ops : list EditOp) : option DocPosition :=
  insert_end_scan (rev ops).

Fixpoint first_insert_position (ops : list EditOp) : option DocPosition :=
  match ops with
  | [] => None
  | InsertText p _ :: _ => Some p
  | _ :: rest => first_insert_position rest
  end.

Definition can_merge (lastg : UndoGroup) (new_ops : list EditOp) (before : DocSelection)
    : bool :=
  if negb (all_insert_text (group_ops lastg)) || negb (all_insert_text new_ops) then false
  else if negb (bool_decide (before = cursor_after lastg)) then false
  else
    match last_insert_end (group_ops lastg), first_insert_position new_ops with
    | Some last_end, Some new_start =>
        (block_index last_end =? block_index new_start) && (offset last_end =? offset new_start)
    | _, _ => false
    end.

(** [undo.drain(..excess)] after the push of a new group. *)
Definition push_new_group (s : UndoStack) (g : UndoGroup) : UndoStack :=
  let undo := undo_groups s ++ [g] in
  let excess := length undo - max_entries s in
  mkStack (if max_entries s <? length undo then drop excess undo else undo) []
    (max_entries s) false.

Definition stack_push (s : UndoStack) (ops : list EditOp) (before after : DocSelection)
    : UndoStack :=
  if is_nil ops then s
  else
    match last (undo_groups s) with
    | Some lastg =>
        if negb (force_new_group s) && can_merge lastg ops before then
          mkStack
            (removelast (undo_groups s)
             ++ [mkGroup (group_ops lastg ++ ops) (cursor_before lastg) after])
            [] (max_entries s) (force_new_group s)
        else push_new_group s (mkGroup ops before after)
    | None => push_new_group s (mkGroup ops before after)
    end.

(** [UndoStack::undo] and [UndoStack::redo]: the group moves to the other
    stack and is returned. *)
Definition stack_undo (s : UndoStack) : option (UndoGroup * UndoStack) :=
  match last (undo_groups s) with
  | Some g =>
      Some (g, mkStack (removelast (undo_groups s)) (redo_groups s ++ [g])
                 (max_entries s) (force_new_group s))
  | None => None
  end.

Definition stack_redo (s : UndoStack) : option (UndoGroup * UndoStack) :=
  match last (redo_groups s) with
  | Some g =>
      Some (g, mkStack (undo_groups s ++ [g]) (removelast (redo_groups s))
                 (max_entries s) (force_new_group s))
  | None => None
  end.

Definition break_group (s : UndoStack) : UndoStack :=
  mkStack (undo_groups s) (redo_groups s) (max_entries s) true.

Definition stack_clear (s : UndoStack) : UndoStack := mkStack [] [] (max_entries s) false.

Definition can_undo (s : UndoStack) : bool := negb (is_nil (undo_groups s)).
Definition can_redo (s : UndoStack) : bool := negb (is_nil (redo_groups s)).
Definition undo_len (s : UndoStack) : nat := length (undo_groups s).
Definition redo_len (s : UndoStack) : nat := length (redo_groups s).

Definition map_selection (m : PosMap) (sel : DocSelection) : DocSelection :=
  mkSel (posmap_map m (anchor sel)) (posmap_map m (focus sel)).

Definition map_group (m : PosMap) (g : UndoGroup) : UndoGroup :=
  mkGroup (group_ops g) (map_selection m (cursor_before g)) (map_selection m (cursor_after g)).

Definition map_cursors (m : PosMap) (s : UndoStack) : UndoStack :=
  mkStack (map_group m <$> undo_groups s) (map_group m <$> redo_groups s)
    (max_entries s) (force_new_group s).

(** ** Lemmas *)

Lemma last_removelast {A} (l : list A) x : last l = Some x → l = removelast l ++ [x].
Proof.
  intros (l' & ->)%last_Some. by rewrite removelast_last.
Qed.

Lemma stack_undo_redo s g s' : stack_undo s = Some (g, s') → stack_redo s' = Some (g, s).
Proof.
  unfold stack_undo. destruct (last (undo_groups s)) as [g0|] eqn:E; [|done].
  intros [= <- <-]. unfold stack_redo. cbn [redo_groups undo_groups max_entries force_new_group].
  rewrite last_snoc, removelast_last, <- (last_removelast _ _ E). by destruct s.
Qed.

Lemma stack_redo_undo s g s' : stack_redo s = Some (g, s') → stack_undo s' = Some (g, s).
Proof.
  unfold stack_redo. destruct (last (redo_groups s)) as [g0|] eqn:E; [|done].
  intros [= <- <-]. unfold stack_undo. cbn [redo_groups undo_groups max_entries force_new_group].
  rewrite last_snoc, removelast_last, <- (last_removelast _ _ E). by destruct s.
Qed.

Lemma stack_push_top s ops before after :
  ops ≠ [] → 0 < max_entries s →
  ∃ pre b, last (undo_groups (stack_push s ops before after)) = Some (mkGroup (pre ++ ops) b after)
    ∧ redo_groups (stack_push s ops before after) = []
    ∧ ((pre = [] ∧ b = before)
       ∨ ∃ g, last (undo_groups s) = Some g ∧ can_merge g ops before = true
              ∧ pre = group_ops g ∧ b = cursor_before g).
Proof.
  intros Hne Hmax. unfold stack_push. destruct ops as [|op ops]; [done|]. cbn [is_nil].
  assert (∀ g, last (undo_groups (push_new_group s g)) = Some g) as Hlast.
  { intros g. unfold push_new_group. cbn [undo_groups].
    destruct (Nat.ltb_spec (max_entries s) (length (undo_groups s ++ [g]))); [|apply last_snoc].
    rewrite length_app in *. cbn [length] in *.
    rewrite drop_app_le by lia. apply last_snoc. }
  destruct (last (undo_groups s)) as [lastg|] eqn:El.
  - destruct (negb (force_new_group s) && can_merge lastg (op :: ops) before) eqn:Hm.
    + apply andb_true_iff in Hm as [_ Hm]. exists (group_ops lastg), (cursor_before lastg). cbn [undo_groups redo_groups].
      rewrite last_snoc. split_and!; [done|done|]. right. by exists lastg.
    + exists [], before. rewrite Hlast. split_and!; [done|done|by left].
  - exists [], before. rewrite Hlast. split_and!; [done|done|by left].
Qed.

Lemma stack_push_len s ops before after :
  0 < max_entries s → undo_len s ≤ max_entries s →
  undo_len (stack_push s ops before after) ≤ max_entries s.
Proof.
  intros Hmax Hlen. unfold undo_len, stack_push in *. destruct (is_nil ops); [done|].
  assert (∀ g, length (undo_groups (push_new_group s g)) ≤ max_entries s) as Hnew.
  { intros g. unfold push_new_group. cbn [undo_groups].
    destruct (Nat.ltb_spec (max_entries s) (length (undo_groups s ++ [g]))); [|done].
    rewrite length_drop. lia. }
  destruct (last (undo_groups s)) as [lastg|] eqn:El; [|apply Hnew].
  destruct (negb (force_new_group s) && can_merge lastg ops before); [|apply Hnew].
  cbn [undo_groups]. rewrite (last_removelast _ _ El), length_app in Hlen.
  rewrite length_app. cbn [length] in *. lia.
Qed.

(** ** Properties *)

(** The undo stack never holds more groups than its bound, a push leaves
    its operations on top (in a group of their own, or at the end of the last
    group when the user is typing on), and clears the redo stack. *)
Theorem stack_push_spec (s : UndoStack) (ops : list EditOp) (before after : DocSelection)
    (Hne : ops ≠ []) (Hmax : 0 < max_entries s) (Hlen : undo_len s ≤ max_entries s) :
  undo_len (stack_push s ops before after) ≤ max_entries (stack_push s ops before after)
  ∧ can_redo (stack_push s ops before after) = false
  ∧ ∃ pre b, last (undo_groups (stack_push s ops before after))
             = Some (mkGroup (pre ++ ops) b after)
      ∧ ((pre = [] ∧ b = before)
         ∨ ∃ g, last (undo_groups s) = Some g ∧ can_merge g ops before = true
                ∧ pre = group_ops g ∧ b = cursor_before g).
Proof.
  assert (max_entries (stack_push s ops before after) = max_entries s) as ->.
  { unfold stack_push. destruct (is_nil ops); [done|].
    destruct (last (undo_groups s)) as [g|]; [|done].
    by destruct (negb (force_new_group s) && can_merge g ops before). }
  split; [by apply stack_push_len|].
  destruct (stack_push_top s ops before after) as (pre & b & Hl & Hr & Hp); [done..|].
  split; [unfold can_redo; by rewrite Hr|]. eauto.
Qed.

(** Undo and redo move a group back and forth between the two stacks: each
    undoes the other exactly, the bound and the group break included. *)
Theorem stack_undo_redo_inverse (s s' : UndoStack) (g : UndoGroup) :
  stack_undo s = Some (g, s') ↔ stack_redo s' = Some (g, s).
Proof. split; [apply stack_undo_redo|apply stack_redo_undo]. Qed.
End Undo.

#[local] Existing Instance byte_segmentation.

Lemma stack_push_spec_witness :
  let g := mkGroup [InsertText (mkPos 0 0) (lit "a")] (sel_caret (mkPos 0 0))
             (sel_caret (mkPos 0 1)) in
  let s := mkStack [g] [g] 1 false in
  undo_len (stack_push s [InsertText (mkPos 0 1) (lit "b")] (sel_caret (mkPos 0 1))
              (sel_caret (mkPos 0 2))) ≤ 1.
Proof.
  intros g s.
  destruct (stack_push_spec s [InsertText (mkPos 0 1) (lit "b")] (sel_caret (mkPos 0 1))
              (sel_caret (mkPos 0 2))) as (Hl & _ & _).
  - discriminate.
  - subst s g. vm_compute. lia.
  - subst s g. vm_compute. lia.
  - exact Hl.
Defined.
