(* ===== verification/Input.v ===== *)
(** * Input: key bindings and cursor movement

    src/crates/rte/src/widget/input.rs.  The key event types are those of the
    third-party crate [iced]: [Key] and [Named] list the keys the code tells
    apart, the modifiers are the two queries it makes.  [CharTables] holds the
    Unicode tables of the standard library the code consults. *)

From S2P Require Import Prelude.
From S2P Require Import Graphemes.
From S2P Require Import Strings.
From S2P Require Import Document.
From S2P Require Import Cells.
From S2P Require Import Rules.

Inductive MoveAction :=
| MLeft | MRight | MUp | MDown | MHome | MEnd
| MWordLeft | MWordRight | MDocumentStart | MDocumentEnd.

#[export] Instance MoveAction_eq_dec : EqDecision MoveAction.
Proof. solve_decision. Defined.

Inductive KeyAction :=
| KEdit (a : EditAction)
| KMove (m : MoveAction)
| KSelect (m : MoveAction)
| KSelectAll | KCopy | KCut | KPaste | KUndo | KRedo | KNone.

(** [iced::keyboard::key::Named], the keys of [map_named_key]. *)
Inductive Named :=
| ArrowLeft | ArrowRight | ArrowUp | ArrowDown | NHome | NEnd
| Backspace | NDelete | Enter | OtherNamed.

Inductive Key := KeyNamed (n : Named) | KeyCharacter (c : text) | KeyUnidentified.

Record Modifiers := mkMods { command : bool; shift : bool }.

(** [char::is_alphanumeric] and [str::to_lowercase]: ASCII is as documented,
    the rest of Unicode is a parameter. *)
Class CharTables := {
  is_alphanumeric : N → bool;
  to_lowercase : text → text;
  is_alphanumeric_ascii c : (c < 128)%N →
    is_alphanumeric c
    = (((48 <=? c) && (c <=? 57)) || ((65 <=? c) && (c <=? 90)) || ((97 <=? c) && (c <=? 122)))%N
}.

Definition ascii_alphanumeric (c : N) : bool :=
  (((48 <=? c) && (c <=? 57)) || ((65 <=? c) && (c <=? 90)) || ((97 <=? c) && (c <=? 122)))%N.

Definition ascii_lower (c : ascii) : ascii :=
  let n := N_of_ascii c in
  if ((65 <=? n) && (n <=? 90))%N then ascii_of_N (n + 32) else c.

(** The tables restricted to ASCII. *)
Definition ascii_tables : CharTables := {|
  is_alphanumeric := ascii_alphanumeric;
  to_lowercase := map ascii_lower;
  is_alphanumeric_ascii c _ := eq_refl
|}.

Section Input.
Context `{Segmentation} `{CharTables}.

(** ** Key events *)

Definition arrow_action (base widened : MoveAction) (cmd sh : bool) : KeyAction :=
  let motion := if cmd then widened else base in
  if sh then KSelect motion else KMove motion.

Definition map_command_shortcut (key : Key) (sh : bool) : option KeyAction :=
  match key with
  | KeyCharacter ch =>
      let normalized := to_lowercase ch in
      if bool_decide (normalized = lit "b") then Some (KEdit (AToggleInlineStyle BOLD))
      else if bool_decide (normalized = lit "i") then Some (KEdit (AToggleInlineStyle ITALIC))
      else if bool_decide (normalized = lit "u") then Some (KEdit (AToggleInlineStyle UNDERLINE))
      else if bool_decide (normalized = lit "c") then Some KCopy
      else if bool_decide (normalized = lit "x") then Some KCut
      else if bool_decide (normalized = lit "v") then Some KPaste
      else if bool_decide (normalized = lit "z") then Some (if sh then KRedo else KUndo)
      else if bool_decide (normalized = lit "y") then Some KRedo
      else if bool_decide (normalized = lit "a") then Some KSelectAll
      else None
  | _ => None
  end.

Definition map_named_key (n : Named) (cmd sh : bool) : option KeyAction :=
  match n with
  | ArrowLeft => Some (arrow_action MLeft MWordLeft cmd sh)
  | ArrowRight => Some (arrow_action MRight MWordRight cmd sh)
  | ArrowUp => if cmd then None else Some (if sh then KSelect MUp else KMove MUp)
  | ArrowDown => if cmd then None else Some (if sh then KSelect MDown else KMove MDown)
  | NHome => Some (arrow_action MHome MDocumentStart cmd sh)
  | NEnd => Some (arrow_action MEnd MDocumentEnd cmd sh)
  | Backspace => Some (KEdit ADeleteBackward)
  | NDelete => Some (KEdit ADeleteForward)
  | Enter => Some (KEdit ASplitBlock)
  | OtherNamed => None
  end.

Definition text_input (cmd : bool) (t : option text) : KeyAction :=
  match t with
  | Some t =>
      let filtered := encode (filter (λ c, is_control c = false) (chars t)) in
      if negb cmd && negb (is_nil filtered) then KEdit (AInsertText filtered) else KNone
  | None => KNone
  end.

Definition map_key_event (key : Key) (mods : Modifiers) (t : option text) : KeyAction :=
  let cmd := command mods in
  let sh := shift mods in
  match (if cmd then map_command_shortcut key sh else None) with
  | Some action => action
  | None =>
      match (match key with KeyNamed n => map_named_key n cmd sh | _ => None end) with
      | Some action => action
      | None => text_input cmd t
      end
  end.

(** ** Character classes *)

Inductive CharClass := Word | Whitespace | Other.

#[export] Instance CharClass_eq_dec : EqDecision CharClass.
Proof. solve_decision. Defined.

Definition classify (c : N) : CharClass :=
  if is_alphanumeric c || (c =? 95)%N then Word
  else if is_whitespace c then Whitespace
  else Other.

Definition classify_grapheme (g : text) : CharClass :=
  match chars g with [] => Other | c :: _ => classify c end.

(** ** Movement *)

Definition move_left (d : Document) (p : DocPosition) : DocPosition :=
  if 0 <? offset p then mkPos (block_index p) (offset p - 1)
  else if 0 <? block_index p
  then mkPos (block_index p - 1) (block_len_at d (block_index p - 1))
  else p.

Definition move_right (d : Document) (p : DocPosition) : DocPosition :=
  if offset p <? block_len_at d (block_index p) then mkPos (block_index p) (offset p + 1)
  else if block_index p + 1 <? doc_block_count d then mkPos (block_index p + 1) 0
  else p.

Definition block_text (d : Document) (i : nat) : text :=
  match doc_block d i with Some b => block_flattened_text b | None => [] end.

(** The loops [while idx > 0 && class(graphemes[idx - 1]) == k] and
    [while idx < len && class(graphemes[idx]) == k]; [gs] is in range where
    they index it. *)
Definition class_at (gs : list text) (i : nat) (k : CharClass) : bool :=
  match gs !! i with Some g => bool_decide (classify_grapheme g = k) | None => false end.

Fixpoint skip_left (gs : list text) (k : CharClass) (i : nat) : nat :=
  match i with
  | O => O
  | S j => if class_at gs j k then skip_left gs k j else i
  end.

Fixpoint skip_right (gs : list text) (k : CharClass) (fuel i : nat) : nat :=
  match fuel with
  | O => i
  | S fuel =>
      if (i <? length gs) && class_at gs i k then skip_right gs k fuel (S i) else i
  end.

(** The class of the cluster before or at an index in range. *)
Definition class_of (gs : list text) (i : nat) : CharClass :=
  match gs !! i with Some g => classify_grapheme g | None => Other end.

Definition word_left (d : Document) (p : DocPosition) : DocPosition :=
  let gs := graphemes (block_text d (block_index p)) in
  if offset p =? 0 then
    if 0 <? block_index p
    then mkPos (block_index p - 1) (block_len_at d (block_index p - 1))
    else p
  else
    let i := skip_left gs Whitespace (Nat.min (offset p) (length gs)) in
    if i =? 0 then mkPos (block_index p) 0
    else mkPos (block_index p) (skip_left gs (class_of gs (i - 1)) i).

Definition word_right (d : Document) (p : DocPosition) : DocPosition :=
  let gs := graphemes (block_text d (block_index p)) in
  let len := length gs in
  if len <=? offset p then
    if block_index p + 1 <? doc_block_count d then mkPos (block_index p + 1) 0 else p
  else
    let i := skip_right gs (class_of gs (offset p)) len (offset p) in
    mkPos (block_index p) (skip_right gs Whitespace len i).

Definition home (p : DocPosition) : DocPosition := mkPos (block_index p) 0.
Definition end_of_block (d : Document) (p : DocPosition) : DocPosition :=
  mkPos (block_index p) (block_len_at d (block_index p)).
Definition document_start : DocPosition := pos_zero.
Definition document_end (d : Document) : DocPosition := doc_end_position d.

Definition word_at (d : Document) (p : DocPosition) : DocPosition * DocPosition :=
  let gs := graphemes (block_text d (block_index p)) in
  let len := length gs in
  if len =? 0 then (mkPos (block_index p) 0, mkPos (block_index p) 0)
  else
    let anchor_idx :=
      if (0 <? offset p) && (offset p <=? len) then offset p - 1
      else if offset p <? len then offset p
      else len - 1 in
    let k := class_of gs anchor_idx in
    let start := skip_left gs k anchor_idx in
    let stop := skip_right gs k len (anchor_idx + 1) in
    (mkPos (block_index p) start,
     mkPos (block_index p) (Nat.min stop (block_len_at d (block_index p)))).

Definition select_block (d : Document) (p : DocPosition) : DocPosition * DocPosition :=
  (mkPos (block_index p) 0, mkPos (block_index p) (block_len_at d (block_index p))).
End Input.

(** ** Cursor movement stays in the document *)

Section InputTheory.
Context `{Segmentation} `{CharTables}.

Definition valid (d : Document) (p : DocPosition) : Prop := doc_is_valid_position d p = true.

Lemma valid_iff d i o :
  valid d (mkPos i o) ↔ i < doc_block_count d ∧ o ≤ block_len_at d i.
Proof.
  unfold valid, doc_is_valid_position, block_len_at, doc_block_count, doc_block.
  cbn [block_index offset]. destruct (blocks d !! i) as [b|] eqn:E.
  - apply lookup_lt_Some in E as Hlt. rewrite Nat.leb_le. naive_solver.
  - apply lookup_ge_None in E. split; [done|lia].
Qed.

Lemma move_left_valid d p : valid d p → valid d (move_left d p).
Proof.
  destruct p as [i o]. rewrite valid_iff. unfold move_left. cbn [block_index offset].
  intros [Hi Ho]. destruct (Nat.ltb_spec 0 o); [apply valid_iff; lia|].
  destruct (Nat.ltb_spec 0 i); apply valid_iff; lia.
Qed.

Lemma move_right_valid d p : valid d p → valid d (move_right d p).
Proof.
  destruct p as [i o]. rewrite valid_iff. unfold move_right. cbn [block_index offset].
  intros [Hi Ho]. destruct (Nat.ltb_spec o (block_len_at d i)); [apply valid_iff; lia|].
  destruct (Nat.ltb_spec (i + 1) (doc_block_count d)); apply valid_iff; lia.
Qed.

Lemma skip_left_le gs k i : skip_left gs k i ≤ i.
Proof. induction i as [|i IH]; cbn [skip_left]; [done|]. destruct (class_at gs i k); lia. Qed.

Lemma skip_right_bounds gs k fuel i :
  i ≤ skip_right gs k fuel i ∧ (i ≤ length gs → skip_right gs k fuel i ≤ length gs).
Proof.
  revert i. induction fuel as [|fuel IH]; intros i; cbn [skip_right]; [lia|].
  destruct (Nat.ltb_spec i (length gs)); cbn [andb]; [|lia].
  destruct (class_at gs i k); [|lia]. destruct (IH (S i)). lia.
Qed.

(** The loop is stopped by its condition, not by the fuel. *)
Lemma skip_right_stops gs k fuel i :
  length gs ≤ fuel + i →
  class_at gs (skip_right gs k fuel i) k = false.
Proof.
  revert i. induction fuel as [|fuel IH]; intros i Hf; cbn [skip_right].
  { unfold class_at. by rewrite lookup_ge_None_2 by lia. }
  destruct (Nat.ltb_spec i (length gs)); cbn [andb].
  - destruct (class_at gs i k) eqn:E; [|done]. apply IH. lia.
  - unfold class_at. by rewrite lookup_ge_None_2 by lia.
Qed.

Lemma skip_right_same gs k fuel i j :
  i ≤ j → j < skip_right gs k fuel i → class_at gs j k = true.
Proof.
  revert i. induction fuel as [|fuel IH]; intros i Hij; cbn [skip_right]; [lia|].
  destruct (Nat.ltb_spec i (length gs)); cbn [andb]; [|lia].
  destruct (class_at gs i k) eqn:E; [|lia].
  intros Hj. destruct (decide (i = j)) as [->|]; [done|]. apply (IH (S i)); lia.
Qed.

Lemma word_left_valid d p : valid d p → valid d (word_left d p).
Proof.
  destruct p as [i o]. rewrite valid_iff. unfold word_left. cbn [block_index offset].
  intros [Hi Ho]. set (gs := graphemes (block_text d i)).
  destruct (Nat.eqb_spec o 0) as [->|Ho0].
  { destruct (Nat.ltb_spec 0 i); apply valid_iff; lia. }
  pose proof (skip_left_le gs Whitespace (Nat.min o (length gs))) as Hw.
  set (j := skip_left gs Whitespace (Nat.min o (length gs))) in *.
  destruct (j =? 0); [apply valid_iff; lia|].
  pose proof (skip_left_le gs (class_of gs (j - 1)) j). apply valid_iff. lia.
Qed.

Lemma word_right_valid d p :
  valid d p → text_len (block_text d (block_index p)) ≤ block_len_at d (block_index p) →
  valid d (word_right d p).
Proof.
  destruct p as [i o]. rewrite valid_iff. unfold word_right, text_len. cbn [block_index offset].
  intros [Hi Ho] Hlen. set (gs := graphemes (block_text d i)) in *.
  destruct (Nat.leb_spec (length gs) o) as [Hle|Hlt].
  { destruct (Nat.ltb_spec (i + 1) (doc_block_count d)); apply valid_iff; lia. }
  set (j := skip_right gs (class_of gs o) (length gs) o).
  destruct (skip_right_bounds gs (class_of gs o) (length gs) o) as [_ Hj]. fold j in Hj.
  destruct (skip_right_bounds gs Whitespace (length gs) j) as [_ Hk].
  apply valid_iff. lia.
Qed.

Lemma word_at_valid d p :
  valid d p → valid d (word_at d p).1 ∧ valid d (word_at d p).2.
Proof.
  destruct p as [i o]. rewrite valid_iff. unfold word_at. cbn [block_index offset].
  intros [Hi Ho]. set (gs := graphemes (block_text d i)).
  destruct (Nat.eqb_spec (length gs) 0); cbn [fst snd].
  { split; apply valid_iff; lia. }
  match goal with |- context [skip_left gs (class_of gs ?a) ?a] => set (an := a) end.
  pose proof (skip_left_le gs (class_of gs an) an).
  assert (an ≤ o) as Han.
  { unfold an. destruct (Nat.ltb_spec 0 o), (Nat.leb_spec o (length gs)); cbn [andb];
      try lia; destruct (Nat.ltb_spec o (length gs)); lia. }
  split; apply valid_iff; lia.
Qed.

Lemma end_position_valid d : blocks d ≠ [] → valid d (doc_end_position d).
Proof.
  intros Hne. unfold doc_end_position. apply valid_iff. unfold doc_block_count.
  destruct (blocks d); [done|]. simpl. lia.
Qed.

(** ** Properties *)

(** Left and right undo each other: from any position that is not the
    start of the document, moving left then right comes back; from any that is
    not the end, right then left does. *)
Theorem move_left_right_inverse (d : Document) (p : DocPosition)
    (Hv : doc_is_valid_position d p = true) :
  (p ≠ pos_zero → move_right d (move_left d p) = p)
  ∧ (p ≠ doc_end_position d → move_left d (move_right d p) = p).
Proof.
  destruct p as [i o]. apply valid_iff in Hv as [Hi Ho]. unfold doc_block_count in Hi.
  unfold move_left, move_right, doc_block_count, doc_end_position, pos_zero.
  cbn [block_index offset]. split; intros Hne.
  - destruct (Nat.ltb_spec 0 o) as [Hlt|Hge]; cbn [block_index offset].
    { destruct (Nat.ltb_spec (o - 1) (block_len_at d i)); [|lia]. f_equal. lia. }
    destruct (Nat.ltb_spec 0 i) as [Hi0|Hi0]; cbn [block_index offset].
    + rewrite Nat.ltb_irrefl. destruct (Nat.ltb_spec (i - 1 + 1) (length (blocks d))); [|lia].
      f_equal; lia.
    + destruct Hne. f_equal; lia.
  - destruct (Nat.ltb_spec o (block_len_at d i)) as [Hlt|Hge]; cbn [block_index offset].
    { destruct (Nat.ltb_spec 0 (o + 1)); [|lia]. f_equal. lia. }
    destruct (Nat.ltb_spec (i + 1) (length (blocks d))) as [Hi1|Hi1]; cbn [block_index offset].
    + destruct (Nat.ltb_spec 0 (i + 1)); [|lia]. cbn. replace (i + 1 - 1) with i by lia.
      f_equal. lia.
    + destruct Hne. assert (length (blocks d) - 1 = i) as -> by lia. f_equal. lia.
Qed.

(** Word-right makes progress and stops at a word boundary: unless the
    position is the end of the last block, the new position is after it; inside
    a block it skips the rest of one word and the blanks after it, and the
    cluster it stops at is not a blank. *)
Theorem word_right_progress (d : Document) (p : DocPosition)
    (Hend : offset p < text_len (block_text d (block_index p))
            ∨ block_index p + 1 < doc_block_count d) :
  pos_lt p (word_right d p)
  ∧ (block_index (word_right d p) = block_index p →
     class_at (graphemes (block_text d (block_index p))) (offset (word_right d p)) Whitespace
       = false
     ∧ ∃ j, offset p < j ≤ offset (word_right d p)
       ∧ (∀ k, offset p ≤ k < j →
            class_of (graphemes (block_text d (block_index p))) k
            = class_of (graphemes (block_text d (block_index p))) (offset p))
       ∧ (∀ k, j ≤ k < offset (word_right d p) →
            class_of (graphemes (block_text d (block_index p))) k = Whitespace)).
Proof.
  destruct p as [i o]. unfold word_right, text_len in *. cbn [block_index offset] in *.
  set (gs := graphemes (block_text d i)) in *.
  destruct (Nat.leb_spec (length gs) o) as [Hle|Hlt].
  { destruct (Nat.ltb_spec (i + 1) (doc_block_count d)) as [Hc|Hc]; [|lia].
    unfold pos_lt. cbn [block_index offset]. split; [lia|lia]. }
  set (k0 := class_of gs o). set (j := skip_right gs k0 (length gs) o).
  assert (∀ k n, class_at gs n k = true → class_of gs n = k) as Hcl.
  { intros k n. unfold class_at, class_of. destruct (gs !! n); [|done].
    by intros ?%bool_decide_eq_true. }
  assert (o < j) as Hoj.
  { unfold j. destruct (length gs) as [|n] eqn:El; [lia|]. cbn [skip_right].
    rewrite El. destruct (Nat.ltb_spec o (S n)); [|lia]. cbn [andb].
    assert (class_at gs o k0 = true) as ->.
    { unfold class_at, k0, class_of. destruct (lookup_lt_is_Some_2 gs o) as [g ->]; [lia|].
      by apply bool_decide_eq_true. }
    destruct (skip_right_bounds gs k0 n (S o)). lia. }
  destruct (skip_right_bounds gs Whitespace (length gs) j) as [Hjk _].
  split; [unfold pos_lt; cbn [block_index offset]; right; split; [done|lia]|].
  cbn [block_index offset]. intros _. split; [apply skip_right_stops; lia|].
  exists j. split_and!; [lia|lia|..]; intros k Hk; apply Hcl.
  - eapply (skip_right_same gs k0 (length gs) o); lia.
  - eapply (skip_right_same gs Whitespace (length gs) j); lia.
Qed.


End InputTheory.

#[local] Existing Instance byte_segmentation.
#[local] Existing Instance ascii_tables.

Definition input_demo : Document :=
  mkDoc [Paragraph [run_plain (lit "foo, bar")]; Paragraph [run_plain (lit "x")]].

Lemma move_left_right_inverse_witness :
  move_right input_demo (move_left input_demo (mkPos 1 0)) = mkPos 1 0
  ∧ move_left input_demo (move_right input_demo (mkPos 0 8)) = mkPos 0 8.
Proof.
  split.
  - apply (move_left_right_inverse input_demo (mkPos 1 0)); [vm_compute; reflexivity|discriminate].
  - apply (move_left_right_inverse input_demo (mkPos 0 8)); [vm_compute; reflexivity|discriminate].
Defined.

Lemma word_right_progress_witness :
  pos_lt (mkPos 0 3) (word_right input_demo (mkPos 0 3))
  ∧ word_right input_demo (mkPos 0 3) = mkPos 0 5.
Proof.
  split; [|vm_compute; reflexivity].
  apply (word_right_progress input_demo (mkPos 0 3)). left. vm_compute. lia.
Defined.
