(* ===== verification/Editor.v ===== *)
(** * Editor: the state of the rich text editor

    src/crates/rte/src/widget/editor_state.rs with the cursor and drag state of
    widget/cursor.rs.  [perform] is [None] where the code panics.  An [f32] is
    its bit pattern: the editor only stores it. *)

From S2P Require Import Prelude.
From S2P Require Import Graphemes.
From S2P Require Import Document.
From S2P Require Import Cells.
From S2P Require Import Normalize.
From S2P Require Import Operations.
From S2P Require Import OperationsTheory.
From S2P Require Import InverseTheory.
From S2P Require Import Rules.
From S2P Require Import Undo.
From S2P Require Import Input.

(** ** Cursor and drag state *)

Record CursorState := mkCursor {
  focused : bool;
  target_x : option N;
  target_column : option nat
}.

Definition cursor_new : CursorState := mkCursor false None None.
(** [reset_blink] only marks the call site. *)
Definition reset_blink (c : CursorState) : CursorState := c.
Definition cursor_focus (c : CursorState) : CursorState :=
  reset_blink (mkCursor true (target_x c) (target_column c)).
Definition cursor_unfocus (c : CursorState) : CursorState :=
  mkCursor false (target_x c) (target_column c).
Definition set_target_x (c : CursorState) (x : N) : CursorState :=
  mkCursor (focused c) (Some x) (target_column c).
Definition clear_target_x (c : CursorState) : CursorState :=
  mkCursor (focused c) None (target_column c).
Definition set_target_column (c : CursorState) (col : nat) : CursorState :=
  mkCursor (focused c) (target_x c) (Some col).
Definition clear_target_column (c : CursorState) : CursorState :=
  mkCursor (focused c) (target_x c) None.

(** After an edit or a horizontal move. *)
Definition cursor_moved (c : CursorState) : CursorState :=
  clear_target_column (clear_target_x (reset_blink c)).

Record DragState := mkDrag { drag_anchor : DocPosition; drag_active : bool }.

Definition drag_start (p : DocPosition) : DragState := mkDrag p true.
Definition drag_end (d : DragState) : DragState := mkDrag (drag_anchor d) false.

(** *** Which blocks a selection highlights *)

Inductive BlockSelectionKind :=
| Single (start_offset end_offset : nat)
| First (start_offset : nat)
| Full
| Last (end_offset : nat).

Definition selection_block_ranges (sel : DocSelection) : list (nat * BlockSelectionKind) :=
  if sel_is_collapsed sel then []
  else
    let s := sel_start sel in
    let e := sel_end sel in
    if block_index s =? block_index e
    then [(block_index s, Single (offset s) (offset e))]
    else (block_index s, First (offset s))
           :: ((λ i, (i, Full)) <$> seq (S (block_index s)) (block_index e - S (block_index s)))
           ++ [(block_index e, Last (offset e))].

(** ** Editor state and actions *)

Record InternalClipboard := mkClipboard { clip_slice : DocSlice; clip_text : text }.

Record EditorState := mkEditor {
  document : Document;
  selection : DocSelection;
  undo_stack : UndoStack;
  pending_style : InlineStyle;
  cursor : CursorState;
  drag : option DragState;
  internal_clipboard : option InternalClipboard
}.

Inductive Action :=
| Edit (a : EditAction)
| Move (m : MoveAction)
| Select (m : MoveAction)
| SelectAll
| ActUndo
| ActRedo
| Copy
| Cut
| Paste (t : text)
| Click (p : DocPosition)
| DoubleClick (p : DocPosition)
| TripleClick (p : DocPosition)
| Drag (p : DocPosition)
| LinkClicked (href : text)
| Focus
| Blur.

Definition from_document (d : Document) : EditorState :=
  mkEditor d (sel_caret pos_zero) stack_default style_empty cursor_new None None.
Definition editor_new : EditorState := from_document doc_new.

(** Field updates. *)
Definition with_document (st : EditorState) (d : Document) : EditorState :=
  mkEditor d (selection st) (undo_stack st) (pending_style st) (cursor st) (drag st)
    (internal_clipboard st).
Definition with_selection (st : EditorState) (sel : DocSelection) : EditorState :=
  mkEditor (document st) sel (undo_stack st) (pending_style st) (cursor st) (drag st)
    (internal_clipboard st).
Definition with_undo_stack (st : EditorState) (s : UndoStack) : EditorState :=
  mkEditor (document st) (selection st) s (pending_style st) (cursor st) (drag st)
    (internal_clipboard st).
Definition with_pending_style (st : EditorState) (s : InlineStyle) : EditorState :=
  mkEditor (document st) (selection st) (undo_stack st) s (cursor st) (drag st)
    (internal_clipboard st).
Definition with_cursor (st : EditorState) (c : CursorState) : EditorState :=
  mkEditor (document st) (selection st) (undo_stack st) (pending_style st) c (drag st)
    (internal_clipboard st).
Definition with_drag (st : EditorState) (d : option DragState) : EditorState :=
  mkEditor (document st) (selection st) (undo_stack st) (pending_style st) (cursor st) d
    (internal_clipboard st).
Definition with_clipboard (st : EditorState) (c : option InternalClipboard) : EditorState :=
  mkEditor (document st) (selection st) (undo_stack st) (pending_style st) (cursor st) (drag st) c.

Definition set_selection (st : EditorState) (sel : DocSelection) : EditorState :=
  with_cursor (with_selection st sel) (cursor_moved (cursor st)).

Definition is_focused (st : EditorState) : bool := focused (cursor st).

Section Editor.
Context `{Segmentation} `{CharTables}.

Definition selection_text (st : EditorState) : text :=
  if sel_is_collapsed (selection st) then []
  else
    match doc_slice (document st) (sel_start (selection st)) (sel_end (selection st)) with
    | Some sl => join_lines (block_flattened_text <$> slice_blocks sl)
    | None => []
    end.

Definition clamp_selection (d : Document) (sel : DocSelection) : DocSelection :=
  mkSel (doc_clamp_position d (anchor sel)) (doc_clamp_position d (focus sel)).

(** *** Applying operations *)

(** The loop of [apply_action]: the document, the dirty blocks in order and
    the selection mapped through every edit. *)
Fixpoint apply_ops (ops : list EditOp) (d : Document) (dirty : list nat) (sel : DocSelection)
    : option (Document * list nat * DocSelection) :=
  match ops with
  | [] => Some (d, dirty, sel)
  | op :: ops =>
      '(d', m) ← apply op d;
      apply_ops ops d' (dirty ++ [pm_block_index m])
        (mkSel (posmap_map m (anchor sel)) (posmap_map m (focus sel)))
  end.

(** [update_cursor_after_ops] on the reversed operations. *)
Fixpoint cursor_after_scan (rev_ops : list EditOp) (sel : DocSelection) : DocSelection :=
  match rev_ops with
  | [] => sel
  | InsertText p t :: _ => sel_caret (mkPos (block_index p) (offset p + text_len t))
  | DeleteRange s _ _ :: _ => sel_caret s
  | SplitBlock p :: _ => sel_caret (mkPos (block_index p + 1) 0)
  | MergeBlocks i _ mo :: _ => sel_caret (mkPos (i - 1) mo)
  | _ :: rest => cursor_after_scan rest sel
  end.

Definition update_cursor_after_ops (ops : list EditOp) (sel : DocSelection) : DocSelection :=
  cursor_after_scan (rev ops) sel.

(** [dirty_blocks.sort_unstable(); dedup()]. *)
Definition sort_dedup (l : list nat) : list nat :=
  filter (λ i, i ∈ l) (seq 0 (S (max_list l))).

(** [apply_action] once the rules have answered with operations. *)
Definition commit_ops (st : EditorState) (ops : list EditOp) : option EditorState :=
  let before := selection st in
  '(d1, dirty, sel1) ← apply_ops ops (document st) [] before;
  let sel2 := update_cursor_after_ops ops sel1 in
  let d2 := normalize_blocks d1 (sort_dedup dirty) in
  let sel3 := clamp_selection d2 sel2 in
  Some (mkEditor d2 sel3 (stack_push (undo_stack st) ops before sel3) style_empty
          (cursor_moved (cursor st)) (drag st) (internal_clipboard st)).

Definition apply_action (st : EditorState) (action : EditAction) : option EditorState :=
  let collapsed_toggle :=
    match action with
    | AToggleInlineStyle style => if sel_is_collapsed (selection st) then Some style else None
    | _ => None
    end in
  ops ← resolve (document st) (selection st) action (pending_style st);
  if is_nil ops then
    match collapsed_toggle with
    | Some style =>
        Some (with_undo_stack
                (with_pending_style st (style_toggle (pending_style st) style))
                (break_group (undo_stack st)))
    | None => Some st
    end
  else commit_ops st ops.

(** *** Undo and redo *)

Definition undo (st : EditorState) : option EditorState :=
  match stack_undo (undo_stack st) with
  | None => Some st
  | Some (g, s) =>
      d1 ← undo_ops (rev (group_ops g)) (document st);
      let d2 := normalize d1 in
      Some (mkEditor d2 (clamp_selection d2 (cursor_before g)) s (pending_style st)
              (reset_blink (cursor st)) (drag st) (internal_clipboard st))
  end.

Definition redo (st : EditorState) : option EditorState :=
  match stack_redo (undo_stack st) with
  | None => Some st
  | Some (g, s) =>
      d1 ← apply_all (group_ops g) (document st);
      let d2 := normalize d1 in
      Some (mkEditor d2 (clamp_selection d2 (cursor_after g)) s (pending_style st)
              (reset_blink (cursor st)) (drag st) (internal_clipboard st))
  end.

(** *** Movement *)

Definition vertical_target (d : Document) (f : DocPosition) (desired : nat) (up : bool)
    : DocPosition :=
  if up then
    if 0 <? block_index f
    then mkPos (block_index f - 1) (Nat.min (block_len_at d (block_index f - 1)) desired)
    else mkPos 0 0
  else
    if block_index f + 1 <? doc_block_count d
    then mkPos (block_index f + 1) (Nat.min (block_len_at d (block_index f + 1)) desired)
    else doc_end_position d.

Definition is_vertical (m : MoveAction) : bool :=
  match m with MUp | MDown => true | _ => false end.

Definition move_target (st : EditorState) (m : MoveAction) (extend : bool) : DocPosition :=
  let d := document st in
  let f := focus (selection st) in
  let desired := default (offset f) (target_column (cursor st)) in
  let collapse := negb extend && negb (sel_is_collapsed (selection st)) in
  match m with
  | MLeft => if collapse then sel_start (selection st) else move_left d f
  | MRight => if collapse then sel_end (selection st) else move_right d f
  | MWordLeft => word_left d f
  | MWordRight => word_right d f
  | MHome => home f
  | MEnd => end_of_block d f
  | MDocumentStart => document_start
  | MDocumentEnd => document_end d
  | MUp => vertical_target d f desired true
  | MDown => vertical_target d f desired false
  end.

Definition apply_move (st : EditorState) (m : MoveAction) (extend : bool) : EditorState :=
  let new_focus := move_target st m extend in
  let c1 :=
    if is_vertical m then
      match target_column (cursor st) with
      | None => set_target_column (cursor st) (offset (focus (selection st)))
      | Some _ => cursor st
      end
    else cursor_moved (cursor st) in
  with_cursor
    (with_selection st
       (if extend then sel_range (anchor (selection st)) new_focus else sel_caret new_focus))
    (reset_blink c1).

(** *** Mouse *)

Definition handle_click (st : EditorState) (p : DocPosition) : EditorState :=
  let p := doc_clamp_position (document st) p in
  mkEditor (document st) (sel_caret p) (undo_stack st) style_empty
    (reset_blink (cursor_focus (cursor st))) (Some (drag_start p)) (internal_clipboard st).

Definition select_around (st : EditorState) (range : DocPosition * DocPosition) : EditorState :=
  mkEditor (document st) (sel_range range.1 range.2) (undo_stack st) style_empty
    (reset_blink (cursor_focus (cursor st))) None (internal_clipboard st).

Definition handle_double_click (st : EditorState) (p : DocPosition) : EditorState :=
  select_around st (word_at (document st) (doc_clamp_position (document st) p)).

Definition handle_triple_click (st : EditorState) (p : DocPosition) : EditorState :=
  select_around st (select_block (document st) (doc_clamp_position (document st) p)).

Definition handle_drag (st : EditorState) (p : DocPosition) : EditorState :=
  let p := doc_clamp_position (document st) p in
  match drag st with
  | Some dr => with_cursor (with_selection st (sel_range (drag_anchor dr) p))
                 (reset_blink (cursor st))
  | None => with_cursor st (reset_blink (cursor st))
  end.

(** *** Paste *)

(** A document and the operations applied to it so far. *)
Definition pasted : Type := Document * list EditOp.

(** [op.apply(&mut doc); ops.push(op)] *)
Definition do_op (op : EditOp) (s : pasted) : option pasted :=
  '(d', _) ← apply op s.1; Some (d', s.2 ++ [op]).

Definition insert_runs_at (i : nat) (runs existing : list StyledRun) : list StyledRun :=
  take i existing ++ runs ++ drop i existing.

Definition splice_runs_into_block (s : pasted) (i o : nat) (runs : list StyledRun)
    : option pasted :=
  match doc_block s.1 i with
  | None => Some s
  | Some original =>
      let new_block :=
        match block_runs original with
        | Some existing =>
            let '(rs, k) := split_runs_at existing o in
            block_set_runs original (insert_runs_at k runs rs)
        | None => original
        end in
      if doc_block_count s.1 <=? 1 then
        s1 ← do_op (InsertBlock i new_block) s;
        if 1 <? doc_block_count s1.1
        then do_op (RemoveBlock (i + 1)
                      (default block_empty_paragraph (doc_block s1.1 (i + 1)))) s1
        else Some s1
      else
        s1 ← do_op (RemoveBlock i original) s;
        do_op (InsertBlock i new_block) s1
  end.

Definition non_empty_runs (rs : list StyledRun) : list StyledRun :=
  filter (λ r, run_is_empty r = false) rs.

(** [paste_inline_runs]: the new selection, if it changed. *)
Definition paste_inline_runs (s : pasted) (p : DocPosition) (source : Block)
    : option (pasted * option DocSelection) :=
  match block_runs source with
  | None => Some (s, None)
  | Some rs =>
      let paste_runs := non_empty_runs rs in
      if is_nil paste_runs then Some (s, None)
      else
        s1 ← splice_runs_into_block s (block_index p) (offset p) paste_runs;
        Some (s1, Some (sel_caret (mkPos (block_index p)
                                     (offset p + runs_char_len paste_runs))))
  end.

Fixpoint insert_blocks (s : pasted) (i : nat) (bs : list Block) : option (pasted * nat) :=
  match bs with
  | [] => Some (s, i)
  | b :: bs => s1 ← do_op (InsertBlock i b) s; insert_blocks s1 (i + 1) bs
  end.

Definition paste_complete_blocks (s : pasted) (p : DocPosition) (bs : list Block)
    : option (pasted * DocSelection) :=
  '(s1, i) ← (if 0 <? offset p
              then s1 ← do_op (SplitBlock p) s; Some (s1, block_index p + 1)
              else Some (s, block_index p));
  '(s2, j) ← insert_blocks s1 i bs;
  Some (s2, sel_caret (mkPos (Nat.min j (doc_block_count s2.1 - 1)) 0)).

Definition append_runs_to_block (s : pasted) (i : nat) (rs : list StyledRun) : option pasted :=
  let rs := non_empty_runs rs in
  if is_nil rs then Some s else splice_runs_into_block s i (block_len_at s.1 i) rs.

Definition prepend_runs_to_block (s : pasted) (i : nat) (rs : list StyledRun) : option pasted :=
  let rs := non_empty_runs rs in
  if is_nil rs then Some s else splice_runs_into_block s i 0 rs.

Definition paste_multi_block (s : pasted) (p : DocPosition) (first : Block) (rest : list Block)
    : option (pasted * DocSelection) :=
  s1 ← do_op (SplitBlock p) s;
  let left_idx := block_index p in
  '(s2, i2) ← (match block_runs first with
               | Some rs => s2 ← append_runs_to_block s1 left_idx rs; Some (s2, left_idx + 1)
               | None =>
                   s2 ← do_op (InsertBlock (left_idx + 1) first) s1; Some (s2, left_idx + 2)
               end);
  '(s3, right_idx) ← insert_blocks s2 i2 (removelast rest);
  match last rest with
  | None => Some (s3, sel_caret (mkPos left_idx (block_len_at s3.1 left_idx)))
  | Some last_block =>
      match block_runs last_block with
      | Some rs =>
          s4 ← prepend_runs_to_block s3 right_idx rs;
          Some (s4, sel_caret (mkPos right_idx (runs_char_len rs)))
      | None =>
          s4 ← do_op (InsertBlock right_idx last_block) s3;
          Some (s4, sel_caret (mkPos (right_idx + 1) 0))
      end
  end.

(** Step 2 of [paste_slice]: the strategy by the shape of the slice. *)
Definition paste_blocks (s : pasted) (p : DocPosition) (sel : DocSelection) (sl : DocSlice)
    : option (pasted * DocSelection) :=
  match slice_blocks sl with
  | [] => Some (s, sel)
  | first :: rest =>
      if is_nil rest && open_start sl && open_end sl then
        '(s1, osel) ← paste_inline_runs s p first;
        Some (s1, default sel osel)
      else if is_nil rest && negb (open_start sl) && negb (open_end sl) then
        paste_complete_blocks s p (first :: rest)
      else if forallb (λ b, negb (block_is_inline b)) (first :: rest) then
        paste_complete_blocks s p (first :: rest)
      else paste_multi_block s p first rest
  end.

Definition paste_slice (st : EditorState) (sl : DocSlice) : option EditorState :=
  if is_nil (slice_blocks sl) then Some st
  else
    let before := selection st in
    '(d1, ops1, p, sel1) ←
      (if sel_is_collapsed before then Some (document st, [], focus before, before)
       else
         let p := post_delete_position (document st) before in
         let del := resolve_delete_selection (document st) before in
         d1 ← apply_all del (document st);
         Some (d1, del, p, sel_caret p));
    '(s2, sel2) ← paste_blocks (d1, ops1) p sel1 sl;
    let d3 := normalize s2.1 in
    let sel3 := clamp_selection d3 sel2 in
    Some (mkEditor d3 sel3
            (if is_nil s2.2 then undo_stack st
             else stack_push (undo_stack st) s2.2 before sel3)
            style_empty (cursor_moved (cursor st)) (drag st) (internal_clipboard st)).

(** [text.replace("\r\n", "\n").replace('\r', "\n")] *)
Fixpoint normalize_newlines (t : text) : text :=
  match t with
  | "013"%char :: t' =>
      match t' with
      | "010"%char :: t'' => "010"%char :: normalize_newlines t''
      | _ => "010"%char :: normalize_newlines t'
      end
  | c :: t' => c :: normalize_newlines t'
  | [] => []
  end.

(** [str::split('\n')] *)
Fixpoint split_lines (t : text) : list text :=
  match t with
  | [] => [[]]
  | c :: t' =>
      if decide (c = "010"%char) then [] :: split_lines t'
      else
        match split_lines t' with
        | [] => [[c]]
        | l :: ls => (c :: l) :: ls
        end
  end.

Definition paste_plain_text (st : EditorState) (t : text) : option EditorState :=
  if bool_decide ("010"%char ∉ t) && bool_decide ("013"%char ∉ t)
  then apply_action st (AInsertText t)
  else
    let bs := (λ line, Paragraph [run_plain line]) <$> split_lines (normalize_newlines t) in
    paste_slice st (mkSlice bs false false).

Definition paste (st : EditorState) (t : text) : option EditorState :=
  match internal_clipboard st with
  | Some ic =>
      if decide (clip_text ic = t) then paste_slice st (clip_slice ic)
      else paste_plain_text st t
  | None => paste_plain_text st t
  end.

(** *** Copy and cut *)

Definition copy (st : EditorState) : EditorState :=
  if sel_is_collapsed (selection st) then st
  else
    match doc_slice (document st) (sel_start (selection st)) (sel_end (selection st)) with
    | Some sl => with_clipboard st (Some (mkClipboard sl (selection_text st)))
    | None => st
    end.

Definition cut (st : EditorState) : option EditorState :=
  let st1 := copy st in
  if sel_is_collapsed (selection st1) then Some st1
  else apply_action st1 ADeleteSelection.

(** ** [EditorState::perform] *)

Definition perform (st : EditorState) (action : Action) : option EditorState :=
  match action with
  | Edit a => apply_action st a
  | Move m => Some (apply_move st m false)
  | Select m => Some (apply_move st m true)
  | SelectAll =>
      Some (with_cursor
              (with_selection st (sel_range pos_zero (doc_end_position (document st))))
              (reset_blink (cursor st)))
  | ActUndo => undo st
  | ActRedo => redo st
  | Copy => Some (copy st)
  | Cut => cut st
  | Paste t => paste st t
  | Click p => Some (handle_click st p)
  | DoubleClick p => Some (handle_double_click st p)
  | TripleClick p => Some (handle_triple_click st p)
  | Drag p => Some (handle_drag st p)
  | LinkClicked _ => Some st
  | Focus => Some (with_cursor st (cursor_focus (cursor st)))
  | Blur => Some (with_drag (with_cursor st (cursor_unfocus (cursor st))) None)
  end.

Fixpoint perform_all (st : EditorState) (actions : list Action) : option EditorState :=
  match actions with
  | [] => Some st
  | a :: actions => st' ← perform st a; perform_all st' actions
  end.
End Editor.
