(* ===== verification/EditorTheory.v ===== *)
(** * EditorTheory: the editor keeps its invariants and its history

    The selection stays inside the document; the undo stack is a history of
    documents, which undo walks back exactly. *)

From S2P Require Import Prelude.
From S2P Require Import Graphemes.
From S2P Require Import Document.
From S2P Require Import Cells.
From S2P Require Import Normalize.
From S2P Require Import Operations.
From S2P Require Import OperationsTheory.
From S2P Require Import ToggleTheory.
From S2P Require Import InsertTheory.
From S2P Require Import Rules.
From S2P Require Import InverseTheory.
From S2P Require Import PlainText.
From S2P Require Import WellFormed.
From S2P Require Import RulesTheory.
From S2P Require Import Undo.
From S2P Require Import Input.
From S2P Require Import Editor.

Section EditorTheory.
Context `{Segmentation} `{CharTables}.

(** ** Clamping *)

Lemma clamp_valid d p : blocks d ≠ [] → doc_is_valid_position d (doc_clamp_position d p) = true.
Proof.
  intros Hne. unfold doc_is_valid_position, doc_clamp_position. cbn [block_index offset].
  set (i := Nat.min (block_index p) (length (blocks d) - 1)).
  destruct (lookup_lt_is_Some_2 (blocks d) i) as [b Hb].
  { unfold i. destruct (blocks d); [done|]. simpl. lia. }
  unfold block_len_at, doc_block. rewrite Hb. apply Nat.leb_le. lia.
Qed.

Lemma clamp_id d p : doc_is_valid_position d p = true → doc_clamp_position d p = p.
Proof.
  unfold doc_is_valid_position, doc_clamp_position, block_len_at, doc_block. intros Hv.
  destruct p as [i o]. cbn [block_index offset] in *.
  destruct (blocks d !! i) as [b|] eqn:Hb; [|done]. apply lookup_lt_Some in Hb as Hlt.
  rewrite Nat.min_l by lia. rewrite Hb. apply Nat.leb_le in Hv. by rewrite Nat.min_l.
Qed.

Definition sel_valid (d : Document) (sel : DocSelection) : Prop :=
  doc_is_valid_position d (anchor sel) = true ∧ doc_is_valid_position d (focus sel) = true.

Lemma clamp_selection_valid d sel : blocks d ≠ [] → sel_valid d (clamp_selection d sel).
Proof. intros. split; by apply clamp_valid. Qed.

Lemma clamp_selection_id d sel : sel_valid d sel → clamp_selection d sel = sel.
Proof. intros [Ha Hf]. unfold clamp_selection. rewrite !clamp_id by done. by destruct sel. Qed.

Lemma normalize_blocks_ne d dirty : blocks (normalize_blocks d dirty) ≠ [].
Proof. rewrite normalize_blocks_spec. apply normalized_at_ne, at_least_one_ne. Qed.

Lemma normalize_ne d : blocks (normalize d) ≠ [].
Proof. apply normalize_blocks_ne. Qed.

(** ** Running operations *)

Lemma apply_ops_all ops d dirty sel d' :
  apply_all ops d = Some d' →
  ∃ dirty' sel', apply_ops ops d dirty sel = Some (d', dirty', sel').
Proof.
  revert d dirty sel. induction ops as [|op ops IH]; intros d dirty sel; cbn [apply_all apply_ops].
  { intros [= <-]. eauto. }
  destruct (apply op d) as [[d1 m]|]; [|done]. cbn [mbind option_bind]. apply IH.
Qed.

Lemma edited_abs_end d ops d1 d2 :
  edited d ops d1 → ops ≠ [] → abs_doc d2 = abs_doc d1 → edited d ops d2.
Proof.
  induction 1 as [d|d op da m da' ops d' Hu Ha Ea He IH]; intros Hne E; [done|].
  destruct ops as [|op2 ops].
  - inversion He; subst. econstructor; [done|done| |constructor]. congruence.
  - econstructor; [done|done|exact Ea|]. by apply IH.
Qed.

(** ** History

    The groups of the undo stack, most recent first, with the document before
    each of them. *)
Inductive history : list UndoGroup → Document → list Document → Prop :=
| history_nil d : history [] d []
| history_cons g gs d d0 ds :
    group_ops g ≠ [] → wf_doc d0 → plain_doc d0 → edited d0 (group_ops g) d →
    history gs d0 ds → history (g :: gs) d (d0 :: ds).

Lemma history_abs gs d ds d' : history gs d ds → abs_doc d' = abs_doc d → history gs d' ds.
Proof.
  intros Hh E. destruct Hh as [|g gs d d0 ds Hne Hw Hp He Hh]; constructor; try done.
  by eapply edited_abs_end.
Qed.

Lemma history_take n gs d ds : history gs d ds → history (take n gs) d (take n ds).
Proof.
  intros Hh. revert n. induction Hh as [|g gs d d0 ds Hne Hw Hp He Hh IH]; intros [|n];
    constructor; auto.
Qed.

Lemma history_extend g gs d ops d' after ds :
  history (g :: gs) d ds → edited d ops d' →
  history (mkGroup (group_ops g ++ ops) (cursor_before g) after :: gs) d' ds.
Proof.
  intros Hh He. inversion Hh as [|? ? ? d0 ds0 Hne Hw Hp He0 Hh0]; subst.
  constructor; cbn [group_ops]; [|done|done|by eapply edited_app|done].
  by destruct (group_ops g).
Qed.

(** The invariant of the editor: the document is well formed and plain, and
    the undo stack is the history [ds]. *)
Record ed_history (st : EditorState) (ds : list Document) : Prop := {
  eh_wf : wf_doc (document st);
  eh_plain : plain_doc (document st);
  eh_max : 0 < max_entries (undo_stack st);
  eh_history : history (rev (undo_groups (undo_stack st))) (document st) ds
}.

Lemma wf_normalize d : wf_doc (normalize d).
Proof.
  split; [apply normalize_ne|]. destruct (normalize_normal d) as [_ Hn].
  eapply Forall_impl; [exact Hn|]. apply wf_normal_block.
Qed.

Lemma wf_normalize_blocks d dirty : wf_doc d → wf_doc (normalize_blocks d dirty).
Proof.
  intros [Hne Hw]. split; [apply normalize_blocks_ne|]. rewrite normalize_blocks_spec.
  cbn [blocks]. rewrite at_least_one_id by done. apply Forall_lookup. intros i b.
  unfold normalized_at. rewrite list_lookup_imap. intros (b0 & Hb0 & ->)%fmap_Some.
  case_decide; [|by eapply wf_lookup].
  apply wf_normal_block, normalize_block_normal.
Qed.

(** ** Undo *)

Lemma undo_history st d0 ds :
  ed_history st (d0 :: ds) →
  ∃ g s, stack_undo (undo_stack st) = Some (g, s) ∧
  ∃ st', undo st = Some st' ∧ document st' = normalize d0 ∧ undo_stack st' = s
    ∧ selection st' = clamp_selection (normalize d0) (cursor_before g)
    ∧ ed_history st' ds.
Proof.
  intros [Hw Hp Hmax Hh].
  destruct (rev (undo_groups (undo_stack st))) as [|g gs] eqn:Er;
    [inversion Hh|]. inversion Hh as [|? ? ? ? ? Hne Hw0 Hp0 He Hh0]; subst.
  assert (undo_groups (undo_stack st) = rev gs ++ [g]) as Eg.
  { by rewrite <- (rev_involutive (undo_groups _)), Er. }
  exists g. eexists. split.
  { unfold stack_undo. by rewrite Eg, last_snoc, removelast_last. }
  destruct (undo_ops_spec d0 (group_ops g) (document st) (document st) He eq_refl)
    as (d1 & E1 & A1).
  eexists. split.
  { unfold undo, stack_undo. rewrite Eg, last_snoc, removelast_last, E1.
    cbn [mbind option_bind]. reflexivity. }
  cbn [document undo_stack selection].
  assert (normalize d1 = normalize d0) as En.
  { apply normalize_canonical. by apply abs_doc_content. }
  rewrite En. split_and!; [done|done|done|].
  destruct (normalize_plain d0 Hp0) as [Hpn An].
  constructor; cbn [document undo_stack undo_groups max_entries].
  - apply wf_normalize.
  - done.
  - done.
  - rewrite rev_involutive. by eapply history_abs.
Qed.

(** ** Edits *)

Lemma rev_drop_excess {A} (l : list A) g n :
  0 < n →
  rev (if n <? length (l ++ [g]) then drop (length (l ++ [g]) - n) (l ++ [g]) else l ++ [g])
  = take n (g :: rev l).
Proof.
  intros Hn. replace (g :: rev l) with (rev (l ++ [g])) by (by rewrite rev_app_distr).
  destruct (Nat.ltb_spec n (length (l ++ [g]))) as [Hlt|Hge].
  - rewrite <- (rev_involutive (l ++ [g])) at 2.
    rewrite skipn_rev, rev_involutive, length_rev. f_equal. lia.
  - by rewrite take_ge by (rewrite length_rev; lia).
Qed.

Lemma stack_push_history s ops before after d d' ds :
  0 < max_entries s → history (rev (undo_groups s)) d ds → wf_doc d → plain_doc d →
  edited d ops d' → ops ≠ [] →
  history (rev (undo_groups (stack_push s ops before after))) d'
    (if (match last (undo_groups s) with
         | Some lastg => negb (force_new_group s) && can_merge lastg ops before
         | None => false
         end)
     then ds else take (max_entries s) (d :: ds))
  ∧ max_entries (stack_push s ops before after) = max_entries s.
Proof.
  intros Hmax Hh Hw Hp He Hne. unfold stack_push.
  destruct ops as [|op ops]; [done|]. cbn [is_nil].
  assert (history (rev (undo_groups (push_new_group s (mkGroup (op :: ops) before after)))) d'
            (take (max_entries s) (d :: ds))) as Hnew.
  { unfold push_new_group. cbn [undo_groups]. rewrite rev_drop_excess by done.
    apply history_take. by constructor. }
  destruct (last (undo_groups s)) as [lastg|] eqn:El; [|done].
  destruct (negb (force_new_group s) && can_merge lastg (op :: ops) before); [|done].
  split; [|done]. cbn [undo_groups]. rewrite (last_removelast _ _ El), rev_app_distr in Hh.
  rewrite rev_app_distr. cbn [rev app] in *. by eapply history_extend.
Qed.

(** An edit the rules resolve keeps the invariant: it adds the document to the
    history, or extends the last entry of the history while the user types. *)
Lemma apply_action_history st action ds :
  ed_history st ds → text_selection (document st) (selection st) →
  action_ok (document st) (selection st) action (pending_style st) →
  ∃ st' ops, apply_action st action = Some st'
    ∧ resolve (document st) (selection st) action (pending_style st) = Some ops
    ∧ ed_history st'
        (if is_nil ops then ds
         else if (match last (undo_groups (undo_stack st)) with
                  | Some lastg => negb (force_new_group (undo_stack st))
                                  && can_merge lastg ops (selection st)
                  | None => false
                  end)
         then ds else take (max_entries (undo_stack st)) (document st :: ds)).
Proof.
  intros [Hw Hp Hmax Hh] Hs Hok.
  destruct (resolve_good (document st) (selection st) action (pending_style st))
    as (ops & d1 & E & (He & Ha) & Hw1 & Hp1); [done..|].
  unfold apply_action. rewrite E. cbn [mbind option_bind].
  destruct (is_nil ops) eqn:Hn.
  { destruct action; cbn [resolve] in *; try (eexists st, ops; rewrite Hn; by split_and!).
    destruct (sel_is_collapsed (selection st)); eexists _, ops; rewrite Hn; by split_and!. }
  unfold commit_ops. destruct (apply_ops_all ops (document st) [] (selection st) d1 Ha)
    as (dirty & sel1 & ->). cbn [mbind option_bind].
  eexists _, ops. split; [done|]. split; [done|]. rewrite Hn.
  destruct (normalize_blocks_plain d1 (sort_dedup dirty) Hp1) as [Hp2 A2].
  assert (ops ≠ []) as Hne by (by destruct ops).
  assert (edited (document st) ops (normalize_blocks d1 (sort_dedup dirty))) as He2
    by (by eapply edited_abs_end).
  edestruct (stack_push_history (undo_stack st) ops (selection st)) as [Hh' Hm'];
    [done|exact Hh|done|done|exact He2|done|].
  constructor; cbn [document undo_stack].
  - by apply wf_normalize_blocks.
  - done.
  - by rewrite Hm'.
  - exact Hh'.
Qed.

(** ** Editing sessions *)

(** The history after an edit that resolved to [ops]. *)
Definition next_history (st : EditorState) (ops : list EditOp) (ds : list Document)
    : list Document :=
  if is_nil ops then ds
  else if (match last (undo_groups (undo_stack st)) with
           | Some lastg => negb (force_new_group (undo_stack st))
                           && can_merge lastg ops (selection st)
           | None => false
           end)
  then ds else take (max_entries (undo_stack st)) (document st :: ds).

(** The actions that leave the document and the undo stack alone. *)
Definition navigation (a : Action) : bool :=
  match a with
  | Move _ | Select _ | SelectAll | Copy | Click _ | DoubleClick _ | TripleClick _ | Drag _
  | LinkClicked _ | Focus | Blur => true
  | _ => false
  end.

(** A session of edits, undos and navigation in any order, with the documents
    the undo stack leads back to. *)
Inductive session : EditorState → list Document → Prop :=
| session_open d : wf_doc d → plain_doc d → session (from_document d) []
| session_edit st ds action ops st' :
    session st ds → text_selection (document st) (selection st) →
    action_ok (document st) (selection st) action (pending_style st) →
    resolve (document st) (selection st) action (pending_style st) = Some ops →
    perform st (Edit action) = Some st' → session st' (next_history st ops ds)
| session_undo st d ds st' :
    session st (d :: ds) → perform st ActUndo = Some st' → session st' ds
| session_navigate st ds a st' :
    session st ds → navigation a = true → perform st a = Some st' → session st' ds.

Lemma navigation_keeps st a st' :
  navigation a = true → perform st a = Some st' →
  document st' = document st ∧ undo_stack st' = undo_stack st.
Proof.
  intros Ha E. destruct a; try discriminate Ha; cbn [perform] in E; injection E as <-;
    try done.
  - unfold copy. destruct (sel_is_collapsed _); [done|]. by destruct (doc_slice _ _ _).
  - unfold handle_drag. by destruct (drag st).
Qed.

Lemma session_history st ds : session st ds → ed_history st ds.
Proof.
  induction 1 as [d Hw Hp|st ds action ops st' _ IH Hs Hok Er E|st d ds st' _ IH E
                 |st ds a st' _ IH Ha E].
  - constructor; cbn; [done|done|lia|constructor].
  - cbn [perform] in E. edestruct (apply_action_history st action ds)
      as (st1 & ops1 & E1 & Er1 & Hh); [done..|]. simplify_eq. exact Hh.
  - cbn [perform] in E. destruct (undo_history st d ds IH) as (g & s & _ & st1 & E1 & _ & _ & _ & Hh).
    by simplify_eq.
  - destruct (navigation_keeps st a st' Ha E) as [Ed Eu]. destruct IH as [Hw Hp Hm Hh].
    constructor; rewrite ?Ed, ?Eu; done.
Qed.

Lemma undo_walk st ds n :
  ed_history st ds → n ≤ length ds →
  ∃ st', perform_all st (replicate n ActUndo) = Some st'
    ∧ (∀ m d, n = S m → ds !! m = Some d → document st' = normalize d).
Proof.
  revert st ds. induction n as [|n IH]; intros st ds Hh Hn.
  { exists st. split; [done|]. intros m d Hm. discriminate Hm. }
  destruct ds as [|d0 ds]; [simpl in Hn; lia|]. cbn [length] in Hn.
  destruct (undo_history st d0 ds Hh) as (g & s & _ & st1 & E1 & D1 & _ & _ & Hh1).
  cbn [replicate perform_all perform]. rewrite E1. cbn [mbind option_bind].
  destruct (IH st1 ds Hh1) as (st' & E' & D'); [lia|].
  exists st'. split; [done|]. intros m d [= ->] Hl.
  destruct m as [|m]; cbn in Hl.
  - cbn in E'. by simplify_eq.
  - by eapply D'.
Qed.

(** ** Redo *)

Lemma stack_push_fresh s ops before after :
  ops ≠ [] → force_new_group s = true →
  stack_push s ops before after = push_new_group s (mkGroup ops before after).
Proof.
  intros Hne Hf. unfold stack_push. destruct ops; [done|]. cbn [is_nil]. rewrite Hf.
  by destruct (last (undo_groups s)).
Qed.

Lemma push_new_group_undo s g :
  0 < max_entries s →
  ∃ s', stack_undo (push_new_group s g) = Some (g, s') ∧ redo_groups s' = [g].
Proof.
  intros Hm. unfold stack_undo, push_new_group. cbn [undo_groups].
  assert (last (if max_entries s <? length (undo_groups s ++ [g])
                then drop (length (undo_groups s ++ [g]) - max_entries s) (undo_groups s ++ [g])
                else undo_groups s ++ [g]) = Some g) as ->; [|eauto].
  destruct (Nat.ltb_spec (max_entries s) (length (undo_groups s ++ [g]))); [|apply last_snoc].
  rewrite length_app in *. cbn [length] in *. rewrite drop_app_le by lia. apply last_snoc.
Qed.

(** An edit that starts a group, undone and redone. *)
Lemma edit_undo_redo st action ops ds :
  ed_history st ds → normal_doc (document st) →
  text_selection (document st) (selection st) →
  action_ok (document st) (selection st) action (pending_style st) →
  resolve (document st) (selection st) action (pending_style st) = Some ops → ops ≠ [] →
  force_new_group (undo_stack st) = true →
  ∃ st1 st2 st3, perform st (Edit action) = Some st1 ∧ perform st1 ActUndo = Some st2
    ∧ perform st2 ActRedo = Some st3
    ∧ document st2 = document st ∧ selection st2 = selection st
    ∧ document st3 = normalize (document st1) ∧ selection st3 = selection st1.
Proof.
  intros [Hw Hp Hmax Hh] Hnd Hs Hok Er Hne Hf.
  destruct (resolve_good (document st) (selection st) action (pending_style st))
    as (ops1 & d1 & Er1 & (He & Ha) & Hw1 & Hp1); [done..|]. simplify_eq.
  destruct (apply_ops_all ops (document st) [] (selection st) d1 Ha) as (dirty & sel1 & Eo).
  destruct (normalize_blocks_plain d1 (sort_dedup dirty) Hp1) as [Hp2 A2].
  set (d2 := normalize_blocks d1 (sort_dedup dirty)) in *.
  set (sel2 := clamp_selection d2 (update_cursor_after_ops ops sel1)).
  assert (apply_action st action
          = Some (mkEditor d2 sel2 (stack_push (undo_stack st) ops (selection st) sel2)
                    style_empty (cursor_moved (cursor st)) (drag st) (internal_clipboard st)))
    as E1.
  { unfold apply_action. rewrite Er. cbn [mbind option_bind].
    destruct ops as [|op ops]; [done|]. cbn [is_nil]. unfold commit_ops.
    rewrite Eo. reflexivity. }
  set (g := mkGroup ops (selection st) sel2).
  destruct (push_new_group_undo (undo_stack st) g Hmax) as (s' & Eu & Erd).
  assert (edited (document st) ops d2) as He2 by (by eapply edited_abs_end).
  destruct (undo_ops_spec (document st) ops d2 d2 He2 eq_refl) as (d0 & E0 & A0).
  assert (normalize d0 = document st) as En.
  { rewrite <- (normalize_id (document st) Hnd). apply normalize_canonical.
    by apply abs_doc_content. }
  assert (stack_redo s' = Some (g, mkStack (undo_groups s' ++ [g]) []
                                     (max_entries s') (force_new_group s'))) as Es.
  { unfold stack_redo. by rewrite Erd. }
  assert (sel_valid (document st) (selection st)) as Hsv by (destruct Hs as (? & ? & _); done).
  assert (normalize d1 = normalize d2) as Ed.
  { apply normalize_canonical, abs_doc_content. done. }
  assert (blocks d2 ≠ []) as Hne2 by apply normalize_blocks_ne.
  assert (clamp_selection (normalize d2) sel2 = sel2) as Esel.
  { apply clamp_selection_id. destruct (clamp_selection_valid d2
      (update_cursor_after_ops ops sel1) Hne2) as [Va Vf]. fold sel2 in Va, Vf.
    destruct (normalize_plain d2 Hp2) as [_ An].
    split; by rewrite (abs_doc_valid _ _ _ An). }
  do 3 eexists. split; [exact E1|]. split.
  { cbn [perform]. unfold undo. cbn [undo_stack document]. rewrite stack_push_fresh by done.
    fold g. rewrite Eu. cbn [group_ops g]. rewrite E0. cbn [mbind option_bind]. rewrite En.
    reflexivity. }
  split.
  { cbn [perform]. unfold redo. cbn [undo_stack document]. rewrite Es. cbn [group_ops g].
    rewrite Ha. cbn [mbind option_bind]. rewrite Ed. reflexivity. }
  cbn [document selection cursor_before cursor_after g].
  split_and!; [done|by apply clamp_selection_id|done|done].
Qed.

(** ** The selection stays in the document *)

Definition selection_ok (st : EditorState) : Prop :=
  blocks (document st) ≠ [] ∧ sel_valid (document st) (selection st).

(** A word motion to the right needs a block that is as long as its text reads
    (an atomic block counts one unit whatever its text), a drag a start that
    the edits since have not removed. *)
Definition action_in_range (st : EditorState) (a : Action) : Prop :=
  match a with
  | Move MWordRight | Select MWordRight =>
      text_len (block_text (document st) (block_index (focus (selection st))))
      ≤ block_len_at (document st) (block_index (focus (selection st)))
  | Drag _ =>
      match drag st with
      | Some dr => doc_is_valid_position (document st) (drag_anchor dr) = true
      | None => True
      end
  | _ => True
  end.

Lemma zero_valid d : blocks d ≠ [] → valid d pos_zero.
Proof.
  intros Hne. apply valid_iff. unfold doc_block_count. destruct (blocks d); [done|simpl; lia].
Qed.

Lemma vertical_valid d f desired up :
  blocks d ≠ [] → valid d f → valid d (vertical_target d f desired up).
Proof.
  intros Hne. destruct f as [i o]. rewrite valid_iff. unfold vertical_target.
  cbn [block_index offset]. intros [Hi _]. destruct up.
  - destruct (Nat.ltb_spec 0 i); [apply valid_iff; lia|by apply zero_valid].
  - destruct (Nat.ltb_spec (i + 1) (doc_block_count d)); [apply valid_iff; lia|].
    by apply end_position_valid.
Qed.

Lemma move_target_valid st m extend :
  selection_ok st → action_in_range st (Move m) → valid (document st) (move_target st m extend).
Proof.
  intros [Hne [Ha Hf]] Hr. unfold move_target.
  destruct m; cbn [action_in_range] in Hr.
  - destruct (_ && _); [|by apply move_left_valid]. unfold valid, sel_start, pos_min.
    by case_decide.
  - destruct (_ && _); [|by apply move_right_valid]. unfold valid, sel_end, pos_max.
    by case_decide.
  - by apply vertical_valid.
  - by apply vertical_valid.
  - destruct (focus (selection st)) as [i o]. apply valid_iff in Hf. apply valid_iff. cbn [block_index]. lia.
  - destruct (focus (selection st)) as [i o]. apply valid_iff in Hf. apply valid_iff.
    cbn [block_index]. lia.
  - by apply word_left_valid.
  - by apply word_right_valid.
  - by apply zero_valid.
  - by apply end_position_valid.
Qed.

Lemma commit_selection_ok st ops st' : commit_ops st ops = Some st' → selection_ok st'.
Proof.
  unfold commit_ops. intros E. inv_step E; [|done]. destruct p as [[d1 dirty] sel1].
  injection E as <-. pose proof (normalize_blocks_ne d1 (sort_dedup dirty)) as Hn.
  split; [exact Hn|by apply clamp_selection_valid].
Qed.

Lemma apply_action_selection_ok st a st' :
  selection_ok st → apply_action st a = Some st' → selection_ok st'.
Proof.
  intros Hs. unfold apply_action.
  destruct (resolve (document st) (selection st) a (pending_style st)) as [ops|]; [|done].
  cbn [mbind option_bind]. destruct (is_nil ops); [|apply commit_selection_ok].
  destruct a; try (by intros [= <-]). destruct (sel_is_collapsed _); by intros [= <-].
Qed.

Lemma paste_slice_selection_ok st sl st' :
  selection_ok st → paste_slice st sl = Some st' → selection_ok st'.
Proof.
  intros Hs. unfold paste_slice. destruct (is_nil (slice_blocks sl)); [by intros [= <-]|].
  intros E. inv_step E; [|done]. destruct p as [[[d1 ops1] p1] sel1].
  inv_step E; [|done]. destruct p as [s2 sel2]. injection E as <-.
  pose proof (normalize_ne s2.1). split; [done|by apply clamp_selection_valid].
Qed.

Lemma paste_plain_selection_ok st t st' :
  selection_ok st → paste_plain_text st t = Some st' → selection_ok st'.
Proof.
  intros Hs. unfold paste_plain_text. destruct (_ && _);
    [by apply apply_action_selection_ok|by apply paste_slice_selection_ok].
Qed.

Lemma copy_selection_ok st : selection_ok st → selection_ok (copy st).
Proof.
  unfold copy. destruct (sel_is_collapsed _); [done|]. by destruct (doc_slice _ _ _).
Qed.

Lemma undo_selection_ok st st' : selection_ok st → undo st = Some st' → selection_ok st'.
Proof.
  intros Hs. unfold undo. destruct (stack_undo _) as [[g s]|]; [|by intros [= <-]].
  intros E. inv_step E; [|done]. injection E as <-.
  pose proof (normalize_ne d). split; [done|by apply clamp_selection_valid].
Qed.

Lemma redo_selection_ok st st' : selection_ok st → redo st = Some st' → selection_ok st'.
Proof.
  intros Hs. unfold redo. destruct (stack_redo _) as [[g s]|]; [|by intros [= <-]].
  intros E. inv_step E; [|done]. injection E as <-.
  pose proof (normalize_ne d). split; [done|by apply clamp_selection_valid].
Qed.

Lemma perform_selection_ok st a st' :
  selection_ok st → action_in_range st a → perform st a = Some st' → selection_ok st'.
Proof.
  intros Hs Hr E. pose proof Hs as [Hne [Hva Hvf]].
  destruct a; cbn [perform] in E.
  - by eapply apply_action_selection_ok.
  - injection E as <-. pose proof (move_target_valid st m false Hs Hr). by split.
  - injection E as <-. pose proof (move_target_valid st m true Hs Hr). by split.
  - injection E as <-. split; [done|]. split; [by apply zero_valid|by apply end_position_valid].
  - by eapply undo_selection_ok.
  - by eapply redo_selection_ok.
  - injection E as <-. by apply copy_selection_ok.
  - unfold cut in E. destruct (sel_is_collapsed _).
    + injection E as <-. by apply copy_selection_ok.
    + eapply apply_action_selection_ok; [|exact E]. by apply copy_selection_ok.
  - unfold paste in E. destruct (internal_clipboard st) as [ic|];
      [|by eapply paste_plain_selection_ok].
    destruct (decide (clip_text ic = t));
      [by eapply paste_slice_selection_ok|by eapply paste_plain_selection_ok].
  - injection E as <-. split; [done|]. split; by apply clamp_valid.
  - injection E as <-. split; [done|].
    destruct (word_at_valid (document st) (doc_clamp_position (document st) p)); [|by split].
    by apply clamp_valid.
  - injection E as <-. split; [done|]. pose proof (clamp_valid (document st) p Hne) as Hc.
    unfold handle_triple_click.
    destruct (doc_clamp_position (document st) p) as [i o]. apply valid_iff in Hc.
    split; apply valid_iff; cbn [block_index document select_around]; lia.
  - injection E as <-. unfold handle_drag. cbn [action_in_range] in Hr.
    destruct (drag st) as [dr|]; [|done]. split; [done|]. split; [done|by apply clamp_valid].
  - by injection E as <-.
  - by injection E as <-.
  - by injection E as <-.
Qed.

(** ** Properties *)

(** C1. The undo stack is the history of a session of plain text.  The session
    starts from a well-formed document of printable ASCII text; it interleaves, in
    any order, undos, cursor movement, clicks, focus changes, and edits whose
    selection starts in the text of a block, not in a quote, and that meet
    [action_ok]: what is typed is printable ASCII text with styles of named flags, a
    style is toggled over a range that has it everywhere or nowhere, a block changes
    its type, and Enter leaves a blank list item, only where it is not indented.
    Then pressing undo n times never panics
    and brings back the n-th last document of the history (in normal form), where
    every edit that did not continue a typed run of text added the document it was
    applied to, up to the bound of the stack.  The edits left out are not undone
    exactly: [undo_enter_on_quote_loses_it], [undo_mixed_toggle_loses_style],
    [undo_block_type_loses_indent]. *)
Theorem undo_walks_history (st : EditorState) (ds : list Document) (n : nat)
    (Hs : session st ds) (Hn : n ≤ length ds) :
  ∃ st', perform_all st (replicate n ActUndo) = Some st'
    ∧ (∀ m d, n = S m → ds !! m = Some d → document st' = normalize d).
Proof. apply (undo_walk st ds n (session_history st ds Hs) Hn). Qed.

(** An edit that starts an undo group is undone to exactly the document and
    the selection before it, and redone to the document (in normal form) and
    the selection after it. *)
Theorem edit_undo_redo_exact (st : EditorState) (ds : list Document) (action : EditAction)
    (ops : list EditOp)
    (Hs : session st ds) (Hn : normal_doc (document st))
    (Hsel : text_selection (document st) (selection st))
    (Hok : action_ok (document st) (selection st) action (pending_style st))
    (Hr : resolve (document st) (selection st) action (pending_style st) = Some ops)
    (Hne : ops ≠ []) (Hg : force_new_group (undo_stack st) = true) :
  ∃ st1 st2 st3, perform st (Edit action) = Some st1 ∧ perform st1 ActUndo = Some st2
    ∧ perform st2 ActRedo = Some st3
    ∧ document st2 = document st ∧ selection st2 = selection st
    ∧ document st3 = normalize (document st1) ∧ selection st3 = selection st1.
Proof. eapply edit_undo_redo; eauto using session_history. Qed.

(** An edit of plain text never panics: with a selection that starts in
    text, every action the user can take under [action_ok] is resolved and
    applied, and the document stays in the invariant. *)
Theorem edit_never_panics (st : EditorState) (ds : list Document) (action : EditAction)
    (Hs : session st ds) (Hsel : text_selection (document st) (selection st))
    (Hok : action_ok (document st) (selection st) action (pending_style st)) :
  ∃ st', perform st (Edit action) = Some st' ∧ wf_doc (document st')
         ∧ sel_valid (document st') (selection st').
Proof.
  destruct (session_history st ds Hs) as [Hw Hp Hm Hh].
  destruct (apply_action_history st action ds) as (st' & ops & E & _ & [Hw' _ _ _]);
    [done..|].
  exists st'. split_and!; [done|done|].
  apply (apply_action_selection_ok st action st'); [|done].
  split; [apply Hw|]. by destruct Hsel as (? & ? & _).
Qed.

(** Whatever the action, the selection stays inside the document: both ends
    name an existing block and an offset of it, provided a rightward word
    motion starts in a block as long as its text and a drag starts where the
    document still has a position. *)
Theorem selection_stays_valid (st st' : EditorState) (a : Action)
    (Hs : selection_ok st) (Hr : action_in_range st a) (E : perform st a = Some st') :
  selection_ok st'.
Proof. by eapply perform_selection_ok. Qed.
End EditorTheory.

#[local] Existing Instance byte_segmentation.
#[local] Existing Instance ascii_tables.

Definition editor_demo : EditorState := from_document (mkDoc [Paragraph [run_plain (lit "hi")]]).

Lemma editor_demo_session : session editor_demo [].
Proof.
  apply session_open.
  - split; [discriminate|]. repeat constructor; discriminate.
  - split; [discriminate|]. repeat constructor; vm_compute; discriminate.
Defined.

Lemma editor_demo_selection : text_selection (document editor_demo) (selection editor_demo).
Proof.
  split; [vm_compute; reflexivity|]. split; [vm_compute; reflexivity|].
  exists SPara, [(lit "h", (0%N, None)); (lit "i", (0%N, None))]. vm_compute. reflexivity.
Defined.

Lemma editor_demo_ok :
  action_ok (document editor_demo) (selection editor_demo) (AInsertText (lit "a"))
    (pending_style editor_demo).
Proof.
  split; [discriminate|]. split; [repeat constructor; vm_compute; discriminate|].
  intros ops E. vm_compute in E. injection E as <-. intros s e bit Hin.
  apply elem_of_cons in Hin as [Hin|Hin]; [discriminate Hin|]. by apply elem_of_nil in Hin.
Defined.

(** The state after typing a character. *)
Definition editor_demo_typed : EditorState :=
  default editor_demo (perform editor_demo (Edit (AInsertText (lit "a")))).

Lemma undo_walks_history_witness :
  ∃ st', perform_all editor_demo_typed [ActUndo] = Some st'
    ∧ document st' = mkDoc [Paragraph [run_plain (lit "hi")]].
Proof.
  assert (session editor_demo_typed [document editor_demo]) as Hs.
  { apply (session_edit editor_demo [] (AInsertText (lit "a"))
             [InsertText (mkPos 0 0) (lit "a")]).
    - exact editor_demo_session.
    - exact editor_demo_selection.
    - exact editor_demo_ok.
    - vm_compute. reflexivity.
    - vm_compute. reflexivity. }
  destruct (undo_walks_history editor_demo_typed [document editor_demo] 1 Hs)
    as (st' & E & D); [simpl; lia|].
  exists st'. split; [exact E|]. rewrite (D 0 (document editor_demo)) by reflexivity.
  vm_compute. reflexivity.
Defined.

(** The editor after bold was toggled at the caret: the group is broken. *)
Definition editor_demo_bold : EditorState :=
  default editor_demo (perform editor_demo (Edit (AToggleInlineStyle BOLD))).

Lemma edit_undo_redo_exact_witness :
  ∃ st1 st2 st3, perform editor_demo_bold (Edit ASplitBlock) = Some st1
    ∧ perform st1 ActUndo = Some st2 ∧ perform st2 ActRedo = Some st3
    ∧ document st2 = document editor_demo_bold.
Proof.
  destruct (edit_undo_redo_exact editor_demo_bold [] ASplitBlock [SplitBlock (mkPos 0 0)])
    as (st1 & st2 & st3 & E1 & E2 & E3 & D2 & _).
  - apply (session_edit editor_demo [] (AToggleInlineStyle BOLD) []).
    + exact editor_demo_session.
    + exact editor_demo_selection.
    + split; [discriminate|]. intros s e E. vm_compute in E. discriminate.
    + vm_compute. reflexivity.
    + vm_compute. reflexivity.
  - split; [discriminate|]. constructor; [|constructor]. right. split; [discriminate|].
    split; [|exact I]. constructor; [discriminate|constructor].
  - exact editor_demo_selection.
  - intros b Hb. vm_compute in Hb. injection Hb as <-. exact I.
  - vm_compute. reflexivity.
  - discriminate.
  - vm_compute. reflexivity.
  - exists st1, st2, st3. split; [exact E1|]. split; [exact E2|]. split; [exact E3|exact D2].
Defined.

Lemma edit_never_panics_witness :
  ∃ st', perform editor_demo (Edit (AInsertText (lit "a"))) = Some st' ∧ wf_doc (document st').
Proof.
  destruct (edit_never_panics editor_demo [] (AInsertText (lit "a")) editor_demo_session
              editor_demo_selection editor_demo_ok) as (st' & E & Hw & _).
  exists st'. split; [exact E|exact Hw].
Defined.

Lemma selection_stays_valid_witness :
  ∃ st', perform editor_demo (Move MWordRight) = Some st' ∧ selection_ok st'
    ∧ focus (selection st') = mkPos 0 2.
Proof.
  destruct (perform editor_demo (Move MWordRight)) as [st'|] eqn:E;
    [|vm_compute in E; discriminate E].
  exists st'. split; [reflexivity|]. split.
  - apply (selection_stays_valid editor_demo st' (Move MWordRight)).
    + split; [discriminate|]. split; vm_compute; reflexivity.
    + vm_compute. lia.
    + exact E.
  - vm_compute in E. injection E as <-. reflexivity.
Defined.

(** ** Where the editor's promises stop

    Concrete states, within the documented use of the editor, where an edit
    panics, or where undo does not restore the document: the conditions of
    [RulesTheory.action_ok] and of [EditorTheory.action_in_range] are needed. *)

#[local] Existing Instance byte_segmentation.
#[local] Existing Instance ascii_tables.

(** The text of a paragraph. *)
Definition para (s : string) : Block := Paragraph [run_plain (lit s)].

(** An editor on blocks with a selection. *)
Definition editor_on (bs : list Block) (a f : DocPosition) : EditorState :=
  with_selection (from_document (mkDoc bs)) (sel_range a f).

(** The document after some actions. *)
Definition doc_after (st : EditorState) (actions : list Action) : option Document :=
  document <$> perform_all st actions.

(** Enter on a quote, then undo: the quote and its text are gone. *)
Theorem undo_enter_on_quote_loses_it :
  let st := editor_on [BlockQuote [para "quoted"]] (mkPos 0 0) (mkPos 0 0) in
  doc_after st [Edit ASplitBlock]
    = Some (mkDoc [BlockQuote [para "quoted"]; block_empty_paragraph])
  ∧ doc_after st [Edit ASplitBlock; ActUndo] = Some (mkDoc [block_empty_paragraph]).
Proof. split; vm_compute; reflexivity. Qed.

(** Making a partly bold range bold, then undo: the part that was bold before
    is not any more. *)
Theorem undo_mixed_toggle_loses_style :
  let d := mkDoc [Paragraph [run_styled (lit "a") BOLD; run_plain (lit "b")]] in
  let st := editor_on (blocks d) (mkPos 0 0) (mkPos 0 2) in
  normal_doc d
  ∧ doc_after st [Edit (AToggleInlineStyle BOLD); ActUndo] = Some (mkDoc [para "ab"]).
Proof.
  split; [|vm_compute; reflexivity].
  split; [discriminate|]. constructor; [|constructor]. right. split; [discriminate|].
  split; [repeat constructor; discriminate|]. split; [discriminate|exact I].
Qed.

(** Turning an indented list item into a paragraph, then undo: the indent is
    lost. *)
Theorem undo_block_type_loses_indent :
  let st := editor_on [ListItem false 2 [run_plain (lit "a")]] (mkPos 0 0) (mkPos 0 0) in
  doc_after st [Edit (ASetBlockType KParagraph); ActUndo]
  = Some (mkDoc [ListItem false 0 [run_plain (lit "a")]]).
Proof. vm_compute. reflexivity. Qed.

(** Typing over a selected image that ends the document panics, and so does
    Enter there. *)
Theorem typing_over_last_image_panics :
  let st := editor_on [para "a"; Image (lit "src") (lit "alt") None None] (mkPos 1 0) (mkPos 1 1) in
  sel_is_collapsed (selection st) = false
  ∧ perform st (Edit (AInsertText (lit "x"))) = None
  ∧ perform st (Edit ASplitBlock) = None
  ∧ doc_after st [Edit ADeleteSelection] = Some (mkDoc [para "a"]).
Proof. split_and!; vm_compute; reflexivity. Qed.

(** Pasting an empty text after choosing bold at the caret panics: the style
    fixup toggles an empty range. *)
Theorem pasting_nothing_in_bold_panics :
  let st := editor_on [para "a"] (mkPos 0 1) (mkPos 0 1) in
  perform_all st [Edit (AToggleInlineStyle BOLD); Paste []] = None
  ∧ doc_after st [Paste []] = Some (mkDoc [para "a"]).
Proof. split; vm_compute; reflexivity. Qed.

(** A style toggled over two blocks leaves the second one unnormalized: the
    edit marks only its first block, so two runs of one formatting stay
    adjacent. *)
Theorem multi_block_toggle_not_normalized :
  let st := editor_on [para "a"; Paragraph [run_plain (lit "b"); run_styled (lit "c") BOLD]]
              (mkPos 0 0) (mkPos 1 1) in
  doc_after st [Edit (AToggleInlineStyle BOLD)]
  = Some (mkDoc [Paragraph [run_styled (lit "a") BOLD];
                 Paragraph [run_styled (lit "b") BOLD; run_styled (lit "c") BOLD]]).
Proof. vm_compute. reflexivity. Qed.

(** Ctrl+Right at the start of an image leaves the document: the caret moves
    into the alternative text of a block one unit long. *)
Theorem word_right_leaves_image :
  let st := editor_on [Image (lit "src") (lit "photo") None None] (mkPos 0 0) (mkPos 0 0) in
  (focus ∘ selection) <$> perform st (Move MWordRight) = Some (mkPos 0 5)
  ∧ doc_is_valid_position (document st) (mkPos 0 5) = false.
Proof. split; vm_compute; reflexivity. Qed.

(** Undoing the insertion of a combining mark leaves the mark in the text: it
    fused with the cluster before it, and the inverse deletes the cluster after
    the insertion point, which is not there. *)
Theorem undo_insert_mark_keeps_it :
  let mark := ["204"%char] in
  let d := mkDoc [para "e"] in
  let ins := InsertText (mkPos 0 1) mark in
  ∃ d1 m1 d2 m2, apply (H := mark_segmentation) ins d = Some (d1, m1)
    ∧ apply (H := mark_segmentation)
        (invert_with_doc (H := mark_segmentation) ins d1) d1 = Some (d2, m2)
    ∧ normalize d2 = mkDoc [Paragraph [run_plain (lit "e" ++ mark)]].
Proof. do 4 eexists. split_and!; vm_compute; reflexivity. Qed.

(** The map of a deletion across blocks does not follow the text: a position
    in the deleted end of the first block stays where nothing is any more, and
    one after the deletion in the last block goes to the start of the deletion
    instead of its text. *)
Theorem cross_delete_map_loses_place :
  let d := mkDoc [para "abcd"; para "efgh"] in
  ∃ d' m, apply (DeleteRange (mkPos 0 1) (mkPos 1 3) (mkDeleted [] None)) d = Some (d', m)
    ∧ normalize d' = mkDoc [para "ah"]
    ∧ posmap_map m (mkPos 0 3) = mkPos 0 3
    ∧ doc_is_valid_position d' (mkPos 0 3) = false
    ∧ posmap_map m (mkPos 1 4) = mkPos 0 1.
Proof. do 2 eexists. split_and!; vm_compute; reflexivity. Qed.
