(* ===== verification/PositionTheory.v ===== *)
(** * PositionTheory: position maps follow the content

    The [PosMap] an operation returns moves a position with the text around it. *)

From S2P Require Import Prelude.
From S2P Require Import Graphemes.
From S2P Require Import Document.
From S2P Require Import Cells.
From S2P Require Import Operations.
From S2P Require Import OperationsTheory.
From S2P Require Import InsertTheory.
From S2P Require Import ToggleTheory.
From S2P Require Import InverseTheory.

Section Positions.
Context `{Segmentation}.

(** [p'] of the abstract document [ad'] is the place of [p] in [ad]: both are in
    text of one shape and the clusters of the block before them are the same,
    or those after them are. *)
Definition same_place (ad ad' : list (ABlock (list Cell))) (p p' : DocPosition) : Prop :=
  ∃ sh cs sh' cs', ad !! block_index p = Some (AInline sh cs)
    ∧ ad' !! block_index p' = Some (AInline sh' cs')
    ∧ (take (offset p') cs' = take (offset p) cs ∨ drop (offset p') cs' = drop (offset p) cs).

(** A block that only moves. *)
Definition moved_block (ad ad' : list (ABlock (list Cell))) (p p' : DocPosition) : Prop :=
  ad' !! block_index p' = ad !! block_index p ∧ offset p' = offset p.

Lemma posmap_insert_text i o n p :
  posmap_map (mkPosMap i [mkEntry o 0 n] None) p
  = if (block_index p =? i) && (o <? offset p) then mkPos (block_index p) (offset p + n) else p.
Proof.
  destruct p as [j k]. unfold posmap_map, map_structural, map_entries.
  cbn [pm_structural pm_block_index pm_entries is_nil block_index offset].
  destruct (Nat.eqb_spec j i) as [->|]; cbn [negb orb andb]; [|done].
  cbn [map_entries_go old_offset old_len new_len]. rewrite Nat.add_0_r.
  destruct (Nat.leb_spec k o), (Nat.ltb_spec o k); try lia; [done|].
  destruct (Nat.ltb_spec k o); [lia|]. cbn. f_equal. lia.
Qed.

Lemma posmap_delete i a n p :
  posmap_map (mkPosMap i [mkEntry a n 0] None) p
  = if block_index p =? i
    then mkPos i (if offset p <=? a then offset p
                  else if offset p <? a + n then a else offset p - n)
    else p.
Proof.
  destruct p as [j k]. unfold posmap_map, map_structural, map_entries.
  cbn [pm_structural pm_block_index pm_entries is_nil block_index offset].
  destruct (Nat.eqb_spec j i) as [->|]; cbn [negb orb]; [|done].
  cbn [map_entries_go old_offset old_len new_len]. f_equal.
  destruct (Nat.leb_spec k a); [done|]. destruct (Nat.ltb_spec k (a + n)); [lia|].
  destruct (Nat.leb_spec n 0); lia.
Qed.

(** The caret follows the text through typing: the map of [InsertText] (in
    text it does not fuse with) sends a position at or before the insertion
    to the same clusters before it, a position after it to the same clusters
    after it, and leaves the other blocks alone. *)
Theorem insert_map_follows (d d' : Document) (i o : nat) (t : text) (m : PosMap)
    (p : DocPosition) (b : Block) (rs : list StyledRun)
    (Hb : doc_block d i = Some b) (Hrs : block_runs b = Some rs) (Hne : rs ≠ [])
    (Ho : o ≤ block_char_len b) (Hf : no_fuse rs t)
    (E : apply (InsertText (mkPos i o) t) d = Some (d', m)) :
  if block_index p =? i then same_place (abs_doc d) (abs_doc d') p (posmap_map m p)
  else moved_block (abs_doc d) (abs_doc d') p (posmap_map m p).
Proof.
  rewrite (block_char_len_runs b rs Hrs) in Ho.
  destruct (apply_insert_text_inline d i o t b rs) as (d1 & rs1 & f & E1 & Ed & Hi & _);
    [done..|].
  cbn [apply] in E. rewrite E1 in E. injection E as <- <-. rewrite posmap_insert_text.
  pose proof (ins_cells _ _ _ _ _ Hi Hf) as Hc.
  pose proof (doc_block_abs_inline d i b rs Hb Hrs) as Ha. apply lookup_lt_Some in Ha as Hlt.
  rewrite Ed, abs_doc_replace, (abs_block_set_runs b rs), Hc by done.
  destruct (Nat.eqb_spec (block_index p) i) as [Hp|Hp]; cbn [andb].
  - assert (length (take o (cells rs)) = o) as Hlo by (rewrite length_take; lia).
    pose proof (length_fmt_cells f t) as Hlf.
    destruct p as [j k]. cbn [block_index offset] in *. subst j.
    destruct (Nat.ltb_spec o k) as [Hok|Hok]; unfold same_place; cbn [block_index offset];
      do 4 eexists; (split; [exact Ha|]); (split; [by apply list_lookup_insert_eq|]).
    + right. rewrite app_assoc, drop_app_ge by (rewrite length_app; lia).
      rewrite length_app, drop_drop. f_equal. lia.
    + left. rewrite take_app_le by lia. rewrite take_take. f_equal. lia.
  - split; [|done]. by apply list_lookup_insert_ne.
Qed.

(** The caret follows the text through a deletion inside a block: positions
    up to its start keep the clusters before them, positions from its end on
    keep the clusters after them, positions inside it move to its start. *)
Theorem delete_map_follows (d d' : Document) (i a z : nat) (del : DeletedContent) (m : PosMap)
    (p : DocPosition) (b : Block) (rs : list StyledRun)
    (Hb : doc_block d i = Some b) (Hrs : block_runs b = Some rs)
    (Haz : a < z) (Hz : z ≤ block_char_len b)
    (E : apply (DeleteRange (mkPos i a) (mkPos i z) del) d = Some (d', m)) :
  if block_index p =? i
  then (if (a <? offset p) && (offset p <? z) then posmap_map m p = mkPos i a
        else same_place (abs_doc d) (abs_doc d') p (posmap_map m p))
  else moved_block (abs_doc d) (abs_doc d') p (posmap_map m p).
Proof.
  rewrite (block_char_len_runs b rs Hrs) in Hz.
  rewrite apply_delete_lt in E by (right; simpl; lia). cbn [block_index] in E.
  rewrite Nat.eqb_refl in E.
  destruct (apply_single_block_delete_inline d i a z b rs) as (d1 & E1 & A); [done|done|lia|].
  rewrite E1 in E. injection E as <- <-. rewrite posmap_delete.
  pose proof (doc_block_abs_inline d i b rs Hb Hrs) as Ha. apply lookup_lt_Some in Ha as Hlt.
  destruct (Nat.eqb_spec (block_index p) i) as [Hp|Hp]; cycle 1.
  { split; [|done]. rewrite A. by apply list_lookup_insert_ne. }
  assert (length (take a (cells rs)) = a) as Hla by (rewrite length_take; lia).
  destruct p as [j k]. cbn [block_index offset] in *. subst j.
  replace (a + (z - a)) with z by lia.
  assert (∀ k', take k' (take a (cells rs) ++ drop z (cells rs)) = take k (cells rs)
                ∨ drop k' (take a (cells rs) ++ drop z (cells rs)) = drop k (cells rs) →
    same_place (abs_doc d) (abs_doc d1) (mkPos i k) (mkPos i k')) as Hsp.
  { intros k' Hk. unfold same_place. cbn [block_index offset]. rewrite A. do 4 eexists.
    split; [exact Ha|]. split; [by apply list_lookup_insert_eq|exact Hk]. }
  destruct (Nat.leb_spec k a) as [Hka|Hka]; cbn [andb].
  - destruct (Nat.ltb_spec a k); [lia|]. cbn [andb]. apply Hsp. left.
    rewrite take_app_le by lia. rewrite take_take. f_equal. lia.
  - destruct (Nat.ltb_spec a k); [|lia]. cbn [andb].
    destruct (Nat.ltb_spec k z); [done|]. apply Hsp. right.
    rewrite drop_app_ge by lia. rewrite Hla, drop_drop. f_equal. lia.
Qed.

Lemma posmap_split i o p :
  posmap_map (mkPosMap i [] (Some (Split i o))) p
  = if (block_index p =? i) && (o <? offset p) then mkPos (i + 1) (offset p - o)
    else if i <? block_index p then mkPos (block_index p + 1) (offset p) else p.
Proof.
  unfold posmap_map, map_entries, map_structural.
  cbn [pm_structural pm_block_index pm_entries is_nil]. by rewrite orb_true_r.
Qed.

Lemma map_entries_noop n k : map_entries_go [mkEntry n 0 0] k = k.
Proof.
  cbn [map_entries_go old_offset old_len new_len]. destruct (Nat.leb_spec k n); [done|].
  destruct (Nat.ltb_spec k (n + 0)); [lia|]. cbn. lia.
Qed.

Lemma posmap_merge i n p :
  posmap_map (mkPosMap (i - 1) [mkEntry n 0 0] (Some (Merge i n))) p
  = if block_index p =? i then mkPos (i - 1) (offset p + n)
    else if i <? block_index p then mkPos (block_index p - 1) (offset p) else p.
Proof.
  unfold posmap_map, map_entries, map_structural.
  cbn [pm_structural pm_block_index pm_entries is_nil].
  rewrite orb_false_r, map_entries_noop. destruct p as [j k]. cbn [block_index offset].
  destruct (j =? i); [|destruct (i <? j)]; cbn [block_index offset];
    by match goal with |- (if ?c then _ else _) = _ => destruct c end.
Qed.

(** The blocks around a splice. *)
Lemma splice_before {A} (l m r : list A) i k :
  k < i → i ≤ length l → (take i l ++ m ++ r) !! k = l !! k.
Proof.
  intros Hk Hi. rewrite lookup_app_l by (rewrite length_take; lia). by apply lookup_take_lt.
Qed.

Lemma splice_after {A} (l m : list A) i j n :
  i ≤ length l → (take i l ++ m ++ drop j l) !! (i + length m + n) = l !! (j + n).
Proof.
  intros Hi. rewrite app_assoc, lookup_app_r by (rewrite length_app, length_take; lia).
  rewrite lookup_drop, length_app, length_take. f_equal. lia.
Qed.

(** The caret follows the text through Enter: the map of [SplitBlock] keeps a
    position of the block up to the split at the clusters before it, sends one
    after the split to the new block at the clusters after it, and moves the
    positions of the blocks below one block down. *)
Theorem split_map_follows (d d' : Document) (i o : nat) (m : PosMap) (p : DocPosition)
    (b : Block) (rs : list StyledRun)
    (Hb : doc_block d i = Some b) (Hrs : block_runs b = Some rs)
    (E : apply (SplitBlock (mkPos i o)) d = Some (d', m)) :
  if block_index p =? i then same_place (abs_doc d) (abs_doc d') p (posmap_map m p)
  else moved_block (abs_doc d) (abs_doc d') p (posmap_map m p).
Proof.
  pose proof (doc_block_abs_inline d i b rs Hb Hrs) as Ha. apply lookup_lt_Some in Ha as Hlt.
  destruct (apply_split_block_inline d i o b rs) as (d1 & E1 & A); [done..|].
  cbn [apply] in E. rewrite E1 in E. injection E as <- <-. rewrite posmap_split.
  destruct p as [j k]. cbn [block_index offset].
  destruct (Nat.eqb_spec j i) as [->|Hji]; cbn [andb].
  - unfold same_place. cbn [block_index offset].
    destruct (Nat.ltb_spec o k); rewrite ?Nat.ltb_irrefl; cbn [block_index offset]; rewrite A;
      do 4 eexists; (split; [exact Ha|]).
    + split; [by rewrite lookup_splice by (simpl; lia)|]. right. rewrite drop_drop. f_equal. lia.
    + split; [apply lookup_splice_0; lia|]. left. rewrite take_take. f_equal. lia.
  - unfold moved_block. destruct (Nat.ltb_spec i j); cbn [block_index offset]; rewrite A;
      (split; [|done]); [|apply splice_before; lia].
    replace (j + 1) with (i + 2 + (j - i - 1)) by lia.
    etransitivity; [apply (splice_after _ [_; _]); lia|]. f_equal. lia.
Qed.

(** The caret follows the text through Backspace at a block start: the map of
    [MergeBlocks] sends a position of the merged block to the clusters after it
    in the block above, keeps the positions of the block above at the clusters
    before them, and moves the positions of the blocks below one block up. *)
Theorem merge_map_follows (d d' : Document) (i mo : nat) (saved : Block) (m : PosMap)
    (p : DocPosition) (b1 b2 : Block) (rs1 rs2 : list StyledRun)
    (Hi : 0 < i) (Hb1 : doc_block d (i - 1) = Some b1) (Hrs1 : block_runs b1 = Some rs1)
    (Hb2 : doc_block d i = Some b2) (Hrs2 : block_runs b2 = Some rs2)
    (Hp : doc_is_valid_position d p = true)
    (E : apply (MergeBlocks i saved mo) d = Some (d', m)) :
  if (block_index p =? i) || (block_index p =? i - 1)
  then same_place (abs_doc d) (abs_doc d') p (posmap_map m p)
  else moved_block (abs_doc d) (abs_doc d') p (posmap_map m p).
Proof.
  pose proof (doc_block_abs_inline d (i - 1) b1 rs1 Hb1 Hrs1) as Ha1.
  pose proof (doc_block_abs_inline d i b2 rs2 Hb2 Hrs2) as Ha2.
  apply lookup_lt_Some in Ha2 as Hlt.
  destruct (apply_merge_blocks_inline d i mo b1 b2 rs1) as (d1 & E1 & A); [done..|].
  cbn [apply] in E. rewrite E1 in E. injection E as <- <-. rewrite posmap_merge.
  rewrite (runs_or_nil_cells b2 rs2 Hrs2) in A.
  destruct p as [j k]. cbn [block_index offset].
  destruct (Nat.eqb_spec j i) as [->|Hji]; cbn [orb].
  { unfold same_place. cbn [block_index offset]. rewrite A. do 4 eexists.
    split; [exact Ha2|]. split; [apply lookup_splice_0; lia|]. right.
    rewrite Nat.add_comm. apply drop_app_add. }
  destruct (Nat.eqb_spec j (i - 1)) as [->|Hji1].
  - destruct (Nat.ltb_spec i (i - 1)); [lia|]. unfold same_place. cbn [block_index offset].
    rewrite A. do 4 eexists. split; [exact Ha1|]. split; [apply lookup_splice_0; lia|]. left.
    apply take_app_le. pose proof (valid_offset _ _ _ Hp Hb1) as Hk.
    by rewrite (block_char_len_runs b1 rs1 Hrs1) in Hk.
  - unfold moved_block. destruct (Nat.ltb_spec i j); cbn [block_index offset]; rewrite A;
      (split; [|done]); [|apply splice_before; lia].
    replace (j - 1) with (i - 1 + 1 + (j - i - 1)) by lia.
    etransitivity; [apply (splice_after _ [_]); lia|]. f_equal. lia.
Qed.
End Positions.

#[local] Existing Instance byte_segmentation.

Definition position_demo : Document :=
  mkDoc [Paragraph [run_plain (lit "abcd")]; Heading H2 [run_plain (lit "ef")]; HorizontalRule].

Lemma insert_map_follows_witness :
  ∃ d' m, apply (InsertText (mkPos 0 2) (lit "xy")) position_demo = Some (d', m)
    ∧ same_place (abs_doc position_demo) (abs_doc d') (mkPos 0 3) (posmap_map m (mkPos 0 3))
    ∧ posmap_map m (mkPos 0 3) = mkPos 0 5.
Proof.
  destruct (apply (InsertText (mkPos 0 2) (lit "xy")) position_demo) as [[d' m]|] eqn:E;
    [|vm_compute in E; discriminate E].
  exists d', m. split; [reflexivity|]. split.
  - apply (insert_map_follows position_demo d' 0 2 (lit "xy") m (mkPos 0 3)
             (Paragraph [run_plain (lit "abcd")]) [run_plain (lit "abcd")]);
      [reflexivity|reflexivity|discriminate|vm_compute; lia| |exact E].
    apply no_fuse_ascii; repeat constructor; vm_compute; discriminate.
  - vm_compute in E. injection E as <- <-. reflexivity.
Defined.

Lemma delete_map_follows_witness :
  ∃ d' m, apply (DeleteRange (mkPos 0 1) (mkPos 0 3) (mkDeleted [] None)) position_demo
          = Some (d', m)
    ∧ posmap_map m (mkPos 0 2) = mkPos 0 1
    ∧ same_place (abs_doc position_demo) (abs_doc d') (mkPos 0 4) (posmap_map m (mkPos 0 4)).
Proof.
  destruct (apply (DeleteRange (mkPos 0 1) (mkPos 0 3) (mkDeleted [] None)) position_demo)
    as [[d' m]|] eqn:E; [|vm_compute in E; discriminate E].
  assert (∀ k, if (1 <? k) && (k <? 3) then posmap_map m (mkPos 0 k) = mkPos 0 1
               else same_place (abs_doc position_demo) (abs_doc d') (mkPos 0 k)
                      (posmap_map m (mkPos 0 k))) as Hk.
  { intros k. apply (delete_map_follows position_demo d' 0 1 3 (mkDeleted [] None) m (mkPos 0 k)
             (Paragraph [run_plain (lit "abcd")]) [run_plain (lit "abcd")]);
      [reflexivity|reflexivity|lia|vm_compute; lia|exact E]. }
  exists d', m. split; [reflexivity|]. split; [exact (Hk 2)|exact (Hk 4)].
Defined.

Lemma split_map_follows_witness :
  ∃ d' m, apply (SplitBlock (mkPos 0 1)) position_demo = Some (d', m)
    ∧ same_place (abs_doc position_demo) (abs_doc d') (mkPos 0 3) (posmap_map m (mkPos 0 3)).
Proof.
  destruct (apply (SplitBlock (mkPos 0 1)) position_demo) as [[d' m]|] eqn:E;
    [|vm_compute in E; discriminate E].
  exists d', m. split; [reflexivity|].
  exact (split_map_follows position_demo d' 0 1 m (mkPos 0 3)
           (Paragraph [run_plain (lit "abcd")]) [run_plain (lit "abcd")] eq_refl eq_refl E).
Defined.

Lemma merge_map_follows_witness :
  ∃ d' m, apply (MergeBlocks 1 HorizontalRule 4) position_demo = Some (d', m)
    ∧ same_place (abs_doc position_demo) (abs_doc d') (mkPos 1 1) (posmap_map m (mkPos 1 1)).
Proof.
  destruct (apply (MergeBlocks 1 HorizontalRule 4) position_demo) as [[d' m]|] eqn:E;
    [|vm_compute in E; discriminate E].
  exists d', m. split; [reflexivity|].
  refine (merge_map_follows position_demo d' 1 4 HorizontalRule m (mkPos 1 1)
            (Paragraph [run_plain (lit "abcd")]) (Heading H2 [run_plain (lit "ef")])
            [run_plain (lit "abcd")] [run_plain (lit "ef")] _ eq_refl eq_refl eq_refl eq_refl _ E).
  - lia.
  - vm_compute. reflexivity.
Defined.
