(* ===== verification/Threading.v ===== *)
(** * Threading: grouping messages into conversations

    src/crates/sync/src/threading.rs: the JWZ algorithm over an arena of
    containers, one per Message-ID, linked by parent and child indices.  A vector
    index out of range, a slice off a character boundary and running out of fuel
    are [None]; ThreadingTheory proves that none of them happens. *)

From S2P Require Import Prelude.
From S2P Require Import Graphemes.
From S2P Require Import Strings.

(** ** Data *)

Record ThreadableMessage := mkMessage {
  id : str;
  message_id : str;
  in_reply_to : option str;
  references : option str;
  subject : option str;
  date : Z
}.

Record ThreadGroup := mkThread { thread_id : str; message_ids : list str }.

Record Container := mkContainer {
  cont_message_id : str;
  message : option ThreadableMessage;
  parent : option nat;
  children : list nat
}.

Record Arena := mkArena { containers : list Container; id_table : gmap str nat }.

#[export] Instance ThreadableMessage_eq_dec : EqDecision ThreadableMessage.
Proof. solve_decision. Defined.

(** ** The arena *)

Definition arena_new : Arena := mkArena [] ∅.

Definition get_or_create (a : Arena) (k : str) : nat * Arena :=
  match id_table a !! k with
  | Some i => (i, a)
  | None =>
      let i := length (containers a) in
      (i, mkArena (containers a ++ [mkContainer k None None []]) (<[k := i]> (id_table a)))
  end.

(** [self.containers[i].field = value] *)
Definition update_container (f : Container → Container) (i : nat) (a : Arena) : option Arena :=
  _ ← containers a !! i; Some (mkArena (alter f i (containers a)) (id_table a)).

Definition set_message (m : ThreadableMessage) (c : Container) : Container :=
  mkContainer (cont_message_id c) (Some m) (parent c) (children c).
Definition set_parent (p : option nat) (c : Container) : Container :=
  mkContainer (cont_message_id c) (message c) p (children c).
Definition set_children (f : list nat → list nat) (c : Container) : Container :=
  mkContainer (cont_message_id c) (message c) (parent c) (f (children c)).

Definition MAX_DEPTH : nat := 100.

(** The walk up from [current] with [left] levels to go. *)
Fixpoint is_ancestor_go (left : nat) (a : Arena) (current : option nat) (anc : nat) : option bool :=
  match current with
  | None => Some false
  | Some c =>
      if c =? anc then Some true
      else
        match left with
        | S (S _ as left') => x ← containers a !! c; is_ancestor_go left' a (parent x) anc
        | _ => Some false
        end
  end.

Definition is_ancestor (a : Arena) (idx anc : nat) : option bool :=
  is_ancestor_go MAX_DEPTH a (Some idx) anc.

Definition unlink_from_parent (child : nat) (a : Arena) : option Arena :=
  c ← containers a !! child;
  match parent c with
  | None => Some a
  | Some p =>
      a ← update_container (set_children (filter (λ x, x ≠ child))) p a;
      update_container (set_parent None) child a
  end.

Definition link_parent_child (a : Arena) (p child : nat) : option Arena :=
  looped ← is_ancestor a p child;
  if (looped : bool) then Some a
  else
    c ← containers a !! child;
    if bool_decide (parent c = Some p) then Some a
    else
      a ← unlink_from_parent child a;
      a ← update_container (set_parent (Some p)) child a;
      update_container (set_children (λ l, l ++ [child])) p a.

(** ** Subjects *)

Section Threading.
Context `{TextTables}.

(** A leading [list-prefix] tag. *)
Definition strip_tag (s : str) : str * bool :=
  match s with
  | 91%N :: _ =>
      match split_once 93 s with
      | Some (_, rest) => (trim_start rest, true)
      | None => (s, false)
      end
  | _ => (s, false)
  end.

Definition reply_prefixes : list str := [slit "re:"; slit "fwd:"; slit "fw:"].

(** One pass of the loop: the new subject and whether it changed. *)
Definition subject_pass (s : str) : option (str * bool) :=
  let '(s, tagged) := strip_tag s in
  let lower := lowercase s in
  match list_find (λ p, starts_with p lower = true) reply_prefixes with
  | Some (_, p) => rest ← slice_from (length p) s; Some (trim_start rest, true)
  | None => Some (s, tagged)
  end.

Fixpoint subject_loop (fuel : nat) (s : str) : option str :=
  match fuel with
  | O => None
  | S fuel => '(s, changed) ← subject_pass s; if (changed : bool) then subject_loop fuel s else Some s
  end.

Definition normalize_subject (subject : option str) : option str :=
  match subject with
  | None => Some []
  | Some s => let s := trim s in s ← subject_loop (S (length s)) s; Some (trim s)
  end.

(** ** References *)

(** The scan for <...>: [inside] is the identifier read so far. *)
Fixpoint bracketed (inside : option str) (s : str) : list str :=
  match s with
  | [] => []
  | 60%N :: s => bracketed (Some []) s
  | ch :: s =>
      match inside with
      | None => bracketed None s
      | Some cur =>
          if (ch =? 62)%N
          then (if is_nil (trim cur) then [] else [trim cur]) ++ bracketed None s
          else bracketed (Some (cur ++ [ch])) s
      end
  end.

Definition clean_token (t : str) : str :=
  trim (trim_end_by (λ c, (c =? 62)%N) (trim_start_by (λ c, (c =? 60)%N) t)).

Definition parse_references (references : option str) : list str :=
  match references with
  | None => []
  | Some s =>
      let refs := trim s in
      if is_nil refs then []
      else
        let ids := bracketed None refs in
        if is_nil ids
        then filter (λ t, t ≠ []) (clean_token <$> split_whitespace refs)
        else ids
  end.

(** ** Thread identifiers *)

(** 32-bit wrapping arithmetic. *)
Definition djb2_hash (s : str) : N :=
  foldl (λ h b, (h * 33 + byte_val b) mod 2 ^ 32)%N 5381%N (encode s).

Definition hex_digit (n : N) : N := if (n <? 10)%N then (48 + n)%N else (87 + n)%N.

Fixpoint hex_go (fuel : nat) (n : N) (acc : str) : str :=
  match fuel with
  | O => acc
  | S fuel =>
      let acc := hex_digit (n mod 16) :: acc in
      if (n <? 16)%N then acc else hex_go fuel (n / 16) acc
  end.

Definition generate_thread_id (root : str) : str := slit "imap-thread-" ++ hex_go 8 (djb2_hash root) [].

(** ** Building threads *)

Definition push_new (acc : list str) (k : str) : list str :=
  if bool_decide (k ∈ acc) then acc else acc ++ [k].

(** References, then what In-Reply-To adds. *)
Definition ref_ids (m : ThreadableMessage) : list str :=
  let refs := parse_references (references m) in
  match in_reply_to m with
  | Some irt => foldl push_new refs (parse_references (Some irt))
  | None => refs
  end.

Fixpoint link_chain (a : Arena) (prev : option nat) (ids : list str) : option (Arena * option nat) :=
  match ids with
  | [] => Some (a, prev)
  | k :: ids =>
      let '(i, a) := get_or_create a k in
      a ← (match prev with
           | Some p =>
               c ← containers a !! i;
               if bool_decide (parent c = None) then link_parent_child a p i else Some a
           | None => Some a
           end);
      link_chain a (Some i) ids
  end.

Definition add_message (a : Arena) (m : ThreadableMessage) : option Arena :=
  let '(i, a) := get_or_create a (message_id m) in
  a ← update_container (set_message m) i a;
  '(a, prev) ← link_chain a None (ref_ids m);
  match prev with
  | Some p => if p =? i then Some a else link_parent_child a p i
  | None => Some a
  end.

Definition find_roots (a : Arena) : list nat :=
  filter (λ i, (containers a !! i) ≫= parent = None) (seq 0 (length (containers a))).

Fixpoint get_subject_for_container (fuel : nat) (a : Arena) (idx : nat) : option (option str) :=
  match fuel with
  | O => None
  | S fuel =>
      c ← containers a !! idx;
      match message c ≫= subject with
      | Some s => Some (Some s)
      | None => find_map_opt (get_subject_for_container fuel a) (children c)
      end
  end.

(** Fuel for the recursions over the tree of a root: its depth is less than the
    number of containers. *)
Definition tree_fuel (a : Arena) : nat := S (length (containers a)).

Definition merge_root (st : Arena * gmap str nat) (root : nat) : option (Arena * gmap str nat) :=
  let '(a, subjects) := st in
  subject ← get_subject_for_container (tree_fuel a) a root;
  normalized ← normalize_subject subject;
  if is_nil normalized then Some st
  else
    match subjects !! normalized with
    | None => Some (a, <[normalized := root]> subjects)
    | Some existing =>
        ec ← containers a !! existing;
        rc ← containers a !! root;
        let root_under := a ← link_parent_child a existing root; Some (a, subjects) in
        let existing_under :=
          a ← link_parent_child a root existing; Some (a, <[normalized := root]> subjects) in
        match message ec, message rc with
        | None, Some _ => root_under
        | Some _, None => existing_under
        | em, rm =>
            if (from_option date 0 em <=? from_option date 0 rm)%Z then root_under
            else existing_under
        end
    end.

Fixpoint collect_messages (fuel : nat) (a : Arena) (st : list ThreadableMessage * list bool)
    (idx : nat) : option (list ThreadableMessage * list bool) :=
  match fuel with
  | O => None
  | S fuel =>
      let '(result, visited) := st in
      v ← visited !! idx;
      if (v : bool) then Some st
      else
        c ← containers a !! idx;
        let result := match message c with Some m => result ++ [m] | None => result end in
        fold_opt (collect_messages fuel a) (children c) (result, <[idx := true]> visited)
  end.

(** [sort_by_key(|m| m.date)]: a stable sort. *)
Fixpoint insert_by_date (m : ThreadableMessage) (l : list ThreadableMessage) :
    list ThreadableMessage :=
  match l with
  | [] => [m]
  | x :: l' => if (date m <=? date x)%Z then m :: l else x :: insert_by_date m l'
  end.

Definition sort_by_date (l : list ThreadableMessage) : list ThreadableMessage :=
  foldr insert_by_date [] l.

Definition collect_root (a : Arena) (st : list ThreadGroup * list bool) (root : nat) :
    option (list ThreadGroup * list bool) :=
  let '(groups, visited) := st in
  '(ms, visited) ← collect_messages (tree_fuel a) a ([], visited) root;
  if is_nil ms then Some (groups, visited)
  else
    c ← containers a !! root;
    Some (groups ++ [mkThread (generate_thread_id (cont_message_id c)) (id <$> sort_by_date ms)],
          visited).

Definition build_threads (ms : list ThreadableMessage) : option (list ThreadGroup) :=
  if is_nil ms then Some []
  else
    a ← fold_opt add_message ms arena_new;
    '(a, _) ← fold_opt merge_root (find_roots a) (a, ∅);
    '(groups, _) ← fold_opt (collect_root a) (find_roots a)
                     ([], replicate (length (containers a)) false);
    Some groups.

(** ** Incremental update *)

(** A map from a list of pairs, later entries replacing earlier ones. *)
Definition existing_map (existing : list ThreadGroup) : gmap str (list str) :=
  foldl (λ t g, <[thread_id g := message_ids g]> t) ∅ existing.

Definition merge_ids (old new : list str) : list str := foldl push_new old new.

(** The first reference of a message of the group whose identifier is that of an
    existing thread. *)
Definition adopting_thread (known : gmap str (list str)) (new_messages : list ThreadableMessage)
    (g : ThreadGroup) : option (str * list str) :=
  head (new_messages ≫= λ m,
    if bool_decide (id m ∈ message_ids g)
    then ref_ids m ≫= λ r,
      match known !! generate_thread_id r with
      | Some old => [(generate_thread_id r, old)]
      | None => []
      end
    else []).

Definition update_thread (known : gmap str (list str)) (new_messages : list ThreadableMessage)
    (g : ThreadGroup) : ThreadGroup :=
  match known !! thread_id g with
  | Some old => mkThread (thread_id g) (merge_ids old (message_ids g))
  | None =>
      match adopting_thread known new_messages g with
      | Some (t, old) => mkThread t (merge_ids old (message_ids g))
      | None => g
      end
  end.

Definition update_threads (existing : list ThreadGroup) (new_messages : list ThreadableMessage) :
    option (list ThreadGroup) :=
  if is_nil new_messages then Some []
  else
    groups ← build_threads new_messages;
    Some (map (update_thread (existing_map existing) new_messages) groups).

End Threading.
