(* ===== verification/SubjectTheory.v ===== *)
(** * SubjectTheory: subjects are normalized once and for all

    [normalize_subject] of Threading never panics and its loop ends; its result is
    stable, and a reply or a forward has the subject of the original. *)

From S2P Require Import Prelude.
From S2P Require Import Graphemes.
From S2P Require Import Strings.
From S2P Require Import Threading.

(** ** Trimming *)

Lemma trim_start_by_stop f l c q :
  f c = false → trim_start_by f (l ++ c :: q) = trim_start_by f l ++ c :: q.
Proof.
  intros Hc. induction l as [|x l IH]; cbn; [by rewrite Hc|]. by destruct (f x).
Qed.

Lemma trim_end_by_stop f l c q :
  f c = false → trim_end_by f (l ++ c :: q) = l ++ c :: trim_end_by f q.
Proof.
  intros Hc. unfold trim_end_by. rewrite reverse_app, reverse_cons, <- app_assoc. cbn [app].
  rewrite trim_start_by_stop by done. rewrite reverse_app, reverse_cons.
  by rewrite <- app_assoc, reverse_involutive.
Qed.

Lemma trim_end_by_all f w : Forall (λ c, f c = true) w → trim_end_by f w = [].
Proof.
  intros Hw%Forall_reverse. unfold trim_end_by.
  pose proof (trim_start_by_app f (reverse w) [] Hw) as E. rewrite app_nil_r in E. by rewrite E.
Qed.

Lemma trim_start_case s :
  Forall (λ c, is_whitespace c = true) s
  ∨ ∃ w c t, s = w ++ c :: t ∧ Forall (λ c, is_whitespace c = true) w
             ∧ is_whitespace c = false ∧ trim_start s = c :: t.
Proof.
  unfold trim_start. destruct (trim_start_by_suffix is_whitespace s) as (w & E & Hw).
  destruct (trim_start_by is_whitespace s) as [|c t] eqn:Et.
  { left. rewrite E. by rewrite app_nil_r. }
  right. exists w, c, t. split_and!; [done|done| |done].
  apply (trim_start_by_head _ c s). by rewrite Et.
Qed.

Lemma trim_start_end s : trim_start (trim_end s) = trim s.
Proof.
  unfold trim, trim_end. destruct (trim_start_case s) as [Hw|(w & c & t & -> & Hw & Hc & ->)].
  - rewrite trim_end_by_all by done. unfold trim_start.
    rewrite <- (app_nil_r s), trim_start_by_app by done. done.
  - rewrite trim_end_by_stop by done. unfold trim_start. rewrite trim_start_by_app by done.
    rewrite trim_start_by_id by done. symmetry. by apply (trim_end_by_stop _ []).
Qed.

(** No whitespace at either end. *)
Definition trimmed (s : str) : Prop :=
  (∀ c, head s = Some c → is_whitespace c = false)
  ∧ (∀ c, last s = Some c → is_whitespace c = false).

Lemma trim_start_head s c : head (trim_start s) = Some c → is_whitespace c = false.
Proof.
  destruct (trim_start_case s) as [Hw|(w & c' & t & -> & Hw & Hc & ->)]; [|by intros [= <-]].
  unfold trim_start. by rewrite <- (app_nil_r s), trim_start_by_app.
Qed.

Lemma trim_end_last s c : last (trim_end s) = Some c → is_whitespace c = false.
Proof.
  unfold trim_end, trim_end_by. rewrite last_reverse. apply trim_start_head.
Qed.

Lemma trim_end_prefix s : ∃ w, s = trim_end s ++ w.
Proof.
  unfold trim_end, trim_end_by. destruct (trim_start_by_suffix is_whitespace (reverse s)) as (w & E & _).
  exists (reverse w). rewrite <- reverse_app, <- E. by rewrite reverse_involutive.
Qed.

Lemma trim_trimmed s : trimmed (trim s).
Proof.
  unfold trim. split; [|apply trim_end_last]. intros c Hc.
  apply (trim_start_head s). destruct (trim_end_prefix (trim_start s)) as [w E]. rewrite E.
  by destruct (trim_end (trim_start s)).
Qed.

Lemma trim_id s : trimmed s → trim s = s.
Proof.
  intros [Hh Hl]. unfold trim. assert (trim_start s = s) as ->.
  { destruct s as [|c s]; [done|]. apply trim_start_by_id. by apply Hh. }
  destruct (last s) as [c|] eqn:Es; [apply last_Some in Es as [s' ->]|by apply last_None in Es as ->].
  unfold trim_end.   rewrite trim_end_by_stop; [done|]. by apply Hl.
Qed.

(** What is left of a trimmed string after its start is cut off and trimmed. *)
Lemma trim_start_trimmed w s : trimmed (w ++ s) → trimmed (trim_start s).
Proof.
  intros [_ Hl]. split; [apply trim_start_head|]. intros c Hc. apply Hl.
  destruct (trim_start_by_suffix is_whitespace s) as (w' & E & _). fold (trim_start s) in E.
  rewrite E, app_assoc. rewrite last_app, Hc. done.
Qed.

(** ** One pass and the loop *)

Section Subject.
Context `{TextTables}.

Lemma lower_prefix p s :
  p `prefix_of` to_ascii_lowercase s → ∃ w r, s = w ++ r ∧ to_ascii_lowercase w = p.
Proof.
  intros [r E]. unfold to_ascii_lowercase in *. apply fmap_app_inv in E as (w & r' & -> & -> & ->).
  eauto.
Qed.

Lemma slice_from_ascii w r : Forall (λ c, (c < 128)%N) w → slice_from (length w) (w ++ r) = Some r.
Proof.
  induction 1 as [|c w Hc _ IH]; [by destruct r|]. cbn [length app slice_from]. unfold len_utf8.
  rewrite (proj2 (N.ltb_lt c 128) Hc). cbn. by rewrite Nat.sub_0_r.
Qed.

Lemma lower_char_ascii c : (lower_char c < 128)%N → (c < 128)%N.
Proof.
  unfold lower_char. destruct (65 <=? c)%N, (c <=? 90)%N; cbn; lia.
Qed.

Lemma reply_prefix_ascii p :
  p ∈ reply_prefixes → Forall (λ c, (c < 128 ∧ c ≠ 105 ∧ c ≠ 107)%N) p.
Proof.
  intros Hp. unfold reply_prefixes in Hp.
  repeat (apply elem_of_cons in Hp as [->|Hp]; [by apply (bool_decide_unpack _); vm_compute|]). by apply not_elem_of_nil in Hp.
Qed.

(** A reply prefix in any case is cut off. *)
Lemma reply_prefix_cut p s :
  p ∈ reply_prefixes →
  starts_with p (lowercase s) = true ↔ ∃ w r, s = w ++ r ∧ to_ascii_lowercase w = p
    ∧ slice_from (length p) s = Some r.
Proof.
  intros Hp. pose proof (reply_prefix_ascii p Hp) as Hascii.
  rewrite starts_with_spec, lowercase_prefix by done. split.
  - intros (w & r & -> & <-)%lower_prefix. exists w, r. split_and!; [done|done|].
    unfold to_ascii_lowercase in *. rewrite length_fmap. apply slice_from_ascii.
    rewrite Forall_fmap in Hascii. eapply Forall_impl; [exact Hascii|]. intros c [Hc _]. by apply lower_char_ascii.
  - intros (w & r & -> & <- & _). unfold to_ascii_lowercase. rewrite fmap_app. by eexists.
Qed.

Lemma strip_tag_spec s :
  strip_tag s = (s, false) ∨ ∃ w r, s = w ++ r ∧ w ≠ [] ∧ strip_tag s = (trim_start r, true).
Proof.
  unfold strip_tag. repeat case_match; simplify_eq; try by left.
  all: right.
  all: match goal with Hs : split_once _ _ = Some (?u, ?v) |- _ =>
    apply split_once_Some in Hs as [E _]; exists (u ++ [93%N]), v; rewrite E, <- app_assoc;
    split_and!; [done|by destruct u|done] end.
Qed.

Lemma reply_prefix_length p : p ∈ reply_prefixes → 0 < length p.
Proof.
  intros Hp. unfold reply_prefixes in Hp.
  repeat (apply elem_of_cons in Hp as [->|Hp]; [cbn; lia|]). by apply not_elem_of_nil in Hp.
Qed.

(** The prefix part of a pass. *)
Lemma reply_part_spec s (tagged : bool) :
  trimmed s →
  match list_find (λ p, starts_with p (lowercase s) = true) reply_prefixes with
  | Some (_, p) => rest ← slice_from (length p) s; Some (trim_start rest, true)
  | None => Some (s, tagged)
  end = Some (s, tagged)
  ∧ (∀ p, p ∈ reply_prefixes → starts_with p (lowercase s) ≠ true)
  ∨ ∃ w r p, s = w ++ r ∧ to_ascii_lowercase w = p ∧ p ∈ reply_prefixes ∧ trimmed (trim_start r)
    ∧ match list_find (λ p, starts_with p (lowercase s) = true) reply_prefixes with
      | Some (_, p) => rest ← slice_from (length p) s; Some (trim_start rest, true)
      | None => Some (s, tagged)
      end = Some (trim_start r, true).
Proof.
  intros Hs. destruct (list_find _ reply_prefixes) as [[i p]|] eqn:E.
  - apply list_find_Some in E as (Hi & Hp & _). right.
    assert (p ∈ reply_prefixes) as Hin by by eapply list_elem_of_lookup_2.
    apply reply_prefix_cut in Hp as (w & r & Es & Hw & Hr); [|done].
    exists w, r, p. split_and!; [done|done|done| |by rewrite Hr].
    apply (trim_start_trimmed w). by rewrite <- Es.
  - left. split; [done|]. apply list_find_None in E. rewrite Forall_forall in E.
    intros p Hp. by apply E.
Qed.

(** A pass leaves the subject as it is, or takes something off its start. *)
Lemma subject_pass_spec s :
  trimmed s →
  subject_pass s = Some (s, false)
  ∨ ∃ s', subject_pass s = Some (s', true) ∧ trimmed s' ∧ length s' < length s.
Proof.
  intros Hs. unfold subject_pass.
  destruct (strip_tag_spec s) as [->|(w & r & E & Hw & ->)].
  - destruct (reply_part_spec s false Hs) as [[-> _]|(w & r & p & Es & Hw & Hp & Ht & ->)];
      [by left|]. right. eexists. split_and!; [done|done|].
    pose proof (reply_prefix_length p Hp) as Hl. rewrite <- Hw in Hl.
    unfold to_ascii_lowercase in Hl. rewrite length_fmap in Hl. rewrite Es, length_app.
    pose proof (trim_start_by_length is_whitespace r). unfold trim_start. lia.
  - assert (trimmed (trim_start r)) as Ht by (apply (trim_start_trimmed w); by rewrite <- E).
    assert (length (trim_start r) < length s) as Hl.
    { rewrite E, length_app. pose proof (trim_start_by_length is_whitespace r).
      destruct w; [done|]. cbn. unfold trim_start. lia. }
    right. destruct (reply_part_spec (trim_start r) true Ht)
      as [[-> _]|(w' & r' & p & Es & _ & _ & Ht' & ->)]; eexists; split_and!; try done.
    rewrite Es, length_app in Hl. pose proof (trim_start_by_length is_whitespace r').
    unfold trim_start in *. lia.
Qed.

(** The loop ends: each pass that changes the subject shortens it. *)
Lemma subject_loop_spec fuel s :
  trimmed s → length s < fuel →
  ∃ r, subject_loop fuel s = Some r ∧ trimmed r ∧ subject_pass r = Some (r, false).
Proof.
  revert s. induction fuel as [|fuel IH]; intros s Hs Hl; [lia|]. cbn [subject_loop].
  destruct (subject_pass_spec s Hs) as [E|(s' & E & Ht & Hlt)]; rewrite E; cbn [mbind option_bind].
  - by exists s.
  - apply IH; [done|lia].
Qed.

Lemma subject_loop_fuel f1 f2 s :
  trimmed s → length s < f1 → length s < f2 → subject_loop f1 s = subject_loop f2 s.
Proof.
  revert f2 s. induction f1 as [|f1 IH]; intros f2 s Hs H1 H2; [lia|].
  destruct f2 as [|f2]; [lia|]. cbn [subject_loop].
  destruct (subject_pass_spec s Hs) as [E|(s' & E & Ht & Hlt)]; rewrite E; cbn [mbind option_bind];
    [done|]. apply IH; [done|lia..].
Qed.

Lemma normalize_subject_spec s :
  ∃ r, normalize_subject (Some s) = Some r ∧ trimmed r ∧ subject_pass r = Some (r, false)
    ∧ subject_loop (S (length (trim s))) (trim s) = Some r.
Proof.
  unfold normalize_subject.
  destruct (subject_loop_spec (S (length (trim s))) (trim s)) as (r & E & Hr & Hp);
    [apply trim_trimmed|lia|].
  exists r. rewrite E. cbn [mbind option_bind]. by rewrite (trim_id r).
Qed.

Lemma normalize_subject_total s : ∃ r, normalize_subject s = Some r.
Proof.
  destruct s as [s|]; [|by eexists]. destruct (normalize_subject_spec s) as (r & E & _). eauto.
Qed.

Lemma normalize_subject_stable r :
  trimmed r → subject_pass r = Some (r, false) → normalize_subject (Some r) = Some r.
Proof.
  intros Hr Hp. unfold normalize_subject. rewrite (trim_id r) by done. cbn [subject_loop].
  rewrite Hp. cbn [mbind option_bind]. by rewrite trim_id.
Qed.

(** ** Replies *)

(** A prefix of at least one character, none of them white, ends of a trimmed
    whole. *)
Lemma trim_prefix w c s :
  head w = Some c → is_whitespace c = false → last w = Some 58%N → trim (w ++ s) = w ++ trim_end s.
Proof.
  intros Hh Hc Hl. unfold trim. assert (trim_start (w ++ s) = w ++ s) as ->.
  { destruct w as [|c' w]; simplify_eq/=. unfold trim_start. by apply trim_start_by_id. }
  apply last_Some in Hl as [w' ->]. rewrite <- !app_assoc. by apply trim_end_by_stop.
Qed.

Lemma reply_prefix_ends w :
  to_ascii_lowercase w ∈ reply_prefixes →
  last w = Some 58%N ∧ ∃ c, head w = Some c ∧ is_whitespace c = false ∧ c ≠ 91%N.
Proof.
  intros Hw.
  assert (∀ c, is_whitespace (lower_char c) = false → is_whitespace c = false) as Hws.
  { intros c. unfold lower_char. destruct ((65 <=? c)%N && (c <=? 90)%N) eqn:E; [|done].
    apply andb_true_iff in E as [?%N.leb_le ?%N.leb_le]. intros _. unfold is_whitespace.
    rewrite !orb_false_iff, !andb_false_iff, !N.eqb_neq, !N.leb_gt. lia. }
  assert (∀ c, lower_char c = 58%N → c = 58%N) as Hcolon.
  { intros c. unfold lower_char. destruct (65 <=? c)%N eqn:E1, (c <=? 90)%N; cbn; try done.
    apply N.leb_le in E1. lia. }
  assert (∀ c, lower_char c ≠ 91%N → c ≠ 91%N) as Hbr by (intros c Hc ->; by apply Hc).
  unfold reply_prefixes in Hw.
  repeat (apply elem_of_cons in Hw as [Hw|Hw];
    [destruct w as [|c1 [|c2 [|c3 [|c4 [|]]]]]; try done; cbn in Hw; injection Hw; intros;
     split; [cbn; f_equal; by apply Hcolon|];
     exists c1; split_and!; [done|apply Hws|apply Hbr];
     by match goal with E : lower_char c1 = _ |- _ => rewrite E end|]).
  by apply not_elem_of_nil in Hw.
Qed.

Lemma reply_prefix_unique w w' r r' :
  to_ascii_lowercase w ∈ reply_prefixes → to_ascii_lowercase w' ∈ reply_prefixes →
  w ++ r = w' ++ r' → w = w' ∧ r = r'.
Proof.
  intros Hw Hw' E. assert (length w = length w') as Hl; [|by apply app_inj_1].
  assert (to_ascii_lowercase w ++ to_ascii_lowercase r
          = to_ascii_lowercase w' ++ to_ascii_lowercase r') as E'.
  { unfold to_ascii_lowercase. by rewrite <- !fmap_app, E. }
  rewrite <- (length_fmap lower_char w), <- (length_fmap lower_char w').
  change (lower_char <$> w) with (to_ascii_lowercase w).
  change (lower_char <$> w') with (to_ascii_lowercase w').
  revert Hw Hw' E'. generalize (to_ascii_lowercase w), (to_ascii_lowercase w'). clear.
  intros p p' Hp Hp'. unfold reply_prefixes in Hp, Hp'.
  repeat (apply elem_of_cons in Hp as [->|Hp];
    [repeat (apply elem_of_cons in Hp' as [->|Hp']; [by cbn|]); by apply not_elem_of_nil in Hp'|]).
  by apply not_elem_of_nil in Hp.
Qed.

Lemma subject_pass_reply w s :
  to_ascii_lowercase w ∈ reply_prefixes → trimmed (w ++ s) →
  subject_pass (w ++ s) = Some (trim_start s, true).
Proof.
  intros Hw Ht. destruct (reply_prefix_ends w Hw) as (_ & c & Hh & _ & Hc).
  assert (strip_tag (w ++ s) = (w ++ s, false)) as Es.
  { unfold strip_tag. destruct w as [|c' w]; simplify_eq/=. repeat case_match; congruence. }
  unfold subject_pass. rewrite Es.
  destruct (reply_part_spec (w ++ s) false Ht) as [[_ Hno]|(w' & r & p & E & Hw' & Hp & _ & ->)].
  - destruct (Hno _ Hw). apply reply_prefix_cut; [done|]. exists w, s. split_and!; [done..|].
    pose proof (reply_prefix_ascii _ Hw) as Ha. unfold to_ascii_lowercase in *.
    rewrite length_fmap. apply slice_from_ascii. rewrite Forall_fmap in Ha.
    eapply Forall_impl; [exact Ha|]. intros x [Hx _]. by apply lower_char_ascii.
  - subst p. by destruct (reply_prefix_unique w w' s r Hw Hp E) as [-> ->].
Qed.

Lemma normalize_subject_reply w s :
  to_ascii_lowercase w ∈ reply_prefixes →
  normalize_subject (Some (w ++ s)) = normalize_subject (Some s).
Proof.
  intros Hw. destruct (reply_prefix_ends w Hw) as (Hl & c & Hh & Hc & _).
  pose proof (trim_trimmed (w ++ s)) as Ht. unfold normalize_subject.
  rewrite (trim_prefix w c s Hh Hc Hl) in *. cbn [subject_loop].
  rewrite (subject_pass_reply w (trim_end s) Hw Ht), trim_start_end. cbn [mbind option_bind].
  rewrite (subject_loop_fuel _ (S (length (trim s))) (trim s)); [done|apply trim_trimmed| |lia].
  rewrite <- trim_start_end, length_app.
  pose proof (trim_start_by_length is_whitespace (trim_end s)). unfold trim_start.
  destruct w; [done|]. cbn. lia.
Qed.

(** ** Properties *)

(** The subject conversations are grouped by is canonical: normalization never
    panics and its loop ends, normalizing again changes nothing, and a reply or a
    forward, its prefix in any case and however often repeated, has the normalized
    subject of the original. *)
Theorem normalize_subject_canonical (s : str) :
  ∃ r, normalize_subject (Some s) = Some r ∧ normalize_subject (Some r) = Some r
    ∧ ∀ w, to_ascii_lowercase w ∈ reply_prefixes → normalize_subject (Some (w ++ s)) = Some r.
Proof.
  destruct (normalize_subject_spec s) as (r & E & Ht & Hp & _). exists r.
  split_and!; [done|by apply normalize_subject_stable|].
  intros w Hw. by rewrite normalize_subject_reply.
Qed.
End Subject.

#[local] Existing Instance ascii_text.

Lemma normalize_subject_canonical_witness :
  to_ascii_lowercase (slit "RE:") ∈ reply_prefixes
  ∧ normalize_subject (Some (slit "RE: [list] Fwd: Hello ")) = Some (slit "Hello").
Proof.
  assert (to_ascii_lowercase (slit "RE:") ∈ reply_prefixes) as Hw
    by (apply (bool_decide_unpack _); vm_compute; exact I).
  split; [exact Hw|].
  destruct (normalize_subject_canonical (slit " [list] Fwd: Hello ")) as (r & E & _ & Hr).
  specialize (Hr (slit "RE:") Hw). change (slit "RE: [list] Fwd: Hello ")
    with (slit "RE:" ++ slit " [list] Fwd: Hello "). rewrite Hr, <- E. vm_compute. reflexivity.
Defined.
