(* ===== verification/ThreadingTheory.v ===== *)
(** * ThreadingTheory: the arena is a forest and no message is lost

    The containers of Threading are seen through four functions (size, Message-ID,
    message and parent of an index).  [arena_ok] is the invariant of the arena,
    [rooted] says it has no cycle; the walk up and the recursions down are related
    to it, and the phases of [build_threads] are shown to keep it. *)

From S2P Require Import Prelude.
From S2P Require Import Graphemes.
From S2P Require Import Strings.
From S2P Require Import Threading.

(** ** Views of the arena *)

Definition size (a : Arena) : nat := length (containers a).
Definition mid (a : Arena) (i : nat) : option str := cont_message_id <$> containers a !! i.
Definition msg (a : Arena) (i : nat) : option ThreadableMessage := containers a !! i ≫= message.
Definition par (a : Arena) (i : nat) : option nat := containers a !! i ≫= parent.
Definition kids (a : Arena) (i : nat) : list nat := from_option children [] (containers a !! i).

(** The container [n] levels above [i]. *)
Definition up (a : Arena) (n i : nat) : option nat := iter_opt n (par a) i.

Definition root_of (a : Arena) (i r : nat) : Prop := par a r = None ∧ ∃ n, up a n i = Some r.

(** Every container is below a root: there is no cycle. *)
Definition rooted (a : Arena) : Prop := ∀ i, i < size a → ∃ r, root_of a i r.

Record arena_ok (a : Arena) : Prop := {
  ok_table k i : id_table a !! k = Some i ↔ mid a i = Some k;
  ok_parent i p : par a i = Some p → p < size a;
  ok_kids i : NoDup (kids a i) ∧ ∀ j, j ∈ kids a i ↔ par a j = Some i
}.

(** ** Walking up *)

Lemma par_lt a i p : par a i = Some p → i < size a.
Proof. unfold par. destruct (containers a !! i) eqn:E; [|done]. intros _. by eapply lookup_lt_Some. Qed.

Lemma mid_lt a i k : mid a i = Some k ↔ i < size a ∧ mid a i = Some k.
Proof.
  split; [|by intros []]. intros E. split; [|done]. unfold mid in E.
  destruct (containers a !! i) eqn:Ei; [|done]. by eapply lookup_lt_Some.
Qed.

Lemma mid_is_Some a i : i < size a → ∃ k, mid a i = Some k.
Proof. intros Hi. unfold mid. destruct (lookup_lt_is_Some_2 _ _ Hi) as [c ->]. by eexists. Qed.

Lemma cont_is_Some a i : i < size a → ∃ c, containers a !! i = Some c.
Proof. apply lookup_lt_is_Some_2. Qed.

Lemma mid_inj a i j k : arena_ok a → mid a i = Some k → mid a j = Some k → i = j.
Proof. intros Ha Hi%(ok_table _ Ha) Hj%(ok_table _ Ha). congruence. Qed.

Lemma up_S a n i p : par a i = Some p → up a (S n) i = up a n p.
Proof. unfold up. cbn [iter_opt]. by intros ->. Qed.

Lemma up_add a n m i j : up a n i = Some j → up a (n + m) i = up a m j.
Proof.
  revert i. induction n as [|n IH]; intros i E; [by injection E as ->|].
  unfold up in *. cbn [iter_opt Nat.add] in *. destruct (par a i); [|done]. by apply IH.
Qed.

Lemma up_snoc a n i j : up a n i = Some j → up a (S n) i = par a j.
Proof.
  intros E. replace (S n) with (n + 1) by lia. rewrite (up_add _ _ _ _ _ E).
  unfold up. cbn. by destruct (par a j).
Qed.

Lemma up_root_0 a n r j : par a r = None → up a n r = Some j → n = 0 ∧ j = r.
Proof. intros Hr. destruct n as [|n]; unfold up; cbn; [by intros [= ->]|]. by rewrite Hr. Qed.

Lemma up_lt a n i j : arena_ok a → up a n i = Some j → i < size a → j < size a.
Proof.
  intros Ha. revert i. induction n as [|n IH]; intros i E Hi; [by injection E as <-|].
  unfold up in E. cbn [iter_opt] in E. destruct (par a i) as [p|] eqn:Ep; [|done].
  apply (IH p E). by eapply ok_parent.
Qed.

(** The levels below a root are walked in one way. *)
Lemma up_root_le a n m i j r :
  par a r = None → up a n i = Some r → up a m i = Some j → m ≤ n ∧ up a (n - m) j = Some r.
Proof.
  intros Hr En Em. destruct (le_lt_dec m n) as [Hle|Hlt].
  - split; [done|]. rewrite <- (up_add _ _ (n - m) _ _ Em). by replace (m + (n - m)) with n by lia.
  - replace m with (n + (m - n)) in Em by lia. rewrite (up_add _ _ _ _ _ En) in Em.
    destruct (up_root_0 _ _ _ _ Hr Em) as [? _]. lia.
Qed.

Lemma root_of_unique a i r1 r2 : root_of a i r1 → root_of a i r2 → r1 = r2.
Proof.
  intros (H1 & n1 & E1) (H2 & n2 & E2). destruct (up_root_le _ _ _ _ _ _ H1 E1 E2) as [_ E].
  by destruct (up_root_0 _ _ _ _ H2 E) as [_ ->].
Qed.

Lemma up_prefix a m k i r : up a (m + k) i = Some r → ∃ j, up a m i = Some j.
Proof.
  unfold up. revert i. induction m as [|m IH]; intros i; cbn [iter_opt Nat.add]; [by eexists|].
  destruct (par a i); [apply IH|done].
Qed.

(** The containers on the way up are distinct, so the way is shorter than the
    arena. *)
Lemma up_root_length a n i r :
  arena_ok a → i < size a → par a r = None → up a n i = Some r → n < size a.
Proof.
  intros Ha Hi Hr En.
  assert (∀ m, m ≤ n → ∃ j, up a m i = Some j ∧ j < size a) as Hall.
  { intros m Hm. destruct (up_prefix a m (n - m) i r) as [j Em].
    { by replace (m + (n - m)) with n by lia. }
    exists j. split; [done|]. by eapply up_lt. }
  set (path := omap (λ m, up a m i) (seq 0 (S n))).
  assert (∀ l, (∀ m, m ∈ l → m ≤ n) → length (omap (λ m, up a m i) l) = length l) as Hlen.
  { induction l as [|m l IH]; intros Hl; [done|]. cbn.
    destruct (Hall m) as (j & -> & _); [apply Hl; set_solver|]. cbn. f_equal. apply IH. set_solver. }
  assert (length path = S n) as Hpath.
  { unfold path. rewrite Hlen, length_seq; [done|]. intros m Hm%elem_of_seq. lia. }
  assert (∀ l, NoDup l → (∀ m, m ∈ l → m ≤ n) → NoDup (omap (λ m, up a m i) l)) as Hnd.
  { induction 1 as [|m l Hm _ IH]; intros Hl; [constructor|]. cbn.
    destruct (Hall m) as (j & Ej & _); [apply Hl; set_solver|]. rewrite Ej. constructor; [|set_solver].
    intros (m' & Hm' & Ej')%list_elem_of_omap.
    assert (m ≤ n) by (apply Hl; set_solver). assert (m' ≤ n) by (apply Hl; set_solver).
    destruct (up_root_le _ _ _ _ _ _ Hr En Ej) as [_ E1].
    destruct (up_root_le _ _ _ _ _ _ Hr En Ej') as [_ E2].
    destruct (up_root_le _ _ _ _ _ _ Hr E1 E2) as [? _].
    destruct (up_root_le _ _ _ _ _ _ Hr E2 E1) as [? _].
    by replace m' with m in Hm' by lia. }
  assert (path ⊆+ seq 0 (size a)) as Hsub.
  { apply NoDup_submseteq.
    - unfold path. apply Hnd; [apply NoDup_seq|]. intros m Hm%elem_of_seq. lia.
    - intros j (m & Hm & Ej)%list_elem_of_omap. apply elem_of_seq in Hm. apply elem_of_seq.
      destruct (Hall m) as (j' & Ej' & ?); [lia|]. simplify_eq. lia. }
  apply submseteq_length in Hsub. rewrite Hpath, length_seq in Hsub. lia.
Qed.

(** ** What the operations of the arena do *)

(** [a'] is [a] with the parent of [c] replaced by [q]. *)
Record reparented (a a' : Arena) (c : nat) (q : option nat) : Prop := {
  rp_size : size a' = size a;
  rp_table : id_table a' = id_table a;
  rp_mid i : mid a' i = mid a i;
  rp_msg i : msg a' i = msg a i;
  rp_par i : par a' i = if decide (i = c) then q else par a i
}.

Lemma update_spec f i a :
  i < size a →
  update_container f i a = Some (mkArena (alter f i (containers a)) (id_table a)).
Proof. intros [c Hc]%cont_is_Some. unfold update_container. by rewrite Hc. Qed.

Lemma alter_bind {A B} (h : A → option B) f i (l : list A) j :
  (∀ c, h (f c) = h c) → (alter f i l !! j ≫= h) = (l !! j ≫= h).
Proof.
  intros Hf. destruct (decide (i = j)) as [<-|Hne]; [|by rewrite list_lookup_alter_ne].
  rewrite list_lookup_alter_eq. destruct (l !! i); cbn; auto.
Qed.

Lemma alter_fmap {A B} (h : A → B) f i (l : list A) j :
  (∀ c, h (f c) = h c) → h <$> alter f i l !! j = h <$> l !! j.
Proof.
  intros Hf. destruct (decide (i = j)) as [<-|Hne]; [|by rewrite list_lookup_alter_ne].
  rewrite list_lookup_alter_eq. destruct (l !! i); cbn; by rewrite ?Hf.
Qed.

Lemma size_alter f i l t : size (mkArena (alter f i l) t) = length l.
Proof. apply length_alter. Qed.

Lemma mid_alter f i l t j :
  (∀ c, cont_message_id (f c) = cont_message_id c) →
  mid (mkArena (alter f i l) t) j = mid (mkArena l t) j.
Proof. apply alter_fmap. Qed.

Lemma msg_alter f i l t j :
  (∀ c, message (f c) = message c) → msg (mkArena (alter f i l) t) j = msg (mkArena l t) j.
Proof. apply alter_bind. Qed.

Lemma par_alter f i l t j :
  (∀ c, parent (f c) = parent c) → par (mkArena (alter f i l) t) j = par (mkArena l t) j.
Proof. apply alter_bind. Qed.

Lemma par_set_parent p i l t j :
  i < length l →
  par (mkArena (alter (set_parent p) i l) t) j
  = if decide (j = i) then p else par (mkArena l t) j.
Proof.
  intros [c Hc]%lookup_lt_is_Some_2. unfold par. cbn. case_decide as Hj.
  - subst j. by rewrite list_lookup_alter_eq, Hc.
  - by rewrite list_lookup_alter_ne.
Qed.

Lemma kids_alter f i l t j :
  (∀ c, children (f c) = children c) → kids (mkArena (alter f i l) t) j = kids (mkArena l t) j.
Proof.
  intros Hf. unfold kids. cbn. destruct (decide (i = j)) as [<-|Hne]; [|by rewrite list_lookup_alter_ne].
  rewrite list_lookup_alter_eq. destruct (l !! i); cbn; auto.
Qed.

Lemma kids_set_children g i l t j :
  i < length l →
  kids (mkArena (alter (set_children g) i l) t) j
  = if decide (j = i) then g (kids (mkArena l t) j) else kids (mkArena l t) j.
Proof.
  intros [c Hc]%lookup_lt_is_Some_2. unfold kids. cbn. case_decide as Hj.
  - subst j. by rewrite list_lookup_alter_eq, Hc.
  - by rewrite list_lookup_alter_ne.
Qed.

Create Rewrite HintDb arena.
#[export] Hint Rewrite size_alter mid_alter msg_alter par_alter kids_alter using done : arena.

Lemma unlink_spec a c :
  arena_ok a → c < size a →
  ∃ a', unlink_from_parent c a = Some a' ∧ arena_ok a' ∧ reparented a a' c None.
Proof.
  intros Ha Hc. destruct (cont_is_Some a c Hc) as [cc Ec]. unfold unlink_from_parent.
  rewrite Ec. cbn [mbind option_bind]. assert (par a c = parent cc) as Epar by (unfold par; by rewrite Ec).
  destruct (parent cc) as [q|] eqn:Eq.
  2: { exists a. split; [done|]. split; [done|]. split; try done. intros i. case_decide; congruence. }
  assert (q < size a) as Hq by by eapply ok_parent.
  rewrite update_spec by done. cbn [mbind option_bind].
  rewrite update_spec by (by rewrite size_alter). eexists. split; [done|]. cbn [containers id_table].
  destruct a as [l t]. unfold size in Hc, Hq. cbn in Hc, Hq.
  assert (∀ i, par (mkArena (alter (set_parent None) c (alter (set_children (filter (λ x, x ≠ c))) q l)) t) i
    = if decide (i = c) then None else par (mkArena l t) i) as Hpar.
  { intros i. rewrite par_set_parent by (by rewrite length_alter).
    case_decide; [done|]. by autorewrite with arena. }
  split; [|split]; try done; try (intros i); cbn [id_table];
    rewrite ?size_alter, ?length_alter, ?mid_alter, ?msg_alter; try done.
  split.
  - intros k i. autorewrite with arena. apply (ok_table _ Ha).
  - intros i p. rewrite Hpar. autorewrite with arena. rewrite length_alter.
    case_decide; [done|]. apply (ok_parent _ Ha).
  - intros i. autorewrite with arena. rewrite kids_set_children by done.
    destruct (ok_kids _ Ha i) as [Hnd Hin]. split.
    { case_decide; [by apply NoDup_filter|done]. }
    intros j. rewrite Hpar. destruct (decide (i = q)) as [->|Hiq].
    + rewrite list_elem_of_filter, Hin. case_decide; naive_solver.
    + rewrite Hin. case_decide as Hj; [subst j|done]. rewrite Epar. naive_solver.
Qed.

Lemma attach_spec a p c :
  arena_ok a → p < size a → c < size a → par a c = None →
  ∃ a', (a1 ← update_container (set_parent (Some p)) c a;
         update_container (set_children (λ l, l ++ [c])) p a1) = Some a'
    ∧ arena_ok a' ∧ reparented a a' c (Some p).
Proof.
  intros Ha Hp Hc Hroot. rewrite update_spec by done. cbn [mbind option_bind].
  rewrite update_spec by (by rewrite size_alter). eexists. split; [done|]. cbn [containers id_table].
  destruct a as [l t]. unfold size in Hp, Hc. cbn in Hp, Hc.
  assert (∀ i, par (mkArena (alter (set_children (λ l, l ++ [c])) p (alter (set_parent (Some p)) c l)) t) i
    = if decide (i = c) then Some p else par (mkArena l t) i) as Hpar.
  { intros i. rewrite par_alter by done. by apply par_set_parent. }
  split; [|split]; try done; try (intros i); cbn [id_table];
    rewrite ?size_alter, ?length_alter, ?mid_alter, ?msg_alter; try done.
  split.
  - intros k i. autorewrite with arena. apply (ok_table _ Ha).
  - intros i q. rewrite Hpar. rewrite size_alter, length_alter.
    case_decide; [by intros [= <-]|apply (ok_parent _ Ha)].
  - intros i. rewrite kids_set_children by (by rewrite length_alter). autorewrite with arena.
    destruct (ok_kids _ Ha i) as [Hnd Hin]. split.
    { case_decide as Hi; [|done]. apply NoDup_app. split_and!; [done| |apply NoDup_singleton].
      intros x Hx%Hin ->%list_elem_of_singleton. congruence. }
    intros j. rewrite Hpar. destruct (decide (i = p)) as [->|Hip].
    + rewrite elem_of_app, list_elem_of_singleton, Hin. case_decide; naive_solver.
    + rewrite Hin. case_decide as Hj; [subst j|done]. rewrite Hroot. naive_solver.
Qed.

Lemma is_ancestor_go_spec n a i anc :
  arena_ok a → i < size a →
  ∃ b, is_ancestor_go (S n) a (Some i) anc = Some b
    ∧ (b = true ↔ ∃ k, k ≤ n ∧ up a k i = Some anc).
Proof.
  intros Ha. revert i. induction n as [|n IH]; intros i Hi.
  { cbn [is_ancestor_go]. destruct (Nat.eqb_spec i anc) as [->|Hne].
    - exists true. split; [done|]. split; [intros _; by exists 0|done].
    - exists false. split; [done|]. split; [done|]. intros (k & Hk & E).
      assert (k = 0) as -> by lia. by injection E. }
  cbn [is_ancestor_go]. destruct (Nat.eqb_spec i anc) as [->|Hne].
  { exists true. split; [done|]. split; [intros _; exists 0; split; [lia|done]|done]. }
  destruct (cont_is_Some a i Hi) as [c Ec]. rewrite Ec. cbn [mbind option_bind].
  assert (par a i = parent c) as Epar by (unfold par; by rewrite Ec).
  destruct (parent c) as [p|] eqn:Ep.
  - destruct (IH p) as (b & Eb & Hb); [by eapply ok_parent|]. exists b. split; [done|].
    rewrite Hb. split.
    + intros (k & Hk & E). exists (S k). split; [lia|]. by rewrite (up_S _ _ _ p).
    + intros ([|k] & Hk & E); [by injection E|]. exists k. split; [lia|].
      by rewrite (up_S _ _ _ p) in E.
  - exists false. split; [by destruct n|]. split; [done|]. intros ([|k] & Hk & E); [by injection E|].
    unfold up in E. cbn [iter_opt] in E. by rewrite Epar in E.
Qed.

(** Linking does nothing when the walk up meets the child; otherwise the child
    gets its new parent.  Whatever the depth, the invariant stays. *)
Lemma link_spec a p c :
  arena_ok a → p < size a → c < size a →
  ∃ a', link_parent_child a p c = Some a' ∧ arena_ok a'
    ∧ ((∃ k, k < MAX_DEPTH ∧ up a k p = Some c) ∧ a' = a
       ∨ ¬ (∃ k, k < MAX_DEPTH ∧ up a k p = Some c) ∧ reparented a a' c (Some p)).
Proof.
  intros Ha Hp Hc. destruct (is_ancestor_go_spec 99 a p c Ha Hp) as (b & Eb & Hb).
  unfold link_parent_child, is_ancestor. change MAX_DEPTH with 100. rewrite Eb. cbn [mbind option_bind].
  assert (b = true ↔ ∃ k, k < 100 ∧ up a k p = Some c) as Hb'.
  { rewrite Hb. split; intros (k & ? & ?); exists k; (split; [lia|done]). }
  destruct b.
  { exists a. split; [done|]. split; [done|]. left. split; [by apply Hb'|done]. }
  assert (¬ ∃ k, k < 100 ∧ up a k p = Some c) as Hn by (rewrite <- Hb'; done).
  destruct (cont_is_Some a c Hc) as [cc Ec]. rewrite Ec. cbn [mbind option_bind].
  case_bool_decide as Hcc.
  { exists a. split; [done|]. split; [done|]. right. split; [done|]. split; try done.
    intros i. case_decide; [subst|done]. unfold par. by rewrite Ec. }
  destruct (unlink_spec a c Ha Hc) as (a1 & -> & Ha1 & R1). cbn [mbind option_bind].
  destruct (attach_spec a1 p c) as (a2 & -> & Ha2 & R2); [done|by rewrite (rp_size _ _ _ _ R1)..| |].
  { rewrite (rp_par _ _ _ _ R1). by rewrite decide_True. }
  exists a2. split; [done|]. split; [done|]. right. split; [done|]. destruct R1, R2.
  split; intros; try congruence. rewrite rp_par1. case_decide; [done|]. rewrite rp_par0.
  by rewrite decide_False.
Qed.

(** Linking under a container that is not below the child makes no cycle. *)
Lemma reparented_rooted a a' p c :
  arena_ok a → rooted a → p < size a → c < size a → reparented a a' c (Some p) →
  ¬ (∃ k, up a k p = Some c) → rooted a'.
Proof.
  intros Ha Hr Hp Hc R Hnot.
  assert (∀ n i r, up a n i = Some r → par a r = None → i < size a →
            (¬ ∃ k, up a k i = Some c) → root_of a' i r) as Hother.
  { induction n as [|n IH]; intros i r En Er Hi Hn.
    - injection En as <-. split; [|by exists 0]. rewrite (rp_par _ _ _ _ R).
      case_decide as Hic; [|done]. destruct Hn. exists 0. cbn. by rewrite Hic.
    - unfold up in En. cbn [iter_opt] in En. destruct (par a i) as [q|] eqn:Eq; [|done].
      destruct (IH q r) as (Hr' & m & Em); [done|done|by eapply ok_parent| |].
      { intros [k Ek]. apply Hn. exists (S k). by rewrite (up_S _ _ _ q). }
      split; [done|]. exists (S m). rewrite (up_S _ _ _ q); [done|].
      rewrite (rp_par _ _ _ _ R). case_decide as Hic; [|done]. destruct Hn. exists 0. cbn. by rewrite Hic. }
  destruct (Hr p Hp) as (rp & Hrp & m & Em).
  destruct (Hother m p rp Em Hrp Hp Hnot) as (Hrp' & mp & Emp).
  intros i Hi. rewrite (rp_size _ _ _ _ R) in Hi. destruct (Hr i Hi) as (r & Er & n & En).
  revert i Hi En. induction n as [|n IH]; intros i Hi En; (destruct (decide (i = c)) as [->|Hic];
    [exists rp; split; [done|]; exists (S mp); rewrite (up_S _ _ _ p); [done|];
     rewrite (rp_par _ _ _ _ R); by rewrite decide_True|]).
  - injection En as <-. exists i. split; [|by exists 0]. rewrite (rp_par _ _ _ _ R).
    by rewrite decide_False.
  - unfold up in En. cbn [iter_opt] in En. destruct (par a i) as [q|] eqn:Eq; [|done].
    destruct (IH q) as (r' & Hr' & k & Ek); [by eapply ok_parent|done|]. exists r'. split; [done|].
    exists (S k). rewrite (up_S _ _ _ q); [done|]. rewrite (rp_par _ _ _ _ R).
    by rewrite decide_False.
Qed.

(** A root linked under another container brings what is below it along. *)
Lemma reparented_root_of a a' p c rp :
  par a c = None → reparented a a' c (Some p) → root_of a p rp → rp ≠ c →
  (∀ i r, root_of a i r → root_of a' i (if decide (r = c) then rp else r)).
Proof.
  intros Hc R (Hrp & m & Em) Hne.
  assert (∀ i j, i ≠ c → par a i = Some j → par a' i = Some j) as Hstep.
  { intros i j Hi E. rewrite (rp_par _ _ _ _ R). by rewrite decide_False. }
  assert (∀ n i r, up a n i = Some r → ∃ k, up a' k i = Some r) as Hup.
  { induction n as [|n IH]; intros i r E; [by exists 0|]. unfold up in E. cbn [iter_opt] in E.
    destruct (par a i) as [q|] eqn:Eq; [|done]. destruct (IH _ _ E) as [k Ek].
    exists (S k). rewrite (up_S _ _ _ q); [done|]. apply Hstep; [|done]. intros ->. congruence. }
  assert (par a' rp = None) as Hrp' by (rewrite (rp_par _ _ _ _ R); by rewrite decide_False).
  intros i r (Hr & n & En). destruct (Hup _ _ _ En) as [k Ek]. case_decide as Hrc.
  - subst r. split; [done|]. destruct (Hup _ _ _ Em) as [k' Ek']. exists (k + S k').
    rewrite (up_add _ _ _ _ _ Ek), (up_S _ _ _ p); [done|]. rewrite (rp_par _ _ _ _ R).
    by rewrite decide_True.
  - split; [|by eexists]. rewrite (rp_par _ _ _ _ R). by rewrite decide_False.
Qed.

(** ** Growing the forest: references *)

(** The neighbours of a list that starts after [px]. *)
Fixpoint neighbours (px : option str) (ks : list str) : list (str * str) :=
  match ks with
  | [] => []
  | k :: ks => match px with Some x => [(x, k)] | None => [] end ++ neighbours (Some k) ks
  end.

(** The containers a message links, each pair the parent and the child: every
    reference with the next one, the last with the message. *)
Definition links (m : ThreadableMessage) : list (str * str) :=
  neighbours None (ref_ids m ++ [message_id m]).

Definition all_ids (ms : list ThreadableMessage) : list str :=
  ms ≫= λ m, message_id m :: ref_ids m.

(** The references go from older to newer Message-IDs, for some age. *)
Definition ordered_by (age : str → nat) (ms : list ThreadableMessage) : Prop :=
  ∀ m x y, m ∈ ms → (x, y) ∈ links m → x ≠ y → age x < age y.

(** What is assumed of the input: nothing, no more Message-IDs than the depth the
    loop check looks at, or an order of the references. *)
Inductive mode := Any | Few | Ordered (age : str → nat).

Record inv (md : mode) (U : list str) (a : Arena) : Prop := {
  inv_ok : arena_ok a;
  inv_ids i k : mid a i = Some k → k ∈ U;
  inv_forest :
    match md with
    | Any => True
    | Few => length (remove_dups U) ≤ MAX_DEPTH ∧ rooted a
    | Ordered age => ∀ i j x y,
        par a i = Some j → mid a i = Some y → mid a j = Some x → age x < age y
    end
}.

Definition allowed (md : mode) (x y : str) : Prop :=
  match md with Ordered age => x ≠ y → age x < age y | _ => True end.

Definition fits (md : mode) (U : list str) : Prop :=
  match md with Few => length (remove_dups U) ≤ MAX_DEPTH | _ => True end.

(** [a'] has the containers, messages and parents of [a], and maybe more. *)
Record extends (a a' : Arena) : Prop := {
  ex_size : size a ≤ size a';
  ex_mid i k : mid a i = Some k → mid a' i = Some k;
  ex_msg i : msg a' i = msg a i;
  ex_par i p : par a i = Some p → par a' i = Some p
}.

#[export] Instance extends_preorder : PreOrder extends.
Proof.
  split; [by split|]. intros a b c [] []. split; [lia|auto|congruence|auto].
Qed.

Lemma size_le_ids md U a : inv md U a → size a ≤ length (remove_dups U).
Proof.
  intros [Ha Hids _]. set (ids := cont_message_id <$> containers a).
  assert (∀ i k, ids !! i = Some k → mid a i = Some k) as Hmid.
  { intros i k. unfold ids, mid. by rewrite list_lookup_fmap. }
  assert (NoDup ids) as Hnd.
  { apply NoDup_alt. intros i j k Hi%Hmid Hj%Hmid. by eapply mid_inj. }
  replace (size a) with (length ids) by apply length_fmap.
  apply submseteq_length, NoDup_submseteq; [done|].
  intros k [i Hi%Hmid]%list_elem_of_lookup. apply elem_of_remove_dups. by eapply Hids.
Qed.

Lemma age_up age a n i j y x :
  arena_ok a →
  (∀ i j x y, par a i = Some j → mid a i = Some y → mid a j = Some x → age x < age y) →
  up a n i = Some j → mid a i = Some y → mid a j = Some x → age x ≤ age y.
Proof.
  intros Ha Hage. revert i y. induction n as [|n IH]; intros i y E Hy Hx.
  - injection E as ->. by simplify_eq.
  - unfold up in E. cbn [iter_opt] in E. destruct (par a i) as [p|] eqn:Ep; [|done].
    destruct (mid_is_Some a p) as [z Hz]; [by eapply ok_parent|].
    pose proof (Hage _ _ _ _ Ep Hy Hz). pose proof (IH _ _ E Hz Hx). lia.
Qed.

Lemma inv_rooted md U a : inv md U a → md ≠ Any → rooted a.
Proof.
  intros [Ha _ Hf] Hmd. destruct md as [| |age]; [done|by destruct Hf|].
  assert (∀ n i y, age y < n → mid a i = Some y → ∃ r, root_of a i r) as Hall.
  { induction n as [|n IH]; intros i y Hn Hy; [lia|]. destruct (par a i) as [p|] eqn:Ep.
    - destruct (mid_is_Some a p) as [x Hx]; [by eapply ok_parent|].
      destruct (IH p x) as (r & Hr & k & Ek); [pose proof (Hf _ _ _ _ Ep Hy Hx); lia|done|].
      exists r. split; [done|]. exists (S k). by rewrite (up_S _ _ _ p).
    - exists i. split; [done|]. by exists 0. }
  intros i [y Hy]%mid_is_Some. by apply (Hall (S (age y)) i y); [lia|].
Qed.

(** With few Message-IDs the check sees every ancestor. *)
Lemma few_ancestors U a k p c :
  inv Few U a → p < size a → up a k p = Some c → ∃ k', k' < MAX_DEPTH ∧ up a k' p = Some c.
Proof.
  intros Hi Hp Ek. destruct (inv_rooted _ _ _ Hi) with p as (r & Hr & n & En); [done..|].
  exists k. split; [|done]. destruct (up_root_le _ _ _ _ _ _ Hr En Ek) as [Hle _].
  pose proof (up_root_length _ _ _ _ (inv_ok _ _ _ Hi) Hp Hr En).
  pose proof (size_le_ids _ _ _ Hi). destruct (inv_forest _ _ _ Hi). lia.
Qed.

Lemma reparented_inv md U a a' p c x y :
  inv md U a → arena_ok a' → mid a p = Some x → mid a c = Some y → allowed md x y →
  ¬ (∃ k, k < MAX_DEPTH ∧ up a k p = Some c) → reparented a a' c (Some p) → inv md U a'.
Proof.
  intros Hi Ha' Hx Hy Hal Hn R. split; [done| |].
  { intros i k. rewrite (rp_mid _ _ _ _ R). apply (inv_ids _ _ _ Hi). }
  destruct (proj1 (mid_lt _ _ _) Hx) as [Hp _]. destruct (proj1 (mid_lt _ _ _) Hy) as [Hc _].
  destruct md as [| |age]; [done| |].
  - split; [by destruct (inv_forest _ _ _ Hi)|]. eapply reparented_rooted;
      [apply Hi|by apply (inv_rooted Few U a Hi)|exact Hp|exact Hc|exact R|].
    intros [k Ek]. by destruct Hn; eapply few_ancestors.
  - intros i j x' y'. rewrite !(rp_mid _ _ _ _ R), (rp_par _ _ _ _ R). case_decide as Hic.
    + subst i. intros [= <-]. intros. simplify_eq. apply Hal. intros <-. apply Hn. exists 0.
      split; [unfold MAX_DEPTH; lia|]. f_equal. eapply mid_inj; [apply Hi|done..].
    + apply (inv_forest _ _ _ Hi).
Qed.

Lemma link_inv md U a p c x y :
  inv md U a → mid a p = Some x → mid a c = Some y → allowed md x y →
  ∃ a', link_parent_child a p c = Some a' ∧ inv md U a'
    ∧ (a' = a ∨ reparented a a' c (Some p))
    ∧ (∀ age, md = Ordered age → x ≠ y → reparented a a' c (Some p)).
Proof.
  intros Hi Hx Hy Hal. destruct (link_spec a p c (inv_ok _ _ _ Hi)) as (a' & E & Ha' & Hcase);
    [by eapply mid_lt..|].
  exists a'. split; [done|]. destruct Hcase as [[(k & _ & Ek) ->]|[Hn R]].
  - split; [done|]. split; [by left|]. intros age -> Hxy. exfalso.
    pose proof (age_up age a k p c x y (inv_ok _ _ _ Hi) (inv_forest _ _ _ Hi) Ek Hx Hy).
    specialize (Hal Hxy). cbn in Hal. lia.
  - split_and!; [|by right|by intros].
    by apply (reparented_inv md U a a' p c x y).
Qed.

(** ** Containers and messages *)

Lemma fresh_lookup {A} (l : list A) (x : A) i :
  (l ++ [x]) !! i = if decide (i = length l) then Some x else l !! i.
Proof.
  case_decide as Hi; [subst i; by apply list_lookup_middle|].
  destruct (decide (i < length l)); [by apply lookup_app_l|].
  rewrite lookup_ge_None_2 by (rewrite length_app; cbn; lia). by rewrite lookup_ge_None_2 by lia.
Qed.

Lemma get_or_create_spec md U a k i a' :
  inv md U a → k ∈ U → get_or_create a k = (i, a') →
  inv md U a' ∧ mid a' i = Some k ∧ extends a a' ∧ (∀ j, par a' j = par a j).
Proof.
  intros Hi Hk. unfold get_or_create. destruct (id_table a !! k) as [j|] eqn:Ej.
  { intros [= <- <-]. split_and!; [done|by apply (ok_table _ (inv_ok _ _ _ Hi))|done|done]. }
  intros [= <- <-]. set (a' := mkArena _ _). pose proof (inv_ok _ _ _ Hi) as Ha.
  assert (∀ j, mid a' j = if decide (j = size a) then Some k else mid a j) as Hmid.
  { intros j. unfold mid, a', size. cbn. rewrite fresh_lookup. by case_decide. }
  assert (∀ j, msg a' j = msg a j) as Hmsg.
  { intros j. unfold msg, a'. cbn. rewrite fresh_lookup. case_decide as Hj; [|done].
    subst j. by rewrite lookup_ge_None_2. }
  assert (∀ j, par a' j = par a j) as Hpar.
  { intros j. unfold par, a'. cbn. rewrite fresh_lookup. case_decide as Hj; [|done].
    subst j. by rewrite lookup_ge_None_2. }
  assert (∀ j, kids a' j = kids a j) as Hkids.
  { intros j. unfold kids, a'. cbn. rewrite fresh_lookup. case_decide as Hj; [|done].
    subst j. by rewrite lookup_ge_None_2. }
  assert (size a' = S (size a)) as Hsize by (unfold size, a'; cbn; rewrite length_app; cbn; lia).
  assert (mid a (size a) = None) as Hnone by (unfold mid; by rewrite lookup_ge_None_2).
  split_and!; [| |split|done].
  - split; [split| |].
    + intros k' j. rewrite Hmid. unfold a'. cbn. fold (size a).
      destruct (decide (k' = k)) as [->|Hne].
      * rewrite lookup_insert_eq. case_decide as Hj; [subst; by split|]. split; [congruence|].
        intros E%(ok_table _ Ha). congruence.
      * rewrite lookup_insert_ne by done. case_decide as Hj; [subst|by apply (ok_table _ Ha)].
        split; [|congruence]. intros E%(ok_table _ Ha). congruence.
    + intros j p. rewrite Hpar, Hsize. intros E%(ok_parent _ Ha). lia.
    + intros j. rewrite Hkids. destruct (ok_kids _ Ha j) as [Hnd Hin]. split; [done|].
      intros l. by rewrite Hpar.
    + intros j k'. rewrite Hmid. case_decide; [by intros [= <-]|apply (inv_ids _ _ _ Hi)].
    + destruct md as [| |age]; [done| |].
      * destruct (inv_forest _ _ _ Hi) as [Hfew Hr]. split; [done|].
        assert (∀ n j, up a' n j = up a n j) as Hup.
        { unfold up. induction n as [|n IH]; intros j; cbn [iter_opt]; [done|]. rewrite Hpar.
          by destruct (par a j); cbn. }
        intros j Hj. destruct (decide (j = size a)) as [->|Hne].
        -- exists (size a). split; [|by exists 0]. rewrite Hpar. unfold par.
           by rewrite lookup_ge_None_2.
        -- destruct (Hr j) as (r & Hrr & n & En); [lia|]. exists r. split; [by rewrite Hpar|].
           exists n. by rewrite Hup.
      * intros j l x y. rewrite Hpar, !Hmid. intros E.
        pose proof (par_lt _ _ _ E). pose proof (ok_parent _ Ha _ _ E).
        rewrite !decide_False by lia. by apply (inv_forest _ _ _ Hi).
  - rewrite Hmid. by rewrite decide_True.
  - lia.
  - intros j k' E. rewrite Hmid. case_decide; [subst; congruence|done].
  - done.
  - intros j p. by rewrite Hpar.
Qed.

Lemma neighbours_snoc px ks r k :
  last ks = Some r → neighbours px (ks ++ [k]) = neighbours px ks ++ [(r, k)].
Proof.
  revert px. induction ks as [|k' ks IH]; intros px; [done|]. cbn [app neighbours].
  destruct ks as [|k2 ks].
  - intros [= <-]. cbn. by rewrite app_nil_r.
  - intros E. rewrite IH by done. by rewrite app_assoc.
Qed.

Lemma reparented_extends a a' c p :
  par a c = None → reparented a a' c p → extends a a'.
Proof.
  intros Hc R. split; [by rewrite (rp_size _ _ _ _ R)|intros i k; by rewrite (rp_mid _ _ _ _ R)
    |apply (rp_msg _ _ _ _ R)|].
  intros i q E. rewrite (rp_par _ _ _ _ R). rewrite decide_False; [done|]. intros ->. congruence.
Qed.

(** New parents come from the links [L]. *)
Definition parents_from (L : list (str * str)) (a a' : Arena) : Prop :=
  ∀ i p, par a' i = Some p → par a i = Some p
    ∨ ∃ x y, mid a' p = Some x ∧ mid a' i = Some y ∧ (x, y) ∈ L.

Lemma parents_from_trans L1 L2 a b c :
  extends b c → parents_from L1 a b → parents_from L2 b c → parents_from (L1 ++ L2) a c.
Proof.
  intros He H1 H2 i p [E|(x & y & ? & ? & ?)]%H2; [apply H1 in E as [?|(x & y & Hx & Hy & ?)]|].
  - by left.
  - right. exists x, y. split_and!; [by apply (ex_mid _ _ He)..|set_solver].
  - right. exists x, y. set_solver.
Qed.

Lemma link_parents_from a a' p c x y :
  mid a p = Some x → mid a c = Some y → (a' = a ∨ reparented a a' c (Some p)) →
  parents_from [(x, y)] a a'.
Proof.
  intros Hx Hy [->|R] i q E; [by left|]. rewrite (rp_par _ _ _ _ R) in E. case_decide; [|by left].
  right. simplify_eq. exists x, y. rewrite !(rp_mid _ _ _ _ R). set_solver.
Qed.

(** One link of the chain: a container that has a parent keeps it. *)
Lemma chain_link_spec md U a p i x y :
  inv md U a → mid a p = Some x → mid a i = Some y → allowed md x y →
  ∃ a', (c ← containers a !! i;
         if bool_decide (parent c = None) then link_parent_child a p i else Some a) = Some a'
    ∧ inv md U a' ∧ extends a a' ∧ parents_from [(x, y)] a a'.
Proof.
  intros Hi Hx Hy Hal. destruct (cont_is_Some a i) as [c Ec]; [by eapply mid_lt|].
  rewrite Ec. cbn [mbind option_bind]. case_bool_decide as Hp.
  - destruct (link_inv md U a p i x y) as (a' & E & Hi' & Hcase & _); [done..|].
    exists a'. split_and!; [done|done| |by eapply link_parents_from].
    destruct Hcase as [->|R]; [done|]. eapply reparented_extends; [|exact R].
    unfold par. by rewrite Ec.
  - exists a. split_and!; [done..|]. by intros ? ? ?; left.
Qed.

Lemma link_chain_spec md U ks a prev :
  inv md U a → (∀ k, k ∈ ks → k ∈ U) →
  (∀ p, prev = Some p → is_Some (mid a p)) →
  (∀ x y, (x, y) ∈ neighbours (prev ≫= mid a) ks → allowed md x y) →
  ∃ a' prev', link_chain a prev ks = Some (a', prev') ∧ inv md U a' ∧ extends a a'
    ∧ parents_from (neighbours (prev ≫= mid a) ks) a a'
    ∧ match last ks with
      | Some k => ∃ p, prev' = Some p ∧ mid a' p = Some k
      | None => prev' = prev
      end.
Proof.
  revert a prev. induction ks as [|k ks IH]; intros a prev Hi HU Hprev Hal.
  { exists a, prev. split_and!; [done..| |done]. by intros ? ? ?; left. }
  cbn [link_chain]. destruct (get_or_create a k) as [i a1] eqn:E1.
  destruct (get_or_create_spec _ _ _ _ _ _ Hi (HU k ltac:(set_solver)) E1) as (Hi1 & Hk & He1 & Hp1).
  assert (∃ a2, (match prev with
    | Some p => c ← containers a1 !! i;
        if bool_decide (parent c = None) then link_parent_child a1 p i else Some a1
    | None => Some a1 end) = Some a2 ∧ inv md U a2 ∧ extends a1 a2
    ∧ parents_from (match prev ≫= mid a with Some x => [(x, k)] | None => [] end) a1 a2)
    as (a2 & -> & Hi2 & He2 & Hp2).
  { destruct prev as [p|].
    - destruct (Hprev p eq_refl) as [x Hx]. cbn [mbind option_bind] in *. rewrite Hx in *.
      apply (chain_link_spec md U a1 p i x k); [done|by apply (ex_mid _ _ He1)|done|].
      apply Hal. cbn. set_solver.
    - exists a1. split_and!; [done..|]. by intros ? ? ?; left. }
  cbn [mbind option_bind].
  assert (mid a2 i = Some k) as Hk2 by by apply (ex_mid _ _ He2).
  destruct (IH a2 (Some i)) as (a' & prev' & E & Hi' & He' & Hp' & Hlast); [done|set_solver| | |].
  { by intros p [= <-]; exists k. }
  { intros x y. cbn [mbind option_bind]. rewrite Hk2. intros Hin. apply Hal. cbn [neighbours].
    set_solver. }
  exists a', prev'. split_and!; [done|done|by do 2 (etrans; [eassumption|])| |].
  - cbn [neighbours]. cbn [mbind option_bind] in Hp'. rewrite Hk2 in Hp'.
    eapply (parents_from_trans _ _ _ a2); [done| |done].
    intros j p Ej. rewrite <- Hp1. by apply Hp2.
  - destruct ks as [|k2 ks].
    2: { change (last (k :: k2 :: ks)) with (last (k2 :: ks)).
         destruct (last (k2 :: ks)) eqn:El; [done|]. by apply last_None in El. }
    cbn in Hlast. subst prev'. exists i. split; [done|].
    by apply (ex_mid _ _ He').
Qed.

(** ** Adding a message *)

Lemma place_spec md U a m i :
  inv md U a → mid a i = Some (message_id m) →
  ∃ a', update_container (set_message m) i a = Some a' ∧ inv md U a'
    ∧ size a' = size a ∧ (∀ j, mid a' j = mid a j) ∧ (∀ j, par a' j = par a j)
    ∧ (∀ j, msg a' j = if decide (j = i) then Some m else msg a j).
Proof.
  intros Hi Hm. destruct (proj1 (mid_lt _ _ _) Hm) as [Hlt _]. rewrite update_spec by done.
  eexists. split; [done|]. destruct a as [l t]. cbn [containers id_table].
  assert (∀ j, par (mkArena (alter (set_message m) i l) t) j = par (mkArena l t) j) as Hpar
    by (intros; by autorewrite with arena).
  assert (∀ n j, up (mkArena (alter (set_message m) i l) t) n j = up (mkArena l t) n j) as Hup.
  { unfold up. induction n as [|n IH]; intros j; cbn [iter_opt]; [done|]. rewrite Hpar.
    by destruct (par (mkArena l t) j); cbn. }
  split_and!; try (intros; by autorewrite with arena).
  - split; [split| |].
    + intros k j. autorewrite with arena. apply (ok_table _ (inv_ok _ _ _ Hi)).
    + intros j p. autorewrite with arena. apply (ok_parent _ (inv_ok _ _ _ Hi)).
    + intros j. autorewrite with arena. destruct (ok_kids _ (inv_ok _ _ _ Hi) j) as [Hnd Hin].
      split; [done|]. intros j'. by rewrite Hpar.
    + intros j k. autorewrite with arena. apply (inv_ids _ _ _ Hi).
    + destruct md as [| |age]; [done| |].
      * destruct (inv_forest _ _ _ Hi) as [Hf Hr]. split; [done|]. intros j. rewrite size_alter.
        intros Hj. destruct (Hr j Hj) as (r & Hrr & n & En). exists r. split; [by rewrite Hpar|].
        exists n. by rewrite Hup.
      * intros j p x y. autorewrite with arena. apply (inv_forest _ _ _ Hi).
  - intros j. unfold msg. cbn. destruct (cont_is_Some _ _ Hlt) as [c Hc]. cbn in Hc.
    case_decide as Hj; [subst j; by rewrite list_lookup_alter_eq, Hc|].
    by rewrite list_lookup_alter_ne.
Qed.

(** What adding [m] does, when its container is [i]. *)
Record added (md : mode) (m : ThreadableMessage) (a a' : Arena) (i : nat) : Prop := {
  ad_size : size a ≤ size a';
  ad_mid j k : mid a j = Some k → mid a' j = Some k;
  ad_self : mid a' i = Some (message_id m);
  ad_msg j : msg a' j = if decide (j = i) then Some m else msg a j;
  ad_par j p : par a j = Some p → j ≠ i → par a' j = Some p;
  ad_from : parents_from (links m) a a';
  ad_reply age r : md = Ordered age → last (ref_ids m) = Some r → r ≠ message_id m →
    ∃ p, mid a' p = Some r ∧ par a' i = Some p
}.

Lemma links_last m r :
  last (ref_ids m) = Some r → links m = neighbours None (ref_ids m) ++ [(r, message_id m)].
Proof. apply neighbours_snoc. Qed.

Lemma links_none m : last (ref_ids m) = None → ref_ids m = [] ∧ links m = [].
Proof. intros E%last_None. unfold links. by rewrite E. Qed.

(** The last step: the message goes below its last reference [p]. *)
Lemma link_last_spec md U m a i p r :
  inv md U a → mid a i = Some (message_id m) → mid a p = Some r →
  last (ref_ids m) = Some r → (∀ x y, (x, y) ∈ links m → allowed md x y) →
  ∃ a', (if p =? i then Some a else link_parent_child a p i) = Some a' ∧ inv md U a'
    ∧ (a' = a ∨ reparented a a' i (Some p))
    ∧ (∀ age, md = Ordered age → r ≠ message_id m → reparented a a' i (Some p)).
Proof.
  intros Hi Hm Hr Hl Hal. destruct (Nat.eqb_spec p i) as [->|Hne].
  - exists a. split_and!; [done|done|by left|]. intros age _ Hrm. congruence.
  - assert (r ≠ message_id m) as Hrm by (intros ->; apply Hne; by eapply mid_inj; [apply Hi|..]).
    destruct (link_inv md U a p i r (message_id m)) as (a' & E & Hi' & Hcase & Hage); [done..| |].
    { apply Hal. rewrite (links_last m r) by done. set_solver. }
    exists a'. split_and!; [done..|]. intros age Hmd _. by eapply Hage.
Qed.

Lemma link_last_added md m a a3 a4 i p r :
  added Any m a a3 i → last (ref_ids m) = Some r → mid a3 p = Some r →
  (a4 = a3 ∨ reparented a3 a4 i (Some p)) →
  (∀ age, md = Ordered age → r ≠ message_id m → reparented a3 a4 i (Some p)) →
  added md m a a4 i.
Proof.
  intros [As Am Aself Amsg Apar Afrom _] El Hr Hcase Hage.
  assert (∀ j k, mid a4 j = Some k ↔ mid a3 j = Some k) as Hmid4.
  { intros j k. destruct Hcase as [->|R]; [done|]. by rewrite (rp_mid _ _ _ _ R). }
  split.
  - destruct Hcase as [->|R]; [done|]. by rewrite (rp_size _ _ _ _ R).
  - intros j k E. by apply Hmid4, Am.
  - by apply Hmid4.
  - intros j. rewrite <- Amsg. destruct Hcase as [->|R]; [done|]. apply (rp_msg _ _ _ _ R).
  - intros j q E Hj. destruct Hcase as [->|R]; [by apply Apar|]. rewrite (rp_par _ _ _ _ R).
    rewrite decide_False by done. by apply Apar.
  - intros j q E.
    destruct (link_parents_from a3 a4 p i r (message_id m) Hr Aself Hcase j q E)
      as [E3|(x & y & ? & ? & Hin)].
    + apply Afrom in E3 as [?|(x & y & ? & ? & ?)]; [by left|]. right. exists x, y.
      split_and!; [by apply Hmid4..|done].
    + right. exists x, y. split_and!; [done..|]. rewrite (links_last m r) by done. set_solver.
  - intros age r' Hmd Er' Hrm. assert (r' = r) as -> by congruence. exists p. split; [by apply Hmid4|].
    rewrite (rp_par _ _ _ _ (Hage age Hmd Hrm)). by rewrite decide_True.
Qed.

Lemma add_message_spec md U a m :
  inv md U a → (∀ k, k ∈ message_id m :: ref_ids m → k ∈ U) →
  (∀ x y, (x, y) ∈ links m → allowed md x y) →
  ∃ a' i, add_message a m = Some a' ∧ inv md U a' ∧ added md m a a' i.
Proof.
  intros Hi HU Hal. unfold add_message.
  destruct (get_or_create a (message_id m)) as [i a1] eqn:E1.
  destruct (get_or_create_spec _ _ _ _ _ _ Hi (HU (message_id m) ltac:(set_solver)) E1)
    as (Hi1 & Hm1 & He1 & Hp1).
  destruct (place_spec md U a1 m i Hi1 Hm1) as (a2 & -> & Hi2 & Hs2 & Hmid2 & Hpar2 & Hmsg2).
  cbn [mbind option_bind].
  assert (∀ x y, (x, y) ∈ neighbours None (ref_ids m) → (x, y) ∈ links m) as Hsub.
  { intros x y Hin. destruct (last (ref_ids m)) as [r|] eqn:El.
    - rewrite (links_last m r) by done. set_solver.
    - apply links_none in El as [Er _]. rewrite Er in Hin. cbn in Hin. set_solver. }
  destruct (link_chain_spec md U (ref_ids m) a2 None) as (a3 & prev & -> & Hi3 & He3 & Hp3 & Hl3);
    [done|set_solver|done|by intros x y Hin; apply Hal, Hsub|].
  cbn [mbind option_bind] in *.
  assert (mid a3 i = Some (message_id m)) as Hm3 by (apply (ex_mid _ _ He3); by rewrite Hmid2).
  assert (added Any m a a3 i) as Had.
  { split; try done.
    - pose proof (ex_size _ _ He1). pose proof (ex_size _ _ He3). lia.
    - intros j k E. apply (ex_mid _ _ He3). rewrite Hmid2. by apply (ex_mid _ _ He1).
    - intros j. rewrite (ex_msg _ _ He3), Hmsg2. case_decide; [done|]. apply (ex_msg _ _ He1).
    - intros j p E _. apply (ex_par _ _ He3). rewrite Hpar2. by apply (ex_par _ _ He1).
    - intros j p [E|(x & y & ? & ? & Hin)]%Hp3; [left; by rewrite <- Hp1, <- Hpar2|].
      right. exists x, y. auto. }
  destruct (last (ref_ids m)) as [r|] eqn:El.
  2: { subst prev. exists a3, i. split_and!; [done|done|]. destruct Had. split; try done. intros. congruence. }
  destruct Hl3 as (p & -> & Hr).
  destruct (link_last_spec md U m a3 i p r) as (a4 & -> & Hi4 & Hcase & Hage); [done..|].
  exists a4, i. split_and!; [done|done|].
  by eapply link_last_added.
Qed.

(** ** All messages *)

(** The messages whose Message-ID does not come back later in the list. *)
Fixpoint survivors (ms : list ThreadableMessage) : list ThreadableMessage :=
  match ms with
  | [] => []
  | m :: ms =>
      if bool_decide (message_id m ∈ message_id <$> ms) then survivors ms else m :: survivors ms
  end.

Lemma elem_of_survivors_snoc ms m x :
  x ∈ survivors (ms ++ [m]) ↔ x = m ∨ x ∈ survivors ms ∧ message_id x ≠ message_id m.
Proof.
  induction ms as [|m' ms IH]; cbn [app survivors].
  { cbn. rewrite bool_decide_eq_false_2 by set_solver. set_solver. }
  rewrite fmap_app. cbn. repeat case_bool_decide; set_solver.
Qed.

Lemma survivors_subset ms x : x ∈ survivors ms → x ∈ ms.
Proof. induction ms as [|m ms IH]; cbn; [set_solver|]. case_bool_decide; set_solver. Qed.

Lemma survivors_NoDup ms : NoDup (message_id <$> survivors ms).
Proof.
  induction ms as [|m ms IH]; cbn; [constructor|]. case_bool_decide as Hm; [done|].
  cbn. constructor; [|done]. intros (x & E & Hx%survivors_subset)%list_elem_of_fmap.
  apply Hm, list_elem_of_fmap. eauto.
Qed.

Lemma survivors_all ms : NoDup (message_id <$> ms) → survivors ms = ms.
Proof.
  induction ms as [|m ms IH]; cbn; [done|]. intros [Hm Hnd]%NoDup_cons.
  rewrite bool_decide_eq_false_2 by done. by rewrite IH.
Qed.
