(* ===== verification/ThreadsTheory.v ===== *)
(** * ThreadsTheory: what [build_threads] returns

    The three phases of [build_threads] over the forest of ThreadingTheory: adding
    every message, merging the roots with one subject, collecting the messages
    below each root. *)

From S2P Require Import Prelude.
From S2P Require Import Graphemes.
From S2P Require Import Strings.
From S2P Require Import Threading.
From S2P Require Import ThreadingTheory.
From S2P Require Import SubjectTheory.

(** ** The forest of the references *)

Record linked (md : mode) (U : list str) (ms : list ThreadableMessage) (a : Arena) : Prop := {
  lk_inv : inv md U a;
  lk_mid m : m ∈ ms → ∃ i, mid a i = Some (message_id m);
  lk_msg i m : msg a i = Some m ↔ m ∈ survivors ms ∧ mid a i = Some (message_id m);
  lk_from i p : par a i = Some p →
    ∃ m x y, m ∈ ms ∧ (x, y) ∈ links m ∧ mid a p = Some x ∧ mid a i = Some y;
  lk_reply age m r : md = Ordered age → NoDup (message_id <$> ms) → m ∈ ms →
    last (ref_ids m) = Some r → r ≠ message_id m →
    ∃ i p, mid a i = Some (message_id m) ∧ mid a p = Some r ∧ par a i = Some p
}.

Lemma inv_new md U : fits md U → inv md U arena_new.
Proof.
  intros Hf. split; [split| |].
  - intros k i. unfold mid. cbn. rewrite lookup_empty. by split.
  - done.
  - intros i. unfold kids. cbn. split; [constructor|]. intros j. split; [set_solver|done].
  - done.
  - destruct md; [done| |done]. split; [done|]. intros i Hi. unfold size in Hi. cbn in Hi. lia.
Qed.

Lemma linked_snoc md U ms m a a' i :
  linked md U ms a → inv md U a' → added md m a a' i → linked md U (ms ++ [m]) a'.
Proof.
  intros L Hi' A. pose proof (inv_ok _ _ _ Hi') as Ha'. destruct A as [As Am Aself Amsg Apar Afrom Areply].
  assert (∀ j k, mid a j = Some k → j ≠ i → k ≠ message_id m) as Hother.
  { intros j k E Hj ->. apply Hj. eapply mid_inj; [done|by apply Am|done]. }
  split; [done| | | |].
  - intros x [Hx| ->%list_elem_of_singleton]%elem_of_app; [|by eexists].
    destruct (lk_mid _ _ _ _ L x Hx) as [j Hj]. eexists. by apply Am.
  - intros j x. rewrite Amsg, elem_of_survivors_snoc. case_decide as Hj; [subst j|].
    + split; [intros [= <-]; auto|]. intros [ [->|[_ Hne]] E]; congruence.
    + rewrite (lk_msg _ _ _ _ L). split.
      * intros [Hx E]. split; [right; split; [done|by eapply Hother]|by apply Am].
      * intros [ [->|[Hx _]] E]; [destruct Hj; by eapply mid_inj|]. split; [done|].
        destruct (lk_mid _ _ _ _ L x) as [j' Hj']; [by apply survivors_subset|].
        by rewrite (mid_inj a' j j' _ Ha' E (Am _ _ Hj')).
  - intros j p [E|(x & y & ? & ? & ?)]%Afrom.
    + destruct (lk_from _ _ _ _ L j p E) as (x & u & v & ? & ? & ? & ?). exists x, u, v.
      split_and!; [set_solver|done|by apply Am..].
    + exists m, x, y. split_and!; [set_solver|done..].
  - intros age x r Hmd Hnd Hx Hr Hne. rewrite fmap_app in Hnd.
    apply NoDup_app in Hnd as (Hnd & Hdis & _).
    apply elem_of_app in Hx as [Hx| ->%list_elem_of_singleton].
    + destruct (lk_reply _ _ _ _ L age x r Hmd Hnd Hx Hr Hne) as (j & p & Hj & Hp & Ep).
      exists j, p. split_and!; [by apply Am..|]. apply Apar; [done|]. intros ->.
      apply (Hdis (message_id x)); [by apply list_elem_of_fmap_2|]. apply list_elem_of_singleton.
      apply Am in Hj. congruence.
    + destruct (Areply age r Hmd Hr Hne) as (p & Hp & Ep). by exists i, p.
Qed.

Lemma fold_add md U ms :
  fits md U → (∀ k, k ∈ all_ids ms → k ∈ U) →
  (∀ m x y, m ∈ ms → (x, y) ∈ links m → allowed md x y) →
  ∃ a, fold_opt add_message ms arena_new = Some a ∧ linked md U ms a.
Proof.
  intros Hf. induction ms as [|m ms IH] using rev_ind; intros HU Hal.
  { exists arena_new. split; [done|]. split; [by apply inv_new|set_solver| |done|set_solver].
    intros i m. split; [done|]. set_solver. }
  destruct IH as (a & E & L).
  { intros k (x & Hk & Hx)%list_elem_of_bind. apply HU, list_elem_of_bind. set_solver. }
  { intros x u v Hx. apply Hal. set_solver. }
  destruct (add_message_spec md U a m (lk_inv _ _ _ _ L)) as (a' & i & E' & Hi' & Had).
  { intros k Hk. apply HU, list_elem_of_bind. set_solver. }
  { intros x y. apply Hal. set_solver. }
  exists a'. rewrite fold_opt_app, E. cbn. rewrite E'. split; [done|].
  by eapply linked_snoc.
Qed.

(** ** Recursions below a root *)

Lemma elem_of_kids a i j : arena_ok a → j ∈ kids a i ↔ par a j = Some i.
Proof. intros Ha. apply (ok_kids _ Ha). Qed.

Lemma cont_fields a i c :
  containers a !! i = Some c → message c = msg a i ∧ children c = kids a i ∧ parent c = par a i.
Proof. intros E. unfold msg, kids, par. by rewrite E. Qed.

Lemma find_map_opt_total {A B} (f : A → option (option B)) l :
  (∀ x, x ∈ l → ∃ b, f x = Some b) → ∃ b, find_map_opt f l = Some b.
Proof.
  induction l as [|x l IH]; intros Hf; cbn; [by eexists|].
  destruct (Hf x) as [b ->]; [set_solver|]. cbn. destruct b; [by eexists|]. apply IH. set_solver.
Qed.

Lemma find_map_opt_Some {A B} (f : A → option (option B)) l b :
  find_map_opt f l = Some (Some b) → ∃ x, x ∈ l ∧ f x = Some (Some b).
Proof.
  induction l as [|x l IH]; cbn; [done|]. destruct (f x) as [[b'|]|] eqn:E; cbn; [|  |done].
  - intros [= <-]. exists x. set_solver.
  - intros (y & ? & ?)%IH. exists y. set_solver.
Qed.

Lemma get_subject_total fuel a r i k :
  arena_ok a → par a r = None → up a k i = Some r → i < size a → size a ≤ k + fuel →
  ∃ s, get_subject_for_container fuel a i = Some s.
Proof.
  intros Ha Hr. revert i k. induction fuel as [|fuel IH]; intros i k E Hi Hk.
  { pose proof (up_root_length _ _ _ _ Ha Hi Hr E). lia. }
  cbn [get_subject_for_container]. destruct (cont_is_Some a i Hi) as [c Ec]. rewrite Ec.
  cbn [mbind option_bind]. destruct (cont_fields _ _ _ Ec) as (_ & -> & _).
  case_match; [by eexists|]. apply find_map_opt_total. intros j Hj.
  apply elem_of_kids in Hj; [|done]. apply (IH j (S k)); [|by eapply par_lt|lia].
  by rewrite (up_S _ _ _ i).
Qed.

Lemma get_subject_own a i m s :
  msg a i = Some m → subject m = Some s →
  get_subject_for_container (tree_fuel a) a i = Some (Some s).
Proof.
  intros Hm Hs. unfold tree_fuel. cbn [get_subject_for_container].
  assert (i < size a) as Hi.
  { unfold msg in Hm. destruct (containers a !! i) eqn:E; [|done]. by eapply lookup_lt_Some. }
  destruct (cont_is_Some a i Hi) as [c Ec]. rewrite Ec. cbn [mbind option_bind].
  destruct (cont_fields _ _ _ Ec) as (-> & _). rewrite Hm. cbn. by rewrite Hs.
Qed.

(** ** Merging the roots with one subject *)

Section Threads.
Context `{TextTables}.

(** The subject key of a container that has a message with a subject. *)
Definition has_key (a : Arena) (i : nat) (k : str) : Prop :=
  ∃ m s, msg a i = Some m ∧ subject m = Some s ∧ normalize_subject (Some s) = Some k.

(** Two Message-IDs are related by a link of the reference forest, or when their
    messages have the same subject key; [conn] is the equivalence they generate. *)
Definition related (a0 : Arena) (x y : str) : Prop :=
  ∃ i j, mid a0 i = Some x ∧ mid a0 j = Some y
    ∧ (par a0 i = Some j ∨ ∃ k, k ≠ [] ∧ has_key a0 i k ∧ has_key a0 j k).

Definition conn (a0 : Arena) (i j : nat) : Prop :=
  ∀ x y, mid a0 i = Some x → mid a0 j = Some y → rtsc (related a0) x y.

(** [k] is the subject key of a message connected with [i]. *)
Definition keyed (a0 : Arena) (i : nat) (k : str) : Prop :=
  ∃ j, j < size a0 ∧ conn a0 i j ∧ has_key a0 j k.

Lemma conn_refl a0 i : conn a0 i i.
Proof. intros x y Hx Hy. simplify_eq. reflexivity. Qed.

Lemma conn_sym a0 i j : conn a0 i j → conn a0 j i.
Proof. intros C x y Hx Hy. symmetry. by apply C. Qed.

Lemma conn_trans a0 i j k : j < size a0 → conn a0 i j → conn a0 j k → conn a0 i k.
Proof.
  intros [z Hz]%mid_is_Some C1 C2 x y Hx Hy. transitivity z; [by apply C1|by apply C2].
Qed.

Lemma conn_parent a0 i j : par a0 i = Some j → conn a0 i j.
Proof.
  intros E x y Hx Hy. apply rtsc_lr. exists i, j. auto.
Qed.

Lemma conn_keyed a0 i j k :
  i < size a0 → j < size a0 → k ≠ [] → keyed a0 i k → keyed a0 j k → conn a0 i j.
Proof.
  intros Hi Hj Hk (i' & Hi' & Ci & Ki) (j' & Hj' & Cj & Kj).
  apply (conn_trans a0 i i'); [done..|]. apply (conn_trans a0 i' j'); [done| |by apply conn_sym].
  intros x y Hx Hy. apply rtsc_lr. exists i', j'. eauto 10.
Qed.

Record merged (a0 : Arena) (seen : list nat) (a : Arena) (sm : gmap str nat) : Prop := {
  mg_ok : arena_ok a;
  mg_rooted : rooted a0 → rooted a;
  mg_size : size a = size a0;
  mg_mid i : mid a i = mid a0 i;
  mg_msg i : msg a i = msg a0 i;
  mg_par i p : par a0 i = Some p → par a i = Some p;
  mg_todo r : par a0 r = None → r ∉ seen → par a r = None;
  mg_map k e : sm !! k = Some e → e ∈ seen ∧ par a e = None ∧ e < size a;
  mg_inj k k' e : sm !! k = Some e → sm !! k' = Some e → k = k';
  mg_subj r k : r ∈ seen → has_key a0 r k → k ≠ [] → ∃ e, sm !! k = Some e ∧ root_of a r e;
  mg_conn i p : par a i = Some p → conn a0 i p;
  mg_keyed k e : sm !! k = Some e → k ≠ [] ∧ keyed a0 e k
}.

Lemma root_self a r : par a r = None → root_of a r r.
Proof. intros Hr. split; [done|]. by exists 0. Qed.

Lemma link_roots a p c :
  arena_ok a → p < size a → c < size a → par a p = None → p ≠ c →
  ∃ a', link_parent_child a p c = Some a' ∧ arena_ok a' ∧ reparented a a' c (Some p)
    ∧ (rooted a → rooted a').
Proof.
  intros Ha Hp Hc Hroot Hne. destruct (link_spec a p c Ha Hp Hc) as (a' & E & Ha' & Hcase).
  assert (¬ ∃ k, up a k p = Some c) as Hn.
  { intros [k Ek]. destruct (up_root_0 _ _ _ _ Hroot Ek) as [_ ->]. done. }
  exists a'. destruct Hcase as [[(k & _ & Ek) _]|[_ R]]; [destruct Hn; eauto|].
  split_and!; [done..|]. intros Hr. eapply (reparented_rooted a a' p c); eauto.
Qed.

Lemma merge_link a0 seen a sm r key e p c :
  merged a0 seen a sm → r < size a0 → par a0 r = None → r ∉ seen → sm !! key = Some e →
  (p = e ∧ c = r ∨ p = r ∧ c = e) → (∀ k, has_key a0 r k → k = key) → keyed a0 r key →
  ∃ a', link_parent_child a p c = Some a' ∧ merged a0 (seen ++ [r]) a' (<[key := p]> sm).
Proof.
  intros G Hr Hroot Hseen He Hpc Hkey Hkr.
  destruct (mg_map _ _ _ _ G key e He) as (Hes & Hep & Hel).
  pose proof (mg_todo _ _ _ _ G r Hroot Hseen) as Hrp.
  assert (e ≠ r) as Hne by (intros ->; done). rewrite <- (mg_size _ _ _ _ G) in Hr.
  destruct (link_roots a p c (mg_ok _ _ _ _ G)) as (a' & E & Ha' & R & Hrooted);
    [destruct Hpc as [[-> ->]|[-> ->]]; congruence..|].
  exists a'. split; [done|].
  assert (par a p = None) as Hp by (destruct Hpc as [[-> _]|[-> _]]; done).
  assert (par a c = None) as Hc by (destruct Hpc as [[_ ->]|[_ ->]]; done).
  assert (p ≠ c) as Hpne by (destruct Hpc as [[-> ->]|[-> ->]]; congruence).
  pose proof (reparented_root_of a a' p c p Hc R (root_self a p Hp) Hpne) as Hroots.
  assert (∀ i, i ≠ c → par a i = None → par a' i = None) as Hkeep.
  { intros i Hi Hn. rewrite (rp_par _ _ _ _ R). by rewrite decide_False. }
  assert (∀ k e', k ≠ key → sm !! k = Some e' → e' ≠ c ∧ e' ≠ r) as Hothers.
  { intros k e' Hk E'. destruct (mg_map _ _ _ _ G k e' E') as (Hs & _).
    assert (e' ≠ r) by (intros ->; done). split; [|done].
    destruct Hpc as [[_ ->]|[_ ->]]; [done|]. intros ->. apply Hk. by eapply mg_inj. }
  split; try done.
  - intros Hr0. apply Hrooted. by apply (mg_rooted _ _ _ _ G).
  - by rewrite (rp_size _ _ _ _ R), (mg_size _ _ _ _ G).
  - intros i. by rewrite (rp_mid _ _ _ _ R), (mg_mid _ _ _ _ G).
  - intros i. by rewrite (rp_msg _ _ _ _ R), (mg_msg _ _ _ _ G).
  - intros i q Hq%(mg_par _ _ _ _ G). rewrite (rp_par _ _ _ _ R). rewrite decide_False; [done|].
    intros ->. congruence.
  - intros x Hx Hxs. apply Hkeep; [|apply (mg_todo _ _ _ _ G); set_solver].
    destruct Hpc as [[_ ->]|[_ ->]]; set_solver.
  - intros k e' Hk. rewrite (rp_size _ _ _ _ R). destruct (decide (k = key)) as [->|Hkk].
    + rewrite lookup_insert_eq in Hk. injection Hk as <-.
      split_and!; [destruct Hpc as [[-> _]|[-> _]]; set_solver|by apply Hkeep|].
      destruct Hpc as [[-> _]|[-> _]]; done.
    + rewrite lookup_insert_ne in Hk by done. destruct (Hothers k e' Hkk Hk) as [Hn _].
      destruct (mg_map _ _ _ _ G k e' Hk) as (? & ? & ?). split_and!; [set_solver|by apply Hkeep|done].
  - assert (∀ k, k ≠ key → sm !! k = Some p → False) as Hp'.
    { intros k Hk Ek. destruct (Hothers k p Hk Ek) as [_ Hpr].
      destruct Hpc as [[-> _]|[-> _]]; [|done]. apply Hk. by eapply mg_inj. }
    intros k k' e'. destruct (decide (k = key)) as [->|Hk], (decide (k' = key)) as [->|Hk'];
      rewrite ?lookup_insert_eq, ?lookup_insert_ne by done; try done.
    + intros [= <-] E'. destruct (Hp' k' Hk' E').
    + intros E' [= <-]. destruct (Hp' k Hk E').
    + apply (mg_inj _ _ _ _ G).
  - intros x k [Hx| ->%list_elem_of_singleton]%elem_of_app Hxk Hk0.
    + destruct (mg_subj _ _ _ _ G x k Hx Hxk Hk0) as (e' & Ek & Hre).
      apply Hroots in Hre. destruct (decide (k = key)) as [->|Hkk].
      * exists p. rewrite lookup_insert_eq. split; [done|]. assert (e' = e) as -> by congruence.
        destruct Hpc as [[-> ->]|[-> ->]]; [by rewrite decide_False in Hre|by rewrite decide_True in Hre].
      * exists e'. rewrite lookup_insert_ne by done. split; [done|].
        destruct (Hothers k e' Hkk Ek). by rewrite decide_False in Hre.
    + apply Hkey in Hxk as ->. exists p. rewrite lookup_insert_eq. split; [done|].
      pose proof (Hroots r r (root_self a r Hrp)) as Hre.
      destruct Hpc as [[-> ->]|[-> ->]]; [by rewrite decide_True in Hre|by rewrite decide_False in Hre].
  - destruct (mg_keyed _ _ _ _ G key e He) as [Hk0 Hke].
    assert (r < size a0 ∧ e < size a0) as [Hr0 He0] by (rewrite <- (mg_size _ _ _ _ G); done).
    assert (conn a0 e r) as Cer by by apply (conn_keyed a0 e r key).
    intros i q. rewrite (rp_par _ _ _ _ R). case_decide as Hi; [|apply (mg_conn _ _ _ _ G)].
    subst i. intros [= <-]. destruct Hpc as [[-> ->]|[-> ->]]; [by apply conn_sym|done].
  - destruct (mg_keyed _ _ _ _ G key e He) as [Hk0 Hke]. intros k e'.
    destruct (decide (k = key)) as [->|Hk].
    + rewrite lookup_insert_eq. intros [= <-]. split; [done|]. by destruct Hpc as [[-> _]|[-> _]].
    + rewrite lookup_insert_ne by done. apply (mg_keyed _ _ _ _ G).
Qed.

Lemma merged_new a0 seen a sm r key :
  merged a0 seen a sm → r < size a0 → par a0 r = None → r ∉ seen → sm !! key = None →
  (∀ k, has_key a0 r k → k = key) → key ≠ [] → keyed a0 r key →
  merged a0 (seen ++ [r]) a (<[key := r]> sm).
Proof.
  intros G Hr Hroot Hseen Hnone Hkey Hk0 Hkr. pose proof (mg_todo _ _ _ _ G r Hroot Hseen) as Hrp.
  rewrite <- (mg_size _ _ _ _ G) in Hr. destruct G as [Ga Gr Gs Gm Gg Gp Gt Gmap Ginj Gsubj Gconn Gkeyed].
  assert (∀ k, sm !! k ≠ Some r) as Hnot by (intros k E; by apply Gmap in E as (? & _)).
  split; try done.
  - intros x Hx Hxs. apply Gt; set_solver.
  - intros k e. destruct (decide (k = key)) as [->|Hk].
    + rewrite lookup_insert_eq. intros [= <-]. set_solver.
    + rewrite lookup_insert_ne by done. intros (? & ? & ?)%Gmap. set_solver.
  - intros k k' e. destruct (decide (k = key)) as [->|Hk], (decide (k' = key)) as [->|Hk'];
      rewrite ?lookup_insert_eq, ?lookup_insert_ne by done; try done.
    + intros [= <-] E. by destruct (Hnot k').
    + intros E [= <-]. by destruct (Hnot k).
    + apply Ginj.
  - intros x k [Hx| ->%list_elem_of_singleton]%elem_of_app Hxk Hk1.
    + destruct (Gsubj x k Hx Hxk Hk1) as (e & Ek & Hre). exists e.
      rewrite lookup_insert_ne; [done|]. intros <-. congruence.
    + apply Hkey in Hxk as ->. exists r. rewrite lookup_insert_eq. split; [done|by apply root_self].
  - intros k e. destruct (decide (k = key)) as [->|Hk].
    + rewrite lookup_insert_eq. by intros [= <-].
    + rewrite lookup_insert_ne by done. apply Gkeyed.
Qed.

Lemma merged_skip a0 seen a sm r :
  merged a0 seen a sm → (∀ k, has_key a0 r k → k = []) → merged a0 (seen ++ [r]) a sm.
Proof.
  intros [Ga Gr Gs Gm Gg Gp Gt Gmap Ginj Gsubj Gconn Gkeyed] Hkey. split; try done.
  - intros x Hx Hxs. apply Gt; set_solver.
  - intros k e (? & ? & ?)%Gmap. set_solver.
  - intros x k [Hx| ->%list_elem_of_singleton]%elem_of_app Hxk Hk0; [by apply Gsubj|].
    by apply Hkey in Hxk.
Qed.

(** The subject found for a container is that of a message connected with it. *)
Lemma get_subject_keyed fuel a0 seen a sm i s k :
  merged a0 seen a sm → i < size a →
  get_subject_for_container fuel a i = Some (Some s) → normalize_subject (Some s) = Some k →
  keyed a0 i k.
Proof.
  intros G. revert i. induction fuel as [|fuel IH]; intros i Hi E Hk; [done|].
  cbn [get_subject_for_container] in E. destruct (cont_is_Some a i Hi) as [c Ec].
  rewrite Ec in E. cbn [mbind option_bind] in E. destruct (cont_fields _ _ _ Ec) as (Em & Ek & _).
  rewrite Em, Ek, (mg_msg _ _ _ _ G) in E. destruct (msg a0 i ≫= subject) as [s'|] eqn:Es.
  - simplify_eq. exists i. rewrite <- (mg_size _ _ _ _ G). split_and!; [done|apply conn_refl|].
    destruct (msg a0 i) as [m|] eqn:Emm; [|done]. by exists m, s.
  - apply find_map_opt_Some in E as (j & Hj & Ej). apply elem_of_kids in Hj; [|apply G].
    destruct (IH j (par_lt _ _ _ Hj) Ej Hk) as (j' & Hj' & Cj & Kj). exists j'. split_and!; [done| |done].
    apply (conn_trans a0 i j); [rewrite <- (mg_size _ _ _ _ G); by eapply par_lt| |done].
    apply conn_sym. by apply (mg_conn _ _ _ _ G).
Qed.

Lemma merge_root_spec a0 seen a sm r :
  merged a0 seen a sm → r < size a0 → par a0 r = None → r ∉ seen →
  ∃ a' sm', merge_root (a, sm) r = Some (a', sm') ∧ merged a0 (seen ++ [r]) a' sm'.
Proof.
  intros G Hr Hroot Hseen. pose proof (mg_todo _ _ _ _ G r Hroot Hseen) as Hrp.
  assert (r < size a) as Hra by by rewrite (mg_size _ _ _ _ G).
  destruct (get_subject_total (tree_fuel a) a r r 0) as [subj Es];
    [apply G|done|done|done|unfold tree_fuel, size; lia|].
  destruct (normalize_subject_total subj) as [key Ek].
  assert (∀ k, has_key a0 r k → k = key) as Hkey.
  { intros k (m & s & Hm & Hs & Hk). rewrite <- (mg_msg _ _ _ _ G) in Hm.
    rewrite (get_subject_own a r m s Hm Hs) in Es. simplify_eq. congruence. }
  unfold merge_root. rewrite Es. cbn [mbind option_bind]. rewrite Ek. cbn [mbind option_bind].
  destruct (is_nil key) eqn:En.
  { apply is_nil_spec in En as ->. exists a, sm. split; [done|by apply merged_skip]. }
  assert (key ≠ []) as Hk0 by (intros ->; done).
  assert (keyed a0 r key) as Hkr.
  { destruct subj as [s|]; [by eapply get_subject_keyed|]. injection Ek as <-. done. }
  destruct (sm !! key) as [e|] eqn:Ee.
  2: { exists a, (<[key := r]> sm). split; [done|]. by apply merged_new. }
  destruct (mg_map _ _ _ _ G key e Ee) as (_ & _ & Hea).
  destruct (cont_is_Some a e Hea) as [ec Eec], (cont_is_Some a r Hra) as [rc Erc].
  rewrite Eec, Erc. cbn [mbind option_bind].
  destruct (merge_link a0 seen a sm r key e e r) as (a1 & E1 & G1); [done..|by left|done|done|].
  rewrite insert_id in G1 by done.
  destruct (merge_link a0 seen a sm r key e r e) as (a2 & E2 & G2); [done..|by right|done|done|].
  rewrite E1, E2. cbn [mbind option_bind].
  repeat case_match; eauto.
Qed.

Lemma elem_of_find_roots a r : r ∈ find_roots a ↔ r < size a ∧ par a r = None.
Proof.
  unfold find_roots. rewrite list_elem_of_filter, elem_of_seq. unfold size, par. naive_solver lia.
Qed.

Lemma find_roots_NoDup a : NoDup (find_roots a).
Proof. apply NoDup_filter, NoDup_seq. Qed.

Lemma fold_merge a0 rs : ∀ seen a sm,
  merged a0 seen a sm → (∀ r, r ∈ rs → r < size a0 ∧ par a0 r = None) → NoDup (seen ++ rs) →
  ∃ a' sm', fold_opt merge_root rs (a, sm) = Some (a', sm') ∧ merged a0 (seen ++ rs) a' sm'.
Proof.
  induction rs as [|r rs IH]; intros seen a sm G Hrs Hnd.
  { exists a, sm. by rewrite app_nil_r. }
  destruct (Hrs r) as [Hr Hp]; [set_solver|]. cbn [fold_opt].
  assert (r ∉ seen) as Hs.
  { apply NoDup_app in Hnd as (_ & Hdis & _). intros Hin. apply (Hdis r Hin). set_solver. }
  destruct (merge_root_spec a0 seen a sm r G Hr Hp Hs) as (a1 & sm1 & -> & G1).
  cbn [mbind option_bind]. destruct (IH (seen ++ [r]) a1 sm1 G1) as (a' & sm' & E & G');
    [set_solver|by rewrite <- app_assoc|].
  exists a', sm'. by rewrite <- app_assoc in G'.
Qed.

Lemma merge_subjects_spec a0 :
  arena_ok a0 →
  ∃ a sm, fold_opt merge_root (find_roots a0) (a0, ∅) = Some (a, sm)
    ∧ merged a0 (find_roots a0) a sm.
Proof.
  intros Ha. apply (fold_merge a0 (find_roots a0) [] a0 ∅).
  - split; try done; try set_solver. apply conn_parent.
  - intros r. apply elem_of_find_roots.
  - apply find_roots_NoDup.
Qed.
End Threads.
