(* ===== verification/CollectTheory.v ===== *)
(** * CollectTheory: the messages below each root

    The last phase of [build_threads]: every root collects the messages below it,
    once each, and the threads of all roots cover the forest. *)

From Stdlib Require Import Sorted.
From S2P Require Import Prelude.
From S2P Require Import Graphemes.
From S2P Require Import Strings.
From S2P Require Import Threading.
From S2P Require Import ThreadingTheory.
From S2P Require Import ThreadsTheory.

(** ** The tree below a container *)

Definition below (a : Arena) (i j : nat) : Prop := ∃ n, up a n j = Some i.

Lemma below_self a i : below a i i.
Proof. by exists 0. Qed.

Lemma up_S_inv a n j i : up a (S n) j = Some i → ∃ c, up a n j = Some c ∧ par a c = Some i.
Proof.
  intros E. destruct (up_prefix a n 1 j i) as [c Ec]; [by replace (n + 1) with (S n) by lia|].
  exists c. split; [done|]. by rewrite <- (up_snoc a n j c Ec).
Qed.

Lemma below_kids a i j : arena_ok a → below a i j ↔ j = i ∨ ∃ c, c ∈ kids a i ∧ below a c j.
Proof.
  intros Ha. split.
  - intros [[|n] E]; [by injection E; left|]. apply up_S_inv in E as (c & Ec & Hp). right.
    exists c. split; [by apply elem_of_kids|by exists n].
  - intros [->|(c & Hc & n & E)]; [apply below_self|]. exists (S n).
    rewrite (up_snoc a n j c E). by apply elem_of_kids in Hc.
Qed.

(** The collected containers [ns]: their messages are appended, they are marked,
    nothing else is. *)
Definition collects (a : Arena) (ns : list nat) (st st' : list ThreadableMessage * list bool) : Prop :=
  st'.1 = st.1 ++ omap (msg a) ns ∧ length st'.2 = length st.2
  ∧ ∀ j, st'.2 !! j = if decide (j ∈ ns) then (λ _, true) <$> st.2 !! j else st.2 !! j.

Definition unseen (a : Arena) (P : nat → Prop) (st : list ThreadableMessage * list bool) : Prop :=
  length st.2 = size a ∧ ∀ j, P j → j < size a → st.2 !! j = Some false.

Lemma collects_app a ns1 ns2 st1 st2 st3 :
  collects a ns1 st1 st2 → collects a ns2 st2 st3 → collects a (ns1 ++ ns2) st1 st3.
Proof.
  intros (E1 & L1 & V1) (E2 & L2 & V2). split_and!; [|congruence|].
  - by rewrite E2, E1, <- app_assoc, omap_app.
  - intros j. rewrite V2, V1. repeat case_decide; try set_solver; by destruct (st1.2 !! j).
Qed.

Lemma collects_unseen a ns st st' (P Q : nat → Prop) :
  collects a ns st st' → unseen a P st → (∀ j, Q j → P j ∧ j ∉ ns) → unseen a Q st'.
Proof.
  intros (_ & L & V) [HL HV] HQ. split; [congruence|]. intros j Hj Hlt.
  destruct (HQ j Hj). rewrite V. rewrite decide_False by done. by apply HV.
Qed.

Section Tree.
Context (a : Arena) (Ha : arena_ok a) (r : nat) (Hr : par a r = None).

(** Levels of one container below the root are equal. *)
Lemma depth_unique n m j : up a n j = Some r → up a m j = Some r → n = m.
Proof.
  intros En Em. destruct (up_root_le _ _ _ _ _ _ Hr En Em), (up_root_le _ _ _ _ _ _ Hr Em En). lia.
Qed.

Lemma kid_not_above k i c : up a k i = Some r → par a c = Some i → ¬ below a c i.
Proof.
  intros Ek Hc [n E]. pose proof (up_snoc a n i c E) as E1. rewrite Hc in E1.
  assert (up a (S n + k) i = Some r) as E2 by by rewrite (up_add _ _ _ _ _ E1).
  pose proof (depth_unique _ _ _ E2 Ek). lia.
Qed.

Lemma kids_disjoint k i c1 c2 j :
  up a k i = Some r → par a c1 = Some i → par a c2 = Some i →
  below a c1 j → below a c2 j → c1 = c2.
Proof.
  intros Ek H1 H2 [n E1] [m E2].
  assert (∀ n c, par a c = Some i → up a n j = Some c → up a (S n + k) j = Some r) as Hup.
  { intros n' c Hc E. rewrite (up_add a (S n') k j i); [done|]. by rewrite (up_snoc a n' j c E). }
  pose proof (depth_unique _ _ _ (Hup n c1 H1 E1) (Hup m c2 H2 E2)) as Hnm.
  replace m with n in E2 by lia. congruence.
Qed.

(** A loop over children whose trees are disjoint and unseen. *)
Lemma collect_kids_spec (f : _ → nat → option _) i k cs st :
  up a k i = Some r → NoDup cs → (∀ c, c ∈ cs → par a c = Some i) →
  unseen a (λ j, ∃ c, c ∈ cs ∧ below a c j) st →
  (∀ c st, c ∈ cs → unseen a (below a c) st →
    ∃ st' ns, f st c = Some st' ∧ NoDup ns ∧ (∀ j, j ∈ ns ↔ below a c j) ∧ collects a ns st st') →
  ∃ st' ns, fold_opt f cs st = Some st' ∧ NoDup ns
    ∧ (∀ j, j ∈ ns ↔ ∃ c, c ∈ cs ∧ below a c j) ∧ collects a ns st st'.
Proof.
  intros Ek. revert st. induction cs as [|c cs IH]; intros st Hnd Hpar Hun Hf.
  { exists st, []. split_and!; [done|constructor|set_solver|].
    split_and!; [by rewrite app_nil_r|done|]. intros j. by rewrite decide_False by set_solver. }
  apply NoDup_cons in Hnd as [Hc Hnd]. cbn [fold_opt].
  assert (∀ c' j, c' ∈ cs → below a c' j → ¬ below a c j) as Hdis.
  { intros c' j Hc' Hj' Hj. apply Hc.
    by rewrite (kids_disjoint k i c c' j Ek ltac:(apply Hpar; set_solver) ltac:(apply Hpar; set_solver) Hj Hj'). }
  destruct (Hf c st) as (st1 & ns1 & -> & Hnd1 & Hin1 & C1); [set_solver| |].
  { destruct Hun as [HL HV]. split; [done|]. intros j Hj. apply HV. exists c. set_solver. }
  cbn [mbind option_bind].
  destruct (IH st1) as (st2 & ns2 & -> & Hnd2 & Hin2 & C2); [done|set_solver| |set_solver|].
  { eapply collects_unseen; [done..|]. intros j (c' & Hc' & Hj). split; [set_solver|].
    rewrite Hin1. by eapply Hdis. }
  exists st2, (ns1 ++ ns2). split_and!; [done| |intros j; rewrite elem_of_app, Hin1, Hin2; set_solver
    |by eapply collects_app].
  apply NoDup_app. split_and!; [done| |done]. intros j Hj1%Hin1 (c' & Hc' & Hj2)%Hin2.
  by eapply Hdis.
Qed.

Lemma collect_messages_spec fuel st i k :
  up a k i = Some r → i < size a → size a ≤ k + fuel → unseen a (below a i) st →
  ∃ st' ns, collect_messages fuel a st i = Some st' ∧ NoDup ns
    ∧ (∀ j, j ∈ ns ↔ below a i j) ∧ collects a ns st st'.
Proof.
  revert st i k. induction fuel as [|fuel IH]; intros st i k Ek Hi Hk Hun.
  { pose proof (up_root_length _ _ _ _ Ha Hi Hr Ek). lia. }
  cbn [collect_messages]. destruct st as [res V]. destruct Hun as [HL HV]. cbn in HL, HV.
  rewrite (HV i) by (try done; apply below_self). cbn [mbind option_bind].
  destruct (cont_is_Some a i Hi) as [c Ec]. rewrite Ec. cbn [mbind option_bind].
  destruct (cont_fields _ _ _ Ec) as (-> & -> & _).
  set (st0 := (match msg a i with Some m => res ++ [m] | None => res end, <[i:=true]> V)).
  assert (collects a [i] (res, V) st0) as C0.
  { split_and!; cbn; [destruct (msg a i); by rewrite ?app_nil_r|by rewrite length_insert|].
    intros j. case_decide as Hj.
    - apply list_elem_of_singleton in Hj as ->. rewrite list_lookup_insert_eq by lia.
      by rewrite (HV i) by (try done; apply below_self).
    - rewrite list_lookup_insert_ne; [done|]. set_solver. }
  assert (∀ c, c ∈ kids a i → par a c = Some i) as Hkids by (intros c' ?; by apply elem_of_kids).
  destruct (collect_kids_spec (collect_messages fuel a) i k (kids a i) st0 Ek
    (proj1 (ok_kids _ Ha i)) Hkids) as (st' & ns & -> & Hnd & Hin & C).
  - eapply collects_unseen; [exact C0|by split|]. intros j (c' & Hc' & Hj). split.
    + apply below_kids; [done|]. right. by exists c'.
    + intros ->%list_elem_of_singleton. by eapply (kid_not_above k i c'); [|apply Hkids|].
  - intros c' st' Hc' Hun'. apply (IH st' c' (S k)); [|by eapply par_lt, Hkids|lia|done].
    rewrite (up_S _ _ _ i); [done|]. by apply Hkids.
  - exists st', (i :: ns). split_and!; [done| | |by eapply (collects_app a [i])].
    + constructor; [|done]. intros (c' & Hc' & Hj)%Hin.
      by eapply (kid_not_above k i c'); [|apply Hkids|].
    + intros j. rewrite elem_of_cons, Hin, below_kids by done. done.
Qed.
End Tree.

(** ** All roots *)

Definition by_date (m1 m2 : ThreadableMessage) : Prop := (date m1 ≤ date m2)%Z.

Lemma insert_by_date_perm m l : insert_by_date m l ≡ₚ m :: l.
Proof.
  induction l as [|x l IH]; cbn; [done|]. destruct (date m <=? date x)%Z; [done|].
  rewrite IH. apply Permutation_swap.
Qed.

Lemma sort_by_date_perm l : sort_by_date l ≡ₚ l.
Proof. induction l as [|m l IH]; cbn; [done|]. by rewrite insert_by_date_perm, IH. Qed.

Lemma insert_by_date_sorted m l :
  StronglySorted by_date l → StronglySorted by_date (insert_by_date m l).
Proof.
  induction 1 as [|x l Hl IH Hx]; cbn; [by repeat constructor|].
  destruct (Z.leb_spec (date m) (date x)) as [Hle|Hlt].
  - constructor; [by constructor|]. constructor; [done|].
    eapply Forall_impl; [exact Hx|]. unfold by_date. intros; lia.
  - constructor; [done|]. rewrite insert_by_date_perm. constructor; [unfold by_date; lia|done].
Qed.

Lemma sort_by_date_sorted l : StronglySorted by_date (sort_by_date l).
Proof. induction l; cbn; [constructor|by apply insert_by_date_sorted]. Qed.

(** The thread of the root [r]: the messages below it by date. *)
Definition thread_of (a : Arena) (r : nat) (g : ThreadGroup) : Prop :=
  ∃ k ns ms, mid a r = Some k ∧ NoDup ns ∧ (∀ j, j ∈ ns ↔ below a r j)
    ∧ ms ≡ₚ omap (msg a) ns ∧ ms ≠ [] ∧ StronglySorted by_date ms
    ∧ g = mkThread (generate_thread_id k) (id <$> ms).

Lemma thread_of_member a r g j m :
  thread_of a r g → below a r j → msg a j = Some m → id m ∈ message_ids g.
Proof.
  intros (k & ns & ms & _ & _ & Hin & Hms & _ & _ & ->) Hj Hm. cbn. apply list_elem_of_fmap_2.
  rewrite Hms. apply list_elem_of_omap. exists j. by rewrite Hin.
Qed.

Lemma collect_root_spec a r gs V :
  arena_ok a → r < size a → par a r = None →
  length V = size a → (∀ j, below a r j → V !! j ≠ Some true) →
  ∃ gs' V' ns, collect_root a (gs, V) r = Some (gs ++ gs', V')
    ∧ NoDup ns ∧ (∀ j, j ∈ ns ↔ below a r j)
    ∧ length V' = size a ∧ (∀ j, V' !! j = Some true ↔ V !! j = Some true ∨ j ∈ ns ∧ j < size a)
    ∧ gs' ≫= message_ids ≡ₚ id <$> omap (msg a) ns
    ∧ (∀ g, g ∈ gs' → thread_of a r g) ∧ (∀ j m, below a r j → msg a j = Some m → gs' ≠ []).
Proof.
  intros Ha Hlt Hr HL HV.
  destruct (collect_messages_spec a Ha r Hr (tree_fuel a) ([], V) r 0)
    as ([ms V'] & ns & E & Hnd & Hin & Hms & HL' & HV'); [done|done|unfold tree_fuel, size; lia| |].
  { split; [done|]. cbn. intros j Hj Hjlt. specialize (HV j Hj).
    destruct (V !! j) as [[]|] eqn:EV; [done|done|]. apply lookup_ge_None in EV. lia. }
  cbn in Hms, HL', HV'. subst ms. unfold collect_root. rewrite E. cbn [mbind option_bind].
  assert (∀ j, V' !! j = Some true ↔ V !! j = Some true ∨ j ∈ ns ∧ j < size a) as Hseen.
  { intros j. rewrite HV'. case_decide as Hj; [|naive_solver].
    destruct (V !! j) as [b|] eqn:EV; cbn.
    - apply lookup_lt_Some in EV. rewrite HL in EV. naive_solver.
    - apply lookup_ge_None in EV. rewrite HL in EV. naive_solver lia. }
  destruct (is_nil (omap (msg a) ns)) eqn:En.
  - apply is_nil_spec in En. exists [], V', ns. rewrite app_nil_r, En. split_and!; try done; [lia|set_solver|].
    intros j m Hj%Hin Hm. assert (m ∈ omap (msg a) ns) as Hm'; [|rewrite En in Hm'; set_solver].
    apply list_elem_of_omap. by exists j.
  - destruct (cont_is_Some a r Hlt) as [c Ec]. rewrite Ec. cbn [mbind option_bind].
    eexists [_], V', ns. split_and!; try done; [lia|cbn; by rewrite app_nil_r, sort_by_date_perm|].
    intros g ->%list_elem_of_singleton. exists (cont_message_id c), ns, (sort_by_date (omap (msg a) ns)).
    split_and!; [unfold mid; by rewrite Ec|done|done|apply sort_by_date_perm| |
      apply sort_by_date_sorted|done].
    intros Enil. pose proof (sort_by_date_perm (omap (msg a) ns)) as Hp. rewrite Enil in Hp.
    apply Permutation_nil in Hp. by rewrite Hp in En.
Qed.

Lemma roots_disjoint a r1 r2 j :
  par a r1 = None → par a r2 = None → below a r1 j → below a r2 j → r1 = r2.
Proof. intros H1 H2 B1 B2. by eapply root_of_unique. Qed.

Lemma collect_roots_spec a rs : arena_ok a → ∀ gs V,
  (∀ r, r ∈ rs → r < size a ∧ par a r = None) → NoDup rs → length V = size a →
  (∀ r j, r ∈ rs → below a r j → V !! j ≠ Some true) →
  ∃ gs' V' ns, fold_opt (collect_root a) rs (gs, V) = Some (gs ++ gs', V')
    ∧ NoDup ns ∧ (∀ j, j ∈ ns ↔ ∃ r, r ∈ rs ∧ below a r j)
    ∧ gs' ≫= message_ids ≡ₚ id <$> omap (msg a) ns
    ∧ (∀ g, g ∈ gs' → ∃ r, r ∈ rs ∧ thread_of a r g)
    ∧ (∀ r j m, r ∈ rs → below a r j → msg a j = Some m → ∃ g, g ∈ gs' ∧ thread_of a r g).
Proof.
  intros Ha. induction rs as [|r rs IH]; intros gs V Hrs Hnd HL HV.
  { exists [], V, []. rewrite app_nil_r. split_and!; try done; try set_solver; by apply NoDup_nil_2. }
  apply NoDup_cons in Hnd as [Hr Hnd]. destruct (Hrs r) as [Hlt Hroot]; [set_solver|].
  assert (∀ r' j, r' ∈ rs → below a r' j → ¬ below a r j) as Hdis.
  { intros r' j Hr' Hj' Hj. apply Hr. destruct (Hrs r') as [_ Hroot']; [set_solver|].
    by rewrite (roots_disjoint a r r' j Hroot Hroot' Hj Hj'). }
  destruct (collect_root_spec a r gs V Ha Hlt Hroot HL) as
    (g1 & V1 & n1 & E1 & Hnd1 & Hin1 & HL1 & HV1 & Hids1 & Hg1 & Hne1); [set_solver|].
  destruct (IH (gs ++ g1) V1) as (g2 & V2 & n2 & E2 & Hnd2 & Hin2 & Hids2 & Hg2 & Hne2); [set_solver|done|done| |].
  { intros r' j Hr' Hj [Ht|[Hn _]]%HV1; [by apply (HV r' j ltac:(set_solver) Hj)|].
    apply Hin1 in Hn. by eapply Hdis. }
  exists (g1 ++ g2), V2, (n1 ++ n2). cbn [fold_opt]. rewrite E1. cbn [mbind option_bind].
  rewrite E2, <- app_assoc. split_and!; [done| | | | |].
  - apply NoDup_app. split_and!; [done| |done]. intros j Hj%Hin1 (r' & Hr' & Hj')%Hin2. by eapply Hdis.
  - intros j. rewrite elem_of_app, Hin1, Hin2. set_solver.
  - by rewrite bind_app, omap_app, fmap_app, Hids1, Hids2.
  - intros g [Hg|Hg]%elem_of_app; [exists r; split; [set_solver|by apply Hg1]|].
    destruct (Hg2 g Hg) as (r' & ? & ?). exists r'. set_solver.
  - intros r' j m Hr' Hj Hm. apply elem_of_cons in Hr' as [->|Hr'].
    + pose proof (Hne1 j m Hj Hm) as Hn. destruct g1 as [|g g1]; [done|]. exists g.
      split; [set_solver|]. apply Hg1. set_solver.
    + destruct (Hne2 r' j m Hr' Hj Hm) as (g & ? & ?). exists g. set_solver.
Qed.
