(* ===== verification/ThreadProperties.v ===== *)
(** * ThreadProperties: what threading promises

    The properties of [build_threads]: it is total, it loses no message when the
    references have no loop (or the loops are short), it puts together exactly
    what references and subjects relate; and the loop it does not survive. *)

From Stdlib Require Import Sorted.
From S2P Require Import Prelude.
From S2P Require Import Graphemes.
From S2P Require Import Strings.
From S2P Require Import Threading.
From S2P Require Import ThreadingTheory.
From S2P Require Import SubjectTheory.
From S2P Require Import ThreadsTheory.
From S2P Require Import CollectTheory.

(** The references have no loop the check could miss: there are no more
    Message-IDs than it looks at, or some age orders the references. *)
Definition loop_free (ms : list ThreadableMessage) : Prop :=
  length (remove_dups (all_ids ms)) ≤ MAX_DEPTH ∨ ∃ age, ordered_by age ms.

Section Properties.
Context `{TextTables}.

(** Two Message-IDs belong together: one refers to the other, or the two
    messages have one subject; [conversation] is the equivalence of it. *)
Definition belongs (ms : list ThreadableMessage) (x y : str) : Prop :=
  (∃ m, m ∈ ms ∧ (x, y) ∈ links m)
  ∨ ∃ m1 m2 k, m1 ∈ ms ∧ m2 ∈ ms ∧ message_id m1 = x ∧ message_id m2 = y ∧ k ≠ []
      ∧ normalize_subject (subject m1) = Some k ∧ normalize_subject (subject m2) = Some k.

Definition conversation (ms : list ThreadableMessage) : str → str → Prop := rtsc (belongs ms).

(** The result of [build_threads] with the forests it went through. *)
Record built (md : mode) (ms : list ThreadableMessage) (gs : list ThreadGroup) (a0 a : Arena) : Prop := {
  bt_linked : linked md (all_ids ms) ms a0;
  bt_merged : ∃ sm, merged a0 (find_roots a0) a sm;
  bt_groups : ∃ ns, NoDup ns ∧ (∀ j, j ∈ ns ↔ ∃ r, r ∈ find_roots a ∧ below a r j)
    ∧ gs ≫= message_ids ≡ₚ id <$> omap (msg a) ns;
  bt_thread g : g ∈ gs → ∃ r, r ∈ find_roots a ∧ thread_of a r g;
  bt_root r j m : r ∈ find_roots a → below a r j → msg a j = Some m → ∃ g, g ∈ gs ∧ thread_of a r g
}.

Lemma build_threads_built md ms :
  fits md (all_ids ms) → (∀ m x y, m ∈ ms → (x, y) ∈ links m → allowed md x y) →
  ∃ gs a0 a, build_threads ms = Some gs ∧ built md ms gs a0 a.
Proof.
  intros Hf Hal. destruct (fold_add md (all_ids ms) ms Hf (λ k Hk, Hk) Hal) as (a0 & E0 & L).
  destruct (merge_subjects_spec a0 (inv_ok _ _ _ (lk_inv _ _ _ _ L))) as (a & sm & E1 & G).
  pose proof (mg_ok _ _ _ _ G) as Ha.
  destruct (collect_roots_spec a (find_roots a) Ha [] (replicate (size a) false))
    as (gs & V & ns & E2 & Hnd & Hin & Hids & Hth & Hroot).
  { intros r. apply elem_of_find_roots. }
  { apply find_roots_NoDup. }
  { apply length_replicate. }
  { intros r j _ _ [??]%lookup_replicate. done. }
  exists gs, a0, a. split; [|split; eauto].
  assert ((a0' ← fold_opt add_message ms arena_new;
    '(a', _) ← fold_opt merge_root (find_roots a0') (a0', ∅);
    '(groups, _) ← fold_opt (collect_root a') (find_roots a')
                     ([], replicate (length (containers a')) false);
    Some groups) = Some gs) as E.
  { rewrite E0. cbn [mbind option_bind]. rewrite E1. cbn [mbind option_bind].
    fold (size a). by rewrite E2. }
  unfold build_threads. destruct ms as [|m ms]; [|exact E]. cbn in E. by rewrite <- E.
Qed.

Lemma built_msg md ms gs a0 a i m :
  built md ms gs a0 a → msg a i = Some m ↔ m ∈ survivors ms ∧ mid a i = Some (message_id m).
Proof.
  intros B. destruct (bt_merged _ _ _ _ _ B) as [sm G].
  rewrite (mg_msg _ _ _ _ G), (mg_mid _ _ _ _ G). apply (lk_msg _ _ _ _ (bt_linked _ _ _ _ _ B)).
Qed.

Lemma built_ok md ms gs a0 a : built md ms gs a0 a → arena_ok a.
Proof. intros B. destruct (bt_merged _ _ _ _ _ B) as [sm G]. apply G. Qed.

(** The messages of different containers are different. *)
Lemma omap_msg_NoDup md ms gs a0 a ns :
  built md ms gs a0 a → NoDup ns → NoDup (omap (msg a) ns).
Proof.
  intros B. induction 1 as [|i ns Hi _ IH]; [constructor|]. cbn. destruct (msg a i) as [m|] eqn:E; [|done].
  constructor; [|done]. intros (j & Hj & Ej)%list_elem_of_omap.
  apply (built_msg _ _ _ _ _ _ _ B) in E as [_ Ei], Ej as [_ Ej'].
  by rewrite (mid_inj a i j _ (built_ok _ _ _ _ _ B) Ei Ej') in Hi.
Qed.

Lemma omap_msg_survivors md ms gs a0 a ns :
  built md ms gs a0 a → NoDup ns → omap (msg a) ns ⊆+ survivors ms.
Proof.
  intros B Hns. apply NoDup_submseteq; [by eapply omap_msg_NoDup|].
  intros m (i & _ & Hm)%list_elem_of_omap. by apply (built_msg _ _ _ _ _ _ _ B) in Hm as [? _].
Qed.

Lemma survivor_container md ms gs a0 a m :
  built md ms gs a0 a → m ∈ survivors ms → ∃ i, msg a i = Some m ∧ i < size a.
Proof.
  intros B Hm. destruct (bt_merged _ _ _ _ _ B) as [sm G].
  destruct (lk_mid _ _ _ _ (bt_linked _ _ _ _ _ B) m (survivors_subset _ _ Hm)) as [i Hi].
  rewrite <- (mg_mid _ _ _ _ G) in Hi. exists i. split; [by apply (built_msg _ _ _ _ _ _ _ B)|].
  by apply mid_lt in Hi as [? _].
Qed.

(** Messages below one root are in one thread. *)
Lemma same_root_thread md ms gs a0 a r i j m1 m2 :
  built md ms gs a0 a → root_of a i r → root_of a j r → r < size a →
  msg a i = Some m1 → msg a j = Some m2 →
  ∃ g, g ∈ gs ∧ id m1 ∈ message_ids g ∧ id m2 ∈ message_ids g.
Proof.
  intros B (Hr & Hi) (_ & Hj) Hlt E1 E2.
  destruct (bt_root _ _ _ _ _ B r i m1) as (g & Hg & Ht); [by apply elem_of_find_roots|done|done|].
  exists g. split_and!; [done|by apply (thread_of_member a r g i m1)|by apply (thread_of_member a r g j m2)].
Qed.

Lemma loop_free_mode ms :
  loop_free ms → ∃ md, md ≠ Any ∧ fits md (all_ids ms)
    ∧ (∀ m x y, m ∈ ms → (x, y) ∈ links m → allowed md x y).
Proof. intros [Hf|[age Ho]]; [by exists Few|]. exists (Ordered age). split_and!; done. Qed.

Lemma related_belongs md ms a0 x y :
  linked md (all_ids ms) ms a0 → related a0 x y → conversation ms x y.
Proof.
  intros L (i & j & Hx & Hy & [Hp|(k & Hk & (m1 & s1 & E1 & Es1 & K1) & m2 & s2 & E2 & Es2 & K2)]).
  - destruct (lk_from _ _ _ _ L i j Hp) as (m & u & v & Hm & Hl & Hu & Hv). simplify_eq.
    apply rtsc_rl. left. by exists m.
  - apply (lk_msg _ _ _ _ L) in E1 as [H1 M1], E2 as [H2 M2]. simplify_eq.
    apply rtsc_lr. right. exists m1, m2, k. rewrite Es1, Es2.
    split_and!; eauto using survivors_subset.
Qed.

Lemma conn_conversation md ms gs a0 a i j x y :
  built md ms gs a0 a → conn a0 i j → mid a i = Some x → mid a j = Some y → conversation ms x y.
Proof.
  intros B C Hx Hy. destruct (bt_merged _ _ _ _ _ B) as [sm G].
  rewrite (mg_mid _ _ _ _ G) in Hx, Hy. specialize (C x y Hx Hy). clear -B C.
  induction C as [|u v w Huv _ IH]; [reflexivity|]. transitivity v; [|done].
  destruct Huv as [Huv|Hvu]; [|symmetry]; eapply related_belongs; try done; apply B.
Qed.

Lemma below_conn a0 seen a sm i j : merged a0 seen a sm → below a i j → j < size a → conn a0 j i.
Proof.
  intros G [n E] Hj. revert j Hj E. induction n as [|n IH]; intros j Hj E.
  - injection E as <-. apply conn_refl.
  - unfold up in E. cbn [iter_opt] in E. destruct (par a j) as [p|] eqn:Ep; [|done].
    pose proof (ok_parent _ (mg_ok _ _ _ _ G) _ _ Ep) as Hp.
    apply (conn_trans a0 j p); [by rewrite <- (mg_size _ _ _ _ G)|by apply (mg_conn _ _ _ _ G)|].
    by apply IH.
Qed.

(** Every message that survives is below a root when there is no cycle. *)
Lemma rooted_covered md ms gs a0 a ns :
  built md ms gs a0 a → rooted a → NoDup ns →
  (∀ j, j ∈ ns ↔ ∃ r, r ∈ find_roots a ∧ below a r j) → omap (msg a) ns ≡ₚ survivors ms.
Proof.
  intros B Hroot Hnd Hin. apply NoDup_Permutation; [by eapply omap_msg_NoDup| |].
  { eapply NoDup_fmap_1. apply survivors_NoDup. }
  intros m. split.
  - intros (i & _ & Hm)%list_elem_of_omap. by apply (built_msg _ _ _ _ _ _ _ B) in Hm as [? _].
  - intros Hm. destruct (survivor_container _ _ _ _ _ _ B Hm) as (i & Hi & Hlt).
    apply list_elem_of_omap. exists i. split; [|done]. apply Hin.
    destruct (Hroot i Hlt) as (r & Hr & n & En). exists r. split; [|by exists n].
    apply elem_of_find_roots. split; [|done]. by eapply up_lt; [eapply built_ok|..].
Qed.

Lemma built_rooted md ms gs a0 a : built md ms gs a0 a → md ≠ Any → rooted a.
Proof.
  intros B Hmd. destruct (bt_merged _ _ _ _ _ B) as [sm G]. apply (mg_rooted _ _ _ _ G).
  eapply inv_rooted; [apply (lk_inv _ _ _ _ (bt_linked _ _ _ _ _ B))|done].
Qed.

(** The message is [r] or replies to [r]. *)
Definition anchored (m : ThreadableMessage) (r : str) : Prop :=
  message_id m = r ∨ last (ref_ids m) = Some r.

Lemma anchored_container age ms gs a0 a m r :
  built (Ordered age) ms gs a0 a → NoDup (message_id <$> ms) → m ∈ ms → anchored m r →
  ∃ i p, msg a i = Some m ∧ mid a p = Some r ∧ (i = p ∨ par a i = Some p).
Proof.
  intros B Hnd Hm Hr. destruct (bt_merged _ _ _ _ _ B) as [sm G].
  assert (∀ i, mid a i = Some (message_id m) → msg a i = Some m) as Hmsg.
  { intros i Hi. apply (built_msg _ _ _ _ _ _ _ B). by rewrite survivors_all. }
  destruct (decide (message_id m = r)) as [<-|Hne].
  - destruct (lk_mid _ _ _ _ (bt_linked _ _ _ _ _ B) m Hm) as [i Hi].
    rewrite <- (mg_mid _ _ _ _ G) in Hi. exists i, i. auto.
  - destruct Hr as [?|Hr]; [done|].
    destruct (lk_reply _ _ _ _ (bt_linked _ _ _ _ _ B) age m r) as (i & p & Hi & Hp & E); [done..|].
    rewrite <- (mg_mid _ _ _ _ G) in Hi, Hp. apply (mg_par _ _ _ _ G) in E.
    exists i, p. auto.
Qed.

(** ** Properties *)

(** C26. When the references have no loop, or there are at most 100 Message-IDs,
    those that references name included, the threads hold exactly once every message
    that is kept, and nothing else.  Kept is, of the messages with one Message-ID,
    only the last; the others before it are in no thread. *)
Theorem build_threads_partition (ms : list ThreadableMessage) (Hloop : loop_free ms) :
  ∃ gs, build_threads ms = Some gs ∧ gs ≫= message_ids ≡ₚ id <$> survivors ms.
Proof.
  destruct (loop_free_mode ms Hloop) as (md & Hmd & Hf & Hal).
  destruct (build_threads_built md ms Hf Hal) as (gs & a0 & a & E & B). exists gs. split; [done|].
  destruct (bt_groups _ _ _ _ _ B) as (ns & Hnd & Hin & ->).
  by rewrite (rooted_covered md ms gs a0 a ns B (built_rooted _ _ _ _ _ B Hmd) Hnd Hin).
Qed.

(** Threading ends without a panic on every input, loops of references
    included; it never shows a message twice, and every thread is a non-empty list
    of messages of the input by date. *)
Theorem build_threads_total (ms : list ThreadableMessage) :
  ∃ gs, build_threads ms = Some gs ∧ gs ≫= message_ids ⊆+ id <$> survivors ms
    ∧ ∀ g, g ∈ gs → ∃ ms', message_ids g = id <$> ms' ∧ ms' ≠ [] ∧ ms' ⊆+ survivors ms
                           ∧ StronglySorted by_date ms'.
Proof.
  destruct (build_threads_built Any ms I (λ _ _ _ _ _, I)) as (gs & a0 & a & E & B).
  exists gs. split; [done|]. split.
  - destruct (bt_groups _ _ _ _ _ B) as (ns & Hnd & _ & ->). apply fmap_submseteq.
    by eapply omap_msg_survivors.
  - intros g Hg. destruct (bt_thread _ _ _ _ _ B g Hg) as (r & _ & k & ns & ms' & _ & Hnd & _ & Hp & Hne & Hs & ->).
    exists ms'. split_and!; [done|done| |done]. rewrite Hp. by eapply omap_msg_survivors.
Qed.

(** C32. A thread holds only what belongs together: any two messages of a thread
    are connected by references between Message-IDs and by equal subjects. *)
Theorem threads_belong_together (ms : list ThreadableMessage) (gs : list ThreadGroup)
    (g : ThreadGroup) (E : build_threads ms = Some gs) (Hg : g ∈ gs) :
  ∃ ms', message_ids g = id <$> ms' ∧ (∀ m, m ∈ ms' → m ∈ ms)
    ∧ ∀ m1 m2, m1 ∈ ms' → m2 ∈ ms' → conversation ms (message_id m1) (message_id m2).
Proof.
  destruct (build_threads_built Any ms I (λ _ _ _ _ _, I)) as (gs' & a0 & a & E' & B).
  assert (gs' = gs) as -> by congruence. destruct (bt_merged _ _ _ _ _ B) as [sm G].
  destruct (bt_thread _ _ _ _ _ B g Hg) as (r & _ & k & ns & ms' & Hk & Hnd & Hin & Hp & _ & _ & ->).
  assert (∀ m, m ∈ ms' → m ∈ ms ∧ ∃ i, conn a0 i r ∧ mid a i = Some (message_id m)) as Hms.
  { intros m Hm. rewrite Hp in Hm. apply list_elem_of_omap in Hm as (i & Hi%Hin & Em).
    apply (built_msg _ _ _ _ _ _ _ B) in Em as [Hs Em]. split; [by apply survivors_subset|].
    exists i. split; [|done]. eapply below_conn; [done|done|by eapply mid_lt]. }
  exists ms'. split_and!; [done|by intros m [? _]%Hms|].
  intros m1 m2 [_ (i & Ci & Ei)]%Hms [_ (j & Cj & Ej)]%Hms.
  transitivity k; [by apply (conn_conversation _ _ _ _ _ i r _ _ B)|].
  symmetry. by apply (conn_conversation _ _ _ _ _ j r _ _ B).
Qed.

(** Replies stay with what they reply to: in a mailbox whose references go
    from older to newer messages, a message, its replies and the replies to a
    message that is not there are in one thread, however deep the conversation. *)
Theorem replies_share_thread (ms : list ThreadableMessage) (gs : list ThreadGroup)
    (age : str → nat) (r : str) (m1 m2 : ThreadableMessage)
    (Hage : ordered_by age ms) (Hnd : NoDup (message_id <$> ms))
    (E : build_threads ms = Some gs)
    (H1 : m1 ∈ ms) (H2 : m2 ∈ ms) (Hr1 : anchored m1 r) (Hr2 : anchored m2 r) :
  ∃ g, g ∈ gs ∧ id m1 ∈ message_ids g ∧ id m2 ∈ message_ids g.
Proof.
  destruct (build_threads_built (Ordered age) ms I Hage) as (gs' & a0 & a & E' & B).
  assert (gs' = gs) as -> by congruence. pose proof (built_ok _ _ _ _ _ B) as Ha.
  destruct (anchored_container age ms gs a0 a m1 r B Hnd H1 Hr1) as (i1 & p & M1 & P1 & I1).
  destruct (anchored_container age ms gs a0 a m2 r B Hnd H2 Hr2) as (i2 & p2 & M2 & P2 & I2).
  assert (p2 = p) as -> by by eapply mid_inj. destruct (proj1 (mid_lt _ _ _) P1) as [Hp _].
  destruct (built_rooted _ _ _ _ _ B ltac:(done) p Hp) as (q & Hq & n & En).
  assert (∀ i, i = p ∨ par a i = Some p → root_of a i q) as Hroot.
  { intros i [->|Ei]; (split; [done|]); [by exists n|]. exists (S n). by rewrite (up_S _ _ _ p). }
  apply (same_root_thread _ _ _ _ _ q i1 i2 m1 m2 B); auto. by eapply up_lt.
Qed.

(** Two conversations with one subject become one thread: two messages
    nothing comes before in any References header and whose normalized subjects
    are equal and not empty are in one thread. *)
Theorem same_subject_shares_thread (ms : list ThreadableMessage) (gs : list ThreadGroup)
    (m1 m2 : ThreadableMessage) (k : str) (E : build_threads ms = Some gs)
    (H1 : m1 ∈ survivors ms) (H2 : m2 ∈ survivors ms) (Hk : k ≠ [])
    (Hs1 : normalize_subject (subject m1) = Some k) (Hs2 : normalize_subject (subject m2) = Some k)
    (Hfree : ∀ m x, m ∈ ms → (x, message_id m1) ∉ links m ∧ (x, message_id m2) ∉ links m) :
  ∃ g, g ∈ gs ∧ id m1 ∈ message_ids g ∧ id m2 ∈ message_ids g.
Proof.
  destruct (build_threads_built Any ms I (λ _ _ _ _ _, I)) as (gs' & a0 & a & E' & B).
  assert (gs' = gs) as -> by congruence. destruct (bt_merged _ _ _ _ _ B) as [sm G].
  assert (∀ m, m ∈ survivors ms → normalize_subject (subject m) = Some k →
    (∀ m' x, m' ∈ ms → (x, message_id m) ∉ links m') →
    ∃ i e, msg a i = Some m ∧ sm !! k = Some e ∧ root_of a i e) as Hroot.
  { intros m Hm Hs Hno. destruct (survivor_container _ _ _ _ _ _ B Hm) as (i & Hi & Hlt).
    destruct (proj1 (built_msg _ _ _ _ _ _ _ B) Hi) as [_ Hmid].
    destruct (subject m) as [s|] eqn:Es; [|by injection Hs as <-].
    destruct (mg_subj _ _ _ _ G i k) as (e & Ek & Hre); [|by exists m, s; rewrite <- (mg_msg _ _ _ _ G)|done|eauto].
    apply elem_of_find_roots. rewrite <- (mg_size _ _ _ _ G). split; [done|].
    destruct (par a0 i) as [p|] eqn:Ep; [|done].
    destruct (lk_from _ _ _ _ (bt_linked _ _ _ _ _ B) i p Ep) as (m' & x & y & Hm' & Hl & _ & Hy).
    rewrite (mg_mid _ _ _ _ G) in Hmid. simplify_eq. by destruct (Hno m' x Hm'). }
  destruct (Hroot m1) as (i1 & e & M1 & Ek & R1); [done|done|by intros; apply Hfree|].
  destruct (Hroot m2) as (i2 & e2 & M2 & Ek2 & R2); [done|done|by intros; apply Hfree|].
  assert (e2 = e) as -> by congruence. destruct (mg_map _ _ _ _ G k e Ek) as (_ & _ & He).
  by apply (same_root_thread _ _ _ _ _ e i1 i2 m1 m2 B).
Qed.
End Properties.

#[local] Existing Instance ascii_text.

(** A message, a reply, a reply to a message that is not there, a forward of the
    first without headers, and an unrelated message. *)
Definition threads_demo : list ThreadableMessage :=
  [ mkMessage (slit "1") (slit "a@x") None None (Some (slit "Plan")) 10;
    mkMessage (slit "2") (slit "b@x") (Some (slit "<a@x>")) None (Some (slit "Re: Plan")) 20;
    mkMessage (slit "3") (slit "c@x") None (Some (slit "<gone@x>")) (Some (slit "Lunch")) 5;
    mkMessage (slit "4") (slit "d@x") None None (Some (slit "Fwd: [team] Plan")) 1;
    mkMessage (slit "5") (slit "e@x") (Some (slit "<gone@x>")) None None 7 ].

Definition threads_demo_result : list ThreadGroup :=
  [ mkThread (generate_thread_id (slit "gone@x")) [slit "3"; slit "5"];
    mkThread (generate_thread_id (slit "d@x")) [slit "4"; slit "1"; slit "2"] ].

Lemma threads_demo_built : build_threads threads_demo = Some threads_demo_result.
Proof. vm_compute. reflexivity. Qed.

Lemma build_threads_partition_witness :
  loop_free threads_demo
  ∧ ∃ gs, build_threads threads_demo = Some gs ∧ gs ≫= message_ids ≡ₚ id <$> survivors threads_demo.
Proof.
  assert (loop_free threads_demo) as Hl by (left; apply (bool_decide_unpack _); vm_compute; exact I).
  split; [exact Hl|apply (build_threads_partition threads_demo Hl)].
Defined.

Lemma threads_belong_together_witness :
  ∃ ms', [slit "3"; slit "5"] = id <$> ms' ∧ (∀ m, m ∈ ms' → m ∈ threads_demo)
    ∧ ∀ m1 m2, m1 ∈ ms' → m2 ∈ ms' → conversation threads_demo (message_id m1) (message_id m2).
Proof.
  apply (threads_belong_together threads_demo threads_demo_result
    (mkThread (generate_thread_id (slit "gone@x")) [slit "3"; slit "5"]) threads_demo_built).
  apply elem_of_cons. by left.
Defined.

(** The demo in the order of its dates. *)
Definition demo_age (k : str) : nat := if bool_decide (k ∈ [slit "a@x"; slit "gone@x"]) then 0 else 1.

Lemma replies_share_thread_witness :
  ordered_by demo_age threads_demo
  ∧ ∃ g, g ∈ threads_demo_result ∧ slit "3" ∈ message_ids g ∧ slit "5" ∈ message_ids g.
Proof.
  assert (ordered_by demo_age threads_demo) as Ho.
  { intros m x y Hm Hxy _. unfold threads_demo in Hm.
    repeat (apply elem_of_cons in Hm as [->|Hm];
      [vm_compute in Hxy; repeat (apply elem_of_cons in Hxy as [Hxy|Hxy];
         [injection Hxy as -> ->; vm_compute; lia|]); by apply elem_of_nil in Hxy|]).
    by apply elem_of_nil in Hm. }
  split; [exact Ho|].
  apply (replies_share_thread threads_demo threads_demo_result demo_age (slit "gone@x")
    (mkMessage (slit "3") (slit "c@x") None (Some (slit "<gone@x>")) (Some (slit "Lunch")) 5)
    (mkMessage (slit "5") (slit "e@x") (Some (slit "<gone@x>")) None None 7)).
  - exact Ho.
  - apply (bool_decide_unpack _). vm_compute. exact I.
  - exact threads_demo_built.
  - apply (bool_decide_unpack _). vm_compute. exact I.
  - apply (bool_decide_unpack _). vm_compute. exact I.
  - right. vm_compute. reflexivity.
  - right. vm_compute. reflexivity.
Defined.

Lemma same_subject_shares_thread_witness :
  ∃ g, g ∈ threads_demo_result ∧ slit "1" ∈ message_ids g ∧ slit "4" ∈ message_ids g.
Proof.
  apply (same_subject_shares_thread threads_demo threads_demo_result
    (mkMessage (slit "1") (slit "a@x") None None (Some (slit "Plan")) 10)
    (mkMessage (slit "4") (slit "d@x") None None (Some (slit "Fwd: [team] Plan")) 1) (slit "Plan")).
  - exact threads_demo_built.
  - apply (bool_decide_unpack _). vm_compute. exact I.
  - apply (bool_decide_unpack _). vm_compute. exact I.
  - done.
  - vm_compute. reflexivity.
  - vm_compute. reflexivity.
  - intros m x Hm. unfold threads_demo in Hm.
    repeat (apply elem_of_cons in Hm as [->|Hm];
      [split; intros Hxy; vm_compute in Hxy; repeat (apply elem_of_cons in Hxy as [Hxy|Hxy];
         [discriminate Hxy|]); by apply elem_of_nil in Hxy|]).
    by apply elem_of_nil in Hm.
Defined.

(** ** A loop the check misses *)

Definition loop_id (n : nat) : str := [N.of_nat (200 + n)].

(** [n + 1] messages, each a reply to the one before and the first to the last. *)
Definition reply_loop (n : nat) : list ThreadableMessage :=
  (λ i, mkMessage (loop_id i) (loop_id i)
          (Some (slit "<" ++ loop_id (if i =? 0 then n else i - 1) ++ slit ">")) None None
          (Z.of_nat i)) <$> seq 1 n ++ [0].

(** The walk of the loop check stops after 100 levels and then takes the
    chain for loop-free: 106 messages that reply to each other in a circle end up
    in a cycle without a root, and all of them disappear from the result. A circle
    of 99 messages is broken and kept. *)
Theorem long_reply_loop_disappears :
  build_threads (reply_loop 105) = Some []
  ∧ ∃ g, build_threads (reply_loop 98) = Some [g] ∧ length (message_ids g) = 99.
Proof. split; [vm_compute; reflexivity|]. eexists. split; vm_compute; reflexivity. Qed.
