(* ===== verification/FolderLabel.v ===== *)
(** * FolderLabel: the identifiers of folders and labels

    src/crates/types/src/folder_label.rs and the provider names of
    mail_provider.rs: the grammar that names a folder or a label of a provider in
    storage, its parsers with their error messages, and its printers. *)

From Equations Require Import Equations.
From S2P Require Import Prelude.
From S2P Require Import Graphemes.
From S2P Require Import Strings.

(** [Result<A, String>]: the error message is on the left. *)
Abbreviation Result A := (str + A)%type.

Definition result_bind {A B} (r : Result A) (f : A → Result B) : Result B :=
  match r with inl e => inl e | inr a => f a end.
Definition result_map {A B} (f : A → B) (r : Result A) : Result B :=
  result_bind r (λ a, inr (f a)).

(** [format!] around one argument. *)
Definition around (before : string) (s : str) (after : string) : str :=
  slit before ++ s ++ slit after.

(** ** Providers *)

Inductive MailProviderKind := Gmail | Graph | Jmap | Imap.

#[export] Instance MailProviderKind_eq_dec : EqDecision MailProviderKind.
Proof. solve_decision. Defined.

Definition provider_as_str (p : MailProviderKind) : str :=
  slit match p with Gmail => "gmail_api" | Graph => "graph" | Jmap => "jmap" | Imap => "imap" end.

Definition provider_parse (raw : str) : Result MailProviderKind :=
  if decide (raw = slit "gmail_api") then inr Gmail
  else if decide (raw = slit "graph") then inr Graph
  else if decide (raw = slit "jmap") then inr Jmap
  else if decide (raw = slit "imap") then inr Imap
  else inl (slit "Unknown provider: " ++ raw).

(** ** Data *)

Definition KEYWORD_PREFIX : str := slit "kw:".
Definition CATEGORY_PREFIX : str := slit "cat:".
Definition IMPORTANCE_HIGH_ID : str := slit "importance:high".
Definition IMPORTANCE_LOW_ID : str := slit "importance:low".
Definition GRAPH_FOLDER_PREFIX : str := slit "graph-".
Definition JMAP_FOLDER_PREFIX : str := slit "jmap-".
Definition IMAP_FOLDER_PREFIX : str := slit "folder-".
Definition SHARED_FOLDER_PREFIX : str := slit "shared:".
Definition PUBLIC_FOLDER_PREFIX : str := slit "public:".

Inductive SystemFolderId := SInbox | SSent | SDraft | STrash | SSpam | SArchive | SImportant.

(** The newtypes of the source are the strings they wrap. *)
Inductive FolderKind :=
| System (s : SystemFolderId)
| GmailSystem (label : str)
| GraphUser (guid : str)
| JmapUser (jmap_id : str)
| ImapUser (path : str)
| Shared (owner : str) (inner : FolderKind)
| Public (native : str).

Inductive ImportanceLevel := High | Low.

Inductive LabelKind :=
| GmailUser (label : str)
| GraphCategory (name : str)
| GraphImportance (level : ImportanceLevel)
| JmapKeyword (name : str)
| ImapKeyword (name : str).

Inductive MailLocator := LocFolder (f : FolderKind) | LocLabel (l : LabelKind).

Inductive Namespace := FromFolders | FromLabels | FromUserQuery.

Inductive NamespaceKind := NsPersonal | NsShared | NsPublic.

Inductive NamespaceAttribution :=
| AttrPersonal
| AttrShared (owner : str)
| AttrPublic (folder_storage_id : str).

#[export] Instance SystemFolderId_eq_dec : EqDecision SystemFolderId.
Proof. solve_decision. Defined.
#[export] Instance FolderKind_eq_dec : EqDecision FolderKind.
Proof. solve_decision. Defined.
#[export] Instance ImportanceLevel_eq_dec : EqDecision ImportanceLevel.
Proof. solve_decision. Defined.
#[export] Instance LabelKind_eq_dec : EqDecision LabelKind.
Proof. solve_decision. Defined.

(** ** Components *)

Definition validate_component (kind : string) (raw : str) : Result unit :=
  if is_nil raw then inl (slit kind ++ slit " cannot be empty")
  else if existsb is_control raw then inl (slit kind ++ slit " cannot contain control characters")
  else inr tt.

Definition is_reserved_imap_keyword (raw : str) : bool :=
  bool_decide (to_ascii_lowercase raw ∈
    (slit <$> ["$forwarded"; "$mdnsent"; "$junk"; "$notjunk"; "$phishing"])).

Definition keyword_parse (raw : str) : Result str :=
  result_bind (validate_component "keyword" raw) (λ _,
    if starts_with (slit "$") raw || is_reserved_imap_keyword raw
    then inl (around "reserved keyword `" raw "` is not a user label")
    else if starts_with KEYWORD_PREFIX raw
    then inl (around "keyword body `" raw "` already carries the `kw:` storage prefix")
    else inr raw).

Definition keyword_storage_id (raw : str) : str := KEYWORD_PREFIX ++ raw.

Definition category_parse (raw : str) : Result str :=
  result_bind (validate_component "category" raw) (λ _,
    if starts_with CATEGORY_PREFIX raw
    then inl (around "category body `" raw "` already carries the `cat:` storage prefix")
    else inr raw).

Definition category_storage_id (raw : str) : str := CATEGORY_PREFIX ++ raw.

(** [parse] of a validated newtype and [parse_storage_id] behind its prefix. *)
Definition component_parse (kind : string) (raw : str) : Result str :=
  result_bind (validate_component kind raw) (λ _, inr raw).

Definition storage_parse (prefix : str) (kind : string) (err : str) (raw : str) : Result str :=
  match strip_prefix prefix raw with
  | Some body => component_parse kind body
  | None => inl err
  end.

Definition guid_parse : str → Result str := component_parse "graph folder id".
Definition guid_parse_storage_id (raw : str) : Result str :=
  storage_parse GRAPH_FOLDER_PREFIX "graph folder id"
    (around "Graph user folder id `" raw "` must start with graph-") raw.
Definition guid_storage_id (g : str) : str := GRAPH_FOLDER_PREFIX ++ g.

Definition jmap_parse : str → Result str := component_parse "jmap mailbox id".
Definition jmap_parse_storage_id (raw : str) : Result str :=
  storage_parse JMAP_FOLDER_PREFIX "jmap mailbox id"
    (around "JMAP user folder id `" raw "` must start with jmap-") raw.
Definition jmap_storage_id (g : str) : str := JMAP_FOLDER_PREFIX ++ g.

Definition path_parse : str → Result str := component_parse "imap folder path".
Definition path_parse_storage_id (raw : str) : Result str :=
  storage_parse IMAP_FOLDER_PREFIX "imap folder path"
    (around "IMAP user folder id `" raw "` must start with folder-") raw.
Definition path_storage_id (g : str) : str := IMAP_FOLDER_PREFIX ++ g.

(** ** System folders *)

Definition system_as_str (s : SystemFolderId) : str :=
  slit match s with
       | SInbox => "INBOX" | SSent => "SENT" | SDraft => "DRAFT" | STrash => "TRASH"
       | SSpam => "SPAM" | SArchive => "archive" | SImportant => "IMPORTANT"
       end.

Definition system_folders : list SystemFolderId :=
  [SInbox; SSent; SDraft; STrash; SSpam; SArchive; SImportant].

Definition system_parse (raw : str) : option SystemFolderId :=
  snd <$> list_find (λ s, raw = system_as_str s) system_folders.

Definition system_parse_shorthand (raw : str) : option SystemFolderId :=
  let l := to_ascii_lowercase raw in
  if decide (l = slit "inbox") then Some SInbox
  else if decide (l = slit "sent") then Some SSent
  else if decide (l = slit "drafts" ∨ l = slit "draft") then Some SDraft
  else if decide (l = slit "trash") then Some STrash
  else if decide (l = slit "spam") then Some SSpam
  else if decide (l = slit "archive") then Some SArchive
  else None.

(** ** Gmail labels *)

Definition gmail_system_name (raw : str) : bool :=
  bool_decide (raw = slit "CHAT") || starts_with (slit "CATEGORY_") raw.

Definition gmail_label_parse (raw : str) : Result str :=
  result_bind (validate_component "gmail label id" raw) (λ _,
    if bool_decide (is_Some (system_parse raw)) || gmail_system_name raw
       || starts_with KEYWORD_PREFIX raw || starts_with CATEGORY_PREFIX raw
       || starts_with (slit "importance:") raw
    then inl (around "Gmail label id `" raw "` is reserved for another kind")
    else inr raw).

Definition gmail_system_parse (raw : str) : Result str :=
  result_bind (validate_component "gmail system label id" raw) (λ _,
    if gmail_system_name raw then inr raw
    else inl (around "Gmail system folder id `" raw "` is not a non-role system folder")).

(** ** Folders *)

(** The owner and the local identifier after [shared:]; [None] when the prefix
    is not there. *)
Definition shared_parts (raw : str) : option (Result (str * str)) :=
  rest ← strip_prefix SHARED_FOLDER_PREFIX raw;
  let '(owner, inner) :=
    match split_once 58 rest with Some (o, i) => (o, Some i) | None => (rest, None) end in
  Some (if is_nil owner then inl (around "shared folder id `" raw "` has no owner")
        else match inner with
             | Some (c :: i) => inr (owner, c :: i)
             | _ => inl (around "shared folder id `" raw "` has no local id")
             end).

#[global] Arguments shared_parts : simpl never.

Definition personal_parse (raw : str) (p : MailProviderKind) : Result FolderKind :=
  match strip_prefix PUBLIC_FOLDER_PREFIX raw with
  | Some native =>
      result_bind (validate_component "public folder id" native) (λ _, inr (Public native))
  | None =>
      match system_parse raw with
      | Some s => inr (System s)
      | None =>
          match p with
          | Gmail => result_map GmailSystem (gmail_system_parse raw)
          | Graph => result_map GraphUser (guid_parse_storage_id raw)
          | Jmap => result_map JmapUser (jmap_parse_storage_id raw)
          | Imap => result_map ImapUser (path_parse_storage_id raw)
          end
      end
  end.

Definition inspected {A} (x : A) : {y : A | x = y} := exist _ x eq_refl.

Lemma shared_parts_shorter raw owner inner :
  shared_parts raw = Some (inr (owner, inner)) → length inner < length raw.
Proof.
  unfold shared_parts. intros E. destruct (strip_prefix _ raw) as [rest|] eqn:Er; [|done].
  apply strip_prefix_Some in Er as ->. cbn [mbind option_bind] in E. rewrite length_app.
  destruct (split_once 58 rest) as [[o i]|] eqn:Es.
  - apply split_once_Some in Es as [-> _]. rewrite length_app. cbn.
    repeat case_match; simplify_eq. cbn. lia.
  - by repeat case_match.
Qed.

Equations? folder_parse (raw : str) (p : MailProviderKind) : Result FolderKind
  by wf (length raw) lt :=
  folder_parse raw p with inspected (shared_parts raw) => {
    | exist _ None _ := personal_parse raw p;
    | exist _ (Some (inl e)) _ := inl e;
    | exist _ (Some (inr (owner, inner))) E := result_map (Shared owner) (folder_parse inner p) }.
Proof. by eapply shared_parts_shorter. Qed.

Definition folder_shared (owner : str) (inner : FolderKind) : Result FolderKind :=
  result_bind (validate_component "shared mailbox owner" owner) (λ _, inr (Shared owner inner)).

Definition folder_public (native : str) : Result FolderKind :=
  result_bind (validate_component "public folder id" native) (λ _, inr (Public native)).

Fixpoint folder_storage_id (k : FolderKind) : str :=
  match k with
  | System s => system_as_str s
  | GmailSystem l => l
  | GraphUser g => guid_storage_id g
  | JmapUser g => jmap_storage_id g
  | ImapUser path => path_storage_id path
  | Shared owner inner => SHARED_FOLDER_PREFIX ++ owner ++ slit ":" ++ folder_storage_id inner
  | Public native => PUBLIC_FOLDER_PREFIX ++ native
  end.

(** ** Labels *)

Definition importance_parse_label_id (raw : str) : option ImportanceLevel :=
  if decide (raw = IMPORTANCE_HIGH_ID) then Some High
  else if decide (raw = IMPORTANCE_LOW_ID) then Some Low
  else None.

Definition importance_label_id (l : ImportanceLevel) : str :=
  match l with High => IMPORTANCE_HIGH_ID | Low => IMPORTANCE_LOW_ID end.

Definition importance_opposite (l : ImportanceLevel) : ImportanceLevel :=
  match l with High => Low | Low => High end.

(** [eq_ignore_ascii_case] *)
Definition importance_from_graph_value (raw : str) : option ImportanceLevel :=
  if decide (to_ascii_lowercase raw = slit "high") then Some High
  else if decide (to_ascii_lowercase raw = slit "low") then Some Low
  else None.

Definition importance_graph_value (l : ImportanceLevel) : str :=
  slit match l with High => "high" | Low => "low" end.

Definition label_parse (raw : str) (p : MailProviderKind) : Result LabelKind :=
  match p with
  | Gmail => result_map GmailUser (gmail_label_parse raw)
  | Graph =>
      match importance_parse_label_id raw with
      | Some level => inr (GraphImportance level)
      | None =>
          match strip_prefix CATEGORY_PREFIX raw with
          | Some c => result_map GraphCategory (category_parse c)
          | None => inl (around "Graph label id `" raw "` is not a category or importance label")
          end
      end
  | Jmap =>
      match strip_prefix KEYWORD_PREFIX raw with
      | Some k => result_map JmapKeyword (keyword_parse k)
      | None => inl (around "JMAP label id `" raw "` is not a keyword label")
      end
  | Imap =>
      match strip_prefix KEYWORD_PREFIX raw with
      | Some k => result_map ImapKeyword (keyword_parse k)
      | None => inl (around "IMAP label id `" raw "` is not a keyword label")
      end
  end.

Definition label_storage_id (l : LabelKind) : str :=
  match l with
  | GmailUser raw => raw
  | GraphCategory c => category_storage_id c
  | GraphImportance level => importance_label_id level
  | JmapKeyword k | ImapKeyword k => keyword_storage_id k
  end.

Definition locator_parse (raw : str) (p : MailProviderKind) (ns : Namespace) : Result MailLocator :=
  match ns with
  | FromFolders => result_map LocFolder (folder_parse raw p)
  | FromLabels => result_map LocLabel (label_parse raw p)
  | FromUserQuery =>
      match folder_parse raw p with
      | inr f => inr (LocFolder f)
      | inl _ => result_map LocLabel (label_parse raw p)
      end
  end.

(** ** Namespaces *)

Definition attribution_kind (a : NamespaceAttribution) : NamespaceKind :=
  match a with AttrPersonal => NsPersonal | AttrShared _ => NsShared | AttrPublic _ => NsPublic end.

Definition storage_key (a : NamespaceAttribution) : option str :=
  match a with AttrPersonal => None | AttrShared owner => Some owner | AttrPublic f => Some f end.

Definition id_prefix (a : NamespaceAttribution) : option str :=
  match a with
  | AttrPersonal => None
  | AttrShared owner => Some (slit "shared:" ++ owner)
  | AttrPublic f => Some f
  end.

Definition qualified_id (a : NamespaceAttribution) (i : str) : str :=
  match id_prefix a with None => i | Some prefix => prefix ++ slit ":" ++ i end.
