(* ===== verification/FolderTheory.v ===== *)
(** * FolderTheory: the grammar of folder and label identifiers

    The parsers of FolderLabel accept exactly the printed forms of the valid
    folders and labels of a provider, so storage identifiers are unambiguous. *)

From Equations Require Import Equations.
From S2P Require Import Prelude.
From S2P Require Import Graphemes.
From S2P Require Import Strings.
From S2P Require Import FolderLabel.

(** ** Validity *)

(** What [validate_component] accepts. *)
Definition component_ok (raw : str) : Prop := raw ≠ [] ∧ existsb is_control raw = false.

(** The folders a provider can have: every component non-empty and printable, the
    owner of a shared folder without a colon. *)
Fixpoint folder_ok (p : MailProviderKind) (k : FolderKind) : Prop :=
  match k with
  | System _ => True
  | GmailSystem l => p = Gmail ∧ gmail_system_name l = true ∧ existsb is_control l = false
  | GraphUser g => p = Graph ∧ component_ok g
  | JmapUser g => p = Jmap ∧ component_ok g
  | ImapUser path => p = Imap ∧ component_ok path
  | Shared owner inner => owner ≠ [] ∧ 58%N ∉ owner ∧ folder_ok p inner
  | Public native => component_ok native
  end.

Definition keyword_ok (k : str) : Prop :=
  component_ok k ∧ starts_with (slit "$") k = false ∧ starts_with KEYWORD_PREFIX k = false.

Definition label_ok (p : MailProviderKind) (l : LabelKind) : Prop :=
  match l with
  | GmailUser raw =>
      p = Gmail ∧ component_ok raw ∧ (∀ s, raw ≠ system_as_str s) ∧ gmail_system_name raw = false
      ∧ starts_with KEYWORD_PREFIX raw = false ∧ starts_with CATEGORY_PREFIX raw = false
      ∧ starts_with (slit "importance:") raw = false
  | GraphCategory c => p = Graph ∧ component_ok c ∧ starts_with CATEGORY_PREFIX c = false
  | GraphImportance _ => p = Graph
  | JmapKeyword k => p = Jmap ∧ keyword_ok k
  | ImapKeyword k => p = Imap ∧ keyword_ok k
  end.

(** ** Results and components *)

Lemma result_bind_inr {A B} (r : Result A) (f : A → Result B) b :
  result_bind r f = inr b ↔ ∃ a, r = inr a ∧ f a = inr b.
Proof. destruct r; cbn; naive_solver. Qed.

Lemma result_map_inr {A B} (f : A → B) (r : Result A) b :
  result_map f r = inr b ↔ ∃ a, r = inr a ∧ b = f a.
Proof. unfold result_map. rewrite result_bind_inr. naive_solver. Qed.

Lemma validate_component_inr kind raw u :
  validate_component kind raw = inr u ↔ component_ok raw.
Proof.
  unfold validate_component, component_ok. destruct u. rewrite <- is_nil_spec.
  destruct (is_nil raw), (existsb is_control raw); naive_solver.
Qed.

Lemma component_parse_inr kind raw x :
  component_parse kind raw = inr x ↔ x = raw ∧ component_ok raw.
Proof.
  unfold component_parse. rewrite result_bind_inr. setoid_rewrite validate_component_inr.
  split; [intros (u & ? & [= <-])|intros [-> ?]]; [done|by exists tt].
Qed.

Lemma storage_parse_inr prefix kind err raw x :
  storage_parse prefix kind err raw = inr x ↔ raw = prefix ++ x ∧ component_ok x.
Proof.
  unfold storage_parse. destruct (strip_prefix prefix raw) as [body|] eqn:E.
  - apply strip_prefix_Some in E as ->. rewrite component_parse_inr. split.
    + by intros [-> ?].
    + intros [->%app_inv_head ?]. done.
  - split; [done|]. intros [-> _]. by rewrite strip_prefix_app in E.
Qed.

(** ** System folders *)

Lemma system_as_str_inj s1 s2 : system_as_str s1 = system_as_str s2 → s1 = s2.
Proof. by destruct s1, s2. Qed.

Lemma system_parse_Some raw s : system_parse raw = Some s ↔ raw = system_as_str s.
Proof.
  split.
  - unfold system_parse. destruct (list_find _ _) as [[i s']|] eqn:E; [|done].
    apply list_find_Some in E as (_ & -> & _). by intros [= ->].
  - intros ->. by destruct s.
Qed.

Lemma system_parse_None raw : system_parse raw = None ↔ ∀ s, raw ≠ system_as_str s.
Proof.
  split.
  - intros E s Hs%system_parse_Some. congruence.
  - intros Hs. destruct (system_parse raw) as [s|] eqn:E; [|done].
    apply system_parse_Some in E. by destruct (Hs s).
Qed.

(** ** Labels and keywords *)

Lemma bool_false b : b ≠ true ↔ b = false.
Proof. by destruct b. Qed.

Lemma reserved_dollar raw : is_reserved_imap_keyword raw = true → starts_with (slit "$") raw = true.
Proof.
  unfold is_reserved_imap_keyword. rewrite bool_decide_eq_true. intros Hr.
  assert (∃ r, to_ascii_lowercase raw = 36%N :: r) as [r E].
  { cbn in Hr. repeat (apply elem_of_cons in Hr as [->|Hr]; [by eexists|]).
    by apply elem_of_nil in Hr. }
  destruct raw as [|c raw]; [done|]. cbn in E. injection E as Hc _.
  assert (c = 36%N) as ->; [|apply starts_with_spec; by exists raw].
  unfold lower_char in Hc. destruct (65 <=? c)%N eqn:E1, (c <=? 90)%N eqn:E2; cbn in Hc; try done.
  apply N.leb_le in E1. lia.
Qed.

Lemma keyword_parse_inr raw x : keyword_parse raw = inr x ↔ x = raw ∧ keyword_ok raw.
Proof.
  unfold keyword_parse, keyword_ok. rewrite result_bind_inr. setoid_rewrite validate_component_inr.
  pose proof (reserved_dollar raw) as Hres.
  destruct (is_reserved_imap_keyword raw), (starts_with (slit "$") raw),
    (starts_with KEYWORD_PREFIX raw); cbn; naive_solver.
Qed.

Lemma category_parse_inr raw x :
  category_parse raw = inr x ↔ x = raw ∧ component_ok raw ∧ starts_with CATEGORY_PREFIX raw = false.
Proof.
  unfold category_parse. rewrite result_bind_inr. setoid_rewrite validate_component_inr.
  destruct (starts_with CATEGORY_PREFIX raw); naive_solver.
Qed.

Lemma gmail_label_parse_inr raw x :
  gmail_label_parse raw = inr x ↔ x = raw ∧ label_ok Gmail (GmailUser raw).
Proof.
  unfold gmail_label_parse. rewrite result_bind_inr. setoid_rewrite validate_component_inr.
  unfold label_ok. rewrite <- system_parse_None. case_bool_decide as Hs.
  - destruct Hs as [s Hs]. rewrite Hs. cbn [orb]. naive_solver.
  - assert (system_parse raw = None) as -> by by destruct (system_parse raw); [destruct Hs; eexists|].
    destruct (gmail_system_name raw), (starts_with KEYWORD_PREFIX raw),
      (starts_with CATEGORY_PREFIX raw), (starts_with (slit "importance:") raw);
      cbn [orb]; naive_solver.
Qed.

Lemma gmail_system_parse_inr raw x :
  gmail_system_parse raw = inr x
  ↔ x = raw ∧ gmail_system_name raw = true ∧ existsb is_control raw = false.
Proof.
  unfold gmail_system_parse. rewrite result_bind_inr. setoid_rewrite validate_component_inr.
  unfold component_ok. destruct (gmail_system_name raw) eqn:E; [|naive_solver].
  assert (raw ≠ []) by (intros ->; done). naive_solver.
Qed.

Lemma importance_parse_Some raw l :
  importance_parse_label_id raw = Some l ↔ raw = importance_label_id l.
Proof.
  unfold importance_parse_label_id. repeat case_decide; subst; destruct l; naive_solver.
Qed.

(** ** Folders *)

Lemma shared_parts_inr raw owner inner :
  shared_parts raw = Some (inr (owner, inner))
  ↔ raw = SHARED_FOLDER_PREFIX ++ owner ++ slit ":" ++ inner
    ∧ owner ≠ [] ∧ 58%N ∉ owner ∧ inner ≠ [].
Proof.
  unfold shared_parts. split.
  - intros E. destruct (strip_prefix _ raw) as [rest|] eqn:Er; [|done].
    apply strip_prefix_Some in Er as ->. cbn [mbind option_bind] in E.
    destruct (split_once 58 rest) as [[o i]|] eqn:Es; [|by repeat case_match].
    apply split_once_Some in Es as [-> Hn]. destruct (is_nil o) eqn:Eo; [done|].
    destruct i as [|c i]; [done|]. simplify_eq. split_and!; [done|by intros ->|done|done].
  - intros (-> & Ho & Hn & Hi). rewrite strip_prefix_app. cbn [mbind option_bind].
    assert (split_once 58 (owner ++ slit ":" ++ inner) = Some (owner, inner)) as ->
      by by apply split_once_Some.
    destruct owner; [done|]. by destruct inner.
Qed.

Lemma shared_parts_None raw : shared_parts raw = None ↔ strip_prefix SHARED_FOLDER_PREFIX raw = None.
Proof.
  unfold shared_parts. destruct (strip_prefix _ raw) as [rest|]; cbn; [|done].
  by destruct (split_once 58 rest) as [[o i]|].
Qed.

Lemma folder_parse_eq raw p :
  folder_parse raw p
  = match shared_parts raw with
    | None => personal_parse raw p
    | Some (inl e) => inl e
    | Some (inr (owner, inner)) => result_map (Shared owner) (folder_parse inner p)
    end.
Proof.
  rewrite folder_parse_equation_1. destruct (inspected (shared_parts raw)) as [y E].
  by destruct y as [[e|[owner inner]]|]; cbn; rewrite E.
Qed.

Lemma personal_parse_inr raw p k :
  personal_parse raw p = inr k → folder_ok p k ∧ raw = folder_storage_id k.
Proof.
  unfold personal_parse. destruct (strip_prefix PUBLIC_FOLDER_PREFIX raw) as [native|] eqn:Ep.
  { apply strip_prefix_Some in Ep as ->. rewrite result_bind_inr.
    setoid_rewrite validate_component_inr. intros (_ & Hok & [= <-]). done. }
  destruct (system_parse raw) as [s|] eqn:Es.
  { apply system_parse_Some in Es as ->. by intros [= <-]. }
  destruct p; rewrite result_map_inr.
  - setoid_rewrite gmail_system_parse_inr. by intros (x & (-> & ? & ?) & ->).
  - setoid_rewrite storage_parse_inr. by intros (x & (-> & ?) & ->).
  - setoid_rewrite storage_parse_inr. by intros (x & (-> & ?) & ->).
  - setoid_rewrite storage_parse_inr. by intros (x & (-> & ?) & ->).
Qed.

Lemma folder_storage_id_ne p k : folder_ok p k → folder_storage_id k ≠ [].
Proof.
  destruct k as [s|l| | | | |]; cbn; try done; [by destruct s|]. by intros (_ & Hl & _) ->.
Qed.

(** A personal identifier without the [public:] prefix that is no system folder. *)
Lemma personal_parse_print p k :
  folder_ok p k → match k with Shared _ _ => False | _ => True end →
  shared_parts (folder_storage_id k) = None ∧ personal_parse (folder_storage_id k) p = inr k.
Proof.
  intros Hok Hk. rewrite shared_parts_None. destruct k as [s|l|g|g|path| |native]; try done; cbn in Hok.
  - by destruct s.
  - destruct Hok as (-> & Hl & Hc). cbn [folder_storage_id]. unfold gmail_system_name in Hl.
    assert (strip_prefix SHARED_FOLDER_PREFIX l = None
      ∧ strip_prefix PUBLIC_FOLDER_PREFIX l = None ∧ system_parse l = None) as (Hsh & Hpub & Hsys).
    { apply orb_true_iff in Hl as [->%bool_decide_eq_true|[r ->]%starts_with_spec]; [done|].
      split_and!; [done|done|]. apply system_parse_None. by intros []. }
    split; [done|]. unfold personal_parse. rewrite Hpub, Hsys. apply result_map_inr. exists l.
    split; [|done]. by apply gmail_system_parse_inr.
  - destruct Hok as [-> Hok]. split; [done|]. unfold personal_parse. cbn [folder_storage_id].
    rewrite (proj2 (system_parse_None (guid_storage_id g))) by by intros [].
    apply result_map_inr. exists g. split; [|done]. by apply storage_parse_inr.
  - destruct Hok as [-> Hok]. split; [done|]. unfold personal_parse. cbn [folder_storage_id].
    rewrite (proj2 (system_parse_None (jmap_storage_id g))) by by intros [].
    apply result_map_inr. exists g. split; [|done]. by apply storage_parse_inr.
  - destruct Hok as [-> Hok]. split; [done|]. unfold personal_parse. cbn [folder_storage_id].
    rewrite (proj2 (system_parse_None (path_storage_id path))) by by intros [].
    apply result_map_inr. exists path. split; [|done]. by apply storage_parse_inr.
  - split; [done|]. unfold personal_parse. cbn [folder_storage_id]. rewrite strip_prefix_app.
    apply result_bind_inr. exists tt. split; [by apply validate_component_inr|done].
Qed.

Lemma folder_parse_sound raw p k :
  folder_parse raw p = inr k → folder_ok p k ∧ raw = folder_storage_id k.
Proof.
  revert k. induction raw as [raw IH] using (induction_ltof1 _ length). unfold ltof in IH.
  intros k. rewrite folder_parse_eq.
  destruct (shared_parts raw) as [[e|[owner inner]]|] eqn:E; [done| |apply personal_parse_inr].
  intros (k' & Ek & ->)%result_map_inr.
  destruct (IH inner (shared_parts_shorter _ _ _ E) k' Ek) as [Hok Hin].
  apply shared_parts_inr in E as (-> & Ho & Hn & _). cbn. by rewrite <- Hin.
Qed.

(** ** Properties *)

(** C40. Folder identifiers are a faithful encoding: parsing succeeds exactly on
    the storage identifiers of the provider's valid folders and returns that
    folder, shared folders nested to any depth included; so storing and loading a
    folder gives it back, and two folders never share an identifier. *)
Theorem folder_identifiers (p : MailProviderKind) (raw : str) (k : FolderKind) :
  folder_parse raw p = inr k ↔ folder_ok p k ∧ raw = folder_storage_id k.
Proof.
  split.
  - apply folder_parse_sound.
  - intros [Hok ->]. induction k as [| | | | |owner inner IH|]; rewrite folder_parse_eq;
      try (by match goal with |- context [folder_storage_id ?k] =>
        destruct (personal_parse_print p k Hok I) as [-> ->] end).
    destruct Hok as (Ho & Hn & Hok).
    rewrite (proj2 (shared_parts_inr _ owner (folder_storage_id inner))).
    + apply result_map_inr. exists inner. auto.
    + split_and!; [done..|]. by eapply folder_storage_id_ne.
Qed.

Lemma label_parse_print p l : label_ok p l → label_parse (label_storage_id l) p = inr l.
Proof.
  destruct l as [raw|c|level|k|k]; cbn [label_ok label_storage_id]; intros Hok.
  - destruct Hok as [-> Hok]. apply result_map_inr. exists raw. split; [|done].
    apply gmail_label_parse_inr. by cbn [label_ok].
  - destruct Hok as (-> & Hc & Hp). unfold label_parse.
    destruct (importance_parse_label_id (category_storage_id c)) as [i|] eqn:Ei.
    { apply importance_parse_Some in Ei. by destruct i. }
    unfold category_storage_id. rewrite strip_prefix_app. apply result_map_inr. exists c.
    split; [|done]. by apply category_parse_inr.
  - subst p. unfold label_parse. by rewrite (proj2 (importance_parse_Some _ level)).
  - destruct Hok as [-> Hk]. unfold label_parse, keyword_storage_id. rewrite strip_prefix_app.
    apply result_map_inr. exists k. split; [|done]. by apply keyword_parse_inr.
  - destruct Hok as [-> Hk]. unfold label_parse, keyword_storage_id. rewrite strip_prefix_app.
    apply result_map_inr. exists k. split; [|done]. by apply keyword_parse_inr.
Qed.

Lemma label_parse_sound p raw l :
  label_parse raw p = inr l → label_ok p l ∧ raw = label_storage_id l.
Proof.
  destruct p; unfold label_parse.
  - rewrite result_map_inr. setoid_rewrite gmail_label_parse_inr. by intros (x & (-> & ?) & ->).
  - destruct (importance_parse_label_id raw) as [i|] eqn:Ei.
    { apply importance_parse_Some in Ei as ->. by intros [= <-]. }
    destruct (strip_prefix CATEGORY_PREFIX raw) as [c|] eqn:Ec; [|done].
    apply strip_prefix_Some in Ec as ->. rewrite result_map_inr.
    setoid_rewrite category_parse_inr. by intros (x & (-> & ? & ?) & ->).
  - destruct (strip_prefix KEYWORD_PREFIX raw) as [k|] eqn:Ek; [|done].
    apply strip_prefix_Some in Ek as ->. rewrite result_map_inr.
    setoid_rewrite keyword_parse_inr. by intros (x & (-> & ?) & ->).
  - destruct (strip_prefix KEYWORD_PREFIX raw) as [k|] eqn:Ek; [|done].
    apply strip_prefix_Some in Ek as ->. rewrite result_map_inr.
    setoid_rewrite keyword_parse_inr. by intros (x & (-> & ?) & ->).
Qed.

(** Label identifiers are a faithful encoding: parsing succeeds exactly on
    the storage identifiers of the provider's valid labels and returns that
    label. *)
Theorem label_identifiers (p : MailProviderKind) (raw : str) (l : LabelKind) :
  label_parse raw p = inr l ↔ label_ok p l ∧ raw = label_storage_id l.
Proof.
  split; [apply label_parse_sound|]. intros [Hok ->]. by apply label_parse_print.
Qed.

(** A user query names a folder or a label, never both: an identifier that
    parses as a folder parses as a label of the same provider only for Gmail, and
    there only in the shared and public name spaces. *)
Theorem folder_or_label (p : MailProviderKind) (raw : str) (k : FolderKind) (l : LabelKind)
    (Hk : folder_parse raw p = inr k) (Hl : label_parse raw p = inr l) :
  p = Gmail ∧ (starts_with SHARED_FOLDER_PREFIX raw = true ∨ starts_with PUBLIC_FOLDER_PREFIX raw = true).
Proof.
  apply folder_parse_sound in Hk as [Hk E]. apply label_parse_sound in Hl as [Hl El]. subst raw.
  destruct l as [lb|c|level|kw|kw]; cbn [label_ok] in Hl.
  - destruct Hl as (-> & _ & Hs & Hg & _). split; [done|].
    destruct k; cbn [folder_ok folder_storage_id label_storage_id] in *; try (by destruct Hk).
    + by destruct (Hs s).
    + destruct Hk as (_ & Hk & _). congruence.
    + left. apply starts_with_spec. by eexists.
    + right. apply starts_with_spec. by eexists.
  - destruct Hl as [-> _]. exfalso. by destruct k as [[]|? | | | | |]; try (by destruct Hk).
  - subst p. exfalso. by destruct level, k as [[]|? | | | | |]; try (by destruct Hk).
  - destruct Hl as [-> _]. exfalso. by destruct k as [[]|? | | | | |]; try (by destruct Hk).
  - destruct Hl as [-> _]. exfalso. by destruct k as [[]|? | | | | |]; try (by destruct Hk).
Qed.

Lemma folder_or_label_witness :
  folder_parse (slit "shared:alice:INBOX") Gmail = inr (Shared (slit "alice") (System SInbox))
  ∧ label_parse (slit "shared:alice:INBOX") Gmail = inr (GmailUser (slit "shared:alice:INBOX"))
  ∧ starts_with PUBLIC_FOLDER_PREFIX (slit "shared:alice:INBOX") = false.
Proof.
  assert (folder_parse (slit "shared:alice:INBOX") Gmail
          = inr (Shared (slit "alice") (System SInbox))) as Hk.
  { apply folder_identifiers. split; [|done]. cbn.
    split_and!; [done|apply (bool_decide_unpack _); vm_compute; exact I|exact I]. }
  assert (label_parse (slit "shared:alice:INBOX") Gmail
          = inr (GmailUser (slit "shared:alice:INBOX"))) as Hl by (vm_compute; reflexivity).
  destruct (folder_or_label Gmail _ _ _ Hk Hl) as [_ _].
  split_and!; [exact Hk|exact Hl|vm_compute; reflexivity].
Defined.

(** The constructor of shared folders accepts an owner with a colon, whose
    identifier does not parse back. *)
Lemma shared_owner_with_colon :
  ∃ k, folder_shared (slit "team:ops") (System SInbox) = inr k
    ∧ ∀ p, ∃ e, folder_parse (folder_storage_id k) p = inl e.
Proof.
  eexists. split; [by vm_compute|]. intros p. rewrite folder_parse_eq.
  replace (shared_parts _) with (Some (@inr str _ (slit "team", slit "ops:INBOX"))) by by vm_compute.
  rewrite folder_parse_eq. replace (shared_parts _) with (@None (Result (str * str))) by by vm_compute.
  destruct p; by eexists.
Qed.
