(* ===== verification/PackFormat.v ===== *)
(** * The format of the blob store's files

    src/crates/stores/src/attachment_pack.rs: frames, tails, tombstone log
    records and file names, read and written as bytes; and the blob hash of
    src/crates/db-read/src/blob_hash.rs with its hexadecimal form.

    BLAKE3, xxh3 and CRC-32 belong to other crates: [PackHashing] has them as
    functions, with the width of their results and nothing else.  No theorem
    assumes that two blobs never collide: what is promised of a colliding pair
    is that reading a hash gives a blob with that hash. *)

From S2P Require Import Prelude.
From S2P Require Import Strings.
From S2P Require Import Bytes.

(** ** Blob hashes *)

Inductive BlobHashError :=
  | WrongByteLen (n : N)
  | WrongHexLen (n : N)
  | NotHex.

(** [BlobHash([u8; 32])]; that there are 32 of them is [hash_ok]. *)
Abbreviation BlobHash := bytes.

Definition hash_ok (h : BlobHash) : Prop := length h = 32.

Definition from_slice (b : bytes) : BlobHashError + BlobHash :=
  if negb (blen b =? 32)%N then inl (WrongByteLen (blen b)) else inr b.

Definition hex_nibble (c : byte) : BlobHashError + N :=
  let c := Byte.to_N c in
  if ((48 <=? c) && (c <=? 57))%N then inr (c - 48)%N
  else if ((97 <=? c) && (c <=? 102))%N then inr (c - 97 + 10)%N
  else if ((65 <=? c) && (c <=? 70))%N then inr (c - 65 + 10)%N
  else inl NotHex.

Definition nibble_hex (n : N) : byte :=
  byte_of_N (if (n <=? 9)%N then 48 + n else 97 + n - 10)%N.

(** The loop over the chunks of two bytes. *)
Fixpoint hex_chunks (s : bytes) : BlobHashError + bytes :=
  match s with
  | a :: b :: s =>
      match hex_nibble a with
      | inl e => inl e
      | inr hi =>
          match hex_nibble b with
          | inl e => inl e
          | inr lo =>
              match hex_chunks s with
              | inl e => inl e
              | inr r => inr (byte_of_N (N.lor (N.shiftl hi 4) lo) :: r)
              end
          end
      end
  | _ => inr []
  end.

Definition from_hex (s : bytes) : BlobHashError + BlobHash :=
  if negb (blen s =? 64)%N then inl (WrongHexLen (blen s)) else hex_chunks s.

Definition to_hex (h : BlobHash) : bytes :=
  h ≫= λ b, [nibble_hex (N.shiftr (Byte.to_N b) 4); nibble_hex (N.land (Byte.to_N b) 15)].

(** ** Errors *)

Inductive ErrorKind := NotFound | AlreadyExists | UnexpectedEof | DeviceFault.

(** [PackError], without the texts of the messages. *)
Inductive PackError :=
  | Io (k : ErrorKind)
  | Sql
  | Corruption
  | TooLarge (n : N).

#[export] Instance ErrorKind_eq_dec : EqDecision ErrorKind.
Proof. solve_decision. Defined.
#[export] Instance PackError_eq_dec : EqDecision PackError.
Proof. solve_decision. Defined.

(** ** Hashes of other crates *)

Class PackHashing := {
  blake3 : bytes → BlobHash;
  xxh3_64 : bytes → N;
  crc32 : bytes → N;
  blake3_length b : hash_ok (blake3 b);
  xxh3_64_lt b : (xxh3_64 b < 256 ^ 8)%N
}.

(** ** Frames *)

Definition FRAME_MAGIC : bytes := [x52; x54; x53; x4b].
Definition TAIL_MAGIC : bytes := [x54; x41; x49; x4c].
Definition PACK_FORMAT_VERSION : byte := x01.
Definition FRAME_HEADER_LEN : N := 16.
Definition TAIL_LEN : N := 13.
Definition DEFAULT_PACK_TARGET_SIZE : N := 268435456.
Definition MAX_FRAME_PAYLOAD : N := u32_max.

(** The header [put] writes. *)
Definition frame_header (length_u32 checksum : N) : bytes :=
  FRAME_MAGIC ++ le_bytes 4 length_u32 ++ le_bytes 8 checksum.

(** The tail that seals a pack. *)
Definition pack_tail `{PackHashing} (frame_count : N) : bytes :=
  let body := PACK_FORMAT_VERSION :: le_bytes 4 frame_count in
  TAIL_MAGIC ++ body ++ le_bytes 4 (crc32 body).

Definition read_u32_le (b : bytes) : N := le_value (btake 4 b).
Definition read_u64_le (b : bytes) : N := le_value (btake 8 b).

(** The fields of a frame header. *)
Definition header_magic (h : bytes) : bytes := btake 4 h.
Definition header_length (h : bytes) : N := read_u32_le (btake 4 (bdrop 4 h)).
Definition header_checksum (h : bytes) : N := read_u64_le (btake 8 (bdrop 8 h)).

(** [seek] then [read_exact] of [n] bytes. *)
Definition read_exact (n off : N) (file : bytes) : option bytes :=
  let b := btake n (bdrop off file) in
  if (blen b =? n)%N then Some b else None.

(** The checks of [read_frame_payload] on the opened file. *)
Definition read_frame `{PackHashing} (file : bytes) (offset length : N) : PackError + bytes :=
  match read_exact FRAME_HEADER_LEN offset file with
  | None => inl (Io UnexpectedEof)
  | Some header =>
      if negb (bool_decide (header_magic header = FRAME_MAGIC)) then inl Corruption
      else if negb (header_length header =? length)%N then inl Corruption
      else
        match read_exact length (offset + FRAME_HEADER_LEN) file with
        | None => inl (Io UnexpectedEof)
        | Some payload =>
            if negb (xxh3_64 payload =? header_checksum header)%N then inl Corruption
            else inr payload
        end
  end.

(** What the loops that walk a pack find at an offset: the end of the file, a
    frame that cannot be used, or a payload. *)
Inductive Scan := ScanEnd | ScanBad | ScanFrame (payload : bytes).

Definition scan_frame `{PackHashing} (file : bytes) (offset : N) : Scan :=
  let remaining := (blen file - offset)%N in
  if (remaining =? 0)%N then ScanEnd
  else if (remaining <? FRAME_HEADER_LEN)%N then ScanBad
  else
    let header := btake FRAME_HEADER_LEN (bdrop offset file) in
    if negb (bool_decide (header_magic header = FRAME_MAGIC)) then ScanBad
    else
      let length := header_length header in
      if (remaining <? FRAME_HEADER_LEN + length)%N then ScanBad
      else
        let payload := btake length (bdrop (offset + FRAME_HEADER_LEN) file) in
        if negb (xxh3_64 payload =? header_checksum header)%N then ScanBad
        else ScanFrame payload.

(** [frame_count_in_open_pack]: the count, or where the file's cursor stands
    when the file ends inside a header.  Every turn moves the offset by at least
    16, so the length of the file is fuel enough. *)
Fixpoint frame_count_go (fuel : nat) (file : bytes) (end_offset offset count : N) : N + N :=
  if (offset <? end_offset)%N then
    match fuel, read_exact FRAME_HEADER_LEN offset file with
    | S fuel, Some header =>
        frame_count_go fuel file end_offset
          (sat_add_u64 offset (FRAME_HEADER_LEN + header_length header)) (sat_add_u32 count 1)
    | _, _ => inl (N.max offset (blen file))
    end
  else inr count.

Definition frame_count_in_open_pack (file : bytes) (end_offset : N) : N + N :=
  frame_count_go (length file) file end_offset 0 0.

(** ** Tombstone logs *)

Inductive TombstoneLogKind := Tombstone | Revive.

#[export] Instance TombstoneLogKind_eq_dec : EqDecision TombstoneLogKind.
Proof. solve_decision. Defined.

Definition from_byte (b : byte) : TombstoneLogKind :=
  match b with x01 => Revive | _ => Tombstone end.

Definition as_byte (k : TombstoneLogKind) : byte :=
  match k with Tombstone => x00 | Revive => x01 end.

Definition RECORD_LEN : N := 48.

Definition encode_log_record (pack_id : N) (hash : BlobHash) (kind : TombstoneLogKind) : bytes :=
  le_bytes 4 pack_id ++ [as_byte kind] ++ replicate 11 x00 ++ hash.

(** The kind and the hash of a record of 48 bytes. *)
Definition decode_log_record (record : bytes) : TombstoneLogKind * BlobHash :=
  (from_byte (from_option id x00 (record !! 4)), btake 32 (bdrop 16 record)).

(** The records of a log in file order; bytes after the last whole record are
    not a record. *)
Fixpoint log_records_go (fuel : nat) (log : bytes) : list (TombstoneLogKind * BlobHash) :=
  match fuel with
  | O => []
  | S fuel =>
      match read_exact RECORD_LEN 0 log with
      | Some record => decode_log_record record :: log_records_go fuel (bdrop RECORD_LEN log)
      | None => []
      end
  end.

Definition log_records (log : bytes) : list (TombstoneLogKind * BlobHash) :=
  log_records_go (length log) log.

(** ** File names *)

Definition data_prefix : str := Eval vm_compute in slit "data-".
Definition tombstones_prefix : str := Eval vm_compute in slit "tombstones-".
Definition pack_suffix : str := Eval vm_compute in slit ".pack".
Definition open_suffix : str := Eval vm_compute in slit ".pack.open".
Definition log_suffix : str := Eval vm_compute in slit ".log".

Definition pack_path_sealed (pack_id : N) : str :=
  data_prefix ++ decimal_pad 6 pack_id ++ pack_suffix.
Definition pack_path_open (pack_id : N) : str :=
  data_prefix ++ decimal_pad 6 pack_id ++ open_suffix.
Definition tombstone_log_path (pack_id : N) : str :=
  tombstones_prefix ++ decimal_pad 6 pack_id ++ log_suffix.

(** The test of [list_packs] on a directory entry. *)
Definition parse_pack_name (name : str) : option (N * bool) :=
  if starts_with data_prefix name then
    match
      match strip_suffix open_suffix name with
      | Some rest => Some (false, rest)
      | None =>
          match strip_suffix pack_suffix name with
          | Some rest => Some (true, rest)
          | None => None
          end
      end
    with
    | None => None
    | Some (sealed, stem) =>
        let id_str := from_option id stem (strip_prefix data_prefix stem) in
        id ← parse_unsigned u32_max id_str; Some (id, sealed)
    end
  else None.
