(* ===== verification/PackFormatTheory.v ===== *)
(** * The pack format: round trips

    Frames, logs, names and hexadecimal hashes read back as they were written;
    a frame cut short is never read; what a scan reads is a frame that was
    written in full. *)

From S2P Require Import Prelude.
From S2P Require Import Strings.
From S2P Require Import Bytes.
From S2P Require Import PackFormat.

(** ** Hexadecimal hashes *)

(** The sixteen nibbles. *)
Lemma nibble_ind (P : N → Prop) :
  Forall P [0; 1; 2; 3; 4; 5; 6; 7; 8; 9; 10; 11; 12; 13; 14; 15]%N → ∀ n, (n < 16)%N → P n.
Proof.
  intros HP n Hn. rewrite Forall_forall in HP. apply HP.
  rewrite !elem_of_cons, elem_of_nil. lia.
Qed.

Lemma hex_nibble_nibble_hex n : (n < 16)%N → hex_nibble (nibble_hex n) = inr n.
Proof. revert n. apply nibble_ind. by repeat constructor. Qed.

Lemma byte_nibbles b :
  (N.shiftr (Byte.to_N b) 4 < 16)%N ∧ (N.land (Byte.to_N b) 15 < 16)%N ∧
  byte_of_N (N.lor (N.shiftl (N.shiftr (Byte.to_N b) 4) 4) (N.land (Byte.to_N b) 15)) = b.
Proof. by destruct b. Qed.

Lemma hex_chunks_to_hex h : hex_chunks (to_hex h) = inr h.
Proof.
  induction h as [|b h IH]; [done|]. destruct (byte_nibbles b) as (H1 & H2 & H3).
  change (to_hex (b :: h)) with
    (nibble_hex (N.shiftr (Byte.to_N b) 4) :: nibble_hex (N.land (Byte.to_N b) 15) :: to_hex h).
  cbn [hex_chunks]. by rewrite !hex_nibble_nibble_hex, IH, H3 by done.
Qed.

Lemma length_to_hex h : length (to_hex h) = 2 * length h.
Proof.
  induction h as [|b h IH]; [done|].
  change (length (to_hex (b :: h))) with (S (S (length (to_hex h)))). cbn [length]. lia.
Qed.

(** Lowercase of a hexadecimal digit, and whether a byte is one. *)
Definition hex_lower (c : byte) : byte :=
  if ((65 <=? Byte.to_N c) && (Byte.to_N c <=? 70))%N then byte_of_N (Byte.to_N c + 32) else c.

Definition is_hex (c : byte) : bool := match hex_nibble c with inr _ => true | _ => false end.

Lemma hex_nibble_lt c n : hex_nibble c = inr n → (n < 16)%N ∧ nibble_hex n = hex_lower c.
Proof.
  assert (match hex_nibble c with
          | inr n => (n <? 16)%N && Byte.eqb (nibble_hex n) (hex_lower c)
          | inl _ => true
          end = true) as H by by destruct c.
  intros E. rewrite E in H. apply andb_true_iff in H as [H1 H2].
  split; [by apply N.ltb_lt|by apply Byte.byte_dec_bl].
Qed.

Lemma hex_nibble_error c e : hex_nibble c = inl e → e = NotHex.
Proof. unfold hex_nibble. intros E. by repeat (case_match; simplify_eq). Qed.

Lemma nibbles_byte hi lo :
  (hi < 16)%N → (lo < 16)%N →
  let b := byte_of_N (N.lor (N.shiftl hi 4) lo) in
  N.shiftr (Byte.to_N b) 4 = hi ∧ N.land (Byte.to_N b) 15 = lo.
Proof.
  intros Hh Hl. revert lo Hl. apply nibble_ind. revert hi Hh. apply nibble_ind.
  by repeat constructor.
Qed.

Lemma hex_chunks_spec s :
  Nat.Even (length s) →
  (∃ h, hex_chunks s = inr h ∧ to_hex h = hex_lower <$> s ∧ forallb is_hex s = true) ∨
  (hex_chunks s = inl NotHex ∧ forallb is_hex s = false).
Proof.
  remember (length s) as n eqn:En. revert s En.
  induction n as [n IH] using lt_wf_ind. intros [|a [|b s]] -> He.
  { left. by exists []. }
  { destruct He as [k Hk]. simpl in Hk. lia. }
  cbn [hex_chunks forallb]. unfold is_hex at 1 2 4 5.
  destruct (hex_nibble a) as [|hi] eqn:Ea; [right; by apply hex_nibble_error in Ea as ->|].
  destruct (hex_nibble b) as [|lo] eqn:Eb; [right; by apply hex_nibble_error in Eb as ->|].
  apply hex_nibble_lt in Ea as [Ha Ea], Eb as [Hb Eb]. cbn [andb].
  assert (Nat.Even (length s)) as Hs.
  { destruct He as [k Hk]. exists (k - 1). simpl in Hk. lia. }
  destruct (IH (length s) ltac:(simpl; lia) s eq_refl Hs) as [(h & E1 & E2 & E3)|[E1 E3]];
    rewrite E1, E3; [left|by right].
  eexists. split_and!; [done| |done]. destruct (nibbles_byte hi lo Ha Hb) as [N1 N2].
  cbn. unfold to_hex in E2. by rewrite E2, N1, N2, Ea, Eb.
Qed.

(** ** Frame headers *)

Create HintDb pack.

Lemma header_len : FRAME_HEADER_LEN = 16%N.
Proof. done. Qed.

Lemma length_frame_header a b : length (frame_header a b) = 16.
Proof. unfold frame_header. by rewrite !length_app, !length_le_bytes. Qed.

Lemma blen_frame_header a b : blen (frame_header a b) = FRAME_HEADER_LEN.
Proof. unfold blen. by rewrite length_frame_header. Qed.

Lemma frame_header_magic a b : header_magic (frame_header a b) = FRAME_MAGIC.
Proof. done. Qed.

Lemma frame_header_length a b : (a ≤ u32_max)%N → header_length (frame_header a b) = a.
Proof.
  intros H. unfold header_length, frame_header, read_u32_le.
  change (bdrop 4 (FRAME_MAGIC ++ le_bytes 4 a ++ le_bytes 8 b)) with (le_bytes 4 a ++ le_bytes 8 b).
  assert (blen (le_bytes 4 a) = 4%N) as E by (unfold blen; by rewrite length_le_bytes).
  rewrite <- E at 2. rewrite btake_app, btake_all by lia.
  apply le_value_small. unfold u32_max in H. lia.
Qed.

Lemma frame_header_checksum a b : (b < 256 ^ 8)%N → header_checksum (frame_header a b) = b.
Proof.
  intros H. unfold header_checksum, frame_header, read_u64_le.
  assert (bdrop 8 (FRAME_MAGIC ++ le_bytes 4 a ++ le_bytes 8 b) = le_bytes 8 b) as ->.
  { rewrite app_assoc. apply (bdrop_app (FRAME_MAGIC ++ le_bytes 4 a)). }
  rewrite !btake_all by (rewrite ?blen_btake; unfold blen; rewrite length_le_bytes; lia).
  by apply le_value_small.
Qed.

Lemma btake_le_length n l : (blen l ≤ n)%N → btake n l = l.
Proof. apply btake_all. Qed.

(** Sixteen bytes with the magic are a header. *)
Lemma header_decompose h :
  blen h = FRAME_HEADER_LEN → header_magic h = FRAME_MAGIC →
  h = frame_header (header_length h) (header_checksum h) ∧
  (header_length h ≤ u32_max)%N ∧ (header_checksum h < 256 ^ 8)%N.
Proof.
  intros Hl Hm. unfold FRAME_HEADER_LEN in Hl. unfold header_length, header_checksum, read_u32_le, read_u64_le.
  assert (blen (btake 4 (btake 4 (bdrop 4 h))) = 4%N) as L4 by (autorewrite with bytes; lia).
  assert (blen (btake 8 (btake 8 (bdrop 8 h))) = 8%N) as L8 by (autorewrite with bytes; lia).
  pose proof (le_value_lt (btake 4 (btake 4 (bdrop 4 h)))) as V4.
  pose proof (le_value_lt (btake 8 (btake 8 (bdrop 8 h)))) as V8.
  rewrite L4 in V4. rewrite L8 in V8. split_and!; [|unfold u32_max; lia|done].
  unfold frame_header.
  replace 4 with (length (btake 4 (btake 4 (bdrop 4 h)))) at 1 by (unfold blen in L4; lia).
  replace 8 with (length (btake 8 (btake 8 (bdrop 8 h)))) at 1 by (unfold blen in L8; lia).
  rewrite !le_bytes_le_value, (btake_all 4 (btake 4 _)), !(btake_all 8) by (autorewrite with bytes; lia).
  rewrite <- Hm. unfold header_magic.
  rewrite <- (btake_bdrop 4 h) at 1. f_equal.
  rewrite <- (btake_bdrop 4 (bdrop 4 h)) at 1. f_equal. by rewrite bdrop_bdrop.
Qed.

(** ** Frames *)

Section frames.
Context `{PackHashing}.

(** What [put] writes for a payload. *)
Definition frame (p : bytes) : bytes := frame_header (blen p) (xxh3_64 p) ++ p.

Definition frames (ps : list bytes) : bytes := ps ≫= frame.

Lemma blen_frame p : blen (frame p) = (FRAME_HEADER_LEN + blen p)%N.
Proof. unfold frame. by rewrite blen_app, blen_frame_header. Qed.

Lemma frames_app ps qs : frames (ps ++ qs) = frames ps ++ frames qs.
Proof. apply bind_app. Qed.

Lemma frames_cons p ps : frames (p :: ps) = frame p ++ frames ps.
Proof. done. Qed.

Lemma frames_singleton p : frames [p] = frame p.
Proof. unfold frames. cbn [mbind list_bind]. apply app_nil_r. Qed.

Lemma read_exact_Some n off f b :
  read_exact n off f = Some b ↔ blen b = n ∧ ∃ g, bdrop off f = b ++ g.
Proof.
  unfold read_exact. destruct (N.eqb_spec (blen (btake n (bdrop off f))) n) as [E|E]; split.
  - intros [= <-]. split; [done|]. eexists. symmetry. apply btake_bdrop.
  - intros [<- [g ->]]. by rewrite btake_app.
  - done.
  - intros [<- [g Hg]]. rewrite Hg, btake_app in E. done.
Qed.

Lemma bdrop_add_app off n f a b : bdrop off f = a ++ b → blen a = n → bdrop (off + n) f = b.
Proof. intros E <-. rewrite <- bdrop_bdrop, E. apply bdrop_app. Qed.

(** A frame is read at an offset exactly when it was written there in full. *)
Lemma read_frame_spec f off len p :
  read_frame f off len = inr p ↔
  len = blen p ∧ (blen p ≤ u32_max)%N ∧ ∃ g, bdrop off f = frame p ++ g.
Proof.
  unfold read_frame. split.
  - destruct (read_exact FRAME_HEADER_LEN off f) as [h|] eqn:Eh; [|done].
    case_bool_decide as Hm; [|done]. cbn [negb].
    destruct (N.eqb_spec (header_length h) len) as [<-|]; [|done]. cbn [negb].
    destruct (read_exact (header_length h) (off + FRAME_HEADER_LEN) f) as [q|] eqn:Eq; [|done].
    destruct (N.eqb_spec (xxh3_64 q) (header_checksum h)) as [Ec|]; [|done]. cbn [negb].
    intros [= ->]. apply read_exact_Some in Eh as [Lh [g Hg]], Eq as [Lp [g' Hg']].
    destruct (header_decompose h Lh Hm) as (Eh & Hb & _).
    change FRAME_HEADER_LEN with 16%N in *.
    rewrite (bdrop_add_app _ _ _ _ _ Hg Lh) in Hg'.
    split_and!; [done|lia|]. exists g'. rewrite Hg, Hg'. unfold frame.
    by rewrite Lp, Ec, <- Eh, app_assoc.
  - intros (-> & Hb & g & Hg). unfold frame in Hg. rewrite <- app_assoc in Hg.
    rewrite (proj2 (read_exact_Some _ _ _ (frame_header (blen p) (xxh3_64 p))))
      by (split; [apply blen_frame_header|eauto]).
    rewrite frame_header_magic, bool_decide_eq_true_2, frame_header_length, N.eqb_refl by done.
    cbn [negb]. rewrite (proj2 (read_exact_Some _ _ _ p)).
    + rewrite frame_header_checksum by apply xxh3_64_lt. by rewrite N.eqb_refl.
    + split; [done|]. exists g. apply (bdrop_add_app _ _ _ _ _ Hg). apply blen_frame_header.
Qed.

(** What is appended to a file does not change what is read from it. *)
Lemma read_frame_app f g off len p :
  read_frame f off len = inr p → read_frame (f ++ g) off len = inr p.
Proof.
  rewrite !read_frame_spec. intros (-> & Hb & r & Hr). split_and!; [done..|].
  exists (r ++ g). rewrite app_assoc, <- Hr. apply bdrop_app_le.
  destruct (N.le_gt_cases off (blen f)) as [|Hgt]; [done|exfalso].
  rewrite bdrop_all in Hr by lia. pose proof (blen_frame p) as L.
  by destruct (frame p); [unfold blen, FRAME_HEADER_LEN in L; simpl in L; lia|].
Qed.

Lemma read_frame_mid f p g :
  (blen p ≤ u32_max)%N → read_frame (f ++ frame p ++ g) (blen f) (blen p) = inr p.
Proof. intros Hb. apply read_frame_spec. split_and!; [done..|]. exists g. apply bdrop_app. Qed.

Lemma scan_frame_spec f off p :
  scan_frame f off = ScanFrame p ↔ (blen p ≤ u32_max)%N ∧ ∃ g, bdrop off f = frame p ++ g.
Proof.
  unfold scan_frame. split.
  - destruct (N.eqb_spec (blen f - off) 0); [done|].
    destruct (N.ltb_spec (blen f - off) FRAME_HEADER_LEN) as [|Hr]; [done|].
    set (h := btake _ _). case_bool_decide as Hm; [|done]. cbn [negb].
    destruct (N.ltb_spec (blen f - off) (FRAME_HEADER_LEN + header_length h)) as [|Hr2]; [done|].
    destruct (N.eqb_spec (xxh3_64 (btake (header_length h) (bdrop (off + FRAME_HEADER_LEN) f)))
      (header_checksum h)) as [Ec|]; [|done].
    cbn [negb]. intros [= Ep]. rewrite Ep in Ec.
    assert (blen h = FRAME_HEADER_LEN) as Lh by (subst h; autorewrite with bytes; lia).
    destruct (header_decompose h Lh Hm) as (Eh & Hb & _).
    assert (blen p = header_length h) as Lp
      by (rewrite <- Ep; autorewrite with bytes; unfold FRAME_HEADER_LEN in *; lia).
    split; [lia|]. exists (bdrop (header_length h) (bdrop (off + FRAME_HEADER_LEN) f)).
    unfold frame. rewrite Lp, Ec, <- Eh, <- Ep, <- app_assoc, btake_bdrop, <- bdrop_bdrop.
    symmetry. apply btake_bdrop.
  - intros (Hb & g & Hg). pose proof (f_equal blen Hg) as Hl.
    rewrite blen_bdrop, blen_app, blen_frame in Hl. unfold FRAME_HEADER_LEN in *.
    destruct (N.eqb_spec (blen f - off) 0); [lia|].
    destruct (N.ltb_spec (blen f - off) 16); [lia|].
    unfold frame in Hg. rewrite <- app_assoc in Hg.
    assert (btake 16 (bdrop off f) = frame_header (blen p) (xxh3_64 p)) as ->.
    { rewrite Hg. replace 16%N with (blen (frame_header (blen p) (xxh3_64 p)))
        by apply blen_frame_header. apply btake_app. }
    rewrite frame_header_magic, bool_decide_eq_true_2, frame_header_length by done. cbn [negb].
    destruct (N.ltb_spec (blen f - off) (16 + blen p)); [lia|].
    rewrite (bdrop_add_app _ 16 _ _ _ Hg (blen_frame_header _ _)).
    rewrite btake_app, frame_header_checksum by apply xxh3_64_lt. by rewrite N.eqb_refl.
Qed.

Lemma scan_frame_end f off : (blen f ≤ off)%N → scan_frame f off = ScanEnd.
Proof. intros E. unfold scan_frame. by rewrite (proj2 (N.eqb_eq (blen f - off) 0)) by lia. Qed.

Lemma scan_frame_not_end f off : (off < blen f)%N → scan_frame f off ≠ ScanEnd.
Proof.
  intros E. unfold scan_frame. rewrite (proj2 (N.eqb_neq (blen f - off) 0)) by lia.
  by repeat case_match.
Qed.

(** Frames of equal bytes hold equal payloads. *)
Lemma frame_app_inj p q g g' :
  (blen p ≤ u32_max)%N → (blen q ≤ u32_max)%N → frame p ++ g = frame q ++ g' → p = q ∧ g = g'.
Proof.
  intros Hp Hq E.
  assert (read_frame (frame p ++ g) 0 (blen p) = inr p) as Rp.
  { apply read_frame_spec. split_and!; [done..|]. by exists g. }
  assert (scan_frame (frame p ++ g) 0 = ScanFrame p) as S1 by (apply scan_frame_spec; eauto).
  assert (scan_frame (frame q ++ g') 0 = ScanFrame q) as S2 by (apply scan_frame_spec; eauto).
  rewrite E, S2 in S1. injection S1 as ->. split; [done|]. by apply app_inv_head in E.
Qed.

(** A frame cut short is never taken for one. *)
Lemma scan_frame_torn p n :
  (blen p ≤ u32_max)%N → (n < blen (frame p))%N →
  scan_frame (btake n (frame p)) 0 = if (n =? 0)%N then ScanEnd else ScanBad.
Proof.
  intros Hb Hn. destruct (N.eqb_spec n 0) as [->|Hz]; [by apply scan_frame_end|].
  destruct (scan_frame (btake n (frame p)) 0) as [| |q] eqn:E; [|done|].
  - exfalso. revert E. apply scan_frame_not_end. rewrite blen_btake. lia.
  - exfalso. apply scan_frame_spec in E as (Hq & g & Eg).
    change (bdrop 0 (btake n (frame p))) with (btake n (frame p)) in Eg.
    pose proof (btake_bdrop n (frame p)) as Ef. rewrite Eg, <- app_assoc in Ef.
    rewrite <- (app_nil_r (frame p)) in Ef.
    apply frame_app_inj in Ef as [-> _]; [|done..].
    apply (f_equal blen) in Eg. rewrite blen_btake, blen_app in Eg. lia.
Qed.

End frames.

#[export] Hint Rewrite @blen_frame @frames_app @blen_frame_header : bytes.

(** Every file is frames, then nothing or bytes that are no frame. *)
Lemma pack_decompose `{PackHashing} f :
  ∃ ps g, f = frames ps ++ g ∧ Forall (λ p, (blen p ≤ u32_max)%N) ps ∧
    ((g = [] ∧ scan_frame g 0 = ScanEnd) ∨ (g ≠ [] ∧ scan_frame g 0 = ScanBad)).
Proof.
  remember (length f) as n eqn:En. revert f En. induction n as [n IH] using lt_wf_ind.
  intros f ->. destruct (scan_frame f 0) as [| |p] eqn:E.
  - destruct f as [|b f]; [by exists [], []; auto|]. exfalso. revert E. apply scan_frame_not_end.
    unfold blen. simpl. lia.
  - exists [], f. split_and!; [done|done|]. right. split; [by intros ->|done].
  - apply scan_frame_spec in E as (Hb & r & Er). change (bdrop 0 f) with f in Er. subst f.
    pose proof (blen_frame p) as L. unfold FRAME_HEADER_LEN, blen in L.
    destruct (IH (length r) ltac:(rewrite length_app; lia) r eq_refl) as (ps & g & -> & Hps & Hg).
    exists (p :: ps), g. split_and!; [by rewrite frames_cons, app_assoc|by constructor|done].
Qed.

(** ** Tombstone logs *)

Lemma length_encode_log_record id h k : hash_ok h → length (encode_log_record id h k) = 48.
Proof.
  intros E. unfold encode_log_record. rewrite !length_app, length_le_bytes, length_replicate, E. done.
Qed.

Lemma from_byte_as_byte k : from_byte (as_byte k) = k.
Proof. by destruct k. Qed.

Lemma decode_encode_log_record id h k :
  hash_ok h → decode_log_record (encode_log_record id h k) = (k, h).
Proof.
  intros E. unfold decode_log_record. f_equal.
  - unfold encode_log_record. rewrite lookup_app_r; rewrite length_le_bytes; [|done].
    change (4 - 4) with 0. cbn. apply from_byte_as_byte.
  - unfold encode_log_record. rewrite !app_assoc.
    change 16%N with (blen ((le_bytes 4 id ++ [as_byte k]) ++ replicate 11 x00)).
    rewrite bdrop_app. apply btake_all. unfold blen. by rewrite E.
Qed.

Lemma log_records_go_fuel n1 n2 l :
  length l ≤ n1 → length l ≤ n2 → log_records_go n1 l = log_records_go n2 l.
Proof.
  revert n2 l. induction n1 as [|n1 IH]; intros [|n2] l H1 H2; try done.
  - destruct l; [done|simpl in *; lia].
  - destruct l; [done|simpl in *; lia].
  - cbn [log_records_go]. destruct (read_exact RECORD_LEN 0 l) as [r|] eqn:E; [|done].
    apply read_exact_Some in E as [L [g Hg]]. change (bdrop 0 l) with l in Hg.
    assert (blen l = RECORD_LEN + blen g)%N as Hl by (rewrite Hg, blen_app; lia).
    f_equal. assert (length (bdrop RECORD_LEN l) = length l - 48) as D by apply length_drop.
    unfold blen, RECORD_LEN in Hl. apply IH; lia.
Qed.

Lemma log_records_cons r l :
  blen r = RECORD_LEN → log_records (r ++ l) = decode_log_record r :: log_records l.
Proof.
  intros Hr. unfold log_records. assert (length r = 48) as Lr by (unfold blen, RECORD_LEN in Hr; lia).
  rewrite (log_records_go_fuel _ (S (length (r ++ l)))) by lia. cbn [log_records_go].
  rewrite (proj2 (read_exact_Some _ _ _ r)) by (split; [done|by exists l]).
  f_equal. rewrite <- Hr, bdrop_app. apply log_records_go_fuel; rewrite ?length_app; lia.
Qed.

(** What a log holds when only the store has written to it. *)
Definition log_bytes (id : N) (rs : list (TombstoneLogKind * BlobHash)) : bytes :=
  rs ≫= λ '(k, h), encode_log_record id h k.

Lemma log_bytes_app id rs rs' : log_bytes id (rs ++ rs') = log_bytes id rs ++ log_bytes id rs'.
Proof. apply bind_app. Qed.

(** A log reads back as the records written, in order; a record cut short at
    its end is ignored. *)
Lemma log_records_log_bytes id rs torn :
  Forall (λ r, hash_ok r.2) rs → (blen torn < RECORD_LEN)%N →
  log_records (log_bytes id rs ++ torn) = rs.
Proof.
  intros Hrs Ht. induction Hrs as [|[k h] rs Hh _ IH].
  - simpl. unfold log_records. destruct (length torn) as [|n] eqn:En; [done|]. cbn [log_records_go].
    destruct (read_exact RECORD_LEN 0 torn) as [r|] eqn:E; [|done].
    apply read_exact_Some in E as [L [g Hg]]. change (bdrop 0 torn) with torn in Hg.
    rewrite Hg, blen_app in Ht. lia.
  - change (log_bytes id ((k, h) :: rs)) with (encode_log_record id h k ++ log_bytes id rs).
    rewrite <- app_assoc, log_records_cons.
    + by rewrite decode_encode_log_record, IH.
    + unfold blen. by rewrite length_encode_log_record.
Qed.

(** ** File names *)

Lemma decimal_pad_digits k n : Forall is_digit (decimal_pad k n).
Proof.
  apply Forall_app. split; [|apply decimal_digits]. apply Forall_replicate. unfold is_digit. lia.
Qed.

Lemma strip_suffix_None p s : (∀ r, s ≠ r ++ p) → strip_suffix p s = None.
Proof.
  intros Hn. destruct (strip_suffix p s) as [r|] eqn:E; [|done].
  apply strip_suffix_Some in E. by destruct (Hn r).
Qed.

Lemma starts_with_data s : starts_with data_prefix (data_prefix ++ s) = true.
Proof. apply starts_with_spec. by exists s. Qed.

Lemma parse_sealed_name i :
  (i ≤ u32_max)%N → parse_pack_name (pack_path_sealed i) = Some (i, true).
Proof.
  intros Hi. unfold parse_pack_name, pack_path_sealed. rewrite starts_with_data.
  rewrite strip_suffix_None, app_assoc, strip_suffix_app.
  - cbv beta iota. rewrite strip_prefix_app. cbn [from_option id].
    by rewrite parse_decimal_pad.
  - intros r E. apply (f_equal last) in E. rewrite app_assoc, !last_app in E. by vm_compute in E.
Qed.

Lemma parse_open_name i :
  (i ≤ u32_max)%N → parse_pack_name (pack_path_open i) = Some (i, false).
Proof.
  intros Hi. unfold parse_pack_name, pack_path_open. rewrite starts_with_data.
  rewrite app_assoc, strip_suffix_app.
  cbv beta iota. rewrite strip_prefix_app. cbn [from_option id]. by rewrite parse_decimal_pad.
Qed.

Lemma parse_log_name i : parse_pack_name (tombstone_log_path i) = None.
Proof. done. Qed.

(** The names of packs and logs never meet. *)
Lemma sealed_name_inj i j : pack_path_sealed i = pack_path_sealed j → i = j.
Proof.
  unfold pack_path_sealed. intros E. apply app_inv_head, app_inv_tail in E.
  by apply (decimal_pad_inj 6).
Qed.

Lemma open_name_inj i j : pack_path_open i = pack_path_open j → i = j.
Proof.
  unfold pack_path_open. intros E. apply app_inv_head, app_inv_tail in E.
  by apply (decimal_pad_inj 6).
Qed.

Lemma log_name_inj i j : tombstone_log_path i = tombstone_log_path j → i = j.
Proof.
  unfold tombstone_log_path. intros E. apply app_inv_head, app_inv_tail in E.
  by apply (decimal_pad_inj 6).
Qed.

Lemma sealed_open_ne i j : pack_path_sealed i ≠ pack_path_open j.
Proof.
  intros E. apply (f_equal last) in E. unfold pack_path_sealed, pack_path_open in E.
  rewrite !app_assoc, !last_app in E. by vm_compute in E.
Qed.

Lemma sealed_log_ne i j : pack_path_sealed i ≠ tombstone_log_path j.
Proof. done. Qed.

Lemma open_log_ne i j : pack_path_open i ≠ tombstone_log_path j.
Proof. done. Qed.

#[export] Hint Resolve sealed_open_ne sealed_log_ne open_log_ne : pack.
