(* ===== verification/PackStore.v ===== *)
(** * The blob store: packs, index, writer

    src/crates/stores/src/attachment_pack.rs.  The disk is the directory of pack
    and log files (name to contents) and the rows of [attachment_blobs] (content
    hash to pack, offset, length and whether [tombstoned_at] is set); the store
    adds the writer, the open pack behind the mutex.  An operation is a function
    of the state that returns an error or a result and the state it leaves
    behind; a SQL statement or a transaction is one step.

    [faults] is the schedule of device and database failures: every call that
    reaches the file system or SQLite takes the head of the list, and an empty
    list means that nothing fails from here on.  A failing write may have
    written a part of its bytes. *)

From S2P Require Import Prelude.
From S2P Require Import Strings.
From S2P Require Import Bytes.
From S2P Require Import PackFormat.
From stdpp Require Import sorting.

(** ** State *)

Inductive fault := Healthy | Broken (written : N).

(** A row of [attachment_blobs] under its [content_hash]. *)
Record row := Row { r_pack : N; r_offset : N; r_length : N; r_tombstoned : bool }.

Abbreviation index := (gmap BlobHash row).

Record disk := Disk { dir : gmap str bytes; rows : index; faults : list fault }.

(** [OpenPack]: its file handle is the name of the file it writes and the
    position of the next write. *)
Record OpenPack := mkOpenPack { pack_id : N; file_path : str; file_cursor : N; offset : N }.

(** [Inner] *)
Record store := Store { on : disk; writer : OpenPack; target_size : N }.

#[export] Instance row_eq_dec : EqDecision row.
Proof. solve_decision. Defined.
#[export] Instance fault_eq_dec : EqDecision fault.
Proof. solve_decision. Defined.
#[export] Instance disk_eq_dec : EqDecision disk.
Proof. solve_decision. Defined.
#[export] Instance OpenPack_eq_dec : EqDecision OpenPack.
Proof. solve_decision. Defined.
#[export] Instance store_eq_dec : EqDecision store.
Proof. solve_decision. Defined.

(** ** Computations: [Result] over a state *)

Definition M (S A : Type) : Type := S → (PackError + A) * S.

#[export] Instance M_ret S : MRet (M S) := λ A a s, (inr a, s).
#[export] Instance M_bind S : MBind (M S) := λ A B f m s,
  match m s with
  | (inr a, s') => f a s'
  | (inl e, s') => (inl e, s')
  end.

Definition fail {S A} (e : PackError) : M S A := λ s, (inl e, s).

(** [.ok()] and [if let Err]: the error becomes a value. *)
Definition attempt {S A} (m : M S A) : M S (PackError + A) := λ s, let '(r, s') := m s in (inr r, s').

Fixpoint for_each {S A} (f : A → M S unit) (l : list A) : M S unit :=
  match l with
  | [] => mret ()
  | a :: l => f a;; for_each f l
  end.

Fixpoint fold_m {S A B} (f : B → A → M S B) (l : list A) (b : B) : M S B :=
  match l with
  | [] => mret b
  | a :: l => b ← f b a; fold_m f l b
  end.

Definition get_state {S} : M S S := λ s, (inr s, s).

(** A computation on the disk, run by the store. *)
Definition lift {A} (m : M disk A) : M store A := λ s,
  let '(r, d) := m (on s) in (r, Store d (writer s) (target_size s)).

Definition set_writer (w : OpenPack) : M store unit := λ s, (inr (), Store (on s) w (target_size s)).

(** ** The file system and SQLite *)

(** The next entry of the schedule: how much of a write gets done, if it
    fails. *)
Definition device : M disk (option N) := λ d,
  match faults d with
  | [] => (inr None, d)
  | Healthy :: fs => (inr None, Disk (dir d) (rows d) fs)
  | Broken n :: fs => (inr (Some n), Disk (dir d) (rows d) fs)
  end.

Definition io : M disk unit :=
  f ← device; match f with None => mret () | Some _ => fail (Io DeviceFault) end.

Definition sql : M disk unit :=
  f ← device; match f with None => mret () | Some _ => fail Sql end.

Definition set_dir (f : gmap str bytes → gmap str bytes) : M disk unit := λ d,
  (inr (), Disk (f (dir d)) (rows d) (faults d)).

Definition set_rows (f : index → index) : M disk unit := λ d,
  (inr (), Disk (dir d) (f (rows d)) (faults d)).

(** [query_row], [prepare] and [query_map]; [execute] and transactions *)
Definition query {A} (f : index → A) : M disk A := sql;; d ← get_state; mret (f (rows d)).
Definition execute (f : index → index) : M disk unit := sql;; set_rows f.

(** [File::open] of an existing file: its contents. *)
Definition file_open (path : str) : M disk bytes :=
  io;; d ← get_state;
  match dir d !! path with Some c => mret c | None => fail (Io NotFound) end.

(** [OpenOptions::create_new] *)
Definition file_create_new (path : str) : M disk unit :=
  io;; d ← get_state;
  match dir d !! path with
  | Some _ => fail (Io AlreadyExists)
  | None => set_dir <[path := []]>
  end.

(** [OpenOptions::create(true).append(true)], without a write *)
Definition file_touch (path : str) : M disk unit :=
  io;; set_dir (λ fs, <[path := from_option id [] (fs !! path)]> fs).

(** The contents after writing [b] at a position: a gap is filled with zeros. *)
Definition write_at (pos : N) (b c : bytes) : bytes :=
  resize (N.to_nat pos) x00 c ++ b ++ bdrop (pos + blen b) c.

(** [write_all] at the cursor of a handle: the new cursor, and whether all the
    bytes were written. *)
Definition file_write (path : str) (pos : N) (b : bytes) : M disk (N * bool) :=
  f ← device;
  let done := from_option (λ n, btake n b) b f in
  set_dir (alter (write_at pos done) path);;
  mret (pos + blen done, negb (bool_decide (is_Some f)))%N.

(** Open for append, [write_all], [sync_all] *)
Definition file_append (path : str) (b : bytes) : M disk unit :=
  file_touch path;;
  d ← get_state;
  r ← file_write path (blen (from_option id [] (dir d !! path))) b;
  if r.2 : bool then io else fail (Io DeviceFault).

Definition file_set_len (path : str) (n : N) : M disk unit :=
  io;; set_dir (alter (λ c, resize (N.to_nat n) x00 c) path).

Definition file_rename (old new : str) : M disk unit :=
  io;; d ← get_state;
  match dir d !! old with
  | None => fail (Io NotFound)
  | Some c => set_dir (λ fs, <[new := c]> (delete old fs))
  end.

Definition file_remove (path : str) : M disk unit :=
  io;; d ← get_state;
  match dir d !! path with
  | None => fail (Io NotFound)
  | Some _ => set_dir (delete path)
  end.

(** ** Enumerating packs *)

(** [sort_by_key] on the pack id *)
Definition pack_le (a b : N * bool) : Prop := (a.1 ≤ b.1)%N.
#[export] Instance pack_le_dec : RelDecision pack_le.
Proof. intros a b. unfold pack_le. apply _. Defined.

Definition packs_of (fs : gmap str bytes) : list (N * bool) :=
  merge_sort pack_le (omap (λ e, parse_pack_name e.1) (map_to_list fs)).

Definition list_packs : M disk (list (N * bool)) := io;; d ← get_state; mret (packs_of (dir d)).

Definition next_id (packs : list (N * bool)) : N :=
  match packs with
  | [] => 0
  | _ => sat_add_u32 (foldr N.max 0%N (packs.*1)) 1
  end.

Definition next_pack_id : M disk N := packs ← list_packs; mret (next_id packs).

(** ** The tombstone log *)

Definition append_tombstone_log_record (id : N) (h : BlobHash) (k : TombstoneLogKind)
    : M disk unit :=
  file_append (tombstone_log_path id) (encode_log_record id h k).

Definition append_tombstone_log_batch (id : N) (hs : list BlobHash) (k : TombstoneLogKind)
    : M disk unit :=
  if is_nil hs then mret ()
  else file_append (tombstone_log_path id) (hs ≫= λ h, encode_log_record id h k).

(** ** Index statements *)

Definition set_tombstoned (b : bool) (r : row) : row :=
  Row (r_pack r) (r_offset r) (r_length r) b.

(** [UPDATE ... SET tombstoned_at = ... WHERE content_hash = ?1] *)
Definition mark (b : bool) (h : BlobHash) (t : index) : index := alter (set_tombstoned b) h t.

(** [INSERT OR IGNORE] of a new row *)
Definition insert_or_ignore (h : BlobHash) (r : row) (t : index) : index :=
  match t !! h with Some _ => t | None => <[h := r]> t end.

(** [INSERT OR REPLACE] with the subquery that keeps [tombstoned_at] *)
Definition upsert (h : BlobHash) (id off len : N) (t : index) : index :=
  <[h := Row id off len (from_option r_tombstoned false (t !! h))]> t.

(** ** Recovery *)

Definition open_existing_open_pack (id : N) : M disk OpenPack :=
  c ← file_open (pack_path_open id);
  io;; file_touch (tombstone_log_path id);;
  mret (mkOpenPack id (pack_path_open id) (blen c) (blen c)).

Definition create_new_open_pack (id : N) : M disk OpenPack :=
  file_create_new (pack_path_open id);; io;;
  file_touch (tombstone_log_path id);;
  mret (mkOpenPack id (pack_path_open id) 0 0).

Section with_hashing.
Context `{PackHashing}.

(** The loop of [recover_open_pack] on the contents read when it starts.  A
    frame takes at least 16 bytes, so the length of the file bounds the turns;
    the fuel never runs out (recover_loop_fuel). *)
Fixpoint recover_loop (fuel : nat) (id : N) (file : bytes) (off : N) : M disk unit :=
  match fuel with
  | O => mret ()
  | S fuel =>
      match scan_frame file off with
      | ScanEnd => mret ()
      | ScanBad => file_set_len (pack_path_open id) off;; io
      | ScanFrame payload =>
          execute (upsert (blake3 payload) id off (blen payload));;
          recover_loop fuel id file (sat_add_u64 off (FRAME_HEADER_LEN + blen payload))
      end
  end.

Definition recover_open_pack (id : N) : M disk unit :=
  file ← file_open (pack_path_open id);
  recover_loop (S (length file)) id file 0.

(** A stale destination and its log; errors are ignored. *)
Definition remove_stale (writer_id id : N) : M disk unit :=
  if (id =? writer_id)%N then mret ()
  else
    attempt (file_remove (pack_path_open id));;
    attempt (file_remove (tombstone_log_path id));;
    mret ().

(** The ids of the open packs, in order. *)
Definition open_ids (packs : list (N * bool)) : list N :=
  omap (λ p : N * bool, if p.2 then None else Some p.1) packs.

Definition recover_and_open_current_pack : M disk OpenPack :=
  packs ← list_packs;
  let opens := open_ids packs in
  match opens with
  | [] => id ← next_pack_id; create_new_open_pack id
  | [id] => recover_open_pack id;; open_existing_open_pack id
  | first :: _ =>
      let writer_id := foldr N.min first opens in
      for_each (remove_stale writer_id) opens;;
      recover_open_pack writer_id;;
      open_existing_open_pack writer_id
  end.

(** [PackStore::open] *)
Definition open_store (d : disk) (target : N) : (PackError + store) * disk :=
  let '(r, d) := recover_and_open_current_pack d in
  match r with
  | inl e => (inl e, d)
  | inr w => (inr (Store d w target), d)
  end.

(** ** Rotation *)

Definition seal_open_pack : M store unit :=
  s ← get_state;
  let w := writer s in
  file ← lift (file_open (file_path w));
  match frame_count_in_open_pack file (offset w) with
  | inl cursor =>
      set_writer (mkOpenPack (pack_id w) (file_path w) cursor (offset w));;
      fail (Io UnexpectedEof)
  | inr frame_count =>
      r ← lift (file_write (file_path w) (offset w) (pack_tail frame_count));
      let cursor := r.1 in
      set_writer (mkOpenPack (pack_id w) (file_path w) cursor (offset w));;
      if negb r.2 then fail (Io DeviceFault)
      else
        lift io;;
        lift (file_rename (pack_path_open (pack_id w)) (pack_path_sealed (pack_id w)));;
        set_writer (mkOpenPack (pack_id w) (pack_path_sealed (pack_id w)) cursor (offset w))
  end.

Definition rotate_pack : M store unit :=
  seal_open_pack;;
  id ← lift next_pack_id;
  w ← lift (create_new_open_pack id);
  set_writer w.

Definition rotate_open_pack : M store unit :=
  s ← get_state;
  if (offset (writer s) =? 0)%N then mret () else rotate_pack.

(** [flush]: [sync_all] on the open pack. *)
Definition flush : M store unit := lift io.

(** ** Writing blobs *)

Inductive PutDedup := Live | Tombstoned (id : N) | NotPresent.

Definition classify (h : BlobHash) (t : index) : PutDedup :=
  match t !! h with
  | None => NotPresent
  | Some r => if r_tombstoned r then Tombstoned (r_pack r) else Live
  end.

(** The query's error is taken for a missing row. *)
Definition classify_existing_blob (h : BlobHash) : M disk PutDedup :=
  r ← attempt (query (classify h));
  mret (match r with inl _ => NotPresent | inr c => c end).

(** The revival of a tombstoned row: log first, then the index. *)
Definition revive (id : N) (h : BlobHash) : M disk unit :=
  append_tombstone_log_record id h Revive;;
  execute (mark false h).

(** [writer.file.write_all] *)
Definition writer_write (b : bytes) : M store unit :=
  s ← get_state;
  let w := writer s in
  r ← lift (file_write (file_path w) (file_cursor w) b);
  set_writer (mkOpenPack (pack_id w) (file_path w) r.1 (offset w));;
  if r.2 : bool then mret () else fail (Io DeviceFault).

(** Rotation when the frame would take the pack past the target. *)
Definition rotate_if_full (frame_len : N) : M store unit :=
  s ← get_state;
  if ((0 <? offset (writer s)) && (target_size s <? sat_add_u64 (offset (writer s)) frame_len))%N
  then rotate_pack else mret ().

(** The frame at the writer's cursor, its row at the writer's offset. *)
Definition write_frame (p : bytes) (h : BlobHash) : M store unit :=
  s ← get_state;
  let frame_offset := offset (writer s) in
  writer_write (frame_header (blen p) (xxh3_64 p));;
  writer_write p;;
  lift io;;
  lift (execute (insert_or_ignore h (Row (pack_id (writer s)) frame_offset (blen p) false)));;
  s ← get_state;
  let w := writer s in
  set_writer (mkOpenPack (pack_id w) (file_path w) (file_cursor w)
                         (sat_add_u64 (offset w) (FRAME_HEADER_LEN + blen p))).

(** The part of [put] that holds the writer and stores a new blob. *)
Definition put_frame (p : bytes) (h : BlobHash) : M store unit :=
  rotate_if_full (FRAME_HEADER_LEN + blen p);; write_frame p h.

Definition put (p : bytes) : M store BlobHash :=
  let h := blake3 p in
  if (MAX_FRAME_PAYLOAD <? blen p)%N then fail (TooLarge (blen p))
  else
    fast_hit ← lift (classify_existing_blob h);
    match fast_hit with
    | Live => mret h
    | Tombstoned id => lift (revive id h);; mret h
    | NotPresent =>
        classified ← lift (classify_existing_blob h);
        match classified with
        | Live => mret h
        | Tombstoned id => lift (revive id h);; mret h
        | NotPresent => put_frame p h;; mret h
        end
    end.

(** ** Reading blobs *)

(** [read_frame_payload]: the sealed pack, or the open one when there is none. *)
Definition read_frame_payload (id off len : N) : M disk bytes :=
  r ← attempt (file_open (pack_path_sealed id));
  c ← match r with
      | inr c => mret c
      | inl (Io NotFound) => file_open (pack_path_open id)
      | inl e => fail e
      end;
  io;;
  match read_frame c off len with inl e => fail e | inr p => mret p end.

(** What other threads do while no lock is held. *)
Definition interfere (f : disk → disk) : M disk unit := λ d, (inr (), f d).

Definition MAX_GET_GC_RETRIES : nat := 4.

(** The loop of [get].  The lookup gives the database lock back before the pack
    is opened: [env (2 * i)] happens before the lookup of attempt [i], and
    [env (2 * i + 1)] between the lookup and the opening of the file. *)
Fixpoint get_loop (env : nat → disk → disk) (turns : nat) (i : nat) (last_location : option (N * N))
    (h : BlobHash) : M disk (option bytes) :=
  match turns with
  | O => fail Corruption
  | S turns =>
      interfere (env (2 * i));;
      found ← attempt (query (λ t : index, t !! h));
      match found with
      | inl _ | inr None => mret None
      | inr (Some r) =>
          if r_tombstoned r then mret None
          else
            interfere (env (2 * i + 1));;
            let current := (r_pack r, r_offset r) in
            res ← attempt (read_frame_payload (r_pack r) (r_offset r) (r_length r));
            match res with
            | inr p => if bool_decide (blake3 p = h) then mret (Some p) else fail Corruption
            | inl (Io NotFound) =>
                if (0 <? i) && bool_decide (last_location = Some current) then fail (Io NotFound)
                else get_loop env turns (S i) (Some current) h
            | inl e => fail e
            end
      end
  end.

Definition get_with (env : nat → disk → disk) (h : BlobHash) : M disk (option bytes) :=
  get_loop env MAX_GET_GC_RETRIES 0 None h.

(** With nothing else running. *)
Definition get (h : BlobHash) : M disk (option bytes) := get_with (λ _ d, d) h.

Definition rows_list (t : index) : list (BlobHash * row) := map_to_list t.

Definition total_length (l : list (BlobHash * row)) : N := foldr (λ e n, r_length e.2 + n)%N 0%N l.

Definition is_live (e : BlobHash * row) : bool := negb (r_tombstoned e.2).
Definition is_dead (e : BlobHash * row) : bool := r_tombstoned e.2.

(** [size_breakdown]: live and tombstoned bytes. *)
Definition size_breakdown : M disk (N * N) :=
  query (λ t, (total_length (List.filter is_live (rows_list t)),
               total_length (List.filter is_dead (rows_list t)))).

(** ** Eviction *)

Definition live_pack (h : BlobHash) (t : index) : option N :=
  r ← t !! h; if r_tombstoned r then None else Some (r_pack r).

Definition tombstone (h : BlobHash) : M disk unit :=
  found ← attempt (query (live_pack h));
  match found with
  | inl _ | inr None => mret ()
  | inr (Some id) =>
      append_tombstone_log_record id h Tombstone;;
      execute (mark true h)
  end.

(** [by_pack.entry(pack_id).or_default().push(hash)] *)
Definition group_by_pack (live : list (BlobHash * row)) : gmap N (list BlobHash) :=
  foldl (λ m e, <[r_pack e.2 := from_option id [] (m !! r_pack e.2) ++ [e.1]]> m) ∅ live.

Definition tombstone_all_live : M disk N :=
  live ← query (λ t, List.filter is_live (rows_list t));
  if is_nil live then mret 0%N
  else
    for_each (λ e : N * list BlobHash, append_tombstone_log_batch e.1 e.2 Tombstone)
      (map_to_list (group_by_pack live));;
    affected ← query (λ t, N.of_nat (length (List.filter is_live (rows_list t))));
    set_rows (fmap (set_tombstoned true));;
    mret affected.

(** ** Garbage collection *)

Record GcStats := mkGcStats {
  packs_compacted : N;
  blobs_dropped : N;
  bytes_reclaimed : N
}.

Definition rows_in (id : N) (t : index) : list (BlobHash * row) :=
  List.filter (λ e, (r_pack e.2 =? id)%N) (rows_list t).

(** Rows, tombstoned rows and their bytes. *)
Definition density (id : N) (t : index) : N * N * N :=
  let dead := List.filter is_dead (rows_in id t) in
  (N.of_nat (length (rows_in id t)), N.of_nat (length dead), total_length dead).

Definition pack_density (id : N) : M disk (N * N * N) := query (density id).

(** [write_all] on the destination's handle. *)
Definition dst_write (path : str) (pos : N) (b : bytes) : M disk unit :=
  r ← file_write path pos b;
  if r.2 : bool then mret () else fail (Io DeviceFault).

(** [read_exact], or the error of a file that is too short *)
Definition read_or_eof (n off : N) (file : bytes) : M disk bytes :=
  match read_exact n off file with Some b => mret b | None => fail (Io UnexpectedEof) end.

(** The rows of the destination, its length and its number of frames. *)
Record copied := Copied { new_offsets : list (BlobHash * N); dst_offset : N; frame_count : N }.

Definition copy_frame (dst_path : str) (src : bytes) (acc : copied) (e : BlobHash * row)
    : M disk copied :=
  io;;
  header ← read_or_eof FRAME_HEADER_LEN (r_offset e.2) src;
  if negb (bool_decide (header_magic header = FRAME_MAGIC)) then fail Corruption
  else
    payload ← read_or_eof (r_length e.2) (r_offset e.2 + FRAME_HEADER_LEN) src;
    dst_write dst_path (dst_offset acc) header;;
    dst_write dst_path (dst_offset acc + FRAME_HEADER_LEN) payload;;
    mret (Copied (new_offsets acc ++ [(e.1, dst_offset acc)])
                 (sat_add_u64 (dst_offset acc) (FRAME_HEADER_LEN + r_length e.2))
                 (sat_add_u32 (frame_count acc) 1)).

(** The first lock: the destination's id and file. *)
Definition compact_allocate : M disk N :=
  dst ← next_pack_id;
  file_create_new (pack_path_open dst);;
  mret dst.

Definition compact_scan (src : N) : M disk (list (BlobHash * row)) :=
  query (λ t, List.filter is_live (rows_in src t)).

Definition compact_copy (src dst : N) (live : list (BlobHash * row)) : M disk copied :=
  file ← file_open (pack_path_sealed src);
  fold_m (copy_frame (pack_path_open dst) file) live (Copied [] 0 0).

Definition compact_seal (dst : N) (c : copied) : M disk unit :=
  dst_write (pack_path_open dst) (dst_offset c) (pack_tail (frame_count c));;
  io;;
  file_rename (pack_path_open dst) (pack_path_sealed dst).

(** The transaction's statements. *)
Definition repoint (dst : N) (t : index) (e : BlobHash * N) : index :=
  alter (λ r, Row dst e.2 (r_length r) (r_tombstoned r)) e.1 t.

Definition delete_dead (src : N) (t : index) : index :=
  filter (λ e, ¬ (r_pack e.2 = src ∧ r_tombstoned e.2 = true)) t.

Definition swap_rows (src dst : N) (offs : list (BlobHash * N)) (t : index) : index :=
  delete_dead src (foldl (repoint dst) t offs).

Definition compact_swap (src dst : N) (c : copied) : M disk unit :=
  execute (swap_rows src dst (new_offsets c)).

Definition compact_unlink (src : N) : M disk unit :=
  attempt (file_remove (pack_path_sealed src));;
  attempt (file_remove (tombstone_log_path src));;
  mret ().

Definition compact_pack (src : N) : M disk unit :=
  dst ← compact_allocate;
  live ← compact_scan src;
  c ← compact_copy src dst live;
  compact_seal dst c;;
  compact_swap src dst c;;
  compact_unlink src.

(** One turn of [run_gc].  [below_threshold dead total] is [dead as f32 / total
    as f32 < density_threshold], the one computation on floating-point
    numbers. *)
Definition gc_pack (below_threshold : N → N → bool) (stats : GcStats) (p : N * bool) : M disk GcStats :=
  if negb p.2 then mret stats
  else
    found ← pack_density p.1;
    let '(total, dead, dead_bytes) := found : N * N * N in
    if (total =? 0)%N then mret stats
    else if below_threshold dead total then mret stats
    else
      compact_pack p.1;;
      mret (mkGcStats (sat_add_u32 (packs_compacted stats) 1)
                      (sat_add_u64 (blobs_dropped stats) dead)
                      (sat_add_u64 (bytes_reclaimed stats) dead_bytes)).

Definition run_gc (below_threshold : N → N → bool) : M disk GcStats :=
  packs ← list_packs; fold_m (gc_pack below_threshold) packs (mkGcStats 0 0 0).

(** ** Rebuilding the index *)

Record RebuildStats := mkRebuildStats {
  packs_walked : N;
  frames_indexed : N;
  tombstones_replayed : N
}.

(** The loop of [rebuild_index_walk_sealed_pack]; fuel as in [recover_loop]. *)
Fixpoint walk_loop (fuel : nat) (id : N) (file : bytes) (off indexed : N) : M disk N :=
  match fuel with
  | O => mret indexed
  | S fuel =>
      if (blen file - off <? FRAME_HEADER_LEN)%N then mret indexed
      else if bool_decide (header_magic (btake FRAME_HEADER_LEN (bdrop off file)) = TAIL_MAGIC)
      then mret indexed
      else
        match scan_frame file off with
        | ScanEnd | ScanBad => mret indexed
        | ScanFrame payload =>
            execute (upsert (blake3 payload) id off (blen payload));;
            walk_loop fuel id file (sat_add_u64 off (FRAME_HEADER_LEN + blen payload)) (indexed + 1)
        end
  end.

Definition rebuild_index_walk_sealed_pack (id : N) : M disk N :=
  file ← file_open (pack_path_sealed id);
  walk_loop (S (length file)) id file 0 0.

(** Whether the UPDATE for a log record touches a row. *)
Definition replay_applies (r : TombstoneLogKind * BlobHash) (t : index) : bool :=
  match t !! r.2, r.1 with
  | Some x, Tombstone => negb (r_tombstoned x)
  | Some x, Revive => r_tombstoned x
  | None, _ => false
  end.

Definition replay_update (r : TombstoneLogKind * BlobHash) (t : index) : index :=
  if replay_applies r t
  then mark (match r.1 with Tombstone => true | Revive => false end) r.2 t else t.

Definition replay_record (replayed : N) (r : TombstoneLogKind * BlobHash) : M disk N :=
  applies ← query (replay_applies r);
  set_rows (replay_update r);;
  mret (if applies : bool then sat_add_u64 replayed 1 else replayed).

Definition rebuild_index_replay_tombstone_log (id : N) : M disk N :=
  r ← attempt (file_open (tombstone_log_path id));
  match r with
  | inl (Io NotFound) => mret 0%N
  | inl e => fail e
  | inr log => fold_m replay_record (log_records log) 0%N
  end.

(** The packs both passes visit: sealed and not the writer's. *)
Definition rebuild_packs (open_pack_id : N) (packs : list (N * bool)) : list N :=
  omap (λ p : N * bool, if negb p.2 || (p.1 =? open_pack_id)%N then None else Some p.1) packs.

(** One turn of each of the two passes. *)
Definition rebuild_walk (acc : N * N) (id : N) : M disk (N * N) :=
  n ← rebuild_index_walk_sealed_pack id; mret (sat_add_u32 acc.1 1, sat_add_u64 acc.2 n).

Definition rebuild_replay (acc : N) (id : N) : M disk N :=
  n ← rebuild_index_replay_tombstone_log id; mret (sat_add_u64 acc n).

Definition run_rebuild_index : M store RebuildStats :=
  s ← get_state;
  packs ← lift list_packs;
  let ids := rebuild_packs (pack_id (writer s)) packs in
  walked ← lift (fold_m rebuild_walk ids (0, 0)%N);
  replayed ← lift (fold_m rebuild_replay ids 0%N);
  mret (mkRebuildStats walked.1 walked.2 replayed).

(** ** Orphans *)

(** One turn of the sweep; an error of the count is taken for zero rows. *)
Definition sweep_pack (open_id : N) (unlinked : N) (p : N * bool) : M disk N :=
  if negb p.2 || (p.1 =? open_id)%N then mret unlinked
  else
    r ← attempt (query (λ t, N.of_nat (length (rows_in p.1 t))));
    if (0 <? match r with inr n => n | inl _ => 0 end)%N then mret unlinked
    else
      attempt (file_remove (pack_path_sealed p.1));;
      attempt (file_remove (tombstone_log_path p.1));;
      mret (sat_add_u32 unlinked 1).

Definition sweep_orphan_sealed_packs : M store N :=
  s ← get_state;
  lift (packs ← list_packs; fold_m (sweep_pack (pack_id (writer s))) packs 0%N).

End with_hashing.
