(* ===== verification/PackRun.v ===== *)
(** * The blob store: what each step does when nothing fails

    The equations of the file system, SQLite and directory scans on a disk
    without faults, and the facts about pack names that the operations rest
    on: which packs a directory has, and that a new id is new. *)

From S2P Require Import Prelude.
From S2P Require Import Strings.
From S2P Require Import Bytes.
From S2P Require Import PackFormat.
From S2P Require Import PackFormatTheory.
From S2P Require Import PackStore.
From stdpp Require Import sorting.

(** ** Computations *)

Lemma bind_inr {S A B} (m : M S A) (f : A → M S B) s a s' :
  m s = (inr a, s') → (m ≫= f) s = f a s'.
Proof. intros E. unfold mbind, M_bind. by rewrite E. Qed.

Lemma bind_inl {S A B} (m : M S A) (f : A → M S B) s e s' :
  m s = (inl e, s') → (m ≫= f) s = (inl e, s').
Proof. intros E. unfold mbind, M_bind. by rewrite E. Qed.

Lemma attempt_run {S A} (m : M S A) s r s' : m s = (r, s') → attempt m s = (inr r, s').
Proof. unfold attempt. by intros ->. Qed.

Lemma lift_run {A} (m : M disk A) s r d :
  m (on s) = (r, d) → lift m s = (r, Store d (writer s) (target_size s)).
Proof. unfold lift. by intros ->. Qed.

Lemma bind_state {S B} (f : S → M S B) (s : S) : (get_state ≫= f) s = f s s.
Proof. done. Qed.

(** One statement of a computation, by its equation. *)
Ltac run_step E := rewrite (bind_inr _ _ _ _ _ E).

(** A loop whose body returns at every element keeps what every turn keeps. *)
Lemma for_each_run {S A} (f : A → M S unit) (P : list A → S → Prop) l s :
  P l s →
  (∀ a l s, P (a :: l) s → ∃ s', f a s = (inr (), s') ∧ P l s') →
  ∃ s', for_each f l s = (inr (), s') ∧ P [] s'.
Proof.
  intros Hs Hf. revert s Hs. induction l as [|a l IH]; intros s Hs; [by exists s|].
  destruct (Hf a l s Hs) as (s1 & E1 & H1). destruct (IH s1 H1) as (s2 & E2 & H2).
  exists s2. split; [|done]. cbn [for_each]. by rewrite (bind_inr _ _ _ _ _ E1).
Qed.

Lemma fold_m_run {S A B} (f : B → A → M S B) (P : list A → B → S → Prop) l b s :
  P l b s →
  (∀ a l b s, P (a :: l) b s → ∃ b' s', f b a s = (inr b', s') ∧ P l b' s') →
  ∃ b' s', fold_m f l b s = (inr b', s') ∧ P [] b' s'.
Proof.
  intros Hs Hf. revert b s Hs. induction l as [|a l IH]; intros b s Hs; [by exists b, s|].
  destruct (Hf a l b s Hs) as (b1 & s1 & E1 & H1). destruct (IH b1 s1 H1) as (b2 & s2 & E2 & H2).
  exists b2, s2. split; [|done]. cbn [fold_m]. by rewrite (bind_inr _ _ _ _ _ E1).
Qed.

(** ** A disk without faults *)

Definition healthy (fs : gmap str bytes) (t : index) : disk := Disk fs t [].

Section runs.
Implicit Types (fs : gmap str bytes) (t : index).

Lemma io_run fs t : io (healthy fs t) = (inr (), healthy fs t).
Proof. done. Qed.

Lemma query_run {A} (f : index → A) fs t : query f (healthy fs t) = (inr (f t), healthy fs t).
Proof. done. Qed.

Lemma execute_run f fs t : execute f (healthy fs t) = (inr (), healthy fs (f t)).
Proof. done. Qed.

Lemma file_open_run path c fs t :
  fs !! path = Some c → file_open path (healthy fs t) = (inr c, healthy fs t).
Proof. intros E. unfold file_open. run_step (io_run fs t). rewrite bind_state. cbn [dir healthy]. by rewrite E. Qed.

Lemma file_open_missing path fs t :
  fs !! path = None → file_open path (healthy fs t) = (inl (Io NotFound), healthy fs t).
Proof. intros E. unfold file_open. run_step (io_run fs t). rewrite bind_state. cbn [dir healthy]. by rewrite E. Qed.

Lemma file_create_new_run path fs t :
  fs !! path = None →
  file_create_new path (healthy fs t) = (inr (), healthy (<[path := []]> fs) t).
Proof. intros E. unfold file_create_new. run_step (io_run fs t). rewrite bind_state. cbn [dir healthy]. by rewrite E. Qed.

Lemma file_touch_run path fs t :
  file_touch path (healthy fs t) =
  (inr (), healthy (<[path := from_option id [] (fs !! path)]> fs) t).
Proof. done. Qed.

Lemma resize_all (n : nat) (c : bytes) : n = length c → resize n x00 c = c.
Proof. intros ->. apply resize_all. Qed.

Lemma write_at_end b c : write_at (blen c) b c = c ++ b.
Proof.
  unfold write_at. rewrite resize_all by (unfold blen; lia).
  rewrite bdrop_all by lia. by rewrite app_nil_r.
Qed.

Lemma file_write_run path pos b c fs t :
  fs !! path = Some c → pos = blen c →
  file_write path pos b (healthy fs t) =
  (inr ((pos + blen b)%N, true), healthy (<[path := c ++ b]> fs) t).
Proof.
  intros E ->. unfold file_write.
  rewrite (bind_inr device _ (healthy fs t) None (healthy fs t) eq_refl). cbn [from_option is_Some_dec].
  run_step (eq_refl : set_dir (alter (write_at (blen c) b) path) (healthy fs t) =
    (inr (), healthy (alter (write_at (blen c) b) path fs) t)).
  unfold mret, M_ret, healthy. do 3 f_equal.
  apply map_eq. intros q. destruct (decide (q = path)) as [->|Hne].
  - rewrite lookup_alter_eq, lookup_insert_eq, E. simpl. by rewrite write_at_end.
  - by rewrite lookup_alter_ne, lookup_insert_ne by done.
Qed.

Lemma file_append_run path b fs t :
  file_append path b (healthy fs t) =
  (inr (), healthy (<[path := from_option id [] (fs !! path) ++ b]> fs) t).
Proof.
  unfold file_append. run_step (file_touch_run path fs t).
  set (c := from_option id [] (fs !! path)).
  rewrite bind_state. cbn [dir healthy].
  rewrite lookup_insert_eq. cbn [from_option id].
  rewrite (bind_inr _ _ _ _ _ (file_write_run path (blen c) b c (<[path:=c]> fs) t (lookup_insert_eq _ _ _) eq_refl)).
  cbn [snd]. rewrite io_run. by rewrite insert_insert_eq.
Qed.

Lemma file_set_len_run path n c fs t :
  fs !! path = Some c → (n ≤ blen c)%N →
  file_set_len path n (healthy fs t) = (inr (), healthy (<[path := btake n c]> fs) t).
Proof.
  intros E Hn. unfold file_set_len. run_step (io_run fs t).
  unfold set_dir, healthy. cbn [dir rows faults]. do 3 f_equal.
  apply map_eq. intros q. destruct (decide (q = path)) as [->|Hne].
  - rewrite lookup_alter_eq, lookup_insert_eq, E. simpl. f_equal.
    unfold btake, blen in *. rewrite resize_le by lia. done.
  - by rewrite lookup_alter_ne, lookup_insert_ne by done.
Qed.

Lemma file_rename_run a b c fs t :
  fs !! a = Some c →
  file_rename a b (healthy fs t) = (inr (), healthy (<[b := c]> (delete a fs)) t).
Proof. intros E. unfold file_rename. run_step (io_run fs t). rewrite bind_state. cbn [dir healthy]. by rewrite E. Qed.

(** Removing a file whose error is ignored. *)
Lemma attempt_remove_run path fs t :
  ∃ r, attempt (file_remove path) (healthy fs t) = (inr r, healthy (delete path fs) t).
Proof.
  unfold attempt, file_remove. run_step (io_run fs t). rewrite bind_state. cbn [dir healthy].
  destruct (fs !! path) as [c|] eqn:E; eexists; [done|].
  unfold fail. by rewrite delete_id.
Qed.

End runs.

(** ** The packs of a directory *)

Section packs.
Implicit Types (fs : gmap str bytes).

Definition path_of (i : N) (sealed : bool) : str :=
  if sealed then pack_path_sealed i else pack_path_open i.

(** Every name that reads as a pack's is the name the store gives that pack. *)
Definition names_ok fs : Prop :=
  ∀ n i b, is_Some (fs !! n) → parse_pack_name n = Some (i, b) → n = path_of i b ∧ (i ≤ u32_max)%N.

(** No pack is both sealed and open. *)
Definition one_form fs : Prop :=
  ∀ i, fs !! pack_path_sealed i = None ∨ fs !! pack_path_open i = None.

Lemma parse_path_of i b : (i ≤ u32_max)%N → parse_pack_name (path_of i b) = Some (i, b).
Proof. destruct b; [apply parse_sealed_name|apply parse_open_name]. Qed.

Lemma path_of_inj i b j c : path_of i b = path_of j c → i = j ∧ b = c.
Proof.
  destruct b, c; simpl; intros E.
  - by apply sealed_name_inj in E.
  - by apply sealed_open_ne in E.
  - symmetry in E. by apply sealed_open_ne in E.
  - by apply open_name_inj in E.
Qed.

Lemma elem_of_packs fs i b :
  (i, b) ∈ packs_of fs ↔ ∃ n, is_Some (fs !! n) ∧ parse_pack_name n = Some (i, b).
Proof.
  unfold packs_of. rewrite merge_sort_Permutation, list_elem_of_omap. split.
  - intros ([n c] & Hin & E). exists n. split; [|done]. exists c. by apply elem_of_map_to_list.
  - intros (n & [c Hc] & E). exists (n, c). split; [by apply elem_of_map_to_list|done].
Qed.

Lemma elem_of_packs_ok fs i b :
  names_ok fs → (i ≤ u32_max)%N → (i, b) ∈ packs_of fs ↔ is_Some (fs !! path_of i b).
Proof.
  intros Hn Hi. rewrite elem_of_packs. split.
  - intros (n & Hs & E). destruct (Hn n i b Hs E) as [-> _]. done.
  - intros Hs. exists (path_of i b). split; [done|by apply parse_path_of].
Qed.

Lemma packs_bound fs i b : names_ok fs → (i, b) ∈ packs_of fs → (i ≤ u32_max)%N.
Proof. intros Hn (n & Hs & E)%elem_of_packs. by destruct (Hn n i b Hs E). Qed.

(** ** New ids *)

Definition has_pack fs (i : N) : Prop :=
  is_Some (fs !! pack_path_sealed i) ∨ is_Some (fs !! pack_path_open i).

(** There are [n] more ids above those in use. *)
Definition room (n : N) fs : Prop := (∀ i b, (i, b) ∈ packs_of fs → i + n ≤ u32_max)%N.

Lemma foldr_max_ge (l : list N) i : i ∈ l → (i ≤ foldr N.max 0 l)%N.
Proof. induction 1; simpl; lia. Qed.

Lemma foldr_max_in (l : list N) : l ≠ [] → foldr N.max 0%N l ∈ l.
Proof.
  induction l as [|x l IH]; [done|]. intros _. simpl. destruct l as [|y l].
  - rewrite N.max_0_r. by apply list_elem_of_here.
  - destruct (N.max_spec x (foldr N.max 0%N (y :: l))) as [[_ ->]|[_ ->]];
      [apply list_elem_of_further; by apply IH|by apply list_elem_of_here].
Qed.

Lemma next_id_above fs i b :
  room 1 fs → (i, b) ∈ packs_of fs → (i < next_id (packs_of fs))%N.
Proof.
  intros Hr Hin. unfold next_id. destruct (packs_of fs) as [|p ps] eqn:Ep; [by apply elem_of_nil in Hin|].
  rewrite <- Ep in *. assert (i ∈ (packs_of fs).*1) as Hi by (apply list_elem_of_fmap; by exists (i, b)).
  assert ((packs_of fs).*1 ≠ []) as Hne by (rewrite Ep; done).
  apply foldr_max_ge in Hi. pose proof (foldr_max_in _ Hne) as Hm.
  apply list_elem_of_fmap in Hm as ([m c] & Em & Hm). apply Hr in Hm. simpl in Em.
  unfold sat_add_u32, u32_max in *. lia.
Qed.

Lemma next_id_bound n fs : room (1 + n) fs → (next_id (packs_of fs) + n ≤ u32_max ∨ packs_of fs = [])%N.
Proof.
  intros Hr. unfold next_id. destruct (packs_of fs) as [|p ps] eqn:Ep; [by right|left].
  rewrite <- Ep in *. assert ((packs_of fs).*1 ≠ []) as Hne by (rewrite Ep; done).
  pose proof (foldr_max_in _ Hne) as Hm.
  apply list_elem_of_fmap in Hm as ([m c] & Em & Hm). apply Hr in Hm. simpl in Em.
  unfold sat_add_u32, u32_max in *. lia.
Qed.

Lemma next_id_le fs : (next_id (packs_of fs) ≤ u32_max)%N.
Proof. unfold next_id. destruct (packs_of fs); unfold sat_add_u32, u32_max; lia. Qed.

(** The next id names neither a sealed pack nor an open one. *)
Lemma next_id_fresh fs b :
  names_ok fs → room 1 fs → fs !! path_of (next_id (packs_of fs)) b = None.
Proof.
  intros Hn Hr. apply eq_None_not_Some. intros Hs.
  apply (elem_of_packs_ok _ _ _ Hn (next_id_le fs)) in Hs.
  apply next_id_above in Hs; [lia|done].
Qed.

(** ** The contents of a pack *)

Definition file_of fs (i : N) : option bytes :=
  match fs !! pack_path_sealed i with
  | Some c => Some c
  | None => fs !! pack_path_open i
  end.

(** Every pack keeps its contents, with something appended perhaps. *)
Definition packs_extend fs fs' : Prop :=
  ∀ i c, file_of fs i = Some c → ∃ g, file_of fs' i = Some (c ++ g).

#[export] Instance packs_extend_preorder : PreOrder packs_extend.
Proof.
  split.
  - intros fs i c E. exists []. by rewrite app_nil_r.
  - intros a b c Hab Hbc i x E. destruct (Hab i x E) as [g E1]. destruct (Hbc _ _ E1) as [g' E2].
    exists (g ++ g'). by rewrite app_assoc.
Qed.

Lemma file_of_sealed fs i c : fs !! pack_path_sealed i = Some c → file_of fs i = Some c.
Proof. unfold file_of. by intros ->. Qed.

Lemma file_of_open fs i c :
  one_form fs → fs !! pack_path_open i = Some c → file_of fs i = Some c.
Proof. intros H E. unfold file_of. destruct (H i) as [->|E']; [done|congruence]. Qed.

(** Two directories with the same packs. *)
Definition same_packs fs fs' : Prop := ∀ i b, fs' !! path_of i b = fs !! path_of i b.

Lemma same_packs_file_of fs fs' i : same_packs fs fs' → file_of fs' i = file_of fs i.
Proof. intros H. unfold file_of. by rewrite (H i true : fs' !! pack_path_sealed i = _), (H i false : fs' !! pack_path_open i = _). Qed.

Lemma same_packs_extend fs fs' : same_packs fs fs' → packs_extend fs fs'.
Proof. intros H i c E. exists []. by rewrite app_nil_r, (same_packs_file_of fs). Qed.

Lemma same_packs_log fs i c : same_packs fs (<[tombstone_log_path i := c]> fs).
Proof. intros j []; by rewrite lookup_insert_ne by done. Qed.

Lemma same_packs_one_form fs fs' : same_packs fs fs' → one_form fs → one_form fs'.
Proof. intros H Hf i. rewrite (H i true : fs' !! pack_path_sealed i = _), (H i false : fs' !! pack_path_open i = _). apply Hf. Qed.

Lemma names_ok_insert fs n c :
  names_ok fs → (∀ i b, parse_pack_name n = Some (i, b) → n = path_of i b ∧ (i ≤ u32_max)%N) →
  names_ok (<[n := c]> fs).
Proof.
  intros Hn Hp m i b Hs E. destruct (decide (m = n)) as [->|Hne]; [by apply Hp|].
  rewrite lookup_insert_ne in Hs by done. by apply Hn.
Qed.

Lemma names_ok_log fs i c : names_ok fs → names_ok (<[tombstone_log_path i := c]> fs).
Proof. intros H. apply names_ok_insert; [done|]. intros j b E. by rewrite parse_log_name in E. Qed.

Lemma names_ok_pack fs i b c : (i ≤ u32_max)%N → names_ok fs → names_ok (<[path_of i b := c]> fs).
Proof.
  intros Hi H. apply names_ok_insert; [done|]. intros j d E.
  rewrite parse_path_of in E by done. by injection E as -> ->.
Qed.

Lemma names_ok_delete fs n : names_ok fs → names_ok (delete n fs).
Proof. intros H m i b Hs E. apply H; [|done]. by apply lookup_delete_is_Some in Hs as [_ ?]. Qed.

Lemma same_packs_list fs fs' :
  names_ok fs → names_ok fs' → same_packs fs fs' → ∀ p, p ∈ packs_of fs' ↔ p ∈ packs_of fs.
Proof.
  intros Hn Hn' H [i b]. split; intros Hin.
  - pose proof (packs_bound _ _ _ Hn' Hin). apply elem_of_packs_ok; [done..|].
    apply elem_of_packs_ok in Hin; [|done..]. by rewrite <- (H i b).
  - pose proof (packs_bound _ _ _ Hn Hin). apply elem_of_packs_ok; [done..|].
    apply elem_of_packs_ok in Hin; [|done..]. by rewrite (H i b).
Qed.

End packs.
