(* ===== verification/PackInvariant.v ===== *)
(** * The blob store: invariant and abstract state

    The abstract state of a store is a map from hashes to blobs, each with
    whether it has been evicted: [holds] relates it to the packs and the index
    (a row's frame is in its pack, whole, with the row's hash), and [store_ok] is
    the invariant of a store in use. *)

From S2P Require Import Prelude.
From S2P Require Import Strings.
From S2P Require Import Bytes.
From S2P Require Import PackFormat.
From S2P Require Import PackFormatTheory.
From S2P Require Import PackStore.
From S2P Require Import PackRun.

(** ** The abstract store *)

Abbreviation blobs := (gmap BlobHash (bytes * bool)).

Section spec.
Context `{PackHashing}.

Definition set_evicted (b : bool) (x : bytes * bool) : bytes * bool := (x.1, b).

(** Storing brings a blob back when it was evicted. *)
Definition spec_put (p : bytes) (a : blobs) : blobs :=
  match a !! blake3 p with
  | Some x => <[blake3 p := set_evicted false x]> a
  | None => <[blake3 p := (p, false)]> a
  end.

Definition spec_get (h : BlobHash) (a : blobs) : option bytes :=
  x ← a !! h; if x.2 : bool then None else Some x.1.

Definition spec_evict (h : BlobHash) (a : blobs) : blobs := alter (set_evicted true) h a.

Definition spec_evict_all (a : blobs) : blobs := set_evicted true <$> a.

(** A collection forgets some of the evicted blobs and nothing else. *)
Definition spec_collects (a a' : blobs) : Prop :=
  a' ⊆ a ∧ ∀ h x, a !! h = Some x → x.2 = false → a' !! h = Some x.

#[export] Instance spec_collects_preorder : PreOrder spec_collects.
Proof.
  split.
  - intros a. done.
  - intros a b c [H1 H2] [H3 H4]. split; [by transitivity b|]. eauto.
Qed.

(** What the store has to answer is what the last writes left there. *)
Lemma spec_get_put p a :
  spec_get (blake3 p) (spec_put p a) = Some (from_option fst p (a !! blake3 p)).
Proof.
  unfold spec_get, spec_put. destruct (a !! blake3 p) as [x|];
    rewrite lookup_insert_eq; by cbn [mbind option_bind].
Qed.

Lemma spec_get_put_ne h p a : h ≠ blake3 p → spec_get h (spec_put p a) = spec_get h a.
Proof.
  intros Hne. unfold spec_get, spec_put.
  destruct (a !! blake3 p); by rewrite lookup_insert_ne by done.
Qed.

Lemma spec_collects_get a a' h : spec_collects a a' → spec_get h a' = spec_get h a.
Proof.
  intros [H1 H2]. unfold spec_get. destruct (a' !! h) as [x|] eqn:E'.
  - by rewrite (lookup_weaken _ _ _ _ E' H1).
  - destruct (a !! h) as [[q b]|] eqn:E; [|done]. cbn.
    destruct b; [done|]. by rewrite (H2 _ _ E eq_refl) in E'.
Qed.

(** ** Rows and the blobs they stand for *)

Definition blob_at (fs : gmap str bytes) (h : BlobHash) (r : row) (x : bytes * bool) : Prop :=
  r_tombstoned r = x.2 ∧ blake3 x.1 = h ∧
  ∃ c, file_of fs (r_pack r) = Some c ∧ read_frame c (r_offset r) (r_length r) = inr x.1.

Definition holds (fs : gmap str bytes) (t : index) (a : blobs) : Prop :=
  ∀ h, option_Forall2 (blob_at fs h) (t !! h) (a !! h).

Lemma blob_at_extend fs fs' h r x : packs_extend fs fs' → blob_at fs h r x → blob_at fs' h r x.
Proof.
  intros He (Ht & Hh & c & Ec & Er). destruct (He _ _ Ec) as [g Eg].
  split_and!; [done..|]. exists (c ++ g). split; [done|]. by apply read_frame_app.
Qed.

Lemma holds_extend fs fs' t a : packs_extend fs fs' → holds fs t a → holds fs' t a.
Proof. intros He Hh h. destruct (Hh h); constructor. by eapply blob_at_extend. Qed.

Lemma holds_Some fs t a h r : holds fs t a → t !! h = Some r → ∃ x, a !! h = Some x ∧ blob_at fs h r x.
Proof. intros Hh E. specialize (Hh h). rewrite E in Hh. inversion Hh; eauto. Qed.

Lemma holds_None fs t a h : holds fs t a → t !! h = None ↔ a !! h = None.
Proof. intros Hh. specialize (Hh h). by destruct Hh. Qed.

Lemma holds_insert fs t a h r x :
  blob_at fs h r x → holds fs t a → holds fs (<[h := r]> t) (<[h := x]> a).
Proof.
  intros Hb Hh k. destruct (decide (k = h)) as [->|Hne].
  - rewrite !lookup_insert_eq. by constructor.
  - rewrite !lookup_insert_ne by done. apply Hh.
Qed.

Lemma blob_at_mark fs h r x b :
  blob_at fs h r x → blob_at fs h (set_tombstoned b r) (set_evicted b x).
Proof. by intros (_ & Hh & Hr). Qed.

Lemma holds_mark fs t a h b : holds fs t a → holds fs (mark b h t) (alter (set_evicted b) h a).
Proof.
  intros Hh k. unfold mark. destruct (decide (k = h)) as [->|Hne].
  - rewrite !lookup_alter_eq. destruct (Hh h); simpl; constructor. by apply blob_at_mark.
  - rewrite !lookup_alter_ne by done. apply Hh.
Qed.

Lemma holds_mark_all fs t a b : holds fs t a → holds fs (set_tombstoned b <$> t) (set_evicted b <$> a).
Proof.
  intros Hh k. rewrite !lookup_fmap. destruct (Hh k); simpl; constructor. by apply blob_at_mark.
Qed.

Lemma holds_empty fs : holds fs ∅ ∅.
Proof. intros h. rewrite !lookup_empty. constructor. Qed.

(** ** The invariant *)

Definition small (p : bytes) : Prop := (blen p ≤ u32_max)%N.

Definition sealed_ok (fs : gmap str bytes) : Prop :=
  ∀ i c, fs !! pack_path_sealed i = Some c →
    ∃ ps n, c = frames ps ++ pack_tail n ∧ Forall small ps.

(** Every frame of the open pack has its row. *)
Definition open_indexed (id : N) (ps : list bytes) (t : index) : Prop :=
  ∀ l p r, ps = l ++ p :: r →
    ∃ b, t !! blake3 p = Some (Row id (blen (frames l)) (blen p) b).

(** The writer's file is frames up to its offset, where its cursor stands. *)
Record writer_ok (fs : gmap str bytes) (w : OpenPack) (ps : list bytes) : Prop := {
  wr_id : (pack_id w ≤ u32_max)%N;
  wr_file : fs !! pack_path_open (pack_id w) = Some (frames ps);
  wr_small : Forall small ps;
  wr_offset : offset w = blen (frames ps);
  wr_cursor : file_cursor w = offset w;
  wr_path : file_path w = pack_path_open (pack_id w)
}.

(** Bounds that keep offsets away from the end of [u64]. *)
Definition max_target : N := 4611686018427387904.
Definition offset_limit (target : N) : N := N.max target 4294967312.

Lemma max_target_fits : (max_target < u64_max)%N.
Proof. by vm_compute. Qed.

Lemma offset_limit_fits target n : (target ≤ max_target)%N → (n ≤ offset_limit target)%N → (n ≤ u64_max)%N.
Proof.
  unfold offset_limit. pose proof max_target_fits. assert (4294967312 < u64_max)%N by by vm_compute. lia.
Qed.

(** [dsts]: the destinations of compactions that have not been sealed. *)
Record store_ok (dsts : list N) (s : store) (a : blobs) : Prop := {
  ok_faults : faults (on s) = [];
  ok_names : names_ok (dir (on s));
  ok_form : one_form (dir (on s));
  ok_sealed : sealed_ok (dir (on s));
  ok_opens : ∀ i, is_Some (dir (on s) !! pack_path_open i) → i = pack_id (writer s) ∨ i ∈ dsts;
  ok_writer : ∃ ps, writer_ok (dir (on s)) (writer s) ps ∧ open_indexed (pack_id (writer s)) ps (rows (on s));
  ok_dsts : ∀ d, d ∈ dsts → d ≠ pack_id (writer s) ∧ is_Some (dir (on s) !! pack_path_open d);
  ok_unused : ∀ d h r, d ∈ dsts → rows (on s) !! h = Some r → r_pack r ≠ d;
  ok_target : (target_size s ≤ max_target)%N;
  ok_offset : (offset (writer s) ≤ offset_limit (target_size s))%N;
  ok_holds : holds (dir (on s)) (rows (on s)) a
}.

Lemma pack_path_open_of i : pack_path_open i = path_of i false.
Proof. done. Qed.
Lemma pack_path_sealed_of i : pack_path_sealed i = path_of i true.
Proof. done. Qed.

(** *** What an update of the directory does to the packs *)

Lemma extend_open fs i c g :
  one_form fs → fs !! pack_path_open i = Some c →
  packs_extend fs (<[pack_path_open i := c ++ g]> fs).
Proof.
  intros Hf E j x Ex. unfold file_of in *.
  rewrite lookup_insert_ne by (intros Eq; symmetry in Eq; by apply sealed_open_ne in Eq).
  destruct (fs !! pack_path_sealed j) as [y|] eqn:Es.
  { exists []. by rewrite app_nil_r. }
  destruct (decide (j = i)) as [->|Hne].
  - rewrite lookup_insert_eq. exists g. congruence.
  - rewrite lookup_insert_ne by (intros Eq; apply open_name_inj in Eq; congruence).
    exists []. by rewrite app_nil_r.
Qed.

Lemma extend_new fs i b c :
  (∀ b, fs !! path_of i b = None) → packs_extend fs (<[path_of i b := c]> fs).
Proof.
  intros Hn j x Ex. exists []. rewrite app_nil_r, <- Ex. unfold file_of in *.
  assert (j ≠ i) as Hne.
  { intros ->. by rewrite (Hn true : fs !! pack_path_sealed i = _), (Hn false : fs !! pack_path_open i = _) in Ex. }
  rewrite !pack_path_open_of, !pack_path_sealed_of, !lookup_insert_ne; [done|..];
    intros Eq; by apply path_of_inj in Eq as [? _].
Qed.

(** Sealing: the open pack, with its tail, becomes the sealed one. *)
Lemma extend_seal fs i c g :
  one_form fs → fs !! pack_path_open i = Some c →
  packs_extend fs (<[pack_path_sealed i := c ++ g]> (delete (pack_path_open i) fs)).
Proof.
  intros Hf E j x Ex. unfold file_of in *. destruct (decide (j = i)) as [->|Hne].
  - rewrite lookup_insert_eq. exists g. destruct (Hf i) as [Es|]; [|congruence].
    rewrite Es in Ex. congruence.
  - exists []. rewrite app_nil_r.
    rewrite (lookup_insert_ne _ _ (pack_path_sealed j)) by (intros Eq; by apply sealed_name_inj in Eq).
    rewrite lookup_delete_ne by (intros Eq; symmetry in Eq; by apply sealed_open_ne in Eq).
    rewrite lookup_insert_ne by (intros Eq; by apply sealed_open_ne in Eq).
    by rewrite lookup_delete_ne by (intros Eq; by apply open_name_inj in Eq).
Qed.

End spec.
