(* ===== verification/PackPut.v ===== *)
(** * The blob store: storing, evicting, rotating

    On a disk without faults every operation of a store that satisfies
    [store_ok] succeeds, keeps the invariant and does to the abstract store what
    its specification says. *)

From S2P Require Import Prelude.
From S2P Require Import Strings.
From S2P Require Import Bytes.
From S2P Require Import PackFormat.
From S2P Require Import PackFormatTheory.
From S2P Require Import PackStore.
From S2P Require Import PackRun.
From S2P Require Import PackInvariant.

(** Different names, and lookups under updates of other names. *)
Ltac pack_ne :=
  let E := fresh "E" in
  intros E;
  first [ by apply sealed_open_ne in E
        | symmetry in E; by apply sealed_open_ne in E
        | apply sealed_name_inj in E; congruence
        | apply open_name_inj in E; congruence
        | apply log_name_inj in E; congruence
        | discriminate E ].

Ltac simpl_fs :=
  repeat first
    [ rewrite lookup_insert_eq
    | rewrite lookup_delete_eq
    | rewrite lookup_insert_ne by pack_ne
    | rewrite lookup_delete_ne by pack_ne ].

Section put.
Context `{PackHashing}.
Implicit Types (fs : gmap str bytes) (t : index) (w : OpenPack) (a : blobs) (dsts : list N).

Lemma store_ok_healthy dsts s a :
  store_ok dsts s a → s = Store (healthy (dir (on s)) (rows (on s))) (writer s) (target_size s).
Proof. destruct s as [[fs t f] w tg]. intros Hs. pose proof (ok_faults _ _ _ Hs) as E. simpl in E. by subst. Qed.

Lemma lift_healthy {A} (m : M disk A) fs t w tg r d :
  m (healthy fs t) = (r, d) → lift m (Store (healthy fs t) w tg) = (r, Store d w tg).
Proof. intros E. by apply (lift_run _ (Store (healthy fs t) w tg)). Qed.

Lemma set_writer_run w' d w tg : set_writer w' (Store d w tg) = (inr (), Store d w' tg).
Proof. done. Qed.

Lemma alter_as_insert {A} (m : gmap BlobHash A) k x f :
  m !! k = Some x → alter f k m = <[k := f x]> m.
Proof.
  intros E. apply map_eq. intros j. destruct (decide (j = k)) as [->|Hne].
  - by rewrite lookup_alter_eq, lookup_insert_eq, E.
  - by rewrite lookup_alter_ne, lookup_insert_ne.
Qed.

(** ** Steps that leave the packs alone *)

(** Rows may only change their mark. *)
Definition marked t t' : Prop :=
  ∀ h r, t !! h = Some r → ∃ b, t' !! h = Some (set_tombstoned b r).

Lemma marked_mark b h t : marked t (mark b h t).
Proof.
  intros k r E. unfold mark. destruct (decide (k = h)) as [->|Hne].
  - exists b. by rewrite lookup_alter_eq, E.
  - exists (r_tombstoned r). rewrite lookup_alter_ne by done. rewrite E. by destruct r.
Qed.

Lemma marked_all b t : marked t (set_tombstoned b <$> t).
Proof. intros k r E. exists b. by rewrite lookup_fmap, E. Qed.

(** Every row was there, with a mark perhaps different. *)
Definition only_marks t t' : Prop :=
  ∀ h r, t' !! h = Some r → ∃ b, (set_tombstoned b <$> t !! h) = Some r.

Lemma only_marks_refl t : only_marks t t.
Proof. intros h r E. exists (r_tombstoned r). rewrite E. by destruct r. Qed.

Lemma only_marks_mark b h t : only_marks t (mark b h t).
Proof.
  intros k r E. unfold mark in E. destruct (decide (k = h)) as [->|Hne].
  - rewrite lookup_alter_eq in E. by exists b.
  - rewrite lookup_alter_ne in E by done. by apply only_marks_refl.
Qed.

Lemma only_marks_all b t : only_marks t (set_tombstoned b <$> t).
Proof. intros k r E. rewrite lookup_fmap in E. by exists b. Qed.

Lemma open_indexed_marked id ps t t' :
  marked t t' → open_indexed id ps t → open_indexed id ps t'.
Proof.
  intros Hm Ho l p r E. destruct (Ho l p r E) as [b Eb]. destruct (Hm _ _ Eb) as [b' Eb'].
  exists b'. exact Eb'.
Qed.

Lemma writer_ok_same fs fs' w ps : same_packs fs fs' → writer_ok fs w ps → writer_ok fs' w ps.
Proof. intros Hs []. constructor; try done. by rewrite pack_path_open_of, (Hs _ false). Qed.

(** A change of the logs and of the marks keeps the invariant. *)
Lemma store_ok_marked dsts fs fs' t t' w tg a a' :
  same_packs fs fs' → names_ok fs' → marked t t' → only_marks t t' → holds fs' t' a' →
  store_ok dsts (Store (healthy fs t) w tg) a → store_ok dsts (Store (healthy fs' t') w tg) a'.
Proof.
  intros Hs Hn Hm Hom Hh Hok. pose proof (ok_sealed _ _ _ Hok) as Hsl. pose proof (ok_opens _ _ _ Hok) as Hop.
  destruct (ok_writer _ _ _ Hok) as (ps & Hw & Ho). simpl in *.
  constructor; simpl; try done.
  - apply (same_packs_one_form fs); [done|apply Hok].
  - intros i c E. apply Hsl with i. by rewrite <- E, !pack_path_sealed_of, (Hs i true).
  - intros i Hi. apply Hop. by rewrite pack_path_open_of, <- (Hs i false).
  - exists ps. split; [by apply (writer_ok_same fs)|by apply (open_indexed_marked _ _ t)].
  - intros d Hd. destruct (ok_dsts _ _ _ Hok d Hd) as [? ?]. split; [done|].
    by rewrite pack_path_open_of, (Hs d false).
  - intros d h r Hd E. destruct (Hom h r E) as [b Eb]. destruct (t !! h) as [r'|] eqn:E'; simplify_eq/=.
    by apply (ok_unused _ _ _ Hok d h r').
  - apply Hok.
  - apply Hok.
Qed.

Lemma append_record_run i h k fs t :
  append_tombstone_log_record i h k (healthy fs t) =
  (inr (), healthy (<[tombstone_log_path i :=
     from_option id [] (fs !! tombstone_log_path i) ++ encode_log_record i h k]> fs) t).
Proof. apply file_append_run. Qed.

(** A record in a log and the mark it announces. *)
Lemma store_ok_record dsts fs t w tg a i c b h :
  store_ok dsts (Store (healthy fs t) w tg) a →
  store_ok dsts (Store (healthy (<[tombstone_log_path i := c]> fs) (mark b h t)) w tg)
    (alter (set_evicted b) h a).
Proof.
  intros Hs. pose proof (same_packs_log fs i c) as Hl.
  eapply store_ok_marked; [exact Hl|apply names_ok_log, Hs|apply marked_mark|apply only_marks_mark| |exact Hs].
  apply holds_mark, (holds_extend fs); [by apply same_packs_extend|apply Hs].
Qed.

Lemma revive_ok dsts fs t w tg a i h :
  store_ok dsts (Store (healthy fs t) w tg) a →
  ∃ fs', same_packs fs fs' ∧
    revive i h (healthy fs t) = (inr (), healthy fs' (mark false h t)) ∧
    store_ok dsts (Store (healthy fs' (mark false h t)) w tg) (alter (set_evicted false) h a).
Proof.
  intros Hs. eexists. split; [|split].
  2:{ unfold revive. run_step (append_record_run i h Revive fs t). apply execute_run. }
  - apply same_packs_log.
  - by apply store_ok_record.
Qed.

Lemma spec_evict_gone h a : (∀ x, a !! h = Some x → x.2 = true) → spec_evict h a = a.
Proof.
  intros Hx. apply map_eq. intros k. unfold spec_evict. destruct (decide (k = h)) as [->|Hne].
  - rewrite lookup_alter_eq. destruct (a !! h) as [[q b]|] eqn:E; [|done].
    specialize (Hx _ eq_refl). simpl in Hx. by subst b.
  - by rewrite lookup_alter_ne.
Qed.

(** Only blobs that were live are. *)
Definition no_new_live t t' : Prop :=
  ∀ h r, t' !! h = Some r → r_tombstoned r = false → t !! h = Some r.

Lemma no_new_live_mark h t : no_new_live t (mark true h t).
Proof.
  intros k r E Er. unfold mark in E. destruct (decide (k = h)) as [->|Hne].
  - rewrite lookup_alter_eq in E. destruct (t !! h); simplify_eq/=.
  - by rewrite lookup_alter_ne in E.
Qed.

Lemma no_new_live_all t : no_new_live t (set_tombstoned true <$> t).
Proof. intros k r E Er. rewrite lookup_fmap in E. destruct (t !! k); simplify_eq/=. Qed.

Lemma tombstone_ok dsts fs t w tg a h :
  store_ok dsts (Store (healthy fs t) w tg) a →
  ∃ fs' t', same_packs fs fs' ∧ marked t t' ∧ no_new_live t t' ∧ only_marks t t' ∧
    tombstone h (healthy fs t) = (inr (), healthy fs' t') ∧
    store_ok dsts (Store (healthy fs' t') w tg) (spec_evict h a).
Proof.
  intros Hs. pose proof (ok_holds _ _ _ Hs) as Hh. simpl in Hh.
  unfold tombstone. rewrite (bind_inr (attempt (query (live_pack h))) _ _ _ _
    (attempt_run _ _ _ _ (query_run (live_pack h) fs t))).
  assert (marked t t) as Hm by (intros k x Ex; exists (r_tombstoned x); rewrite Ex; by destruct x).
  assert (no_new_live t t) as Hl by by intros k x.
  pose proof (only_marks_refl t) as Hr.
  unfold live_pack. destruct (t !! h) as [r|] eqn:E; cbn [mbind option_bind].
  - destruct (holds_Some _ _ _ _ _ Hh E) as ([q b] & Ea & Hb & _). simpl in Hb.
    destruct (r_tombstoned r) eqn:Er.
    + exists fs, t. split_and!; [done..|].
      rewrite spec_evict_gone; [done|]. intros x Ex. rewrite Ea in Ex. by injection Ex as <-.
    + eexists _, _. split_and!; [| | | | |by apply store_ok_record].
      5:{ run_step (append_record_run (r_pack r) h Tombstone fs t). apply execute_run. }
      * apply same_packs_log.
      * apply marked_mark.
      * apply no_new_live_mark.
      * apply only_marks_mark.
  - apply (holds_None _ _ _ _ Hh) in E. exists fs, t. split_and!; [done..|].
    rewrite spec_evict_gone; [done|]. intros x Ex. congruence.
Qed.

(** ** Sealing and rotating *)

Lemma frame_count_go_frames fuel l r c g :
  (blen (frames (l ++ r)) ≤ u64_max)%N → Forall small r → (c ≤ u32_max)%N → length r ≤ fuel →
  frame_count_go fuel (frames (l ++ r) ++ g) (blen (frames (l ++ r))) (blen (frames l)) c =
  inr (N.min (c + N.of_nat (length r)) u32_max).
Proof.
  revert l c r. induction fuel as [|fuel IH]; intros l c r Hb Hr Hc Hl.
  - destruct r; [|simpl in Hl; lia]. cbn [frame_count_go]. rewrite app_nil_r, N.ltb_irrefl.
    f_equal. simpl. lia.
  - cbn [frame_count_go]. destruct Hr as [|p r Hp Hr].
    { rewrite app_nil_r, N.ltb_irrefl. f_equal. simpl. lia. }
    rewrite frames_app, frames_cons in *. rewrite !blen_app, blen_frame in Hb.
    rewrite !blen_app, blen_frame.
    rewrite (proj2 (N.ltb_lt _ _)) by (unfold FRAME_HEADER_LEN; lia).
    rewrite (proj2 (read_exact_Some _ _ _ (frame_header (blen p) (xxh3_64 p)))).
    2:{ split; [apply blen_frame_header|]. rewrite <- !app_assoc, bdrop_app. unfold frame.
        rewrite <- !app_assoc. by eexists. }
    rewrite frame_header_length by done.
    replace (sat_add_u64 (blen (frames l)) (FRAME_HEADER_LEN + blen p)) with (blen (frames (l ++ [p]))).
    2:{ rewrite frames_app, frames_singleton, blen_app, blen_frame. unfold sat_add_u64. lia. }
    replace (frames l ++ frame p ++ frames r) with (frames ((l ++ [p]) ++ r))
      by (by rewrite !frames_app, frames_singleton, app_assoc).
    replace (blen (frames l) + (FRAME_HEADER_LEN + blen p + blen (frames r)))%N
      with (blen (frames ((l ++ [p]) ++ r)))
      by (rewrite !frames_app, frames_singleton, !blen_app, blen_frame; lia).
    rewrite IH; [| |done|unfold sat_add_u32, u32_max; lia|simpl in Hl; lia].
    + f_equal. simpl length. unfold sat_add_u32, u32_max. lia.
    + rewrite !frames_app, frames_singleton, !blen_app, blen_frame. lia.
Qed.

Lemma length_frames ps : length ps ≤ length (frames ps).
Proof.
  induction ps as [|p ps IH]; [done|]. rewrite frames_cons, length_app.
  pose proof (blen_frame p) as L. unfold blen, FRAME_HEADER_LEN in L. cbn [length]. lia.
Qed.

Lemma frame_count_frames ps :
  (blen (frames ps) ≤ u64_max)%N → Forall small ps →
  frame_count_in_open_pack (frames ps) (blen (frames ps)) =
  inr (N.min (N.of_nat (length ps)) u32_max).
Proof.
  intros Hb Hs. unfold frame_count_in_open_pack.
  pose proof (frame_count_go_frames (length (frames ps)) [] ps 0 []) as E.
  cbn [app] in E. rewrite app_nil_r in E. apply E; [done..|unfold u32_max; lia|apply length_frames].
Qed.

Definition sealed_fs fs (i : N) (ps : list bytes) : gmap str bytes :=
  <[pack_path_sealed i := frames ps ++ pack_tail (N.min (N.of_nat (length ps)) u32_max)]>
    (delete (pack_path_open i) fs).

Definition offsets_fit ps : Prop := (blen (frames ps) ≤ u64_max)%N.

Lemma seal_run fs t w tg ps :
  writer_ok fs w ps → offsets_fit ps →
  ∃ cursor, seal_open_pack (Store (healthy fs t) w tg) =
    (inr (), Store (healthy (sealed_fs fs (pack_id w) ps) t)
               (mkOpenPack (pack_id w) (pack_path_sealed (pack_id w)) cursor (offset w)) tg).
Proof.
  intros [Hid Hf Hs Ho Hc Hp] Hb. unfold seal_open_pack. rewrite bind_state. cbn [writer].
  run_step (lift_healthy _ _ t w tg _ _ (file_open_run (file_path w) (frames ps) fs t ltac:(by rewrite Hp))).
  rewrite Ho, (frame_count_frames ps Hb Hs). set (n := N.min _ _).
  run_step (lift_healthy _ _ t w tg _ _ (file_write_run (file_path w) (blen (frames ps)) (pack_tail n)
    (frames ps) fs t ltac:(by rewrite Hp) eq_refl)).
  set (fs1 := <[file_path w := frames ps ++ pack_tail n]> fs).
  set (w1 := mkOpenPack (pack_id w) (file_path w) (blen (frames ps) + blen (pack_tail n)) (blen (frames ps))).
  cbn [fst snd negb].
  run_step (set_writer_run w1 (healthy fs1 t) w tg).
  run_step (lift_healthy _ fs1 t w1 tg _ _ (io_run fs1 t)).
  run_step (lift_healthy _ fs1 t w1 tg _ _
    (file_rename_run (pack_path_open (pack_id w)) (pack_path_sealed (pack_id w))
    (frames ps ++ pack_tail n) fs1 t ltac:(by subst fs1; rewrite Hp, lookup_insert_eq))).
  eexists. unfold set_writer. cbn [on target_size]. do 3 f_equal.
  unfold sealed_fs, healthy, fs1. by rewrite Hp, delete_insert_eq.
Qed.

Definition rotated_fs fs (i nid : N) (ps : list bytes) : gmap str bytes :=
  <[tombstone_log_path nid := from_option id [] (sealed_fs fs i ps !! tombstone_log_path nid)]>
    (<[pack_path_open nid := []]> (sealed_fs fs i ps)).

Lemma names_ok_sealed fs i ps :
  (i ≤ u32_max)%N → names_ok fs → names_ok (sealed_fs fs i ps).
Proof.
  intros Hi Hn. unfold sealed_fs. rewrite pack_path_sealed_of.
  apply names_ok_pack; [done|]. by apply names_ok_delete.
Qed.

Lemma one_form_sealed fs i ps : one_form fs → one_form (sealed_fs fs i ps).
Proof.
  intros Hf j. unfold sealed_fs. destruct (decide (j = i)) as [->|Hne].
  - right. simpl_fs. done.
  - simpl_fs. apply Hf.
Qed.

(** Sealing does not change which ids are in use. *)
Lemma room_seal fs i c n :
  names_ok fs → (i ≤ u32_max)%N → is_Some (fs !! pack_path_open i) →
  room n fs → room n (<[pack_path_sealed i := c]> (delete (pack_path_open i) fs)).
Proof.
  intros Hn Hi Ho Hr j b Hin.
  assert (names_ok (<[pack_path_sealed i := c]> (delete (pack_path_open i) fs))) as Hn'.
  { rewrite pack_path_sealed_of. apply names_ok_pack; [done|]. by apply names_ok_delete. }
  pose proof (packs_bound _ _ _ Hn' Hin) as Hj. apply elem_of_packs_ok in Hin; [|done..].
  destruct (decide (j = i)) as [->|Hne].
  - apply (Hr i false). by apply elem_of_packs_ok.
  - apply (Hr j b). apply elem_of_packs_ok; [done..|]. revert Hin.
    destruct b; simpl; simpl_fs; done.
Qed.

Lemma packs_sealed fs i ps n :
  names_ok fs → (i ≤ u32_max)%N → is_Some (fs !! pack_path_open i) →
  room n fs → room n (sealed_fs fs i ps).
Proof. apply room_seal. Qed.

(** A new pack's id takes one of the ids that were left. *)
Lemma room_insert n fs i b c :
  names_ok fs → (i ≤ u32_max)%N → (i + n ≤ u32_max)%N → room n fs → room n (<[path_of i b := c]> fs).
Proof.
  intros Hn Hi Hb Hr j d Hin. pose proof (names_ok_pack fs i b c Hi Hn) as Hn'.
  pose proof (packs_bound _ _ _ Hn' Hin) as Hj. apply elem_of_packs_ok in Hin; [|done..].
  destruct (decide (path_of j d = path_of i b)) as [E|Hne].
  - apply path_of_inj in E as [-> ->]. done.
  - rewrite lookup_insert_ne in Hin by done. apply (Hr j d). by apply elem_of_packs_ok.
Qed.

Lemma room_le n m fs : (m ≤ n)%N → room n fs → room m fs.
Proof. intros Hle Hr i b Hin. specialize (Hr i b Hin). lia. Qed.

Lemma room_same n fs fs' : names_ok fs → names_ok fs' → same_packs fs fs' → room n fs → room n fs'.
Proof. intros Hn Hn' Hs Hr i b Hin. apply (Hr i b). by apply (same_packs_list fs fs'). Qed.

Lemma rotate_run fs t w tg ps :
  writer_ok fs w ps → offsets_fit ps → names_ok fs → room 1 fs →
  let nid := next_id (packs_of (sealed_fs fs (pack_id w) ps)) in
  rotate_pack (Store (healthy fs t) w tg) =
    (inr (), Store (healthy (rotated_fs fs (pack_id w) nid ps) t)
               (mkOpenPack nid (pack_path_open nid) 0 0) tg).
Proof.
  intros Hw Hb Hn Hr nid. pose proof Hw as [Hid Hf _ _ _ _].
  destruct (seal_run fs t w tg ps Hw Hb) as [cursor Es].
  unfold rotate_pack. run_step Es. set (w1 := mkOpenPack _ _ _ _).
  set (fs1 := sealed_fs fs (pack_id w) ps) in *.
  assert (names_ok fs1) as Hn1 by by apply names_ok_sealed.
  assert (room 1 fs1) as Hr1 by (apply packs_sealed; [done..|by eexists|done]).
  run_step (lift_healthy next_pack_id fs1 t w1 tg _ _ eq_refl).
  fold nid. change (next_id (packs_of (dir (healthy fs1 t)))) with nid.
  assert (create_new_open_pack nid (healthy fs1 t) =
    (inr (mkOpenPack nid (pack_path_open nid) 0 0),
     healthy (rotated_fs fs (pack_id w) nid ps) t)) as Ec.
  { unfold create_new_open_pack.
    run_step (file_create_new_run (pack_path_open nid) fs1 t (next_id_fresh fs1 false Hn1 Hr1)).
    run_step (io_run (<[pack_path_open nid := []]> fs1) t).
    run_step (file_touch_run (tombstone_log_path nid) (<[pack_path_open nid := []]> fs1) t).
    unfold rotated_fs. fold fs1. rewrite (lookup_insert_ne fs1) by pack_ne. done. }
  run_step (lift_healthy _ fs1 t w1 tg _ _ Ec). done.
Qed.

(** *** Rotation keeps the invariant *)

Lemma packs_extend_rotated fs i nid ps :
  one_form fs → fs !! pack_path_open i = Some (frames ps) →
  (∀ b, sealed_fs fs i ps !! path_of nid b = None) →
  packs_extend fs (rotated_fs fs i nid ps).
Proof.
  intros Hf E Hnew. transitivity (sealed_fs fs i ps); [by apply extend_seal|].
  unfold rotated_fs. etransitivity; [|by apply same_packs_extend, same_packs_log].
  rewrite pack_path_open_of. by apply extend_new.
Qed.

Lemma sealed_ok_sealed fs i ps :
  sealed_ok fs → Forall small ps → sealed_ok (sealed_fs fs i ps).
Proof.
  intros Hs Hp j c. unfold sealed_fs. destruct (decide (j = i)) as [->|Hne]; simpl_fs.
  - intros [= <-]. eauto.
  - apply Hs.
Qed.

(** The packs other than the writer's stay as they are. *)
Definition keeps_others w fs fs' : Prop :=
  ∀ i b c, i ≠ pack_id w → fs !! path_of i b = Some c → fs' !! path_of i b = Some c.

Lemma sealed_fs_other fs i ps j b : j ≠ i → sealed_fs fs i ps !! path_of j b = fs !! path_of j b.
Proof. intros Hne. unfold sealed_fs. destruct b; simpl; by simpl_fs. Qed.

Lemma rotated_fs_lookup fs i nid ps j b :
  rotated_fs fs i nid ps !! path_of j b =
  if decide (j = nid ∧ b = false) then Some [] else sealed_fs fs i ps !! path_of j b.
Proof.
  unfold rotated_fs. case_decide as Hd.
  - destruct Hd as [-> ->]. simpl. by simpl_fs.
  - rewrite lookup_insert_ne by (by destruct b). rewrite pack_path_open_of, lookup_insert_ne; [done|].
    intros E. apply path_of_inj in E. naive_solver.
Qed.

Lemma rotate_ok dsts fs t w tg a :
  store_ok dsts (Store (healthy fs t) w tg) a → room 1 fs →
  ∃ fs' nid,
    rotate_pack (Store (healthy fs t) w tg) =
      (inr (), Store (healthy fs' t) (mkOpenPack nid (pack_path_open nid) 0 0) tg) ∧
    store_ok dsts (Store (healthy fs' t) (mkOpenPack nid (pack_path_open nid) 0 0) tg) a ∧
    (∀ n, room (1 + n) fs → room n fs') ∧ keeps_others w fs fs'.
Proof.
  intros Hok Hr. destruct (ok_writer _ _ _ Hok) as (ps & Hw & Hi). simpl in *.
  pose proof Hw as [Hid Hf Hsm Hoff _ _]. pose proof (ok_names _ _ _ Hok) as Hn.
  pose proof (ok_form _ _ _ Hok) as Hform. simpl in *.
  assert (offsets_fit ps) as Hfit.
  { unfold offsets_fit. rewrite <- Hoff. eapply offset_limit_fits; apply Hok. }
  pose proof (rotate_run fs t w tg ps Hw Hfit Hn Hr) as Erun. cbv zeta in Erun.
  set (nid := next_id (packs_of (sealed_fs fs (pack_id w) ps))) in *.
  assert (names_ok (sealed_fs fs (pack_id w) ps)) as Hn1 by by apply names_ok_sealed.
  assert (∀ n, room n fs → room n (sealed_fs fs (pack_id w) ps)) as Hroom1
    by (intros n Hrn; apply packs_sealed; [done..|by eexists|done]).
  assert (∀ b, sealed_fs fs (pack_id w) ps !! path_of nid b = None) as Hnew
    by (intros b; apply next_id_fresh; [done|by apply Hroom1]).
  assert (nid ≠ pack_id w) as Hne.
  { intros E. specialize (Hnew true). rewrite E in Hnew. unfold sealed_fs in Hnew. simpl in Hnew.
    by rewrite lookup_insert_eq in Hnew. }
  pose proof (packs_extend_rotated fs (pack_id w) nid ps Hform Hf Hnew) as Hext.
  assert (names_ok (rotated_fs fs (pack_id w) nid ps)) as Hn2.
  { unfold rotated_fs. apply names_ok_log. rewrite pack_path_open_of.
    apply names_ok_pack; [apply next_id_le|done]. }
  assert (keeps_others w fs (rotated_fs fs (pack_id w) nid ps)) as Hkeep.
  { intros i b c Hi' E. rewrite rotated_fs_lookup, decide_False; [by rewrite sealed_fs_other|].
    intros [-> ->]. specialize (Hnew false). rewrite sealed_fs_other in Hnew by done. congruence. }
  exists (rotated_fs fs (pack_id w) nid ps), nid. split_and!; [done| | |done].
  - constructor; simpl; try done.
    + intros i. destruct (decide (i = nid)) as [->|Hni].
      * left. rewrite pack_path_sealed_of, rotated_fs_lookup, decide_False by naive_solver.
        apply Hnew.
      * rewrite !pack_path_sealed_of, !pack_path_open_of, !rotated_fs_lookup, !decide_False by naive_solver.
        by apply one_form_sealed.
    + intros i c. rewrite pack_path_sealed_of, rotated_fs_lookup, decide_False by naive_solver.
      apply sealed_ok_sealed; [apply Hok|done].
    + intros i. rewrite pack_path_open_of, rotated_fs_lookup. case_decide as Hd; [naive_solver|].
      destruct (decide (i = pack_id w)) as [->|Hni].
      * unfold sealed_fs. simpl. simpl_fs. by intros [].
      * rewrite sealed_fs_other by done. intros Ho. destruct (ok_opens _ _ _ Hok i Ho); [done|by right].
    + exists []. split; [|by intros []].
      constructor; simpl; try done; [apply next_id_le|].
      by rewrite pack_path_open_of, rotated_fs_lookup, decide_True.
    + intros d Hd. destruct (ok_dsts _ _ _ Hok d Hd) as [Hdw [c Ec]]. simpl in *.
      pose proof (Hkeep d false c Hdw Ec) as Hk. split; [|by exists c].
      intros ->. specialize (Hnew false). rewrite sealed_fs_other in Hnew by done.
      simpl in Hnew. congruence.
    + intros d h r. apply (ok_unused _ _ _ Hok d h r).
    + apply Hok.
    + lia.
    + apply (holds_extend fs); [done|apply Hok].
  - intros n Hrn. destruct (next_id_bound n (sealed_fs fs (pack_id w) ps)) as [Hb|Hb].
    { by apply Hroom1. }
    + unfold rotated_fs. intros i b Hin.
      assert (names_ok (<[pack_path_open nid:=[]]> (sealed_fs fs (pack_id w) ps))) as Hn3
        by (rewrite pack_path_open_of; apply names_ok_pack; [apply next_id_le|done]).
      apply (room_insert n (sealed_fs fs (pack_id w) ps) nid false []) with b; [done|apply next_id_le|done| |].
      { eapply room_le, Hroom1, Hrn. lia. }
      apply (same_packs_list (<[pack_path_open nid:=[]]> (sealed_fs fs (pack_id w) ps))) in Hin;
        [done|done|done|apply same_packs_log].
    + exfalso. assert ((pack_id w, true) ∈ packs_of (sealed_fs fs (pack_id w) ps)) as Hin.
      { apply elem_of_packs_ok; [done..|]. unfold sealed_fs. simpl. by rewrite lookup_insert_eq. }
      rewrite Hb in Hin. by apply elem_of_nil in Hin.
Qed.

(** ** Writing a frame *)

Lemma writer_write_run fs t w tg b c :
  fs !! file_path w = Some c → file_cursor w = blen c →
  writer_write b (Store (healthy fs t) w tg) =
  (inr (), Store (healthy (<[file_path w := c ++ b]> fs) t)
             (mkOpenPack (pack_id w) (file_path w) (file_cursor w + blen b) (offset w)) tg).
Proof.
  intros E Hc. unfold writer_write. rewrite bind_state. cbn [writer].
  run_step (lift_healthy _ fs t w tg _ _ (file_write_run (file_path w) (file_cursor w) b c fs t E Hc)).
  cbn [fst snd].
  set (w' := mkOpenPack _ _ _ _). run_step (set_writer_run w' (healthy (<[file_path w:=c ++ b]> fs) t) w tg).
  done.
Qed.

Definition written_fs fs (i : N) (ps : list bytes) (p : bytes) : gmap str bytes :=
  <[pack_path_open i := frames (ps ++ [p])]> fs.

Definition written_writer w (p : bytes) : OpenPack :=
  mkOpenPack (pack_id w) (file_path w) (offset w + (FRAME_HEADER_LEN + blen p))
             (offset w + (FRAME_HEADER_LEN + blen p)).

Lemma write_frame_run fs t w tg ps p :
  writer_ok fs w ps → t !! blake3 p = None →
  (offset w + (FRAME_HEADER_LEN + blen p) ≤ u64_max)%N →
  write_frame p (blake3 p) (Store (healthy fs t) w tg) =
  (inr (), Store (healthy (written_fs fs (pack_id w) ps p)
                   (<[blake3 p := Row (pack_id w) (offset w) (blen p) false]> t))
             (written_writer w p) tg).
Proof.
  intros [Hid Hf Hs Ho Hc Hp] Et Hb. unfold write_frame. rewrite bind_state. cbn [writer].
  set (hd := frame_header (blen p) (xxh3_64 p)).
  run_step (writer_write_run fs t w tg hd (frames ps) ltac:(by rewrite Hp) ltac:(congruence)).
  set (fs1 := <[file_path w:=frames ps ++ hd]> fs). set (w1 := mkOpenPack _ _ _ _).
  run_step (writer_write_run fs1 t w1 tg p (frames ps ++ hd)
    ltac:(by subst fs1; simpl; rewrite lookup_insert_eq)
    ltac:(simpl; rewrite Hc, Ho, blen_app; done)).
  set (fs2 := <[file_path w1 := _]> fs1). set (w2 := mkOpenPack (pack_id w1) _ _ _).
  run_step (lift_healthy io fs2 t w2 tg _ _ (io_run fs2 t)).
  set (ins := insert_or_ignore _ _).
  run_step (lift_healthy _ fs2 t w2 tg _ _ (execute_run ins fs2 t)).
  rewrite bind_state. cbn [writer]. rewrite (set_writer_run _ _ w2 tg).
  assert (ins t = <[blake3 p := Row (pack_id w) (offset w) (blen p) false]> t) as ->.
  { unfold ins, insert_or_ignore. by rewrite Et. }
  assert (fs2 = written_fs fs (pack_id w) ps p) as ->.
  { unfold fs2, fs1, written_fs. subst w1. simpl. rewrite insert_insert_eq, Hp.
    rewrite frames_app, frames_singleton. unfold frame. by rewrite app_assoc. }
  do 3 f_equal. unfold written_writer, w2, w1. simpl. f_equal.
  - unfold hd. rewrite blen_frame_header. lia.
  - unfold sat_add_u64. lia.
Qed.

(** The directory after the write: one file has grown. *)
Lemma written_sealed fs i ps p j :
  written_fs fs i ps p !! pack_path_sealed j = fs !! pack_path_sealed j.
Proof. unfold written_fs. by simpl_fs. Qed.

Lemma written_open fs i ps p j :
  j ≠ i → written_fs fs i ps p !! pack_path_open j = fs !! pack_path_open j.
Proof. intros Hne. unfold written_fs. by simpl_fs. Qed.

Lemma written_eq fs i ps p : written_fs fs i ps p !! pack_path_open i = Some (frames ps ++ frame p).
Proof. unfold written_fs. by rewrite lookup_insert_eq, frames_app, frames_singleton. Qed.

Lemma names_ok_written fs i ps p : (i ≤ u32_max)%N → names_ok fs → names_ok (written_fs fs i ps p).
Proof. intros Hi Hn. unfold written_fs. rewrite pack_path_open_of. by apply names_ok_pack. Qed.

Lemma one_form_written fs i ps p :
  one_form fs → is_Some (fs !! pack_path_open i) → one_form (written_fs fs i ps p).
Proof.
  intros Hf [c Ec] j. rewrite written_sealed. destruct (decide (j = i)) as [->|Hne].
  - destruct (Hf i); [by left|congruence].
  - rewrite written_open by done. apply Hf.
Qed.

Lemma extend_written fs i ps p :
  one_form fs → fs !! pack_path_open i = Some (frames ps) → packs_extend fs (written_fs fs i ps p).
Proof.
  intros Hf E. unfold written_fs. rewrite frames_app, frames_singleton. by apply extend_open.
Qed.

Lemma room_written n fs i ps p :
  names_ok fs → (i ≤ u32_max)%N → is_Some (fs !! pack_path_open i) →
  room n fs → room n (written_fs fs i ps p).
Proof.
  intros Hn Hi Ho Hr. unfold written_fs. rewrite pack_path_open_of.
  apply room_insert; [done..| |done]. apply (Hr i false). by apply elem_of_packs_ok.
Qed.

Lemma keeps_written fs w ps p : keeps_others w fs (written_fs fs (pack_id w) ps p).
Proof.
  intros i [] c Hne E; simpl in *; [by rewrite written_sealed|by rewrite written_open].
Qed.

Lemma open_indexed_written id ps p t b :
  t !! blake3 p = None → open_indexed id ps t →
  open_indexed id (ps ++ [p]) (<[blake3 p := Row id (blen (frames ps)) (blen p) b]> t).
Proof.
  intros Et Hi l q r El. destruct r as [|x r _] using rev_ind.
  - apply app_inj_tail in El as [<- <-]. exists b. by rewrite lookup_insert_eq.
  - rewrite app_comm_cons, app_assoc in El. apply app_inj_tail in El as [-> ->].
    destruct (Hi l q r eq_refl) as [b' Eb]. exists b'. by rewrite lookup_insert_ne by congruence.
Qed.

Lemma writer_ok_written fs w ps p :
  writer_ok fs w ps → small p →
  writer_ok (written_fs fs (pack_id w) ps p) (written_writer w p) (ps ++ [p]).
Proof.
  intros [Hid Hf Hsm Hoff Hcur Hpath] Hp. constructor; simpl; try done.
  - by rewrite written_eq, frames_app, frames_singleton.
  - by apply Forall_app_2; [|constructor].
  - by rewrite frames_app, frames_singleton, blen_app, blen_frame, Hoff.
Qed.

Lemma blob_at_written fs i ps p :
  one_form fs → is_Some (fs !! pack_path_open i) → small p →
  blob_at (written_fs fs i ps p) (blake3 p) (Row i (blen (frames ps)) (blen p) false) (p, false).
Proof.
  intros Hf Ho Hp. split_and!; [done..|]. exists (frames ps ++ frame p). split.
  - apply file_of_open; [by apply one_form_written|apply written_eq].
  - simpl. rewrite <- (app_nil_r (frame p)). by apply read_frame_mid.
Qed.

(** The stored frame, its row and the invariant. *)
Lemma write_frame_ok dsts fs t w tg a p :
  store_ok dsts (Store (healthy fs t) w tg) a → t !! blake3 p = None → small p →
  (offset w + (FRAME_HEADER_LEN + blen p) ≤ offset_limit tg)%N →
  ∃ fs' t',
    write_frame p (blake3 p) (Store (healthy fs t) w tg) =
      (inr (), Store (healthy fs' t') (written_writer w p) tg) ∧
    store_ok dsts (Store (healthy fs' t') (written_writer w p) tg) (<[blake3 p := (p, false)]> a) ∧
    (∀ n, room n fs → room n fs') ∧ keeps_others w fs fs' ∧
    t' = <[blake3 p := Row (pack_id w) (offset w) (blen p) false]> t.
Proof.
  intros Hok Et Hsp Hlim. destruct (ok_writer _ _ _ Hok) as (ps & Hw & Hi). simpl in *.
  pose proof (wr_id _ _ _ Hw) as Hid. pose proof (wr_offset _ _ _ Hw) as Hoff.
  assert (is_Some (fs !! pack_path_open (pack_id w))) as Hopen by (eexists; apply Hw).
  pose proof (ok_names _ _ _ Hok) as Hn. pose proof (ok_form _ _ _ Hok) as Hform. simpl in *.
  eexists _, _. split_and!.
  - apply (write_frame_run fs t w tg ps p Hw Et). eapply offset_limit_fits, Hlim. apply Hok.
  - constructor; simpl.
    + done.
    + by apply names_ok_written.
    + by apply one_form_written.
    + intros i c. rewrite written_sealed. apply (ok_sealed _ _ _ Hok).
    + intros i. destruct (decide (i = pack_id w)) as [->|Hne]; [by left|].
      rewrite written_open by done. apply (ok_opens _ _ _ Hok).
    + exists (ps ++ [p]). split; [by apply writer_ok_written|].
      rewrite Hoff. by apply open_indexed_written.
    + intros d Hd. destruct (ok_dsts _ _ _ Hok d Hd) as [? ?]. by rewrite written_open.
    + intros d h r Hd E. destruct (decide (h = blake3 p)) as [->|Hne].
      * rewrite lookup_insert_eq in E. injection E as <-. simpl.
        by destruct (ok_dsts _ _ _ Hok d Hd).
      * rewrite lookup_insert_ne in E by done. by apply (ok_unused _ _ _ Hok d h r).
    + apply Hok.
    + done.
    + apply holds_insert; [rewrite Hoff; by apply blob_at_written|].
      apply (holds_extend fs); [|apply Hok]. apply extend_written; [done|apply Hw].
  - intros n. by apply room_written.
  - apply keeps_written.
  - done.
Qed.

(** ** Storing *)

Lemma classify_run h fs t : classify_existing_blob h (healthy fs t) = (inr (classify h t), healthy fs t).
Proof. done. Qed.

Lemma room_fits fs t w tg dsts a (p : bytes) :
  store_ok dsts (Store (healthy fs t) w tg) a → small p →
  (if ((0 <? offset w) && (tg <? sat_add_u64 (offset w) (FRAME_HEADER_LEN + blen p)))%N
   then True else offset w + (FRAME_HEADER_LEN + blen p) ≤ offset_limit tg)%N.
Proof.
  intros Hok Hs. pose proof (ok_target _ _ _ Hok) as Ht. pose proof (ok_offset _ _ _ Hok) as Ho.
  cbn [target_size writer] in *. generalize dependent (offset w). intros o Ho.
  unfold small in Hs. revert Hs. generalize (blen p). clear Hok. intros n Hs.
  destruct (N.ltb_spec 0 o) as [H0|H0], (N.ltb_spec tg (sat_add_u64 o (FRAME_HEADER_LEN + n))) as [H1|H1];
    cbn [andb]; try done; unfold offset_limit.
  - apply sat_add_u64_le in H1; [lia|]. pose proof max_target_fits. lia.
  - pose proof header_len. unfold u32_max in Hs. lia.
  - pose proof header_len. unfold u32_max in Hs. lia.
Qed.

(** What an operation leaves of the packs it does not write: it takes at most
    one new id, the destinations of compactions and the sealed packs are as
    before, and rows keep their place. *)
Record stable (dsts : list N) (s s' : store) : Prop := {
  st_room : ∀ n, room (1 + n) (dir (on s)) → room n (dir (on s'));
  st_dsts : ∀ d, d ∈ dsts → dir (on s') !! pack_path_open d = dir (on s) !! pack_path_open d;
  st_sealed : ∀ i c, dir (on s) !! pack_path_sealed i = Some c →
                dir (on s') !! pack_path_sealed i = Some c;
  st_rows : marked (rows (on s)) (rows (on s'))
}.

Lemma marked_weaken t t' : (∀ h r, t !! h = Some r → t' !! h = Some r) → marked t t'.
Proof. intros Hw h r E. exists (r_tombstoned r). rewrite (Hw h r E). by destruct r. Qed.

Lemma stable_same dsts fs fs' t t' w tg :
  names_ok fs → names_ok fs' → same_packs fs fs' → marked t t' →
  stable dsts (Store (healthy fs t) w tg) (Store (healthy fs' t') w tg).
Proof.
  intros Hn Hn' Hs Hm. constructor; simpl; [| | |done].
  - intros n Hr. eapply room_le, (room_same _ fs fs' Hn Hn' Hs Hr). lia.
  - intros d _. apply (Hs d false).
  - intros i c E. by rewrite pack_path_sealed_of, (Hs i true).
Qed.

(** The writer's pack is not sealed. *)
Lemma writer_not_sealed dsts fs t w tg a i c :
  store_ok dsts (Store (healthy fs t) w tg) a → fs !! pack_path_sealed i = Some c → i ≠ pack_id w.
Proof.
  intros Hok E ->. destruct (ok_writer _ _ _ Hok) as (ps & Hw & _). pose proof (wr_file _ _ _ Hw).
  destruct (ok_form _ _ _ Hok (pack_id w)); simpl in *; congruence.
Qed.

Lemma stable_keeps dsts fs fs' t t' w w' tg a :
  store_ok dsts (Store (healthy fs t) w tg) a →
  (∀ n, room (1 + n) fs → room n fs') → keeps_others w fs fs' → marked t t' →
  stable dsts (Store (healthy fs t) w tg) (Store (healthy fs' t') w' tg).
Proof.
  intros Hok Hr Hk Hm. constructor; simpl; [done| | |done].
  - intros d Hd. destruct (ok_dsts _ _ _ Hok d Hd) as [Hne [c Ec]]. simpl in *.
    rewrite Ec. by apply (Hk d false).
  - intros i c E. apply (Hk i true); [|done]. by eapply writer_not_sealed.
Qed.

#[export] Instance marked_preorder : PreOrder marked.
Proof.
  split.
  - intros t. by apply marked_weaken.
  - intros t1 t2 t3 H1 H2 h r E. destruct (H1 h r E) as [b E2]. destruct (H2 _ _ E2) as [b' E3].
    by exists b'.
Qed.

(** The rows after storing a new blob: one more, in the writer's pack. *)
Definition stored (p : bytes) (s s' : store) : Prop :=
  ∃ off, rows (on s') =
    <[blake3 p := Row (pack_id (writer s')) off (blen p) false]> (rows (on s)).

Lemma marked_insert_new h r t : t !! h = None → marked t (<[h := r]> t).
Proof. intros E. apply marked_weaken. intros k x Ex. by rewrite lookup_insert_ne by congruence. Qed.

Lemma put_frame_ok dsts fs t w tg a p :
  store_ok dsts (Store (healthy fs t) w tg) a → t !! blake3 p = None → small p → room 1 fs →
  ∃ fs' t' w',
    put_frame p (blake3 p) (Store (healthy fs t) w tg) = (inr (), Store (healthy fs' t') w' tg) ∧
    store_ok dsts (Store (healthy fs' t') w' tg) (<[blake3 p := (p, false)]> a) ∧
    stable dsts (Store (healthy fs t) w tg) (Store (healthy fs' t') w' tg) ∧
    stored p (Store (healthy fs t) w tg) (Store (healthy fs' t') w' tg).
Proof.
  intros Hok Et Hs Hr. pose proof (room_fits _ _ _ _ _ _ p Hok Hs) as Hfit.
  unfold put_frame, rotate_if_full. destruct (_ && _)%bool eqn:Eb.
  - destruct (rotate_ok dsts fs t w tg a Hok Hr) as (fs1 & nid & E1 & Hok1 & Hr1 & Hk1).
    set (w1 := mkOpenPack nid (pack_path_open nid) 0 0) in *.
    destruct (write_frame_ok dsts fs1 t w1 tg a p Hok1 Et Hs) as (fs2 & t2 & E2 & Hok2 & Hr2 & Hk2 & Ht2).
    { simpl. pose proof header_len. unfold small, u32_max in Hs. unfold offset_limit. lia. }
    pose proof (marked_insert_new (blake3 p) (Row (pack_id w1) (offset w1) (blen p) false) t Et) as Hm.
    rewrite <- Ht2 in Hm.
    exists fs2, t2, (written_writer w1 p). split_and!; [|done| |subst t2; by eexists].
    + rewrite (bind_inr (get_state ≫= _) _ _ () (Store (healthy fs1 t) w1 tg)); [done|].
      rewrite bind_state. cbn [writer target_size]. rewrite Eb. exact E1.
    + destruct (stable_keeps _ _ _ t t _ w1 _ _ Hok Hr1 Hk1 (reflexivity _)) as [A1 A2 A3 A4].
      destruct (stable_keeps _ _ _ t t2 _ (written_writer w1 p) _ _ Hok1
        (λ n Hn, Hr2 n (room_le (1 + n) n _ ltac:(lia) Hn)) Hk2 Hm) as [B1 B2 B3 B4].
      constructor; simpl in *; [| | |done].
      * intros n Hn. by apply Hr2, A1.
      * intros d Hd. by rewrite B2, A2.
      * intros i c E. by apply B3, A3.
  - destruct (write_frame_ok dsts fs t w tg a p Hok Et Hs Hfit) as (fs2 & t2 & E2 & Hok2 & Hr2 & Hk2 & Ht2).
    exists fs2, t2, (written_writer w p). split_and!; [|done| |subst t2; by eexists].
    + rewrite (bind_inr (get_state ≫= _) _ _ () (Store (healthy fs t) w tg)); [done|].
      rewrite bind_state. cbn [writer target_size]. by rewrite Eb.
    + eapply stable_keeps; [exact Hok| |exact Hk2|subst t2; by apply marked_insert_new].
      intros n Hn. apply Hr2. eapply room_le, Hn. lia.
Qed.

Lemma put_ok dsts s a p :
  store_ok dsts s a → small p → room 1 (dir (on s)) →
  ∃ s', put p s = (inr (blake3 p), s') ∧ store_ok dsts s' (spec_put p a) ∧ stable dsts s s' ∧
    match rows (on s) !! blake3 p with
    | Some r => rows (on s') = if r_tombstoned r then mark false (blake3 p) (rows (on s)) else rows (on s)
    | None => stored p s s'
    end.
Proof.
  intros Hok Hs Hr. rewrite (store_ok_healthy _ _ _ Hok) in Hok |- *.
  destruct s as [[fs t f] w tg]. cbn [on dir rows writer target_size] in *. clear f.
  pose proof (ok_holds _ _ _ Hok) as Hh. pose proof (ok_names _ _ _ Hok) as Hn. simpl in Hh, Hn.
  unfold put. rewrite (proj2 (N.ltb_ge MAX_FRAME_PAYLOAD (blen p)) Hs).
  run_step (lift_healthy _ fs t w tg _ _ (classify_run (blake3 p) fs t)).
  unfold classify at 1. unfold spec_put. destruct (t !! blake3 p) as [r|] eqn:E.
  - destruct (holds_Some _ _ _ _ _ Hh E) as ([q b] & Ea & Hb & _). simpl in Hb. rewrite Ea.
    destruct (r_tombstoned r) eqn:Er; subst b.
    + destruct (revive_ok dsts fs t w tg a (r_pack r) (blake3 p) Hok) as (fs' & Hsp & E1 & Hok1).
      eexists. split_and!.
      * run_step (lift_healthy _ fs t w tg _ _ E1). done.
      * rewrite <- (alter_as_insert a (blake3 p) (q, true) (set_evicted false) Ea). exact Hok1.
      * apply stable_same; [done|apply Hok1|done|apply marked_mark].
      * cbn [on rows healthy]. by rewrite E, Er.
    + exists (Store (healthy fs t) w tg). split_and!; [done| |by apply stable_same|cbn [on rows healthy]; by rewrite E, Er].
      by rewrite insert_id.
  - rewrite (proj1 (holds_None _ _ _ _ Hh) E).
    run_step (lift_healthy _ fs t w tg _ _ (classify_run (blake3 p) fs t)).
    unfold classify. rewrite E.
    destruct (put_frame_ok dsts fs t w tg a p Hok E Hs Hr) as (fs' & t' & w' & E1 & Hok1 & Hst & Hrow).
    eexists. split_and!; [|exact Hok1|exact Hst|cbn [on rows healthy]; by rewrite E]. run_step E1. done.
Qed.

End put.

(** The parts of a store known to be healthy. *)
Ltac split_store s :=
  match goal with Hok : store_ok _ s _ |- _ =>
    let Es := fresh in
    pose proof (store_ok_healthy _ _ _ Hok) as Es; rewrite Es in *; clear Es;
    destruct s as [[fs t ?] w tg]; cbn [on dir rows writer target_size healthy] in *
  end.
