(* ===== verification/PackReads.v ===== *)
(** * The blob store: reading, sizes, bulk eviction

    [get] answers what the abstract store holds, also when a compaction moves
    the blob between the lookup and the opening of the pack; [size_breakdown]
    adds up the abstract store; [tombstone_all_live] and [rotate_open_pack]. *)

From S2P Require Import Prelude.
From S2P Require Import Strings.
From S2P Require Import Bytes.
From S2P Require Import PackFormat.
From S2P Require Import PackFormatTheory.
From S2P Require Import PackStore.
From S2P Require Import PackRun.
From S2P Require Import PackInvariant.
From S2P Require Import PackPut.

Section reads.
Context `{PackHashing}.
Implicit Types (fs : gmap str bytes) (t : index) (w : OpenPack) (a : blobs) (dsts : list N).

(** ** Reading *)

Lemma read_frame_payload_run fs t h r x :
  blob_at fs h r x →
  read_frame_payload (r_pack r) (r_offset r) (r_length r) (healthy fs t) = (inr x.1, healthy fs t).
Proof.
  intros (_ & _ & c & Ec & Er). unfold read_frame_payload. unfold file_of in Ec.
  destruct (fs !! pack_path_sealed (r_pack r)) as [c'|] eqn:Es.
  - injection Ec as ->.
    run_step (attempt_run _ _ _ _ (file_open_run (pack_path_sealed (r_pack r)) c fs t Es)).
    rewrite (bind_inr (mret c) _ (healthy fs t) _ _ eq_refl).
    run_step (io_run fs t). by rewrite Er.
  - run_step (attempt_run _ _ _ _ (file_open_missing (pack_path_sealed (r_pack r)) fs t Es)).
    run_step (file_open_run (pack_path_open (r_pack r)) c fs t Ec).
    run_step (io_run fs t). by rewrite Er.
Qed.

Lemma read_frame_payload_gone fs t i off len :
  file_of fs i = None →
  read_frame_payload i off len (healthy fs t) = (inl (Io NotFound), healthy fs t).
Proof.
  unfold file_of. destruct (fs !! pack_path_sealed i) as [c|] eqn:Es; [done|]. intros Eo.
  unfold read_frame_payload.
  run_step (attempt_run _ _ _ _ (file_open_missing (pack_path_sealed i) fs t Es)).
  by rewrite (bind_inl _ _ _ _ _ (file_open_missing (pack_path_open i) fs t Eo)).
Qed.

Lemma lookup_run h fs t :
  attempt (query (λ t : index, t !! h)) (healthy fs t) = (inr (inr (t !! h)), healthy fs t).
Proof. done. Qed.

(** One turn of the loop of [get] when nothing interferes with it. *)
Lemma get_loop_run env turns i last h fs t a :
  env (2 * i) (healthy fs t) = healthy fs t →
  env (2 * i + 1) (healthy fs t) = healthy fs t →
  option_Forall2 (blob_at fs h) (t !! h) (a !! h) →
  get_loop env (S turns) i last h (healthy fs t) = (inr (spec_get h a), healthy fs t).
Proof.
  intros E0 E1 Hh. cbn [get_loop].
  rewrite (bind_inr (interfere (env (2 * i))) _ (healthy fs t) () (healthy fs t))
    by (unfold interfere; by rewrite E0).
  run_step (lookup_run h fs t). unfold spec_get.
  destruct Hh as [r [q b] Hb|]; [|done]. cbn [mbind option_bind].
  destruct Hb as (Hb & Hq & Hr). cbn [fst snd] in *. rewrite Hb. destruct b; [done|].
  rewrite (bind_inr (interfere (env (2 * i + 1))) _ (healthy fs t) () (healthy fs t))
    by (unfold interfere; by rewrite E1).
  run_step (attempt_run _ _ _ _ (read_frame_payload_run fs t h r (q, false)
    (conj Hb (conj Hq Hr)))). cbn [fst]. by rewrite bool_decide_eq_true_2.
Qed.

(** Reading a hash whose row is good. *)
Lemma get_row fs t h r x :
  t !! h = Some r → blob_at fs h r x →
  get h (healthy fs t) = (inr (if x.2 then None else Some x.1), healthy fs t).
Proof.
  intros E Hb. unfold get, get_with, MAX_GET_GC_RETRIES.
  rewrite (get_loop_run _ _ _ _ _ _ _ {[h := x]}); [|done..|].
  - unfold spec_get. by rewrite lookup_singleton_eq.
  - rewrite E, lookup_singleton_eq. by constructor.
Qed.

Lemma get_ok dsts s a h :
  store_ok dsts s a → get h (on s) = (inr (spec_get h a), on s).
Proof.
  intros Hok. rewrite (store_ok_healthy _ _ _ Hok). cbn [on].
  unfold get, get_with, MAX_GET_GC_RETRIES. apply get_loop_run; [done..|apply Hok].
Qed.

(** What a compaction does to packs that are being read: they stay as they are
    or disappear. *)
Definition kept_or_gone fs fs' : Prop :=
  ∀ i c, file_of fs i = Some c → file_of fs' i = None ∨ ∃ g, file_of fs' i = Some (c ++ g).

(** The other threads' step falls between the lookup and the opening of the
    pack, where [get] holds no lock. *)
Definition env_once (d : disk) (i : nat) : disk → disk :=
  λ d0, if decide (i = 1) then d else d0.

Lemma get_relocated fs t a fs' t' a' h :
  holds fs t a → holds fs' t' a' → kept_or_gone fs fs' → spec_collects a a' →
  ∃ d, get_with (env_once (healthy fs' t')) h (healthy fs t) = (inr (spec_get h a), d).
Proof.
  intros Hh Hh' Hk Hc. unfold get_with, MAX_GET_GC_RETRIES. cbn [get_loop].
  rewrite (bind_inr (interfere _) _ (healthy fs t) () (healthy fs t) eq_refl).
  run_step (lookup_run h fs t). destruct (t !! h) as [r|] eqn:E.
  - destruct (holds_Some _ _ _ _ _ Hh E) as ([q b] & Ea & Hb). pose proof Hb as (Hb1 & Hq & Hr).
    cbn [fst snd] in *. destruct b; rewrite Hb1.
    { unfold spec_get. rewrite Ea. by eexists. }
    rewrite (bind_inr (interfere _) _ (healthy fs t) () (healthy fs' t') eq_refl).
    destruct Hr as (c & Ec & Er). destruct (Hk _ _ Ec) as [Egone|[g Eg]].
    + run_step (attempt_run _ _ _ _ (read_frame_payload_gone fs' t' (r_pack r) (r_offset r) (r_length r) Egone)).
      cbn [Nat.ltb Nat.leb andb]. eexists. rewrite <- (spec_collects_get a a' h Hc).
      apply (get_loop_run (env_once (healthy fs' t')) 2 1); done.
    + assert (blob_at fs' h r (q, false)) as Hb'.
      { split_and!; [done..|]. exists (c ++ g). split; [done|]. by apply read_frame_app. }
      run_step (attempt_run _ _ _ _ (read_frame_payload_run fs' t' h r (q, false) Hb')).
      cbn [fst]. rewrite bool_decide_eq_true_2 by done. unfold spec_get. rewrite Ea. by eexists.
  - apply (holds_None _ _ _ _ Hh) in E. unfold spec_get. rewrite E. by eexists.
Qed.

(** ** Sizes *)

(** The bytes of the blobs that are live ([b = false]) or evicted. *)
Definition spec_size (b : bool) (a : blobs) : N :=
  map_fold (λ _ x n, if Bool.eqb x.2 b then blen x.1 + n else n)%N 0%N a.

Definition weigh (b : bool) (r : row) : N := if Bool.eqb (r_tombstoned r) b then r_length r else 0.
Definition spec_weigh (b : bool) (x : bytes * bool) : N := if Bool.eqb x.2 b then blen x.1 else 0.

Lemma map_fold_weigh {A} (f : A → N) (m : gmap BlobHash A) :
  map_fold (λ _ x n, f x + n)%N 0%N m = map_fold (λ _ k n, k + n)%N 0%N (f <$> m).
Proof. by rewrite map_fold_fmap. Qed.

Lemma holds_weigh fs t a b : holds fs t a → weigh b <$> t = spec_weigh b <$> a.
Proof.
  intros Hh. apply map_eq. intros h. rewrite !lookup_fmap.
  destruct (Hh h) as [r x (Hb & _ & c & _ & Er)|]; [|done].
  apply read_frame_spec in Er as [El _]. simpl. f_equal.
  unfold weigh, spec_weigh. by rewrite Hb, El.
Qed.

Lemma total_length_live t b (f : BlobHash * row → bool) :
  (∀ e, f e = Bool.eqb (r_tombstoned e.2) b) →
  total_length (List.filter f (rows_list t)) = map_fold (λ _ r n, weigh b r + n)%N 0%N t.
Proof.
  intros Hf. rewrite map_fold_foldr. unfold rows_list. induction (map_to_list t) as [|[h r] l IH]; [done|].
  cbn [List.filter foldr uncurry]. rewrite Hf, <- IH. cbn [snd]. unfold weigh.
  by destruct (Bool.eqb (r_tombstoned r) b).
Qed.

Lemma size_breakdown_ok dsts s a :
  store_ok dsts s a →
  size_breakdown (on s) = (inr (spec_size false a, spec_size true a), on s).
Proof.
  intros Hok. rewrite (store_ok_healthy _ _ _ Hok). pose proof (ok_holds _ _ _ Hok) as Hh.
  destruct s as [[fs t f] w tg]. cbn [on dir rows] in *. unfold size_breakdown. rewrite query_run.
  assert (∀ b, map_fold (λ _ r n, weigh b r + n)%N 0%N t = spec_size b a) as Hs.
  { intros b. rewrite map_fold_weigh, (holds_weigh fs t a b Hh), <- map_fold_weigh.
    unfold spec_size. rewrite !map_fold_foldr.
    induction (map_to_list a) as [|[h [q c]] l IH]; [done|]. cbn [foldr uncurry snd].
    rewrite IH. unfold spec_weigh. cbn [snd fst]. by destruct (Bool.eqb c b). }
  rewrite (total_length_live t false is_live), (total_length_live t true is_dead), !Hs; [done|..];
    intros [h r]; unfold is_live, is_dead; simpl; by destruct (r_tombstoned r).
Qed.

(** ** Evicting everything *)

Lemma append_batches fs t l :
  names_ok fs →
  ∃ fs', for_each (λ e : N * list BlobHash, append_tombstone_log_batch e.1 e.2 Tombstone) l (healthy fs t)
    = (inr (), healthy fs' t) ∧ same_packs fs fs' ∧ names_ok fs'.
Proof.
  intros Hn. set (P := λ (_ : list (N * list BlobHash)) d,
    ∃ fs', d = healthy fs' t ∧ same_packs fs fs' ∧ names_ok fs').
  destruct (for_each_run (λ e : N * list BlobHash, append_tombstone_log_batch e.1 e.2 Tombstone) P l (healthy fs t))
    as (d & Ed & fs' & -> & Hs & Hn'); [by exists fs| |by exists fs'].
  intros [i hs] l' d (fs' & -> & Hs & Hn'). unfold append_tombstone_log_batch. cbn [fst snd].
  destruct (is_nil hs).
  - exists (healthy fs' t). split; [done|]. by exists fs'.
  - rewrite file_append_run. eexists. split; [done|]. eexists. split_and!; [done| |by apply names_ok_log].
    intros j b. by rewrite (same_packs_log fs' i _ j b), (Hs j b).
Qed.

Lemma no_live_evict_all fs t a :
  holds fs t a → List.filter is_live (rows_list t) = [] → spec_evict_all a = a.
Proof.
  intros Hh El. apply map_eq. intros h. unfold spec_evict_all. rewrite lookup_fmap.
  destruct (a !! h) as [[q b]|] eqn:Ea; [|done]. simpl. destruct b; [done|]. exfalso.
  destruct (t !! h) as [r|] eqn:Et; [|apply (holds_None _ _ _ _ Hh) in Et; congruence].
  destruct (holds_Some _ _ _ _ _ Hh Et) as (x & Ex & Hb & _). rewrite Ea in Ex.
  injection Ex as <-. simpl in Hb.
  assert (In (h, r) (List.filter is_live (rows_list t))) as Hin.
  { apply filter_In. split; [by apply list_elem_of_In, elem_of_map_to_list|].
    unfold is_live. simpl. by rewrite Hb. }
  by rewrite El in Hin.
Qed.

(** The number of live blobs *)
Definition spec_live (a : blobs) : N :=
  map_fold (λ _ (x : bytes * bool) n, (if x.2 then 0 else 1) + n)%N 0%N a.

Lemma count_live fs t a :
  holds fs t a → N.of_nat (length (List.filter is_live (rows_list t))) = spec_live a.
Proof.
  intros Hh. unfold spec_live. rewrite (map_fold_weigh (λ x : bytes * bool, if x.2 then 0 else 1)%N a).
  replace ((λ x : bytes * bool, if x.2 then 0 else 1)%N <$> a)
    with ((λ r, if r_tombstoned r then 0 else 1)%N <$> t).
  - rewrite <- map_fold_weigh, map_fold_foldr. unfold rows_list.
    induction (map_to_list t) as [|[h r] l IH]; [done|]. cbn [List.filter foldr uncurry].
    rewrite <- IH. unfold is_live. cbn [snd]. destruct (r_tombstoned r); simpl; lia.
  - apply map_eq. intros h. rewrite !lookup_fmap.
    destruct (Hh h) as [r x (Hb & _)|]; [simpl; by rewrite Hb|done].
Qed.

Lemma tombstone_all_ok dsts fs t w tg a :
  store_ok dsts (Store (healthy fs t) w tg) a →
  ∃ fs' t', tombstone_all_live (healthy fs t) = (inr (spec_live a), healthy fs' t') ∧
    store_ok dsts (Store (healthy fs' t') w tg) (spec_evict_all a) ∧
    same_packs fs fs' ∧ marked t t' ∧ no_new_live t t' ∧ only_marks t t'.
Proof.
  intros Hok. pose proof (ok_holds _ _ _ Hok) as Hh. pose proof (ok_names _ _ _ Hok) as Hn. simpl in Hh, Hn.
  unfold tombstone_all_live.
  run_step (query_run (λ t, List.filter is_live (rows_list t)) fs t).
  destruct (is_nil _) eqn:En.
  - apply is_nil_spec in En. exists fs, t. split_and!.
    { by rewrite <- (count_live fs t a Hh), En. }
    2-3: done. 2: by intros k x. 2: apply only_marks_refl.
    by rewrite (no_live_evict_all fs t a Hh En).
  - destruct (append_batches fs t (map_to_list (group_by_pack (List.filter is_live (rows_list t)))) Hn)
      as (fs' & E1 & Hs & Hn').
    run_step E1. run_step (query_run (λ t, N.of_nat (length (List.filter is_live (rows_list t)))) fs' t).
    eexists fs', _. split_and!; [by rewrite (count_live fs t a Hh)| |done|apply marked_all|apply no_new_live_all|apply only_marks_all].
    eapply store_ok_marked; [exact Hs|done|apply marked_all|apply only_marks_all| |exact Hok].
    apply holds_mark_all, (holds_extend fs); [by apply same_packs_extend|done].
Qed.

(** ** Rotation on demand *)

Lemma rotate_open_pack_ok dsts s a :
  store_ok dsts s a → room 1 (dir (on s)) →
  ∃ s', rotate_open_pack s = (inr (), s') ∧ store_ok dsts s' a ∧ stable dsts s s' ∧
    rows (on s') = rows (on s).
Proof.
  intros Hok Hr. rewrite (store_ok_healthy _ _ _ Hok) in Hok |- *.
  destruct s as [[fs t f] w tg]. cbn [on dir rows writer target_size] in *. clear f.
  unfold rotate_open_pack. rewrite bind_state. cbn [writer]. destruct (N.eqb_spec (offset w) 0).
  - exists (Store (healthy fs t) w tg). split_and!; [done..| |done]. by apply stable_same; [apply Hok..| |].
  - destruct (rotate_ok dsts fs t w tg a Hok Hr) as (fs1 & nid & E1 & Hok1 & Hr1 & Hk1).
    eexists. split_and!; [exact E1|exact Hok1| |done]. by eapply stable_keeps.
Qed.

End reads.
