(* ===== verification/PackGc.v ===== *)
(** * The blob store: compaction

    What each of the steps of [compact_pack] establishes for the next one.
    Between the steps other threads may run: what a step needs of them is
    [quiet], that rows keep their place and that no blob of the source pack
    comes back to life. *)

From S2P Require Import Prelude.
From S2P Require Import Strings.
From S2P Require Import Bytes.
From S2P Require Import PackFormat.
From S2P Require Import PackFormatTheory.
From S2P Require Import PackStore.
From S2P Require Import PackRun.
From S2P Require Import PackInvariant.
From S2P Require Import PackPut.
From S2P Require Import PackReads.

Section gc.
Context `{PackHashing}.
Implicit Types (fs : gmap str bytes) (t : index) (w : OpenPack) (a : blobs) (dsts : list N).

(** ** Allocation *)

Lemma compact_allocate_ok dsts fs t w tg a :
  store_ok dsts (Store (healthy fs t) w tg) a → room 1 fs →
  ∃ dst, compact_allocate (healthy fs t) = (inr dst, healthy (<[pack_path_open dst := []]> fs) t) ∧
    store_ok (dst :: dsts) (Store (healthy (<[pack_path_open dst := []]> fs) t) w tg) a ∧
    (∀ b, fs !! path_of dst b = None) ∧ (dst ≤ u32_max)%N ∧
    (∀ n, room (1 + n) fs → room n (<[pack_path_open dst := []]> fs)).
Proof.
  intros Hok Hr. pose proof (ok_names _ _ _ Hok) as Hn. simpl in Hn.
  set (dst := next_id (packs_of fs)). pose proof (λ b, next_id_fresh fs b Hn Hr) as Hnew. fold dst in Hnew.
  destruct (ok_writer _ _ _ Hok) as (ps & Hw & Hi). simpl in *. pose proof (wr_file _ _ _ Hw) as Hwf.
  assert (dst ≠ pack_id w) as Hne by (intros E; rewrite <- E in Hwf; pose proof (Hnew false); simpl in *; congruence).
  exists dst. split_and!.
  - unfold compact_allocate. rewrite (bind_inr next_pack_id _ (healthy fs t) dst (healthy fs t) eq_refl).
    by run_step (file_create_new_run (pack_path_open dst) fs t (Hnew false)).
  - constructor; simpl.
    + done.
    + rewrite pack_path_open_of. apply names_ok_pack; [apply next_id_le|done].
    + intros i. destruct (decide (i = dst)) as [->|Hni]; simpl_fs; [left; apply (Hnew true)|].
      apply (ok_form _ _ _ Hok).
    + intros i c. simpl_fs. apply (ok_sealed _ _ _ Hok).
    + intros i Hi'. destruct (decide (i = dst)) as [->|Hni]; [right; set_solver|].
      rewrite lookup_insert_ne in Hi' by pack_ne. destruct (ok_opens _ _ _ Hok i Hi'); set_solver.
    + exists ps. split; [|done]. destruct Hw. constructor; try done. by simpl_fs.
    + intros d [->|Hd]%elem_of_cons; [split; [done|by simpl_fs; eexists]|].
      destruct (ok_dsts _ _ _ Hok d Hd) as [Hdw Hdo]. split; [done|]. simpl in Hdo.
      destruct (decide (d = dst)) as [->|Hdd]; simpl_fs; [by eexists|done].
    + intros d h r Hd E Ep. apply elem_of_cons in Hd as [->|Hd]; [|by apply (ok_unused _ _ _ Hok d h r)].
      destruct (holds_Some _ _ _ _ _ (ok_holds _ _ _ Hok) E) as (x & _ & _ & _ & c & Ec & _).
      rewrite Ep in Ec. unfold file_of in Ec. simpl in Ec.
      by rewrite (Hnew true : fs !! pack_path_sealed dst = _), (Hnew false : fs !! pack_path_open dst = _) in Ec.
    + apply Hok.
    + apply Hok.
    + apply (holds_extend fs); [|apply Hok]. rewrite pack_path_open_of. by apply extend_new.
  - done.
  - apply next_id_le.
  - intros n Hn'. destruct (next_id_bound n fs Hn') as [Hb|Hb].
    + rewrite pack_path_open_of. apply room_insert; [done|apply next_id_le|done|].
      eapply room_le, Hn'. lia.
    + exfalso. assert ((pack_id w, false) ∈ packs_of fs) as Hin.
      { apply elem_of_packs_ok; [done|apply Hw|]. by eexists. }
      rewrite Hb in Hin. by apply elem_of_nil in Hin.
Qed.

(** ** The scan *)

(** [live] has the live rows of [src], at places they still have. *)
Record scanned (src : N) (live : list (BlobHash * row)) (t : index) : Prop := {
  sc_nodup : NoDup live.*1;
  sc_rows : ∀ h r, (h, r) ∈ live → r_pack r = src ∧ ∃ b, t !! h = Some (set_tombstoned b r);
  sc_live : ∀ h r, t !! h = Some r → r_pack r = src → r_tombstoned r = false → h ∈ live.*1
}.

Definition live_rows (src : N) (t : index) : list (BlobHash * row) :=
  List.filter is_live (rows_in src t).

Lemma elem_of_live_rows src t h r :
  (h, r) ∈ live_rows src t ↔ t !! h = Some r ∧ r_pack r = src ∧ r_tombstoned r = false.
Proof.
  unfold live_rows, rows_in, rows_list. rewrite !list_elem_of_In, !filter_In, <- list_elem_of_In.
  rewrite elem_of_map_to_list. unfold is_live. cbn [snd]. rewrite N.eqb_eq, negb_true_iff. tauto.
Qed.

Lemma filter_fst_sublist (f : BlobHash * row → bool) l : (List.filter f l).*1 `sublist_of` l.*1.
Proof.
  induction l as [|x l IH]; [constructor|]. cbn [List.filter]. destruct (f x); simpl; by constructor.
Qed.

Lemma scanned_live_rows src t : scanned src (live_rows src t) t.
Proof.
  constructor.
  - eapply sublist_NoDup; [|apply filter_fst_sublist]. eapply sublist_NoDup; [|apply filter_fst_sublist].
    apply NoDup_fst_map_to_list.
  - intros h r (Et & Ep & El)%elem_of_live_rows. split; [done|]. exists false.
    rewrite Et. f_equal. destruct r; simpl in *. by subst.
  - intros h r Et Ep El. apply list_elem_of_fmap. exists (h, r). split; [done|]. by apply elem_of_live_rows.
Qed.

Lemma compact_scan_run src fs t :
  compact_scan src (healthy fs t) = (inr (live_rows src t), healthy fs t).
Proof. done. Qed.

(** What other threads may do between the steps. *)
Record quiet (src : N) (t t' : index) : Prop := {
  qt_rows : marked t t';
  qt_live : ∀ h r, t' !! h = Some r → r_pack r = src → r_tombstoned r = false →
              ∃ r', t !! h = Some r' ∧ r_pack r' = src ∧ r_tombstoned r' = false
}.

#[export] Instance quiet_preorder src : PreOrder (quiet src).
Proof.
  split.
  - intros t. constructor; [done|eauto].
  - intros t1 t2 t3 [A1 A2] [B1 B2]. constructor; [by transitivity t2|].
    intros h r E Ep El. destruct (B2 h r E Ep El) as (r' & E' & Ep' & El'). eauto.
Qed.

Lemma scanned_quiet src live t t' : quiet src t t' → scanned src live t → scanned src live t'.
Proof.
  intros [Hm Hl] [S1 S2 S3]. constructor; [done| |].
  - intros h r Hin. destruct (S2 h r Hin) as [Ep [b Eb]]. split; [done|].
    destruct (Hm _ _ Eb) as [b' Eb']. by exists b'.
  - intros h r E Ep El. destruct (Hl h r E Ep El) as (r' & E' & Ep' & El'). eauto.
Qed.

(** ** The copy *)

(** A row's frame in [src] is in [dst] at another offset. *)
Definition moved_to (csrc cdst : bytes) (e : BlobHash * N) (e' : BlobHash * row) : Prop :=
  e.1 = e'.1 ∧ ∃ q, read_frame csrc (r_offset e'.2) (r_length e'.2) = inr q ∧
    read_frame cdst e.2 (r_length e'.2) = inr q.

Definition bytes_of (l : list (BlobHash * row)) : N :=
  foldr (λ e n, FRAME_HEADER_LEN + r_length e.2 + n)%N 0%N l.

Lemma moved_to_app csrc cdst g e e' : moved_to csrc cdst e e' → moved_to csrc (cdst ++ g) e e'.
Proof. intros (E & q & E1 & E2). split; [done|]. exists q. split; [done|]. by apply read_frame_app. Qed.

Lemma dst_write_run path pos b c fs t :
  fs !! path = Some c → pos = blen c →
  dst_write path pos b (healthy fs t) = (inr (), healthy (<[path := c ++ b]> fs) t).
Proof.
  intros E Ep. unfold dst_write. by run_step (file_write_run path pos b c fs t E Ep).
Qed.

(** One frame: its header and payload come out of the source as they are. *)
Lemma copy_frame_run fs t path csrc qs acc h r q :
  fs !! path = Some (frames qs) → dst_offset acc = blen (frames qs) →
  read_frame csrc (r_offset r) (r_length r) = inr q →
  (blen (frames qs) + (FRAME_HEADER_LEN + blen q) ≤ u64_max)%N →
  copy_frame path csrc acc (h, r) (healthy fs t) =
  (inr (Copied (new_offsets acc ++ [(h, blen (frames qs))])
          (blen (frames (qs ++ [q]))) (sat_add_u32 (frame_count acc) 1)),
   healthy (<[path := frames (qs ++ [q])]> fs) t).
Proof.
  intros Ef Eo (El & Hq & g & Eg)%read_frame_spec Hb. unfold copy_frame. cbn [fst snd].
  run_step (io_run fs t). unfold read_or_eof.
  set (hd := frame_header (blen q) (xxh3_64 q)).
  assert (read_exact FRAME_HEADER_LEN (r_offset r) csrc = Some hd) as ->.
  { apply read_exact_Some. split; [apply blen_frame_header|]. exists (q ++ g).
    rewrite Eg. unfold frame. by rewrite <- app_assoc. }
  rewrite (bind_inr (mret hd) _ _ _ _ eq_refl).
  rewrite bool_decide_eq_true_2 by apply frame_header_magic. cbn [negb].
  assert (read_exact (r_length r) (r_offset r + FRAME_HEADER_LEN) csrc = Some q) as ->.
  { apply read_exact_Some. split; [done|]. exists g.
    unfold frame in Eg. rewrite <- app_assoc in Eg.
    apply (bdrop_add_app _ _ _ _ _ Eg). apply blen_frame_header. }
  rewrite (bind_inr (mret q) _ _ _ _ eq_refl).
  run_step (dst_write_run path (dst_offset acc) hd (frames qs) fs t Ef Eo).
  run_step (dst_write_run path (dst_offset acc + FRAME_HEADER_LEN) q (frames qs ++ hd)
    (<[path := frames qs ++ hd]> fs) t (lookup_insert_eq _ _ _)
    ltac:(rewrite blen_app, Eo; unfold hd; by rewrite blen_frame_header)).
  rewrite insert_insert_eq, <- app_assoc.
  rewrite frames_app, frames_singleton, blen_app, blen_frame, El, Eo.
  rewrite sat_add_u64_exact by done. done.
Qed.

Lemma compact_copy_ok src dst live csrc fs t :
  fs !! pack_path_sealed src = Some csrc → fs !! pack_path_open dst = Some [] →
  Forall (λ e, ∃ q, read_frame csrc (r_offset e.2) (r_length e.2) = inr q) live →
  (bytes_of live ≤ u64_max)%N →
  ∃ c qs, compact_copy src dst live (healthy fs t) =
      (inr c, healthy (<[pack_path_open dst := frames qs]> fs) t) ∧
    Forall small qs ∧ dst_offset c = blen (frames qs) ∧
    Forall2 (moved_to csrc (frames qs)) (new_offsets c) live.
Proof.
  intros Es Ed Hl Hb. unfold compact_copy.
  run_step (file_open_run (pack_path_sealed src) csrc fs t Es).
  set (P := λ (rest : list (BlobHash * row)) (acc : copied) (d : disk),
    ∃ copied qs, live = copied ++ rest ∧
      d = healthy (<[pack_path_open dst := frames qs]> fs) t ∧ Forall small qs ∧
      dst_offset acc = blen (frames qs) ∧ (blen (frames qs) + bytes_of rest ≤ u64_max)%N ∧
      Forall2 (moved_to csrc (frames qs)) (new_offsets acc) copied).
  destruct (fold_m_run (copy_frame (pack_path_open dst) csrc) P live (Copied [] 0 0) (healthy fs t))
    as (c & d & E & copied & qs & El & -> & Hq & Ho & _ & Hf).
  - exists [], []. split_and!; [done| |done|done|done|constructor].
    f_equal. symmetry. by apply insert_id.
  - intros [h r] rest acc d (copied & qs & El & -> & Hq & Ho & Hbb & Hf).
    assert (∃ q, read_frame csrc (r_offset r) (r_length r) = inr q) as [q Eq].
    { rewrite El in Hl. apply Forall_app in Hl as [_ Hl]. by apply Forall_cons in Hl as [? _]. }
    pose proof Eq as (Elen & Hsq & _)%read_frame_spec.
    assert (bytes_of ((h, r) :: rest) = FRAME_HEADER_LEN + blen q + bytes_of rest)%N as Hbr
      by (rewrite <- Elen; done).
    rewrite Hbr in Hbb.
    eexists _, _. split.
    + apply (copy_frame_run _ t _ csrc qs acc h r q); [by rewrite lookup_insert_eq|done|done|lia].
    + exists (copied ++ [(h, r)]), (qs ++ [q]). rewrite insert_insert_eq. split_and!.
      * by rewrite <- app_assoc.
      * done.
      * by apply Forall_app_2; [|constructor].
      * done.
      * rewrite frames_app, frames_singleton, blen_app, blen_frame. lia.
      * simpl. apply Forall2_app.
        -- rewrite frames_app. eapply Forall2_impl; [exact Hf|]. intros e e'. apply moved_to_app.
        -- constructor; [|constructor]. split; [done|]. exists q. split; [done|]. simpl.
           rewrite Elen, frames_app, frames_singleton, <- (app_nil_r (frame q)).
           by apply read_frame_mid.
  - rewrite app_nil_r in El. subst copied. by exists c, qs.
Qed.

(** ** The seal *)

Definition dst_sealed_fs fs (dst : N) (qs : list bytes) (n : N) : gmap str bytes :=
  <[pack_path_sealed dst := frames qs ++ pack_tail n]> (delete (pack_path_open dst) fs).

Lemma compact_seal_run dst c qs fs t :
  fs !! pack_path_open dst = Some (frames qs) → dst_offset c = blen (frames qs) →
  compact_seal dst c (healthy fs t) = (inr (), healthy (dst_sealed_fs fs dst qs (frame_count c)) t).
Proof.
  intros E Eo. unfold compact_seal.
  run_step (dst_write_run (pack_path_open dst) (dst_offset c) (pack_tail (frame_count c)) (frames qs) fs t E Eo).
  set (fs1 := <[pack_path_open dst := frames qs ++ pack_tail (frame_count c)]> fs).
  run_step (io_run fs1 t).
  rewrite (file_rename_run (pack_path_open dst) (pack_path_sealed dst)
    (frames qs ++ pack_tail (frame_count c)) fs1 t (lookup_insert_eq _ _ _)).
  unfold fs1. by rewrite delete_insert_eq.
Qed.

(** A directory in which one open pack got new contents, or was sealed with
    them, without readers noticing. *)
Lemma store_ok_grow dsts fs t w tg a dst c qs :
  dst ∈ dsts → Forall small qs → fs !! pack_path_open dst = Some c →
  (∃ g, frames qs = c ++ g) → (dst ≤ u32_max)%N →
  store_ok dsts (Store (healthy fs t) w tg) a →
  store_ok dsts (Store (healthy (<[pack_path_open dst := frames qs]> fs) t) w tg) a.
Proof.
  intros Hd Hq Ec [g Eg] Hdst Hok. destruct (ok_dsts _ _ _ Hok dst Hd) as [Hne _]. simpl in Hne.
  destruct (ok_writer _ _ _ Hok) as (ps & Hw & Hi). simpl in *.
  constructor; simpl; try apply Hok.
  - rewrite pack_path_open_of. apply names_ok_pack; [done|apply Hok].
  - intros i. destruct (decide (i = dst)) as [->|Hni]; simpl_fs; [|apply (ok_form _ _ _ Hok)].
    destruct (ok_form _ _ _ Hok dst); [by left|simpl in *; congruence].
  - intros i x. simpl_fs. apply (ok_sealed _ _ _ Hok).
  - intros i Hx. destruct (decide (i = dst)) as [->|Hni]; [by right|].
    rewrite lookup_insert_ne in Hx by pack_ne. by apply (ok_opens _ _ _ Hok).
  - exists ps. split; [|done]. destruct Hw. constructor; try done. by simpl_fs.
  - intros d Hd'. destruct (ok_dsts _ _ _ Hok d Hd') as [Hdw Hdo]. split; [done|]. simpl in Hdo.
    destruct (decide (d = dst)) as [->|]; simpl_fs; [by eexists|done].
  - apply (holds_extend fs); [|apply Hok]. rewrite Eg. apply extend_open; [apply Hok|done].
Qed.

Lemma compact_seal_ok dsts fs t w tg a dst qs n :
  store_ok (dst :: dsts) (Store (healthy fs t) w tg) a → (dst ≤ u32_max)%N → dst ∉ dsts →
  fs !! pack_path_open dst = Some (frames qs) → Forall small qs →
  store_ok dsts (Store (healthy (dst_sealed_fs fs dst qs n) t) w tg) a.
Proof.
  intros Hok Hdst Hnin Ed Hq.
  destruct (ok_dsts _ _ _ Hok dst ltac:(by apply list_elem_of_here)) as [Hne _]. simpl in Hne.
  destruct (ok_writer _ _ _ Hok) as (ps & Hw & Hi). simpl in *. unfold dst_sealed_fs.
  constructor; simpl; try apply Hok.
  - rewrite pack_path_sealed_of. apply names_ok_pack; [done|]. apply names_ok_delete, Hok.
  - intros i. destruct (decide (i = dst)) as [->|Hni]; simpl_fs; [by right|apply (ok_form _ _ _ Hok)].
  - intros i x. destruct (decide (i = dst)) as [->|Hni]; simpl_fs; [|apply (ok_sealed _ _ _ Hok)].
    intros [= <-]. eauto.
  - intros i. destruct (decide (i = dst)) as [->|Hni]; simpl_fs; [by intros []|].
    intros Hx. destruct (ok_opens _ _ _ Hok i Hx) as [->|Hin]; [by left|].
    apply elem_of_cons in Hin as [->|Hin]; [done|by right].
  - exists ps. split; [|done]. destruct Hw. constructor; try done. by simpl_fs.
  - intros d Hd. destruct (ok_dsts _ _ _ Hok d ltac:(by apply list_elem_of_further)) as [Hdw Hdo].
    split; [done|]. simpl in Hdo. assert (d ≠ dst) by (intros ->; done). by simpl_fs.
  - intros d h r Hd. apply (ok_unused _ _ _ Hok d h r). by apply list_elem_of_further.
  - apply (holds_extend fs); [|apply Hok]. apply extend_seal; [apply Hok|done].
Qed.

(** ** The swap *)

Lemma repoint_lookup dst offs t h r :
  NoDup offs.*1 → t !! h = Some r →
  foldl (repoint dst) t offs !! h =
  Some (match list_find (λ e, e.1 = h) offs with
        | Some (_, e) => Row dst e.2 (r_length r) (r_tombstoned r)
        | None => r
        end).
Proof.
  revert t r. induction offs as [|[k off] offs IH]; intros t r Hnd E; [done|].
  cbn [foldl fmap list_fmap fst] in *. apply NoDup_cons in Hnd as [Hk Hnd].
  unfold repoint at 2. cbn [fst snd]. destruct (decide (k = h)) as [->|Hne].
  - rewrite (IH _ (Row dst off (r_length r) (r_tombstoned r)) Hnd) by (by rewrite lookup_alter_eq, E).
    assert (list_find (λ e : BlobHash * N, e.1 = h) offs = None) as ->.
    { apply list_find_None, Forall_forall. intros e He Ee. apply Hk. rewrite <- Ee.
      by apply list_elem_of_fmap_2. }
    cbn [list_find fst]. by rewrite decide_True.
  - rewrite (IH _ r Hnd) by (by rewrite lookup_alter_ne).
    cbn [list_find fst]. rewrite decide_False by done.
    by destruct (list_find (λ e : BlobHash * N, e.1 = h) offs) as [[]|].
Qed.

Lemma repoint_None dst offs t h :
  foldl (repoint dst) t offs !! h = None ↔ t !! h = None.
Proof.
  revert t. induction offs as [|[k off] offs IH]; intros t; [done|].
  cbn [foldl]. rewrite IH. unfold repoint. cbn [fst snd].
  destruct (decide (k = h)) as [->|Hne].
  - rewrite lookup_alter_eq. by destruct (t !! h).
  - by rewrite lookup_alter_ne.
Qed.

(** The rows after the swap: those copied point to the destination, the other
    rows of the source are gone, and the rest has not changed. *)
Record swapped (src dst : N) (offs : list (BlobHash * N)) (t t' : index) : Prop := {
  sw_moved : ∀ h off r, (h, off) ∈ offs → t !! h = Some r →
    t' !! h = Some (Row dst off (r_length r) (r_tombstoned r));
  sw_gone : ∀ h r, t !! h = Some r → h ∉ offs.*1 → r_pack r = src → r_tombstoned r = true → t' !! h = None;
  sw_kept : ∀ h r, t !! h = Some r → h ∉ offs.*1 → (r_pack r ≠ src ∨ r_tombstoned r = false) →
    t' !! h = Some r;
  sw_none : ∀ h, t !! h = None → t' !! h = None
}.

Lemma swapped_swap_rows src dst offs t :
  NoDup offs.*1 → src ≠ dst → swapped src dst offs t (swap_rows src dst offs t).
Proof.
  intros Hnd Hne. unfold swap_rows, delete_dead.
  assert (∀ h r, t !! h = Some r → h ∉ offs.*1 → foldl (repoint dst) t offs !! h = Some r) as Hout.
  { intros h r E Hin. rewrite (repoint_lookup dst offs t h r Hnd E).
    assert (list_find (λ e : BlobHash * N, e.1 = h) offs = None) as ->; [|done].
    apply list_find_None, Forall_forall. intros e He Ee. apply Hin. rewrite <- Ee.
    by apply list_elem_of_fmap_2. }
  constructor.
  - intros h off r Hin E. apply map_lookup_filter_Some_2; [|cbn [snd r_pack]; naive_solver].
    rewrite (repoint_lookup dst offs t h r Hnd E).
    destruct (list_find (λ e : BlobHash * N, e.1 = h) offs) as [[k [h' off']]|] eqn:Ef.
    + apply list_find_Some in Ef as (Ek & Eh & _). simpl in Eh. subst h'.
      apply list_elem_of_lookup in Hin as [j Ej].
      assert (j = k) as ->; [|by simplify_eq].
      apply (NoDup_lookup offs.*1 j k h Hnd); rewrite list_lookup_fmap; by rewrite ?Ej, ?Ek.
    + apply list_find_None in Ef. rewrite Forall_forall in Ef. by destruct (Ef _ Hin).
  - intros h r E Hin Ep Et. apply map_lookup_filter_None_2. right. intros x Ex.
    rewrite (Hout h r E Hin) in Ex. injection Ex as <-. naive_solver.
  - intros h r E Hin Hor. apply map_lookup_filter_Some_2; [by apply Hout|]. cbn [snd].
    intros [Ep Et]. destruct Hor as [?|Ef]; [done|congruence].
  - intros h E. apply map_lookup_filter_None_2. left. by apply repoint_None.
Qed.

(** The abstract store after the swap: what the index still has. *)
Definition still_indexed (t : index) (a : blobs) : blobs :=
  filter (λ e : BlobHash * (bytes * bool), is_Some (t !! e.1)) a.

Lemma spec_collects_still fs t t' a :
  holds fs t a →
  (∀ h r, t !! h = Some r → r_tombstoned r = false → is_Some (t' !! h)) →
  spec_collects a (still_indexed t' a).
Proof.
  intros Hh Hl. split; [apply map_filter_subseteq|]. intros h [q b] Ea Eb. simpl in Eb. subst b.
  unfold still_indexed. apply map_lookup_filter_Some_2; [done|]. cbn [fst].
  destruct (t !! h) as [r|] eqn:E; [|apply (holds_None _ _ _ _ Hh) in E; congruence].
  destruct (holds_Some _ _ _ _ _ Hh E) as (x & Ex & Hb & _). rewrite Ea in Ex. injection Ex as <-.
  by apply (Hl h r).
Qed.

Lemma moved_blob_at fs csrc cdst dst h off r x :
  blob_at fs h r x → file_of fs (r_pack r) = Some csrc → file_of fs dst = Some cdst →
  (∃ q, read_frame csrc (r_offset r) (r_length r) = inr q ∧ read_frame cdst off (r_length r) = inr q) →
  blob_at fs h (Row dst off (r_length r) (r_tombstoned r)) x.
Proof.
  intros (Hb & Hh & c & Ec & Er) Es Ed (q & E1 & E2). split_and!; [done..|]. exists cdst.
  split; [done|]. simpl. assert (c = csrc) as -> by congruence. congruence.
Qed.

Lemma holds_swapped fs t t' a src dst live offs csrc cdst :
  holds fs t a → scanned src live t → Forall2 (moved_to csrc cdst) offs live →
  file_of fs src = Some csrc → file_of fs dst = Some cdst →
  swapped src dst offs t t' → holds fs t' (still_indexed t' a).
Proof.
  intros Hh [S1 S2 S3] Hf Es Ed [W1 W2 W3 W4] h. unfold still_indexed.
  destruct (t !! h) as [r|] eqn:E.
  2:{ rewrite (W4 h E). rewrite map_lookup_filter_None_2; [constructor|left].
      by apply (holds_None _ _ _ _ Hh). }
  destruct (holds_Some _ _ _ _ _ Hh E) as (x & Ex & Hb).
  assert (∀ r', t' !! h = Some r' → blob_at fs h r' x →
    option_Forall2 (blob_at fs h) (t' !! h)
      (filter (λ e : BlobHash * (bytes * bool), is_Some (t' !! e.1)) a !! h)) as Hkeep.
  { intros r' E' Hb'. rewrite (map_lookup_filter_Some_2 _ a h x); [|done|cbn [fst]; rewrite E'; by eexists].
    rewrite E'. by constructor. }
  destruct (decide (h ∈ offs.*1)) as [Hin|Hout].
  - apply list_elem_of_fmap in Hin as ([h' off] & -> & Hin). cbn [fst] in *.
    apply list_elem_of_lookup in Hin as [k Ek].
    destruct (Forall2_lookup_l _ _ _ _ _ Hf Ek) as ([h2 r0] & Ek2 & Eh & q & Q1 & Q2). cbn [fst snd] in *.
    subst h2. destruct (S2 h' r0) as [Ep [b Eb]]; [by apply (list_elem_of_lookup_2 _ k)|].
    rewrite E in Eb. injection Eb as ->.
    apply (Hkeep _ (W1 h' off _ (list_elem_of_lookup_2 _ _ _ Ek) E)). simpl.
    apply (moved_blob_at fs csrc cdst dst h' off _ x Hb); simpl; [by rewrite Ep|done|by exists q].
  - destruct (decide (r_pack r = src ∧ r_tombstoned r = true)) as [[Ep Et]|Hnd].
    + rewrite (W2 h r E Hout Ep Et). rewrite map_lookup_filter_None_2; [constructor|right].
      intros y _. cbn [fst]. rewrite (W2 h r E Hout Ep Et). by intros [].
    + apply (Hkeep r); [|done]. apply (W3 h r E Hout).
      destruct (r_tombstoned r); [left; naive_solver|by right].
Qed.

Lemma moved_fst csrc cdst offs live : Forall2 (moved_to csrc cdst) offs live → offs.*1 = live.*1.
Proof. induction 1 as [|e e' offs live [E _] _ IH]; [done|]. cbn [fmap list_fmap]. by rewrite E, IH. Qed.

(** No row points to the source any more. *)
Definition no_rows (src : N) (t : index) : Prop := ∀ h r, t !! h = Some r → r_pack r ≠ src.

Lemma swapped_no_rows src dst live offs t t' :
  scanned src live t → offs.*1 = live.*1 → src ≠ dst → swapped src dst offs t t' → no_rows src t'.
Proof.
  intros [S1 S2 S3] Eo Hne [W1 W2 W3 W4] h r' E' Ep.
  destruct (t !! h) as [r|] eqn:E; [|rewrite (W4 h E) in E'; done].
  destruct (decide (h ∈ offs.*1)) as [Hin|Hout].
  - apply list_elem_of_fmap in Hin as ([h' off] & -> & Hin). cbn [fst] in *.
    rewrite (W1 h' off r Hin E) in E'. injection E' as <-. simpl in Ep. congruence.
  - destruct (decide (r_pack r = src)) as [Eps|Hnp].
    + destruct (r_tombstoned r) eqn:Et; [rewrite (W2 h r E Hout Eps Et) in E'; done|].
      apply Hout. rewrite Eo. by apply (S3 h r).
    + rewrite (W3 h r E Hout (or_introl Hnp)) in E'. congruence.
Qed.

Lemma compact_swap_ok fs t w tg a src dst live offs csrc cdst :
  store_ok [] (Store (healthy fs t) w tg) a →
  scanned src live t → Forall2 (moved_to csrc cdst) offs live → src ≠ dst →
  fs !! pack_path_sealed src = Some csrc → fs !! pack_path_sealed dst = Some cdst →
  let t' := swap_rows src dst offs t in
  store_ok [] (Store (healthy fs t') w tg) (still_indexed t' a) ∧
  spec_collects a (still_indexed t' a) ∧ no_rows src t'.
Proof.
  intros Hok Hsc Hf Hne Es Ed t'. pose proof (moved_fst _ _ _ _ Hf) as Eo.
  assert (swapped src dst offs t t') as Hsw.
  { apply swapped_swap_rows; [|done]. rewrite Eo. apply Hsc. }
  pose proof (ok_holds _ _ _ Hok) as Hh. simpl in Hh.
  pose proof (swapped_no_rows src dst live offs t t' Hsc Eo Hne Hsw) as Hnr.
  split_and!; [| |done].
  - destruct (ok_writer _ _ _ Hok) as (ps & Hw & Hi). simpl in *.
    constructor; simpl; try apply Hok.
    + exists ps. split; [done|]. intros l p r El. destruct (Hi l p r El) as [b Eb]. exists b.
      assert (pack_id w ≠ src) as Hws by (symmetry; by eapply writer_not_sealed).
      apply (sw_kept _ _ _ _ _ Hsw _ _ Eb); [|by left]. rewrite Eo. intros Hin.
      apply list_elem_of_fmap in Hin as ([h r0] & Eh & Hin). simpl in Eh.
      destruct (sc_rows _ _ _ Hsc h r0 Hin) as [Ep [b' Eb']].
      rewrite <- Eh, Eb in Eb'. apply (f_equal (option_map r_pack)) in Eb'. simpl in Eb'. congruence.
    + intros d h r Hd. by apply elem_of_nil in Hd.
    + eapply holds_swapped; [done|exact Hsc|exact Hf|by apply file_of_sealed|by apply file_of_sealed|done].
  - apply (spec_collects_still fs t); [done|]. intros h r E El.
    destruct (decide (h ∈ offs.*1)) as [Hin|Hout].
    + apply list_elem_of_fmap in Hin as ([h' off] & -> & Hin). cbn [fst] in *.
      rewrite (sw_moved _ _ _ _ _ Hsw _ _ _ Hin E). by eexists.
    + rewrite (sw_kept _ _ _ _ _ Hsw _ _ E Hout (or_intror El)). by eexists.
Qed.

(** ** The unlink *)

Definition unlinked_fs fs (src : N) : gmap str bytes :=
  delete (tombstone_log_path src) (delete (pack_path_sealed src) fs).

Lemma compact_unlink_run src fs t :
  compact_unlink src (healthy fs t) = (inr (), healthy (unlinked_fs fs src) t).
Proof.
  unfold compact_unlink.
  destruct (attempt_remove_run (pack_path_sealed src) fs t) as [r1 E1]. run_step E1.
  destruct (attempt_remove_run (tombstone_log_path src) (delete (pack_path_sealed src) fs) t) as [r2 E2].
  by run_step E2.
Qed.

Lemma unlinked_sealed fs src i :
  i ≠ src → unlinked_fs fs src !! pack_path_sealed i = fs !! pack_path_sealed i.
Proof. intros Hne. unfold unlinked_fs. by simpl_fs. Qed.

Lemma unlinked_open fs src i : unlinked_fs fs src !! pack_path_open i = fs !! pack_path_open i.
Proof. unfold unlinked_fs. by simpl_fs. Qed.

Lemma unlinked_gone fs src : unlinked_fs fs src !! pack_path_sealed src = None.
Proof. unfold unlinked_fs. by simpl_fs. Qed.

Lemma unlinked_file_of fs src i : i ≠ src → file_of (unlinked_fs fs src) i = file_of fs i.
Proof. intros Hne. unfold file_of. by rewrite unlinked_sealed, unlinked_open. Qed.

Lemma holds_unlinked fs t a src : no_rows src t → holds fs t a → holds (unlinked_fs fs src) t a.
Proof.
  intros Hn Hh h. destruct (t !! h) as [r|] eqn:E.
  - destruct (holds_Some _ _ _ _ _ Hh E) as (x & -> & Hb & Hx & c & Ec & Er). constructor.
    split_and!; [done..|]. exists c. split; [|done]. rewrite unlinked_file_of; [done|].
    by apply (Hn h).
  - apply (holds_None _ _ _ _ Hh) in E. rewrite E. constructor.
Qed.

Lemma packs_unlinked n fs src :
  names_ok fs → room n fs → room n (unlinked_fs fs src).
Proof.
  intros Hn Hr i b Hin. assert (names_ok (unlinked_fs fs src)) as Hn'
    by (by apply names_ok_delete, names_ok_delete).
  pose proof (packs_bound _ _ _ Hn' Hin) as Hb. apply elem_of_packs_ok in Hin; [|done..].
  apply (Hr i b). apply elem_of_packs_ok; [done..|].
  unfold unlinked_fs in Hin.
  apply lookup_delete_is_Some in Hin as [_ Hin]. by apply lookup_delete_is_Some in Hin as [_ Hin].
Qed.

Lemma compact_unlink_ok dsts fs t w tg a src :
  store_ok dsts (Store (healthy fs t) w tg) a → no_rows src t →
  store_ok dsts (Store (healthy (unlinked_fs fs src) t) w tg) a.
Proof.
  intros Hok Hn. destruct (ok_writer _ _ _ Hok) as (ps & Hw & Hi). simpl in *.
  constructor; simpl; try apply Hok.
  - by apply names_ok_delete, names_ok_delete, (ok_names _ _ _ Hok).
  - intros i. rewrite unlinked_open. destruct (decide (i = src)) as [->|Hne].
    + left. apply unlinked_gone.
    + rewrite unlinked_sealed by done. apply (ok_form _ _ _ Hok).
  - intros i x. destruct (decide (i = src)) as [->|Hne]; [by rewrite unlinked_gone|].
    rewrite unlinked_sealed by done. apply (ok_sealed _ _ _ Hok).
  - intros i. rewrite unlinked_open. apply (ok_opens _ _ _ Hok).
  - exists ps. split; [|done]. destruct Hw. constructor; try done. by rewrite unlinked_open.
  - intros d Hd. rewrite unlinked_open. apply (ok_dsts _ _ _ Hok d Hd).
  - apply holds_unlinked; [done|apply Hok].
Qed.

(** ** A whole compaction *)

(** The bytes of the frames behind the index. *)
Definition index_bytes (t : index) : N := bytes_of (rows_list t).

Lemma bytes_of_filter f l : (bytes_of (List.filter f l) ≤ bytes_of l)%N.
Proof.
  induction l as [|x l IH]; [done|]. cbn [List.filter]. destruct (f x); cbn [bytes_of foldr] in *; unfold bytes_of in *; lia.
Qed.

Lemma live_rows_bytes src t : (bytes_of (live_rows src t) ≤ index_bytes t)%N.
Proof.
  unfold live_rows, rows_in, index_bytes.
  etransitivity; [apply bytes_of_filter|]. apply bytes_of_filter.
Qed.

(** The swap takes nothing into the index. *)
Definition lengths (t : index) : gmap BlobHash N := r_length <$> t.

Lemma lengths_repoint dst offs t : lengths (foldl (repoint dst) t offs) = lengths t.
Proof.
  revert t. induction offs as [|[h off] offs IH]; intros t; [done|]. cbn [foldl]. rewrite IH.
  unfold repoint, lengths. cbn [fst snd]. apply map_eq. intros k. rewrite !lookup_fmap.
  destruct (decide (k = h)) as [->|Hne].
  - rewrite lookup_alter_eq. by destruct (t !! h).
  - by rewrite lookup_alter_ne.
Qed.

Lemma bytes_of_perm l l' : l ≡ₚ l' → bytes_of l = bytes_of l'.
Proof.
  induction 1 as [|x l l' _ IH|x y l|l1 l2 l3 _ IH1 _ IH2]; [done| | |congruence];
    cbn [bytes_of foldr]; unfold bytes_of in *; lia.
Qed.

Lemma index_bytes_lengths t :
  index_bytes t = map_fold (λ _ n b, FRAME_HEADER_LEN + n + b)%N 0%N (lengths t).
Proof.
  unfold lengths. rewrite map_fold_fmap, map_fold_foldr. unfold index_bytes, rows_list.
  induction (map_to_list t) as [|[h r] l IH]; [done|]. cbn [bytes_of foldr uncurry snd].
  f_equal. exact IH.
Qed.

Lemma bytes_of_filter_prop (P : BlobHash * row → Prop) `{∀ e, Decision (P e)} l :
  (bytes_of (filter P l) ≤ bytes_of l)%N.
Proof.
  induction l as [|x l IH]; [done|]. rewrite filter_cons.
  destruct (decide (P x)); cbn [bytes_of foldr] in *; unfold bytes_of in *; lia.
Qed.

Lemma swap_rows_bytes src dst offs t : (index_bytes (swap_rows src dst offs t) ≤ index_bytes t)%N.
Proof.
  etransitivity.
  2:{ rewrite (index_bytes_lengths t), <- (lengths_repoint dst offs t), <- index_bytes_lengths. done. }
  unfold swap_rows, delete_dead, index_bytes, rows_list. generalize (foldl (repoint dst) t offs).
  intros m. rewrite map_filter_alt. set (l := filter _ (map_to_list m)).
  rewrite (bytes_of_perm (map_to_list (list_to_map l : index)) l).
  - apply bytes_of_filter_prop.
  - apply map_to_list_to_map. eapply sublist_NoDup; [apply (NoDup_fst_map_to_list m)|].
    apply fmap_sublist, sublist_filter.
Qed.

(** The rows of a sealed pack are read from its file. *)
Lemma scanned_readable fs t a src live csrc :
  holds fs t a → fs !! pack_path_sealed src = Some csrc → scanned src live t →
  Forall (λ e, ∃ q, read_frame csrc (r_offset e.2) (r_length e.2) = inr q) live.
Proof.
  intros Hh Es [_ S2 _]. apply Forall_forall. intros [h r] Hin. cbn [snd].
  destruct (S2 h r Hin) as [Ep [b Eb]].
  destruct (holds_Some _ _ _ _ _ Hh Eb) as (x & _ & _ & _ & c & Ec & Er). simpl in *.
  rewrite Ep, (file_of_sealed _ _ _ Es) in Ec. injection Ec as ->. eauto.
Qed.

End gc.
