(* ===== verification/PackThreads.v ===== *)
(** * The blob store: compaction among other threads

    [compact_pack] gives the locks back between its steps.  Here it is a state
    machine: a program counter for the compaction of one pack, whose steps
    interleave with complete operations of other threads.  The abstract store
    follows: an operation of another thread does what its specification says,
    and a step of the compaction forgets evicted blobs at most.

    The one operation kept out is a [put] that revives a blob whose row still
    points to the source pack: the code has no guard against it (see
    revived_blob_lost in PackProperties). *)

From S2P Require Import Prelude.
From S2P Require Import Strings.
From S2P Require Import Bytes.
From S2P Require Import PackFormat.
From S2P Require Import PackFormatTheory.
From S2P Require Import PackStore.
From S2P Require Import PackRun.
From S2P Require Import PackInvariant.
From S2P Require Import PackPut.
From S2P Require Import PackReads.
From S2P Require Import PackGc.
From stdpp Require Import sorting.

Section threads.
Context `{PackHashing}.
Implicit Types (s : store) (a : blobs) (dsts : list N).

(** ** Operations of other threads *)

Inductive request := RPut (p : bytes) | REvict (h : BlobHash) | REvictAll | RRotate.

Definition run_request (q : request) : M store unit :=
  match q with
  | RPut p => put p;; mret ()
  | REvict h => lift (tombstone h)
  | REvictAll => lift tombstone_all_live;; mret ()
  | RRotate => rotate_open_pack
  end.

Definition spec_request (q : request) (a : blobs) : blobs :=
  match q with
  | RPut p => spec_put p a
  | REvict h => spec_evict h a
  | REvictAll => spec_evict_all a
  | RRotate => a
  end.

(** Payloads fit a frame, and an id is left for a new pack. *)
Definition serviceable (q : request) s : Prop :=
  room 1 (dir (on s)) ∧ match q with RPut p => small p | _ => True end.

(** Nothing of [src] comes back to life. *)
Definition no_revival (src : N) (q : request) s : Prop :=
  match q with
  | RPut p => ∀ r, rows (on s) !! blake3 p = Some r → r_pack r = src → r_tombstoned r = false
  | _ => True
  end.

(** Rows in [src] were there before. *)
Definition rows_from (src : N) (t t' : index) : Prop :=
  ∀ h r, t' !! h = Some r → r_pack r = src → ∃ r', t !! h = Some r' ∧ r_pack r' = src.

Lemma rows_from_marks src t t' :
  only_marks t t' → rows_from src t t'.
Proof.
  intros Hm h r E Ep. destruct (Hm h r E) as [b Eb]. destruct (t !! h) as [r'|]; simplify_eq/=. eauto.
Qed.

Lemma rows_from_mark src b h t : rows_from src t (mark b h t).
Proof. apply rows_from_marks, only_marks_mark. Qed.

Lemma put_rows_from dsts s s' a p src :
  store_ok dsts s' a → stable dsts s s' → is_Some (dir (on s) !! pack_path_sealed src) →
  stored p s s' → rows_from src (rows (on s)) (rows (on s')).
Proof.
  intros Hok Hst [c Ec] [off Hrow] h r Eh Ep. rewrite Hrow in Eh.
  destruct (decide (h = blake3 p)) as [->|Hne].
  - rewrite lookup_insert_eq in Eh. injection Eh as <-. simpl in Ep.
    pose proof (st_sealed _ _ _ Hst src c Ec) as Ec'. rewrite (store_ok_healthy _ _ _ Hok) in Hok.
    by destruct (writer_not_sealed _ _ _ _ _ _ _ _ Hok Ec').
  - rewrite lookup_insert_ne in Eh by done. eauto.
Qed.

(** Rows of the source that come from before, live ones from live ones. *)
Lemma quiet_rows src t t' :
  marked t t' → rows_from src t t' →
  (∀ h r r', t !! h = Some r → r_pack r = src → t' !! h = Some r' →
     r_tombstoned r' = false → r_tombstoned r = false) → quiet src t t'.
Proof.
  intros Hm Hf Hl. split; [done|]. intros h r E Ep El. destruct (Hf h r E Ep) as (r' & E' & Ep').
  exists r'. split_and!; [done..|]. by apply (Hl h r' r).
Qed.

Lemma no_new_live_quiet src t t' :
  marked t t' → no_new_live t t' → rows_from src t t' → quiet src t t'.
Proof.
  intros Hm Hn Hf. apply (quiet_rows src t t' Hm Hf). intros h r r' E Ep E' El.
  pose proof (Hn _ _ E' El). congruence.
Qed.

Lemma request_ok dsts s a q :
  store_ok dsts s a → serviceable q s →
  ∃ s', run_request q s = (inr (), s') ∧ store_ok dsts s' (spec_request q a) ∧ stable dsts s s' ∧
    ∀ src, is_Some (dir (on s) !! pack_path_sealed src) →
      rows_from src (rows (on s)) (rows (on s')) ∧
      (no_revival src q s → quiet src (rows (on s)) (rows (on s'))).
Proof.
  intros Hok [Hr Hq]. destruct q as [p|h| |]; cbn [run_request spec_request].
  - destruct (put_ok dsts s a p Hok Hq Hr) as (s' & E & Hok' & Hst & Hrow).
    exists s'. split_and!; [by run_step E|done..|]. intros src Hsrc.
    destruct (rows (on s) !! blake3 p) as [r0|] eqn:E0.
    + destruct (r_tombstoned r0) eqn:Et; rewrite Hrow; [|by split; [intros h r Eh Ep; eauto|]].
      split; [apply rows_from_mark|]. intros Hnr. apply quiet_rows; [apply marked_mark|apply rows_from_mark|].
      intros h r r' Eh Ep Eh' El. destruct (decide (h = blake3 p)) as [->|Hne].
      * apply (Hnr r); [done|done].
      * unfold mark in Eh'. rewrite lookup_alter_ne in Eh' by done. congruence.
    + pose proof (put_rows_from _ _ _ _ _ _ Hok' Hst Hsrc Hrow) as Hf. split; [done|]. intros _.
      apply quiet_rows; [apply Hst|done|]. intros h r r' Eh Ep Eh' El.
      destruct Hrow as [off Hrow]. rewrite Hrow, lookup_insert_ne in Eh' by congruence. congruence.
  - pose proof (store_ok_healthy _ _ _ Hok) as Es. rewrite Es in Hok |- *.
    destruct s as [[fs t f] w tg]. cbn [on dir rows writer target_size] in *. clear Es.
    destruct (tombstone_ok dsts fs t w tg a h Hok) as (fs' & t' & Hs & Hm & Hl & Hf & E & Hok').
    eexists. split_and!; [by rewrite (lift_healthy _ fs t w tg _ _ E)|exact Hok'| |].
    + apply stable_same; [apply Hok|apply Hok'|done..].
    + intros src _. assert (rows_from src t t') by (by apply rows_from_marks).
      split; [done|]. intros _. by apply no_new_live_quiet.
  - pose proof (store_ok_healthy _ _ _ Hok) as Es. rewrite Es in Hok |- *.
    destruct s as [[fs t f] w tg]. cbn [on dir rows writer target_size] in *. clear Es.
    destruct (tombstone_all_ok dsts fs t w tg a Hok) as (fs' & t' & E & Hok' & Hs & Hm & Hl & Hf).
    eexists. split_and!; [by run_step (lift_healthy _ fs t w tg _ _ E)|exact Hok'| |].
    + apply stable_same; [apply Hok|apply Hok'|done..].
    + intros src _. assert (rows_from src t t') by (by apply rows_from_marks).
      split; [done|]. intros _. by apply no_new_live_quiet.
  - destruct (rotate_open_pack_ok dsts s a Hok Hr) as (s' & E & Hok' & Hst & Hrow).
    exists s'. split_and!; [done..|]. intros src _. rewrite Hrow.
    split; [intros h r Eh Ep; eauto|done].
Qed.

(** ** The compaction as a state machine *)

Inductive pc :=
  | PcStart
  | PcAllocated (dst : N)
  | PcScanned (dst : N) (live : list (BlobHash * row))
  | PcCopied (dst : N) (live : list (BlobHash * row)) (c : copied)
  | PcSealed (dst : N) (live : list (BlobHash * row)) (c : copied)
  | PcSwapped
  | PcDone.

(** The next step of [compact_pack]. *)
Definition gc_next (src : N) (p : pc) : M disk pc :=
  match p with
  | PcStart => dst ← compact_allocate; mret (PcAllocated dst)
  | PcAllocated dst => live ← compact_scan src; mret (PcScanned dst live)
  | PcScanned dst live => c ← compact_copy src dst live; mret (PcCopied dst live c)
  | PcCopied dst live c => compact_seal dst c;; mret (PcSealed dst live c)
  | PcSealed dst live c => compact_swap src dst c;; mret PcSwapped
  | PcSwapped => compact_unlink src;; mret PcDone
  | PcDone => mret PcDone
  end.

Fixpoint gc_steps (src : N) (k : nat) (p : pc) : M disk pc :=
  match k with
  | O => mret p
  | S k => p ← gc_next src p; gc_steps src k p
  end.

(** How many steps have been taken. *)
Definition rank (p : pc) : nat :=
  match p with
  | PcStart => 0 | PcAllocated _ => 1 | PcScanned _ _ => 2 | PcCopied _ _ _ => 3
  | PcSealed _ _ _ => 4 | PcSwapped => 5 | PcDone => 6
  end.

(** [compact_pack] is its six steps in a row. *)
Lemma compact_pack_steps src d :
  compact_pack src d = (gc_steps src 6 PcStart;; mret ()) d.
Proof.
  unfold compact_pack, gc_steps, gc_next, mbind, M_bind, mret, M_ret.
  destruct (compact_allocate d) as [[|dst] d1]; [done|].
  destruct (compact_scan src d1) as [[|live] d2]; [done|].
  destruct (compact_copy src dst live d2) as [[|c] d3]; [done|].
  destruct (compact_seal dst c d3) as [[|] d4]; [done|].
  destruct (compact_swap src dst c d4) as [[|] d5]; [done|].
  by destruct (compact_unlink src d5) as [[|[]] d6].
Qed.

(** What holds of the store at each program counter. *)
Definition inflight (src : N) (p : pc) (s : store) (a : blobs) : Prop :=
  match p with
  | PcStart => store_ok [] s a ∧ is_Some (dir (on s) !! pack_path_sealed src)
  | PcAllocated dst =>
      store_ok [dst] s a ∧ is_Some (dir (on s) !! pack_path_sealed src) ∧
      dir (on s) !! pack_path_open dst = Some [] ∧ (dst ≤ u32_max)%N
  | PcScanned dst live =>
      store_ok [dst] s a ∧ is_Some (dir (on s) !! pack_path_sealed src) ∧
      dir (on s) !! pack_path_open dst = Some [] ∧ (dst ≤ u32_max)%N ∧
      scanned src live (rows (on s)) ∧ (bytes_of live ≤ u64_max)%N
  | PcCopied dst live c =>
      store_ok [dst] s a ∧ (dst ≤ u32_max)%N ∧ scanned src live (rows (on s)) ∧
      ∃ csrc qs, dir (on s) !! pack_path_sealed src = Some csrc ∧
        dir (on s) !! pack_path_open dst = Some (frames qs) ∧ Forall small qs ∧
        dst_offset c = blen (frames qs) ∧ Forall2 (moved_to csrc (frames qs)) (new_offsets c) live
  | PcSealed dst live c =>
      store_ok [] s a ∧ scanned src live (rows (on s)) ∧ src ≠ dst ∧
      ∃ csrc cdst, dir (on s) !! pack_path_sealed src = Some csrc ∧
        dir (on s) !! pack_path_sealed dst = Some cdst ∧
        Forall2 (moved_to csrc cdst) (new_offsets c) live
  | PcSwapped =>
      store_ok [] s a ∧ is_Some (dir (on s) !! pack_path_sealed src) ∧ no_rows src (rows (on s))
  | PcDone => store_ok [] s a ∧ dir (on s) !! pack_path_sealed src = None
  end.

(** What a step asks of the size of the store. *)
Definition gc_ready (p : pc) (s : store) : Prop :=
  match p with
  | PcStart => room 1 (dir (on s))
  | PcAllocated _ => (index_bytes (rows (on s)) ≤ u64_max)%N
  | _ => True
  end.

(** What a step does to the packs: other sealed packs stay, ids are taken by the
    allocation only, the index does not grow, and a pack that is being read is
    kept until the last step removes the source. *)
Record gc_keeps (src : N) (p : pc) (s s' : store) : Prop := {
  gk_writer : writer s' = writer s;
  gk_target : target_size s' = target_size s;
  gk_sealed : ∀ i c, i ≠ src → dir (on s) !! pack_path_sealed i = Some c →
    dir (on s') !! pack_path_sealed i = Some c;
  gk_room : ∀ n, room (match p with PcStart => 1 + n | _ => n end) (dir (on s)) → room n (dir (on s'));
  gk_bytes : (index_bytes (rows (on s')) ≤ index_bytes (rows (on s)))%N;
  gk_files : kept_or_gone (dir (on s)) (dir (on s')) ∧
    (p ≠ PcSwapped → packs_extend (dir (on s)) (dir (on s')))
}.

Lemma extend_kept fs fs' : packs_extend fs fs' → kept_or_gone fs fs'.
Proof. intros He i c E. right. by apply He. Qed.

Lemma keeps_extending src p fs fs' t t' w tg :
  (∀ i c, i ≠ src → fs !! pack_path_sealed i = Some c → fs' !! pack_path_sealed i = Some c) →
  (∀ n, room (match p with PcStart => 1 + n | _ => n end) fs → room n fs') →
  (index_bytes t' ≤ index_bytes t)%N → packs_extend fs fs' →
  gc_keeps src p (Store (healthy fs t) w tg) (Store (healthy fs' t') w tg).
Proof. intros Hs Hr Hb He. constructor; try done. split; [by apply extend_kept|done]. Qed.

Definition gc_advances (src : N) (p : pc) s a : Prop :=
  ∃ p' s' a', gc_next src p (on s) = (inr p', on s') ∧ gc_keeps src p s s' ∧
    inflight src p' s' a' ∧ spec_collects a a' ∧ rank p' = S (rank p).

Ltac gc_run E := cbn [gc_next on]; run_step E; done.

Lemma gc_allocates src s a : inflight src PcStart s a → room 1 (dir (on s)) → gc_advances src PcStart s a.
Proof.
  intros [Hok Hsrc] Hr. split_store s.
  destruct (compact_allocate_ok [] fs t w tg a Hok Hr) as (dst & E & Hok' & Hnew & Hdst & Hr').
  eexists (PcAllocated dst), (Store _ w tg), a. split_and!; [gc_run E| | |done|done].
  - apply keeps_extending; [intros i c _; by simpl_fs|done|done|].
    rewrite pack_path_open_of. by apply extend_new.
  - cbn [inflight on dir rows healthy]. split_and!; [exact Hok'|by simpl_fs|by simpl_fs|done].
Qed.

Lemma gc_scans src dst s a :
  inflight src (PcAllocated dst) s a → (index_bytes (rows (on s)) ≤ u64_max)%N →
  gc_advances src (PcAllocated dst) s a.
Proof.
  intros (Hok & Hsrc & Hd & Hdst) Hb. split_store s.
  eexists (PcScanned dst (live_rows src t)), (Store _ w tg), a.
  split_and!; [gc_run (compact_scan_run src fs t)|by apply keeps_extending| |done|done].
  cbn [inflight on dir rows healthy]. split_and!; [done..|apply scanned_live_rows|].
  etransitivity; [apply live_rows_bytes|done].
Qed.

Lemma gc_copies src dst live s a :
  inflight src (PcScanned dst live) s a → gc_advances src (PcScanned dst live) s a.
Proof.
  intros (Hok & [csrc Hsrc] & Hd & Hdst & Hsc & Hb). split_store s.
  destruct (compact_copy_ok src dst live csrc fs t Hsrc Hd) as (c & qs & E & Hq & Ho & Hf); [|done|].
  { eapply scanned_readable; [apply (ok_holds _ _ _ Hok)|done|done]. }
  eexists (PcCopied dst live c), (Store _ w tg), a. split_and!; [gc_run E| | |done|done].
  - apply keeps_extending; [intros i x _; by simpl_fs| |done|].
    + intros n Hr. rewrite pack_path_open_of. apply room_insert; [apply (ok_names _ _ _ Hok)|done| |done].
      apply (Hr dst false), elem_of_packs_ok; [apply (ok_names _ _ _ Hok)|done|by eexists].
    + apply (extend_open fs dst [] (frames qs)); [apply (ok_form _ _ _ Hok)|done].
  - cbn [inflight on dir rows healthy]. split_and!; [|done|done|].
    + apply (store_ok_grow [dst] fs t w tg a dst []); [by apply list_elem_of_here|done|done|by eexists|done..].
    + exists csrc, qs. split_and!; [by simpl_fs|by simpl_fs|done..].
Qed.

Lemma gc_seals src dst live c s a :
  inflight src (PcCopied dst live c) s a → gc_advances src (PcCopied dst live c) s a.
Proof.
  intros (Hok & Hdst & Hsc & csrc & qs & Hsrc & Hd & Hq & Ho & Hf). split_store s.
  assert (src ≠ dst) as Hsd.
  { intros ->. destruct (ok_form _ _ _ Hok dst); simpl in *; congruence. }
  assert (∀ i x, fs !! pack_path_sealed i = Some x →
    dst_sealed_fs fs dst qs (frame_count c) !! pack_path_sealed i = Some x) as Hkeep.
  { intros i x Ex. unfold dst_sealed_fs. destruct (decide (i = dst)) as [->|]; [|by simpl_fs].
    destruct (ok_form _ _ _ Hok dst); simpl in *; congruence. }
  eexists (PcSealed dst live c), (Store _ w tg), a.
  split_and!; [gc_run (compact_seal_run dst c qs fs t Hd Ho)| | |done|done].
  - apply keeps_extending; [intros i x _; apply Hkeep| |done|].
    + intros n Hr. apply room_seal; [apply (ok_names _ _ _ Hok)|done|by eexists|done].
    + apply extend_seal; [apply (ok_form _ _ _ Hok)|done].
  - cbn [inflight on dir rows healthy]. split_and!; [|done|done|].
    + apply compact_seal_ok; [done|done|set_solver|done|done].
    + exists csrc, (frames qs ++ pack_tail (frame_count c)). split_and!.
      * by apply Hkeep.
      * unfold dst_sealed_fs. by simpl_fs.
      * eapply Forall2_impl; [exact Hf|]. intros e e'. apply moved_to_app.
Qed.

Lemma gc_swaps src dst live c s a :
  inflight src (PcSealed dst live c) s a → gc_advances src (PcSealed dst live c) s a.
Proof.
  intros (Hok & Hsc & Hsd & csrc & cdst & Hsrc & Hd & Hf). split_store s.
  destruct (compact_swap_ok fs t w tg a src dst live (new_offsets c) csrc cdst Hok Hsc Hf Hsd Hsrc Hd)
    as (Hok' & Hc & Hnr).
  eexists PcSwapped, (Store _ w tg), _. split_and!; [| | |exact Hc|done].
  - gc_run (execute_run (swap_rows src dst (new_offsets c)) fs t).
  - apply keeps_extending; [done|done|apply swap_rows_bytes|done].
  - cbn [inflight on dir rows healthy]. by split_and!.
Qed.

Lemma unlinked_kept fs src : kept_or_gone fs (unlinked_fs fs src) ∨ is_Some (fs !! pack_path_open src).
Proof.
  destruct (fs !! pack_path_open src) as [x|] eqn:Eo; [right; by eexists|left]. intros i c E.
  destruct (decide (i = src)) as [->|Hne].
  - left. unfold file_of. by rewrite unlinked_gone, unlinked_open.
  - right. exists []. by rewrite unlinked_file_of, app_nil_r.
Qed.

Lemma gc_unlinks src s a : inflight src PcSwapped s a → gc_advances src PcSwapped s a.
Proof.
  intros (Hok & [x Hsrc] & Hnr). split_store s.
  eexists PcDone, (Store _ w tg), a. split_and!; [| | |done|done].
  - gc_run (compact_unlink_run src fs t).
  - constructor; simpl; try done.
    + intros i c Hne E. by rewrite unlinked_sealed.
    + intros n Hr. apply packs_unlinked; [apply (ok_names _ _ _ Hok)|done].
    + split; [|done]. destruct (unlinked_kept fs src) as [|[y Ey]]; [done|].
      destruct (ok_form _ _ _ Hok src); simpl in *; congruence.
  - cbn [inflight on dir rows healthy]. split; [by apply compact_unlink_ok|apply unlinked_gone].
Qed.

(** Every step of the compaction succeeds, and forgets evicted blobs at most. *)
Lemma gc_next_ok src p s a :
  inflight src p s a → gc_ready p s → p ≠ PcDone → gc_advances src p s a.
Proof.
  intros Hin Hready Hne. destruct p; [..|done].
  - by apply gc_allocates.
  - by apply gc_scans.
  - by apply gc_copies.
  - by apply gc_seals.
  - by apply gc_swaps.
  - by apply gc_unlinks.
Qed.

(** *** A compaction that is left alone *)

(** What the whole of a compaction leaves. *)
Record compacted (src : N) (s s' : store) (a a' : blobs) : Prop := {
  cp_ok : store_ok [] s' a';
  cp_collects : spec_collects a a';
  cp_gone : dir (on s') !! pack_path_sealed src = None;
  cp_writer : writer s' = writer s;
  cp_target : target_size s' = target_size s;
  cp_sealed : ∀ i c, i ≠ src → dir (on s) !! pack_path_sealed i = Some c →
    dir (on s') !! pack_path_sealed i = Some c;
  cp_bytes : (index_bytes (rows (on s')) ≤ index_bytes (rows (on s)))%N;
  cp_files : kept_or_gone (dir (on s)) (dir (on s'))
}.

Lemma gc_steps_ok src k p s a :
  rank p + k = 6 → inflight src p s a → gc_ready p s → (index_bytes (rows (on s)) ≤ u64_max)%N →
  ∃ s' a', gc_steps src k p (on s) = (inr PcDone, on s') ∧ compacted src s s' a a' ∧
    ∀ n, room (match p with PcStart => 1 + n | _ => n end) (dir (on s)) → room n (dir (on s')).
Proof.
  revert p s a. induction k as [|k IH]; intros p s a Hk Hin Hready Hb.
  { destruct p; simpl in Hk; try lia. destruct Hin as [Hok Hgone]. exists s, a.
    split_and!; [done| |done]. constructor; try done. apply extend_kept. done. }
  assert (p ≠ PcDone) as Hne by (intros ->; simpl in Hk; lia).
  destruct (gc_next_ok src p s a Hin Hready Hne) as (p1 & s1 & a1 & E1 & Hkeep & Hin1 & Hc1 & Hr1).
  destruct Hkeep as [K1 K2 K3 K4 K5 [K6 K7]].
  assert (gc_ready p1 s1) as Hready1 by (destruct p1; simpl in *; try done; lia).
  destruct (IH p1 s1 a1 ltac:(lia) Hin1 Hready1 ltac:(lia)) as (s2 & a2 & E2 & Hcp & Hroom).
  exists s2, a2. split_and!.
  - cbn [gc_steps]. by rewrite (bind_inr _ _ _ _ _ E1).
  - destruct Hcp as [C1 C2 C3 C4 C5 C6 C7 C8]. constructor; try done; try congruence.
    + by transitivity a1.
    + intros i c Hi Ei. by apply C6, K3.
    + lia.
    + assert (p = PcSwapped ∨ p ≠ PcSwapped) as [->|Hns] by (destruct p; auto).
      * destruct p1; simpl in Hr1; try lia. destruct k; [|simpl in Hk; lia].
        cbn [gc_steps] in E2. injection E2 as E2. by rewrite <- E2.
      * intros i c Ei. destruct (K7 Hns i c Ei) as [g Eg]. destruct (C8 _ _ Eg) as [?|[g' Eg']]; [by left|].
        right. exists (g ++ g'). by rewrite app_assoc.
  - intros n Hn. apply Hroom. destruct p1; by apply K4.
Qed.

Lemma compact_pack_ok src s a :
  store_ok [] s a → is_Some (dir (on s) !! pack_path_sealed src) → room 1 (dir (on s)) →
  (index_bytes (rows (on s)) ≤ u64_max)%N →
  ∃ s' a', compact_pack src (on s) = (inr (), on s') ∧ compacted src s s' a a' ∧
    ∀ n, room (1 + n) (dir (on s)) → room n (dir (on s')).
Proof.
  intros Hok Hsrc Hr Hb.
  destruct (gc_steps_ok src 6 PcStart s a eq_refl (conj Hok Hsrc) Hr Hb) as (s' & a' & E & Hcp & Hroom).
  exists s', a'. split_and!; [|done|done]. rewrite compact_pack_steps. by run_step E.
Qed.

(** ** [run_gc] *)

(** The directory's list has every pack once. *)
Lemma packs_of_nodup fs : names_ok fs → NoDup (packs_of fs).
Proof.
  intros Hn. unfold packs_of. rewrite merge_sort_Permutation.
  assert (∀ l : list (str * bytes), NoDup l.*1 → (∀ e, e ∈ l → is_Some (fs !! e.1)) →
    NoDup (omap (λ e : str * bytes, parse_pack_name e.1) l)) as Hgen.
  { induction l as [|[n c] l IH]; intros Hnd Hin; [constructor|].
    cbn [fmap list_fmap fst] in Hnd. apply NoDup_cons in Hnd as [Hn1 Hnd]. cbn [omap list_omap fst].
    assert (NoDup (omap (λ e : str * bytes, parse_pack_name e.1) l)) as Hl
      by (apply IH; [done|]; intros e He; by apply Hin, list_elem_of_further).
    destruct (parse_pack_name n) as [[i b]|] eqn:E; [|done].
    apply NoDup_cons. split; [|done]. intros ([m d] & Hm & E2)%list_elem_of_omap. cbn [fst] in *.
    destruct (Hn n i b (Hin (n, c) ltac:(by apply list_elem_of_here)) E) as [E1 _].
    destruct (Hn m i b (Hin (m, d) ltac:(by apply list_elem_of_further)) E2) as [E3 _].
    apply Hn1. rewrite E1, <- E3. by apply (list_elem_of_fmap_2 fst l (m, d)). }
  apply Hgen; [apply NoDup_fst_map_to_list|]. intros [n c] He%elem_of_map_to_list. by exists c.
Qed.

(** What a collection has done, with the packs of [rest] still to come. *)
Record collecting (s : store) (a : blobs) (rest : list (N * bool)) (d : disk)
    (s' : store) (a' : blobs) (gone : list N) : Prop := {
  cl_disk : d = on s';
  cl_ok : store_ok [] s' a';
  cl_collects : spec_collects a a';
  cl_writer : writer s' = writer s;
  cl_target : target_size s' = target_size s;
  cl_bytes : (index_bytes (rows (on s')) ≤ u64_max)%N;
  cl_room : room (N.of_nat (length rest)) (dir (on s'));
  cl_todo : ∀ i, (i, true) ∈ rest → is_Some (dir (on s') !! pack_path_sealed i) ∧ i ∉ gone;
  cl_kept : ∀ i c, i ∉ gone → dir (on s) !! pack_path_sealed i = Some c →
    dir (on s') !! pack_path_sealed i = Some c
}.

Lemma collecting_skip s a p rest d s' a' gone :
  collecting s a (p :: rest) d s' a' gone → collecting s a rest d s' a' gone.
Proof.
  intros [C1 C2 C3 C4 C5 C6 C7 C8 C10]. constructor; try done.
  - eapply room_le, C7. simpl. lia.
  - intros i Hi. apply C8. by apply list_elem_of_further.
Qed.

Lemma gc_pack_ok below s a i b rest stats d s' a' gone :
  NoDup ((i, b) :: rest) → collecting s a ((i, b) :: rest) d s' a' gone →
  ∃ stats' d' s2 a2 gone', gc_pack below stats (i, b) d = (inr stats', d') ∧
    collecting s a rest d' s2 a2 gone'.
Proof.
  intros Hnd Hc. pose proof Hc as [-> C2 C3 C4 C5 C6 C7 C8 C10]. unfold gc_pack. cbn [fst snd].
  destruct b; cbn [negb]; [|by eexists _, _, _, _, _; split; [|eapply collecting_skip, Hc]].
  assert (pack_density i (on s') = (inr (density i (rows (on s'))), on s')) as Ed
    by (by rewrite (store_ok_healthy _ _ _ C2)).
  run_step Ed. destruct (density i (rows (on s'))) as [[total dead] dead_bytes].
  destruct (total =? 0)%N; [by eexists _, _, _, _, _; split; [|eapply collecting_skip, Hc]|].
  destruct (below dead total); [by eexists _, _, _, _, _; split; [|eapply collecting_skip, Hc]|].
  destruct (C8 i ltac:(by apply list_elem_of_here)) as [Hi Hig].
  destruct (compact_pack_ok i s' a' C2 Hi) as (s2 & a2 & E & [K1 K2 K3 K4 K5 K6 K7 K8] & Hroom); [|done|].
  { eapply room_le, C7. simpl. lia. }
  eexists _, _, s2, a2, (i :: gone). split; [by run_step E|].
  constructor; try done; try congruence.
  - by transitivity a'.
  - lia.
  - apply Hroom. eapply room_le, C7. simpl. lia.
  - intros j Hj. destruct (C8 j ltac:(by apply list_elem_of_further)) as [[c Ec] Hjg].
    assert (j ≠ i) as Hji by (intros ->; by apply NoDup_cons in Hnd as [? _]).
    split; [eexists; by apply K6|]. rewrite elem_of_cons. naive_solver.
  - intros j c Hj Ec. rewrite elem_of_cons in Hj. apply K6; [naive_solver|]. apply C10; naive_solver.
Qed.

(** A garbage collection finishes and keeps every live blob where it can be
    read. *)
Lemma run_gc_ok below s a :
  store_ok [] s a → room (N.of_nat (length (packs_of (dir (on s))))) (dir (on s)) →
  (index_bytes (rows (on s)) ≤ u64_max)%N →
  ∃ stats s' a' gone, run_gc below (on s) = (inr stats, on s') ∧ collecting s a [] (on s') s' a' gone.
Proof.
  intros Hok Hroom Hb. pose proof (ok_names _ _ _ Hok) as Hn. unfold run_gc.
  assert (list_packs (on s) = (inr (packs_of (dir (on s))), on s)) as El
    by by rewrite (store_ok_healthy _ _ _ Hok).
  run_step El. clear El.
  set (P := λ (rest : list (N * bool)) (_ : GcStats) (d : disk),
    NoDup rest ∧ ∃ s' a' gone, collecting s a rest d s' a' gone).
  destruct (fold_m_run (gc_pack below) P (packs_of (dir (on s))) (mkGcStats 0 0 0) (on s))
    as (stats & d & E & _ & s' & a' & gone & Hc).
  - split; [by apply packs_of_nodup|]. exists s, a, []. constructor; try done.
    + intros i Hi. split; [|set_solver]. apply (elem_of_packs_ok _ i true Hn); [|done].
      by apply (packs_bound _ _ true Hn).
  - intros [i b] rest stats d (Hnd & s' & a' & gone & Hc).
    destruct (gc_pack_ok below s a i b rest stats d s' a' gone Hnd Hc) as (st2 & d2 & s2 & a2 & g2 & E & Hc2).
    exists st2, d2. split; [done|]. apply NoDup_cons in Hnd as [_ Hnd]. split; [done|]. eauto.
  - pose proof (cl_disk _ _ _ _ _ _ _ Hc) as ->. exists stats, s', a', gone. done.
Qed.

(** *** Other threads *)

(** Only between the scan and the swap does a revival do harm. *)
Definition vulnerable (p : pc) : bool :=
  match p with PcScanned _ _ | PcCopied _ _ _ | PcSealed _ _ _ => true | _ => false end.

Lemma no_rows_from src t t' : rows_from src t t' → no_rows src t → no_rows src t'.
Proof. intros Hf Hn h r E Ep. destruct (Hf h r E Ep) as (r' & E' & Ep'). by apply (Hn h r'). Qed.

(** A request keeps what the compaction has established. *)
Lemma inflight_request src p s a q s' :
  inflight src p s a → serviceable q s → run_request q s = (inr (), s') →
  (vulnerable p = true → no_revival src q s) → p ≠ PcDone →
  inflight src p s' (spec_request q a).
Proof.
  intros Hin Hq E Hnr Hne.
  assert (∃ dsts, store_ok dsts s a) as [dsts Hok]
    by (destruct p; cbn [inflight] in Hin; destruct_and?; by eexists).
  assert (is_Some (dir (on s) !! pack_path_sealed src)) as Hsrc.
  { destruct p; cbn [inflight] in Hin; destruct_and?; try done; destruct_or?; naive_solver. }
  assert (∀ dsts', store_ok dsts' s a → store_ok dsts' s' (spec_request q a) ∧ stable dsts' s s' ∧
    rows_from src (rows (on s)) (rows (on s')) ∧
    (no_revival src q s → quiet src (rows (on s)) (rows (on s')))) as Hreq.
  { intros dsts' Hok'. destruct (request_ok dsts' s a q Hok' Hq) as (s2 & E2 & H1 & H2 & H3).
    assert (s2 = s') as -> by congruence. destruct (H3 src Hsrc). done. }
  clear E Hq dsts Hok. destruct p as [|dst|dst live|dst live c|dst live c| |]; [..|done];
    cbn [inflight vulnerable] in *.
  - destruct Hin as [Hok _]. destruct (Hreq _ Hok) as (Hok' & Hst & _).
    split; [done|]. destruct Hsrc as [x Ex]. eexists. by apply (st_sealed _ _ _ Hst).
  - destruct Hin as (Hok & _ & Hd & Hdst). destruct (Hreq _ Hok) as (Hok' & Hst & _).
    destruct Hsrc as [x Ex]. split_and!; [done|eexists; by apply (st_sealed _ _ _ Hst)| |done].
    rewrite (st_dsts _ _ _ Hst); [done|by apply list_elem_of_here].
  - destruct Hin as (Hok & _ & Hd & Hdst & Hsc & Hb). destruct (Hreq _ Hok) as (Hok' & Hst & _ & Hqt).
    destruct Hsrc as [x Ex]. split_and!; [done|eexists; by apply (st_sealed _ _ _ Hst)| |done| |done].
    + rewrite (st_dsts _ _ _ Hst); [done|by apply list_elem_of_here].
    + eapply scanned_quiet; [|done]. by apply Hqt, Hnr.
  - destruct Hin as (Hok & Hdst & Hsc & csrc & qs & Es & Hd & Hq & Ho & Hf).
    destruct (Hreq _ Hok) as (Hok' & Hst & _ & Hqt). split_and!; [done..| |].
    + eapply scanned_quiet; [|done]. by apply Hqt, Hnr.
    + exists csrc, qs. split_and!; [by apply (st_sealed _ _ _ Hst)| |done..].
      rewrite (st_dsts _ _ _ Hst); [done|by apply list_elem_of_here].
  - destruct Hin as (Hok & Hsc & Hsd & csrc & cdst & Es & Hd & Hf).
    destruct (Hreq _ Hok) as (Hok' & Hst & _ & Hqt). split_and!; [done| |done|].
    + eapply scanned_quiet; [|done]. by apply Hqt, Hnr.
    + exists csrc, cdst. split_and!; [by apply (st_sealed _ _ _ Hst)..|done].
  - destruct Hin as (Hok & _ & Hn). destruct (Hreq _ Hok) as (Hok' & Hst & Hfrom & _).
    destruct Hsrc as [x Ex]. split_and!; [done|eexists; by apply (st_sealed _ _ _ Hst)|].
    by eapply no_rows_from.
Qed.

(** ** Interleavings *)

Inductive label := LGc | LRequest (q : request).

(** The compaction of [src] and the requests of other threads, in any order. *)
Inductive exec (src : N) : list label → pc * store → pc * store → Prop :=
  | exec_done c : exec src [] c c
  | exec_gc ls p s p' d c :
      gc_ready p s → p ≠ PcDone → gc_next src p (on s) = (inr p', d) →
      exec src ls (p', Store d (writer s) (target_size s)) c →
      exec src (LGc :: ls) (p, s) c
  | exec_request ls p s q s' c :
      serviceable q s → (vulnerable p = true → no_revival src q s) → p ≠ PcDone →
      run_request q s = (inr (), s') →
      exec src ls (p, s') c →
      exec src (LRequest q :: ls) (p, s) c.

Inductive spec_exec : list label → blobs → blobs → Prop :=
  | spec_done a : spec_exec [] a a
  | spec_gc ls a a1 a2 : spec_collects a a1 → spec_exec ls a1 a2 → spec_exec (LGc :: ls) a a2
  | spec_req ls q a a2 : spec_exec ls (spec_request q a) a2 → spec_exec (LRequest q :: ls) a a2.

Lemma exec_inflight src ls p s p' s' a :
  exec src ls (p, s) (p', s') → inflight src p s a →
  ∃ a', spec_exec ls a a' ∧ inflight src p' s' a'.
Proof.
  remember (p, s) as c eqn:Ec. remember (p', s') as c' eqn:Ec'. intros Hx. revert p s a Ec.
  induction Hx as [c|ls p1 s1 p2 d c Hr Hne E Hx IH|ls p1 s1 q s2 c Hq Hnr Hne E Hx IH];
    intros p s a Ec Hin; simplify_eq.
  - exists a. split; [constructor|done].
  - destruct (gc_next_ok src p s a Hin Hr Hne) as (p3 & s3 & a1 & E3 & [Ew Et _ _ _ _] & Hin' & Hc & _).
    rewrite E in E3. injection E3 as -> ->.
    destruct (IH eq_refl p3 (Store (on s3) (writer s) (target_size s)) a1 eq_refl) as (a' & Ha & Hi).
    { rewrite <- Ew, <- Et. by destruct s3. }
    exists a'. split; [by econstructor|done].
  - destruct (IH eq_refl p s2 (spec_request q a) eq_refl) as (a' & Ha & Hi).
    { by eapply inflight_request. }
    exists a'. split; [by constructor|done].
Qed.

End threads.
