(* ===== verification/PackRecovery.v ===== *)
(** * The blob store: recovery after a crash

    Whatever bytes a crash leaves after the committed frames of the open pack,
    in the logs and in the files of unfinished compactions, opening the store
    again succeeds and keeps every blob; the frames found whole after the
    committed ones are adopted.  So a [put] that was cut short has happened
    completely or not at all. *)

From S2P Require Import Prelude.
From S2P Require Import Strings.
From S2P Require Import Bytes.
From S2P Require Import PackFormat.
From S2P Require Import PackFormatTheory.
From S2P Require Import PackStore.
From S2P Require Import PackRun.
From S2P Require Import PackInvariant.
From S2P Require Import PackPut.
From stdpp Require Import sorting.

Section recovery.
Context `{PackHashing}.
Implicit Types (fs : gmap str bytes) (t : index) (w : OpenPack) (a : blobs) (dsts : list N).

(** ** The loop *)

(** The rows of the frames [ps] that start at [off]. *)
Fixpoint index_frames (id off : N) (ps : list bytes) (t : index) : index :=
  match ps with
  | [] => t
  | p :: ps =>
      index_frames id (off + (FRAME_HEADER_LEN + blen p)) ps (upsert (blake3 p) id off (blen p) t)
  end.

Lemma index_frames_app id off ps qs t :
  index_frames id off (ps ++ qs) t =
  index_frames id (off + blen (frames ps)) qs (index_frames id off ps t).
Proof.
  revert off t. induction ps as [|p ps IH]; intros off t.
  - cbn [app index_frames]. unfold frames. simpl. by rewrite blen_nil, N.add_0_r.
  - cbn [app index_frames]. rewrite IH, frames_cons, blen_app, blen_frame. f_equal. lia.
Qed.

Lemma scan_frame_shift f g : scan_frame (f ++ g) (blen f) = scan_frame g 0.
Proof.
  unfold scan_frame. rewrite blen_app.
  replace (blen f + blen g - blen f)%N with (blen g) by lia. rewrite N.sub_0_r, bdrop_app.
  change (bdrop 0 g) with g.
  replace (bdrop (blen f + FRAME_HEADER_LEN) (f ++ g)) with (bdrop FRAME_HEADER_LEN g)
    by (rewrite <- bdrop_bdrop, bdrop_app; done).
  done.
Qed.

Lemma recover_loop_run fuel id l r g fs t :
  fs !! pack_path_open id = Some (frames (l ++ r) ++ g) → Forall small r →
  (g = [] ∧ scan_frame g 0 = ScanEnd ∨ g ≠ [] ∧ scan_frame g 0 = ScanBad) →
  (blen (frames (l ++ r)) ≤ u64_max)%N → length r < fuel →
  recover_loop fuel id (frames (l ++ r) ++ g) (blen (frames l)) (healthy fs t) =
  (inr (), healthy (<[pack_path_open id := frames (l ++ r)]> fs)
             (index_frames id (blen (frames l)) r t)).
Proof.
  revert l r t. induction fuel as [|fuel IH]; intros l r t E Hr Hg Hb Hf; [lia|].
  cbn [recover_loop]. rewrite frames_app, <- app_assoc, scan_frame_shift.
  destruct Hr as [|p r Hp Hr].
  - rewrite app_nil_r in *. change (frames []) with ([] : bytes) in *. cbn [app] in *.
    cbn [index_frames].
    destruct Hg as [[-> ->]|[Hne ->]].
    + rewrite app_nil_r in E. by rewrite insert_id.
    + run_step (file_set_len_run (pack_path_open id) (blen (frames l)) (frames l ++ g) fs t E
        ltac:(rewrite blen_app; lia)).
      rewrite io_run. by rewrite btake_app.
  - rewrite frames_cons, <- app_assoc.
    assert (scan_frame (frame p ++ frames r ++ g) 0 = ScanFrame p) as ->.
    { apply scan_frame_spec. split; [done|]. by eexists. }
    run_step (execute_run (upsert (blake3 p) id (blen (frames l)) (blen p)) fs t).
    assert (frames (l ++ p :: r) = frames ((l ++ [p]) ++ r)) as Ef by (by rewrite <- app_assoc).
    assert (blen (frames (l ++ [p])) = blen (frames l) + (FRAME_HEADER_LEN + blen p))%N as El
      by (by rewrite frames_app, frames_singleton, blen_app, blen_frame).
    assert (blen (frames ((l ++ [p]) ++ r)) = blen (frames (l ++ [p])) + blen (frames r))%N as Elr
      by (by rewrite (frames_app (l ++ [p])), blen_app).
    rewrite Ef in *. rewrite sat_add_u64_exact by lia. rewrite <- El.
    replace (frames l ++ frame p ++ frames r ++ g) with (frames ((l ++ [p]) ++ r) ++ g)
      by (by rewrite !frames_app, frames_singleton, <- !app_assoc).
    rewrite IH; [|done|done|done|lia|simpl in Hf; lia].
    cbn [index_frames]. rewrite El, !frames_app, frames_singleton. by rewrite <- app_assoc.
Qed.

(** Enough fuel: one turn per frame and one more. *)
Lemma recover_open_pack_run id ps g fs t :
  fs !! pack_path_open id = Some (frames ps ++ g) → Forall small ps →
  (g = [] ∧ scan_frame g 0 = ScanEnd ∨ g ≠ [] ∧ scan_frame g 0 = ScanBad) →
  (blen (frames ps) ≤ u64_max)%N →
  recover_open_pack id (healthy fs t) =
  (inr (), healthy (<[pack_path_open id := frames ps]> fs) (index_frames id 0 ps t)).
Proof.
  intros E Hs Hg Hb. unfold recover_open_pack.
  run_step (file_open_run (pack_path_open id) (frames ps ++ g) fs t E).
  apply (recover_loop_run _ id [] ps g fs t); [done..|].
  rewrite length_app. pose proof (length_frames ps). lia.
Qed.

(** ** Frames that are adopted *)

Definition spec_adopt (qs : list bytes) (a : blobs) : blobs :=
  foldl (λ a q, <[blake3 q := (q, from_option snd false (a !! blake3 q))]> a) a qs.

(** Rows that are there already do not change. *)
Lemma index_frames_indexed id l r t :
  (∀ l1 p r1, r = l1 ++ p :: r1 →
     ∃ b, t !! blake3 p = Some (Row id (blen (frames (l ++ l1))) (blen p) b)) →
  index_frames id (blen (frames l)) r t = t.
Proof.
  revert l. induction r as [|p r IH]; intros l Hi; [done|]. cbn [index_frames].
  destruct (Hi [] p r eq_refl) as [b Eb]. rewrite app_nil_r in Eb.
  assert (upsert (blake3 p) id (blen (frames l)) (blen p) t = t) as ->.
  { unfold upsert. rewrite Eb. cbn [from_option r_tombstoned]. by apply insert_id. }
  replace (blen (frames l) + (FRAME_HEADER_LEN + blen p))%N with (blen (frames (l ++ [p])))
    by (by rewrite frames_app, frames_singleton, blen_app, blen_frame).
  apply IH. intros l1 q r1 ->. destruct (Hi (p :: l1) q r1 eq_refl) as [b' Eb'].
  exists b'. by rewrite <- app_assoc.
Qed.

Lemma open_indexed_frames id ps t : open_indexed id ps t → index_frames id 0 ps t = t.
Proof. intros Hi. apply (index_frames_indexed id [] ps t). exact Hi. Qed.

Lemma blob_at_frame fs i c l p r b :
  file_of fs i = Some c → c = frames (l ++ p :: r) → small p →
  blob_at fs (blake3 p) (Row i (blen (frames l)) (blen p) b) (p, b).
Proof.
  intros Ec -> Hp. split_and!; [done..|]. eexists. split; [exact Ec|]. simpl.
  rewrite frames_app, frames_cons. by apply read_frame_mid.
Qed.

Lemma holds_adopt fs i l qs t a :
  file_of fs i = Some (frames (l ++ qs)) → Forall small qs → holds fs t a →
  holds fs (index_frames i (blen (frames l)) qs t) (spec_adopt qs a).
Proof.
  revert l t a. induction qs as [|q qs IH]; intros l t a Ef Hs Hh; [done|].
  apply Forall_cons in Hs as [Hq Hs]. cbn [index_frames spec_adopt foldl].
  replace (blen (frames l) + (FRAME_HEADER_LEN + blen q))%N with (blen (frames (l ++ [q])))
    by (by rewrite frames_app, frames_singleton, blen_app, blen_frame).
  apply IH; [by rewrite <- app_assoc|done|]. unfold upsert.
  assert (from_option r_tombstoned false (t !! blake3 q) = from_option snd false (a !! blake3 q)) as ->.
  { destruct (Hh (blake3 q)) as [r x (Hb & _)|]; [exact Hb|done]. }
  apply holds_insert; [|done]. by eapply blob_at_frame.
Qed.

(** The rows of adopted frames, as the invariant wants them: each hash once. *)
Lemma index_frames_lookup_ne id off qs t h :
  h ∉ (blake3 <$> qs) → index_frames id off qs t !! h = t !! h.
Proof.
  revert off t. induction qs as [|q qs IH]; intros off t Hn; [done|]. cbn [index_frames fmap list_fmap] in *.
  apply not_elem_of_cons in Hn as [Hne Hn]. rewrite IH by done. unfold upsert.
  by rewrite lookup_insert_ne.
Qed.

Lemma open_indexed_adopt id l qs t :
  NoDup (blake3 <$> (l ++ qs)) → open_indexed id l t →
  open_indexed id (l ++ qs) (index_frames id (blen (frames l)) qs t).
Proof.
  revert l t. induction qs as [|q qs IH]; intros l t Hnd Hi; [by rewrite app_nil_r|].
  cbn [index_frames].
  replace (blen (frames l) + (FRAME_HEADER_LEN + blen q))%N with (blen (frames (l ++ [q])))
    by (by rewrite frames_app, frames_singleton, blen_app, blen_frame).
  replace (l ++ q :: qs) with ((l ++ [q]) ++ qs) in * by (by rewrite <- app_assoc).
  apply IH; [done|]. intros l1 p r El. destruct r as [|x r _] using rev_ind.
  - apply app_inj_tail in El as [<- <-]. eexists. unfold upsert. by rewrite lookup_insert_eq.
  - rewrite app_comm_cons, app_assoc in El. apply app_inj_tail in El as [-> ->].
    destruct (Hi l1 p r eq_refl) as [b Eb]. exists b. unfold upsert. rewrite lookup_insert_ne; [done|].
    rewrite !fmap_app, <- !app_assoc in Hnd. apply NoDup_app in Hnd as (_ & Hd & Hnd).
    intros Eh. cbn [fmap list_fmap] in Hnd. apply NoDup_cons in Hnd as [Hn _]. apply Hn.
    rewrite <- Eh. set_solver.
Qed.

(** ** Opening a directory that a crash has left behind *)

(** [fs] is what [s] had on disk, except that the open pack goes on with [g],
    that logs hold anything, and that packs opened later than the writer's (the
    destinations of compactions) hold anything too. *)
Record crashed (s : store) (g : bytes) (fs : gmap str bytes) : Prop := {
  cr_names : names_ok fs;
  cr_sealed : ∀ i, fs !! pack_path_sealed i = dir (on s) !! pack_path_sealed i;
  cr_open : fs !! pack_path_open (pack_id (writer s)) =
    (λ c, c ++ g) <$> dir (on s) !! pack_path_open (pack_id (writer s));
  cr_opens : ∀ i, is_Some (fs !! pack_path_open i) → i = pack_id (writer s) ∨
    (pack_id (writer s) < i ≤ u32_max)%N ∧ fs !! pack_path_sealed i = None
}.

(** Removing the stale packs. *)
Lemma drop_stale_run fs t i opens c :
  names_ok fs → fs !! pack_path_open i = Some c →
  (∀ j, is_Some (fs !! pack_path_open j) → j ∈ opens) →
  ∃ fs', for_each (remove_stale i) opens (healthy fs t) = (inr (), healthy fs' t) ∧ names_ok fs' ∧
    (∀ j, fs' !! pack_path_sealed j = fs !! pack_path_sealed j) ∧
    fs' !! pack_path_open i = Some c ∧
    (∀ j, is_Some (fs' !! pack_path_open j) → j = i).
Proof.
  intros Hn Hc Hall.
  set (P := λ (rest : list N) (d : disk), ∃ fs', d = healthy fs' t ∧ names_ok fs' ∧
    (∀ j, fs' !! pack_path_sealed j = fs !! pack_path_sealed j) ∧
    fs' !! pack_path_open i = Some c ∧ (∀ j, is_Some (fs' !! pack_path_open j) → j = i ∨ j ∈ rest)).
  destruct (for_each_run (remove_stale i) P opens (healthy fs t))
    as (d & E & fs' & -> & H1 & H2 & H3 & H4); [| |exists fs'; split_and!; [exact E|done..|]].
  - exists fs. split_and!; [done..|]. intros j Hj. right. by apply Hall.
  - intros j rest d (fs' & -> & H1 & H2 & H3 & H4). unfold remove_stale. destruct (N.eqb_spec j i) as [->|Hne].
    + eexists. split; [done|]. exists fs'. split_and!; [done..|]. intros k Hk.
      destruct (H4 k Hk) as [?|Hin]; [by left|]. apply elem_of_cons in Hin as [->|?]; [by left|by right].
    + destruct (attempt_remove_run (pack_path_open j) fs' t) as [r1 E1].
      destruct (attempt_remove_run (tombstone_log_path j) (delete (pack_path_open j) fs') t) as [r2 E2].
      eexists. split; [run_step E1; by run_step E2|].
      exists (delete (tombstone_log_path j) (delete (pack_path_open j) fs')). split_and!.
      * done.
      * by apply names_ok_delete, names_ok_delete.
      * intros k. by simpl_fs.
      * by simpl_fs.
      * intros k. simpl_fs. destruct (decide (k = j)) as [->|Hkj]; [by rewrite lookup_delete_eq; intros []|].
        rewrite lookup_delete_ne by pack_ne. intros Hk. destruct (H4 k Hk) as [?|Hin]; [by left|].
        apply elem_of_cons in Hin as [->|?]; [done|by right].
  - intros j Hj. destruct (H4 j Hj) as [?|Hin]; [done|]. by apply elem_of_nil in Hin.
Qed.

Lemma elem_of_open_ids fs i :
  names_ok fs → (i ≤ u32_max)%N → i ∈ open_ids (packs_of fs) ↔ is_Some (fs !! pack_path_open i).
Proof.
  intros Hn Hi. unfold open_ids. rewrite list_elem_of_omap. split.
  - intros ([j []] & Hin & E); simplify_eq/=. by apply (elem_of_packs_ok fs i false Hn Hi).
  - intros Ho. exists (i, false). split; [|done]. by apply (elem_of_packs_ok fs i false Hn Hi).
Qed.

Lemma open_ids_bound fs i : names_ok fs → i ∈ open_ids (packs_of fs) → (i ≤ u32_max)%N.
Proof.
  intros Hn Hin. unfold open_ids in Hin. apply list_elem_of_omap in Hin as ([k []] & Hk & E); simplify_eq/=.
  by eapply packs_bound.
Qed.

Lemma foldr_min_le (l : list N) d i : i ∈ d :: l → (foldr N.min d l ≤ i)%N.
Proof.
  induction l as [|x l IH]; intros Hin.
  - apply elem_of_cons in Hin as [->|Hin]; [simpl; lia|by apply elem_of_nil in Hin].
  - cbn [foldr]. rewrite !elem_of_cons in *. destruct Hin as [->|[->|Hin]]; [|lia|].
    + specialize (IH (or_introl eq_refl)). lia.
    + specialize (IH (or_intror Hin)). lia.
Qed.

Lemma foldr_min_in (l : list N) d : foldr N.min d l ∈ d :: l.
Proof.
  induction l as [|x l IH]; [by apply list_elem_of_here|]. cbn [foldr].
  destruct (N.min_spec x (foldr N.min d l)) as [[_ ->]|[_ ->]]; [set_solver|].
  rewrite !elem_of_cons in *. naive_solver.
Qed.

(** The writer's pack is chosen, and the stale ones are gone. *)
Lemma recover_choice fs t i c :
  names_ok fs → fs !! pack_path_open i = Some c →
  (∀ j, is_Some (fs !! pack_path_open j) → (i ≤ j ≤ u32_max)%N) →
  ∃ fs', names_ok fs' ∧ (∀ j, fs' !! pack_path_sealed j = fs !! pack_path_sealed j) ∧
    fs' !! pack_path_open i = Some c ∧
    (∀ j, is_Some (fs' !! pack_path_open j) → j = i) ∧
    recover_and_open_current_pack (healthy fs t) =
    (recover_open_pack i;; open_existing_open_pack i) (healthy fs' t).
Proof.
  intros Hn Hc Hall. unfold recover_and_open_current_pack.
  rewrite (bind_inr list_packs _ (healthy fs t) (packs_of fs) (healthy fs t) eq_refl).
  assert (∀ j, j ∈ open_ids (packs_of fs) → is_Some (fs !! pack_path_open j)) as Hin.
  { intros j Hj. apply elem_of_open_ids; [done|by eapply open_ids_bound|done]. }
  assert (∀ j, is_Some (fs !! pack_path_open j) → j ∈ open_ids (packs_of fs)) as Hin2
    by (intros j Hj; apply elem_of_open_ids; [done|by apply Hall|done]).
  assert (i ∈ open_ids (packs_of fs)) as Hi by (apply Hin2; by eexists).
  destruct (open_ids (packs_of fs)) as [|i1 [|i2 rest]] eqn:Eo; [by apply elem_of_nil in Hi| |].
  - apply list_elem_of_singleton in Hi as ->. exists fs. split_and!; [done..| |done].
    intros j Hj. apply Hin2 in Hj. by apply list_elem_of_singleton in Hj.
  - destruct (drop_stale_run fs t i (i1 :: i2 :: rest) c Hn Hc Hin2) as (fs' & E & H1 & H2 & H3 & H4).
    exists fs'. split_and!; [done..|]. cbv zeta.
    assert (foldr N.min i1 (i1 :: i2 :: rest) = i) as ->.
    { apply N.le_antisymm; [apply foldr_min_le; by apply list_elem_of_further|].
      pose proof (foldr_min_in (i1 :: i2 :: rest) i1) as Hm.
      apply Hall, Hin. rewrite !elem_of_cons in *. naive_solver. }
    by run_step E.
Qed.

(** *** The store that opening gives *)

Lemma open_existing_run i c fs t :
  fs !! pack_path_open i = Some c →
  open_existing_open_pack i (healthy fs t) =
  (inr (mkOpenPack i (pack_path_open i) (blen c) (blen c)),
   healthy (<[tombstone_log_path i := from_option id [] (fs !! tombstone_log_path i)]> fs) t).
Proof.
  intros E. unfold open_existing_open_pack. run_step (file_open_run (pack_path_open i) c fs t E).
  run_step (io_run fs t). run_step (file_touch_run (tombstone_log_path i) fs t). done.
Qed.

(** The frames of [g], and what is left of it. *)
Definition adopts (g : bytes) (qs : list bytes) : Prop :=
  ∃ rest, g = frames qs ++ rest ∧ Forall small qs ∧
    (rest = [] ∧ scan_frame rest 0 = ScanEnd ∨ rest ≠ [] ∧ scan_frame rest 0 = ScanBad).

Lemma adopts_exists g : ∃ qs, adopts g qs.
Proof. destruct (pack_decompose g) as (qs & rest & E & Hq & Hr). exists qs, rest. done. Qed.

(** A directory with the sealed packs, and with the writer's pack or more of it,
    is enough for every row: none points to an unfinished compaction. *)
Lemma holds_reopened dsts s a fs :
  store_ok dsts s a → (∀ j, fs !! pack_path_sealed j = dir (on s) !! pack_path_sealed j) →
  (∃ g, fs !! pack_path_open (pack_id (writer s)) =
    (λ c, c ++ g) <$> dir (on s) !! pack_path_open (pack_id (writer s))) →
  holds fs (rows (on s)) a.
Proof.
  intros Hok Hs [g Hg] h. destruct (rows (on s) !! h) as [r|] eqn:E.
  - destruct (holds_Some _ _ _ _ _ (ok_holds _ _ _ Hok) E) as (x & -> & Hb & Hx & c & Ec & Er).
    constructor. split_and!; [done..|]. unfold file_of in *. rewrite Hs.
    destruct (dir (on s) !! pack_path_sealed (r_pack r)) as [y|] eqn:Es; [by exists c|].
    destruct (ok_opens _ _ _ Hok (r_pack r) ltac:(by eexists)) as [Ep|Hd].
    + rewrite Ep in *. rewrite Hg, Ec. exists (c ++ g). split; [done|]. by apply read_frame_app.
    + by destruct (ok_unused _ _ _ Hok _ _ _ Hd E).
  - apply (holds_None _ _ _ _ (ok_holds _ _ _ Hok)) in E. rewrite E. constructor.
Qed.

(** Opening after a crash: the store is in order, and holds what it held, with
    the whole frames of [g] on top. *)
Lemma open_crashed dsts s a g fs qs ps :
  store_ok dsts s a → crashed s g fs → adopts g qs →
  writer_ok (dir (on s)) (writer s) ps → open_indexed (pack_id (writer s)) ps (rows (on s)) →
  NoDup (blake3 <$> (ps ++ qs)) →
  (blen (frames (ps ++ qs)) ≤ offset_limit (target_size s))%N →
  ∃ s', open_store (healthy fs (rows (on s))) (target_size s) = (inr s', on s') ∧
    store_ok [] s' (spec_adopt qs a).
Proof.
  intros Hok [Cn Cs Co Cop] (rest & Eg & Hq & Hrest) Hw Hi Hnd Hlim.
  pose proof Hw as [Hid Hf Hsm Hoff Hcur Hpath]. set (i := pack_id (writer s)) in *.
  assert (fs !! pack_path_open i = Some (frames (ps ++ qs) ++ rest)) as Hc.
  { rewrite Co, Hf. simpl. by rewrite Eg, app_assoc, <- frames_app. }
  assert (blen (frames (ps ++ qs)) ≤ u64_max)%N as Hfit by (eapply offset_limit_fits, Hlim; apply Hok).
  assert (∀ j, is_Some (fs !! pack_path_open j) → (i ≤ j ≤ u32_max)%N) as Hall.
  { intros j Hj. destruct (Cop j Hj) as [->|[? _]]; [done|lia]. }
  destruct (recover_choice fs (rows (on s)) i _ Cn Hc Hall) as (fs1 & N1 & S1 & O1 & A1 & E1).
  unfold open_store. rewrite E1. clear E1.
  run_step (recover_open_pack_run i (ps ++ qs) rest fs1 (rows (on s)) O1
    ltac:(by apply Forall_app_2) Hrest Hfit).
  set (fs2 := <[pack_path_open i := frames (ps ++ qs)]> fs1).
  assert (fs2 !! pack_path_open i = Some (frames (ps ++ qs))) as O2 by (unfold fs2; by simpl_fs).
  set (t2 := index_frames i 0 (ps ++ qs) (rows (on s))).
  rewrite (open_existing_run i _ fs2 t2 O2).
  set (fs3 := <[tombstone_log_path i := _]> fs2).
  eexists (Store (healthy fs3 t2) _ _). split; [done|].
  assert (t2 = index_frames i (blen (frames ps)) qs (rows (on s))) as Et2.
  { unfold t2. rewrite index_frames_app, (open_indexed_frames _ _ _ Hi). by rewrite N.add_0_l. }
  assert (∀ j, fs3 !! pack_path_sealed j = dir (on s) !! pack_path_sealed j) as S3
    by (intros j; unfold fs3, fs2; simpl_fs; by rewrite S1).
  assert (∀ j, is_Some (fs3 !! pack_path_open j) → j = i) as A3.
  { intros j Hj. destruct (decide (j = i)); [done|]. apply A1. unfold fs3, fs2 in Hj.
    by rewrite lookup_insert_ne, lookup_insert_ne in Hj by pack_ne. }
  assert (fs3 !! pack_path_open i = Some (frames (ps ++ qs))) as O3 by (unfold fs3; by simpl_fs).
  assert (one_form fs3) as F3.
  { intros j. destruct (decide (j = i)) as [->|Hne].
    - left. rewrite S3. destruct (ok_form _ _ _ Hok i); [done|congruence].
    - right. apply eq_None_not_Some. intros Hs. by apply Hne, A3. }
  constructor; simpl.
  - done.
  - unfold fs3, fs2. apply names_ok_log. rewrite pack_path_open_of. by apply names_ok_pack.
  - done.
  - intros j c. rewrite S3. apply (ok_sealed _ _ _ Hok).
  - intros j Hj. left. by apply A3.
  - exists (ps ++ qs). split; [constructor; simpl; try done; by apply Forall_app_2|].
    rewrite Et2. by apply open_indexed_adopt.
  - intros d Hd. by apply elem_of_nil in Hd.
  - intros d h r Hd. by apply elem_of_nil in Hd.
  - apply Hok.
  - done.
  - rewrite Et2. apply holds_adopt; [by apply file_of_open|done|].
    apply (holds_reopened dsts s a fs3); [done|done|]. fold i. rewrite O3, Hf. exists (frames qs).
    by rewrite frames_app.
Qed.

End recovery.
