(* ===== verification/PackRebuild.v ===== *)
(** * The blob store: rebuilding the index

    [run_rebuild_index] walks the sealed packs and replays the tombstone logs.
    Whatever the index held before, afterwards every blob of a sealed pack has a
    row that reads back with its hash, evicted or not as the last record about
    it in the logs says. *)

From S2P Require Import Prelude.
From S2P Require Import Strings.
From S2P Require Import Bytes.
From S2P Require Import PackFormat.
From S2P Require Import PackFormatTheory.
From S2P Require Import PackStore.
From S2P Require Import PackRun.
From S2P Require Import PackInvariant.
From S2P Require Import PackPut.
From S2P Require Import PackRecovery.

Section rebuild.
Context `{PackHashing}.
Implicit Types (fs : gmap str bytes) (t : index).

(** ** The walk *)

Lemma blen_pack_tail n : blen (pack_tail n) = TAIL_LEN.
Proof. unfold pack_tail, blen. rewrite !length_app, !length_le_bytes. done. Qed.

Lemma btake_frame p g :
  btake FRAME_HEADER_LEN (frame p ++ g) = frame_header (blen p) (xxh3_64 p).
Proof.
  unfold frame. rewrite <- app_assoc, <- (blen_frame_header (blen p) (xxh3_64 p)). apply btake_app.
Qed.

Lemma walk_loop_run fuel id l r n k fs t :
  Forall small r → (blen (frames (l ++ r)) ≤ u64_max)%N → length r < fuel →
  walk_loop fuel id (frames (l ++ r) ++ pack_tail n) (blen (frames l)) k (healthy fs t) =
  (inr (k + N.of_nat (length r))%N, healthy fs (index_frames id (blen (frames l)) r t)).
Proof.
  revert l r t k. induction fuel as [|fuel IH]; intros l r t k Hr Hb Hf; [lia|].
  cbn [walk_loop]. destruct Hr as [|p r Hp Hr].
  - rewrite app_nil_r, blen_app, blen_pack_tail.
    rewrite (proj2 (N.ltb_lt _ _)) by (rewrite header_len; unfold TAIL_LEN; lia).
    cbn [length index_frames]. unfold mret, M_ret. do 2 f_equal. lia.
  - rewrite frames_app, <- app_assoc.
    rewrite (proj2 (N.ltb_ge _ _))
      by (rewrite blen_app, frames_cons, !blen_app, blen_frame; lia).
    rewrite bdrop_app, frames_cons, <- app_assoc, btake_frame.
    rewrite frame_header_magic, bool_decide_eq_false_2 by done.
    rewrite scan_frame_shift.
    assert (scan_frame (frame p ++ frames r ++ pack_tail n) 0 = ScanFrame p) as ->.
    { apply scan_frame_spec. split; [done|]. by eexists. }
    run_step (execute_run (upsert (blake3 p) id (blen (frames l)) (blen p)) fs t).
    assert (blen (frames (l ++ [p])) = blen (frames l) + (FRAME_HEADER_LEN + blen p))%N as El
      by (by rewrite frames_app, frames_singleton, blen_app, blen_frame).
    assert (frames (l ++ p :: r) = frames ((l ++ [p]) ++ r)) as Ef by (by rewrite <- app_assoc).
    rewrite Ef in Hb.
    assert (blen (frames ((l ++ [p]) ++ r)) = blen (frames (l ++ [p])) + blen (frames r))%N as Elr
      by (by rewrite (frames_app (l ++ [p])), blen_app).
    rewrite sat_add_u64_exact by lia. rewrite <- El.
    replace (frames l ++ frame p ++ frames r ++ pack_tail n) with (frames ((l ++ [p]) ++ r) ++ pack_tail n)
      by (by rewrite !frames_app, frames_singleton, <- !app_assoc).
    rewrite IH; [|done|done|simpl in Hf; lia]. cbn [index_frames length]. rewrite El. do 2 f_equal. lia.
Qed.

Lemma walk_run i ps n fs t :
  fs !! pack_path_sealed i = Some (frames ps ++ pack_tail n) → Forall small ps →
  (blen (frames ps) ≤ u64_max)%N →
  rebuild_index_walk_sealed_pack i (healthy fs t) =
  (inr (N.of_nat (length ps)), healthy fs (index_frames i 0 ps t)).
Proof.
  intros E Hs Hb. unfold rebuild_index_walk_sealed_pack.
  run_step (file_open_run (pack_path_sealed i) _ fs t E).
  rewrite (walk_loop_run _ i [] ps n 0 fs t); [by rewrite N.add_0_l|done|done|].
  rewrite length_app. pose proof (length_frames ps). lia.
Qed.

(** ** The replay *)

Lemma replay_record_run k r fs t :
  replay_record k r (healthy fs t) =
  (inr (if replay_applies r t then sat_add_u64 k 1 else k), healthy fs (replay_update r t)).
Proof. unfold replay_record. by run_step (query_run (replay_applies r) fs t). Qed.

Lemma replay_records_run rs k fs t :
  ∃ k', fold_m replay_record rs k (healthy fs t) =
    (inr k', healthy fs (foldl (λ t r, replay_update r t) t rs)).
Proof.
  revert k t. induction rs as [|r rs IH]; intros k t; [by eexists|]. cbn [fold_m foldl].
  run_step (replay_record_run k r fs t). apply IH.
Qed.

Definition log_of fs (i : N) : bytes := from_option id [] (fs !! tombstone_log_path i).

Lemma replay_run i fs t :
  ∃ k, rebuild_index_replay_tombstone_log i (healthy fs t) =
    (inr k, healthy fs (foldl (λ t r, replay_update r t) t (log_records (log_of fs i)))).
Proof.
  unfold rebuild_index_replay_tombstone_log, log_of.
  destruct (fs !! tombstone_log_path i) as [c|] eqn:E.
  - run_step (attempt_run _ _ _ _ (file_open_run (tombstone_log_path i) c fs t E)).
    apply replay_records_run.
  - run_step (attempt_run _ _ _ _ (file_open_missing (tombstone_log_path i) fs t E)).
    eexists. reflexivity.
Qed.

(** What a record leaves of a row, and what records leave of a mark. *)
Definition record_mark (h : BlobHash) (b : bool) (r : TombstoneLogKind * BlobHash) : bool :=
  if decide (r.2 = h) then match r.1 with Tombstone => true | Revive => false end else b.

Definition marks (rs : list (TombstoneLogKind * BlobHash)) (h : BlobHash) (b : bool) : bool :=
  foldl (record_mark h) b rs.

Lemma set_tombstoned_same r : set_tombstoned (r_tombstoned r) r = r.
Proof. by destruct r. Qed.

Lemma replay_update_lookup rec t h :
  replay_update rec t !! h =
  (λ r, set_tombstoned (record_mark h (r_tombstoned r) rec) r) <$> t !! h.
Proof.
  destruct rec as [k h']. unfold replay_update, replay_applies, record_mark, mark. cbn [fst snd].
  destruct (decide (h' = h)) as [->|Hne].
  - destruct (t !! h) as [r|] eqn:E; [|by rewrite E]. cbn [fmap option_fmap option_map].
    destruct k, (r_tombstoned r) eqn:Et; cbn [negb];
      rewrite ?lookup_alter_eq, ?E; cbn [fmap option_fmap option_map]; try done;
      by rewrite <- Et, set_tombstoned_same.
  - assert (((λ r : row, set_tombstoned (r_tombstoned r) r) <$> t !! h) = t !! h) as ->.
    { destruct (t !! h) as [r|]; [|done]. cbn [fmap option_fmap option_map].
      by rewrite set_tombstoned_same. }
    case_match; [|done]. by rewrite lookup_alter_ne.
Qed.

Lemma replay_lookup rs t h :
  foldl (λ t r, replay_update r t) t rs !! h =
  (λ r, set_tombstoned (marks rs h (r_tombstoned r)) r) <$> t !! h.
Proof.
  revert t. induction rs as [|rec rs IH]; intros t; cbn [foldl marks].
  - destruct (t !! h) as [r|]; [|done]. cbn. by rewrite set_tombstoned_same.
  - rewrite IH, replay_update_lookup. destruct (t !! h) as [r|]; [|done]. done.
Qed.

(** ** The whole rebuild *)

(** The payloads of a sealed pack. *)
Definition packed fs (i : N) (ps : list bytes) : Prop :=
  ∃ n, fs !! pack_path_sealed i = Some (frames ps ++ pack_tail n) ∧ Forall small ps ∧
    (blen (frames ps) ≤ u64_max)%N.

Definition walked fs (t : index) (packs : list (N * list bytes)) : index :=
  foldl (λ t e, index_frames e.1 0 e.2 t) t packs.

(** One turn of each of the two loops. *)
Lemma walk_turn i ps n acc fs t :
  fs !! pack_path_sealed i = Some (frames ps ++ pack_tail n) → Forall small ps →
  (blen (frames ps) ≤ u64_max)%N →
  rebuild_walk acc i (healthy fs t) =
  (inr (sat_add_u32 acc.1 1, sat_add_u64 acc.2 (N.of_nat (length ps))), healthy fs (index_frames i 0 ps t)).
Proof. intros E Hs Hb. unfold rebuild_walk. by run_step (walk_run i ps n fs t E Hs Hb). Qed.

Lemma replay_turn i acc fs t :
  ∃ acc', rebuild_replay acc i (healthy fs t) =
    (inr acc', healthy fs (foldl (λ t r, replay_update r t) t (log_records (log_of fs i)))).
Proof. destruct (replay_run i fs t) as [k E]. unfold rebuild_replay. eexists. by run_step E. Qed.

Lemma walks_run packs acc fs t :
  Forall (λ e, packed fs e.1 e.2) packs →
  ∃ acc', fold_m rebuild_walk packs.*1 acc (healthy fs t) =
    (inr acc', healthy fs (walked fs t packs)).
Proof.
  intros Hp. revert acc t. induction Hp as [|[i ps] packs (n & E & Hs & Hb) _ IH]; intros acc t; [by eexists|].
  cbn [fmap list_fmap fst fold_m snd] in *.
  change (walked fs t ((i, ps) :: packs)) with (walked fs (index_frames i 0 ps t) packs).
  run_step (walk_turn i ps n acc fs t E Hs Hb). apply IH.
Qed.

Definition all_records fs (ids : list N) : list (TombstoneLogKind * BlobHash) :=
  ids ≫= λ i, log_records (log_of fs i).

Lemma replays_run ids acc fs t :
  ∃ acc', fold_m rebuild_replay ids acc (healthy fs t) =
    (inr acc', healthy fs (foldl (λ t r, replay_update r t) t (all_records fs ids))).
Proof.
  revert acc t. induction ids as [|i ids IH]; intros acc t; [by eexists|]. cbn [fold_m].
  destruct (replay_turn i acc fs t) as [acc1 E]. run_step E.
  unfold all_records. cbn [mbind list_bind]. rewrite foldl_app. apply IH.
Qed.

(** *** The rows after the walk *)

(** A row that reads back with its hash. *)
Definition readable fs h (r : row) : Prop := ∃ q, blob_at fs h r (q, r_tombstoned r).

Lemma upsert_mark h id off len t k :
  from_option r_tombstoned false (upsert h id off len t !! k) =
  from_option r_tombstoned false (t !! k).
Proof.
  unfold upsert. destruct (decide (k = h)) as [->|Hne].
  - by rewrite lookup_insert_eq.
  - by rewrite lookup_insert_ne.
Qed.

Lemma index_frames_mark id off ps t k :
  from_option r_tombstoned false (index_frames id off ps t !! k) =
  from_option r_tombstoned false (t !! k).
Proof.
  revert off t. induction ps as [|p ps IH]; intros off t; [done|]. cbn [index_frames].
  by rewrite IH, upsert_mark.
Qed.

Lemma walked_mark fs t packs k :
  from_option r_tombstoned false (walked fs t packs !! k) = from_option r_tombstoned false (t !! k).
Proof.
  revert t. induction packs as [|[i ps] packs IH]; intros t; [done|].
  change (walked fs t ((i, ps) :: packs)) with (walked fs (index_frames i 0 ps t) packs).
  by rewrite IH, index_frames_mark.
Qed.

Lemma index_frames_readable fs i l r t h c g :
  file_of fs i = Some c → c = frames (l ++ r) ++ g → Forall small r →
  (h ∈ (blake3 <$> r) ∨ ∃ x, t !! h = Some x ∧ readable fs h x) →
  ∃ x, index_frames i (blen (frames l)) r t !! h = Some x ∧ readable fs h x.
Proof.
  intros Ef. revert l t. induction r as [|p r IH]; intros l t Ec Hs Hh.
  { destruct Hh as [Hin|Hx]; [by apply elem_of_nil in Hin|done]. }
  apply Forall_cons in Hs as [Hp Hs]. cbn [index_frames].
  replace (blen (frames l) + (FRAME_HEADER_LEN + blen p))%N with (blen (frames (l ++ [p])))
    by (by rewrite frames_app, frames_singleton, blen_app, blen_frame).
  apply IH; [by rewrite <- app_assoc|done|]. destruct (decide (h = blake3 p)) as [->|Hne].
  - right. eexists. unfold upsert. rewrite lookup_insert_eq. split; [done|]. exists p.
    split_and!; [done..|]. exists c. split; [done|]. simpl.
    rewrite Ec, frames_app, frames_cons, <- !app_assoc. by apply read_frame_mid.
  - destruct Hh as [Hin|(x & Ex & Hx)].
    + cbn [fmap list_fmap] in Hin. apply elem_of_cons in Hin as [?|Hin]; [done|by left].
    + right. exists x. unfold upsert. by rewrite lookup_insert_ne.
Qed.

Lemma walked_readable fs packs t h :
  Forall (λ e, packed fs e.1 e.2) packs →
  ((∃ e, e ∈ packs ∧ h ∈ (blake3 <$> e.2)) ∨ ∃ x, t !! h = Some x ∧ readable fs h x) →
  ∃ x, walked fs t packs !! h = Some x ∧ readable fs h x.
Proof.
  intros Hp. revert t. induction Hp as [|[i ps] packs (n & E & Hs & Hb) _ IH]; intros t Hh.
  { destruct Hh as [(e & Hin & _)|Hx]; [by apply elem_of_nil in Hin|done]. }
  cbn [fst snd] in *. change (walked fs t ((i, ps) :: packs)) with (walked fs (index_frames i 0 ps t) packs). apply IH.
  destruct Hh as [([j qs] & Hin & Hh)|Hx].
  - apply elem_of_cons in Hin as [[= -> ->]|Hin]; [|left; by exists (j, qs)].
    right. apply (index_frames_readable fs i [] ps t h _ (pack_tail n) (file_of_sealed _ _ _ E)); auto.
  - right. apply (index_frames_readable fs i [] ps t h _ (pack_tail n) (file_of_sealed _ _ _ E)); auto.
Qed.

Lemma walked_other fs packs t h :
  (∀ e, e ∈ packs → h ∉ (blake3 <$> e.2)) → walked fs t packs !! h = t !! h.
Proof.
  revert t. induction packs as [|[i ps] packs IH]; intros t Hn; [done|].
  change (walked fs t ((i, ps) :: packs)) with (walked fs (index_frames i 0 ps t) packs).
  rewrite IH by (intros e He; apply Hn; by apply list_elem_of_further).
  apply index_frames_lookup_ne. apply (Hn (i, ps)). by apply list_elem_of_here.
Qed.

Lemma readable_set_tombstoned fs h b r : readable fs h r → readable fs h (set_tombstoned b r).
Proof. intros (q & _ & Hh & Hr). exists q. by split_and!. Qed.

(** The rebuild: it returns, leaves the files alone, and gives every blob of the
    sealed packs a readable row, marked as the logs say; rows of other blobs
    keep their place. *)
Lemma run_rebuild_ok packs fs t w tg :
  rebuild_packs (pack_id w) (packs_of fs) = packs.*1 →
  Forall (λ e, packed fs e.1 e.2) packs →
  ∃ stats t', run_rebuild_index (Store (healthy fs t) w tg) = (inr stats, Store (healthy fs t') w tg) ∧
    (∀ i ps p, (i, ps) ∈ packs → p ∈ ps →
       ∃ r, t' !! blake3 p = Some r ∧ readable fs (blake3 p) r ∧
         r_tombstoned r = marks (all_records fs packs.*1) (blake3 p)
                            (from_option r_tombstoned false (t !! blake3 p))) ∧
    (∀ h, (∀ i ps, (i, ps) ∈ packs → h ∉ (blake3 <$> ps)) →
       t' !! h = (λ r, set_tombstoned (marks (all_records fs packs.*1) h (r_tombstoned r)) r) <$> t !! h).
Proof.
  intros Eids Hp. destruct (walks_run packs (0, 0)%N fs t Hp) as [acc Ew].
  destruct (replays_run packs.*1 0%N fs (walked fs t packs)) as [k Er].
  set (t' := foldl (λ t r, replay_update r t) (walked fs t packs) (all_records fs packs.*1)).
  exists (mkRebuildStats acc.1 acc.2 k), t'. split_and!.
  - unfold run_rebuild_index. rewrite bind_state. cbn [writer].
    run_step (lift_healthy list_packs fs t w tg _ _ eq_refl). cbn [dir healthy]. rewrite Eids.
    run_step (lift_healthy _ fs t w tg _ _ Ew).
    by run_step (lift_healthy _ fs (walked fs t packs) w tg _ _ Er).
  - intros i ps p Hin Hpin.
    destruct (walked_readable fs packs t (blake3 p) Hp) as (x & Ex & Hx).
    { left. exists (i, ps). split; [done|]. by apply list_elem_of_fmap_2. }
    exists (set_tombstoned (marks (all_records fs packs.*1) (blake3 p) (r_tombstoned x)) x). split_and!.
    + unfold t'. rewrite replay_lookup, Ex. done.
    + by apply readable_set_tombstoned.
    + pose proof (walked_mark fs t packs (blake3 p)) as Hm. rewrite Ex in Hm. simpl in Hm. by rewrite <- Hm.
  - intros h Hh. unfold t'. rewrite replay_lookup, walked_other; [done|].
    intros [i ps] He. by apply Hh with i.
Qed.

(** *** The packs of a store in order *)

Lemma frame_not_tail p g n g' : frame p ++ g ≠ pack_tail n ++ g'.
Proof. intros E. by injection E. Qed.

Lemma frames_tail_inj ps qs n m :
  Forall small ps → Forall small qs → frames ps ++ pack_tail n = frames qs ++ pack_tail m → ps = qs.
Proof.
  intros Hp. revert qs. induction Hp as [|p ps Hp _ IH]; intros qs Hq E; destruct Hq as [|q qs Hq Hqs].
  - done.
  - rewrite frames_cons, <- app_assoc in E. exfalso. apply (frame_not_tail q (frames qs ++ pack_tail m) n []).
    by rewrite app_nil_r, <- E.
  - rewrite frames_cons, <- app_assoc in E. exfalso. apply (frame_not_tail p (frames ps ++ pack_tail n) m []).
    by rewrite app_nil_r, E.
  - rewrite !frames_cons, <- !app_assoc in E.
    destruct (frame_app_inj p q _ _ Hp Hq E) as [-> E']. f_equal. by apply IH.
Qed.

Lemma rebuild_packs_spec fs w i :
  names_ok fs → i ∈ rebuild_packs (pack_id w) (packs_of fs) ↔
  is_Some (fs !! pack_path_sealed i) ∧ (i ≤ u32_max)%N ∧ i ≠ pack_id w.
Proof.
  intros Hn. unfold rebuild_packs. rewrite list_elem_of_omap. split.
  - intros ([j b] & Hin & E). cbn [fst snd] in E. pose proof (packs_bound _ _ _ Hn Hin) as Hb.
    destruct b; [|done]. cbn [negb orb] in E. destruct (N.eqb_spec j (pack_id w)); [done|].
    injection E as ->. apply (elem_of_packs_ok _ _ _ Hn Hb) in Hin. done.
  - intros (Hs & Hb & Hne). exists (i, true).
    split; [by apply (elem_of_packs_ok fs i true Hn Hb)|]. cbn [fst snd negb orb].
    by rewrite (proj2 (N.eqb_neq _ _) Hne).
Qed.

(** What [rebuild_packs] names are packs with payloads. *)
Lemma rebuild_packed fs w :
  names_ok fs → sealed_ok fs →
  (∀ i c, fs !! pack_path_sealed i = Some c → (blen c ≤ u64_max)%N) →
  ∃ packs, rebuild_packs (pack_id w) (packs_of fs) = packs.*1 ∧
    Forall (λ e, packed fs e.1 e.2) packs.
Proof.
  intros Hn Hs Hfit.
  assert (∀ ids, (∀ i, i ∈ ids → is_Some (fs !! pack_path_sealed i)) →
    ∃ packs : list (N * list bytes), ids = packs.*1 ∧ Forall (λ e, packed fs e.1 e.2) packs) as Hall.
  { induction ids as [|i ids IH]; intros Hi; [by exists []|].
    destruct IH as (packs & -> & Hp); [intros j Hj; apply Hi; by apply list_elem_of_further|].
    destruct (Hi i) as [c Ec]; [by apply list_elem_of_here|].
    destruct (Hs i c Ec) as (ps & n & -> & Hsm). exists ((i, ps) :: packs). split; [done|].
    constructor; [|done]. exists n. split_and!; [done..|]. apply Hfit in Ec.
    rewrite blen_app in Ec. cbn [snd]. lia. }
  apply Hall. intros i Hi. by apply rebuild_packs_spec in Hi as [? _].
Qed.

End rebuild.
