(* ===== verification/PackRefinement.v ===== *)
(** * The blob store refines a map

    Runs of the store: requests, reads, measurements, collections, sweeps, and
    crashes followed by a reopening, in any order.  Each does to the abstract
    store what its specification says, and none of them fails on a disk that
    does not. *)

From S2P Require Import Prelude.
From S2P Require Import Strings.
From S2P Require Import Bytes.
From S2P Require Import PackFormat.
From S2P Require Import PackFormatTheory.
From S2P Require Import PackStore.
From S2P Require Import PackRun.
From S2P Require Import PackInvariant.
From S2P Require Import PackPut.
From S2P Require Import PackReads.
From S2P Require Import PackGc.
From S2P Require Import PackThreads.
From S2P Require Import PackRecovery.
From S2P Require Import PackRebuild.
From stdpp Require Import sorting.

Section refinement.
Context `{PackHashing}.
Implicit Types (s : store) (a : blobs) (fs : gmap str bytes) (t : index).

(** ** The sweep *)

Lemma sweep_pack_run open_id k i b fs t :
  ∃ k' fs', sweep_pack open_id k (i, b) (healthy fs t) = (inr k', healthy fs' t) ∧
    (fs' = fs ∨ fs' = unlinked_fs fs i ∧ no_rows i t ∧ b = true ∧ i ≠ open_id).
Proof.
  unfold sweep_pack. cbn [fst snd]. destruct b; cbn [negb orb]; [|by eexists _, fs; split; [|left]].
  destruct (N.eqb_spec i open_id) as [->|Hne]; [by eexists _, fs; split; [|left]|].
  run_step (attempt_run _ _ _ _ (query_run (λ t, N.of_nat (length (rows_in i t))) fs t)).
  destruct (N.ltb_spec 0 (N.of_nat (length (rows_in i t)))) as [Hpos|Hz];
    [by eexists _, fs; split; [|left]|].
  destruct (attempt_remove_run (pack_path_sealed i) fs t) as [r1 E1]. run_step E1.
  destruct (attempt_remove_run (tombstone_log_path i) (delete (pack_path_sealed i) fs) t) as [r2 E2].
  run_step E2. eexists _, _. split; [done|]. right. split_and!; [done| |done|done].
  intros h r E Ep. assert (In (h, r) (rows_in i t)) as Hin.
  { unfold rows_in, rows_list. apply filter_In. split; [by apply list_elem_of_In, elem_of_map_to_list|].
    simpl. by apply N.eqb_eq. }
  destruct (rows_in i t); [done|simpl in Hz; lia].
Qed.

(** Only packs without rows go. *)
Lemma sweep_ok s a :
  store_ok [] s a →
  ∃ n s', sweep_orphan_sealed_packs s = (inr n, s') ∧ store_ok [] s' a ∧
    rows (on s') = rows (on s) ∧ writer s' = writer s ∧
    ∀ i c, dir (on s) !! pack_path_sealed i = Some c → ¬ no_rows i (rows (on s)) →
      dir (on s') !! pack_path_sealed i = Some c.
Proof.
  intros Hok. split_store s. unfold sweep_orphan_sealed_packs. rewrite bind_state. cbn [writer].
  set (P := λ (_ : list (N * bool)) (_ : N) (d : disk), ∃ fs', d = healthy fs' t ∧
    store_ok [] (Store (healthy fs' t) w tg) a ∧
    ∀ i c, fs !! pack_path_sealed i = Some c → ¬ no_rows i t → fs' !! pack_path_sealed i = Some c).
  destruct (fold_m_run (sweep_pack (pack_id w)) P (packs_of fs) 0%N (healthy fs t))
    as (n & d & E & fs' & -> & Hok' & Hk).
  - by exists fs.
  - intros [i b] rest k d (fs1 & -> & Hok1 & Hk).
    destruct (sweep_pack_run (pack_id w) k i b fs1 t) as (k' & fs2 & E & Hfs). exists k', (healthy fs2 t).
    split; [done|]. exists fs2. destruct Hfs as [->|(-> & Hnr & _ & _)]; [done|].
    assert (∀ j c, fs !! pack_path_sealed j = Some c → ¬ no_rows j t →
      unlinked_fs fs1 i !! pack_path_sealed j = Some c) as Hk2.
    { intros j c Ec Hj. rewrite unlinked_sealed; [by apply Hk|]. by intros ->. }
    split_and!; [done|by apply compact_unlink_ok|done].
  - exists n, (Store (healthy fs' t) w tg). split_and!; [|done..].
    apply lift_healthy. rewrite (bind_inr list_packs _ (healthy fs t) (packs_of fs) (healthy fs t) eq_refl).
    exact E.
Qed.

(** ** Crashes *)

Inductive crash :=
  | Idle
  | DuringPut (p : bytes) (n : N)
  | DuringSeal (frame_count n : N).

(** What the crash leaves at the end of the open pack: [n] bytes of the frame or
    of the tail that was being written. *)
Definition torn (k : crash) : bytes :=
  match k with
  | Idle => []
  | DuringPut p n => btake n (frame p)
  | DuringSeal m n => btake n (pack_tail m)
  end.

(** When [put] writes a frame into the pack that is open. *)
Definition writes_here (p : bytes) s : Prop :=
  small p ∧ rows (on s) !! blake3 p = None ∧
  (offset (writer s) + (FRAME_HEADER_LEN + blen p) ≤ offset_limit (target_size s))%N.

Definition may_crash (k : crash) s : Prop :=
  match k with DuringPut p _ => writes_here p s | _ => True end.

Definition spec_crash (k : crash) a : blobs :=
  match k with
  | DuringPut p n => if (blen (frame p) <=? n)%N then spec_put p a else a
  | _ => a
  end.

Lemma scan_short g : (0 < blen g < FRAME_HEADER_LEN)%N → scan_frame g 0 = ScanBad.
Proof.
  intros [H0 H1]. unfold scan_frame. rewrite N.sub_0_r.
  rewrite (proj2 (N.eqb_neq _ 0)) by lia. by rewrite (proj2 (N.ltb_lt _ _)).
Qed.

Lemma adopts_nil : adopts [] [].
Proof. exists []. split_and!; [done..|]. left. split; [done|]. by apply scan_frame_end. Qed.

Lemma adopts_torn_frame p n :
  small p → adopts (btake n (frame p)) (if (blen (frame p) <=? n)%N then [p] else []).
Proof.
  intros Hp. destruct (N.leb_spec (blen (frame p)) n) as [Hge|Hlt].
  - rewrite btake_all by done. exists []. rewrite frames_singleton, app_nil_r.
    split_and!; [done|by constructor|]. left. split; [done|]. by apply scan_frame_end.
  - exists (btake n (frame p)). split_and!; [done..|]. rewrite scan_frame_torn by done.
    destruct (N.eqb_spec n 0) as [->|Hn]; [by left|right]. split; [|done].
    intros E. apply (f_equal blen) in E. rewrite blen_btake, blen_nil in E. lia.
Qed.

Lemma adopts_torn_tail m n : adopts (btake n (pack_tail m)) [].
Proof.
  exists (btake n (pack_tail m)). split_and!; [done..|].
  pose proof (blen_btake n (pack_tail m)) as L. rewrite blen_pack_tail in L.
  destruct (btake n (pack_tail m)) as [|b g] eqn:E; [left|right]; (split; [done|]).
  - by apply scan_frame_end.
  - apply scan_short. rewrite L. rewrite header_len. unfold TAIL_LEN.
    unfold blen in L. simpl in L. lia.
Qed.

Lemma open_indexed_nodup id ps t : open_indexed id ps t → NoDup (blake3 <$> ps).
Proof.
  intros Hi. apply NoDup_alt. intros i j h Ei Ej.
  rewrite list_lookup_fmap, fmap_Some in Ei. rewrite list_lookup_fmap, fmap_Some in Ej.
  destruct Ei as (p & Epi & ->), Ej as (q & Epj & Ej). destruct (Hi (take i ps) p (drop (S i) ps)) as [b Eb].
  { symmetry. by apply take_drop_middle. }
  destruct (Hi (take j ps) q (drop (S j) ps)) as [b' Eb'].
  { symmetry. by apply take_drop_middle. }
  rewrite <- Ej, Eb in Eb'. injection Eb' as Eoff _ _.
  assert (∀ i j p, i < j → ps !! i = Some p → (blen (frames (take i ps)) < blen (frames (take j ps)))%N) as Hmono.
  { intros x y r Hxy Er. replace (take y ps) with (take x ps ++ r :: drop (S x) (take y ps)).
    - rewrite frames_app, frames_cons, !blen_app, blen_frame, header_len. lia.
    - rewrite <- (take_drop x (take y ps)) at 2. rewrite take_take, Nat.min_l by lia. f_equal.
      symmetry. apply drop_S. by rewrite lookup_take_lt. }
  destruct (Nat.lt_total i j) as [Hlt|[->|Hlt]]; [|done|].
  - specialize (Hmono i j p Hlt Epi). lia.
  - specialize (Hmono j i q Hlt Epj). lia.
Qed.

(** Opening after a crash succeeds; a [put] cut short has happened when all of
    its frame got to the disk, and not at all otherwise. *)
Lemma reopen_ok dsts s a k fs :
  store_ok dsts s a → may_crash k s → crashed s (torn k) fs →
  ∃ s', open_store (healthy fs (rows (on s))) (target_size s) = (inr s', on s') ∧
    store_ok [] s' (spec_crash k a).
Proof.
  intros Hok Hk Hc. destruct (ok_writer _ _ _ Hok) as (ps & Hw & Hi).
  pose proof (open_indexed_nodup _ _ _ Hi) as Hnd. pose proof (ok_offset _ _ _ Hok) as Hoff.
  rewrite (wr_offset _ _ _ Hw) in Hoff.
  destruct k as [|p n|m n]; cbn [torn spec_crash may_crash] in *.
  - destruct (open_crashed dsts s a [] fs [] ps Hok Hc adopts_nil Hw Hi) as (s' & E & Hok');
      rewrite ?app_nil_r; [done..|]. by exists s'.
  - destruct Hk as (Hp & Er & Hlim).
    destruct (open_crashed dsts s a _ fs _ ps Hok Hc (adopts_torn_frame p n Hp) Hw Hi) as (s' & E & Hok').
    + destruct (_ <=? _)%N; [|by rewrite app_nil_r]. rewrite fmap_app. apply NoDup_app. split_and!; [done| |].
      * intros h Hh Hin. apply list_elem_of_singleton in Hin as ->.
        apply list_elem_of_fmap in Hh as (q & Eq & Hq). apply list_elem_of_split in Hq as (l & r & ->).
        destruct (Hi l q r eq_refl) as [b Eb]. rewrite <- Eq in Eb. congruence.
      * apply NoDup_singleton.
    + destruct (_ <=? _)%N; [|by rewrite app_nil_r].
      rewrite frames_app, frames_singleton, blen_app, blen_frame, <- (wr_offset _ _ _ Hw). done.
    + exists s'. split; [done|]. destruct (_ <=? _)%N; [|done]. unfold spec_put.
      apply (holds_None _ _ _ _ (ok_holds _ _ _ Hok)) in Er. rewrite Er.
      unfold spec_adopt in Hok'. cbn [foldl] in Hok'. by rewrite Er in Hok'.
  - destruct (open_crashed dsts s a _ fs [] ps Hok Hc (adopts_torn_tail m n) Hw Hi) as (s' & E & Hok');
      rewrite ?app_nil_r; [done..|]. by exists s'.
Qed.

(** ** Runs *)

Inductive event :=
  | Requested (q : request)
  | Read (h : BlobHash) (r : option bytes)
  | Measured (live evicted : N)
  | Collected
  | Swept
  | Crashed (k : crash).

Definition with_disk s (d : disk) : store := Store d (writer s) (target_size s).

(** Ids for every pack of the directory, and offsets within [u64]. *)
Definition gc_fits s : Prop :=
  room (N.of_nat (length (packs_of (dir (on s))))) (dir (on s)) ∧
  (index_bytes (rows (on s)) ≤ u64_max)%N.

Inductive step : event → store → store → Prop :=
  | step_request q s s' :
      serviceable q s → run_request q s = (inr (), s') → step (Requested q) s s'
  | step_read h r s d : get h (on s) = (inr r, d) → step (Read h r) s (with_disk s d)
  | step_measure n m s d : size_breakdown (on s) = (inr (n, m), d) → step (Measured n m) s (with_disk s d)
  | step_collect below stats s d :
      gc_fits s → run_gc below (on s) = (inr stats, d) → step Collected s (with_disk s d)
  | step_sweep n s s' : sweep_orphan_sealed_packs s = (inr n, s') → step Swept s s'
  | step_crash k s fs s' d :
      may_crash k s → crashed s (torn k) fs →
      open_store (healthy fs (rows (on s))) (target_size s) = (inr s', d) → step (Crashed k) s s'.

Inductive steps : list event → store → store → Prop :=
  | steps_nil s : steps [] s s
  | steps_cons e es s1 s2 s3 : step e s1 s2 → steps es s2 s3 → steps (e :: es) s1 s3.

(** *** The specification of runs *)

Definition spec_step (e : event) (a a' : blobs) : Prop :=
  match e with
  | Requested q => a' = spec_request q a
  | Read h r => r = spec_get h a ∧ a' = a
  | Measured n m => n = spec_size false a ∧ m = spec_size true a ∧ a' = a
  | Collected => spec_collects a a'
  | Swept => a' = a
  | Crashed k => a' = spec_crash k a
  end.

Inductive spec_steps : list event → blobs → blobs → Prop :=
  | spec_nil a : spec_steps [] a a
  | spec_cons e es a1 a2 a3 : spec_step e a1 a2 → spec_steps es a2 a3 → spec_steps (e :: es) a1 a3.

Lemma step_ok e s s' a : step e s s' → store_ok [] s a → ∃ a', spec_step e a a' ∧ store_ok [] s' a'.
Proof.
  intros Hst Hok. destruct Hst as [q s s' Hq E|h r s d E|n m s d E|below stats s d [Hr Hb] E|n s s' E|k s fs s' d Hk Hc E].
  - destruct (request_ok [] s a q Hok Hq) as (s2 & E2 & Hok2 & _). assert (s2 = s') as -> by congruence.
    by eexists.
  - rewrite (get_ok [] s a h Hok) in E. injection E as <- <-. exists a. split; [done|]. by destruct s.
  - rewrite (size_breakdown_ok [] s a Hok) in E. injection E as <- <- <-. exists a.
    split; [done|]. by destruct s.
  - destruct (run_gc_ok below s a Hok Hr Hb) as (st & s2 & a2 & gone & E2 & [_ H2 H3 Hw Ht _ _ _ _]).
    rewrite E in E2. injection E2 as -> ->. exists a2. split; [done|].
    unfold with_disk. rewrite <- Hw, <- Ht. by destruct s2.
  - destruct (sweep_ok s a Hok) as (n2 & s2 & E2 & Hok2 & _). assert (s2 = s') as -> by congruence.
    by exists a.
  - destruct (reopen_ok [] s a k fs Hok Hk Hc) as (s2 & E2 & Hok2). assert (s2 = s') as -> by congruence.
    by eexists.
Qed.

Lemma packs_of_empty : packs_of ∅ = [].
Proof. unfold packs_of. by rewrite map_to_list_empty. Qed.

(** Opening an empty directory gives an empty store. *)
Lemma open_empty_ok target :
  (target ≤ max_target)%N →
  ∃ s, open_store (healthy ∅ ∅) target = (inr s, on s) ∧ store_ok [] s ∅ ∧ target_size s = target.
Proof.
  intros Ht. eexists (Store (healthy (<[tombstone_log_path 0 := []]> (<[pack_path_open 0 := []]> ∅)) ∅)
    (mkOpenPack 0 (pack_path_open 0) 0 0) target).
  split_and!; [| |done].
  { unfold open_store, recover_and_open_current_pack.
    assert (list_packs (healthy ∅ ∅) = (inr [], healthy ∅ ∅)) as El.
    { rewrite <- packs_of_empty. done. }
    assert (next_pack_id (healthy ∅ ∅) = (inr 0%N, healthy ∅ ∅)) as En
      by (unfold next_pack_id; by run_step El).
    run_step El. cbn [open_ids omap list_omap]. run_step En.
    unfold create_new_open_pack.
    run_step (file_create_new_run (pack_path_open 0) ∅ ∅ (lookup_empty _)).
    run_step (io_run (<[pack_path_open 0 := []]> ∅) ∅).
    run_step (file_touch_run (tombstone_log_path 0) (<[pack_path_open 0 := []]> ∅) ∅).
    by rewrite (lookup_insert_ne ∅) by pack_ne. }
  constructor; simpl.
  - done.
  - apply names_ok_log. rewrite pack_path_open_of. apply names_ok_pack; [by vm_compute|].
    intros n i b Hs. rewrite lookup_empty in Hs. by destruct Hs.
  - intros i. left. by simpl_fs.
  - intros i c. simpl_fs. done.
  - intros i Hi. left. destruct (decide (i = 0%N)) as [|Hne]; [done|]. exfalso.
    rewrite !lookup_insert_ne in Hi by pack_ne. rewrite lookup_empty in Hi. by destruct Hi.
  - exists []. split; [|by intros []]. constructor; simpl; try done.
  - intros d Hd. by apply elem_of_nil in Hd.
  - intros d h r Hd. by apply elem_of_nil in Hd.
  - done.
  - lia.
  - apply holds_empty.
Qed.

End refinement.
