(* ===== verification/PackProperties.v ===== *)
(** * The blob store: properties

    The theorems about src/crates/stores/src/attachment_pack.rs and
    src/crates/db-read/src/blob_hash.rs, each with a run at concrete inputs. *)

From S2P Require Import Prelude.
From S2P Require Import Strings.
From S2P Require Import Bytes.
From S2P Require Import PackFormat.
From S2P Require Import PackFormatTheory.
From S2P Require Import PackStore.
From S2P Require Import PackRun.
From S2P Require Import PackInvariant.
From S2P Require Import PackPut.
From S2P Require Import PackReads.
From S2P Require Import PackGc.
From S2P Require Import PackThreads.
From S2P Require Import PackRecovery.
From S2P Require Import PackRebuild.
From S2P Require Import PackRefinement.

(** Hash functions to compute with: a blob's first 32 bytes, and a sum. *)
Definition toy_hashing : PackHashing.
Proof.
  refine {| blake3 b := take 32 (b ++ replicate 32 x00);
            xxh3_64 b := foldr (λ c n, (Byte.to_N c + n) mod 65536)%N 0%N b;
            crc32 b := foldr (λ c n, (Byte.to_N c + n) mod 65536)%N 0%N b |}.
  - intros b. unfold hash_ok. rewrite length_take, length_app, length_replicate. lia.
  - intros [|c b]; [done|]. cbn [foldr]. eapply N.lt_le_trans; [by apply N.mod_lt|done].
Defined.

#[local] Existing Instance toy_hashing.

(** C2. A store opened on an empty directory refines a map from hashes to blobs:
    after any run of requests (store, evict, evict all, rotate), reads,
    measurements, collections, sweeps, and crashes followed by a reopening, the
    answers and the contents are those of the same run of the map, where a
    collection forgets evicted blobs only and a [put] cut by a crash has
    happened completely or not at all. *)
Theorem store_refines_map `{PackHashing} target (Ht : (target ≤ max_target)%N) :
  ∃ s0, open_store (healthy ∅ ∅) target = (inr s0, on s0) ∧
    ∀ es s, steps es s0 s →
      ∃ a, spec_steps es ∅ a ∧ store_ok [] s a ∧
        ∀ h, get h (on s) = (inr (spec_get h a), on s).
Proof.
  destruct (open_empty_ok target Ht) as (s0 & E0 & Hok0 & _). exists s0. split; [done|].
  intros es s Hst.
  assert (∀ a0, store_ok [] s0 a0 → ∃ a, spec_steps es a0 a ∧ store_ok [] s a) as Hrun.
  { clear E0 Hok0. induction Hst as [s|e es s1 s2 s3 H1 _ IH]; intros a0 Hok.
    - exists a0. split; [constructor|done].
    - destruct (step_ok e s1 s2 a0 H1 Hok) as (a1 & Hs & Hok1).
      destruct (IH a1 Hok1) as (a & Hs2 & Hok2). exists a. split; [by econstructor|done]. }
  destruct (Hrun ∅ Hok0) as (a & Hs & Hok). exists a. split_and!; [done..|].
  intros h. by apply (get_ok [] s a h).
Qed.

Lemma store_refines_map_witness :
  (DEFAULT_PACK_TARGET_SIZE ≤ max_target)%N ∧
  ∃ s0, open_store (healthy ∅ ∅) DEFAULT_PACK_TARGET_SIZE = (inr s0, on s0) ∧
    ∀ es s, steps es s0 s →
      ∃ a, spec_steps es ∅ a ∧ store_ok [] s a ∧
        ∀ h, get h (on s) = (inr (spec_get h a), on s).
Proof.
  assert (DEFAULT_PACK_TARGET_SIZE ≤ max_target)%N as Ht by by vm_compute.
  split; [exact Ht|apply (store_refines_map DEFAULT_PACK_TARGET_SIZE Ht)].
Defined.

(** The store after opening an empty directory, and after some requests. *)
Definition fresh : store :=
  match open_store (healthy ∅ ∅) DEFAULT_PACK_TARGET_SIZE with
  | (inr s, _) => s
  | (inl _, d) => Store d (mkOpenPack 0 [] 0 0) 0
  end.

Definition state_after {A} (m : M store A) (s : store) : store := snd (m s).

Definition after_requests (qs : list request) (s : store) : store :=
  foldl (λ s q, state_after (run_request q) s) s qs.

Lemma fresh_ok : store_ok [] fresh ∅.
Proof.
  destruct (open_empty_ok DEFAULT_PACK_TARGET_SIZE ltac:(by vm_compute)) as (s & E & Hok & _).
  unfold fresh. by rewrite E.
Qed.

Lemma after_requests_ok qs s a :
  store_ok [] s a → Forall (λ q, match q with RPut p => small p | _ => True end) qs →
  room (N.of_nat (length qs)) (dir (on s)) →
  store_ok [] (after_requests qs s) (foldl (λ a q, spec_request q a) a qs).
Proof.
  intros Hok Hq. revert s a Hok. induction Hq as [|q qs Hq _ IH]; intros s a Hok Hr; [done|].
  cbn [after_requests foldl length] in *.
  destruct (request_ok [] s a q Hok) as (s' & E & Hok' & Hst & _).
  { split; [|by destruct q]. eapply room_le, Hr. lia. }
  unfold state_after at 2. rewrite E. apply IH; [done|].
  apply (st_room _ _ _ Hst). eapply room_le, Hr. lia.
Qed.

Lemma fresh_unsealed i c : dir (on fresh) !! pack_path_sealed i ≠ Some c.
Proof.
  assert (map_Forall (λ n _, strip_suffix pack_suffix n = None) (dir (on fresh))) as Hf
    by (apply (bool_decide_unpack _); vm_compute; exact I).
  intros E. apply Hf in E. unfold pack_path_sealed in E. by rewrite app_assoc, strip_suffix_app in E.
Qed.

Lemma fresh_room n : (n ≤ u32_max)%N → room n (dir (on fresh)).
Proof.
  intros Hn i b Hin. pose proof (packs_bound _ _ _ (ok_names _ _ _ fresh_ok) Hin) as Hi.
  apply (elem_of_packs_ok _ _ _ (ok_names _ _ _ fresh_ok) Hi) in Hin. destruct b.
  - exfalso. destruct Hin as [c Ec]. simpl in Ec. by apply (fresh_unsealed i c).
  - destruct (ok_opens _ _ _ fresh_ok i Hin) as [->|Hd]; [|by apply elem_of_nil in Hd].
    change (pack_id (writer fresh)) with 0%N. lia.
Qed.

Lemma room_check n fs :
  Forall (λ p : N * bool, (p.1 + n ≤ u32_max)%N) (packs_of fs) → room n fs.
Proof. intros Hf i b Hin. rewrite Forall_forall in Hf. by apply (Hf (i, b)). Qed.

(** Decides a closed proposition by evaluating it. *)
Ltac by_computation := apply (bool_decide_unpack _); vm_compute; exact I.

(** Two blobs, the first evicted, in a sealed pack. *)
Definition two_blobs : store :=
  after_requests [RPut [x01]; RPut [x02]; REvict (blake3 [x01]); RRotate] fresh.
Definition two_blobs_spec : blobs :=
  spec_evict (blake3 [x01]) (spec_put [x02] (spec_put [x01] ∅)).

Lemma two_blobs_ok : store_ok [] two_blobs two_blobs_spec.
Proof.
  apply (after_requests_ok [RPut [x01]; RPut [x02]; REvict (blake3 [x01]); RRotate] fresh ∅ fresh_ok).
  - repeat constructor; by_computation.
  - by apply fresh_room.
Qed.

#[local] Opaque fresh two_blobs two_blobs_spec.

Lemma blen_64_even (s : bytes) : blen s = 64%N → Nat.Even (length s).
Proof. intros E. exists 32. unfold blen in E. lia. Qed.

(** C31. No request fails: on a disk without faults, a store in order serves every
    request, answers every read, finishes every collection and every sweep, and
    opens again after every crash. *)
Theorem store_never_stuck `{PackHashing} s a (Hok : store_ok [] s a) :
  (∀ q, serviceable q s → ∃ s', step (Requested q) s s') ∧
  (∀ h, ∃ r s', step (Read h r) s s') ∧
  (∃ n m s', step (Measured n m) s s') ∧
  (∀ below, gc_fits s → ∃ stats d, run_gc below (on s) = (inr stats, d)) ∧
  (∃ s', step Swept s s') ∧
  (∀ k fs, may_crash k s → crashed s (torn k) fs → ∃ s', step (Crashed k) s s').
Proof.
  split_and!.
  - intros q Hq. destruct (request_ok [] s a q Hok Hq) as (s' & E & _). exists s'. by constructor.
  - intros h. eexists _, _. constructor. by apply (get_ok [] s a h).
  - eexists _, _, _. constructor. by apply (size_breakdown_ok [] s a).
  - intros below [Hr Hb]. destruct (run_gc_ok below s a Hok Hr Hb) as (st & s' & a' & gone & E & _). eauto.
  - destruct (sweep_ok s a Hok) as (n & s' & E & _). exists s'. by econstructor.
  - intros k fs Hk Hc. destruct (reopen_ok [] s a k fs Hok Hk Hc) as (s' & E & _).
    exists s'. by econstructor.
Qed.

Lemma store_never_stuck_witness :
  ∃ s a, store_ok [] s a ∧ ∃ s', step (Requested (RPut [x03])) s s'.
Proof.
  exists two_blobs, two_blobs_spec. split; [apply two_blobs_ok|].
  destruct (store_never_stuck two_blobs two_blobs_spec two_blobs_ok) as (Hreq & _).
  apply Hreq. split; [apply room_check; by_computation|by_computation].
Defined.

(** C11. A compaction is atomic for the other threads: however the complete
    requests of other threads fall between its steps, but for those that revive an
    evicted blob of the source between the scan and the swap, the abstract store
    changes by those requests and by the loss of evicted blobs only, every read
    answers accordingly, the next step of the compaction succeeds, and when it is
    done the source pack is gone.  A blob revived then is lost:
    [revived_blob_lost]. *)
Theorem compaction_among_threads `{PackHashing} src ls s p s' a
    (Hok : store_ok [] s a) (Hsrc : is_Some (dir (on s) !! pack_path_sealed src))
    (Hrun : exec src ls (PcStart, s) (p, s')) :
  ∃ a', spec_exec ls a a' ∧
    (∀ h, get h (on s') = (inr (spec_get h a'), on s')) ∧
    (p ≠ PcDone → gc_ready p s' → ∃ p' d, gc_next src p (on s') = (inr p', d)) ∧
    (p = PcDone → store_ok [] s' a' ∧ dir (on s') !! pack_path_sealed src = None).
Proof.
  destruct (exec_inflight src ls PcStart s p s' a Hrun (conj Hok Hsrc)) as (a' & Ha & Hin).
  exists a'. split_and!; [done| | |].
  - intros h. destruct p; cbn [inflight] in Hin; destruct_and?; by eapply get_ok.
  - intros Hp Hr. destruct (gc_next_ok src p s' a' Hin Hr Hp) as (p2 & s2 & a2 & E & _). eauto.
  - intros ->. exact Hin.
Qed.

Lemma compaction_among_threads_witness :
  ∃ p s' a', exec 0 [LGc; LRequest (REvict (blake3 [x02]))] (PcStart, two_blobs) (p, s') ∧
    spec_exec [LGc; LRequest (REvict (blake3 [x02]))] two_blobs_spec a' ∧
    get (blake3 [x02]) (on s') = (inr (spec_get (blake3 [x02]) a'), on s').
Proof.
  assert (is_Some (dir (on two_blobs) !! pack_path_sealed 0)) as Hsrc by by_computation.
  assert (room 2 (dir (on two_blobs))) as Hroom by (apply room_check; by_computation).
  destruct (gc_allocates 0 two_blobs two_blobs_spec (conj two_blobs_ok Hsrc)) as
    (p1 & s1 & a1 & E1 & Hk1 & Hin1 & _ & Hr1); [by apply (room_le 2)|].
  destruct p1 as [|dst| | | | |]; try discriminate Hr1. destruct Hin1 as (Hok1 & _).
  destruct (request_ok [dst] s1 a1 (REvict (blake3 [x02])) Hok1) as (s2 & E2 & _).
  { split; [|done]. by apply (gk_room _ _ _ _ Hk1 1). }
  assert (exec 0 [LGc; LRequest (REvict (blake3 [x02]))] (PcStart, two_blobs) (PcAllocated dst, s2)) as Hx.
  { eapply exec_gc; [by apply (room_le 2)|done|exact E1|].
    rewrite <- (gk_writer _ _ _ _ Hk1), <- (gk_target _ _ _ _ Hk1).
    replace (Store (on s1) (writer s1) (target_size s1)) with s1 by by destruct s1.
    eapply exec_request; [|done|done|exact E2|apply exec_done].
    split; [|done]. by apply (gk_room _ _ _ _ Hk1 1). }
  destruct (compaction_among_threads 0 _ two_blobs _ s2 two_blobs_spec two_blobs_ok Hsrc Hx)
    as (a' & Ha & Hget & _).
  exists (PcAllocated dst), s2, a'. split; [exact Hx|split; [exact Ha|exact (Hget _)]].
Defined.

(** More bytes at the end of the open pack are something a crash may leave. *)
Lemma crashed_append `{PackHashing} s a g c :
  store_ok [] s a → dir (on s) !! pack_path_open (pack_id (writer s)) = Some c →
  crashed s g (<[pack_path_open (pack_id (writer s)) := c ++ g]> (dir (on s))).
Proof.
  intros Hok Ec. destruct (ok_writer _ _ _ Hok) as (ps & Hw & _). constructor.
  - rewrite pack_path_open_of. apply names_ok_pack; [apply Hw|apply Hok].
  - intros i. by simpl_fs.
  - simpl_fs. by rewrite Ec.
  - intros i Hi. destruct (decide (i = pack_id (writer s))) as [|Hne]; [by left|].
    rewrite lookup_insert_ne in Hi by pack_ne.
    destruct (ok_opens _ _ _ Hok i Hi) as [|Hd]; [by left|by apply elem_of_nil in Hd].
Qed.

(** C17. Opening a store after a crash: with a frame or a tail torn at any byte at
    the end of the open pack, anything in the logs, and anything in the open files
    that compactions left, as long as these are of packs after the writer's and no
    sealed pack has their number, [open] succeeds and the store holds exactly the
    blobs it held, evicted ones still evicted, plus the blob of an interrupted [put]
    when its whole frame had reached the disk.  An open file of a pack before the
    writer's is [stale_destination_wins]. *)
Theorem reopen_after_crash `{PackHashing} dsts s a k fs
    (Hok : store_ok dsts s a) (Hk : may_crash k s) (Hc : crashed s (torn k) fs) :
  ∃ s', open_store (healthy fs (rows (on s))) (target_size s) = (inr s', on s') ∧
    store_ok [] s' (spec_crash k a) ∧
    ∀ h, get h (on s') = (inr (spec_get h (spec_crash k a)), on s').
Proof.
  destruct (reopen_ok dsts s a k fs Hok Hk Hc) as (s' & E & Hok'). exists s'.
  split_and!; [done..|]. intros h. by apply (get_ok [] s' _ h).
Qed.

Lemma reopen_after_crash_witness :
  ∃ fs s', crashed two_blobs (torn (DuringPut [x03] 5)) fs ∧
    open_store (healthy fs (rows (on two_blobs))) (target_size two_blobs) = (inr s', on s') ∧
    get (blake3 [x02]) (on s') = (inr (spec_get (blake3 [x02]) two_blobs_spec), on s').
Proof.
  assert (may_crash (DuringPut [x03] 5) two_blobs) as Hk.
  { split_and!; [by_computation|by vm_compute|by vm_compute]. }
  assert (dir (on two_blobs) !! pack_path_open (pack_id (writer two_blobs)) = Some []) as Ec by by_computation.
  pose proof (crashed_append two_blobs two_blobs_spec (torn (DuringPut [x03] 5)) [] two_blobs_ok Ec) as Hc.
  destruct (reopen_after_crash [] two_blobs two_blobs_spec (DuringPut [x03] 5) _ two_blobs_ok Hk Hc)
    as (s' & E & _ & Hget).
  eexists _, s'. split; [exact Hc|split; [exact E|exact (Hget _)]].
Defined.

(** A read that a compaction overtakes: when the pack of the blob is
    compacted and unlinked between the lookup of its row and the opening of its
    file, [get] still answers what the store held, on its second attempt. *)
Theorem get_during_compaction `{PackHashing} src s a h
    (Hok : store_ok [] s a) (Hsrc : is_Some (dir (on s) !! pack_path_sealed src))
    (Hroom : room 1 (dir (on s))) (Hb : (index_bytes (rows (on s)) ≤ u64_max)%N) :
  ∃ s' a', compact_pack src (on s) = (inr (), on s') ∧ store_ok [] s' a' ∧ spec_collects a a' ∧
    dir (on s') !! pack_path_sealed src = None ∧
    ∃ d, get_with (env_once (on s')) h (on s) = (inr (spec_get h a), d).
Proof.
  destruct (compact_pack_ok src s a Hok Hsrc Hroom Hb) as (s' & a' & E & [C1 C2 C3 _ _ _ _ C8] & _).
  exists s', a'. split_and!; [done..|].
  destruct (get_relocated (dir (on s)) (rows (on s)) a (dir (on s')) (rows (on s')) a' h) as [d Ed];
    [apply Hok|apply C1|done|done|].
  exists d. rewrite <- Ed. pose proof (store_ok_healthy _ _ _ Hok) as E1.
  pose proof (store_ok_healthy _ _ _ C1) as E2. apply (f_equal on) in E1, E2. cbn [on] in E1, E2.
  by rewrite <- E1, <- E2.
Qed.

Lemma get_during_compaction_witness :
  ∃ s' d, compact_pack 0 (on two_blobs) = (inr (), on s') ∧
    get_with (env_once (on s')) (blake3 [x02]) (on two_blobs) =
      (inr (spec_get (blake3 [x02]) two_blobs_spec), d).
Proof.
  destruct (get_during_compaction 0 two_blobs two_blobs_spec (blake3 [x02]) two_blobs_ok)
    as (s' & a' & E & _ & _ & _ & d & Ed).
  - by_computation.
  - apply room_check. by_computation.
  - by vm_compute.
  - exists s', d. split; [exact E|exact Ed].
Defined.

(** Collecting garbage: [run_gc] finishes whatever the threshold, forgets
    evicted blobs only, leaves the packs it has not compacted as they are, and
    the store in order. *)
Theorem garbage_collection_keeps_live `{PackHashing} below s a
    (Hok : store_ok [] s a) (Hfit : gc_fits s) :
  ∃ stats s' a' (gone : list N), run_gc below (on s) = (inr stats, on s') ∧
    store_ok [] s' a' ∧ spec_collects a a' ∧
    (∀ h, get h (on s') = (inr (spec_get h a), on s')) ∧
    (∀ i c, i ∉ gone → dir (on s) !! pack_path_sealed i = Some c →
       dir (on s') !! pack_path_sealed i = Some c).
Proof.
  destruct Hfit as [Hr Hb].
  destruct (run_gc_ok below s a Hok Hr Hb) as (stats & s' & a' & gone & E & [_ H2 H3 _ _ _ _ _ H9]).
  exists stats, s', a', gone. split_and!; [done..| |done].
  intros h. rewrite (get_ok [] s' a' h H2). by rewrite (spec_collects_get a a' h H3).
Qed.

Lemma garbage_collection_keeps_live_witness :
  gc_fits two_blobs ∧ ∃ stats s', run_gc (λ _ _, false) (on two_blobs) = (inr stats, on s') ∧
    get (blake3 [x02]) (on s') = (inr (spec_get (blake3 [x02]) two_blobs_spec), on s').
Proof.
  assert (gc_fits two_blobs) as Hfit by (split; [apply room_check; by_computation|by vm_compute]).
  split; [exact Hfit|].
  destruct (garbage_collection_keeps_live (λ _ _, false) two_blobs two_blobs_spec two_blobs_ok Hfit)
    as (stats & s' & a' & gone & E & _ & _ & Hget & _).
  exists stats, s'. split; [exact E|exact (Hget _)].
Defined.

(** C36. Rebuilding a lost index: whatever the rows say beforehand, [run_rebuild_index]
    on the packs of a store in order returns, leaves the files alone, and makes
    every blob of every sealed pack readable again, unless the last tombstone log
    record about it (or, without a record, its row) says that it is evicted. *)
Theorem rebuild_restores `{PackHashing} s a t (Hok : store_ok [] s a)
    (Hfit : ∀ i c, dir (on s) !! pack_path_sealed i = Some c → (blen c ≤ u64_max)%N) :
  ∃ stats t', run_rebuild_index (Store (healthy (dir (on s)) t) (writer s) (target_size s)) =
      (inr stats, Store (healthy (dir (on s)) t') (writer s) (target_size s)) ∧
    ∀ i ps n p, (i ≤ u32_max)%N →
      dir (on s) !! pack_path_sealed i = Some (frames ps ++ pack_tail n) →
      Forall small ps → p ∈ ps →
      ∃ q, blake3 q = blake3 p ∧
        get (blake3 p) (healthy (dir (on s)) t') =
        (inr (if marks (all_records (dir (on s)) (rebuild_packs (pack_id (writer s)) (packs_of (dir (on s)))))
                   (blake3 p) (from_option r_tombstoned false (t !! blake3 p))
              then None else Some q), healthy (dir (on s)) t').
Proof.
  pose proof (ok_names _ _ _ Hok) as Hn.
  destruct (rebuild_packed (dir (on s)) (writer s) Hn (ok_sealed _ _ _ Hok) Hfit) as (packs & Ep & Hp).
  destruct (run_rebuild_ok packs (dir (on s)) t (writer s) (target_size s) Ep Hp)
    as (stats & t' & E & Hin & _).
  exists stats, t'. split; [done|]. intros i ps n p Hi32 Ei Hps Hpin.
  assert (i ∈ packs.*1) as Hi.
  { rewrite <- Ep. apply rebuild_packs_spec; [done|].
    split_and!; [by rewrite Ei|done|]. intros ->.
    destruct (ok_writer _ _ _ Hok) as (ws & Hw & _).
    destruct (ok_form _ _ _ Hok (pack_id (writer s))) as [Hf|Hf];
      [by rewrite Ei in Hf|by rewrite (wr_file _ _ _ Hw) in Hf]. }
  apply list_elem_of_fmap in Hi as ([j ps'] & -> & He). cbn [fst] in *.
  rewrite Forall_forall in Hp. destruct (Hp _ He) as (m & Em & Hps' & _). cbn [fst snd] in *.
  rewrite Ei in Em. injection Em as Em. apply frames_tail_inj in Em as <-; [|done..].
  destruct (Hin j ps p He Hpin) as (r & Er & (q & Hq) & Hm). exists q.
  split; [apply Hq|]. rewrite (get_row _ _ _ _ _ Er Hq). cbn [fst snd]. by rewrite Hm, Ep.
Qed.

Lemma rebuild_restores_witness :
  ∃ stats t' q, run_rebuild_index (Store (healthy (dir (on two_blobs)) ∅) (writer two_blobs) (target_size two_blobs)) =
      (inr stats, Store (healthy (dir (on two_blobs)) t') (writer two_blobs) (target_size two_blobs)) ∧
    get (blake3 [x02]) (healthy (dir (on two_blobs)) t') = (inr (Some q), healthy (dir (on two_blobs)) t') ∧
    get (blake3 [x01]) (healthy (dir (on two_blobs)) t') = (inr None, healthy (dir (on two_blobs)) t').
Proof.
  destruct (rebuild_restores two_blobs two_blobs_spec ∅ two_blobs_ok) as (stats & t' & E & Hin).
  { intros i c Ei.
    assert (map_Forall (λ _ (c : bytes), (blen c ≤ u64_max)%N) (dir (on two_blobs))) as Hf by by_computation.
    exact (Hf _ _ Ei). }
  assert (dir (on two_blobs) !! pack_path_sealed 0 = Some (frames [[x01]; [x02]] ++ pack_tail 2))
    as Es by by_computation.
  assert (Forall small [[x01]; [x02]]) as Hs by (repeat constructor; by_computation).
  assert (marks (all_records (dir (on two_blobs)) (rebuild_packs (pack_id (writer two_blobs)) (packs_of (dir (on two_blobs)))))
            (blake3 [x02]) (from_option r_tombstoned false ((∅ : index) !! blake3 [x02])) = false) as M2 by by_computation.
  assert (marks (all_records (dir (on two_blobs)) (rebuild_packs (pack_id (writer two_blobs)) (packs_of (dir (on two_blobs)))))
            (blake3 [x01]) (from_option r_tombstoned false ((∅ : index) !! blake3 [x01])) = true) as M1 by by_computation.
  destruct (Hin 0%N [[x01]; [x02]] 2%N [x02] ltac:(by vm_compute) Es Hs (list_elem_of_further _ _ _ (list_elem_of_here _ _)))
    as (q & _ & G2).
  destruct (Hin 0%N [[x01]; [x02]] 2%N [x01] ltac:(by vm_compute) Es Hs (list_elem_of_here _ _)) as (q1 & _ & G1).
  rewrite M2 in G2. rewrite M1 in G1.
  exists stats, t', q. split; [exact E|split; [exact G2|exact G1]].
Defined.

(** Every way the program makes a blob hash gives 32 bytes: the checked
    conversion of a slice, which refuses any other length, reading hexadecimal
    digits, hashing a blob, and decoding a record of a tombstone log. *)
Theorem blob_hash_well_typed `{PackHashing} b s r h :
  (from_slice b = if decide (hash_ok b) then inr b else inl (WrongByteLen (blen b))) ∧
  (from_hex s = inr h → hash_ok h) ∧
  hash_ok (blake3 b) ∧
  (blen r = RECORD_LEN → hash_ok (decode_log_record r).2).
Proof.
  split_and!.
  - unfold from_slice, hash_ok, blen. case_decide as E; [by rewrite E|].
    by rewrite (proj2 (N.eqb_neq _ _)) by lia.
  - unfold from_hex. destruct (N.eqb_spec (blen s) 64) as [E|]; [|done]. cbn [negb]. intros Eh.
    destruct (hex_chunks_spec s) as [(h' & E1 & E2 & _)|[E1 _]]; [by apply blen_64_even| |by rewrite E1 in Eh].
    rewrite E1 in Eh. injection Eh as ->. apply (f_equal length) in E2.
    rewrite length_to_hex, length_fmap in E2. unfold hash_ok, blen in *. lia.
  - apply blake3_length.
  - intros E. unfold decode_log_record, hash_ok, RECORD_LEN in *. cbn [snd].
    assert (blen (btake 32 (bdrop 16 r)) = 32%N) as L by (autorewrite with bytes; lia).
    unfold blen in L. lia.
Qed.

Lemma blob_hash_well_typed_witness :
  from_hex (to_hex (blake3 [x01])) = inr (blake3 [x01]) ∧ hash_ok (blake3 [x01]).
Proof.
  assert (from_hex (to_hex (blake3 [x01])) = inr (blake3 [x01])) as E by by vm_compute.
  split; [exact E|].
  destruct (blob_hash_well_typed [] (to_hex (blake3 [x01])) [] (blake3 [x01])) as (_ & Hh & _).
  exact (Hh E).
Defined.

(** The hexadecimal form of a hash reads back as the hash; [from_hex] accepts
    exactly the texts of 64 hexadecimal digits, in either case, and gives the hash
    whose form is the text in lower case; every other text is refused with the
    error for its length or for its digits. *)
Theorem hash_hex_round_trip h s :
  (from_hex (to_hex h) = if decide (hash_ok h) then inr h else inl (WrongHexLen (2 * blen h))) ∧
  from_hex s =
    (if decide (length s = 64) then
       if forallb is_hex s then from_hex (hex_lower <$> s) else inl NotHex
     else inl (WrongHexLen (blen s))) ∧
  (∀ g, from_hex s = inr g → to_hex g = hex_lower <$> s).
Proof.
  assert (∀ u, from_hex u = if decide (length u = 64) then hex_chunks u else inl (WrongHexLen (blen u))) as Hf.
  { intros u. unfold from_hex, blen. case_decide as E; [by rewrite E|].
    by rewrite (proj2 (N.eqb_neq _ _)) by lia. }
  rewrite !Hf, length_to_hex, length_fmap, hex_chunks_to_hex. split_and!.
  - unfold hash_ok, blen. rewrite length_to_hex. do 2 case_decide; try lia; [done|]. do 2 f_equal. lia.
  - case_decide as E; [|done]. destruct (hex_chunks_spec s) as [(g & E1 & E2 & E3)|[E1 E3]];
      [rewrite E; by exists 32|..]; rewrite E1, E3; [|done]. by rewrite <- E2, hex_chunks_to_hex.
  - intros g. case_decide as E; [|done]. intros Eg.
    destruct (hex_chunks_spec s) as [(g' & E1 & E2 & _)|[E1 _]]; [rewrite E; by exists 32|..];
      rewrite E1 in Eg; by simplify_eq.
Qed.

Lemma hash_hex_round_trip_witness :
  from_hex (to_hex (blake3 [x4a])) = inr (blake3 [x4a]) ∧
  to_hex (blake3 [x4a]) = hex_lower <$> to_hex (blake3 [x4a]).
Proof.
  destruct (hash_hex_round_trip (blake3 [x4a]) (to_hex (blake3 [x4a]))) as (E & _ & Hl).
  rewrite decide_True in E by by vm_compute. split; [exact E|exact (Hl _ E)].
Defined.

(** Frames read back: at an offset a payload is read, by [get] or by the walk
    over a pack, exactly when its whole frame stands there, whatever follows; a
    frame cut anywhere is never taken for a frame, whole frames before it are
    found, and equal files hold equal frames. *)
Theorem frames_round_trip `{PackHashing} f off len p q n ps qs t u :
  (read_frame f off len = inr p ↔ len = blen p ∧ small p ∧ ∃ g, bdrop off f = frame p ++ g) ∧
  (scan_frame f off = ScanFrame p ↔ small p ∧ ∃ g, bdrop off f = frame p ++ g) ∧
  (small p → (n < blen (frame p))%N → scan_frame (btake n (frame p)) 0 ≠ ScanFrame q) ∧
  (Forall small ps → Forall small qs →
     frames ps ++ pack_tail t = frames qs ++ pack_tail u → ps = qs).
Proof.
  split_and!.
  - apply read_frame_spec.
  - apply scan_frame_spec.
  - intros Hp Hn. rewrite scan_frame_torn by done. by destruct (n =? 0)%N.
  - apply frames_tail_inj.
Qed.

Lemma frames_round_trip_witness :
  read_frame (frames [[x01]; [x02]]) 17 1 = inr [x02] ∧
  scan_frame (btake 12 (frame [x02])) 0 ≠ ScanFrame [x02].
Proof.
  destruct (frames_round_trip (frames [[x01]; [x02]]) 17 1 [x02] [x02] 12 [] [] 0 0) as (Hr & _ & Ht & _).
  split; [|apply Ht; by vm_compute]. apply Hr. split_and!; [by vm_compute..|].
  exists []. by vm_compute.
Defined.

(** A tombstone log reads back as the records appended to it, in order; a
    record that a crash has cut short at its end is ignored. *)
Theorem tombstone_log_round_trip id rs torn
    (Hrs : Forall (λ r : TombstoneLogKind * BlobHash, hash_ok r.2) rs)
    (Ht : (blen torn < RECORD_LEN)%N) :
  log_records (log_bytes id rs ++ torn) = rs.
Proof. by apply log_records_log_bytes. Qed.

Lemma tombstone_log_round_trip_witness :
  log_records (log_bytes 3 [(Tombstone, blake3 [x01]); (Revive, blake3 [x01])] ++ [x07; x07]) =
  [(Tombstone, blake3 [x01]); (Revive, blake3 [x01])].
Proof.
  apply (tombstone_log_round_trip 3 [(Tombstone, blake3 [x01]); (Revive, blake3 [x01])] [x07; x07]);
    [repeat constructor; by vm_compute|by vm_compute].
Defined.

(** ** The blob store: runs that lose a blob

    Runs of src/crates/stores/src/attachment_pack.rs, evaluated, in which a blob
    that was stored and not evicted cannot be read afterwards, although the
    comments of the code exclude it.  They are the runs the theorems about the
    store leave out: a destination older than the writer at a crash, a failed
    statement, a revival between a compaction's scan and its swap. *)

#[local] Existing Instance toy_hashing.

Definition answer {A} (r : (PackError + A) * disk) : PackError + A := fst r.

(** The first error a list of stores and rotations ends with, if any. *)
Definition run_all (l : list (M store unit)) (s : store) : (PackError + unit) * store :=
  for_each id l s.

Definition put_ (p : bytes) : M store unit := put p;; mret ().

(** The device or statement number [n] from now on fails, the rest works. *)
Definition failing (n : nat) (s : store) : store :=
  Store (Disk (dir (on s)) (rows (on s)) (replicate n Healthy ++ [Broken 0])) (writer s) (target_size s).

Definition blob1 : bytes := [x01].
Definition blob2 : bytes := [x02].
Definition blob3 : bytes := [x03].

(** ** A destination that a compaction has left behind *)

(** The writer fills pack 0; a compaction creates its destination, pack 2, and
    stops there; the writer goes on to pack 3; the process dies. *)
Definition before_death : store :=
  state_after (run_all [put_ blob1; rotate_open_pack; (lift compact_allocate;; mret ());
                        put_ blob2; rotate_open_pack; put_ blob3]) fresh.

Definition reopened : (PackError + store) * disk := open_store (on before_death) DEFAULT_PACK_TARGET_SIZE.

(** Reopening takes the destination for the writer, because its id is lower, and
    removes the pack the writer was on: the blob stored last is gone. *)
Lemma stale_destination_wins :
  pack_id (writer before_death) = 3%N ∧
  answer (get (blake3 blob3) (on before_death)) = inr (Some blob3) ∧
  match reopened with
  | (inr s, _) => (pack_id (writer s) = 2)%N ∧ answer (get (blake3 blob3) (on s)) = inl (Io NotFound)
  | (inl _, _) => False
  end.
Proof. split_and!; [by vm_compute..|]. vm_compute. done. Qed.

(** ** A statement that fails after the frame has been written *)

Definition after_failed_insert : (PackError + BlobHash) * store := put blob1 (failing 5 fresh).

(** The file's position is past the frame, the writer's offset is not: the next
    blob's row says the offset, its frame is at the position. *)
Lemma failed_insert_corrupts_next :
  fst after_failed_insert = inl Sql ∧
  let next := put blob2 (snd after_failed_insert) in
  fst next = inr (blake3 blob2) ∧
  answer (get (blake3 blob2) (on (snd next))) = inl Corruption.
Proof. vm_compute. done. Qed.

(** ** A revival that a compaction does not see *)

(** The blob of pack 0 is evicted; a compaction of pack 0 copies what is live;
    before its swap the same bytes are stored again, which revives the row; the
    swap and the unlinking go on. *)
Definition revived_during_compaction : (PackError + unit) * store :=
  run_all [put_ blob1; put_ blob2; lift (tombstone (blake3 blob1)); rotate_open_pack;
    (dst ← lift compact_allocate;
     live ← lift (compact_scan 0);
     c ← lift (compact_copy 0 dst live);
     lift (compact_seal dst c);;
     put blob1;;
     lift (compact_swap 0 dst c);;
     lift (compact_unlink 0));
    put_ blob1] fresh.

(** Every step succeeds, the last [put] says that the blob is there, and it
    cannot be read. *)
Lemma revived_blob_lost :
  fst revived_during_compaction = inr () ∧
  classify (blake3 blob1) (rows (on (snd revived_during_compaction))) = Live ∧
  answer (get (blake3 blob1) (on (snd revived_during_compaction))) = inl (Io NotFound).
Proof. vm_compute. done. Qed.

(** ** Errors taken for missing rows *)

Definition one_sealed : store := state_after (run_all [put_ blob1; rotate_open_pack]) fresh.

(** The sweep counts a pack's rows; when the count fails it unlinks the pack. *)
Lemma failed_count_unlinks_pack :
  answer (get (blake3 blob1) (on one_sealed)) = inr (Some blob1) ∧
  fst (sweep_orphan_sealed_packs (failing 1 one_sealed)) = inr 1%N ∧
  answer (get (blake3 blob1) (on (snd (sweep_orphan_sealed_packs (failing 1 one_sealed))))) =
    inl (Io NotFound).
Proof. vm_compute. done. Qed.

Definition one_evicted : store :=
  state_after (run_all [put_ blob1; lift (tombstone (blake3 blob1))]) fresh.

(** [put] of an evicted blob whose two lookups fail: it answers with the hash,
    and the blob is still evicted. *)
Lemma failed_lookup_leaves_evicted :
  let s := Store (Disk (dir (on one_evicted)) (rows (on one_evicted)) [Broken 0; Broken 0])
                 (writer one_evicted) (target_size one_evicted) in
  fst (put blob1 s) = inr (blake3 blob1) ∧
  answer (get (blake3 blob1) (on (snd (put blob1 s)))) = inr None.
Proof. vm_compute. done. Qed.
