(* ===== verification/ActionTypes.v ===== *)
(** * Mail and calendar actions: the types on the wire

    src/crates/service-api/src/action.rs, actions.rs and cal_action.rs: the
    operations, their outcomes, the plans and the notifications about them; and
    the conversions between the wire and the domain, of the app
    (src/crates/app/src/action_wire.rs) and of the service
    (src/crates/service/src/actions/wire_conversion.rs, worker.rs). *)

From S2P Require Import Prelude.
From S2P Require Import Graphemes.
From S2P Require Import Strings.
From S2P Require Import Bytes.

(** ** Identifiers *)

(** [PlanId(Uuid)]: 128 bits, also the 16 bytes of [job_id]. *)
Abbreviation PlanId := N.

(** [OperationId(u32)] *)
Abbreviation OperationId := N.

Inductive FolderId := Folder (name : str).
Inductive LabelId := Label (name : str).
Inductive LabelGroupId := LabelGroup (id : Z).
Inductive WireFolderId := WFolder (name : str).
Inductive WireLabelId := WLabel (name : str).
Inductive WireLabelGroupId := WLabelGroup (id : Z).

(** ** Operations *)

Inductive MailOperation :=
  | Archive
  | Trash
  | PermanentDelete
  | SetSpam (to : bool)
  | SetStarred (to : bool)
  | SetRead (to : bool)
  | SetPinned (to : bool)
  | SetMuted (to : bool)
  | MoveToFolder (dest : FolderId) (source : option FolderId)
  | AddLabel (label_id : LabelId)
  | RemoveLabel (label_id : LabelId)
  | ApplyLabelGroup (group_id : LabelGroupId)
  | RemoveLabelGroup (group_id : LabelGroupId)
  | Snooze (until : Z)
  | Unsnooze.

Inductive WireMailOperation :=
  | WArchive
  | WTrash
  | WPermanentDelete
  | WSetSpam (to : bool)
  | WSetStarred (to : bool)
  | WSetRead (to : bool)
  | WSetPinned (to : bool)
  | WSetMuted (to : bool)
  | WMoveToFolder (dest : WireFolderId) (source : option WireFolderId)
  | WAddLabel (label_id : WireLabelId)
  | WRemoveLabel (label_id : WireLabelId)
  | WApplyLabelGroup (group_id : WireLabelGroupId)
  | WRemoveLabelGroup (group_id : WireLabelGroupId)
  | WSnooze (until : Z)
  | WUnsnooze.

Record WireCalendarEventInput := mkEventInput {
  title : str;
  description : str;
  location : str;
  start_time : Z;
  end_time : Z;
  is_all_day : bool;
  timezone : option str;
  recurrence_rule : option str;
  availability : option str;
  visibility : option str
}.

Inductive RsvpResponse := Accepted | Declined | Tentative.

Inductive WireCalendarOperation :=
  | CreateEvent (calendar_remote_id : str) (input : WireCalendarEventInput)
  | UpdateEvent (event_id : str) (input : WireCalendarEventInput)
  | DeleteEvent (event_id : str)
  | RsvpEvent (event_id : str) (response : RsvpResponse).

(** ** Outcomes *)

Inductive RemoteFailureKind := Transient | Permanent | NotImplemented | Unknown.

Inductive ActionError :=
  | Db (msg : str)
  | Remote (kind : RemoteFailureKind) (message : str)
  | NotFound (detail : str)
  | InvalidState (detail : str)
  | Build (msg : str).

Inductive ActionOutcome :=
  | Success
  | NoOp
  | LocalOnly (reason : ActionError) (retryable : bool)
  | Failed (error : ActionError).

(** [ActionError::remote] *)
Definition remote (msg : str) : ActionError := Remote Unknown msg.

Definition is_retryable (e : ActionError) : bool :=
  match e with Remote (Transient | Unknown) _ => true | _ => false end.

Definition is_success (o : ActionOutcome) : bool := match o with Success => true | _ => false end.
Definition is_noop (o : ActionOutcome) : bool := match o with NoOp => true | _ => false end.
Definition is_failed (o : ActionOutcome) : bool := match o with Failed _ => true | _ => false end.

Record RemoteFailure := mkRemoteFailure {
  provider_message : str;
  http_status : option N;
  retryable : bool
}.

Inductive OperationResult :=
  | RSuccess
  | RLocalOnly
  | RRemoteFailure (failure : RemoteFailure)
  | RConflictRejected (detail : str).

Inductive CalendarOperationResult :=
  | CSuccess
  | CLocalOnly (reason : str)
  | CFailed (error : str).

Record PlanSummary := mkPlanSummary {
  total : N;
  local_only : N;
  remote_succeeded : N;
  remote_failed : N;
  conflicts : N
}.

(** [OpTerminalStatus] and [JobTerminalStatus] of the journal. *)
Inductive OpTerminalStatus := TDone | TFailed | TConflict.
Inductive JobTerminalStatus := TCompleted | TPartial | TJobFailed.

(** ** Plans *)

Record ActionWireOperation := mkWireOperation {
  operation_id : OperationId;
  wo_account_id : str;
  wo_thread_id : str;
  wo_operation : WireMailOperation
}.

Record ActionWirePlan := mkWirePlan { plan_id : PlanId; operations : list ActionWireOperation }.

Record CalendarActionWireOperation := mkCalOperation {
  cal_operation_id : OperationId;
  cal_account_id : str;
  cal_operation : WireCalendarOperation
}.

Record CalendarActionPlan := mkCalPlan {
  cal_plan_id : PlanId;
  cal_operations : list CalendarActionWireOperation
}.

(** ** Notifications

    Those of the action worker; [service_generation], which the worker always
    sends as 0, is left out. *)
Inductive Notification :=
  | NOperationOutcome (p : PlanId) (op : OperationId) (result : OperationResult)
  | NCalendarOperationOutcome (p : PlanId) (op : OperationId) (result : CalendarOperationResult)
  | NActionCompleted (p : PlanId) (summary : PlanSummary)
  | NCalendarActionCompleted (p : PlanId) (results : list (OperationId * CalendarOperationResult)).

(** ** Conversions *)

(** worker.rs, what an outcome becomes in the journal and on the wire. *)
Definition action_outcome_to_wire (o : ActionOutcome) : OpTerminalStatus * OperationResult :=
  match o with
  | Success | NoOp => (TDone, RSuccess)
  | LocalOnly _ _ => (TDone, RLocalOnly)
  | Failed (NotFound detail) | Failed (InvalidState detail) => (TConflict, RConflictRejected detail)
  | Failed (Remote kind message) =>
      (TFailed, RRemoteFailure (mkRemoteFailure message None
                                  (match kind with Transient | Unknown => true | _ => false end)))
  | Failed (Db message) | Failed (Build message) =>
      (TFailed, RRemoteFailure (mkRemoteFailure message None false))
  end.

Definition classify_wire_remote (f : RemoteFailure) : RemoteFailureKind :=
  if retryable f then Transient else Permanent.

Definition deferred_message : str := Eval vm_compute in slit "provider failure deferred to pending_ops".

(** action_wire.rs, what the app makes of a result. *)
Definition wire_outcome_to_action_outcome (r : OperationResult) : ActionOutcome :=
  match r with
  | RSuccess => Success
  | RLocalOnly => LocalOnly (remote deferred_message) true
  | RConflictRejected detail => Failed (NotFound detail)
  | RRemoteFailure f => Failed (Remote (classify_wire_remote f) (provider_message f))
  end.

Definition folder_to_wire (f : FolderId) : WireFolderId := match f with Folder s => WFolder s end.
Definition label_to_wire (l : LabelId) : WireLabelId := match l with Label s => WLabel s end.
Definition label_group_to_wire (g : LabelGroupId) : WireLabelGroupId :=
  match g with LabelGroup n => WLabelGroup n end.
Definition wire_folder_to_folder (f : WireFolderId) : FolderId := match f with WFolder s => Folder s end.
Definition wire_label_to_label (l : WireLabelId) : LabelId := match l with WLabel s => Label s end.
Definition wire_label_group_to_label_group (g : WireLabelGroupId) : LabelGroupId :=
  match g with WLabelGroup n => LabelGroup n end.

(** action_wire.rs *)
Definition to_wire_op (op : MailOperation) : WireMailOperation :=
  match op with
  | Archive => WArchive
  | Trash => WTrash
  | PermanentDelete => WPermanentDelete
  | SetSpam to => WSetSpam to
  | SetStarred to => WSetStarred to
  | SetRead to => WSetRead to
  | SetPinned to => WSetPinned to
  | SetMuted to => WSetMuted to
  | MoveToFolder dest source => WMoveToFolder (folder_to_wire dest) (folder_to_wire <$> source)
  | AddLabel l => WAddLabel (label_to_wire l)
  | RemoveLabel l => WRemoveLabel (label_to_wire l)
  | ApplyLabelGroup g => WApplyLabelGroup (label_group_to_wire g)
  | RemoveLabelGroup g => WRemoveLabelGroup (label_group_to_wire g)
  | Snooze until => WSnooze until
  | Unsnooze => WUnsnooze
  end.

(** wire_conversion.rs *)
Definition wire_to_mail (op : WireMailOperation) : MailOperation :=
  match op with
  | WArchive => Archive
  | WTrash => Trash
  | WPermanentDelete => PermanentDelete
  | WSetSpam to => SetSpam to
  | WSetStarred to => SetStarred to
  | WSetRead to => SetRead to
  | WSetPinned to => SetPinned to
  | WSetMuted to => SetMuted to
  | WMoveToFolder dest source =>
      MoveToFolder (wire_folder_to_folder dest) (wire_folder_to_folder <$> source)
  | WAddLabel l => AddLabel (wire_label_to_label l)
  | WRemoveLabel l => RemoveLabel (wire_label_to_label l)
  | WApplyLabelGroup g => ApplyLabelGroup (wire_label_group_to_label_group g)
  | WRemoveLabelGroup g => RemoveLabelGroup (wire_label_group_to_label_group g)
  | WSnooze until => Snooze until
  | WUnsnooze => Unsnooze
  end.

(** wire_conversion.rs *)
Definition mail_to_wire (op : MailOperation) : WireMailOperation :=
  match op with
  | Archive => WArchive
  | Trash => WTrash
  | PermanentDelete => WPermanentDelete
  | SetSpam to => WSetSpam to
  | SetStarred to => WSetStarred to
  | SetRead to => WSetRead to
  | SetPinned to => WSetPinned to
  | SetMuted to => WSetMuted to
  | MoveToFolder dest source => WMoveToFolder (folder_to_wire dest) (folder_to_wire <$> source)
  | AddLabel l => WAddLabel (label_to_wire l)
  | RemoveLabel l => WRemoveLabel (label_to_wire l)
  | ApplyLabelGroup g => WApplyLabelGroup (label_group_to_wire g)
  | RemoveLabelGroup g => WRemoveLabelGroup (label_group_to_wire g)
  | Snooze until => WSnooze until
  | Unsnooze => WUnsnooze
  end.

(** ** What the conversions keep *)

Lemma wire_to_mail_to_wire_op op : wire_to_mail (to_wire_op op) = op.
Proof.
  destruct op as [| | | | | | | |[] [[]|]|[]|[]|[]|[]| |]; reflexivity.
Qed.

Lemma mail_to_wire_to_mail op : mail_to_wire (wire_to_mail op) = op.
Proof.
  destruct op as [| | | | | | | |[] [[]|]|[]|[]|[]|[]| |]; reflexivity.
Qed.

Lemma mail_to_wire_is_to_wire_op op : mail_to_wire op = to_wire_op op.
Proof. by destruct op. Qed.

(** What survives the way of an outcome from the worker to the app: whether it
    failed, whether it is local only, and whether a failure can be retried. *)
Lemma outcome_over_the_wire o :
  let o' := wire_outcome_to_action_outcome (action_outcome_to_wire o).2 in
  is_failed o' = is_failed o ∧
  is_success o' = is_success o || is_noop o ∧
  match o, o' with
  | Failed e, Failed e' => is_retryable e' = is_retryable e
  | _, _ => True
  end.
Proof. by destruct o as [| | |[|[]| | |]]. Qed.
