(* ===== verification/Journal.v ===== *)
(** * The action journal

    src/crates/db/src/db/action_journal.rs: the tables [action_jobs] and
    [action_job_ops] and every statement on them, in a world that can fail and
    die.

    The database is shared: the handlers of requests insert jobs while the worker
    runs.  [schedule] says what happens at each point where the worker reaches
    the database, a provider or its output: the jobs other tasks have inserted by
    then, the time of day, and whether the step works, fails, or finds the
    process dead.  A schedule that has run out stands for a quiet world in which
    every step works.

    A statement is one step, a transaction too.  The tables have the constraints
    of src/crates/db/src/db/schema/12_actions.sql except that of the accounts:
    the account of a job exists, and deleting accounts is left out.  SQLite visits
    the rows of a table in an order of its own: [TableScan]. *)

From S2P Require Import Prelude.
From S2P Require Import Strings.
From S2P Require Import Bytes.
From S2P Require Import ActionTypes.
From stdpp Require Import sorting.

(** ** Tables *)

Inductive JobStatus := Queued | Leased | Executing | Completed | Partial | JobFailed.
Inductive OpStatus := OpPending | OpLeased | OpExecuting | OpDone | OpFailed | OpConflict.

#[export] Instance JobStatus_eq_dec : EqDecision JobStatus.
Proof. solve_decision. Defined.
#[export] Instance OpStatus_eq_dec : EqDecision OpStatus.
Proof. solve_decision. Defined.

(** A row of [action_jobs] under its [job_id]. *)
Record Job := mkJob {
  kind : str;
  account_id : str;
  status : JobStatus;
  quiet : bool;
  payload : bytes;
  summary : option bytes;
  lease_owner : option N;
  lease_expires_at : option Z;
  created_at : Z;
  updated_at : Z
}.

(** A row of [action_job_ops] under its [(job_id, operation_id)]. *)
Record Op := mkOp {
  ordinal : N;
  thread_id : str;
  operation : bytes;
  op_status : OpStatus;
  outcome : option bytes;
  op_lease_owner : option N;
  op_lease_expires_at : option Z
}.

Abbreviation op_key := (PlanId * OperationId)%type.

Record tables := Tables { jobs : gmap PlanId Job; ops : gmap op_key Op }.

(** The order in which SQLite visits rows. *)
Class TableScan := {
  scan_jobs : gmap PlanId Job → list (PlanId * Job);
  scan_ops : gmap op_key Op → list (op_key * Op);
  scan_jobs_rows t : scan_jobs t ≡ₚ map_to_list t;
  scan_ops_rows t : scan_ops t ≡ₚ map_to_list t
}.

(** ** Kinds and statuses as text *)

Definition kind_mail_plan : str := Eval vm_compute in slit "mail_plan".
Definition kind_calendar_plan : str := Eval vm_compute in slit "calendar_plan".
Definition kind_send : str := Eval vm_compute in slit "send".
Definition kind_mark_chat_read : str := Eval vm_compute in slit "mark_chat_read".

(** The CHECK constraint on [kind] *)
Definition kind_check (k : str) : bool :=
  bool_decide (k ∈ [kind_mail_plan; kind_send; kind_mark_chat_read; kind_calendar_plan]).

Inductive PerOpJobKind := MailPlan | CalendarPlan.

Definition per_op_as_sql (k : PerOpJobKind) : str :=
  match k with MailPlan => kind_mail_plan | CalendarPlan => kind_calendar_plan end.

Definition per_op_from_sql (value : str) : option PerOpJobKind :=
  if decide (value = kind_mail_plan) then Some MailPlan
  else if decide (value = kind_calendar_plan) then Some CalendarPlan
  else None.

(** [as_sql] of the terminal statuses, read back as a column. *)
Definition op_terminal (s : OpTerminalStatus) : OpStatus :=
  match s with TDone => OpDone | TFailed => OpFailed | TConflict => OpConflict end.

Definition job_terminal (s : JobTerminalStatus) : JobStatus :=
  match s with TCompleted => Completed | TPartial => Partial | TJobFailed => JobFailed end.

(** [status IN ('queued', 'leased', 'executing')] *)
Definition job_active (s : JobStatus) : bool :=
  match s with Queued | Leased | Executing => true | _ => false end.

(** [status IN ('leased', 'executing')] *)
Definition job_leased (s : JobStatus) : bool :=
  match s with Leased | Executing => true | _ => false end.

Definition op_leased (s : OpStatus) : bool :=
  match s with OpLeased | OpExecuting => true | _ => false end.

(** [status IN ('pending', 'leased', 'executing')] *)
Definition op_open (s : OpStatus) : bool :=
  match s with OpPending | OpLeased | OpExecuting => true | _ => false end.

(** ** Inserting *)

Record PlanOpInsert := mkOpInsert {
  ins_operation_id : OperationId;
  ins_ordinal : N;
  ins_thread_id : str;
  ins_operation_blob : bytes
}.

(** One [INSERT INTO action_jobs]: the key is unique, the kind is allowed. *)
Definition insert_job (p : PlanId) (j : Job) (t : tables) : option tables :=
  match jobs t !! p with
  | Some _ => None
  | None => if kind_check (kind j) then Some (Tables (<[p := j]> (jobs t)) (ops t)) else None
  end.

(** [UNIQUE (job_id, ordinal)] *)
Definition ordinal_taken (p : PlanId) (n : N) (t : tables) : bool :=
  existsb (λ e : op_key * Op, (e.1.1 =? p)%N && (ordinal e.2 =? n)%N) (map_to_list (ops t)).

Definition insert_op (p : PlanId) (t : tables) (o : PlanOpInsert) : option tables :=
  let k := (p, ins_operation_id o) in
  match ops t !! k with
  | Some _ => None
  | None =>
      if ordinal_taken p (ins_ordinal o) t then None
      else Some (Tables (jobs t)
        (<[k := mkOp (ins_ordinal o) (ins_thread_id o) (ins_operation_blob o) OpPending None None None]> (ops t)))
  end.

Fixpoint insert_ops (p : PlanId) (os : list PlanOpInsert) (t : tables) : option tables :=
  match os with
  | [] => Some t
  | o :: os => t ← insert_op p t o; insert_ops p os t
  end.

(** The transaction of [insert_mail_plan] and [insert_calendar_plan]: both
    inserts or none. *)
Definition insert_plan_rows (k : PerOpJobKind) (p : PlanId) (account : str) (q : bool)
    (os : list PlanOpInsert) (now : Z) (t : tables) : option tables :=
  t ← insert_job p (mkJob (per_op_as_sql k) account Queued q [] None None None now now) t;
  insert_ops p os t.

Definition insert_quiet_rows (p : PlanId) (k : str) (account : str) (blob : bytes) (now : Z)
    (t : tables) : option tables :=
  insert_job p (mkJob k account Queued true blob None None None now now) t.

(** What a handler commits while the worker runs. *)
Inductive arrival :=
  | PlanArrives (k : PerOpJobKind) (p : PlanId) (account : str) (q : bool) (os : list PlanOpInsert)
  | QuietJobArrives (p : PlanId) (k : str) (account : str) (blob : bytes).

(** A transaction that violates a constraint changes nothing. *)
Definition arrive (now : Z) (t : tables) (a : arrival) : tables :=
  from_option id t
    match a with
    | PlanArrives k p account q os => insert_plan_rows k p account q os now t
    | QuietJobArrives p k account blob => insert_quiet_rows p k account blob now t
    end.

(** ** The world of the worker *)

Inductive verdict := Healthy | Broken | Death.

Record tick := Tick { arrivals : list arrival; time : Z; fate : verdict }.

(** A file of the send vault: the directory of its send, and its name. *)
Abbreviation vault_path := (PlanId * str)%type.

Record world := World {
  db : tables;
  now : Z;
  schedule : list tick;
  sent : list Notification;
  executed : list op_key;
  vault : gmap vault_path bytes
}.

(** [now] in milliseconds; [unixepoch()] in seconds. *)
Definition unixepoch (w : world) : Z := (now w / 1000)%Z.

Inductive res (A : Type) :=
  | Ok (a : A)
  | Err (e : str)
  | Died.
Arguments Ok {A} a.
Arguments Err {A} e.
Arguments Died {A}.

Definition M (A : Type) : Type := world → res A * world.

#[export] Instance M_ret : MRet M := λ A a w, (Ok a, w).
#[export] Instance M_bind : MBind M := λ A B f m w,
  match m w with
  | (Ok a, w') => f a w'
  | (Err e, w') => (Err e, w')
  | (Died, w') => (Died, w')
  end.

Definition fail {A} (e : str) : M A := λ w, (Err e, w).
Definition died {A} : M A := λ w, (Died, w).
Definition get_world : M world := λ w, (Ok w, w).

(** [match .. { Ok .. Err .. }]: an error is a value; death is not. *)
Definition attempt {A} (m : M A) : M (str + A) := λ w,
  match m w with
  | (Ok a, w') => (Ok (inr a), w')
  | (Err e, w') => (Ok (inl e), w')
  | (Died, w') => (Died, w')
  end.

Fixpoint for_each {A} (f : A → M unit) (l : list A) : M unit :=
  match l with
  | [] => mret ()
  | a :: l => f a;; for_each f l
  end.

(** The next entry of the schedule. *)
Definition next_tick : M verdict := λ w,
  match schedule w with
  | [] => (Ok Healthy, w)
  | t :: rest =>
      (Ok (fate t),
       World (foldl (arrive (time t / 1000)) (db w) (arrivals t)) (time t) rest (sent w) (executed w) (vault w))
  end.

Definition db_error : str := Eval vm_compute in slit "database error".

(** A step that can fail. *)
Definition step_or_fail (e : str) : M unit :=
  v ← next_tick;
  match v with Healthy => mret () | Broken => fail e | Death => died end.

(** A statement or a transaction. *)
Definition sql : M unit := step_or_fail db_error.

(** A step that reaches something else: it does not fail by itself. *)
Definition alive : M unit :=
  v ← next_tick;
  match v with Death => died | _ => mret () end.

Definition set_world (f : world → world) : M unit := λ w, (Ok (), f w).

Definition set_db (f : tables → tables) : M unit := set_world (λ w,
  World (f (db w)) (now w) (schedule w) (sent w) (executed w) (vault w)).

Definition query {A} (f : tables → A) : M A := sql;; w ← get_world; mret (f (db w)).
Definition execute (f : tables → tables) : M unit := sql;; set_db f.

(** A transaction that may violate a constraint: the row's time is [unixepoch()]. *)
Definition insert_or_fail (f : Z → tables → option tables) : M Z :=
  sql;; w ← get_world;
  match f (unixepoch w) (db w) with
  | None => fail db_error
  | Some t => set_db (λ _, t);; mret (unixepoch w)
  end.

Definition insert_mail_plan (p : PlanId) (account : str) (q : bool) (os : list PlanOpInsert) : M Z :=
  insert_or_fail (insert_plan_rows MailPlan p account q os).

Definition insert_calendar_plan (p : PlanId) (account : str) (os : list PlanOpInsert) : M Z :=
  insert_or_fail (insert_plan_rows CalendarPlan p account false os).

Definition insert_quiet_job (p : PlanId) (k : str) (account : str) (blob : bytes) : M Z :=
  insert_or_fail (insert_quiet_rows p k account blob).

(** ** Recovery *)

Definition requeue_job (now : Z) (j : Job) : Job :=
  if job_leased (status j)
  then mkJob (kind j) (account_id j) Queued (quiet j) (payload j) (summary j) None None (created_at j) now
  else j.

Definition requeue_op (o : Op) : Op :=
  if op_leased (op_status o)
  then mkOp (ordinal o) (thread_id o) (operation o) OpPending (outcome o) None None
  else o.

(** The rows changed by each of the two statements. *)
Definition recover_stale_leases : M (nat * nat) :=
  n ← query (λ t, length (List.filter (λ e : PlanId * Job, job_leased (status e.2)) (map_to_list (jobs t))));
  w ← get_world;
  set_db (λ t, Tables (requeue_job (unixepoch w) <$> jobs t) (ops t));;
  m ← query (λ t, length (List.filter (λ e : op_key * Op, op_leased (op_status e.2)) (map_to_list (ops t))));
  set_db (λ t, Tables (jobs t) (requeue_op <$> ops t));;
  mret (n, m).

(** ** Reading *)

Section with_scan.
Context `{TableScan}.

Definition live_send_job_ids : M (list PlanId) :=
  query (λ t, fst <$> List.filter
    (λ e : PlanId * Job, bool_decide (kind e.2 = kind_send) &&
       negb (match status e.2 with Completed | JobFailed => true | _ => false end))
    (scan_jobs (jobs t))).

Definition query_job_status (p : PlanId) : M (option (JobStatus * option bytes)) :=
  query (λ t, (λ j, (status j, summary j)) <$> jobs t !! p).

(** ** Leasing *)

Record LeasedQuietJob := mkLeasedQuietJob {
  lq_job_id : PlanId;
  lq_kind : str;
  lq_account_id : str;
  lq_payload : bytes
}.

(** [ORDER BY] and [LIMIT 1] *)
Definition order_by {A} (key : A → Z * N) (l : list A) : list A :=
  merge_sort (λ a b, (key a).1 < (key b).1 ∨ (key a).1 = (key b).1 ∧ ((key a).2 ≤ (key b).2)%N)%Z l.

(** The queued jobs of a kind, the oldest first. *)
Definition ready_quiet_jobs (k : str) (t : tables) : list (PlanId * Job) :=
  order_by (λ e, (created_at e.2, 0%N))
    (List.filter (λ e : PlanId * Job,
       bool_decide (kind e.2 = k) && bool_decide (status e.2 = Queued)) (scan_jobs (jobs t))).

Definition lease_job (owner : N) (expires now : Z) (j : Job) : Job :=
  mkJob (kind j) (account_id j) Executing (quiet j) (payload j) (summary j)
        (Some owner) (Some expires) (created_at j) now.

Definition lease_next_ready_quiet_job (k : str) (owner : N) (lease_duration_ms : Z)
    : M (option LeasedQuietJob) :=
  row ← query (λ t, head (ready_quiet_jobs k t));
  match row with
  | None => mret None
  | Some (p, j) =>
      w ← get_world;
      set_db (λ t, Tables (alter (lease_job owner (now w + lease_duration_ms)%Z (unixepoch w)) p (jobs t)) (ops t));;
      mret (Some (mkLeasedQuietJob p (kind j) (account_id j) (payload j)))
  end.

Record LeasedOp := mkLeasedOp {
  lo_plan_id : PlanId;
  lo_operation_id : OperationId;
  lo_ordinal : N;
  lo_thread_id : str;
  lo_operation_blob : bytes;
  lo_account_id : str;
  lo_quiet : bool;
  lo_kind : option PerOpJobKind;
  lo_raw_kind : str
}.

(** [action_job_ops JOIN action_jobs USING (job_id)] *)
Definition joined (t : tables) : list (op_key * Op * Job) :=
  omap (λ e : op_key * Op, (λ j, (e, j)) <$> jobs t !! e.1.1) (scan_ops (ops t)).

(** [ORDER BY jobs.created_at, ops.ordinal] *)
Definition op_order (e : op_key * Op * Job) : Z * N := (created_at e.2, ordinal e.1.2).

(** The operations that can be leased, the next one first. *)
Definition ready_ops (t : tables) : list (op_key * Op * Job) :=
  order_by op_order
    (List.filter (λ e : op_key * Op * Job,
       bool_decide (op_status e.1.2 = OpPending) && job_active (status e.2)) (joined t)).

Definition lease_op (owner : N) (expires : Z) (o : Op) : Op :=
  mkOp (ordinal o) (thread_id o) (operation o) OpLeased (outcome o) (Some owner) (Some expires).

Definition lease_next_ready_op (owner : N) (lease_duration_ms : Z) : M (option LeasedOp) :=
  row ← query (λ t, head (ready_ops t));
  match row with
  | None => mret None
  | Some (k, o, j) =>
      w ← get_world;
      set_db (λ t, Tables (jobs t) (alter (lease_op owner (now w + lease_duration_ms)%Z) k (ops t)));;
      mret (Some (mkLeasedOp k.1 k.2 (ordinal o) (thread_id o) (operation o) (account_id j)
                             (quiet j) (per_op_from_sql (kind j)) (kind j)))
  end.

(** ** Ending operations and jobs *)

Definition end_op (s : OpTerminalStatus) (blob : bytes) (o : Op) : Op :=
  mkOp (ordinal o) (thread_id o) (operation o) (op_terminal s) (Some blob) None None.

Definition mark_op_terminal (p : PlanId) (n : OperationId) (s : OpTerminalStatus) (blob : bytes) : M unit :=
  execute (λ t, Tables (jobs t) (alter (end_op s blob) (p, n) (ops t))).

Record OpStatusCounts := mkCounts {
  c_pending : N;
  c_leased : N;
  c_executing : N;
  c_done : N;
  c_failed : N;
  c_conflict : N
}.

Definition counts_total (c : OpStatusCounts) : N :=
  (c_pending c + c_leased c + c_executing c + c_done c + c_failed c + c_conflict c)%N.
Definition counts_non_terminal (c : OpStatusCounts) : N := (c_pending c + c_leased c + c_executing c)%N.
Definition counts_terminal (c : OpStatusCounts) : N := (c_done c + c_failed c + c_conflict c)%N.

Definition ops_of (p : PlanId) (t : tables) : list (op_key * Op) :=
  List.filter (λ e : op_key * Op, (e.1.1 =? p)%N) (scan_ops (ops t)).

Definition count_status (s : OpStatus) (l : list (op_key * Op)) : N :=
  N.of_nat (length (List.filter (λ e : op_key * Op, bool_decide (op_status e.2 = s)) l)).

Definition counts_of (p : PlanId) (t : tables) : OpStatusCounts :=
  let l := ops_of p t in
  mkCounts (count_status OpPending l) (count_status OpLeased l) (count_status OpExecuting l)
           (count_status OpDone l) (count_status OpFailed l) (count_status OpConflict l).

Definition count_ops_by_status (p : PlanId) : M OpStatusCounts := query (counts_of p).

(** Jobs with operations that are not finished although their operations are. *)
Definition unfinalized (t : tables) : list (PlanId * option PerOpJobKind) :=
  (λ e : PlanId * Job, (e.1, per_op_from_sql (kind e.2))) <$> List.filter
    (λ e : PlanId * Job,
       negb (bool_decide (kind e.2 = kind_send) || bool_decide (kind e.2 = kind_mark_chat_read)) &&
       job_active (status e.2) &&
       negb (existsb (λ o : op_key * Op, op_open (op_status o.2)) (ops_of e.1 t)))
    (scan_jobs (jobs t)).

Definition unfinalized_per_op_plan_jobs : M (list (PlanId * option PerOpJobKind)) := query unfinalized.

Definition end_job (s : JobTerminalStatus) (blob : bytes) (now : Z) (j : Job) : Job :=
  mkJob (kind j) (account_id j) (job_terminal s) (quiet j) (payload j) (Some blob) None None
        (created_at j) now.

Definition finalize_job (p : PlanId) (s : JobTerminalStatus) (blob : bytes) : M unit :=
  sql;; w ← get_world;
  set_db (λ t, Tables (alter (end_job s blob (unixepoch w)) p (jobs t)) (ops t)).

Record ReplayableOp := mkReplayable {
  ro_plan_id : PlanId;
  ro_operation_id : OperationId;
  ro_status : OpTerminalStatus;
  ro_outcome_blob : bytes;
  ro_quiet : bool;
  ro_kind : option PerOpJobKind;
  ro_raw_kind : str
}.

Definition terminal_status (s : OpStatus) : option OpTerminalStatus :=
  match s with
  | OpDone => Some TDone
  | OpFailed => Some TFailed
  | OpConflict => Some TConflict
  | _ => None
  end.

(** The operations with an outcome in jobs that are not finished, in order. *)
Definition unemitted (t : tables) : list (op_key * Op * Job) :=
  order_by op_order
    (List.filter (λ e : op_key * Op * Job,
       bool_decide (is_Some (outcome e.1.2)) && job_active (status e.2)) (joined t)).

Definition unknown_status_error : str := Eval vm_compute in slit "unemitted_terminal_ops unknown op status".

(** The loop over the rows. *)
Fixpoint replayable (l : list (op_key * Op * Job)) : str + list ReplayableOp :=
  match l with
  | [] => inr []
  | (k, o, j) :: l =>
      match terminal_status (op_status o) with
      | None => inl unknown_status_error
      | Some s =>
          match replayable l with
          | inl e => inl e
          | inr rs => inr (mkReplayable k.1 k.2 s (from_option id [] (outcome o)) (quiet j)
                                        (per_op_from_sql (kind j)) (kind j) :: rs)
          end
      end
  end.

Definition unemitted_terminal_ops : M (list ReplayableOp) :=
  rows ← query unemitted;
  match replayable rows with inl e => fail e | inr rs => mret rs end.

(** The finished operations of a plan with their outcomes, in order. *)
Definition finished_ops (p : PlanId) (t : tables) : list (OperationId * bytes) :=
  omap (λ e : op_key * Op, (λ b, (e.1.2, b)) <$> outcome e.2)
    (order_by (λ e : op_key * Op, (0%Z, ordinal e.2)) (ops_of p t)).

Definition terminal_ops_for_plan (p : PlanId) : M (list (OperationId * bytes)) := query (finished_ops p).

End with_scan.
