(* ===== verification/Worker.v ===== *)
(** * The action worker

    src/crates/service/src/actions/worker.rs: draining the journal, one operation
    at a time, with the notifications to the app; the quiet jobs; the start of a
    service.  src/crates/service/src/handlers/action.rs, cal_action.rs and
    action_status.rs: what a request puts into the journal and reads from it.

    JSON ([Serde]) and the execution of an operation by a provider
    ([Providers]) are parameters.  [executed] records every execution. *)

From S2P Require Import Prelude.
From S2P Require Import Strings.
From S2P Require Import Bytes.
From S2P Require Import ActionTypes.
From S2P Require Import Journal.

(** ** Journaled payloads *)

Record JournaledChatRead := mkChatRead { chat_email : str; affected : list (str * str) }.

Inductive SendIntent := IntentNew | IntentReply | IntentForward.

Record JournaledAttachment := mkAttachment {
  ja_vault_path : vault_path;
  ja_filename : str;
  ja_mime : str;
  ja_content_id : option str;
  ja_size : N;
  ja_content_hash : bytes
}.

Record JournaledMessage := mkMessage {
  draft_id : str;
  from : str;
  to : list str;
  cc : list str;
  bcc : list str;
  subject : option str;
  body_html : str;
  body_text : str;
  in_reply_to : option str;
  references : option str;
  jm_thread_id : option str;
  source_message_id : option str;
  intent : SendIntent;
  jm_scheduled_at : option Z
}.

Record JournaledSend := mkSend {
  send_id : PlanId;
  js_account_id : str;
  message : JournaledMessage;
  attachments : list JournaledAttachment;
  js_scheduled_at : option Z
}.

Record SendAttachment := mkSendAttachment {
  sa_filename : str;
  sa_mime_type : str;
  sa_data : bytes;
  sa_content_id : option str
}.

Record SendRequest := mkSendRequest {
  sr_draft_id : str;
  sr_account_id : str;
  sr_from : str;
  sr_to : list str;
  sr_cc : list str;
  sr_bcc : list str;
  sr_subject : option str;
  sr_body_html : str;
  sr_body_text : str;
  sr_attachments : list SendAttachment;
  sr_in_reply_to : option str;
  sr_references : option str;
  sr_thread_id : option str;
  sr_source_message_id : option str;
  sr_intent : SendIntent
}.

(** ** Parameters *)

Definition result_tag (r : OperationResult) : str :=
  match r with
  | RSuccess => slit "success"
  | RLocalOnly => slit "local_only"
  | RRemoteFailure _ => slit "remote_failure"
  | RConflictRejected _ => slit "conflict_rejected"
  end.

Definition cal_result_tag (r : CalendarOperationResult) : str :=
  match r with
  | CSuccess => slit "success"
  | CLocalOnly _ => slit "local_only"
  | CFailed _ => slit "failed"
  end.

(** serde_json on the derived instances: what is written reads back, and a
    tagged enum is read only under the tag of one of its variants.  [value_kind]
    is the member ["kind"] of a JSON object, when it is a string. *)
Class Serde := {
  op_to_vec : WireMailOperation → bytes;
  op_from_slice : bytes → str + WireMailOperation;
  cal_op_to_vec : WireCalendarOperation → bytes;
  cal_op_from_slice : bytes → str + WireCalendarOperation;
  result_to_vec : OperationResult → bytes;
  result_from_slice : bytes → str + OperationResult;
  cal_result_to_vec : CalendarOperationResult → bytes;
  cal_result_from_slice : bytes → str + CalendarOperationResult;
  summary_to_vec : PlanSummary → bytes;
  summary_from_slice : bytes → str + PlanSummary;
  chat_read_from_slice : bytes → str + JournaledChatRead;
  send_from_slice : bytes → str + JournaledSend;
  value_kind : bytes → option str;
  op_reads_back op : op_from_slice (op_to_vec op) = inr op;
  cal_op_reads_back op : cal_op_from_slice (cal_op_to_vec op) = inr op;
  result_reads_back r : result_from_slice (result_to_vec r) = inr r;
  cal_result_reads_back r : cal_result_from_slice (cal_result_to_vec r) = inr r;
  summary_reads_back s : summary_from_slice (summary_to_vec s) = inr s;
  result_kind r : value_kind (result_to_vec r) = Some (result_tag r);
  cal_result_kind r : value_kind (cal_result_to_vec r) = Some (cal_result_tag r);
  cal_result_needs_kind b r : cal_result_from_slice b = inr r → value_kind b = Some (cal_result_tag r)
}.

(** [batch_execute] of mail and calendar for one operation, and the sending of a
    message: what they answer depends on all that was executed before. *)
Class Providers := {
  batch_execute : list op_key → str → str → MailOperation → list ActionOutcome;
  cal_batch_execute : list op_key → OperationId → str → WireCalendarOperation → list CalendarOperationResult;
  send_email : list op_key → SendRequest → ActionOutcome;
  send_scheduled : list op_key → SendRequest → Z → ActionOutcome
}.

(** ** Steps of the worker *)

(** [send_must_deliver_notification] *)
Definition emit (n : Notification) : M unit :=
  alive;;
  set_world (λ w, World (db w) (now w) (schedule w) (sent w ++ [n]) (executed w) (vault w)).

(** An execution is recorded, then answered. *)
Definition dispatch {A} (k : op_key) (f : list op_key → A) : M A :=
  alive;;
  w ← get_world;
  set_world (λ w, World (db w) (now w) (schedule w) (sent w) (executed w ++ [k]) (vault w));;
  mret (f (executed w)).

(** [send_vault::cleanup_vault_dir], whose errors are logged. *)
Definition cleanup_vault_dir (p : PlanId) : M unit :=
  alive;;
  set_world (λ w, World (db w) (now w) (schedule w) (sent w) (executed w)
                        (filter (λ e : vault_path * bytes, e.1.1 ≠ p) (vault w))).

Definition LEASE_DURATION_MS : Z := 600000.

Section worker.
Context `{TableScan, Serde, Providers}.

(** ** Finalizing *)

Definition local_only_tag : str := Eval vm_compute in slit "local_only".

Definition outcome_blob_is_local_only (blob : bytes) : bool :=
  bool_decide (value_kind blob = Some local_only_tag).

Definition plan_summary (c : OpStatusCounts) (rows : list (OperationId * bytes)) : PlanSummary :=
  let local_only :=
    N.min u32_max (N.of_nat (length (List.filter (λ r, outcome_blob_is_local_only r.2) rows))) in
  mkPlanSummary (counts_total c) local_only (c_done c - local_only) (c_failed c) (c_conflict c).

Definition plan_status (c : OpStatusCounts) : JobTerminalStatus :=
  if (c_done c =? counts_total c)%N then TCompleted
  else if (c_done c =? 0)%N then TJobFailed
  else TPartial.

Definition cal_error : str := Eval vm_compute in slit "deserialize CalendarOperationResult for op: ".

(** The loop that reads the rows back as results. *)
Fixpoint cal_results (rows : list (OperationId * bytes)) : str + list (OperationId * CalendarOperationResult) :=
  match rows with
  | [] => inr []
  | (n, blob) :: rows =>
      match cal_result_from_slice blob with
      | inl e => inl (cal_error ++ e)
      | inr r =>
          match cal_results rows with
          | inl e => inl e
          | inr rs => inr ((n, r) :: rs)
          end
      end
  end.

Definition cal_completion (k : option PerOpJobKind) (rows : list (OperationId * bytes))
    : M (list (OperationId * CalendarOperationResult)) :=
  match k with
  | Some MailPlan => mret []
  | _ => match cal_results rows with inl e => fail e | inr rs => mret rs end
  end.

Definition maybe_finalize (p : PlanId) (k : option PerOpJobKind) : M unit :=
  counts ← count_ops_by_status p;
  if (0 <? counts_non_terminal counts)%N then mret ()
  else
    rows ← terminal_ops_for_plan p;
    let summary := plan_summary counts rows in
    finalize_job p (plan_status counts) (summary_to_vec summary);;
    results ← cal_completion k rows;
    match k with
    | Some MailPlan => emit (NActionCompleted p summary)
    | Some CalendarPlan => emit (NCalendarActionCompleted p results)
    | None => emit (NActionCompleted p summary);; emit (NCalendarActionCompleted p results)
    end.

(** ** One operation *)

Definition persist_and_emit (op : LeasedOp) (s : OpTerminalStatus) (r : OperationResult) : M unit :=
  mark_op_terminal (lo_plan_id op) (lo_operation_id op) s (result_to_vec r);;
  if lo_quiet op then mret ()
  else emit (NOperationOutcome (lo_plan_id op) (lo_operation_id op) r).

Definition deserialize_mail_error : str := Eval vm_compute in slit "deserialize WireMailOperation: ".
Definition deserialize_cal_error : str := Eval vm_compute in slit "deserialize WireCalendarOperation: ".
Definition empty_outcomes_error : str :=
  Eval vm_compute in slit "batch_execute returned empty outcomes for one input op".
Definition empty_cal_outcomes_error : str :=
  Eval vm_compute in slit "cal_actions::batch_execute returned empty outcomes".
Definition journal_corrupt : str := Eval vm_compute in slit "JournalCorrupt: unknown kind ".

Definition leased_key (op : LeasedOp) : op_key := (lo_plan_id op, lo_operation_id op).

Definition run_one_mail (op : LeasedOp) : M unit :=
  match op_from_slice (lo_operation_blob op) with
  | inl e => fail (deserialize_mail_error ++ e)
  | inr wire_op =>
      outcomes ← dispatch (leased_key op)
        (λ past, batch_execute past (lo_account_id op) (lo_thread_id op) (wire_to_mail wire_op));
      match head outcomes with
      | None => fail empty_outcomes_error
      | Some outcome =>
          let sr := action_outcome_to_wire outcome in
          persist_and_emit op sr.1 sr.2
      end
  end.

Definition cal_op_status (r : CalendarOperationResult) : OpTerminalStatus :=
  match r with CSuccess | CLocalOnly _ => TDone | CFailed _ => TFailed end.

Definition run_one_calendar (op : LeasedOp) : M unit :=
  match cal_op_from_slice (lo_operation_blob op) with
  | inl e => fail (deserialize_cal_error ++ e)
  | inr wire_op =>
      results ← dispatch (leased_key op)
        (λ past, cal_batch_execute past (lo_operation_id op) (lo_account_id op) wire_op);
      match last results with
      | None => fail empty_cal_outcomes_error
      | Some r =>
          mark_op_terminal (lo_plan_id op) (lo_operation_id op) (cal_op_status r) (cal_result_to_vec r);;
          if lo_quiet op then mret ()
          else emit (NCalendarOperationOutcome (lo_plan_id op) (lo_operation_id op) r)
      end
  end.

Definition worker_failure (e : str) : OperationResult :=
  RRemoteFailure (mkRemoteFailure e None false).

Definition run_one (op : LeasedOp) : M unit :=
  match lo_kind op with
  | Some MailPlan => run_one_mail op
  | Some CalendarPlan => run_one_calendar op
  | None => persist_and_emit op TFailed (worker_failure (journal_corrupt ++ lo_raw_kind op))
  end.

(** ** A pass over the plans *)

(** [let _ = ..] of a result. *)
Definition ignore (m : M unit) : M unit := attempt m;; mret ().

(** One turn of the loop, once an operation is leased. *)
Definition run_leased (op : LeasedOp) : M unit :=
  r ← attempt (run_one op);
  match r with
  | inr _ => mret ()
  | inl e => ignore (persist_and_emit op TFailed (worker_failure e))
  end;;
  ignore (maybe_finalize (lo_plan_id op) (lo_kind op)).

Fixpoint drain_ops (fuel : nat) (owner : N) : M unit :=
  match fuel with
  | O => died
  | S fuel =>
      leased ← attempt (lease_next_ready_op owner LEASE_DURATION_MS);
      match leased with
      | inl _ | inr None => mret ()
      | inr (Some op) => run_leased op;; drain_ops fuel owner
      end
  end.

(** Every turn takes a pending operation, so those there are and those still to
    come bound the turns. *)
Definition pending_count (t : tables) : nat :=
  size (filter (λ e : op_key * Op, op_status e.2 = OpPending) (ops t)).

Definition arriving_ops (a : arrival) : nat :=
  match a with PlanArrives _ _ _ _ os => length os | QuietJobArrives _ _ _ _ => 0 end.

Definition coming_ops (ts : list tick) : nat :=
  sum_list_with (λ t, sum_list_with arriving_ops (arrivals t)) ts.

Definition work (w : world) : nat := pending_count (db w) + coming_ops (schedule w).

Definition finalize_stranded : M unit :=
  r ← attempt unfinalized_per_op_plan_jobs;
  for_each (λ e : PlanId * option PerOpJobKind, ignore (maybe_finalize e.1 e.2))
           (match r with inl _ => [] | inr l => l end).

Definition drain_one_pass (owner : N) : M unit :=
  finalize_stranded;;
  w ← get_world;
  drain_ops (S (work w)) owner.

(** ** Replay at the start *)

Definition replay_one (op : ReplayableOp) : M unit :=
  if ro_quiet op then mret ()
  else
    match ro_kind op with
    | Some MailPlan =>
        match result_from_slice (ro_outcome_blob op) with
        | inl _ => mret ()
        | inr r => emit (NOperationOutcome (ro_plan_id op) (ro_operation_id op) r)
        end
    | Some CalendarPlan =>
        match cal_result_from_slice (ro_outcome_blob op) with
        | inl _ => mret ()
        | inr r => emit (NCalendarOperationOutcome (ro_plan_id op) (ro_operation_id op) r)
        end
    | None => mret ()
    end.

Definition replay_unemitted : M unit :=
  r ← attempt unemitted_terminal_ops;
  match r with inl _ => mret () | inr l => for_each replay_one l end.

(** ** Quiet jobs *)

Definition finalize_failed (p : PlanId) (s : PlanSummary) : M unit :=
  ignore (finalize_job p TJobFailed (summary_to_vec s)).

Definition empty_summary : PlanSummary := mkPlanSummary 0 0 0 0 0.

Definition run_mark_chat_read (job : LeasedQuietJob) : M unit :=
  match chat_read_from_slice (lq_payload job) with
  | inl e => fail e
  | inr payload =>
      let n := N.min u32_max (N.of_nat (length (affected payload))) in
      (if is_nil (affected payload) then mret () else dispatch (lq_job_id job, 0%N) (λ _, ()));;
      let summary := mkPlanSummary n 0 n 0 0 in
      finalize_job (lq_job_id job) TCompleted (summary_to_vec summary);;
      emit (NActionCompleted (lq_job_id job) summary)
  end.

Definition queued_jobs (k : str) (w : world) : nat :=
  size (filter (λ e : PlanId * Job, kind e.2 = k ∧ status e.2 = Queued) (jobs (db w))) +
  sum_list_with (λ t, length (arrivals t)) (schedule w).

Fixpoint drain_quiet (fuel : nat) (k : str) (run failed : LeasedQuietJob → M unit) (owner : N) : M unit :=
  match fuel with
  | O => died
  | S fuel =>
      leased ← attempt (lease_next_ready_quiet_job k owner LEASE_DURATION_MS);
      match leased with
      | inl _ | inr None => mret ()
      | inr (Some job) =>
          r ← attempt (run job);
          match r with inr _ => mret () | inl _ => failed job end;;
          drain_quiet fuel k run failed owner
      end
  end.

Definition drain_mark_chat_read_jobs (owner : N) : M unit :=
  w ← get_world;
  drain_quiet (S (queued_jobs kind_mark_chat_read w)) kind_mark_chat_read run_mark_chat_read
    (λ job, finalize_failed (lq_job_id job) empty_summary) owner.

Definition read_error : str := Eval vm_compute in slit "read vault file".

(** [std::fs::read] of the attachments, in order. *)
Fixpoint read_attachments (l : list JournaledAttachment) : M (list SendAttachment) :=
  match l with
  | [] => mret []
  | a :: l =>
      step_or_fail read_error;;
      w ← get_world;
      match vault w !! ja_vault_path a with
      | None => fail read_error
      | Some data =>
          rest ← read_attachments l;
          mret (mkSendAttachment (ja_filename a) (ja_mime a) data (ja_content_id a) :: rest)
      end
  end.

Definition build_send_request (p : JournaledSend) : M SendRequest :=
  atts ← read_attachments (attachments p);
  let m := message p in
  mret (mkSendRequest (draft_id m) (js_account_id p) (from m) (to m) (cc m) (bcc m) (subject m)
          (body_html m) (body_text m) atts (in_reply_to m) (references m) (jm_thread_id m)
          (source_message_id m) (intent m)).

Definition send_outcome (o : ActionOutcome) : JobTerminalStatus * PlanSummary :=
  match o with
  | Success | NoOp => (TCompleted, mkPlanSummary 1 0 1 0 0)
  | Failed _ | LocalOnly _ _ => (TJobFailed, mkPlanSummary 1 0 0 1 0)
  end.

Definition run_send (job : LeasedQuietJob) : M unit :=
  match send_from_slice (lq_payload job) with
  | inl e => fail e
  | inr payload =>
      let scheduled_at :=
        match jm_scheduled_at (message payload) with Some t => Some t | None => js_scheduled_at payload end in
      r ← attempt (build_send_request payload);
      match r with
      | inl e => cleanup_vault_dir (send_id payload);; fail e
      | inr request =>
          outcome ← dispatch (lq_job_id job, 0%N) (λ past,
            match scheduled_at with
            | Some t => send_scheduled past request t
            | None => send_email past request
            end);
          let so := send_outcome outcome in
          finalize_job (lq_job_id job) so.1 (summary_to_vec so.2);;
          cleanup_vault_dir (send_id payload);;
          emit (NActionCompleted (send_id payload) so.2)
      end
  end.

Definition send_failed (job : LeasedQuietJob) : M unit :=
  finalize_failed (lq_job_id job) (mkPlanSummary 1 0 0 1 0);;
  cleanup_vault_dir (lq_job_id job).

Definition drain_send_jobs (owner : N) : M unit :=
  w ← get_world;
  drain_quiet (S (queued_jobs kind_send w)) kind_send run_send send_failed owner.

(** ** The worker *)

(** One turn of the loop of [run], without the snooze and retry queues, which do
    not touch the journal. *)
Definition worker_pass (owner : N) : M unit :=
  drain_one_pass owner;; drain_mark_chat_read_jobs owner;; drain_send_jobs owner.

Fixpoint passes (n : nat) (owner : N) : M unit :=
  match n with
  | O => mret ()
  | S n => worker_pass owner;; passes n owner
  end.

(** The life of a service process: boot recovery, whose failure is a warning,
    the replay, and as many passes as it is woken for. *)
Definition service_run (n : nat) (owner : N) : M unit :=
  attempt recover_stale_leases;;
  replay_unemitted;;
  passes n owner.

(** ** Requests *)

(** [InvalidParams] and [Internal]; the messages here and above leave out the
    values they quote. *)
Inductive ServiceError := InvalidParams (message : str) | Internal (message : str).

Definition no_operations : str := Eval vm_compute in slit "plan has no operations".
Definition crosses_accounts : str := Eval vm_compute in slit "plan crosses accounts".
Definition duplicate_operation : str := Eval vm_compute in slit "duplicate operation_id in plan".

Fixpoint validate_ops (account : str) (seen : list OperationId) (os : list (OperationId * str))
    : option ServiceError :=
  match os with
  | [] => None
  | (n, a) :: os =>
      if decide (a = account) then
        if decide (n ∈ seen) then Some (InvalidParams duplicate_operation)
        else validate_ops account (n :: seen) os
      else Some (InvalidParams crosses_accounts)
  end.

(** The operations of a plan, with their accounts. *)
Definition validate (os : list (OperationId * str)) : option ServiceError :=
  match os with
  | [] => Some (InvalidParams no_operations)
  | (_, a) :: _ => validate_ops a [] os
  end.

Definition validate_plan (plan : ActionWirePlan) : option ServiceError :=
  validate ((λ o, (operation_id o, wo_account_id o)) <$> operations plan).

Definition validate_cal_plan (plan : CalendarActionPlan) : option ServiceError :=
  validate ((λ o, (cal_operation_id o, cal_account_id o)) <$> cal_operations plan).

Definition serialize_ops (plan : ActionWirePlan) : list PlanOpInsert :=
  imap (λ i o, mkOpInsert (operation_id o) (N.of_nat i) (wo_thread_id o) (op_to_vec (wo_operation o)))
       (operations plan).

(** The event an operation is about; [''] for a new one. *)
Definition event_id_for_op (o : WireCalendarOperation) : str :=
  match o with
  | CreateEvent _ _ => []
  | UpdateEvent e _ | DeleteEvent e | RsvpEvent e _ => e
  end.

Definition serialize_cal_ops (plan : CalendarActionPlan) : list PlanOpInsert :=
  imap (λ i o, mkOpInsert (cal_operation_id o) (N.of_nat i) (event_id_for_op (cal_operation o))
                          (cal_op_to_vec (cal_operation o)))
       (cal_operations plan).

Definition too_many_operations : str := Eval vm_compute in slit "plan has more than u32::MAX operations".

(** [serialize_ops] numbers the operations with 32 bits. *)
Definition ordinals_fit (n : nat) : bool := (N.of_nat n <=? u32_max + 1)%N.

(** [action.execute_plan]: the answer is an error or the acknowledgement. *)
Definition handle_execute_plan (plan : ActionWirePlan) : M (ServiceError + PlanId) :=
  match validate_plan plan with
  | Some e => mret (inl e)
  | None =>
      let account := from_option wo_account_id [] (head (operations plan)) in
      if ordinals_fit (length (operations plan)) then
        r ← attempt (insert_mail_plan (plan_id plan) account false (serialize_ops plan));
        mret (match r with inl e => inl (Internal e) | inr _ => inr (plan_id plan) end)
      else mret (inl (Internal too_many_operations))
  end.

Definition handle_execute_cal_plan (plan : CalendarActionPlan) : M (ServiceError + PlanId) :=
  match validate_cal_plan plan with
  | Some e => mret (inl e)
  | None =>
      let account := from_option cal_account_id [] (head (cal_operations plan)) in
      if ordinals_fit (length (cal_operations plan)) then
        r ← attempt (insert_calendar_plan (cal_plan_id plan) account (serialize_cal_ops plan));
        mret (match r with inl e => inl (Internal e) | inr _ => inr (cal_plan_id plan) end)
      else mret (inl (Internal too_many_operations))
  end.

(** [JobStatusResponse] *)
Inductive JobStatusResponse := JobNotFound | Journaled (s : JobStatus) (summary : option bytes).

(** [action.job_status] *)
Definition handle_job_status (p : PlanId) : M (ServiceError + JobStatusResponse) :=
  r ← attempt (query_job_status p);
  mret (match r with
        | inl e => inl (Internal e)
        | inr None => inr JobNotFound
        | inr (Some (s, blob)) => inr (Journaled s blob)
        end).

End worker.
