(* ===== verification/JournalTheory.v ===== *)
(** * The action journal: its invariant

    What other tasks can do to the tables while the worker runs ([grows]), and
    the invariant of the tables ([journal_ok]) with the parts of it that need the
    formats of the outcomes. *)

From S2P Require Import Prelude.
From S2P Require Import Strings.
From S2P Require Import Bytes.
From S2P Require Import ActionTypes.
From S2P Require Import Journal.
From S2P Require Import Worker.

(** ** Kinds *)

Definition per_op_kind (k : str) : Prop := k ≠ kind_send ∧ k ≠ kind_mark_chat_read.

Lemma per_op_as_sql_from_sql k : per_op_from_sql (per_op_as_sql k) = Some k.
Proof. by destruct k. Qed.

Lemma per_op_from_sql_Some s k : per_op_from_sql s = Some k → s = per_op_as_sql k.
Proof. unfold per_op_from_sql. repeat case_decide; by intros [= <-]. Qed.

Lemma per_op_as_sql_kind k : per_op_kind (per_op_as_sql k).
Proof. by destruct k. Qed.

Lemma per_op_from_sql_mail s : per_op_from_sql s = Some MailPlan ↔ s = kind_mail_plan.
Proof. split; [by intros ->%per_op_from_sql_Some|by intros ->]. Qed.

(** ** What a job or an operation that arrives looks like *)

Section theory.
Context `{TableScan, Serde, Providers}.

(** What the handlers put into the journal: plans with operations, and quiet
    jobs; the payload of a send names the send. *)
Definition arrival_ok (a : arrival) : Prop :=
  match a with
  | PlanArrives _ _ _ _ os => os ≠ []
  | QuietJobArrives p k _ blob =>
      (k = kind_send ∨ k = kind_mark_chat_read) ∧
      (k = kind_send → ∀ s, send_from_slice blob = inr s → send_id s = p)
  end.

Definition has_ops (t : tables) (p : PlanId) : Prop := ∃ n o, ops t !! (p, n) = Some o.

(** A job nobody has worked on. *)
Definition fresh_job (t : tables) (p : PlanId) (j : Job) : Prop :=
  status j = Queued ∧ kind_check (kind j) = true ∧
  (per_op_kind (kind j) → has_ops t p) ∧
  (kind j = kind_send → ∀ s, send_from_slice (payload j) = inr s → send_id s = p).

(** Other tasks add jobs with their operations; they touch nothing else. *)
Record grows (t t' : tables) : Prop := {
  g_jobs : jobs t ⊆ jobs t';
  g_ops : ops t ⊆ ops t';
  g_new_jobs p j : jobs t' !! p = Some j → jobs t !! p = None → fresh_job t' p j;
  g_new_ops k o : ops t' !! k = Some o → ops t !! k = None →
    op_status o = OpPending ∧ outcome o = None ∧
    jobs t !! k.1 = None ∧ ∃ j, jobs t' !! k.1 = Some j ∧ per_op_kind (kind j)
}.

Lemma grows_refl t : grows t t.
Proof. constructor; [done|done|..]; intros; by simplify_eq. Qed.

Lemma grows_trans t1 t2 t3 : grows t1 t2 → grows t2 t3 → grows t1 t3.
Proof.
  intros [J1 O1 N1 P1] [J2 O2 N2 P2]. constructor.
  - by etrans.
  - by etrans.
  - intros p j E3 E1. destruct (jobs t2 !! p) as [j2|] eqn:E2; [|by apply N2].
    rewrite (lookup_weaken _ _ _ _ E2 J2) in E3. injection E3 as <-.
    destruct (N1 p j2 E2 E1) as (Hs & Hc & Ho & Hp). split_and!; [done..| |done].
    intros Hk. destruct (Ho Hk) as (n & o & E). exists n, o. by eapply lookup_weaken.
  - intros k o E3 E1. destruct (ops t2 !! k) as [o2|] eqn:E2.
    + rewrite (lookup_weaken _ _ _ _ E2 O2) in E3. injection E3 as <-.
      destruct (P1 k o2 E2 E1) as (Hs & Ho & Hn & j & Ej & Hj). split_and!; [done..|].
      exists j. split; [by eapply lookup_weaken|done].
    + destruct (P2 k o E3 E2) as (Hs & Ho & Hn & Hj). split_and!; [done..| |done].
      eapply lookup_weaken_None; [exact Hn|exact J1].
Qed.

(** *** Inserting is growing *)

Lemma insert_op_spec p o t t' :
  insert_op p t o = Some t' →
  jobs t' = jobs t ∧ ops t !! (p, ins_operation_id o) = None ∧
  ops t' = <[(p, ins_operation_id o) :=
    mkOp (ins_ordinal o) (ins_thread_id o) (ins_operation_blob o) OpPending None None None]> (ops t).
Proof.
  unfold insert_op. destruct (ops t !! _) eqn:E; [done|]. destruct (ordinal_taken _ _ _); [done|].
  by intros [= <-].
Qed.

Lemma insert_ops_spec p os t t' :
  insert_ops p os t = Some t' →
  jobs t' = jobs t ∧ ops t ⊆ ops t' ∧
  (∀ k o, ops t' !! k = Some o → ops t !! k = None →
     k.1 = p ∧ op_status o = OpPending ∧ outcome o = None) ∧
  (os ≠ [] → has_ops t' p) ∧ size (ops t') = size (ops t) + length os.
Proof.
  revert t. induction os as [|o os IH]; intros t; cbn [insert_ops].
  - intros [= <-]. split_and!; [done..| |done|simpl; lia]. intros k o E1 E2. by rewrite E1 in E2.
  - destruct (insert_op p t o) as [t1|] eqn:E1; [|done]. cbn [mbind option_bind]. intros E2.
    apply insert_op_spec in E1 as (J1 & F1 & O1). destruct (IH t1 E2) as (J2 & S2 & N2 & H2 & C2).
    assert (ops t ⊆ ops t1) as S1 by (rewrite O1; by apply insert_subseteq).
    split_and!.
    + by rewrite J2.
    + by etrans.
    + intros k x Ex En. destruct (ops t1 !! k) as [y|] eqn:Ey; [|by apply (N2 k x)].
      rewrite (lookup_weaken _ _ _ _ Ey S2) in Ex. injection Ex as <-.
      rewrite O1 in Ey. destruct (decide (k = (p, ins_operation_id o))) as [->|Hne].
      * rewrite lookup_insert_eq in Ey. by injection Ey as <-.
      * rewrite lookup_insert_ne in Ey by done. by rewrite Ey in En.
    + intros _. eexists _, _. eapply lookup_weaken; [|exact S2]. rewrite O1. apply lookup_insert_eq.
    + rewrite C2, O1, map_size_insert_None by done. cbn [length]. lia.
Qed.

Lemma insert_job_spec p j t t' :
  insert_job p j t = Some t' →
  jobs t !! p = None ∧ kind_check (kind j) = true ∧ t' = Tables (<[p := j]> (jobs t)) (ops t).
Proof.
  unfold insert_job. destruct (jobs t !! p) eqn:E; [done|]. destruct (kind_check (kind j)); [|done].
  by intros [= <-].
Qed.

(** Operations belong to jobs: the foreign key of the schema. *)
Definition owned (t : tables) : Prop := ∀ k o, ops t !! k = Some o → is_Some (jobs t !! k.1).

Lemma insert_plan_grows k p account q os now t t' :
  owned t → os ≠ [] → insert_plan_rows k p account q os now t = Some t' → grows t t'.
Proof.
  intros Hown Hos. unfold insert_plan_rows. destruct (insert_job p _ t) as [t1|] eqn:E1; [|done].
  cbn [mbind option_bind]. intros E2. apply insert_job_spec in E1 as (F1 & Hc & ->).
  destruct (insert_ops_spec _ _ _ _ E2) as (J2 & S2 & N2 & H2 & _). simpl in J2, S2, N2.
  constructor.
  - rewrite J2. by apply insert_subseteq.
  - exact S2.
  - intros p' j' E' F'. rewrite J2 in E'. destruct (decide (p' = p)) as [->|Hne].
    + rewrite lookup_insert_eq in E'. injection E' as <-. split_and!; [done|done|by intros _; apply H2|].
      intros Hk. by destruct k.
    + rewrite lookup_insert_ne in E' by done. by rewrite E' in F'.
  - intros k' o' E' F'. destruct (N2 k' o' E' F') as (-> & ? & ?). split_and!; [done..|].
    rewrite J2, lookup_insert_eq. eexists. split; [done|apply per_op_as_sql_kind].
Qed.

Lemma insert_quiet_grows p k account blob now t t' :
  arrival_ok (QuietJobArrives p k account blob) →
  insert_quiet_rows p k account blob now t = Some t' → grows t t'.
Proof.
  intros [Hk Hs] E. unfold insert_quiet_rows in E. apply insert_job_spec in E as (F & Hc & ->).
  constructor; simpl.
  - by apply insert_subseteq.
  - done.
  - intros p' j' E' F'. destruct (decide (p' = p)) as [->|Hne].
    + rewrite lookup_insert_eq in E'. injection E' as <-. split_and!; [done|done| |done].
      simpl. intros [K1 K2]. destruct Hk; by subst.
    + rewrite lookup_insert_ne in E' by done. by rewrite E' in F'.
  - intros k' o' E' F'. by rewrite E' in F'.
Qed.

Lemma arrive_grows now t a : owned t → arrival_ok a → grows t (arrive now t a).
Proof.
  intros Hown Ha. unfold arrive.
  destruct a as [k p account q os|p k account blob]; simpl.
  - destruct (insert_plan_rows _ _ _ _ _ _ _) as [t'|] eqn:E; [|apply grows_refl].
    by eapply insert_plan_grows.
  - destruct (insert_quiet_rows _ _ _ _ _ _) as [t'|] eqn:E; [|apply grows_refl].
    by eapply insert_quiet_grows.
Qed.

Lemma owned_grows t t' : owned t → grows t t' → owned t'.
Proof.
  intros Hown Hg k o E. destruct (ops t !! k) as [o'|] eqn:F.
  - destruct (Hown k o' F) as [j Ej]. exists j. eapply lookup_weaken; [exact Ej|apply Hg].
  - destruct (g_new_ops _ _ Hg k o E F) as (_ & _ & _ & j & Ej & _). by exists j.
Qed.

Lemma arrivals_grow now t l :
  owned t → Forall arrival_ok l → grows t (foldl (arrive now) t l).
Proof.
  intros Hown Hl. revert t Hown. induction Hl as [|a l Ha _ IH]; intros t Hown; [apply grows_refl|].
  cbn [foldl]. pose proof (arrive_grows now t a Hown Ha) as Hg.
  eapply grows_trans; [exact Hg|]. apply IH. by eapply owned_grows.
Qed.

(** *** Rows of known jobs *)

Lemma grows_job t t' p j : grows t t' → jobs t !! p = Some j → jobs t' !! p = Some j.
Proof. intros Hg E. eapply lookup_weaken; [exact E|apply Hg]. Qed.

Lemma grows_op t t' k o : grows t t' → ops t !! k = Some o → ops t' !! k = Some o.
Proof. intros Hg E. eapply lookup_weaken; [exact E|apply Hg]. Qed.

(** An operation of a job that was there was there. *)
Lemma grows_op_back t t' k o j :
  grows t t' → jobs t !! k.1 = Some j → ops t' !! k = Some o → ops t !! k = Some o.
Proof.
  intros Hg Ej Eo. destruct (ops t !! k) as [o'|] eqn:F.
  - by rewrite (grows_op _ _ _ _ Hg F) in Eo.
  - destruct (g_new_ops _ _ Hg k o Eo F) as (_ & _ & Hn & _). by rewrite Hn in Ej.
Qed.

Lemma grows_job_back t t' p j :
  grows t t' → jobs t' !! p = Some j → jobs t !! p = Some j ∨ jobs t !! p = None ∧ fresh_job t' p j.
Proof.
  intros Hg E. destruct (jobs t !! p) as [j'|] eqn:F.
  - left. by rewrite (grows_job _ _ _ _ Hg F) in E.
  - right. split; [done|by apply (g_new_jobs _ _ Hg)].
Qed.

(** ** The invariant of the tables *)

(** The status a result is stored with. *)
Definition result_status (r : OperationResult) : OpTerminalStatus :=
  match r with
  | RSuccess | RLocalOnly => TDone
  | RRemoteFailure _ => TFailed
  | RConflictRejected _ => TConflict
  end.

Lemma action_outcome_to_wire_status o :
  (action_outcome_to_wire o).1 = result_status (action_outcome_to_wire o).2.
Proof. by destruct o as [| | |[]]. Qed.

Definition closed (o : Op) : Prop := op_open (op_status o) = false.

Record journal_ok (t : tables) : Prop := {
  jo_owned : owned t;
  jo_outcome k o : ops t !! k = Some o → outcome o = None ↔ op_open (op_status o) = true;
  jo_finished k o j : ops t !! k = Some o → jobs t !! k.1 = Some j →
    job_active (status j) = false → closed o;
  jo_quiet k o j : ops t !! k = Some o → jobs t !! k.1 = Some j → per_op_kind (kind j);
  jo_mail k o j : ops t !! k = Some o → jobs t !! k.1 = Some j → kind j = kind_mail_plan → closed o →
    ∃ r, outcome o = Some (result_to_vec r) ∧ op_status o = op_terminal (result_status r);
  jo_send p j : jobs t !! p = Some j → kind j = kind_send →
    ∀ s, send_from_slice (payload j) = inr s → send_id s = p
}.

Lemma journal_ok_grows t t' : journal_ok t → grows t t' → journal_ok t'.
Proof.
  intros [A1 A2 A3 A4 A5 A6] Hg.
  assert (∀ k o j, ops t' !! k = Some o → jobs t' !! k.1 = Some j →
    (ops t !! k = Some o ∧ jobs t !! k.1 = Some j) ∨
    (op_status o = OpPending ∧ outcome o = None ∧ status j = Queued ∧ per_op_kind (kind j))) as Hcase.
  { intros k o j Eo Ej. destruct (ops t !! k) as [o'|] eqn:Fo.
    - left. rewrite (grows_op _ _ _ _ Hg Fo) in Eo. injection Eo as <-. split; [done|].
      destruct (A1 k o' Fo) as [j' Ej']. by rewrite (grows_job _ _ _ _ Hg Ej') in Ej; simplify_eq.
    - right. destruct (g_new_ops _ _ Hg k o Eo Fo) as (Hs & Ho & Hn & j' & Ej' & Hk). simplify_eq.
      destruct (g_new_jobs _ _ Hg _ _ Ej Hn) as (Hq & _). done. }
  constructor.
  - by eapply owned_grows.
  - intros k o Eo. destruct (owned_grows _ _ A1 Hg k o Eo) as [j Ej].
    destruct (Hcase k o j Eo Ej) as [[Fo _]|(Hs & Ho & _)]; [by apply (A2 k)|]. by rewrite Hs.
  - intros k o j Eo Ej Ha. destruct (Hcase k o j Eo Ej) as [[Fo Fj]|(_ & _ & Hs & _)]; [by eapply A3|].
    by rewrite Hs in Ha.
  - intros k o j Eo Ej. destruct (Hcase k o j Eo Ej) as [[Fo Fj]|(_ & _ & _ & Hk)]; [by eapply A4|done].
  - intros k o j Eo Ej Hk Hc. destruct (Hcase k o j Eo Ej) as [[Fo Fj]|(Hs & _)]; [by eapply A5|].
    unfold closed in Hc. by rewrite Hs in Hc.
  - intros p j Ej Hk. destruct (grows_job_back _ _ _ _ Hg Ej) as [Fj|[_ Hf]]; [by apply A6|].
    by apply Hf.
Qed.

End theory.
