(* ===== verification/WorkerTheory.v ===== *)
(** * The action worker: a program logic

    The assertions about a running worker and the rules for its steps.  [inv]
    holds at every instant, so also where a process dies; [safe] says what a step
    ends with, given that statements do not fail and, unless [mortal], that the
    process does not die. *)

From S2P Require Import Prelude.
From S2P Require Import Strings.
From S2P Require Import Bytes.
From S2P Require Import ActionTypes.
From S2P Require Import Journal.
From S2P Require Import Worker.
From S2P Require Import JournalTheory.

Section logic.
Context `{TableScan, Serde, Providers}.

(** ** Bounds on the work ahead *)

Lemma pending_insert_ops p os t t' :
  insert_ops p os t = Some t' → pending_count t' ≤ pending_count t + length os.
Proof.
  revert t. induction os as [|o os IH]; intros t; cbn [insert_ops]; [intros [= <-]; lia|].
  destruct (insert_op p t o) as [t1|] eqn:E1; [|done]. cbn [mbind option_bind]. intros E2.
  apply insert_op_spec in E1 as (J1 & F1 & O1). apply IH in E2. cbn [length].
  assert (pending_count t1 ≤ S (pending_count t)) as Hp; [|lia].
  unfold pending_count. rewrite O1, map_filter_insert_True by done. rewrite map_size_insert. case_match; simpl; lia.
Qed.

Lemma pending_arrive now t a : pending_count (arrive now t a) ≤ pending_count t + arriving_ops a.
Proof.
  unfold arrive. destruct a as [k p account q os|p k account blob]; simpl.
  - unfold insert_plan_rows. destruct (insert_job _ _ t) as [t1|] eqn:E1; cbn [mbind option_bind from_option id]; [|lia].
    apply insert_job_spec in E1 as (_ & _ & ->).
    destruct (insert_ops _ _ _) as [t2|] eqn:E2; cbn [from_option id]; [|lia].
    by apply pending_insert_ops in E2.
  - unfold insert_quiet_rows. destruct (insert_job _ _ t) as [t1|] eqn:E1; cbn [from_option id]; [|lia].
    apply insert_job_spec in E1 as (_ & _ & ->). unfold pending_count. simpl. lia.
Qed.

Lemma pending_arrivals now t l :
  pending_count (foldl (arrive now) t l) ≤ pending_count t + sum_list_with arriving_ops l.
Proof.
  revert t. induction l as [|a l IH]; intros t; cbn [foldl sum_list_with]; [lia|].
  etrans; [apply IH|]. pose proof (pending_arrive now t a). lia.
Qed.

Definition queued_count (k : str) (t : tables) : nat :=
  size (filter (λ e : PlanId * Job, kind e.2 = k ∧ status e.2 = Queued) (jobs t)).

Lemma queued_insert k p j t t' : insert_job p j t = Some t' → queued_count k t' ≤ S (queued_count k t).
Proof.
  intros (Fp & _ & ->)%insert_job_spec. unfold queued_count. simpl.
  destruct (decide (kind j = k ∧ status j = Queued)).
  - rewrite map_filter_insert_True by done. rewrite map_size_insert. case_match; simpl; lia.
  - rewrite map_filter_insert_False by done. rewrite delete_id by done. lia.
Qed.

Lemma queued_arrive k now t a : queued_count k (arrive now t a) ≤ S (queued_count k t).
Proof.
  unfold arrive. destruct a as [k' p account q os|p k' account blob]; simpl.
  - unfold insert_plan_rows. destruct (insert_job _ _ t) as [t1|] eqn:E1; cbn [mbind option_bind from_option id]; [|lia].
    apply (queued_insert k) in E1.
    destruct (insert_ops _ _ _) as [t2|] eqn:E2; cbn [from_option id]; [|lia].
    apply insert_ops_spec in E2 as (J2 & _). unfold queued_count in *. by rewrite J2.
  - unfold insert_quiet_rows. destruct (insert_job _ _ t) as [t1|] eqn:E1; cbn [from_option id]; [|lia].
    by apply (queued_insert k) in E1.
Qed.

Lemma queued_arrivals k now t l : queued_count k (foldl (arrive now) t l) ≤ queued_count k t + length l.
Proof.
  revert t. induction l as [|a l IH]; intros t; cbn [foldl length]; [lia|].
  etrans; [apply IH|]. pose proof (queued_arrive k now t a). lia.
Qed.

(** ** What happens between the steps of the worker *)

Definition sched_ok (mortal : bool) (ts : list tick) : Prop :=
  Forall (λ t, Forall arrival_ok (arrivals t) ∧ (fate t = Healthy ∨ fate t = Death ∧ mortal = true)) ts.

(** Other tasks have had their turn. *)
Record later (w w1 : world) : Prop := {
  lt_db : grows (db w) (db w1);
  lt_sent : sent w1 = sent w;
  lt_executed : executed w1 = executed w;
  lt_vault : vault w1 = vault w;
  lt_schedule : ∃ past, schedule w = past ++ schedule w1;
  lt_work : work w1 ≤ work w;
  lt_queued k : queued_jobs k w1 ≤ queued_jobs k w
}.

Lemma later_refl w : later w w.
Proof. constructor; try done; [apply grows_refl|by exists []]. Qed.

Lemma sched_ok_app m ts us : sched_ok m (ts ++ us) → sched_ok m us.
Proof. intros Hs. by apply Forall_app in Hs as [_ ?]. Qed.

Lemma next_tick_later m w :
  owned (db w) → sched_ok m (schedule w) →
  ∃ v w1, next_tick w = (Ok v, w1) ∧ later w w1 ∧ (v = Healthy ∨ v = Death ∧ m = true).
Proof.
  intros Hown Hs. unfold next_tick. destruct (schedule w) as [|t rest] eqn:E.
  - exists Healthy, w. split_and!; [done|apply later_refl|by left].
  - apply Forall_cons in Hs as [[Ha Hv] _]. eexists _, _. split; [done|]. split; [|done].
    constructor; simpl; try done.
    + by apply arrivals_grow.
    + by exists [t].
    + unfold work. simpl. rewrite E. cbn [coming_ops sum_list_with].
      pose proof (pending_arrivals (time t / 1000) (db w) (arrivals t)). unfold coming_ops. lia.
    + intros k. unfold queued_jobs. simpl. rewrite E. cbn [sum_list_with].
      pose proof (queued_arrivals k (time t / 1000) (db w) (arrivals t)) as Hq. unfold queued_count in Hq. lia.
Qed.

(** ** Assertions *)

Implicit Types (t : tables) (l : list Notification) (k : op_key) (p : PlanId) (w : world).

(** The app has been told the outcome of an operation. *)
Definition reported l k (o : Op) : Prop :=
  ∃ r, outcome o = Some (result_to_vec r) ∧ NOperationOutcome k.1 k.2 r ∈ l.

(** An operation whose outcome the app is to be told. *)
Record visible t k (o : Op) (j : Job) : Prop := {
  v_op : ops t !! k = Some o;
  v_job : jobs t !! k.1 = Some j;
  v_kind : kind j = kind_mail_plan;
  v_quiet : quiet j = false
}.

(** Finished operations are reported. *)
Definition rep t l : Prop := ∀ k o j, visible t k o j → closed o → reported l k o.

(** Operations of finished jobs are reported. *)
Definition hist t l : Prop := ∀ k o j, visible t k o j → job_active (status j) = false → reported l k o.

Definition plan_ops t p : gmap op_key Op := filter (λ e : op_key * Op, e.1.1 = p) (ops t).

Definition with_result (r : OperationResult) (m : gmap op_key Op) : nat :=
  size (filter (λ e : op_key * Op, outcome e.2 = Some (result_to_vec r)) m).
Definition with_status (s : OpStatus) (m : gmap op_key Op) : nat :=
  size (filter (λ e : op_key * Op, op_status e.2 = s) m).

(** A summary counts the results of a plan. *)
Record summary_ok (m : gmap op_key Op) (s : PlanSummary) : Prop := {
  so_total : total s = N.of_nat (size m);
  so_local : local_only s = N.min u32_max (N.of_nat (with_result RLocalOnly m));
  so_succeeded : (remote_succeeded s = N.of_nat (with_status OpDone m) - local_only s)%N;
  so_failed : remote_failed s = N.of_nat (with_status OpFailed m);
  so_conflicts : conflicts s = N.of_nat (with_status OpConflict m)
}.

(** What a job says at its end. *)
Definition status_of_counts (m : gmap op_key Op) : JobStatus :=
  if decide (with_status OpDone m = size m) then Completed
  else if decide (with_status OpDone m = 0) then JobFailed
  else Partial.

(** The completion of a plan comes once, after the outcomes of its operations,
    when the journal has its summary. *)
Definition complete_ok t l : Prop :=
  ∀ pre p s post, l = pre ++ NActionCompleted p s :: post →
    ∃ j, jobs t !! p = Some j ∧
      (kind j = kind_mail_plan →
         status j = status_of_counts (plan_ops t p) ∧ summary j = Some (summary_to_vec s) ∧
         summary_ok (plan_ops t p) s ∧
         (∀ s', NActionCompleted p s' ∉ pre) ∧
         (quiet j = false → ∀ n o, ops t !! (p, n) = Some o → reported pre (p, n) o)).

(** What the app is told of an operation is what the journal has. *)
Definition truthful t l : Prop :=
  ∀ p n r, NOperationOutcome p n r ∈ l → ∃ o, ops t !! (p, n) = Some o ∧ outcome o = Some (result_to_vec r).

(** Outcomes are journaled for operations that were executed. *)
Definition ran t (ex : list op_key) : Prop :=
  ∀ k o j op, ops t !! k = Some o → jobs t !! k.1 = Some j → kind j = kind_mail_plan → closed o →
    op_from_slice (operation o) = inr op → k ∈ ex.

(** Not to be leased before the next start. *)
Definition spent t k : Prop :=
  (∃ o, ops t !! k = Some o ∧ op_status o ≠ OpPending) ∨
  (∃ j, jobs t !! k.1 = Some j ∧ ¬ per_op_kind (kind j) ∧ status j ≠ Queued).

(** Since the start of the process nothing was executed twice. *)
Definition once (e0 : list op_key) t (ex : list op_key) : Prop :=
  ∃ new, ex = e0 ++ new ∧ NoDup new ∧ ∀ k, k ∈ new → spent t k.

(** What holds at every instant of a process that started with [e0] executed. *)
Record inv (mortal : bool) (e0 : list op_key) w : Prop := {
  in_sched : sched_ok mortal (schedule w);
  in_journal : journal_ok (db w);
  in_hist : hist (db w) (sent w);
  in_complete : complete_ok (db w) (sent w);
  in_truthful : truthful (db w) (sent w);
  in_ran : ran (db w) (executed w);
  in_once : once e0 (db w) (executed w)
}.

(** ** The assertions outlast other tasks *)

Lemma visible_back t t' k o j :
  journal_ok t → grows t t' → visible t' k o j →
  visible t k o j ∨ op_status o = OpPending ∧ status j = Queued.
Proof.
  intros Hok Hg [Eo Ej Hk Hq]. destruct (ops t !! k) as [o'|] eqn:Fo.
  - left. rewrite (grows_op _ _ _ _ Hg Fo) in Eo. injection Eo as <-.
    destruct (jo_owned _ Hok k o' Fo) as [j' Ej'].
    rewrite (grows_job _ _ _ _ Hg Ej') in Ej. injection Ej as <-. by constructor.
  - right. destruct (g_new_ops _ _ Hg k o Eo Fo) as (Hs & _ & Hn & _).
    split; [done|]. by destruct (g_new_jobs _ _ Hg _ _ Ej Hn) as (? & _).
Qed.

Lemma rep_grows t t' l : journal_ok t → grows t t' → rep t l → rep t' l.
Proof.
  intros Hok Hg Hr k o j Hv Hc. destruct (visible_back _ _ _ _ _ Hok Hg Hv) as [Hv'|[Hs _]]; [by eapply Hr|].
  unfold closed in Hc. by rewrite Hs in Hc.
Qed.

Lemma hist_grows t t' l : journal_ok t → grows t t' → hist t l → hist t' l.
Proof.
  intros Hok Hg Hr k o j Hv Hc. destruct (visible_back _ _ _ _ _ Hok Hg Hv) as [Hv'|[_ Hs]]; [by eapply Hr|].
  by rewrite Hs in Hc.
Qed.

Lemma lookup_plan_ops t p k o : plan_ops t p !! k = Some o ↔ ops t !! k = Some o ∧ k.1 = p.
Proof. unfold plan_ops. by rewrite map_lookup_filter_Some. Qed.

Lemma plan_ops_same t t' p :
  (∀ n o, ops t !! (p, n) = Some o ↔ ops t' !! (p, n) = Some o) → plan_ops t p = plan_ops t' p.
Proof.
  intros Hs. apply map_eq. intros [p' n]. apply option_eq. intros o. rewrite !lookup_plan_ops. cbn [fst].
  split; intros [E ->]; (split; [|done]); by apply Hs.
Qed.

Lemma plan_ops_grows t t' p j : grows t t' → jobs t !! p = Some j → plan_ops t p = plan_ops t' p.
Proof.
  intros Hg Ej. apply plan_ops_same. intros n o. split; [by apply grows_op|].
  by apply (grows_op_back _ _ (p, n) o j Hg).
Qed.

Lemma complete_ok_grows t t' l : grows t t' → complete_ok t l → complete_ok t' l.
Proof.
  intros Hg Hc pre p s post El. destruct (Hc pre p s post El) as (j & Ej & Hj). exists j.
  split; [by eapply grows_job|]. intros Hk. destruct (Hj Hk) as (H1' & H2' & H3' & H4' & H5').
  rewrite <- (plan_ops_grows _ _ _ _ Hg Ej). split_and!; [done..|]. intros Hq n o Eo.
  apply (H5' Hq). by apply (grows_op_back _ _ (p, n) o j Hg).
Qed.

Lemma truthful_grows t t' l : grows t t' → truthful t l → truthful t' l.
Proof.
  intros Hg Ht p n r Hin. destruct (Ht p n r Hin) as (o & Eo & Ho). exists o. split; [by eapply grows_op|done].
Qed.

Lemma ran_grows t t' ex : journal_ok t → grows t t' → ran t ex → ran t' ex.
Proof.
  intros Hok Hg Hr k o j op Eo Ej Hk Hc. destruct (ops t !! k) as [o'|] eqn:Fo.
  - rewrite (grows_op _ _ _ _ Hg Fo) in Eo. injection Eo as <-.
    destruct (jo_owned _ Hok k o' Fo) as [j' Ej'].
    rewrite (grows_job _ _ _ _ Hg Ej') in Ej. injection Ej as <-. by eapply Hr.
  - destruct (g_new_ops _ _ Hg k o Eo Fo) as (Hs & _). unfold closed in Hc. by rewrite Hs in Hc.
Qed.

Lemma spent_grows t t' k : grows t t' → spent t k → spent t' k.
Proof.
  intros Hg [(o & Eo & Hs)|(j & Ej & Hk & Hs)].
  - left. exists o. split; [by eapply grows_op|done].
  - right. exists j. split_and!; [by eapply grows_job|done..].
Qed.

Lemma inv_later m e0 w w1 : inv m e0 w → later w w1 → inv m e0 w1.
Proof.
  intros [A1 A2 A3 A4 At A5 A6] [B1 B2 B3 B4 (past & B5) B6 B7]. constructor; rewrite ?B2, ?B3.
  - rewrite B5 in A1. by apply sched_ok_app in A1.
  - by eapply journal_ok_grows.
  - by eapply hist_grows.
  - by eapply complete_ok_grows.
  - by eapply truthful_grows.
  - by eapply ran_grows.
  - destruct A6 as (new & E & Hnd & Hs). exists new. split_and!; [done..|].
    intros k Hk. eapply spent_grows; [exact B1|by apply Hs].
Qed.

(** ** Rules *)

Context (mortal : bool) (e0 : list op_key).

(** From a state with [P], the step keeps [inv], and ends with [Q], with an error
    and [E], or with the death of a mortal process. *)
Definition safe {A} (m : M A) (P : world → Prop) (Q : A → world → Prop) (E : world → Prop) : Prop :=
  ∀ w, inv mortal e0 w → P w →
    match m w with
    | (Ok a, w') => inv mortal e0 w' ∧ Q a w'
    | (Err _, w') => inv mortal e0 w' ∧ E w'
    | (Died, w') => inv mortal e0 w' ∧ mortal = true
    end.

Definition never (w : world) : Prop := False.

Lemma safe_ret {A} (a : A) P Q E : (∀ w, inv mortal e0 w → P w → Q a w) → safe (mret a) P Q E.
Proof. intros HQ w Hi HP. split; [done|by apply HQ]. Qed.

Lemma safe_fail {A} e (P : world → Prop) (Q : A → world → Prop) (E : world → Prop) :
  (∀ w, inv mortal e0 w → P w → E w) → safe (fail e) P Q E.
Proof. intros HE w Hi HP. split; [done|by apply HE]. Qed.

Lemma safe_bind {A B} (m : M A) (f : A → M B) P R Q E :
  safe m P R E → (∀ a, safe (f a) (R a) Q E) → safe (m ≫= f) P Q E.
Proof.
  intros Hm Hf w Hi HP. specialize (Hm w Hi HP). unfold mbind, M_bind.
  destruct (m w) as [[a|e|] w1]; [|done..]. destruct Hm as [Hi1 HR]. by apply Hf.
Qed.

Lemma safe_weaken {A} (m : M A) (P P' : world → Prop) (Q Q' : A → world → Prop) (E E' : world → Prop) :
  safe m P' Q' E' → (∀ w, inv mortal e0 w → P w → P' w) →
  (∀ a w, inv mortal e0 w → Q' a w → Q a w) → (∀ w, inv mortal e0 w → E' w → E w) → safe m P Q E.
Proof.
  intros Hm HP HQ HE w Hi Hw. specialize (Hm w Hi (HP w Hi Hw)).
  destruct (m w) as [[a|e|] w1]; destruct Hm; auto.
Qed.

Lemma safe_attempt {A} (m : M A) P Q E :
  safe m P Q E → safe (attempt m) P (λ r w, match r with inr a => Q a w | inl _ => E w end) never.
Proof.
  intros Hm w Hi HP. specialize (Hm w Hi HP). unfold attempt. by destruct (m w) as [[a|e|] w1].
Qed.

Lemma safe_ignore m P Q : safe m P (λ _, Q) Q → safe (ignore m) P (λ _, Q) never.
Proof.
  intros Hm. unfold ignore. eapply safe_bind; [by apply safe_attempt|].
  intros r. apply safe_ret. intros w _. by destruct r.
Qed.

(** A precondition that does not depend on the state. *)
Lemma safe_pure {A} (m : M A) (φ : Prop) P Q E :
  (φ → safe m P Q E) → safe m (λ w, φ ∧ P w) Q E.
Proof. intros Hm w Hi [Hφ HP]. by apply Hm. Qed.

Lemma safe_get P : safe get_world P (λ a w, a = w ∧ P w) never.
Proof. intros w Hi HP. done. Qed.

Definition stable (P : world → Prop) : Prop :=
  ∀ w w1, inv mortal e0 w → later w w1 → P w → P w1.

Lemma safe_tick P : stable P → safe next_tick P (λ v w, v ≠ Broken ∧ (v = Death → mortal = true) ∧ P w) never.
Proof.
  intros Hst w Hi HP.
  destruct (next_tick_later mortal w) as (v & w1 & E & Hl & Hv); [apply Hi..|]. rewrite E.
  split; [by eapply inv_later|]. split_and!.
  - by destruct Hv as [->|[-> _]].
  - intros ->. by destruct Hv as [|[_ ?]].
  - by eapply Hst.
Qed.

Lemma safe_alive P : stable P → safe alive P (λ _, P) never.
Proof.
  intros Hst. unfold alive. eapply safe_bind; [by apply safe_tick|].
  intros v. apply safe_pure. intros _. apply safe_pure. intros Hd.
  destruct v; try (by apply safe_ret). intros w Hi HP. split; [done|by apply Hd].
Qed.

Lemma safe_step e P : stable P → safe (step_or_fail e) P (λ _, P) never.
Proof.
  intros Hst. unfold step_or_fail. eapply safe_bind; [by apply safe_tick|].
  intros v. apply safe_pure. intros Hb. apply safe_pure. intros Hd.
  destruct v; [by apply safe_ret|done|]. intros w Hi HP. split; [done|by apply Hd].
Qed.

Lemma safe_query {A} (f : tables → A) P : stable P → safe (query f) P (λ a w, a = f (db w) ∧ P w) never.
Proof.
  intros Hst. unfold query. eapply safe_bind; [by apply safe_step|]. intros [].
  eapply safe_bind; [apply safe_get|]. intros w0. apply safe_ret. intros w _ [-> HP]. done.
Qed.

Lemma safe_set f P (Q : world → Prop) :
  (∀ w, inv mortal e0 w → P w → inv mortal e0 (f w) ∧ Q (f w)) → safe (set_world f) P (λ _, Q) never.
Proof. intros Hf w Hi HP. by apply Hf. Qed.

Lemma safe_for_each {A} (f : A → M unit) (xs : list A) (P : list A → world → Prop) E :
  (∀ x xs, safe (f x) (P (x :: xs)) (λ _, P xs) E) → safe (for_each f xs) (P xs) (λ _, P []) E.
Proof.
  intros Hf. induction xs as [|x xs IH]; [by apply safe_ret|]. cbn [for_each].
  eapply safe_bind; [apply Hf|]. by intros [].
Qed.

Lemma stable_and P Q : stable P → stable Q → stable (λ w, P w ∧ Q w).
Proof. intros HP HQ w w1 Hi Hl [HPw HQw]. split; [by eapply HP|by eapply HQ]. Qed.

Lemma stable_pure (φ : Prop) : stable (λ _, φ).
Proof. by intros w w1. Qed.

End logic.
