(* ===== verification/WorkerSteps.v ===== *)
(** * The action worker: what its steps do to the journal

    For each change of the tables or of the notifications, that it keeps the
    invariant of every instant; and the counts of a finished plan. *)

From S2P Require Import Prelude.
From S2P Require Import Strings.
From S2P Require Import Bytes.
From S2P Require Import ActionTypes.
From S2P Require Import Journal.
From S2P Require Import Worker.
From S2P Require Import JournalTheory.
From S2P Require Import WorkerTheory.
From stdpp Require Import sorting.

Section steps.
Context `{TableScan, Serde, Providers}.
Context (mortal : bool) (e0 : list op_key).
Implicit Types (t : tables) (l : list Notification) (k : op_key) (p : PlanId) (w : world) (o : Op) (j : Job).

Definition with_db (f : tables → tables) w : world :=
  World (f (db w)) (now w) (schedule w) (sent w) (executed w) (vault w).
Definition with_sent (n : Notification) w : world :=
  World (db w) (now w) (schedule w) (sent w ++ [n]) (executed w) (vault w).
Definition with_executed k w : world :=
  World (db w) (now w) (schedule w) (sent w) (executed w ++ [k]) (vault w).

(** ** Changing one operation *)

Definition set_op (f : Op → Op) k t : tables := Tables (jobs t) (alter f k (ops t)).

Lemma set_op_lookup f k t k' o' :
  ops (set_op f k t) !! k' = Some o' ↔
  (k' = k ∧ ∃ o, ops t !! k = Some o ∧ o' = f o) ∨ (k' ≠ k ∧ ops t !! k' = Some o').
Proof.
  unfold set_op. simpl. destruct (decide (k' = k)) as [->|Hne].
  - rewrite lookup_alter_eq, fmap_Some. split; [by left|]. intros [[_ ?]|[? _]]; done.
  - rewrite lookup_alter_ne by done. split; [by right|]. by intros [[? _]|[_ ?]].
Qed.

Lemma plan_ops_set_op f k t p : k.1 ≠ p → plan_ops (set_op f k t) p = plan_ops t p.
Proof.
  intros Hne. apply plan_ops_same. intros n o. rewrite set_op_lookup. split; [|right; split; [by intros <-|done]].
  intros [[<- _]|[_ ?]]; done.
Qed.

(** A finished job of a completed plan. *)
Lemma status_of_counts_active m : job_active (status_of_counts m) = false.
Proof. unfold status_of_counts. by repeat case_decide. Qed.

(** Nothing is completed before its job is finished. *)
Lemma active_not_completed t l p j s :
  complete_ok t l → jobs t !! p = Some j → kind j = kind_mail_plan → job_active (status j) = true →
  NActionCompleted p s ∉ l.
Proof.
  intros Hc Ej Hk Ha (pre & post & ->)%list_elem_of_split.
  destruct (Hc pre p s post eq_refl) as (j' & Ej' & Hj). rewrite Ej in Ej'. injection Ej' as <-.
  destruct (Hj Hk) as (Hs & _). by rewrite Hs, status_of_counts_active in Ha.
Qed.

Lemma complete_ok_change t t' l :
  complete_ok t l →
  (∀ p j, jobs t !! p = Some j → ∃ j', jobs t' !! p = Some j' ∧ kind j' = kind j) →
  (∀ p j, jobs t !! p = Some j → kind j = kind_mail_plan → job_active (status j) = false →
     jobs t' !! p = Some j ∧ plan_ops t' p = plan_ops t p) →
  complete_ok t' l.
Proof.
  intros Hc Hj Hf pre p s post El. destruct (Hc pre p s post El) as (j & Ej & Hm).
  destruct (Hj p j Ej) as (j' & Ej' & Hk). exists j'. split; [done|]. rewrite Hk. intros Hk'.
  destruct (Hm Hk') as (M1 & M2 & M3 & M4 & M5).
  destruct (Hf p j Ej Hk') as [Ej2 Ep]; [by rewrite M1, status_of_counts_active|].
  rewrite Ej' in Ej2. injection Ej2 as ->. rewrite Ep. split_and!; [done..|].
  intros Hq n o Eo. apply (M5 Hq). apply (lookup_plan_ops t p). rewrite <- Ep. by apply lookup_plan_ops.
Qed.

Lemma complete_ok_set_op f k t l j :
  complete_ok t l → jobs t !! k.1 = Some j → job_active (status j) = true → complete_ok (set_op f k t) l.
Proof.
  intros Hc Ej Ha. eapply complete_ok_change; [done|by eauto|].
  intros p j' Ej' _ Hf. split; [done|]. apply plan_ops_set_op. intros <-.
  rewrite Ej in Ej'. injection Ej' as <-. by rewrite Ha in Hf.
Qed.

Lemma hist_set_op f k t l j :
  hist t l → jobs t !! k.1 = Some j → job_active (status j) = true → hist (set_op f k t) l.
Proof.
  intros Hh Ej Ha k' o' j' [Eo' Ej' Hk Hq] Hf. apply set_op_lookup in Eo' as [[-> _]|[_ Eo']].
  - simpl in Ej'. rewrite Ej in Ej'. injection Ej' as <-. by rewrite Ha in Hf.
  - by apply (Hh k' o' j').
Qed.

Lemma spent_set_op f k t k' :
  (∀ o, op_status (f o) ≠ OpPending) → spent t k' → spent (set_op f k t) k'.
Proof.
  intros Hf [(o & Eo & Hs)|(j & Ej & Hk & Hs)]; [left|right; by exists j].
  destruct (decide (k' = k)) as [->|Hne].
  - exists (f o). split; [|done]. apply set_op_lookup. left. split; [done|]. by exists o.
  - exists o. split; [|done]. apply set_op_lookup. by right.
Qed.

Lemma once_set_op f k t ex :
  (∀ o, op_status (f o) ≠ OpPending) → once e0 t ex → once e0 (set_op f k t) ex.
Proof.
  intros Hf (new & E & Hn & Hs). exists new. split_and!; [done..|].
  intros k' Hk'. apply spent_set_op; [done|by apply Hs].
Qed.

Lemma pending_set_op f k t :
  (∀ o, op_status (f o) ≠ OpPending) → pending_count (set_op f k t) ≤ pending_count t.
Proof.
  intros Hf. unfold pending_count, set_op. simpl. apply map_subseteq_size.
  apply map_subseteq_spec. intros k' o' [E Hs]%map_lookup_filter_Some. apply map_lookup_filter_Some.
  destruct (decide (k' = k)) as [->|Hne].
  - rewrite lookup_alter_eq in E. destruct (ops t !! k) as [o|]; [|done]. simpl in E.
    injection E as <-. by destruct (Hf o).
  - by rewrite lookup_alter_ne in E.
Qed.

Lemma pending_set_op_lt f k t o :
  (∀ o, op_status (f o) ≠ OpPending) → ops t !! k = Some o → op_status o = OpPending →
  pending_count (set_op f k t) < pending_count t.
Proof.
  intros Hf Eo Hs. unfold pending_count, set_op. simpl. apply map_subset_size.
  apply map_subset_alt. split.
  - apply map_subseteq_spec. intros k' o' [E Hs']%map_lookup_filter_Some. apply map_lookup_filter_Some.
    destruct (decide (k' = k)) as [->|Hne].
    + rewrite lookup_alter_eq, Eo in E. simpl in E. injection E as <-. by destruct (Hf o).
    + by rewrite lookup_alter_ne in E.
  - exists k. split; [|exists o; by apply map_lookup_filter_Some].
    apply map_lookup_filter_None. right. intros o'. rewrite lookup_alter_eq, Eo. simpl.
    intros [= <-]. apply Hf.
Qed.

Lemma truthful_set_op f k t l :
  (∀ o, ops t !! k = Some o → outcome (f o) = outcome o ∨ outcome o = None) →
  truthful t l → truthful (set_op f k t) l.
Proof.
  intros Hf Ht p n r Hin. destruct (Ht p n r Hin) as (o & Eo & Ho). destruct (decide ((p, n) = k)) as [<-|Hne].
  - exists (f o). split; [apply set_op_lookup; left; split; [done|]; by exists o|].
    destruct (Hf o Eo) as [->|Hn]; [done|]. by rewrite Hn in Ho.
  - exists o. split; [apply set_op_lookup; by right|done].
Qed.

(** Leasing a pending operation. *)
Lemma inv_lease w k o j owner expires :
  inv mortal e0 w → ops (db w) !! k = Some o → op_status o = OpPending →
  jobs (db w) !! k.1 = Some j → job_active (status j) = true →
  inv mortal e0 (with_db (set_op (lease_op owner expires) k) w).
Proof.
  intros [I1 I2 I3 I4 It I5 I6] Eo Hs Ej Ha. destruct I2 as [A1 A2 A3 A4 A5 A6].
  constructor; simpl;
    [done| |by eapply hist_set_op|by eapply complete_ok_set_op|apply truthful_set_op; [by auto|done]| |by apply once_set_op].
  - constructor; [intros k' o'|intros k' o'|intros k' o' j'|intros k' o' j'|intros k' o' j'|done];
      rewrite set_op_lookup; intros [(-> & o1 & Eo1 & ->)|[Hne Eo']]; simpl; simplify_eq.
    + by eapply A1.
    + by eapply A1.
    + split; [done|intros _]. apply (A2 k o Eo). by rewrite Hs.
    + by eapply A2.
    + intros Ej' Hf. rewrite Ej in Ej'. injection Ej' as <-. by rewrite Ha in Hf.
    + by eapply A3.
    + intros Ej'. by eapply A4.
    + by eapply A4.
    + done.
    + by eapply A5.
  - intros k' o' j' op. rewrite set_op_lookup. intros [(-> & o1 & Eo1 & ->)|[Hne Eo']] Ej' Hk Hc; [done|].
    by apply (I5 k' o' j').
Qed.

(** Storing the outcome of a leased operation. *)
Lemma inv_mark w k o j s blob :
  inv mortal e0 w → ops (db w) !! k = Some o → op_open (op_status o) = true →
  jobs (db w) !! k.1 = Some j → job_active (status j) = true →
  (kind j = kind_mail_plan → (∃ r, blob = result_to_vec r ∧ s = result_status r) ∧
     (∀ op, op_from_slice (operation o) = inr op → k ∈ executed w)) →
  inv mortal e0 (with_db (set_op (end_op s blob) k) w).
Proof.
  intros [I1 I2 I3 I4 It I5 I6] Eo Hop Ej Ha Hm. destruct I2 as [A1 A2 A3 A4 A5 A6].
  assert (∀ o, op_status (end_op s blob o) ≠ OpPending) as Hp by (intros o'; simpl; by destruct s).
  constructor; simpl;
    [done| |by eapply hist_set_op|by eapply complete_ok_set_op|apply truthful_set_op; [|done]| |by apply once_set_op].
  2: { intros o1 Eo1. right. apply (A2 k o1 Eo1). rewrite Eo in Eo1. by injection Eo1 as <-. }
  - constructor; [intros k' o'|intros k' o'|intros k' o' j'|intros k' o' j'|intros k' o' j'|done];
      rewrite set_op_lookup; intros [(-> & o1 & Eo1 & ->)|[Hne Eo']]; simpl; simplify_eq.
    + by eapply A1.
    + by eapply A1.
    + by destruct s.
    + by eapply A2.
    + intros Ej' Hf. rewrite Ej in Ej'. injection Ej' as <-. by rewrite Ha in Hf.
    + by eapply A3.
    + intros Ej'. by eapply A4.
    + by eapply A4.
    + intros Ej' Hk _. simplify_eq. destruct (Hm Hk) as [(r & -> & ->) _]. by exists r.
    + by eapply A5.
  - intros k' o' j' op. rewrite set_op_lookup. intros [(-> & o1 & Eo1 & ->)|[Hne Eo']] Ej' Hk Hc.
    + simpl in *. intros Hd. rewrite Ej in Ej'. injection Ej' as <-. rewrite Eo in Eo1. injection Eo1 as <-.
      destruct (Hm Hk) as [_ Hr]. by apply (Hr op).
    + by apply (I5 k' o' j').
Qed.

(** Recording an execution. *)
Lemma inv_executed w k :
  inv mortal e0 w → spent (db w) k → (∀ new, executed w = e0 ++ new → k ∉ new) →
  inv mortal e0 (with_executed k w).
Proof.
  intros [I1 I2 I3 I4 It I5 (new & E & Hn & Hs)] Hk Hnew. constructor; simpl; try done.
  - intros k' o' j' op Eo Ej Hm Hc Hd. apply elem_of_app. left. by eapply I5.
  - exists (new ++ [k]). split_and!.
    + by rewrite E, app_assoc.
    + apply NoDup_app. split_and!; [done| |apply NoDup_singleton].
      intros k' Hk' ->%list_elem_of_singleton. by apply (Hnew new E).
    + intros k' [Hk'| ->%list_elem_of_singleton]%elem_of_app; [by apply Hs|done].
Qed.

(** *** Notifications *)

Definition not_completion (n : Notification) : Prop := ∀ p s, n ≠ NActionCompleted p s.

Lemma reported_app l l' k o : reported l k o → reported (l ++ l') k o.
Proof. intros (r & E & Hin). exists r. split; [done|]. apply elem_of_app. by left. Qed.

Lemma complete_ok_snoc t l n :
  complete_ok t l → not_completion n → complete_ok t (l ++ [n]).
Proof.
  intros Hc Hn pre p s post E. destruct post as [|x post' _] using rev_ind.
  - apply app_inj_2 in E as [_ E]; [|done]. injection E as ->. by destruct (Hn p s).
  - rewrite app_comm_cons, app_assoc in E. apply app_inj_2 in E as [E _]; [|done]. by eapply Hc.
Qed.

Lemma truthful_snoc t l n :
  truthful t l →
  (∀ p i r, n = NOperationOutcome p i r → ∃ o, ops t !! (p, i) = Some o ∧ outcome o = Some (result_to_vec r)) →
  truthful t (l ++ [n]).
Proof.
  intros Ht Hn p i r [Hin|Hin%list_elem_of_singleton]%elem_of_app; [by apply Ht|]. by apply Hn.
Qed.

Lemma inv_emit w n :
  inv mortal e0 w → not_completion n →
  (∀ p i r, n = NOperationOutcome p i r → ∃ o, ops (db w) !! (p, i) = Some o ∧ outcome o = Some (result_to_vec r)) →
  inv mortal e0 (with_sent n w).
Proof.
  intros [I1 I2 I3 I4 It I5 I6] Hn Ho. constructor; simpl; try done.
  - intros k o j Hv Hf. apply reported_app. by eapply I3.
  - by apply complete_ok_snoc.
  - by apply truthful_snoc.
Qed.

(** The completion of a job. *)
Lemma inv_emit_completed w p s j :
  inv mortal e0 w → jobs (db w) !! p = Some j →
  (kind j = kind_mail_plan →
     status j = status_of_counts (plan_ops (db w) p) ∧ summary j = Some (summary_to_vec s) ∧
     summary_ok (plan_ops (db w) p) s ∧ (∀ s', NActionCompleted p s' ∉ sent w)) →
  inv mortal e0 (with_sent (NActionCompleted p s) w).
Proof.
  intros [I1 I2 I3 I4 It I5 I6] Ej Hm. constructor; simpl; try done.
  { intros k o j' Hv Hf. apply reported_app. by eapply I3. }
  2: { by apply truthful_snoc. }
  intros pre p' s' post E. destruct post as [|x post' _] using rev_ind.
  - apply app_inj_2 in E as [E1 E2]; [|done]. injection E2 as <- <-. subst pre.
    exists j. split; [done|]. intros Hk. destruct (Hm Hk) as (M1 & M2 & M3 & M4). split_and!; [done..|].
    intros Hq n o Eo. apply (I3 (p, n) o j); [by constructor|]. by rewrite M1, status_of_counts_active.
  - rewrite app_comm_cons, app_assoc in E. apply app_inj_2 in E as [E _]; [|done]. by eapply I4.
Qed.

(** ** Changing one job *)

Definition set_job (f : Job → Job) p t : tables := Tables (alter f p (jobs t)) (ops t).

Lemma set_job_lookup f p t p' j' :
  jobs (set_job f p t) !! p' = Some j' ↔
  (p' = p ∧ ∃ j, jobs t !! p = Some j ∧ j' = f j) ∨ (p' ≠ p ∧ jobs t !! p' = Some j').
Proof.
  unfold set_job. simpl. destruct (decide (p' = p)) as [->|Hne].
  - rewrite lookup_alter_eq, fmap_Some. split; [by left|]. intros [[_ ?]|[? _]]; done.
  - rewrite lookup_alter_ne by done. split; [by right|]. by intros [[? _]|[_ ?]].
Qed.

Lemma plan_ops_set_job f p t p' : plan_ops (set_job f p t) p' = plan_ops t p'.
Proof. by apply plan_ops_same. Qed.

(** The change keeps what a job is about. *)
Definition keeps (f : Job → Job) : Prop :=
  ∀ j, kind (f j) = kind j ∧ quiet (f j) = quiet j ∧ payload (f j) = payload j ∧ status (f j) ≠ Queued.

(** Leasing a quiet job, or finishing a job whose operations are finished and
    reported. *)
Lemma inv_set_job f w p j :
  keeps f → inv mortal e0 w → jobs (db w) !! p = Some j → job_active (status j) = true →
  (job_active (status (f j)) = false → ∀ n o, ops (db w) !! (p, n) = Some o →
     closed o ∧ (kind j = kind_mail_plan → quiet j = false → reported (sent w) (p, n) o)) →
  inv mortal e0 (with_db (set_job f p) w).
Proof.
  intros Hf [I1 I2 I3 I4 It I5 I6] Ej Ha Hc. destruct I2 as [A1 A2 A3 A4 A5 A6].
  assert (∀ p' j', jobs (set_job f p (db w)) !! p' = Some j' →
    ∃ j0, jobs (db w) !! p' = Some j0 ∧ kind j' = kind j0 ∧ quiet j' = quiet j0 ∧ payload j' = payload j0 ∧
      ((p' = p ∧ j0 = j ∧ j' = f j) ∨ (p' ≠ p ∧ j' = j0))) as Hb.
  { intros p' j' E. apply set_job_lookup in E as [(-> & j0 & E0 & ->)|[Hne E]].
    - exists j0. destruct (Hf j0) as (? & ? & ? & _). simplify_eq. split_and!; [done..|]. by left.
    - exists j'. split_and!; try done. by right. }
  constructor; simpl; [done| | |  |exact It| |].
  - constructor; simpl; [|done| | | |].
    + intros k o Eo. destruct (A1 k o Eo) as [j' Ej']. destruct (decide (k.1 = p)) as [->|Hne].
      * eexists. apply set_job_lookup. left. split; [done|]. by exists j.
      * exists j'. apply set_job_lookup. by right.
    + intros k o j' Eo Ej' Hs. destruct (Hb _ _ Ej') as (j0 & E0 & _ & _ & _ & [(Hp & -> & ->)|[Hp ->]]).
      * destruct k as [p' n]. simpl in *. subst p'. by apply (Hc Hs n o).
      * by eapply A3.
    + intros k o j' Eo Ej'. destruct (Hb _ _ Ej') as (j0 & E0 & -> & _). by eapply A4.
    + intros k o j' Eo Ej'. destruct (Hb _ _ Ej') as (j0 & E0 & -> & _). by eapply A5.
    + intros p' j' Ej'. destruct (Hb _ _ Ej') as (j0 & E0 & -> & _ & -> & _). by apply A6.
  - intros k o j' [Eo Ej' Hk Hq] Hs.
    destruct (Hb _ _ Ej') as (j0 & E0 & Hkk & Hqq & _ & [(Hp & -> & ->)|[Hp ->]]).
    + destruct k as [p' n]. simpl in *. subst p'. apply (Hc Hs n o Eo); congruence.
    + by apply (I3 k o j0).
  - eapply complete_ok_change; [done| |].
    + intros p' j' E'. destruct (decide (p' = p)) as [->|Hne].
      * exists (f j'). split; [apply set_job_lookup; left; split; [done|by exists j']|]. apply Hf.
      * exists j'. split; [apply set_job_lookup; by right|done].
    + intros p' j' E' _ Hs. split; [|apply plan_ops_set_job]. apply set_job_lookup. right. split; [|done].
      intros ->. rewrite Ej in E'. injection E' as <-. by rewrite Ha in Hs.
  - intros k o j' op Eo Ej'. destruct (Hb _ _ Ej') as (j0 & E0 & -> & _). by apply (I5 k o j0).
  - destruct I6 as (new & E & Hn & Hs). exists new. split_and!; [done..|]. intros k Hk.
    destruct (Hs k Hk) as [Ho|(j' & Ej' & Hk' & Hq)]; [by left|right].
    destruct (decide (k.1 = p)) as [Ep|Hne].
    + exists (f j'). split; [apply set_job_lookup; left; split; [done|exists j'; by rewrite <- Ep]|].
      destruct (Hf j') as (-> & _ & _ & Hq'). done.
    + exists j'. split; [apply set_job_lookup; by right|done].
Qed.

Lemma keeps_end s blob now : keeps (end_job s blob now).
Proof. intros j. simpl. by destruct s. Qed.

Lemma keeps_lease owner expires now : keeps (lease_job owner expires now).
Proof. by intros j. Qed.

(** ** Counting the operations of a plan *)

Lemma count_status_perm s (es fs : list (op_key * Op)) : es ≡ₚ fs → count_status s es = count_status s fs.
Proof.
  intros Hp. unfold count_status. f_equal.
  induction Hp as [|x l1 l2 _ IH|x y l|l1 l2 l3 _ IH1 _ IH2]; cbn [List.filter]; [done| | |congruence].
  - case_bool_decide; cbn [length]; congruence.
  - by repeat case_bool_decide.
Qed.

Lemma list_filter_bool {A} (f : A → bool) (xs : list A) : List.filter f xs = filter (λ x, f x = true) xs.
Proof.
  induction xs as [|x xs IH]; [done|]. rewrite filter_cons. cbn [List.filter]. rewrite IH.
  destruct (f x) eqn:E; [by rewrite decide_True|by rewrite decide_False].
Qed.

Lemma list_filter_ext {A} (P Q : A → Prop) `{∀ x, Decision (P x), ∀ x, Decision (Q x)} (xs : list A) :
  (∀ x, P x ↔ Q x) → filter P xs = filter Q xs.
Proof.
  intros HPQ. induction xs as [|x xs IH]; [done|]. rewrite !filter_cons, IH.
  do 2 case_decide; try done; exfalso; naive_solver.
Qed.

Lemma map_filter_to_list_perm {K A} `{Countable K} (P : K * A → Prop) `{∀ x, Decision (P x)} (m : gmap K A) :
  map_to_list (filter P m) ≡ₚ filter P (map_to_list m).
Proof.
  apply NoDup_Permutation.
  - apply NoDup_map_to_list.
  - apply NoDup_filter, NoDup_map_to_list.
  - intros [k a]. rewrite elem_of_map_to_list, map_lookup_filter_Some, list_elem_of_filter, elem_of_map_to_list. tauto.
Qed.

Lemma ops_of_perm p t : ops_of p t ≡ₚ map_to_list (plan_ops t p).
Proof.
  unfold ops_of, plan_ops. rewrite list_filter_bool, scan_ops_rows, map_filter_to_list_perm.
  erewrite list_filter_ext; [done|]. intros x. simpl. apply N.eqb_eq.
Qed.

Lemma count_status_plan s p t : count_status s (ops_of p t) = N.of_nat (with_status s (plan_ops t p)).
Proof.
  rewrite (count_status_perm s _ _ (ops_of_perm p t)). unfold count_status, with_status. f_equal.
  rewrite <- length_map_to_list, map_filter_to_list_perm, list_filter_bool. f_equal.
  apply list_filter_ext. intros x. by rewrite bool_decide_eq_true.
Qed.

Lemma count_statuses (es : list (op_key * Op)) :
  (count_status OpPending es + count_status OpLeased es + count_status OpExecuting es +
   count_status OpDone es + count_status OpFailed es + count_status OpConflict es)%N = N.of_nat (length es).
Proof.
  unfold count_status. induction es as [|e es IH]; [done|]. cbn [List.filter length].
  destruct (op_status e.2); repeat (case_bool_decide; try done); cbn [length]; lia.
Qed.

(** What [count_ops_by_status] says about a plan. *)
Definition counts_match (c : OpStatusCounts) (m : gmap op_key Op) : Prop :=
  counts_total c = N.of_nat (size m) ∧ c_done c = N.of_nat (with_status OpDone m) ∧
  c_failed c = N.of_nat (with_status OpFailed m) ∧ c_conflict c = N.of_nat (with_status OpConflict m).

Lemma counts_of_match p t : counts_match (counts_of p t) (plan_ops t p).
Proof.
  unfold counts_match. split_and!; simpl; try apply count_status_plan.
  unfold counts_total, counts_of. cbn [c_pending c_leased c_executing c_done c_failed c_conflict].
  rewrite count_statuses, ops_of_perm, length_map_to_list. done.
Qed.

Lemma count_status_zero s (es : list (op_key * Op)) :
  count_status s es = 0%N ↔ ∀ e, e ∈ es → op_status e.2 ≠ s.
Proof.
  unfold count_status. rewrite list_filter_bool. split.
  - intros E e He Hs. destruct (filter _ es) as [|x xs] eqn:Ef; [|done].
    assert (e ∈ filter (λ e : op_key * Op, bool_decide (op_status e.2 = s) = true) es) as Hin
      by (apply list_elem_of_filter; by rewrite bool_decide_eq_true).
    rewrite Ef in Hin. by apply elem_of_nil in Hin.
  - intros Hn. destruct (filter _ es) as [|x xs] eqn:Ef; [done|].
    assert (x ∈ filter (λ e : op_key * Op, bool_decide (op_status e.2 = s) = true) es) as Hin
      by (rewrite Ef; apply list_elem_of_here).
    apply list_elem_of_filter in Hin as [Hs He]. rewrite bool_decide_eq_true in Hs. by destruct (Hn x He).
Qed.

Lemma elem_of_ops_of k o p t : (k, o) ∈ ops_of p t ↔ ops t !! k = Some o ∧ k.1 = p.
Proof. by rewrite ops_of_perm, elem_of_map_to_list, lookup_plan_ops. Qed.

(** None of the operations is open, or one is. *)
Lemma non_terminal_spec p t :
  (counts_non_terminal (counts_of p t) = 0%N ∧ ∀ n o, ops t !! (p, n) = Some o → closed o) ∨
  ((0 < counts_non_terminal (counts_of p t))%N ∧ ∃ n o, ops t !! (p, n) = Some o ∧ op_open (op_status o) = true).
Proof.
  unfold counts_non_terminal, counts_of. cbn [c_pending c_leased c_executing].
  destruct (decide (Forall (λ e : op_key * Op, op_open (op_status e.2) = false) (ops_of p t)))
    as [Hf|Hex%not_Forall_Exists]; [| |apply _].
  - left. rewrite Forall_forall in Hf. split.
    + assert (∀ s, op_open s = true → count_status s (ops_of p t) = 0%N) as Hz.
      { intros s Hs. apply count_status_zero. intros e He Hes. specialize (Hf e He). by rewrite Hes, Hs in Hf. }
      by rewrite !Hz.
    + intros n o Eo. apply (Hf ((p, n), o)). by apply elem_of_ops_of.
  - right. apply Exists_exists in Hex as ([k o] & Hin & Ho). apply not_false_iff_true in Ho. cbn in Ho.
    pose proof Hin as Hin'. apply elem_of_ops_of in Hin' as [Eo <-]. split.
    + assert (∀ s, s = op_status o → (0 < count_status s (ops_of k.1 t))%N) as Hz.
      { intros s ->. destruct (N.eq_0_gt_0_cases (count_status (op_status o) (ops_of k.1 t))) as [E|]; [|done].
        rewrite count_status_zero in E. by destruct (E (k, o) Hin). }
      destruct (op_status o) eqn:Es; try discriminate Ho; specialize (Hz _ eq_refl); lia.
    + exists k.2, o. by destruct k.
Qed.

Lemma result_to_vec_inj r r' : result_to_vec r = result_to_vec r' → r = r'.
Proof. intros E. apply (f_equal result_from_slice) in E. rewrite !result_reads_back in E. by injection E. Qed.

Lemma local_only_blob r : outcome_blob_is_local_only (result_to_vec r) = true ↔ r = RLocalOnly.
Proof.
  unfold outcome_blob_is_local_only. rewrite bool_decide_eq_true, result_kind.
  split; [|by intros ->]. by destruct r.
Qed.

Lemma local_rows (es : list (op_key * Op)) :
  (∀ e, e ∈ es → ∃ r, outcome e.2 = Some (result_to_vec r)) →
  length (List.filter (λ r : OperationId * bytes, outcome_blob_is_local_only r.2)
    (omap (λ e : op_key * Op, (λ b, (e.1.2, b)) <$> outcome e.2) es)) =
  length (filter (λ e : op_key * Op, outcome e.2 = Some (result_to_vec RLocalOnly)) es).
Proof.
  induction es as [|e es IH]; intros Hr; [done|].
  assert (∀ e, e ∈ es → ∃ r, outcome e.2 = Some (result_to_vec r)) as Hr'
    by (intros e' He'; apply Hr; by apply list_elem_of_further).
  destruct (Hr e) as [r Er]; [by apply list_elem_of_here|].
  rewrite filter_cons. cbn [omap list_omap]. rewrite Er. cbn [fmap option_fmap option_map List.filter snd].
  destruct (outcome_blob_is_local_only (result_to_vec r)) eqn:El.
  - apply local_only_blob in El as ->. rewrite decide_True by done. cbn [length]. by rewrite IH.
  - rewrite decide_False; [by apply IH|]. intros [= E%result_to_vec_inj]. subst.
    by rewrite (proj2 (local_only_blob RLocalOnly)) in El.
Qed.

(** The summary of a finished mail plan counts its results. *)
Lemma plan_summary_ok c p t :
  counts_match c (plan_ops t p) →
  (∀ n o, ops t !! (p, n) = Some o → ∃ r, outcome o = Some (result_to_vec r)) →
  summary_ok (plan_ops t p) (plan_summary c (finished_ops p t)).
Proof.
  intros (Ct & Cd & Cf & Cc) Hr.
  assert (length (List.filter (λ r : OperationId * bytes, outcome_blob_is_local_only r.2) (finished_ops p t)) =
          with_result RLocalOnly (plan_ops t p)) as El.
  { unfold finished_ops. rewrite local_rows.
    - unfold order_by, with_result. rewrite merge_sort_Permutation, ops_of_perm.
      by rewrite <- length_map_to_list, map_filter_to_list_perm.
    - intros [k o]. unfold order_by. rewrite merge_sort_Permutation. intros [Eo Ek]%elem_of_ops_of.
      destruct k as [p' n]. simpl in *. subst p'. by apply (Hr n). }
  constructor; simpl; try done.
  - by rewrite El.
  - by rewrite Cd.
Qed.

Lemma plan_status_counts c m : counts_match c m → job_terminal (plan_status c) = status_of_counts m.
Proof.
  intros (Ct & Cd & _ & _). unfold plan_status, status_of_counts. rewrite Ct, Cd.
  destruct (N.eqb_spec (N.of_nat (with_status OpDone m)) (N.of_nat (size m))) as [E|E];
    [by rewrite decide_True by lia|rewrite decide_False by lia].
  destruct (N.eqb_spec (N.of_nat (with_status OpDone m)) 0) as [E'|E'];
    [by rewrite decide_True by lia|by rewrite decide_False by lia].
Qed.

Lemma elem_of_joined k o j t : (k, o, j) ∈ joined t ↔ ops t !! k = Some o ∧ jobs t !! k.1 = Some j.
Proof.
  unfold joined. rewrite list_elem_of_omap. split.
  - intros ([k' o'] & Hin & E). rewrite scan_ops_rows, elem_of_map_to_list in Hin. simpl in E.
    destruct (jobs t !! k'.1) as [j'|] eqn:Ej; [|done]. simpl in E. by injection E as -> -> ->.
  - intros [Eo Ej]. exists (k, o). rewrite scan_ops_rows, elem_of_map_to_list. split; [done|].
    simpl. by rewrite Ej.
Qed.

Lemma elem_of_ready k o j t :
  (k, o, j) ∈ ready_ops t ↔
  ops t !! k = Some o ∧ jobs t !! k.1 = Some j ∧ op_status o = OpPending ∧ job_active (status j) = true.
Proof.
  unfold ready_ops, order_by. rewrite merge_sort_Permutation, list_filter_bool, list_elem_of_filter, elem_of_joined.
  simpl. rewrite andb_true_iff, bool_decide_eq_true. tauto.
Qed.

End steps.

(** ** The action worker: what it keeps while it works

    [at_work] describes the journal between two steps of the worker, and what is
    exceptional there: the plans whose completion and the operations whose outcome
    the app was not told, the operation and the quiet job the worker holds, and the
    plans about to be finished.  For each change, that it leads from one such state to the next. *)

Section at_work.
Context `{TableScan, Serde, Providers}.
Implicit Types (t : tables) (l : list Notification) (k : op_key) (p : PlanId) (w : world) (o : Op) (j : Job).

(** [known] are jobs that are there, with their kinds, [fin] jobs that are
    finished. *)
Context (mortal : bool) (e0 : list op_key) (known : list (PlanId * str)) (fin : list PlanId).

Record at_work (untold : list PlanId) (unreported : list op_key) (held : option op_key) (quiet_held : option PlanId) (n : nat)
    (ending : list (PlanId * option PerOpJobKind)) w : Prop := {
  aw_rep k o j : visible (db w) k o j → closed o → k ∉ unreported → reported (sent w) k o;
  aw_told p j : jobs (db w) !! p = Some j → kind j = kind_mail_plan → job_active (status j) = false →
    p ∉ untold → ∃ s, NActionCompleted p s ∈ sent w;
  aw_leased k o : ops (db w) !! k = Some o → op_leased (op_status o) = true → held = Some k;
  aw_settled p j : jobs (db w) !! p = Some j → per_op_kind (kind j) → job_active (status j) = true →
    p ∉ ending.*1 → ∃ i o, ops (db w) !! (p, i) = Some o ∧ op_open (op_status o) = true;
  aw_ending p pk : (p, pk) ∈ ending →
    ∃ j, jobs (db w) !! p = Some j ∧ per_op_kind (kind j) ∧ job_active (status j) = true ∧
         pk = per_op_from_sql (kind j);
  aw_quiet p j : jobs (db w) !! p = Some j → ¬ per_op_kind (kind j) → job_leased (status j) = true →
    quiet_held = Some p;
  aw_nodup : NoDup ending.*1;
  aw_known p kd : (p, kd) ∈ known → ∃ j, jobs (db w) !! p = Some j ∧ kind j = kd;
  aw_done p : p ∈ fin → ∃ j, jobs (db w) !! p = Some j ∧ job_active (status j) = false;
  aw_work : work w ≤ n
}.

(** Nothing exceptional. *)
Definition idle (untold : list PlanId) (n : nat) : world → Prop := at_work untold [] None None n [].

Lemma at_work_stable v u h q n es : stable mortal e0 (at_work v u h q n es).
Proof.
  intros w w1 Hi [Hg Es Ex Ev _ Hwk _] [A1 A2 A3 A4 A5 A6 A7 A8 A9 A10].
  pose proof (in_journal _ _ _ Hi) as Hok. constructor; rewrite ?Es; try done.
  - intros k o j Hv Hc. destruct (visible_back _ _ _ _ _ Hok Hg Hv) as [Hv'|[Hs _]]; [by eapply A1|].
    unfold closed in Hc. by rewrite Hs in Hc.
  - intros p j Ej Hk Ha Hp. destruct (grows_job_back _ _ _ _ Hg Ej) as [Fj|[_ (Hs & _)]]; [by eapply A2|].
    by rewrite Hs in Ha.
  - intros k o Eo Hl. destruct (ops (db w) !! k) as [o'|] eqn:Fo.
    + rewrite (grows_op _ _ _ _ Hg Fo) in Eo. injection Eo as <-. by eapply A3.
    + destruct (g_new_ops _ _ Hg k o Eo Fo) as (Hs & _). by rewrite Hs in Hl.
  - intros p j Ej Hk Ha Hp. destruct (grows_job_back _ _ _ _ Hg Ej) as [Fj|[Fn (_ & _ & Ho & _)]].
    + destruct (A4 p j Fj Hk Ha Hp) as (i & o & Eo & Hop). exists i, o. split; [by eapply grows_op|done].
    + destruct (Ho Hk) as (i & o & Eo). exists i, o. split; [done|].
      destruct (ops (db w) !! (p, i)) as [o'|] eqn:Fo.
      * destruct (jo_owned _ Hok _ _ Fo) as [j' Ej']. simpl in Ej'. by rewrite Fn in Ej'.
      * by destruct (g_new_ops _ _ Hg _ _ Eo Fo) as (-> & _).
  - intros p k Hin. destruct (A5 p k Hin) as (j & Ej & Hr). exists j. split; [by eapply grows_job|done].
  - intros p j Ej Hk Hl. destruct (grows_job_back _ _ _ _ Hg Ej) as [Fj|[_ (Hs & _)]]; [by eapply A6|].
    by rewrite Hs in Hl.
  - intros p kd Hin. destruct (A8 p kd Hin) as (j & Ej & Hj). exists j. split; [by eapply grows_job|done].
  - intros p Hin. destruct (A9 p Hin) as (j & Ej & Hr). exists j. split; [by eapply grows_job|done].
  - lia.
Qed.

(** The parts of the world that matter. *)
Lemma at_work_ext v u h q n es w w' :
  db w' = db w → sent w' = sent w → schedule w' = schedule w → at_work v u h q n es w → at_work v u h q n es w'.
Proof.
  intros E1 E2 E3 [A1 A2 A3 A4 A5 A6 A7 A8 A9 A10]. unfold work in A10.
  constructor; rewrite ?E1, ?E2; try done. unfold work. by rewrite E1, E3.
Qed.

Lemma at_work_sent v u h q n es w m : at_work v u h q n es w → at_work v u h q n es (with_sent m w).
Proof.
  intros [A1 A2 A3 A4 A5 A6 A7 A8 A9 A10]. constructor; try done.
  - intros k o j Hv Hc Hu. apply reported_app. by eapply A1.
  - intros p j Ej Hk Ha Hp. destruct (A2 p j Ej Hk Ha Hp) as [s Hs]. exists s. apply elem_of_app. by left.
Qed.

(** Nothing is left to report about an operation. *)
Lemma at_work_reported v k u h q n es w :
  at_work v (k :: u) h q n es w →
  (∀ o j, visible (db w) k o j → closed o → reported (sent w) k o) → at_work v u h q n es w.
Proof.
  intros [A1 A2 A3 A4 A5 A6 A7 A8 A9 A10] Hk. constructor; try done.
  intros k' o j Hv Hc Hu. destruct (decide (k' = k)) as [->|Hne]; [by eapply Hk|].
  apply (A1 k' o j); [done|done|]. by intros [?|?]%elem_of_cons.
Qed.

(** Nor about a plan. *)
Lemma at_work_told p v u h q n es w :
  at_work (p :: v) u h q n es w →
  (∀ j, jobs (db w) !! p = Some j → kind j = kind_mail_plan → ∃ s, NActionCompleted p s ∈ sent w) →
  at_work v u h q n es w.
Proof.
  intros [A1 A2 A3 A4 A5 A6 A7 A8 A9 A10] Hp. constructor; try done.
  intros p' j Ej Hk Ha Hv. destruct (decide (p' = p)) as [->|Hne]; [by eapply Hp|].
  apply (A2 p' j Ej Hk Ha). by intros [?|?]%elem_of_cons.
Qed.

Lemma at_work_more v u h q n n' es w : n ≤ n' → at_work v u h q n es w → at_work v u h q n' es w.
Proof. intros Hn [A1 A2 A3 A4 A5 A6 A7 A8 A9 A10]. constructor; try done. lia. Qed.

(** ** Changing one operation *)

Lemma visible_set_op f k t k' o' j' :
  visible (set_op f k t) k' o' j' → k' ≠ k → visible t k' o' j'.
Proof. intros [Eo Ej Hk Hq] Hne. apply set_op_lookup in Eo as [[? _]|[_ Eo]]; [done|]. by constructor. Qed.

Lemma at_work_lease v n w k o j owner expires :
  idle v n w → ops (db w) !! k = Some o → op_status o = OpPending →
  jobs (db w) !! k.1 = Some j → job_active (status j) = true →
  0 < n ∧ at_work v [] (Some k) None (pred n) [] (with_db (set_op (lease_op owner expires) k) w).
Proof.
  intros [A1 A2 A3 A4 A5 A6 A7 A8 A9 A10] Eo Hs Ej Ha.
  assert (pending_count (set_op (lease_op owner expires) k (db w)) < pending_count (db w)) as Hlt
    by (by apply pending_set_op_lt with o).
  unfold work in A10. split; [lia|]. constructor; simpl; try done.
  - intros k' o' j' Hv Hc _. destruct (decide (k' = k)) as [->|Hne].
    + destruct Hv as [Eo' _ _ _]. apply set_op_lookup in Eo' as [(_ & o1 & _ & ->)|[? _]]; done.
    + apply (A1 k' o' j'); [by eapply visible_set_op|done|apply not_elem_of_nil].
  - intros k' o' Eo' Hl. apply set_op_lookup in Eo' as [(-> & _)|[_ Eo']]; [done|].
    by specialize (A3 k' o' Eo' Hl).
  - intros p' j' Ej' Hk Hac _. destruct (A4 p' j' Ej' Hk Hac) as (i & o1 & E1 & Ho1); [apply not_elem_of_nil|].
    destruct (decide ((p', i) = k)) as [Ek|Hne].
    + exists i, (lease_op owner expires o1). split; [|done]. apply set_op_lookup. left. split; [done|].
      exists o1. by rewrite <- Ek.
    + exists i, o1. split; [|done]. apply set_op_lookup. by right.
  - unfold work. simpl. lia.
Qed.

Lemma at_work_mark v n w k o j s blob :
  at_work v [] (Some k) None n [] w → ops (db w) !! k = Some o →
  jobs (db w) !! k.1 = Some j → job_active (status j) = true → per_op_kind (kind j) →
  at_work v [k] None None n [(k.1, per_op_from_sql (kind j))] (with_db (set_op (end_op s blob) k) w).
Proof.
  intros [A1 A2 A3 A4 A5 A6 A7 A8 A9 A10] Eo Ej Ha Hk.
  assert (∀ o, op_status (end_op s blob o) ≠ OpPending) as Hp by (intros o'; simpl; by destruct s).
  constructor; simpl; try done.
  - intros k' o' j' Hv Hc Hne%not_elem_of_cons. destruct Hne as [Hne _].
    apply (A1 k' o' j'); [by eapply visible_set_op|done|apply not_elem_of_nil].
  - intros k' o' Eo' Hl. apply set_op_lookup in Eo' as [(-> & o1 & _ & ->)|[Hne Eo']].
    + simpl in Hl. by destruct s.
    + specialize (A3 k' o' Eo' Hl). by simplify_eq.
  - intros p' j' Ej' Hk' Hac Hp'. destruct (A4 p' j' Ej' Hk' Hac) as (i & o1 & E1 & Ho1); [apply not_elem_of_nil|].
    exists i, o1. split; [|done]. apply set_op_lookup. right. split; [|done]. intros <-. apply Hp'. apply list_elem_of_here.
  - intros p' k' [= -> ->]%list_elem_of_singleton. by exists j.
  - apply NoDup_singleton.
  - unfold work in *. simpl. pose proof (pending_set_op (end_op s blob) k (db w) Hp). lia.
Qed.

(** A plan that has an open operation is not to be finished. *)
Lemma at_work_open v u h q n p pk es w :
  at_work v u h q n ((p, pk) :: es) w →
  (∃ i o, ops (db w) !! (p, i) = Some o ∧ op_open (op_status o) = true) → at_work v u h q n es w.
Proof.
  intros [A1 A2 A3 A4 A5 A6 A7 A8 A9 A10] Ho. constructor; try done.
  - intros p' j' Ej' Hk Ha Hp'. destruct (decide (p' = p)) as [->|Hne]; [done|].
    apply (A4 p' j' Ej' Hk Ha). intros [?|?]%elem_of_cons; done.
  - intros p' k' Hin. apply A5. by apply list_elem_of_further.
  - by apply NoDup_cons in A7 as [_ ?].
Qed.

(** ** Changing one job *)

Lemma visible_set_job f p t k o j :
  keeps f → visible (set_job f p t) k o j → ∃ j0, visible t k o j0.
Proof.
  intros Hf [Eo Ej Hk Hq]. apply set_job_lookup in Ej as [(Ek & j0 & E0 & ->)|[_ Ej]].
  - destruct (Hf j0) as (E1 & E2 & _). exists j0. constructor; try done; [by rewrite Ek|congruence..].
  - by exists j.
Qed.

Lemma known_set_job f p t p' kd :
  keeps f → (∃ j, jobs t !! p' = Some j ∧ kind j = kd) → ∃ j, jobs (set_job f p t) !! p' = Some j ∧ kind j = kd.
Proof.
  intros Hf (j & Ej & Hk). destruct (decide (p' = p)) as [->|Hne].
  - destruct (Hf j) as (E1 & _). exists (f j). split; [|congruence].
    apply set_job_lookup. left. split; [done|]. by exists j.
  - exists j. split; [apply set_job_lookup; by right|done].
Qed.

Lemma finished_set_job f p t p' :
  (∀ j, jobs t !! p = Some j → job_active (status j) = false → job_active (status (f j)) = false) →
  (∃ j, jobs t !! p' = Some j ∧ job_active (status j) = false) →
  ∃ j, jobs (set_job f p t) !! p' = Some j ∧ job_active (status j) = false.
Proof.
  intros Hf (j & Ej & Hj). destruct (decide (p' = p)) as [->|Hne].
  - exists (f j). split; [apply set_job_lookup; left; split; [done|]; by exists j|by apply Hf].
  - exists j. split; [apply set_job_lookup; by right|done].
Qed.

(** Finishing a plan. *)
Lemma at_work_end v u h q n p pk es w s blob now :
  at_work v u h q n ((p, pk) :: es) w →
  at_work (p :: v) u h q n es (with_db (set_job (end_job s blob now) p) w).
Proof.
  intros [A1 A2 A3 A4 A5 A6 A7 A8 A9 A10].
  destruct (A5 p pk) as (j & Ej & Hkj & Haj & Hkk); [apply list_elem_of_here|].
  apply NoDup_cons in A7 as [Hp A7]. constructor; simpl; try done.
  - intros k' o' j' (j0 & Hv)%visible_set_job Hc Hu; [|apply keeps_end]. by apply (A1 k' o' j0).
  - intros p' j' Ej' Hk Ha [Hne Hv]%not_elem_of_cons.
    apply set_job_lookup in Ej' as [(-> & _)|[_ Ej']]; [done|]. by apply (A2 p' j').
  - intros p' j' Ej' Hk Ha Hp'. apply set_job_lookup in Ej' as [(-> & j0 & E0 & ->)|[Hne Ej']].
    + simpl in Ha. by destruct s.
    + apply (A4 p' j' Ej' Hk Ha). intros [?|?]%elem_of_cons; done.
  - intros p' k' Hin. destruct (A5 p' k') as (j' & Ej' & Hr); [by apply list_elem_of_further|].
    exists j'. split; [|done]. apply set_job_lookup. right. split; [|done]. intros ->. apply Hp.
    apply list_elem_of_fmap. by exists (p, k').
  - intros p' j' Ej' Hk Hl. apply set_job_lookup in Ej' as [(-> & j0 & E0 & ->)|[Hne Ej']].
    + simpl in Hl. by destruct s.
    + by eapply A6.
  - intros p' kd Hin. apply known_set_job; [apply keeps_end|by apply A8].
  - intros p' Hin. apply finished_set_job; [|by apply A9]. intros j'. simpl. by destruct s.
Qed.

(** Leasing a quiet job. *)
Lemma at_work_lease_job v n w p j owner expires now :
  idle v n w → jobs (db w) !! p = Some j → ¬ per_op_kind (kind j) → job_active (status j) = true →
  at_work v [] None (Some p) n [] (with_db (set_job (lease_job owner expires now) p) w).
Proof.
  intros [A1 A2 A3 A4 A5 A6 A7 A8 A9 A10] Ej Hkj Haj. constructor; simpl; try done.
  - intros k' o' j' (j0 & Hv)%visible_set_job Hc Hu; [|apply keeps_lease]. by apply (A1 k' o' j0).
  - intros p' j' Ej' Hk Ha Hv. apply set_job_lookup in Ej' as [(-> & j0 & E0 & ->)|[_ Ej']]; [done|].
    by apply (A2 p' j').
  - intros p' j' Ej' Hk Ha Hp'. apply set_job_lookup in Ej' as [(-> & j0 & E0 & ->)|[Hne Ej']].
    + simpl in Hk. rewrite Ej in E0. by injection E0 as <-.
    + by apply (A4 p' j').
  - by intros p' k' ?%elem_of_nil.
  - intros p' j' Ej' Hk Hl. apply set_job_lookup in Ej' as [(-> & j0 & E0 & ->)|[Hne Ej']]; [done|].
    by specialize (A6 p' j' Ej' Hk Hl).
  - intros p' kd Hin. apply known_set_job; [apply keeps_lease|by apply A8].
  - intros p' Hin. apply finished_set_job; [|by apply A9]. intros j'. simpl. rewrite Ej. intros [= <-]. by rewrite Haj.
Qed.

(** Finishing it. *)
Lemma at_work_end_job v n w p j s blob now :
  at_work v [] None (Some p) n [] w → jobs (db w) !! p = Some j → ¬ per_op_kind (kind j) →
  idle v n (with_db (set_job (end_job s blob now) p) w).
Proof.
  intros [A1 A2 A3 A4 A5 A6 A7 A8 A9 A10] Ej Hkj. constructor; simpl; try done.
  - intros k' o' j' (j0 & Hv)%visible_set_job Hc Hu; [|apply keeps_end]. by apply (A1 k' o' j0).
  - intros p' j' Ej' Hk Ha Hv. apply set_job_lookup in Ej' as [(-> & j0 & E0 & ->)|[_ Ej']]; [|by apply (A2 p' j')].
    simpl in Hk. rewrite Ej in E0. injection E0 as <-. destruct Hkj. by rewrite Hk.
  - intros p' j' Ej' Hk Hac Hp'. apply set_job_lookup in Ej' as [(-> & j0 & E0 & ->)|[Hne Ej']].
    + simpl in Hac. by destruct s.
    + by apply (A4 p' j').
  - by intros p' k' ?%elem_of_nil.
  - intros p' j' Ej' Hk Hle. apply set_job_lookup in Ej' as [(-> & j0 & E0 & ->)|[Hne Ej']].
    + simpl in Hle. by destruct s.
    + specialize (A6 p' j' Ej' Hk Hle). by simplify_eq.
  - intros p' kd Hin. apply known_set_job; [apply keeps_end|by apply A8].
  - intros p' Hin. apply finished_set_job; [|by apply A9]. intros j'. simpl. by destruct s.
Qed.

End at_work.

(** More jobs are finished. *)
Lemma at_work_fin `{TableScan, Serde, Providers} known fin fin' v u h q n es w :
  at_work known fin v u h q n es w →
  (∀ p, p ∈ fin' → ∃ j, jobs (db w) !! p = Some j ∧ job_active (status j) = false) →
  at_work known fin' v u h q n es w.
Proof. intros [A1 A2 A3 A4 A5 A6 A7 A8 A9 A10] Hf. by constructor. Qed.
