(* ===== verification/WorkerRuns.v ===== *)
(** * The action worker: its procedures

    What each procedure of the worker does from a state at work, with [safe]: the
    lease and the end of an operation, the end of a plan, the drains and their
    termination, the quiet jobs. *)

From S2P Require Import Prelude.
From S2P Require Import Strings.
From S2P Require Import Bytes.
From S2P Require Import ActionTypes.
From S2P Require Import Journal.
From S2P Require Import Worker.
From S2P Require Import JournalTheory.
From S2P Require Import WorkerTheory.
From S2P Require Import WorkerSteps.

Section runs.
Context `{TableScan, Serde, Providers}.
Implicit Types (t : tables) (l : list Notification) (k : op_key) (p : PlanId) (w : world) (o : Op) (j : Job).
Context (mortal : bool) (e0 : list op_key) (known : list (PlanId * str)) (fin untold : list PlanId).

#[local] Notation safe := (safe mortal e0).
#[local] Notation inv := (inv mortal e0).
#[local] Notation stable := (stable mortal e0).
#[local] Notation at_work := (at_work known fin).
#[local] Notation idle := (idle known fin untold).

(** ** More rules *)

Lemma safe_seq {A B} (m : M A) (f : A → M B) P R Q E :
  safe m P R never → (∀ a, safe (f a) (R a) Q E) → safe (m ≫= f) P Q E.
Proof.
  intros Hm. apply safe_bind. eapply safe_weaken; [exact Hm|by auto..|]. by intros w _ ?.
Qed.

Lemma safe_never {A} (m : M A) P Q E : safe m P Q never → safe m P Q E.
Proof. intros Hm. eapply safe_weaken; [exact Hm|by auto..|]. by intros w _ ?. Qed.

Lemma safe_pre {A} (m : M A) (P P' : world → Prop) Q E :
  safe m P' Q E → (∀ w, inv w → P w → P' w) → safe m P Q E.
Proof. intros Hm HP. eapply safe_weaken; [exact Hm|exact HP|by auto..]. Qed.

Lemma safe_change f (P Q : world → Prop) :
  (∀ w, inv w → P w → inv (with_db f w) ∧ Q (with_db f w)) → safe (set_db f) P (λ _, Q) never.
Proof. intros Hf. unfold set_db. by apply safe_set. Qed.

Lemma safe_execute f (P Q : world → Prop) :
  stable P → (∀ w, inv w → P w → inv (with_db f w) ∧ Q (with_db f w)) → safe (execute f) P (λ _, Q) never.
Proof. intros Hst Hf. eapply safe_seq; [by apply safe_step|]. intros []. by apply safe_change. Qed.

Lemma safe_emit n (P Q : world → Prop) :
  stable P → (∀ w, inv w → P w → inv (with_sent n w) ∧ Q (with_sent n w)) → safe (emit n) P (λ _, Q) never.
Proof. intros Hst Hf. eapply safe_seq; [by apply safe_alive|]. intros []. by apply safe_set. Qed.

Lemma safe_dispatch {A} k (f : list op_key → A) (P Q : world → Prop) :
  stable P → (∀ w, inv w → P w → inv (with_executed k w) ∧ Q (with_executed k w)) →
  safe (dispatch k f) P (λ _, Q) never.
Proof.
  intros Hst Hf. eapply safe_seq; [by apply safe_alive|]. intros [].
  eapply safe_seq; [apply safe_get|]. intros w0. eapply (safe_seq _ _ _ (λ _, Q)).
  - apply safe_set. intros w Hi [_ HP]. by apply Hf.
  - intros []. by apply safe_ret.
Qed.

(** ** The operation in hand *)

Definition held_op (op : LeasedOp) w : Prop :=
  ∃ o j, ops (db w) !! leased_key op = Some o ∧ jobs (db w) !! lo_plan_id op = Some j ∧
    op_status o = OpLeased ∧ job_active (status j) = true ∧ per_op_kind (kind j) ∧
    lo_kind op = per_op_from_sql (kind j) ∧ lo_quiet op = quiet j ∧ lo_operation_blob op = operation o.

Definition busy (n : nat) (op : LeasedOp) w : Prop :=
  at_work untold [] (Some (leased_key op)) None n [] w ∧ held_op op w.

(** Its outcome is in the journal. *)
Definition stated (op : LeasedOp) (blob : bytes) w : Prop :=
  ∃ o j, ops (db w) !! leased_key op = Some o ∧ jobs (db w) !! lo_plan_id op = Some j ∧
    outcome o = Some blob ∧ lo_kind op = per_op_from_sql (kind j) ∧ lo_quiet op = quiet j.

(** It was executed, if it can be. *)
Definition answered (op : LeasedOp) w : Prop :=
  lo_kind op = Some MailPlan → ∀ wire, op_from_slice (lo_operation_blob op) = inr wire → leased_key op ∈ executed w.

Definition unrun k w : Prop := ∀ new, executed w = e0 ++ new → k ∉ new.

Definition ending_op (n : nat) (op : LeasedOp) : world → Prop :=
  at_work untold [] None None n [(lo_plan_id op, lo_kind op)].

Lemma held_op_stable op : stable (held_op op).
Proof.
  intros w w1 Hi Hl (o & j & Eo & Ej & Hr). exists o, j.
  split_and!; [eapply grows_op; [apply Hl|done]|eapply grows_job; [apply Hl|done]|apply Hr..].
Qed.

Lemma stated_stable op blob : stable (stated op blob).
Proof.
  intros w w1 Hi Hl (o & j & Eo & Ej & Hr). exists o, j.
  split_and!; [eapply grows_op; [apply Hl|done]|eapply grows_job; [apply Hl|done]|apply Hr..].
Qed.

Lemma answered_stable op : stable (answered op).
Proof. intros w w1 Hi Hl Ha. unfold answered. by rewrite (lt_executed _ _ Hl). Qed.

Lemma unrun_stable k : stable (unrun k).
Proof. intros w w1 Hi Hl Ha. unfold unrun. by rewrite (lt_executed _ _ Hl). Qed.

Lemma busy_stable n op : stable (busy n op).
Proof. apply stable_and; [apply at_work_stable|apply held_op_stable]. Qed.

#[local] Hint Resolve at_work_stable held_op_stable stated_stable answered_stable unrun_stable busy_stable
  stable_and stable_pure : stable.

Lemma mark_spec n op s blob :
  (lo_kind op = Some MailPlan → ∃ r, blob = result_to_vec r ∧ s = result_status r) →
  safe (mark_op_terminal (lo_plan_id op) (lo_operation_id op) s blob)
    (λ w, busy n op w ∧ answered op w)
    (λ _ w, at_work untold [leased_key op] None None n [(lo_plan_id op, lo_kind op)] w ∧ stated op blob w)
    never.
Proof.
  intros Hr. unfold mark_op_terminal. apply safe_execute; [auto with stable|].
  intros w Hi [[Hw (o & j & Eo & Ej & Hs & Ha & Hk & Ek & Eq & Eb)] Han].
  change (inv (with_db (set_op (end_op s blob) (leased_key op)) w) ∧
          at_work untold [leased_key op] None None n [(lo_plan_id op, lo_kind op)]
            (with_db (set_op (end_op s blob) (leased_key op)) w) ∧
          stated op blob (with_db (set_op (end_op s blob) (leased_key op)) w)).
  split; [|split].
  - apply inv_mark with o j; try done; [by rewrite Hs|]. intros Hm. unfold answered in Han.
    rewrite Ek, Hm, Eb in *. split; [by apply Hr|]. intros x. by apply Han.
  - rewrite Ek. by apply (at_work_mark known fin untold n w (leased_key op) o j s blob).
  - exists (end_op s blob o), j. split_and!; try done. apply set_op_lookup. left. split; [done|]. by exists o.
Qed.

(** A result that is not to be told. *)
Lemma silent n op blob es w :
  at_work untold [leased_key op] None None n es w → stated op blob w →
  lo_quiet op = true ∨ lo_kind op ≠ Some MailPlan → at_work untold [] None None n es w.
Proof.
  intros Hw (o & j & Eo & Ej & Ho & Ek & Eq) Hs. eapply at_work_reported; [exact Hw|].
  intros o' j' [Eo' Ej' Hk Hq] _. simpl in Ej'. rewrite Ej in Ej'. injection Ej' as <-.
  rewrite Ek, Eq, Hk, Hq in Hs. by destruct Hs.
Qed.

Lemma told n op r es w :
  at_work untold [leased_key op] None None n es w → stated op (result_to_vec r) w →
  at_work untold [] None None n es (with_sent (NOperationOutcome (lo_plan_id op) (lo_operation_id op) r) w).
Proof.
  intros Hw (o & j & Eo & Ej & Ho & Ek & Eq).
  eapply at_work_reported; [apply at_work_sent; exact Hw|].
  intros o' j' [Eo' _ _ _] _. simpl in Eo'. rewrite Eo in Eo'. injection Eo' as <-.
  exists r. split; [done|]. apply elem_of_app. right. apply list_elem_of_here.
Qed.

Lemma persist_and_emit_spec n op s r :
  (lo_kind op = Some MailPlan → s = result_status r) →
  safe (persist_and_emit op s r) (λ w, busy n op w ∧ answered op w) (λ _, ending_op n op) never.
Proof.
  intros Hs. unfold persist_and_emit. eapply safe_seq.
  { apply mark_spec. intros Hk. exists r. split; [done|by apply Hs]. }
  intros []. destruct (lo_quiet op) eqn:Eq.
  - apply safe_ret. intros w _ [Hw Hst]. eapply silent; [done..|by left].
  - apply safe_emit; [auto with stable|]. intros w Hi [Hw Hst]. split; [|by apply told].
    apply inv_emit; [done..|]. intros p i r' [= <- <- <-]. destruct Hst as (o & j & Eo & _ & Ho & _). by exists o.
Qed.

(** ** Running it *)

Lemma dispatch_op_spec {A} n op (f : list op_key → A) :
  safe (dispatch (leased_key op) f) (λ w, busy n op w ∧ unrun (leased_key op) w)
    (λ _ w, busy n op w ∧ answered op w) never.
Proof.
  apply safe_dispatch; [auto with stable|].
  intros w Hi [[Hw (o & j & Eo & Ej & Hs & Hr)] Hu]. split; [|split; [split|]].
  - apply inv_executed; [done| |exact Hu]. left. exists o. split; [done|by rewrite Hs].
  - by apply (at_work_ext known fin _ _ _ _ _ _ w).
  - by exists o, j.
  - intros _ _ _. apply elem_of_app. right. apply list_elem_of_here.
Qed.

Lemma run_one_spec n op :
  safe (run_one op) (λ w, busy n op w ∧ unrun (leased_key op) w) (λ _, ending_op n op)
    (λ w, busy n op w ∧ answered op w).
Proof.
  unfold run_one. destruct (lo_kind op) as [[]|] eqn:Ek.
  - unfold run_one_mail. destruct (op_from_slice (lo_operation_blob op)) as [e|wire] eqn:Ed.
    + apply safe_fail. intros w _ [Hb _]. split; [done|]. intros _ wire. by rewrite Ed.
    + eapply safe_seq; [apply dispatch_op_spec|]. intros outcomes. destruct (head outcomes) as [x|].
      * apply safe_never, persist_and_emit_spec. intros _. apply action_outcome_to_wire_status.
      * by apply safe_fail.
  - unfold run_one_calendar. destruct (cal_op_from_slice (lo_operation_blob op)) as [e|wire] eqn:Ed.
    + apply safe_fail. intros w _ [Hb _]. split; [done|]. intros Hk. by rewrite Ek in Hk.
    + eapply safe_seq; [apply dispatch_op_spec|]. intros results. destruct (last results) as [x|].
      2: by apply safe_fail.
      eapply safe_seq; [apply mark_spec; intros Hk; by rewrite Ek in Hk|]. intros [].
      assert (∀ es blob w, at_work untold [leased_key op] None None n es w → stated op blob w →
        at_work untold [] None None n es w) as Hsil.
      { intros es blob w Hw Hst. eapply silent; [done..|]. right. by rewrite Ek. }
      destruct (lo_quiet op) eqn:Eq.
      * apply safe_ret. intros w _ [Hw Hst]. by eapply Hsil.
      * apply safe_never, safe_emit; [auto with stable|]. intros w Hi [Hw Hst].
        split; [by apply inv_emit|]. apply at_work_sent. by eapply Hsil.
  - apply safe_never. eapply safe_pre; [apply persist_and_emit_spec|].
    + by rewrite Ek.
    + intros w _ [Hb _]. split; [done|]. intros Hk. by rewrite Ek in Hk.
Qed.

(** ** Finishing a plan *)

(** All its operations are counted, and finished. *)
Definition all_closed p (c : OpStatusCounts) w : Prop :=
  (∃ j, jobs (db w) !! p = Some j) ∧ counts_match c (plan_ops (db w) p) ∧
  ∀ n o, ops (db w) !! (p, n) = Some o → closed o.

Definition summarised p (st : JobStatus) (s : PlanSummary) w : Prop :=
  ∃ j, jobs (db w) !! p = Some j ∧ (∀ n o, ops (db w) !! (p, n) = Some o → closed o) ∧
    (kind j = kind_mail_plan → st = status_of_counts (plan_ops (db w) p) ∧ summary_ok (plan_ops (db w) p) s).

(** Finished in the journal, the app not told. *)
Definition finalized p (pk : option PerOpJobKind) (s : PlanSummary) w : Prop :=
  ∃ j, jobs (db w) !! p = Some j ∧ pk = per_op_from_sql (kind j) ∧
    (kind j = kind_mail_plan →
       status j = status_of_counts (plan_ops (db w) p) ∧ summary j = Some (summary_to_vec s) ∧
       summary_ok (plan_ops (db w) p) s ∧ (∀ s', NActionCompleted p s' ∉ sent w)).

Lemma all_closed_stable p c : stable (all_closed p c).
Proof.
  intros w w1 Hi [Hg _ _ _ _ _ _] ([j Ej] & Hc & Ho). split; [|split].
  - exists j. by eapply grows_job.
  - by rewrite <- (plan_ops_grows _ _ _ _ Hg Ej).
  - intros n o Eo. apply (Ho n). by apply (grows_op_back _ _ (p, n) o j Hg).
Qed.

Lemma summarised_stable p st s : stable (summarised p st s).
Proof.
  intros w w1 Hi [Hg _ _ _ _ _ _] (j & Ej & Ho & Hs). exists j. split; [|split].
  - by eapply grows_job.
  - intros n o Eo. apply (Ho n). by apply (grows_op_back _ _ (p, n) o j Hg).
  - by rewrite <- (plan_ops_grows _ _ _ _ Hg Ej).
Qed.

Lemma finalized_stable p pk s : stable (finalized p pk s).
Proof.
  intros w w1 Hi [Hg Es _ _ _ _ _] (j & Ej & Hk & Hs). exists j. split; [by eapply grows_job|]. split; [done|].
  by rewrite <- (plan_ops_grows _ _ _ _ Hg Ej), Es.
Qed.

#[local] Hint Resolve all_closed_stable summarised_stable finalized_stable : stable.

Lemma summary_of_rows w p c :
  inv w → all_closed p c w →
  summarised p (job_terminal (plan_status c)) (plan_summary c (finished_ops p (db w))) w.
Proof.
  intros Hi ([j Ej] & Hc & Ho). exists j. split; [done|]. split; [exact Ho|]. intros Hk. split.
  - by apply plan_status_counts.
  - apply plan_summary_ok; [done|]. intros n o Eo.
    destruct (jo_mail _ (in_journal _ _ _ Hi) (p, n) o j Eo Ej Hk (Ho n o Eo)) as (r & Er & _). by exists r.
Qed.

Lemma finalize_job_spec n p pk es st s :
  safe (finalize_job p st (summary_to_vec s))
    (λ w, at_work untold [] None None n ((p, pk) :: es) w ∧ summarised p (job_terminal st) s w)
    (λ _ w, at_work (p :: untold) [] None None n es w ∧ finalized p pk s w) never.
Proof.
  unfold finalize_job. eapply safe_seq; [apply safe_step; auto with stable|]. intros [].
  eapply safe_seq; [apply safe_get|]. intros w0.
  apply (safe_change _ _ (λ w, at_work (p :: untold) [] None None n es w ∧ finalized p pk s w)).
  intros w Hi (-> & Hw & j & Ej & Hc & Hs).
  destruct (aw_ending _ _ _ _ _ _ _ _ _ Hw p pk) as (j' & Ej' & Hk & Ha & Hpk); [apply list_elem_of_here|].
  rewrite Ej in Ej'. injection Ej' as <-. set (f := end_job st (summary_to_vec s) (unixepoch w)).
  change (inv (with_db (set_job f p) w) ∧ at_work (p :: untold) [] None None n es (with_db (set_job f p) w) ∧
    finalized p pk s (with_db (set_job f p) w)).
  split; [|split].
  - apply inv_set_job with j; [apply keeps_end|done..|]. intros _ i o Eo. split; [by apply (Hc i)|].
    intros Hm Hq. apply (aw_rep _ _ _ _ _ _ _ _ _ Hw (p, i) o j); [by constructor|by apply (Hc i)|apply not_elem_of_nil].
  - by eapply at_work_end.
  - exists (f j). split; [|split; [done|]].
    + apply set_job_lookup. left. split; [done|]. by exists j.
    + intros Hm. destruct (Hs Hm) as [Hst Hsum].
      change (plan_ops (db (with_db (set_job f p) w)) p) with (plan_ops (set_job f p (db w)) p).
      rewrite plan_ops_set_job. split_and!; [done..|]. intros s'.
      by apply (active_not_completed (db w) (sent w) p j s' (in_complete _ _ _ Hi)).
Qed.

Lemma emit_completed_spec n es p pk s :
  safe (emit (NActionCompleted p s)) (λ w, at_work (p :: untold) [] None None n es w ∧ finalized p pk s w)
    (λ _, at_work untold [] None None n es) never.
Proof.
  apply safe_emit; [auto with stable|]. intros w Hi [Hw (j & Ej & _ & Hm)].
  split; [by apply inv_emit_completed with j|].
  eapply at_work_told; [apply at_work_sent; exact Hw|]. intros _ _ _. exists s.
  apply elem_of_app. right. apply list_elem_of_here.
Qed.

Lemma emit_cal_completed_spec n es p rs :
  safe (emit (NCalendarActionCompleted p rs)) (at_work untold [] None None n es)
    (λ _, at_work untold [] None None n es) never.
Proof.
  apply safe_emit; [auto with stable|]. intros w Hi Hw. split; [by apply inv_emit|by apply at_work_sent].
Qed.

(** Of a plan that is not a mail plan there is no completion to tell. *)
Lemma other_plan n es p pk s w :
  at_work (p :: untold) [] None None n es w ∧ finalized p pk s w → pk ≠ Some MailPlan →
  at_work untold [] None None n es w.
Proof.
  intros [Hw (j & Ej & -> & _)] Hk. eapply at_work_told; [exact Hw|].
  intros j' Ej' Hm. rewrite Ej in Ej'. injection Ej' as <-. by rewrite Hm in Hk.
Qed.

Lemma maybe_finalize_spec n p pk es :
  safe (maybe_finalize p pk) (at_work untold [] None None n ((p, pk) :: es))
    (λ _, at_work untold [] None None n es) (at_work untold [] None None n es).
Proof.
  unfold maybe_finalize. eapply safe_seq; [apply safe_query; auto with stable|]. intros c.
  destruct (0 <? counts_non_terminal c)%N eqn:E.
  { apply safe_ret. intros w _ [-> Hw]. eapply at_work_open; [exact Hw|].
    apply N.ltb_lt in E. destruct (non_terminal_spec p (db w)) as [[Hz _]|[_ Ho]]; [lia|exact Ho]. }
  eapply safe_seq.
  { eapply safe_pre;
      [apply (safe_query _ _ _ (λ w, at_work untold [] None None n ((p, pk) :: es) w ∧ all_closed p c w))|].
    - auto with stable.
    - intros w Hi [-> Hw]. split; [done|]. split; [|split; [apply counts_of_match|]].
      + destruct (aw_ending _ _ _ _ _ _ _ _ _ Hw p pk) as (j & Ej & _); [apply list_elem_of_here|]. by exists j.
      + apply N.ltb_ge in E. destruct (non_terminal_spec p (db w)) as [[_ Ho]|[Hlt _]]; [exact Ho|lia]. }
  intros rows. eapply safe_seq.
  { eapply safe_pre; [apply (finalize_job_spec n p pk es)|].
    intros w Hi (-> & Hw & Hc). split; [done|]. by apply summary_of_rows. }
  intros []. set (s := plan_summary c rows).
  eapply (safe_bind _ _ _ _ _ (λ _ w, at_work (p :: untold) [] None None n es w ∧ finalized p pk s w)).
  { unfold cal_completion. destruct pk as [[]|]; [by apply safe_ret| |];
      (destruct (cal_results rows); [apply safe_fail; intros w _ Hw; by eapply other_plan|by apply safe_ret]). }
  intros results. destruct pk as [[]|].
  - apply safe_never, emit_completed_spec.
  - apply safe_never. eapply safe_pre; [apply emit_cal_completed_spec|]. intros w _ Hw. by eapply other_plan.
  - eapply safe_seq; [apply emit_completed_spec|]. intros []. apply safe_never, emit_cal_completed_spec.
Qed.

(** ** Draining the operations *)

Lemma run_leased_spec n op :
  safe (run_leased op) (λ w, busy n op w ∧ unrun (leased_key op) w) (λ _, idle n) never.
Proof.
  unfold run_leased. eapply safe_seq; [eapply safe_attempt, run_one_spec|]. intros r.
  eapply (safe_seq _ _ _ (λ _, ending_op n op)).
  - destruct r as [e|[]]; [|by apply safe_ret]. apply safe_ignore.
    assert (safe (persist_and_emit op TFailed (worker_failure e)) (λ w, busy n op w ∧ answered op w)
      (λ _, ending_op n op) never) as Hp by (by apply persist_and_emit_spec).
    by apply safe_never.
  - intros []. apply safe_ignore. apply maybe_finalize_spec.
Qed.

(** No operation is waiting in a job that is not finished. *)
Definition nothing_ready w : Prop := ready_ops (db w) = [].

Lemma lease_op_spec n owner d :
  safe (lease_next_ready_op owner d) (idle n)
    (λ r w, match r with
            | None => idle n w ∧ nothing_ready w
            | Some op => 0 < n ∧ busy (pred n) op w ∧ unrun (leased_key op) w
            end) never.
Proof.
  unfold lease_next_ready_op. eapply safe_seq; [apply safe_query; apply at_work_stable|].
  intros [[[k o] j]|].
  2: { apply safe_ret. intros w _ [E Hw]. split; [done|]. unfold nothing_ready.
       by destruct (ready_ops (db w)). }
  eapply safe_seq; [apply safe_get|]. intros w0.
  set (op := mkLeasedOp k.1 k.2 (ordinal o) (thread_id o) (operation o) (account_id j) (quiet j)
               (per_op_from_sql (kind j)) (kind j)).
  eapply (safe_seq _ _ _ (λ _ w, 0 < n ∧ busy (pred n) op w ∧ unrun (leased_key op) w)).
  2: { intros []. by apply safe_ret. }
  apply (safe_change _ _ (λ w, 0 < n ∧ busy (pred n) op w ∧ unrun (leased_key op) w)).
  intros w Hi (-> & E & Hw).
  assert ((k, o, j) ∈ ready_ops (db w)) as Hin.
  { destruct (ready_ops (db w)) as [|x xs]; [done|]. simpl in E. injection E as <-. apply list_elem_of_here. }
  apply elem_of_ready in Hin as (Eo & Ej & Hs & Ha).
  assert (leased_key op = k) as Hkey by (by destruct k).
  set (f := lease_op owner (now w + d)%Z).
  change (inv (with_db (set_op f k) w) ∧ 0 < n ∧ busy (pred n) op (with_db (set_op f k) w) ∧
          unrun (leased_key op) (with_db (set_op f k) w)).
  destruct (at_work_lease known fin untold n w k o j owner (now w + d)%Z Hw Eo Hs Ej Ha) as [Hn Hw'].
  rewrite <- Hkey in *. split; [by eapply inv_lease|]. split; [done|]. split; [split; [done|]|].
  - exists (f o), j. rewrite Hkey in *. split_and!; try done; [apply set_op_lookup; left; split; [done|]; by exists o|].
    by eapply jo_quiet; [apply Hi|..].
  - intros new E' Hin. destruct (in_once _ _ _ Hi) as (new' & E1 & _ & Hsp).
    simpl in E'. rewrite E1 in E'. apply app_inj_1 in E' as [_ <-]; [|done].
    destruct (Hsp _ Hin) as [(o' & Eo' & Hs')|(j' & Ej' & Hk' & _)].
    + by simplify_eq.
    + rewrite Ej in Ej'. injection Ej' as <-. apply Hk'. by eapply jo_quiet; [apply Hi|..].
Qed.

Lemma drain_ops_spec fuel owner n :
  n < fuel → safe (drain_ops fuel owner) (idle n) (λ _ w, idle n w ∧ nothing_ready w) never.
Proof.
  revert n. induction fuel as [|fuel IH]; intros n Hn; [lia|]. cbn [drain_ops].
  eapply safe_seq; [eapply safe_attempt, lease_op_spec|]. intros [e|[op|]].
  - apply safe_ret. by intros w _ ?.
  - apply safe_pure. intros Hpos. eapply safe_seq; [apply run_leased_spec|]. intros [].
    eapply safe_weaken; [apply (IH (pred n)); lia|by auto| |by intros w _ ?].
    intros [] w _ [Hw Hr]. split; [|done]. eapply at_work_more; [|exact Hw]. lia.
  - by apply safe_ret.
Qed.

End runs.
