(* ===== verification/WorkerPass.v ===== *)
(** * The action worker: a pass

    A pass over the plans, and the drains of the quiet jobs, from states at work. *)

From S2P Require Import Prelude.
From S2P Require Import Strings.
From S2P Require Import Bytes.
From S2P Require Import ActionTypes.
From S2P Require Import Journal.
From S2P Require Import Worker.
From S2P Require Import JournalTheory.
From S2P Require Import WorkerTheory.
From S2P Require Import WorkerSteps.
From S2P Require Import WorkerRuns.
From stdpp Require Import sorting.

Section life.
Context `{TableScan, Serde, Providers}.
Implicit Types (t : tables) (l : list Notification) (k : op_key) (p : PlanId) (w : world) (o : Op) (j : Job).
Context (mortal : bool) (e0 : list op_key) (known : list (PlanId * str)) (fin untold : list PlanId).

#[local] Notation safe := (safe mortal e0).
#[local] Notation inv := (inv mortal e0).
#[local] Notation stable := (stable mortal e0).
#[local] Notation at_work := (at_work known fin untold).
#[local] Notation idle := (idle known fin untold).

Lemma safe_exists {A B} (m : M A) (P : B → world → Prop) Q E :
  (∀ x, safe m (P x) Q E) → safe m (λ w, ∃ x, P x w) Q E.
Proof. intros Hm w Hi [x Hx]. by apply (Hm x). Qed.

(** What the state says of the step. *)
Lemma safe_fact {A} (φ : Prop) (m : M A) (P : world → Prop) Q E :
  (∀ w, inv w → P w → φ) → (φ → safe m P Q E) → safe m P Q E.
Proof. intros Hφ Hm w Hi HP. by apply (Hm (Hφ w Hi HP)). Qed.

(** ** The pass over the plans *)

Lemma NoDup_filter_keys {K A} (f : K * A → bool) (xs : list (K * A)) :
  NoDup xs.*1 → NoDup (List.filter f xs).*1.
Proof.
  rewrite list_filter_bool. induction xs as [|x xs IH]; [done|]. rewrite fmap_cons, NoDup_cons. intros [Hx Hn].
  rewrite filter_cons. case_decide; [|by apply IH]. rewrite fmap_cons, NoDup_cons. split; [|by apply IH].
  intros (y & E & [_ Hy]%list_elem_of_filter)%list_elem_of_fmap. apply Hx. rewrite E. by apply list_elem_of_fmap_2.
Qed.

Lemma existsb_false {A} (f : A → bool) (xs : list A) : existsb f xs = false ↔ ∀ x, x ∈ xs → f x = false.
Proof.
  rewrite <- not_true_iff_false, existsb_exists. split.
  - intros Hn x Hx. apply not_true_is_false. intros E. apply Hn. exists x. by rewrite <- list_elem_of_In.
  - intros Hf (x & Hx%list_elem_of_In & E). by rewrite (Hf x Hx) in E.
Qed.

(** The plans in a list of jobs. *)
Definition plan_entry (e : PlanId * Job) : PlanId * option PerOpJobKind := (e.1, per_op_from_sql (kind e.2)).

Lemma plan_entries (f : PlanId * Job → bool) (es : list (PlanId * Job)) t :
  es ≡ₚ map_to_list (jobs t) →
  NoDup (plan_entry <$> List.filter f es).*1 ∧
  ∀ p pk, (p, pk) ∈ plan_entry <$> List.filter f es ↔
    ∃ j, jobs t !! p = Some j ∧ f (p, j) = true ∧ pk = per_op_from_sql (kind j).
Proof.
  intros Hp. split.
  - rewrite <- list_fmap_compose. apply NoDup_filter_keys. rewrite Hp. apply NoDup_fst_map_to_list.
  - intros p pk. rewrite list_elem_of_fmap. split.
    + intros ([p' j] & [= -> ->] & Hin). rewrite list_filter_bool, list_elem_of_filter, Hp, elem_of_map_to_list in Hin.
      destruct Hin. by exists j.
    + intros (j & Ej & Hf & ->). exists (p, j). split; [done|].
      by rewrite list_filter_bool, list_elem_of_filter, Hp, elem_of_map_to_list.
Qed.

Definition strandable t (e : PlanId * Job) : bool :=
  negb (bool_decide (kind e.2 = kind_send) || bool_decide (kind e.2 = kind_mark_chat_read)) &&
  job_active (status e.2) &&
  negb (existsb (λ o : op_key * Op, op_open (op_status o.2)) (ops_of e.1 t)).

Lemma strandable_spec t p j :
  strandable t (p, j) = true ↔
  per_op_kind (kind j) ∧ job_active (status j) = true ∧ ∀ n o, ops t !! (p, n) = Some o → closed o.
Proof.
  unfold strandable, per_op_kind. simpl.
  rewrite !andb_true_iff, !negb_true_iff, orb_false_iff, !bool_decide_eq_false, existsb_false.
  split.
  - intros [[Hk Ha] Ho]. split_and!; [apply Hk..|done|]. intros n o Eo.
    apply (Ho ((p, n), o)). by apply elem_of_ops_of.
  - intros (Hk & Ha & Ho). split; [done|]. intros [k o] [Eo Ek]%elem_of_ops_of. destruct k as [p' n].
    simpl in *. subst p'. by apply (Ho n).
Qed.

(** The query finds the plans to be finished. *)
Lemma at_work_unfinalized u h q n es w :
  at_work u h q n es w → at_work u h q n (unfinalized (db w)) w.
Proof.
  intros [A1 A2 A3 A4 A5 A6 A7 A8 A9 A10].
  destruct (plan_entries (strandable (db w)) (scan_jobs (jobs (db w))) (db w)) as [Hnd Hin]; [apply scan_jobs_rows|].
  constructor; try done.
  - intros p j Ej Hk Ha Hp.
    destruct (decide (Exists (λ e : op_key * Op, op_open (op_status e.2) = true) (ops_of p (db w)))) as [Hex|Hno].
    + apply Exists_exists in Hex as ([k o] & [Eo <-]%elem_of_ops_of & Hop). exists k.2, o. by destruct k.
    + destruct Hp. apply list_elem_of_fmap. exists (p, per_op_from_sql (kind j)). split; [done|].
      apply Hin. exists j. split; [done|]. split; [|done]. apply strandable_spec. split_and!; [done..|].
      intros i o Eo. apply not_true_is_false. intros Hop. apply Hno, Exists_exists.
      exists ((p, i), o). by rewrite elem_of_ops_of.
  - intros p pk (j & Ej & Hs & ->)%Hin. apply strandable_spec in Hs as (Hk & Ha & _). by exists j.
Qed.

Lemma finalize_stranded_spec n es :
  safe finalize_stranded (at_work [] None None n es) (λ _, idle n) never.
Proof.
  unfold finalize_stranded. eapply safe_seq; [eapply safe_attempt, safe_query, at_work_stable|].
  intros [e|xs]; [by intros w _ ?|].
  eapply safe_pre.
  - apply (safe_for_each _ _ _ xs (λ xs, at_work [] None None n xs)).
    intros [p pk] xs'. apply safe_ignore, maybe_finalize_spec.
  - intros w _ [-> Hw]. by apply at_work_unfinalized in Hw.
Qed.

Lemma drain_one_pass_spec owner n es :
  safe (drain_one_pass owner) (at_work [] None None n es) (λ _ w, (∃ n, idle n w) ∧ nothing_ready w) never.
Proof.
  unfold drain_one_pass. eapply safe_seq; [apply finalize_stranded_spec|]. intros [].
  eapply safe_seq; [apply safe_get|]. intros w0.
  eapply safe_weaken; [apply (drain_ops_spec mortal e0 known fin untold (S (work w0)) owner (work w0)); lia| | |by auto].
  - intros w _ [-> Hw]. destruct Hw. by constructor.
  - intros [] w _ [Hw Hr]. split; [by eexists|done].
Qed.

(** Then every plan is finished. *)
Lemma plans_finished n w p j :
  inv w → idle n w → nothing_ready w → jobs (db w) !! p = Some j → per_op_kind (kind j) →
  job_active (status j) = false.
Proof.
  intros Hi Hw Hr Ej Hk. apply not_true_is_false. intros Ha.
  destruct (aw_settled _ _ _ _ _ _ _ _ _ Hw p j Ej Hk Ha) as (i & o & Eo & Hop); [apply not_elem_of_nil|].
  destruct (op_leased (op_status o)) eqn:El; [by specialize (aw_leased _ _ _ _ _ _ _ _ _ Hw _ _ Eo El)|].
  assert (op_status o = OpPending) as Es by (by destruct (op_status o)).
  assert (((p, i), o, j) ∈ ready_ops (db w)) as Hin by (by apply elem_of_ready).
  rewrite Hr in Hin. by apply elem_of_nil in Hin.
Qed.

(** ** Quiet jobs *)

Definition quiet_kind kd : Prop := kd = kind_send ∨ kd = kind_mark_chat_read.

Lemma quiet_kind_spec kd : quiet_kind kd ↔ ¬ per_op_kind kd.
Proof.
  unfold quiet_kind, per_op_kind. destruct (decide (kd = kind_send)); destruct (decide (kd = kind_mark_chat_read)); tauto.
Qed.

Definition held_job kd (job : LeasedQuietJob) w : Prop :=
  ∃ j, jobs (db w) !! lq_job_id job = Some j ∧ kind j = kd ∧ status j = Executing ∧ lq_payload job = payload j.

(** At most so many jobs of the kind wait. *)
Definition at_most kd (m : nat) w : Prop := queued_jobs kd w ≤ m.

Definition serving kd (n m : nat) (job : LeasedQuietJob) w : Prop :=
  at_work [] None (Some (lq_job_id job)) n [] w ∧ held_job kd job w ∧ at_most kd m w.

Definition quiet_idle kd (n m : nat) w : Prop := idle n w ∧ at_most kd m w.

Lemma held_job_stable kd job : stable (held_job kd job).
Proof.
  intros w w1 Hi Hl (j & Ej & Hr). exists j. split; [|done]. eapply grows_job; [apply Hl|done].
Qed.

Lemma at_most_stable kd m : stable (at_most kd m).
Proof. intros w w1 Hi Hl Hm. unfold at_most. pose proof (lt_queued _ _ Hl kd). unfold at_most in Hm. lia. Qed.

Lemma serving_stable kd n m job : stable (serving kd n m job).
Proof. apply stable_and; [apply at_work_stable|]. apply stable_and; [apply held_job_stable|apply at_most_stable]. Qed.

Lemma quiet_idle_stable kd n m : stable (quiet_idle kd n m).
Proof. apply stable_and; [apply at_work_stable|apply at_most_stable]. Qed.

#[local] Hint Resolve at_work_stable held_job_stable at_most_stable serving_stable quiet_idle_stable
  unrun_stable stable_and stable_pure : stable.

(** Changing a job that then does not wait. *)
Lemma queued_set_job f kd p w :
  keeps f → queued_jobs kd (with_db (set_job f p) w) ≤ queued_jobs kd w.
Proof.
  intros Hf. unfold queued_jobs. simpl. apply Nat.add_le_mono_r, map_subseteq_size, map_subseteq_spec.
  intros p' j' [Ej [Hk Hs]]%map_lookup_filter_Some. apply map_lookup_filter_Some.
  apply (set_job_lookup f p (db w)) in Ej as [(-> & j0 & E0 & ->)|[_ Ej]]; [|done].
  destruct (Hf j0) as (_ & _ & _ & Hq). done.
Qed.

Lemma queued_lease f kd p j w :
  keeps f → jobs (db w) !! p = Some j → kind j = kd → status j = Queued →
  queued_jobs kd (with_db (set_job f p) w) < queued_jobs kd w.
Proof.
  intros Hf Ej Hk Hs. unfold queued_jobs. simpl. apply Nat.add_lt_mono_r, map_subset_size, map_subset_alt. split.
  - apply map_subseteq_spec. intros p' j' [Ej' Hs']%map_lookup_filter_Some. apply map_lookup_filter_Some.
    apply (set_job_lookup f p (db w)) in Ej' as [(-> & j0 & E0 & ->)|[_ Ej']]; [|done].
    destruct (Hf j0) as (_ & _ & _ & Hq). by destruct Hs'.
  - exists p. split; [|exists j; by apply map_lookup_filter_Some].
    apply map_lookup_filter_None. right. intros j' E'.
    apply (set_job_lookup f p (db w)) in E' as [(_ & j0 & E0 & ->)|[? _]]; [|done].
    destruct (Hf j0) as (_ & _ & _ & Hq). by intros [_ ?].
Qed.

Lemma elem_of_ready_quiet kd p j t :
  (p, j) ∈ ready_quiet_jobs kd t ↔ jobs t !! p = Some j ∧ kind j = kd ∧ status j = Queued.
Proof.
  unfold ready_quiet_jobs, order_by.
  rewrite merge_sort_Permutation, list_filter_bool, list_elem_of_filter, scan_jobs_rows, elem_of_map_to_list.
  simpl. rewrite andb_true_iff, !bool_decide_eq_true. tauto.
Qed.

Definition nothing_queued kd w : Prop := ready_quiet_jobs kd (db w) = [].

Lemma lease_job_spec kd n m owner d :
  quiet_kind kd →
  safe (lease_next_ready_quiet_job kd owner d) (quiet_idle kd n m)
    (λ r w, match r with
            | None => idle n w ∧ nothing_queued kd w
            | Some job => 0 < m ∧ serving kd n (pred m) job w ∧ unrun e0 (lq_job_id job, 0%N) w
            end) never.
Proof.
  intros Hq. unfold lease_next_ready_quiet_job. eapply safe_seq; [apply safe_query; auto with stable|].
  intros [[p j]|].
  2: { apply safe_ret. intros w _ [E [Hw _]]. split; [done|]. unfold nothing_queued.
       by destruct (ready_quiet_jobs kd (db w)). }
  eapply safe_seq; [apply safe_get|]. intros w0. set (job := mkLeasedQuietJob p (kind j) (account_id j) (payload j)).
  eapply (safe_seq _ _ _ _ _ (λ _ w, 0 < m ∧ serving kd n (pred m) job w ∧ unrun e0 (lq_job_id job, 0%N) w)).
  2: { intros []. by apply safe_ret. }
  apply (safe_change _ _ _ _ (λ w, 0 < m ∧ serving kd n (pred m) job w ∧ unrun e0 (lq_job_id job, 0%N) w)).
  intros w Hi (-> & E & Hw & Hm).
  assert ((p, j) ∈ ready_quiet_jobs kd (db w)) as Hin.
  { destruct (ready_quiet_jobs kd (db w)) as [|x xs]; [done|]. simpl in E. injection E as <-. apply list_elem_of_here. }
  apply elem_of_ready_quiet in Hin as (Ej & Hk & Hs).
  set (f := lease_job owner (now w + d)%Z (unixepoch w)).
  change (inv (with_db (set_job f p) w) ∧ 0 < m ∧ serving kd n (pred m) job (with_db (set_job f p) w) ∧
    unrun e0 (p, 0%N) (with_db (set_job f p) w)).
  assert (¬ per_op_kind (kind j)) as Hkj by (rewrite Hk; by apply quiet_kind_spec).
  assert (job_active (status j) = true) as Ha by (by rewrite Hs).
  pose proof (queued_lease f kd p j w (keeps_lease _ _ _) Ej Hk Hs) as Hlt. unfold at_most in Hm.
  split; [|split; [lia|split; [split; [|split]|]]].
  - by apply inv_set_job with j.
  - by apply (at_work_lease_job known fin untold n w p j).
  - exists (f j). split_and!; try done. apply set_job_lookup. left. split; [done|]. by exists j.
  - unfold at_most. lia.
  - intros new E' Hin. destruct (in_once _ _ _ Hi) as (new' & E1 & _ & Hsp).
    simpl in E'. rewrite E1 in E'. apply app_inj_1 in E' as [_ <-]; [|done].
    destruct (Hsp _ Hin) as [(o' & Eo' & _)|(j' & Ej' & _ & Hs')].
    + apply Hkj. by eapply jo_quiet; [apply Hi|..].
    + simpl in Ej'. rewrite Ej in Ej'. injection Ej' as <-. done.
Qed.

(** The completion of a quiet job is not that of a plan. *)
Definition quiet_job p w : Prop := ∃ j, jobs (db w) !! p = Some j ∧ ¬ per_op_kind (kind j).

Lemma quiet_job_stable p : stable (quiet_job p).
Proof. intros w w1 Hi Hl (j & Ej & Hr). exists j. split; [|done]. eapply grows_job; [apply Hl|done]. Qed.

#[local] Hint Resolve quiet_job_stable : stable.

Lemma finalize_quiet_spec kd n m job st blob :
  quiet_kind kd →
  safe (finalize_job (lq_job_id job) st blob) (serving kd n m job)
    (λ _ w, quiet_idle kd n m w ∧ quiet_job (lq_job_id job) w) never.
Proof.
  intros Hq. unfold finalize_job. eapply safe_seq; [apply safe_step; auto with stable|]. intros [].
  eapply safe_seq; [apply safe_get|]. intros w0.
  apply (safe_change _ _ _ _ (λ w, quiet_idle kd n m w ∧ quiet_job (lq_job_id job) w)).
  intros w Hi (-> & Hw & (j & Ej & Hk & Hs & Hp) & Hm). set (f := end_job st blob (unixepoch w)).
  change (inv (with_db (set_job f (lq_job_id job)) w) ∧
    quiet_idle kd n m (with_db (set_job f (lq_job_id job)) w) ∧
    quiet_job (lq_job_id job) (with_db (set_job f (lq_job_id job)) w)).
  assert (¬ per_op_kind (kind j)) as Hkj by (rewrite Hk; by apply quiet_kind_spec).
  split; [|split; [split|]].
  - apply inv_set_job with j; [apply keeps_end|done|done|by rewrite Hs|]. intros _ i o Eo.
    destruct Hkj. by apply (jo_quiet _ (in_journal _ _ _ Hi) _ _ _ Eo).
  - by apply at_work_end_job with j.
  - unfold at_most in *. etrans; [apply queued_set_job, keeps_end|exact Hm].
  - exists (f j). split; [|done]. apply set_job_lookup. left. split; [done|]. by exists j.
Qed.

Lemma emit_quiet_spec kd n m p s :
  safe (emit (NActionCompleted p s)) (λ w, quiet_idle kd n m w ∧ quiet_job p w) (λ _, quiet_idle kd n m) never.
Proof.
  apply safe_emit; [auto with stable|]. intros w Hi [[Hw Hm] (j & Ej & Hk)]. split; [|split; [by apply at_work_sent|done]].
  apply inv_emit_completed with j; [done..|]. intros Hmail. destruct Hk. rewrite Hmail. done.
Qed.

Lemma dispatch_quiet_spec {A} kd n m job (f : list op_key → A) :
  quiet_kind kd →
  safe (dispatch (lq_job_id job, 0%N) f) (λ w, serving kd n m job w ∧ unrun e0 (lq_job_id job, 0%N) w)
    (λ _, serving kd n m job) never.
Proof.
  intros Hq. apply safe_dispatch; [auto with stable|].
  intros w Hi [(Hw & (j & Ej & Hk & Hs & Hp) & Hm) Hu]. split; [|split; [|split]].
  - apply inv_executed; [done| |exact Hu]. right. exists j. split; [done|]. rewrite Hk, Hs.
    split; [by apply quiet_kind_spec|done].
  - by apply (at_work_ext known fin _ _ _ _ _ _ w).
  - by exists j.
  - exact Hm.
Qed.

(** What a quiet drain asks of the procedure for a failed job. *)
Definition quiet_failed kd (failed : LeasedQuietJob → M unit) : Prop := ∀ n m job,
  safe (failed job) (serving kd n m job) (λ _, quiet_idle kd n m) never.

Lemma drain_quiet_spec fuel kd run failed owner n m :
  quiet_kind kd →
  (∀ n m job, safe (run job) (λ w, serving kd n m job w ∧ unrun e0 (lq_job_id job, 0%N) w)
                (λ _, quiet_idle kd n m) (serving kd n m job)) →
  quiet_failed kd failed → m < fuel →
  safe (drain_quiet fuel kd run failed owner) (quiet_idle kd n m) (λ _ w, idle n w ∧ nothing_queued kd w) never.
Proof.
  intros Hq Hrun Hfail. revert m. induction fuel as [|fuel IH]; intros m Hm; [lia|]. cbn [drain_quiet].
  eapply safe_seq; [by eapply safe_attempt, lease_job_spec|]. intros [e|[job|]].
  - by intros w _ ?.
  - apply safe_pure. intros Hpos. eapply safe_seq; [eapply safe_attempt, Hrun|]. intros r.
    eapply (safe_seq _ _ _ _ _ (λ _, quiet_idle kd n (pred m))).
    + destruct r; [apply Hfail|by apply safe_ret].
    + intros []. eapply IH. lia.
  - by apply safe_ret.
Qed.

Lemma finalize_failed_spec kd n m job s :
  quiet_kind kd → safe (finalize_failed (lq_job_id job) s) (serving kd n m job) (λ _, quiet_idle kd n m) never.
Proof.
  intros Hq. unfold finalize_failed. apply safe_ignore. apply safe_never.
  eapply safe_weaken; [by apply finalize_quiet_spec|by auto| |by auto]. by intros [] w _ [? _].
Qed.

Lemma run_mark_chat_read_spec n m job :
  safe (run_mark_chat_read job)
    (λ w, serving kind_mark_chat_read n m job w ∧ unrun e0 (lq_job_id job, 0%N) w)
    (λ _, quiet_idle kind_mark_chat_read n m) (serving kind_mark_chat_read n m job).
Proof.
  assert (quiet_kind kind_mark_chat_read) as Hq by (by right).
  unfold run_mark_chat_read. destruct (chat_read_from_slice (lq_payload job)) as [e|payload].
  { apply safe_fail. by intros w _ [? _]. }
  eapply (safe_seq _ _ _ _ _ (λ _, serving kind_mark_chat_read n m job)).
  { destruct (is_nil (affected payload)); [apply safe_ret; by intros w _ [? _]|by apply dispatch_quiet_spec]. }
  intros []. eapply safe_seq; [by apply finalize_quiet_spec|]. intros []. apply safe_never, emit_quiet_spec.
Qed.

(** *** Sends *)

Definition with_vault (f : gmap vault_path bytes → gmap vault_path bytes) w : world :=
  World (db w) (now w) (schedule w) (sent w) (executed w) (f (vault w)).

Lemma inv_vault f w : inv w → inv (with_vault f w).
Proof. intros [I1 I2 I3 I4 I5 I6 I7]. by constructor. Qed.

(** The assertion does not depend on the vault. *)
Definition vaultless (P : world → Prop) : Prop := ∀ f w, P w → P (with_vault f w).

Lemma serving_vaultless kd n m job : vaultless (serving kd n m job).
Proof. intros f w (Hw & Hj & Hm). split; [|done]. by apply (at_work_ext known fin _ _ _ _ _ _ w). Qed.

Lemma quiet_idle_vaultless kd n m : vaultless (quiet_idle kd n m).
Proof. intros f w (Hw & Hm). split; [|done]. by apply (at_work_ext known fin _ _ _ _ _ _ w). Qed.

Lemma cleanup_spec p P : stable P → vaultless P → safe (cleanup_vault_dir p) P (λ _, P) never.
Proof.
  intros Hst Hv. unfold cleanup_vault_dir. eapply safe_seq; [by apply safe_alive|]. intros [].
  apply safe_set. intros w Hi HP. split; [by apply (inv_vault (filter _))|by apply (Hv (filter _))].
Qed.

Lemma read_attachments_spec atts P : stable P → safe (read_attachments atts) P (λ _, P) P.
Proof.
  intros Hst. induction atts as [|a atts IH]; [by apply safe_ret|]. cbn [read_attachments].
  eapply safe_seq; [by apply safe_step|]. intros []. eapply safe_seq; [apply safe_get|]. intros w0.
  eapply safe_pre; [|intros w _ [_ HP]; exact HP].
  destruct (vault w0 !! ja_vault_path a) as [data|]; [|by apply safe_fail].
  eapply safe_bind; [exact IH|]. intros rest. by apply safe_ret.
Qed.

Lemma run_send_spec n m job :
  safe (run_send job) (λ w, serving kind_send n m job w ∧ unrun e0 (lq_job_id job, 0%N) w)
    (λ _, quiet_idle kind_send n m) (serving kind_send n m job).
Proof.
  assert (quiet_kind kind_send) as Hq by (by left).
  unfold run_send. destruct (send_from_slice (lq_payload job)) as [e|payload] eqn:Ep.
  { apply safe_fail. by intros w _ [? _]. }
  apply (safe_fact (send_id payload = lq_job_id job)).
  { intros w Hi [(_ & (j & Ej & Hk & _ & Hp) & _) _].
    apply (jo_send _ (in_journal _ _ _ Hi) _ _ Ej Hk). by rewrite <- Hp. }
  intros Eid. eapply safe_seq.
  { eapply safe_attempt. unfold build_send_request. eapply safe_bind; [apply read_attachments_spec; auto with stable|].
    intros atts. apply (safe_ret _ _ _ _ (λ _ w, serving kind_send n m job w ∧ unrun e0 (lq_job_id job, 0%N) w)). auto. }
  intros [e|request].
  - eapply safe_seq.
    + eapply safe_pre; [apply (cleanup_spec _ (serving kind_send n m job)); [auto with stable|apply serving_vaultless]|].
      by intros w _ [? _].
    + intros []. by apply safe_fail.
  - eapply safe_seq; [by apply dispatch_quiet_spec|]. intros outcome.
    eapply safe_seq; [by apply finalize_quiet_spec|]. intros [].
    eapply safe_seq; [apply (cleanup_spec _ (λ w, quiet_idle kind_send n m w ∧ quiet_job (lq_job_id job) w));
      [auto with stable|]|].
    + intros f w [Hw Hj]. split; [by apply quiet_idle_vaultless|exact Hj].
    + intros []. rewrite Eid. apply safe_never, emit_quiet_spec.
Qed.

Lemma send_failed_spec : quiet_failed kind_send send_failed.
Proof.
  intros n m job. unfold send_failed. eapply safe_seq; [apply finalize_failed_spec; by left|]. intros [].
  apply cleanup_spec; [auto with stable|apply quiet_idle_vaultless].
Qed.

(** *** The two drains *)

Lemma drain_jobs_spec kd run failed owner n :
  quiet_kind kd →
  (∀ n m job, safe (run job) (λ w, serving kd n m job w ∧ unrun e0 (lq_job_id job, 0%N) w)
                (λ _, quiet_idle kd n m) (serving kd n m job)) →
  quiet_failed kd failed →
  safe (w ← get_world; drain_quiet (S (queued_jobs kd w)) kd run failed owner) (idle n)
    (λ _ w, idle n w ∧ nothing_queued kd w) never.
Proof.
  intros Hq Hrun Hfail. eapply safe_seq; [apply safe_get|]. intros w0.
  eapply safe_pre; [eapply (drain_quiet_spec _ kd run failed owner n (queued_jobs kd w0)); [done..|lia]|].
  intros w _ [-> Hw]. split; [done|]. by unfold at_most.
Qed.

Lemma drain_mark_chat_read_jobs_spec owner n :
  safe (drain_mark_chat_read_jobs owner) (idle n) (λ _ w, idle n w ∧ nothing_queued kind_mark_chat_read w) never.
Proof.
  apply drain_jobs_spec; [by right|apply run_mark_chat_read_spec|].
  intros n' m job. apply finalize_failed_spec. by right.
Qed.

Lemma drain_send_jobs_spec owner n :
  safe (drain_send_jobs owner) (idle n) (λ _ w, idle n w ∧ nothing_queued kind_send w) never.
Proof. apply drain_jobs_spec; [by left|apply run_send_spec|apply send_failed_spec]. Qed.

(** Then the jobs of the kind are finished. *)
Lemma quiet_finished kd n w p j :
  idle n w → nothing_queued kd w → quiet_kind kd → jobs (db w) !! p = Some j → kind j = kd →
  job_active (status j) = false.
Proof.
  intros Hw Hn Hq Ej Hk. apply not_true_is_false. intros Ha.
  destruct (job_leased (status j)) eqn:El.
  - assert (¬ per_op_kind (kind j)) as Hkj by (rewrite Hk; by apply quiet_kind_spec).
    by specialize (aw_quiet _ _ _ _ _ _ _ _ _ Hw p j Ej Hkj El).
  - assert (status j = Queued) as Es by (by destruct (status j)).
    assert ((p, j) ∈ ready_quiet_jobs kd (db w)) as Hin by (by apply elem_of_ready_quiet).
    rewrite Hn in Hin. by apply elem_of_nil in Hin.
Qed.

End life.
