(* ===== verification/WorkerLife.v ===== *)
(** * The action worker: the life of a service process

    Recovery and replay at the start, then passes: what [service_run] reaches from
    any state a service may have left behind. *)

From S2P Require Import Prelude.
From S2P Require Import Strings.
From S2P Require Import Bytes.
From S2P Require Import ActionTypes.
From S2P Require Import Journal.
From S2P Require Import Worker.
From S2P Require Import JournalTheory.
From S2P Require Import WorkerTheory.
From S2P Require Import WorkerSteps.
From S2P Require Import WorkerRuns.
From S2P Require Import WorkerPass.
From stdpp Require Import sorting.

Section life.
Context `{TableScan, Serde, Providers}.
Implicit Types (t : tables) (l : list Notification) (k : op_key) (p : PlanId) (w : world) (o : Op) (j : Job).
Context (mortal : bool) (e0 : list op_key) (known : list (PlanId * str)) (untold : list PlanId).

#[local] Notation safe := (safe mortal e0).
#[local] Notation inv := (inv mortal e0).
#[local] Notation stable := (stable mortal e0).
#[local] Notation at_work := (at_work known [] untold).

(** ** Recovery *)

(** Putting rows back changes none that is finished. *)
Record requeues (f : Op → Op) (g : Job → Job) : Prop := {
  rq_closed o : closed o → f o = o;
  rq_open o : op_open (op_status (f o)) = op_open (op_status o);
  rq_outcome o : outcome (f o) = outcome o;
  rq_done j : job_active (status j) = false → g j = j;
  rq_active j : job_active (status (g j)) = job_active (status j);
  rq_kind j : kind (g j) = kind j;
  rq_payload j : payload (g j) = payload j;
  rq_quiet j : quiet (g j) = quiet j
}.

Definition requeue (f : Op → Op) (g : Job → Job) t : tables := Tables (g <$> jobs t) (f <$> ops t).

Lemma requeue_job_requeues now : requeues id (requeue_job now).
Proof.
  constructor; try done; intros j; unfold requeue_job; destruct (job_leased (status j)) eqn:E; try done;
    by destruct (status j).
Qed.

Lemma requeue_op_requeues : requeues requeue_op id.
Proof.
  constructor; try done; intros o; unfold requeue_op, closed; destruct (op_leased (op_status o)) eqn:E; try done;
    by destruct (op_status o).
Qed.

Section requeue.
Context (f : Op → Op) (g : Job → Job) (Hf : requeues f g).

Lemma requeue_op_lookup t k o : ops (requeue f g t) !! k = Some o ↔ ∃ o', ops t !! k = Some o' ∧ o = f o'.
Proof. unfold requeue. simpl. rewrite lookup_fmap, fmap_Some. done. Qed.

Lemma requeue_job_lookup t p j : jobs (requeue f g t) !! p = Some j ↔ ∃ j', jobs t !! p = Some j' ∧ j = g j'.
Proof. unfold requeue. simpl. rewrite lookup_fmap, fmap_Some. done. Qed.

Lemma requeue_closed o : closed (f o) ↔ closed o.
Proof. unfold closed. by rewrite (rq_open _ _ Hf). Qed.

Lemma requeue_journal t : journal_ok t → journal_ok (requeue f g t).
Proof.
  intros [A1 A2 A3 A4 A5 A6]. constructor.
  - intros k o (o' & Eo & ->)%requeue_op_lookup. destruct (A1 k o' Eo) as [j Ej].
    eexists. apply requeue_job_lookup. by exists j.
  - intros k o (o' & Eo & ->)%requeue_op_lookup. rewrite (rq_outcome _ _ Hf), (rq_open _ _ Hf). by eapply A2.
  - intros k o j (o' & Eo & ->)%requeue_op_lookup (j' & Ej & ->)%requeue_job_lookup.
    rewrite (rq_active _ _ Hf). intros Ha. apply requeue_closed. by eapply A3.
  - intros k o j (o' & Eo & ->)%requeue_op_lookup (j' & Ej & ->)%requeue_job_lookup.
    rewrite (rq_kind _ _ Hf). by eapply A4.
  - intros k o j (o' & Eo & ->)%requeue_op_lookup (j' & Ej & ->)%requeue_job_lookup.
    rewrite (rq_kind _ _ Hf). intros Hk Hc%(proj1 (requeue_closed _)). rewrite (rq_closed _ _ Hf) by done. by eapply A5.
  - intros p j (j' & Ej & ->)%requeue_job_lookup. rewrite (rq_kind _ _ Hf), (rq_payload _ _ Hf). by apply A6.
Qed.

Lemma visible_requeue t k o j :
  visible (requeue f g t) k o j → closed o → ∃ j', visible t k o j' ∧ job_active (status j') = job_active (status j).
Proof.
  intros [(o' & Eo & ->)%requeue_op_lookup (j' & Ej & ->)%requeue_job_lookup Hk Hq] Hc%(proj1 (requeue_closed _)).
  rewrite (rq_closed _ _ Hf) by done. rewrite (rq_kind _ _ Hf) in Hk. rewrite (rq_quiet _ _ Hf) in Hq.
  exists j'. split; [by constructor|by rewrite (rq_active _ _ Hf)].
Qed.

Lemma inv_requeue w : executed w = e0 → inv w → inv (with_db (requeue f g) w).
Proof.
  intros Ex [I1 I2 I3 I4 It I5 I6]. pose proof (requeue_journal _ I2) as Hok. constructor; simpl; try done.
  - intros k o j Hv Ha. assert (closed o) as Hc by (destruct Hv; by eapply (jo_finished _ Hok)).
    destruct (visible_requeue _ _ _ _ Hv Hc) as (j' & Hv' & Ea). apply (I3 k o j' Hv'). by rewrite Ea.
  - eapply complete_ok_change; [done| |].
    + intros p j Ej. exists (g j). split; [apply requeue_job_lookup; by exists j|apply (rq_kind _ _ Hf)].
    + intros p j Ej Hk Ha. split.
      * apply requeue_job_lookup. exists j. split; [done|]. by rewrite (rq_done _ _ Hf).
      * apply plan_ops_same. intros n o. rewrite requeue_op_lookup. split.
        -- intros (o' & Eo & ->). rewrite (rq_closed _ _ Hf); [done|]. by apply (jo_finished _ I2 (p, n) o' j).
        -- intros Eo. exists o. split; [done|]. rewrite (rq_closed _ _ Hf); [done|].
           by apply (jo_finished _ I2 (p, n) o j).
  - intros p n r Hin. destruct (It p n r Hin) as (o & Eo & Ho). exists (f o).
    split; [apply requeue_op_lookup; by exists o|by rewrite (rq_outcome _ _ Hf)].
  - intros k o j op (o' & Eo & ->)%requeue_op_lookup (j' & Ej & ->)%requeue_job_lookup.
    rewrite (rq_kind _ _ Hf). intros Hk Hc%(proj1 (requeue_closed _)). rewrite (rq_closed _ _ Hf) by done. by eapply I5.
  - exists []. rewrite app_nil_r. split_and!; [done|constructor|]. by intros k ?%elem_of_nil.
Qed.

End requeue.

(** What is known of a state some process has left behind. *)
Record boot w : Prop := {
  bo_executed : executed w = e0;
  bo_known p kd : (p, kd) ∈ known → ∃ j, jobs (db w) !! p = Some j ∧ kind j = kd;
  bo_told p j : jobs (db w) !! p = Some j → kind j = kind_mail_plan → job_active (status j) = false →
    p ∉ untold → ∃ s, NActionCompleted p s ∈ sent w
}.

Definition no_job_leased w : Prop := ∀ p j, jobs (db w) !! p = Some j → job_leased (status j) = false.
Definition no_op_leased w : Prop := ∀ k o, ops (db w) !! k = Some o → op_leased (op_status o) = false.

Lemma boot_stable : stable boot.
Proof.
  intros w w1 Hi [Hg Es Ex _ _ _ _] [A1 A2 A3]. constructor; rewrite ?Es; [by rewrite Ex| |].
  - intros p kd Hin. destruct (A2 p kd Hin) as (j & Ej & Hj). exists j. split; [by eapply grows_job|done].
  - intros p j Ej Hk Ha Hp. destruct (grows_job_back _ _ _ _ Hg Ej) as [Fj|[_ (Hs & _)]]; [by eapply A3|].
    by rewrite Hs in Ha.
Qed.

Lemma no_job_leased_stable : stable no_job_leased.
Proof.
  intros w w1 Hi [Hg _ _ _ _ _ _] Hn p j Ej.
  destruct (grows_job_back _ _ _ _ Hg Ej) as [Fj|[_ (Hs & _)]]; [by apply (Hn p)|by rewrite Hs].
Qed.

Lemma boot_requeue f g w : requeues f g → boot w → boot (with_db (requeue f g) w).
Proof.
  intros Hf [A1 A2 A3]. constructor; simpl; [done| |].
  - intros p kd Hin. destruct (A2 p kd Hin) as (j & Ej & Hj). exists (g j).
    split; [apply (requeue_job_lookup f g); by exists j|by rewrite (rq_kind _ _ Hf)].
  - intros p j (j' & Ej & ->)%(requeue_job_lookup f g). rewrite (rq_kind _ _ Hf), (rq_active _ _ Hf). by apply A3.
Qed.

#[local] Hint Resolve boot_stable no_job_leased_stable at_work_stable stable_and stable_pure : stable.

Lemma recover_spec :
  safe recover_stale_leases boot (λ _ w, (boot w ∧ no_job_leased w) ∧ no_op_leased w) never.
Proof.
  unfold recover_stale_leases. eapply safe_seq; [apply safe_query; auto with stable|]. intros n.
  eapply safe_seq; [apply safe_get|]. intros w0.
  eapply (safe_seq _ _ _ _ _ (λ _ w, boot w ∧ no_job_leased w)).
  { apply (safe_change _ _ _ _ (λ w, boot w ∧ no_job_leased w)). intros w Hi (<- & _ & Hb).
    assert (with_db (λ t, Tables (requeue_job (unixepoch w0) <$> jobs t) (ops t)) w0 =
            with_db (requeue id (requeue_job (unixepoch w0))) w0) as ->.
    { unfold with_db, requeue. by rewrite map_fmap_id. }
    split; [apply inv_requeue; [apply requeue_job_requeues|apply Hb|done]|].
    split; [by apply boot_requeue; [apply requeue_job_requeues|]|].
    intros p j (j' & _ & ->)%(requeue_job_lookup id (requeue_job (unixepoch w0))). unfold requeue_job.
    by destruct (job_leased (status j')) eqn:E. }
  intros []. eapply safe_seq; [apply safe_query; auto with stable|]. intros m.
  eapply (safe_seq _ _ _ _ _ (λ _ w, (boot w ∧ no_job_leased w) ∧ no_op_leased w)); [|intros []; by apply safe_ret].
  apply (safe_change _ _ _ _ (λ w, (boot w ∧ no_job_leased w) ∧ no_op_leased w)). intros w Hi (_ & Hb & Hn).
  assert (with_db (λ t, Tables (jobs t) (requeue_op <$> ops t)) w = with_db (requeue requeue_op id) w) as ->.
  { unfold with_db, requeue. by rewrite map_fmap_id. }
  split; [apply inv_requeue; [apply requeue_op_requeues|apply Hb|done]|].
  split; [split; [by apply boot_requeue; [apply requeue_op_requeues|]|]|].
  - intros p j (j' & Ej & ->)%(requeue_job_lookup requeue_op id). by apply (Hn p).
  - intros k o (o' & _ & ->)%(requeue_op_lookup requeue_op id). unfold requeue_op.
    by destruct (op_leased (op_status o')) eqn:E.
Qed.

(** Anything may be unreported, and any plan about to be finished. *)
Lemma boot_at_work w :
  inv w → boot w → no_job_leased w → no_op_leased w → ∃ u n es, at_work u None None n es w.
Proof.
  intros Hi [A1 A2 A3] Hj Ho.
  set (active := λ e : PlanId * Job,
    negb (bool_decide (kind e.2 = kind_send) || bool_decide (kind e.2 = kind_mark_chat_read)) && job_active (status e.2)).
  assert (∀ p j, active (p, j) = true ↔ per_op_kind (kind j) ∧ job_active (status j) = true) as Hact.
  { intros p j. unfold active, per_op_kind. simpl.
    rewrite andb_true_iff, negb_true_iff, orb_false_iff, !bool_decide_eq_false. tauto. }
  destruct (plan_entries active (map_to_list (jobs (db w))) (db w)) as [Hnd Hin]; [done|].
  exists (map_to_list (ops (db w))).*1, (work w), (plan_entry <$> List.filter active (map_to_list (jobs (db w)))).
  constructor; try done.
  - intros k o j Hv _ Hk. destruct Hk. apply list_elem_of_fmap. exists (k, o). split; [done|].
    apply elem_of_map_to_list, Hv.
  - intros k o Eo Hl. by rewrite (Ho k o Eo) in Hl.
  - intros p j Ej Hk Ha Hp. destruct Hp. apply list_elem_of_fmap. exists (p, per_op_from_sql (kind j)).
    split; [done|]. apply Hin. exists j. split; [done|]. split; [by apply Hact|done].
  - intros p pk (j & Ej & [Hk Ha]%Hact & ->)%Hin. by exists j.
  - intros p j Ej Hk Hl. by rewrite (Hj p j Ej) in Hl.
  - by intros p ?%elem_of_nil.
Qed.

(** ** Replay *)

Definition replay_key (r : ReplayableOp) : op_key := (ro_plan_id r, ro_operation_id r).

Definition replay_row (r : ReplayableOp) w : Prop :=
  ∃ o j, ops (db w) !! replay_key r = Some o ∧ jobs (db w) !! ro_plan_id r = Some j ∧ closed o ∧
    outcome o = Some (ro_outcome_blob r) ∧ ro_kind r = per_op_from_sql (kind j) ∧ ro_quiet r = quiet j.

Lemma replay_row_stable r : stable (replay_row r).
Proof.
  intros w w1 Hi Hl (o & j & Eo & Ej & Hr). exists o, j.
  split_and!; [eapply grows_op; [apply Hl|done]|eapply grows_job; [apply Hl|done]|apply Hr..].
Qed.

Definition replay_rows (rs : list ReplayableOp) w : Prop := ∀ r, r ∈ rs → replay_row r w.

Lemma replay_rows_stable rs : stable (replay_rows rs).
Proof. intros w w1 Hi Hl Hr r Hin. eapply replay_row_stable; [done..|by apply Hr]. Qed.

#[local] Hint Resolve replay_row_stable replay_rows_stable : stable.

Lemma replayable_spec (rows : list (op_key * Op * Job)) :
  (∀ k o j, (k, o, j) ∈ rows → closed o) →
  ∃ rs, replayable rows = inr rs ∧ replay_key <$> rs = (λ e, e.1.1) <$> rows ∧
    ∀ r, r ∈ rs → ∃ o j, (replay_key r, o, j) ∈ rows ∧ ro_outcome_blob r = from_option id [] (outcome o) ∧
      ro_kind r = per_op_from_sql (kind j) ∧ ro_quiet r = quiet j.
Proof.
  induction rows as [|[[k o] j] rows IH]; intros Hc.
  { exists []. split_and!; [done..|]. by intros r ?%elem_of_nil. }
  destruct IH as (rs & Er & Ek & Hr); [intros k' o' j' Hin; apply (Hc k' o' j'); by apply list_elem_of_further|].
  assert (closed o) as Ho by (apply (Hc k o j), list_elem_of_here). cbn [replayable]. rewrite Er.
  destruct (terminal_status (op_status o)) as [s|] eqn:Es.
  2: { unfold closed in Ho. by destruct (op_status o). }
  eexists. split; [done|]. split.
  - rewrite !fmap_cons, Ek. f_equal. by destruct k.
  - intros r [->|Hin]%elem_of_cons.
    + exists o, j. split_and!; [|done..]. destruct k. apply list_elem_of_here.
    + destruct (Hr r Hin) as (o' & j' & Hin' & Hrest). exists o', j'. split; [by apply list_elem_of_further|done].
Qed.

Lemma elem_of_unemitted k o j t :
  (k, o, j) ∈ unemitted t ↔
  ops t !! k = Some o ∧ jobs t !! k.1 = Some j ∧ is_Some (outcome o) ∧ job_active (status j) = true.
Proof.
  unfold unemitted, order_by. rewrite merge_sort_Permutation, list_filter_bool, list_elem_of_filter, elem_of_joined.
  simpl. rewrite andb_true_iff, bool_decide_eq_true. tauto.
Qed.

Lemma unemitted_terminal_ops_spec u n es :
  safe unemitted_terminal_ops (at_work u None None n es)
    (λ rs w, at_work (replay_key <$> rs) None None n es w ∧ replay_rows rs w) never.
Proof.
  unfold unemitted_terminal_ops. eapply safe_seq; [apply safe_query; auto with stable|]. intros rows w Hi [-> Hw].
  pose proof (in_journal _ _ _ Hi) as Hok.
  assert (∀ k o, ops (db w) !! k = Some o → closed o ↔ is_Some (outcome o)) as Hc.
  { intros k o Eo. rewrite <- not_eq_None_Some, (jo_outcome _ Hok k o Eo). unfold closed.
    by destruct (op_open (op_status o)). }
  destruct (replayable_spec (unemitted (db w))) as (rs & -> & Ek & Hr).
  { intros k o j (Eo & _ & Ho & _)%elem_of_unemitted. by apply (Hc k). }
  split; [done|]. split.
  - destruct Hw as [A1 A2 A3 A4 A5 A6 A7 A8 A9 A10]. constructor; try done.
    intros k o j Hv Ho Hk. destruct (job_active (status j)) eqn:Ha; [|by apply (in_hist _ _ _ Hi k o j)].
    destruct Hk. rewrite Ek. apply list_elem_of_fmap. exists (k, o, j). split; [done|].
    destruct Hv. apply elem_of_unemitted. split_and!; [done..| |done]. by apply (Hc k).
  - intros r Hin. destruct (Hr r Hin) as (o & j & (Eo & Ej & [b Hb] & Ha)%elem_of_unemitted & Eb & Ekk & Eq).
    exists o, j. rewrite Hb in Eb. simpl in Eb. subst b. split_and!; try done. apply (Hc _ _ Eo). by rewrite Hb.
Qed.

Lemma replay_one_spec r rs n es :
  safe (replay_one r)
    (λ w, at_work (replay_key r :: (replay_key <$> rs)) None None n es w ∧ replay_rows (r :: rs) w)
    (λ _ w, at_work (replay_key <$> rs) None None n es w ∧ replay_rows rs w) never.
Proof.
  assert (∀ w, replay_rows (r :: rs) w → replay_rows rs w) as Htl.
  { intros w Hr x Hx. apply Hr. by apply list_elem_of_further. }
  assert (ro_quiet r = true ∨ ro_kind r ≠ Some MailPlan → ∀ w,
    at_work (replay_key r :: (replay_key <$> rs)) None None n es w ∧ replay_rows (r :: rs) w →
    at_work (replay_key <$> rs) None None n es w ∧ replay_rows rs w) as Hsil.
  { intros Hs w [Hw Hr]. split; [|by apply Htl]. eapply at_work_reported; [exact Hw|].
    intros o j [Eo Ej Hk Hq] _. destruct (Hr r) as (o' & j' & _ & Ej' & _ & _ & Ek & Eq); [apply list_elem_of_here|].
    simpl in Ej. rewrite Ej in Ej'. injection Ej' as <-. rewrite Ek, Eq, Hk, Hq in Hs. by destruct Hs. }
  unfold replay_one. destruct (ro_quiet r) eqn:Eq.
  { apply safe_ret. intros w _. apply Hsil. by left. }
  destruct (ro_kind r) as [[]|] eqn:Ek.
  - apply (safe_fact _ _ (∃ res, ro_outcome_blob r = result_to_vec res)).
    { intros w Hi [_ Hr]. destruct (Hr r) as (o & j & Eo & Ej & Hc & Hb & Hk & _); [apply list_elem_of_here|].
      rewrite Ek in Hk. symmetry in Hk. apply per_op_from_sql_mail in Hk.
      destruct (jo_mail _ (in_journal _ _ _ Hi) _ _ _ Eo Ej Hk Hc) as (res & Hres & _).
      rewrite Hb in Hres. injection Hres as ->. by exists res. }
    intros [res Eb]. rewrite Eb, result_reads_back. apply safe_emit; [auto with stable|].
    intros w Hi [Hw Hr]. split.
    { apply inv_emit; [done..|]. intros p i r' [= <- <- <-].
      destruct (Hr r) as (o & _ & Eo & _ & _ & Ho & _); [apply list_elem_of_here|]. exists o. by rewrite <- Eb. }
    split; [|by apply (Htl w)].
    eapply at_work_reported; [apply at_work_sent; exact Hw|].
    intros o j [Eo _ _ _] _. destruct (Hr r) as (o' & j' & Eo' & _ & _ & Hb & _); [apply list_elem_of_here|].
    simpl in Eo. rewrite Eo in Eo'. injection Eo' as <-. exists res. rewrite <- Eb. split; [done|].
    apply elem_of_app. right. apply list_elem_of_here.
  - destruct (cal_result_from_slice (ro_outcome_blob r)) as [e|res].
    + apply safe_ret. intros w _. apply Hsil. by right.
    + apply safe_emit; [auto with stable|]. intros w Hi Hw. split; [by apply inv_emit|].
      apply Hsil in Hw as [Hw Hr]; [|by right]. split; [by apply at_work_sent|exact Hr].
  - apply safe_ret. intros w _. apply Hsil. by right.
Qed.

Lemma replay_unemitted_spec u n es :
  safe replay_unemitted (at_work u None None n es) (λ _, at_work [] None None n es) never.
Proof.
  unfold replay_unemitted. eapply safe_seq; [eapply safe_attempt, unemitted_terminal_ops_spec|].
  intros [e|rs]; [by intros w _ ?|].
  eapply safe_weaken; [|by intros w _ HP; exact HP| |by auto].
  - apply (safe_for_each _ _ _ rs (λ rs w, at_work (replay_key <$> rs) None None n es w ∧ replay_rows rs w)).
    intros r rs'. apply replay_one_spec.
  - by intros [] w _ [? _].
Qed.

End life.

(** ** Passes *)

Section passes.
Context `{TableScan, Serde, Providers}.
Implicit Types (p : PlanId) (w : world) (j : Job).
Context (mortal : bool) (e0 : list op_key) (known : list (PlanId * str)) (untold : list PlanId).

#[local] Notation safe := (safe mortal e0).
#[local] Notation inv := (inv mortal e0).

(** The known jobs of some kinds. *)
Definition of_kinds (f : str → bool) : list PlanId := (List.filter (λ e : PlanId * str, f e.2) known).*1.

Lemma elem_of_of_kinds f p : p ∈ of_kinds f ↔ ∃ kd, (p, kd) ∈ known ∧ f kd = true.
Proof.
  unfold of_kinds. rewrite list_filter_bool, list_elem_of_fmap. split.
  - intros ([p' kd] & -> & [Hf Hin]%list_elem_of_filter). by exists kd.
  - intros (kd & Hin & Hf). exists (p, kd). split; [done|]. by apply list_elem_of_filter.
Qed.

Lemma at_work_of_kinds fin v u h q n es w f :
  at_work known fin v u h q n es w →
  (∀ p kd j, (p, kd) ∈ known → f kd = true → jobs (db w) !! p = Some j → kind j = kd → job_active (status j) = false) →
  at_work known (of_kinds f) v u h q n es w.
Proof.
  intros Hw Hf. eapply at_work_fin; [exact Hw|]. intros p (kd & Hin & Hk)%elem_of_of_kinds.
  destruct (aw_known _ _ _ _ _ _ _ _ _ Hw p kd Hin) as (j & Ej & Hj). exists j. split; [done|]. by eapply Hf.
Qed.

Definition is_plan (kd : str) : bool :=
  negb (bool_decide (kd = kind_send) || bool_decide (kd = kind_mark_chat_read)).

Lemma is_plan_spec kd : is_plan kd = true ↔ per_op_kind kd.
Proof.
  unfold is_plan, per_op_kind. rewrite negb_true_iff, orb_false_iff, !bool_decide_eq_false. tauto.
Qed.

(** What was finished stays so. *)
Lemma still_finished fin f n w p kd j :
  at_work known fin untold [] None None n [] w → fin = of_kinds f → (p, kd) ∈ known → f kd = true →
  jobs (db w) !! p = Some j → job_active (status j) = false.
Proof.
  intros Hw -> Hin Hf Ej.
  destruct (aw_done _ _ _ _ _ _ _ _ _ Hw p) as (j' & Ej' & Ha).
  - apply elem_of_of_kinds. by exists kd.
  - rewrite Ej in Ej'. by injection Ej' as <-.
Qed.

Definition all_finished w : Prop := ∃ n, idle known (of_kinds (λ _, true)) untold n w.

Lemma worker_pass_spec owner fin :
  safe (worker_pass owner) (λ w, ∃ n es, at_work known fin untold [] None None n es w) (λ _, all_finished) never.
Proof.
  unfold worker_pass. apply safe_exists. intros n. apply safe_exists. intros es.
  eapply (safe_seq _ _ _ _ _ (λ _ w, ∃ n, idle known (of_kinds is_plan) untold n w)).
  { eapply safe_weaken; [apply drain_one_pass_spec|by intros w _ Hw; exact Hw| |by auto].
    intros [] w Hi [[n' Hw] Hr].
    exists n'. eapply at_work_of_kinds; [exact Hw|]. intros p kd j _ Hk%is_plan_spec Ej <-. by eapply plans_finished. }
  intros []. apply safe_exists. intros n'.
  eapply (safe_seq _ _ _ _ _ (λ _, idle known (of_kinds (λ kd, is_plan kd || bool_decide (kd = kind_mark_chat_read))) untold n')).
  { eapply safe_weaken; [apply drain_mark_chat_read_jobs_spec|by intros w _ Hw; exact Hw| |by auto].
    intros [] w Hi [Hw Hr].
    eapply at_work_of_kinds; [exact Hw|]. intros p kd j Hin [Hk|Hk%bool_decide_eq_true]%orb_true_iff Ej Hkd.
    - by eapply (still_finished _ is_plan).
    - eapply (quiet_finished known _ untold kind_mark_chat_read); [done|done|by right|done|congruence]. }
  intros []. eapply safe_weaken; [apply drain_send_jobs_spec|by intros w _ Hw; exact Hw| |by auto].
  intros [] w Hi [Hw Hr]. exists n'. eapply at_work_of_kinds; [exact Hw|]. intros p kd j Hin _ Ej Hkd.
  destruct (is_plan kd || bool_decide (kd = kind_mark_chat_read)) eqn:Ek.
  - by eapply (still_finished _ (λ kd, is_plan kd || bool_decide (kd = kind_mark_chat_read))).
  - eapply (quiet_finished known _ untold kind_send); [done|done|by left|done|].
    apply orb_false_iff in Ek as [Ek Ec%bool_decide_eq_false].
    unfold is_plan in Ek. apply negb_false_iff, orb_true_iff in Ek as [E%bool_decide_eq_true|E%bool_decide_eq_true];
      congruence.
Qed.

Lemma passes_spec i owner fin :
  safe (passes i owner) (λ w, ∃ n es, at_work known fin untold [] None None n es w)
    (λ _ w, 0 < i → all_finished w) never.
Proof.
  revert fin. induction i as [|i IH]; intros fin; cbn [passes]; [apply safe_ret; lia|].
  eapply safe_seq; [apply worker_pass_spec|]. intros [].
  destruct i as [|i]; [by apply safe_ret|].
  eapply safe_weaken; [apply (IH (of_kinds (λ _, true)))| | |by auto].
  - intros w _ [n Hw]. by exists n, [].
  - intros [] w _ Hw _. apply Hw. lia.
Qed.

Lemma service_run_spec i owner :
  safe (service_run i owner) (boot e0 known untold) (λ _ w, 0 < i → all_finished w) never.
Proof.
  unfold service_run. eapply safe_seq; [eapply safe_attempt, recover_spec|]. intros [e|[n m]]; [by intros w _ ?|].
  eapply safe_pre with (λ w, ∃ u n es, at_work known [] untold u None None n es w).
  2: { intros w Hi [[Hb Hj] Ho]. by apply (boot_at_work mortal e0). }
  apply safe_exists. intros u. apply safe_exists. intros n'. apply safe_exists. intros es.
  eapply safe_seq; [apply replay_unemitted_spec|]. intros [].
  eapply safe_pre; [apply (passes_spec i owner [])|]. intros w _ Hw. by exists n', es.
Qed.

End passes.
