(* ===== verification/ActionInstances.v ===== *)
(** * Concrete parameters of the action worker

    A serialization, providers and a row order that satisfy the laws the theory
    of the worker assumes: values as trees, trees as bits. *)

From S2P Require Import Prelude.
From S2P Require Import Strings.
From S2P Require Import Bytes.
From S2P Require Import ActionTypes.
From S2P Require Import Journal.
From S2P Require Import Worker.

(** ** Trees as bytes *)

Abbreviation tree := (gen_tree N).

Fixpoint bits (p : positive) : bytes :=
  match p with
  | xH => []
  | xO p => x00 :: bits p
  | xI p => x01 :: bits p
  end.

Fixpoint unbits (b : bytes) : positive :=
  match b with
  | [] => xH
  | x00 :: b => xO (unbits b)
  | _ :: b => xI (unbits b)
  end.

Lemma unbits_bits p : unbits (bits p) = p.
Proof. induction p as [p IH|p IH|]; simpl; congruence. Qed.

Definition print_tree (t : tree) : bytes := bits (countable.encode t).
Definition parse_tree (b : bytes) : option tree := countable.decode (unbits b).

Lemma parse_print t : parse_tree (print_tree t) = Some t.
Proof. unfold parse_tree, print_tree. by rewrite unbits_bits, countable.decode_encode. Qed.

(** ** Values as trees *)

Definition str_tree (s : str) : tree := GenNode 0 (GenLeaf <$> s).
Definition leaf_of (t : tree) : option N := match t with GenLeaf n => Some n | _ => None end.
Definition str_of (t : tree) : option str := match t with GenNode 0 l => mapM leaf_of l | _ => None end.

Lemma str_of_tree s : str_of (str_tree s) = Some s.
Proof.
  simpl. induction s as [|c s IH]; [done|]. rewrite fmap_cons. cbn [mapM leaf_of mbind option_bind].
  by rewrite IH.
Qed.

Definition bool_tree (b : bool) : tree := GenLeaf (if b then 1 else 0)%N.
Definition bool_of (t : tree) : option bool := match t with GenLeaf n => Some (n =? 1)%N | _ => None end.
Definition Z_tree (z : Z) : tree := GenNode (if decide (z < 0)%Z then 1 else 0) [GenLeaf (Z.to_N (Z.abs z))].
Definition Z_of (t : tree) : option Z :=
  match t with
  | GenNode 0 [GenLeaf n] => Some (Z.of_N n)
  | GenNode _ [GenLeaf n] => Some (- Z.of_N n)%Z
  | _ => None
  end.
Definition option_tree {A} (f : A → tree) (o : option A) : tree :=
  match o with None => GenNode 0 [] | Some a => GenNode 1 [f a] end.
Definition option_of {A} (f : tree → option A) (t : tree) : option (option A) :=
  match t with GenNode 0 [] => Some None | GenNode 1 [t] => Some <$> f t | _ => None end.

Lemma bool_of_tree b : bool_of (bool_tree b) = Some b.
Proof. by destruct b. Qed.
Lemma Z_of_tree z : Z_of (Z_tree z) = Some z.
Proof. unfold Z_tree. case_decide; simpl; f_equal; lia. Qed.
Lemma option_of_tree {A} (f : A → tree) g o :
  (∀ a, g (f a) = Some a) → option_of g (option_tree f o) = Some o.
Proof. intros Hg. destruct o as [a|]; [|done]. cbn [option_of option_tree]. by rewrite Hg. Qed.

Definition folder_tree (f : WireFolderId) : tree := match f with WFolder s => str_tree s end.
Definition folder_of (t : tree) : option WireFolderId := WFolder <$> str_of t.
Lemma folder_of_tree f : folder_of (folder_tree f) = Some f.
Proof. destruct f. unfold folder_of, folder_tree. by rewrite str_of_tree. Qed.

Definition op_tree (op : WireMailOperation) : tree :=
  match op with
  | WArchive => GenNode 0 []
  | WTrash => GenNode 1 []
  | WPermanentDelete => GenNode 2 []
  | WSetSpam to => GenNode 3 [bool_tree to]
  | WSetStarred to => GenNode 4 [bool_tree to]
  | WSetRead to => GenNode 5 [bool_tree to]
  | WSetPinned to => GenNode 6 [bool_tree to]
  | WSetMuted to => GenNode 7 [bool_tree to]
  | WMoveToFolder dest source => GenNode 8 [folder_tree dest; option_tree folder_tree source]
  | WAddLabel (WLabel s) => GenNode 9 [str_tree s]
  | WRemoveLabel (WLabel s) => GenNode 10 [str_tree s]
  | WApplyLabelGroup (WLabelGroup z) => GenNode 11 [Z_tree z]
  | WRemoveLabelGroup (WLabelGroup z) => GenNode 12 [Z_tree z]
  | WSnooze until => GenNode 13 [Z_tree until]
  | WUnsnooze => GenNode 14 []
  end.

Definition op_of (t : tree) : option WireMailOperation :=
  match t with
  | GenNode 0 [] => Some WArchive
  | GenNode 1 [] => Some WTrash
  | GenNode 2 [] => Some WPermanentDelete
  | GenNode 3 [t] => WSetSpam <$> bool_of t
  | GenNode 4 [t] => WSetStarred <$> bool_of t
  | GenNode 5 [t] => WSetRead <$> bool_of t
  | GenNode 6 [t] => WSetPinned <$> bool_of t
  | GenNode 7 [t] => WSetMuted <$> bool_of t
  | GenNode 8 [t; u] => d ← folder_of t; s ← option_of folder_of u; Some (WMoveToFolder d s)
  | GenNode 9 [t] => (WAddLabel ∘ WLabel) <$> str_of t
  | GenNode 10 [t] => (WRemoveLabel ∘ WLabel) <$> str_of t
  | GenNode 11 [t] => (WApplyLabelGroup ∘ WLabelGroup) <$> Z_of t
  | GenNode 12 [t] => (WRemoveLabelGroup ∘ WLabelGroup) <$> Z_of t
  | GenNode 13 [t] => WSnooze <$> Z_of t
  | GenNode 14 [] => Some WUnsnooze
  | _ => None
  end.

Lemma op_of_tree op : op_of (op_tree op) = Some op.
Proof.
  destruct op as [| | |b|b|b|b|b|d o|[s]|[s]|[z]|[z]|z|]; cbn [op_of op_tree];
    rewrite ?bool_of_tree, ?folder_of_tree, ?str_of_tree, ?Z_of_tree; try done.
  cbn [mbind option_bind]. by rewrite (option_of_tree _ _ _ folder_of_tree).
Qed.

Definition input_tree (i : WireCalendarEventInput) : tree :=
  GenNode 0 [str_tree (title i); str_tree (description i); str_tree (location i); Z_tree (start_time i);
             Z_tree (end_time i); bool_tree (is_all_day i); option_tree str_tree (timezone i);
             option_tree str_tree (recurrence_rule i); option_tree str_tree (availability i);
             option_tree str_tree (visibility i)].

Definition input_of (t : tree) : option WireCalendarEventInput :=
  match t with
  | GenNode 0 [a; b; c; d; e; f; g; h; i; j] =>
      a ← str_of a; b ← str_of b; c ← str_of c; d ← Z_of d; e ← Z_of e; f ← bool_of f;
      g ← option_of str_of g; h ← option_of str_of h; i ← option_of str_of i; j ← option_of str_of j;
      Some (mkEventInput a b c d e f g h i j)
  | _ => None
  end.

Lemma input_of_tree i : input_of (input_tree i) = Some i.
Proof.
  destruct i as [a b c d e f g h i j]. cbn -[str_of str_tree Z_of Z_tree bool_of bool_tree option_of option_tree].
  rewrite !str_of_tree, !Z_of_tree, bool_of_tree, !(option_of_tree _ _ _ str_of_tree). done.
Qed.

Definition rsvp_tree (r : RsvpResponse) : tree :=
  GenLeaf match r with Accepted => 0 | Declined => 1 | Tentative => 2 end%N.
Definition rsvp_of (t : tree) : option RsvpResponse :=
  match t with GenLeaf 0 => Some Accepted | GenLeaf 1 => Some Declined | GenLeaf _ => Some Tentative | _ => None end%N.
Lemma rsvp_of_tree r : rsvp_of (rsvp_tree r) = Some r.
Proof. by destruct r. Qed.

Definition cal_op_tree (op : WireCalendarOperation) : tree :=
  match op with
  | CreateEvent c i => GenNode 0 [str_tree c; input_tree i]
  | UpdateEvent e i => GenNode 1 [str_tree e; input_tree i]
  | DeleteEvent e => GenNode 2 [str_tree e]
  | RsvpEvent e r => GenNode 3 [str_tree e; rsvp_tree r]
  end.

Definition cal_op_of (t : tree) : option WireCalendarOperation :=
  match t with
  | GenNode 0 [c; i] => c ← str_of c; i ← input_of i; Some (CreateEvent c i)
  | GenNode 1 [e; i] => e ← str_of e; i ← input_of i; Some (UpdateEvent e i)
  | GenNode 2 [e] => DeleteEvent <$> str_of e
  | GenNode 3 [e; r] => e ← str_of e; r ← rsvp_of r; Some (RsvpEvent e r)
  | _ => None
  end.

Lemma cal_op_of_tree op : cal_op_of (cal_op_tree op) = Some op.
Proof.
  destruct op as [c i|e i|e|e r]; unfold cal_op_of, cal_op_tree;
    rewrite str_of_tree, ?input_of_tree, ?rsvp_of_tree; done.
Qed.

Definition result_tree (r : OperationResult) : tree :=
  match r with
  | RSuccess => GenNode 0 []
  | RLocalOnly => GenNode 1 []
  | RRemoteFailure (mkRemoteFailure m h b) =>
      GenNode 2 [str_tree m; option_tree GenLeaf h; bool_tree b]
  | RConflictRejected d => GenNode 3 [str_tree d]
  end.

Definition result_of (t : tree) : option OperationResult :=
  match t with
  | GenNode 0 [] => Some RSuccess
  | GenNode 1 [] => Some RLocalOnly
  | GenNode 2 [m; h; b] =>
      m ← str_of m; h ← option_of leaf_of h; b ← bool_of b; Some (RRemoteFailure (mkRemoteFailure m h b))
  | GenNode 3 [d] => RConflictRejected <$> str_of d
  | _ => None
  end.

Lemma result_of_tree r : result_of (result_tree r) = Some r.
Proof.
  destruct r as [| |[m h b]|d]; [done|done| |]; unfold result_of, result_tree; rewrite str_of_tree; [|done].
  rewrite bool_of_tree. cbn [mbind option_bind]. by rewrite option_of_tree.
Qed.

Definition cal_result_tree (r : CalendarOperationResult) : tree :=
  match r with
  | CSuccess => GenNode 0 []
  | CLocalOnly s => GenNode 1 [str_tree s]
  | CFailed s => GenNode 2 [str_tree s]
  end.

Definition cal_result_of (t : tree) : option CalendarOperationResult :=
  match t with
  | GenNode 0 [] => Some CSuccess
  | GenNode 1 [s] => CLocalOnly <$> str_of s
  | GenNode 2 [s] => CFailed <$> str_of s
  | _ => None
  end.

Lemma cal_result_of_tree r : cal_result_of (cal_result_tree r) = Some r.
Proof. by destruct r as [|s|s]; [done| |]; unfold cal_result_of, cal_result_tree; rewrite str_of_tree. Qed.

Definition summary_tree (s : PlanSummary) : tree :=
  GenNode 0 (GenLeaf <$> [total s; local_only s; remote_succeeded s; remote_failed s; conflicts s]).

Definition summary_of (t : tree) : option PlanSummary :=
  match t with
  | GenNode 0 [GenLeaf a; GenLeaf b; GenLeaf c; GenLeaf d; GenLeaf e] => Some (mkPlanSummary a b c d e)
  | _ => None
  end.

Lemma summary_of_tree s : summary_of (summary_tree s) = Some s.
Proof. by destruct s. Qed.

(** ** The instances *)

Definition parse_with {A} (f : tree → option A) (b : bytes) : str + A :=
  match parse_tree b ≫= f with Some a => inr a | None => inl (slit "malformed") end.

Lemma parse_with_print {A} (f : tree → option A) (g : A → tree) a :
  (∀ a, f (g a) = Some a) → parse_with f (print_tree (g a)) = inr a.
Proof. intros Hf. unfold parse_with. rewrite parse_print. cbn [mbind option_bind]. by rewrite Hf. Qed.

(** Results are marked by a first byte. *)
Definition sample_kind (b : bytes) : option str :=
  match b with
  | x00 :: b => result_tag <$> (parse_tree b ≫= result_of)
  | x01 :: b => cal_result_tag <$> (parse_tree b ≫= cal_result_of)
  | _ => None
  end.

Definition sample_message : JournaledMessage :=
  mkMessage [] [] [] [] [] None [] [] None None None None IntentNew None.

Definition print_result (r : OperationResult) : bytes := x00 :: print_tree (result_tree r).
Definition parse_result (b : bytes) : str + OperationResult :=
  match b with x00 :: b => parse_with result_of b | _ => inl (slit "malformed") end.
Definition print_cal_result (r : CalendarOperationResult) : bytes := x01 :: print_tree (cal_result_tree r).
Definition parse_cal_result (b : bytes) : str + CalendarOperationResult :=
  match b with x01 :: b => parse_with cal_result_of b | _ => inl (slit "malformed") end.

Lemma sample_kind_result r : sample_kind (print_result r) = Some (result_tag r).
Proof. simpl. rewrite parse_print. cbn [mbind option_bind]. by rewrite result_of_tree. Qed.

Lemma sample_kind_cal_result r : sample_kind (print_cal_result r) = Some (cal_result_tag r).
Proof. simpl. rewrite parse_print. cbn [mbind option_bind]. by rewrite cal_result_of_tree. Qed.

Lemma sample_kind_needed b r : parse_cal_result b = inr r → sample_kind b = Some (cal_result_tag r).
Proof.
  destruct b as [|[] b]; try done. simpl. unfold parse_with.
  destruct (parse_tree b ≫= cal_result_of) as [r'|]; [|done]. by intros [= ->].
Qed.

(** A chat read of as many threads as bytes; a send whose identifier is its byte. *)
#[export] Instance sample_serde : Serde := {
  op_to_vec op := print_tree (op_tree op);
  op_from_slice := parse_with op_of;
  cal_op_to_vec op := print_tree (cal_op_tree op);
  cal_op_from_slice := parse_with cal_op_of;
  result_to_vec := print_result;
  result_from_slice := parse_result;
  cal_result_to_vec := print_cal_result;
  cal_result_from_slice := parse_cal_result;
  summary_to_vec s := print_tree (summary_tree s);
  summary_from_slice := parse_with summary_of;
  chat_read_from_slice b := inr (mkChatRead [] ((λ c, ([], [Byte.to_N c])) <$> b));
  send_from_slice b :=
    match b with
    | [c] => inr (mkSend (Byte.to_N c) [] sample_message [] None)
    | _ => inl (slit "malformed")
    end;
  value_kind := sample_kind;
  op_reads_back op := parse_with_print _ _ op op_of_tree;
  cal_op_reads_back op := parse_with_print _ _ op cal_op_of_tree;
  result_reads_back r := parse_with_print _ _ r result_of_tree;
  cal_result_reads_back r := parse_with_print _ _ r cal_result_of_tree;
  summary_reads_back s := parse_with_print _ _ s summary_of_tree;
  result_kind := sample_kind_result;
  cal_result_kind := sample_kind_cal_result;
  cal_result_needs_kind := sample_kind_needed
}.

#[export] Instance sample_scan : TableScan := {
  scan_jobs := map_to_list;
  scan_ops := map_to_list;
  scan_jobs_rows t := reflexivity _;
  scan_ops_rows t := reflexivity _
}.

(** Providers that fail to trash what they have not archived before, and accept
    the rest. *)
#[export] Instance sample_providers : Providers := {
  batch_execute past _ _ op :=
    [match op, past with
     | Trash, [] => Failed (NotFound [])
     | MoveToFolder _ _, _ => LocalOnly (Db []) true
     | _, _ => Success
     end];
  cal_batch_execute _ _ _ _ := [CSuccess];
  send_email _ _ := Success;
  send_scheduled _ _ _ := Success
}.
