(* ===== verification/ActionProperties.v ===== *)
(** * Actions: the properties of the journal, its worker and its requests

    What an app can rely on over the lives of a service: starts, deaths at any
    point, and requests that arrive in between. *)

From S2P Require Import Prelude.
From S2P Require Import Strings.
From S2P Require Import Bytes.
From S2P Require Import ActionTypes.
From S2P Require Import Journal.
From S2P Require Import Worker.
From S2P Require Import JournalTheory.
From S2P Require Import WorkerTheory.
From S2P Require Import WorkerSteps.
From S2P Require Import WorkerRuns.
From S2P Require Import WorkerPass.
From S2P Require Import WorkerLife.
From S2P Require Import ActionInstances.

(** ** The lives of a service *)

(** An empty journal. *)
Definition first_world (now : Z) (ts : list tick) (files : gmap vault_path bytes) : world :=
  World (Tables ∅ ∅) now ts [] [] files.

Section lives.
Context `{TableScan, Serde, Providers}.
Implicit Types (p : PlanId) (w : world) (j : Job) (o : Op) (k : op_key).

(** One process after another, each with as many passes as it is given. *)
Fixpoint lives (ls : list (nat * N)) w : world :=
  match ls with
  | [] => w
  | (i, owner) :: ls => lives ls (service_run i owner w).2
  end.

Lemma inv_first m now ts files : sched_ok m ts → inv m [] (first_world now ts files).
Proof.
  intros Hs. constructor; simpl; [done| | | | | |].
  - constructor; repeat intro; simpl in *; simplify_map_eq.
  - intros k o j [Eo _ _ _]. simpl in Eo. by rewrite lookup_empty in Eo.
  - intros pre p s post E. by destruct pre.
  - by intros p n r ?%elem_of_nil.
  - intros k o j op. simpl. by rewrite lookup_empty.
  - exists []. split_and!; [done|constructor|]. by intros k ?%elem_of_nil.
Qed.

(** A new process has executed nothing yet. *)
Lemma inv_restart m m' e0 w : inv m e0 w → sched_ok m' (schedule w) → inv m' (executed w) w.
Proof.
  intros [I1 I2 I3 I4 I5 I6 I7] Hs. constructor; [done..|].
  exists []. rewrite app_nil_r. split_and!; [done|constructor|]. by intros k ?%elem_of_nil.
Qed.

Definition finished_jobs w : list PlanId :=
  (List.filter (λ e : PlanId * Job, negb (job_active (status e.2))) (map_to_list (jobs (db w)))).*1.

Definition job_kinds w : list (PlanId * str) := (λ e : PlanId * Job, (e.1, kind e.2)) <$> map_to_list (jobs (db w)).

Lemma boot_start w : boot (executed w) (job_kinds w) (finished_jobs w) w.
Proof.
  constructor; [done| |].
  - intros p kd ([p' j] & [= -> ->] & Hin%elem_of_map_to_list)%list_elem_of_fmap. by exists j.
  - intros p j Ej _ Ha Hp. destruct Hp. unfold finished_jobs. rewrite list_filter_bool.
    apply list_elem_of_fmap. exists (p, j). split; [done|]. apply list_elem_of_filter. simpl. rewrite Ha.
    split; [done|]. by apply elem_of_map_to_list.
Qed.

Lemma service_run_inv i owner w :
  inv true (executed w) w → inv true (executed w) (service_run i owner w).2.
Proof.
  intros Hi. pose proof (service_run_spec true (executed w) (job_kinds w) (finished_jobs w) i owner w Hi (boot_start w)) as Hs.
  by destruct (service_run i owner w) as [[[]| |] w'] eqn:E; destruct Hs.
Qed.

Lemma lives_inv ls w : inv true (executed w) w → inv true (executed (lives ls w)) (lives ls w).
Proof.
  revert w. induction ls as [|[i owner] ls IH]; intros w Hi; [done|]. cbn [lives]. apply IH.
  apply (service_run_inv i owner) in Hi. eapply inv_restart; [exact Hi|apply Hi].
Qed.

Lemma lives_first now ts files ls :
  sched_ok true ts →
  inv true (executed (lives ls (first_world now ts files))) (lives ls (first_world now ts files)).
Proof. intros Hs. apply lives_inv. by apply inv_first. Qed.

(** C3. The app is told each completion of a mail plan at most once, after the
    outcomes of its operations unless the plan is quiet, with the summary that
    counts the results in the journal and that the finished job has; and what it
    is told of an operation is the result in the journal.  This holds at every
    instant, whatever requests arrive, wherever processes die and are started
    again. *)
Theorem completions_tell_the_truth ls now ts files :
  sched_ok true ts →
  let w := lives ls (first_world now ts files) in
  complete_ok (db w) (sent w) ∧ truthful (db w) (sent w).
Proof. intros Hs w. split; apply (lives_first now ts files ls Hs). Qed.

(** C4. Nothing accepted is lost.  After any history of deaths, a process that
    lives through one pass ends well, and then every job that was in the journal
    when it started is finished; every mail plan that was not finished before has
    its completion sent, and all operations of mail plans that are not quiet have
    had their results reported. *)
Theorem healthy_service_finishes ls now ts files i owner :
  sched_ok true ts →
  let w := lives ls (first_world now ts files) in
  sched_ok false (schedule w) → 0 < i →
  ∃ w', service_run i owner w = (Ok tt, w') ∧
    ∀ p j, jobs (db w) !! p = Some j →
      ∃ j', jobs (db w') !! p = Some j' ∧ kind j' = kind j ∧ job_active (status j') = false ∧
        (kind j = kind_mail_plan → job_active (status j) = true → ∃ s, NActionCompleted p s ∈ sent w') ∧
        (kind j = kind_mail_plan → quiet j' = false →
           ∀ n o, ops (db w') !! (p, n) = Some o → reported (sent w') (p, n) o).
Proof.
  intros Hs w Hf Hpos. pose proof (lives_first now ts files ls Hs) as Hi. fold w in Hi.
  apply (inv_restart _ false) in Hi; [|done].
  pose proof (service_run_spec false (executed w) (job_kinds w) (finished_jobs w) i owner w Hi (boot_start w)) as Hr.
  destruct (service_run i owner w) as [[[]|e|] w'] eqn:E; destruct Hr as [Hi' Hr]; [|done|done].
  exists w'. split; [done|]. destruct (Hr Hpos) as [n Hw]. intros p j Ej.
  assert ((p, kind j) ∈ job_kinds w) as Hin.
  { apply list_elem_of_fmap. exists (p, j). split; [done|]. by apply elem_of_map_to_list. }
  destruct (aw_known _ _ _ _ _ _ _ _ _ Hw _ _ Hin) as (j' & Ej' & Hk). exists j'.
  assert (job_active (status j') = false) as Ha.
  { by eapply (still_finished (job_kinds w) _ _ (λ _, true)). }
  split_and!; [done..| |].
  - intros Hm Hact. apply (aw_told _ _ _ _ _ _ _ _ _ Hw p j' Ej'); [congruence|done|].
    intros ([p' j0] & -> & Hin')%list_elem_of_fmap. rewrite list_filter_bool in Hin'.
    apply list_elem_of_filter in Hin' as [Hn Hin'%elem_of_map_to_list]. cbn [fst] in *. rewrite Ej in Hin'. injection Hin' as <-.
    simpl in Hn. by rewrite Hact in Hn.
  - intros Hm Hq n' o Eo. apply (in_hist _ _ _ Hi' (p, n') o j'); [|done]. constructor; try done. congruence.
Qed.

Definition executions k (ex : list op_key) : nat := length (filter (λ x, x = k) ex).

Lemma executions_NoDup k new : NoDup new → executions k new ≤ 1.
Proof.
  unfold executions. induction 1 as [|x xs Hx Hn IH]; [simpl; lia|]. rewrite filter_cons. case_decide as Ex; [|done].
  subst x. cbn [length]. assert (filter (λ x, x = k) xs = []) as ->; [|simpl; lia].
  destruct (filter (λ x, x = k) xs) as [|y ys] eqn:E; [done|].
  assert (y ∈ filter (λ x, x = k) xs) as Hy by (rewrite E; apply list_elem_of_here).
  by apply list_elem_of_filter in Hy as [-> Hy].
Qed.

Lemma executions_service_run i owner w k :
  inv true (executed w) w → executions k (executed (service_run i owner w).2) ≤ S (executions k (executed w)).
Proof.
  intros Hi%(service_run_inv i owner). destruct (in_once _ _ _ Hi) as (new & E & Hn & _). rewrite E.
  unfold executions. rewrite filter_app, length_app. pose proof (executions_NoDup k new Hn). unfold executions in *. lia.
Qed.

Lemma executions_lives ls w k :
  inv true (executed w) w → executions k (executed (lives ls w)) ≤ executions k (executed w) + length ls.
Proof.
  revert w. induction ls as [|[i owner] ls IH]; intros w Hi; cbn [lives length]; [lia|].
  etrans; [apply IH|].
  - apply (service_run_inv i owner) in Hi. eapply inv_restart; [exact Hi|apply Hi].
  - pose proof (executions_service_run i owner w k Hi). lia.
Qed.

(** C27. No process executes an operation twice: what a process adds to the
    executions that were before it has no repetition, wherever in the history it
    runs and wherever it dies.  So an operation is executed at most once for each
    process there was; and an operation of a mail plan whose result is in the
    journal, and that can be read, was executed. *)
Theorem executed_once_per_process ls now ts files k :
  sched_ok true ts →
  (∀ before i owner after, ls = before ++ (i, owner) :: after →
     let w := lives before (first_world now ts files) in
     ∃ new, executed (service_run i owner w).2 = executed w ++ new ∧ NoDup new) ∧
  let w := lives ls (first_world now ts files) in
  executions k (executed w) ≤ length ls ∧
  ∀ o j op, ops (db w) !! k = Some o → jobs (db w) !! k.1 = Some j → kind j = kind_mail_plan →
    is_Some (outcome o) → op_from_slice (operation o) = inr op → 1 ≤ executions k (executed w).
Proof.
  intros Hs. split.
  { intros before i owner after _ w. pose proof (service_run_inv i owner w) as Hi.
    destruct (in_once _ _ _ (Hi (lives_first now ts files before Hs))) as (new & E & Hn & _). by exists new. }
  intros w. pose proof (lives_first now ts files ls Hs) as Hi. fold w in Hi. split.
  - etrans; [apply executions_lives; by apply inv_first|]. simpl. lia.
  - intros o j op Eo Ej Hk Ho Hd. assert (k ∈ executed w) as Hin.
    { apply (in_ran _ _ _ Hi k o j op); [done..| |done]. unfold closed.
      pose proof (jo_outcome _ (in_journal _ _ _ Hi) k o Eo) as Hiff.
      destruct (op_open (op_status o)); [|done]. destruct Ho as [b Hb]. rewrite Hb in Hiff. by destruct Hiff as [_ Hf]; specialize (Hf eq_refl). }
    unfold executions. destruct (filter (λ x, x = k) (executed w)) as [|y ys] eqn:E; [|simpl; lia].
    assert (k ∈ filter (λ x, x = k) (executed w)) as Hk' by (by apply list_elem_of_filter).
    rewrite E in Hk'. by apply elem_of_nil in Hk'.
Qed.

(** *** What a summary adds up to *)

Lemma closed_statuses p t :
  (∀ n o, ops t !! (p, n) = Some o → closed o) →
  with_status OpDone (plan_ops t p) + with_status OpFailed (plan_ops t p) + with_status OpConflict (plan_ops t p) =
  size (plan_ops t p).
Proof.
  intros Hc. assert (∀ s, op_open s = true → with_status s (plan_ops t p) = 0) as Hz.
  { intros s Hs. apply Nat2N.inj. rewrite <- count_status_plan. apply count_status_zero.
    intros [[p' n] o] [Eo Ep]%elem_of_ops_of Es. simpl in *. subst p'. specialize (Hc n o Eo). unfold closed in Hc.
    by rewrite Es, Hs in Hc. }
  pose proof (count_statuses (ops_of p t)) as Hsum. rewrite !count_status_plan in Hsum.
  rewrite (Hz OpPending), (Hz OpLeased), (Hz OpExecuting) in Hsum by done.
  rewrite (ops_of_perm p t), length_map_to_list in Hsum. lia.
Qed.

(** Results that are local only belong to operations that are done. *)
Lemma local_only_done p t j :
  journal_ok t → jobs t !! p = Some j → kind j = kind_mail_plan →
  with_result RLocalOnly (plan_ops t p) ≤ with_status OpDone (plan_ops t p).
Proof.
  intros Hok Ej Hk. unfold with_result, with_status. apply map_subseteq_size, map_subseteq_spec.
  intros k o [Eo Ho]%map_lookup_filter_Some. apply map_lookup_filter_Some. split; [done|]. simpl in *.
  apply lookup_plan_ops in Eo as [Eo Ek]. rewrite <- Ek in Ej.
  assert (closed o) as Hc.
  { unfold closed. pose proof (jo_outcome _ Hok k o Eo) as Hiff. destruct (op_open (op_status o)); [|done].
    rewrite Ho in Hiff. by destruct Hiff as [_ Hf]; specialize (Hf eq_refl). }
  destruct (jo_mail _ Hok k o j Eo Ej Hk Hc) as (r & Er & ->). rewrite Ho in Er. injection Er as E.
  apply result_to_vec_inj in E as <-. done.
Qed.

(** In the completion of a mail plan each operation is counted once, as local
    only, succeeded, failed or in conflict, so long as their number fits 32 bits;
    and the finished job says completed exactly when none failed and none was in
    conflict, and failed exactly when none is done. *)
Theorem summary_adds_up ls now ts files p s j :
  sched_ok true ts →
  let w := lives ls (first_world now ts files) in
  NActionCompleted p s ∈ sent w → jobs (db w) !! p = Some j → kind j = kind_mail_plan →
  (N.of_nat (size (plan_ops (db w) p)) ≤ u32_max)%N →
  (total s = local_only s + remote_succeeded s + remote_failed s + conflicts s)%N ∧
  (status j = Completed ↔ remote_failed s = 0%N ∧ conflicts s = 0%N) ∧
  (status j = JobFailed ↔ total s ≠ 0%N ∧ local_only s = 0%N ∧ remote_succeeded s = 0%N).
Proof.
  intros Hs w Hin Ej Hk Hsz. pose proof (lives_first now ts files ls Hs) as Hi. fold w in Hi.
  apply list_elem_of_split in Hin as (pre & post & E).
  destruct (in_complete _ _ _ Hi pre p s post E) as (j' & Ej' & Hj). rewrite Ej in Ej'. injection Ej' as <-.
  destruct (Hj Hk) as (Hst & _ & [S1 S2 S3 S4 S5] & _).
  assert (job_active (status j) = false) as Ha by (by rewrite Hst, status_of_counts_active).
  pose proof (local_only_done p (db w) j (in_journal _ _ _ Hi) Ej Hk) as Hl.
  pose proof (closed_statuses p (db w)) as Hc. specialize (Hc (λ n o Eo, jo_finished _ (in_journal _ _ _ Hi) (p, n) o j Eo Ej Ha)).
  rewrite N.min_r in S2 by (unfold u32_max in *; lia). rewrite S1, S2, S3, S4, S5, Hst.
  unfold status_of_counts. split; [lia|].
  repeat case_decide; (split; split; try done; lia).
Qed.

End lives.

(** ** Witnesses *)

(** A plan of two operations and a send arrive; the process dies while it works,
    the next one finishes. *)
Definition sample_ops : list PlanOpInsert :=
  [mkOpInsert 1 0 [] (op_to_vec WArchive); mkOpInsert 2 1 [] (op_to_vec WTrash)].

Definition sample_schedule : list tick :=
  Tick [PlanArrives MailPlan 7 [97%N] false sample_ops; QuietJobArrives 9 kind_send [97%N] [x09]] 100 Healthy ::
  replicate 8 (Tick [] 101 Healthy) ++ [Tick [] 102 Death; Tick [] 103 Healthy].

Lemma sample_schedule_ok : sched_ok true sample_schedule.
Proof.
  assert (∀ t, sched_ok true (replicate 8 (Tick [] t Healthy))) as Hr.
  { intros t. repeat (constructor; [split; [constructor|by left]|]). constructor. }
  constructor.
  - split; [|by left]. constructor; [done|]. constructor; [|constructor].
    split; [by left|]. intros _ s. simpl. by intros [= <-].
  - apply Forall_app. split; [apply Hr|]. constructor; [|constructor; [|constructor]].
    + split; [constructor|by right].
    + split; [constructor|by left].
Qed.

Definition sample_first : world := first_world 100 sample_schedule ∅.

Lemma completions_tell_the_truth_witness :
  sched_ok true sample_schedule ∧
  NActionCompleted 7 (mkPlanSummary 2 0 2 0 0) ∈ sent (lives [(1, 5%N); (1, 6%N)] sample_first) ∧
  let w := lives [(1, 5%N); (1, 6%N)] sample_first in complete_ok (db w) (sent w) ∧ truthful (db w) (sent w).
Proof.
  split; [exact sample_schedule_ok|]. split; [|exact (completions_tell_the_truth _ _ _ _ sample_schedule_ok)].
  vm_compute. do 3 apply list_elem_of_further. apply list_elem_of_here.
Defined.

Lemma healthy_service_finishes_witness :
  let w := lives [(1, 5%N)] sample_first in
  NActionCompleted 7 (mkPlanSummary 2 0 2 0 0) ∉ sent w ∧ sched_ok false (schedule w) ∧
  ∃ w', service_run 1 6 w = (Ok tt, w') ∧ ∃ j, jobs (db w') !! 7%N = Some j ∧ job_active (status j) = false.
Proof.
  assert (sched_ok false (schedule (lives [(1, 5%N)] sample_first))) as Hf.
  { vm_compute. constructor; [split; [constructor|by left]|constructor]. }
  split; [|split; [exact Hf|]].
  - vm_compute. intros Hin. apply list_elem_of_singleton in Hin. discriminate.
  - destruct (healthy_service_finishes [(1, 5%N)] 100 sample_schedule ∅ 1 6 sample_schedule_ok Hf ltac:(lia))
      as (w' & E & Hw). exists w'. split; [exact E|].
    assert (is_Some (jobs (db (lives [(1, 5%N)] sample_first)) !! 7%N)) as [j Ej]
      by (apply (bool_decide_unpack _); vm_compute; exact I).
    destruct (Hw 7%N j Ej) as (j' & Ej' & _ & Ha & _). exists j'. split; [exact Ej'|exact Ha].
Defined.

Lemma executed_once_per_process_witness :
  sched_ok true sample_schedule ∧
  executions (7, 1)%N (executed (lives [(1, 5%N); (1, 6%N)] sample_first)) ≤ 2 ∧
  let w := lives [(1, 5%N)] sample_first in
  ∃ new, executed (service_run 1 6 w).2 = executed w ++ new ∧ NoDup new.
Proof.
  split; [exact sample_schedule_ok|].
  destruct (executed_once_per_process [(1, 5%N); (1, 6%N)] 100 sample_schedule ∅ (7, 1)%N sample_schedule_ok) as [Hp [He _]].
  split; [exact He|exact (Hp [(1, 5%N)] 1 6%N [] eq_refl)].
Defined.

Lemma summary_adds_up_witness :
  let w := lives [(1, 5%N); (1, 6%N)] sample_first in
  NActionCompleted 7 (mkPlanSummary 2 0 2 0 0) ∈ sent w ∧ (2 = 0 + 2 + 0 + 0)%N.
Proof.
  assert (NActionCompleted 7 (mkPlanSummary 2 0 2 0 0) ∈ sent (lives [(1, 5%N); (1, 6%N)] sample_first)) as Hin.
  { vm_compute. do 3 apply list_elem_of_further. apply list_elem_of_here. }
  split; [exact Hin|].
  assert (∃ j, jobs (db (lives [(1, 5%N); (1, 6%N)] sample_first)) !! 7%N = Some j ∧ kind j = kind_mail_plan)
    as (j & Ej & Hk).
  { assert (kind <$> jobs (db (lives [(1, 5%N); (1, 6%N)] sample_first)) !! 7%N = Some kind_mail_plan) as E
      by (vm_compute; reflexivity).
    apply fmap_Some in E as (j & Ej & Hk). exists j. split; [exact Ej|symmetry; exact Hk]. }
  apply (summary_adds_up [(1, 5%N); (1, 6%N)] 100 sample_schedule ∅ 7 (mkPlanSummary 2 0 2 0 0) j sample_schedule_ok Hin Ej Hk).
  vm_compute. discriminate.
Defined.
