(* ===== verification/ActionRequests.v ===== *)
(** * Actions: requests, order and counts

    What an accepted request writes into the journal, in which order operations
    are leased, what a summary adds up to, and what the quiet jobs do. *)

From S2P Require Import Prelude.
From S2P Require Import Strings.
From S2P Require Import Bytes.
From S2P Require Import ActionTypes.
From S2P Require Import Journal.
From S2P Require Import Worker.
From S2P Require Import JournalTheory.
From S2P Require Import WorkerTheory.
From S2P Require Import WorkerSteps.
From S2P Require Import WorkerPass.
From S2P Require Import ActionInstances.
From stdpp Require Import sorting.
From S2P Require Import ActionProperties.

(** ** Validation *)

Lemma validate_ops_None account seen (os : list (OperationId * str)) :
  validate_ops account seen os = None ↔
  (∀ o, o ∈ os → o.2 = account) ∧ NoDup os.*1 ∧ (∀ n, n ∈ os.*1 → n ∉ seen).
Proof.
  revert seen. induction os as [|[n a] os IH]; intros seen; cbn [validate_ops].
  - split; [|done]. intros _. split_and!; [by intros o ?%elem_of_nil|constructor|by intros n ?%elem_of_nil].
  - rewrite fmap_cons, NoDup_cons. cbn [fst]. case_decide as Ea.
    2: { split; [done|]. intros [Hall _]. destruct Ea. apply (Hall (n, a)), list_elem_of_here. }
    case_decide as En.
    { split; [done|]. intros (_ & _ & Hs). by destruct (Hs n (list_elem_of_here _ _)). }
    rewrite IH. split.
    + intros (Hall & Hnd & Hs). split_and!.
      * intros o [->|Ho]%elem_of_cons; [done|by apply Hall].
      * intros Hin. apply (Hs n Hin), list_elem_of_here.
      * done.
      * intros m [->|Hm]%elem_of_cons; [done|]. intros Hseen. apply (Hs m Hm). by apply list_elem_of_further.
    + intros (Hall & [Hn Hnd] & Hs). split_and!.
      * intros o Ho. apply Hall. by apply list_elem_of_further.
      * done.
      * intros m Hm [->|Hseen]%elem_of_cons; [done|]. apply (Hs m); [by apply list_elem_of_further|done].
Qed.

(** A plan is one account's, with operations, each with an identifier of its own. *)
Definition plan_wf (os : list (OperationId * str)) : Prop :=
  os ≠ [] ∧ (∃ account, ∀ o, o ∈ os → o.2 = account) ∧ NoDup os.*1.

Lemma validate_None os : validate os = None ↔ plan_wf os.
Proof.
  unfold validate, plan_wf. destruct os as [|[n a] os]; [naive_solver|]. rewrite validate_ops_None. split.
  - intros (Hall & Hnd & _). split_and!; [done|by exists a|done].
  - intros (_ & [b Hb] & Hnd). split_and!; [|done|by intros m _ ?%elem_of_nil].
    intros o Ho. rewrite (Hb o Ho). symmetry. apply (Hb (n, a)), list_elem_of_here.
Qed.

(** A refusal says what is wrong with the parameters. *)
Lemma validate_ops_message account seen os e :
  validate_ops account seen os = Some e → ∃ m, e = InvalidParams m.
Proof.
  revert seen. induction os as [|[n a] os IH]; intros seen; cbn [validate_ops]; [done|].
  repeat case_decide; [|apply IH|]; intros [= <-]; by eexists.
Qed.

Lemma validate_message os e : validate os = Some e → ∃ m, e = InvalidParams m.
Proof. destruct os as [|[n a] os]; [intros [= <-]; by eexists|apply validate_ops_message]. Qed.

Section requests.
Context `{TableScan, Serde, Providers}.
Implicit Types (p : PlanId) (t : tables) (w : world) (j : Job) (o : Op) (k : op_key).

(** ** Inserting a plan *)

Definition op_row (x : PlanOpInsert) : Op :=
  mkOp (ins_ordinal x) (ins_thread_id x) (ins_operation_blob x) OpPending None None None.

Definition op_rows p (xs : list PlanOpInsert) : list (op_key * Op) :=
  (λ x, ((p, ins_operation_id x), op_row x)) <$> xs.

Lemma insert_ops_all p (xs : list PlanOpInsert) t :
  NoDup (ins_operation_id <$> xs) → NoDup (ins_ordinal <$> xs) →
  (∀ x, x ∈ xs → ops t !! (p, ins_operation_id x) = None) →
  (∀ x n o, x ∈ xs → ops t !! (p, n) = Some o → ordinal o ≠ ins_ordinal x) →
  ∃ t', insert_ops p xs t = Some t' ∧ jobs t' = jobs t ∧
    ∀ k o, ops t' !! k = Some o ↔ (k, o) ∈ op_rows p xs ∨ ops t !! k = Some o.
Proof.
  revert t. induction xs as [|x xs IH]; intros t Hid Hord Hnew Hnum.
  { exists t. split_and!; [done..|]. intros k o. cbn. rewrite elem_of_nil. tauto. }
  rewrite fmap_cons, NoDup_cons in Hid. rewrite fmap_cons, NoDup_cons in Hord.
  destruct Hid as [Hx Hid], Hord as [Ho Hord]. cbn [insert_ops].
  assert (ops t !! (p, ins_operation_id x) = None) as Fx by (apply Hnew, list_elem_of_here).
  unfold insert_op. rewrite Fx.
  assert (ordinal_taken p (ins_ordinal x) t = false) as ->.
  { apply existsb_false. intros [[p' n] o] Hin%elem_of_map_to_list. simpl.
    destruct (N.eqb_spec p' p) as [->|]; [|done]. simpl. apply N.eqb_neq. apply (Hnum x n o); [apply list_elem_of_here|done]. }
  cbn [mbind option_bind]. destruct (IH (Tables (jobs t) (<[(p, ins_operation_id x) := op_row x]> (ops t)))) as (t' & E & Ej & Eo).
  - done.
  - done.
  - intros y Hy. simpl. rewrite lookup_insert_ne; [apply Hnew; by apply list_elem_of_further|].
    intros [= E]. apply Hx. rewrite E. by apply list_elem_of_fmap_2.
  - intros y n o Hy. simpl. destruct (decide (n = ins_operation_id x)) as [->|Hne].
    + rewrite lookup_insert_eq. intros [= <-] E. simpl in E. apply Ho. rewrite E. by apply list_elem_of_fmap_2.
    + rewrite lookup_insert_ne by congruence. intros En. apply (Hnum y n o); [by apply list_elem_of_further|done].
  - exists t'. split_and!; [exact E|exact Ej|]. intros k o. rewrite Eo. unfold op_rows. rewrite fmap_cons, elem_of_cons. simpl.
    destruct (decide (k = (p, ins_operation_id x))) as [->|Hne].
    + rewrite lookup_insert_eq, Fx. split; [|naive_solver]. intros [?|[= <-]]; tauto.
    + rewrite lookup_insert_ne by done. naive_solver.
Qed.

Lemma ordinals_increase {A} (f : nat → A → PlanOpInsert) (xs : list A) i :
  (∀ n x, ins_ordinal (f n x) = N.of_nat n) → ins_ordinal <$> imap (λ n, f (i + n)) xs = N.of_nat <$> seq i (length xs).
Proof.
  intros Hf. revert i. induction xs as [|x xs IH]; intros i; [done|].
  rewrite imap_cons, !fmap_cons. cbn [length seq]. rewrite fmap_cons, Hf, Nat.add_0_r. f_equal.
  rewrite <- IH. f_equal. apply imap_ext. intros n y _. simpl. by rewrite Nat.add_succ_r.
Qed.

Lemma ordinals_NoDup n : NoDup (N.of_nat <$> seq 0 n).
Proof. apply NoDup_fmap_2; [intros a b; lia|apply NoDup_seq]. Qed.

Lemma insert_plan_ok kd p account q os now t :
  owned t → jobs t !! p = None → NoDup (ins_operation_id <$> os) → NoDup (ins_ordinal <$> os) →
  ∃ t', insert_plan_rows kd p account q os now t = Some t' ∧
    jobs t' = <[p := mkJob (per_op_as_sql kd) account Queued q [] None None None now now]> (jobs t) ∧
    ∀ key o, ops t' !! key = Some o ↔ (key, o) ∈ op_rows p os ∨ ops t !! key = Some o.
Proof.
  intros Hown Fp Hid Hord. unfold insert_plan_rows, insert_job. rewrite Fp.
  assert (kind_check (kind (mkJob (per_op_as_sql kd) account Queued q [] None None None now now)) = true) as ->
    by (by destruct kd).
  cbn [mbind option_bind].
  assert (∀ n o, ops t !! (p, n) = Some o → False) as Hno.
  { intros n o Eo. destruct (Hown _ _ Eo) as [j Ej]. simpl in Ej. by rewrite Fp in Ej. }
  destruct (insert_ops_all p os (Tables (<[p := mkJob (per_op_as_sql kd) account Queued q [] None None None now now]> (jobs t)) (ops t)))
    as (t' & E & Ej & Eo).
  - done.
  - done.
  - intros x _. simpl. destruct (ops t !! (p, ins_operation_id x)) as [o|] eqn:F; [by destruct (Hno _ _ F)|done].
  - intros x n o _ F. by destruct (Hno _ _ F).
  - exists t'. split_and!; [exact E|exact Ej|exact Eo].
Qed.

Definition plan_ids (plan : ActionWirePlan) : list (OperationId * str) :=
  (λ x, (operation_id x, wo_account_id x)) <$> operations plan.

Definition plan_account (plan : ActionWirePlan) : str := from_option wo_account_id [] (head (operations plan)).

Lemma imap_fmap_const {A B C} (f : nat → A → B) (g : B → C) (h : A → C) (xs : list A) :
  (∀ n x, g (f n x) = h x) → g <$> imap f xs = h <$> xs.
Proof.
  intros Hf. apply list_eq. intros i. rewrite !list_lookup_fmap, list_lookup_imap.
  destruct (xs !! i); [|done]. simpl. by rewrite Hf.
Qed.

Lemma insert_or_fail_quiet f w :
  schedule w = [] →
  insert_or_fail f w =
    match f (unixepoch w) (db w) with None => (Err db_error, w) | Some t => (Ok (unixepoch w), with_db (λ _, t) w) end.
Proof.
  intros Es. unfold insert_or_fail, sql, step_or_fail, next_tick. unfold mbind, M_bind. rewrite Es. simpl.
  by destruct (f (unixepoch w) (db w)).
Qed.

(** The rows of a plan. *)
Definition plan_row (plan : ActionWirePlan) k o : Prop :=
  ∃ i x, operations plan !! i = Some x ∧ k = (plan_id plan, operation_id x) ∧
    o = mkOp (N.of_nat i) (wo_thread_id x) (op_to_vec (wo_operation x)) OpPending None None None ∧
    op_from_slice (operation o) = inr (wo_operation x).

Lemma elem_of_plan_rows plan k o :
  (k, o) ∈ op_rows (plan_id plan) (serialize_ops plan) ↔ plan_row plan k o.
Proof.
  unfold op_rows, serialize_ops. rewrite list_elem_of_fmap. split.
  - intros (x & [= -> ->] & [i Hi]%list_elem_of_lookup). rewrite list_lookup_imap in Hi.
    destruct (operations plan !! i) as [y|] eqn:Ey; [|done]. simpl in Hi. injection Hi as <-.
    exists i, y. split_and!; [done..|]. apply op_reads_back.
  - intros (i & x & Ex & -> & -> & _).
    exists (mkOpInsert (operation_id x) (N.of_nat i) (wo_thread_id x) (op_to_vec (wo_operation x))). split; [done|].
    apply list_elem_of_lookup. exists i. by rewrite list_lookup_imap, Ex.
Qed.

(** C37. A request to execute a plan is accepted exactly when the plan has
    operations, all of one account, under identifiers of their own, and is not
    yet known.  Then the journal has, besides what it had, a queued job that is
    not quiet and each operation, pending, in the plan's order, readable as it
    was sent.  Otherwise nothing changes and the answer is an error. *)
Theorem execute_plan_effect plan w :
  schedule w = [] → owned (db w) → (N.of_nat (length (operations plan)) ≤ u32_max + 1)%N →
  if decide (validate_plan plan = None) then
    plan_wf (plan_ids plan) ∧
    match jobs (db w) !! plan_id plan with
    | Some _ => handle_execute_plan plan w = (Ok (inl (Internal db_error)), w)
    | None => ∃ t',
        handle_execute_plan plan w = (Ok (inr (plan_id plan)), with_db (λ _, t') w) ∧
        t' = arrive (unixepoch w) (db w) (PlanArrives MailPlan (plan_id plan) (plan_account plan) false (serialize_ops plan)) ∧
        jobs t' = <[plan_id plan := mkJob kind_mail_plan (plan_account plan) Queued false [] None None None (unixepoch w) (unixepoch w)]>
                    (jobs (db w)) ∧
        ∀ k o, ops t' !! k = Some o ↔ ops (db w) !! k = Some o ∨ plan_row plan k o
    end
  else ¬ plan_wf (plan_ids plan) ∧ ∃ m, handle_execute_plan plan w = (Ok (inl (InvalidParams m)), w).
Proof.
  intros Es Hown Hlen. unfold handle_execute_plan.
  assert (validate_plan plan = None ↔ plan_wf (plan_ids plan)) as Hv by apply validate_None.
  case_decide as Ev; cycle 1.
  { split; [by rewrite <- Hv|]. destruct (validate_plan plan) as [e|] eqn:E; [|done].
    destruct (validate_message _ _ E) as [m ->]. by exists m. }
  split; [by apply Hv|]. rewrite Ev. unfold ordinals_fit. rewrite (proj2 (N.leb_le _ _) Hlen). apply Hv in Ev as (Hne & _ & Hnd).
  unfold attempt, insert_mail_plan, mbind, M_bind. rewrite insert_or_fail_quiet by done.
  fold (plan_account plan).
  destruct (jobs (db w) !! plan_id plan) as [j|] eqn:Fp.
  { unfold insert_plan_rows, insert_job. by rewrite Fp. }
  destruct (insert_plan_ok MailPlan (plan_id plan) (plan_account plan) false (serialize_ops plan) (unixepoch w) (db w))
    as (t' & E & Ej & Eo).
  - done.
  - done.
  - unfold serialize_ops. rewrite (imap_fmap_const _ _ operation_id) by done.
    unfold plan_ids in Hnd. rewrite <- list_fmap_compose in Hnd. exact Hnd.
  - unfold serialize_ops. rewrite (ordinals_increase (λ i x, mkOpInsert (operation_id x) (N.of_nat i) (wo_thread_id x) (op_to_vec (wo_operation x))) _ 0)
      by done.
    apply ordinals_NoDup.
  - exists t'. rewrite E. split; [done|]. split; [unfold arrive; by rewrite E|]. split; [exact Ej|].
    intros k o. rewrite Eo, elem_of_plan_rows. tauto.
Qed.

(** ** The order of operations *)

Definition before (a b : Z * N) : Prop := (a.1 < b.1 ∨ a.1 = b.1 ∧ (a.2 ≤ b.2)%N)%Z.

Lemma order_by_head {A} (key : A → Z * N) (xs : list A) x :
  head (order_by key xs) = Some x → x ∈ xs ∧ ∀ y, y ∈ xs → before (key x) (key y).
Proof.
  intros E. unfold order_by in E.
  set (R := λ a b, ((key a).1 < (key b).1 ∨ (key a).1 = (key b).1 ∧ ((key a).2 ≤ (key b).2)%N)%Z) in E.
  assert (StronglySorted R (merge_sort R xs)) as Hs.
  { apply StronglySorted_merge_sort; [intros a b c; unfold R; lia|intros a b; unfold R; lia]. }
  assert (merge_sort R xs ≡ₚ xs) as Hp by apply merge_sort_Permutation.
  destruct (merge_sort R xs) as [|y ys]; [done|]. injection E as ->.
  apply StronglySorted_inv in Hs as [_ Hall]. split; [rewrite <- Hp; apply list_elem_of_here|].
  intros z. rewrite <- Hp. intros [->|Hz]%elem_of_cons; [unfold before; lia|].
  rewrite Forall_forall in Hall. by apply Hall.
Qed.

(** Leasing takes a pending operation of a job that is not finished: the
    first of the oldest such job, and marks it, nothing else. *)
Theorem lease_takes_oldest owner d w op w' :
  schedule w = [] → lease_next_ready_op owner d w = (Ok (Some op), w') →
  ∃ o j, ops (db w) !! leased_key op = Some o ∧ jobs (db w) !! lo_plan_id op = Some j ∧
    op_status o = OpPending ∧ job_active (status j) = true ∧ lo_operation_blob op = operation o ∧
    w' = with_db (set_op (lease_op owner (now w + d)%Z) (leased_key op)) w ∧
    ∀ k' o' j', ops (db w) !! k' = Some o' → jobs (db w) !! k'.1 = Some j' → op_status o' = OpPending →
      job_active (status j') = true → before (created_at j, ordinal o) (created_at j', ordinal o').
Proof.
  intros Es E. unfold lease_next_ready_op, query, sql, step_or_fail, next_tick, mbind, M_bind in E.
  rewrite Es in E. simpl in E. destruct (head (ready_ops (db w))) as [[[k o] j]|] eqn:Eh; [|done].
  simpl in E. injection E as <- <-. exists o, j.
  pose proof Eh as Hin. apply order_by_head in Hin as [_ Hfirst].
  assert ((k, o, j) ∈ ready_ops (db w)) as (Eo & Ej & Hs & Ha)%elem_of_ready.
  { destruct (ready_ops (db w)) as [|x xs]; [done|]. simpl in Eh. injection Eh as ->. apply list_elem_of_here. }
  destruct k as [p n]. split_and!; try done. intros k' o' j' Eo' Ej' Hs' Ha'. apply (Hfirst (k', o', j')).
  rewrite list_filter_bool, list_elem_of_filter, elem_of_joined. simpl. by rewrite Hs', Ha'.
Qed.

End requests.

(** ** Witnesses *)

Definition sample_plan : ActionWirePlan :=
  mkWirePlan 7 [mkWireOperation 1 [97%N] [116%N] WArchive; mkWireOperation 2 [97%N] [116%N] WTrash].

Definition sample_world : world := World (Tables ∅ ∅) 100 [] [] [] ∅.

Lemma execute_plan_effect_witness :
  owned (db sample_world) ∧ (handle_execute_plan sample_plan sample_world).1 = Ok (inr 7%N).
Proof.
  assert (owned (db sample_world)) as Hown by (intros k o; simpl; rewrite lookup_empty; discriminate).
  split; [exact Hown|].
  pose proof (execute_plan_effect sample_plan sample_world eq_refl Hown ltac:(vm_compute; discriminate)) as Hp.
  destruct (decide (validate_plan sample_plan = None)) as [_|Hn].
  - destruct Hp as [_ Hp].
    assert (jobs (db sample_world) !! plan_id sample_plan = None) as Fp by (apply lookup_empty).
    rewrite Fp in Hp. destruct Hp as (t' & E & _). rewrite E. reflexivity.
  - destruct Hn. vm_compute. reflexivity.
Defined.

(** The plan in the journal, with an older one. *)
Definition two_plans : world :=
  (handle_execute_plan sample_plan
     (World (Tables {[3%N := mkJob kind_mail_plan [97%N] Queued false [] None None None 50 50]}
                    {[(3%N, 4%N) := mkOp 0 [] (op_to_vec WUnsnooze) OpPending None None None]}) 100000 [] [] [] ∅)).2.

Lemma lease_takes_oldest_witness :
  ∃ op w', lease_next_ready_op 5 0 two_plans = (Ok (Some op), w') ∧ lo_plan_id op = 3%N ∧
    ∃ o, ops (db two_plans) !! leased_key op = Some o ∧ op_status o = OpPending.
Proof.
  assert (schedule two_plans = []) as Es by (vm_compute; reflexivity).
  destruct (lease_next_ready_op 5 0 two_plans) as [r w'] eqn:E.
  assert (lo_plan_id <$> (match r with Ok (Some op) => Some op | _ => None end) = Some 3%N) as Er.
  { apply (f_equal fst) in E. simpl in E. rewrite <- E. vm_compute. reflexivity. }
  destruct r as [[op|]|e|]; [|discriminate Er..]. exists op, w'. split; [reflexivity|].
  split; [by injection Er|].
  destruct (lease_takes_oldest 5 0 two_plans op w' Es E) as (o & j & Eo & _ & Hs & _). exists o. split; [exact Eo|exact Hs].
Defined.

(** ** Actions: behaviours that differ from what the code says it does

    Closed runs of the worker, each with one statement that fails or one file
    that is missing. *)

Definition quiet_tick : tick := Tick [] 101 Healthy.
Definition broken_tick : tick := Tick [] 102 Broken.

(** [n] steps work, the next one fails. *)
Definition failing_after (n : nat) (l : list arrival) : list tick :=
  Tick l 100 Healthy :: replicate (n - 1) quiet_tick ++ [broken_tick].

Definition job_of (p : PlanId) (w : world) : option JobStatus := status <$> jobs (db w) !! p.

Definition is_cal_completion (n : Notification) : bool :=
  match n with NCalendarActionCompleted _ _ => true | _ => false end.
Definition is_completion (n : Notification) : bool :=
  match n with NActionCompleted _ _ => true | _ => false end.
Definition is_outcome (n : Notification) : bool :=
  match n with NOperationOutcome _ _ _ => true | _ => false end.

(** The write of a calendar outcome fails once.  The worker stores a failure in
    the form of mail results, which the end of the plan cannot read: the job is
    finished and its completion never sent. *)
Definition calendar_plan : arrival :=
  PlanArrives CalendarPlan 7 [97%N] false [mkOpInsert 1 0 [] (cal_op_to_vec (DeleteEvent [101%N]))].

Lemma calendar_completion_lost :
  let w := lives [(2, 5%N); (2, 6%N)] (first_world 100 (failing_after 6 [calendar_plan]) ∅) in
  executed w = [(7%N, 1%N)] ∧ job_of 7 w = Some JobFailed ∧ existsb is_cal_completion (sent w) = false.
Proof. vm_compute. done. Qed.

(** Without the failure it is sent. *)
Lemma calendar_completion_sent :
  let w := lives [(2, 5%N)] (first_world 100 [Tick [calendar_plan] 100 Healthy] ∅) in
  job_of 7 w = Some Completed ∧ existsb is_cal_completion (sent w) = true.
Proof. vm_compute. done. Qed.

(** The write of a mail outcome fails once: the operation was executed with
    success, the app is told that it failed. *)
Lemma success_reported_as_failure :
  let w := lives [(1, 5%N)]
    (first_world 100 (failing_after 6 [PlanArrives MailPlan 7 [97%N] false [mkOpInsert 1 0 [] (op_to_vec WArchive)]]) ∅) in
  executed w = [(7%N, 1%N)] ∧
  sent w = [NOperationOutcome 7 1 (worker_failure db_error); NActionCompleted 7 (mkPlanSummary 1 0 0 1 0)].
Proof. vm_compute. done. Qed.

(** A send whose payload cannot be read is finished as failed, and the app is
    told nothing. *)
Lemma failed_send_is_silent :
  let w := lives [(2, 5%N); (2, 6%N)]
    (first_world 100 [Tick [QuietJobArrives 9 kind_send [97%N] []] 100 Healthy] ∅) in
  job_of 9 w = Some JobFailed ∧ sent w = [].
Proof. vm_compute. done. Qed.

(** The last write of a send fails once: the message went out, the job says that
    it failed, the app is told nothing. *)
Lemma sent_message_recorded_as_failed :
  let w := lives [(2, 5%N); (2, 6%N)]
    (first_world 100 (failing_after 8 [QuietJobArrives 9 kind_send [97%N] [x09]]) ∅) in
  executed w = [(9%N, 0%N)] ∧ job_of 9 w = Some JobFailed ∧ sent w = [].
Proof. vm_compute. done. Qed.

(** A job of a kind that is not known: its operation fails, the job is finished,
    and neither completion is sent. *)
Definition corrupt_world : world :=
  World (Tables {[7%N := mkJob [120%N] [97%N] Queued false [] None None None 100 100]}
                {[(7%N, 1%N) := mkOp 0 [] [] OpPending None None None]}) 100 [] [] [] ∅.

Lemma corrupt_kind_completes_nothing :
  let w := (service_run 2 5 corrupt_world).2 in
  job_of 7 w = Some JobFailed ∧ existsb is_completion (sent w) = false ∧ existsb is_cal_completion (sent w) = false.
Proof. vm_compute. done. Qed.

(** A process dies between the outcome and its report, and the query of the
    replay fails in the next: the job is finished and completed, the outcome never
    reported. *)
Definition replay_fails : list tick :=
  Tick [PlanArrives MailPlan 7 [97%N] false [mkOpInsert 1 0 [] (op_to_vec WArchive)]] 100 Healthy ::
  replicate 6 quiet_tick ++ [Tick [] 101 Death; quiet_tick; quiet_tick; broken_tick].

Lemma outcome_never_reported :
  let w := lives [(2, 5%N); (2, 6%N)] (first_world 100 replay_fails ∅) in
  executed w = [(7%N, 1%N)] ∧ existsb is_completion (sent w) = true ∧ existsb is_outcome (sent w) = false.
Proof. vm_compute. done. Qed.
