(* ===== verification/ActionResolve.v ===== *)
(** * From the user's intent to a plan, and back

    src/crates/app/src/action_resolve.rs: resolving an intent, building the plan
    with its optimistic changes, the text of the toasts, and the payloads that
    undo a plan; of src/crates/app/src/handlers/commands.rs the operations of an
    undo payload; src/crates/cmdk/src/undo.rs, the stack of undo entries; of
    src/crates/types/src/sidebar_selection.rs what resolution asks of the sidebar.

    Of a thread in the list only what these read and write is kept. *)

From S2P Require Import Prelude.
From S2P Require Import Strings.
From S2P Require Import Bytes.
From S2P Require Import ActionTypes.

(** ** Intents *)

Inductive MailActionIntent :=
  | IArchive
  | ITrash
  | IPermanentDelete
  | IToggleSpam
  | IToggleStar
  | IToggleRead
  | ITogglePin
  | IToggleMute
  | IMoveToFolder (folder_id : FolderId)
  | IAddLabel (label_id : LabelId)
  | IRemoveLabel (label_id : LabelId)
  | IApplyLabelGroup (group_id : LabelGroupId)
  | IRemoveLabelGroup (group_id : LabelGroupId)
  | ISnooze (until : Z)
  | IUnsubscribe.

Inductive SystemFolder := Sent | Draft | TrashFolder | Spam.

Inductive VirtualView := Starred | Snoozed | AllMail.
Inductive Bundle := Primary | Updates | Promotions | Social | Newsletters.
Inductive FeatureView := Tasks | Attachments.

Inductive SidebarSelection :=
  | Inbox
  | SFolder (f : SystemFolder)
  | SVirtualView (v : VirtualView)
  | SBundle (b : Bundle)
  | SFeatureView (v : FeatureView)
  | SSmartFolder (id : str)
  | ProviderFolder (id : FolderId)
  | SLabelGroup (id : LabelGroupId).

Definition inbox_id : FolderId := Folder (slit "INBOX").

Definition as_folder_id_str (f : SystemFolder) : str :=
  match f with
  | Sent => slit "SENT"
  | Draft => slit "DRAFT"
  | TrashFolder => slit "TRASH"
  | Spam => slit "SPAM"
  end.

Definition source_folder_for_undo (s : SidebarSelection) : option FolderId :=
  match s with
  | Inbox => Some inbox_id
  | SFolder f => Some (Folder (as_folder_id_str f))
  | ProviderFolder id => Some id
  | SVirtualView _ | SBundle _ | SFeatureView _ | SSmartFolder _ | SLabelGroup _ => None
  end.

Definition selection_is_spam (s : SidebarSelection) : bool :=
  match s with SFolder Spam => true | _ => false end.

(** ** Plans *)

Inductive CompensationContext := CompNone | SourceFolder (source : option FolderId).

Inductive ToggleField := Star | Read | Pin | Mute.

#[export] Instance ToggleField_eq_dec : EqDecision ToggleField.
Proof. solve_decision. Defined.

Inductive ResolveOutcome :=
  | Resolved (operation : MailOperation) (compensation : CompensationContext)
  | PerThreadToggle (field : ToggleField) (compensation : CompensationContext)
  | ResolveNoOp.

(** What was flipped, and its value before. *)
Inductive OptimisticMutation :=
  | OSetStarred (account thread : str) (previous : bool)
  | OSetRead (account thread : str) (previous : bool)
  | OSetPinned (account thread : str) (previous : bool)
  | OSetMuted (account thread : str) (previous : bool).

Definition toggle_to_mutation (f : ToggleField) (account thread : str) (previous : bool) : OptimisticMutation :=
  match f with
  | Star => OSetStarred account thread previous
  | Read => OSetRead account thread previous
  | Pin => OSetPinned account thread previous
  | Mute => OSetMuted account thread previous
  end.

(** The parts of a mutation, for the matches that bind all variants at once. *)
Definition om_field (m : OptimisticMutation) : ToggleField :=
  match m with OSetStarred _ _ _ => Star | OSetRead _ _ _ => Read | OSetPinned _ _ _ => Pin | OSetMuted _ _ _ => Mute end.
Definition om_account_id (m : OptimisticMutation) : str :=
  match m with OSetStarred a _ _ | OSetRead a _ _ | OSetPinned a _ _ | OSetMuted a _ _ => a end.
Definition om_thread_id (m : OptimisticMutation) : str :=
  match m with OSetStarred _ t _ | OSetRead _ t _ | OSetPinned _ t _ | OSetMuted _ t _ => t end.
Definition previous (m : OptimisticMutation) : bool :=
  match m with OSetStarred _ _ p | OSetRead _ _ p | OSetPinned _ _ p | OSetMuted _ _ p => p end.

Inductive ViewEffect := Stays | LeavesCurrentView.
Inductive PostSuccessEffect := PostNone | RefreshNav.
Inductive UndoBehavior := Irreversible | Reversible.

Record CompletionBehavior := mkBehavior {
  view_effect : ViewEffect;
  post_success : PostSuccessEffect;
  undo : UndoBehavior;
  success_label : str
}.

Definition completion_behavior (op : MailOperation) : CompletionBehavior :=
  match op with
  | Archive => mkBehavior LeavesCurrentView PostNone Reversible (slit "Archived")
  | Trash => mkBehavior LeavesCurrentView PostNone Reversible (slit "Moved to Trash")
  | PermanentDelete => mkBehavior LeavesCurrentView PostNone Irreversible (slit "Permanently deleted")
  | SetSpam _ => mkBehavior LeavesCurrentView PostNone Reversible (slit "Spam status toggled")
  | SetStarred _ => mkBehavior Stays PostNone Reversible (slit "Star toggled")
  | SetRead _ => mkBehavior Stays RefreshNav Reversible (slit "Read status toggled")
  | SetPinned _ => mkBehavior Stays PostNone Reversible (slit "Pin toggled")
  | SetMuted _ => mkBehavior Stays PostNone Reversible (slit "Mute toggled")
  | MoveToFolder _ _ => mkBehavior LeavesCurrentView PostNone Reversible (slit "Moved to folder")
  | AddLabel _ | ApplyLabelGroup _ => mkBehavior Stays PostNone Reversible (slit "Label applied")
  | RemoveLabel _ | RemoveLabelGroup _ => mkBehavior Stays PostNone Reversible (slit "Label removed")
  | Snooze _ => mkBehavior LeavesCurrentView PostNone Reversible (slit "Snoozed")
  | Unsnooze => mkBehavior Stays RefreshNav Irreversible (slit "Unsnoozed")
  end.

(** An operation on a thread of an account. *)
Abbreviation target_op := (str * str * MailOperation)%type.

Record ActionExecutionPlan := mkPlan {
  plan_operations : list target_op;
  behavior : CompletionBehavior;
  compensation : CompensationContext;
  optimistic : list OptimisticMutation
}.

(** ** Resolution *)

Definition resolve_intent (intent : MailActionIntent) (selection : SidebarSelection) : ResolveOutcome :=
  match intent with
  | IArchive => Resolved Archive CompNone
  | ITrash => Resolved Trash (SourceFolder (source_folder_for_undo selection))
  | IPermanentDelete => Resolved PermanentDelete CompNone
  | IToggleSpam => Resolved (SetSpam (negb (selection_is_spam selection))) CompNone
  | IToggleStar => PerThreadToggle Star CompNone
  | IToggleRead => PerThreadToggle Read CompNone
  | ITogglePin => PerThreadToggle Pin CompNone
  | IToggleMute => PerThreadToggle Mute CompNone
  | IMoveToFolder d => Resolved (MoveToFolder d (source_folder_for_undo selection)) CompNone
  | IAddLabel l => Resolved (AddLabel l) CompNone
  | IRemoveLabel l => Resolved (RemoveLabel l) CompNone
  | IApplyLabelGroup g => Resolved (ApplyLabelGroup g) CompNone
  | IRemoveLabelGroup g => Resolved (RemoveLabelGroup g) CompNone
  | ISnooze until => Resolved (Snooze until) CompNone
  | IUnsubscribe => ResolveNoOp
  end.

(** ** The thread list *)

Record Thread := mkThread {
  th_account_id : str;
  th_id : str;
  is_starred : bool;
  is_read : bool;
  is_pinned : bool;
  is_muted : bool;
  is_local_draft : bool
}.

Definition read_toggle_field (f : ToggleField) (t : Thread) : bool :=
  match f with Star => is_starred t | Read => is_read t | Pin => is_pinned t | Mute => is_muted t end.

Definition write_toggle_field (f : ToggleField) (v : bool) (t : Thread) : Thread :=
  match f with
  | Star => mkThread (th_account_id t) (th_id t) v (is_read t) (is_pinned t) (is_muted t) (is_local_draft t)
  | Read => mkThread (th_account_id t) (th_id t) (is_starred t) v (is_pinned t) (is_muted t) (is_local_draft t)
  | Pin => mkThread (th_account_id t) (th_id t) (is_starred t) (is_read t) v (is_muted t) (is_local_draft t)
  | Mute => mkThread (th_account_id t) (th_id t) (is_starred t) (is_read t) (is_pinned t) v (is_local_draft t)
  end.

Definition toggle_to_operation (f : ToggleField) (to : bool) : MailOperation :=
  match f with Star => SetStarred to | Read => SetRead to | Pin => SetPinned to | Mute => SetMuted to end.

Definition is_thread (account thread : str) (t : Thread) : bool :=
  bool_decide (th_account_id t = account) && bool_decide (th_id t = thread).

(** [iter_mut().find(..)]: the first match is changed. *)
Fixpoint update_thread (account thread : str) (f : Thread → Thread) (l : list Thread) : list Thread :=
  match l with
  | [] => []
  | t :: l => if is_thread account thread t then f t :: l else t :: update_thread account thread f l
  end.

Definition find_thread (account thread : str) (l : list Thread) : option Thread :=
  List.find (is_thread account thread) l.

(** ** Building the plan *)

(** The loop over the selected threads of a toggle. *)
Fixpoint toggle_threads (f : ToggleField) (targets : list (str * str)) (l : list Thread)
    : list target_op * list OptimisticMutation * list Thread :=
  match targets with
  | [] => ([], [], l)
  | (a, i) :: targets =>
      match find_thread a i l with
      | None => toggle_threads f targets l
      | Some t =>
          let prev := read_toggle_field f t in
          let '(os, ms, l') := toggle_threads f targets (update_thread a i (write_toggle_field f (negb prev)) l) in
          ((a, i, toggle_to_operation f (negb prev)) :: os, toggle_to_mutation f a i prev :: ms, l')
      end
  end.

(** [None] for an intent without operations; the thread list is changed. *)
Definition build_execution_plan (outcome : ResolveOutcome) (targets : list (str * str)) (l : list Thread)
    : option ActionExecutionPlan * list Thread :=
  match outcome with
  | Resolved op comp =>
      (Some (mkPlan ((λ x : str * str, (x.1, x.2, op)) <$> targets) (completion_behavior op) comp []), l)
  | PerThreadToggle f comp =>
      let '(os, ms, l') := toggle_threads f targets l in
      (Some (mkPlan os (completion_behavior (toggle_to_operation f true)) comp ms), l')
  | ResolveNoOp => (None, l)
  end.

(** [rollback_optimistic] on the list. *)
Definition rollback_threads (ms : list OptimisticMutation) (l : list Thread) : list Thread :=
  foldl (λ l m, update_thread (om_account_id m) (om_thread_id m) (write_toggle_field (om_field m) (previous m)) l) l ms.

(** ** Toasts *)

Definition is_local_only (o : ActionOutcome) : bool := match o with LocalOnly _ _ => true | _ => false end.

(** The warning sign and a space. *)
Definition warning_sign : str := [9888; 32]%N.
Definition em_dash : str := [32; 8212; 32]%N.

Definition count_if {A} (f : A → bool) (l : list A) : nat := length (List.filter f l).

Definition format_outcome_toast (b : CompletionBehavior) (outcomes : list ActionOutcome) : str :=
  let total := length outcomes in
  let succeeded := count_if (λ o, is_success o || is_local_only o || is_noop o) outcomes in
  let failed := count_if is_failed outcomes in
  if failed =? total then warning_sign ++ success_label b ++ slit " failed"
  else if 0 <? failed then
    warning_sign ++ success_label b ++ slit " " ++ decimal (N.of_nat succeeded) ++ slit " of " ++
      decimal (N.of_nat total) ++ slit " threads" ++ em_dash ++ decimal (N.of_nat failed) ++ slit " failed"
  else if existsb is_local_only outcomes then
    warning_sign ++ success_label b ++ slit " locally" ++ em_dash ++ slit "sync may revert this"
  else success_label b.

(** ** Undo payloads *)

Inductive MailUndoPayload :=
  | UArchive (account : str) (threads : list str)
  | UTrash (account : str) (threads : list str) (source : option FolderId)
  | UMoveToFolder (account : str) (threads : list str) (source : FolderId)
  | USetSpam (account : str) (threads : list str) (was_spam : bool)
  | USetStarred (account : str) (threads : list str) (was_starred : bool)
  | USetRead (account : str) (threads : list str) (was_read : bool)
  | USetPinned (account : str) (threads : list str) (was_pinned : bool)
  | USetMuted (account : str) (threads : list str) (was_muted : bool)
  | UAddLabel (account : str) (threads : list str) (label_id : LabelId)
  | URemoveLabel (account : str) (threads : list str) (label_id : LabelId)
  | UApplyLabelGroup (account : str) (threads : list str) (group_id : LabelGroupId)
  | URemoveLabelGroup (account : str) (threads : list str) (group_id : LabelGroupId)
  | USnooze (account : str) (threads : list str).

(** A [BTreeMap] of vectors, as its entries in the order of the keys. *)
Section btree.
Context {K V : Type} (cmp : K → K → comparison).

Fixpoint btree_push (k : K) (v : V) (m : list (K * list V)) : list (K * list V) :=
  match m with
  | [] => [(k, [v])]
  | (k', vs) :: m' =>
      match cmp k k' with
      | Lt => (k, [v]) :: m
      | Eq => (k', vs ++ [v]) :: m'
      | Gt => (k', vs) :: btree_push k v m'
      end
  end.

Definition btree_of (l : list (K * V)) : list (K * list V) :=
  foldl (λ m e, btree_push e.1 e.2 m) [] l.
End btree.

(** The order of strings: UTF-8 keeps that of the characters. *)
Fixpoint str_compare (a b : str) : comparison :=
  match a, b with
  | [], [] => Eq
  | [], _ :: _ => Lt
  | _ :: _, [] => Gt
  | c :: a, d :: b => match (c ?= d)%N with Eq => str_compare a b | r => r end
  end.

Definition bool_compare (a b : bool) : comparison :=
  match a, b with false, true => Lt | true, false => Gt | _, _ => Eq end.

Definition key_compare (a b : str * bool) : comparison :=
  match str_compare a.1 b.1 with Eq => bool_compare a.2 b.2 | r => r end.

(** The kind of the first mutation decides. *)
Definition toggle_payload (first : OptimisticMutation) (account : str) (threads : list str) (was : bool)
    : MailUndoPayload :=
  match first with
  | OSetStarred _ _ _ => USetStarred account threads was
  | OSetRead _ _ _ => USetRead account threads was
  | OSetPinned _ _ _ => USetPinned account threads was
  | OSetMuted _ _ _ => USetMuted account threads was
  end.

(** Only what was done can be undone. *)
Definition done (o : ActionOutcome) : bool := is_success o || is_local_only o.

Definition build_toggle_undo_payloads (plan : ActionExecutionPlan) (outcomes : list ActionOutcome)
    : list MailUndoPayload :=
  match optimistic plan with
  | [] => []
  | first :: _ =>
      (λ e : str * bool * list str, toggle_payload first e.1.1 e.2 e.1.2) <$>
        btree_of key_compare
          (omap (λ e : OptimisticMutation * ActionOutcome,
                   if done e.2 then Some (om_account_id e.1, previous e.1, om_thread_id e.1) else None)
                (zip (optimistic plan) outcomes))
  end.

Definition standard_payload (op : MailOperation) (comp : CompensationContext) (account : str) (threads : list str)
    : option MailUndoPayload :=
  match op with
  | Archive => Some (UArchive account threads)
  | Trash =>
      match comp with
      | SourceFolder (Some f) => Some (UTrash account threads (Some f))
      | _ => None
      end
  | MoveToFolder _ source => (λ f, UMoveToFolder account threads f) <$> source
  | SetSpam to => Some (USetSpam account threads (negb to))
  | AddLabel l => Some (UAddLabel account threads l)
  | RemoveLabel l => Some (URemoveLabel account threads l)
  | ApplyLabelGroup g => Some (UApplyLabelGroup account threads g)
  | RemoveLabelGroup g => Some (URemoveLabelGroup account threads g)
  | Snooze _ => Some (USnooze account threads)
  | _ => None
  end.

(** [operations[0]] of a plan without operations panics: [None]. *)
Definition build_standard_undo_payloads (plan : ActionExecutionPlan) (outcomes : list ActionOutcome)
    : option (list MailUndoPayload) :=
  match plan_operations plan with
  | [] => None
  | (_, _, first_op) :: _ =>
      Some (omap (λ e : str * list str, standard_payload first_op (compensation plan) e.1 e.2)
        (btree_of str_compare
          (omap (λ e : target_op * ActionOutcome, if done e.2 then Some (e.1.1.1, e.1.1.2) else None)
                (zip (plan_operations plan) outcomes))))
  end.

Definition build_undo_payloads (plan : ActionExecutionPlan) (outcomes : list ActionOutcome)
    : option (list MailUndoPayload) :=
  match undo (behavior plan) with
  | Irreversible => Some []
  | Reversible =>
      if forallb is_failed outcomes then Some []
      else if is_nil (optimistic plan) then build_standard_undo_payloads plan outcomes
      else Some (build_toggle_undo_payloads plan outcomes)
  end.

Definition undo_description (payloads : list MailUndoPayload) : str :=
  match payloads with
  | [] => []
  | UArchive _ ts :: _ => slit "Archived " ++ decimal (N.of_nat (length ts)) ++ slit " thread(s)"
  | UTrash _ ts _ :: _ => slit "Trashed " ++ decimal (N.of_nat (length ts)) ++ slit " thread(s)"
  | UMoveToFolder _ ts _ :: _ => slit "Moved " ++ decimal (N.of_nat (length ts)) ++ slit " thread(s)"
  | USetSpam _ _ was :: _ => if was then slit "Removed from spam" else slit "Marked as spam"
  | USetStarred _ _ was :: _ => if was then slit "Unstarred" else slit "Starred"
  | USetRead _ _ was :: _ => if was then slit "Marked as unread" else slit "Marked as read"
  | USetPinned _ _ was :: _ => if was then slit "Unpinned" else slit "Pinned"
  | USetMuted _ _ was :: _ => if was then slit "Unmuted" else slit "Muted"
  | UAddLabel _ _ _ :: _ => slit "Added label"
  | URemoveLabel _ _ _ :: _ => slit "Removed label"
  | UApplyLabelGroup _ _ _ :: _ => slit "Applied label"
  | URemoveLabelGroup _ _ _ :: _ => slit "Removed label"
  | USnooze _ _ :: _ => slit "Snoozed"
  end.

(** ** Undoing *)

Definition on_threads (account : str) (threads : list str) (op : MailOperation) : list target_op :=
  (λ t, (account, t, op)) <$> threads.

(** commands.rs, [undo_payload_to_ops] *)
Definition undo_payload_to_ops (p : MailUndoPayload) : list target_op :=
  match p with
  | UArchive a ts => on_threads a ts (MoveToFolder inbox_id None)
  | UTrash a ts source => on_threads a ts (MoveToFolder (default inbox_id source) None)
  | UMoveToFolder a ts source => on_threads a ts (MoveToFolder source None)
  | USetSpam a ts was => on_threads a ts (SetSpam was)
  | USetRead a ts was => on_threads a ts (SetRead was)
  | USetStarred a ts was => on_threads a ts (SetStarred was)
  | USetPinned a ts was => on_threads a ts (SetPinned was)
  | USetMuted a ts was => on_threads a ts (SetMuted was)
  | UAddLabel a ts l => on_threads a ts (RemoveLabel l)
  | URemoveLabel a ts l => on_threads a ts (AddLabel l)
  | UApplyLabelGroup a ts g => on_threads a ts (RemoveLabelGroup g)
  | URemoveLabelGroup a ts g => on_threads a ts (ApplyLabelGroup g)
  | USnooze a ts => on_threads a ts Unsnooze
  end.

(** commands.rs, [undo_cancel_targets]: the retries to cancel first. *)
Definition undo_cancel_targets (p : MailUndoPayload) : list (str * str * str) :=
  let on a ts s := (λ t, (a, t, s)) <$> ts in
  match p with
  | UArchive a ts => on a ts (slit "archive")
  | UTrash a ts _ => on a ts (slit "trash")
  | UMoveToFolder a ts _ => on a ts (slit "moveToFolder")
  | USetSpam a ts _ => on a ts (slit "spam")
  | USetRead a ts _ => on a ts (slit "markRead")
  | USetStarred a ts _ => on a ts (slit "star")
  | UAddLabel a ts _ => on a ts (slit "addLabel")
  | URemoveLabel a ts _ => on a ts (slit "removeLabel")
  | UApplyLabelGroup a ts _ => on a ts (slit "applyLabelGroup")
  | URemoveLabelGroup a ts _ => on a ts (slit "removeLabelGroup")
  | USetPinned _ _ _ | USetMuted _ _ _ | USnooze _ _ => []
  end.

(** *** cmdk/src/undo.rs *)

Record UndoEntry := mkEntry { entry_description : str; payloads : list MailUndoPayload }.

Record UndoStack := mkUndoStack { entries : list UndoEntry; capacity : nat }.

(** [UndoStack::default] *)
Definition default_undo_stack : UndoStack := mkUndoStack [] 20.

(** The last entry is the most recent one. *)
Definition undo_push (d : str) (ps : list MailUndoPayload) (s : UndoStack) : UndoStack :=
  let kept := if capacity s <=? length (entries s) then tail (entries s) else entries s in
  mkUndoStack (kept ++ [mkEntry d ps]) (capacity s).

Definition undo_pop (s : UndoStack) : option (UndoEntry * UndoStack) :=
  match last (entries s) with
  | None => None
  | Some e => Some (e, mkUndoStack (removelast (entries s)) (capacity s))
  end.
