(* ===== verification/ActionResolveTheory.v ===== *)
(** * Plans: toggling, rolling back, undoing

    What a plan of toggles does to the thread list, that rolling it back restores
    the list, and that the payloads of a completed plan invert what was done; at
    the end what is shown of a plan and what its undo sends. *)

From S2P Require Import Prelude.
From S2P Require Import Strings.
From S2P Require Import ActionTypes.
From S2P Require Import ActionResolve.

Implicit Types (l : list Thread) (t : Thread) (f : ToggleField) (plan : ActionExecutionPlan).

(** ** The thread list *)

Lemma is_thread_spec a i t : is_thread a i t = true ↔ (th_account_id t, th_id t) = (a, i).
Proof. unfold is_thread. rewrite andb_true_iff, !bool_decide_eq_true. split; [by intros [-> ->]|by intros [= -> ->]]. Qed.

Definition keeps_key (g : Thread → Thread) : Prop :=
  ∀ t, th_account_id (g t) = th_account_id t ∧ th_id (g t) = th_id t.

Lemma write_keeps_key f v : keeps_key (write_toggle_field f v).
Proof. intros t. by destruct f. Qed.

Lemma is_thread_keeps g a i t : keeps_key g → is_thread a i (g t) = is_thread a i t.
Proof. intros Hg. unfold is_thread. by destruct (Hg t) as [-> ->]. Qed.

Lemma is_thread_ne a i b j t : is_thread a i t = true → (a, i) ≠ (b, j) → is_thread b j t = false.
Proof.
  intros E%is_thread_spec Hne. apply not_true_iff_false. intros E'%is_thread_spec. congruence.
Qed.

Lemma find_update g a i b j l :
  keeps_key g →
  find_thread b j (update_thread a i g l) =
    if decide ((b, j) = (a, i)) then g <$> find_thread a i l else find_thread b j l.
Proof.
  intros Hg. unfold find_thread. induction l as [|t l IH]; cbn [update_thread List.find]; [by case_decide|].
  destruct (is_thread a i t) eqn:E; cbn [List.find].
  - rewrite (is_thread_keeps g) by done. case_decide as Ek.
    + injection Ek as -> ->. by rewrite E.
    + by rewrite (is_thread_ne a i b j t).
  - rewrite IH. case_decide as Ek; [|done]. injection Ek as -> ->. by rewrite E.
Qed.

Lemma update_comm g h a i b j l :
  keeps_key g → keeps_key h → (a, i) ≠ (b, j) →
  update_thread a i g (update_thread b j h l) = update_thread b j h (update_thread a i g l).
Proof.
  intros Hg Hh Hne. induction l as [|t l IH]; [done|]. cbn [update_thread].
  destruct (is_thread b j t) eqn:Eb, (is_thread a i t) eqn:Ea; cbn [update_thread];
    rewrite ?(is_thread_keeps g), ?(is_thread_keeps h), ?Ea, ?Eb by done; [|done|done|by rewrite IH].
  by rewrite (is_thread_ne a i b j t) in Eb.
Qed.

Lemma update_update_back f v a i t l :
  find_thread a i l = Some t →
  update_thread a i (write_toggle_field f (read_toggle_field f t)) (update_thread a i (write_toggle_field f v) l) = l.
Proof.
  unfold find_thread. induction l as [|u l IH]; [done|]. cbn [List.find update_thread].
  destruct (is_thread a i u) eqn:E; cbn [update_thread].
  - intros [= <-]. rewrite (is_thread_keeps _ a i u (write_keeps_key f v)), E. f_equal. by destruct u, f.
  - intros Ef. rewrite E. by rewrite IH.
Qed.

(** ** Toggling *)

Definition op_on f l (x : str * str) : option target_op :=
  (λ t, (x.1, x.2, toggle_to_operation f (negb (read_toggle_field f t)))) <$> find_thread x.1 x.2 l.
Definition mutation_on f l (x : str * str) : option OptimisticMutation :=
  (λ t, toggle_to_mutation f x.1 x.2 (read_toggle_field f t)) <$> find_thread x.1 x.2 l.

Definition flip f t : Thread := write_toggle_field f (negb (read_toggle_field f t)) t.

Lemma omap_ext_elem {A B} (g h : A → option B) (xs : list A) :
  (∀ x, x ∈ xs → g x = h x) → omap g xs = omap h xs.
Proof.
  induction xs as [|x xs IH]; intros E; [done|]. cbn [omap list_omap].
  rewrite (E x) by apply list_elem_of_here. rewrite IH; [done|]. intros y Hy. apply E. by apply list_elem_of_further.
Qed.

(** A plan of toggles has, in the order of the targets that are in the list, the
    operation to the opposite of the value there and the value itself; and the
    list shows the opposite. *)
Lemma toggle_threads_spec f targets l :
  NoDup targets →
  ∃ l', toggle_threads f targets l = (omap (op_on f l) targets, omap (mutation_on f l) targets, l') ∧
    ∀ a i, find_thread a i l' = (if decide ((a, i) ∈ targets) then flip f else id) <$> find_thread a i l.
Proof.
  intros Hn. revert l. induction Hn as [|[a i] targets Hx Hn IH]; intros l; cbn [toggle_threads].
  { exists l. split; [done|]. intros a i. rewrite decide_False by apply not_elem_of_nil. by destruct (find_thread a i l). }
  destruct (find_thread a i l) as [t|] eqn:E.
  - set (l1 := update_thread a i (write_toggle_field f (negb (read_toggle_field f t))) l).
    assert (∀ b j, (b, j) ≠ (a, i) → find_thread b j l1 = find_thread b j l) as Hl1.
    { intros b j Hne. unfold l1. rewrite find_update by apply write_keeps_key. by rewrite decide_False. }
    destruct (IH l1) as (l' & -> & Hl'). exists l'. split.
    + cbn [omap list_omap]. unfold op_on at 2, mutation_on at 2. cbn [fst snd]. rewrite E. cbn [fmap option_fmap option_map].
      rewrite (omap_ext_elem (op_on f l1) (op_on f l)), (omap_ext_elem (mutation_on f l1) (mutation_on f l)); [done|..];
        intros [b j] Hin; unfold op_on, mutation_on; cbn [fst snd]; rewrite Hl1; try done; intros [= -> ->]; done.
    + intros b j. rewrite Hl'. destruct (decide ((b, j) = (a, i))) as [[= -> ->]|Hne].
      * rewrite decide_False by done. rewrite decide_True by apply list_elem_of_here.
        unfold l1. rewrite find_update by apply write_keeps_key. rewrite decide_True by done. by rewrite E.
      * rewrite Hl1 by done. destruct (decide ((b, j) ∈ targets)).
        -- rewrite decide_True; [done|]. by apply list_elem_of_further.
        -- rewrite decide_False; [done|]. by intros [?|?]%elem_of_cons.
  - destruct (IH l) as (l' & -> & Hl'). exists l'. split.
    + cbn [omap list_omap]. unfold op_on at 2, mutation_on at 2. cbn [fst snd]. by rewrite E.
    + intros b j. rewrite Hl'. destruct (decide ((b, j) = (a, i))) as [[= -> ->]|Hne]; [by rewrite E|].
      destruct (decide ((b, j) ∈ targets)).
      * rewrite decide_True; [done|]. by apply list_elem_of_further.
      * rewrite decide_False; [done|]. by intros [?|?]%elem_of_cons.
Qed.

(** Toggling elsewhere is not in the way. *)
Lemma toggle_threads_update f targets g a i l :
  keeps_key g → (a, i) ∉ targets →
  let '(os, ms, l') := toggle_threads f targets l in
  toggle_threads f targets (update_thread a i g l) = (os, ms, update_thread a i g l').
Proof.
  intros Hg. revert l. induction targets as [|[b j] targets IH]; intros l Hn; [done|].
  apply not_elem_of_cons in Hn as [Hne Hn]. cbn [toggle_threads].
  rewrite find_update by done. rewrite decide_False by congruence.
  destruct (find_thread b j l) as [t|]; [|by apply IH].
  rewrite (update_comm _ _ b j a i) by (first [done|apply write_keeps_key|congruence]).
  specialize (IH (update_thread b j (write_toggle_field f (negb (read_toggle_field f t))) l) Hn).
  destruct (toggle_threads f targets (update_thread b j _ l)) as [[os ms] l']. by rewrite IH.
Qed.

Lemma mutation_parts f a i p :
  om_field (toggle_to_mutation f a i p) = f ∧ om_account_id (toggle_to_mutation f a i p) = a ∧
  om_thread_id (toggle_to_mutation f a i p) = i ∧ previous (toggle_to_mutation f a i p) = p.
Proof. by destruct f. Qed.

Lemma rollback_toggle f targets l :
  NoDup targets →
  let '(_, ms, l') := toggle_threads f targets l in rollback_threads ms l' = l.
Proof.
  intros Hn. revert l. induction Hn as [|[a i] targets Hx Hn IH]; intros l; cbn [toggle_threads]; [done|].
  destruct (find_thread a i l) as [t|] eqn:E; [|by apply IH].
  set (prev := read_toggle_field f t). set (l1 := update_thread a i (write_toggle_field f (negb prev)) l).
  pose proof (toggle_threads_update f targets (write_toggle_field f prev) a i l1 (write_keeps_key f prev) Hx) as Hu.
  destruct (toggle_threads f targets l1) as [[os ms] l'].
  assert (update_thread a i (write_toggle_field f prev) l1 = l) as Hb by (by apply update_update_back).
  rewrite Hb in Hu.
  specialize (IH l). rewrite Hu in IH. unfold rollback_threads. cbn [foldl].
  by destruct (mutation_parts f a i prev) as (-> & -> & -> & ->).
Qed.

(** ** Maps of vectors *)

Section btree.
Context {K V : Type} (cmp : K → K → comparison) (Hcmp : ∀ a b, cmp a b = Eq → a = b).

Definition flatten_map (m : list (K * list V)) : list (K * V) := m ≫= λ e, (λ v, (e.1, v)) <$> e.2.

Lemma flatten_push k v m : flatten_map (btree_push cmp k v m) ≡ₚ (k, v) :: flatten_map m.
Proof.
  induction m as [|[k' vs] m IH]; [done|]. cbn [btree_push]. destruct (cmp k k') eqn:E.
  - apply Hcmp in E as ->. cbn. rewrite fmap_app. cbn. rewrite <- app_assoc. symmetry. apply Permutation_middle.
  - done.
  - unfold flatten_map in *. cbn [mbind list_bind fst snd]. rewrite IH. symmetry. apply Permutation_middle.
Qed.

Lemma flatten_foldl (xs : list (K * V)) m :
  flatten_map (foldl (λ m e, btree_push cmp e.1 e.2 m) m xs) ≡ₚ flatten_map m ++ xs.
Proof.
  revert m. induction xs as [|[k v] xs IH]; intros m; cbn [foldl]; [by rewrite app_nil_r|].
  rewrite IH. cbn [fst snd]. rewrite flatten_push. cbn. apply Permutation_middle.
Qed.

(** Grouping keeps every entry. *)
Lemma flatten_btree (xs : list (K * V)) : flatten_map (btree_of cmp xs) ≡ₚ xs.
Proof. unfold btree_of. by rewrite flatten_foldl. Qed.
End btree.

Lemma str_compare_eq a b : str_compare a b = Eq → a = b.
Proof.
  revert b. induction a as [|c a IH]; intros [|d b]; simpl; try done.
  destruct (N.compare_spec c d) as [->| |]; try done. intros E. by rewrite (IH b E).
Qed.

Lemma key_compare_eq a b : key_compare a b = Eq → a = b.
Proof.
  destruct a as [a p], b as [b q]. unfold key_compare. simpl.
  destruct (str_compare a b) eqn:E; try done. apply str_compare_eq in E as ->. by destruct p, q.
Qed.

(** ** Undoing a plan *)

(** What takes back an operation. *)
Definition inverse_op (comp : CompensationContext) (op : MailOperation) : option MailOperation :=
  match op with
  | Archive => Some (MoveToFolder inbox_id None)
  | Trash => match comp with SourceFolder (Some s) => Some (MoveToFolder s None) | _ => None end
  | MoveToFolder _ source => (λ s, MoveToFolder s None) <$> source
  | SetSpam to => Some (SetSpam (negb to))
  | SetStarred to => Some (SetStarred (negb to))
  | SetRead to => Some (SetRead (negb to))
  | SetPinned to => Some (SetPinned (negb to))
  | SetMuted to => Some (SetMuted (negb to))
  | AddLabel l => Some (RemoveLabel l)
  | RemoveLabel l => Some (AddLabel l)
  | ApplyLabelGroup g => Some (RemoveLabelGroup g)
  | RemoveLabelGroup g => Some (ApplyLabelGroup g)
  | Snooze _ => Some Unsnooze
  | PermanentDelete | Unsnooze => None
  end.

Definition undone (comp : CompensationContext) (e : target_op * ActionOutcome) : option target_op :=
  if done e.2 then (λ op, (e.1.1.1, e.1.1.2, op)) <$> inverse_op comp e.1.2 else None.

Lemma all_failed_none (xs : list target_op) (os : list ActionOutcome) comp :
  forallb is_failed os = true → omap (undone comp) (zip xs os) = [].
Proof.
  revert xs. induction os as [|o os IH]; intros [|x xs]; try done. cbn [forallb zip zip_with]. intros [Ho Hos]%andb_true_iff.
  cbn [omap list_omap]. unfold undone at 1. cbn [snd]. destruct o; try done. cbn [done is_success is_local_only orb]. by apply IH.
Qed.

(** *** The same operation on every thread *)

Lemma standard_payload_ops op comp a ts p :
  standard_payload op comp a ts = Some p →
  ∃ op', inverse_op comp op = Some op' ∧ undo_payload_to_ops p = on_threads a ts op'.
Proof.
  destruct op as [| | |to|to|to|to|to|d [s|]|lb|lb|g|g|u|]; simpl; try done;
    try (intros [= <-]; by eexists).
  destruct comp as [|[s|]]; try done. intros [= <-]. by eexists.
Qed.

Lemma standard_payload_none op comp a ts :
  standard_payload op comp a ts = None →
  inverse_op comp op = None ∨ ∃ f to, op = toggle_to_operation f to.
Proof.
  destruct op as [| | |to|to|to|to|to|d [s|]|lb|lb|g|g|u|]; simpl; try done; try (by left);
    try (intros _; right; first [by exists Star, to|by exists Read, to|by exists Pin, to|by exists Mute, to]).
  destruct comp as [|[s|]]; try done; by left.
Qed.

Lemma on_threads_flat op (m : list (str * list str)) :
  m ≫= (λ e, on_threads e.1 e.2 op) = (λ x : str * str, (x.1, x.2, op)) <$> flatten_map m.
Proof.
  induction m as [|[a ts] m IH]; [done|]. unfold flatten_map in *. cbn [mbind list_bind fst snd].
  rewrite fmap_app, IH. f_equal. unfold on_threads. by rewrite <- list_fmap_compose.
Qed.

Lemma bind_omap_payloads op op' comp (m : list (str * list str)) :
  inverse_op comp op = Some op' → (∀ f to, op ≠ toggle_to_operation f to) →
  omap (λ e : str * list str, standard_payload op comp e.1 e.2) m ≫= undo_payload_to_ops =
    m ≫= (λ e, on_threads e.1 e.2 op').
Proof.
  intros Hi Hn. induction m as [|[a ts] m IH]; [done|]. cbn [omap list_omap fst snd].
  destruct (standard_payload op comp a ts) as [p|] eqn:E.
  - destruct (standard_payload_ops _ _ _ _ _ E) as (op'' & Hi' & Hp). rewrite Hi in Hi'. injection Hi' as <-.
    cbn [mbind list_bind fst snd]. by rewrite Hp, IH.
  - destruct (standard_payload_none _ _ _ _ E) as [Hi'|(f & to & ->)]; [congruence|by destruct (Hn f to)].
Qed.

Lemma no_payloads op comp (m : list (str * list str)) :
  inverse_op comp op = None → omap (λ e : str * list str, standard_payload op comp e.1 e.2) m = [].
Proof.
  intros Hi. induction m as [|[a ts] m IH]; [done|]. cbn [omap list_omap fst snd].
  destruct (standard_payload op comp a ts) as [p|] eqn:E; [|done].
  destruct (standard_payload_ops _ _ _ _ _ E) as (op'' & Hi' & _). congruence.
Qed.

(** Operations that are all the same one. *)
Definition uniform (op : MailOperation) (xs : list target_op) : Prop := ∀ x, x ∈ xs → x.2 = op.

Lemma undone_uniform op op' comp (xs : list target_op) (os : list ActionOutcome) :
  uniform op xs → inverse_op comp op = Some op' →
  omap (undone comp) (zip xs os) =
    (λ x : str * str, (x.1, x.2, op')) <$>
      omap (λ e : target_op * ActionOutcome, if done e.2 then Some (e.1.1.1, e.1.1.2) else None) (zip xs os).
Proof.
  revert os. induction xs as [|x xs IH]; intros [|o os] Hu Hi; try done. cbn [zip zip_with omap list_omap].
  assert (uniform op xs) as Hu' by (intros y Hy; apply Hu; by apply list_elem_of_further).
  unfold undone at 1. cbn [fst snd]. rewrite (Hu x) by apply list_elem_of_here. rewrite Hi.
  destruct (done o); cbn [fmap option_fmap option_map]; rewrite ?fmap_cons, (IH os Hu' Hi); done.
Qed.

Lemma undone_uniform_none op comp (xs : list target_op) (os : list ActionOutcome) :
  uniform op xs → inverse_op comp op = None → omap (undone comp) (zip xs os) = [].
Proof.
  revert os. induction xs as [|x xs IH]; intros [|o os] Hu Hi; try done. cbn [zip zip_with omap list_omap].
  unfold undone at 1. cbn [fst snd]. rewrite (Hu x) by apply list_elem_of_here. rewrite Hi.
  assert (uniform op xs) as Hu' by (intros y Hy; apply Hu; by apply list_elem_of_further).
  destruct (done o); cbn [fmap option_fmap option_map]; by apply IH.
Qed.

Lemma standard_undo plan op os ps :
  uniform op (plan_operations plan) → (∀ f to, op ≠ toggle_to_operation f to) →
  build_standard_undo_payloads plan os = Some ps →
  ps ≫= undo_payload_to_ops ≡ₚ omap (undone (compensation plan)) (zip (plan_operations plan) os).
Proof.
  intros Hu Hn. unfold build_standard_undo_payloads.
  destruct (plan_operations plan) as [|[[a i] op1] xs] eqn:E; [done|]. rewrite <- E in *.
  assert (op1 = op) as -> by (apply (Hu (a, i, op1)); rewrite E; apply list_elem_of_here).
  intros [= <-]. destruct (inverse_op (compensation plan) op) as [op'|] eqn:Hi.
  - rewrite (bind_omap_payloads _ _ _ _ Hi Hn), on_threads_flat, (undone_uniform _ _ _ _ _ Hu Hi).
    apply fmap_Permutation. apply flatten_btree, str_compare_eq.
  - by rewrite no_payloads, (undone_uniform_none _ _ _ _ Hu Hi).
Qed.

(** *** Toggles *)

Lemma toggle_payload_ops f a i p a' ts was :
  undo_payload_to_ops (toggle_payload (toggle_to_mutation f a i p) a' ts was) =
    on_threads a' ts (toggle_to_operation f was).
Proof. by destruct f. Qed.

Lemma inverse_toggle comp f v : inverse_op comp (toggle_to_operation f v) = Some (toggle_to_operation f (negb v)).
Proof. by destruct f. Qed.

(** The operations and mutations of one field on the same threads. *)
Definition toggles f (x : target_op) (m : OptimisticMutation) : Prop :=
  ∃ a i p, x = (a, i, toggle_to_operation f (negb p)) ∧ m = toggle_to_mutation f a i p.

Lemma undone_toggles f comp xs ms os :
  Forall2 (toggles f) xs ms →
  omap (undone comp) (zip xs os) =
    (λ x : str * bool * str, (x.1.1, x.2, toggle_to_operation f x.1.2)) <$>
      omap (λ e : OptimisticMutation * ActionOutcome,
              if done e.2 then Some (om_account_id e.1, previous e.1, om_thread_id e.1) else None) (zip ms os).
Proof.
  intros Hf. revert os. induction Hf as [|x m xs ms (a & i & p & -> & ->) _ IH]; intros [|o os]; try done.
  cbn [zip zip_with omap list_omap]. unfold undone at 1. cbn [fst snd].
  destruct (mutation_parts f a i p) as (_ & -> & -> & ->). rewrite inverse_toggle, negb_involutive.
  destruct (done o); cbn [fmap option_fmap option_map]; rewrite ?fmap_cons, IH; done.
Qed.

Lemma toggle_undo f xs ms plan os :
  optimistic plan = ms → Forall2 (toggles f) xs ms → ms ≠ [] →
  build_toggle_undo_payloads plan os ≫= undo_payload_to_ops ≡ₚ omap (undone (compensation plan)) (zip xs os).
Proof.
  intros Em Hf Hne. unfold build_toggle_undo_payloads. rewrite Em, (undone_toggles f _ _ _ os Hf).
  destruct Hf as [|x m xs ms (a & i & p & -> & ->) Hf]; [done|]. set (all := zip _ os).
  set (keys := omap _ all).
  assert (∀ m : list (str * bool * list str),
    ((λ e : str * bool * list str, toggle_payload (toggle_to_mutation f a i p) e.1.1 e.2 e.1.2) <$> m) ≫= undo_payload_to_ops =
    (λ x : str * bool * str, (x.1.1, x.2, toggle_to_operation f x.1.2)) <$> flatten_map m) as Hflat.
  { intros m. induction m as [|[[b q] ts] m IH]; [done|]. unfold flatten_map in *. rewrite fmap_cons.
    cbn [mbind list_bind fst snd]. rewrite fmap_app, IH, toggle_payload_ops. f_equal. unfold on_threads.
    by rewrite <- list_fmap_compose. }
  rewrite Hflat. apply fmap_Permutation. apply flatten_btree, key_compare_eq.
Qed.

Lemma toggles_aligned f l targets :
  Forall2 (toggles f) (omap (op_on f l) targets) (omap (mutation_on f l) targets).
Proof.
  induction targets as [|x targets IH]; [constructor|]. cbn [omap list_omap]. unfold op_on at 1, mutation_on at 1.
  destruct (find_thread x.1 x.2 l) as [t|]; cbn [fmap option_fmap option_map]; [|exact IH].
  constructor; [|exact IH]. by exists x.1, x.2, (read_toggle_field f t).
Qed.

(** ** The plan of an intent *)

Lemma resolved_cases intent sel op comp :
  resolve_intent intent sel = Resolved op comp → ∀ f to, op ≠ toggle_to_operation f to.
Proof. destruct intent; intros [= <- <-] [] ?; done. Qed.

Lemma toggle_uncompensated intent sel f comp :
  resolve_intent intent sel = PerThreadToggle f comp → comp = CompNone.
Proof. destruct intent; intros [=]; congruence. Qed.

(** What the operation on a thread is to be. *)
Definition expected_op (outcome : ResolveOutcome) l (x : str * str) : option target_op :=
  match outcome with
  | Resolved op _ => Some (x.1, x.2, op)
  | PerThreadToggle f _ => op_on f l x
  | ResolveNoOp => None
  end.

(** What the list is to show of a thread. *)
Definition expected_thread (outcome : ResolveOutcome) (targets : list (str * str)) (a i : str) : Thread → Thread :=
  match outcome with
  | PerThreadToggle f _ => if decide ((a, i) ∈ targets) then flip f else id
  | _ => id
  end.

Lemma omap_Some_fmap {A B} (g : A → B) (xs : list A) : omap (λ x, Some (g x)) xs = g <$> xs.
Proof. induction xs as [|x xs IH]; [done|]. cbn [omap list_omap]. by rewrite IH. Qed.

(** The plan of an intent has an operation for each selected thread, in the
    order of the selection: the one the intent names, or for a toggle the
    opposite of what the list shows of the thread (threads that are not in the
    list are left out). The list then shows the flipped flag for the selected
    threads and is the same for the others; and rolling back the optimistic
    changes of the plan restores the list exactly. *)
Theorem plan_effect intent sel targets l plan l' :
  NoDup targets →
  build_execution_plan (resolve_intent intent sel) targets l = (Some plan, l') →
  plan_operations plan = omap (expected_op (resolve_intent intent sel) l) targets ∧
  (∀ a i, find_thread a i l' = expected_thread (resolve_intent intent sel) targets a i <$> find_thread a i l) ∧
  rollback_threads (optimistic plan) l' = l.
Proof.
  intros Hn. destruct (resolve_intent intent sel) as [op comp|f comp|] eqn:E; cbn [build_execution_plan]; [| |done].
  - intros [= <- <-]. split_and!; [symmetry; apply omap_Some_fmap| |done].
    intros a i. cbn [expected_thread]. by destruct (find_thread a i l).
  - destruct (toggle_threads_spec f targets l Hn) as (l1 & Ht & Hl1).
    pose proof (rollback_toggle f targets l Hn) as Hr. rewrite Ht in Hr |- *. by intros [= <- <-].
Qed.

(** C38. When a plan has an outcome for each operation, its undo never panics and
    takes back exactly what was done: over all its payloads the operations sent
    are, up to their order, the inverse of each operation of the plan whose
    outcome was a success or local only, on that operation's own thread; nothing
    is sent for the threads that failed or needed nothing, nor for operations
    that have no inverse. *)
Theorem undo_inverts_plan intent sel targets l plan l' (os : list ActionOutcome) :
  NoDup targets →
  build_execution_plan (resolve_intent intent sel) targets l = (Some plan, l') →
  length os = length (plan_operations plan) →
  ∃ ps, build_undo_payloads plan os = Some ps ∧
    ps ≫= undo_payload_to_ops ≡ₚ omap (undone (compensation plan)) (zip (plan_operations plan) os).
Proof.
  intros Hn. unfold build_undo_payloads.
  destruct (resolve_intent intent sel) as [op comp|f comp|] eqn:E; cbn [build_execution_plan]; [| |done].
  - pose proof (resolved_cases _ _ _ _ E) as Ht. intros [= <- <-].
    set (plan := mkPlan _ _ _ _). intros Hl.
    assert (uniform op (plan_operations plan)) as Hu.
    { intros x (y & -> & _)%list_elem_of_fmap. done. }
    change (optimistic plan) with (@nil OptimisticMutation). change (behavior plan) with (completion_behavior op).
    destruct (undo (completion_behavior op)) eqn:Eu.
    { exists []. split; [done|]. by rewrite (undone_uniform_none op) by (first [done|by destruct op]). }
    destruct (forallb is_failed os) eqn:Ef; [exists []; split; [done|by rewrite all_failed_none]|].
    cbn [is_nil].
    destruct (build_standard_undo_payloads plan os) as [ps|] eqn:Ep.
    + exists ps. split; [done|]. exact (standard_undo _ _ _ _ Hu Ht Ep).
    + unfold build_standard_undo_payloads in Ep.
      destruct (plan_operations plan) as [|[[? ?] ?] ?]; [|done]. by destruct os.
  - destruct (toggle_threads_spec f targets l Hn) as (l1 & -> & _). intros [= <- <-].
    set (plan := mkPlan _ _ _ _). intros Hl.
    replace (undo (behavior plan)) with Reversible by (by destruct f).
    destruct (forallb is_failed os) eqn:Ef; [exists []; split; [done|by rewrite all_failed_none]|].
    pose proof (toggles_aligned f l targets) as Ha. destruct (is_nil (optimistic plan)) eqn:Em.
    + apply is_nil_spec in Em. cbn [plan optimistic] in Em. cbn [plan plan_operations] in Hl. rewrite Em in Ha.
      apply Forall2_nil_inv_r in Ha. rewrite Ha in Hl. by destruct os.
    + exists (build_toggle_undo_payloads plan os). split; [done|]. apply (toggle_undo f) with (omap (mutation_on f l) targets); [done..|].
      intros Hnil. cbn [plan optimistic] in Em. by rewrite Hnil in Em.
Qed.

(** ** At concrete inputs *)

(** A starred thread of one account and two threads that are not of another. *)
Definition sample_threads : list Thread :=
  [mkThread (slit "a") (slit "1") true false false false false; mkThread (slit "b") (slit "1") false false false false false;
   mkThread (slit "b") (slit "2") false true false false false].
Definition sample_targets : list (str * str) := [(slit "b", slit "1"); (slit "a", slit "1"); (slit "a", slit "9")].

Definition sample_result := build_execution_plan (resolve_intent IToggleStar Inbox) sample_targets sample_threads.
Definition sample_plan : ActionExecutionPlan :=
  Eval vm_compute in default (mkPlan [] (completion_behavior Archive) CompNone []) sample_result.1.
Definition sample_list : list Thread := Eval vm_compute in sample_result.2.

Lemma sample_targets_NoDup : NoDup sample_targets.
Proof. apply (bool_decide_unpack _). vm_compute. exact I. Qed.

Lemma sample_built :
  build_execution_plan (resolve_intent IToggleStar Inbox) sample_targets sample_threads = (Some sample_plan, sample_list).
Proof. vm_compute. reflexivity. Qed.

Lemma plan_effect_witness :
  length (plan_operations sample_plan) = 2 ∧
  plan_operations sample_plan = omap (expected_op (resolve_intent IToggleStar Inbox) sample_threads) sample_targets ∧
  (∀ a i, find_thread a i sample_list =
     expected_thread (resolve_intent IToggleStar Inbox) sample_targets a i <$> find_thread a i sample_threads) ∧
  rollback_threads (optimistic sample_plan) sample_list = sample_threads.
Proof.
  split; [vm_compute; reflexivity|].
  exact (plan_effect IToggleStar Inbox sample_targets sample_threads sample_plan sample_list sample_targets_NoDup sample_built).
Defined.

Lemma undo_inverts_plan_witness :
  ∃ ps, build_undo_payloads sample_plan [Success; Failed (Db [])] = Some ps ∧
    ps ≫= undo_payload_to_ops ≡ₚ
      omap (undone (compensation sample_plan)) (zip (plan_operations sample_plan) [Success; Failed (Db [])]).
Proof.
  exact (undo_inverts_plan IToggleStar Inbox sample_targets sample_threads sample_plan sample_list
    [Success; Failed (Db [])] sample_targets_NoDup sample_built ltac:(vm_compute; reflexivity)).
Defined.
