(* ===== verification/ActionUi.v ===== *)
(** * The app's side of an action

    src/crates/app/src/handlers/commands.rs: from the command of the user to the
    request, the plans in flight, the notifications about them, their completion
    with its undo entry, and undoing; of src/crates/app/src/update.rs the messages
    that lead there; of src/crates/app/src/service_client.rs what the answer to a
    request means; src/crates/core/src/generation.rs; of the thread list and the
    reading pane of src/crates/app/src/ui what those handlers change.

    A handler returns the new state and the tasks it starts.  [None] is a panic.
    The answers of the tasks come back as messages, in any order. *)

From stdpp Require Import sorting.
From S2P Require Import Prelude.
From S2P Require Import Strings.
From S2P Require Import Bytes.
From S2P Require Import ActionTypes.
From S2P Require Import Journal.
From S2P Require Import Worker.
From S2P Require Import ActionResolve.

(** ** Generations *)

(** [GenerationCounter]: a 64-bit counter; a token is its value. *)
Definition gen_next (v : N) : N := ((v + 1) mod 2 ^ 64)%N.
Definition is_current (v token : N) : bool := (v =? token)%N.

(** ** The answer to a request *)

(** [ServiceError] of the wire, with the text it displays. *)
Inductive WireServiceError :=
  | Panic (method message : str)
  | WInvalidParams (method message : str)
  | UnknownMethod (method : str)
  | WInternal (message : str)
  | Backpressure
  | ServiceBootFailure (code : str).

Definition service_error_text (e : WireServiceError) : str :=
  match e with
  | Panic method message => slit "handler panic in " ++ method ++ slit ": " ++ message
  | WInvalidParams method message => slit "invalid params for " ++ method ++ slit ": " ++ message
  | UnknownMethod method => slit "unknown method: " ++ method
  | WInternal message => slit "internal error: " ++ message
  | Backpressure => slit "service at capacity (in-flight admission rejected)"
  | ServiceBootFailure code => slit "boot sequence failed: " ++ code
  end.

(** The errors of the standard library and of serde, and the debug texts of exit
    codes, are the text they display. *)
Inductive ClientError :=
  | Io (text : str)
  | Service (e : WireServiceError)
  | Timeout
  | ServiceCrashed
  | NotConnected
  | VersionMismatch (ui service : N)
  | BootFailure (classification : str)
  | SchemaVersionChanged (was now : N)
  | SchemaBaselineMissing
  | Deserialize (text : str).

Definition client_error_text (e : ClientError) : str :=
  match e with
  | Io text => slit "io error: " ++ text
  | Service e => slit "service error: " ++ service_error_text e
  | Timeout => slit "request timeout"
  | ServiceCrashed => slit "service crashed"
  | NotConnected => slit "not connected"
  | VersionMismatch ui service =>
      slit "protocol version mismatch: ui=" ++ decimal ui ++ slit ", service=" ++ decimal service
  | BootFailure classification => slit "service boot failure: " ++ classification
  | SchemaVersionChanged was now =>
      slit "schema_version changed across respawn: was " ++ decimal was ++ slit ", now " ++ decimal now
  | SchemaBaselineMissing => slit "respawn missing first_boot_ready baseline; cannot prove no binary swap"
  | Deserialize text => slit "response deserialize: " ++ text
  end.

Record ActionPlanAck := mkAck { ack_plan_id : PlanId; journaled : bool }.

Inductive DispatchOutcome :=
  | Acked (ack : ActionPlanAck)
  | AckUnknown (reason : str)
  | DispatchFailed (reason : str).

Definition classify_dispatch (result : ClientError + ActionPlanAck) : DispatchOutcome :=
  match result with
  | inr ack => Acked ack
  | inl Timeout => AckUnknown (slit "request timeout")
  | inl ServiceCrashed => AckUnknown (slit "service crashed")
  | inl ((Io _ | Deserialize _) as e) => AckUnknown (slit "wire error: " ++ client_error_text e)
  | inl e => DispatchFailed (client_error_text e)
  end.

(** [ActionError::user_message] *)
Definition user_message (e : ActionError) : str :=
  match e with
  | Db msg => slit "Database error: " ++ msg
  | Remote Transient m => slit "Network error: " ++ m
  | Remote Permanent m => slit "Server rejected: " ++ m
  | Remote NotImplemented m => slit "Not yet supported: " ++ m
  | Remote Unknown m => slit "Sync error: " ++ m
  | NotFound what => slit "Not found: " ++ what
  | InvalidState msg => msg
  | Build msg => slit "Build error: " ++ msg
  end.

(** ** The request *)

Definition index_u32 (i : nat) : N := N.min (N.of_nat i) u32_max.

Definition to_wire_plan (p : PlanId) (plan : ActionExecutionPlan) : ActionWirePlan :=
  mkWirePlan p (imap (λ i (x : target_op), mkWireOperation (index_u32 i) x.1.1 x.1.2 (to_wire_op x.2))
                     (plan_operations plan)).

(** ** State *)

Inductive PlanState := Pending | PAcked | PAckUnknown.

#[export] Instance PlanState_eq_dec : EqDecision PlanState.
Proof. solve_decision. Defined.

Record PendingActionPlan := mkPending {
  pp_plan : ActionExecutionPlan;
  pp_outcomes : list (N * ActionOutcome);
  pp_state : PlanState;
  applied_outcomes : gset N;
  pp_undo_description : option str
}.

Definition with_state (s : PlanState) (p : PendingActionPlan) : PendingActionPlan :=
  mkPending (pp_plan p) (pp_outcomes p) s (applied_outcomes p) (pp_undo_description p).

Inductive ViewScope :=
  | AllAccounts
  | Account (account : str)
  | SharedMailbox (account mailbox : str)
  | PublicFolder (account folder : str).

Definition is_public_folder (s : ViewScope) : bool := match s with PublicFolder _ _ => true | _ => false end.

Inductive AutoAdvanceDirection := Next | Previous.

(** Of [ThreadList], the threads and the selection. *)
Record ThreadList := mkList {
  threads : list Thread;
  selected_thread : option nat;
  selected_threads : gset nat;
  last_selected_anchor : option nat;
  auto_advance_direction : AutoAdvanceDirection
}.

(** [ThreadRef] without the subject. *)
Record ThreadRef := mkRef { ref_account_id : str; ref_id : str; ref_starred : bool }.

Abbreviation WindowId := N.

(** Of [ReadyApp], what the handlers below read and write.  [ids_drawn] counts the
    plan identifiers drawn; [clock] is the instant, in nanoseconds. *)
Record ReadyApp := mkApp {
  thread_list : ThreadList;
  current_thread : option ThreadRef;
  selected_scope : ViewScope;
  selection : SidebarSelection;
  service_client : option N;
  has_body_store : bool;
  action_throttle : gmap (str * str) Z;
  pending_action_plans : gmap PlanId PendingActionPlan;
  in_flight_sends : gmap PlanId WindowId;
  undo_stack : UndoStack;
  confirmation : option str;
  nav_generation : N;
  thread_generation : N;
  ids_drawn : nat;
  clock : Z
}.

(** *** Assignments *)

Definition set_list (l : ThreadList) (u : ReadyApp) : ReadyApp :=
  mkApp l (current_thread u) (selected_scope u) (selection u) (service_client u) (has_body_store u) (action_throttle u)
    (pending_action_plans u) (in_flight_sends u) (undo_stack u) (confirmation u) (nav_generation u) (thread_generation u)
    (ids_drawn u) (clock u).
Definition set_current (c : option ThreadRef) (u : ReadyApp) : ReadyApp :=
  mkApp (thread_list u) c (selected_scope u) (selection u) (service_client u) (has_body_store u) (action_throttle u)
    (pending_action_plans u) (in_flight_sends u) (undo_stack u) (confirmation u) (nav_generation u) (thread_generation u)
    (ids_drawn u) (clock u).
Definition set_throttle (m : gmap (str * str) Z) (u : ReadyApp) : ReadyApp :=
  mkApp (thread_list u) (current_thread u) (selected_scope u) (selection u) (service_client u) (has_body_store u) m
    (pending_action_plans u) (in_flight_sends u) (undo_stack u) (confirmation u) (nav_generation u) (thread_generation u)
    (ids_drawn u) (clock u).
Definition set_pending (m : gmap PlanId PendingActionPlan) (u : ReadyApp) : ReadyApp :=
  mkApp (thread_list u) (current_thread u) (selected_scope u) (selection u) (service_client u) (has_body_store u)
    (action_throttle u) m (in_flight_sends u) (undo_stack u) (confirmation u) (nav_generation u) (thread_generation u)
    (ids_drawn u) (clock u).
Definition set_sends (m : gmap PlanId WindowId) (u : ReadyApp) : ReadyApp :=
  mkApp (thread_list u) (current_thread u) (selected_scope u) (selection u) (service_client u) (has_body_store u)
    (action_throttle u) (pending_action_plans u) m (undo_stack u) (confirmation u) (nav_generation u) (thread_generation u)
    (ids_drawn u) (clock u).
Definition set_undo_stack (s : UndoStack) (u : ReadyApp) : ReadyApp :=
  mkApp (thread_list u) (current_thread u) (selected_scope u) (selection u) (service_client u) (has_body_store u)
    (action_throttle u) (pending_action_plans u) (in_flight_sends u) s (confirmation u) (nav_generation u)
    (thread_generation u) (ids_drawn u) (clock u).
(** [status_bar.show_confirmation] *)
Definition show_confirmation (text : str) (u : ReadyApp) : ReadyApp :=
  mkApp (thread_list u) (current_thread u) (selected_scope u) (selection u) (service_client u) (has_body_store u)
    (action_throttle u) (pending_action_plans u) (in_flight_sends u) (undo_stack u) (Some text) (nav_generation u)
    (thread_generation u) (ids_drawn u) (clock u).
Definition bump_nav (u : ReadyApp) : ReadyApp :=
  mkApp (thread_list u) (current_thread u) (selected_scope u) (selection u) (service_client u) (has_body_store u)
    (action_throttle u) (pending_action_plans u) (in_flight_sends u) (undo_stack u) (confirmation u)
    (gen_next (nav_generation u)) (thread_generation u) (ids_drawn u) (clock u).
Definition bump_thread (u : ReadyApp) : ReadyApp :=
  mkApp (thread_list u) (current_thread u) (selected_scope u) (selection u) (service_client u) (has_body_store u)
    (action_throttle u) (pending_action_plans u) (in_flight_sends u) (undo_stack u) (confirmation u) (nav_generation u)
    (gen_next (thread_generation u)) (ids_drawn u) (clock u).
Definition draw_id (u : ReadyApp) : ReadyApp :=
  mkApp (thread_list u) (current_thread u) (selected_scope u) (selection u) (service_client u) (has_body_store u)
    (action_throttle u) (pending_action_plans u) (in_flight_sends u) (undo_stack u) (confirmation u) (nav_generation u)
    (thread_generation u) (S (ids_drawn u)) (clock u).

Definition set_threads_of (l : list Thread) (t : ThreadList) : ThreadList :=
  mkList l (selected_thread t) (selected_threads t) (last_selected_anchor t) (auto_advance_direction t).

Definition threads_of (u : ReadyApp) : list Thread := threads (thread_list u).
Definition update_threads (f : list Thread → list Thread) (u : ReadyApp) : ReadyApp :=
  set_list (set_threads_of (f (threads_of u)) (thread_list u)) u.

(** ** Messages and tasks *)

Inductive Message :=
  | EmailAction (intent : MailActionIntent)
  | ActionDispatched (p : PlanId) (outcome : DispatchOutcome)
  | ServiceBootReady
  | JobStatusResolved (p : PlanId) (result : str + JobStatusResponse)
  | ServiceNotification (generation : N) (n : Notification)
  | ActionCompleted (plan : ActionExecutionPlan) (outcomes : list ActionOutcome)
  | Undo
  | UndoCompleted (desc : str) (outcomes : list ActionOutcome).

Inductive Task :=
  | ExecutePlan (p : PlanId) (wire : ActionWirePlan)
  | QueryJobStatus (p : PlanId)
  | CancelForResources (targets : list (str * str * str))
  | Done (m : Message)
  | SendCompleted (window : WindowId) (outcome : ActionOutcome)
  | NavigationLoad (token : N)
  | ThreadsLoad (token : N)
  | LoadThreadDetail (account thread : str) (token : N)
  | LoadLocalDraft (draft : str).

Definition answer : Type := ReadyApp * list Task.

(** ** The thread list and the reading pane *)

(** [selected_indices] *)
Definition selected_indices (t : ThreadList) : list nat :=
  if decide (selected_threads t = ∅) then option_list (selected_thread t)
  else merge_sort le (elements (selected_threads t)).

(** [auto_advance], with the new selection. *)
Definition auto_advance (t : ThreadList) : ThreadList * option nat :=
  if is_nil (threads t) then
    (mkList (threads t) None ∅ (last_selected_anchor t) (auto_advance_direction t), None)
  else
    let n := length (threads t) in
    let prev := default 0 (selected_thread t) in
    let new := match auto_advance_direction t with
               | Next => if prev <? n then prev else n - 1
               | Previous => if 0 <? prev then prev - 1 else 0
               end in
    (mkList (threads t) (Some new) ∅ (Some new) (auto_advance_direction t), Some new).

(** [ReadingPane::set_thread] *)
Definition set_thread (t : option Thread) (u : ReadyApp) : ReadyApp :=
  set_current ((λ t, mkRef (th_account_id t) (th_id t) (is_starred t)) <$> t) u.

(** [ReadingPane::update_star] *)
Definition update_star (account thread : str) (starred : bool) (u : ReadyApp) : ReadyApp :=
  match current_thread u with
  | Some r =>
      if bool_decide (ref_account_id r = account) && bool_decide (ref_id r = thread)
      then set_current (Some (mkRef (ref_account_id r) (ref_id r) starred)) u else u
  | None => u
  end.

(** [clear_thread_selection] *)
Definition clear_thread_selection (u : ReadyApp) : ReadyApp :=
  let t := thread_list u in
  set_thread None
    (set_list (mkList (threads t) None ∅ (last_selected_anchor t) (auto_advance_direction t)) u).

(** [handle_select_thread], without the highlighting of search terms. *)
Definition handle_select_thread (idx : nat) (u : ReadyApp) : answer :=
  match threads_of u !! idx with
  | Some t =>
      if is_local_draft t then (u, [LoadLocalDraft (th_id t)])
      else
        let u := set_thread (Some t) u in
        if is_public_folder (selected_scope u) then (u, [])
        else
          let u := bump_thread u in
          (u, if has_body_store u then [LoadThreadDetail (th_account_id t) (th_id t) (thread_generation u)] else [])
  | None =>
      let u := set_thread None u in
      if is_public_folder (selected_scope u) then (u, []) else (bump_thread u, [])
  end.

(** [handle_thread_list] on [ThreadListMessage::AutoAdvance]. *)
Definition handle_auto_advance (u : ReadyApp) : answer :=
  let '(t, new) := auto_advance (thread_list u) in
  let u := set_list t u in
  match new with
  | Some idx => handle_select_thread idx u
  | None => (clear_thread_selection u, [])
  end.

(** ** Dispatch *)

Definition rollback_one (u : ReadyApp) (m : OptimisticMutation) : ReadyApp :=
  let u := update_threads (update_thread (om_account_id m) (om_thread_id m)
                             (write_toggle_field (om_field m) (previous m))) u in
  match m with
  | OSetStarred account thread prev => update_star account thread prev u
  | _ => u
  end.

Definition rollback_optimistic (ms : list OptimisticMutation) (u : ReadyApp) : ReadyApp := foldl rollback_one u ms.

(** 200 ms *)
Definition throttle_window : Z := 200000000.

(** The targets of a plan. *)
Definition plan_targets (plan : ActionExecutionPlan) : list (str * str) := fst <$> plan_operations plan.
Definition plan_accounts (plan : ActionExecutionPlan) : gset str := list_to_set (fst <$> plan_targets plan).

Definition retain_throttle (u : ReadyApp) : gmap (str * str) Z :=
  filter (λ e : str * str * Z, (clock u - e.2 < throttle_window)%Z) (action_throttle u).

Definition throttled (plan : ActionExecutionPlan) (m : gmap (str * str) Z) : bool :=
  existsb (λ x : str * str, bool_decide (is_Some (m !! x))) (plan_targets plan).

(** A plan without an acknowledgement on an account of this plan. *)
Definition blocking (plan : ActionExecutionPlan) (u : ReadyApp) : bool :=
  existsb (λ e : PlanId * PendingActionPlan,
             bool_decide (pp_state e.2 = PAckUnknown) &&
             existsb (λ x : str * str, bool_decide (x.1 ∈ plan_accounts plan)) (plan_targets (pp_plan e.2)))
          (map_to_list (pending_action_plans u)).

Definition release_throttle (plan : ActionExecutionPlan) (u : ReadyApp) : ReadyApp :=
  set_throttle (foldl (λ m x, delete x m) (action_throttle u) (plan_targets plan)) u.

Section app.
Context {serde : Serde} (new_v7 : nat → PlanId).

(** [dispatch_plan_with_undo] for a plan on one account. *)
Definition dispatch_account (plan : ActionExecutionPlan) (undo_description : option str) (u : ReadyApp) : answer :=
  match service_client u with
  | None =>
      (show_confirmation (warning_sign ++ slit "Action unavailable" ++ em_dash ++ slit "service not connected")
         (rollback_optimistic (optimistic plan) u), [])
  | Some _ =>
      let u := set_throttle (retain_throttle u) u in
      if throttled plan (action_throttle u) then (rollback_optimistic (optimistic plan) u, [])
      else if blocking plan u then
        (show_confirmation (warning_sign ++ slit "Action deferred" ++ em_dash ++ slit "reconciling previous action")
           (rollback_optimistic (optimistic plan) u), [])
      else
        let u := bump_thread (bump_nav u) in
        let u := set_throttle (foldl (λ m x, <[x := clock u]> m) (action_throttle u) (plan_targets plan)) u in
        let p := new_v7 (ids_drawn u) in
        let u := set_pending (<[p := mkPending plan [] Pending ∅ undo_description]> (pending_action_plans u)) (draw_id u) in
        (u, [ExecutePlan p (to_wire_plan p plan)])
  end.

Fixpoint btree_get {V} (k : str) (m : list (str * V)) : option V :=
  match m with
  | [] => None
  | (k', v) :: m => if decide (k = k') then Some v else btree_get k m
  end.

(** The plans by account of [dispatch_plan_split_by_account]. *)
Definition split_by_account (plan : ActionExecutionPlan) : list ActionExecutionPlan :=
  let opt_by_account := btree_of str_compare ((λ m, (om_account_id m, m)) <$> optimistic plan) in
  (λ e : str * list target_op,
     mkPlan e.2 (behavior plan) (compensation plan) (default [] (btree_get e.1 opt_by_account))) <$>
    btree_of str_compare ((λ x : target_op, (x.1.1, x)) <$> plan_operations plan).

Definition dispatch_all (plans : list ActionExecutionPlan) (undo_description : option str) (u : ReadyApp) : answer :=
  foldl (λ a plan, let '(u, ts) := dispatch_account plan undo_description a.1 in (u, a.2 ++ ts)) (u, []) plans.

(** Each part of a plan that is split has operations, on one account. *)
Definition dispatch_plan_with_undo (plan : ActionExecutionPlan) (undo_description : option str) (u : ReadyApp) : answer :=
  if is_nil (plan_operations plan) then (u, [])
  else if 1 <? size (plan_accounts plan) then dispatch_all (split_by_account plan) undo_description u
  else dispatch_account plan undo_description u.

Definition sync_star (u : ReadyApp) (m : OptimisticMutation) : ReadyApp :=
  match m with
  | OSetStarred account thread prev => update_star account thread (negb prev) u
  | _ => u
  end.

(** The threads that are selected. *)
Definition selected_targets (u : ReadyApp) : list (str * str) :=
  (λ t, (th_account_id t, th_id t)) <$> omap (λ i, threads_of u !! i) (selected_indices (thread_list u)).

Definition handle_email_action (intent : MailActionIntent) (u : ReadyApp) : answer :=
  if is_public_folder (selected_scope u) then (u, [])
  else if is_nil (selected_targets u) then (u, [])
  else
    let '(plan, l) := build_execution_plan (resolve_intent intent (selection u)) (selected_targets u) (threads_of u) in
    match plan with
    | None => (show_confirmation (slit "Unsubscribed") u, [])
    | Some plan =>
        let u := foldl sync_star (update_threads (λ _, l) u) (optimistic plan) in
        dispatch_plan_with_undo plan None u
    end.

(** ** The answers of the service *)

Definition handle_action_dispatched (p : PlanId) (outcome : DispatchOutcome) (u : ReadyApp) : answer :=
  match outcome with
  | Acked _ => (set_pending (alter (with_state PAcked) p (pending_action_plans u)) u, [])
  | AckUnknown _ => (set_pending (alter (with_state PAckUnknown) p (pending_action_plans u)) u, [])
  | DispatchFailed reason =>
      let u' := match pending_action_plans u !! p with
                | Some s =>
                    rollback_optimistic (optimistic (pp_plan s))
                      (release_throttle (pp_plan s) (set_pending (delete p (pending_action_plans u)) u))
                | None => u
                end in
      (show_confirmation (warning_sign ++ slit "Action failed: " ++ reason) u', [])
  end.

(** The plans to ask about after a respawn; the maps are walked in any order. *)
Definition kickoff_post_respawn_reconcile (u : ReadyApp) : answer :=
  match service_client u with
  | None => (u, [])
  | Some _ =>
      let open := filter (λ e : PlanId * PendingActionPlan, pp_state e.2 ≠ Pending) (map_to_list (pending_action_plans u)) in
      (u, QueryJobStatus <$> (open.*1 ++ (map_to_list (in_flight_sends u)).*1))
  end.

Definition send_failed_text : str := Eval vm_compute in slit "Send failed - see Service log for detail".
Definition missing_outcome_text : str := Eval vm_compute in slit "OperationOutcome notification missing on the wire".
Definition missing_outcome : ActionOutcome := LocalOnly (remote missing_outcome_text) false.

(** [sort_by_key], which is stable. *)
Fixpoint insert_by_key (e : N * ActionOutcome) (l : list (N * ActionOutcome)) : list (N * ActionOutcome) :=
  match l with
  | [] => [e]
  | e' :: l' => if (e.1 <? e'.1)%N then e :: l else e' :: insert_by_key e l'
  end.
Definition sort_by_key (l : list (N * ActionOutcome)) : list (N * ActionOutcome) :=
  foldl (λ acc e, insert_by_key e acc) [] l.

(** The outcomes in the order of the operations, the missing ones filled in. *)
Definition backfill (n : nat) (outcomes : list (N * ActionOutcome)) : list (N * ActionOutcome) :=
  let outcomes := sort_by_key outcomes in
  if length outcomes <? n then
    sort_by_key (outcomes ++
      ((λ i, (N.of_nat i, missing_outcome)) <$>
         filter (λ i, N.of_nat i ∉ outcomes.*1) (seq 0 (N.to_nat (index_u32 n)))))
  else outcomes.

Definition handle_notification_action_completed (p : PlanId) (summary : PlanSummary) (u : ReadyApp) : answer :=
  match in_flight_sends u !! p with
  | Some window =>
      (set_sends (delete p (in_flight_sends u)) u,
       [SendCompleted window
          (if (0 <? remote_succeeded summary)%N then Success else Failed (remote send_failed_text))])
  | None =>
      match pending_action_plans u !! p with
      | None => (u, [])
      | Some s =>
          let u := release_throttle (pp_plan s) (set_pending (delete p (pending_action_plans u)) u) in
          let outcomes := (backfill (length (plan_operations (pp_plan s))) (pp_outcomes s)).*2 in
          (u, [Done (match pp_undo_description s with
                     | Some desc => UndoCompleted desc outcomes
                     | None => ActionCompleted (pp_plan s) outcomes
                     end)])
      end
  end.

Definition empty_summary : PlanSummary := mkPlanSummary 0 0 0 0 0.

Definition handle_job_status_resolved (p : PlanId) (result : str + JobStatusResponse) (u : ReadyApp) : answer :=
  match result with
  | inr (Journaled status summary) =>
      if job_active status then (set_pending (alter (with_state PAcked) p (pending_action_plans u)) u, [])
      else
        let summary := match summary_from_slice <$> summary with Some (inr s) => s | _ => empty_summary end in
        handle_notification_action_completed p summary u
  | inr JobNotFound =>
      match pending_action_plans u !! p with
      | Some s =>
          let u := rollback_optimistic (optimistic (pp_plan s))
                     (release_throttle (pp_plan s) (set_pending (delete p (pending_action_plans u)) u)) in
          (show_confirmation (warning_sign ++ slit "Action lost during service restart" ++ em_dash ++ slit "reverted") u, [])
      | None => (set_sends (delete p (in_flight_sends u)) u, [])
      end
  | inl _ => (u, [])
  end.

Definition apply_outcome (op : OperationId) (r : OperationResult) (s : PendingActionPlan) : PendingActionPlan :=
  if decide (op ∈ applied_outcomes s) then s
  else mkPending (pp_plan s) (pp_outcomes s ++ [(op, wire_outcome_to_action_outcome r)]) (pp_state s)
         ({[op]} ∪ applied_outcomes s) (pp_undo_description s).

Definition handle_notification_operation_outcome (p : PlanId) (op : OperationId) (r : OperationResult) (u : ReadyApp) : answer :=
  (set_pending (alter (apply_outcome op r) p (pending_action_plans u)) u, []).

(** ** Completion *)

Definition join (sep : str) (l : list str) : str :=
  match l with
  | [] => []
  | s :: l => s ++ (l ≫= λ t, sep ++ t)
  end.

Definition error_of (o : ActionOutcome) : option ActionError := match o with Failed e => Some e | _ => None end.

(** [None]: building the undo payloads panicked. *)
Definition push_undo (plan : ActionExecutionPlan) (outcomes : list ActionOutcome) (u : ReadyApp) : option ReadyApp :=
  match undo (behavior plan) with
  | Irreversible => Some u
  | Reversible =>
      ps ← build_undo_payloads plan outcomes;
      Some (if is_nil ps then u else set_undo_stack (undo_push (undo_description ps) ps (undo_stack u)) u)
  end.

Definition failed_mutations (plan : ActionExecutionPlan) (outcomes : list ActionOutcome) : list OptimisticMutation :=
  omap (λ e : OptimisticMutation * ActionOutcome, if is_failed e.2 then Some e.1 else None)
       (zip (optimistic plan) outcomes).

Definition handle_action_completed (plan : ActionExecutionPlan) (outcomes : list ActionOutcome) (u : ReadyApp)
    : option answer :=
  let b := behavior plan in
  if forallb is_noop outcomes then Some (u, [])
  else if forallb is_failed outcomes then
    let u := show_confirmation (warning_sign ++ success_label b ++ slit " failed: " ++
               join (slit "; ") (user_message <$> omap error_of outcomes)) u in
    Some (rollback_optimistic (optimistic plan) u, [])
  else
    let toast := format_outcome_toast b outcomes in
    let u := if is_nil toast then u else show_confirmation toast u in
    let u := if existsb is_failed outcomes then rollback_optimistic (failed_mutations plan outcomes) u else u in
    u ← push_undo plan outcomes u;
    Some match view_effect b with
         | LeavesCurrentView => handle_auto_advance u
         | Stays =>
             match post_success b with
             | RefreshNav => let u := bump_nav u in (u, [NavigationLoad (nav_generation u)])
             | PostNone => (u, [])
             end
         end.

(** ** Undo *)

(** The plan that undoes an entry, when there is anything to send. *)
Definition inverse_plan (e : UndoEntry) : option ActionExecutionPlan :=
  match payloads e ≫= undo_payload_to_ops with
  | [] => None
  | (x :: _) as os =>
      let b := completion_behavior x.2 in
      Some (mkPlan os (mkBehavior (view_effect b) (post_success b) Irreversible (success_label b)) CompNone [])
  end.

Definition dispatch_undo (e : UndoEntry) (u : ReadyApp) : answer :=
  let targets := payloads e ≫= undo_cancel_targets in
  let cancel := if is_nil targets then []
                else match service_client u with Some _ => [CancelForResources targets] | None => [] end in
  match inverse_plan e with
  | None => (u, [])
  | Some plan =>
      let '(u, ts) := dispatch_plan_with_undo plan (Some (entry_description e)) u in
      (u, cancel ++ ts)
  end.

Definition handle_undo (u : ReadyApp) : answer :=
  match undo_pop (undo_stack u) with
  | Some (e, s) => dispatch_undo e (set_undo_stack s u)
  | None => (u, [])
  end.

Definition handle_undo_completed (desc : str) (outcomes : list ActionOutcome) (u : ReadyApp) : answer :=
  if is_nil outcomes then (u, [])
  else
    let text := if forallb is_failed outcomes then warning_sign ++ slit "Undo failed: " ++ desc
                else if existsb is_failed outcomes then
                  warning_sign ++ slit "Undo partially failed" ++ em_dash ++ slit "some changes may revert"
                else slit "Undone: " ++ desc in
    let u := bump_nav (show_confirmation text u) in
    (u, [NavigationLoad (nav_generation u); ThreadsLoad (nav_generation u)]).

(** ** The messages

    Of the notifications only those of mail plans concern the plans in flight. *)
Definition handle_notification (generation : N) (n : Notification) (u : ReadyApp) : answer :=
  if (generation =? default 0 (service_client u))%N then
    match n with
    | NOperationOutcome p op r => handle_notification_operation_outcome p op r u
    | NActionCompleted p summary => handle_notification_action_completed p summary u
    | NCalendarOperationOutcome _ _ _ | NCalendarActionCompleted _ _ => (u, [])
    end
  else (u, []).

(** [ReadyApp::update], on the messages above. *)
Definition update (m : Message) (u : ReadyApp) : option answer :=
  match m with
  | EmailAction intent => Some (handle_email_action intent u)
  | ActionDispatched p outcome => Some (handle_action_dispatched p outcome u)
  | ServiceBootReady => Some (kickoff_post_respawn_reconcile u)
  | JobStatusResolved p result => Some (handle_job_status_resolved p result u)
  | ServiceNotification generation n => Some (handle_notification generation n u)
  | ActionCompleted plan outcomes => handle_action_completed plan outcomes u
  | Undo => Some (handle_undo u)
  | UndoCompleted desc outcomes => Some (handle_undo_completed desc outcomes u)
  end.

End app.

(** ** Runs

    Between two messages the environment moves the clock and starts, kills or
    replaces the service. *)
Record event := mkEvent { ev_clock : Z; ev_client : option N; ev_message : Message }.

Definition at_time (c : Z) (client : option N) (u : ReadyApp) : ReadyApp :=
  mkApp (thread_list u) (current_thread u) (selected_scope u) (selection u) client (has_body_store u) (action_throttle u)
    (pending_action_plans u) (in_flight_sends u) (undo_stack u) (confirmation u) (nav_generation u) (thread_generation u)
    (ids_drawn u) c.

Section run.
Context {serde : Serde} (new_v7 : nat → PlanId).

Definition handle (e : event) (u : ReadyApp) : option answer :=
  update new_v7 (ev_message e) (at_time (ev_clock e) (ev_client e) u).

Fixpoint run (es : list event) (u : ReadyApp) : option answer :=
  match es with
  | [] => Some (u, [])
  | e :: es => '(u1, ts) ← handle e u; '(u2, ts') ← run es u1; Some (u2, ts ++ ts')
  end.
End run.
