(* ===== verification/ActionUiTheory.v ===== *)
(** * The app and its plans in flight: lemmas

    The outcomes of a plan put in order, what each handler does to the plans in
    flight, and what a refused dispatch does to the thread list. *)

From stdpp Require Import sorting.
From S2P Require Import Prelude.
From S2P Require Import Strings.
From S2P Require Import Bytes.
From S2P Require Import ActionTypes.
From S2P Require Import Journal.
From S2P Require Import Worker.
From S2P Require Import ActionResolve.
From S2P Require Import ActionResolveTheory.
From S2P Require Import ActionUi.

Implicit Types (u : ReadyApp) (p : PlanId) (plan : ActionExecutionPlan) (o : ActionOutcome).

(** ** Outcomes in order *)

Lemma insert_perm e l : insert_by_key e l ≡ₚ e :: l.
Proof.
  induction l as [|e' l IH]; [done|]. cbn [insert_by_key]. destruct (e.1 <? e'.1)%N; [done|].
  rewrite IH. apply Permutation_swap.
Qed.

Lemma sort_perm l : sort_by_key l ≡ₚ l.
Proof.
  unfold sort_by_key. enough (∀ acc, foldl (λ acc e, insert_by_key e acc) acc l ≡ₚ acc ++ l) as H by apply (H []).
  induction l as [|e l IH]; intros acc; cbn [foldl]; [by rewrite app_nil_r|].
  rewrite IH, insert_perm. apply Permutation_middle.
Qed.

Lemma insert_sorted e l : StronglySorted N.le l.*1 → StronglySorted N.le (insert_by_key e l).*1.
Proof.
  induction l as [|e' l IH]; intros Hs; [repeat constructor|]. cbn [insert_by_key].
  inversion Hs as [|? ? Hs' Hf]; subst. destruct (N.ltb_spec e.1 e'.1) as [Hlt|Hge].
  - constructor; [done|]. constructor; [lia|]. eapply Forall_impl; [exact Hf|]. cbn. lia.
  - rewrite fmap_cons. constructor; [by apply IH|]. rewrite insert_perm. rewrite fmap_cons. constructor; [done|done].
Qed.

Lemma sort_sorted l : StronglySorted N.le (sort_by_key l).*1.
Proof.
  unfold sort_by_key.
  enough (∀ acc, StronglySorted N.le acc.*1 → StronglySorted N.le (foldl (λ acc e, insert_by_key e acc) acc l).*1) as H
    by (apply H; constructor).
  induction l as [|e l IH]; intros acc Hacc; [done|]. apply IH. by apply insert_sorted.
Qed.

(** The numbers of the operations of a plan. *)
Definition ordinals (n : nat) : list N := N.of_nat <$> seq 0 n.

Lemma ordinals_sorted n : StronglySorted N.le (ordinals n).
Proof.
  unfold ordinals. generalize 0. induction n as [|n IH]; intros k; [constructor|]. cbn. constructor; [apply IH|].
  apply Forall_forall. intros x (y & -> & Hy%elem_of_seq)%list_elem_of_fmap. lia.
Qed.

Lemma elem_of_ordinals i n : i ∈ ordinals n ↔ (i < N.of_nat n)%N.
Proof.
  unfold ordinals. rewrite list_elem_of_fmap. split.
  - intros (y & -> & Hy%elem_of_seq). lia.
  - intros Hi. exists (N.to_nat i). rewrite elem_of_seq. split; lia.
Qed.

Lemma ordinals_of_NoDup n : NoDup (ordinals n).
Proof. apply NoDup_fmap_2; [intros ???; lia|apply NoDup_seq]. Qed.

Lemma sort_keys l n : l.*1 ≡ₚ ordinals n → (sort_by_key l).*1 = ordinals n.
Proof.
  intros Hp. apply (StronglySorted_unique N.le); [apply sort_sorted|apply ordinals_sorted|].
  by rewrite sort_perm.
Qed.

Lemma values_of_keys (l : list (N * ActionOutcome)) ks (val : N → ActionOutcome) :
  l.*1 = ks → (∀ e, e ∈ l → e.2 = val e.1) → l.*2 = val <$> ks.
Proof.
  intros <- Hv. rewrite <- list_fmap_compose. apply list_fmap_ext. intros i e He. simpl.
  apply Hv. by eapply list_elem_of_lookup_2.
Qed.

(** The result known of an operation, [None] when it is missing. *)
Definition value_of (l : list (N * ActionOutcome)) (i : N) : ActionOutcome :=
  default missing_outcome (snd <$> List.find (λ e, bool_decide (e.1 = i)) l).

Lemma value_of_in l e : NoDup l.*1 → e ∈ l → value_of l e.1 = e.2.
Proof.
  unfold value_of. induction l as [|e' l IH]; intros Hn He; [by apply elem_of_nil in He|].
  rewrite fmap_cons in Hn. apply NoDup_cons in Hn as [Hn Hn']. cbn [List.find].
  apply elem_of_cons in He as [->|He]; [by rewrite bool_decide_eq_true_2|].
  rewrite bool_decide_eq_false_2; [by apply IH|]. intros E. destruct Hn. rewrite E. by apply list_elem_of_fmap_2.
Qed.

Lemma value_of_out l i : i ∉ l.*1 → value_of l i = missing_outcome.
Proof.
  unfold value_of. induction l as [|e l IH]; [done|]. rewrite fmap_cons. intros [Hne Hi]%not_elem_of_cons. cbn [List.find].
  rewrite bool_decide_eq_false_2 by congruence. by apply IH.
Qed.

(** What is reported of a plan: for each operation in order the outcome received,
    or that it is missing. *)
Lemma backfill_spec n l :
  (N.of_nat n ≤ u32_max)%N → NoDup l.*1 → (∀ i, i ∈ l.*1 → (i < N.of_nat n)%N) →
  (backfill n l).*2 = value_of l <$> ordinals n.
Proof.
  intros Hn Hd Hb. unfold backfill.
  assert (∀ i, i ∈ (sort_by_key l).*1 ↔ i ∈ l.*1) as Hin by (intros i; by rewrite sort_perm).
  assert (length (sort_by_key l) = length l) as Hlen by (by rewrite sort_perm).
  destruct (Nat.ltb_spec (length (sort_by_key l)) n) as [Hlt|Hge].
  - replace (N.to_nat (index_u32 n)) with n by (unfold index_u32; lia).
    set (missing := filter _ (seq 0 n)).
    rewrite (values_of_keys _ (ordinals n) (value_of l)); [done| |].
    + apply sort_keys. rewrite fmap_app, <- list_fmap_compose.
      apply NoDup_Permutation; [|apply ordinals_of_NoDup|].
      * apply NoDup_app. split_and!.
        -- by rewrite sort_perm.
        -- intros i Hi%Hin (k & -> & Hk)%list_elem_of_fmap. apply list_elem_of_filter in Hk as [Hk _].
           apply Hk. by apply Hin.
        -- apply NoDup_fmap_2; [intros ???; simpl in *; lia|]. apply NoDup_filter, NoDup_seq.
      * intros i. rewrite elem_of_app, elem_of_ordinals. split.
        -- intros [Hi%Hin|(k & -> & Hk)%list_elem_of_fmap]; [by apply Hb|]. apply list_elem_of_filter in Hk as [_ Hk%elem_of_seq]. simpl. lia.
        -- intros Hi. destruct (decide (i ∈ l.*1)); [left; by apply Hin|right].
           apply list_elem_of_fmap. exists (N.to_nat i). simpl. split; [lia|].
           apply list_elem_of_filter. rewrite elem_of_seq. split; [|lia]. rewrite N2Nat.id. by rewrite Hin.
    + intros e. rewrite (sort_perm (_ ++ _)), elem_of_app. intros [He|(k & -> & Hk)%list_elem_of_fmap].
      * rewrite sort_perm in He. symmetry. by apply value_of_in.
      * apply list_elem_of_filter in Hk as [Hk _]. simpl. symmetry. apply value_of_out. by rewrite <- Hin.
  - apply values_of_keys; [|intros e; rewrite sort_perm; symmetry; by apply value_of_in].
    apply sort_keys, submseteq_length_Permutation.
    + apply NoDup_submseteq; [done|]. intros i Hi. apply elem_of_ordinals. by apply Hb.
    + unfold ordinals. rewrite !length_fmap, length_seq. lia.
Qed.

(** ** What the handlers leave alone *)

Definition star_ref (a i : str) (v : bool) (c : option ThreadRef) : option ThreadRef :=
  match c with
  | Some r => if bool_decide (ref_account_id r = a) && bool_decide (ref_id r = i)
              then Some (mkRef (ref_account_id r) (ref_id r) v) else c
  | None => None
  end.

Lemma update_star_eq a i v u : update_star a i v u = set_current (star_ref a i v (current_thread u)) u.
Proof.
  unfold update_star, star_ref. destruct (current_thread u) as [r|] eqn:E; [destruct (_ && _)|];
    [done|destruct u; simpl in *; by subst..].
Qed.

(** The star shown by the reading pane after changes of the list. *)
Definition show_star (after : OptimisticMutation → bool) (c : option ThreadRef) (m : OptimisticMutation) : option ThreadRef :=
  match m with OSetStarred a i _ => star_ref a i (after m) c | _ => c end.

Lemma rollback_eq ms u :
  rollback_optimistic ms u =
    set_current (foldl (show_star previous) (current_thread u) ms)
      (set_list (set_threads_of (rollback_threads ms (threads_of u)) (thread_list u)) u).
Proof.
  unfold rollback_optimistic, rollback_threads. revert u. induction ms as [|m ms IH]; intros u; cbn [foldl].
  { destruct u as [[] ? ? ? ? ? ? ? ? ? ? ? ? ? ?]. done. }
  rewrite IH. unfold rollback_one. destruct m as [a i b|a i b|a i b|a i b]; cbn [om_account_id om_thread_id om_field previous show_star];
    rewrite ?update_star_eq; by destruct u as [[] ? ? ? ? ? ? ? ? ? ? ? ? ? ?].
Qed.

Lemma sync_star_eq ms u :
  foldl sync_star u ms = set_current (foldl (show_star (λ m, negb (previous m))) (current_thread u) ms) u.
Proof.
  revert u. induction ms as [|m ms IH]; intros u; cbn [foldl]; [by destruct u|].
  rewrite IH. unfold sync_star. destruct m as [a i b|a i b|a i b|a i b]; cbn [previous show_star]; rewrite ?update_star_eq; by destruct u.
Qed.

Section app.
Context {serde : Serde} (new_v7 : nat → PlanId).

(** The parts of the state that a dispatch never changes. *)
Definition same_base u u' : Prop :=
  selected_scope u' = selected_scope u ∧ selection u' = selection u ∧ service_client u' = service_client u ∧
  in_flight_sends u' = in_flight_sends u ∧ undo_stack u' = undo_stack u ∧ clock u' = clock u ∧
  selected_thread (thread_list u') = selected_thread (thread_list u) ∧
  auto_advance_direction (thread_list u') = auto_advance_direction (thread_list u).

Lemma same_base_refl u : same_base u u.
Proof. done. Qed.
Lemma same_base_trans u1 u2 u3 : same_base u1 u2 → same_base u2 u3 → same_base u1 u3.
Proof. unfold same_base. intuition congruence. Qed.

(** A plan is refused, and what it showed is taken back; or it is sent. *)
Definition refused plan u (a : answer) : Prop :=
  a.2 = [] ∧ threads_of a.1 = rollback_threads (optimistic plan) (threads_of u) ∧
  current_thread a.1 = foldl (show_star previous) (current_thread u) (optimistic plan) ∧
  pending_action_plans a.1 = pending_action_plans u ∧ ids_drawn a.1 = ids_drawn u.

Definition dispatched plan d u (a : answer) : Prop :=
  let p := new_v7 (ids_drawn u) in
  a.2 = [ExecutePlan p (to_wire_plan p plan)] ∧ threads_of a.1 = threads_of u ∧ current_thread a.1 = current_thread u ∧
  pending_action_plans a.1 = <[p := mkPending plan [] Pending ∅ d]> (pending_action_plans u) ∧
  ids_drawn a.1 = S (ids_drawn u).

Lemma dispatch_account_cases plan d u :
  same_base u (dispatch_account new_v7 plan d u).1 ∧
  (refused plan u (dispatch_account new_v7 plan d u) ∨
   dispatched plan d u (dispatch_account new_v7 plan d u) ∧
     throttled plan (retain_throttle u) = false ∧ blocking plan u = false).
Proof.
  unfold dispatch_account. destruct (service_client u) as [g|] eqn:Eg.
  2: { split; [by rewrite rollback_eq|]. left. by rewrite rollback_eq. }
  cbn [action_throttle set_throttle]. destruct (throttled plan (retain_throttle u)) eqn:Et.
  { split; [by rewrite rollback_eq|]. left. by rewrite rollback_eq. }
  change (blocking plan (set_throttle _ u)) with (blocking plan u).
  destruct (blocking plan u) eqn:Eb.
  { split; [by rewrite rollback_eq|]. left. by rewrite rollback_eq. }
  split; [done|]. by right.
Qed.

(** *** The plans in flight *)

Definition drawn p u : Prop := ∃ k, k < ids_drawn u ∧ p = new_v7 k.

(** The plans that were in flight are so unchanged. *)
Definition pending_kept u u' : Prop :=
  (∀ p, drawn p u → pending_action_plans u' !! p = pending_action_plans u !! p) ∧
  (∀ p, drawn p u → drawn p u').

Lemma pending_kept_refl u u' :
  pending_action_plans u' = pending_action_plans u → ids_drawn u' = ids_drawn u → pending_kept u u'.
Proof. intros E1 E2. split; intros p Hp; [by rewrite E1|]. unfold drawn. by rewrite E2. Qed.

Lemma pending_kept_trans u1 u2 u3 : pending_kept u1 u2 → pending_kept u2 u3 → pending_kept u1 u3.
Proof.
  intros [H1 H2] [H3 H4]. split; intros p Hp; [|by auto]. rewrite H3 by auto. by apply H1.
Qed.

Context {new_inj : Inj (=) (=) new_v7}.

Lemma dispatch_account_kept plan d u : pending_kept u (dispatch_account new_v7 plan d u).1.
Proof.
  destruct (dispatch_account_cases plan d u) as [_ [(_ & _ & _ & E1 & E2)|[(_ & _ & _ & E1 & E2) _]]].
  - by apply pending_kept_refl.
  - split; intros p (k & Hk & ->).
    + rewrite E1. apply lookup_insert_ne. intros E%new_inj. lia.
    + exists k. rewrite E2. split; [lia|done].
Qed.

Lemma dispatch_all_ind (R : ReadyApp → ReadyApp → Prop) plans d u :
  (∀ u, R u u) → (∀ u1 u2 u3, R u1 u2 → R u2 u3 → R u1 u3) →
  (∀ plan u, R u (dispatch_account new_v7 plan d u).1) → R u (dispatch_all new_v7 plans d u).1.
Proof.
  intros Hr Ht Hd. unfold dispatch_all.
  enough (∀ a, R u a.1 → R u (foldl (λ a plan, let '(u, ts) := dispatch_account new_v7 plan d a.1 in (u, a.2 ++ ts)) a plans).1) as H
    by (apply H; apply Hr).
  induction plans as [|plan plans IH]; intros a Ha; [done|]. cbn [foldl]. apply IH.
  specialize (Hd plan a.1). destruct (dispatch_account new_v7 plan d a.1) as [u' ts]. simpl in *. by eapply Ht.
Qed.

Lemma dispatch_ind (R : ReadyApp → ReadyApp → Prop) plan d u :
  (∀ u, R u u) → (∀ u1 u2 u3, R u1 u2 → R u2 u3 → R u1 u3) →
  (∀ plan u, R u (dispatch_account new_v7 plan d u).1) → R u (dispatch_plan_with_undo new_v7 plan d u).1.
Proof.
  intros Hr Ht Hd. unfold dispatch_plan_with_undo. destruct (is_nil _); [apply Hr|].
  destruct (1 <? _); [by apply dispatch_all_ind|apply Hd].
Qed.

Lemma dispatch_kept plan d u : pending_kept u (dispatch_plan_with_undo new_v7 plan d u).1.
Proof.
  apply dispatch_ind; [intros ?; by apply pending_kept_refl|apply pending_kept_trans|].
  intros ??. apply dispatch_account_kept.
Qed.

Lemma dispatch_base plan d u : same_base u (dispatch_plan_with_undo new_v7 plan d u).1.
Proof.
  apply dispatch_ind; [apply same_base_refl|apply same_base_trans|]. intros ??. apply dispatch_account_cases.
Qed.

(** ** A plan in flight over any messages *)

(** The messages after which the plan is no longer in flight. *)
Definition ends p (client : option N) (m : Message) : bool :=
  match m with
  | ActionDispatched q (DispatchFailed _) | JobStatusResolved q (inr JobNotFound) => bool_decide (q = p)
  | JobStatusResolved q (inr (Journaled s _)) => bool_decide (q = p) && negb (job_active s)
  | ServiceNotification g (NActionCompleted q _) => bool_decide (q = p) && (g =? default 0 client)%N
  | _ => false
  end.

(** The outcome that a message brings. *)
Definition brings p (client : option N) (m : Message) : option (OperationId * OperationResult) :=
  match m with
  | ServiceNotification g (NOperationOutcome q op r) =>
      if bool_decide (q = p) && (g =? default 0 client)%N then Some (op, r) else None
  | _ => None
  end.

Definition absorb (b : option (OperationId * OperationResult)) (s : PendingActionPlan) : PendingActionPlan :=
  match b with Some (op, r) => apply_outcome op r s | None => s end.

(** The handlers that do not concern the plans in flight. *)
Definition plans_alone u u' : Prop :=
  pending_action_plans u' = pending_action_plans u ∧ in_flight_sends u' = in_flight_sends u ∧ ids_drawn u' = ids_drawn u.

Lemma select_alone idx u : plans_alone u (handle_select_thread idx u).1.
Proof.
  unfold handle_select_thread. destruct (threads_of u !! idx) as [t|]; [destruct (is_local_draft t); [done|]|];
    by destruct (is_public_folder _).
Qed.

Lemma advance_alone u : plans_alone u (handle_auto_advance u).1.
Proof.
  unfold handle_auto_advance. destruct (auto_advance (thread_list u)) as [t [idx|]]; [|done].
  exact (select_alone idx (set_list t u)).
Qed.

Lemma push_undo_eq plan os u u' : push_undo plan os u = Some u' → ∃ s, u' = set_undo_stack s u.
Proof.
  unfold push_undo. destruct (undo (behavior plan)); [intros [= <-]; exists (undo_stack u); by destruct u|].
  destruct (build_undo_payloads plan os) as [ps|]; [|done]. cbn. intros [= <-].
  destruct (is_nil ps); [exists (undo_stack u); by destruct u|]. by eexists.
Qed.

Lemma completed_alone plan os u a : handle_action_completed plan os u = Some a → plans_alone u a.1.
Proof.
  unfold handle_action_completed. destruct (forallb is_noop os); [by intros [= <-]|].
  destruct (forallb is_failed os); [intros [= <-]; by rewrite rollback_eq|].
  set (u1 := if is_nil _ then u else _). assert (plans_alone u u1) as H1 by (unfold u1; by destruct (is_nil _)).
  set (u2 := if existsb _ _ then _ else u1).
  assert (plans_alone u1 u2) as H2 by (unfold u2; destruct (existsb _ _); [by rewrite rollback_eq|done]).
  destruct (push_undo plan os u2) as [u3|] eqn:E; [|done]. apply push_undo_eq in E as [st ->]. cbn [mbind option_bind].
  assert (plans_alone u (set_undo_stack st u2)) as H3 by (unfold plans_alone in *; cbn; intuition congruence).
  intros [= <-]. destruct (view_effect _); [destruct (post_success _); [done|]; exact H3|].
  pose proof (advance_alone (set_undo_stack st u2)) as H4. unfold plans_alone in *. intuition congruence.
Qed.

Lemma with_state_id s : with_state (pp_state s) s = s.
Proof. by destruct s. Qed.

Definition same_plan p u u' : Prop :=
  (∀ s, pending_action_plans u !! p = Some s → ∃ st, pending_action_plans u' !! p = Some (with_state st s)) ∧
  (in_flight_sends u !! p = None → in_flight_sends u' !! p = None) ∧ (drawn p u → drawn p u').

Lemma same_plan_alone p u u' : plans_alone u u' → same_plan p u u'.
Proof.
  intros (E1 & E2 & E3). split_and!; [|by rewrite E2|unfold drawn; by rewrite E3].
  intros s Es. exists (pp_state s). by rewrite E1, with_state_id.
Qed.

Lemma same_plan_dispatch p plan d u : drawn p u → same_plan p u (dispatch_plan_with_undo new_v7 plan d u).1.
Proof.
  intros Hp. pose proof (dispatch_kept plan d u) as [H1 H2]. pose proof (dispatch_base plan d u) as (_ & _ & _ & E & _).
  split_and!; [|by rewrite E|by apply H2]. intros s Es. exists (pp_state s). by rewrite H1, with_state_id.
Qed.

Lemma same_plan_state p q st u : same_plan p u (set_pending (alter (with_state st) q (pending_action_plans u)) u).
Proof.
  split_and!; [|done|done]. intros s Es. simpl. destruct (decide (q = p)) as [->|Hne].
  - exists st. by rewrite lookup_alter_eq, Es.
  - exists (pp_state s). by rewrite lookup_alter_ne, with_state_id.
Qed.

(** Ending another plan. *)
Lemma same_plan_removed p q u u' :
  q ≠ p → pending_action_plans u' = delete q (pending_action_plans u) → in_flight_sends u' = in_flight_sends u →
  ids_drawn u' = ids_drawn u → same_plan p u u'.
Proof.
  intros Hne E1 E2 E3. split_and!; [|by rewrite E2|unfold drawn; by rewrite E3].
  intros s Es. exists (pp_state s). by rewrite E1, lookup_delete_ne, with_state_id.
Qed.

Lemma same_plan_send_removed p q u : same_plan p u (set_sends (delete q (in_flight_sends u)) u).
Proof.
  split_and!; [|simpl; rewrite lookup_delete_None; by auto|done]. intros s Es. exists (pp_state s). simpl. by rewrite with_state_id.
Qed.

Lemma same_plan_completion p q summary u :
  q ≠ p → same_plan p u (handle_notification_action_completed q summary u).1.
Proof.
  intros Hne. unfold handle_notification_action_completed.
  destruct (in_flight_sends u !! q); [apply same_plan_send_removed|].
  destruct (pending_action_plans u !! q); [by apply (same_plan_removed p q)|by apply same_plan_alone].
Qed.

(** Through any message that does not end it, a plan in flight keeps all but its
    state and the outcome the message brings. *)
Lemma track_step p m u s a :
  update new_v7 m u = Some a → ends p (service_client u) m = false →
  drawn p u → in_flight_sends u !! p = None → pending_action_plans u !! p = Some s →
  (∃ st, pending_action_plans a.1 !! p = Some (with_state st (absorb (brings p (service_client u) m) s))) ∧
  in_flight_sends a.1 !! p = None ∧ drawn p a.1.
Proof.
  intros Hu He Hp Hs Es.
  assert (brings p (service_client u) m = None → same_plan p u a.1 →
    (∃ st, pending_action_plans a.1 !! p = Some (with_state st (absorb (brings p (service_client u) m) s))) ∧
    in_flight_sends a.1 !! p = None ∧ drawn p a.1) as Hsame.
  { intros -> (H1 & H2 & H3). split_and!; auto. }
  destruct m as [intent|q outcome| |q result|g n|plan os| |d os]; cbn [update] in Hu; try injection Hu as <-.
  - apply Hsame; [done|]. unfold handle_email_action. destruct (is_public_folder _); [by apply same_plan_alone|].
    destruct (is_nil _); [by apply same_plan_alone|].
    destruct (build_execution_plan _ _ _) as [[plan|] l]; [|by apply same_plan_alone].
    rewrite sync_star_eq. set (u1 := set_current _ _). exact (same_plan_dispatch p plan None u1 Hp).
  - apply Hsame; [done|]. destruct outcome as [ack|reason|reason]; [apply same_plan_state..|]. cbn [handle_action_dispatched].
    cbn [ends] in He. apply bool_decide_eq_false in He.
    destruct (pending_action_plans u !! q) as [s'|]; [|by apply same_plan_alone]. rewrite rollback_eq.
    by apply (same_plan_removed p q).
  - apply Hsame; [done|]. unfold kickoff_post_respawn_reconcile. by destruct (service_client u); apply same_plan_alone.
  - apply Hsame; [done|]. destruct result as [e|[|st blob]]; [by apply same_plan_alone|..]; cbn [handle_job_status_resolved].
    + cbn [ends] in He. apply bool_decide_eq_false in He.
      destruct (pending_action_plans u !! q) as [s'|]; [|apply same_plan_send_removed]. rewrite rollback_eq.
      by apply (same_plan_removed p q).
    + cbn [ends] in He. destruct (job_active st); [apply same_plan_state|]. rewrite andb_true_r in He.
      apply same_plan_completion. by apply bool_decide_eq_false in He.
  - unfold handle_notification in *. cbn [ends brings] in *. destruct (g =? _)%N eqn:Eg.
    2: { apply Hsame; [destruct n; cbn; by rewrite ?andb_false_r|by apply same_plan_alone]. }
    destruct n as [q op r|q op r|q summary|q rs].
    + unfold handle_notification_operation_outcome. rewrite andb_true_r. cbn [fst pending_action_plans set_pending in_flight_sends].
      split_and!; [|done|done]. destruct (decide (q = p)) as [->|Hne].
      * rewrite bool_decide_eq_true_2 by done. rewrite lookup_alter_eq, Es. cbn [absorb fmap option_fmap option_map].
        exists (pp_state (apply_outcome op r s)). by rewrite with_state_id.
      * rewrite bool_decide_eq_false_2 by done. exists (pp_state s). cbn [absorb]. by rewrite lookup_alter_ne, with_state_id.
    + apply Hsame; [done|by apply same_plan_alone].
    + rewrite andb_true_r in He. apply bool_decide_eq_false in He. apply Hsame; [done|]. by apply same_plan_completion.
    + apply Hsame; [done|by apply same_plan_alone].
  - apply Hsame; [done|]. by apply same_plan_alone, (completed_alone plan os).
  - apply Hsame; [done|]. unfold handle_undo. destruct (undo_pop _) as [[e st]|]; [|by apply same_plan_alone].
    unfold dispatch_undo. destruct (inverse_plan e) as [plan|]; [|by apply same_plan_alone].
    pose proof (same_plan_dispatch p plan (Some (entry_description e)) (set_undo_stack st u) Hp) as Hd.
    destruct (dispatch_plan_with_undo _ _ _ _) as [u' ts]. exact Hd.
  - apply Hsame; [done|]. unfold handle_undo_completed. destruct (is_nil os); by apply same_plan_alone.
Qed.

End app.

(** *** The outcomes received *)

Definition received p (es : list event) : list (OperationId * OperationResult) :=
  omap (λ e, brings p (ev_client e) (ev_message e)) es.

Definition outcome_entry (e : OperationId * OperationResult) : N * ActionOutcome :=
  (e.1, wire_outcome_to_action_outcome e.2).

(** The bookkeeping of the outcomes of a plan. *)
Definition tallied (s : PendingActionPlan) : Prop :=
  NoDup (pp_outcomes s).*1 ∧ ∀ i, i ∈ applied_outcomes s ↔ i ∈ (pp_outcomes s).*1.

Lemma tallied_apply op r s : tallied s → tallied (apply_outcome op r s).
Proof.
  intros [Hn Ha]. unfold apply_outcome. case_decide as Hop; [done|]. rewrite Ha in Hop. split; cbn [pp_outcomes applied_outcomes].
  - rewrite fmap_app. apply NoDup_app. split_and!; [done| |apply NoDup_singleton].
    intros i Hi ->%list_elem_of_singleton. done.
  - intros i. rewrite fmap_app, elem_of_app, <- Ha. set_solver.
Qed.

Lemma value_of_app l l' i :
  value_of (l ++ l') i = if decide (i ∈ l.*1) then value_of l i else value_of l' i.
Proof.
  unfold value_of. induction l as [|e l IH]; [by rewrite decide_False by apply not_elem_of_nil|].
  cbn [app List.find]. destruct (bool_decide (e.1 = i)) eqn:E.
  - apply bool_decide_eq_true in E. rewrite decide_True; [done|]. rewrite fmap_cons, E. apply list_elem_of_here.
  - apply bool_decide_eq_false in E. rewrite IH, fmap_cons. repeat case_decide; try done.
    + destruct H0. by apply list_elem_of_further.
    + by apply elem_of_cons in H0 as [?|?].
Qed.

(** A plan after the messages about it. *)
Definition absorbed (rs : list (OperationId * OperationResult)) (s : PendingActionPlan) : PendingActionPlan :=
  foldl (λ s e, apply_outcome e.1 e.2 s) s rs.

Lemma absorbed_spec rs s :
  tallied s →
  tallied (absorbed rs s) ∧
  (∀ i, i ∈ (pp_outcomes (absorbed rs s)).*1 ↔ i ∈ (pp_outcomes s ++ (outcome_entry <$> rs)).*1) ∧
  (∀ i, value_of (pp_outcomes (absorbed rs s)) i = value_of (pp_outcomes s ++ (outcome_entry <$> rs)) i) ∧
  pp_plan (absorbed rs s) = pp_plan s ∧ pp_undo_description (absorbed rs s) = pp_undo_description s.
Proof.
  revert s. induction rs as [|[op r] rs IH]; intros s Ht; [by rewrite app_nil_r|].
  cbn [absorbed foldl fst snd]. destruct (IH (apply_outcome op r s) (tallied_apply op r s Ht)) as (H1 & H2 & H3 & H4 & H5).
  rewrite fmap_cons, cons_middle, app_assoc. unfold outcome_entry at 1 3. cbn [fst snd].
  fold (absorbed rs (apply_outcome op r s)). split; [done|].
  unfold apply_outcome in *. case_decide as Hop; [|done]. rewrite (proj2 Ht) in Hop. split_and!; try done; intros i.
  - rewrite H2, !fmap_app, !elem_of_app. cbn. set_solver.
  - rewrite H3, !value_of_app, !fmap_app. repeat (case_decide || rewrite elem_of_app in *); try done; try set_solver.
Qed.

Lemma absorb_with_state b st s : absorb b (with_state st s) = with_state st (absorb b s).
Proof. destruct b as [[op r]|]; [|done]. cbn. unfold apply_outcome. cbn. by case_decide. Qed.

Lemma absorbed_with_state rs st s : absorbed rs (with_state st s) = with_state st (absorbed rs s).
Proof.
  revert s. induction rs as [|e rs IH]; intros s; [done|]. cbn [absorbed foldl]. fold (absorbed rs (apply_outcome e.1 e.2 (with_state st s))).
  pose proof (absorb_with_state (Some (e.1, e.2)) st s) as E. cbn [absorb] in E. by rewrite E, IH.
Qed.

Section runs.
Context {serde : Serde} (new_v7 : nat → PlanId) {new_inj : Inj (=) (=) new_v7}.

Definition quiet_about p (es : list event) : Prop := ∀ e, e ∈ es → ends p (ev_client e) (ev_message e) = false.

Lemma track_run p es u s a :
  run new_v7 es u = Some a → quiet_about p es →
  drawn new_v7 p u → in_flight_sends u !! p = None → pending_action_plans u !! p = Some s →
  (∃ st, pending_action_plans a.1 !! p = Some (with_state st (absorbed (received p es) s))) ∧
  in_flight_sends a.1 !! p = None ∧ drawn new_v7 p a.1.
Proof.
  revert u s a. induction es as [|e es IH]; intros u s a; cbn [run].
  { intros [= <-] _ Hd Hs Es. split; [|done]. exists (pp_state s). cbn. by rewrite with_state_id. }
  intros Hr Hq Hd Hs Es.
  destruct (handle new_v7 e u) as [[u1 ts]|] eqn:Eh; [|done]. cbn in Hr.
  destruct (run new_v7 es u1) as [[u2 ts']|] eqn:Er; [|done]. cbn in Hr. injection Hr as <-.
  destruct (track_step new_v7 p (ev_message e) (at_time (ev_clock e) (ev_client e) u) s (u1, ts) Eh) as ([st Es1] & Hs1 & Hd1);
    [apply Hq, list_elem_of_here|done..|].
  destruct (IH u1 _ _ Er (λ e' He', Hq e' (list_elem_of_further _ _ _ He')) Hd1 Hs1 Es1) as ([st' Es2] & Hs2 & Hd2).
  cbn [fst] in *. split; [|done]. exists st'. rewrite Es2. f_equal. cbn [received omap list_omap]. rewrite absorbed_with_state.
  change (service_client (at_time _ _ _)) with (ev_client e). fold (received p es).
  by destruct (brings p (ev_client e) (ev_message e)) as [[op r]|].
Qed.

End runs.

(** The outcomes that are handed on when a plan completes. *)
Definition outcome_of (rs : list (OperationId * OperationResult)) (i : N) : ActionOutcome :=
  value_of (outcome_entry <$> rs) i.

Lemma completion_spec p summary u s rs :
  in_flight_sends u !! p = None → pending_action_plans u !! p = Some s →
  (∃ st s0, s = with_state st (absorbed rs s0) ∧ pp_outcomes s0 = [] ∧ applied_outcomes s0 = ∅) →
  (N.of_nat (length (plan_operations (pp_plan s))) ≤ u32_max)%N →
  (∀ e, e ∈ rs → (e.1 < N.of_nat (length (plan_operations (pp_plan s))))%N) →
  (handle_notification_action_completed p summary u).2 =
    [Done (let os := outcome_of rs <$> ordinals (length (plan_operations (pp_plan s))) in
           match pp_undo_description s with Some d => UndoCompleted d os | None => ActionCompleted (pp_plan s) os end)].
Proof.
  intros Hs Es (st & s0 & -> & E0 & Ea) Hn Hb. unfold handle_notification_action_completed. rewrite Hs, Es. cbn [snd].
  destruct (absorbed_spec rs s0) as ((Hd & _) & Hk & Hv & Hp & _).
  { split; rewrite E0; [constructor|]. intros i. rewrite Ea. by split; intros ?%not_elem_of_empty || intros ?%elem_of_nil. }
  cbn [pp_plan with_state pp_outcomes] in *. rewrite E0 in *. cbn [app] in *.
  rewrite backfill_spec; [| |done|].
  - assert ((value_of (pp_outcomes (absorbed rs s0)) <$> ordinals (length (plan_operations (pp_plan (absorbed rs s0))))) =
      (outcome_of rs <$> ordinals (length (plan_operations (pp_plan (absorbed rs s0)))))) as ->; [|done].
    apply list_fmap_ext. intros i x _. apply Hv.
  - done.
  - intros i Hi%Hk. apply list_elem_of_fmap in Hi as (x & -> & (e & -> & He)%list_elem_of_fmap). by apply Hb.
Qed.
