(* ===== verification/ActionUiDispatch.v ===== *)
(** * Dispatching: what is sent is what is shown

    A plan over several accounts is split, and each part is sent or refused on its
    own: the operations of the parts are those of the plan, and the thread list
    shows the changes of the parts that were sent, and of no other. *)

From stdpp Require Import sorting.
From S2P Require Import Prelude.
From S2P Require Import Strings.
From S2P Require Import Bytes.
From S2P Require Import ActionTypes.
From S2P Require Import Journal.
From S2P Require Import Worker.
From S2P Require Import ActionResolve.
From S2P Require Import ActionResolveTheory.
From S2P Require Import ActionUi.
From S2P Require Import ActionUiTheory.

Implicit Types (u : ReadyApp) (p : PlanId) (plan : ActionExecutionPlan) (l : list Thread).

(** ** Ordered maps of vectors *)

Lemma str_compare_refl a : str_compare a a = Eq.
Proof. induction a as [|c a IH]; [done|]. simpl. by rewrite N.compare_refl. Qed.

Lemma str_compare_flip a b : str_compare b a = CompOpp (str_compare a b).
Proof.
  revert b. induction a as [|c a IH]; intros [|d b]; [done..|]. simpl. rewrite (N.compare_antisym c d).
  destruct (c ?= d)%N; [apply IH|done|done].
Qed.

Lemma str_compare_trans a b c : str_compare a b = Lt → str_compare b c = Lt → str_compare a c = Lt.
Proof.
  revert b c. induction a as [|x a IH]; intros [|y b] [|z c]; try done. simpl.
  destruct (N.compare_spec x y) as [->|Hxy|Hxy], (N.compare_spec y z) as [->|Hyz|Hyz]; try done;
    try (intros _ _; by rewrite (proj2 (N.compare_lt_iff _ _)) by lia).
  apply IH.
Qed.

Definition str_lt (a b : str) : Prop := str_compare a b = Lt.

Lemma push_sorted {V} k (v : V) m :
  StronglySorted str_lt m.*1 → StronglySorted str_lt (btree_push str_compare k v m).*1 ∧
  ∀ x, x ∈ (btree_push str_compare k v m).*1 → x = k ∨ x ∈ m.*1.
Proof.
  induction m as [|[k' vs] m IH]; intros Hs.
  { split; [repeat constructor|]. intros x Hx%list_elem_of_singleton. by left. }
  inversion Hs as [|? ? Hs' Hf]; subst. cbn [btree_push]. destruct (str_compare k k') eqn:E.
  - split; [by constructor|]. intros x Hx. by right.
  - split; [|intros x [->|Hx]%elem_of_cons; [by left|by right]]. constructor; [done|]. constructor; [done|].
    eapply Forall_impl; [exact Hf|]. intros x Hx. by eapply str_compare_trans.
  - destruct (IH Hs') as [Hs1 Hx1]. split.
    + rewrite fmap_cons. constructor; [done|]. apply Forall_forall. intros x [->|Hx]%Hx1.
      * unfold str_lt. cbn. by rewrite str_compare_flip, E.
      * by eapply Forall_forall in Hf; [|exact Hx].
    + intros x [->|[->|Hx]%Hx1]%elem_of_cons; [right; apply list_elem_of_here|by left|right; by apply list_elem_of_further].
Qed.

Lemma btree_sorted {V} (xs : list (str * V)) : StronglySorted str_lt (btree_of str_compare xs).*1.
Proof.
  unfold btree_of. enough (∀ m, StronglySorted str_lt m.*1 →
    StronglySorted str_lt (foldl (λ m e, btree_push str_compare e.1 e.2 m) m xs).*1) as H by (apply H; constructor).
  induction xs as [|x xs IH]; intros m Hm; [done|]. apply IH. by apply push_sorted.
Qed.

Lemma btree_get_in {V} (m : list (str * V)) e : StronglySorted str_lt m.*1 → e ∈ m → btree_get e.1 m = Some e.2.
Proof.
  induction m as [|[k v] m IH]; intros Hs He; [by apply elem_of_nil in He|]. inversion Hs as [|? ? Hs' Hf]; subst.
  cbn [btree_get]. apply elem_of_cons in He as [->|He]; [by rewrite decide_True|]. rewrite decide_False; [by apply IH|].
  intros E. eapply Forall_forall in Hf; [|apply list_elem_of_fmap_2, He]. unfold str_lt in Hf.
  cbn in Hf. by rewrite E, str_compare_refl in Hf.
Qed.

(** Grouping commutes with what is computed of each value. *)
Definition map_groups {V W} (h : V → option W) (m : list (str * list V)) : list (str * list W) :=
  (λ e : str * list V, (e.1, omap h e.2)) <$> m.

Lemma push_omap {V W} (h : V → option W) k x y m :
  h x = Some y → btree_push str_compare k y (map_groups h m) = map_groups h (btree_push str_compare k x m).
Proof.
  intros Hx. induction m as [|[k' vs] m IH]; cbn; [by rewrite Hx|]. destruct (str_compare k k'); cbn.
  - unfold map_groups. f_equal. by rewrite omap_app; cbn; rewrite Hx.
  - by rewrite Hx.
  - f_equal. exact IH.
Qed.

Lemma btree_omap {V W} (key : V → str) (h : V → option W) (xs : list V) :
  (∀ x, x ∈ xs → is_Some (h x)) →
  btree_of str_compare (omap (λ x, (λ y : W, (key x, y)) <$> h x) xs) =
    map_groups h (btree_of str_compare ((λ x, (key x, x)) <$> xs)).
Proof.
  intros Hx. unfold btree_of. change (@nil (str * list W)) with (map_groups h []).
  generalize (@nil (str * list V)) as m. induction xs as [|x xs IH]; intros m; [done|].
  destruct (Hx x (list_elem_of_here _ _)) as [y Hy]. cbn [omap list_omap]. rewrite fmap_cons, Hy. cbn [fmap option_fmap option_map foldl fst snd].
  rewrite (push_omap h _ x y) by done. apply IH. intros z Hz. apply Hx. by apply list_elem_of_further.
Qed.

(** ** Plans on some of the threads *)

Lemma omap_none {A B} (xs : list A) : omap (λ _, @None B) xs = [].
Proof. by induction xs. Qed.

Section plans.
Context (oc : ResolveOutcome) (l0 : list Thread).

(** What a resolved intent does to a thread that is shown. *)
Definition change : Thread → Thread := match oc with PerThreadToggle f _ => flip f | _ => id end.

Definition mut_of (x : str * str) : option OptimisticMutation :=
  match oc with PerThreadToggle f _ => mutation_on f l0 x | _ => None end.

Definition plan_on (b : CompletionBehavior) (c : CompensationContext) (sub : list (str * str)) : ActionExecutionPlan :=
  mkPlan (omap (expected_op oc l0) sub) b c (omap mut_of sub).

(** The list shows the change of the threads of the set, and otherwise [l0]. *)
Definition shows (s : gset (str * str)) l : Prop :=
  ∀ a i, find_thread a i l = (if decide ((a, i) ∈ s) then change else id) <$> find_thread a i l0.

Lemma build_plan_on targets plan l1 :
  NoDup targets → build_execution_plan oc targets l0 = (Some plan, l1) →
  ∃ b c, plan = plan_on b c targets ∧ shows (list_to_set targets) l1.
Proof.
  intros Hn. unfold plan_on, shows, change, mut_of, expected_op. destruct oc as [op comp|f comp|]; cbn [build_execution_plan]; [| |done].
  - intros [= <- <-]. exists (completion_behavior op), comp. split.
    + by rewrite omap_Some_fmap, omap_none.
    + intros a i. case_decide; by destruct (find_thread a i l0).
  - destruct (toggle_threads_spec f targets l0 Hn) as (l' & -> & Hl'). intros [= <- <-].
    eexists _, _. split; [done|]. intros a i. rewrite Hl'. by repeat (case_decide || rewrite elem_of_list_to_set in *).
Qed.

Lemma write_back f t v : write_toggle_field f (read_toggle_field f t) (write_toggle_field f v t) = t.
Proof. by destruct t, f. Qed.

Lemma write_same f t : write_toggle_field f (read_toggle_field f t) t = t.
Proof. by destruct t, f. Qed.

(** Rolling back the changes of some threads takes them off. *)
Lemma rollback_shows sub s l :
  shows s l → shows (s ∖ list_to_set sub) (rollback_threads (omap mut_of sub) l).
Proof.
  unfold shows, change, mut_of, mutation_on. destruct oc as [op comp|f comp|].
  1,3: intros Hs a i; rewrite omap_none; unfold rollback_threads; cbn [foldl]; rewrite Hs; repeat case_decide; done.
  revert s l. induction sub as [|[a i] sub IH]; intros s l Hs b j.
  { unfold rollback_threads. cbn [omap list_omap foldl list_to_set]. rewrite Hs. by repeat (case_decide || rewrite difference_empty_L in *). }
  rewrite list_to_set_cons. replace (s ∖ ({[(a, i)]} ∪ list_to_set sub)) with ((s ∖ {[(a, i)]}) ∖ list_to_set sub) by set_solver.
  cbn [omap list_omap fst snd]. destruct (find_thread a i l0) as [t|] eqn:E; cbn [fmap option_fmap option_map].
  - unfold rollback_threads. cbn [foldl]. destruct (mutation_parts f a i (read_toggle_field f t)) as (-> & -> & -> & ->).
    apply IH. clear b j. intros b j. rewrite find_update by apply write_keeps_key. rewrite !Hs.
    destruct (decide ((b, j) = (a, i))) as [[= -> ->]|Hne].
    + rewrite (decide_False (P := (a, i) ∈ s ∖ _)) by set_solver. rewrite E. cbn. f_equal.
      case_decide; [apply write_back|apply write_same].
    + repeat case_decide; set_solver.
  - apply IH. clear b j. intros b j. rewrite Hs. destruct (decide ((b, j) = (a, i))) as [[= -> ->]|Hne]; [by rewrite E|].
    repeat case_decide; set_solver.
Qed.

Lemma shows_nil s l : shows s l → shows (s ∖ list_to_set []) l.
Proof. intros Hs a i. rewrite Hs. by repeat (case_decide || set_solver). Qed.

(** *** Splitting by account *)

Definition present (targets : list (str * str)) : list (str * str) :=
  filter (λ x, is_Some (expected_op oc l0 x)) targets.

Lemma omap_present {B} (h : str * str → option B) targets :
  (∀ x, is_Some (h x) → is_Some (expected_op oc l0 x)) → omap h targets = omap h (present targets).
Proof.
  intros Hh. unfold present. induction targets as [|x targets IH]; [done|]. rewrite filter_cons. cbn [omap list_omap].
  case_decide as Hx; cbn [omap list_omap]; rewrite IH; [done|].
  destruct (h x) eqn:E; [|done]. destruct Hx. apply Hh. by rewrite E.
Qed.

Lemma mut_of_present x : is_Some (mut_of x) → is_Some (expected_op oc l0 x).
Proof.
  unfold mut_of, expected_op, mutation_on, op_on. destruct oc; [by intros []| |by intros []].
  by rewrite !fmap_is_Some.
Qed.

Lemma expected_account x y : expected_op oc l0 x = Some y → y.1.1 = x.1.
Proof. unfold expected_op, op_on. destruct oc; [by intros [= <-]| |done]. destruct (find_thread _ _ _); [by intros [= <-]|done]. Qed.

Lemma mut_account x m : mut_of x = Some m → om_account_id m = x.1.
Proof.
  unfold mut_of, mutation_on. destruct oc; [done| |done]. destruct (find_thread _ _ _); [|done]. intros [= <-].
  by destruct (mutation_parts field x.1 x.2 (read_toggle_field field t)) as (_ & -> & _).
Qed.

Lemma mut_all_or_none (xs : list (str * str)) :
  (∀ x, x ∈ xs → is_Some (expected_op oc l0 x)) →
  (∀ x, x ∈ xs → is_Some (mut_of x)) ∨ (∀ x, mut_of x = None).
Proof.
  unfold mut_of, expected_op, mutation_on, op_on. intros Hx. destruct oc; [by right| |by right].
  left. intros x Hin. apply fmap_is_Some. exact (proj1 (fmap_is_Some _ _) (Hx x Hin)).
Qed.

Lemma values_of_keyed {A K} (key : A → K) (xs : list A) : ((λ x, (key x, x)) <$> xs).*2 = xs.
Proof. induction xs as [|x xs IH]; [done|]. rewrite !fmap_cons. by rewrite IH. Qed.

Lemma keyed_omap {B} (key : B → str) (h : str * str → option B) (xs : list (str * str)) :
  (∀ x y, h x = Some y → key y = x.1) →
  (λ y, (key y, y)) <$> omap h xs = omap (λ x, (λ y, (x.1, y)) <$> h x) xs.
Proof.
  intros Hk. induction xs as [|x xs IH]; [done|]. cbn [omap list_omap]. destruct (h x) as [y|] eqn:E; cbn [fmap option_fmap option_map].
  - rewrite fmap_cons, IH. by rewrite (Hk x y E).
  - exact IH.
Qed.

Lemma split_plan_on b c targets :
  ∃ subs, split_by_account (plan_on b c targets) = plan_on b c <$> subs ∧ mjoin subs ≡ₚ present targets.
Proof.
  set (groups := btree_of str_compare ((λ x : str * str, (x.1, x)) <$> present targets)).
  exists (groups.*2). split.
  - assert (∀ x, x ∈ present targets → is_Some (expected_op oc l0 x)) as Hp by (by intros x [? _]%list_elem_of_filter).
    unfold split_by_account, plan_on. cbn [plan_operations optimistic behavior compensation].
    rewrite (omap_present (expected_op oc l0)), (omap_present mut_of) by auto using mut_of_present.
    rewrite (keyed_omap (λ y : target_op, y.1.1)) by apply expected_account.
    rewrite (keyed_omap om_account_id) by apply mut_account.
    rewrite (btree_omap fst (expected_op oc l0)) by done. fold groups. unfold map_groups. rewrite <- !list_fmap_compose.
    apply list_fmap_ext. intros k e He%list_elem_of_lookup_2. cbn [compose fst snd]. f_equal.
    destruct (mut_all_or_none _ Hp) as [Hm|Hm].
    + rewrite (btree_omap fst mut_of) by done. fold groups.
      assert (StronglySorted str_lt (map_groups mut_of groups).*1) as Hs.
      { unfold map_groups. rewrite <- list_fmap_compose. apply (btree_sorted ((λ x : str * str, (x.1, x)) <$> present targets)). }
      change e.1 with (e.1, omap mut_of e.2).1. rewrite (btree_get_in _ _ Hs); [done|].
      unfold map_groups. apply list_elem_of_fmap. by exists e.
    + assert (∀ xs : list (str * str), omap (λ x, (λ y, (x.1, y)) <$> mut_of x) xs = []) as ->.
      { intros xs. induction xs as [|x xs IH]; [done|]. cbn [omap list_omap]. by rewrite Hm. }
      cbn. clear -Hm. induction e.2 as [|x xs IH]; [done|]. cbn [omap list_omap]. by rewrite Hm.
  - pose proof (flatten_btree str_compare str_compare_eq ((λ x : str * str, (x.1, x)) <$> present targets)) as Hf.
    fold groups in Hf. apply (fmap_Permutation snd) in Hf. rewrite values_of_keyed in Hf. rewrite <- Hf. clear.
    unfold flatten_map. induction groups as [|[k vs] gs IH]; [done|]. cbn [mbind list_bind fst snd]. rewrite fmap_app, <- IH, fmap_cons.
    by rewrite (values_of_keyed (λ _, k)).
Qed.
End plans.

(** ** What is sent *)

(** The operations that the service is asked for. *)
Definition wire_ops (w : ActionWirePlan) : list target_op :=
  (λ o, (wo_account_id o, wo_thread_id o, wire_to_mail (wo_operation o))) <$> operations w.
Definition sent_ops (ts : list Task) : list target_op :=
  ts ≫= λ t, match t with ExecutePlan _ w => wire_ops w | _ => [] end.

Lemma wire_ops_plan p plan : wire_ops (to_wire_plan p plan) = plan_operations plan.
Proof.
  unfold wire_ops, to_wire_plan. cbn [operations]. rewrite fmap_imap.
  apply list_eq. intros i. rewrite list_lookup_imap. destruct (plan_operations plan !! i) as [[[a t] op]|]; [|done].
  cbn. by rewrite wire_to_mail_to_wire_op.
Qed.

Lemma mjoin_cons {A} (xs : list A) xss : mjoin (xs :: xss) = xs ++ mjoin xss.
Proof. done. Qed.

Lemma omap_mjoin {A B} (h : A → option B) (xss : list (list A)) :
  omap h (mjoin xss) = xss ≫= omap h.
Proof. induction xss as [|xs xss IH]; [done|]. rewrite mjoin_cons, omap_app, IH. done. Qed.

Section dispatch.
Context {serde : Serde} (new_v7 : nat → PlanId).

Lemma dispatch_all_cons plan plans d u :
  dispatch_all new_v7 (plan :: plans) d u =
    let '(u1, ts1) := dispatch_account new_v7 plan d u in
    let '(u2, ts2) := dispatch_all new_v7 plans d u1 in (u2, ts1 ++ ts2).
Proof.
  unfold dispatch_all. cbn [foldl fst snd app].
  assert (∀ plans u ts, foldl (λ a plan, let '(u, ts) := dispatch_account new_v7 plan d a.1 in (u, a.2 ++ ts)) (u, ts) plans =
    let '(u', ts') := foldl (λ a plan, let '(u, ts) := dispatch_account new_v7 plan d a.1 in (u, a.2 ++ ts)) (u, []) plans
    in (u', ts ++ ts')) as Hg.
  { clear. induction plans as [|plan plans IH]; intros u ts; cbn [foldl fst snd app]; [by rewrite app_nil_r|].
    destruct (dispatch_account new_v7 plan d u) as [u1 ts1]. rewrite (IH u1 (ts ++ ts1)), (IH u1 ts1).
    destruct (foldl _ (u1, []) plans) as [u2 ts2]. by rewrite app_assoc. }
  destruct (dispatch_account new_v7 plan d u) as [u1 ts1]. by rewrite Hg.
Qed.

Lemma dispatch_parts oc l0 b c d subs u s :
  shows oc l0 s (threads_of u) →
  let a := dispatch_all new_v7 (plan_on oc l0 b c <$> subs) d u in
  ∃ sent unsent, subs ≡ₚ sent ++ unsent ∧ sent_ops a.2 = omap (expected_op oc l0) (mjoin sent) ∧
    shows oc l0 (s ∖ list_to_set (mjoin unsent)) (threads_of a.1).
Proof.
  revert u s. induction subs as [|sub subs IH]; intros u s Hs.
  { exists [], []. split_and!; [done..|]. exact (shows_nil _ _ _ _ Hs). }
  rewrite fmap_cons, dispatch_all_cons.
  destruct (dispatch_account_cases new_v7 (plan_on oc l0 b c sub) d u) as [_ Hd].
  destruct (dispatch_account new_v7 (plan_on oc l0 b c sub) d u) as [u1 ts1]. unfold refused, dispatched in Hd. cbn [fst snd] in *.
  destruct Hd as [(-> & Ht & _)|((-> & Ht & _) & _)]; cbn [fst snd] in *.
  - assert (shows oc l0 (s ∖ list_to_set sub) (threads_of u1)) as Hs1 by (rewrite Ht; by apply rollback_shows).
    destruct (IH u1 _ Hs1) as (sent & unsent & Hp & Ho & Hs2).
    destruct (dispatch_all _ _ _ u1) as [u2 ts2]. exists sent, (sub :: unsent). split_and!; [|done|].
    + rewrite Hp. apply Permutation_middle.
    + rewrite mjoin_cons, list_to_set_app_L, <- difference_difference_l_L. exact Hs2.
  - rewrite <- Ht in Hs. destruct (IH u1 s Hs) as (sent & unsent & Hp & Ho & Hs2).
    destruct (dispatch_all _ _ _ u1) as [u2 ts2]. exists (sub :: sent), unsent. split_and!; [by rewrite Hp| |done].
    cbn [sent_ops mbind list_bind app snd]. rewrite wire_ops_plan, mjoin_cons, omap_app. f_equal. exact Ho.
Qed.

Lemma present_nil oc l0 targets : omap (expected_op oc l0) targets = [] → present oc l0 targets = [].
Proof.
  unfold present. induction targets as [|x targets IH]; [done|]. rewrite filter_cons. cbn [omap list_omap].
  destruct (expected_op oc l0 x) eqn:E; [done|]. intros Ho. rewrite decide_False by (by intros []). by apply IH.
Qed.

(** Every operation of the plan is sent once or not at all, and the list shows the
    changes of those that are. *)
Lemma dispatch_plan_parts oc l0 b c d targets u s :
  shows oc l0 s (threads_of u) →
  let a := dispatch_plan_with_undo new_v7 (plan_on oc l0 b c targets) d u in
  ∃ sent unsent, sent ++ unsent ≡ₚ present oc l0 targets ∧ sent_ops a.2 = omap (expected_op oc l0) sent ∧
    shows oc l0 (s ∖ list_to_set unsent) (threads_of a.1).
Proof.
  intros Hs. cbn zeta. unfold dispatch_plan_with_undo. destruct (is_nil _) eqn:En; [|destruct (1 <? _)].
  - apply is_nil_spec in En. cbn [plan_on plan_operations] in En. exists [], []. rewrite present_nil by done.
    split_and!; [done..|]. exact (shows_nil _ _ _ _ Hs).
  - destruct (split_plan_on oc l0 b c targets) as (subs & -> & Hj).
    destruct (dispatch_parts oc l0 b c d subs u s Hs) as (sent & unsent & Hp & Ho & Hs').
    exists (mjoin sent), (mjoin unsent). split_and!; [|done..].
    rewrite <- Hj, (mjoin_perm _ _ Hp). clear. induction sent as [|xs sent IH]; [done|].
    cbn [app]. by rewrite !mjoin_cons, <- app_assoc, IH.
  - destruct (dispatch_account_cases new_v7 (plan_on oc l0 b c targets) d u) as [_ Hd].
    destruct (dispatch_account new_v7 (plan_on oc l0 b c targets) d u) as [u1 ts1]. unfold refused, dispatched in Hd. cbn [fst snd] in *.
    assert (omap (expected_op oc l0) targets = omap (expected_op oc l0) (present oc l0 targets)) as Ho by (by apply omap_present).
    destruct Hd as [(-> & Ht & _)|((-> & Ht & _) & _)]; cbn [fst snd] in *.
    + exists [], (present oc l0 targets). split_and!; [done..|]. rewrite Ht. cbn [plan_on optimistic].
      rewrite (omap_present oc l0 (mut_of oc l0)) by apply mut_of_present. by apply rollback_shows.
    + exists (present oc l0 targets), []. split_and!; [by rewrite app_nil_r| |rewrite Ht; exact (shows_nil _ _ _ _ Hs)].
      cbn [sent_ops mbind list_bind]. rewrite app_nil_r, wire_ops_plan. exact Ho.
Qed.
End dispatch.
