(* ===== verification/ActionUiReach.v ===== *)
(** * The app over time

    The states the app can reach when its tasks are answered in any order, and
    what holds in all of them. *)

From S2P Require Import Prelude.
From S2P Require Import Strings.
From S2P Require Import Bytes.
From S2P Require Import ActionTypes.
From S2P Require Import Journal.
From S2P Require Import Worker.
From S2P Require Import ActionResolve.
From S2P Require Import ActionResolveTheory.
From S2P Require Import ActionUi.
From S2P Require Import ActionUiTheory.
From S2P Require Import ActionUiDispatch.
From S2P Require Import ActionInstances.

Implicit Types (u : ReadyApp) (p : PlanId) (plan : ActionExecutionPlan) (ts : list Task).

(** ** Undo payloads are never empty *)

Definition payload_threads (p : MailUndoPayload) : list str :=
  match p with
  | UArchive _ l | UTrash _ l _ | UMoveToFolder _ l _ | USetSpam _ l _ | USetStarred _ l _ | USetRead _ l _
  | USetPinned _ l _ | USetMuted _ l _ | UAddLabel _ l _ | URemoveLabel _ l _ | UApplyLabelGroup _ l _
  | URemoveLabelGroup _ l _ | USnooze _ l => l
  end.

Lemma push_nonempty {K V} (cmp : K → K → comparison) k (v : V) m :
  Forall (λ e, e.2 ≠ []) m → Forall (λ e : K * list V, e.2 ≠ []) (btree_push cmp k v m).
Proof.
  induction 1 as [|[k' vs] m Hv Hm IH]; [by repeat constructor|]. cbn [btree_push].
  destruct (cmp k k'); constructor; try done; [|by constructor]. simpl. by destruct vs.
Qed.

Lemma btree_nonempty {K V} (cmp : K → K → comparison) (xs : list (K * V)) : Forall (λ e, e.2 ≠ []) (btree_of cmp xs).
Proof.
  unfold btree_of. enough (∀ m, Forall (λ e : K * list V, e.2 ≠ []) m →
    Forall (λ e, e.2 ≠ []) (foldl (λ m e, btree_push cmp e.1 e.2 m) m xs)) as H by (apply H; constructor).
  induction xs as [|x xs IH]; intros m Hm; [done|]. apply IH. by apply push_nonempty.
Qed.

Lemma payloads_nonempty plan os ps :
  build_undo_payloads plan os = Some ps → Forall (λ y, payload_threads y ≠ []) ps.
Proof.
  unfold build_undo_payloads. destruct (undo _); [by intros [= <-]|]. destruct (forallb _ _); [by intros [= <-]|].
  destruct (is_nil (optimistic plan)).
  - unfold build_standard_undo_payloads. destruct (plan_operations plan) as [|[[a i] op] xs]; [done|]. intros [= <-].
    set (m := btree_of _ _). assert (Forall (λ e : str * list str, e.2 ≠ []) m) as Hm by apply btree_nonempty.
    clearbody m. induction Hm as [|[a' l'] m Hl Hm IH]; [constructor|]. cbn [omap list_omap fst snd].
    destruct (standard_payload op _ a' l') as [y|] eqn:E; [|exact IH]. constructor; [|exact IH].
    destruct op as [| | |to|to|to|to|to|d [s|]|lb|lb|g|g|t|]; simpl in E; try discriminate; try (by injection E as <-).
    destruct (compensation plan) as [|[s|]]; try discriminate. by injection E as <-.
  - intros [= <-]. unfold build_toggle_undo_payloads. destruct (optimistic plan) as [|first ms]; [constructor|].
    apply Forall_fmap. eapply Forall_impl; [apply btree_nonempty|]. intros [[a b] l'] Hl. by destruct first.
Qed.

Lemma payload_ops_nonempty (y : MailUndoPayload) : payload_threads y ≠ [] → undo_payload_to_ops y ≠ [].
Proof. destruct y; simpl; intros Hl; by destruct threads. Qed.

Definition entry_ok (e : UndoEntry) : Prop := payloads e ≠ [] ∧ Forall (λ y, payload_threads y ≠ []) (payloads e).

(** Every entry has something to undo. *)
Lemma entry_has_plan e : entry_ok e → is_Some (inverse_plan e).
Proof.
  intros [Hn Hf]. unfold inverse_plan. destruct (payloads e) as [|y ps]; [done|]. inversion Hf; subst.
  cbn [mbind list_bind]. pose proof (payload_ops_nonempty y ltac:(done)) as Hp.
  destruct (undo_payload_to_ops y) as [|x xs]; [done|]. by eexists.
Qed.

(** ** Reachable states *)

Section reach.
Context {serde : Serde} (new_v7 : nat → PlanId) {new_inj : Inj (=) (=) new_v7}.

Definition starts u : Prop :=
  pending_action_plans u = ∅ ∧ in_flight_sends u = ∅ ∧ undo_stack u = default_undo_stack.

(** The messages that can come: from the user, and in answer to the tasks so far.
    The results of a plan are those of its operations. *)
Definition may_come ts (m : Message) : Prop :=
  match m with
  | EmailAction _ | Undo | ServiceBootReady => True
  | ActionDispatched p _ => ∃ w, ExecutePlan p w ∈ ts
  | JobStatusResolved p _ => QueryJobStatus p ∈ ts
  | ServiceNotification _ (NOperationOutcome p op _) =>
      ∀ w, ExecutePlan p w ∈ ts → (op < N.of_nat (length (operations w)))%N
  | ServiceNotification _ _ => True
  | ActionCompleted _ _ | UndoCompleted _ _ => Done m ∈ ts
  end.

(** Plans have at most 2^32 - 1 operations. *)
Definition plans_fit ts : Prop :=
  ∀ p w, ExecutePlan p w ∈ ts → (N.of_nat (length (operations w)) ≤ u32_max)%N.

Inductive reachable : ReadyApp → list Task → Prop :=
  | reach_start u : starts u → reachable u []
  | reach_step u ts e a :
      reachable u ts → may_come ts (ev_message e) → handle new_v7 e u = Some a → plans_fit a.2 →
      reachable a.1 (ts ++ a.2).

(** *** The invariant *)

Record pending_ok u ts p (s : PendingActionPlan) : Prop := {
  po_drawn : drawn new_v7 p u;
  po_some : plan_operations (pp_plan s) ≠ [];
  po_tallied : tallied s;
  po_range : ∀ i, i ∈ (pp_outcomes s).*1 → (i < N.of_nat (length (plan_operations (pp_plan s))))%N;
  po_sent : ExecutePlan p (to_wire_plan p (pp_plan s)) ∈ ts
}.

Record app_ok u ts : Prop := {
  ao_pending : ∀ p s, pending_action_plans u !! p = Some s → pending_ok u ts p s;
  ao_sent : ∀ p w, ExecutePlan p w ∈ ts → drawn new_v7 p u;
  ao_fit : plans_fit ts;
  ao_done : ∀ plan os, Done (ActionCompleted plan os) ∈ ts →
    plan_operations plan ≠ [] ∧ length os = length (plan_operations plan);
  ao_stack : length (entries (undo_stack u)) ≤ 20 ∧ capacity (undo_stack u) = 20 ∧ Forall entry_ok (entries (undo_stack u))
}.

Lemma app_ok_starts u : starts u → app_ok u [].
Proof.
  intros (E1 & E2 & E3). constructor.
  - intros p s. by rewrite E1, lookup_empty.
  - by intros p w ?%elem_of_nil.
  - by intros p w ?%elem_of_nil.
  - by intros p w ?%elem_of_nil.
  - rewrite E3. simpl. split_and!; [lia|done|constructor].
Qed.

(** Other tasks do not matter. *)
Definition quiet_task (t : Task) : Prop :=
  match t with ExecutePlan _ _ | Done (ActionCompleted _ _) => False | _ => True end.

Lemma pending_ok_more u u' ts ts' p s :
  (drawn new_v7 p u → drawn new_v7 p u') → pending_ok u ts p s → pending_ok u' (ts ++ ts') p s.
Proof. intros Hd [H1 H2 H3 H4 H5]. constructor; auto. apply elem_of_app. by left. Qed.

Lemma app_ok_quiet u u' ts ts' :
  app_ok u ts → (∀ t, t ∈ ts' → quiet_task t) → ids_drawn u' = ids_drawn u → undo_stack u' = undo_stack u →
  (∀ p s, pending_action_plans u' !! p = Some s → pending_ok u ts p s) → app_ok u' (ts ++ ts').
Proof.
  intros [H1 H2 H3 H4 H5] Hq Ed Eu Hp. assert (∀ p, drawn new_v7 p u → drawn new_v7 p u') as Hd by (unfold drawn; by rewrite Ed).
  constructor.
  - intros p s Es. apply (pending_ok_more u); auto.
  - intros p w [Hin|Hin]%elem_of_app; [by eapply Hd, H2|]. by destruct (Hq _ Hin).
  - intros p w [Hin|Hin]%elem_of_app; [by eapply H3|]. by destruct (Hq _ Hin).
  - intros plan os [Hin|Hin]%elem_of_app; [by apply H4|]. by destruct (Hq _ Hin).
  - by rewrite Eu.
Qed.

Lemma app_ok_same u u' ts ts' :
  app_ok u ts → (∀ t, t ∈ ts' → quiet_task t) → ids_drawn u' = ids_drawn u → undo_stack u' = undo_stack u →
  pending_action_plans u' = pending_action_plans u → app_ok u' (ts ++ ts').
Proof. intros Ho Hq Ed Eu Ep. eapply app_ok_quiet; [done..|]. intros p s. rewrite Ep. apply Ho. Qed.

(** *** Dispatching *)

Lemma app_ok_dispatch_account plan d u ts a :
  dispatch_account new_v7 plan d u = a → plan_operations plan ≠ [] → app_ok u ts → plans_fit a.2 → app_ok a.1 (ts ++ a.2).
Proof.
  intros <- Hn Ho Hf. destruct (dispatch_account_cases new_v7 plan d u) as [(_ & _ & _ & _ & Eu & _) Hd].
  destruct (dispatch_account new_v7 plan d u) as [u' ts']. unfold refused, dispatched in Hd. cbn [fst snd] in *.
  destruct Hd as [(-> & _ & _ & Ep & Ed)|((-> & _ & _ & Ep & Ed) & _)].
  { apply app_ok_same with u; [done| |done..]. by intros t ?%elem_of_nil. }
  destruct Ho as [H1 H2 H3 H4 H5].
  assert (∀ p, drawn new_v7 p u → drawn new_v7 p u') as Hdr by (intros p (k & Hk & ->); exists k; split; [lia|done]).
  assert (drawn new_v7 (new_v7 (ids_drawn u)) u') as Hnew by (exists (ids_drawn u); split; [lia|done]).
  constructor.
  - intros p s. rewrite Ep. intros [[<- <-]|[Hne Es]]%lookup_insert_Some; [|apply (pending_ok_more u); auto].
    constructor; [done|done| | |apply elem_of_app; right; apply list_elem_of_here].
    + split; [constructor|]. intros i. simpl. by split; [intros ?%not_elem_of_empty|intros ?%elem_of_nil].
    + by intros i ?%elem_of_nil.
  - intros p w [Hin|[= -> ->]%list_elem_of_singleton]%elem_of_app; [by eapply Hdr, H2|done].
  - intros p w [Hin|Hin]%elem_of_app; [by eapply H3|by eapply Hf].
  - intros q os [Hin|Hin%list_elem_of_singleton]%elem_of_app; [by apply H4|done].
  - by rewrite Eu.
Qed.

Lemma plans_fit_app ts ts' : plans_fit (ts ++ ts') ↔ plans_fit ts ∧ plans_fit ts'.
Proof.
  unfold plans_fit. split; [intros Hf; split; intros p w Hin; apply (Hf p w), elem_of_app; auto|].
  intros [H1 H2] p w [Hin|Hin]%elem_of_app; [by eapply H1|by eapply H2].
Qed.

Lemma app_ok_dispatch_all plans d u ts :
  Forall (λ plan, plan_operations plan ≠ []) plans → app_ok u ts →
  plans_fit (dispatch_all new_v7 plans d u).2 →
  app_ok (dispatch_all new_v7 plans d u).1 (ts ++ (dispatch_all new_v7 plans d u).2).
Proof.
  intros Hn. revert u ts. induction Hn as [|plan plans Hn _ IH]; intros u ts Ho; [by rewrite app_nil_r|].
  rewrite dispatch_all_cons. pose proof (app_ok_dispatch_account plan d u ts _ eq_refl Hn Ho) as H1.
  destruct (dispatch_account new_v7 plan d u) as [u1 ts1]. cbn [fst snd] in *.
  specialize (IH u1 (ts ++ ts1)). destruct (dispatch_all new_v7 plans d u1) as [u2 ts2]. cbn [fst snd] in *.
  intros [Hf1 Hf2]%plans_fit_app. rewrite app_assoc. by apply IH; [apply H1|].
Qed.

Lemma split_nonempty plan : Forall (λ plan, plan_operations plan ≠ []) (split_by_account plan).
Proof. unfold split_by_account. apply Forall_fmap. eapply Forall_impl; [apply btree_nonempty|]. done. Qed.

Lemma app_ok_dispatch plan d u ts :
  app_ok u ts → plans_fit (dispatch_plan_with_undo new_v7 plan d u).2 →
  app_ok (dispatch_plan_with_undo new_v7 plan d u).1 (ts ++ (dispatch_plan_with_undo new_v7 plan d u).2).
Proof.
  intros Ho. unfold dispatch_plan_with_undo. destruct (plan_operations plan) eqn:E; cbn [is_nil]; [by rewrite app_nil_r|].
  destruct (1 <? _); [by apply app_ok_dispatch_all, Ho; apply split_nonempty|].
  apply app_ok_dispatch_account with plan d u; [done|by rewrite E|done].
Qed.

(** *** The other messages *)

Lemma app_ok_frame u u' ts :
  app_ok u ts → plans_alone u u' → undo_stack u' = undo_stack u → app_ok u' ts.
Proof.
  intros Ho (E1 & _ & E3) E4. rewrite <- (app_nil_r ts). apply app_ok_same with u; [done| |done..]. by intros t ?%elem_of_nil.
Qed.

Lemma pending_ok_state u ts p st s : pending_ok u ts p s → pending_ok u ts p (with_state st s).
Proof. by intros [H1 H2 H3 H4 H5]. Qed.

Lemma app_ok_set_state u ts p st :
  app_ok u ts → app_ok (set_pending (alter (with_state st) p (pending_action_plans u)) u) (ts ++ []).
Proof.
  intros Ho. apply app_ok_quiet with u; [done|by intros t ?%elem_of_nil|done|done|].
  intros q s. simpl. intros [[<- (s' & Es & ->)]|[Hne Es]]%lookup_alter_Some; [|by apply Ho].
  by apply pending_ok_state, Ho.
Qed.

Lemma app_ok_removed u u' ts ts' p :
  app_ok u ts → (∀ t, t ∈ ts' → quiet_task t) → ids_drawn u' = ids_drawn u → undo_stack u' = undo_stack u →
  pending_action_plans u' = delete p (pending_action_plans u) → app_ok u' (ts ++ ts').
Proof.
  intros Ho Hq Ed Eu Ep. apply app_ok_quiet with u; [done..|]. intros q s. rewrite Ep.
  intros [_ Es]%lookup_delete_Some. by apply Ho.
Qed.

Lemma app_ok_outcome u ts p op r :
  app_ok u ts → (∀ w, ExecutePlan p w ∈ ts → (op < N.of_nat (length (operations w)))%N) →
  app_ok (set_pending (alter (apply_outcome op r) p (pending_action_plans u)) u) (ts ++ []).
Proof.
  intros Ho Hop. apply app_ok_quiet with u; [done|by intros t ?%elem_of_nil|done|done|].
  intros q s. simpl. intros [[<- (s' & Es & ->)]|[Hne Es]]%lookup_alter_Some; [|by apply Ho].
  destruct (ao_pending _ _ Ho p s' Es) as [H1 H2 H3 H4 H5]. pose proof (Hop _ H5) as Hlt.
  unfold to_wire_plan in Hlt. cbn [operations] in Hlt. rewrite length_imap in Hlt.
  assert (pp_plan (apply_outcome op r s') = pp_plan s') as Epl by (unfold apply_outcome; by case_decide).
  constructor; rewrite ?Epl; [done|done|by apply tallied_apply| |done].
  unfold apply_outcome. case_decide; [done|]. cbn [pp_outcomes]. intros i.
  rewrite fmap_app, elem_of_app. intros [Hi| ->%list_elem_of_singleton]; [by apply H4|done].
Qed.

Lemma app_ok_completion u ts p summary :
  app_ok u ts →
  app_ok (handle_notification_action_completed p summary u).1 (ts ++ (handle_notification_action_completed p summary u).2).
Proof.
  intros Ho. unfold handle_notification_action_completed. destruct (in_flight_sends u !! p) as [win|].
  { apply app_ok_same with u; [done| |done..]. by intros t ->%list_elem_of_singleton. }
  destruct (pending_action_plans u !! p) as [s|] eqn:Es; [|by rewrite app_nil_r].
  destruct (ao_pending _ _ Ho p s Es) as [H1 H2 H3 H4 H5]. apply proj1 in H3. pose proof (ao_fit _ _ Ho _ _ H5) as Hfit.
  unfold to_wire_plan in Hfit. cbn [operations] in Hfit. rewrite length_imap in Hfit.
  set (u' := release_throttle _ _).
  assert (app_ok u' (ts ++ [])) as [G1 G2 G3 G4 G5].
  { apply app_ok_removed with u p; [done|by intros t ?%elem_of_nil|done..]. }
  rewrite app_nil_r in *. cbn [fst snd]. constructor; [| | | |done].
  - intros q t Et. by apply (pending_ok_more u'), G1.
  - intros q w [Hin|Hin%list_elem_of_singleton]%elem_of_app; [by eapply G2|done].
  - intros q w [Hin|Hin%list_elem_of_singleton]%elem_of_app; [by eapply G3|done].
  - intros plan os [Hin|Hin%list_elem_of_singleton]%elem_of_app; [by apply G4|].
    destruct (pp_undo_description s); [done|]. injection Hin as -> ->. split; [done|].
    rewrite backfill_spec by done. unfold ordinals. by rewrite !length_fmap, length_seq.
Qed.

Lemma undo_payloads_total plan os : plan_operations plan ≠ [] → is_Some (build_undo_payloads plan os).
Proof.
  intros Hn. unfold build_undo_payloads. destruct (undo _); [by eexists|]. destruct (forallb _ _); [by eexists|].
  destruct (is_nil _); [|by eexists]. unfold build_standard_undo_payloads.
  destruct (plan_operations plan) as [|[[? ?] ?] ?]; [done|by eexists].
Qed.

(** The undo stack keeps its bound and its entries something to undo. *)
Definition stack_ok (s : UndoStack) : Prop := length (entries s) ≤ 20 ∧ capacity s = 20 ∧ Forall entry_ok (entries s).

Lemma stack_ok_push d ps s :
  stack_ok s → ps ≠ [] → Forall (λ y, payload_threads y ≠ []) ps → stack_ok (undo_push d ps s).
Proof.
  intros (H1 & H2 & H3) Hn Hf. unfold undo_push. rewrite H2.
  assert (Forall entry_ok (tail (entries s))) as Ht by (destruct H3; [constructor|done]).
  destruct (Nat.leb_spec 20 (length (entries s))) as [Hle|Hlt]; split_and!; cbn [entries capacity]; try done;
    rewrite ?length_app; try (apply Forall_app; split; [done|by repeat constructor]).
  - destruct (entries s); simpl in *; lia.
  - simpl. lia.
Qed.

Lemma push_undo_ok plan os u u' : stack_ok (undo_stack u) → push_undo plan os u = Some u' → stack_ok (undo_stack u').
Proof.
  intros Hs. unfold push_undo. destruct (undo _); [by intros [= <-]|].
  destruct (build_undo_payloads plan os) as [ps|] eqn:E; [|done]. cbn. intros [= <-].
  destruct (is_nil ps) eqn:En; [done|]. cbn [undo_stack set_undo_stack].
  apply stack_ok_push; [done|intros ->; done|by eapply payloads_nonempty].
Qed.

Lemma removelast_Forall {A} (P : A → Prop) l : Forall P l → Forall P (removelast l).
Proof. induction 1 as [|x l Hx Hl IH]; [constructor|]. destruct l; [constructor|]. by constructor. Qed.

Lemma removelast_length {A} (l : list A) : length (removelast l) ≤ length l.
Proof. induction l as [|x l IH]; [done|]. destruct l; simpl in *; lia. Qed.

Lemma stack_ok_pop s e s' : stack_ok s → undo_pop s = Some (e, s') → stack_ok s' ∧ entry_ok e.
Proof.
  intros (H1 & H2 & H3). unfold undo_pop. destruct (last (entries s)) as [e'|] eqn:E; [|done]. intros [= <- <-].
  unfold stack_ok. cbn [entries capacity]. split_and!; [|done|by apply removelast_Forall|].
  - pose proof (removelast_length (entries s)). lia.
  - apply last_Some in E as [l E]. rewrite E in H3. apply Forall_app in H3 as [_ H3]. by inversion H3.
Qed.

Lemma app_ok_stack u ts st : app_ok u ts → stack_ok st → app_ok (set_undo_stack st u) ts.
Proof. intros [H1 H2 H3 H4 H5] Hs. constructor; [|done..]. intros p s Es. by destruct (H1 p s Es). Qed.

(** *** Every message *)

Lemma app_ok_at_time c cl u ts : app_ok u ts → app_ok (at_time c cl u) ts.
Proof. intros Ho. by apply app_ok_frame with u. Qed.

Lemma quiet_nil t : t ∈ @nil Task → quiet_task t.
Proof. by intros ?%elem_of_nil. Qed.

Lemma quiet_one t t' : quiet_task t' → t ∈ [t'] → quiet_task t.
Proof. by intros Ht ->%list_elem_of_singleton. Qed.

Lemma advance_quiet u :
  undo_stack (handle_auto_advance u).1 = undo_stack u ∧ ∀ t, t ∈ (handle_auto_advance u).2 → quiet_task t.
Proof.
  unfold handle_auto_advance. destruct (auto_advance (thread_list u)) as [l [idx|]]; [|split; [done|apply quiet_nil]].
  unfold handle_select_thread. destruct (threads_of _ !! idx) as [th|]; [destruct (is_local_draft th)|].
  - split; [done|]. intros t. by apply quiet_one.
  - destruct (is_public_folder _); [split; [done|apply quiet_nil]|].
    split; [done|]. intros t. cbn [snd]. destruct (has_body_store _); [by apply quiet_one|apply quiet_nil].
  - destruct (is_public_folder _); (split; [done|apply quiet_nil]).
Qed.

Lemma completed_ok plan os u ts a :
  app_ok u ts → handle_action_completed plan os u = Some a → app_ok a.1 (ts ++ a.2).
Proof.
  intros Ho. unfold handle_action_completed. destruct (forallb is_noop os); [intros [= <-]; by rewrite app_nil_r|].
  destruct (forallb is_failed os).
  { intros [= <-]. rewrite app_nil_r, rollback_eq. by apply app_ok_frame with u. }
  set (u1 := if is_nil _ then u else _). assert (app_ok u1 ts) as H1.
  { unfold u1. destruct (is_nil _); [done|]. by apply app_ok_frame with u. }
  set (u2 := if existsb _ _ then _ else u1). assert (app_ok u2 ts) as H2.
  { unfold u2. destruct (existsb _ _); [rewrite rollback_eq|done]. by apply app_ok_frame with u1. }
  destruct (push_undo plan os u2) as [u3|] eqn:E; [|done]. cbn [mbind option_bind]. intros [= <-].
  pose proof (push_undo_ok plan os u2 u3 (ao_stack _ _ H2) E) as H3. apply push_undo_eq in E as [st ->].
  assert (app_ok (set_undo_stack st u2) ts) as H4 by (by apply app_ok_stack).
  set (u3 := set_undo_stack st u2) in *. destruct (view_effect _); [destruct (post_success _)|].
  - by rewrite app_nil_r.
  - apply app_ok_same with u3; [done| |done..]. by intros t ->%list_elem_of_singleton.
  - assert (plans_alone u3 (handle_auto_advance u3).1 ∧ undo_stack (handle_auto_advance u3).1 = undo_stack u3 ∧
      ∀ t, t ∈ (handle_auto_advance u3).2 → quiet_task t) as ((A1 & _ & A3) & A4 & A5); [|by apply app_ok_same with u3].
    split; [apply advance_alone|apply advance_quiet].
Qed.

Lemma app_ok_update ts m u a :
  app_ok u ts → may_come ts m → update new_v7 m u = Some a → plans_fit a.2 → app_ok a.1 (ts ++ a.2).
Proof.
  intros Ho Hm. destruct m as [intent|p outcome| |p result|g n|plan os| |d os]; cbn [update may_come] in *;
    try (intros [= <-]); try intros Hf.
  - unfold handle_email_action in *. destruct (is_public_folder _); [by rewrite app_nil_r|].
    destruct (is_nil _); [by rewrite app_nil_r|].
    destruct (build_execution_plan _ _ _) as [[plan|] l]; [|rewrite app_nil_r; by apply app_ok_frame with u].
    apply app_ok_dispatch; [|done]. rewrite sync_star_eq. by apply app_ok_frame with u.
  - destruct outcome as [ack|reason|reason]; [by apply app_ok_set_state..|]. cbn [handle_action_dispatched].
    destruct (pending_action_plans u !! p) as [s|].
    + apply app_ok_removed with u p; [done|by intros t ?%elem_of_nil|by rewrite rollback_eq..].
    + rewrite app_nil_r. by apply app_ok_frame with u.
  - unfold kickoff_post_respawn_reconcile. destruct (service_client u); [|by rewrite app_nil_r].
    apply app_ok_same with u; [done| |done..]. cbn [snd]. by intros t (q & -> & _)%list_elem_of_fmap.
  - destruct result as [e|[|st blob]]; cbn [handle_job_status_resolved].
    + by rewrite app_nil_r.
    + destruct (pending_action_plans u !! p) as [s|].
      * apply app_ok_removed with u p; [done|by intros t ?%elem_of_nil|by rewrite rollback_eq..].
      * apply app_ok_same with u; [done|apply quiet_nil|done..].
    + destruct (job_active st); [by apply app_ok_set_state|by apply app_ok_completion].
  - unfold handle_notification. destruct (g =? _)%N; [|by rewrite app_nil_r].
    destruct n as [p op r|p op r|p summary|p rs]; [|by rewrite app_nil_r|by apply app_ok_completion|by rewrite app_nil_r].
    by apply app_ok_outcome.
  - intros _. by eapply completed_ok.
  - unfold handle_undo in *. destruct (undo_pop (undo_stack u)) as [[e st]|] eqn:Ep; [|by rewrite app_nil_r].
    destruct (stack_ok_pop _ _ _ (ao_stack _ _ Ho) Ep) as [Hst _].
    assert (app_ok (set_undo_stack st u) ts) as H1 by (by apply app_ok_stack).
    unfold dispatch_undo in *. set (cancel := if is_nil _ then [] else _) in *.
    destruct (inverse_plan e) as [plan|]; [|by rewrite app_nil_r].
    set (u1 := set_undo_stack st u) in *.
    pose proof (app_ok_dispatch plan (Some (entry_description e)) u1 (ts ++ cancel)) as Hd.
    destruct (dispatch_plan_with_undo new_v7 plan _ u1) as [u2 ts2]. cbn [fst snd] in *.
    rewrite app_assoc. apply Hd; [|by apply plans_fit_app in Hf as [_ Hf]].
    apply app_ok_same with u1; [done| |done..]. intros t. unfold cancel. destruct (is_nil _); [by intros ?%elem_of_nil|].
    destruct (service_client u1); [by intros ->%list_elem_of_singleton|by intros ?%elem_of_nil].
  - unfold handle_undo_completed. destruct (is_nil os); [by rewrite app_nil_r|].
    apply app_ok_same with u; [done| |done..]. cbn [snd]. by intros t [->|[->|?%elem_of_nil]%elem_of_cons]%elem_of_cons.
Qed.

Lemma reachable_ok u ts : reachable u ts → app_ok u ts.
Proof.
  induction 1 as [u Hs|u ts e a Hr IH Hm Hh Hf]; [by apply app_ok_starts|].
  eapply app_ok_update; [by apply app_ok_at_time|exact Hm|exact Hh|exact Hf].
Qed.

(** ** The gates *)

(** Dispatched less than 200 ms ago and not finished. *)
Definition held (x : str * str) u : Prop :=
  ∃ t, action_throttle u !! x = Some t ∧ (clock u - t < throttle_window)%Z.

(** On the account a plan waits for its acknowledgement to be known. *)
Definition unacknowledged (account : str) u : Prop :=
  ∃ p s, pending_action_plans u !! p = Some s ∧ pp_state s = PAckUnknown ∧ account ∈ plan_accounts (pp_plan s).

Definition gated (x : str * str) u : Prop := held x u ∨ unacknowledged x.1 u.

Lemma plan_accounts_spec plan a : a ∈ plan_accounts plan ↔ ∃ op, op ∈ plan_operations plan ∧ op.1.1 = a.
Proof.
  unfold plan_accounts, plan_targets. rewrite elem_of_list_to_set, <- list_fmap_compose, list_elem_of_fmap.
  split; intros (op & H1 & H2); exists op; naive_solver.
Qed.

Lemma retain_held x u : held x u ↔ is_Some (retain_throttle u !! x).
Proof.
  unfold held, retain_throttle. split.
  - intros (t & Et & Ht). exists t. by apply map_lookup_filter_Some.
  - intros [t [Et Ht]%map_lookup_filter_Some]. by exists t.
Qed.

Lemma not_throttled plan u op :
  throttled plan (retain_throttle u) = false → op ∈ plan_operations plan → ¬ held op.1 u.
Proof.
  unfold throttled, plan_targets. intros Ht Hin [t Et]%retain_held. apply not_true_iff_false in Ht. apply Ht.
  apply existsb_exists. exists op.1. split; [by apply list_elem_of_In, list_elem_of_fmap_2|].
  apply bool_decide_eq_true. by exists t.
Qed.

Lemma not_blocking plan u op :
  blocking plan u = false → op ∈ plan_operations plan → ¬ unacknowledged op.1.1 u.
Proof.
  intros Hb Hin (p & s & Es & Hs & (op' & Hop' & Ea)%plan_accounts_spec). apply not_true_iff_false in Hb. apply Hb.
  apply existsb_exists. exists (p, s). split; [by apply list_elem_of_In, elem_of_map_to_list|]. cbn [snd].
  rewrite bool_decide_eq_true_2 by done. apply existsb_exists. exists op'.1.
  split; [by apply list_elem_of_In, list_elem_of_fmap_2|]. apply bool_decide_eq_true, plan_accounts_spec. by exists op.
Qed.

Definition held_in (m : gmap (str * str) Z) (now : Z) (x : str * str) : Prop :=
  ∃ t, m !! x = Some t ∧ (now - t < throttle_window)%Z.

Lemma held_insert xs m now x : held_in m now x → held_in (foldl (λ m x, <[x := now]> m) m xs) now x.
Proof.
  revert m. induction xs as [|x' xs IH]; intros m Hx; [done|]. cbn [foldl]. apply IH.
  destruct (decide (x' = x)) as [->|Hne].
  - exists now. split; [by rewrite lookup_insert_eq|]. unfold throttle_window. lia.
  - destruct Hx as (t & Et & Ht). exists t. by rewrite lookup_insert_ne.
Qed.

Lemma throttle_after plan d u :
  let u' := (dispatch_account new_v7 plan d u).1 in
  clock u' = clock u ∧ ∀ x, held x u → held x u'.
Proof.
  cbn zeta. unfold dispatch_account. destruct (service_client u); [|by rewrite rollback_eq].
  assert (∀ x, held x u → held x (set_throttle (retain_throttle u) u)) as Hr.
  { intros x (t & Et & Ht). exists t. split; [|done]. simpl. by apply map_lookup_filter_Some. }
  destruct (throttled _ _); [by rewrite rollback_eq|]. destruct (blocking _ _); [by rewrite rollback_eq|].
  split; [done|]. intros x Hx%Hr.
  by apply held_insert.
Qed.

Definition keeps_gates u u' : Prop := ∀ x, gated x u → gated x u'.

Lemma gates_dispatch_account plan d u :
  (∀ p s, pending_action_plans u !! p = Some s → drawn new_v7 p u) →
  keeps_gates u (dispatch_account new_v7 plan d u).1 ∧
  ∀ op, op ∈ sent_ops (dispatch_account new_v7 plan d u).2 → ¬ gated op.1 u.
Proof.
  intros Hd. split.
  - intros x [Hh|(p & s & Es & Hs)]; [left; by apply throttle_after|right]. exists p, s. split; [|done].
    by rewrite (proj1 (dispatch_account_kept new_v7 plan d u)) by by eapply Hd.
  - destruct (dispatch_account_cases new_v7 plan d u) as [_ [(-> & _)|((-> & _) & Ht & Hb)]].
    + by intros op ?%elem_of_nil.
    + intros op. cbn [sent_ops mbind list_bind]. rewrite app_nil_r, wire_ops_plan. intros Hin [Hh|Hu].
      * by eapply not_throttled.
      * by eapply not_blocking.
Qed.

Lemma sent_ops_app ts ts' : sent_ops (ts ++ ts') = sent_ops ts ++ sent_ops ts'.
Proof. unfold sent_ops. apply bind_app. Qed.

Lemma drawn_dispatch_account plan d u :
  (∀ p s, pending_action_plans u !! p = Some s → drawn new_v7 p u) →
  let u' := (dispatch_account new_v7 plan d u).1 in
  ∀ p s, pending_action_plans u' !! p = Some s → drawn new_v7 p u'.
Proof.
  intros Hd u' p s Es. unfold u' in *.
  destruct (dispatch_account_cases new_v7 plan d u) as [_ [(_ & _ & _ & Ep & Ei)|((_ & _ & _ & Ep & Ei) & _)]]; rewrite Ep in Es.
  - destruct (Hd p s Es) as (k & Hk & ->). exists k. by rewrite Ei.
  - apply lookup_insert_Some in Es as [[<- _]|[_ Es]]; [exists (ids_drawn u); split; [lia|done]|].
    destruct (Hd p s Es) as (k & Hk & ->). exists k. split; [lia|done].
Qed.

Lemma gates_dispatch_all plans d u :
  (∀ p s, pending_action_plans u !! p = Some s → drawn new_v7 p u) →
  ∀ op, op ∈ sent_ops (dispatch_all new_v7 plans d u).2 → ¬ gated op.1 u.
Proof.
  revert u. induction plans as [|plan plans IH]; intros u Hd op; [by intros ?%elem_of_nil|].
  rewrite dispatch_all_cons. destruct (gates_dispatch_account plan d u Hd) as [Hk Hs].
  pose proof (drawn_dispatch_account plan d u Hd) as Hd'.
  destruct (dispatch_account new_v7 plan d u) as [u1 ts1]. cbn [fst snd] in *. specialize (IH u1 Hd' op).
  destruct (dispatch_all new_v7 plans d u1) as [u2 ts2]. cbn [snd]. rewrite sent_ops_app.
  intros [Hin|Hin]%elem_of_app; [by apply Hs|]. intros Hg. by apply IH, Hk.
Qed.

Lemma gates_dispatch plan d u :
  (∀ p s, pending_action_plans u !! p = Some s → drawn new_v7 p u) →
  ∀ op, op ∈ sent_ops (dispatch_plan_with_undo new_v7 plan d u).2 → ¬ gated op.1 u.
Proof.
  intros Hd op. unfold dispatch_plan_with_undo. destruct (is_nil _); [by intros ?%elem_of_nil|].
  destruct (1 <? _); [by apply gates_dispatch_all|by apply gates_dispatch_account].
Qed.

Lemma quiet_sends_nothing ts : (∀ t, t ∈ ts → quiet_task t) → sent_ops ts = [].
Proof.
  induction ts as [|t ts IH]; intros Hq; [done|]. change (t :: ts) with ([t] ++ ts). rewrite sent_ops_app, IH.
  - pose proof (Hq t (list_elem_of_here _ _)). by destruct t.
  - intros t' Ht'. by apply Hq, list_elem_of_further.
Qed.

Lemma gates_frame u u' x :
  plans_alone u u' → action_throttle u' = action_throttle u → clock u' = clock u → gated x u → gated x u'.
Proof. intros (E & _) E2 E3. unfold gated, held, unacknowledged. by rewrite E, E2, E3. Qed.

Lemma completed_quiet plan os u a :
  handle_action_completed plan os u = Some a → ∀ t, t ∈ a.2 → quiet_task t.
Proof.
  unfold handle_action_completed. destruct (forallb is_noop os); [intros [= <-]; apply quiet_nil|].
  destruct (forallb is_failed os); [intros [= <-]; apply quiet_nil|].
  destruct (push_undo plan os _) as [u3|]; [|done]. cbn [mbind option_bind]. intros [= <-].
  destruct (view_effect _); [destruct (post_success _)|apply advance_quiet]; [apply quiet_nil|]. intros t. by apply quiet_one.
Qed.

Lemma completion_sends_nothing p summary u : sent_ops (handle_notification_action_completed p summary u).2 = [].
Proof.
  unfold handle_notification_action_completed. destruct (in_flight_sends u !! p); [done|].
  by destruct (pending_action_plans u !! p).
Qed.

Lemma gates_update m u ts a :
  app_ok u ts → update new_v7 m u = Some a → ∀ op, op ∈ sent_ops a.2 → ¬ gated op.1 u.
Proof.
  intros Ho Hu. assert (∀ p s, pending_action_plans u !! p = Some s → drawn new_v7 p u) as Hd by (intros p s Es; by apply (ao_pending _ _ Ho p s Es)).
  assert (∀ xs : list target_op, xs = [] → ∀ op, op ∈ xs → ¬ gated op.1 u) as Hnone by (intros xs -> op ?%elem_of_nil; done).
  destruct m as [intent|p outcome| |p result|g n|plan os| |d os]; cbn [update] in Hu; try injection Hu as <-.
  - unfold handle_email_action in *. destruct (is_public_folder _); [by apply Hnone|].
    destruct (is_nil _); [by apply Hnone|].
    destruct (build_execution_plan _ _ _) as [[plan|] l]; [|by apply Hnone]. rewrite sync_star_eq.
    intros op Hin Hg. apply (gates_dispatch plan None) in Hin; [|exact Hd]. apply Hin. by apply (gates_frame u).
  - apply Hnone. by destruct outcome.
  - apply Hnone. unfold kickoff_post_respawn_reconcile. destruct (service_client u); [|done].
    apply quiet_sends_nothing. cbn [snd]. by intros t (q & -> & _)%list_elem_of_fmap.
  - apply Hnone. destruct result as [e|[|st blob]]; cbn [handle_job_status_resolved]; [done|by destruct (_ !! p)|].
    destruct (job_active st); [done|apply completion_sends_nothing].
  - apply Hnone. unfold handle_notification. destruct (g =? _)%N; [|done]. destruct n; try done. apply completion_sends_nothing.
  - apply Hnone, quiet_sends_nothing. by eapply completed_quiet.
  - unfold handle_undo. destruct (undo_pop _) as [[e st]|]; [|by apply Hnone]. unfold dispatch_undo.
    set (cancel := if is_nil _ then [] else _). assert (sent_ops cancel = []) as Hc.
    { unfold cancel. destruct (is_nil _); [done|]. by destruct (service_client _). }
    destruct (inverse_plan e) as [plan|]; [|by apply Hnone].
    pose proof (gates_dispatch plan (Some (entry_description e)) (set_undo_stack st u) Hd) as Hg.
    destruct (dispatch_plan_with_undo new_v7 plan _ _) as [u2 ts2]. cbn [snd] in *. rewrite sent_ops_app, Hc. exact Hg.
  - apply Hnone. unfold handle_undo_completed. by destruct (is_nil os).
Qed.
End reach.

(** ** A concrete state of the app *)

(** Identifiers are drawn one after the other. *)
Definition sample_v7 (k : nat) : PlanId := N.of_nat k.

#[export] Instance sample_v7_inj : Inj (=) (=) sample_v7.
Proof. intros k k'. apply Nat2N.inj. Qed.

Definition two_threads : list Thread :=
  [mkThread (slit "a") (slit "1") false false false false false; mkThread (slit "a") (slit "2") false false false false false].

(** The first of two threads is selected and open. *)
Definition start : ReadyApp :=
  mkApp (mkList two_threads (Some 0) ∅ None Next) (Some (mkRef (slit "a") (slit "1") false)) AllAccounts Inbox (Some 0%N) true
    ∅ ∅ ∅ default_undo_stack None 0 0 0 0.

Definition at_ms (t : Z) (m : Message) : event := mkEvent (t * 1000000) (Some 0%N) m.
Definition tell (t : Z) (n : Notification) : event := at_ms t (ServiceNotification 0 n).
Definition failure : OperationResult := RRemoteFailure (mkRemoteFailure [] None false).

Definition final (es : list event) : option ReadyApp := fst <$> run sample_v7 es start.
