(* ===== verification/ActionUiProperties.v ===== *)
(** * Properties of the app's plans in flight *)

From S2P Require Import Prelude.
From S2P Require Import Strings.
From S2P Require Import Bytes.
From S2P Require Import ActionTypes.
From S2P Require Import Journal.
From S2P Require Import Worker.
From S2P Require Import WorkerTheory.
From S2P Require Import WorkerSteps.
From S2P Require Import ActionInstances.
From S2P Require Import ActionProperties.
From S2P Require Import ActionResolve.
From S2P Require Import ActionResolveTheory.
From S2P Require Import ActionUi.
From S2P Require Import ActionUiTheory.
From S2P Require Import ActionUiDispatch.
From S2P Require Import ActionUiReach.

Implicit Types (u : ReadyApp) (p : PlanId) (plan : ActionExecutionPlan) (o : ActionOutcome).

(** ** The completion of a plan *)

Lemma Forall2_choose {A B} (R : A → B → Prop) (l : list A) :
  (∀ x, x ∈ l → ∃ y, R x y) → ∃ ys, Forall2 R l ys.
Proof.
  induction l as [|x l IH]; intros Hx; [by exists []|].
  destruct (Hx x (list_elem_of_here _ _)) as [y Hy].
  destruct IH as [ys Hys]; [intros z Hz; by apply Hx, list_elem_of_further|]. exists (y :: ys). by constructor.
Qed.

Section completion.
Context `{TableScan, serde : Serde, Providers} (new_v7 : nat → PlanId) {new_inj : Inj (=) (=) new_v7}.

(** A plan that was just sent. *)
Record just_sent p plan desc u : Prop := {
  js_pending : ∃ st, pending_action_plans u !! p = Some (mkPending plan [] st ∅ desc);
  js_not_send : in_flight_sends u !! p = None;
  js_drawn : drawn new_v7 p u;
  js_fits : (N.of_nat (length (plan_operations plan)) ≤ u32_max)%N
}.

Definition completion_message plan (desc : option str) (os : list ActionOutcome) : Message :=
  match desc with Some d => UndoCompleted d os | None => ActionCompleted plan os end.

(** Whatever the user does meanwhile, in whatever order and however often the
    outcomes of a plan arrive, the completion of the plan hands on one outcome for
    each operation, in the order of the plan: the first one received of that
    operation, or that it is missing. *)
Lemma completion_reports_outcomes p plan desc u es a summary :
  just_sent p plan desc u → run new_v7 es u = Some a → quiet_about p es →
  (∀ op r, (op, r) ∈ received p es → (op < N.of_nat (length (plan_operations plan)))%N) →
  (handle_notification_action_completed p summary a.1).2 =
    [Done (completion_message plan desc (outcome_of (received p es) <$> ordinals (length (plan_operations plan))))].
Proof.
  intros [[st Es] Hs Hd Hn] Hr Hq Hb.
  destruct (track_run new_v7 p es u _ a Hr Hq Hd Hs Es) as ([st' Es'] & Hs' & _).
  destruct (absorbed_spec (received p es) (mkPending plan [] st ∅ desc)) as (_ & _ & _ & Hp & Hdesc).
  { split; [constructor|]. intros i. simpl. by split; [intros ?%not_elem_of_empty|intros ?%elem_of_nil]. }
  rewrite (completion_spec p summary a.1 _ (received p es) Hs' Es').
  - cbn [pp_plan with_state pp_undo_description]. by rewrite Hp, Hdesc.
  - by eexists _, _.
  - cbn [pp_plan with_state]. by rewrite Hp.
  - cbn [pp_plan with_state]. rewrite Hp. intros [op r] He. by apply (Hb op r).
Qed.

Lemma outcome_of_agree rs i r :
  (i, r) ∈ rs → (∀ r', (i, r') ∈ rs → r' = r) → outcome_of rs i = wire_outcome_to_action_outcome r.
Proof.
  unfold outcome_of. induction rs as [|[j r1] rs IH]; intros Hi Ha; [by apply elem_of_nil in Hi|].
  unfold value_of. rewrite fmap_cons. cbn [List.find outcome_entry fst]. destruct (bool_decide (j = i)) eqn:E.
  - apply bool_decide_eq_true in E as ->. cbn. by rewrite (Ha r1) by apply list_elem_of_here.
  - apply bool_decide_eq_false in E. apply elem_of_cons in Hi as [[= -> ->]|Hi]; [done|].
    apply IH; [done|]. intros r' Hr'. apply Ha. by apply list_elem_of_further.
Qed.

(** C6. End to end.  When the service, over any deaths and restarts, sends the
    completion of a plan, and the app receives what it sent of that plan (in any
    order, any number of times, among anything else), then what the app hands on
    as the outcomes of the operations is what the journal records of them. *)
Theorem app_is_told_the_journal ls now ts files p pre s post j plan desc u es a :
  let w := lives ls (first_world now ts files) in
  sched_ok true ts → sent w = pre ++ NActionCompleted p s :: post →
  jobs (db w) !! p = Some j → kind j = kind_mail_plan → quiet j = false →
  (∀ n, is_Some (ops (db w) !! (p, n)) ↔ (n < N.of_nat (length (plan_operations plan)))%N) →
  just_sent p plan desc u → run new_v7 es u = Some a → quiet_about p es →
  (∀ n r, (n, r) ∈ received p es ↔ NOperationOutcome p n r ∈ pre) →
  ∃ rs : list OperationResult,
    length rs = length (plan_operations plan) ∧
    (∀ i r, rs !! i = Some r → ∃ row, ops (db w) !! (p, N.of_nat i) = Some row ∧ outcome row = Some (result_to_vec r)) ∧
    (handle_notification_action_completed p s a.1).2 =
      [Done (completion_message plan desc (wire_outcome_to_action_outcome <$> rs))].
Proof.
  intros w Hs E Ej Hk Hq Hops Hj Hr Hqa Hrec. pose proof (lives_first now ts files ls Hs) as Hi. fold w in Hi.
  destruct (in_complete _ _ _ Hi pre p s post E) as (j' & Ej' & Hc). rewrite Ej in Ej'. injection Ej' as <-.
  destruct (Hc Hk) as (_ & _ & _ & _ & Hrep). specialize (Hrep Hq).
  assert (∀ n r, NOperationOutcome p n r ∈ pre → ∃ row, ops (db w) !! (p, n) = Some row ∧ outcome row = Some (result_to_vec r)) as Ht.
  { intros n r Hin. apply (in_truthful _ _ _ Hi). rewrite E. apply elem_of_app. by left. }
  set (n := length (plan_operations plan)) in *.
  assert (∀ i, i ∈ seq 0 n → ∃ r, NOperationOutcome p (N.of_nat i) r ∈ pre) as Hall.
  { intros i [_ Hlt]%elem_of_seq. destruct (proj2 (Hops (N.of_nat i)) ltac:(lia)) as [row Er].
    destruct (Hrep _ _ Er) as (r & _ & Hin). by exists r. }
  destruct (Forall2_choose _ _ Hall) as [rs Hf]. exists rs.
  pose proof (Forall2_length _ _ _ Hf) as Hlen. rewrite length_seq in Hlen.
  assert (∀ i r, rs !! i = Some r → NOperationOutcome p (N.of_nat i) r ∈ pre) as Hrs.
  { intros i r Er. destruct (Forall2_lookup_r _ _ _ _ _ Hf Er) as (x & Ex & Hx).
    apply lookup_seq in Ex as [-> _]. done. }
  split; [done|]. split; [intros i r Er; by apply Ht, Hrs|].
  rewrite (completion_reports_outcomes p plan desc u es a s Hj Hr Hqa).
  - fold n. assert (outcome_of (received p es) <$> ordinals n = wire_outcome_to_action_outcome <$> rs) as ->; [|done].
    apply list_eq. intros i. unfold ordinals. rewrite !list_lookup_fmap.
    destruct (rs !! i) as [r|] eqn:Er.
    + rewrite lookup_seq_lt by (apply lookup_lt_Some in Er; lia). cbn. f_equal.
      apply outcome_of_agree; [by apply Hrec, Hrs|]. intros r' Hr'%Hrec%Ht. destruct Hr' as (row & E1 & E2).
      destruct (Ht _ _ (Hrs _ _ Er)) as (row' & E3 & E4). apply result_to_vec_inj. congruence.
    + rewrite lookup_seq_ge; [done|]. apply lookup_ge_None in Er. lia.
  - intros op r He%Hrec. apply Hops. destruct (Ht _ _ He) as (row & Er & _). by exists row.
Qed.
End completion.

(** ** The app at every instant *)

Section app.
Context {serde : Serde} (new_v7 : nat → PlanId) {new_inj : Inj (=) (=) new_v7}.

(** C7. Whatever the user does and however the answers and notifications of the
    service interleave, the app never panics on a message that can come; what it
    hands on when a plan completes has one outcome for each operation; and the
    undo stack keeps at most 20 entries, each with something to undo. *)
Theorem app_never_panics u ts :
  reachable new_v7 u ts →
  (∀ e, may_come ts (ev_message e) → is_Some (handle new_v7 e u)) ∧
  (∀ plan os, Done (ActionCompleted plan os) ∈ ts → length os = length (plan_operations plan)) ∧
  length (entries (undo_stack u)) ≤ 20 ∧ Forall (λ e, is_Some (inverse_plan e)) (entries (undo_stack u)).
Proof.
  intros Hr. pose proof (reachable_ok new_v7 u ts Hr) as Ho. destruct (ao_stack _ _ _ Ho) as (H1 & _ & H3). split_and!; [|..|done|].
  - intros e Hm. unfold handle. destruct (ev_message e) as [| | | | |plan os| |]; try by eexists.
    cbn [update may_come] in *. apply (ao_done _ _ _ Ho) in Hm as [Hm _].
    unfold handle_action_completed, push_undo. destruct (forallb _ _); [by eexists|]. destruct (forallb _ _); [by eexists|].
    destruct (undo_payloads_total plan os Hm) as [ps ->]. by destruct (undo (behavior plan)).
  - intros plan os Hin. by apply (ao_done _ _ _ Ho).
  - eapply Forall_impl; [exact H3|]. apply entry_has_plan.
Qed.

(** No message makes the app ask for an operation on a thread that was
    dispatched less than 200 ms ago and has not finished, nor on an account where
    it is not known whether the service has an earlier plan. *)
Theorem gates_hold u ts e a op :
  reachable new_v7 u ts → handle new_v7 e u = Some a → op ∈ sent_ops a.2 →
  let now := at_time (ev_clock e) (ev_client e) u in
  ¬ held op.1 now ∧ ¬ unacknowledged op.1.1 now.
Proof.
  intros Hr Hh Hin now. pose proof (reachable_ok new_v7 u ts Hr) as Ho.
  pose proof (gates_update new_v7 _ _ ts a (app_ok_at_time _ _ _ _ _ Ho) Hh op Hin) as Hg.
  split; intros H; apply Hg; [by left|by right].
Qed.

(** A command on the selected threads: each operation of its plan is sent
    exactly once or refused; and the list shows the flipped flag of the threads
    whose operation was sent, and is unchanged for all others, although the plan
    is split by account and each part is refused for its own reasons. *)
Theorem shown_is_what_is_sent intent u :
  NoDup (selected_targets u) → is_public_folder (selected_scope u) = false → selected_targets u ≠ [] →
  let oc := resolve_intent intent (selection u) in
  let a := handle_email_action new_v7 intent u in
  ∃ sent refused, sent ++ refused ≡ₚ present oc (threads_of u) (selected_targets u) ∧
    sent_ops a.2 = omap (expected_op oc (threads_of u)) sent ∧
    ∀ account i, find_thread account i (threads_of a.1) =
      (if decide ((account, i) ∈ sent) then change oc else id) <$> find_thread account i (threads_of u).
Proof.
  intros Hn Hp Hne oc a. unfold a, handle_email_action. rewrite Hp. destruct (is_nil _) eqn:En; [by apply is_nil_spec in En|].
  fold oc. destruct (build_execution_plan oc (selected_targets u) (threads_of u)) as [[plan|] l] eqn:Eb.
  2: { exists [], []. destruct oc as [| |]; [done|by cbn in Eb; destruct (toggle_threads _ _ _) as [[]]|]. split_and!; [|done|].
       - unfold present. cbn [expected_op]. clear. induction (selected_targets u) as [|x xs IH]; [done|].
         rewrite filter_cons, decide_False by (by intros []). exact IH.
       - intros account i. by destruct (find_thread _ _ _). }
  destruct (build_plan_on oc _ _ _ _ Hn Eb) as (b & c & -> & Hs). rewrite sync_star_eq.
  set (u1 := set_current _ _).
  destruct (dispatch_plan_parts new_v7 oc (threads_of u) b c None (selected_targets u) u1 _ Hs) as (sent & unsent & Hperm & Ho & Hs').
  exists sent, unsent. split_and!; [done..|]. intros account i. rewrite Hs'.
  destruct (find_thread account i (threads_of u)) as [t|] eqn:E; [|by repeat case_decide].
  unfold change. destruct oc as [op comp|f comp|] eqn:Eoc; [by repeat case_decide| |by repeat case_decide].
  assert (NoDup (sent ++ unsent)) as (_ & Hdisj & _)%NoDup_app by (rewrite Hperm; by apply NoDup_filter).
  assert ((account, i) ∈ selected_targets u ↔ (account, i) ∈ sent ++ unsent) as Hin.
  { rewrite Hperm. unfold present. rewrite list_elem_of_filter. cbn [expected_op]. unfold op_on. cbn [fst snd]. rewrite E.
    split; [intros Hin; split; [by eexists|done]|by intros [_ Hin]]. }
  rewrite elem_of_app in Hin. specialize (Hdisj (account, i)).
  repeat case_decide; set_solver.
Qed.
End app.

(** ** Witnesses *)

(** The plan of [sample_schedule], just sent. *)
Definition two_ops : ActionExecutionPlan :=
  mkPlan [([97%N], slit "1", Archive); ([97%N], slit "2", Trash)] (completion_behavior Archive) CompNone [].
Definition after_request : ReadyApp :=
  mkApp (thread_list start) None AllAccounts Inbox (Some 0%N) true ∅ {[ 7%N := mkPending two_ops [] Pending ∅ None ]} ∅
    default_undo_stack None 0 0 8 0.

(** Its request arrives, the process dies while it works, the next one finishes. *)
Definition two_ops_schedule : list tick :=
  Tick [PlanArrives MailPlan 7 [97%N] false
          [mkOpInsert 0 0 (slit "1") (op_to_vec WArchive); mkOpInsert 1 1 (slit "2") (op_to_vec WTrash)]] 100 Healthy ::
  replicate 8 (Tick [] 101 Healthy) ++ [Tick [] 102 Death; Tick [] 103 Healthy].

Lemma two_ops_schedule_ok : sched_ok true two_ops_schedule.
Proof.
  constructor; [split; [|by left]; constructor; [done|constructor]|]. apply Forall_app. split.
  - repeat (constructor; [split; [constructor|by left]|]). constructor.
  - constructor; [split; [constructor|by right]|]. constructor; [split; [constructor|by left]|constructor].
Qed.

Definition two_lives : list (nat * N) := [(1, 5%N); (1, 6%N)].
Definition sample_last : world := lives two_lives (first_world 100 two_ops_schedule ∅).

Definition sent_before : list Notification :=
  [NOperationOutcome 7 0 RSuccess; NOperationOutcome 7 0 RSuccess; NOperationOutcome 7 1 RSuccess].
Definition last_summary : PlanSummary := mkPlanSummary 2 0 2 0 0.

(** They arrive in another order, while the user marks a thread as read. *)
Definition sample_events : list event :=
  [tell 1 (NOperationOutcome 7 1 RSuccess); at_ms 2 (EmailAction IToggleRead);
   tell 3 (NOperationOutcome 7 0 RSuccess); tell 4 (NOperationOutcome 7 0 RSuccess)].
Definition after_events : answer := default (start, []) (run sample_v7 sample_events after_request).

Lemma app_is_told_the_journal_witness :
  sched_ok true two_ops_schedule ∧
  ∃ rs : list OperationResult, length rs = 2 ∧
    (handle_notification_action_completed 7 last_summary after_events.1).2 =
      [Done (ActionCompleted two_ops (wire_outcome_to_action_outcome <$> rs))].
Proof.
  split; [exact two_ops_schedule_ok|].
  assert (∃ j, jobs (db sample_last) !! 7%N = Some j ∧ kind j = kind_mail_plan ∧ quiet j = false) as (j & Ej & Hk & Hq).
  { destruct (jobs (db sample_last) !! 7%N) as [j|] eqn:E; [|by vm_compute in E].
    exists j. vm_compute in E. injection E as <-. split; [reflexivity|split; reflexivity]. }
  assert (∀ n, is_Some (ops (db sample_last) !! (7%N, n)) ↔ (n < N.of_nat (length (plan_operations two_ops)))%N) as Hops.
  { intros n. split.
    - intros [o Eo]. apply elem_of_map_to_list in Eo.
      assert (∀ e, e ∈ map_to_list (ops (db sample_last)) → (e.1.2 < 2)%N) as Hall.
      { apply Forall_forall. apply (bool_decide_unpack _). vm_compute. exact I. }
      apply (Hall _ Eo).
    - intros Hn. change (N.of_nat (length (plan_operations two_ops))) with 2%N in Hn.
      assert (n = 0 ∨ n = 1)%N as [-> | ->] by lia; apply (bool_decide_unpack _); vm_compute; exact I. }
  assert (just_sent sample_v7 7 two_ops None after_request) as Hj.
  { constructor; [exists Pending; vm_compute; reflexivity|reflexivity|exists 7; split; [simpl; lia|reflexivity]|vm_compute; discriminate]. }
  assert (∀ n r, (n, r) ∈ received 7 sample_events ↔ NOperationOutcome 7 n r ∈ sent_before) as Hrec.
  { assert (received 7 sample_events = [(1, RSuccess); (0, RSuccess); (0, RSuccess)]%N) as -> by (vm_compute; reflexivity).
    intros n r. unfold sent_before. rewrite !list_elem_of_In. simpl. split.
    - intros [E|[E|[E|[]]]]; injection E as <- <-; auto.
    - intros [E|[E|[E|[]]]]; injection E as <- <-; auto. }
  assert (quiet_about 7 sample_events) as Hqa.
  { unfold quiet_about. apply Forall_forall. vm_compute. repeat constructor. }
  assert (sent sample_last = sent_before ++ NActionCompleted 7 last_summary :: []) as Es by (vm_compute; reflexivity).
  assert (run sample_v7 sample_events after_request = Some after_events) as Er by (vm_compute; reflexivity).
  pose proof (app_is_told_the_journal sample_v7 two_lives 100 two_ops_schedule ∅ 7 sent_before last_summary [] j two_ops None
    after_request sample_events after_events) as Ht. cbv zeta in Ht. fold sample_last in Ht.
  destruct (Ht two_ops_schedule_ok Es Ej Hk Hq Hops Hj Er Hqa Hrec) as (rs & Hl & _ & Hd).
  exists rs. split; [exact Hl|exact Hd].
Defined.

(** The user sets a star; the app then waits for an answer. *)
Definition starred : answer := default (start, []) (handle sample_v7 (at_ms 0 (EmailAction IToggleStar)) start).

Lemma starred_reachable : reachable sample_v7 starred.1 ([] ++ starred.2).
Proof.
  apply (reach_step sample_v7 start [] (at_ms 0 (EmailAction IToggleStar)) starred).
  - apply reach_start. split_and!; reflexivity.
  - exact I.
  - vm_compute. reflexivity.
  - assert (starred.2 = [ExecutePlan 0 (mkWirePlan 0 [mkWireOperation 0 (slit "a") (slit "1") (WSetStarred true)])]) as ->
      by (vm_compute; reflexivity).
    intros p w Hin%list_elem_of_singleton. injection Hin as -> ->. vm_compute. discriminate.
Defined.

Lemma app_never_panics_witness :
  is_Some (handle sample_v7 (at_ms 1 Undo) starred.1) ∧ length (entries (undo_stack starred.1)) ≤ 20.
Proof.
  destruct (app_never_panics sample_v7 _ _ starred_reachable) as (H1 & _ & H2 & _).
  split; [exact (H1 (at_ms 1 Undo) I)|exact H2].
Defined.

(** A third of a second later the star may be cleared. *)
Lemma gates_hold_witness :
  let a := default (start, []) (handle sample_v7 (at_ms 300 (EmailAction IToggleStar)) starred.1) in
  sent_ops a.2 = [(slit "a", slit "1", SetStarred false)] ∧ held (slit "a", slit "1") starred.1 ∧
  ¬ held (slit "a", slit "1") (at_time 300000000 (Some 0%N) starred.1).
Proof.
  intros a. split; [vm_compute; reflexivity|]. split; [exists 0%Z; split; [vm_compute; reflexivity|reflexivity]|].
  exact (proj1 (gates_hold sample_v7 _ _ (at_ms 300 (EmailAction IToggleStar)) a (slit "a", slit "1", SetStarred false)
    starred_reachable ltac:(vm_compute; reflexivity) ltac:(vm_compute; apply list_elem_of_here))).
Defined.

Lemma shown_is_what_is_sent_witness :
  NoDup (selected_targets start) ∧
  ∃ sent refused, sent ++ refused ≡ₚ present (resolve_intent IToggleStar Inbox) two_threads (selected_targets start) ∧
    sent_ops (handle_email_action sample_v7 IToggleStar start).2 =
      omap (expected_op (resolve_intent IToggleStar Inbox) two_threads) sent.
Proof.
  assert (NoDup (selected_targets start)) as Hn by (apply (bool_decide_unpack _); vm_compute; exact I).
  split; [exact Hn|].
  destruct (shown_is_what_is_sent sample_v7 IToggleStar start Hn eq_refl ltac:(vm_compute; discriminate))
    as (sent & refused & H1 & H2 & _).
  exists sent, refused. split; [exact H1|exact H2].
Defined.

(** ** The app's side of actions: where it does not do what it means to

    Runs of the app on two threads of one account. *)

(** The plan that a request was made for. *)
Definition star_plan (to : bool) : ActionExecutionPlan :=
  mkPlan [(slit "a", slit "1", SetStarred to)] (completion_behavior (SetStarred true)) CompNone
    [OSetStarred (slit "a") (slit "1") (negb to)].

(** The star is set and, half a second later, cleared again; the service does
    neither.  The second rollback brings back the star that the first one took
    away: the list shows a star that was never set. *)
Lemma rollbacks_cross :
  (threads_of <$> final
    [at_ms 0 (EmailAction IToggleStar); at_ms 500 (EmailAction IToggleStar);
     tell 900 (NOperationOutcome 0 0 failure); tell 900 (NActionCompleted 0 empty_summary);
     at_ms 900 (ActionCompleted (star_plan true) [Failed (Remote Permanent [])]);
     tell 901 (NOperationOutcome 1 0 failure); tell 901 (NActionCompleted 1 empty_summary);
     at_ms 901 (ActionCompleted (star_plan false) [Failed (Remote Permanent [])])]) ≫= find_thread (slit "a") (slit "1") =
  Some (mkThread (slit "a") (slit "1") true false false false false).
Proof. vm_compute. reflexivity. Qed.

Definition archive_plan : ActionExecutionPlan :=
  mkPlan [(slit "a", slit "1", Archive)] (completion_behavior Archive) CompNone [].

(** After a thread was archived, the thread list still has it, and advancing to the
    next thread selects and opens the archived one again. *)
Lemma archived_thread_stays :
  (λ u, (threads_of u, selected_thread (thread_list u), current_thread u)) <$> final
    [at_ms 0 (EmailAction IArchive); tell 300 (NOperationOutcome 0 0 RSuccess); tell 300 (NActionCompleted 0 empty_summary);
     at_ms 300 (ActionCompleted archive_plan [Success])] =
  Some (two_threads, Some 0, Some (mkRef (slit "a") (slit "1") false)).
Proof. vm_compute. reflexivity. Qed.

(** While it is not known whether an earlier plan was journaled, the undo of a
    finished action is refused, and its entry is gone. *)
Lemma undo_is_lost :
  (λ a, (entries (undo_stack a.1), confirmation a.1, a.2)) <$> run sample_v7
    [at_ms 0 (EmailAction IArchive); tell 300 (NOperationOutcome 0 0 RSuccess); tell 300 (NActionCompleted 0 empty_summary);
     at_ms 300 (ActionCompleted archive_plan [Success]);
     at_ms 400 (EmailAction IToggleRead); at_ms 450 (ActionDispatched 1 (classify_dispatch (inl Timeout)));
     at_ms 5000 Undo] start =
  Some ([], Some (warning_sign ++ slit "Action deferred" ++ em_dash ++ slit "reconciling previous action"),
    [ExecutePlan 0 (to_wire_plan 0 archive_plan);
     Done (ActionCompleted archive_plan [Success]); LoadThreadDetail (slit "a") (slit "1") 2;
     ExecutePlan 1 (mkWirePlan 1 [mkWireOperation 0 (slit "a") (slit "1") (WSetRead true)]);
     CancelForResources [(slit "a", slit "1", slit "archive")]]).
Proof. vm_compute. reflexivity. Qed.

(** The service finished a plan with a failure, and died before it told the app.
    After the restart the app learns that the job failed, and takes the operation
    for one that was done locally: the list keeps the star, the toast says that the
    star was toggled, and an entry to undo it is pushed. *)
Lemma failed_job_taken_for_done :
  (λ u, (find_thread (slit "a") (slit "1") (threads_of u), confirmation u, length (entries (undo_stack u)))) <$> final
    [at_ms 0 (EmailAction IToggleStar); at_ms 10 (ActionDispatched 0 (Acked (mkAck 0 true)));
     at_ms 3000 ServiceBootReady; at_ms 3010 (JobStatusResolved 0 (inr (Journaled JobFailed None)));
     at_ms 3010 (ActionCompleted (star_plan true) [missing_outcome])] =
  Some (Some (mkThread (slit "a") (slit "1") true false false false false),
        Some (warning_sign ++ slit "Star toggled locally" ++ em_dash ++ slit "sync may revert this"), 1).
Proof. vm_compute. reflexivity. Qed.

(** The command to unsubscribe tells the user that it was done; nothing is sent and
    nothing else changes. *)
Lemma unsubscribe_only_says_so u :
  is_public_folder (selected_scope u) = false → selected_targets u ≠ [] →
  handle_email_action sample_v7 IUnsubscribe u = (show_confirmation (slit "Unsubscribed") u, []).
Proof. intros Hp Hn. unfold handle_email_action. rewrite Hp. by destruct (selected_targets u). Qed.
