(* ===== verification/Civil.v ===== *)
(** * Civil: dates, times and time zones as the calendar code sees them

    The calendar code computes with the crate jiff.  [Jiff] is what it calls:
    civil dates and times, spans of days, time zones.  [JiffLaws] states the
    documented behaviour of these functions against the proleptic Gregorian
    calendar, which is defined here by counting days.  Times have seconds: the
    code never makes a finer one.  A panic is [None]. *)

From S2P Require Import Prelude.
From S2P Require Import Strings.
From S2P Require Import Bytes.

Local Open Scope Z_scope.

(** ** Civil dates *)

Inductive Weekday := Monday | Tuesday | Wednesday | Thursday | Friday | Saturday | Sunday.

#[export] Instance weekday_eq_dec : EqDecision Weekday.
Proof. solve_decision. Defined.

Definition to_monday_zero_offset (w : Weekday) : Z :=
  match w with
  | Monday => 0 | Tuesday => 1 | Wednesday => 2 | Thursday => 3
  | Friday => 4 | Saturday => 5 | Sunday => 6
  end.

Record Date := mkDate { year : Z; month : Z; day : Z }.
Record Time := mkTime { hour : Z; minute : Z; second : Z }.
Record DateTime := mkDateTime { date : Date; time : Time }.

#[export] Instance date_eq_dec : EqDecision Date.
Proof. solve_decision. Defined.
#[export] Instance time_eq_dec : EqDecision Time.
Proof. solve_decision. Defined.
#[export] Instance datetime_eq_dec : EqDecision DateTime.
Proof. solve_decision. Defined.

(** The Gregorian calendar, extended to all years. *)
Definition leap_year (y : Z) : bool :=
  ((y mod 4 =? 0) && negb (y mod 100 =? 0)) || (y mod 400 =? 0).

Definition month_length (y m : Z) : Z :=
  if m =? 2 then if leap_year y then 29 else 28
  else if (m =? 4) || (m =? 6) || (m =? 9) || (m =? 11) then 30 else 31.

Definition valid_date (d : Date) : Prop :=
  -9999 ≤ year d ≤ 9999 ∧ 1 ≤ month d ≤ 12 ∧ 1 ≤ day d ≤ month_length (year d) (month d).

Definition valid_time (t : Time) : Prop :=
  0 ≤ hour t ≤ 23 ∧ 0 ≤ minute t ≤ 59 ∧ 0 ≤ second t ≤ 59.

Definition valid_datetime (dt : DateTime) : Prop := valid_date (date dt) ∧ valid_time (time dt).

#[export] Instance valid_date_dec d : Decision (valid_date d).
Proof. unfold valid_date. apply _. Defined.
#[export] Instance valid_time_dec t : Decision (valid_time t).
Proof. unfold valid_time. apply _. Defined.
#[export] Instance valid_datetime_dec dt : Decision (valid_datetime dt).
Proof. unfold valid_datetime. apply _. Defined.

(** Days from 0001-01-01 to the first day of a year, and from the first day of
    the year to the first day of a month. *)
Definition days_before_year (y : Z) : Z :=
  365 * (y - 1) + (y - 1) / 4 - (y - 1) / 100 + (y - 1) / 400.

Definition days_before_month (y m : Z) : Z :=
  let after_february := if leap_year y then 60 else 59 in
  if m =? 1 then 0 else if m =? 2 then 31 else if m =? 3 then after_february
  else if m =? 4 then after_february + 31 else if m =? 5 then after_february + 61
  else if m =? 6 then after_february + 92 else if m =? 7 then after_february + 122
  else if m =? 8 then after_february + 153 else if m =? 9 then after_february + 184
  else if m =? 10 then after_february + 214 else if m =? 11 then after_february + 245
  else if m =? 12 then after_february + 275 else after_february + 306.

(** Days since 1970-01-01. *)
Definition epoch_day (d : Date) : Z :=
  days_before_year (year d) + days_before_month (year d) (month d) + (day d - 1) - 719162.

(** 1970-01-01 was a Thursday. *)
Definition weekday_of (n : Z) : Weekday :=
  let r := (n + 3) mod 7 in
  if r =? 0 then Monday else if r =? 1 then Tuesday else if r =? 2 then Wednesday
  else if r =? 3 then Thursday else if r =? 4 then Friday else if r =? 5 then Saturday
  else Sunday.

Definition time_seconds (t : Time) : Z := hour t * 3600 + minute t * 60 + second t.

(** A civil time on the line of seconds. *)
Definition civil_seconds (dt : DateTime) : Z := epoch_day (date dt) * 86400 + time_seconds (time dt).

(** ** The crate jiff *)

Class Jiff := {
  TimeZone : Type;
  (** [TimeZone::get], [TimeZone::system], [TimeZone::UTC] *)
  tz_get : str → option TimeZone;
  tz_system : TimeZone;
  tz_utc : TimeZone;
  iana_name : TimeZone → option str;
  (** [Timestamp::from_second(t).ok()] with [to_zoned(zone).datetime()] *)
  to_datetime : TimeZone → Z → option DateTime;
  (** [zone.to_zoned(dt).ok()] with [timestamp().as_second()] *)
  to_timestamp : TimeZone → DateTime → option Z;
  (** [civil::Date::new], [Date::at] (panics), [Date::weekday] *)
  date_new : Z → Z → Z → option Date;
  date_at : Date → Z → Z → Z → option DateTime;
  weekday : Date → Weekday;
  (** [Span::new().days(n)] (panics); a span is its number of days *)
  span_days : Z → option Z;
  (** [Date::checked_add], [DateTime::checked_add] with a span and with a signed
      duration in seconds *)
  date_add_days : Date → Z → option Date;
  datetime_add_days : DateTime → Z → option DateTime;
  datetime_add_secs : DateTime → Z → option DateTime;
  (** [(a - b).get_days()] of dates, [a.duration_since(b)] of date-times *)
  days_since : Date → Date → Z;
  duration_since : DateTime → DateTime → Z;
  (** [strftime] with %Y%m%d and with %Y%m%dT%H%M%S *)
  strftime_date : DateTime → str;
  strftime_datetime : DateTime → str
}.

(** The largest number of days of a span. *)
Definition SPAN_MAX_DAYS : Z := 7304484.

(** What jiff documents of these functions, for the values the code has. *)
Class JiffLaws (J : Jiff) := {
  to_datetime_valid z t dt : to_datetime z t = Some dt → valid_datetime dt;
  date_new_spec y m n d :
    date_new y m n = Some d ↔ d = mkDate y m n ∧ valid_date (mkDate y m n);
  date_at_spec d h m s dt :
    date_at d h m s = Some dt ↔
    dt = mkDateTime d (mkTime h m s) ∧ valid_time (mkTime h m s);
  weekday_spec d : valid_date d → weekday d = weekday_of (epoch_day d);
  span_days_spec n k : span_days n = Some k ↔ k = n ∧ Z.abs n ≤ SPAN_MAX_DAYS;
  date_add_days_spec d n d' : valid_date d →
    (date_add_days d n = Some d' ↔ valid_date d' ∧ epoch_day d' = epoch_day d + n);
  datetime_add_days_spec dt n : valid_datetime dt →
    datetime_add_days dt n = (λ d, mkDateTime d (time dt)) <$> date_add_days (date dt) n;
  datetime_add_secs_spec dt n dt' : valid_datetime dt →
    (datetime_add_secs dt n = Some dt' ↔
     valid_datetime dt' ∧ civil_seconds dt' = civil_seconds dt + n);
  days_since_spec d d' : valid_date d → valid_date d' →
    days_since d d' = epoch_day d - epoch_day d';
  duration_since_spec dt dt' : valid_datetime dt → valid_datetime dt' →
    duration_since dt dt' = civil_seconds dt - civil_seconds dt'
}.

(** ** Machine integers *)

Definition i64_max : Z := 9223372036854775807.
Definition i64_min : Z := -9223372036854775808.

(** The result of [+], [-] and [*] on [i64] in a release build. *)
Definition wrap_i64 (n : Z) : Z := (n + 2 ^ 63) mod 2 ^ 64 - 2 ^ 63.

Lemma wrap_i64_id n : i64_min ≤ n ≤ i64_max → wrap_i64 n = n.
Proof. unfold wrap_i64, i64_min, i64_max. intros H. rewrite Z.mod_small; lia. Qed.

(** [str::parse] to a signed integer between [- max - 1] and [max] *)
Definition parse_signed (max : N) (s : str) : option Z :=
  match s with
  | c :: r =>
      if (c =? 45)%N then
        if is_nil r then None else (λ n, - Z.of_N n) <$> parse_digits (max + 1) 0 r
      else Z.of_N <$> parse_unsigned max s
  | [] => None
  end.

Definition i8_max : N := 127.
Definition i32_max : N := 2147483647.

(** ** Lemmas on the calendar *)

Lemma weekday_of_offset n : to_monday_zero_offset (weekday_of n) = (n + 3) mod 7.
Proof.
  unfold weekday_of. pose proof (Z.mod_pos_bound (n + 3) 7 ltac:(lia)) as H.
  generalize dependent ((n + 3) mod 7). intros r Hr.
  assert (r = 0 ∨ r = 1 ∨ r = 2 ∨ r = 3 ∨ r = 4 ∨ r = 5 ∨ r = 6) as E by lia.
  by destruct_or! E; subst.
Qed.

Lemma to_monday_zero_offset_inj w w' : to_monday_zero_offset w = to_monday_zero_offset w' → w = w'.
Proof. by destruct w, w'. Qed.

Lemma to_monday_zero_offset_range w : 0 ≤ to_monday_zero_offset w ≤ 6.
Proof. destruct w; simpl; lia. Qed.

Lemma weekday_of_eq n w : weekday_of n = w ↔ (n + 3) mod 7 = to_monday_zero_offset w.
Proof.
  rewrite <- weekday_of_offset. split; [by intros ->|apply to_monday_zero_offset_inj].
Qed.

Lemma month_length_range y m : 28 ≤ month_length y m ≤ 31.
Proof. unfold month_length. repeat case_match; lia. Qed.

Lemma leap_year_step y :
  days_before_year (y + 1) = days_before_year y + if leap_year y then 366 else 365.
Proof.
  unfold days_before_year, leap_year. replace (y + 1 - 1) with y by lia.
  destruct (Z.eqb_spec (y mod 4) 0), (Z.eqb_spec (y mod 100) 0), (Z.eqb_spec (y mod 400) 0);
    cbn [andb orb negb]; Z.div_mod_to_equations; lia.
Qed.

Lemma days_before_month_step y m : 1 ≤ m ≤ 12 →
  days_before_month y (m + 1) = days_before_month y m + month_length y m.
Proof.
  intros Hm. assert (∃ k, m = Z.of_nat k ∧ (k ∈ seq 1 12)%nat) as (k & -> & Hk).
  { exists (Z.to_nat m). split; [lia|]. apply elem_of_seq. lia. }
  unfold days_before_month, month_length. destruct (leap_year y);
  rewrite list_elem_of_In in Hk; cbn in Hk; intuition subst; reflexivity.
Qed.

Lemma days_before_month_range y m : 1 ≤ m ≤ 12 →
  0 ≤ days_before_month y m ∧ days_before_month y m + month_length y m ≤ if leap_year y then 366 else 365.
Proof.
  intros Hm. assert (∃ k, m = Z.of_nat k ∧ (k ∈ seq 1 12)%nat) as (k & -> & Hk).
  { exists (Z.to_nat m). split; [lia|]. apply elem_of_seq. lia. }
  unfold days_before_month, month_length. destruct (leap_year y);
  rewrite list_elem_of_In in Hk; cbn in Hk; destruct_or! Hk; try done; subst k; split; by vm_compute.
Qed.

Lemma days_before_year_mono y y' : y ≤ y' → days_before_year y ≤ days_before_year y'.
Proof.
  intros [H| ->]%Z.le_lteq; [|done]. unfold days_before_year. Z.div_mod_to_equations. lia.
Qed.

Lemma days_before_month_mono y m m' : 1 ≤ m → m < m' → m' ≤ 12 →
  days_before_month y m + month_length y m ≤ days_before_month y m'.
Proof.
  intros H1 Hm H12. assert (∃ k, m' = m + 1 + Z.of_nat k) as [k ->].
  { exists (Z.to_nat (m' - m - 1)). lia. }
  clear Hm. induction k as [|k IH]; [rewrite Z.add_0_r, days_before_month_step; lia|].
  replace (m + 1 + Z.of_nat (S k)) with (m + 1 + Z.of_nat k + 1) by lia.
  rewrite (days_before_month_step y (m + 1 + Z.of_nat k)) by lia.
  pose proof (month_length_range y (m + 1 + Z.of_nat k)). specialize (IH ltac:(lia)). lia.
Qed.

(** The dates are in the order of year, month and day. *)
Definition date_lt (d d' : Date) : Prop :=
  year d < year d' ∨ year d = year d' ∧ (month d < month d' ∨ month d = month d' ∧ day d < day d').

Lemma epoch_day_lt d d' : valid_date d → valid_date d' → date_lt d d' → epoch_day d < epoch_day d'.
Proof.
  intros (_ & Hm & Hd) (_ & Hm' & Hd') H. unfold epoch_day.
  pose proof (days_before_month_range (year d) (month d) Hm).
  pose proof (days_before_month_range (year d') (month d') Hm').
  destruct H as [H|[Ey H]].
  - pose proof (leap_year_step (year d)). pose proof (days_before_year_mono (year d + 1) (year d') ltac:(lia)).
    lia.
  - rewrite Ey in *. destruct H as [H|[Em H]].
    + pose proof (days_before_month_mono (year d') (month d) (month d') ltac:(lia) H ltac:(lia)). lia.
    + rewrite Em in *. lia.
Qed.

Lemma date_lt_total d d' : date_lt d d' ∨ d = d' ∨ date_lt d' d.
Proof.
  destruct d as [y m n], d' as [y' m' n']. unfold date_lt. simpl.
  destruct (Z.lt_trichotomy y y') as [|[->|]]; [tauto| |tauto].
  destruct (Z.lt_trichotomy m m') as [|[->|]]; [tauto| |tauto].
  destruct (Z.lt_trichotomy n n') as [|[->|]]; tauto.
Qed.

Lemma epoch_day_inj d d' : valid_date d → valid_date d' → epoch_day d = epoch_day d' → d = d'.
Proof.
  intros Hd Hd' E. destruct (date_lt_total d d') as [H|[H|H]]; [|done|];
    apply epoch_day_lt in H; done || lia.
Qed.

Lemma epoch_day_lt_iff d d' : valid_date d → valid_date d' → epoch_day d < epoch_day d' ↔ date_lt d d'.
Proof.
  intros Hd Hd'. split; [|by apply epoch_day_lt]. intros H.
  destruct (date_lt_total d d') as [|[->|H']]; [done|lia|]. apply epoch_day_lt in H'; [lia|done..].
Qed.

Lemma time_seconds_range t : valid_time t → 0 ≤ time_seconds t < 86400.
Proof. unfold valid_time, time_seconds. lia. Qed.
