(* ===== verification/CivilInstances.v ===== *)
(** * CivilInstances: a calendar library with zones of one change

    [gregorian] computes the functions of [Jiff] and satisfies [JiffLaws].  Its
    zones have one offset until an instant and another one from then on, with
    the disambiguation jiff documents: of two instants the earlier, and past a
    gap by its width. *)

From S2P Require Import Prelude.
From S2P Require Import Strings.
From S2P Require Import Bytes.
From S2P Require Import Civil.

Local Open Scope Z_scope.

(** ** Dates from days *)

(** The first of three years around the average that holds the day. *)
Definition year_of_days (n : Z) : Z :=
  let g := n * 400 / 146097 + 1 in
  if n <? days_before_year g then g - 1
  else if n <? days_before_year (g + 1) then g else g + 1.

Definition month_of_days (y r : Z) : Z :=
  from_option id 12
    (list_find (λ m, r < days_before_month y (m + 1)) [1; 2; 3; 4; 5; 6; 7; 8; 9; 10; 11; 12] ≫=
     λ '(_, m), Some m).

Definition date_of_epoch_day (n : Z) : Date :=
  let n := n + 719162 in
  let y := year_of_days n in
  let r := n - days_before_year y in
  let m := month_of_days y r in
  mkDate y m (r - days_before_month y m + 1).

Lemma year_of_days_correct y n :
  days_before_year y ≤ n < days_before_year (y + 1) → year_of_days n = y.
Proof.
  intros [H1 H2]. unfold year_of_days.
  set (g := n * 400 / 146097 + 1).
  assert (y - 1 ≤ g ≤ y + 1) as Hg.
  { unfold g, days_before_year in *. Z.div_mod_to_equations. lia. }
  destruct (Z.ltb_spec n (days_before_year g)) as [Hl|Hl].
  { destruct (Z.le_gt_cases g y) as [Hle|]; [|lia].
    pose proof (days_before_year_mono g y Hle). lia. }
  destruct (Z.ltb_spec n (days_before_year (g + 1))) as [Hl'|Hl'].
  - destruct (Z.le_gt_cases y g) as [Hle|Hgt].
    + destruct (Z.eq_dec y g); [done|].
      pose proof (days_before_year_mono (y + 1) g ltac:(lia)). lia.
    + pose proof (days_before_year_mono (g + 1) y ltac:(lia)). lia.
  - destruct (Z.le_gt_cases y g) as [Hle|Hgt]; [|lia].
    pose proof (days_before_year_mono (y + 1) (g + 1) ltac:(lia)). lia.
Qed.

Lemma month_of_days_correct y m r : 1 ≤ m ≤ 12 →
  days_before_month y m ≤ r < days_before_month y m + month_length y m → month_of_days y r = m.
Proof.
  intros Hm Hr. unfold month_of_days.
  destruct (list_find _ _) as [[i m']|] eqn:E; cbn [mbind option_bind from_option id].
  - apply list_find_Some in E as (Ei & Hlt & Hfirst).
    assert (m' = Z.of_nat i + 1 ∧ (i < 12)%nat) as [-> Hi].
    { do 12 (destruct i as [|i]; [cbn in Ei; simplify_eq; split; [done|lia]|]). done. }
    destruct (Z.lt_trichotomy m (Z.of_nat i + 1)) as [H|[->|H]]; [|done|].
    + destruct (Hfirst (Z.to_nat (m - 1)) m) as []; [|lia|].
      * assert (∃ j, m = Z.of_nat j + 1 ∧ (j < 12)%nat) as (j & -> & Hj) by (exists (Z.to_nat (m - 1)); lia).
        replace (Z.to_nat (Z.of_nat j + 1 - 1)) with j by lia.
        do 12 (destruct j as [|j]; [done|]). lia.
      * rewrite days_before_month_step by lia. lia.
    + exfalso. pose proof (days_before_month_mono y (Z.of_nat i + 1) m ltac:(lia) H ltac:(lia)).
      rewrite days_before_month_step in Hlt by lia. lia.
  - apply list_find_None in E. rewrite Forall_forall in E. destruct (E m).
    + apply list_elem_of_In. assert (∃ j, m = Z.of_nat j + 1 ∧ (j < 12)%nat) as (j & -> & Hj) by (exists (Z.to_nat (m - 1)); lia).
      do 12 (destruct j as [|j]; [cbn; tauto|]). lia.
    + rewrite days_before_month_step by lia. lia.
Qed.

Lemma date_of_epoch_day_correct d : valid_date d → date_of_epoch_day (epoch_day d) = d.
Proof.
  destruct d as [y m n]. intros (_ & Hm & Hn). cbn in Hm, Hn. unfold date_of_epoch_day, epoch_day. cbn [year month day].
  replace (days_before_year y + days_before_month y m + (n - 1) - 719162 + 719162)
    with (days_before_year y + days_before_month y m + (n - 1)) by lia.
  pose proof (days_before_month_range y m Hm) as Hr.
  rewrite (year_of_days_correct y) by (rewrite leap_year_step; destruct (leap_year y); lia).
  replace (days_before_year y + days_before_month y m + (n - 1) - days_before_year y)
    with (days_before_month y m + (n - 1)) by lia.
  rewrite (month_of_days_correct y m) by lia. f_equal. lia.
Qed.

(** ** Date-times from seconds *)

Definition datetime_of_seconds (s : Z) : option DateTime :=
  let r := s mod 86400 in
  let dt := mkDateTime (date_of_epoch_day (s / 86400)) (mkTime (r / 3600) (r / 60 mod 60) (r mod 60)) in
  if decide (valid_datetime dt ∧ civil_seconds dt = s) then Some dt else None.

Lemma datetime_of_seconds_spec s dt :
  datetime_of_seconds s = Some dt ↔ valid_datetime dt ∧ civil_seconds dt = s.
Proof.
  unfold datetime_of_seconds. split.
  { intros H. by case_decide; simplify_eq. }
  intros [[Hd Ht] <-]. destruct dt as [d [h m c]].
  destruct Ht as (Hh & Hm & Hc). cbn [hour minute second time date] in *.
  unfold civil_seconds, time_seconds. cbn [hour minute second time date].
  assert ((epoch_day d * 86400 + (h * 3600 + m * 60 + c)) mod 86400 = h * 3600 + m * 60 + c) as ->.
  { Z.div_mod_to_equations. lia. }
  assert ((epoch_day d * 86400 + (h * 3600 + m * 60 + c)) / 86400 = epoch_day d) as ->.
  { Z.div_mod_to_equations. lia. }
  rewrite date_of_epoch_day_correct by done.
  assert ((h * 3600 + m * 60 + c) / 3600 = h) as -> by (Z.div_mod_to_equations; lia).
  assert ((h * 3600 + m * 60 + c) / 60 = h * 60 + m) as -> by (Z.div_mod_to_equations; lia).
  assert ((h * 60 + m) mod 60 = m) as -> by (Z.div_mod_to_equations; lia).
  assert ((h * 3600 + m * 60 + c) mod 60 = c) as -> by (Z.div_mod_to_equations; lia).
  rewrite decide_True; [done|]. done.
Qed.

(** ** Zones *)

Record Zone := mkZone { zone_name : str; offset_before : Z; changes_at : Z; offset_after : Z }.

Definition fixed_zone (name : str) (offset : Z) : Zone := mkZone name offset 0 offset.

(** The range of jiff's timestamps, in seconds. *)
Definition timestamp_ok (t : Z) : bool := (-377705023201 <=? t) && (t <=? 253402207200).

Definition offset_at (z : Zone) (t : Z) : Z :=
  if t <? changes_at z then offset_before z else offset_after z.

Definition zone_instant (z : Zone) (s : Z) : Z :=
  if s - offset_before z <? changes_at z then s - offset_before z
  else if changes_at z <=? s - offset_after z then s - offset_after z
  else s - offset_before z.

Definition zone_datetime (z : Zone) (t : Z) : option DateTime :=
  if timestamp_ok t then datetime_of_seconds (t + offset_at z t) else None.

Definition zone_timestamp (z : Zone) (dt : DateTime) : option Z :=
  let t := zone_instant z (civil_seconds dt) in
  if timestamp_ok t then Some t else None.

(** ** The library *)

Definition greg_date (d : Date) : option Date := if decide (valid_date d) then Some d else None.

Definition greg_add_days (d : Date) (n : Z) : option Date :=
  let d' := date_of_epoch_day (epoch_day d + n) in
  if decide (valid_date d' ∧ epoch_day d' = epoch_day d + n) then Some d' else None.

Definition pad (k : nat) (n : Z) : str := decimal_pad k (Z.to_N n).

Definition greg_strftime_date (dt : DateTime) : str :=
  pad 4 (year (date dt)) ++ pad 2 (month (date dt)) ++ pad 2 (day (date dt)).

Definition UTC : Zone := fixed_zone (slit "UTC") 0.

(** Zones by name, and the zone of the host. *)
Definition gregorian_with (zones : list Zone) (host : Zone) : Jiff :=
  {| TimeZone := Zone;
     tz_get name := snd <$> list_find (λ z, zone_name z = name) zones;
     tz_system := host;
     tz_utc := UTC;
     iana_name z := Some (zone_name z);
     to_datetime := zone_datetime;
     to_timestamp := zone_timestamp;
     date_new y m d := greg_date (mkDate y m d);
     date_at d h m s := if decide (valid_time (mkTime h m s)) then Some (mkDateTime d (mkTime h m s)) else None;
     weekday d := weekday_of (epoch_day d);
     span_days n := if decide (Z.abs n ≤ SPAN_MAX_DAYS) then Some n else None;
     date_add_days := greg_add_days;
     datetime_add_days dt n := (λ d, mkDateTime d (time dt)) <$> greg_add_days (date dt) n;
     datetime_add_secs dt n := datetime_of_seconds (civil_seconds dt + n);
     days_since d d' := epoch_day d - epoch_day d';
     duration_since dt dt' := civil_seconds dt - civil_seconds dt';
     strftime_date := greg_strftime_date;
     strftime_datetime dt :=
       greg_strftime_date dt ++ slit "T" ++ pad 2 (hour (time dt)) ++ pad 2 (minute (time dt)) ++
       pad 2 (second (time dt)) |}.

Lemma greg_add_days_spec d n d' :
  greg_add_days d n = Some d' ↔ valid_date d' ∧ epoch_day d' = epoch_day d + n.
Proof.
  unfold greg_add_days. split.
  - intros H. by case_decide; simplify_eq.
  - intros [Hv E]. rewrite <- E, date_of_epoch_day_correct by done. by rewrite decide_True.
Qed.

#[export] Instance gregorian_laws zones host : JiffLaws (gregorian_with zones host).
Proof.
  split; cbn [gregorian_with to_datetime date_new date_at weekday span_days date_add_days
    datetime_add_days datetime_add_secs days_since duration_since].
  - intros z t dt. cbn. unfold zone_datetime. destruct (timestamp_ok t); [|done].
    intros [H _]%datetime_of_seconds_spec. done.
  - intros y m n d. unfold greg_date. case_decide; naive_solver.
  - intros d h m s dt. case_decide; naive_solver.
  - done.
  - intros n k. case_decide; naive_solver.
  - intros d n d' _. apply greg_add_days_spec.
  - done.
  - intros dt n dt' _. apply datetime_of_seconds_spec.
  - done.
  - done.
Qed.
