(* ===== verification/Recurrence.v ===== *)
(** * Recurrence: expanding recurring calendar events

    src/crates/db/src/db/queries_extra/calendars/view/rrule/mod.rs: parsing of
    recurrence rules (RFC 5545), the expanders of the four frequencies, the
    expansion of a master event, the test that a series has an occurrence in a
    window; the view of ../mod.rs and the decision of
    src/crates/calendar/src/sync.rs that use them.  (crate [db-read] has a copy
    of the file without the two functions for windows.)

    Times are [i64] seconds with the arithmetic of a release build
    ([wrap_i64]).  The outermost [option] is a panic: [Span::days] and
    [Date::at] of jiff have one. *)

From S2P Require Import Prelude.
From S2P Require Import Graphemes.
From S2P Require Import Strings.
From S2P Require Import Bytes.
From S2P Require Import Civil.

Local Open Scope Z_scope.

(** ** Strings by bytes *)

(** The characters before byte [n] and the others, when [n] is between two. *)
Fixpoint split_bytes (n : nat) (s : str) : option (str * str) :=
  match n with
  | O => Some ([], s)
  | S _ =>
      match s with
      | [] => None
      | c :: s' =>
          if (len_utf8 c <=? n)%nat then
            '(a, b) ← split_bytes (n - len_utf8 c) s'; Some (c :: a, b)
          else None
      end
  end.

(** [s.get(a..b)] *)
Definition get_range (a b : nat) (s : str) : option str :=
  '(p, _) ← split_bytes b s; snd <$> split_bytes a p.

(** [char::is_ascii_digit] *)
Definition is_ascii_digit (c : N) : bool := ((48 <=? c) && (c <=? 57))%N.

Fixpoint take_digits (s : str) : str * str :=
  match s with
  | [] => ([], [])
  | c :: s' => if is_ascii_digit c then let '(d, r) := take_digits s' in (c :: d, r) else ([], s)
  end.

(** ** Sorting *)

(** [sort_by_key]: stable *)
Fixpoint insert_by {A} (key : A → Z) (x : A) (l : list A) : list A :=
  match l with
  | [] => [x]
  | y :: l' => if key x <? key y then x :: l else y :: insert_by key x l'
  end.

Definition sort_by {A} (key : A → Z) (l : list A) : list A :=
  foldl (λ acc x, insert_by key x acc) [] l.

(** [Vec::dedup] *)
Fixpoint dedup (l : list Z) : list Z :=
  match l with
  | x :: (y :: _) as l' => if x =? y then dedup l' else x :: dedup l'
  | _ => l
  end.

(** ** Rules *)

Definition RRULE_MAX_COUNT : N := 10000.
Definition RRULE_MAX_STEPS : nat := N.to_nat 12000.
Definition YEARLY_MAX_STEPS : nat := N.to_nat 80000.

Inductive Freq := Daily | Weekly | Monthly | Yearly.

#[export] Instance freq_eq_dec : EqDecision Freq.
Proof. solve_decision. Defined.

(** A BYDAY entry: every such weekday of the period, or the n-th one. *)
Record ByDay := mkByDay { bd_ordinal : option Z; bd_day : Weekday }.

Inductive Until := UntilDate (d : Date) | UntilFloating (dt : DateTime) | UntilUtc (t : Z).

Record Rrule := mkRrule {
  freq : str;
  interval : Z;
  count : option N;
  until : option Until;
  byday : list ByDay;
  bymonthday : list Z;
  bymonth : list Z;
  wkst : option Weekday;
  unsupported_parts : list str
}.

Definition rrule_default : Rrule := mkRrule [] 1 None None [] [] [] None [].

Definition set_freq v r := mkRrule v (interval r) (count r) (until r) (byday r) (bymonthday r) (bymonth r) (wkst r) (unsupported_parts r).
Definition set_interval v r := mkRrule (freq r) v (count r) (until r) (byday r) (bymonthday r) (bymonth r) (wkst r) (unsupported_parts r).
Definition set_count v r := mkRrule (freq r) (interval r) v (until r) (byday r) (bymonthday r) (bymonth r) (wkst r) (unsupported_parts r).
Definition set_until v r := mkRrule (freq r) (interval r) (count r) v (byday r) (bymonthday r) (bymonth r) (wkst r) (unsupported_parts r).
Definition set_byday v r := mkRrule (freq r) (interval r) (count r) (until r) v (bymonthday r) (bymonth r) (wkst r) (unsupported_parts r).
Definition set_bymonthday v r := mkRrule (freq r) (interval r) (count r) (until r) (byday r) v (bymonth r) (wkst r) (unsupported_parts r).
Definition set_bymonth v r := mkRrule (freq r) (interval r) (count r) (until r) (byday r) (bymonthday r) v (wkst r) (unsupported_parts r).
Definition set_wkst v r := mkRrule (freq r) (interval r) (count r) (until r) (byday r) (bymonthday r) (bymonth r) v (unsupported_parts r).
Definition set_unsupported v r := mkRrule (freq r) (interval r) (count r) (until r) (byday r) (bymonthday r) (bymonth r) (wkst r) v.

Definition freq_parse (s : str) : option Freq :=
  if bool_decide (s = slit "DAILY") then Some Daily
  else if bool_decide (s = slit "WEEKLY") then Some Weekly
  else if bool_decide (s = slit "MONTHLY") then Some Monthly
  else if bool_decide (s = slit "YEARLY") then Some Yearly
  else None.

Definition parse_weekday_code (code : str) : option Weekday :=
  if bool_decide (code = slit "MO") then Some Monday
  else if bool_decide (code = slit "TU") then Some Tuesday
  else if bool_decide (code = slit "WE") then Some Wednesday
  else if bool_decide (code = slit "TH") then Some Thursday
  else if bool_decide (code = slit "FR") then Some Friday
  else if bool_decide (code = slit "SA") then Some Saturday
  else if bool_decide (code = slit "SU") then Some Sunday
  else None.

Definition parse_byday (spec : str) : option ByDay :=
  let trimmed := trim spec in
  let '(sign, rest) :=
    match trimmed with
    | 45%N :: r => (-1, r)
    | 43%N :: r => (1, r)
    | _ => (1, trimmed)
    end in
  let '(digits, code) := take_digits rest in
  ordinal ←
    (if is_nil digits then Some None
     else
       n ← parse_signed i32_max digits;
       if n =? 0 then None else if 53 <? Z.abs n then None else Some (Some (sign * n)));
  (λ d, mkByDay ordinal d) <$> parse_weekday_code code.

(** [instance_cap]: the most instances an expander gives. *)
Definition instance_cap (rule : Rrule) (default_unbounded : N) : nat :=
  N.to_nat
    match count rule with
    | Some n => N.max n 1
    | None =>
        match until rule with
        | Some _ => RRULE_MAX_COUNT
        | None => N.min (N.max default_unbounded 1) RRULE_MAX_COUNT
        end
    end.

Definition days_in_month (y m : Z) : Z :=
  if bool_decide (m ∈ [1; 3; 5; 7; 8; 10; 12]) then 31
  else if bool_decide (m ∈ [4; 6; 9; 11]) then 30
  else if m =? 2 then
    if ((Z.rem y 4 =? 0) && negb (Z.rem y 100 =? 0)) || (Z.rem y 400 =? 0) then 29 else 28
  else 30.

Section Jiff.
Context {J : Jiff}.

(** ** Parsing *)

Definition i32_parse : str → option Z := parse_signed i32_max.

Definition civil_date (y m d : Z) : option Date :=
  if (-32768 <=? y) && (y <=? 32767) && (m <=? 127) && (d <=? 127) then date_new y m d else None.

Definition u32_parse (s : str) : option Z := Z.of_N <$> parse_unsigned u32_max s.

(** The date of UNTIL, and its clock fields. *)
Definition until_date (val : str) : option Date :=
  date_part ← get_range 0 8 val;
  y ← get_range 0 4 date_part ≫= i32_parse;
  m ← get_range 4 6 date_part ≫= u32_parse;
  d ← get_range 6 8 date_part ≫= u32_parse;
  if negb ((1 <=? y) && (y <=? 9999)) then None else civil_date y m d.

Definition until_clock (val : str) : option Time :=
  time_part ← get_range 9 15 val;
  h ← get_range 0 2 time_part ≫= parse_signed i8_max;
  m ← get_range 2 4 time_part ≫= parse_signed i8_max;
  s ← get_range 4 6 time_part ≫= parse_signed i8_max;
  Some (mkTime h m s).

(** UNTIL: [YYYYMMDD], [YYYYMMDDTHHMMSS] or [YYYYMMDDTHHMMSSZ]. *)
Definition parse_until_date (val : str) : option (option Until) :=
  match until_date val with
  | None => Some None
  | Some date =>
      if bool_decide (length (encode val) = 8%nat) then Some (Some (UntilDate date))
      else if negb (bool_decide (encode val !! 8%nat = Some "T"%char)) then Some None
      else
        match until_clock val with
        | None => Some None
        | Some clock =>
            dt ← date_at date (hour clock) (minute clock) (second clock);
            Some
              (if bool_decide (length (encode val) = 15%nat) then Some (UntilFloating dt)
               else if bool_decide (length (encode val) = 16%nat ∧ encode val !! 15%nat = Some "Z"%char) then
                 UntilUtc <$> to_timestamp tz_utc dt
               else None)
        end
  end.

Definition UNSUPPORTED : list str :=
  [slit "BYSETPOS="; slit "BYWEEKNO="; slit "BYYEARDAY="; slit "BYHOUR="; slit "BYMINUTE="; slit "BYSECOND="].

Definition flag_unsupported (part : str) (out : Rrule) : Rrule :=
  match list_find (λ u, starts_with u part = true) UNSUPPORTED with
  | Some (_, u) =>
      let key := take (length u - 1) u in
      if bool_decide (key ∈ unsupported_parts out) then out
      else set_unsupported (unsupported_parts out ++ [key]) out
  | None => out
  end.

Definition parse_part (out : Rrule) (part : str) : option Rrule :=
  match strip_prefix (slit "FREQ=") part with Some val => Some (set_freq val out) | None =>
  match strip_prefix (slit "INTERVAL=") part with
  | Some val => Some (set_interval (Z.max (default 1 (parse_signed (Z.to_N i64_max) val)) 1) out) | None =>
  match strip_prefix (slit "COUNT=") part with
  | Some val => Some (set_count ((λ n, N.min n RRULE_MAX_COUNT) <$> parse_unsigned u64_max val) out) | None =>
  match strip_prefix (slit "UNTIL=") part with
  | Some val => u ← parse_until_date val; Some (set_until u out) | None =>
  match strip_prefix (slit "BYDAY=") part with
  | Some val => Some (set_byday (omap parse_byday (split_char 44 val)) out) | None =>
  match strip_prefix (slit "BYMONTHDAY=") part with
  | Some val =>
      Some (set_bymonthday
        (filter (λ d, 1 ≤ Z.abs d ≤ 31) (omap (λ s, i32_parse (trim s)) (split_char 44 val))) out) | None =>
  match strip_prefix (slit "BYMONTH=") part with
  | Some val =>
      Some (set_bymonth
        (filter (λ m, 1 ≤ m ≤ 12)
           (omap (λ s, u32_parse (trim s)) (split_char 44 val))) out) | None =>
  match strip_prefix (slit "WKST=") part with
  | Some val => Some (set_wkst (parse_weekday_code (trim val)) out) | None =>
  Some (flag_unsupported part out)
  end end end end end end end end.

Definition parse_rrule (rrule_str : str) : option Rrule :=
  let body := default rrule_str (strip_prefix (slit "RRULE:") rrule_str) in
  fold_opt parse_part (split_char 59 body) rrule_default.

(** ** Zones of events *)

Inductive RecurrenceTz := Iana (z : TimeZone) | Local_.

Definition from_event_timezone (event_tz : option str) : RecurrenceTz :=
  match event_tz with
  | None => Local_
  | Some raw =>
      let trimmed := trim raw in
      if is_nil trimmed then Local_
      else match tz_get trimmed with Some tz => Iana tz | None => Local_ end
  end.

Definition zone (tz : RecurrenceTz) : TimeZone := match tz with Iana z => z | Local_ => tz_system end.

Definition naive (tz : RecurrenceTz) (timestamp : Z) : option DateTime := to_datetime (zone tz) timestamp.
Definition resolve (tz : RecurrenceTz) (dt : DateTime) : option Z := to_timestamp (zone tz) dt.

Definition until_resolve (u : Until) (tz : RecurrenceTz) : option (option Z) :=
  match u with
  | UntilDate d => dt ← date_at d 23 59 59; Some (resolve tz dt)
  | UntilFloating dt => Some (resolve tz dt)
  | UntilUtc t => Some (Some t)
  end.

(** ** Days and weeks *)

(** [add_days_in_zone]: the same time of day some days later. *)
Definition add_days_in_zone (timestamp days : Z) (tz : RecurrenceTz) : option (option Z) :=
  match naive tz timestamp with
  | None => Some None
  | Some dt => span ← span_days days; Some (datetime_add_days dt span ≫= resolve tz)
  end.

(** [unwrap_or(current + days * 86400)] *)
Definition step_days (current days : Z) (tz : RecurrenceTz) : option Z :=
  next ← add_days_in_zone current days tz;
  Some (default (wrap_i64 (current + wrap_i64 (days * 86400))) next).

Definition matches_weekday (timestamp : Z) (days : list Weekday) (tz : RecurrenceTz) : bool :=
  match naive tz timestamp with
  | None => false
  | Some dt => bool_decide (weekday (date dt) ∈ days)
  end.

Fixpoint daily_loop (steps cap : nat) (filter : list Weekday) (days : Z) (tz : RecurrenceTz)
    (current : Z) (out : list Z) : option (list Z) :=
  match steps with
  | O => Some out
  | S steps =>
      if (cap <=? length out)%nat then Some out
      else
        let out :=
          if is_nil filter || matches_weekday current filter tz then out ++ [current] else out in
        next ← step_days current days tz;
        daily_loop steps cap filter days tz next out
  end.

Definition expand_daily (start : Z) (rule : Rrule) (tz : RecurrenceTz) : option (list Z) :=
  daily_loop RRULE_MAX_STEPS (instance_cap rule 800) (bd_day <$> byday rule) (interval rule) tz start [].

Definition start_of_week (timestamp : Z) (week_start : Weekday) (tz : RecurrenceTz) : option Z :=
  match naive tz timestamp with
  | None => Some timestamp
  | Some dt =>
      let from := to_monday_zero_offset week_start in
      let to := to_monday_zero_offset (weekday (date dt)) in
      back ← add_days_in_zone timestamp (- ((to - from) mod 7)) tz;
      Some (default timestamp back)
  end.

Definition shift_to_weekday (week_anchor : Z) (target : Weekday) (time_source : Z) (tz : RecurrenceTz) :
    option Z :=
  match naive tz week_anchor, naive tz time_source with
  | Some anchor, Some source =>
      let target_offset :=
        (to_monday_zero_offset target - to_monday_zero_offset (weekday (date anchor))) mod 7 in
      span ← span_days target_offset;
      Some
        match date_add_days (date anchor) span with
        | Some d => default week_anchor (resolve tz (mkDateTime d (time source)))
        | None => week_anchor
        end
  | _, _ => Some week_anchor
  end.

(** The inner loop over the days of a week: it stops at the cap. *)
Fixpoint week_days (cap : nat) (week_anchor start : Z) (tz : RecurrenceTz) (days : list Weekday)
    (out : list Z) : option (list Z) :=
  match days with
  | [] => Some out
  | wd :: days =>
      candidate ← shift_to_weekday week_anchor wd start tz;
      if candidate <? start then week_days cap week_anchor start tz days out
      else
        let out := out ++ [candidate] in
        if (cap <=? length out)%nat then Some out else week_days cap week_anchor start tz days out
  end.

Fixpoint weekly_loop (steps cap : nat) (days : list Weekday) (interval_days start : Z) (tz : RecurrenceTz)
    (week_anchor : Z) (out : list Z) : option (list Z) :=
  match steps with
  | O => Some out
  | S steps =>
      if (cap <=? length out)%nat then Some out
      else
        out ← week_days cap week_anchor start tz days out;
        next ← step_days week_anchor interval_days tz;
        weekly_loop steps cap days interval_days start tz next out
  end.

(** The weekdays of a rule in the order of its weeks. *)
Definition week_order (first : Weekday) : list Weekday → list Weekday :=
  sort_by (λ d, (to_monday_zero_offset d - to_monday_zero_offset first) mod 7).

Definition expand_weekly (start : Z) (rule : Rrule) (tz : RecurrenceTz) : option (list Z) :=
  let cap := instance_cap rule 800 in
  let interval_days := wrap_i64 (interval rule * 7) in
  if is_nil (byday rule) then daily_loop RRULE_MAX_STEPS cap [] interval_days tz start []
  else
    let first := default Monday (wkst rule) in
    let days := week_order first (bd_day <$> byday rule) in
    week_start ← start_of_week start first tz;
    weekly_loop RRULE_MAX_STEPS cap days interval_days start tz week_start [].

(** ** Months and years *)

(** The days [1] to [dim] of a month. *)
Definition days_upto (dim : Z) : list Z := (λ i, Z.of_nat i) <$> seq 1 (Z.to_nat dim).

Definition weekday_occurrences_in_month (y m : Z) (wd : Weekday) : list Z :=
  match civil_date y m 1 with
  | None => []
  | Some day1 =>
      let day1_weekday := to_monday_zero_offset (weekday day1) in
      filter (λ d, (day1_weekday + (d - 1) mod 7) mod 7 = to_monday_zero_offset wd)
        (days_upto (days_in_month y m))
  end.

Definition nth_weekday_in_month (y m : Z) (wd : Weekday) (n : Z) : option Z :=
  let occurrences := weekday_occurrences_in_month y m wd in
  if 0 <? n then occurrences !! Z.to_nat (n - 1)
  else if n <? 0 then reverse occurrences !! Z.to_nat (- n - 1)
  else None.

Definition collect_monthly_days (y m : Z) (byday : list ByDay) (bymonthday : list Z) : list Z :=
  let dim := days_in_month y m in
  let byday_days :=
    byday ≫= λ b,
      match bd_ordinal b with
      | None => weekday_occurrences_in_month y m (bd_day b)
      | Some n => option_list (nth_weekday_in_month y m (bd_day b) n)
      end in
  let bymonthday_days :=
    omap (λ d,
      let resolved := if d <? 0 then dim + d + 1 else d in
      if (resolved <? 1) || (dim <? resolved) then None else Some resolved) bymonthday in
  match is_nil byday, is_nil bymonthday with
  | true, true => []
  | false, true => byday_days
  | true, false => bymonthday_days
  | false, false => filter (λ d, d ∈ bymonthday_days) byday_days
  end.

Definition with_ymd_time (t : Time) (y m d : Z) (tz : RecurrenceTz) : option Z :=
  new_date ← civil_date y m d; resolve tz (mkDateTime new_date t).

(** The days a visited month may have an instance on. *)
Definition month_days (rule : Rrule) (y m original_day : Z) : list Z :=
  if is_nil (byday rule) && is_nil (bymonthday rule) then
    if original_day <=? days_in_month y m then [original_day] else []
  else dedup (sort_by id (collect_monthly_days y m (byday rule) (bymonthday rule))).

(** The instances of one month, up to the cap: reaching it returns from the
    expander. *)
Fixpoint push_days (cap : nat) (t : Time) (y m start : Z) (tz : RecurrenceTz) (days : list Z)
    (out : list Z) : list Z :=
  match days with
  | [] => out
  | d :: days =>
      match with_ymd_time t y m d tz with
      | Some ts =>
          if start <=? ts then
            let out := out ++ [ts] in
            if (cap <=? length out)%nat then out else push_days cap t y m start tz days out
          else push_days cap t y m start tz days out
      | None => push_days cap t y m start tz days out
      end
  end.

Definition i32_ok (n : Z) : bool := (-2147483648 <=? n) && (n <=? 2147483647).

(** [i32::checked_add] *)
Definition checked_add_i32 (a b : Z) : option Z := if i32_ok (a + b) then Some (a + b) else None.

(** [i32::try_from(n).unwrap_or(default)] *)
Definition i32_or (d n : Z) : Z := if i32_ok n then n else d.

Fixpoint monthly_loop (steps cap : nat) (rule : Rrule) (t : Time) (original_day start : Z)
    (tz : RecurrenceTz) (y m : Z) (out : list Z) : list Z :=
  match steps with
  | O => out
  | S steps =>
      if (cap <=? length out)%nat then out
      else
        let out := push_days cap t y m start tz (month_days rule y m original_day) out in
        if (cap <=? length out)%nat then out
        else
          let total := wrap_i64 (m - 1 + interval rule) in
          match checked_add_i32 y (i32_or 0 (total / 12)) with
          | Some y => monthly_loop steps cap rule t original_day start tz y (total mod 12 + 1) out
          | None => out
          end
  end.

Definition expand_monthly (start : Z) (rule : Rrule) (tz : RecurrenceTz) : list Z :=
  match naive tz start with
  | None => []
  | Some dt =>
      monthly_loop RRULE_MAX_STEPS (instance_cap rule 800) rule (time dt) (day (date dt)) start tz
        (year (date dt)) (month (date dt)) []
  end.

Fixpoint push_months (cap : nat) (rule : Rrule) (t : Time) (y original_day start : Z) (tz : RecurrenceTz)
    (months : list Z) (out : list Z) : list Z :=
  match months with
  | [] => out
  | m :: months =>
      let out := push_days cap t y m start tz (month_days rule y m original_day) out in
      if (cap <=? length out)%nat then out else push_months cap rule t y original_day start tz months out
  end.

Fixpoint yearly_loop (steps cap : nat) (rule : Rrule) (t : Time) (months : list Z) (original_day start : Z)
    (tz : RecurrenceTz) (y : Z) (out : list Z) : list Z :=
  match steps with
  | O => out
  | S steps =>
      if (cap <=? length out)%nat then out
      else
        let out := push_months cap rule t y original_day start tz months out in
        if (cap <=? length out)%nat then out
        else match checked_add_i32 y (i32_or 1 (interval rule)) with
             | Some y => yearly_loop steps cap rule t months original_day start tz y out
             | None => out
             end
  end.

Definition yearly_months (rule : Rrule) (original_month : Z) : list Z :=
  if is_nil (bymonth rule) then [original_month] else bymonth rule.

Definition expand_yearly (start : Z) (rule : Rrule) (tz : RecurrenceTz) : list Z :=
  match naive tz start with
  | None => []
  | Some dt =>
      yearly_loop YEARLY_MAX_STEPS (instance_cap rule 200) rule (time dt)
        (yearly_months rule (month (date dt))) (day (date dt)) start tz (year (date dt)) []
  end.

(** ** Events *)

Record CalendarViewEvent := mkEvent {
  ev_id : str;
  title : str;
  start_time : Z;
  end_time : Z;
  all_day : bool;
  color : str;
  calendar_name : option str;
  location : option str;
  recurrence_rule : option str;
  calendar_id : option str;
  account_id : str;
  organizer_name : option str;
  organizer_email : option str;
  rsvp_status : option str;
  description : option str;
  availability : option str;
  visibility : option str;
  timezone : option str;
  uid : option str;
  recurrence_id_canonical : option str
}.

(** An instance of [e]: its identifier, its times, no override key. *)
Definition set_instance (new_id : str) (new_start new_end : Z) (e : CalendarViewEvent) : CalendarViewEvent :=
  mkEvent new_id (title e) new_start new_end (all_day e) (color e) (calendar_name e) (location e)
    (recurrence_rule e) (calendar_id e) (account_id e) (organizer_name e) (organizer_email e)
    (rsvp_status e) (description e) (availability e) (visibility e) (timezone e) (uid e) None.

Definition set_times (new_start new_end : Z) (e : CalendarViewEvent) : CalendarViewEvent :=
  mkEvent (ev_id e) (title e) new_start new_end (all_day e) (color e) (calendar_name e) (location e)
    (recurrence_rule e) (calendar_id e) (account_id e) (organizer_name e) (organizer_email e)
    (rsvp_status e) (description e) (availability e) (visibility e) (timezone e) (uid e)
    (recurrence_id_canonical e).

Definition canonical_recurrence_slot (timestamp : Z) (tz : RecurrenceTz) (whole_day : bool) : str :=
  match naive tz timestamp with
  | None =>
      slit "__unresolvable_slot_" ++
      (if timestamp <? 0 then slit "-" ++ decimal (Z.to_N (- timestamp)) else decimal (Z.to_N timestamp))
  | Some dt =>
      if whole_day then strftime_date dt
      else
        match tz with
        | Iana z =>
            match iana_name z with
            | Some name => strftime_datetime dt ++ slit ";TZID=" ++ name
            | None => strftime_datetime dt
            end
        | Local_ => strftime_datetime dt
        end
  end.

Definition end_time_for_instance (start wall_duration : Z) (tz : RecurrenceTz) (raw_duration : Z) : Z :=
  default (wrap_i64 (start + raw_duration))
    (n ← naive tz start; n ← datetime_add_secs n wall_duration; resolve tz n).

Definition two_year_window_end (start : Z) (tz : RecurrenceTz) : Z :=
  default (wrap_i64 (start + 730 * 86400))
    (n ← naive tz start;
     d ← date_new (year (date n) + 2) (month (date n)) (day (date n));
     resolve tz (mkDateTime d (time n))).

(** The length of an event on the clock of its zone, in seconds. *)
Definition wall_duration (event : CalendarViewEvent) (tz : RecurrenceTz) : Z :=
  let raw_duration := wrap_i64 (end_time event - start_time event) in
  match naive tz (start_time event), naive tz (end_time event) with
  | Some s, Some e =>
      if all_day event then
        let days := days_since (date e) (date s) in
        let days := if (days =? 0) && (0 <? raw_duration) then 1 else days in
        24 * Z.max days 0 * 3600
      else duration_since e s
  | _, _ => raw_duration
  end.

(** The loop over the candidates: their number, the override slots, the end of
    the window. *)
Fixpoint instances_loop (event : CalendarViewEvent) (tz : RecurrenceTz) (overrides : gset str)
    (window_end : Z) (max_instances : nat) (idx : nat) (starts : list Z) (out : list CalendarViewEvent) :
    list CalendarViewEvent :=
  match starts with
  | [] => out
  | start :: starts =>
      if window_end <? start then out
      else if (max_instances <=? length out)%nat then out
      else if bool_decide (overrides ≠ ∅) &&
              bool_decide (canonical_recurrence_slot start tz (all_day event) ∈ overrides) then
        instances_loop event tz overrides window_end max_instances (S idx) starts out
      else
        let id :=
          if (0 <? idx)%nat then ev_id event ++ slit "__recur_" ++ decimal (N.of_nat idx) else ev_id event in
        let raw_duration := wrap_i64 (end_time event - start_time event) in
        let instance :=
          set_instance id start (end_time_for_instance start (wall_duration event tz) tz raw_duration) event in
        instances_loop event tz overrides window_end max_instances (S idx) starts (out ++ [instance])
  end.

(** The rules that yield the master event alone. *)
Definition year_scope_ordinal (freq : Freq) (rule : Rrule) : bool :=
  bool_decide (freq = Yearly) && is_nil (bymonth rule) &&
  existsb (λ b, bool_decide (is_Some (bd_ordinal b))) (byday rule).

Definition candidate_starts (freq : Freq) (start : Z) (rule : Rrule) (tz : RecurrenceTz) : option (list Z) :=
  match freq with
  | Daily => expand_daily start rule tz
  | Weekly => expand_weekly start rule tz
  | Monthly => Some (expand_monthly start rule tz)
  | Yearly => Some (expand_yearly start rule tz)
  end.

Definition expansion_end (start : Z) (rule : Rrule) (tz : RecurrenceTz) (horizon : option Z) : option Z :=
  until_ts ←
    match until rule with
    | Some u => until_resolve u tz
    | None => Some None
    end;
  Some
    match until_ts, count rule with
    | Some until, _ => until
    | None, Some _ => i64_max
    | None, None => default (two_year_window_end start tz) horizon
    end.

Definition expand_recurrence_windowed (event : CalendarViewEvent) (rrule_str : str) (overrides : gset str)
    (expansion_horizon : option Z) : option (list CalendarViewEvent) :=
  rule ← parse_rrule rrule_str;
  let tz := from_event_timezone (timezone event) in
  match freq_parse (freq rule) with
  | None => Some [event]
  | Some freq =>
      if negb (is_nil (unsupported_parts rule)) then Some [event]
      else if year_scope_ordinal freq rule then Some [event]
      else
        let max_instances := instance_cap rule 800 in
        window_end ← expansion_end (start_time event) rule tz expansion_horizon;
        starts ← candidate_starts freq (start_time event) rule tz;
        Some (instances_loop event tz overrides window_end max_instances 0 starts [])
  end.

Definition expand_recurrence_with_overrides (event : CalendarViewEvent) (rrule_str : str)
    (overrides : gset str) : option (list CalendarViewEvent) :=
  expand_recurrence_windowed event rrule_str overrides None.

(** ** Series and windows *)

Definition reanchor_day_cadence (start : Z) (rule : Rrule) (freq : Freq) (tz : RecurrenceTz)
    (window_start : Z) : option Z :=
  if window_start <=? start then Some start
  else
    let interval := Z.max (interval rule) 1 in
    let step_days := match freq with Weekly => wrap_i64 (interval * 7) | _ => interval end in
    let gap_days := wrap_i64 (window_start - start) / 86400 in
    let steps := Z.quot gap_days step_days in
    if steps <=? 0 then Some start
    else
      anchor ← add_days_in_zone start (wrap_i64 (steps * step_days)) tz;
      Some (default start anchor).

(** [[a, b)] and [[window_start, window_end)] overlap. *)
Definition overlaps (window_start window_end : Z) (e : CalendarViewEvent) : bool :=
  (start_time e <? window_end) && (window_start <? end_time e).

Definition master_intersects_window (event : CalendarViewEvent) (rrule_str : str)
    (window_start window_end : Z) : option bool :=
  rule ← parse_rrule rrule_str;
  let tz := from_event_timezone (timezone event) in
  anchor ←
    match freq_parse (freq rule) with
    | Some ((Daily | Weekly) as freq) =>
        reanchor_day_cadence (start_time event) rule freq tz window_start
    | _ => Some (start_time event)
    end;
  let master :=
    if anchor =? start_time event then event
    else set_times anchor (wrap_i64 (anchor + wrap_i64 (end_time event - start_time event))) event in
  instances ← expand_recurrence_windowed master rrule_str ∅ (Some window_end);
  Some (existsb (overlaps window_start window_end) instances).

(** The master [recurring_master_intersects_window] builds from a stored row. *)
Definition stored_master (rule : str) (start finish : Z) (tzid : option str) : CalendarViewEvent :=
  mkEvent [] [] start finish false [] None None (Some rule) None [] None None None None None None tzid
    None None.

Definition recurring_master_intersects_window (rule : str) (start finish : Z) (tzid : option str)
    (window_start window_end : Z) : option bool :=
  master_intersects_window (stored_master rule start finish tzid) rule window_start window_end.

(** Whether a row the server no longer lists is deleted. *)
Definition should_delete_absent_candidate (rule : option str) (start finish : Z) (tzid : option str)
    (window_start window_end : Z) : option bool :=
  match rule with
  | None => Some true
  | Some rrule =>
      if (start <? window_end) && (window_start <? finish) then Some true
      else recurring_master_intersects_window rrule start finish tzid window_start window_end
  end.

(** ** The view *)

(** The override slots of each series. *)
Definition index_override (m : gmap (str * str) (gset str)) (ev : CalendarViewEvent) : gmap (str * str) (gset str) :=
  match uid ev, recurrence_id_canonical ev with
  | Some u, Some canonical =>
      let key := (account_id ev, u) in
      <[key := {[canonical]} ∪ default ∅ (m !! key)]> m
  | _, _ => m
  end.

Definition overrides_by_series (rows : list CalendarViewEvent) : gmap (str * str) (gset str) :=
  foldl index_override ∅ rows.

Definition series_overrides (m : gmap (str * str) (gset str)) (ev : CalendarViewEvent) : gset str :=
  default ∅ (u ← uid ev; m !! (account_id ev, u)).

Definition expand_row (m : gmap (str * str) (gset str)) (window_start window_end : Z)
    (out : list CalendarViewEvent) (ev : CalendarViewEvent) : option (list CalendarViewEvent) :=
  match recurrence_rule ev with
  | Some rrule =>
      instances ← expand_recurrence_with_overrides ev rrule (series_overrides m ev);
      Some (out ++ filter (λ e, overlaps window_start window_end e = true) instances)
  | None => Some (out ++ [ev])
  end.

Definition expand_view_events (rows : list CalendarViewEvent) (window_start window_end : Z) :
    option (list CalendarViewEvent) :=
  sort_by start_time <$> fold_opt (expand_row (overrides_by_series rows) window_start window_end) rows [].

End Jiff.
