(* ===== verification/RecurrenceTheory.v ===== *)
(** * RecurrenceTheory: rules and the days of a month

    Sorting and deduplication, the ranges parsed numbers are in, what a parsed
    rule satisfies, and the days of a month that BYDAY and BYMONTHDAY select. *)

From stdpp Require Import sorting.
From S2P Require Import Prelude.
From S2P Require Import Strings.
From S2P Require Import Bytes.
From S2P Require Import Civil.
From S2P Require Import Recurrence.

Local Open Scope Z_scope.

(** ** Sorting *)

Section sort.
Context {A : Type} (key : A → Z).

Lemma insert_by_perm x l : insert_by key x l ≡ₚ x :: l.
Proof.
  induction l as [|y l IH]; [done|]. cbn [insert_by]. destruct (key x <? key y); [done|].
  rewrite IH. apply Permutation_swap.
Qed.

Lemma sort_by_foldl_perm l acc : foldl (λ acc x, insert_by key x acc) acc l ≡ₚ acc ++ l.
Proof.
  revert acc. induction l as [|x l IH]; intros acc; cbn [foldl]; [by rewrite app_nil_r|].
  rewrite IH, insert_by_perm. by rewrite <- Permutation_middle.
Qed.

Lemma sort_by_perm l : sort_by key l ≡ₚ l.
Proof. apply sort_by_foldl_perm. Qed.

Lemma insert_by_sorted x l :
  StronglySorted (λ a b, key a ≤ key b) l → StronglySorted (λ a b, key a ≤ key b) (insert_by key x l).
Proof.
  induction 1 as [|y l Hs IH Hy]; cbn [insert_by]; [repeat constructor|].
  destruct (Z.ltb_spec (key x) (key y)).
  - constructor; [by constructor|]. constructor; [lia|]. eapply Forall_impl; [exact Hy|]. simpl; lia.
  - constructor; [done|]. rewrite insert_by_perm. constructor; [lia|done].
Qed.

Lemma sort_by_sorted l : StronglySorted (λ a b, key a ≤ key b) (sort_by key l).
Proof.
  unfold sort_by. assert (StronglySorted (λ a b, key a ≤ key b) []) as H by constructor.
  revert H. generalize (@nil A). induction l as [|x l IH]; intros acc H; [done|].
  apply IH. by apply insert_by_sorted.
Qed.
End sort.

Lemma elem_of_dedup x l : x ∈ dedup l ↔ x ∈ l.
Proof.
  induction l as [|y [|z l] IH]; [done..|]. cbn [dedup] in *.
  destruct (Z.eqb_spec y z) as [->|]; rewrite ?elem_of_cons, ?IH, ?elem_of_cons; tauto.
Qed.

Lemma dedup_sorted l : StronglySorted Z.le l → StronglySorted Z.lt (dedup l).
Proof.
  induction l as [|y [|z l] IH]; intros H; [constructor|by repeat constructor|].
  apply StronglySorted_inv in H as [Hs Hy].
  change (dedup (y :: z :: l)) with (if y =? z then dedup (z :: l) else y :: dedup (z :: l)).
  destruct (Z.eqb_spec y z) as [->|Hne]; [by apply IH|].
  constructor; [by apply IH|]. apply Forall_forall. intros x Hx%(proj1 (elem_of_dedup _ _)).
  apply StronglySorted_inv in Hs as [_ Hz]. rewrite Forall_forall in Hz, Hy.
  pose proof (Hy z (list_elem_of_here _ _)).
  apply elem_of_cons in Hx as [->|Hx]; [lia|]. specialize (Hz _ Hx). lia.
Qed.

(** ** Parsed numbers *)

Lemma parse_digits_le max acc s n : (acc ≤ max)%N → parse_digits max acc s = Some n → (n ≤ max)%N.
Proof.
  revert acc. induction s as [|c s IH]; intros acc Ha H; cbn [parse_digits] in H; [by simplify_eq|].
  destruct (_ && _); [|done]. destruct (N.leb_spec (acc * 10 + (c - 48)) max); [by eapply IH|done].
Qed.

Lemma parse_unsigned_le max s n : parse_unsigned max s = Some n → (n ≤ max)%N.
Proof.
  unfold parse_unsigned. intros H. destruct (is_nil _); [done|].
  eapply parse_digits_le; [|done]. lia.
Qed.

Lemma parse_signed_range max s n : parse_signed max s = Some n → - Z.of_N max - 1 ≤ n ≤ Z.of_N max.
Proof.
  unfold parse_signed. destruct s as [|c s]; [done|]. destruct (c =? 45)%N.
  - destruct (is_nil s); [done|]. intros (k & Hk & ->)%fmap_Some.
    apply parse_digits_le in Hk; lia.
  - intros (k & Hk & ->)%fmap_Some. apply parse_unsigned_le in Hk. lia.
Qed.

(** ** Parsed rules *)

Definition byday_wf (b : ByDay) : Prop := ∀ n, bd_ordinal b = Some n → 1 ≤ Z.abs n ≤ 53.

Definition until_wf (u : Until) : Prop :=
  match u with
  | UntilDate d => valid_date d ∧ 1 ≤ year d
  | UntilFloating dt => valid_datetime dt ∧ 1 ≤ year (date dt)
  | UntilUtc _ => True
  end.

Record rrule_wf (r : Rrule) : Prop := {
  wf_interval : 1 ≤ interval r ≤ i64_max;
  wf_count n : count r = Some n → (n ≤ RRULE_MAX_COUNT)%N;
  wf_until u : until r = Some u → until_wf u;
  wf_byday : Forall byday_wf (byday r);
  wf_bymonthday : Forall (λ d, 1 ≤ Z.abs d ≤ 31) (bymonthday r);
  wf_bymonth : Forall (λ m, 1 ≤ m ≤ 12) (bymonth r)
}.

Lemma rrule_default_wf : rrule_wf rrule_default.
Proof. split; cbn; try done; unfold i64_max; lia. Qed.

Lemma parse_byday_wf s b : parse_byday s = Some b → byday_wf b.
Proof.
  unfold parse_byday, byday_wf.
  set (p := match trim s with 45%N :: r => (-1, r) | 43%N :: r => (1, r) | _ => (1, trim s) end).
  assert (p.1 = 1 ∨ p.1 = -1) as Hp.
  { unfold p. clear p. repeat case_match; simplify_eq; cbn; tauto. }
  destruct p as [sign rest]. cbn [fst] in Hp. destruct (take_digits rest) as [digits code].
  destruct (is_nil digits); [|destruct (parse_signed i32_max digits) as [k|]; cbn [mbind option_bind]; [|done];
    destruct (Z.eqb_spec k 0); [done|]; destruct (Z.ltb_spec 53 (Z.abs k)); [done|]];
    cbn [mbind option_bind]; intros (d & _ & ->)%fmap_Some q; cbn [bd_ordinal]; intros E; simplify_eq.
  destruct Hp as [-> | ->]; lia.
Qed.

Lemma omap_Forall {A B} (f : A → option B) (P : B → Prop) l :
  (∀ x y, f x = Some y → P y) → Forall P (omap f l).
Proof.
  intros H. apply Forall_forall. intros y (x & _ & Hx)%list_elem_of_omap. by eapply H.
Qed.

Lemma filter_Forall_id {A} (P : A → Prop) `{∀ x, Decision (P x)} l : Forall P (filter P l).
Proof. apply Forall_forall. by intros x [Hx _]%list_elem_of_filter. Qed.

Section Jiff.
Context {J : Jiff} {JL : JiffLaws J}.

Lemma civil_date_Some y m d x : civil_date y m d = Some x → x = mkDate y m d ∧ valid_date x.
Proof.
  unfold civil_date. destruct (_ && _ && _ && _); [|done]. intros [-> H]%date_new_spec. done.
Qed.

Lemma civil_date_valid d : valid_date d → civil_date (year d) (month d) (day d) = Some d.
Proof.
  intros Hv. pose proof (month_length_range (year d) (month d)) as Hl. pose proof Hv as (Hy & Hm & Hd).
  unfold civil_date. rewrite !(proj2 (Z.leb_le _ _)) by lia. cbn [andb].
  destruct d as [y m n]. cbn [year month day] in *. apply date_new_spec. done.
Qed.

Lemma until_date_Some val d : until_date val = Some d → valid_date d ∧ 1 ≤ year d.
Proof.
  unfold until_date. intros H. inv_run H.
  match goal with E : civil_date _ _ _ = _ |- _ => apply civil_date_Some in E as [-> ?] end.
  split; [done|]. cbn [year].
  match goal with E : negb _ = false |- _ => apply negb_false_iff, andb_true_iff in E as [E _]; lia end.
Qed.

Lemma parse_until_date_wf val u : parse_until_date val = Some (Some u) → until_wf u.
Proof.
  unfold parse_until_date. destruct (until_date val) as [d|] eqn:Ed; [|done].
  apply until_date_Some in Ed as [Hd Hy].
  case_bool_decide; [by intros [= <-]|]. case_bool_decide; cbn [negb]; [|done].
  destruct (until_clock val) as [c|]; [|done].
  destruct (date_at _ _ _ _) as [dt|] eqn:Edt; [|done]. cbn [mbind option_bind].
  apply date_at_spec in Edt as [-> Ht].
  case_bool_decide; [by intros [= <-]|]. case_bool_decide; [|done].
  destruct (to_timestamp _ _); [|done]. by intros [= <-].
Qed.

(** A panic of [parse_until_date] comes from clock fields out of range. *)
Lemma parse_until_date_panic val :
  parse_until_date val = None → ∃ c, until_clock val = Some c ∧ ¬ valid_time c.
Proof.
  unfold parse_until_date. destruct (until_date val) as [d|]; [|done].
  case_bool_decide; [done|]. case_bool_decide; cbn [negb]; [|done].
  destruct (until_clock val) as [c|]; [|done].
  destruct (date_at _ _ _ _) as [dt|] eqn:Edt; [done|]. intros _. exists c. split; [done|].
  intros Hc. destruct c as [h m s]. cbn [hour minute second] in Edt.
  assert (date_at d h m s = Some (mkDateTime d (mkTime h m s))) by by apply date_at_spec. congruence.
Qed.

Lemma flag_unsupported_wf part r : rrule_wf r → rrule_wf (flag_unsupported part r).
Proof.
  intros [? ? ? ? ? ?]. unfold flag_unsupported.
  destruct (list_find _ _) as [[i u]|]; [case_bool_decide|]; by split.
Qed.

Lemma parse_part_wf r part r' : rrule_wf r → parse_part r part = Some r' → rrule_wf r'.
Proof.
  intros [H1 H2 H3 H4 H5 H6]. unfold parse_part.
  destruct (strip_prefix _ part) as [v|]; [intros [= <-]; by split|].
  destruct (strip_prefix _ part) as [v|].
  { intros [= <-]. split; try done. cbn [interval set_interval].
    destruct (parse_signed _ v) as [n|] eqn:E; cbn [default]; unfold i64_max in *; [|cbn; lia].
    apply parse_signed_range in E. cbn [from_option id]. lia. }
  destruct (strip_prefix _ part) as [v|].
  { intros [= <-]. split; try done. cbn [count set_count]. intros n (k & _ & ->)%fmap_Some. lia. }
  destruct (strip_prefix _ part) as [v|].
  { destruct (parse_until_date v) as [u|] eqn:E; [|done]. cbn [mbind option_bind]. intros [= <-].
    split; try done. cbn [until set_until]. intros u' ->. by eapply parse_until_date_wf. }
  destruct (strip_prefix _ part) as [v|].
  { intros [= <-]. split; try done. cbn [byday set_byday]. apply omap_Forall, parse_byday_wf. }
  destruct (strip_prefix _ part) as [v|].
  { intros [= <-]. split; try done. apply filter_Forall_id. }
  destruct (strip_prefix _ part) as [v|].
  { intros [= <-]. split; try done. apply filter_Forall_id. }
  destruct (strip_prefix _ part) as [v|]; [intros [= <-]; by split|].
  intros [= <-]. by apply flag_unsupported_wf.
Qed.

Lemma parse_parts_wf parts r r' : rrule_wf r → fold_opt parse_part parts r = Some r' → rrule_wf r'.
Proof.
  revert r. induction parts as [|p ps IH]; intros r Hr H; cbn [fold_opt] in H; [by simplify_eq|].
  destruct (parse_part r p) eqn:E; cbn [mbind option_bind] in H; [|done].
  eapply IH; [|exact H]. by eapply parse_part_wf.
Qed.

Lemma parse_rrule_wf s r : parse_rrule s = Some r → rrule_wf r.
Proof. apply parse_parts_wf, rrule_default_wf. Qed.

Lemma parse_part_panic r part :
  parse_part r part = None → ∃ val, strip_prefix (slit "UNTIL=") part = Some val ∧ parse_until_date val = None.
Proof.
  unfold parse_part.
  destruct (strip_prefix (slit "FREQ=") part); [done|].
  destruct (strip_prefix (slit "INTERVAL=") part); [done|].
  destruct (strip_prefix (slit "COUNT=") part); [done|].
  destruct (strip_prefix (slit "UNTIL=") part) as [v|].
  { destruct (parse_until_date v) eqn:E; [done|]. eauto. }
  by repeat destruct (strip_prefix _ part).
Qed.

Lemma parse_parts_panic parts r :
  fold_opt parse_part parts r = None →
  ∃ part val, part ∈ parts ∧ strip_prefix (slit "UNTIL=") part = Some val ∧ parse_until_date val = None.
Proof.
  revert r. induction parts as [|p ps IH]; intros r H; cbn [fold_opt] in H; [done|].
  destruct (parse_part r p) as [r'|] eqn:E; cbn [mbind option_bind] in H.
  - destruct (IH _ H) as (part & val & Hin & ?). exists part, val. split; [by right|done].
  - apply parse_part_panic in E as (val & ?). exists p, val. split; [by left|done].
Qed.
End Jiff.

(** ** The days of a month a rule selects

    BYDAY and BYMONTHDAY against their meaning on the calendar. *)

Local Open Scope Z_scope.

Lemma days_in_month_length y m : 1 ≤ m ≤ 12 → days_in_month y m = month_length y m.
Proof.
  intros Hm. unfold days_in_month, month_length, leap_year.
  assert ((Z.rem y 4 =? 0) = (y mod 4 =? 0) ∧ (Z.rem y 100 =? 0) = (y mod 100 =? 0) ∧
          (Z.rem y 400 =? 0) = (y mod 400 =? 0)) as (-> & -> & ->).
  { assert (∀ k, 0 < k → (Z.rem y k =? 0) = (y mod k =? 0)) as H.
    { intros k Hk. apply eq_true_iff_eq. rewrite !Z.eqb_eq, Z.rem_divide, Z.mod_divide by lia. done. }
    rewrite !H by lia. done. }
  assert (m = 1 ∨ m = 2 ∨ m = 3 ∨ m = 4 ∨ m = 5 ∨ m = 6 ∨ m = 7 ∨ m = 8 ∨ m = 9 ∨ m = 10 ∨ m = 11 ∨ m = 12)
    as E by lia.
  destruct_or! E; subst; by destruct (_ || _).
Qed.

(** ** Weekdays of a month *)

(** The days [f], [f + 7], ... of a month of [dim] days. *)
Definition weekly_days (f dim : Z) : list Z :=
  (λ k, f + 7 * Z.of_nat k) <$> seq 0 (Z.to_nat ((dim - f) / 7 + 1)).

Lemma occurrences_weekly w t dim :
  0 ≤ w ≤ 6 → 0 ≤ t ≤ 6 → 28 ≤ dim ≤ 31 →
  filter (λ d, (w + (d - 1) mod 7) mod 7 = t) (days_upto dim) = weekly_days ((t - w) mod 7 + 1) dim.
Proof.
  intros Hw Ht Hd.
  assert (w = 0 ∨ w = 1 ∨ w = 2 ∨ w = 3 ∨ w = 4 ∨ w = 5 ∨ w = 6) as Ew by lia.
  assert (t = 0 ∨ t = 1 ∨ t = 2 ∨ t = 3 ∨ t = 4 ∨ t = 5 ∨ t = 6) as Et by lia.
  assert (dim = 28 ∨ dim = 29 ∨ dim = 30 ∨ dim = 31) as Ed by lia.
  clear Hw Ht Hd. destruct_or! Ew; destruct_or! Et; destruct_or! Ed; subst; vm_compute; reflexivity.
Qed.

Lemma elem_of_weekly f dim d : 1 ≤ f ≤ 7 →
  d ∈ weekly_days f dim ↔ f ≤ d ≤ dim ∧ (d - f) mod 7 = 0.
Proof.
  intros Hf. unfold weekly_days. rewrite list_elem_of_fmap. setoid_rewrite elem_of_seq. split.
  - intros (k & -> & Hk). Z.div_mod_to_equations. lia.
  - intros [Hd Hm]. exists (Z.to_nat ((d - f) / 7)). Z.div_mod_to_equations. lia.
Qed.

Lemma weekly_nth f dim n d : 1 ≤ f ≤ 7 → 28 ≤ dim → 0 < n →
  weekly_days f dim !! Z.to_nat (n - 1) = Some d ↔ d ∈ weekly_days f dim ∧ n = (d - 1) / 7 + 1.
Proof.
  intros Hf Hdim Hn. rewrite elem_of_weekly by done. unfold weekly_days.
  rewrite list_lookup_fmap, fmap_Some. setoid_rewrite lookup_seq. split.
  - intros (k & [-> Hk] & ->). Z.div_mod_to_equations. lia.
  - intros [[Hd Hm] ->]. exists (Z.to_nat ((d - f) / 7)). Z.div_mod_to_equations. lia.
Qed.

Lemma weekly_nth_back f dim n d : 1 ≤ f ≤ 7 → 28 ≤ dim → n < 0 →
  reverse (weekly_days f dim) !! Z.to_nat (- n - 1) = Some d ↔
  d ∈ weekly_days f dim ∧ n = - ((dim - d) / 7 + 1).
Proof.
  intros Hf Hdim Hn.
  assert (length (weekly_days f dim) = Z.to_nat ((dim - f) / 7 + 1)) as Hlen.
  { unfold weekly_days. by rewrite length_fmap, length_seq. }
  destruct (decide (Z.to_nat (- n - 1) < length (weekly_days f dim))%nat) as [Hl|Hl].
  - rewrite reverse_lookup by done. rewrite elem_of_weekly by done. rewrite Hlen in *.
    unfold weekly_days. rewrite list_lookup_fmap, fmap_Some. setoid_rewrite lookup_seq. split.
    + intros (k & [-> Hk] & ->). Z.div_mod_to_equations. lia.
    + intros [[Hd Hm] ->]. exists (Z.to_nat ((d - f) / 7)). Z.div_mod_to_equations. lia.
  - rewrite lookup_ge_None_2 by (rewrite length_reverse; lia). rewrite elem_of_weekly by done.
    split; [done|]. intros [[Hd Hm] ->]. exfalso. rewrite Hlen in Hl. Z.div_mod_to_equations. lia.
Qed.

Lemma list_elem_of_option_list {A} (x : A) o : x ∈ option_list o ↔ o = Some x.
Proof. destruct o; cbn; [rewrite list_elem_of_singleton|rewrite elem_of_nil]; naive_solver. Qed.

(** ** The meaning of BYDAY and BYMONTHDAY *)

(** Day [d] of a month is an occurrence BYDAY names: its weekday, and its number
    from the start or from the end. *)
Definition byday_on (y m d : Z) (b : ByDay) : Prop :=
  weekday_of (epoch_day (mkDate y m d)) = bd_day b ∧
  ∀ n, bd_ordinal b = Some n → n = (d - 1) / 7 + 1 ∨ n = - ((month_length y m - d) / 7 + 1).

Definition bymonthday_on (y m d k : Z) : Prop := k = d ∨ k = d - month_length y m - 1.

(** The day satisfies each of the two parts the rule has. *)
Definition day_selected (y m d : Z) (byday : list ByDay) (bymonthday : list Z) : Prop :=
  1 ≤ d ≤ month_length y m ∧
  (byday = [] ∨ ∃ b, b ∈ byday ∧ byday_on y m d b) ∧
  (bymonthday = [] ∨ ∃ k, k ∈ bymonthday ∧ bymonthday_on y m d k).

Section Jiff.
Context {J : Jiff} {JL : JiffLaws J}.

Lemma epoch_day_shift y m d : epoch_day (mkDate y m d) = epoch_day (mkDate y m 1) + (d - 1).
Proof. unfold epoch_day. cbn [year month day]. lia. Qed.

Section month.
Context (y m : Z) (Hy : -9999 ≤ y ≤ 9999) (Hm : 1 ≤ m ≤ 12).

Lemma first_day_valid : valid_date (mkDate y m 1).
Proof. pose proof (month_length_range y m). split; cbn; lia. Qed.

(** The first such weekday. *)
Definition first_weekday (wd : Weekday) : Z :=
  (to_monday_zero_offset wd - to_monday_zero_offset (weekday_of (epoch_day (mkDate y m 1)))) mod 7 + 1.

Lemma first_weekday_range wd : 1 ≤ first_weekday wd ≤ 7.
Proof.
  unfold first_weekday. pose proof (Z.mod_pos_bound (to_monday_zero_offset wd -
    to_monday_zero_offset (weekday_of (epoch_day (mkDate y m 1)))) 7 ltac:(lia)). lia.
Qed.

Lemma weekday_occurrences_eq wd :
  weekday_occurrences_in_month y m wd = weekly_days (first_weekday wd) (month_length y m).
Proof.
  unfold weekday_occurrences_in_month.
  pose proof (civil_date_valid _ first_day_valid) as E. cbn [year month day] in E. rewrite E.
  rewrite weekday_spec, days_in_month_length by (done || apply first_day_valid).
  apply occurrences_weekly; [apply to_monday_zero_offset_range..|].
  pose proof (month_length_range y m). lia.
Qed.

Lemma weekly_weekday wd d :
  d ∈ weekly_days (first_weekday wd) (month_length y m) ↔
  1 ≤ d ≤ month_length y m ∧ weekday_of (epoch_day (mkDate y m d)) = wd.
Proof.
  pose proof (first_weekday_range wd) as Hf. rewrite elem_of_weekly by done.
  rewrite weekday_of_eq, epoch_day_shift. unfold first_weekday in *.
  rewrite weekday_of_offset in *. pose proof (to_monday_zero_offset_range wd).
  Z.div_mod_to_equations. lia.
Qed.

Lemma nth_weekday_spec wd n d :
  nth_weekday_in_month y m wd n = Some d ↔
  d ∈ weekly_days (first_weekday wd) (month_length y m) ∧
  (n = (d - 1) / 7 + 1 ∨ n = - ((month_length y m - d) / 7 + 1)).
Proof.
  unfold nth_weekday_in_month. rewrite weekday_occurrences_eq.
  pose proof (first_weekday_range wd) as Hf. pose proof (month_length_range y m) as Hl.
  destruct (Z.ltb_spec 0 n); [|destruct (Z.ltb_spec n 0)].
  - rewrite weekly_nth by lia. split; [tauto|]. intros [Hd [|Hn]]; [done|].
    apply weekly_weekday in Hd as [? _]. Z.div_mod_to_equations. lia.
  - rewrite weekly_nth_back by lia. split; [tauto|]. intros [Hd [Hn|]]; [|done].
    apply weekly_weekday in Hd as [? _]. Z.div_mod_to_equations. lia.
  - split; [done|]. intros [Hd Hn]. apply weekly_weekday in Hd as [? _]. exfalso.
    destruct Hn as [Hn|Hn]; revert Hn; Z.div_mod_to_equations; lia.
Qed.

Lemma byday_days_spec bs d :
  d ∈ (bs ≫= λ b,
        match bd_ordinal b with
        | None => weekday_occurrences_in_month y m (bd_day b)
        | Some n => option_list (nth_weekday_in_month y m (bd_day b) n)
        end) ↔
  1 ≤ d ≤ month_length y m ∧ ∃ b, b ∈ bs ∧ byday_on y m d b.
Proof.
  rewrite list_elem_of_bind. unfold byday_on. split.
  - intros (b & H & Hb). destruct (bd_ordinal b) as [n|] eqn:En.
    + apply list_elem_of_option_list, nth_weekday_spec in H as [Hd Hn].
      apply weekly_weekday in Hd as [? ?]. split; [done|]. exists b. naive_solver.
    + rewrite weekday_occurrences_eq in H. apply weekly_weekday in H as [? ?]. split; [done|].
      exists b. naive_solver.
  - intros (Hd & b & Hb & Hw & Hn). exists b. split; [|done].
    assert (d ∈ weekly_days (first_weekday (bd_day b)) (month_length y m)) by by apply weekly_weekday.
    destruct (bd_ordinal b) as [n|].
    + apply list_elem_of_option_list, nth_weekday_spec. split; [done|]. by apply Hn.
    + by rewrite weekday_occurrences_eq.
Qed.

Lemma bymonthday_days_spec (ks : list Z) d :
  d ∈ omap (M:=list) (λ k,
        let resolved := if k <? 0 then days_in_month y m + k + 1 else k in
        if (resolved <? 1) || (days_in_month y m <? resolved) then None else Some resolved) ks ↔
  1 ≤ d ≤ month_length y m ∧ ∃ k, k ∈ ks ∧ bymonthday_on y m d k.
Proof.
  rewrite days_in_month_length by done. rewrite list_elem_of_omap. unfold bymonthday_on. cbv zeta. split.
  - intros (k & Hk & H). destruct (Z.ltb_spec k 0);
      (destruct (_ || _) eqn:E; [done|]; apply orb_false_iff in E as [E1 E2]; injection H as H;
       split; [lia|]; exists k; split; [done|lia]).
  - intros (Hd & k & Hk & Hor). exists k. split; [done|].
    destruct (Z.ltb_spec k 0).
    + destruct Hor; [lia|]. replace (month_length y m + k + 1) with d by lia.
      destruct (Z.ltb_spec d 1), (Z.ltb_spec (month_length y m) d); (lia || done).
    + destruct Hor; [subst k|lia].
      destruct (Z.ltb_spec d 1), (Z.ltb_spec (month_length y m) d); (lia || done).
Qed.

Lemma collect_monthly_days_spec bs ks d : ¬ (bs = [] ∧ ks = []) →
  d ∈ collect_monthly_days y m bs ks ↔ day_selected y m d bs ks.
Proof.
  intros Hne. unfold collect_monthly_days, day_selected.
  destruct (is_nil bs) eqn:Eb, (is_nil ks) eqn:Ek;
    try apply is_nil_spec in Eb as ->; try apply is_nil_spec in Ek as ->.
  - by destruct Hne.
  - rewrite bymonthday_days_spec. assert (ks ≠ []) by by intros ->. naive_solver.
  - rewrite byday_days_spec. assert (bs ≠ []) by by intros ->. naive_solver.
  - rewrite list_elem_of_filter, byday_days_spec, bymonthday_days_spec.
    assert (ks ≠ []) by by intros ->. assert (bs ≠ []) by by intros ->. naive_solver.
Qed.

(** The days an expander visits in a month: what the parts select, or the day of
    the first instance when the month has it. *)
Definition day_visited (rule : Rrule) (original_day d : Z) : Prop :=
  if is_nil (byday rule) && is_nil (bymonthday rule) then d = original_day ∧ d ≤ month_length y m
  else day_selected y m d (byday rule) (bymonthday rule).

Lemma month_days_spec rule original_day d :
  d ∈ month_days rule y m original_day ↔ day_visited rule original_day d.
Proof.
  unfold month_days, day_visited.
  destruct (is_nil (byday rule) && is_nil (bymonthday rule)) eqn:E.
  - rewrite days_in_month_length by done. destruct (Z.leb_spec original_day (month_length y m)).
    + rewrite list_elem_of_singleton. naive_solver lia.
    + rewrite elem_of_nil. naive_solver lia.
  - rewrite elem_of_dedup, sort_by_perm. apply collect_monthly_days_spec.
    intros [E1 E2]. by rewrite E1, E2 in E.
Qed.
End month.

Lemma month_days_sorted rule y m original_day : StronglySorted Z.lt (month_days rule y m original_day).
Proof.
  unfold month_days. destruct (_ && _).
  - destruct (_ <=? _); repeat constructor.
  - apply dedup_sorted. exact (sort_by_sorted id _).
Qed.
End Jiff.
