(* ===== verification/RecurrenceLoops.v ===== *)
(** * RecurrenceLoops: what the expanders yield

    Each expander is the first [cap] instants of a list that does not depend on
    the cap: the same time of day on the days of a lattice (DAILY, WEEKLY), or
    on the selected days of the months of a lattice (MONTHLY, YEARLY). *)

From stdpp Require Import sorting list_numbers.
From S2P Require Import Prelude.
From S2P Require Import Strings.
From S2P Require Import Civil.
From S2P Require Import Recurrence.
From S2P Require Import RecurrenceTheory.

Local Open Scope Z_scope.

(** ** Lists *)

Lemma take_stop {A} cap (out rest : list A) :
  (cap ≤ length out)%nat → (length out ≤ cap)%nat → take cap (out ++ rest) = out.
Proof. intros H1 H2. by rewrite take_app_length' by lia. Qed.

Lemma take_take_app {A} cap (a b : list A) : take cap (take cap a ++ b) = take cap (a ++ b).
Proof.
  destruct (decide (length a ≤ cap)%nat); [by rewrite (take_ge a)|].
  rewrite !take_app_le by (rewrite ?length_take; lia). rewrite take_take. f_equal. lia.
Qed.

Section sorted.
Implicit Types l : list Z.

Lemma sorted_app l1 l2 :
  StronglySorted Z.lt (l1 ++ l2) ↔
  StronglySorted Z.lt l1 ∧ StronglySorted Z.lt l2 ∧ ∀ x y, x ∈ l1 → y ∈ l2 → x < y.
Proof.
  induction l1 as [|a l1 IH]; cbn [app].
  - split; [intros H|intros (_ & H & _)]; [|done]. split; [constructor|]. split; [done|]. by intros ?? ?%elem_of_nil.
  - split.
    + intros [Hs Ha]%StronglySorted_inv. apply IH in Hs as (H1 & H2 & H3).
      apply Forall_app in Ha as [Ha1 Ha2]. rewrite Forall_forall in Ha2. split; [by constructor|]. split; [done|].
      intros x y [->|Hx]%elem_of_cons Hy; [by apply Ha2|by apply H3].
    + intros ([Hs Ha]%StronglySorted_inv & H2 & H3). constructor.
      * apply IH. split; [done|]. split; [done|]. intros x y Hx Hy. apply H3; [by right|done].
      * apply Forall_app. split; [done|]. apply Forall_forall. intros y Hy. apply H3; [by left|done].
Qed.

Lemma sorted_filter (P : Z → Prop) `{∀ x, Decision (P x)} l :
  StronglySorted Z.lt l → StronglySorted Z.lt (filter P l).
Proof.
  induction 1 as [|x l Hs IH Hx]; [constructor|]. rewrite filter_cons. case_decide; [|done].
  constructor; [done|]. rewrite Forall_forall in *. intros y [_ Hy]%list_elem_of_filter. by apply Hx.
Qed.

Lemma sorted_omap {A} (r : A → A → Prop) (f : A → option Z) (xs : list A) :
  StronglySorted r xs →
  (∀ x y a b, x ∈ xs → y ∈ xs → r x y → f x = Some a → f y = Some b → a < b) →
  StronglySorted Z.lt (omap f xs).
Proof.
  induction 1 as [|x xs Hs IH Hx]; intros Hf; [constructor|]. cbn.
  assert (StronglySorted Z.lt (omap f xs)) as Hl.
  { apply IH. intros u v a b Hu Hv. apply Hf; by right. }
  destruct (f x) as [a|] eqn:E; [|done]. constructor; [done|].
  apply Forall_forall. intros b (y & Hy & Ey)%list_elem_of_omap. rewrite Forall_forall in Hx.
  apply (Hf x y); [by left|by right|by apply Hx|done..].
Qed.

Lemma sorted_bind {A} (f : A → list Z) (r : A → A → Prop) (xs : list A) :
  StronglySorted r xs → (∀ x, x ∈ xs → StronglySorted Z.lt (f x)) →
  (∀ x y a b, x ∈ xs → y ∈ xs → r x y → a ∈ f x → b ∈ f y → a < b) →
  StronglySorted Z.lt (xs ≫= f).
Proof.
  induction 1 as [|x xs Hs IH Hx]; intros H1 H2; [constructor|]. cbn [mbind list_bind].
  apply sorted_app. split; [apply H1; by left|]. split.
  - apply IH; [intros y Hy; apply H1; by right|].
    intros u v a b Hu Hv. apply H2; by right.
  - intros a b Ha (y & Hb & Hy)%list_elem_of_bind. rewrite Forall_forall in Hx.
    apply (H2 x y); [by left|by right|by apply Hx|done..].
Qed.

Lemma sorted_NoDup l : StronglySorted Z.lt l → NoDup l.
Proof.
  induction 1 as [|y l Hs IH Hy]; [constructor|]. constructor; [|done].
  intros Hin. rewrite Forall_forall in Hy. specialize (Hy _ Hin). lia.
Qed.

Lemma seqZ_sorted a n : StronglySorted Z.lt (seqZ a n).
Proof.
  unfold seqZ. assert (∀ s k, StronglySorted Z.lt ((λ i : nat, Z.of_nat i + a) <$> seq s k)) as H; [|apply H].
  intros s k. revert s. induction k as [|k IH]; intros s; cbn; [constructor|].
  constructor; [apply IH|]. apply Forall_forall. intros y (i & -> & Hi%elem_of_seq)%list_elem_of_fmap. lia.
Qed.
End sorted.

(** ** Instants with one time of day *)

Section Jiff.
Context {J : Jiff} {JL : JiffLaws J}.

(** The time of day is never skipped by a change of the zone, and the instants
    with it are in the order of the days: so it is for every time outside the
    hours in which a zone changes its clocks. *)
Record steady (z : TimeZone) (tm : Time) : Prop := {
  steady_back d t : valid_date d → to_timestamp z (mkDateTime d tm) = Some t →
    to_datetime z t = Some (mkDateTime d tm);
  steady_mono d d' t t' : valid_date d → valid_date d' → epoch_day d < epoch_day d' →
    to_timestamp z (mkDateTime d tm) = Some t → to_timestamp z (mkDateTime d' tm) = Some t' → t < t'
}.

(** The instant with the time of day of [dt], [k] days later. *)
Definition instant_at (tz : RecurrenceTz) (dt : DateTime) (k : Z) : option Z :=
  d ← date_add_days (date dt) k; resolve tz (mkDateTime d (time dt)).

Section at_dt.
Context (tz : RecurrenceTz) (dt : DateTime) (Hdt : valid_date (date dt)) (Hst : steady (zone tz) (time dt)).

Lemma instant_at_inv k t : instant_at tz dt k = Some t →
  ∃ d, date_add_days (date dt) k = Some d ∧ valid_date d ∧ epoch_day d = epoch_day (date dt) + k ∧
    resolve tz (mkDateTime d (time dt)) = Some t ∧ naive tz t = Some (mkDateTime d (time dt)).
Proof.
  unfold instant_at. intros H. destruct (date_add_days (date dt) k) as [d|] eqn:E; [|done].
  cbn [mbind option_bind] in H. exists d. split; [done|].
  apply date_add_days_spec in E as [Hv He]; [|done]. split; [done|]. split; [done|]. split; [done|].
  by apply (steady_back _ _ Hst).
Qed.

Lemma instant_at_mono k k' t t' :
  k < k' → instant_at tz dt k = Some t → instant_at tz dt k' = Some t' → t < t'.
Proof.
  intros Hk (d & _ & Hd & Ed & Ht & _)%instant_at_inv (d' & _ & Hd' & Ed' & Ht' & _)%instant_at_inv.
  apply (steady_mono _ _ Hst d d'); [done..|lia|done|done].
Qed.

Lemma instant_at_le k k' t t' :
  instant_at tz dt k = Some t → instant_at tz dt k' = Some t' → k ≤ k' ↔ t ≤ t'.
Proof.
  intros H H'. destruct (Z.lt_trichotomy k k') as [Hk|[->|Hk]].
  - pose proof (instant_at_mono _ _ _ _ Hk H H'). lia.
  - simplify_eq. lia.
  - pose proof (instant_at_mono _ _ _ _ Hk H' H). lia.
Qed.

(** Moving by days from one instant reaches the other. *)
Lemma add_days_lattice a b t t' :
  instant_at tz dt a = Some t → instant_at tz dt (a + b) = Some t' → Z.abs b ≤ SPAN_MAX_DAYS →
  valid_time (time dt) → add_days_in_zone t b tz = Some (Some t').
Proof.
  intros (d & _ & Hd & Ed & _ & Hn)%instant_at_inv (d' & _ & Hd' & Ed' & Ht' & _)%instant_at_inv Hb Htm.
  unfold add_days_in_zone. rewrite Hn.
  rewrite (proj2 (span_days_spec b b)) by done. cbn [mbind option_bind].
  rewrite datetime_add_days_spec by done. cbn [date time].
  rewrite (proj2 (date_add_days_spec d b d' Hd)) by (split; [done|lia]). cbn. by rewrite Ht'.
Qed.

Lemma step_days_lattice a b t t' :
  instant_at tz dt a = Some t → instant_at tz dt (a + b) = Some t' → Z.abs b ≤ SPAN_MAX_DAYS →
  valid_time (time dt) → step_days t b tz = Some t'.
Proof. intros H1 H2 H3 H4. unfold step_days. by rewrite (add_days_lattice a b t t'). Qed.

Lemma weekday_lattice a t : instant_at tz dt a = Some t →
  ∃ d, naive tz t = Some (mkDateTime d (time dt)) ∧ valid_date d ∧
    epoch_day d = epoch_day (date dt) + a ∧ weekday d = weekday_of (epoch_day (date dt) + a).
Proof.
  intros (d & _ & Hd & Ed & _ & Hn)%instant_at_inv. exists d. rewrite weekday_spec, Ed by done. done.
Qed.

Lemma instant_at_naive t : instant_at tz dt 0 = Some t → naive tz t = Some dt.
Proof.
  intros (d & _ & Hd & Ed & _ & Hn)%instant_at_inv. rewrite Z.add_0_r in Ed.
  apply epoch_day_inj in Ed as ->; [|done..]. by destruct dt.
Qed.

(** ** DAILY *)

Definition weekday_passes (days : list Weekday) (n : Z) : Prop := days = [] ∨ weekday_of n ∈ days.

#[export] Instance weekday_passes_dec days n : Decision (weekday_passes days n).
Proof. unfold weekday_passes. apply _. Defined.

(** The instants on every [step]-th day, from the [i]-th of them on. *)
Definition daily_list (days : list Weekday) (step i : Z) (n : nat) : list Z :=
  omap (λ k, if decide (weekday_passes days (epoch_day (date dt) + k * step))
             then instant_at tz dt (k * step) else None)
    (seqZ i (Z.of_nat n)).

Lemma daily_list_S days step i n :
  daily_list days step i (S n) =
  option_list (if decide (weekday_passes days (epoch_day (date dt) + i * step))
               then instant_at tz dt (i * step) else None) ++ daily_list days step (i + 1) n.
Proof.
  unfold daily_list. rewrite seqZ_cons by lia.
  replace (Z.pred (Z.of_nat (S n))) with (Z.of_nat n) by lia.
  cbn. case_decide; [|done]. by destruct (instant_at tz dt (i * step)).
Qed.

Lemma elem_of_daily_list days step n t :
  t ∈ daily_list days step 0 n ↔
  ∃ k, 0 ≤ k < Z.of_nat n ∧ instant_at tz dt (k * step) = Some t ∧
    weekday_passes days (epoch_day (date dt) + k * step).
Proof.
  unfold daily_list. rewrite list_elem_of_omap. setoid_rewrite elem_of_seqZ. split.
  - intros (k & Hk & H). case_decide; [|done]. exists k. split; [lia|done].
  - intros (k & Hk & H & Hp). exists k. rewrite decide_True by done. split; [lia|done].
Qed.

Lemma daily_list_sorted days step i n : 1 ≤ step → StronglySorted Z.lt (daily_list days step i n).
Proof.
  intros Hs. apply (sorted_omap Z.lt); [apply seqZ_sorted|]. intros x y a b _ _ Hxy Ha Hb.
  repeat case_decide; try done. eapply instant_at_mono; [|done..]. nia.
Qed.

Lemma matches_weekday_passes days k t : instant_at tz dt k = Some t →
  is_nil days || matches_weekday t days tz = bool_decide (weekday_passes days (epoch_day (date dt) + k)).
Proof.
  intros (d & Hn & _ & _ & Hw)%weekday_lattice. unfold matches_weekday, weekday_passes. rewrite Hn. cbn [date].
  rewrite Hw. destruct days as [|w days].
  - cbn [is_nil orb]. symmetry. apply bool_decide_eq_true. by left.
  - cbn [is_nil orb]. apply bool_decide_ext. naive_solver.
Qed.

Lemma daily_loop_list steps cap days step i t out :
  valid_time (time dt) → 0 < step ≤ SPAN_MAX_DAYS →
  (∀ k, i ≤ k ≤ i + Z.of_nat steps → is_Some (instant_at tz dt (k * step))) →
  instant_at tz dt (i * step) = Some t → (length out ≤ cap)%nat →
  daily_loop steps cap days step tz t out = Some (take cap (out ++ daily_list days step i steps)).
Proof.
  intros Htm Hs. revert i t out. induction steps as [|steps IH]; intros i t out Hreach Ht Hlen.
  { cbn. by rewrite app_nil_r, take_ge by done. }
  cbn [daily_loop]. destruct (Nat.leb_spec cap (length out)); [by rewrite take_stop|].
  rewrite (matches_weekday_passes _ _ _ Ht), daily_list_S, Ht.
  destruct (Hreach (i + 1)) as [t' Ht']; [lia|].
  rewrite (step_days_lattice (i * step) step t t'); [|done|by rewrite <- Ht'; f_equal; lia|lia|done].
  cbn [mbind option_bind]. rewrite (IH (i + 1)); [|intros k Hk; apply Hreach; lia|done|].
  - case_bool_decide; [rewrite decide_True by done|rewrite decide_False by done]; cbn [option_list];
      by rewrite <- ?(assoc_L (++)).
  - case_bool_decide; rewrite ?length_app; cbn; lia.
Qed.

(** ** WEEKLY with BYDAY *)

Definition offset_in_week (first w : Weekday) : Z :=
  (to_monday_zero_offset w - to_monday_zero_offset first) mod 7.

(** Days from the start of the week to the first instance. *)
Definition days_into_week (first : Weekday) : Z :=
  offset_in_week first (weekday_of (epoch_day (date dt))).

Lemma start_of_week_lattice start first a :
  valid_time (time dt) → instant_at tz dt 0 = Some start →
  instant_at tz dt (- days_into_week first) = Some a → start_of_week start first tz = Some a.
Proof.
  intros Htm H0 Ha. unfold start_of_week. rewrite (instant_at_naive _ H0), weekday_spec by done.
  fold (offset_in_week first (weekday_of (epoch_day (date dt)))). fold (days_into_week first).
  rewrite (add_days_lattice 0 (- days_into_week first) start a); [done|done|by rewrite <- Ha; f_equal; lia| |done].
  assert (0 ≤ days_into_week first < 7) by (apply Z.mod_pos_bound; lia). unfold SPAN_MAX_DAYS. lia.
Qed.

(** The days of the [k]-th visited week, counted from the first instance. *)
Definition week_offset (first : Weekday) (interval k : Z) (w : Weekday) : Z :=
  - days_into_week first + 7 * interval * k + offset_in_week first w.

Definition week_list (days : list Weekday) (first : Weekday) (interval start k : Z) : list Z :=
  filter (λ t, start ≤ t) (omap (λ w, instant_at tz dt (week_offset first interval k w)) days).

Definition weekly_list (days : list Weekday) (first : Weekday) (interval start i : Z) (n : nat) : list Z :=
  seqZ i (Z.of_nat n) ≫= week_list days first interval start.

Lemma anchor_weekday first interval k :
  weekday_of (epoch_day (date dt) + (- days_into_week first + 7 * interval * k)) = first.
Proof.
  apply weekday_of_eq. unfold days_into_week, offset_in_week. rewrite weekday_of_offset.
  pose proof (to_monday_zero_offset_range first).
  rewrite (Z.mul_comm 7), <- Z.mul_assoc, (Z.mul_comm 7), Z.mul_assoc.
  rewrite <- Z.add_assoc, (Z.add_comm _ 3), !Z.add_assoc, Z.mod_add by lia.
  Z.div_mod_to_equations. lia.
Qed.

Lemma shift_lattice first interval k w start a t :
  valid_time (time dt) → naive tz start = Some dt →
  instant_at tz dt (- days_into_week first + 7 * interval * k) = Some a →
  instant_at tz dt (week_offset first interval k w) = Some t →
  shift_to_weekday a w start tz = Some t.
Proof.
  intros Htm Hstart Ha Ht. unfold shift_to_weekday.
  destruct (weekday_lattice _ _ Ha) as (d & Hn & Hd & Ed & Hw). rewrite Hn, Hstart. cbn [date].
  rewrite Hw, anchor_weekday. fold (offset_in_week first w).
  assert (0 ≤ offset_in_week first w < 7) by (apply Z.mod_pos_bound; lia).
  rewrite (proj2 (span_days_spec _ _)) by (split; [done|unfold SPAN_MAX_DAYS; lia]).
  cbn [mbind option_bind].
  apply instant_at_inv in Ht as (d' & _ & Hd' & Ed' & Hr & _). unfold week_offset in Ed'.
  rewrite (proj2 (date_add_days_spec d _ d' Hd)) by (split; [done|lia]).
  by rewrite Hr.
Qed.

Section weeks.
Context (first : Weekday) (interval start : Z) (Htm : valid_time (time dt)) (Hstart : naive tz start = Some dt).

Lemma week_list_cons k w days t :
  instant_at tz dt (week_offset first interval k w) = Some t →
  week_list (w :: days) first interval start k =
  (if decide (start ≤ t) then [t] else []) ++ week_list days first interval start k.
Proof.
  intros H. unfold week_list. set (f := λ w, instant_at tz dt (week_offset first interval k w)).
  assert (omap f (w :: days) = t :: omap f days) as -> by (cbn; unfold f at 1; by rewrite H).
  rewrite filter_cons. by case_decide.
Qed.

Lemma week_days_list cap k a days out :
  instant_at tz dt (- days_into_week first + 7 * interval * k) = Some a →
  (∀ w, w ∈ days → is_Some (instant_at tz dt (week_offset first interval k w))) →
  (length out < cap)%nat →
  week_days cap a start tz days out = Some (take cap (out ++ week_list days first interval start k)).
Proof.
  intros Ha. revert out. induction days as [|w days IH]; intros out Hd Hlen; cbn [week_days].
  { cbn. by rewrite app_nil_r, take_ge by lia. }
  destruct (Hd w) as [t Ht]; [by left|]. rewrite (shift_lattice first interval k w start a t) by done.
  rewrite (week_list_cons k w days t Ht). cbn [mbind option_bind].
  assert (∀ w, w ∈ days → is_Some (instant_at tz dt (week_offset first interval k w))) as Hd'
    by (intros; apply Hd; by right).
  destruct (Z.ltb_spec t start).
  - rewrite decide_False by lia. by apply IH.
  - rewrite decide_True by lia. destruct (Nat.leb_spec cap (length (out ++ [t]))) as [Hc|Hc].
    + rewrite (assoc_L (++)). rewrite take_stop; [done|done|].
      rewrite length_app in *. cbn in *. lia.
    + rewrite IH by done. by rewrite <- (assoc_L (++)).
Qed.

Lemma weekly_loop_list steps cap days i a out :
  0 < interval → 7 * interval ≤ SPAN_MAX_DAYS →
  (∀ k, i ≤ k ≤ i + Z.of_nat steps →
     is_Some (instant_at tz dt (- days_into_week first + 7 * interval * k)) ∧
     ∀ w, w ∈ days → is_Some (instant_at tz dt (week_offset first interval k w))) →
  instant_at tz dt (- days_into_week first + 7 * interval * i) = Some a → (length out ≤ cap)%nat →
  weekly_loop steps cap days (interval * 7) start tz a out =
  Some (take cap (out ++ weekly_list days first interval start i steps)).
Proof.
  intros H0 Hspan. revert i a out. induction steps as [|steps IH]; intros i a out Hreach Ha Hlen.
  { cbn. by rewrite app_nil_r, take_ge by done. }
  cbn [weekly_loop]. destruct (Nat.leb_spec cap (length out)); [by rewrite take_stop|].
  rewrite (week_days_list cap i a) by (done || apply Hreach; lia). cbn [mbind option_bind].
  destruct (Hreach (i + 1)) as [[a' Ha'] _]; [lia|].
  rewrite (step_days_lattice (- days_into_week first + 7 * interval * i) (interval * 7) a a');
    [|done|by rewrite <- Ha'; f_equal; lia|lia|done].
  cbn [mbind option_bind]. rewrite (IH (i + 1)); [|intros k Hk; apply Hreach; lia|done|].
  - unfold weekly_list. rewrite (seqZ_cons i (Z.of_nat (S steps))) by lia.
    replace (Z.pred (Z.of_nat (S steps))) with (Z.of_nat steps) by lia.
    replace (Z.succ i) with (i + 1) by lia. cbn [mbind list_bind].
    by rewrite take_take_app, (assoc_L (++)).
  - rewrite length_take. lia.
Qed.

Lemma week_offset_weekday k w : weekday_of (epoch_day (date dt) + week_offset first interval k w) = w.
Proof.
  apply weekday_of_eq. pose proof (anchor_weekday first interval k) as Ha%weekday_of_eq.
  unfold week_offset, offset_in_week. pose proof (to_monday_zero_offset_range w).
  rewrite <- Ha. Z.div_mod_to_equations. lia.
Qed.

Lemma offset_in_week_range w : 0 ≤ offset_in_week first w < 7.
Proof. apply Z.mod_pos_bound. lia. Qed.

Lemma offset_in_week_inj w w' : offset_in_week first w = offset_in_week first w' → w = w'.
Proof.
  unfold offset_in_week. intros E. apply to_monday_zero_offset_inj.
  pose proof (to_monday_zero_offset_range w). pose proof (to_monday_zero_offset_range w').
  Z.div_mod_to_equations. lia.
Qed.

(** Every day is in one week, at the offset of its weekday. *)
Lemma day_of_week j :
  j = - days_into_week first + 7 * ((days_into_week first + j) / 7) +
      offset_in_week first (weekday_of (epoch_day (date dt) + j)).
Proof.
  unfold days_into_week, offset_in_week. rewrite !weekday_of_offset. Z.div_mod_to_equations. lia.
Qed.

Lemma elem_of_weekly_list days n t : 0 < interval → instant_at tz dt 0 = Some start →
  t ∈ weekly_list days first interval start 0 n ↔
  ∃ j, 0 ≤ j ∧ instant_at tz dt j = Some t ∧ weekday_of (epoch_day (date dt) + j) ∈ days ∧
    ((days_into_week first + j) / 7) mod interval = 0 ∧
    (days_into_week first + j) / 7 < interval * Z.of_nat n.
Proof.
  intros Hi H0. unfold weekly_list, week_list. rewrite list_elem_of_bind. split.
  - intros (k & [Hs (w & Hw & Ht)%list_elem_of_omap]%list_elem_of_filter & Hk%elem_of_seqZ).
    exists (week_offset first interval k w). rewrite week_offset_weekday.
    assert ((days_into_week first + week_offset first interval k w) / 7 = interval * k) as ->.
    { pose proof (offset_in_week_range w). unfold week_offset. Z.div_mod_to_equations. lia. }
    split; [by apply (instant_at_le 0 (week_offset first interval k w) start t)|].
    split; [done|]. split; [done|]. split; [|nia].
    rewrite Z.mul_comm. by apply Z.mod_mul; lia.
  - intros (j & Hj & Ht & Hw & Hm & Hn).
    assert ((days_into_week first + j) / 7 = interval * ((days_into_week first + j) / 7 / interval)) as Hk.
    { by apply Z.div_exact; [lia|]. }
    exists ((days_into_week first + j) / 7 / interval). rewrite list_elem_of_filter, list_elem_of_omap, elem_of_seqZ.
    assert (0 ≤ (days_into_week first + j) / 7).
    { pose proof (offset_in_week_range (weekday_of (epoch_day (date dt)))).
      unfold days_into_week in *. apply Z.div_pos; lia. }
    split; [split; [by apply (instant_at_le 0 j start t)|]|].
    + exists (weekday_of (epoch_day (date dt) + j)). split; [done|]. rewrite <- Ht. f_equal.
      unfold week_offset. rewrite <- Z.mul_assoc, <- Hk. symmetry. apply day_of_week.
    + split; [by apply Z.div_pos; lia|]. apply Z.div_lt_upper_bound; lia.
Qed.

Lemma week_order_sorted ws : NoDup ws →
  StronglySorted (λ w w', offset_in_week first w < offset_in_week first w') (week_order first ws).
Proof.
  intros Hnd. unfold week_order. fold (offset_in_week first).
  assert (NoDup (sort_by (offset_in_week first) ws)) as Hnd' by by rewrite sort_by_perm.
  pose proof (sort_by_sorted (offset_in_week first) ws) as Hs. revert Hnd'.
  induction Hs as [|w l Hs IH Hw]; [constructor|]. intros [Hni Hnd']%NoDup_cons.
  constructor; [by apply IH|]. rewrite Forall_forall in *. intros w' Hw'.
  assert (offset_in_week first w ≠ offset_in_week first w').
  { intros ->%offset_in_week_inj. done. }
  specialize (Hw _ Hw'). simpl in Hw. lia.
Qed.

Lemma weekly_list_sorted days i n : 0 < interval →
  StronglySorted (λ w w', offset_in_week first w < offset_in_week first w') days →
  StronglySorted Z.lt (weekly_list days first interval start i n).
Proof.
  intros Hi Hd. apply (sorted_bind _ Z.lt); [apply seqZ_sorted| |].
  - intros k _. apply sorted_filter, (sorted_omap _ _ _ Hd). intros w w' a b _ _ Hlt.
    apply instant_at_mono. unfold week_offset. lia.
  - intros k k' a b _ _ Hk [_ (w & _ & Ha)%list_elem_of_omap]%list_elem_of_filter
      [_ (w' & _ & Hb)%list_elem_of_omap]%list_elem_of_filter.
    revert Ha Hb. apply instant_at_mono. unfold week_offset.
    pose proof (offset_in_week_range w). pose proof (offset_in_week_range w'). nia.
Qed.
End weeks.
End at_dt.
End Jiff.

(** ** What MONTHLY and YEARLY yield

    The loops over months and years, with their early returns and their machine
    integers, against the lattice of months they visit. *)

Local Open Scope Z_scope.

Section Jiff.
Context {J : Jiff} {JL : JiffLaws J}.
Context (tz : RecurrenceTz) (rule : Rrule) (t : Time) (original_day start : Z).

(** The instances of a month. *)
Definition month_list (y m : Z) : list Z :=
  filter (λ ts, start ≤ ts)
    (omap (λ d, with_ymd_time t y m d tz) (month_days rule y m original_day)).

Lemma push_days_list cap y m days out :
  (length out < cap)%nat →
  push_days cap t y m start tz days out =
  take cap (out ++ filter (λ ts, start ≤ ts) (omap (λ d, with_ymd_time t y m d tz) days)).
Proof.
  revert out. induction days as [|d days IH]; intros out Hlen; cbn [push_days].
  { cbn. by rewrite app_nil_r, take_ge by lia. }
  set (f := λ d, with_ymd_time t y m d tz) in *.
  destruct (with_ymd_time t y m d tz) as [ts|] eqn:E.
  - assert (omap f (d :: days) = ts :: omap f days) as -> by (cbn; unfold f at 1; by rewrite E).
    rewrite filter_cons. destruct (Z.leb_spec start ts).
    + rewrite decide_True by done. set (later := filter _ _).
      replace (out ++ ts :: later) with ((out ++ [ts]) ++ later) by by rewrite <- (assoc_L (++)).
      destruct (Nat.leb_spec cap (length (out ++ [ts]))) as [Hc|Hc].
      * rewrite take_stop; [done|done|]. rewrite length_app in *. cbn in *. lia.
      * subst later. by apply IH.
    + rewrite decide_False by lia. by apply IH.
  - assert (omap f (d :: days) = omap f days) as -> by (cbn; unfold f at 1; by rewrite E).
    by apply IH.
Qed.

Lemma push_month_list cap y m out : (length out < cap)%nat →
  push_days cap t y m start tz (month_days rule y m original_day) out = take cap (out ++ month_list y m).
Proof. apply push_days_list. Qed.

(** A date an instance of a month is on. *)
Definition on_month (y m ts : Z) : Prop :=
  ∃ d, valid_date (mkDate y m d) ∧ day_visited y m rule original_day d ∧
    resolve tz (mkDateTime (mkDate y m d) t) = Some ts ∧ start ≤ ts.

Lemma elem_of_month_list y m ts : ts ∈ month_list y m ↔ on_month y m ts.
Proof.
  unfold month_list, on_month. rewrite list_elem_of_filter, list_elem_of_omap. unfold with_ymd_time. split.
  - intros (Hs & d & Hd & H). destruct (civil_date y m d) as [x|] eqn:E; [|done].
    apply civil_date_Some in E as [-> Hv]. cbn [mbind option_bind] in H.
    exists d. pose proof Hv as (Hy & Hm & _). cbn in Hy, Hm.
    rewrite month_days_spec in Hd by done. done.
  - intros (d & Hv & Hd & H & Hs). split; [done|]. exists d.
    pose proof Hv as (Hy & Hm & _). cbn in Hy, Hm. split; [by apply month_days_spec|].
    pose proof (civil_date_valid _ Hv) as E. cbn [year month day] in E. by rewrite E.
Qed.

Hypothesis Hst : steady (zone tz) t.

Lemma on_month_lt y m y' m' a b :
  on_month y m a → on_month y' m' b → y < y' ∨ y = y' ∧ m < m' → a < b.
Proof.
  intros (d & Hv & _ & Ha & _) (d' & Hv' & _ & Hb & _) H.
  apply (steady_mono _ _ Hst _ _ _ _ Hv Hv'); [|done..]. apply epoch_day_lt; [done..|].
  unfold date_lt. cbn. tauto.
Qed.

Lemma month_list_sorted y m : StronglySorted Z.lt (month_list y m).
Proof.
  apply sorted_filter, (sorted_omap Z.lt); [apply month_days_sorted|].
  intros d d' a b _ _ Hlt. unfold with_ymd_time.
  destruct (civil_date y m d) as [x|] eqn:E; [|done].
  destruct (civil_date y m d') as [x'|] eqn:E'; [|done]. cbn [mbind option_bind].
  apply civil_date_Some in E as [-> Hv]. apply civil_date_Some in E' as [-> Hv'].
  apply (steady_mono _ _ Hst); [done..|]. apply epoch_day_lt; [done..|]. right. cbn. lia.
Qed.

(** ** MONTHLY *)

(** The [k]-th visited month, counting from month [c] (in months of year 0). *)
Definition visited_month (c k : Z) : Z * Z :=
  let n := c + k * interval rule in (n / 12, n mod 12 + 1).

Definition monthly_list (c i : Z) (n : nat) : list Z :=
  seqZ i (Z.of_nat n) ≫= λ k, month_list (visited_month c k).1 (visited_month c k).2.

Lemma month_list_far y m : 9999 < y → month_list y m = [].
Proof.
  intros Hy. destruct (month_list y m) as [|ts l] eqn:E; [done|]. exfalso.
  assert (ts ∈ month_list y m) as (d & (Hv & _) & _)%elem_of_month_list by (rewrite E; left).
  cbn in Hv. lia.
Qed.

Lemma monthly_list_far c i n : 0 ≤ interval rule → 9999 < (c + i * interval rule) / 12 → monthly_list c i n = [].
Proof.
  intros Hi Hy. unfold monthly_list. revert i Hy. induction n as [|n IH]; intros i Hy; [done|].
  rewrite (seqZ_cons i (Z.of_nat (S n))) by lia.
  replace (Z.pred (Z.of_nat (S n))) with (Z.of_nat n) by lia. cbn [mbind list_bind].
  rewrite (month_list_far (visited_month c i).1) by done. apply IH.
  assert ((c + i * interval rule) / 12 ≤ (c + Z.succ i * interval rule) / 12); [|lia].
  apply Z.div_le_mono; lia.
Qed.

Lemma monthly_loop_list steps cap c i out :
  1 ≤ interval rule ≤ 2147483647 → -9999 ≤ (c + i * interval rule) / 12 ≤ 2147483647 →
  (length out ≤ cap)%nat →
  monthly_loop steps cap rule t original_day start tz
    (visited_month c i).1 (visited_month c i).2 out =
  take cap (out ++ monthly_list c i steps).
Proof.
  intros Hint. revert i out. induction steps as [|steps IH]; intros i out Hy Hlen.
  { cbn. by rewrite app_nil_r, take_ge by done. }
  cbn [monthly_loop]. destruct (Nat.leb_spec cap (length out)); [by rewrite take_stop|].
  rewrite push_month_list by done.
  unfold monthly_list. rewrite (seqZ_cons i (Z.of_nat (S steps))) by lia.
  replace (Z.pred (Z.of_nat (S steps))) with (Z.of_nat steps) by lia.
  replace (Z.succ i) with (i + 1) by lia. cbn [mbind list_bind].
  change (mbind _ (seqZ (i + 1) _)) with (monthly_list c (i + 1) steps).
  set (out' := take cap (out ++ _)).
  rewrite (assoc_L (++)), <- (take_take_app cap (out ++ _)). fold out'.
  assert (length out' ≤ cap)%nat as Hlen' by (unfold out'; rewrite length_take; lia).
  destruct (Nat.leb_spec cap (length out')) as [Hc|Hc]; [by rewrite take_stop|].
  unfold visited_month at 1 2 3. cbn [fst snd].
  set (n := c + i * interval rule).
  pose proof (Z.mod_pos_bound n 12 ltac:(lia)).
  rewrite wrap_i64_id by (unfold i64_min, i64_max; lia).
  replace (n mod 12 + 1 - 1 + interval rule) with (n mod 12 + interval rule) by lia.
  assert ((n mod 12 + interval rule) mod 12 = (c + (i + 1) * interval rule) mod 12 ∧
          n / 12 + (n mod 12 + interval rule) / 12 = (c + (i + 1) * interval rule) / 12) as [E1 E2].
  { replace (c + (i + 1) * interval rule) with (n + interval rule) by (unfold n; lia).
    generalize n. clear. intros n. Z.div_mod_to_equations. lia. }
  assert (i32_or 0 ((n mod 12 + interval rule) / 12) = (n mod 12 + interval rule) / 12) as ->.
  { unfold i32_or, i32_ok. assert (0 ≤ (n mod 12 + interval rule) / 12 ≤ 2147483647).
    { clear E1 E2. Z.div_mod_to_equations. lia. }
    by rewrite !(proj2 (Z.leb_le _ _)) by lia. }
  unfold checked_add_i32. rewrite E1, E2. unfold i32_ok.
  assert (n / 12 ≤ (c + (i + 1) * interval rule) / 12) by (apply Z.div_le_mono; lia).
  fold n in Hy.
  destruct (Z.leb_spec ((c + (i + 1) * interval rule) / 12) 2147483647).
  - rewrite (proj2 (Z.leb_le _ _)) by lia. cbn [andb].
    apply (IH (i + 1)); [lia|done].
  - rewrite andb_false_r. rewrite monthly_list_far by lia. by rewrite app_nil_r, take_ge by lia.
Qed.

Lemma elem_of_monthly_list c n ts :
  ts ∈ monthly_list c 0 n ↔
  ∃ k, 0 ≤ k < Z.of_nat n ∧ on_month (visited_month c k).1 (visited_month c k).2 ts.
Proof.
  unfold monthly_list. rewrite list_elem_of_bind. setoid_rewrite elem_of_seqZ. split.
  - intros (k & H & Hk). exists k. split; [lia|]. by apply elem_of_month_list.
  - intros (k & Hk & H). exists k. split; [|lia]. by apply elem_of_month_list.
Qed.

Lemma monthly_list_sorted c i n : 1 ≤ interval rule → StronglySorted Z.lt (monthly_list c i n).
Proof.
  intros Hi. apply (sorted_bind _ Z.lt); [apply seqZ_sorted|intros; apply month_list_sorted|].
  intros k k' a b _ _ Hk Ha%elem_of_month_list Hb%elem_of_month_list.
  apply (on_month_lt _ _ _ _ _ _ Ha Hb). assert (c + k * interval rule < c + k' * interval rule) as Hlt by nia.
  unfold visited_month. cbn [fst snd].
  revert Hlt. generalize (c + k * interval rule) (c + k' * interval rule). intros u v Hlt.
  Z.div_mod_to_equations. lia.
Qed.

(** ** YEARLY *)

Definition year_list (months : list Z) (y : Z) : list Z := months ≫= λ m, month_list y m.

Lemma push_months_list cap y months out : (length out < cap)%nat →
  push_months cap rule t y original_day start tz months out = take cap (out ++ year_list months y).
Proof.
  revert out. induction months as [|m months IH]; intros out Hlen; cbn [push_months].
  { cbn. by rewrite app_nil_r, take_ge by lia. }
  rewrite push_month_list by done. unfold year_list. cbn [mbind list_bind].
  change (mbind _ months) with (year_list months y). rewrite (assoc_L (++)), <- (take_take_app cap (out ++ _)).
  set (out' := take cap (out ++ _)).
  assert (length out' ≤ cap)%nat as Hlen' by (unfold out'; rewrite length_take; lia).
  destruct (Nat.leb_spec cap (length out')); [by rewrite take_stop|]. by apply IH.
Qed.

Definition yearly_list (months : list Z) (y i : Z) (n : nat) : list Z :=
  seqZ i (Z.of_nat n) ≫= λ k, year_list months (y + k * interval rule).

Lemma year_list_far months y : 9999 < y → year_list months y = [].
Proof.
  intros Hy. unfold year_list. induction months as [|m ms IH]; [done|]. cbn [mbind list_bind].
  by rewrite month_list_far.
Qed.

Lemma yearly_list_far months y i n :
  0 ≤ interval rule → 9999 < y + i * interval rule → yearly_list months y i n = [].
Proof.
  intros Hi Hy. unfold yearly_list. revert i Hy. induction n as [|n IH]; intros i Hy; [done|].
  rewrite (seqZ_cons i (Z.of_nat (S n))) by lia.
  replace (Z.pred (Z.of_nat (S n))) with (Z.of_nat n) by lia. cbn [mbind list_bind].
  rewrite year_list_far by done. apply IH. lia.
Qed.

Lemma yearly_loop_list steps cap months y i out :
  1 ≤ interval rule ≤ 2147483647 → -9999 ≤ y + i * interval rule ≤ 2147483647 →
  (length out ≤ cap)%nat →
  yearly_loop steps cap rule t months original_day start tz (y + i * interval rule) out =
  take cap (out ++ yearly_list months y i steps).
Proof.
  intros Hint. revert i out. induction steps as [|steps IH]; intros i out Hy Hlen.
  { cbn. by rewrite app_nil_r, take_ge by done. }
  cbn [yearly_loop]. destruct (Nat.leb_spec cap (length out)); [by rewrite take_stop|].
  rewrite push_months_list by done.
  unfold yearly_list. rewrite (seqZ_cons i (Z.of_nat (S steps))) by lia.
  replace (Z.pred (Z.of_nat (S steps))) with (Z.of_nat steps) by lia.
  replace (Z.succ i) with (i + 1) by lia. cbn [mbind list_bind].
  change (mbind _ (seqZ (i + 1) _)) with (yearly_list months y (i + 1) steps).
  rewrite (assoc_L (++)), <- (take_take_app cap (out ++ _)). set (out' := take cap (out ++ _)).
  assert (length out' ≤ cap)%nat as Hlen' by (unfold out'; rewrite length_take; lia).
  destruct (Nat.leb_spec cap (length out')) as [Hc|Hc]; [by rewrite take_stop|].
  assert (i32_or 1 (interval rule) = interval rule) as ->.
  { unfold i32_or, i32_ok. by rewrite !(proj2 (Z.leb_le _ _)) by lia. }
  unfold checked_add_i32, i32_ok.
  replace (y + i * interval rule + interval rule) with (y + (i + 1) * interval rule) by lia.
  destruct (Z.leb_spec (y + (i + 1) * interval rule) 2147483647).
  - rewrite (proj2 (Z.leb_le _ _)) by lia. cbn [andb]. apply (IH (i + 1)); [lia|done].
  - rewrite andb_false_r. rewrite yearly_list_far by lia. by rewrite app_nil_r, take_ge by lia.
Qed.

Lemma elem_of_yearly_list months y n ts :
  ts ∈ yearly_list months y 0 n ↔
  ∃ k m, 0 ≤ k < Z.of_nat n ∧ m ∈ months ∧ on_month (y + k * interval rule) m ts.
Proof.
  unfold yearly_list, year_list. rewrite list_elem_of_bind. setoid_rewrite list_elem_of_bind.
  setoid_rewrite elem_of_seqZ. setoid_rewrite elem_of_month_list. split.
  - intros (k & (m & H & Hm) & Hk). exists k, m. split; [lia|done].
  - intros (k & m & Hk & Hm & H). exists k. split; [by exists m|lia].
Qed.

Lemma yearly_list_sorted months y i n : 1 ≤ interval rule → StronglySorted Z.lt months →
  StronglySorted Z.lt (yearly_list months y i n).
Proof.
  intros Hi Hm. apply (sorted_bind _ Z.lt); [apply seqZ_sorted| |].
  - intros k _. apply (sorted_bind _ Z.lt); [done|intros; apply month_list_sorted|].
    intros m m' a b _ _ Hlt Ha%elem_of_month_list Hb%elem_of_month_list.
    apply (on_month_lt _ _ _ _ _ _ Ha Hb). by right.
  - intros k k' a b _ _ Hk (m & Ha%elem_of_month_list & _)%list_elem_of_bind
      (m' & Hb%elem_of_month_list & _)%list_elem_of_bind.
    apply (on_month_lt _ _ _ _ _ _ Ha Hb). left. nia.
Qed.
End Jiff.
