(* ===== verification/RecurrenceEvents.v ===== *)
(** * RecurrenceEvents: from candidates to events

    The loop that turns candidates into instances, when the expansion panics,
    and the index of overrides of the view. *)

From stdpp Require Import sorting list_numbers.
From S2P Require Import Prelude.
From S2P Require Import Strings.
From S2P Require Import Bytes.
From S2P Require Import Civil.
From S2P Require Import Recurrence.
From S2P Require Import RecurrenceTheory.
From S2P Require Import RecurrenceLoops.

Local Open Scope Z_scope.

(** The candidates before the first one past the end of the window. *)
Fixpoint until_after {A} (f : A → Z) (last : Z) (l : list A) : list A :=
  match l with
  | [] => []
  | x :: l => if last <? f x then [] else x :: until_after f last l
  end.

Lemma until_after_fmap {A} (f : A → Z) last l : f <$> until_after f last l = until_after id last (f <$> l).
Proof.
  induction l as [|x l IH]; [done|]. cbn. unfold id at 1. destruct (last <? f x); [done|]. cbn. by rewrite IH.
Qed.

Lemma until_after_sublist {A} (f : A → Z) last l : until_after f last l `sublist_of` l.
Proof.
  induction l as [|x l IH]; [done|]. cbn. destruct (last <? f x); [apply sublist_nil_l|by apply sublist_skip].
Qed.

Lemma filter_none {A} (P : A → Prop) `{∀ x, Decision (P x)} l : (∀ x, x ∈ l → ¬ P x) → filter P l = [].
Proof.
  induction l as [|x l IH]; intros Hn; [done|]. rewrite filter_cons_False by (apply Hn; left).
  apply IH. intros y Hy. apply Hn. by right.
Qed.

(** In a sorted list they are the ones up to the end. *)
Lemma until_after_sorted last l : StronglySorted Z.lt l → until_after id last l = filter (λ t, t ≤ last) l.
Proof.
  induction 1 as [|x l Hs IH Hx]; [done|]. cbn [until_after]. unfold id at 1.
  rewrite Forall_forall in Hx. destruct (Z.ltb_spec last x).
  - symmetry. apply filter_none. intros y [->|Hy]%elem_of_cons; [lia|]. specialize (Hx _ Hy). lia.
  - rewrite filter_cons_True by lia. by rewrite IH.
Qed.

Lemma decimal_inj n m : decimal n = decimal m → n = m.
Proof. intros E. by rewrite <- (decimal_value n), <- (decimal_value m), E. Qed.

Section Jiff.
Context {J : Jiff} {JL : JiffLaws J}.

(** ** The instances *)

(** The instance made of the [p.1]-th candidate [p.2]. *)
Definition instance_of (event : CalendarViewEvent) (tz : RecurrenceTz) (p : nat * Z) : CalendarViewEvent :=
  set_instance
    (if (0 <? p.1)%nat then ev_id event ++ slit "__recur_" ++ decimal (N.of_nat p.1) else ev_id event)
    p.2
    (end_time_for_instance p.2 (wall_duration event tz) tz (wrap_i64 (end_time event - start_time event)))
    event.

Definition slot_free (event : CalendarViewEvent) (tz : RecurrenceTz) (overrides : gset str) (t : Z) : Prop :=
  canonical_recurrence_slot t tz (all_day event) ∉ overrides.

#[export] Instance slot_free_dec event tz overrides t : Decision (slot_free event tz overrides t).
Proof. unfold slot_free. apply _. Defined.

(** The candidates that become instances, with their numbers. *)
Definition kept (event : CalendarViewEvent) (tz : RecurrenceTz) (overrides : gset str) (last : Z) (idx : nat)
    (starts : list Z) : list (nat * Z) :=
  filter (λ p, slot_free event tz overrides p.2)
    (until_after snd last (zip (seq idx (length starts)) starts)).

Lemma instances_loop_kept event tz overrides last max idx starts out :
  (length out + length starts ≤ max)%nat →
  instances_loop event tz overrides last max idx starts out =
  out ++ (instance_of event tz <$> kept event tz overrides last idx starts).
Proof.
  revert idx out. induction starts as [|s starts IH]; intros idx out Hlen; cbn [instances_loop].
  { by rewrite app_nil_r. }
  unfold kept. cbn [length seq zip zip_with until_after snd]. cbn [length] in Hlen.
  destruct (last <? s); [by rewrite app_nil_r|].
  destruct (Nat.leb_spec max (length out)); [lia|]. rewrite filter_cons. cbn [snd].
  unfold slot_free at 1.
  destruct (bool_decide (overrides ≠ ∅) &&
            bool_decide (canonical_recurrence_slot s tz (all_day event) ∈ overrides)) eqn:E.
  - apply andb_true_iff in E as [_ E%bool_decide_eq_true]. rewrite decide_False by auto.
    apply IH. lia.
  - rewrite decide_True.
    + rewrite IH by (rewrite length_app; cbn; lia). by rewrite <- (assoc_L (++)).
    + intros Hin. rewrite !bool_decide_true in E; [done| |]; set_solver.
Qed.

Lemma kept_starts event tz overrides last idx starts :
  snd <$> kept event tz overrides last idx starts =
  filter (slot_free event tz overrides) (until_after id last starts).
Proof.
  unfold kept. revert idx. induction starts as [|s starts IH]; intros idx; [done|].
  cbn [length seq zip zip_with until_after snd]. unfold id at 1. destruct (last <? s); [done|].
  rewrite !filter_cons. cbn [snd]. case_decide; [cbn; f_equal|]; apply IH.
Qed.

Lemma kept_numbers event tz overrides last idx starts : NoDup (kept event tz overrides last idx starts).*1.
Proof.
  assert (kept event tz overrides last idx starts `sublist_of` zip (seq idx (length starts)) starts) as Hs.
  { unfold kept. etransitivity; [apply sublist_filter|apply until_after_sublist]. }
  apply (fmap_sublist fst) in Hs. eapply sublist_NoDup; [|exact Hs].
  rewrite fst_zip by (rewrite length_seq; lia). apply NoDup_seq.
Qed.

Lemma instance_id_inj event tz p q :
  ev_id (instance_of event tz p) = ev_id (instance_of event tz q) → p.1 = q.1.
Proof.
  unfold instance_of. cbn [ev_id set_instance].
  destruct (Nat.ltb_spec 0 p.1), (Nat.ltb_spec 0 q.1); intros E; try lia.
  - do 2 apply (inj _) in E. apply decimal_inj in E. lia.
  - apply (f_equal length) in E. rewrite !length_app in E. cbn in E. lia.
  - apply (f_equal length) in E. rewrite !length_app in E. cbn in E. lia.
Qed.

Lemma instance_ids event tz (ps : list (nat * Z)) :
  NoDup ps.*1 → NoDup (ev_id <$> (instance_of event tz <$> ps)).
Proof.
  induction ps as [|p ps IH]; cbn [fmap list_fmap]; [constructor|].
  intros [Hni Hnd]%NoDup_cons. apply NoDup_cons. split; [|by apply IH].
  intros (e & Ee & (q & -> & Hq)%list_elem_of_fmap)%list_elem_of_fmap.
  apply instance_id_inj in Ee. apply Hni. rewrite Ee. by apply list_elem_of_fmap_2.
Qed.

(** ** The expanders respect their cap *)

Lemma instance_cap_pos rule d : (1 ≤ instance_cap rule d)%nat.
Proof. unfold instance_cap. destruct (count rule); [lia|]. destruct (until rule); unfold RRULE_MAX_COUNT; lia. Qed.

Lemma instance_cap_mono rule d d' : (d ≤ d')%N → (instance_cap rule d ≤ instance_cap rule d')%nat.
Proof. intros H. unfold instance_cap. destruct (count rule); [lia|]. destruct (until rule); lia. Qed.

Lemma daily_loop_length steps cap days n tz t out r :
  (length out ≤ cap)%nat → daily_loop steps cap days n tz t out = Some r → (length r ≤ cap)%nat.
Proof.
  revert t out. induction steps as [|steps IH]; intros t out Hlen H; cbn [daily_loop] in H; [by simplify_eq|].
  destruct (Nat.leb_spec cap (length out)); [by simplify_eq|].
  destruct (step_days t n tz); [|done]. cbn [mbind option_bind] in H.
  eapply IH; [|exact H]. destruct (_ || _); rewrite ?length_app; cbn; lia.
Qed.

Lemma week_days_length cap a start tz days out r :
  (length out < cap)%nat → week_days cap a start tz days out = Some r → (length r ≤ cap)%nat.
Proof.
  revert out. induction days as [|w days IH]; intros out Hlen H; cbn [week_days] in H; [simplify_eq; lia|].
  destruct (shift_to_weekday a w start tz) as [c|]; [|done]. cbn [mbind option_bind] in H.
  destruct (c <? start); [by eapply IH|].
  destruct (Nat.leb_spec cap (length (out ++ [c]))); [|by eapply IH].
  simplify_eq. rewrite length_app in *. cbn in *. lia.
Qed.

Lemma weekly_loop_length steps cap days n start tz a out r :
  (length out ≤ cap)%nat → weekly_loop steps cap days n start tz a out = Some r → (length r ≤ cap)%nat.
Proof.
  revert a out. induction steps as [|steps IH]; intros a out Hlen H; cbn [weekly_loop] in H; [by simplify_eq|].
  destruct (Nat.leb_spec cap (length out)); [by simplify_eq|].
  destruct (week_days cap a start tz days out) as [out'|] eqn:E; [|done]. cbn [mbind option_bind] in H.
  destruct (step_days a n tz); [|done]. cbn [mbind option_bind] in H.
  eapply IH; [|exact H]. by eapply week_days_length.
Qed.

Lemma push_days_length cap t y m start tz days out :
  (length out < cap)%nat → (length (push_days cap t y m start tz days out) ≤ cap)%nat.
Proof.
  revert out. induction days as [|d days IH]; intros out Hlen; cbn [push_days]; [lia|].
  destruct (with_ymd_time t y m d tz) as [ts|]; [|by apply IH].
  destruct (start <=? ts); [|by apply IH].
  destruct (Nat.leb_spec cap (length (out ++ [ts]))); [|by apply IH].
  rewrite length_app in *. cbn in *. lia.
Qed.

Lemma monthly_loop_length steps cap rule t od start tz y m out :
  (length out ≤ cap)%nat → (length (monthly_loop steps cap rule t od start tz y m out) ≤ cap)%nat.
Proof.
  revert y m out. induction steps as [|steps IH]; intros y m out Hlen; cbn [monthly_loop]; [done|].
  destruct (Nat.leb_spec cap (length out)); [done|].
  pose proof (push_days_length cap t y m start tz (month_days rule y m od) out ltac:(done)).
  destruct (cap <=? _)%nat; [done|]. destruct (checked_add_i32 _ _); [by apply IH|done].
Qed.

Lemma push_months_length cap rule t y od start tz months out :
  (length out < cap)%nat → (length (push_months cap rule t y od start tz months out) ≤ cap)%nat.
Proof.
  revert out. induction months as [|m ms IH]; intros out Hlen; cbn [push_months]; [lia|].
  pose proof (push_days_length cap t y m start tz (month_days rule y m od) out ltac:(done)).
  destruct (Nat.leb_spec cap (length (push_days cap t y m start tz (month_days rule y m od) out))); [done|].
  by apply IH.
Qed.

Lemma yearly_loop_length steps cap rule t months od start tz y out :
  (length out ≤ cap)%nat → (length (yearly_loop steps cap rule t months od start tz y out) ≤ cap)%nat.
Proof.
  revert y out. induction steps as [|steps IH]; intros y out Hlen; cbn [yearly_loop]; [done|].
  destruct (Nat.leb_spec cap (length out)); [done|].
  pose proof (push_months_length cap rule t y od start tz months out ltac:(done)).
  destruct (cap <=? _)%nat; [done|]. destruct (checked_add_i32 _ _); [by apply IH|done].
Qed.

Lemma candidates_length freq start rule tz starts :
  candidate_starts freq start rule tz = Some starts → (length starts ≤ instance_cap rule 800)%nat.
Proof.
  unfold candidate_starts. pose proof (instance_cap_mono rule 200 800 ltac:(done)) as Hm.
  destruct freq; [apply daily_loop_length; cbn; lia| | |].
  - unfold expand_weekly. destruct (is_nil (byday rule)); [apply daily_loop_length; cbn; lia|].
    destruct (start_of_week _ _ _); [|done]. cbn [mbind option_bind]. apply weekly_loop_length. cbn; lia.
  - intros [= <-]. unfold expand_monthly. destruct (naive tz start); [|cbn; lia].
    apply monthly_loop_length. cbn; lia.
  - intros [= <-]. unfold expand_yearly. destruct (naive tz start); [|cbn; lia].
    etransitivity; [apply yearly_loop_length; cbn; lia|done].
Qed.

(** ** When nothing panics *)

Lemma add_days_total t n tz : Z.abs n ≤ SPAN_MAX_DAYS → is_Some (add_days_in_zone t n tz).
Proof.
  intros Hn. unfold add_days_in_zone. destruct (naive tz t); [|done].
  rewrite (proj2 (span_days_spec n n)) by done. done.
Qed.

Lemma step_days_total t n tz : Z.abs n ≤ SPAN_MAX_DAYS → is_Some (step_days t n tz).
Proof. intros Hn. unfold step_days. by destruct (add_days_total t n tz Hn) as [x ->]. Qed.

Lemma daily_loop_total steps cap days n tz t out :
  Z.abs n ≤ SPAN_MAX_DAYS → is_Some (daily_loop steps cap days n tz t out).
Proof.
  intros Hn. revert t out. induction steps as [|steps IH]; intros t out; cbn [daily_loop]; [done|].
  destruct (cap <=? length out)%nat; [done|]. destruct (step_days_total t n tz Hn) as [x ->].
  cbn [mbind option_bind]. apply IH.
Qed.

Lemma mod7_span n : Z.abs (n mod 7) ≤ SPAN_MAX_DAYS.
Proof. unfold SPAN_MAX_DAYS. pose proof (Z.mod_pos_bound n 7 ltac:(lia)). lia. Qed.

Lemma shift_to_weekday_total a w s tz : is_Some (shift_to_weekday a w s tz).
Proof.
  unfold shift_to_weekday. destruct (naive tz a); [|done]. destruct (naive tz s); [|done].
  by rewrite (proj2 (span_days_spec _ _)) by (split; [done|apply mod7_span]).
Qed.

Lemma week_days_total cap a start tz days out : is_Some (week_days cap a start tz days out).
Proof.
  revert out. induction days as [|w days IH]; intros out; cbn [week_days]; [done|].
  destruct (shift_to_weekday_total a w start tz) as [c ->]. cbn [mbind option_bind].
  destruct (c <? start); [apply IH|]. destruct (cap <=? _)%nat; [done|apply IH].
Qed.

Lemma weekly_loop_total steps cap days n start tz a out :
  Z.abs n ≤ SPAN_MAX_DAYS → is_Some (weekly_loop steps cap days n start tz a out).
Proof.
  intros Hn. revert a out. induction steps as [|steps IH]; intros a out; cbn [weekly_loop]; [done|].
  destruct (cap <=? length out)%nat; [done|]. destruct (week_days_total cap a start tz days out) as [x ->].
  cbn [mbind option_bind]. destruct (step_days_total a n tz Hn) as [y ->]. cbn [mbind option_bind]. apply IH.
Qed.

Lemma candidates_total freq start rule tz :
  1 ≤ interval rule → interval rule * 7 ≤ SPAN_MAX_DAYS → is_Some (candidate_starts freq start rule tz).
Proof.
  intros H1 Hn. assert (wrap_i64 (interval rule * 7) = interval rule * 7) as Hw.
  { apply wrap_i64_id. unfold SPAN_MAX_DAYS, i64_min, i64_max in *. lia. }
  destruct freq; cbn [candidate_starts]; [apply daily_loop_total; lia| |done..].
  unfold expand_weekly. rewrite Hw. destruct (is_nil _); [apply daily_loop_total; lia|].
  assert (is_Some (start_of_week start (default Monday (wkst rule)) tz)) as [x ->].
  { unfold start_of_week. destruct (naive tz start); [|done].
    match goal with |- context [add_days_in_zone _ ?d _] => destruct (add_days_total start d tz) as [y ->] end; [|done].
    rewrite Z.abs_opp. apply mod7_span. }
  cbn [mbind option_bind]. apply weekly_loop_total. lia.
Qed.

Lemma valid_end_of_day : valid_time (mkTime 23 59 59).
Proof. unfold valid_time. cbn. lia. Qed.

Lemma expansion_end_total start rule tz h : is_Some (expansion_end start rule tz h).
Proof.
  unfold expansion_end. destruct (until rule) as [[d|dt|t]|]; [|done..].
  cbn [until_resolve]. rewrite (proj2 (date_at_spec d 23 59 59 _)) by (split; [done|apply valid_end_of_day]).
  done.
Qed.

(** The RRULE of an event whose every UNTIL has clock fields in range. *)
Definition until_clocks_ok (rrule_str : str) : Prop :=
  ∀ part val c,
    part ∈ split_char 59 (default rrule_str (strip_prefix (slit "RRULE:") rrule_str)) →
    strip_prefix (slit "UNTIL=") part = Some val → until_clock val = Some c → valid_time c.

Lemma parse_rrule_total s : until_clocks_ok s → is_Some (parse_rrule s).
Proof.
  intros Hok. destruct (parse_rrule s) as [r|] eqn:E; [done|]. exfalso.
  apply parse_parts_panic in E as (part & val & Hin & Hp & Hv).
  apply parse_until_date_panic in Hv as (c & Hc & Hbad). apply Hbad. by eapply Hok.
Qed.

Lemma expand_total event s overrides h :
  until_clocks_ok s → (∀ r, parse_rrule s = Some r → interval r * 7 ≤ SPAN_MAX_DAYS) →
  is_Some (expand_recurrence_windowed event s overrides h).
Proof.
  intros Hok Hi. unfold expand_recurrence_windowed.
  destruct (parse_rrule_total s Hok) as [r Er]. rewrite Er. cbn [mbind option_bind].
  destruct (freq_parse (freq r)) as [f|]; [|done].
  destruct (negb _); [done|]. destruct (year_scope_ordinal f r); [done|].
  destruct (expansion_end_total (start_time event) r (from_event_timezone (timezone event)) h) as [e ->].
  cbn [mbind option_bind].
  destruct (candidates_total f (start_time event) r (from_event_timezone (timezone event))) as [c ->]; [|by apply Hi|done].
  apply parse_rrule_wf in Er. apply Er.
Qed.

(** ** Expanding an event *)

Lemma expand_eq event s overrides h r f e starts :
  parse_rrule s = Some r → freq_parse (freq r) = Some f → unsupported_parts r = [] →
  year_scope_ordinal f r = false →
  expansion_end (start_time event) r (from_event_timezone (timezone event)) h = Some e →
  candidate_starts f (start_time event) r (from_event_timezone (timezone event)) = Some starts →
  expand_recurrence_windowed event s overrides h =
  Some (instance_of event (from_event_timezone (timezone event)) <$>
          kept event (from_event_timezone (timezone event)) overrides e 0 starts).
Proof.
  intros Er Ef Eu Ey Ee Es. unfold expand_recurrence_windowed. rewrite Er. cbn [mbind option_bind].
  rewrite Ef, Eu, Ey, Ee. cbn [is_nil negb mbind option_bind]. rewrite Es. cbn [mbind option_bind].
  rewrite instances_loop_kept; [done|]. cbn [length]. by eapply candidates_length.
Qed.

(** ** The override slots of a series *)

Lemma index_override_spec m ev k c :
  c ∈ default ∅ (index_override m ev !! k) ↔
  c ∈ default ∅ (m !! k) ∨
  ∃ u, uid ev = Some u ∧ recurrence_id_canonical ev = Some c ∧ k = (account_id ev, u).
Proof.
  unfold index_override. destruct (uid ev) as [u|]; [|naive_solver].
  destruct (recurrence_id_canonical ev) as [c'|]; [|naive_solver].
  destruct (decide (k = (account_id ev, u))) as [->|Hne].
  - rewrite lookup_insert_eq. cbn [default from_option id]. rewrite elem_of_union, elem_of_singleton. naive_solver.
  - rewrite lookup_insert_ne by done. naive_solver.
Qed.

Lemma overrides_by_series_spec rows k c :
  c ∈ default ∅ (overrides_by_series rows !! k) ↔
  ∃ o u, o ∈ rows ∧ uid o = Some u ∧ recurrence_id_canonical o = Some c ∧ k = (account_id o, u).
Proof.
  unfold overrides_by_series.
  assert (∀ m, c ∈ default ∅ (foldl index_override m rows !! k) ↔
    c ∈ default ∅ (m !! k) ∨
    ∃ o u, o ∈ rows ∧ uid o = Some u ∧ recurrence_id_canonical o = Some c ∧ k = (account_id o, u)) as H.
  { induction rows as [|o rows IH]; intros m; cbn [foldl].
    - setoid_rewrite elem_of_nil. naive_solver.
    - rewrite IH, index_override_spec. setoid_rewrite elem_of_cons. naive_solver. }
  rewrite H, lookup_empty. cbn. rewrite elem_of_empty. naive_solver.
Qed.

Lemma series_overrides_spec rows ev c :
  c ∈ series_overrides (overrides_by_series rows) ev ↔
  ∃ o u, o ∈ rows ∧ uid ev = Some u ∧ uid o = Some u ∧ account_id o = account_id ev ∧
    recurrence_id_canonical o = Some c.
Proof.
  unfold series_overrides. destruct (uid ev) as [u|]; cbn [mbind option_bind].
  - rewrite overrides_by_series_spec. split.
    + intros (o & u' & Ho & Hu & Hc & [= Ea Eu]). exists o, u. split; [done|]. split; [done|]. rewrite Hu, Eu, Ea. done.
    + intros (o & u' & Ho & [= <-] & Hu & Ea & Hc). exists o, u. by rewrite Ea.
  - cbn. rewrite elem_of_empty. split; [done|]. by intros (? & ? & _ & ? & _).
Qed.

(** ** The rows of the view *)

Lemma expand_rows_spec m ws we rows out r :
  fold_opt (expand_row m ws we) rows out = Some r →
  ∀ e, e ∈ r ↔ e ∈ out ∨ ∃ ev, ev ∈ rows ∧
    match recurrence_rule ev with
    | None => e = ev
    | Some rrule => ∃ instances, expand_recurrence_with_overrides ev rrule (series_overrides m ev) = Some instances ∧
        e ∈ instances ∧ overlaps ws we e = true
    end.
Proof.
  revert out. induction rows as [|ev rows IH]; intros out H e; cbn [fold_opt] in H.
  { simplify_eq. setoid_rewrite elem_of_nil. naive_solver. }
  destruct (expand_row m ws we out ev) as [out'|] eqn:Eo; [|done]. cbn [mbind option_bind] in H.
  unfold expand_row in Eo. destruct (recurrence_rule ev) as [rr|] eqn:Er.
  - destruct (expand_recurrence_with_overrides _ _ _) as [ins|] eqn:Ei; [|done]. cbn [mbind option_bind] in Eo.
    injection Eo as <-.
    rewrite (IH _ H). rewrite elem_of_app, list_elem_of_filter. setoid_rewrite elem_of_cons. split.
    + intros [[He|He]|(ev' & Hin & Hm)]; [by left| |right; exists ev'; by auto].
      right. exists ev. split; [by left|]. rewrite Er. exists ins. naive_solver.
    + intros [He|(ev' & [Hin|Hin] & Hm)]; [by auto| |right; by exists ev']. subst ev'.
      rewrite Er in Hm. destruct Hm as (ins' & Ei' & ? & ?). left. right. by simplify_eq.
  - injection Eo as <-. rewrite (IH _ H). rewrite elem_of_app, list_elem_of_singleton. setoid_rewrite elem_of_cons. split.
    + intros [[He|He]|(ev' & Hin & Hm)]; [by left| |right; exists ev'; by auto].
      right. exists ev. split; [by left|]. by rewrite Er.
    + intros [He|(ev' & [Hin|Hin] & Hm)]; [by auto| |right; by exists ev']. subst ev'.
      rewrite Er in Hm. left. by right.
Qed.

Lemma expand_rows_total m ws we rows out :
  (∀ ev s, ev ∈ rows → recurrence_rule ev = Some s →
     is_Some (expand_recurrence_with_overrides ev s (series_overrides m ev))) →
  is_Some (fold_opt (expand_row m ws we) rows out).
Proof.
  revert out. induction rows as [|ev rows IH]; intros out H; cbn [fold_opt]; [done|].
  assert (∀ ev s, ev ∈ rows → recurrence_rule ev = Some s →
     is_Some (expand_recurrence_with_overrides ev s (series_overrides m ev))) as H'
    by (intros; eapply H; [by right|done]).
  assert (is_Some (expand_row m ws we out ev)) as [out' ->]; [|by apply IH].
  unfold expand_row. destruct (recurrence_rule ev) as [s|] eqn:E; [|done].
  destruct (H ev s) as [ins ->]; [by left|done|]. done.
Qed.
End Jiff.
