(* ===== verification/RecurrenceReconcile.v ===== *)
(** * RecurrenceReconcile: series and windows in a zone of fixed offset

    [master_intersects_window] moves the first instance of a DAILY or WEEKLY
    series close to the window before it expands.  In a zone without changes the
    instants of a series without bounds are an arithmetic progression, on which
    the move changes nothing. *)

From stdpp Require Import sorting list_numbers.
From S2P Require Import Prelude.
From S2P Require Import Strings.
From S2P Require Import Bytes.
From S2P Require Import Civil.
From S2P Require Import Recurrence.
From S2P Require Import RecurrenceTheory.
From S2P Require Import RecurrenceLoops.
From S2P Require Import RecurrenceEvents.

Local Open Scope Z_scope.

Section Jiff.
Context {J : Jiff} {JL : JiffLaws J}.

(** Between [lo] and [hi] the zone is [off] seconds ahead of UTC. *)
Record fixed_offset (z : TimeZone) (off lo hi : Z) : Prop := {
  fixed_to dt t : valid_datetime dt → civil_seconds dt = t + off → lo ≤ t ≤ hi → to_timestamp z dt = Some t;
  fixed_of t : lo ≤ t ≤ hi → ∃ dt, to_datetime z t = Some dt ∧ civil_seconds dt = t + off
}.

Section fixed.
Context (tz : RecurrenceTz) (off lo hi : Z) (Hfix : fixed_offset (zone tz) off lo hi).

Lemma fixed_naive t : lo ≤ t ≤ hi →
  ∃ dt, naive tz t = Some dt ∧ valid_datetime dt ∧ civil_seconds dt = t + off.
Proof.
  intros Ht. destruct (fixed_of _ _ _ _ Hfix t Ht) as (dt & E & Es). exists dt.
  split; [done|]. split; [by eapply to_datetime_valid|done].
Qed.

Lemma fixed_add_days t n : lo ≤ t ≤ hi → lo ≤ t + 86400 * n ≤ hi → Z.abs n ≤ SPAN_MAX_DAYS →
  add_days_in_zone t n tz = Some (Some (t + 86400 * n)).
Proof.
  intros Ht Ht' Hn. destruct (fixed_naive t Ht) as (dt & Hdt & Hv & Es).
  destruct (fixed_naive _ Ht') as (dt' & _ & Hv' & Es'). unfold add_days_in_zone. rewrite Hdt.
  rewrite (proj2 (span_days_spec n n)) by done. cbn [mbind option_bind].
  rewrite datetime_add_days_spec by done.
  destruct Hv as [Hd Htm], Hv' as [Hd' Htm'].
  assert (epoch_day (date dt') = epoch_day (date dt) + n) as Ed.
  { pose proof (time_seconds_range _ Htm). pose proof (time_seconds_range _ Htm').
    unfold civil_seconds in Es, Es'. lia. }
  rewrite (proj2 (date_add_days_spec _ _ (date dt') Hd)) by done. cbn.
  unfold resolve. rewrite (fixed_to _ _ _ _ Hfix _ (t + 86400 * n)); [done|by split| |done].
  unfold civil_seconds in *. cbn [date time]. lia.
Qed.

Lemma fixed_step t n : lo ≤ t ≤ hi → lo ≤ t + 86400 * n ≤ hi → Z.abs n ≤ SPAN_MAX_DAYS →
  step_days t n tz = Some (t + 86400 * n).
Proof. intros H1 H2 H3. unfold step_days. by rewrite fixed_add_days. Qed.

(** The instants of a series: every [n] days from [t0] on. *)
Definition progression (t0 n i : Z) (steps : nat) : list Z :=
  (λ k, t0 + 86400 * n * k) <$> seqZ i (Z.of_nat steps).

Lemma fixed_daily_loop steps cap n t0 i out :
  Z.abs n ≤ SPAN_MAX_DAYS → (length out ≤ cap)%nat →
  (∀ k, i ≤ k ≤ i + Z.of_nat steps → lo ≤ t0 + 86400 * n * k ≤ hi) →
  daily_loop steps cap [] n tz (t0 + 86400 * n * i) out = Some (take cap (out ++ progression t0 n i steps)).
Proof.
  intros Hn. revert i out. induction steps as [|steps IH]; intros i out Hlen Hr.
  { cbn. by rewrite app_nil_r, take_ge by done. }
  cbn [daily_loop is_nil orb]. destruct (Nat.leb_spec cap (length out)); [by rewrite take_stop|].
  rewrite fixed_step; [|apply Hr; lia| |done].
  2:{ replace (t0 + 86400 * n * i + 86400 * n) with (t0 + 86400 * n * (i + 1)) by lia. apply Hr. lia. }
  cbn [mbind option_bind].
  replace (t0 + 86400 * n * i + 86400 * n) with (t0 + 86400 * n * (i + 1)) by lia.
  rewrite IH; [|rewrite length_app; cbn; lia|intros k Hk; apply Hr; lia].
  f_equal. f_equal. rewrite <- (assoc_L (++)). f_equal. unfold progression.
  rewrite (seqZ_cons i (Z.of_nat (S steps))) by lia.
  replace (Z.pred (Z.of_nat (S steps))) with (Z.of_nat steps) by lia. done.
Qed.

Lemma progression_sorted t0 n i steps : 0 < n → StronglySorted Z.lt (progression t0 n i steps).
Proof.
  intros Hn. unfold progression. pose proof (seqZ_sorted i (Z.of_nat steps)) as Hs.
  induction Hs as [|k l Hs IH Hk]; [constructor|]. cbn [fmap list_fmap]. constructor; [done|].
  rewrite Forall_forall in *. intros x (k' & -> & Hk')%list_elem_of_fmap. specialize (Hk _ Hk'). nia.
Qed.

Lemma take_progression t0 n steps cap : (cap ≤ steps)%nat →
  take cap (progression t0 n 0 steps) = progression t0 n 0 cap.
Proof.
  intros Hc. unfold progression. rewrite <- fmap_take. f_equal.
  replace (Z.of_nat steps) with (Z.of_nat cap + Z.of_nat (steps - cap)) by lia.
  rewrite seqZ_app by lia. rewrite take_app_length'; [done|]. rewrite length_seqZ. lia.
Qed.

Lemma elem_of_progression t0 n steps t :
  t ∈ progression t0 n 0 steps ↔ ∃ k, 0 ≤ k < Z.of_nat steps ∧ t = t0 + 86400 * n * k.
Proof.
  unfold progression. rewrite list_elem_of_fmap. setoid_rewrite elem_of_seqZ.
  split; intros (k & H1 & H2); exists k; (split; [lia|lia]) || (split; [done|lia]).
Qed.

(** The length of a timed event, and the end of its instances. *)
Lemma fixed_wall_duration event :
  all_day event = false → lo ≤ start_time event ≤ hi → lo ≤ end_time event ≤ hi →
  wall_duration event tz = end_time event - start_time event.
Proof.
  intros Ha Hs He. unfold wall_duration. rewrite Ha.
  destruct (fixed_naive _ Hs) as (s & -> & Hvs & Es). destruct (fixed_naive _ He) as (e & -> & Hve & Ee).
  rewrite duration_since_spec by done. lia.
Qed.

Lemma fixed_end_time s dur raw : lo ≤ s ≤ hi → lo ≤ s + dur ≤ hi →
  end_time_for_instance s dur tz raw = s + dur.
Proof.
  intros Hs He. unfold end_time_for_instance.
  destruct (fixed_naive _ Hs) as (n & Hn & Hv & En). destruct (fixed_naive _ He) as (e & _ & Hve & Ee).
  rewrite Hn. cbn [mbind option_bind].
  rewrite (proj2 (datetime_add_secs_spec n dur e Hv)) by (split; [done|lia]). cbn [mbind option_bind].
  unfold resolve. by rewrite (fixed_to _ _ _ _ Hfix _ (s + dur)).
Qed.
End fixed.

(** ** The move of the first instance *)

(** The step of the series, in days. *)
Definition series_step (f : Freq) (r : Rrule) : Z :=
  match f with Weekly => 7 * interval r | _ => interval r end.

Lemma reanchor_fixed tz off lo hi start r f ws :
  fixed_offset (zone tz) off lo hi → f = Daily ∨ f = Weekly →
  i64_min ≤ 4 * lo → 4 * hi ≤ i64_max → lo ≤ start → start ≤ hi → ws ≤ hi →
  1 ≤ interval r → 7 * interval r ≤ SPAN_MAX_DAYS → (hi - lo) / 86400 ≤ SPAN_MAX_DAYS →
  ∃ k, 0 ≤ k ∧ reanchor_day_cadence start r f tz ws = Some (start + 86400 * series_step f r * k) ∧
    (ws ≤ start ∧ k = 0 ∨
     start + 86400 * series_step f r * k ≤ ws < start + 86400 * series_step f r * (k + 1)).
Proof.
  intros Hfix Hf Hlo Hhi Hs Hs' Hws Hi Hspan Hdays. unfold reanchor_day_cadence.
  destruct (Z.leb_spec ws start) as [Hle|Hgt].
  { exists 0. split; [done|]. split; [f_equal; lia|by left]. }
  unfold i64_min, i64_max, SPAN_MAX_DAYS in *.
  assert (match f with Weekly => wrap_i64 (Z.max (interval r) 1 * 7) | _ => Z.max (interval r) 1 end = series_step f r)
    as ->.
  { unfold series_step. destruct Hf as [-> | ->]; [lia|]. rewrite wrap_i64_id; unfold i64_min, i64_max; lia. }
  assert (1 ≤ series_step f r ≤ 7304484) as Hst by (unfold series_step; destruct f; lia).
  rewrite (wrap_i64_id (ws - start)) by (unfold i64_min, i64_max; lia).
  set (gap := (ws - start) / 86400). assert (0 ≤ gap) by (apply Z.div_pos; lia).
  rewrite Z.quot_div_nonneg by lia. set (steps := gap / series_step f r).
  assert (0 ≤ steps) by (apply Z.div_pos; lia).
  pose proof (Z.mul_div_le gap (series_step f r) ltac:(lia)) as H1.
  pose proof (Z.mul_succ_div_gt gap (series_step f r) ltac:(lia)) as H2. fold steps in H1, H2.
  pose proof (Z.mul_div_le (ws - start) 86400 ltac:(lia)) as H3.
  pose proof (Z.mul_succ_div_gt (ws - start) 86400 ltac:(lia)) as H4. fold gap in H3, H4.
  assert (gap ≤ 7304484).
  { etransitivity; [|exact Hdays]. apply Z.div_le_mono; lia. }
  exists steps. split; [done|]. split; [|right; lia].
  destruct (Z.leb_spec steps 0).
  { f_equal. lia. }
  rewrite wrap_i64_id by (unfold i64_min, i64_max; nia).
  rewrite (fixed_add_days tz off lo hi Hfix); [|lia..|unfold SPAN_MAX_DAYS; lia].
  cbn. f_equal. lia.
Qed.

(** A series without BYDAY, COUNT or UNTIL. *)
Record plain_series (f : Freq) (r : Rrule) : Prop := {
  plain_cadence : f = Daily ∨ f = Weekly;
  plain_freq : freq_parse (freq r) = Some f;
  plain_byday : byday r = [];
  plain_count : count r = None;
  plain_until : until r = None;
  plain_supported : unsupported_parts r = []
}.

Lemma plain_cap f r : plain_series f r → instance_cap r 800 = N.to_nat 800.
Proof. intros H. unfold instance_cap. by rewrite (plain_count _ _ H), (plain_until _ _ H). Qed.

Lemma plain_candidates tz off lo hi f r t0 :
  fixed_offset (zone tz) off lo hi → plain_series f r →
  1 ≤ interval r → 7 * interval r ≤ SPAN_MAX_DAYS →
  lo ≤ t0 → t0 + 86400 * series_step f r * 12000 ≤ hi →
  candidate_starts f t0 r tz = Some (progression t0 (series_step f r) 0 (N.to_nat 800)).
Proof.
  intros Hfix Hp Hi Hspan Hlo Hhi.
  assert (1 ≤ series_step f r ≤ SPAN_MAX_DAYS) as Hst by (unfold series_step; destruct f; lia).
  assert (daily_loop RRULE_MAX_STEPS (N.to_nat 800) [] (series_step f r) tz t0 [] =
    Some (progression t0 (series_step f r) 0 (N.to_nat 800))) as H.
  { replace t0 with (t0 + 86400 * series_step f r * 0) at 1 by lia.
    rewrite (fixed_daily_loop tz off lo hi Hfix); [|lia|cbn; lia|].
    - cbn [app]. by rewrite take_progression by (unfold RRULE_MAX_STEPS; lia).
    - unfold RRULE_MAX_STEPS. intros k Hk. rewrite N_nat_Z in Hk. nia. }
  destruct (plain_cadence _ _ Hp) as [-> | ->]; cbn [candidate_starts].
  - unfold expand_daily. rewrite (plain_cap _ _ Hp), (plain_byday _ _ Hp). exact H.
  - unfold expand_weekly. rewrite (plain_cap _ _ Hp), (plain_byday _ _ Hp). cbn [is_nil].
    rewrite wrap_i64_id by (unfold SPAN_MAX_DAYS, i64_min, i64_max in *; lia).
    replace (interval r * 7) with (series_step Weekly r) by (cbn; lia). exact H.
Qed.

Lemma set_times_self event : set_times (start_time event) (end_time event) event = event.
Proof. by destruct event. Qed.

(** Whether one of the first instances is in the window. *)
Lemma first_two_decide start step dur k0 ws we :
  0 < step → 0 ≤ dur → ws < we → 0 ≤ k0 →
  (ws ≤ start ∧ k0 = 0 ∨ start + step * k0 ≤ ws < start + step * (k0 + 1)) →
  (∃ k, 0 ≤ k ∧ start + step * k < we ∧ ws < start + step * k + dur) ↔
  (∃ k, 0 ≤ k < 2 ∧ start + step * (k0 + k) < we ∧ ws < start + step * (k0 + k) + dur).
Proof.
  intros Hst Hdur Hw Hk0 Hor. split.
  - intros (k & Hk & H1 & H2). destruct (Z.le_gt_cases k k0) as [Hle|Hgt].
    + exists 0. rewrite Z.add_0_r. split; [lia|].
      destruct Hor as [[? ->]|?]; [assert (k = 0) as -> by lia; lia|].
      split; [lia|]. nia.
    + destruct (decide (ws < start + step * k0 + dur ∧ start + step * k0 < we)) as [[? ?]|Hno].
      { exists 0. rewrite Z.add_0_r. lia. }
      exists 1. split; [lia|].
      assert (start + step * (k0 + 1) ≤ start + step * k) by nia. split; [lia|].
      destruct Hor as [[? ->]|?]; [|lia].
      assert (start + step * (0 + 1) = start + step) as -> by lia. lia.
  - intros (k & Hk & H1 & H2). exists (k0 + k). split; [lia|done].
Qed.

Section reconcile.
Context (event : CalendarViewEvent) (s : str) (r : Rrule) (f : Freq) (off lo hi ws we : Z).
Let tz := from_event_timezone (timezone event).
Let dur := end_time event - start_time event.

Hypothesis Hfix : fixed_offset (zone tz) off lo hi.
Hypothesis Hparse : parse_rrule s = Some r.
Hypothesis Hplain : plain_series f r.
Hypothesis Hday : all_day event = false.
Hypothesis Hi : 1 ≤ interval r.
Hypothesis Hspan : 7 * interval r ≤ SPAN_MAX_DAYS.
Hypothesis Hlo : i64_min ≤ 4 * lo.
Hypothesis Hhi : 4 * hi ≤ i64_max.
Hypothesis Hdays : (hi - lo) / 86400 ≤ SPAN_MAX_DAYS.
Hypothesis Hstart : lo ≤ start_time event.
Hypothesis Hdur : 0 ≤ dur.
Hypothesis Hroom : Z.max (start_time event) ws + 86400 * series_step f r * 12000 + dur ≤ hi.
Hypothesis Hw : ws < we.

Lemma plain_instances anchor : lo ≤ anchor ≤ Z.max (start_time event) ws →
  ∃ out,
    expand_recurrence_windowed (set_times anchor (anchor + dur) event) s ∅ (Some we) = Some out ∧
    ∀ e, existsb (overlaps ws we) out = e →
      (e = true ↔ ∃ k, 0 ≤ k < 800 ∧ anchor + 86400 * series_step f r * k < we ∧
                     ws < anchor + 86400 * series_step f r * k + dur).
Proof.
  intros Ha. set (ev := set_times anchor (anchor + dur) event).
  assert (1 ≤ series_step f r) as Hst by (unfold series_step; destruct f; lia).
  assert (anchor + 86400 * series_step f r * 12000 + dur ≤ hi) by lia.
  pose proof (plain_candidates tz off lo hi f r anchor Hfix Hplain Hi Hspan ltac:(lia) ltac:(lia)) as Hc.
  assert (wall_duration ev tz = dur) as Hwall.
  { rewrite (fixed_wall_duration tz off lo hi Hfix); cbn; [lia|done|nia..]. }
  rewrite (expand_eq ev s ∅ (Some we) r f we (progression anchor (series_step f r) 0 (N.to_nat 800)) Hparse
    (plain_freq _ _ Hplain) (plain_supported _ _ Hplain)); [| |unfold expansion_end|exact Hc].
  2:{ unfold year_scope_ordinal. by rewrite (plain_byday _ _ Hplain), andb_false_r. }
  2:{ rewrite (plain_until _ _ Hplain). cbn [mbind option_bind]. by rewrite (plain_count _ _ Hplain). }
  change (from_event_timezone (timezone ev)) with tz.
  eexists. split; [done|]. intros e <-. rewrite existsb_exists. split.
  - intros (x & Hx & Ho). apply list_elem_of_In, list_elem_of_fmap in Hx as (p & -> & Hp).
    assert (p.2 ∈ filter (slot_free ev tz ∅) (until_after id we (progression anchor (series_step f r) 0 (N.to_nat 800))))
      as Hp2.
    { rewrite <- (kept_starts ev tz ∅ we 0). by apply list_elem_of_fmap_2. }
    apply list_elem_of_filter in Hp2 as [_ Hp2]. rewrite until_after_sorted in Hp2 by (apply progression_sorted; lia).
    apply list_elem_of_filter in Hp2 as [Hle (k & Hk & Ek)%elem_of_progression].
    rewrite N_nat_Z in Hk. exists k. split; [lia|]. rewrite <- Ek.
    apply andb_true_iff in Ho as [H1%Z.ltb_lt H2%Z.ltb_lt]. unfold instance_of in H1, H2. cbn [start_time end_time set_instance] in H1, H2.
    rewrite Hwall, (fixed_end_time tz off lo hi Hfix) in H2; [done| |]; rewrite Ek; nia.
  - intros (k & Hk & H1 & H2). set (t := anchor + 86400 * series_step f r * k) in *.
    assert (t ∈ snd <$> kept ev tz ∅ we 0 (progression anchor (series_step f r) 0 (N.to_nat 800))) as Ht.
    { rewrite kept_starts. apply list_elem_of_filter. split; [unfold slot_free; set_solver|].
      rewrite until_after_sorted by (apply progression_sorted; lia).
      apply list_elem_of_filter. split; [lia|]. apply elem_of_progression. exists k. rewrite N_nat_Z. done. }
    apply list_elem_of_fmap in Ht as (p & Ep & Hp). exists (instance_of ev tz p). split.
    + apply list_elem_of_In. by apply list_elem_of_fmap_2.
    + unfold overlaps, instance_of. cbn [start_time end_time set_instance].
      rewrite Hwall, (fixed_end_time tz off lo hi Hfix), <- Ep; [apply andb_true_iff; lia|rewrite <- Ep..];
        unfold t; nia.
Qed.

Lemma plain_reconcile :
  ∃ b, master_intersects_window event s ws we = Some b ∧
    (b = true ↔ ∃ k, 0 ≤ k ∧ start_time event + 86400 * series_step f r * k < we ∧
                     ws < start_time event + 86400 * series_step f r * k + dur).
Proof.
  assert (1 ≤ series_step f r) as Hst by (unfold series_step; destruct f; lia).
  destruct (reanchor_fixed tz off lo hi (start_time event) r f ws Hfix (plain_cadence _ _ Hplain))
    as (k0 & Hk0 & Ea & Hor); [try done; lia..|].
  set (anchor := start_time event + 86400 * series_step f r * k0) in *.
  assert (lo ≤ anchor ≤ Z.max (start_time event) ws) as Ha by (unfold anchor in *; nia).
  destruct (plain_instances anchor Ha) as (out & Eo & Hout).
  exists (existsb (overlaps ws we) out). split.
  - unfold master_intersects_window. rewrite Hparse. cbn [mbind option_bind].
    rewrite (plain_freq _ _ Hplain). fold tz.
    assert (match f with Daily | Weekly => reanchor_day_cadence (start_time event) r f tz ws
                    | _ => Some (start_time event) end = Some anchor) as Em.
    { destruct (plain_cadence _ _ Hplain) as [-> | ->]; exact Ea. }
    assert ((match Some f with
             | Some ((Daily | Weekly) as freq) => reanchor_day_cadence (start_time event) r freq tz ws
             | _ => Some (start_time event) end) = Some anchor) as ->.
    { destruct (plain_cadence _ _ Hplain) as [-> | ->]; exact Ea. }
    cbn [mbind option_bind].
    assert (i64_min ≤ dur ≤ i64_max ∧ i64_min ≤ anchor + dur ≤ i64_max) as [Hw1 Hw2].
    { clear - Hlo Hhi Hstart Hdur Hroom Hst Ha. unfold i64_min, i64_max in *. clearbody anchor dur. lia. }
    unfold dur in Hw1, Hw2. rewrite (wrap_i64_id _ Hw1), (wrap_i64_id _ Hw2). fold dur.
    assert ((if anchor =? start_time event then event else set_times anchor (anchor + dur) event) =
            set_times anchor (anchor + dur) event) as ->.
    { destruct (Z.eqb_spec anchor (start_time event)) as [->|]; [|done].
      replace (start_time event + dur) with (end_time event) by (unfold dur; lia). by rewrite set_times_self. }
    by rewrite Eo.
  - rewrite (Hout _ eq_refl).
    pose proof (first_two_decide (start_time event) (86400 * series_step f r) dur k0 ws we
      ltac:(lia) Hdur Hw Hk0 Hor) as Hd.
    rewrite Hd. split.
    + intros (k & Hk & H1 & H2). apply Hd. exists (k0 + k). unfold anchor in *. split; [lia|].
      split; [nia|nia].
    + intros (k & Hk & H1 & H2). exists k. unfold anchor. split; [lia|]. split; nia.
Qed.
End reconcile.
End Jiff.
