(* ===== verification/RecurrenceProperties.v ===== *)
(** * RecurrenceProperties: what the expansion of recurring events promises *)

From stdpp Require Import sorting list_numbers.
From S2P Require Import Prelude.
From S2P Require Import Strings.
From S2P Require Import Bytes.
From S2P Require Import Civil.
From S2P Require Import CivilInstances.
From S2P Require Import Recurrence.
From S2P Require Import RecurrenceTheory.
From S2P Require Import RecurrenceLoops.
From S2P Require Import RecurrenceEvents.
From S2P Require Import RecurrenceReconcile.

Local Open Scope Z_scope.

(** ** Zones that satisfy the hypotheses

    A zone of [CivilInstances] is [steady] for the times outside the hour it
    skips, reaches every day of the calendar, and one without a change has a
    fixed offset. *)

(** ** Every day of the range has a date *)

Lemma year_of_days_sound n : days_before_year (year_of_days n) ≤ n < days_before_year (year_of_days n + 1).
Proof.
  unfold year_of_days. set (g := n * 400 / 146097 + 1).
  assert (days_before_year (g - 1) ≤ n < days_before_year (g + 2)).
  { unfold g, days_before_year. Z.div_mod_to_equations. lia. }
  destruct (Z.ltb_spec n (days_before_year g)).
  { replace (g - 1 + 1) with g by lia. lia. }
  destruct (Z.ltb_spec n (days_before_year (g + 1))); [lia|].
  replace (g + 1 + 1) with (g + 2) by lia. lia.
Qed.

Lemma month_of_days_exists y r : 0 ≤ r < (if leap_year y then 366 else 365) →
  ∃ m, 1 ≤ m ≤ 12 ∧ days_before_month y m ≤ r < days_before_month y m + month_length y m.
Proof.
  intros [H0 Hr]. assert (∀ k : nat, (k ≤ 12)%nat → r < days_before_month y (Z.of_nat k + 1) →
    ∃ m, 1 ≤ m ≤ Z.of_nat k ∧ days_before_month y m ≤ r < days_before_month y m + month_length y m) as H.
  { induction k as [|k IH]; intros Hk Hlt; [change (r < 0) in Hlt; lia|].
    destruct (Z.lt_ge_cases r (days_before_month y (Z.of_nat k + 1))) as [Hl|Hl].
    - destruct (IH ltac:(lia) Hl) as (m & Hm & ?). exists m. split; [lia|done].
    - exists (Z.of_nat k + 1). split; [lia|]. rewrite <- days_before_month_step by lia.
      replace (Z.of_nat k + 1 + 1) with (Z.of_nat (S k) + 1) by lia. done. }
  destruct (H 12%nat ltac:(lia)) as (m & Hm & ?); [|by exists m].
  change (r < days_before_month y 13). unfold days_before_month. cbn. destruct (leap_year y); cbn in *; lia.
Qed.

Lemma date_of_epoch_day_valid n : -4371222 ≤ n ≤ 2932896 →
  valid_date (date_of_epoch_day n) ∧ epoch_day (date_of_epoch_day n) = n.
Proof.
  intros Hn. unfold date_of_epoch_day, epoch_day, valid_date. cbn [year month day].
  set (N := n + 719162). pose proof (year_of_days_sound N) as Hy. set (y := year_of_days N) in *.
  assert (-9999 ≤ y ≤ 9999) as Hyr.
  { split.
    - destruct (Z.le_gt_cases (-9999) y) as [|Hlt]; [done|]. exfalso.
      pose proof (days_before_year_mono (y + 1) (-9999) ltac:(lia)) as Hm.
      change (days_before_year (-9999)) with (-3652425) in Hm. lia.
    - destruct (Z.le_gt_cases y 9999) as [|Hlt]; [done|]. exfalso.
      pose proof (days_before_year_mono 10000 y ltac:(lia)) as Hm.
      change (days_before_year 10000) with 3652059 in Hm. lia. }
  rewrite leap_year_step in Hy.
  destruct (month_of_days_exists y (N - days_before_year y)) as (m & Hm & Hr); [destruct (leap_year y); lia|].
  rewrite (month_of_days_correct y m _ Hm Hr). lia.
Qed.

Lemma greg_add_days_total d n : -4371222 ≤ epoch_day d + n ≤ 2932896 →
  greg_add_days d n = Some (date_of_epoch_day (epoch_day d + n)).
Proof. intros H. apply greg_add_days_spec. by apply date_of_epoch_day_valid. Qed.

Lemma datetime_of_seconds_total s : -4371222 * 86400 ≤ s < 2932897 * 86400 →
  ∃ dt, datetime_of_seconds s = Some dt ∧ civil_seconds dt = s.
Proof.
  intros Hs. assert (-4371222 ≤ s / 86400 ≤ 2932896) as Hd by (Z.div_mod_to_equations; lia).
  destruct (date_of_epoch_day_valid _ Hd) as [Hv He].
  set (r := s mod 86400).
  exists (mkDateTime (date_of_epoch_day (s / 86400)) (mkTime (r / 3600) (r / 60 mod 60) (r mod 60))).
  assert (civil_seconds (mkDateTime (date_of_epoch_day (s / 86400)) (mkTime (r / 3600) (r / 60 mod 60) (r mod 60))) = s)
    as Es.
  { unfold civil_seconds, time_seconds. cbn [date time hour minute second]. rewrite He.
    unfold r. Z.div_mod_to_equations. lia. }
  split; [|exact Es]. apply datetime_of_seconds_spec. split; [|exact Es]. split; [exact Hv|].
  unfold valid_time. cbn [time hour minute second]. unfold r. Z.div_mod_to_equations. lia.
Qed.

(** ** Zones *)

Section zones.
Context (zones : list CivilInstances.Zone) (host : CivilInstances.Zone).
Let J : Jiff := gregorian_with zones host.

(** The time of day is not one the zone skips. *)
Lemma zone_steady (z : CivilInstances.Zone) (tm : Time) :
  valid_time tm →
  offset_after z - offset_before z ≤ (time_seconds tm - (changes_at z + offset_before z)) mod 86400 →
  @steady J z tm.
Proof.
  intros Htm Hgap.
  assert (∀ d, zone_instant z (civil_seconds (mkDateTime d tm)) + offset_at z (zone_instant z (civil_seconds (mkDateTime d tm))) =
               civil_seconds (mkDateTime d tm)) as Hback.
  { intros d. unfold zone_instant, offset_at, civil_seconds. cbn [date time].
    set (s := epoch_day d * 86400 + time_seconds tm).
    destruct (Z.ltb_spec (s - offset_before z) (changes_at z)).
    { rewrite (proj2 (Z.ltb_lt _ _)) by lia. lia. }
    destruct (Z.leb_spec (changes_at z) (s - offset_after z)).
    { rewrite (proj2 (Z.ltb_ge _ _)) by lia. lia. }
    exfalso. unfold s in *. Z.div_mod_to_equations. lia. }
  split.
  - intros d t Hd Ht. cbn in Ht. unfold zone_timestamp in Ht.
    destruct (timestamp_ok _) eqn:Eok; [|done]. injection Ht as <-. cbn. unfold zone_datetime. rewrite Eok, Hback.
    by apply datetime_of_seconds_spec.
  - intros d d' t t' Hd Hd' Hlt Ht Ht'. cbn in Ht, Ht'. unfold zone_timestamp in Ht, Ht'.
    destruct (timestamp_ok _) in Ht; [|done]. destruct (timestamp_ok _) in Ht'; [|done].
    injection Ht as <-. injection Ht' as <-.
    unfold zone_instant, civil_seconds. cbn [date time].
    repeat case_match;
      repeat match goal with
        | H : (_ <? _) = true |- _ => apply Z.ltb_lt in H
        | H : (_ <? _) = false |- _ => apply Z.ltb_ge in H
        | H : (_ <=? _) = true |- _ => apply Z.leb_le in H
        | H : (_ <=? _) = false |- _ => apply Z.leb_gt in H
      end; try lia.
    all: specialize (Hback d) as Hb; specialize (Hback d') as Hb'; unfold zone_instant, offset_at, civil_seconds in Hb, Hb';
      cbn [date time] in Hb, Hb'; repeat case_match; repeat match goal with
        | H : (_ <? _) = true |- _ => apply Z.ltb_lt in H
        | H : (_ <? _) = false |- _ => apply Z.ltb_ge in H
        | H : (_ <=? _) = true |- _ => apply Z.leb_le in H
        | H : (_ <=? _) = false |- _ => apply Z.leb_gt in H
      end; lia.
Qed.

(** Every day from year 1 to year 9000 has an instant. *)
Lemma zone_reach (z : CivilInstances.Zone) (dt : DateTime) k :
  Z.abs (offset_before z) ≤ 100000 → Z.abs (offset_after z) ≤ 100000 →
  valid_time (time dt) → -719162 ≤ epoch_day (date dt) + k ≤ 2500000 →
  is_Some (@instant_at J (@Iana J z) dt k).
Proof.
  intros Hb Ha Ht Hk. unfold instant_at. cbn.
  rewrite greg_add_days_total by lia. cbn. unfold resolve, zone. cbn. unfold zone_timestamp.
  destruct (date_of_epoch_day_valid (epoch_day (date dt) + k) ltac:(lia)) as [_ He].
  assert (timestamp_ok (zone_instant z (civil_seconds
    (mkDateTime (date_of_epoch_day (epoch_day (date dt) + k)) (time dt)))) = true) as ->; [|done].
  pose proof (time_seconds_range _ Ht). set (s := civil_seconds _).
  assert (s = (epoch_day (date dt) + k) * 86400 + time_seconds (time dt)) as Es.
  { unfold s, civil_seconds. cbn [date time]. by rewrite He. }
  assert (s - 100000 ≤ zone_instant z s ≤ s + 100000) by (unfold zone_instant; repeat case_match; lia).
  unfold timestamp_ok. apply andb_true_iff. lia.
Qed.

(** A zone without a change. *)
Lemma fixed_zone_offset name off lo hi :
  Z.abs off ≤ 86400 → -377000000000 ≤ lo → hi ≤ 253000000000 →
  @fixed_offset J (fixed_zone name off) off lo hi.
Proof.
  intros Hoff Hlo Hhi. split.
  - intros dt t Hv Es Ht. cbn. unfold zone_timestamp, zone_instant, fixed_zone. cbn. rewrite Es.
    replace (t + off - off) with t by lia.
    assert (timestamp_ok t = true) as Hok by (apply andb_true_iff; lia).
    destruct (t <? 0); [by rewrite Hok|]. destruct (0 <=? t); by rewrite Hok.
  - intros t Ht. cbn. unfold zone_datetime.
    assert (timestamp_ok t = true) as -> by (apply andb_true_iff; lia).
    assert (offset_at (fixed_zone name off) t = off) as -> by (unfold offset_at, fixed_zone; cbn; by destruct (t <? 0)).
    apply datetime_of_seconds_total. lia.
Qed.
End zones.

(** The change of 2024-03-10 in a zone five hours behind UTC. *)
Definition new_york : CivilInstances.Zone := mkZone (slit "America/New_York") (-18000) 1710054000 (-14400).

Definition world : Jiff := gregorian_with [new_york] UTC.

(** ** The bounds of the loops *)

Lemma max_steps : Z.of_nat RRULE_MAX_STEPS = 12000.
Proof. unfold RRULE_MAX_STEPS. by rewrite N_nat_Z. Qed.

Lemma yearly_max_steps : Z.of_nat YEARLY_MAX_STEPS = 80000.
Proof. unfold YEARLY_MAX_STEPS. by rewrite N_nat_Z. Qed.

(** Nothing below computes with the bounds of the loops. *)
#[local] Opaque RRULE_MAX_STEPS YEARLY_MAX_STEPS instance_cap.

Section Jiff.
Context {J : Jiff} {JL : JiffLaws J}.

(** Whatever the string, a rule that parses is in range: INTERVAL is
    positive and fits [i64], COUNT is at most 10000, the ordinals of BYDAY have
    magnitude 1 to 53, BYMONTHDAY magnitude 1 to 31, BYMONTH is 1 to 12 and
    UNTIL is a date of the calendar with a valid clock time. *)
Theorem parsed_rule_in_range (s : str) (r : Rrule) (H : parse_rrule s = Some r) :
  1 ≤ interval r ≤ i64_max ∧
  (∀ n, count r = Some n → (n ≤ RRULE_MAX_COUNT)%N) ∧
  (∀ u, until r = Some u → until_wf u) ∧
  Forall (λ b, ∀ n, bd_ordinal b = Some n → 1 ≤ Z.abs n ≤ 53) (byday r) ∧
  Forall (λ d, 1 ≤ Z.abs d ≤ 31) (bymonthday r) ∧
  Forall (λ m, 1 ≤ m ≤ 12) (bymonth r).
Proof. by destruct (parse_rrule_wf s r H). Qed.

(** DAILY: the instances are, up to the cap and in order, exactly the
    instants with the time of day of the first one on every INTERVAL-th day
    that passes BYDAY, when the zone never skips that time and the days are in
    its range. *)
Theorem daily_instances (tz : RecurrenceTz) (dt : DateTime) (start : Z) (rule : Rrule)
    (Hdt : valid_datetime dt) (Hst : steady (zone tz) (time dt)) (H0 : instant_at tz dt 0 = Some start)
    (Hi : 1 ≤ interval rule ≤ SPAN_MAX_DAYS)
    (Hreach : ∀ k, 0 ≤ k ≤ 12000 * interval rule → is_Some (instant_at tz dt k)) :
  ∃ L, expand_daily start rule tz = Some (take (instance_cap rule 800) L) ∧
    StronglySorted Z.lt L ∧
    ∀ t, t ∈ L ↔
      ∃ k, 0 ≤ k < 12000 ∧ instant_at tz dt (k * interval rule) = Some t ∧
        (byday rule = [] ∨
         weekday_of (epoch_day (date dt) + k * interval rule) ∈ bd_day <$> byday rule).
Proof.
  destruct Hdt as [Hd Ht].
  exists (daily_list tz dt (bd_day <$> byday rule) (interval rule) 0 RRULE_MAX_STEPS). split; [|split].
  - unfold expand_daily. rewrite (daily_loop_list tz dt Hd Hst _ _ _ _ 0); [done|done|lia| |done|apply Nat.le_0_l].
    intros k Hk. rewrite max_steps in Hk. apply Hreach. nia.
  - apply daily_list_sorted; [done|done|lia].
  - intros t. rewrite elem_of_daily_list. unfold weekday_passes. rewrite max_steps.
    assert (bd_day <$> byday rule = [] ↔ byday rule = []) as E by by destruct (byday rule).
    by setoid_rewrite E.
Qed.

(** C16. WEEKLY with a BYDAY that names no weekday twice, in a zone where the time
    of day of the first instance exists once on every day, and as long as the 12000
    weeks visited stay within the calendar: the instances are, up to the cap and in
    order, exactly the instants with the time of day of the first one, not before
    it, on the named weekdays of every INTERVAL-th week of these, where weeks start
    on WKST.  A weekday named twice is [repeated_weekday_twice], a time of day that
    a change of the clocks skips [skipped_time_drifts]. *)
Theorem weekly_instances (tz : RecurrenceTz) (dt : DateTime) (start : Z) (rule : Rrule) (first : Weekday)
    (Hdt : valid_datetime dt) (Hst : steady (zone tz) (time dt)) (H0 : instant_at tz dt 0 = Some start)
    (Hi : 1 ≤ interval rule) (Hspan : 7 * interval rule ≤ SPAN_MAX_DAYS)
    (Hby : byday rule ≠ []) (Hnd : NoDup (bd_day <$> byday rule)) (Hf : first = default Monday (wkst rule))
    (Hreach : ∀ k, -7 ≤ k ≤ 84000 * interval rule + 7 → is_Some (instant_at tz dt k)) :
  ∃ L, expand_weekly start rule tz = Some (take (instance_cap rule 800) L) ∧
    StronglySorted Z.lt L ∧
    ∀ t, t ∈ L ↔
      ∃ j, 0 ≤ j ∧ instant_at tz dt j = Some t ∧
        weekday_of (epoch_day (date dt) + j) ∈ bd_day <$> byday rule ∧
        ((days_into_week dt first + j) / 7) mod interval rule = 0 ∧
        (days_into_week dt first + j) / 7 < interval rule * 12000.
Proof.
  destruct Hdt as [Hd Ht]. pose proof (instant_at_naive tz dt Hd Hst start H0) as Hnaive.
  set (days := week_order first (bd_day <$> byday rule)).
  exists (weekly_list tz dt days first (interval rule) start 0 RRULE_MAX_STEPS). split; [|split].
  - unfold expand_weekly. rewrite wrap_i64_id by (unfold SPAN_MAX_DAYS, i64_min, i64_max in *; lia).
    destruct (is_nil (byday rule)) eqn:E; [by apply is_nil_spec in E|]. rewrite <- Hf. fold days.
    pose proof (offset_in_week_range first (weekday_of (epoch_day (date dt)))) as Hr.
    destruct (Hreach (- days_into_week dt first)) as [a Ha]; [unfold days_into_week in *; lia|].
    rewrite (start_of_week_lattice tz dt Hd Hst start first a) by done. cbn [mbind option_bind].
    rewrite (weekly_loop_list tz dt Hd Hst first (interval rule) start Ht Hnaive _ _ _ 0 a);
      [done|lia|done| | |apply Nat.le_0_l].
    + intros k Hk. rewrite max_steps in Hk.
      split; [apply Hreach; unfold days_into_week in *; nia|].
      intros w _. apply Hreach. unfold week_offset, days_into_week in *.
      pose proof (offset_in_week_range first w). nia.
    + rewrite <- Ha. f_equal. lia.
  - apply weekly_list_sorted; [done|done|lia|]. by apply week_order_sorted.
  - intros t. rewrite (elem_of_weekly_list tz dt Hd Hst) by (done || lia).
    rewrite max_steps. unfold days, week_order. by setoid_rewrite sort_by_perm.
Qed.

(** C13. MONTHLY: the instances are, up to the cap and in order, exactly the
    instants, not before the first one and with its time of day, on the days
    that BYDAY and BYMONTHDAY select (or on its day of the month) in every
    INTERVAL-th month. *)
Theorem monthly_instances (tz : RecurrenceTz) (dt : DateTime) (start : Z) (rule : Rrule)
    (Hdt : valid_datetime dt) (Hst : steady (zone tz) (time dt)) (Hn : naive tz start = Some dt)
    (Hi : 1 ≤ interval rule ≤ 2147483647) :
  ∃ L, expand_monthly start rule tz = take (instance_cap rule 800) L ∧
    StronglySorted Z.lt L ∧
    ∀ t, t ∈ L ↔
      ∃ k d, 0 ≤ k < 12000 ∧
        let n := 12 * year (date dt) + (month (date dt) - 1) + k * interval rule in
        let y := n / 12 in
        let m := n mod 12 + 1 in
        valid_date (mkDate y m d) ∧ day_visited y m rule (day (date dt)) d ∧
        resolve tz (mkDateTime (mkDate y m d) (time dt)) = Some t ∧ start ≤ t.
Proof.
  set (c := 12 * year (date dt) + (month (date dt) - 1)).
  exists (monthly_list tz rule (time dt) (day (date dt)) start c 0 RRULE_MAX_STEPS). split; [|split].
  - unfold expand_monthly. rewrite Hn. destruct Hdt as [(Hy & Hm & _) _].
    pose proof (monthly_loop_list tz rule (time dt) (day (date dt)) start RRULE_MAX_STEPS
      (instance_cap rule 800) c 0 [] Hi) as H.
    assert ((c + 0 * interval rule) / 12 = year (date dt)) as E1 by (unfold c; Z.div_mod_to_equations; lia).
    assert ((c + 0 * interval rule) mod 12 + 1 = month (date dt)) as E2 by (unfold c; Z.div_mod_to_equations; lia).
    unfold visited_month in H. cbn [fst snd] in H. rewrite E1, E2 in H. cbn [app] in H. rewrite H; [reflexivity|lia|apply Nat.le_0_l].
  - apply monthly_list_sorted; [done|lia].
  - intros t. rewrite elem_of_monthly_list. rewrite max_steps. split.
    + intros (k & Hk & d & H). by exists k, d.
    + intros (k & d & Hk & H). exists k. split; [done|]. by exists d.
Qed.

(** YEARLY: the instances are, up to the cap and in order, exactly the
    instants, not before the first one and with its time of day, on the
    selected days of the months of BYMONTH (or of its month) in every
    INTERVAL-th year, when BYMONTH lists the months in order. *)
Theorem yearly_instances (tz : RecurrenceTz) (dt : DateTime) (start : Z) (rule : Rrule)
    (Hdt : valid_datetime dt) (Hst : steady (zone tz) (time dt)) (Hn : naive tz start = Some dt)
    (Hi : 1 ≤ interval rule ≤ 2147483647) (Hm : StronglySorted Z.lt (bymonth rule)) :
  ∃ L, expand_yearly start rule tz = take (instance_cap rule 200) L ∧
    StronglySorted Z.lt L ∧
    ∀ t, t ∈ L ↔
      ∃ k m d, 0 ≤ k < 80000 ∧
        (m ∈ bymonth rule ∨ bymonth rule = [] ∧ m = month (date dt)) ∧
        let y := year (date dt) + k * interval rule in
        valid_date (mkDate y m d) ∧ day_visited y m rule (day (date dt)) d ∧
        resolve tz (mkDateTime (mkDate y m d) (time dt)) = Some t ∧ start ≤ t.
Proof.
  set (months := yearly_months rule (month (date dt))).
  assert (StronglySorted Z.lt months ∧
    ∀ m, m ∈ months ↔ m ∈ bymonth rule ∨ bymonth rule = [] ∧ m = month (date dt)) as [Hs Hin].
  { unfold months, yearly_months. destruct (bymonth rule) as [|m0 ms] eqn:E; cbn [is_nil].
    - split; [repeat constructor|]. intros m. rewrite list_elem_of_singleton, elem_of_nil. naive_solver.
    - split; [done|]. intros m. naive_solver. }
  exists (yearly_list tz rule (time dt) (day (date dt)) start months (year (date dt)) 0 YEARLY_MAX_STEPS).
  split; [|split].
  - unfold expand_yearly. rewrite Hn. fold months. destruct Hdt as [(Hy & _) _].
    pose proof (yearly_loop_list tz rule (time dt) (day (date dt)) start YEARLY_MAX_STEPS
      (instance_cap rule 200) months (year (date dt)) 0 [] Hi) as H.
    rewrite Z.mul_0_l, Z.add_0_r in H. cbn [app] in H. rewrite H; [reflexivity|lia|apply Nat.le_0_l].
  - apply yearly_list_sorted; [done|lia|done].
  - intros t. rewrite elem_of_yearly_list. rewrite yearly_max_steps. split.
    + intros (k & m & Hk & Hm' & d & H). exists k, m, d. by rewrite <- Hin.
    + intros (k & m & d & Hk & Hm' & H). exists k, m. rewrite Hin. split; [done|]. split; [done|]. by exists d.
Qed.

(** The expansion of a master event shows the candidates of its rule up to
    the end of the window (UNTIL, or the synthesized one), but those whose slot
    an override claims: each with its own identifier, the length of the master
    on the clock, and no override key. *)
Theorem expansion_shows_candidates (event : CalendarViewEvent) (s : str) (overrides : gset str)
    (horizon : option Z) (r : Rrule) (f : Freq) (last : Z) (starts : list Z)
    (Hparse : parse_rrule s = Some r) (Hfreq : freq_parse (freq r) = Some f)
    (Hsup : unsupported_parts r = []) (Hord : year_scope_ordinal f r = false)
    (Hlast : expansion_end (start_time event) r (from_event_timezone (timezone event)) horizon = Some last)
    (Hstarts : candidate_starts f (start_time event) r (from_event_timezone (timezone event)) = Some starts) :
  ∃ out, expand_recurrence_windowed event s overrides horizon = Some out ∧
    start_time <$> out =
      filter (λ t, canonical_recurrence_slot t (from_event_timezone (timezone event)) (all_day event) ∉ overrides)
        (until_after id last starts) ∧
    (length out ≤ instance_cap r 800)%nat ∧
    NoDup (ev_id <$> out) ∧
    Forall (λ i, recurrence_id_canonical i = None ∧ uid i = uid event ∧ account_id i = account_id event ∧
      end_time i = end_time_for_instance (start_time i)
        (wall_duration event (from_event_timezone (timezone event))) (from_event_timezone (timezone event))
        (wrap_i64 (end_time event - start_time event))) out.
Proof.
  set (tz := from_event_timezone (timezone event)) in *.
  eexists. split; [by eapply expand_eq|]. fold tz.
  assert (start_time <$> (instance_of event tz <$> kept event tz overrides last 0 starts) =
    filter (slot_free event tz overrides) (until_after id last starts)) as E.
  { rewrite <- list_fmap_compose, <- (kept_starts event tz overrides last 0). by apply list_fmap_ext. }
  split; [exact E|]. split; [|split].
  - rewrite <- (length_fmap start_time), E. etransitivity; [apply sublist_length, sublist_filter|].
    etransitivity; [apply sublist_length, until_after_sublist|]. by eapply candidates_length.
  - apply instance_ids, kept_numbers.
  - apply Forall_forall. by intros i (p & -> & _)%list_elem_of_fmap.
Qed.

(** The view never panics on rules whose UNTIL has a clock time in range and
    whose INTERVAL is within jiff's spans; nor does the expansion of a single
    event. *)
Theorem expansion_never_panics (rows : list CalendarViewEvent) (window_start window_end : Z)
    (Hclocks : ∀ ev s, ev ∈ rows → recurrence_rule ev = Some s → until_clocks_ok s)
    (Hspans : ∀ ev s r, ev ∈ rows → recurrence_rule ev = Some s → parse_rrule s = Some r →
       interval r * 7 ≤ SPAN_MAX_DAYS) :
  is_Some (expand_view_events rows window_start window_end) ∧
  ∀ ev s overrides horizon, ev ∈ rows → recurrence_rule ev = Some s →
    is_Some (expand_recurrence_windowed ev s overrides horizon).
Proof.
  assert (∀ ev s overrides horizon, ev ∈ rows → recurrence_rule ev = Some s →
    is_Some (expand_recurrence_windowed ev s overrides horizon)) as H.
  { intros ev s o h Hin Hs. apply expand_total; [by eapply Hclocks|]. intros r Hr. by eapply Hspans. }
  split; [|done]. unfold expand_view_events. apply fmap_is_Some, expand_rows_total.
  intros ev s Hin Hs. by apply H.
Qed.

(** C28. The view is ordered by start, holds every row without a rule and every
    instance that overlaps the window and nothing else.  And where the rule of a
    master parses, has a FREQ that is known, no parts that are not supported (such
    as BYSETPOS) and no ordinal for a whole year, so that it is expanded at all, the
    master does not show the slot of an override of its series a second time. *)
Theorem moved_instance_shown_once (rows : list CalendarViewEvent) (ws we : Z) (out : list CalendarViewEvent)
    (H : expand_view_events rows ws we = Some out) :
  StronglySorted (λ a b, start_time a ≤ start_time b) out ∧
  (∀ e, e ∈ out ↔ ∃ ev, ev ∈ rows ∧
     match recurrence_rule ev with
     | None => e = ev
     | Some s => ∃ instances,
         expand_recurrence_with_overrides ev s (series_overrides (overrides_by_series rows) ev) = Some instances ∧
         e ∈ instances ∧ start_time e < we ∧ ws < end_time e
     end) ∧
  (∀ ev s r f instances i o u c,
     ev ∈ rows → recurrence_rule ev = Some s → parse_rrule s = Some r → freq_parse (freq r) = Some f →
     unsupported_parts r = [] → year_scope_ordinal f r = false →
     expand_recurrence_with_overrides ev s (series_overrides (overrides_by_series rows) ev) = Some instances →
     i ∈ instances → o ∈ rows → uid ev = Some u → uid o = Some u → account_id o = account_id ev →
     recurrence_id_canonical o = Some c →
     canonical_recurrence_slot (start_time i) (from_event_timezone (timezone ev)) (all_day ev) ≠ c).
Proof.
  unfold expand_view_events in H. apply fmap_Some in H as (l & Hl & ->).
  split; [apply sort_by_sorted|]. split.
  - intros e. rewrite sort_by_perm, (expand_rows_spec _ _ _ _ _ _ Hl), elem_of_nil.
    assert (∀ x, overlaps ws we x = true ↔ start_time x < we ∧ ws < end_time x) as Ho.
    { intros x. unfold overlaps. by rewrite andb_true_iff, !Z.ltb_lt. }
    split.
    + intros [He|(ev & Hin & Hm)]; [done|]. exists ev. split; [done|].
      destruct (recurrence_rule ev); [|done]. destruct Hm as (ins & ? & ? & Hx). exists ins. by apply Ho in Hx.
    + intros (ev & Hin & Hm). right. exists ev. split; [done|].
      destruct (recurrence_rule ev); [|done]. destruct Hm as (ins & ? & ? & Hx). exists ins. by rewrite Ho.
  - intros ev s r f instances i o u c Hev Hs Hr Hf Hu Hy Hi Hin Ho Huid Huo Ha Hc.
    unfold expand_recurrence_with_overrides in Hi.
    destruct (expansion_end (start_time ev) r (from_event_timezone (timezone ev)) None) as [last|] eqn:El.
    2:{ unfold expand_recurrence_windowed in Hi. rewrite Hr in Hi. cbn [mbind option_bind] in Hi.
        rewrite Hf, Hu, Hy in Hi. cbn [is_nil negb] in Hi. by rewrite El in Hi. }
    destruct (candidate_starts f (start_time ev) r (from_event_timezone (timezone ev))) as [starts|] eqn:Es.
    2:{ unfold expand_recurrence_windowed in Hi. rewrite Hr in Hi. cbn [mbind option_bind] in Hi.
        rewrite Hf, Hu, Hy in Hi. cbn [is_nil negb] in Hi. rewrite El in Hi. cbn [mbind option_bind] in Hi.
        by rewrite Es in Hi. }
    rewrite (expand_eq ev s _ None r f last starts Hr Hf Hu Hy El Es) in Hi. injection Hi as <-.
    apply list_elem_of_fmap in Hin as (p & -> & Hp). intros E.
    unfold kept in Hp. apply list_elem_of_filter in Hp as [Hp _]. apply Hp. cbn [start_time instance_of set_instance] in E.
    rewrite E. apply series_overrides_spec. by exists o, u.
Qed.

(** C8. The reconciliation of deletions is exact for DAILY and WEEKLY series
    without BYDAY, COUNT, UNTIL and parts that are not supported, in a zone of fixed
    offset, when the 12000 steps after the opening of the window stay within the
    range of the calendar and INTERVAL weeks within that of a span: a series the
    server no longer lists is deleted exactly when one of its occurrences, however
    far from the first one, overlaps the window.  With COUNT or BYDAY it is not:
    [ended_series_deleted], [long_weekday_event_missed]. *)
Theorem endless_series_reconciled (s : str) (start finish : Z) (tzid : option str) (ws we : Z)
    (r : Rrule) (f : Freq) (off lo hi : Z)
    (Hfix : fixed_offset (zone (from_event_timezone tzid)) off lo hi)
    (Hparse : parse_rrule s = Some r) (Hplain : plain_series f r)
    (Hspan : 7 * interval r ≤ SPAN_MAX_DAYS) (Hlo : i64_min ≤ 4 * lo) (Hhi : 4 * hi ≤ i64_max)
    (Hdays : (hi - lo) / 86400 ≤ SPAN_MAX_DAYS) (Hstart : lo ≤ start) (Hdur : start ≤ finish) (Hw : ws < we)
    (Hroom : Z.max start ws + 86400 * series_step f r * 12000 + (finish - start) ≤ hi) :
  ∃ b, should_delete_absent_candidate (Some s) start finish tzid ws we = Some b ∧
    (b = true ↔ ∃ k, 0 ≤ k ∧ start + 86400 * series_step f r * k < we ∧
                     ws < finish + 86400 * series_step f r * k).
Proof.
  pose proof (wf_interval _ (parse_rrule_wf s r Hparse)) as Hi.
  destruct (plain_reconcile (stored_master s start finish tzid) s r f off lo hi ws we
    Hfix Hparse Hplain eq_refl ltac:(lia) Hspan Hlo Hhi Hdays Hstart ltac:(cbn; lia) Hroom Hw) as (b & Eb & Hb).
  cbn [start_time end_time stored_master] in Hb. cbn [should_delete_absent_candidate].
  destruct ((start <? we) && (ws <? finish)) eqn:E.
  - exists true. split; [done|]. split; [|done]. intros _. exists 0. lia.
  - exists b. split; [exact Eb|]. rewrite Hb. split; intros (k & Hk & H1 & H2); exists k; lia.
Qed.
End Jiff.

(** ** Witnesses *)

#[local] Transparent RRULE_MAX_STEPS YEARLY_MAX_STEPS instance_cap.

#[local] Existing Instance world.

Definition rule_of (s : str) : Rrule := default rrule_default (parse_rrule (J := world) s).

(** Friday 2024-03-08, 09:00 in New York, two days before its clocks change. *)
Definition friday : DateTime := mkDateTime (mkDate 2024 3 8) (mkTime 9 0 0).
Definition friday_at : Z := 1709906400.
Definition ny : RecurrenceTz := Iana (J := world) new_york.

Lemma friday_valid : valid_datetime friday.
Proof. apply (bool_decide_unpack _). vm_compute. exact I. Qed.

Lemma friday_steady : steady (J := world) new_york (time friday).
Proof. apply zone_steady; apply (bool_decide_unpack _); vm_compute; exact I. Qed.

Lemma friday_reach k : -700000 ≤ k ≤ 2400000 → is_Some (instant_at ny friday k).
Proof.
  intros Hk. assert (epoch_day (date friday) = 19790) as E by (vm_compute; reflexivity).
  apply zone_reach; [vm_compute; discriminate..|apply friday_valid|lia].
Qed.

Ltac decided := apply (bool_decide_unpack _); vm_compute; exact I.

Lemma parsed_rule_in_range_witness :
  let r := rule_of (slit "FREQ=MONTHLY;COUNT=99999;BYDAY=-1FR,99MO;BYMONTHDAY=31,-1,77;UNTIL=20300101") in
  count r = Some RRULE_MAX_COUNT ∧ Forall (λ d, 1 ≤ Z.abs d ≤ 31) (bymonthday r).
Proof.
  split; [vm_compute; reflexivity|].
  apply (parsed_rule_in_range (J := world)
    (slit "FREQ=MONTHLY;COUNT=99999;BYDAY=-1FR,99MO;BYMONTHDAY=31,-1,77;UNTIL=20300101")).
  vm_compute. reflexivity.
Defined.

Definition daily_rule : Rrule := rule_of (slit "FREQ=DAILY;INTERVAL=2;BYDAY=MO,TU").

Lemma daily_instances_witness :
  ∃ L, expand_daily friday_at daily_rule ny = Some (take (instance_cap daily_rule 800) L) ∧
    StronglySorted Z.lt L ∧ friday_at + 10 * 86400 - 3600 ∈ L.
Proof.
  destruct (daily_instances ny friday friday_at daily_rule) as (L & E & Hs & Hin).
  - exact friday_valid.
  - exact friday_steady.
  - vm_compute. reflexivity.
  - decided.
  - intros k Hk. assert (interval daily_rule = 2) as Ei by (vm_compute; reflexivity).
    rewrite Ei in Hk. apply friday_reach. lia.
  - exists L. split; [exact E|]. split; [exact Hs|]. apply Hin. exists 5.
    split; [lia|]. split; [vm_compute; reflexivity|]. decided.
Defined.

Definition weekly_rule : Rrule := rule_of (slit "FREQ=WEEKLY;INTERVAL=2;BYDAY=MO,FR;WKST=SU").

Lemma weekly_instances_witness :
  ∃ L, expand_weekly friday_at weekly_rule ny = Some (take (instance_cap weekly_rule 800) L) ∧
    StronglySorted Z.lt L ∧ friday_at + 10 * 86400 - 3600 ∈ L.
Proof.
  assert (interval weekly_rule = 2) as Ei by (vm_compute; reflexivity).
  destruct (weekly_instances ny friday friday_at weekly_rule Sunday) as (L & E & Hs & Hin).
  - exact friday_valid.
  - exact friday_steady.
  - vm_compute. reflexivity.
  - decided.
  - decided.
  - vm_compute. discriminate.
  - decided.
  - vm_compute. reflexivity.
  - intros k Hk. rewrite Ei in Hk. apply friday_reach. lia.
  - exists L. split; [exact E|]. split; [exact Hs|]. apply Hin. exists 10.
    split; [lia|]. split; [vm_compute; reflexivity|]. split; [decided|]. decided.
Defined.

Definition monthly_rule : Rrule := rule_of (slit "RRULE:FREQ=MONTHLY;BYDAY=2WE,-1FR").

Lemma monthly_instances_witness :
  ∃ L, expand_monthly friday_at monthly_rule ny = take (instance_cap monthly_rule 800) L ∧
    StronglySorted Z.lt L ∧ friday_at + 5 * 86400 - 3600 ∈ L.
Proof.
  destruct (monthly_instances ny friday friday_at monthly_rule) as (L & E & Hs & Hin).
  - exact friday_valid.
  - exact friday_steady.
  - vm_compute. reflexivity.
  - decided.
  - exists L. split; [exact E|]. split; [exact Hs|]. apply Hin. exists 0, 13.
    assert (byday monthly_rule = [mkByDay (Some 2) Wednesday; mkByDay (Some (-1)) Friday] ∧
            bymonthday monthly_rule = []) as [Eb Ek] by (split; vm_compute; reflexivity).
    split; [lia|]. cbv zeta. split; [decided|]. split.
    + unfold day_visited. rewrite Eb, Ek. cbn [is_nil andb]. split; [decided|]. split; [|by left].
      right. exists (mkByDay (Some 2) Wednesday). split; [by left|]. split; [vm_compute; reflexivity|].
      intros n [= <-]. left. vm_compute. reflexivity.
    + split; [vm_compute; reflexivity|]. decided.
Defined.

Definition yearly_rule : Rrule := rule_of (slit "FREQ=YEARLY;BYMONTH=3,11;BYMONTHDAY=-1").

Lemma yearly_instances_witness :
  ∃ L, expand_yearly friday_at yearly_rule ny = take (instance_cap yearly_rule 200) L ∧
    StronglySorted Z.lt L ∧ friday_at + 23 * 86400 - 3600 ∈ L.
Proof.
  assert (bymonth yearly_rule = [3; 11] ∧ byday yearly_rule = [] ∧ bymonthday yearly_rule = [-1])
    as (Em & Eb & Ek) by (repeat split; vm_compute; reflexivity).
  destruct (yearly_instances ny friday friday_at yearly_rule) as (L & E & Hs & Hin).
  - exact friday_valid.
  - exact friday_steady.
  - vm_compute. reflexivity.
  - decided.
  - rewrite Em. repeat constructor.
  - exists L. split; [exact E|]. split; [exact Hs|]. apply Hin. exists 0, 3, 31.
    split; [lia|]. split; [rewrite Em; left; by left|]. cbv zeta. split; [decided|]. split.
    + unfold day_visited. rewrite Eb, Ek. cbn [is_nil andb]. split; [decided|]. split; [by left|].
      right. exists (-1). split; [by left|]. right. vm_compute. reflexivity.
    + split; [vm_compute; reflexivity|]. decided.
Defined.

(** A daily meeting, four times, of which the second was moved. *)
Definition meeting (id : string) (rule : option string) (start finish : Z) (override : option string) :
    CalendarViewEvent :=
  mkEvent (slit id) (slit "standup") start finish false (slit "blue") None None (slit <$> rule) None (slit "a")
    None None None None None None (Some (slit "America/New_York")) (Some (slit "uid-1")) (slit <$> override).

Definition standup : CalendarViewEvent :=
  meeting "m" (Some "FREQ=DAILY;COUNT=4"%string) friday_at (friday_at + 1800) None.
Definition moved : CalendarViewEvent :=
  meeting "o" None (friday_at + 90000) (friday_at + 91800)
    (Some "20240309T090000;TZID=America/New_York"%string).
Definition standup_rule : str := slit "FREQ=DAILY;COUNT=4".

Lemma expansion_shows_candidates_witness :
  ∃ out, expand_recurrence_windowed (J := world) standup standup_rule
      {[slit "20240309T090000;TZID=America/New_York"]} None = Some out ∧
    start_time <$> out = [friday_at; friday_at + 2 * 86400 - 3600; friday_at + 3 * 86400 - 3600] ∧
    NoDup (ev_id <$> out).
Proof.
  destruct (expansion_shows_candidates (J := world) standup standup_rule
    {[slit "20240309T090000;TZID=America/New_York"]} None (rule_of standup_rule) Daily i64_max
    (default [] (expand_daily friday_at (rule_of standup_rule) ny))) as (out & E & Es & _ & Hnd & _);
    [vm_compute; reflexivity..|].
  exists out. split; [exact E|]. split; [rewrite Es; vm_compute; reflexivity|exact Hnd].
Defined.

Lemma rows_rules ev s : ev ∈ [standup; moved] → recurrence_rule ev = Some s → s = standup_rule.
Proof. intros [-> |[-> |[]%elem_of_nil]%elem_of_cons]%elem_of_cons H; cbn in H; by simplify_eq. Qed.

Lemma expansion_never_panics_witness :
  is_Some (expand_view_events (J := world) [standup; moved] friday_at (friday_at + 604800)).
Proof.
  refine (proj1 (expansion_never_panics (J := world) [standup; moved] friday_at (friday_at + 604800) _ _)).
  - intros ev s Hin Hs. rewrite (rows_rules ev s Hin Hs). intros part val c Hp Hv.
    assert (split_char 59 (default standup_rule (strip_prefix (slit "RRULE:") standup_rule)) =
            [slit "FREQ=DAILY"; slit "COUNT=4"]) as E by (vm_compute; reflexivity).
    rewrite E in Hp.
    assert (part = slit "FREQ=DAILY" ∨ part = slit "COUNT=4") as [-> | ->] by set_solver;
      vm_compute in Hv; discriminate.
  - intros ev s r Hin Hs Hr. rewrite (rows_rules ev s Hin Hs) in Hr.
    assert (parse_rrule (J := world) standup_rule = Some (rule_of standup_rule)) as E by (vm_compute; reflexivity).
    rewrite E in Hr. injection Hr as <-. decided.
Defined.

Lemma moved_instance_shown_once_witness :
  let out := default [] (expand_view_events (J := world) [standup; moved] friday_at (friday_at + 604800)) in
  StronglySorted (λ a b, start_time a ≤ start_time b) out ∧ length out = 4%nat.
Proof.
  intros out.
  assert (expand_view_events (J := world) [standup; moved] friday_at (friday_at + 604800) = Some out) as E
    by (vm_compute; reflexivity).
  destruct (moved_instance_shown_once (J := world) [standup; moved] friday_at (friday_at + 604800) out E)
    as [Hs _].
  split; [exact Hs|vm_compute; reflexivity].
Defined.

(** A fortnightly series that began in 2023, and a week of 2027. *)
Lemma endless_series_reconciled_witness :
  ∃ b, should_delete_absent_candidate (J := world) (Some (slit "FREQ=WEEKLY;INTERVAL=2")) 1700000000 1700003600 None
      1800000000 1800604800 = Some b ∧
    (b = true ↔ ∃ k, 0 ≤ k ∧ 1700000000 + 86400 * 14 * k < 1800604800 ∧
                     1800000000 < 1700003600 + 86400 * 14 * k).
Proof.
  assert (series_step Weekly (rule_of (slit "FREQ=WEEKLY;INTERVAL=2")) = 14) as Es by (vm_compute; reflexivity).
  rewrite <- Es.
  apply (endless_series_reconciled (J := world) _ _ _ _ _ _ (rule_of (slit "FREQ=WEEKLY;INTERVAL=2")) Weekly
    0 1600000000 20000000000).
  - apply fixed_zone_offset; vm_compute; discriminate.
  - vm_compute. reflexivity.
  - split; try (vm_compute; reflexivity). by right.
  - decided.
  - decided.
  - decided.
  - decided.
  - decided.
  - decided.
  - decided.
  - rewrite Es. decided.
Defined.

(** ** Rules the expansion gets wrong

    Runs of src/crates/db/src/db/queries_extra/calendars/view/rrule/mod.rs,
    evaluated with the calendar and the zones above. *)

Local Open Scope Z_scope.

#[local] Existing Instance world.

(** The starts of the instances of a timed event of one hour. *)
Definition starts_of (rule : string) (start : Z) (tzid : option str) : option (list Z) :=
  map start_time <$>
    expand_recurrence_with_overrides (stored_master (slit rule) start (start + 3600) tzid) (slit rule) ∅.

(** Monday 2026-01-12 and Thursday 2026-01-01, midnight UTC. *)
Definition monday : Z := 1768176000.
Definition new_year : Z := 1767225600.

(** An UNTIL whose hour is out of range panics, where the comment of
    [parse_until_date] says that what is not valid is rejected with [None]. *)
Theorem until_out_of_range_panics :
  parse_rrule (slit "FREQ=DAILY;UNTIL=20260315T250000Z") = None ∧
  parse_rrule (slit "FREQ=DAILY;UNTIL=20161231T235960Z") = None.
Proof. split; vm_compute; reflexivity. Qed.

(** An INTERVAL past jiff's spans panics, though the rule parses. *)
Theorem long_interval_panics :
  is_Some (parse_rrule (slit "FREQ=DAILY;INTERVAL=8000000;COUNT=2")) ∧
  starts_of "FREQ=DAILY;INTERVAL=8000000;COUNT=2" monday None = None.
Proof. split; [eexists|]; vm_compute; reflexivity. Qed.

(** A daily event at 02:30 in New York is at 03:30 on the day the clocks change,
    and at 03:30 on every day after it. *)
Theorem skipped_time_drifts :
  starts_of "FREQ=DAILY;COUNT=4" 1709969400 (Some (slit "America/New_York")) =
    Some [1709969400; 1710055800; 1710142200; 1710228600] ∧
  (time <$> to_datetime (new_york : TimeZone) 1709969400) = Some (mkTime 2 30 0) ∧
  (time <$> to_datetime (new_york : TimeZone) 1710142200) = Some (mkTime 3 30 0) ∧
  to_timestamp (new_york : TimeZone) (mkDateTime (mkDate 2024 3 11) (mkTime 2 30 0)) = Some 1710138600.
Proof. repeat split; vm_compute; reflexivity. Qed.

(** Months listed out of order are visited out of order: the first instance of a
    series that starts in January is in December. *)
Theorem months_out_of_order :
  starts_of "FREQ=YEARLY;BYMONTH=12,1;COUNT=2" new_year None = Some [1796083200; 1767225600] ∧
  starts_of "FREQ=YEARLY;BYMONTH=1,12;COUNT=2" new_year None = Some [1767225600; 1796083200] ∧
  starts_of "FREQ=YEARLY;BYMONTH=12,1;COUNT=1" new_year None = Some [1796083200].
Proof. repeat split; vm_compute; reflexivity. Qed.

(** A weekday named twice yields every instance twice, and uses up COUNT. *)
Theorem repeated_weekday_twice :
  starts_of "FREQ=WEEKLY;BYDAY=MO,MO;COUNT=4" monday None =
  Some [1768176000; 1768176000; 1768780800; 1768780800].
Proof. vm_compute. reflexivity. Qed.

(** BYMONTH on another frequency than YEARLY is dropped in silence. *)
Theorem bymonth_dropped :
  unsupported_parts <$> parse_rrule (slit "FREQ=MONTHLY;BYMONTH=1;COUNT=2") = Some [] ∧
  starts_of "FREQ=MONTHLY;BYMONTH=1;COUNT=2" new_year None = Some [1767225600; 1769904000].
Proof. split; vm_compute; reflexivity. Qed.

(** A series of five days in 2023 has no occurrence in January 2027, and is
    deleted when a pull of that window does not list it: COUNT starts again from
    the moved first instance. *)
Theorem ended_series_deleted :
  starts_of "FREQ=DAILY;COUNT=5" 1700000000 None =
    Some [1700000000; 1700086400; 1700172800; 1700259200; 1700345600] ∧
  should_delete_absent_candidate (Some (slit "FREQ=DAILY;COUNT=5")) 1700000000 1700003600 None
    1798761600 1801440000 = Some true.
Proof. split; vm_compute; reflexivity. Qed.

(** An event of three days every Monday, as DAILY with BYDAY: the one of 12 January
    2026 overlaps a window on the Tuesday, but the first instance is moved to the
    Tuesday, after it, so that the window looks empty. *)
Theorem long_weekday_event_missed :
  should_delete_absent_candidate (Some (slit "FREQ=DAILY;BYDAY=MO")) 1767603600 1767862800 None
    1768305600 1768327200 = Some false ∧
  to_datetime (tz_utc : TimeZone) 1767603600 = Some (mkDateTime (mkDate 2026 1 5) (mkTime 9 0 0)) ∧
  weekday (mkDate 2026 1 5) = Monday ∧
  1767603600 + 7 * 86400 < 1768327200 ∧ 1768305600 < 1767862800 + 7 * 86400.
Proof.
  split; [vm_cast_no_check (eq_refl (Some false))|]. split; [vm_compute; reflexivity|]. split; [vm_compute; reflexivity|lia].
Qed.

(** A series on the working days of each month runs out of the 800 instances of
    its cap within four years: a window eight years after its start looks empty,
    and the series is kept for good after its deletion on the server. *)
Theorem dense_months_run_out :
  should_delete_absent_candidate (Some (slit "FREQ=MONTHLY;BYDAY=MO,TU,WE,TH,FR")) 1767258000 1767261600 None
    2019600000 2020204800 = Some false ∧
  to_datetime (tz_utc : TimeZone) 1767258000 = Some (mkDateTime (mkDate 2026 1 1) (mkTime 9 0 0)) ∧
  to_datetime (tz_utc : TimeZone) 2020150800 = Some (mkDateTime (mkDate 2034 1 6) (mkTime 9 0 0)) ∧
  weekday (mkDate 2034 1 6) = Friday.
Proof.
  split; [vm_cast_no_check (eq_refl (Some false))|]. repeat split; vm_compute; reflexivity.
Qed.
