(* ===== verification/Mailbox.v ===== *)
(** * The mailbox tables: membership, label intents and pending operations

    The tables the mail actions write (src/crates/db/src/db/schema/02_mail.sql,
    10_sync.sql) and the statements on them: what a user wants of a label before
    the provider agrees (src/crates/db/src/db/queries_extra/label_intent.rs), the
    labels and folders of a thread as the union over its messages
    (message_membership.rs), the queue of retries (src/crates/db/src/db/
    pending_ops.rs) and the changes of the actions themselves (email_actions.rs,
    queries.rs, and archive.rs, trash.rs, spam.rs, star.rs, mark_read.rs,
    move_to_folder.rs, permanent_delete.rs, pin.rs, mute.rs, snooze.rs of
    src/crates/service/src/actions).

    A statement runs in [Sql]: it answers or fails, and what it wrote before
    failing stays unless a transaction is around it.  Statements fail for the
    reasons the schema gives (foreign keys, a row that is not there); a failing
    disk is left out.  A row is found under its primary key; the columns no
    action reads or writes are left out. *)

From stdpp Require Import sorting.
From S2P Require Import Prelude.
From S2P Require Import Graphemes.
From S2P Require Import Strings.
From S2P Require Import Bytes.
From S2P Require Import FolderLabel.

(** ** Rows *)

Record Thread := mkThread {
  is_read : bool;
  is_starred : bool;
  is_pinned : bool;
  is_muted : bool;
  is_snoozed : bool;
  snooze_until : option Z;
  namespace_kind : option str;
  namespace_id : option str;
  label_membership_generation : Z
}.

Record Message := mkMessageRow {
  message_thread : str;
  message_date : Z;
  message_read : bool;
  message_starred : bool;
  imap_folder : option str;
  imap_uid : option Z;
  imap_uidvalidity : option Z
}.

Record FolderRow := mkFolderRow {
  imap_folder_path : option str;
  right_remove : option Z;
  right_set_seen : option Z;
  right_set_keywords : option Z
}.

Record LabelRow := mkLabelRow { label_name : str; sort_order : Z; is_undeletable : bool }.

Inductive PendingLabelIntentOp := Add | Remove.

#[export] Instance PendingLabelIntentOp_eq_dec : EqDecision PendingLabelIntentOp.
Proof. solve_decision. Defined.

(** A row of [pending_thread_label_intents] under (account, thread, label). *)
Record Intent := mkIntent {
  intent_op : PendingLabelIntentOp;
  generation_seen : Z;
  action_id : option str;
  intent_created_at : Z;
  intent_updated_at : Z
}.

Inductive OpState := Pending | Executing | OpFailed.

#[export] Instance OpState_eq_dec : EqDecision OpState.
Proof. solve_decision. Defined.

(** A row of [pending_operations] under its [id]. *)
Record PendingOperation := mkPendingOp {
  op_account : str;
  operation_type : str;
  resource_id : str;
  params : str;
  op_state : OpState;
  retry_count : Z;
  max_retries : Z;
  next_retry_at : option Z;
  op_created_at : Z;
  error_message : option str
}.

(** (account, thread), (account, message), ... *)
Abbreviation key2 := (str * str)%type.

(** (account, thread, label), (account, thread, folder), ... *)
Abbreviation key3 := (str * str * str)%type.

(** Of [local_drafts] only the [sync_status] is here.  [messages_keywords] has the keyword as a column beside its key (account,
    message, label); [label_group_members] is keyed by (account, label) here,
    which the schema declares unique. *)
Record mailbox := mkMailbox {
  accounts : gmap str str;
  threads : gmap key2 Thread;
  messages : gmap key2 Message;
  folders : gmap key2 FolderRow;
  labels : gmap key2 LabelRow;
  thread_folders : gset key3;
  thread_labels : gset key3;
  message_folders : gset key3;
  message_labels : gset key3;
  message_keywords : gmap key3 str;
  label_groups : gset Z;
  label_group_members : gmap key2 Z;
  intents : gmap key3 Intent;
  pending_operations : gmap str PendingOperation;
  local_drafts : gmap str str
}.

(** *** The columns an update writes *)

Definition set_threads (f : gmap key2 Thread → gmap key2 Thread) (m : mailbox) : mailbox :=
  mkMailbox (accounts m) (f (threads m)) (messages m) (folders m) (labels m) (thread_folders m)
    (thread_labels m) (message_folders m) (message_labels m) (message_keywords m) (label_groups m)
    (label_group_members m) (intents m) (pending_operations m) (local_drafts m).

Definition set_messages (f : gmap key2 Message → gmap key2 Message) (m : mailbox) : mailbox :=
  mkMailbox (accounts m) (threads m) (f (messages m)) (folders m) (labels m) (thread_folders m)
    (thread_labels m) (message_folders m) (message_labels m) (message_keywords m) (label_groups m)
    (label_group_members m) (intents m) (pending_operations m) (local_drafts m).

Definition set_labels (f : gmap key2 LabelRow → gmap key2 LabelRow) (m : mailbox) : mailbox :=
  mkMailbox (accounts m) (threads m) (messages m) (folders m) (f (labels m)) (thread_folders m)
    (thread_labels m) (message_folders m) (message_labels m) (message_keywords m) (label_groups m)
    (label_group_members m) (intents m) (pending_operations m) (local_drafts m).

Definition set_thread_folders (f : gset key3 → gset key3) (m : mailbox) : mailbox :=
  mkMailbox (accounts m) (threads m) (messages m) (folders m) (labels m) (f (thread_folders m))
    (thread_labels m) (message_folders m) (message_labels m) (message_keywords m) (label_groups m)
    (label_group_members m) (intents m) (pending_operations m) (local_drafts m).

Definition set_thread_labels (f : gset key3 → gset key3) (m : mailbox) : mailbox :=
  mkMailbox (accounts m) (threads m) (messages m) (folders m) (labels m) (thread_folders m)
    (f (thread_labels m)) (message_folders m) (message_labels m) (message_keywords m) (label_groups m)
    (label_group_members m) (intents m) (pending_operations m) (local_drafts m).

Definition set_message_folders (f : gset key3 → gset key3) (m : mailbox) : mailbox :=
  mkMailbox (accounts m) (threads m) (messages m) (folders m) (labels m) (thread_folders m)
    (thread_labels m) (f (message_folders m)) (message_labels m) (message_keywords m) (label_groups m)
    (label_group_members m) (intents m) (pending_operations m) (local_drafts m).

Definition set_message_labels (f : gset key3 → gset key3) (m : mailbox) : mailbox :=
  mkMailbox (accounts m) (threads m) (messages m) (folders m) (labels m) (thread_folders m)
    (thread_labels m) (message_folders m) (f (message_labels m)) (message_keywords m) (label_groups m)
    (label_group_members m) (intents m) (pending_operations m) (local_drafts m).

Definition set_message_keywords (f : gmap key3 str → gmap key3 str) (m : mailbox) : mailbox :=
  mkMailbox (accounts m) (threads m) (messages m) (folders m) (labels m) (thread_folders m)
    (thread_labels m) (message_folders m) (message_labels m) (f (message_keywords m)) (label_groups m)
    (label_group_members m) (intents m) (pending_operations m) (local_drafts m).

Definition set_intents (f : gmap key3 Intent → gmap key3 Intent) (m : mailbox) : mailbox :=
  mkMailbox (accounts m) (threads m) (messages m) (folders m) (labels m) (thread_folders m)
    (thread_labels m) (message_folders m) (message_labels m) (message_keywords m) (label_groups m)
    (label_group_members m) (f (intents m)) (pending_operations m) (local_drafts m).

Definition set_pending (f : gmap str PendingOperation → gmap str PendingOperation) (m : mailbox) : mailbox :=
  mkMailbox (accounts m) (threads m) (messages m) (folders m) (labels m) (thread_folders m)
    (thread_labels m) (message_folders m) (message_labels m) (message_keywords m) (label_groups m)
    (label_group_members m) (intents m) (f (pending_operations m)) (local_drafts m).

Definition set_drafts (f : gmap str str → gmap str str) (m : mailbox) : mailbox :=
  mkMailbox (accounts m) (threads m) (messages m) (folders m) (labels m) (thread_folders m)
    (thread_labels m) (message_folders m) (message_labels m) (message_keywords m) (label_groups m)
    (label_group_members m) (intents m) (pending_operations m) (f (local_drafts m)).

(** ** Statements *)

Definition Sql (A : Type) : Type := mailbox → (str + A) * mailbox.

#[export] Instance Sql_ret : MRet Sql := λ A a m, (inr a, m).
#[export] Instance Sql_bind : MBind Sql := λ A B f d m,
  match d m with
  | (inr a, m') => f a m'
  | (inl e, m') => (inl e, m')
  end.

Definition db_fail {A} (e : str) : Sql A := λ m, (inl e, m).
Definition db_query {A} (f : mailbox → A) : Sql A := λ m, (inr (f m), m).
Definition db_update (f : mailbox → mailbox) : Sql unit := λ m, (inr (), f m).

(** A transaction that is dropped without a commit rolls back. *)
Definition transaction {A} (d : Sql A) : Sql A := λ m,
  match d m with
  | (inl e, _) => (inl e, m)
  | done => done
  end.

Fixpoint db_each {A} (f : A → Sql unit) (l : list A) : Sql unit :=
  match l with
  | [] => mret ()
  | a :: l => f a;; db_each f l
  end.

Definition fk_error : str := Eval vm_compute in slit "FOREIGN KEY constraint failed".
Definition no_rows : str := Eval vm_compute in slit "Query returned no rows".

(** [map_err(|e| format!("...: {e}"))] *)
Definition context (what : str) (e : str) : str := what ++ slit ": " ++ e.

(** ** Folders of a thread (email_actions.rs) *)

Definition remove_folder (a t f : str) : Sql bool :=
  found ← db_query (λ m, bool_decide ((a, t, f) ∈ thread_folders m));
  db_update (set_thread_folders (.∖ {[ (a, t, f) ]}));;
  mret found.

Definition INBOX : str := Eval vm_compute in slit "INBOX".
Definition TRASH : str := Eval vm_compute in slit "TRASH".
Definition SPAM : str := Eval vm_compute in slit "SPAM".

Definition remove_inbox_folder (a t : str) : Sql bool := remove_folder a t INBOX.

Definition insert_folder (a t f : str) : Sql bool :=
  found ← db_query (λ m, bool_decide ((a, t, f) ∈ thread_folders m));
  if found : bool then mret false
  else
    ok ← db_query (λ m, bool_decide (is_Some (threads m !! (a, t))) && bool_decide (is_Some (folders m !! (a, f))));
    if ok : bool then db_update (set_thread_folders (.∪ {[ (a, t, f) ]}));; mret true
    else db_fail fk_error.

(** ** Flags of a thread (queries.rs) *)

Definition with_read (b : bool) (r : Thread) : Thread :=
  mkThread b (is_starred r) (is_pinned r) (is_muted r) (is_snoozed r) (snooze_until r)
    (namespace_kind r) (namespace_id r) (label_membership_generation r).

Definition with_starred (b : bool) (r : Thread) : Thread :=
  mkThread (is_read r) b (is_pinned r) (is_muted r) (is_snoozed r) (snooze_until r)
    (namespace_kind r) (namespace_id r) (label_membership_generation r).

Definition with_pinned (b : bool) (r : Thread) : Thread :=
  mkThread (is_read r) (is_starred r) b (is_muted r) (is_snoozed r) (snooze_until r)
    (namespace_kind r) (namespace_id r) (label_membership_generation r).

Definition with_muted (b : bool) (r : Thread) : Thread :=
  mkThread (is_read r) (is_starred r) (is_pinned r) b (is_snoozed r) (snooze_until r)
    (namespace_kind r) (namespace_id r) (label_membership_generation r).

Definition with_snooze (u : option Z) (r : Thread) : Thread :=
  mkThread (is_read r) (is_starred r) (is_pinned r) (is_muted r) (bool_decide (is_Some u)) u
    (namespace_kind r) (namespace_id r) (label_membership_generation r).

Definition with_generation (g : Z) (r : Thread) : Thread :=
  mkThread (is_read r) (is_starred r) (is_pinned r) (is_muted r) (is_snoozed r) (snooze_until r)
    (namespace_kind r) (namespace_id r) g.

(** [UPDATE threads SET c = v WHERE .. AND c != v]: whether a row changed. *)
Definition set_thread_bool_field (get : Thread → bool) (put : bool → Thread → Thread) (a t : str) (v : bool)
    : Sql bool :=
  changed ← db_query (λ m,
    match threads m !! (a, t) with Some r => negb (Bool.eqb (get r) v) | None => false end);
  db_update (set_threads (alter (put v) (a, t)));;
  mret changed.

Definition set_thread_read : str → str → bool → Sql bool := set_thread_bool_field is_read with_read.
Definition set_thread_starred : str → str → bool → Sql bool := set_thread_bool_field is_starred with_starred.
Definition set_thread_pinned : str → str → bool → Sql bool := set_thread_bool_field is_pinned with_pinned.
Definition set_thread_muted : str → str → bool → Sql bool := set_thread_bool_field is_muted with_muted.

Definition with_message_read (b : bool) (r : Message) : Message :=
  mkMessageRow (message_thread r) (message_date r) b (message_starred r) (imap_folder r) (imap_uid r)
    (imap_uidvalidity r).

Definition with_message_starred (b : bool) (r : Message) : Message :=
  mkMessageRow (message_thread r) (message_date r) (message_read r) b (imap_folder r) (imap_uid r)
    (imap_uidvalidity r).

(** [account_id = ?1 AND thread_id = ?2] of a message *)
Definition in_thread (a t : str) (k : key2) (r : Message) : Prop := k.1 = a ∧ message_thread r = t.

#[export] Instance in_thread_dec a t k r : Decision (in_thread a t k r).
Proof. unfold in_thread. apply _. Defined.

(** An [UPDATE messages] over a thread. *)
Definition on_thread_messages (a t : str) (f : Message → Message) (ms : gmap key2 Message) : gmap key2 Message :=
  map_imap (λ k r, Some (if decide (in_thread a t k r) then f r else r)) ms.

(** The messages of a thread. *)
Definition thread_messages (a t : str) (m : mailbox) : gmap key2 Message :=
  filter (λ e : key2 * Message, in_thread a t e.1 e.2) (messages m).

Definition set_thread_messages_starred (a t : str) (v : bool) : Sql bool :=
  matched ← db_query (λ m, negb (bool_decide (thread_messages a t m = ∅)));
  db_update (set_messages (on_thread_messages a t (with_message_starred v)));;
  mret matched.

(** What [DELETE FROM threads] removes with the row, by its foreign keys. *)
Definition cascade_thread (a t : str) (m : mailbox) : mailbox :=
  let gone := thread_messages a t m in
  set_threads (delete (a, t))
  (set_messages (filter (λ e, ¬ in_thread a t e.1 e.2))
  (set_thread_folders (filter (λ k, k.1 ≠ (a, t)))
  (set_thread_labels (filter (λ k, k.1 ≠ (a, t)))
  (set_intents (filter (λ e, e.1.1 ≠ (a, t)))
  (set_message_folders (filter (λ k, gone !! k.1 = None))
  (set_message_labels (filter (λ k, gone !! k.1 = None))
  (set_message_keywords (filter (λ e, gone !! e.1.1 = None)) m))))))).

Definition delete_thread (a t : str) : Sql unit :=
  db_update (λ m, match threads m !! (a, t) with Some _ => cascade_thread a t m | None => m end).

(** ** The local half of the actions *)

(** [SELECT COUNT( * )] under a key (action_helpers.rs) *)
Definition thread_there (a t : str) (m : mailbox) : bool := bool_decide (is_Some (threads m !! (a, t))).
Definition label_there (a l : str) (m : mailbox) : bool := bool_decide (is_Some (labels m !! (a, l))).

Definition trash_local (a t : str) : Sql unit := remove_folder a t INBOX;; insert_folder a t TRASH;; mret ().

Definition spam_local (a t : str) (is_spam : bool) : Sql unit :=
  if is_spam then remove_folder a t INBOX;; insert_folder a t SPAM;; mret ()
  else remove_folder a t SPAM;; insert_folder a t INBOX;; mret ().

Definition move_local (a t dest : str) (source : option str) : Sql unit :=
  match source with Some src => remove_folder a t src;; mret () | None => mret () end;;
  insert_folder a t dest;; mret ().

Definition mark_read_local (a t : str) (v : bool) : Sql unit :=
  transaction (
    set_thread_read a t v;;
    db_update (set_messages (on_thread_messages a t (with_message_read v)))).

(** The transaction of [star_local]. *)
Definition star_rows (a t : str) (v : bool) : Sql bool :=
  transaction (
    thread_changed ← set_thread_starred a t v;
    message_changed ← set_thread_messages_starred a t v;
    mret (thread_changed || message_changed)).

Definition snooze_thread_sync (a t : str) (until : Z) : Sql unit :=
  db_update (set_threads (alter (with_snooze (Some until)) (a, t))).

Definition unsnooze_thread_sync (a t : str) : Sql unit :=
  db_update (set_threads (alter (with_snooze None) (a, t))).

(** ** Label intents (label_intent.rs)

    [pending_thread_label_intents] holds what the user wants of a label on a
    thread until the provider's truth says the same. *)

Definition label_intent := (str * PendingLabelIntentOp)%type.

Definition thread_generation (a t : str) : Sql Z :=
  r ← db_query (λ m, threads m !! (a, t));
  match r with
  | Some r => mret (label_membership_generation r)
  | None => db_fail (context (slit "read thread generation for " ++ a ++ slit "/" ++ t) no_rows)
  end.

(** [INSERT .. ON CONFLICT DO UPDATE]: a row that is there keeps its
    [created_at]; a new row must have its thread and its label. *)
Definition upsert_intent (a t : str) (g : Z) (action : option str) (now : Z) (i : label_intent) : Sql unit :=
  let k := (a, t, i.1) in
  old ← db_query (λ m, intents m !! k);
  match old with
  | Some r => db_update (set_intents (<[k := mkIntent i.2 g action (intent_created_at r) now]>))
  | None =>
      ok ← db_query (λ m, bool_decide (is_Some (threads m !! (a, t))) && bool_decide (is_Some (labels m !! (a, i.1))));
      if ok : bool then db_update (set_intents (<[k := mkIntent i.2 g action now now]>))
      else db_fail (context (slit "upsert pending label intent") fk_error)
  end.

Definition upsert_pending_thread_label_intents (a t : str) (ii : list label_intent) (action : option str) (now : Z)
    : Sql Z :=
  g ← thread_generation a t;
  db_each (upsert_intent a t g action now) ii;;
  mret g.

(** [op = ?4 AND generation_seen = ?n] *)
Definition same_intent (o : PendingLabelIntentOp) (g : Z) (r : Intent) : bool :=
  bool_decide (intent_op r = o) && (generation_seen r =? g)%Z.

Definition attach_row (o : PendingLabelIntentOp) (g : Z) (action : str) (now : Z) (r : Intent) : Intent :=
  if same_intent o g r then mkIntent (intent_op r) (generation_seen r) (Some action) (intent_created_at r) now else r.

Definition attach_action_id_to_pending_thread_label_intents (a t : str) (ii : list label_intent) (g : Z)
    (action : str) (now : Z) : Sql unit :=
  db_each (λ i : label_intent, db_update (set_intents (alter (attach_row i.2 g action now) (a, t, i.1)))) ii.

(** One [DELETE] under the key, for a row that says the same. *)
Definition delete_intent (k : key3) (o : PendingLabelIntentOp) (g : Z) (im : gmap key3 Intent) : gmap key3 Intent :=
  match im !! k with
  | Some r => if same_intent o g r then delete k im else im
  | None => im
  end.

Definition delete_pending_thread_label_intents_for_labels (a t : str) (ii : list label_intent) (g : Z) : Sql unit :=
  db_each (λ i : label_intent, db_update (set_intents (delete_intent (a, t, i.1) i.2 g))) ii.

Definition delete_pending_thread_label_intents_for_action (action : str) : Sql unit :=
  db_update (set_intents (filter (λ e, action_id e.2 ≠ Some action))).

(** [status IN ('pending', 'executing')] *)
Definition op_live (o : PendingOperation) : Prop := op_state o ≠ OpFailed.

#[export] Instance op_live_dec o : Decision (op_live o).
Proof. unfold op_live. apply _. Defined.

(** The action of an intent is in the queue, waiting or executing. *)
Definition action_live (m : mailbox) (r : Intent) : bool :=
  match action_id r ≫= (λ i, pending_operations m !! i) with
  | Some o => bool_decide (op_live o)
  | None => false
  end.

Definition stale_intent (m : mailbox) (cutoff : Z) (r : Intent) : bool :=
  (intent_updated_at r <? cutoff)%Z && negb (action_live m r).

Definition stale_age : str := Eval vm_compute in slit "pending label intent stale age must be positive".

(** The cut-off does not underflow, as the time of day is not negative. *)
Definition delete_stale_pending_thread_label_intents (max_age_secs now : Z) : Sql nat :=
  if (max_age_secs <=? 0)%Z then db_fail stale_age
  else
    let cutoff := (now - max_age_secs)%Z in
    n ← db_query (λ m, size (filter (λ e : key3 * Intent, stale_intent m cutoff e.2 = true) (intents m)));
    db_update (λ m, set_intents (filter (λ e, stale_intent m cutoff e.2 = false)) m);;
    mret n.

(** *** The provider's truth *)

(** [i64] addition in SQLite: an overflowing sum becomes a real number, which
    2{^63} changes of one thread do not reach; the model adds. *)
Definition bump_thread_label_membership_generation (a t : str) : Sql unit :=
  db_update (set_threads (alter (λ r, with_generation (label_membership_generation r + 1) r) (a, t))).

Definition satisfied (m : mailbox) (k : key3) (r : Intent) : bool :=
  match intent_op r with
  | Add => bool_decide (k ∈ thread_labels m)
  | Remove => bool_decide (k ∉ thread_labels m)
  end.

Definition clearable (m : mailbox) (a t : str) (k : key3) (r : Intent) : bool :=
  bool_decide (k.1 = (a, t)) &&
  match threads m !! (a, t) with
  | Some row => (generation_seen r <? label_membership_generation row)%Z && satisfied m k r
  | None => false
  end.

Definition clear_satisfied_pending_thread_label_intents (a t : str) : Sql unit :=
  db_update (λ m, set_intents (filter (λ e, clearable m a t e.1 e.2 = false)) m).

Definition finalize_provider_truth_label_membership (a t : str) : Sql unit :=
  bump_thread_label_membership_generation a t;;
  clear_satisfied_pending_thread_label_intents a t.

(** The messages of a thread with one label, as rows of [message_labels]. *)
Definition label_rows (a t l : str) (m : mailbox) : gset key3 :=
  set_map (λ k : key2, (k, l)) (dom (thread_messages a t m)).

(** [INSERT OR IGNORE .. SELECT]: a row that is there is ignored, a foreign key
    that does not hold is not. *)
Definition insert_or_ignore (what : str) (has : mailbox → gset key3) (put : gset key3 → mailbox → mailbox)
    (fk : mailbox → key3 → Prop) `{!∀ m k, Decision (fk m k)} (rows : mailbox → gset key3) : Sql unit :=
  fits ← db_query (λ m, bool_decide (set_Forall (λ k, k ∈ has m ∨ fk m k) (rows m)));
  if fits : bool then db_update (λ m, put (rows m) m) else db_fail (context what fk_error).

(** The foreign keys of [thread_labels], [message_labels], [message_folders] and
    [thread_folders]. *)
Definition thread_label_fk (m : mailbox) (k : key3) : Prop :=
  is_Some (threads m !! k.1) ∧ is_Some (labels m !! (k.1.1, k.2)).
Definition message_label_fk (m : mailbox) (k : key3) : Prop :=
  is_Some (messages m !! k.1) ∧ is_Some (labels m !! (k.1.1, k.2)).
Definition message_folder_fk (m : mailbox) (k : key3) : Prop :=
  is_Some (messages m !! k.1) ∧ is_Some (folders m !! (k.1.1, k.2)).
Definition thread_folder_fk (m : mailbox) (k : key3) : Prop :=
  is_Some (threads m !! k.1) ∧ is_Some (folders m !! (k.1.1, k.2)).

#[export] Instance thread_label_fk_dec m k : Decision (thread_label_fk m k).
Proof. unfold thread_label_fk. apply _. Defined.
#[export] Instance message_label_fk_dec m k : Decision (message_label_fk m k).
Proof. unfold message_label_fk. apply _. Defined.
#[export] Instance message_folder_fk_dec m k : Decision (message_folder_fk m k).
Proof. unfold message_folder_fk. apply _. Defined.
#[export] Instance thread_folder_fk_dec m k : Decision (thread_folder_fk m k).
Proof. unfold thread_folder_fk. apply _. Defined.

Definition insert_thread_labels (what : str) : (mailbox → gset key3) → Sql unit :=
  insert_or_ignore what thread_labels (λ r, set_thread_labels (.∪ r)) thread_label_fk.
Definition insert_message_labels (what : str) : (mailbox → gset key3) → Sql unit :=
  insert_or_ignore what message_labels (λ r, set_message_labels (.∪ r)) message_label_fk.
Definition insert_message_folders (what : str) : (mailbox → gset key3) → Sql unit :=
  insert_or_ignore what message_folders (λ r, set_message_folders (.∪ r)) message_folder_fk.
Definition insert_thread_folders (what : str) : (mailbox → gset key3) → Sql unit :=
  insert_or_ignore what thread_folders (λ r, set_thread_folders (.∪ r)) thread_folder_fk.

Definition confirm_intent (a t : str) (i : label_intent) : Sql unit :=
  let '(l, o) := i in
  match o with
  | Add =>
      insert_thread_labels (slit "confirm add label intent (thread)") (λ _, {[ (a, t, l) ]});;
      insert_message_labels (slit "confirm add label intent (per-message)") (label_rows a t l)
  | Remove =>
      db_update (set_thread_labels (.∖ {[ (a, t, l) ]}));;
      db_update (λ m, set_message_labels (.∖ label_rows a t l m) m);;
      match strip_prefix KEYWORD_PREFIX l with
      | Some keyword =>
          db_update (λ m, set_message_keywords
            (filter (λ e, ¬ (e.2 = keyword ∧ is_Some (thread_messages a t m !! e.1.1)))) m)
      | None => mret ()
      end
  end.

Definition confirmed_provider_label_intents (a t : str) (ii : list label_intent) : Sql unit :=
  db_each (confirm_intent a t) ii;;
  finalize_provider_truth_label_membership a t.

(** *** What the user sees *)

(** [user_visible_label_exists_fragment] *)
Definition user_visible (m : mailbox) (k : key3) : bool :=
  match intents m !! k with
  | Some r => match intent_op r with Add => true | Remove => false end
  | None => bool_decide (k ∈ thread_labels m)
  end.

(** [user_visible_label_group_rendered_fragment] under [lg.id = ?3]. *)
Definition group_rendered (m : mailbox) (a t : str) (g : Z) : bool :=
  bool_decide (g ∈ label_groups m) &&
  bool_decide (map_Exists (λ (k : key2) g', k.1 = a ∧ g' = g ∧ user_visible m (a, t, k.2) = true) (label_group_members m)).

(** ** Membership as the union over messages (message_membership.rs) *)

Definition replace_message_rows (what : str) (set : (gset key3 → gset key3) → mailbox → mailbox)
    (insert : str → (mailbox → gset key3) → Sql unit) (a i : str) (ids : list str) : Sql unit :=
  db_update (set (filter (λ k, k.1 ≠ (a, i))));;
  db_each (λ x, insert what (λ _, {[ (a, i, x) ]})) ids.

Definition replace_message_folder_rows (a i : str) (fs : list FolderKind) : Sql unit :=
  replace_message_rows (slit "insert message folder") set_message_folders insert_message_folders a i
    (folder_storage_id <$> fs).

Definition replace_message_label_rows (a i : str) (ls : list LabelKind) : Sql unit :=
  replace_message_rows (slit "insert message label") set_message_labels insert_message_labels a i
    (label_storage_id <$> ls).

Definition delete_message_membership_rows (a i : str) : Sql unit :=
  db_update (set_message_folders (filter (λ k, k.1 ≠ (a, i))));;
  db_update (set_message_labels (filter (λ k, k.1 ≠ (a, i)))).

(** What the messages of a thread are in, by one of the tables on messages. *)
Definition over_messages (rows : gset key3) (a t : str) (m : mailbox) : gset key3 :=
  set_map (λ k : key3, (a, t, k.2)) (filter (λ k : key3, is_Some (thread_messages a t m !! k.1)) rows).

(** [f.imap_folder_path = m.imap_folder OR f.id = m.imap_folder] *)
Definition folder_named (m : mailbox) (k : key2) (r : Message) : bool :=
  match imap_folder r with
  | Some path => bool_decide ((folders m !! k ≫= imap_folder_path) = Some path) || bool_decide (k.2 = path)
  | None => false
  end.

(** The folders named by the [imap_folder] of the messages of a thread. *)
Definition imap_folders (a t : str) (m : mailbox) : gset key3 :=
  set_map (λ k : key2, (a, t, k.2))
    (filter (λ k : key2, k.1 = a ∧ map_Exists (λ _ r, folder_named m k r = true) (thread_messages a t m))
       (dom (folders m))).

Definition delete_thread_folder_rows (a t : str) : Sql unit :=
  db_update (set_thread_folders (filter (λ k, k.1 ≠ (a, t)))).
Definition delete_thread_label_rows (a t : str) : Sql unit :=
  db_update (set_thread_labels (filter (λ k, k.1 ≠ (a, t)))).

Definition recompute_thread_folders_from_messages (a t : str) : Sql unit :=
  delete_thread_folder_rows a t;;
  insert_thread_folders (slit "recompute thread folders from message_folders")
    (λ m, over_messages (message_folders m) a t m);;
  insert_thread_folders (slit "recompute thread folders from imap_folder") (imap_folders a t).

Definition recompute_thread_labels_from_messages (a t : str) : Sql unit :=
  delete_thread_label_rows a t;;
  insert_thread_labels (slit "recompute thread labels from message_labels")
    (λ m, over_messages (message_labels m) a t m);;
  insert_thread_labels (slit "recompute thread labels from message_keywords")
    (λ m, over_messages (dom (message_keywords m)) a t m);;
  finalize_provider_truth_label_membership a t.

(** The writers of the consumer (thread_membership.rs). *)
Definition replace_thread_membership_from_full_coverage (a t : str) (fs : list FolderKind) (ls : list LabelKind)
    : Sql unit :=
  delete_thread_folder_rows a t;;
  db_each (λ f, insert_thread_folders (slit "insert thread folder") (λ _, {[ (a, t, folder_storage_id f) ]})) fs;;
  delete_thread_label_rows a t;;
  db_each (λ l, insert_thread_labels (slit "insert thread label") (λ _, {[ (a, t, label_storage_id l) ]})) ls;;
  finalize_provider_truth_label_membership a t.

Definition replace_message_membership_and_recompute (a t i : str) (fs : list FolderKind) (ls : list LabelKind)
    : Sql unit :=
  replace_message_folder_rows a i fs;;
  replace_message_label_rows a i ls;;
  recompute_thread_folders_from_messages a t;;
  recompute_thread_labels_from_messages a t.

Definition replace_message_folders_and_recompute (a t i : str) (fs : list FolderKind) : Sql unit :=
  replace_message_folder_rows a i fs;;
  recompute_thread_folders_from_messages a t;;
  recompute_thread_labels_from_messages a t.

(** ** The queue of retries (pending_ops.rs) *)

Definition archive_type : str := Eval vm_compute in slit "archive".
Definition trash_type : str := Eval vm_compute in slit "trash".
Definition spam_type : str := Eval vm_compute in slit "spam".
Definition move_type : str := Eval vm_compute in slit "moveToFolder".
Definition delete_type : str := Eval vm_compute in slit "permanentDelete".
Definition star_type : str := Eval vm_compute in slit "star".
Definition read_type : str := Eval vm_compute in slit "markRead".
Definition add_type : str := Eval vm_compute in slit "addLabel".
Definition remove_type : str := Eval vm_compute in slit "removeLabel".
Definition apply_group_type : str := Eval vm_compute in slit "applyLabelGroup".
Definition remove_group_type : str := Eval vm_compute in slit "removeLabelGroup".

Definition BACKOFF_DEFAULT : list Z := [60; 300; 900; 3600]%Z.
Definition BACKOFF_FOLDER : list Z := [30; 120; 300; 900; 3600]%Z.
Definition BACKOFF_FLAG : list Z := [60; 300; 900]%Z.

Definition folder_types : list str := [archive_type; trash_type; spam_type; move_type; delete_type].
Definition flag_types : list str := [star_type; read_type].

Definition backoff_schedule (ty : str) : list Z :=
  if bool_decide (ty ∈ folder_types) then BACKOFF_FOLDER
  else if bool_decide (ty ∈ flag_types) then BACKOFF_FLAG
  else BACKOFF_DEFAULT.

(** [account_id = ?1 AND resource_id = ?2 AND operation_type = ?3 AND status IN
    ('pending', 'executing')] *)
Definition live_for (a r ty : str) (o : PendingOperation) : Prop :=
  op_account o = a ∧ resource_id o = r ∧ operation_type o = ty ∧ op_live o.

#[export] Instance live_for_dec a r ty o : Decision (live_for a r ty o).
Proof. unfold live_for. apply _. Defined.

Definition db_pending_ops_cancel_for_resource_sync (a r ty : str) : Sql unit :=
  db_update (set_pending (filter (λ e, ¬ live_for a r ty e.2))).

(** [INSERT INTO pending_operations]: the identifier is new, the account is
    there; the columns left out take their defaults. *)
Definition insert_pending (i a ty r ps : str) (retries now : Z) : Sql unit :=
  ok ← db_query (λ m, bool_decide (pending_operations m !! i = None) && bool_decide (is_Some (accounts m !! a)));
  if ok : bool
  then db_update (set_pending (<[i := mkPendingOp a ty r ps Pending 0 retries None now None]>))
  else db_fail (context (slit "enqueue pending op") fk_error).

Definition db_pending_ops_enqueue_sync (i a ty r ps : str) (retries now : Z) : Sql unit :=
  db_update (set_pending (filter (λ e, ¬ live_for a r ty e.2)));;
  insert_pending i a ty r ps retries now.

(** The order in which SQLite visits the queue. *)
Class PendingScan := {
  scan_pending : gmap str PendingOperation → list (str * PendingOperation);
  scan_pending_rows t : scan_pending t ≡ₚ map_to_list t
}.

(** [status = 'pending' AND (next_retry_at IS NULL OR next_retry_at <= now)] *)
Definition op_due (account : option str) (now : Z) (o : PendingOperation) : bool :=
  match account with Some a => bool_decide (op_account o = a) | None => true end &&
  bool_decide (op_state o = Pending) &&
  match next_retry_at o with Some n => (n <=? now)%Z | None => true end.

Definition created_le (x y : str * PendingOperation) : Prop := (op_created_at x.2 ≤ op_created_at y.2)%Z.

#[export] Instance created_le_dec x y : Decision (created_le x y).
Proof. unfold created_le. apply _. Defined.

(** A negative [LIMIT] is none. *)
Definition sql_limit {A} (n : Z) (l : list A) : list A := if (n <? 0)%Z then l else take (Z.to_nat n) l.

Definition db_pending_ops_get `{PendingScan} (account : option str) (limit : option Z) (now : Z)
    : Sql (list (str * PendingOperation)) :=
  db_query (λ m, sql_limit (default 50%Z limit) (merge_sort created_le
    (filter (λ e : str * PendingOperation, op_due account now e.2 = true) (scan_pending (pending_operations m))))).

Definition with_state (s : OpState) (e : option str) (o : PendingOperation) : PendingOperation :=
  mkPendingOp (op_account o) (operation_type o) (resource_id o) (params o) s (retry_count o) (max_retries o)
    (next_retry_at o) (op_created_at o) e.

Definition db_pending_ops_update_status_sync (i : str) (s : OpState) (e : option str) : Sql unit :=
  db_update (set_pending (alter (with_state s e) i)).

Definition db_pending_ops_delete_sync (i : str) : Sql unit := db_update (set_pending (delete i)).

Definition with_retry (s : OpState) (n : Z) (next : option Z) (o : PendingOperation) : PendingOperation :=
  mkPendingOp (op_account o) (operation_type o) (resource_id o) (params o) s n (max_retries o) next
    (op_created_at o) (error_message o).

Definition decimal_Z (n : Z) : str :=
  if (n <? 0)%Z then slit "-" ++ decimal (Z.to_N (- n)) else decimal (Z.to_N n).

Definition invalid_retry_count (i : str) (n : Z) : str :=
  slit "invalid retry count for pending op " ++ i ++ slit ": " ++ decimal_Z n.

Definition retry_delay (ty : str) (n : Z) : Z :=
  let schedule := backoff_schedule ty in
  default 60%Z (match schedule !! Z.to_nat (n - 1) with Some d => Some d | None => last schedule end).

Definition db_pending_ops_increment_retry_sync (i : str) (now : Z) : Sql unit :=
  row ← db_query (λ m, pending_operations m !! i);
  match row with
  | None => db_fail (context (slit "get retry info") no_rows)
  | Some o =>
      let n := (retry_count o + 1)%Z in
      if (max_retries o <=? n)%Z then
        db_update (set_pending (alter (λ o, with_retry OpFailed n (next_retry_at o) o) i));;
        delete_pending_thread_label_intents_for_action i
      else if (n - 1 <? 0)%Z then db_fail (invalid_retry_count i n)
      else db_update (set_pending (alter (with_retry Pending n (Some (now + retry_delay (operation_type o) n)%Z)) i))
  end.

Definition recover_row (o : PendingOperation) : PendingOperation :=
  if decide (op_state o = Executing)
  then mkPendingOp (op_account o) (operation_type o) (resource_id o) (params o) Pending (retry_count o)
         (max_retries o) (next_retry_at o) (op_created_at o) (error_message o)
  else o.

Definition db_pending_ops_recover_executing_sync : Sql nat :=
  n ← db_query (λ m, size (filter (λ e : str * PendingOperation, op_state e.2 = Executing) (pending_operations m)));
  db_update (set_pending (fmap recover_row));;
  mret n.

Definition sending : str := Eval vm_compute in slit "sending".
Definition failed : str := Eval vm_compute in slit "failed".

Definition mark_sending_drafts_failed : Sql nat :=
  n ← db_query (λ m, size (filter (λ e : str * str, e.2 = sending) (local_drafts m)));
  db_update (set_drafts (fmap (λ s, if decide (s = sending) then failed else s)));;
  mret n.

Definition db_pending_ops_recover_on_boot_sync : Sql unit :=
  db_pending_ops_recover_executing_sync;;
  mark_sending_drafts_failed;;
  mret ().
