(* ===== verification/Batch.v ===== *)
(** * The batch executor and the queue of retries

    What the action worker calls for an operation: src/crates/service/src/actions/
    batch.rs (the groups of a batch, the checks, the local half, the remote
    half), dispatch_target.rs (which calls of the provider engine an operation
    becomes), label.rs and label_group.rs (the life of a label intent),
    pending.rs (the queue of retries), and [try_acquire_flight] of
    src/crates/action-types/src/context.rs (one mutation at a time per thread).

    The engine is a crate outside the repository: [Engine] answers a call by all
    the calls made so far, and [calls] of the world records them.  So are JSON
    ([Json]), the clock and the identifiers, and the orders SQLite and [HashMap]
    give ([Runtime]).  A panic is [None].

    The groups of a batch, which the code runs beside each other, run one after
    the other in the order of the [HashMap], and nothing else writes meanwhile,
    except what [refresh_containers] does to the tables.  Logging is left out;
    of the read receipts (mdn_send.rs) only the requests are kept. *)

From stdpp Require Import sorting.
From S2P Require Import Prelude.
From S2P Require Import Graphemes.
From S2P Require Import Strings.
From S2P Require Import Bytes.
From S2P Require Import FolderLabel.
From S2P Require Import ActionTypes.
From S2P Require Import Mailbox.

(** ** The engine *)

Inductive FolderRole := RoleInbox | RoleArchive | RoleTrash | RoleSpam.
Inductive Importance := ImportanceHigh | ImportanceNormal | ImportanceLow.

(** [MembershipScope]: how a provider names the container of a move. *)
Inductive MembershipScope := ScopeLabel (i : str) | ScopeFolder (i : str) | ScopeMailbox (i : str).

(** A label as the engine takes it: the native name, with its provider. *)
Record BifrostLabel := mkBifrostLabel { provenance : MailProviderKind; native : str }.

Inductive EngineCall :=
  | BulkSetFlags (account : str) (ids : list str) (flag : str) (to : bool)
  | BulkDestroy (account : str) (ids : list str)
  | BulkMoveFrom (account : str) (ids : list str) (destination : MembershipScope) (source : option MembershipScope)
  | RemoveFromContainer (account : str) (i : str) (container : str)
  | SetImportance (account : str) (i : str) (importance : Importance)
  | ApplyLabelCall (account : str) (i : str) (label : BifrostLabel)
  | RemoveLabelCall (account : str) (i : str) (label : BifrostLabel).

(** The classes of an account error, as far as they are told apart. *)
Inductive EngineDirective := SchemaIncompatible | OperatorOverrideRequired | OtherDirective.
Inductive RecoveryClass :=
  | RetryClass | ReconcileClass | EngineClass (d : EngineDirective) | UnsupportedClass | TerminalClass.

Inductive EngineError :=
  | AccountFailed (recovery : RecoveryClass) (message_key : str)
  | OpenFailed (recovery : RecoveryClass) (message_key : str)
  | EstablishCursorTerminated (recovery : RecoveryClass) (message_key : str)
  | AccountNotAttached (account : str)
  | OtherError (text : str).

(** containers.rs: the native containers of an account, as the [HashMap] visits
    them, and the container of a role in a name space. *)
Record ContainerIndex := mkContainers {
  folder_map : list (str * FolderKind);
  role_target : NamespaceAttribution → FolderRole → option str
}.

(** [BifrostProviderKind] has the constructors of [MailProviderKind]. *)
Record ResidentActionAccount := mkResident { provider : MailProviderKind; containers : ContainerIndex }.

Class Engine := {
  engine_answer : list EngineCall → option EngineError;
  resident_action_account : list EngineCall → str → str + ResidentActionAccount;
  refresh_containers : list EngineCall → str → mailbox → (str + ContainerIndex) * mailbox;
  refresh_keeps_queue cs a m : pending_operations (refresh_containers cs a m).2 = pending_operations m
}.

(** ** JSON *)

Inductive json :=
  | JNull
  | JBool (b : bool)
  | JInt (z : Z)
  | JStr (s : str)
  | JArr (l : list json)
  | JObj (fields : list (str * json)).

(** The texts [enqueue_params] writes by hand. *)
Definition empty_text : str := Eval vm_compute in slit "{}".
Definition flag_text (name : string) (b : bool) : str :=
  [123; 34]%N ++ slit name ++ [34; 58]%N ++ slit (if b then "true" else "false") ++ [125]%N.

Class Json := {
  to_string : json → str;
  from_str : str → option json;
  from_to_string v : from_str (to_string v) = Some v;
  from_empty_text : from_str empty_text = Some (JObj []);
  from_flag_text n b : n ∈ ["isSpam"; "starred"; "read"]%string →
    from_str (flag_text n b) = Some (JObj [(slit n, JBool b)])
}.

(** ** The world *)

Class Runtime := {
  clock : nat → Z;
  new_v4 : nat → str;
  hash_order {A} : list A → list A;
  hash_order_rows {A} (l : list A) : hash_order l ≡ₚ l
}.

Record world := World {
  mb : mailbox;
  in_flight : gset str;
  calls : list EngineCall;
  receipts : list key2;
  clock_reads : nat;
  ids_made : nat
}.

Definition M (A : Type) : Type := world → option (A * world).

#[export] Instance M_ret : MRet M := λ A a w, Some (a, w).
#[export] Instance M_bind : MBind M := λ A B f m w,
  match m w with Some (a, w') => f a w' | None => None end.

Definition panic {A} : M A := λ _, None.
Definition get_world : M world := λ w, Some (w, w).

Fixpoint for_each {A} (f : A → M unit) (l : list A) : M unit :=
  match l with
  | [] => mret ()
  | a :: l => f a;; for_each f l
  end.

Definition now_epoch `{Runtime} : M Z := λ w,
  Some (clock (clock_reads w), World (mb w) (in_flight w) (calls w) (receipts w) (S (clock_reads w)) (ids_made w)).

Definition fresh_id `{Runtime} : M str := λ w,
  Some (new_v4 (ids_made w), World (mb w) (in_flight w) (calls w) (receipts w) (clock_reads w) (S (ids_made w))).

(** [with_write], [with_read] *)
Definition on_db {A} (d : Sql A) : M (str + A) := λ w,
  let '(r, m) := d (mb w) in
  Some (r, World m (in_flight w) (calls w) (receipts w) (clock_reads w) (ids_made w)).

(** [.map_err(ActionError::db)] *)
Definition db_err {A} (r : str + A) : ActionError + A := match r with inl e => inl (Db e) | inr a => inr a end.

Definition with_write {A} (d : Sql A) : M (ActionError + A) := r ← on_db d; mret (db_err r).

(** [with_write_mapped] of a closure that has errors of its own. *)
Definition with_write_mapped {A} (d : Sql (ActionError + A)) : M (ActionError + A) :=
  r ← with_write d; mret (match r with inl e => inl e | inr x => x end).

(** *** In flight (context.rs) *)

Definition flight_key (a t : str) : str := a ++ slit ":" ++ t.

Definition set_flights (f : gset str → gset str) (w : world) : world :=
  World (mb w) (f (in_flight w)) (calls w) (receipts w) (clock_reads w) (ids_made w).

(** Whether the guard was given. *)
Definition try_acquire_flight (a t : str) : M bool := λ w,
  let k := flight_key a t in
  if decide (k ∈ in_flight w) then Some (false, w) else Some (true, set_flights (.∪ {[ k ]}) w).

(** [Drop for FlightGuard] *)
Definition release (k : str) : M unit := λ w, Some ((), set_flights (.∖ {[ k ]}) w).

(** *** Errors of the engine (error_map.rs, dispatch_target.rs) *)

Definition recovery_to_failure_kind (r : RecoveryClass) : RemoteFailureKind :=
  match r with
  | RetryClass | ReconcileClass => Transient
  | EngineClass (SchemaIncompatible | OperatorOverrideRequired) => Permanent
  | EngineClass OtherDirective => Transient
  | UnsupportedClass => NotImplemented
  | TerminalClass => Permanent
  end.

Definition engine_error_to_action_error (e : EngineError) : ActionError :=
  match e with
  | AccountFailed r key | OpenFailed r key | EstablishCursorTerminated r key => Remote (recovery_to_failure_kind r) key
  | AccountNotAttached a => Remote Transient (slit "account " ++ a ++ slit " is not attached")
  | OtherError text => Remote Transient text
  end.

Definition engine `{Engine} (c : EngineCall) : M (ActionError + unit) := λ w,
  let cs := calls w ++ [c] in
  Some (match engine_answer cs with None => inr () | Some e => inl (engine_error_to_action_error e) end,
        World (mb w) (in_flight w) cs (receipts w) (clock_reads w) (ids_made w)).

(** A loop over calls that returns at the first error. *)
Fixpoint engine_each `{Engine} (cs : list EngineCall) : M (ActionError + unit) :=
  match cs with
  | [] => mret (inr ())
  | c :: cs => r ← engine c; match r with inl e => mret (inl e) | inr _ => engine_each cs end
  end.

(** ** From an operation to calls (dispatch_target.rs) *)

Definition FLAG_SEEN : str := Eval vm_compute in slit "\Seen".
Definition FLAG_FLAGGED : str := Eval vm_compute in slit "\Flagged".
Definition JMAP_KEYWORD_SEEN : str := Eval vm_compute in slit "$seen".
Definition JMAP_KEYWORD_FLAGGED : str := Eval vm_compute in slit "$flagged".

Definition seen_flag (p : MailProviderKind) : str :=
  match p with Jmap => JMAP_KEYWORD_SEEN | Gmail | Graph | Imap => FLAG_SEEN end.
Definition starred_flag (p : MailProviderKind) : str :=
  match p with Jmap => JMAP_KEYWORD_FLAGGED | Gmail | Graph | Imap => FLAG_FLAGGED end.

(** [MoveToFolder] and its like, for one thread or for a batch. *)
Inductive RemoteBatchKey :=
  | KStar (to : bool)
  | KRead (to : bool)
  | KArchive
  | KTrash
  | KSpam (to : bool)
  | KMoveToFolder (dest : str) (source : option str)
  | KPermanentDelete.

#[export] Instance RemoteBatchKey_eq_dec : EqDecision RemoteBatchKey.
Proof. solve_decision. Defined.

Definition folder_str (f : FolderId) : str := match f with Folder s => s end.
Definition label_str (l : LabelId) : str := match l with Label s => s end.
Definition group_int (g : LabelGroupId) : Z := match g with LabelGroup n => n end.

Definition from_operation (op : MailOperation) : option RemoteBatchKey :=
  match op with
  | SetStarred to => Some (KStar to)
  | SetRead to => Some (KRead to)
  | Archive => Some KArchive
  | Trash => Some KTrash
  | SetSpam to => Some (KSpam to)
  | MoveToFolder dest source => Some (KMoveToFolder (folder_str dest) (folder_str <$> source))
  | PermanentDelete => Some KPermanentDelete
  | _ => None
  end.

(** [ORDER BY date ASC, id ASC] *)
Definition message_le (x y : key2 * Message) : Prop :=
  (message_date x.2 < message_date y.2)%Z ∨ (message_date x.2 = message_date y.2 ∧ str_le x.1.2 y.1.2).

#[export] Instance message_le_dec x y : Decision (message_le x y).
Proof. unfold message_le. apply _. Defined.

Definition encode_imap_object_id (folder : str) (uidvalidity uid : Z) : str :=
  slit "imap2:" ++ decimal (N.of_nat (length (encode folder))) ++ slit ":" ++ folder ++ slit ":" ++
  decimal_Z uidvalidity ++ slit ":" ++ decimal_Z uid.

Definition object_id (p : MailProviderKind) (e : key2 * Message) : ActionError + str :=
  match p with
  | Imap =>
      match imap_folder e.2, imap_uid e.2, imap_uidvalidity e.2 with
      | None, _, _ => inl (Db (slit "IMAP message missing folder"))
      | _, None, _ => inl (Db (slit "IMAP message missing UID"))
      | _, _, None => inl (Db (slit "IMAP message missing uidvalidity"))
      | Some f, Some u, Some v => inr (encode_imap_object_id f v u)
      end
  | _ => inr e.1.2
  end.

Fixpoint object_ids (p : MailProviderKind) (rows : list (key2 * Message)) : ActionError + list str :=
  match rows with
  | [] => inr []
  | e :: rows =>
      match object_id p e with
      | inl err => inl err
      | inr i => match object_ids p rows with inl err => inl err | inr l => inr (i :: l) end
      end
  end.

Definition not_hydrated : str := Eval vm_compute in slit "thread messages not hydrated".

Definition ordered_messages (a t : str) (m : mailbox) : list (key2 * Message) :=
  merge_sort message_le (map_to_list (thread_messages a t m)).

Definition resolve_thread_messages (a t : str) (p : MailProviderKind) : M (ActionError + list str) :=
  rows ← with_write (db_query (ordered_messages a t));
  mret (match rows with
        | inl e => inl e
        | inr [] => inl (Remote Transient not_hydrated)
        | inr rows => object_ids p rows
        end).

(** *** Moves *)

Inductive ContainerMoveOp :=
  | MArchive
  | MTrash
  | MSpam (to : bool)
  | MMoveToFolder (dest : str) (source : option str).

Definition destination_description (op : ContainerMoveOp) : str :=
  match op with
  | MArchive => slit "archive destination"
  | MTrash => slit "trash destination"
  | MSpam true => slit "spam destination"
  | MSpam false => slit "un-spam destination"
  | MMoveToFolder dest _ => slit "container " ++ dest
  end.

Definition destination_role (op : ContainerMoveOp) : option FolderRole :=
  match op with
  | MArchive => Some RoleArchive
  | MTrash => Some RoleTrash
  | MSpam true => Some RoleSpam
  | MSpam false => Some RoleInbox
  | MMoveToFolder _ _ => None
  end.

Definition source_role (op : ContainerMoveOp) : option FolderRole :=
  match op with MSpam false => Some RoleSpam | _ => None end.

Inductive ContainerMovePlan :=
  | MoveTo (destination : str) (source : option str)
  | DetachInbox (inbox : str)
  | NothingToSend.

Definition GMAIL_SYNTHETIC_ARCHIVE_ID : str := Eval vm_compute in slit "archive".

Definition is_synthetic (dest : str) : bool :=
  bool_decide (to_ascii_lowercase dest = to_ascii_lowercase GMAIL_SYNTHETIC_ARCHIVE_ID).

Definition is_gmail_archive_shape (op : ContainerMoveOp) (dest : option str) : bool :=
  match op with
  | MArchive => match dest with None => true | Some d => is_synthetic d end
  | MMoveToFolder _ _ => match dest with None => false | Some d => is_synthetic d end
  | MTrash | MSpam _ => false
  end.

Definition container_move_plan (p : MailProviderKind) (op : ContainerMoveOp) (dest inbox source : option str)
    : option ContainerMovePlan :=
  if bool_decide (p = Gmail) && is_gmail_archive_shape op dest
  then Some match inbox with Some i => DetachInbox i | None => NothingToSend end
  else d ← dest; Some (MoveTo d source).

Definition native_folder_for_storage_id_opt (fm : list (str * FolderKind)) (storage : str) : option str :=
  (λ e : nat * (str * FolderKind), e.2.1) <$> list_find (λ e : str * FolderKind, folder_storage_id e.2 = storage) fm.

Definition plan_for_container_op (p : MailProviderKind) (op : ContainerMoveOp) (c : ContainerIndex)
    (ns : NamespaceAttribution) : option ContainerMovePlan :=
  let inbox := role_target c ns RoleInbox in
  let source :=
    match op with
    | MMoveToFolder _ source => source ≫= native_folder_for_storage_id_opt (folder_map c)
    | _ => source_role op ≫= role_target c ns
    end in
  match op with
  | MMoveToFolder dest _ =>
      d ← native_folder_for_storage_id_opt (folder_map c) dest;
      container_move_plan p op (Some d) inbox source
  | _ => container_move_plan p op (destination_role op ≫= role_target c ns) inbox source
  end.

Definition membership_scope_for (p : MailProviderKind) (n : str) : MembershipScope :=
  match p with Gmail => ScopeLabel n | Graph | Imap => ScopeFolder n | Jmap => ScopeMailbox n end.

Definition run_container_move_plan `{Engine} (acc : ResidentActionAccount) (a : str) (ids : list str)
    (plan : ContainerMovePlan) : M (ActionError + unit) :=
  match plan with
  | MoveTo d source =>
      engine (BulkMoveFrom a ids (membership_scope_for (provider acc) d) (membership_scope_for (provider acc) <$> source))
  | DetachInbox inbox => engine_each ((λ i, RemoveFromContainer a i inbox) <$> ids)
  | NothingToSend => mret (inr ())
  end.

(** The container snapshot again; it writes the tables of folders and labels. *)
Definition refresh `{Engine} (a : str) : M (str + ContainerIndex) := λ w,
  let '(r, m) := refresh_containers (calls w) a (mb w) in
  Some (r, World m (in_flight w) (calls w) (receipts w) (clock_reads w) (ids_made w)).

Definition dispatch_container_op `{Engine} (acc : ResidentActionAccount) (a : str) (op : ContainerMoveOp)
    (ids : list str) (ns : NamespaceAttribution) : M (ActionError + unit) :=
  match plan_for_container_op (provider acc) op (containers acc) ns with
  | Some plan => run_container_move_plan acc a ids plan
  | None =>
      fresh ← refresh a;
      match fresh with
      | inl e => mret (inl (Remote Transient (slit "refresh container map: " ++ e)))
      | inr fresh =>
          match plan_for_container_op (provider acc) op fresh ns with
          | None => mret (inl (NotFound (destination_description op ++ slit " not found")))
          | Some plan => run_container_move_plan acc a ids plan
          end
      end
  end.

Definition dispatch_flags `{Engine} (acc : ResidentActionAccount) (a : str) (ids : list str) (flag : str) (to : bool)
    : M (ActionError + unit) :=
  engine (BulkSetFlags a ids flag to).

Definition dispatch_permanent_delete `{Engine} (acc : ResidentActionAccount) (a : str) (ids : list str)
    : M (ActionError + unit) :=
  engine (BulkDestroy a ids).

(** [unreachable!] for the labels *)
Definition dispatch_mutation `{Engine} (acc : ResidentActionAccount) (a : str) (op : MailOperation) (ids : list str)
    (ns : NamespaceAttribution) : M (ActionError + unit) :=
  match op with
  | SetStarred to => dispatch_flags acc a ids (starred_flag (provider acc)) to
  | SetRead to => dispatch_flags acc a ids (seen_flag (provider acc)) to
  | Archive => dispatch_container_op acc a MArchive ids ns
  | Trash => dispatch_container_op acc a MTrash ids ns
  | SetSpam to => dispatch_container_op acc a (MSpam to) ids ns
  | MoveToFolder dest source =>
      dispatch_container_op acc a (MMoveToFolder (folder_str dest) (folder_str <$> source)) ids ns
  | PermanentDelete => dispatch_permanent_delete acc a ids
  | AddLabel _ | RemoveLabel _ | ApplyLabelGroup _ | RemoveLabelGroup _ => panic
  | SetPinned _ | SetMuted _ | Snooze _ | Unsnooze => mret (inr ())
  end.

Definition dispatch_bulk_mutation `{Engine} (acc : ResidentActionAccount) (a : str) (k : RemoteBatchKey)
    (ids : list str) (ns : NamespaceAttribution) : M (ActionError + unit) :=
  match k with
  | KStar to => dispatch_flags acc a ids (starred_flag (provider acc)) to
  | KRead to => dispatch_flags acc a ids (seen_flag (provider acc)) to
  | KArchive => dispatch_container_op acc a MArchive ids ns
  | KTrash => dispatch_container_op acc a MTrash ids ns
  | KSpam to => dispatch_container_op acc a (MSpam to) ids ns
  | KMoveToFolder dest source => dispatch_container_op acc a (MMoveToFolder dest source) ids ns
  | KPermanentDelete => dispatch_permanent_delete acc a ids
  end.

(** *** Labels *)

Definition bifrost_label_for_kind (k : LabelKind) (p : MailProviderKind) : ActionError + BifrostLabel :=
  match k with
  | GmailUser n | GraphCategory n | JmapKeyword n | ImapKeyword n => inr (mkBifrostLabel p n)
  | GraphImportance _ => inl (InvalidState (slit "importance labels use set_importance"))
  end.

Definition importance_of (add : bool) (level : ImportanceLevel) : Importance :=
  match add, level with
  | true, High => ImportanceHigh
  | true, Low => ImportanceLow
  | false, _ => ImportanceNormal
  end.

Definition dispatch_label_engine `{Engine} (acc : ResidentActionAccount) (a : str) (k : LabelKind) (add : bool)
    (ids : list str) : M (ActionError + unit) :=
  match k with
  | GraphImportance level => engine_each ((λ i, SetImportance a i (importance_of add level)) <$> ids)
  | _ =>
      match bifrost_label_for_kind k (provider acc) with
      | inl e => mret (inl e)
      | inr l => engine_each ((λ i, if add then ApplyLabelCall a i l else RemoveLabelCall a i l) <$> ids)
      end
  end.

Definition outcome_from_remote_result (r : ActionError + unit) : ActionOutcome :=
  match r with
  | inr _ => Success
  | inl reason => LocalOnly reason (is_retryable reason)
  end.

(** ** The queue, entering it (pending.rs) *)

Definition retry_policy (ty : str) : Z :=
  if bool_decide (ty ∈ folder_types) then 10
  else if bool_decide (ty ∈ [add_type; remove_type; apply_group_type; remove_group_type]) then 7
  else 5.

(** [suppress] is [suppress_pending_enqueue] of the context. *)
Definition enqueue_if_retryable_with_id `{Runtime} (suppress : bool) (o : ActionOutcome) (a ty r ps : str)
    : M (option str) :=
  if suppress then mret None
  else
    match o with
    | LocalOnly reason true =>
        if negb (is_retryable reason) then mret None
        else
          i ← fresh_id;
          now ← now_epoch;
          done ← with_write (db_pending_ops_enqueue_sync i a ty r ps (retry_policy ty) now);
          mret (match done with inl _ => None | inr _ => Some i end)
    | _ => mret None
    end.

Definition enqueue_if_retryable `{Runtime} (suppress : bool) (o : ActionOutcome) (a ty r ps : str) : M unit :=
  enqueue_if_retryable_with_id suppress o a ty r ps;; mret ().

(** ** One label (label.rs) *)

Record LocalLabelStep := mkLocalStep {
  label_kind : LabelKind;
  step_intents : list label_intent;
  step_generation : Z
}.

Definition label_kind_for_account_sync (a l : str) : Sql LabelKind :=
  p ← db_query (λ m, accounts m !! a);
  match p with
  | None => db_fail (context (slit "get account provider") no_rows)
  | Some p =>
      match result_bind (provider_parse p) (label_parse l) with
      | inl e => db_fail e
      | inr k => mret k
      end
  end.

(** folder_label.rs *)
Definition importance_display_name (l : ImportanceLevel) : str :=
  match l with High => slit "High importance" | Low => slit "Low importance" end.
Definition importance_sort_order (l : ImportanceLevel) : Z := match l with High => 10000 | Low => 10001 end.

Definition label_write_metadata (k : LabelKind) : option (str * option Z * bool) :=
  match k with
  | GmailUser _ => None
  | GraphCategory c => Some (c, None, false)
  | GraphImportance level => Some (importance_display_name level, Some (importance_sort_order level), true)
  | JmapKeyword n | ImapKeyword n => Some (n, None, false)
  end.

(** The row of the account has been read before: its foreign key holds. *)
Definition ensure_typed_tag_label (a : str) (k : LabelKind) : Sql (option unit) :=
  match label_write_metadata k with
  | None => mret None
  | Some (name, order, undeletable) =>
      db_update (set_labels (partial_alter (λ old,
        Some match old with
             | Some r => mkLabelRow (label_name r) (sort_order r) (is_undeletable r || undeletable)
             | None => mkLabelRow name (default 0%Z order) undeletable
             end) (a, label_storage_id k)));;
      mret (Some ())
  end.

Definition label_intents (l : str) (k : LabelKind) (o : PendingLabelIntentOp) : list label_intent :=
  match o, k with
  | Add, GraphImportance level => [(importance_label_id (importance_opposite level), Remove); (l, Add)]
  | _, _ => [(l, o)]
  end.

Definition label_not_found : str := Eval vm_compute in slit "label not found for this account".

(** The closure of [label_local_step]. *)
Definition label_local_rows (a t l : str) (o : PendingLabelIntentOp) (now : Z) : Sql (ActionError + LocalLabelStep) :=
  k ← label_kind_for_account_sync a l;
  there ← db_query (label_there a l);
  ensured ← (if there : bool then mret (Some ()) else ensure_typed_tag_label a k);
  match ensured with
  | None => mret (inl (NotFound label_not_found))
  | Some _ =>
      match o, k with
      | Add, GraphImportance level =>
          ensure_typed_tag_label a (GraphImportance (importance_opposite level));; mret ()
      | _, _ => mret ()
      end;;
      let ii := label_intents l k o in
      g ← upsert_pending_thread_label_intents a t ii None now;
      mret (inr (mkLocalStep k ii g))
  end.

Definition label_local_step `{Runtime} (a t l : str) (o : PendingLabelIntentOp) : M (ActionError + LocalLabelStep) :=
  now ← now_epoch;
  with_write_mapped (label_local_rows a t l o now).

Definition add_label_local `{Runtime} (a t l : str) : M (ActionError + LocalLabelStep) := label_local_step a t l Add.
Definition remove_label_local `{Runtime} (a t l : str) : M (ActionError + LocalLabelStep) := label_local_step a t l Remove.

Definition attach_pending_action_id `{Runtime} (a t : str) (ii : list label_intent) (g : Z) (action : str) : M unit :=
  now ← now_epoch;
  with_write (attach_action_id_to_pending_thread_label_intents a t ii g action now);;
  mret ().

Definition clear_pending_intents_immediate (a t : str) (ii : list label_intent) (g : Z) : M unit :=
  with_write (delete_pending_thread_label_intents_for_labels a t ii g);; mret ().

Definition confirm_provider_intents (a t : str) (ii : list label_intent) : M (ActionError + unit) :=
  with_write (transaction (confirmed_provider_label_intents a t ii)).

Definition intent_op_of (add : bool) : PendingLabelIntentOp := if add then Add else Remove.

Definition resident_unavailable : str := Eval vm_compute in slit "resident engine unavailable".

Definition finalize_dispatch_outcome `{Runtime} (suppress : bool) (a t ty ps : str) (ii : list label_intent) (g : Z)
    (o : ActionOutcome) (enqueue_pending : bool) : M unit :=
  match o with
  | LocalOnly _ true =>
      if enqueue_pending then
        i ← enqueue_if_retryable_with_id suppress o a ty t ps;
        match i with
        | Some i => attach_pending_action_id a t ii g i
        | None => mret ()
        end
      else mret ()
  | LocalOnly _ false => clear_pending_intents_immediate a t ii g
  | Success | NoOp | Failed _ => mret ()
  end.

(** The calls for a label, and its confirmation when they went through. *)
Definition dispatch_and_confirm `{Engine} (acc : ResidentActionAccount) (a t : str) (k : LabelKind) (add : bool)
    (ii : list label_intent) (ids : list str) : M ActionOutcome :=
  sent ← dispatch_label_engine acc a k add ids;
  match sent with
  | inl e => mret (LocalOnly e (is_retryable e))
  | inr _ =>
      confirmed ← confirm_provider_intents a t ii;
      mret (match confirmed with inr _ => Success | inl e => LocalOnly e true end)
  end.

Definition label_params `{Json} (l : str) : str := to_string (JObj [(slit "labelId", JStr l)]).
Definition label_type (add : bool) : str := if add then add_type else remove_type.

Definition dispatch_label_via_engine `{Engine, Json, Runtime} (suppress : bool) (acc : option ResidentActionAccount)
    (a t l : str) (add : bool) : M ActionOutcome :=
  local ← label_local_step a t l (intent_op_of add);
  match local with
  | inl e => mret (Failed e)
  | inr step =>
      o ← match acc with
          | None => mret (LocalOnly (remote resident_unavailable) true)
          | Some acc =>
              ids ← resolve_thread_messages a t (provider acc);
              match ids with
              | inl e => mret (LocalOnly e (is_retryable e))
              | inr ids => dispatch_and_confirm acc a t (label_kind step) add (step_intents step) ids
              end
          end;
      finalize_dispatch_outcome suppress a t (label_type add) (label_params l) (step_intents step)
        (step_generation step) o true;;
      mret o
  end.

Definition kind_lookup : str := Eval vm_compute in slit "label kind lookup".

Definition resolve_member_label_kind (a l : str) : M (ActionError + LabelKind) :=
  r ← on_db (label_kind_for_account_sync a l);
  mret (match r with inl e => inl (Db (context kind_lookup e)) | inr k => inr k end).

Definition dispatch_member_label_via_engine `{Engine, Json, Runtime} (suppress : bool) (acc : ResidentActionAccount)
    (a t l : str) (add : bool) (g : Z) (ids : list str) : M ActionOutcome :=
  k ← resolve_member_label_kind a l;
  match k with
  | inl e => mret (Failed e)
  | inr k =>
      let ii := label_intents l k (intent_op_of add) in
      o ← dispatch_and_confirm acc a t k add ii ids;
      finalize_dispatch_outcome suppress a t (label_type add) (label_params l) ii g o false;;
      mret o
  end.

(** ** A group of labels (label_group.rs) *)

Inductive DispatchKind := Initial | Retry.

#[export] Instance DispatchKind_eq_dec : EqDecision DispatchKind.
Proof. solve_decision. Defined.

Inductive LocalStep := Proceed (members : list str) (generation : Z) | Skip.

(** [ORDER BY label_id] *)
Definition read_group_member_labels (m : mailbox) (a : str) (g : Z) : list str :=
  merge_sort str_le (map (λ e : key2 * Z, e.1.2)
    (map_to_list (filter (λ e : key2 * Z, e.1.1 = a ∧ e.2 = g) (label_group_members m)))).

Definition read_applied_group_member_labels (m : mailbox) (a t : str) (g : Z) : list str :=
  filter (λ l, user_visible m (a, t, l) = true) (read_group_member_labels m a g).

Definition thread_renders_group_for_user (m : mailbox) (a t : str) (g : Z) : bool :=
  thread_there a t m && group_rendered m a t g.

Definition group_not_found : str := Eval vm_compute in slit "label group not found".

Definition upsert_group_intents (a t : str) (ls : list str) (o : PendingLabelIntentOp) (now : Z) : Sql Z :=
  upsert_pending_thread_label_intents a t (map (λ l, (l, o)) ls) None now.

Definition apply_label_group_local `{Runtime} (a t : str) (g : Z) (k : DispatchKind) : M (ActionError + LocalStep) :=
  now ← now_epoch;
  with_write_mapped (
    exists_ ← db_query (λ m, bool_decide (g ∈ label_groups m));
    if negb exists_ then mret (inl (NotFound group_not_found))
    else
      rendered ← db_query (λ m, thread_renders_group_for_user m a t g);
      if bool_decide (k = Retry) && negb rendered then mret (inr Skip)
      else
        ls ← db_query (λ m, read_group_member_labels m a g);
        generation ← upsert_group_intents a t ls Add now;
        mret (inr (Proceed ls generation))).

Definition remove_label_group_local `{Runtime} (a t : str) (g : Z) (k : DispatchKind) : M (ActionError + LocalStep) :=
  now ← now_epoch;
  with_write_mapped (
    rendered ← db_query (λ m, thread_renders_group_for_user m a t g);
    if bool_decide (k = Retry) && rendered then mret (inr Skip)
    else
      ls ← db_query (λ m, read_applied_group_member_labels m a t g);
      generation ← upsert_group_intents a t ls Remove now;
      mret (inr (Proceed ls generation))).

Definition group_local `{Runtime} (a t : str) (g : Z) (apply : bool) (k : DispatchKind) : M (ActionError + LocalStep) :=
  if apply then apply_label_group_local a t g k else remove_label_group_local a t g k.

Definition members_failed : str := Eval vm_compute in slit "one or more label group member writes failed".

(** The members one by one; what was seen of their outcomes so far. *)
Fixpoint member_outcomes `{Engine, Json, Runtime} (suppress : bool) (acc : ResidentActionAccount) (a t : str)
    (ls : list str) (g : Z) (apply saw : bool) (failed : option ActionError) (ids : list str)
    : M (bool * option ActionError) :=
  match ls with
  | [] => mret (saw, failed)
  | l :: ls =>
      o ← dispatch_member_label_via_engine suppress acc a t l apply g ids;
      let '(saw, failed) :=
        match o with
        | Success | NoOp => (saw, failed)
        | LocalOnly _ true => (true, failed)
        | LocalOnly reason false => (saw, Some reason)
        | Failed e => (saw, Some e)
        end in
      member_outcomes suppress acc a t ls g apply saw failed ids
  end.

Definition dispatch_members `{Engine, Json, Runtime} (suppress : bool) (acc : ResidentActionAccount) (a t : str)
    (ls : list str) (g : Z) (apply : bool) (ids : list str) : M ActionOutcome :=
  seen ← member_outcomes suppress acc a t ls g apply false None ids;
  mret (match seen with
        | (true, _) => LocalOnly (remote members_failed) true
        | (false, Some e) => Failed e
        | (false, None) => Success
        end).

Definition group_params `{Json} (g : Z) : str := to_string (JObj [(slit "groupId", JInt g)]).
Definition group_type (apply : bool) : str := if apply then apply_group_type else remove_group_type.
Definition composite_retry : str := Eval vm_compute in slit "composite retry".

Definition finalize_composite_outcome `{Json, Runtime} (suppress : bool) (o : ActionOutcome) (a t : str) (g : Z)
    (apply : bool) (ls : list str) (generation : Z) : M unit :=
  let ii := map (λ l, (l, intent_op_of apply)) ls in
  match o with
  | LocalOnly _ true =>
      i ← enqueue_if_retryable_with_id suppress (LocalOnly (remote composite_retry) true) a (group_type apply) t
            (group_params g);
      match i with
      | Some i => attach_pending_action_id a t ii generation i
      | None => mret ()
      end
  | LocalOnly _ false => clear_pending_intents_immediate a t ii generation
  | Success | NoOp | Failed _ => mret ()
  end.

Definition dispatch_group_via_engine `{Engine, Json, Runtime} (suppress : bool) (acc : option ResidentActionAccount)
    (a t : str) (g : Z) (apply : bool) : M ActionOutcome :=
  local ← group_local a t g apply (if suppress then Retry else Initial);
  match local with
  | inr Skip => mret Success
  | inl e => mret (Failed e)
  | inr (Proceed ls generation) =>
      o ← match acc with
          | None => mret (LocalOnly (remote resident_unavailable) true)
          | Some acc =>
              ids ← resolve_thread_messages a t (provider acc);
              match ids with
              | inl e => mret (LocalOnly e (is_retryable e))
              | inr ids => dispatch_members suppress acc a t ls generation apply ids
              end
          end;
      finalize_composite_outcome suppress o a t g apply ls generation;;
      mret o
  end.

(** ** The checks before an action (batch.rs) *)

Definition is_local_only (op : MailOperation) : bool :=
  match op with SetPinned _ | SetMuted _ | Snooze _ | Unsnooze => true | _ => false end.

Definition is_container_move (op : MailOperation) : bool :=
  match op with Archive | Trash | SetSpam _ | MoveToFolder _ _ => true | _ => false end.

Record SharedFolderRights := mkRights { may_remove : bool; may_set_seen : bool; may_set_keywords : bool }.

(** The strictest of a right over the folders of a thread: unset permits, a
    folder without a row denies, no folder at all permits. *)
Definition thread_right (get : FolderRow → option Z) (m : mailbox) (a t : str) : bool :=
  let rights := map (λ k : key3,
    match folders m !! (k.1.1, k.2) with Some f => default 1%Z (get f) | None => 0%Z end)
    (elements (filter (λ k : key3, k.1 = (a, t)) (thread_folders m))) in
  negb (match rights with [] => 1 | r :: rs => foldr Z.min r rs end =? 0)%Z.

Definition permitted_by (r : SharedFolderRights) (op : MailOperation) : bool :=
  match op with
  | SetRead _ => may_set_seen r
  | SetStarred _ | AddLabel _ | RemoveLabel _ | ApplyLabelGroup _ | RemoveLabelGroup _ => may_set_keywords r
  | Archive | Trash | PermanentDelete | SetSpam _ | MoveToFolder _ _ => may_remove r
  | SetPinned _ | SetMuted _ | Snooze _ | Unsnooze => true
  end.

Definition not_implemented (what : string) : ActionError := Remote NotImplemented (slit what).

Definition shared_kind : str := Eval vm_compute in slit "shared".
Definition public_kind : str := Eval vm_compute in slit "public".
Definition jmap_text : str := Eval vm_compute in slit "jmap".

(** [attribution] is not public where the destination is looked at. *)
Definition same_namespace (attribution : NamespaceAttribution) (dest : str) : bool :=
  match attribution with
  | AttrShared owner => starts_with (SHARED_FOLDER_PREFIX ++ owner ++ slit ":") dest
  | AttrPersonal | AttrPublic _ =>
      negb (starts_with SHARED_FOLDER_PREFIX dest) && negb (starts_with PUBLIC_FOLDER_PREFIX dest)
  end.

Definition validate_namespace_action (attribution : NamespaceAttribution) (prov : str) (r : SharedFolderRights)
    (op : MailOperation) : option ActionError :=
  if is_local_only op then None
  else
    match attribution with
    | AttrPublic _ => Some (not_implemented "public-folder items are read-only")
    | _ =>
        let shared := match attribution with AttrShared _ => true | _ => false end in
        if shared && bool_decide (prov = jmap_text)
        then Some (not_implemented "JMAP shared-mailbox mutations are not supported")
        else if shared && negb (permitted_by r op)
        then Some (not_implemented "shared mailbox rights do not permit this mutation")
        else
          match op with
          | MoveToFolder dest _ =>
              if same_namespace attribution (folder_str dest) then None
              else Some (not_implemented "cross-namespace moves are not supported")
          | _ => None
          end
    end.

Definition attribution_of (r : Thread) : NamespaceAttribution :=
  match namespace_kind r, namespace_id r with
  | Some k, Some i =>
      if decide (k = shared_kind) then AttrShared i
      else if decide (k = public_kind) then AttrPublic i
      else AttrPersonal
  | _, _ => AttrPersonal
  end.

(** What the preflight answers, from one read. *)
Definition namespace_answer (m : mailbox) (a t : str) (op : MailOperation) : ActionError + NamespaceAttribution :=
  match threads m !! (a, t), accounts m !! a with
  | Some r, Some prov =>
      let rights := mkRights (thread_right right_remove m a t) (thread_right right_set_seen m a t)
                             (thread_right right_set_keywords m a t) in
      match validate_namespace_action (attribution_of r) prov rights op with
      | Some e => inl e
      | None => inr (attribution_of r)
      end
  | _, _ => inr AttrPersonal
  end.

Definition namespace_preflight (a t : str) (op : MailOperation) : M (ActionError + NamespaceAttribution) :=
  r ← with_write (db_query (λ m, namespace_answer m a t op));
  mret (match r with inl e => inl e | inr x => x end).

(** ** The local half *)

Definition thread_not_found (a t : str) : ActionError :=
  NotFound (slit "thread " ++ t ++ slit " not found for account " ++ a).

Definition verify_thread_exists (a t : str) : M (ActionError + unit) :=
  there ← on_db (db_query (thread_there a t));
  mret (match there with
        | inl e => inl (Db e)
        | inr true => inr ()
        | inr false => inl (thread_not_found a t)
        end).

Definition after_verify {A} (a t : str) (k : M (ActionError + A)) : M (ActionError + A) :=
  ok ← verify_thread_exists a t;
  match ok with inl e => mret (inl e) | inr _ => k end.

Definition archive_local (a t : str) : M (ActionError + bool) := after_verify a t (with_write (remove_inbox_folder a t)).
Definition star_local (a t : str) (v : bool) : M (ActionError + bool) := after_verify a t (with_write (star_rows a t v)).

(** pin.rs, mute.rs, snooze.rs *)
Definition local_outcome {A} (d : Sql A) : M ActionOutcome :=
  r ← with_write d;
  mret (match r with inl e => Failed e | inr _ => Success end).

Definition pin (a t : str) (v : bool) : M ActionOutcome := local_outcome (set_thread_pinned a t v).
Definition mute (a t : str) (v : bool) : M ActionOutcome := local_outcome (set_thread_muted a t v).
Definition snooze (a t : str) (until : Z) : M ActionOutcome :=
  local_outcome (remove_folder a t INBOX;; snooze_thread_sync a t until).
Definition unsnooze (a t : str) : M ActionOutcome :=
  local_outcome (insert_folder a t INBOX;; unsnooze_thread_sync a t).

(** [.map(|()| true)] *)
Definition changed {A} (m : M (ActionError + A)) : M (ActionError + bool) :=
  r ← m; mret (match r with inl e => inl e | inr _ => inr true end).

Definition succeeded (m : M ActionOutcome) : M (ActionError + bool) := o ← m; mret (inr (is_success o)).

Definition op_local `{Runtime} (op : MailOperation) (a t : str) : M (ActionError + bool) :=
  checked ← namespace_preflight a t op;
  match checked with
  | inl e => mret (inl e)
  | inr _ =>
      match op with
      | Archive => archive_local a t
      | Trash => changed (with_write (trash_local a t))
      | SetSpam to => changed (with_write (spam_local a t to))
      | MoveToFolder dest source =>
          changed (with_write (move_local a t (folder_str dest) (folder_str <$> source)))
      | SetStarred to => star_local a t to
      | SetRead to => changed (with_write (mark_read_local a t to))
      | PermanentDelete => changed (with_write (delete_thread a t))
      | AddLabel l => changed (add_label_local a t (label_str l))
      | RemoveLabel l => changed (remove_label_local a t (label_str l))
      | ApplyLabelGroup g => changed (apply_label_group_local a t (group_int g) Initial)
      | RemoveLabelGroup g => changed (remove_label_group_local a t (group_int g) Initial)
      | SetPinned to => succeeded (pin a t to)
      | SetMuted to => succeeded (mute a t to)
      | Snooze until => succeeded (snooze a t until)
      | Unsnooze => succeeded (unsnooze a t)
      end
  end.

(** [unreachable!] for the others *)
Definition dispatch_local_only (op : MailOperation) (a t : str) : M ActionOutcome :=
  match op with
  | SetPinned to => pin a t to
  | SetMuted to => mute a t to
  | Snooze until => snooze a t until
  | Unsnooze => unsnooze a t
  | _ => panic
  end.

(** The type and the parameters of a retry; [unreachable!] for the local ones. *)
Definition enqueue_params `{Json} (op : MailOperation) : option (str * str) :=
  match op with
  | Archive => Some (archive_type, empty_text)
  | Trash => Some (trash_type, empty_text)
  | SetSpam to => Some (spam_type, flag_text "isSpam" to)
  | MoveToFolder dest source =>
      Some (move_type, to_string (JObj [(slit "folderId", JStr (folder_str dest));
        (slit "sourceFolderId", match source with Some s => JStr (folder_str s) | None => JNull end)]))
  | SetStarred to => Some (star_type, flag_text "starred" to)
  | SetRead to => Some (read_type, flag_text "read" to)
  | PermanentDelete => Some (delete_type, empty_text)
  | AddLabel l => Some (add_type, label_params (label_str l))
  | RemoveLabel l => Some (remove_type, label_params (label_str l))
  | ApplyLabelGroup g => Some (apply_group_type, group_params (group_int g))
  | RemoveLabelGroup g => Some (remove_group_type, group_params (group_int g))
  | SetPinned _ | SetMuted _ | Snooze _ | Unsnooze => None
  end.

(** [let (op_type, params_json) = enqueue_params(op); enqueue_if_retryable(..)] *)
Definition enqueue_op `{Json, Runtime} (suppress : bool) (o : ActionOutcome) (a t : str) (op : MailOperation) : M unit :=
  match enqueue_params op with
  | Some (ty, ps) => enqueue_if_retryable suppress o a ty t ps
  | None => panic
  end.

(** ** One thread through the engine *)

Definition marks_read (op : MailOperation) : bool := match op with SetRead true => true | _ => false end.

Definition send_mdn_for_read (a t : str) : M unit := λ w,
  Some ((), World (mb w) (in_flight w) (calls w) (receipts w ++ [(a, t)]) (clock_reads w) (ids_made w)).

Definition dispatch_delete `{Engine, Json, Runtime} (suppress : bool) (acc : ResidentActionAccount)
    (op : MailOperation) (a t : str) (ns : NamespaceAttribution) : M ActionOutcome :=
  targets ← resolve_thread_messages a t (provider acc);
  match targets with
  | inl e => mret (Failed e)
  | inr ids =>
      sent ← dispatch_mutation acc a op ids ns;
      o ← match sent with
          | inl reason => mret (LocalOnly reason (is_retryable reason))
          | inr _ => gone ← op_local op a t; mret (match gone with inl e => Failed e | inr _ => Success end)
          end;
      enqueue_op suppress o a t op;;
      mret o
  end.

(** The messages of a move, before its local half changes anything. *)
Definition targets_before `{Engine} (acc : ResidentActionAccount) (op : MailOperation) (a t : str)
    : M (ActionError + option (list str)) :=
  if is_container_move op then
    targets ← resolve_thread_messages a t (provider acc);
    mret (match targets with inl e => inl e | inr ids => inr (Some ids) end)
  else mret (inr None).

(** The messages of the others, after it. *)
Definition targets_after (acc : ResidentActionAccount) (before : option (list str)) (a t : str)
    : M (ActionError + list str) :=
  match before with
  | Some ids => mret (inr ids)
  | None => resolve_thread_messages a t (provider acc)
  end.

Definition dispatch_with_engine `{Engine, Json, Runtime} (suppress : bool) (acc : ResidentActionAccount)
    (op : MailOperation) (a t : str) : M ActionOutcome :=
  if is_local_only op then dispatch_local_only op a t
  else
    ns ← namespace_preflight a t op;
    match ns with
    | inl e => mret (Failed e)
    | inr ns =>
        match op with
        | AddLabel l => dispatch_label_via_engine suppress (Some acc) a t (label_str l) true
        | RemoveLabel l => dispatch_label_via_engine suppress (Some acc) a t (label_str l) false
        | ApplyLabelGroup g => dispatch_group_via_engine suppress (Some acc) a t (group_int g) true
        | RemoveLabelGroup g => dispatch_group_via_engine suppress (Some acc) a t (group_int g) false
        | PermanentDelete => dispatch_delete suppress acc op a t ns
        | _ =>
            before ← targets_before acc op a t;
            match before with
            | inl e => mret (Failed e)
            | inr before =>
                local ← op_local op a t;
                match local with
                | inl e => mret (Failed e)
                | inr false => mret NoOp
                | inr true =>
                    targets ← targets_after acc before a t;
                    match targets with
                    | inl e =>
                        let o := LocalOnly e (is_retryable e) in
                        enqueue_op suppress o a t op;; mret o
                    | inr ids =>
                        sent ← dispatch_mutation acc a op ids ns;
                        let o := outcome_from_remote_result sent in
                        (if is_success o && marks_read op then send_mdn_for_read a t else mret ());;
                        enqueue_op suppress o a t op;;
                        mret o
                    end
                end
            end
        end
    end.

Definition handle_thread_degraded `{Engine, Json, Runtime} (suppress : bool) (op : MailOperation) (a t error : str)
    : M ActionOutcome :=
  match op with
  | AddLabel l => dispatch_label_via_engine suppress None a t (label_str l) true
  | RemoveLabel l => dispatch_label_via_engine suppress None a t (label_str l) false
  | ApplyLabelGroup g => dispatch_group_via_engine suppress None a t (group_int g) true
  | RemoveLabelGroup g => dispatch_group_via_engine suppress None a t (group_int g) false
  | PermanentDelete =>
      let e := Remote Transient error in
      enqueue_if_retryable suppress (LocalOnly e true) a delete_type t empty_text;;
      mret (Failed e)
  | _ =>
      local ← op_local op a t;
      match local with
      | inl e => mret (Failed e)
      | inr false => mret NoOp
      | inr true =>
          let o := LocalOnly (Remote Transient error) true in
          enqueue_op suppress o a t op;; mret o
      end
  end.

(** ** A group of threads of one account *)

Record PendingRemote := mkRemote { pr_idx : nat; pr_thread : str; pr_op : MailOperation; pr_targets : list str }.

(** What the loop over a group has collected: guards, remote batches in the
    order of their first thread, results. *)
Record group_state := mkGroup {
  guards : list str;
  remote_batches : list (RemoteBatchKey * list PendingRemote);
  results : list (nat * ActionOutcome)
}.

(** [entry(k).or_default().push(x)] *)
Fixpoint push_entry {K A} `{EqDecision K} (k : K) (x : A) (m : list (K * list A)) : list (K * list A) :=
  match m with
  | [] => [(k, [x])]
  | (k', l) :: m => if decide (k' = k) then (k', l ++ [x]) :: m else (k', l) :: push_entry k x m
  end.

Definition already_in_flight : str := Eval vm_compute in slit "action already in flight for this thread".
Definition refused_in_flight : ActionOutcome := Failed (InvalidState already_in_flight).

Definition thread_op := (nat * str * MailOperation)%type.

(** A thread under its guard, which is given back at the end of the iteration. *)
Definition guarded (a t : str) (run : M ActionOutcome) : M ActionOutcome :=
  got ← try_acquire_flight a t;
  if negb got then mret refused_in_flight
  else o ← run; release (flight_key a t);; mret o.

Fixpoint guarded_each (a : str) (run : str → MailOperation → M ActionOutcome) (ops : list thread_op)
    : M (list (nat * ActionOutcome)) :=
  match ops with
  | [] => mret []
  | (i, t, op) :: ops =>
      o ← guarded a t (run t op);
      rest ← guarded_each a run ops;
      mret ((i, o) :: rest)
  end.

Definition degraded_fallback `{Engine, Json, Runtime} (suppress : bool) (a error : str) (ops : list thread_op)
    : M (list (nat * ActionOutcome)) :=
  guarded_each a (λ t op, handle_thread_degraded suppress op a t error) ops.

(** What one thread of a group becomes: its outcome, or a place in a batch. *)
Inductive placed := Answered (o : ActionOutcome) | Batched (k : RemoteBatchKey) (targets : list str).

Definition place_in_batch `{Engine, Json, Runtime} (suppress : bool) (acc : ResidentActionAccount) (k : RemoteBatchKey)
    (op : MailOperation) (a t : str) : M placed :=
  match op with
  | PermanentDelete =>
      targets ← resolve_thread_messages a t (provider acc);
      mret (match targets with inl e => Answered (Failed e) | inr ids => Batched k ids end)
  | _ =>
      before ← targets_before acc op a t;
      match before with
      | inl e => mret (Answered (Failed e))
      | inr before =>
          local ← op_local op a t;
          match local with
          | inl e => mret (Answered (Failed e))
          | inr false => mret (Answered NoOp)
          | inr true =>
              targets ← targets_after acc before a t;
              match targets with
              | inl e =>
                  let o := LocalOnly e (is_retryable e) in
                  enqueue_op suppress o a t op;; mret (Answered o)
              | inr ids => mret (Batched k ids)
              end
          end
      end
  end.

Definition place `{Engine, Json, Runtime} (suppress use_bulk : bool) (acc : ResidentActionAccount)
    (op : MailOperation) (a t : str) : M placed :=
  ns ← namespace_preflight a t op;
  match ns with
  | inl e => mret (Answered (Failed e))
  | inr ns =>
      let personal := match ns with AttrPersonal => true | _ => false end in
      if negb use_bulk || negb personal then
        o ← dispatch_with_engine suppress acc op a t; mret (Answered o)
      else if is_local_only op then
        o ← dispatch_local_only op a t; mret (Answered o)
      else
        match from_operation op with
        | None => o ← dispatch_with_engine suppress acc op a t; mret (Answered o)
        | Some k => place_in_batch suppress acc k op a t
        end
  end.

Fixpoint place_each `{Engine, Json, Runtime} (suppress use_bulk : bool) (acc : ResidentActionAccount) (a : str)
    (ops : list thread_op) (st : group_state) : M group_state :=
  match ops with
  | [] => mret st
  | (i, t, op) :: ops =>
      got ← try_acquire_flight a t;
      if negb got
      then place_each suppress use_bulk acc a ops
             (mkGroup (guards st) (remote_batches st) (results st ++ [(i, refused_in_flight)]))
      else
        p ← place suppress use_bulk acc op a t;
        let held := guards st ++ [flight_key a t] in
        place_each suppress use_bulk acc a ops
          (match p with
           | Answered o => mkGroup held (remote_batches st) (results st ++ [(i, o)])
           | Batched k ids => mkGroup held (push_entry k (mkRemote i t op ids) (remote_batches st)) (results st)
           end)
  end.

(** An entry whose batch went through, and one whose batch did not. *)
Definition entry_sent `{Engine, Json, Runtime} (a : str) (k : RemoteBatchKey) (e : PendingRemote)
    : M (nat * ActionOutcome) :=
  o ← match pr_op e with
      | PermanentDelete =>
          gone ← op_local (pr_op e) a (pr_thread e);
          mret (match gone with inl err => Failed err | inr _ => Success end)
      | _ => mret Success
      end;
  (if bool_decide (k = KRead true) && is_success o then send_mdn_for_read a (pr_thread e) else mret ());;
  mret (pr_idx e, o).

Definition entry_failed `{Engine, Json, Runtime} (suppress : bool) (a : str) (reason : ActionError) (e : PendingRemote)
    : M (nat * ActionOutcome) :=
  let o := LocalOnly reason (is_retryable reason) in
  enqueue_op suppress o a (pr_thread e) (pr_op e);;
  mret (pr_idx e, o).

Fixpoint collect {A B} (f : A → M B) (l : list A) : M (list B) :=
  match l with
  | [] => mret []
  | a :: l => b ← f a; bs ← collect f l; mret (b :: bs)
  end.

Definition send_batch `{Engine, Json, Runtime} (suppress : bool) (acc : ResidentActionAccount) (a : str)
    (b : RemoteBatchKey * list PendingRemote) : M (list (nat * ActionOutcome)) :=
  sent ← dispatch_bulk_mutation acc a b.1 (mjoin (map pr_targets b.2)) AttrPersonal;
  match sent with
  | inr _ => collect (entry_sent a b.1) b.2
  | inl reason => collect (entry_failed suppress a reason) b.2
  end.

Definition group_by_engine `{Engine, Json, Runtime} (suppress : bool) (acc : ResidentActionAccount) (a : str)
    (ops : list thread_op) : M (list (nat * ActionOutcome)) :=
  st ← place_each suppress (1 <? length ops) acc a ops (mkGroup [] [] []);
  rest ← collect (send_batch suppress acc a) (hash_order (remote_batches st));
  for_each release (guards st);;
  mret (results st ++ mjoin rest).

(** [runtime] is whether there is a [SyncRuntime]. *)
Definition execute_account_group `{Engine, Json, Runtime} (suppress runtime : bool) (a : str) (ops : list thread_op)
    : M (list (nat * ActionOutcome)) :=
  if forallb (λ o : thread_op, is_local_only o.2) ops then guarded_each a (λ t op, dispatch_local_only op a t) ops
  else if negb runtime then degraded_fallback suppress a resident_unavailable ops
  else
    w ← get_world;
    match resident_action_account (calls w) a with
    | inl error => degraded_fallback suppress a error ops
    | inr acc => group_by_engine suppress acc a ops
    end.

(** ** Batches *)

Definition batch_op := (str * str * MailOperation)%type.

Fixpoint group_ops (i : nat) (ops : list batch_op) (groups : list (str * list thread_op)) : list (str * list thread_op) :=
  match ops with
  | [] => groups
  | (a, t, op) :: ops => group_ops (S i) ops (push_entry a (i, t, op) groups)
  end.

Definition reassembly_bug : str := Eval vm_compute in slit "batch reassembly bug".

(** [outcomes[idx] = outcome], for indices below the length. *)
Definition reassemble (n : nat) (answers : list (nat * ActionOutcome)) : list ActionOutcome :=
  foldl (λ os (e : nat * ActionOutcome), <[e.1 := e.2]> os) (replicate n (Failed (InvalidState reassembly_bug))) answers.

Definition batch_execute `{Engine, Json, Runtime} (suppress runtime : bool) (ops : list batch_op)
    : M (list ActionOutcome) :=
  answers ← collect (λ g : str * list thread_op, execute_account_group suppress runtime g.1 g.2)
              (hash_order (group_ops 0 ops []));
  mret (reassemble (length ops) (mjoin answers)).

(** ** Retries (pending.rs) *)

(** [serde_json::Value]: [get], [as_bool], [as_str], [as_i64] *)
Definition json_get (k : string) (v : json) : option json :=
  match v with
  | JObj fields => (λ e : nat * (str * json), e.2.2) <$> list_find (λ e : str * json, e.1 = slit k) fields
  | _ => None
  end.

Definition as_bool (v : json) : option bool := match v with JBool b => Some b | _ => None end.
Definition as_str (v : json) : option str := match v with JStr s => Some s | _ => None end.
Definition as_i64 (v : json) : option Z := match v with JInt z => Some z | _ => None end.

Definition bool_param (k : string) (v : json) : bool := default true (json_get k v ≫= as_bool).
Definition str_param (k : string) (v : json) : str := default [] (json_get k v ≫= as_str).
Definition int_param (k : string) (v : json) : Z := default 0%Z (json_get k v ≫= as_i64).

Definition pending_operation_of (ty : str) (v : json) : option MailOperation :=
  if decide (ty = archive_type) then Some Archive
  else if decide (ty = trash_type) then Some Trash
  else if decide (ty = spam_type) then Some (SetSpam (bool_param "isSpam" v))
  else if decide (ty = move_type) then
    Some (MoveToFolder (Folder (str_param "folderId" v)) (Folder <$> (json_get "sourceFolderId" v ≫= as_str)))
  else if decide (ty = star_type) then Some (SetStarred (bool_param "starred" v))
  else if decide (ty = read_type) then Some (SetRead (bool_param "read" v))
  else if decide (ty = delete_type) then Some PermanentDelete
  else if decide (ty = add_type) then Some (AddLabel (Label (str_param "labelId" v)))
  else if decide (ty = remove_type) then Some (RemoveLabel (Label (str_param "labelId" v)))
  else if decide (ty = apply_group_type) then Some (ApplyLabelGroup (LabelGroup (int_param "groupId" v)))
  else if decide (ty = remove_group_type) then Some (RemoveLabelGroup (LabelGroup (int_param "groupId" v)))
  else None.

Definition unknown_type (ty : str) : str := slit "Unknown operation type: " ++ ty.
Definition no_outcome : str := Eval vm_compute in slit "pending op dispatch returned no outcome".

Definition dispatch_pending_op `{Engine, Json, Runtime} (runtime : bool) (a ty r ps : str) : M ActionOutcome :=
  match pending_operation_of ty (default JNull (from_str ps)) with
  | None => mret (Failed (InvalidState (unknown_type ty)))
  | Some op =>
      os ← batch_execute true runtime [(a, r, op)];
      mret (default (Failed (InvalidState no_outcome)) (last os))
  end.

Definition STALE_LABEL_INTENT_AGE_SECS : Z := 172800.

Definition sweep_stale_label_intents `{Runtime} : M unit :=
  now ← now_epoch;
  with_write (delete_stale_pending_thread_label_intents STALE_LABEL_INTENT_AGE_SECS now);;
  mret ().

Definition settle `{Runtime} (i : str) (o : ActionOutcome) : M unit :=
  match o with
  | Success | NoOp => with_write (db_pending_ops_delete_sync i);; mret ()
  | LocalOnly _ _ | Failed _ =>
      now ← now_epoch;
      with_write (db_pending_ops_increment_retry_sync i now);;
      mret ()
  end.

Definition retry_one `{Engine, Json, Runtime} (runtime : bool) (e : str * PendingOperation) : M unit :=
  let '(i, o) := e in
  got ← try_acquire_flight (op_account o) (resource_id o);
  if negb got then mret ()
  else
    marked ← with_write (db_pending_ops_update_status_sync i Executing None);
    match marked with
    | inl _ => mret ()
    | inr _ =>
        outcome ← dispatch_pending_op runtime (op_account o) (operation_type o) (resource_id o) (params o);
        settle i outcome
    end;;
    release (flight_key (op_account o) (resource_id o)).

Definition group_pending (l : list (str * PendingOperation)) : list (str * list (str * PendingOperation)) :=
  foldl (λ m e, push_entry (op_account e.2) e m) [] l.

Definition process_pending_ops `{Engine, Json, Runtime, PendingScan} (runtime : bool) : M unit :=
  now ← now_epoch;
  ops ← with_write (db_pending_ops_get None (Some 20%Z) now);
  match ops with
  | inl _ => mret ()
  | inr ops =>
      sweep_stale_label_intents;;
      if is_nil ops then mret ()
      else for_each (λ g : str * list (str * PendingOperation), for_each (retry_one runtime) g.2)
             (hash_order (group_pending ops))
  end.

Definition recover_on_boot `{Runtime} : M unit :=
  with_write db_pending_ops_recover_executing_sync;;
  sweep_stale_label_intents;;
  with_write mark_sending_drafts_failed;;
  mret ().
