(* ===== verification/BatchTheory.v ===== *)
(** * Lemmas on the batch executor and the queue

    What runs to an end and keeps the flights ([steady]), what a statement on
    the queue does to its rows, and a retry step by step. *)

From stdpp Require Import sorting.
From S2P Require Import Prelude.
From S2P Require Import Graphemes.
From S2P Require Import Strings.
From S2P Require Import Bytes.
From S2P Require Import FolderLabel.
From S2P Require Import FolderTheory.
From S2P Require Import ActionTypes.
From S2P Require Import Mailbox.
From S2P Require Import Batch.

(** ** Flights *)

Lemma acquire_held a t w :
  flight_key a t ∈ in_flight w → try_acquire_flight a t w = Some (false, w).
Proof. intros H. unfold try_acquire_flight. by rewrite decide_True by done. Qed.

Lemma acquire_free a t w :
  flight_key a t ∉ in_flight w →
  try_acquire_flight a t w = Some (true, set_flights (.∪ {[ flight_key a t ]}) w).
Proof. intros H. unfold try_acquire_flight. by rewrite decide_False by done. Qed.

(** ** The order of a singleton *)

Lemma hash_order_single `{Runtime} {A} (x : A) : hash_order [x] = [x].
Proof. apply Permutation_singleton_r, hash_order_rows. Qed.

Lemma hash_order_nil `{Runtime} {A} : hash_order (@nil A) = [].
Proof. apply Permutation_nil_r, hash_order_rows. Qed.

(** ** A retry runs into its own guard *)

Section retry.
Context `{Engine, Json, Runtime}.

Lemma guarded_held a t run w :
  flight_key a t ∈ in_flight w → guarded a t run w = Some (refused_in_flight, w).
Proof. intros Hf. unfold guarded, mbind, M_bind. by rewrite acquire_held. Qed.

Lemma guarded_each_held a t op i run w :
  flight_key a t ∈ in_flight w →
  guarded_each a run [(i, t, op)] w = Some ([(i, refused_in_flight)], w).
Proof. intros Hf. cbn [guarded_each]. unfold mbind, M_bind. by rewrite guarded_held. Qed.

Lemma group_by_engine_held suppress acc a t op i w :
  flight_key a t ∈ in_flight w →
  group_by_engine suppress acc a [(i, t, op)] w = Some ([(i, refused_in_flight)], w).
Proof.
  intros Hf. unfold group_by_engine, mbind, M_bind. cbn [place_each].
  unfold mbind, M_bind. rewrite acquire_held by done. cbn. by rewrite hash_order_nil.
Qed.

Lemma execute_group_held suppress runtime a t op i w :
  flight_key a t ∈ in_flight w →
  execute_account_group suppress runtime a [(i, t, op)] w = Some ([(i, refused_in_flight)], w).
Proof.
  intros Hf. unfold execute_account_group. cbn [forallb snd].
  destruct (is_local_only op); cbn [andb]; [by apply guarded_each_held|].
  destruct runtime; cbn [negb]; [|by apply guarded_each_held].
  unfold mbind, M_bind. cbn [get_world].
  destruct (resident_action_account (calls w) a); [by apply guarded_each_held|by apply group_by_engine_held].
Qed.

(** A batch of one operation on a thread in flight. *)
Lemma batch_held suppress runtime a t op w :
  flight_key a t ∈ in_flight w →
  batch_execute suppress runtime [(a, t, op)] w = Some ([refused_in_flight], w).
Proof.
  intros Hf. unfold batch_execute. cbn [group_ops push_entry]. rewrite hash_order_single.
  unfold mbind, M_bind. cbn [collect fst snd]. unfold mbind, M_bind.
  by rewrite execute_group_held.
Qed.

(** The outcome of a retry whose guard the queue holds. *)
Definition refusal (ty ps : str) : ActionOutcome :=
  match pending_operation_of ty (default JNull (from_str ps)) with
  | None => Failed (InvalidState (unknown_type ty))
  | Some _ => refused_in_flight
  end.

Lemma dispatch_pending_held runtime a ty r ps w :
  flight_key a r ∈ in_flight w → dispatch_pending_op runtime a ty r ps w = Some (refusal ty ps, w).
Proof.
  intros Hf. unfold dispatch_pending_op, refusal. destruct (pending_operation_of _ _); [|done].
  unfold mbind, M_bind. by rewrite batch_held.
Qed.

Lemma refusal_failed ty ps : ∃ e, refusal ty ps = Failed e.
Proof. unfold refusal, refused_in_flight. destruct (pending_operation_of _ _); eauto. Qed.

(** *** The rows of the queue *)

(** A row after an attempt that failed at [now]. *)
Definition attempt_failed (now : Z) (o : PendingOperation) : PendingOperation :=
  let n := (retry_count o + 1)%Z in
  if (max_retries o <=? n)%Z then with_retry OpFailed n (next_retry_at o) (with_state Executing None o)
  else with_retry Pending n (Some (now + retry_delay (operation_type o) n)%Z) (with_state Executing None o).

Definition exhausted (o : PendingOperation) : Prop := (max_retries o ≤ retry_count o + 1)%Z.

#[export] Instance exhausted_dec o : Decision (exhausted o).
Proof. unfold exhausted. apply _. Defined.

(** The tables after it: the row, and the intents of an operation given up. *)
Definition mailbox_attempt_failed (now : Z) (i : str) (o : PendingOperation) (m : mailbox) : mailbox :=
  let m := set_pending (alter (λ _, attempt_failed now o) i) m in
  if decide (exhausted o) then set_intents (filter (λ e : key3 * Intent, action_id e.2 ≠ Some i)) m else m.

Lemma set_pending_pending f m : pending_operations (set_pending f m) = f (pending_operations m).
Proof. done. Qed.

Lemma set_pending_compose f g m : set_pending f (set_pending g m) = set_pending (λ t, f (g t)) m.
Proof. done. Qed.

Lemma set_pending_ext f g m : f (pending_operations m) = g (pending_operations m) → set_pending f m = set_pending g m.
Proof. unfold set_pending. by intros ->. Qed.

Lemma alter_twice {A} (f g h : A → A) (i : str) (x : A) (t : gmap str A) :
  t !! i = Some x → f (g x) = h x → alter f i (alter g i t) = alter h i t.
Proof.
  intros Hi Hfg. apply map_eq. intros j. destruct (decide (j = i)) as [->|Hj].
  - by rewrite !lookup_alter_eq, Hi; simpl; rewrite Hfg.
  - by rewrite !lookup_alter_ne by done.
Qed.

Lemma increment_executing now i o m :
  pending_operations m !! i = Some o → (0 ≤ retry_count o)%Z →
  db_pending_ops_increment_retry_sync i now (set_pending (alter (with_state Executing None) i) m) =
  (inr (), mailbox_attempt_failed now i o m).
Proof.
  intros Hi Hr. unfold db_pending_ops_increment_retry_sync, mbind, Sql_bind, db_query.
  rewrite set_pending_pending, lookup_alter_eq, Hi. cbn [fmap option_fmap option_map].
  change (retry_count (with_state Executing None o)) with (retry_count o).
  change (max_retries (with_state Executing None o)) with (max_retries o).
  unfold mailbox_attempt_failed, attempt_failed.
  destruct (Z.leb_spec (max_retries o) (retry_count o + 1)).
  - rewrite decide_True by done.
    unfold db_update, mbind, Sql_bind, delete_pending_thread_label_intents_for_action, db_update.
    f_equal. f_equal. rewrite set_pending_compose. apply set_pending_ext.
    by apply (alter_twice _ _ _ _ _ _ Hi).
  - rewrite decide_False by (unfold exhausted; lia).
    destruct (Z.ltb_spec (retry_count o + 1 - 1) 0); [lia|].
    unfold db_update. f_equal. rewrite set_pending_compose. apply set_pending_ext.
    by apply (alter_twice _ _ _ _ _ _ Hi).
Qed.

(** *** One retry *)

(** The world with other tables, after [n] readings of the clock. *)
Definition after_reads (w : world) (m : mailbox) (n : nat) : world :=
  World m (in_flight w) (calls w) (receipts w) (clock_reads w + n) (ids_made w).

Definition op_free (w : world) (o : PendingOperation) : Prop :=
  flight_key (op_account o) (resource_id o) ∉ in_flight w.

#[export] Instance op_free_dec w o : Decision (op_free w o).
Proof. unfold op_free. apply _. Defined.

Lemma retry_one_busy runtime i o w : ¬ op_free w o → retry_one runtime (i, o) w = Some ((), w).
Proof.
  intros Hf. unfold retry_one, mbind, M_bind.
  rewrite acquire_held; [done|]. unfold op_free in Hf. destruct (decide (flight_key (op_account o) (resource_id o) ∈ in_flight w)); tauto.
Qed.

Lemma settle_failed i e w :
  settle i (Failed e) w =
  (let '(_, m) := db_pending_ops_increment_retry_sync i (clock (clock_reads w)) (mb w) in
   Some ((), after_reads w m 1)).
Proof.
  unfold settle, with_write, on_db, now_epoch, after_reads, mbind, M_bind. cbn [mb clock_reads in_flight calls receipts ids_made].
  rewrite Nat.add_1_r. by destruct (db_pending_ops_increment_retry_sync _ _ _) as [[]].
Qed.

Lemma retry_one_refused runtime i o w :
  op_free w o → pending_operations (mb w) !! i = Some o → (0 ≤ retry_count o)%Z →
  retry_one runtime (i, o) w =
  Some ((), after_reads w (mailbox_attempt_failed (clock (clock_reads w)) i o (mb w)) 1).
Proof.
  intros Hf Hi Hr. unfold retry_one. set (k := flight_key _ _).
  unfold mbind at 1, M_bind at 1. rewrite acquire_free by done. fold k. cbn [negb].
  unfold mbind at 1, M_bind at 1, mbind at 1, M_bind at 1.
  unfold with_write at 1, on_db at 1, db_pending_ops_update_status_sync, db_update, mbind at 1, M_bind at 1.
  cbn [db_err mb]. unfold mret at 1, M_ret at 1. cbn beta iota.
  unfold mbind at 1, M_bind at 1. rewrite dispatch_pending_held by (cbn; set_solver).
  destruct (refusal_failed (operation_type o) (params o)) as [e ->].
  rewrite settle_failed. cbn [mb clock_reads set_flights in_flight].
  rewrite (increment_executing _ _ _ _ Hi Hr). cbn [after_reads].
  unfold release, set_flights, after_reads. cbn [mb in_flight calls receipts clock_reads ids_made].
  do 3 f_equal. fold k. unfold op_free in Hf. fold k in Hf. set_solver.
Qed.

(** *** A list of retries *)

Fixpoint attempts (n : nat) (l : list (str * PendingOperation)) (m : mailbox) : mailbox :=
  match l with
  | [] => m
  | (i, o) :: l => attempts (S n) l (mailbox_attempt_failed (clock n) i o m)
  end.

Definition free_ops (w : world) (l : list (str * PendingOperation)) : list (str * PendingOperation) :=
  filter (λ e, op_free w e.2) l.

(** The rows of the list are as they were read. *)
Definition rows_current (l : list (str * PendingOperation)) (m : mailbox) : Prop :=
  NoDup l.*1 ∧ Forall (λ e, pending_operations m !! e.1 = Some e.2 ∧ (0 ≤ retry_count e.2)%Z) l.

Lemma attempt_failed_others now i o m j :
  j ≠ i → pending_operations (mailbox_attempt_failed now i o m) !! j = pending_operations m !! j.
Proof.
  intros Hj. unfold mailbox_attempt_failed. destruct (decide (exhausted o)); cbn; by rewrite lookup_alter_ne by done.
Qed.

Lemma attempt_failed_row now i o m :
  pending_operations m !! i = Some o →
  pending_operations (mailbox_attempt_failed now i o m) !! i = Some (attempt_failed now o).
Proof.
  intros Hi. unfold mailbox_attempt_failed. destruct (decide (exhausted o)); cbn; by rewrite lookup_alter_eq, Hi.
Qed.

Lemma rows_current_tail now i o l m :
  rows_current ((i, o) :: l) m → rows_current l (mailbox_attempt_failed now i o m).
Proof.
  intros [[Hn Hd]%NoDup_cons Hf]. apply Forall_cons in Hf as [_ Hf]. split; [done|].
  apply Forall_forall. intros [j p] Hj. rewrite Forall_forall in Hf. specialize (Hf _ Hj) as [Hf1 Hf2].
  split; [|done]. cbn in *. rewrite attempt_failed_others; [done|].
  intros ->. apply Hn. apply list_elem_of_fmap. by exists (i, p).
Qed.

Lemma rows_current_skip e l m : rows_current (e :: l) m → rows_current l m.
Proof. intros [[_ Hd]%NoDup_cons Hf]. apply Forall_cons in Hf as [_ Hf]. by split. Qed.

Lemma retries_refused runtime l w :
  rows_current l (mb w) →
  for_each (retry_one runtime) l w =
  Some ((), after_reads w (attempts (clock_reads w) (free_ops w l) (mb w)) (length (free_ops w l))).
Proof.
  revert w. induction l as [|[i o] l IH]; intros w Hl.
  - cbn. unfold mret, M_ret, after_reads. rewrite Nat.add_0_r. by destruct w.
  - cbn [for_each]. unfold mbind, M_bind. unfold free_ops. rewrite filter_cons. cbn [snd].
    destruct (decide (op_free w o)) as [Hf|Hf].
    + pose proof Hl as [_ [[Hi Hr] _]%Forall_cons].
      rewrite retry_one_refused by done. rewrite IH by (cbn; by apply rows_current_tail).
      unfold after_reads, free_ops, op_free. cbn [in_flight mb calls receipts clock_reads ids_made length attempts].
      rewrite Nat.add_1_r. do 3 f_equal. apply Nat.add_succ_comm.
    + rewrite retry_one_busy by done. apply IH. by eapply rows_current_skip.
Qed.

Lemma for_each_app {A} (f : A → M unit) l1 l2 w :
  for_each f (l1 ++ l2) w = match for_each f l1 w with Some (_, w') => for_each f l2 w' | None => None end.
Proof.
  revert w. induction l1 as [|x l1 IH]; intros w; [done|]. cbn. unfold mbind, M_bind.
  destruct (f x w) as [[[] w']|]; [apply IH|done].
Qed.

Lemma for_each_groups {A K} (f : A → M unit) (gs : list (K * list A)) w :
  for_each (λ g, for_each f g.2) gs w = for_each f (mjoin (snd <$> gs)) w.
Proof.
  revert w. induction gs as [|g gs IH]; intros w; [done|]. cbn [for_each fmap list_fmap mjoin list_join].
  rewrite for_each_app. unfold mbind, M_bind. destruct (for_each f g.2 w) as [[[] w']|]; [apply IH|done].
Qed.

Lemma push_entry_join {K A} `{EqDecision K} (k : K) (x : A) m :
  mjoin (snd <$> push_entry k x m) ≡ₚ mjoin (snd <$> m) ++ [x].
Proof.
  induction m as [|[k' l] m IH]; [done|]. cbn [push_entry]. case_decide; cbn.
  - rewrite <-!app_assoc. f_equiv. apply Permutation_app_comm.
  - by rewrite IH, app_assoc.
Qed.

Lemma push_entries_join {K B} `{EqDecision K} (f : B → K) (l : list B) (m : list (K * list B)) :
  mjoin (snd <$> foldl (λ m e, push_entry (f e) e m) m l) ≡ₚ mjoin (snd <$> m) ++ l.
Proof.
  revert m. induction l as [|e l IH]; intros m; cbn [foldl]; [by rewrite app_nil_r|].
  by rewrite IH, push_entry_join, <-app_assoc.
Qed.

Lemma group_pending_join l : mjoin (snd <$> group_pending l) ≡ₚ l.
Proof. apply push_entries_join. Qed.

Lemma ordered_groups_join l : mjoin (snd <$> hash_order (group_pending l)) ≡ₚ l.
Proof.
  rewrite <-(group_pending_join l) at 2. apply mjoin_perm. f_equiv. apply hash_order_rows.
Qed.
End retry.

Section pass.
Context `{Engine, Json, Runtime, PendingScan}.

Lemma attempts_others n l m i : i ∉ l.*1 → pending_operations (attempts n l m) !! i = pending_operations m !! i.
Proof.
  revert n m. induction l as [|[j o] l IH]; intros n m Hi; [done|]. cbn in Hi.
  apply not_elem_of_cons in Hi as [Hj Hi]. cbn [attempts]. rewrite IH by done. by apply attempt_failed_others.
Qed.

Lemma attempts_row n l m i o :
  rows_current l m → (i, o) ∈ l →
  ∃ k, n ≤ k < n + length l ∧ pending_operations (attempts n l m) !! i = Some (attempt_failed (clock k) o).
Proof.
  revert n m. induction l as [|[j p] l IH]; intros n m Hl Hi; [by apply elem_of_nil in Hi|].
  pose proof Hl as [[Hj _]%NoDup_cons [[Hr _] _]%Forall_cons]. cbn in Hj, Hr.
  apply elem_of_cons in Hi as [Heq|Hi]; cbn [attempts].
  - injection Heq as -> ->. exists n. cbn [length]. split; [lia|].
    rewrite attempts_others by done. by apply attempt_failed_row.
  - destruct (IH (S n) _ (rows_current_tail (clock n) _ _ _ _ Hl) Hi) as (k & Hk & ->).
    exists k. cbn [length]. split; [lia|done].
Qed.

Lemma attempts_intents n l m k r :
  intents (attempts n l m) !! k = Some r ↔
  intents m !! k = Some r ∧ ∀ i o, (i, o) ∈ l → exhausted o → action_id r ≠ Some i.
Proof.
  revert n m. induction l as [|[j p] l IH]; intros n m; cbn [attempts].
  - split; [|tauto]. intros Hr. split; [done|]. intros i o Hi. by apply elem_of_nil in Hi.
  - rewrite IH. unfold mailbox_attempt_failed. case_decide as He; cbn [intents set_intents set_pending].
    + rewrite map_lookup_filter_Some. cbn. split.
      * intros [[Hr Hj] Hl]. split; [done|]. intros i o [Heq|Hi]%elem_of_cons; [by injection Heq as -> ->|by eauto].
      * intros [Hr Hl]. split; [split; [done|]|]; intros; eapply Hl; eauto using list_elem_of_here, list_elem_of_further.
    + split; intros [Hr Hl]; (split; [done|]).
      * intros i o [Heq|Hi]%elem_of_cons; [by injection Heq as -> ->|by eauto].
      * intros i o Hi. apply Hl. by apply list_elem_of_further.
Qed.

(** Two mailboxes that differ in the queue and the intents at most. *)
Definition same_mail (m m' : mailbox) : Prop :=
  m' = set_pending (λ _, pending_operations m') (set_intents (λ _, intents m') m).

Lemma same_mail_refl m : same_mail m m.
Proof. by destruct m. Qed.

Lemma same_mail_trans m1 m2 m3 : same_mail m1 m2 → same_mail m2 m3 → same_mail m1 m3.
Proof. unfold same_mail. intros Ha Hb. by rewrite Hb, Ha. Qed.

Lemma same_mail_attempt now i o m : same_mail m (mailbox_attempt_failed now i o m).
Proof. unfold mailbox_attempt_failed. by case_decide; destruct m. Qed.

Lemma same_mail_attempts n l m : same_mail m (attempts n l m).
Proof.
  revert n m. induction l as [|[i o] l IH]; intros n m; [apply same_mail_refl|].
  eapply same_mail_trans; [apply same_mail_attempt|apply IH].
Qed.

(** What [db_pending_ops_get] answers to the worker. *)
Definition selected (now : Z) (m : mailbox) : list (str * PendingOperation) :=
  sql_limit 20 (merge_sort created_le
    (filter (λ e : str * PendingOperation, op_due None now e.2 = true) (scan_pending (pending_operations m)))).

(** Every row has been tried at least no times. *)
Definition counts_ok (m : mailbox) : Prop :=
  map_Forall (λ (_ : str) o, (0 ≤ retry_count o)%Z) (pending_operations m).

Lemma selected_sublist now m :
  ∃ l, selected now m `sublist_of` l ∧
       l ≡ₚ filter (λ e : str * PendingOperation, op_due None now e.2 = true) (map_to_list (pending_operations m)).
Proof.
  unfold selected. eexists. split.
  - unfold sql_limit. cbn. apply sublist_take.
  - by rewrite merge_sort_Permutation, scan_pending_rows.
Qed.

Lemma selected_in now m i o :
  (i, o) ∈ selected now m → pending_operations m !! i = Some o ∧ op_due None now o = true.
Proof.
  destruct (selected_sublist now m) as (l & Hs & Hl). intros Hi. eapply elem_of_sublist in Hi; [|done].
  rewrite Hl in Hi. apply list_elem_of_filter in Hi as [Hd Hi]. by apply elem_of_map_to_list in Hi.
Qed.

Lemma selected_current now m : counts_ok m → rows_current (selected now m) m.
Proof.
  intros Hc. split.
  - destruct (selected_sublist now m) as (l & Hs & Hl).
    apply (sublist_NoDup _ (l.*1)); [|by apply fmap_sublist]. rewrite Hl.
    apply (sublist_NoDup _ ((map_to_list (pending_operations m)).*1)); [apply NoDup_fst_map_to_list|apply fmap_sublist, sublist_filter].
  - apply Forall_forall. intros [i o] Hi. apply selected_in in Hi as [Hi _]. split; [done|]. exact (Hc _ _ Hi).
Qed.

Lemma rows_current_perm l l' m : l ≡ₚ l' → rows_current l m → rows_current l' m.
Proof. unfold rows_current. by intros ->. Qed.

Lemma rows_current_filter (P : str * PendingOperation → Prop) `{!∀ x, Decision (P x)} l m :
  rows_current l m → rows_current (filter P l) m.
Proof.
  intros [Hn Hf]. split.
  - eapply sublist_NoDup; [exact Hn|]. apply fmap_sublist, sublist_filter.
  - apply Forall_forall. intros e He. apply list_elem_of_filter in He as [_ He].
    rewrite Forall_forall in Hf. by apply Hf.
Qed.

(** The tables after the sweep. *)
Definition swept (now : Z) (m : mailbox) : mailbox :=
  set_intents (filter (λ e, stale_intent m (now - STALE_LABEL_INTENT_AGE_SECS) e.2 = false)) m.

(** The order in which the worker comes to the rows. *)
Definition turns (now : Z) (m : mailbox) : list (str * PendingOperation) :=
  mjoin (snd <$> hash_order (group_pending (selected now m))).

Lemma turns_perm now m : turns now m ≡ₚ selected now m.
Proof. apply ordered_groups_join. Qed.

Lemma process_pending_eq runtime w :
  counts_ok (mb w) →
  let now := clock (clock_reads w) in
  let l := free_ops w (turns now (mb w)) in
  process_pending_ops runtime w =
  Some ((), after_reads w (attempts (S (S (clock_reads w))) l (swept (clock (S (clock_reads w))) (mb w))) (2 + length l)).
Proof.
  intros Hc now l. unfold process_pending_ops.
  unfold mbind at 1, M_bind at 1. cbn [now_epoch]. fold now.
  unfold mbind at 1, M_bind at 1.
  change (with_write (db_pending_ops_get None (Some 20%Z) now)
            (World (mb w) (in_flight w) (calls w) (receipts w) (S (clock_reads w)) (ids_made w)))
    with (Some (@inr ActionError _ (selected now (mb w)),
            World (mb w) (in_flight w) (calls w) (receipts w) (S (clock_reads w)) (ids_made w))).
  cbn beta iota. unfold mbind at 1, M_bind at 1.
  change (sweep_stale_label_intents (World (mb w) (in_flight w) (calls w) (receipts w) (S (clock_reads w)) (ids_made w)))
    with (Some ((), World (swept (clock (S (clock_reads w))) (mb w)) (in_flight w) (calls w) (receipts w)
                      (S (S (clock_reads w))) (ids_made w))).
  cbn beta iota. set (w2 := World _ _ _ _ _ _).
  assert (for_each (λ g : str * list (str * PendingOperation), for_each (retry_one runtime) g.2)
            (hash_order (group_pending (selected now (mb w)))) w2 =
          Some ((), after_reads w (attempts (S (S (clock_reads w))) l (swept (clock (S (clock_reads w))) (mb w))) (2 + length l)))
    as Hrun.
  { rewrite for_each_groups. fold (turns now (mb w)). rewrite retries_refused.
    - unfold after_reads, w2. cbn. unfold l. do 3 f_equal. rewrite !Nat.add_succ_r. done.
    - eapply rows_current_perm; [symmetry; apply turns_perm|]. exact (selected_current now (mb w) Hc). }
  destruct (is_nil (selected now (mb w))) eqn:Hn; [|done].
  rewrite <-Hrun. destruct (selected now (mb w)); [|done]. cbn. by rewrite hash_order_nil.
Qed.
End pass.

(** ** The budget of an operation *)

(** What makes two live rows the same retry. *)
Definition live_key (o : PendingOperation) : str * str * str := (op_account o, resource_id o, operation_type o).

Lemma live_key_attempt t o : live_key (attempt_failed t o) = live_key o.
Proof. unfold attempt_failed. by destruct (_ <=? _)%Z. Qed.

Lemma retry_policy_bounds ty : (5 ≤ retry_policy ty ≤ 10)%Z.
Proof. unfold retry_policy. repeat case_bool_decide; lia. Qed.

(** The delays are those of a schedule, the last for ever. *)
Lemma schedule_delay (s : list Z) (n : nat) :
  s ≠ [] → default 60%Z (match s !! n with Some d => Some d | None => last s end) ∈ s.
Proof.
  intros Hs. destruct (s !! n) as [d|] eqn:Hd; [by eapply list_elem_of_lookup_2|].
  destruct (last s) as [d|] eqn:Hl; [|by apply last_None in Hl].
  cbn. rewrite last_lookup in Hl. by eapply list_elem_of_lookup_2.
Qed.

Lemma retry_delay_bounds ty n : (30 ≤ retry_delay ty n ≤ 3600)%Z.
Proof.
  assert (∀ s : list Z, s ≠ [] → Forall (λ d, 30 ≤ d ≤ 3600)%Z s →
    ∀ k : nat, (30 ≤ default 60%Z (match s !! k with Some d => Some d | None => last s end) ≤ 3600)%Z) as Hs.
  { intros s Hne Hf k. rewrite Forall_forall in Hf. by apply Hf, schedule_delay. }
  unfold retry_delay, backoff_schedule.
  repeat case_bool_decide; apply Hs; try done; repeat constructor; lia.
Qed.

Definition fresh_op (a ty r ps : str) (created : Z) : PendingOperation :=
  mkPendingOp a ty r ps Pending 0 (retry_policy ty) None created None.

Lemma attempts_counted a ty r ps created times :
  let o' := foldl (λ o t, attempt_failed t o) (fresh_op a ty r ps created) times in
  retry_count o' = Z.of_nat (length times) ∧ max_retries o' = retry_policy ty ∧
  operation_type o' = ty ∧ live_key o' = (a, r, ty).
Proof.
  induction times as [|t times IH] using rev_ind; [done|].
  rewrite foldl_app, length_app. cbn [foldl length]. destruct IH as (Hn & Hm & Ht & Hk).
  set (p := foldl _ _ _) in *. clearbody p. unfold attempt_failed.
  destruct (_ <=? _)%Z; cbn; (split_and!; [lia|done|done|exact Hk]).
Qed.

Lemma attempt_kept t o :
  (retry_count o + 1 < max_retries o)%Z →
  op_state (attempt_failed t o) = Pending ∧
  ∃ d, next_retry_at (attempt_failed t o) = Some (t + d)%Z ∧ (30 ≤ d ≤ 3600)%Z.
Proof.
  intros Hlt. unfold attempt_failed. destruct (Z.leb_spec (max_retries o) (retry_count o + 1)); [lia|].
  split; [done|]. cbn. eexists. split; [done|]. apply retry_delay_bounds.
Qed.

Lemma attempt_given_up t o :
  (max_retries o ≤ retry_count o + 1)%Z → op_state (attempt_failed t o) = OpFailed.
Proof.
  intros Hle. unfold attempt_failed. by destruct (Z.leb_spec (max_retries o) (retry_count o + 1)); [|lia].
Qed.

Lemma retry_budget_aux a ty r ps created times :
  let o := fresh_op a ty r ps created in
  let o' := foldl (λ o t, attempt_failed t o) o times in
  (5 ≤ retry_policy ty ≤ 10)%Z ∧
  retry_count o' = Z.of_nat (length times) ∧ live_key o' = live_key o ∧
  ((Z.of_nat (length times) < retry_policy ty)%Z →
     op_state o' = Pending ∧
     ∀ t, last times = Some t → ∃ d, next_retry_at o' = Some (t + d)%Z ∧ (30 ≤ d ≤ 3600)%Z) ∧
  ((retry_policy ty ≤ Z.of_nat (length times))%Z → op_state o' = OpFailed).
Proof.
  intros o o'. destruct (attempts_counted a ty r ps created times) as (Hn & Hm & Ht & Hk).
  pose proof (retry_policy_bounds ty) as Hp. split_and!; [lia|lia|exact Hn|exact Hk| |].
  all: destruct times as [|t times _] using rev_ind; cbn [length]; [first [intros ?; exfalso; lia|intros _; by split]|].
  all: destruct (attempts_counted a ty r ps created times) as (Hn' & Hm' & _ & _).
  all: rewrite length_app; cbn [length]; intros Hlt; unfold o', o; rewrite foldl_app; cbn [foldl].
  - destruct (attempt_kept t _ ltac:(rewrite Hn', Hm'; lia)) as (? & d & ? & ?).
    split; [done|]. intros t' [= <-]%(eq_trans (eq_sym (last_snoc _ _))). by exists d.
  - apply attempt_given_up. rewrite Hn', Hm'. lia.
Qed.

(** ** Labels as the union over messages *)

Lemma elem_of_over_messages rows a t m x l :
  (x, l) ∈ over_messages rows a t m ↔ x = (a, t) ∧ ∃ i, (i, l) ∈ rows ∧ is_Some (thread_messages a t m !! i).
Proof.
  unfold over_messages. rewrite elem_of_map. split.
  - intros ([i l'] & [= -> ->] & Hi). rewrite elem_of_filter in Hi. destruct Hi. eauto.
  - intros (-> & i & Hi & Hs). exists (i, l). split; [done|]. by apply elem_of_filter.
Qed.

Lemma elem_of_label_rows a t l m x l' :
  (x, l') ∈ label_rows a t l m ↔ l' = l ∧ is_Some (thread_messages a t m !! x).
Proof.
  unfold label_rows. rewrite elem_of_map. split.
  - intros (y & [= -> ->] & Hy). by rewrite elem_of_dom in Hy.
  - intros [-> Hs]. exists x. split; [done|]. by apply elem_of_dom.
Qed.

(** The labels of a thread by its messages. *)
Definition derived_labels (a t : str) (m : mailbox) : gset key3 :=
  over_messages (message_labels m) a t m ∪ over_messages (dom (message_keywords m)) a t m.

Definition labels_derived (a t : str) (m : mailbox) : Prop :=
  ∀ l, (a, t, l) ∈ thread_labels m ↔ (a, t, l) ∈ derived_labels a t m.

(** The label of a keyword row is the identifier of its keyword. *)
Definition keywords_ok (m : mailbox) : Prop :=
  ∀ k v, message_keywords m !! k = Some v → k.2 = keyword_storage_id v.

Lemma elem_of_derived a t m l :
  (a, t, l) ∈ derived_labels a t m ↔
  ∃ i, is_Some (thread_messages a t m !! i) ∧ ((i, l) ∈ message_labels m ∨ is_Some (message_keywords m !! (i, l))).
Proof.
  unfold derived_labels. rewrite elem_of_union, !elem_of_over_messages.
  setoid_rewrite elem_of_dom. naive_solver.
Qed.

(** A confirmed intent decides the truth of its label and leaves the others. *)
Definition truth_after (a t : str) (i : label_intent) (m m' : mailbox) : Prop :=
  ∀ x l, (x, l) ∈ thread_labels m' ↔
    if decide (x = (a, t) ∧ l = i.1) then i.2 = Add else (x, l) ∈ thread_labels m.

(** The tables a confirmation leaves alone. *)
Definition same_but_labels (m m' : mailbox) : Prop :=
  accounts m' = accounts m ∧ threads m' = threads m ∧ messages m' = messages m ∧ labels m' = labels m ∧
  intents m' = intents m ∧ pending_operations m' = pending_operations m.

Lemma thread_messages_in a t m i r : thread_messages a t m !! i = Some r → messages m !! i = Some r ∧ i.1 = a ∧ message_thread r = t.
Proof. unfold thread_messages. rewrite map_lookup_filter_Some. unfold in_thread. tauto. Qed.

Lemma insert_or_ignore_ok what has put fk `{!∀ m k, Decision (fk m k)} rows m :
  (∀ k, k ∈ rows m → k ∈ has m ∨ fk m k) → insert_or_ignore what has put fk rows m = (inr (), put (rows m) m).
Proof.
  intros Hr. unfold insert_or_ignore, mbind, Sql_bind, db_query. by rewrite bool_decide_eq_true_2.
Qed.

Lemma confirm_add a t l m :
  thread_there a t m = true → label_there a l m = true →
  confirm_intent a t (l, Add) m =
  (inr (), set_message_labels (.∪ label_rows a t l m) (set_thread_labels (.∪ {[ (a, t, l) ]}) m)).
Proof.
  unfold thread_there, label_there. rewrite !bool_decide_eq_true. intros Ht Hl. cbn [confirm_intent].
  unfold insert_thread_labels, insert_message_labels, mbind, Sql_bind.
  rewrite insert_or_ignore_ok.
  - rewrite insert_or_ignore_ok; [done|]. intros [[a' i] l'] Hk. right. apply elem_of_label_rows in Hk as [-> [r Hr]].
    apply thread_messages_in in Hr as (Hr & Ha & _). cbn in Ha. subst a'. split; [by exists r|done].
  - intros k Hk. right. apply elem_of_singleton in Hk as ->. by split.
Qed.

(** The mailbox after a confirmed removal. *)
Definition removed (a t l : str) (m : mailbox) : mailbox :=
  let m := set_message_labels (.∖ label_rows a t l m) (set_thread_labels (.∖ {[ (a, t, l) ]}) m) in
  match strip_prefix KEYWORD_PREFIX l with
  | Some keyword =>
      set_message_keywords (filter (λ e, ¬ (e.2 = keyword ∧ is_Some (thread_messages a t m !! e.1.1)))) m
  | None => m
  end.

Lemma confirm_remove a t l m : confirm_intent a t (l, Remove) m = (inr (), removed a t l m).
Proof. cbn [confirm_intent]. unfold removed. by destruct (strip_prefix KEYWORD_PREFIX l). Qed.

Lemma removed_keywords a t l m k :
  keywords_ok m →
  is_Some (message_keywords (removed a t l m) !! k) ↔
  is_Some (message_keywords m !! k) ∧ ¬ (k.2 = l ∧ is_Some (thread_messages a t m !! k.1)).
Proof.
  intros Hk. unfold removed.
  destruct (strip_prefix KEYWORD_PREFIX l) as [kw|] eqn:E.
  - apply strip_prefix_Some in E as ->. cbn [message_keywords set_message_keywords set_message_labels set_thread_labels]. split.
    + intros [v [Hv Hn]%map_lookup_filter_Some]. split; [by exists v|]. intros [Hl Hs]. apply Hn.
      split; [|done]. specialize (Hk _ _ Hv). rewrite Hl in Hk. unfold keyword_storage_id in Hk.
      by apply app_inv_head in Hk.
    + intros [[v Hv] Hn]. exists v. apply map_lookup_filter_Some. split; [done|]. intros [Hv' Hs].
      apply Hn. split; [|done]. cbn in Hv'. subst v. exact (Hk _ _ Hv).
  - cbn. split; [|tauto]. intros [v Hv]. split; [by exists v|]. intros [Hl _]. pose proof (Hk _ _ Hv) as Hp.
    rewrite Hl in Hp. unfold keyword_storage_id in Hp. rewrite Hp, strip_prefix_app in E. done.
Qed.

Lemma removed_fields a t l m :
  same_but_labels m (removed a t l m) ∧
  thread_labels (removed a t l m) = thread_labels m ∖ {[ (a, t, l) ]} ∧
  message_labels (removed a t l m) = message_labels m ∖ label_rows a t l m.
Proof. unfold removed, same_but_labels. by destruct (strip_prefix KEYWORD_PREFIX l). Qed.

Lemma thread_messages_same a t m m' : messages m' = messages m → thread_messages a t m' = thread_messages a t m.
Proof. unfold thread_messages. by intros ->. Qed.

Lemma confirm_intent_truth a t i m :
  thread_there a t m = true → (i.2 = Add → label_there a i.1 m = true) →
  ∃ m', confirm_intent a t i m = (inr (), m') ∧ same_but_labels m m' ∧ truth_after a t i m m'.
Proof.
  destruct i as [l []]; cbn [fst snd]; intros Ht Hl.
  - rewrite confirm_add by auto. eexists. split_and!; [done..|].
    intros x l'. cbn. rewrite elem_of_union, elem_of_singleton. case_decide as Hx; [naive_solver|].
    split; [|by left]. intros [?|[= -> ->]]; [done|]. tauto.
  - rewrite confirm_remove. eexists. destruct (removed_fields a t l m) as (Hs & Htl & _). split_and!; [done..|].
    intros x l'. rewrite Htl, elem_of_difference, elem_of_singleton. case_decide as Hx; [|naive_solver].
    destruct Hx as [-> ->]. cbn. naive_solver.
Qed.

Lemma confirm_intent_derived a t i m m' :
  keywords_ok m → labels_derived a t m → thread_messages a t m ≠ ∅ →
  thread_there a t m = true → (i.2 = Add → label_there a i.1 m = true) →
  confirm_intent a t i m = (inr (), m') → keywords_ok m' ∧ labels_derived a t m'.
Proof.
  destruct i as [l []]; cbn [fst snd]; intros Hk Hd Hne Ht Hl.
  - rewrite confirm_add by auto. intros [= <-]. split; [exact Hk|].
    intros l'. specialize (Hd l'). cbn. rewrite elem_of_union, elem_of_singleton, Hd, !elem_of_derived.
    change (thread_messages a t (set_message_labels _ _)) with (thread_messages a t m). cbn.
    setoid_rewrite elem_of_union. setoid_rewrite elem_of_label_rows.
    apply map_choose in Hne as (i & r & Hi). split.
    + intros [(j & Hj & Hin)|[= ->]]; [exists j; naive_solver|]. exists i. split; [by exists r|]. left. right. split; [done|by exists r].
    + intros (j & Hj & [[Hin|[-> _]]|Hkw]); [left; exists j; naive_solver|by right|left; exists j; naive_solver].
  - rewrite confirm_remove. intros [= <-].
    destruct (removed_fields a t l m) as (Hs & Htl & Hml). split.
    + intros k v Hv. apply (Hk k). unfold removed in Hv. destruct (strip_prefix _ _); [|done].
      cbn in Hv. by apply map_lookup_filter_Some in Hv as [Hv _].
    + intros l'. specialize (Hd l'). rewrite Htl, elem_of_difference, elem_of_singleton, Hd, !elem_of_derived.
      assert (thread_messages a t (removed a t l m) = thread_messages a t m) as -> by (apply thread_messages_same, Hs).
      rewrite Hml. setoid_rewrite elem_of_difference. setoid_rewrite elem_of_label_rows.
      setoid_rewrite (removed_keywords a t l m _ Hk). cbn. split.
      * intros [(i & Hi & Hin) Hne']. exists i. split; [done|]. destruct Hin as [Hin|Hin]; [left|right]; (split; [done|]); naive_solver.
      * intros (i & Hi & [[Hin Hn]|[Hin Hn]]); (split; [exists i; naive_solver|]); naive_solver.
Qed.

(** Whether a label is there after a list of intents. *)
Definition truth (ii : list label_intent) (l : str) (before : bool) : bool :=
  foldl (λ b (i : label_intent), if decide (i.1 = l) then bool_decide (i.2 = Add) else b) before ii.

Definition in_truth (m : mailbox) (x : key2) (l : str) : bool := bool_decide ((x, l) ∈ thread_labels m).

Lemma same_but_labels_trans m1 m2 m3 : same_but_labels m1 m2 → same_but_labels m2 m3 → same_but_labels m1 m3.
Proof. unfold same_but_labels. naive_solver congruence. Qed.

(** What the confirmation of a list of intents needs. *)
Definition confirmable (a t : str) (ii : list label_intent) (m : mailbox) : Prop :=
  thread_there a t m = true ∧ Forall (λ i : label_intent, i.2 = Add → label_there a i.1 m = true) ii.

Lemma confirmable_same a t ii m m' : same_but_labels m m' → confirmable a t ii m → confirmable a t ii m'.
Proof.
  intros (_ & Hth & _ & Hla & _) [Ht Hl]. split; [by unfold thread_there in *; rewrite Hth|].
  eapply Forall_impl; [exact Hl|]. cbn. unfold label_there. by rewrite Hla.
Qed.

Lemma confirm_each_truth a t ii m :
  confirmable a t ii m →
  ∃ m', db_each (confirm_intent a t) ii m = (inr (), m') ∧ same_but_labels m m' ∧
    ∀ x l, in_truth m' x l = if decide (x = (a, t)) then truth ii l (in_truth m x l) else in_truth m x l.
Proof.
  revert m. induction ii as [|i ii IH]; intros m [Ht Hl].
  - exists m. split_and!; try done. intros x l. by case_decide.
  - apply Forall_cons in Hl as [Hi Hl].
    destruct (confirm_intent_truth a t i m) as (m1 & Hm1 & Hs1 & Ht1); try done.
    destruct (IH m1) as (m2 & Hm2 & Hs2 & Ht2); [by eapply confirmable_same|].
    exists m2. cbn [db_each]. unfold mbind, Sql_bind. rewrite Hm1. split_and!; [done|by eapply same_but_labels_trans|].
    intros x l. rewrite Ht2. specialize (Ht1 x l). unfold in_truth.
    assert (bool_decide ((x, l) ∈ thread_labels m1) =
            if decide (x = (a, t) ∧ l = i.1) then bool_decide (i.2 = Add) else bool_decide ((x, l) ∈ thread_labels m)) as Hb.
    { case_decide; apply bool_decide_ext; exact Ht1. }
    rewrite Hb. destruct (decide (x = (a, t))) as [->|Hx].
    + cbn [truth foldl]. unfold truth. cbn [foldl]. f_equal.
      destruct (decide (i.1 = l)); [rewrite decide_True by done|rewrite decide_False by naive_solver]; done.
    + by rewrite decide_False by tauto.
Qed.

Lemma confirm_each_derived a t ii m m' :
  keywords_ok m → labels_derived a t m → thread_messages a t m ≠ ∅ → confirmable a t ii m →
  db_each (confirm_intent a t) ii m = (inr (), m') → keywords_ok m' ∧ labels_derived a t m'.
Proof.
  revert m. induction ii as [|i ii IH]; intros m Hk Hd Hne [Ht Hl]; [by intros [= <-]|].
  apply Forall_cons in Hl as [Hi Hl]. cbn [db_each]. unfold mbind, Sql_bind.
  destruct (confirm_intent_truth a t i m) as (m1 & Hm1 & Hs1 & _); try done. rewrite Hm1. intros Hm'.
  destruct (confirm_intent_derived a t i m m1) as [Hk1 Hd1]; try done.
  apply (IH m1); try done; [|by eapply confirmable_same].
  by rewrite (thread_messages_same a t m m1) by apply Hs1.
Qed.

(** [finalize_provider_truth_label_membership] as one step. *)
Definition bumped (a t : str) (m : mailbox) : mailbox :=
  set_threads (alter (λ r, with_generation (label_membership_generation r + 1) r) (a, t)) m.

Definition finalized (a t : str) (m : mailbox) : mailbox :=
  let m := bumped a t m in set_intents (filter (λ e, clearable m a t e.1 e.2 = false)) m.

Lemma finalize_eq a t m : finalize_provider_truth_label_membership a t m = (inr (), finalized a t m).
Proof. done. Qed.

Lemma confirmed_eq a t ii m m' :
  db_each (confirm_intent a t) ii m = (inr (), m') →
  confirmed_provider_label_intents a t ii m = (inr (), finalized a t m').
Proof. intros Hm. unfold confirmed_provider_label_intents, mbind, Sql_bind. by rewrite Hm. Qed.

(** The labels of messages and keywords a thread takes exist. *)
Definition derived_fit (a t : str) (m : mailbox) : Prop :=
  ∀ l, (a, t, l) ∈ derived_labels a t m → label_there a l m = true.

Lemma recompute_labels_ok a t m :
  thread_there a t m = true → derived_fit a t m →
  recompute_thread_labels_from_messages a t m =
  (inr (), finalized a t (set_thread_labels (λ s, filter (λ k, k.1 ≠ (a, t)) s ∪ over_messages (message_labels m) a t m
                            ∪ over_messages (dom (message_keywords m)) a t m) m)).
Proof.
  unfold thread_there. rewrite bool_decide_eq_true. intros Ht Hf.
  unfold recompute_thread_labels_from_messages, delete_thread_label_rows, insert_thread_labels, mbind, Sql_bind.
  cbn [db_update]. unfold db_update.
  assert (∀ x l rows, (x, l) ∈ over_messages rows a t m → over_messages rows a t m ⊆ derived_labels a t m →
            thread_label_fk m (x, l)) as Hfk.
  { intros x l rows Hx Hr. pose proof Hx as [-> _]%elem_of_over_messages. apply Hr, Hf in Hx.
    unfold label_there in Hx. rewrite bool_decide_eq_true in Hx. by split. }
  rewrite insert_or_ignore_ok.
  2:{ intros [x l] Hk. right. eapply (Hfk x l (message_labels m)); [exact Hk|unfold derived_labels; set_solver]. }
  rewrite insert_or_ignore_ok; [done|].
  intros [x l] Hk. right. eapply (Hfk x l (dom (message_keywords m))); [exact Hk|unfold derived_labels; set_solver].
Qed.

Lemma recompute_idempotent a t m :
  labels_derived a t m →
  filter (λ k, k.1 ≠ (a, t)) (thread_labels m) ∪ over_messages (message_labels m) a t m
    ∪ over_messages (dom (message_keywords m)) a t m = thread_labels m.
Proof.
  intros Hd. apply set_eq. intros [x l]. rewrite <-assoc_L by apply _. change (_ ∪ over_messages (dom _) a t m) with (derived_labels a t m) at 1.
  rewrite elem_of_union, elem_of_filter. cbn. split.
  - intros [[_ Hl]|Hl]; [done|]. assert (x = (a, t)) as ->.
    { unfold derived_labels in Hl. rewrite elem_of_union, !elem_of_over_messages in Hl. tauto. }
    by apply Hd.
  - intros Hl. destruct (decide (x = (a, t))) as [->|Hx]; [right; by apply Hd|by left].
Qed.

Lemma finalized_there a t m : thread_there a t m = true → thread_there a t (finalized a t m) = true.
Proof.
  unfold thread_there. rewrite !bool_decide_eq_true. cbn. rewrite lookup_alter_eq. intros [r ->]. by eexists.
Qed.

(** ** The destination of a move *)

(** A container of the account whose folder is stored under [storage]. *)
Definition stored_as (c : ContainerIndex) (n storage : str) : Prop := ∃ k, (n, k) ∈ folder_map c ∧ folder_storage_id k = storage.

Lemma native_folder_spec c storage :
  match native_folder_for_storage_id_opt (folder_map c) storage with
  | Some n => stored_as c n storage
  | None => ∀ n, ¬ stored_as c n storage
  end.
Proof.
  unfold native_folder_for_storage_id_opt, stored_as. destruct (list_find _ _) as [[i [n k]]|] eqn:E; cbn.
  - apply list_find_Some in E as (Hl & Hs & _). exists k. split; [by eapply list_elem_of_lookup_2|done].
  - apply list_find_None in E. rewrite Forall_forall in E. intros n (k & Hin & Hs). by apply (E _ Hin).
Qed.

(** What Gmail has for an archive: no container, or one that stands for it. *)
Definition gmail_archive (p : MailProviderKind) (d : str) : Prop := p = Gmail ∧ to_ascii_lowercase d = slit "archive".

#[export] Instance gmail_archive_dec p d : Decision (gmail_archive p d).
Proof. unfold gmail_archive. apply _. Defined.

(** Archiving on Gmail: the inbox is taken off. *)
Definition inbox_off (c : ContainerIndex) (ns : NamespaceAttribution) : ContainerMovePlan :=
  match role_target c ns RoleInbox with Some i => DetachInbox i | None => NothingToSend end.

(** Where each move goes, operation by operation. *)
Definition meant_plan (p : MailProviderKind) (op : ContainerMoveOp) (c : ContainerIndex) (ns : NamespaceAttribution)
    (plan : option ContainerMovePlan) : Prop :=
  match op with
  | MArchive =>
      match role_target c ns RoleArchive with
      | Some d => plan = Some (if decide (gmail_archive p d) then inbox_off c ns else MoveTo d None)
      | None => plan = if decide (p = Gmail) then Some (inbox_off c ns) else None
      end
  | MTrash => plan = (λ d, MoveTo d None) <$> role_target c ns RoleTrash
  | MSpam true => plan = (λ d, MoveTo d None) <$> role_target c ns RoleSpam
  | MSpam false => plan = (λ d, MoveTo d (role_target c ns RoleSpam)) <$> role_target c ns RoleInbox
  | MMoveToFolder dest source =>
      ((∀ n, ¬ stored_as c n dest) ∧ plan = None) ∨
      ∃ d, stored_as c d dest ∧
        if decide (gmail_archive p d) then plan = Some (inbox_off c ns)
        else ∃ s, plan = Some (MoveTo d s) ∧
          match s with
          | Some n => ∃ st, source = Some st ∧ stored_as c n st
          | None => ∀ st n, source = Some st → ¬ stored_as c n st
          end
  end.

Lemma synthetic_archive p d : bool_decide (p = Gmail) && is_synthetic d = bool_decide (gmail_archive p d).
Proof.
  unfold is_synthetic. change (to_ascii_lowercase GMAIL_SYNTHETIC_ARCHIVE_ID) with (slit "archive").
  apply eq_iff_eq_true. by rewrite andb_true_iff, !bool_decide_eq_true.
Qed.

Lemma move_plan_spec p op c ns : meant_plan p op c ns (plan_for_container_op p op c ns).
Proof.
  unfold meant_plan, plan_for_container_op, container_move_plan, inbox_off.
  destruct op as [| |[|]|dest source]; cbn [destination_role source_role is_gmail_archive_shape mbind option_bind].
  - destruct (role_target c ns RoleArchive) as [d|].
    + rewrite synthetic_archive. case_decide; [by rewrite bool_decide_true|by rewrite bool_decide_false].
    + rewrite andb_true_r. case_decide; [by rewrite bool_decide_true|by rewrite bool_decide_false].
  - rewrite andb_false_r. by destruct (role_target c ns RoleTrash).
  - rewrite andb_false_r. by destruct (role_target c ns RoleSpam).
  - rewrite andb_false_r. by destruct (role_target c ns RoleInbox).
  - pose proof (native_folder_spec c dest) as Hd. destruct (native_folder_for_storage_id_opt (folder_map c) dest) as [d|]; [|by left].
    right. exists d. split; [done|]. cbn [mbind option_bind]. rewrite synthetic_archive.
    case_decide as Hg; [rewrite bool_decide_true by done; by destruct (role_target c ns RoleInbox)|].
    rewrite bool_decide_false by done. eexists. split; [done|]. destruct source as [st|]; cbn [mbind option_bind]; [|done].
    pose proof (native_folder_spec c st) as Hs. destruct (native_folder_for_storage_id_opt (folder_map c) st) as [n|]; [by exists st|].
    by intros ? n [= <-].
Qed.

(** ** The local step of a label *)

(** The statements of the step change the labels and the intents at most, and
    forget no label. *)
Definition only_labels (m m' : mailbox) : Prop :=
  m' = set_intents (λ _, intents m') (set_labels (λ _, labels m') m) ∧
  ∀ a l, label_there a l m = true → label_there a l m' = true.

Lemma only_labels_refl m : only_labels m m.
Proof. split; [by destruct m|done]. Qed.

Lemma only_labels_trans m1 m2 m3 : only_labels m1 m2 → only_labels m2 m3 → only_labels m1 m3.
Proof. intros [Ha Hla] [Hb Hlb]. split; [by rewrite Hb, Ha|eauto]. Qed.

Lemma only_labels_fields m m' :
  only_labels m m' →
  threads m' = threads m ∧ thread_labels m' = thread_labels m ∧ messages m' = messages m ∧
  accounts m' = accounts m ∧ pending_operations m' = pending_operations m.
Proof. intros [He _]. by split_and!; rewrite He. Qed.

Lemma ensure_ok a k m :
  label_write_metadata k ≠ None →
  ∃ m', ensure_typed_tag_label a k m = (inr (Some ()), m') ∧ only_labels m m' ∧
    intents m' = intents m ∧ label_there a (label_storage_id k) m' = true.
Proof.
  intros Hk. unfold ensure_typed_tag_label. destruct (label_write_metadata k) as [[[name order] un]|]; [|done].
  eexists. split; [done|]. split_and!; [|done|].
  - split; [by destruct m|]. intros a' l Hl. unfold label_there in *. rewrite bool_decide_eq_true in *. cbn.
    destruct (decide ((a', l) = (a, label_storage_id k))) as [->|Hne].
    + rewrite lookup_partial_alter_eq. by destruct (labels m !! _).
    + by rewrite lookup_partial_alter_ne by done.
  - unfold label_there. rewrite bool_decide_eq_true. cbn. rewrite lookup_partial_alter_eq. by destruct (labels m !! _).
Qed.

(** An intent of this list on this thread. *)
Definition stated (a t : str) (i : label_intent) (g : Z) (action : option str) (m : mailbox) : Prop :=
  ∃ r, intents m !! (a, t, i.1) = Some r ∧ intent_op r = i.2 ∧ generation_seen r = g ∧ action_id r = action.

Lemma upsert_intent_ok a t g action now i m :
  thread_there a t m = true → label_there a i.1 m = true →
  ∃ r, upsert_intent a t g action now i m = (inr (), set_intents <[(a, t, i.1) := r]> m) ∧
    intent_op r = i.2 ∧ generation_seen r = g ∧ action_id r = action.
Proof.
  intros Ht Hl. unfold upsert_intent, mbind, Sql_bind, db_query.
  destruct (intents m !! (a, t, i.1)) as [old|]; [by eexists|].
  unfold thread_there, label_there in *. rewrite Ht, Hl. by eexists.
Qed.

Lemma upserts_ok a t g action now ii m :
  NoDup ii.*1 → thread_there a t m = true → Forall (λ i : label_intent, label_there a i.1 m = true) ii →
  ∃ m', db_each (upsert_intent a t g action now) ii m = (inr (), m') ∧
    m' = set_intents (λ _, intents m') m ∧
    Forall (λ i, stated a t i g action m') ii ∧
    (∀ k, (∀ i, i ∈ ii → k ≠ (a, t, i.1)) → intents m' !! k = intents m !! k).
Proof.
  revert m. induction ii as [|i ii IH]; intros m Hn Ht Hl.
  - exists m. split_and!; [done|by destruct m|constructor|done].
  - apply NoDup_cons in Hn as [Hi Hn]. apply Forall_cons in Hl as [Hli Hl].
    destruct (upsert_intent_ok a t g action now i m Ht Hli) as (r & Hm1 & Hr).
    set (m1 := set_intents <[(a, t, i.1) := r]> m) in *.
    destruct (IH m1 Hn Ht Hl) as (m2 & Hm2 & Hs2 & Hst & Hk).
    exists m2. cbn [db_each]. unfold mbind, Sql_bind. rewrite Hm1. split_and!; [done| | |].
    + rewrite Hs2. done.
    + constructor; [|done]. exists r. split; [|done]. rewrite Hk; [apply lookup_insert_eq|].
      intros j Hj [= Heq]. apply Hi. apply list_elem_of_fmap. by exists j.
    + intros k Hne. rewrite Hk by (intros j Hj; apply Hne; by apply list_elem_of_further).
      apply lookup_insert_ne. intros Heq. by apply (Hne i); [apply list_elem_of_here|].
Qed.

(** A label the account can have: what the local step reads to find its kind. *)
Definition label_known (a l : str) (k : LabelKind) (m : mailbox) : Prop :=
  ∃ text p, accounts m !! a = Some text ∧ provider_parse text = inr p ∧ label_parse l p = inr k ∧
    (label_there a l m = true ∨ label_write_metadata k ≠ None).

Lemma label_known_id a l k m : label_known a l k m → label_storage_id k = l.
Proof. intros (text & p & _ & _ & Hp & _). by apply label_parse_sound in Hp as [_ ->]. Qed.

Lemma label_intents_cases l k o :
  (label_intents l k o = [(l, o)] ∧ (o = Remove ∨ ∀ v, k ≠ GraphImportance v)) ∨
  ∃ v, o = Add ∧ k = GraphImportance v ∧
    label_intents l k o = [(importance_label_id (importance_opposite v), Remove); (l, Add)].
Proof. destruct o, k; cbn; eauto 10. Qed.

Lemma label_intents_nodup l k o : label_storage_id k = l → NoDup (label_intents l k o).*1.
Proof.
  intros <-. destruct (label_intents_cases (label_storage_id k) k o) as [[-> _]|(v & -> & -> & ->)].
  - by apply NoDup_singleton.
  - apply (bool_decide_unpack _). destruct v; vm_compute; exact I.
Qed.

Lemma label_intents_own l k o : (l, o) ∈ label_intents l k o.
Proof. destruct (label_intents_cases l k o) as [[-> _]|(v & -> & _ & ->)]; set_solver. Qed.

(** What the step leaves behind. *)
Definition step_done (a t : str) (ii : list label_intent) (g : Z) (m m' : mailbox) : Prop :=
  only_labels m m' ∧ Forall (λ i, stated a t i g None m') ii ∧
  Forall (λ i : label_intent, label_there a i.1 m' = true) ii ∧
  ∀ k, (∀ i, i ∈ ii → k ≠ (a, t, i.1)) → intents m' !! k = intents m !! k.

Lemma upsert_pending_ok a t ii now m r :
  NoDup ii.*1 → threads m !! (a, t) = Some r → Forall (λ i : label_intent, label_there a i.1 m = true) ii →
  ∃ m', upsert_pending_thread_label_intents a t ii None now m = (inr (label_membership_generation r), m') ∧
    step_done a t ii (label_membership_generation r) m m'.
Proof.
  intros Hn Hr Hl. destruct (upserts_ok a t (label_membership_generation r) None now ii m Hn) as (m' & Hm & Hs & Hst & Hk).
  { unfold thread_there. rewrite Hr. done. } { done. }
  exists m'. unfold upsert_pending_thread_label_intents, thread_generation, mbind, Sql_bind, db_query.
  rewrite Hr. unfold mret, Sql_ret. rewrite Hm. split; [done|].
  assert (labels m' = labels m) as Hlm by (rewrite Hs; done).
  split_and!; [split|done| |done].
  - rewrite Hlm. etrans; [exact Hs|]. by destruct m.
  - intros a' l. unfold label_there. by rewrite Hlm.
  - eapply Forall_impl; [exact Hl|]. intros i Hi. unfold label_there in *. by rewrite Hlm.
Qed.

Lemma label_kind_known a l k m : label_known a l k m → label_kind_for_account_sync a l m = (inr k, m).
Proof.
  intros (text & p & Ha & Hp & Hl & _). unfold label_kind_for_account_sync, mbind, Sql_bind, db_query.
  rewrite Ha. unfold result_bind. rewrite Hp, Hl. done.
Qed.

Lemma ensured_ok a l k m :
  label_known a l k m →
  ∃ m', (if label_there a l m then mret (Some ()) else ensure_typed_tag_label a k) m = (inr (Some ()), m') ∧
    only_labels m m' ∧ intents m' = intents m ∧ label_there a l m' = true.
Proof.
  intros Hk. pose proof (label_known_id _ _ _ _ Hk) as Hid. destruct (label_there a l m) eqn:E.
  - exists m. split_and!; [done|apply only_labels_refl|done|done].
  - destruct Hk as (_ & _ & _ & _ & _ & [Hk|Hk]); [congruence|].
    destruct (ensure_ok a k m Hk) as (m' & Hm & Ho & Hi & Ht). exists m'. by rewrite Hid in Ht.
Qed.

Lemma opposite_ok a l k o m :
  ∃ m', (match o, k with
         | Add, GraphImportance level =>
             ensure_typed_tag_label a (GraphImportance (importance_opposite level));; mret ()
         | _, _ => mret ()
         end) m = (@inr str unit (), m') ∧
    only_labels m m' ∧ intents m' = intents m ∧
    (label_there a l m = true → Forall (λ i : label_intent, label_there a i.1 m' = true) (label_intents l k o)).
Proof.
  destruct (label_intents_cases l k o) as [[-> Hk]|(v & -> & -> & ->)].
  - exists m. split_and!; [|apply only_labels_refl|done|intros Hl; by repeat constructor].
    destruct o, k; try done. destruct Hk as [Hk|Hk]; [done|by destruct (Hk level)].
  - destruct (ensure_ok a (GraphImportance (importance_opposite v)) m) as (m' & Hm & Ho & Hi & Ht); [done|].
    exists m'. unfold mbind, Sql_bind. rewrite Hm. split_and!; [done..|].
    intros Hl. repeat constructor; [exact Ht|]. by apply Ho.
Qed.

Lemma label_local_rows_ok a t l o k r now m :
  label_known a l k m → threads m !! (a, t) = Some r →
  ∃ m', label_local_rows a t l o now m =
      (inr (inr (mkLocalStep k (label_intents l k o) (label_membership_generation r))), m') ∧
    step_done a t (label_intents l k o) (label_membership_generation r) m m'.
Proof.
  intros Hk Hr. unfold label_local_rows. unfold mbind at 1, Sql_bind at 1. rewrite (label_kind_known _ _ _ _ Hk).
  unfold mbind at 1, Sql_bind at 1. cbn [db_query]. unfold mbind at 1, Sql_bind at 1.
  destruct (ensured_ok a l k m Hk) as (m1 & Hm1 & Ho1 & Hi1 & Ht1). rewrite Hm1.
  unfold mbind at 1, Sql_bind at 1.
  destruct (opposite_ok a l k o m1) as (m2 & Hm2 & Ho2 & Hi2 & Ht2). rewrite Hm2.
  destruct (upsert_pending_ok a t (label_intents l k o) now m2 r) as (m3 & Hm3 & Ho3 & Hst & Hth & Hk3).
  { apply label_intents_nodup. by eapply label_known_id. }
  { by rewrite (proj1 (only_labels_fields _ _ Ho2)), (proj1 (only_labels_fields _ _ Ho1)). }
  { by apply Ht2. }
  exists m3. unfold mbind, Sql_bind. rewrite Hm3. split; [done|]. split_and!; [|done|done|].
  - eapply only_labels_trans; [exact Ho1|]. by eapply only_labels_trans.
  - intros k' Hk'. rewrite Hk3 by done. by rewrite Hi2, Hi1.
Qed.

Lemma label_local_step_ok `{Runtime} a t l o k r w :
  label_known a l k (mb w) → threads (mb w) !! (a, t) = Some r →
  ∃ m', label_local_step a t l o w =
      Some (inr (mkLocalStep k (label_intents l k o) (label_membership_generation r)), after_reads w m' 1) ∧
    step_done a t (label_intents l k o) (label_membership_generation r) (mb w) m'.
Proof.
  intros Hk Hr.
  destruct (label_local_rows_ok a t l o k r (clock (clock_reads w)) (mb w) Hk Hr) as (m' & Hm & Hs).
  exists m'. split; [|done]. unfold label_local_step, with_write_mapped, with_write, on_db, now_epoch, mbind, M_bind.
  cbn [mb]. rewrite Hm. unfold after_reads. rewrite Nat.add_1_r. done.
Qed.

(** ** Intents settled *)

Lemma same_intent_true o g r : same_intent o g r = true ↔ intent_op r = o ∧ generation_seen r = g.
Proof. unfold same_intent. rewrite andb_true_iff, bool_decide_eq_true, Z.eqb_eq. done. Qed.

(** Statements that touch no more than the intents. *)
Definition only_intents (m m' : mailbox) : Prop := m' = set_intents (λ _, intents m') m.

Lemma only_intents_trans m1 m2 m3 : only_intents m1 m2 → only_intents m2 m3 → only_intents m1 m3.
Proof. unfold only_intents. intros Ha Hb. by rewrite Hb, Ha. Qed.

Lemma db_each_intents {A} (f : A → gmap key3 Intent → gmap key3 Intent) l m :
  db_each (λ i, db_update (set_intents (f i))) l m =
  (inr (), set_intents (λ t, foldl (λ t i, f i t) t l) m).
Proof.
  revert m. induction l as [|i l IH]; intros m; [by destruct m|].
  cbn [db_each foldl]. unfold mbind, Sql_bind. cbn [db_update]. unfold db_update. by rewrite IH.
Qed.

(** A row under the label of an intent of a list keeps saying the same. *)
Lemma attached_row (a t : str) (g : Z) (action : str) (now : Z) (ii : list label_intent) (s : gmap key3 Intent) (l : str) o r :
  s !! (a, t, l) = Some r → same_intent o g r = true →
  let s' := foldl (λ (s : gmap key3 Intent) (i : label_intent), alter (attach_row i.2 g action now) (a, t, i.1) s) s ii in
  ∃ r', s' !! (a, t, l) = Some r' ∧ same_intent o g r' = true ∧
    ((l, o) ∈ ii ∨ action_id r = Some action → action_id r' = Some action).
Proof.
  revert s r. induction ii as [|[l' o'] ii IH]; intros s r Hs Hr; cbn [foldl fst snd].
  - exists r. split_and!; [done..|]. intros [Hi|Hi]; [by apply elem_of_nil in Hi|done].
  - destruct (decide (l' = l)) as [->|Hl].
    + destruct (IH (alter (attach_row o' g action now) (a, t, l) s) (attach_row o' g action now r)) as (r' & Hr' & Hsame & Hact).
      { by rewrite lookup_alter_eq, Hs. }
      { unfold attach_row. destruct (same_intent o' g r); [|done]. by rewrite same_intent_true in *. }
      exists r'. split_and!; [done..|]. intros Hor. apply Hact. unfold attach_row.
      destruct (same_intent o' g r) eqn:E; [by right|]. destruct Hor as [[[= Ho]|Hi]%elem_of_cons|Ha]; [|by left|by right].
      subst o'. congruence.
    + destruct (IH (alter (attach_row o' g action now) (a, t, l') s) r) as (r' & Hr' & Hsame & Hact).
      { rewrite lookup_alter_ne; [done|]. by intros [=]. } { done. }
      exists r'. split_and!; [done..|]. intros [[[= -> _]|Hi]%elem_of_cons|Ha]; [done|apply Hact; by left|apply Hact; by right].
Qed.

Lemma clear_spec (a t : str) (g : Z) (ii : list label_intent) (s : gmap key3 Intent) (l : str) o :
  (∀ r, s !! (a, t, l) = Some r → same_intent o g r = true) → ((l, o) ∈ ii ∨ s !! (a, t, l) = None) →
  foldl (λ s (i : label_intent), delete_intent (a, t, i.1) i.2 g s) s ii !! (a, t, l) = None.
Proof.
  revert s. induction ii as [|[l' o'] ii IH]; intros s Hs Hor; cbn [foldl fst snd].
  - destruct Hor as [Hi|?]; [by apply elem_of_nil in Hi|done].
  - assert (∀ j, delete_intent (a, t, l') o' g s !! j = s !! j ∨ delete_intent (a, t, l') o' g s !! j = None) as Hd.
    { intros j. unfold delete_intent. destruct (s !! (a, t, l')) as [r|]; [|by left]. destruct (same_intent _ _ _); [|by left].
      destruct (decide (j = (a, t, l'))) as [->|]; [right; by rewrite lookup_delete_eq|left; by rewrite lookup_delete_ne]. }
    apply IH.
    + intros r Hr. destruct (Hd (a, t, l)) as [E|E]; rewrite E in Hr; [by apply Hs|done].
    + destruct Hor as [[[= -> ->]|Hi]%elem_of_cons|Hn]; [|by left|].
      * right. unfold delete_intent. destruct (s !! (a, t, l')) as [r|] eqn:E; [|done].
        rewrite (Hs r eq_refl). apply lookup_delete_eq.
      * right. destruct (Hd (a, t, l)) as [E|E]; congruence.
Qed.

(** A list of updates and deletions under the keys of a list leaves the others. *)
Lemma foldl_others (f : label_intent → gmap key3 Intent → gmap key3 Intent) (a t : str) (ii : list label_intent) (s : gmap key3 Intent) k :
  (∀ i s, k ≠ (a, t, i.1) → f i s !! k = s !! k) → (∀ i, i ∈ ii → k ≠ (a, t, i.1)) →
  foldl (λ s i, f i s) s ii !! k = s !! k.
Proof.
  intros Hf. revert s. induction ii as [|i ii IH]; intros s Hk; [done|]. cbn [foldl].
  rewrite IH; [apply Hf, Hk, list_elem_of_here|]. intros j Hj. by apply Hk, list_elem_of_further.
Qed.

Lemma attach_others (a t : str) (g : Z) (action : str) (now : Z) (i : label_intent) (s : gmap key3 Intent) k :
  k ≠ (a, t, i.1) → alter (attach_row i.2 g action now) (a, t, i.1) s !! k = s !! k.
Proof. intros Hk. by rewrite lookup_alter_ne by done. Qed.

Lemma delete_others (a t : str) (g : Z) (i : label_intent) (s : gmap key3 Intent) k :
  k ≠ (a, t, i.1) → delete_intent (a, t, i.1) i.2 g s !! k = s !! k.
Proof.
  intros Hk. unfold delete_intent. destruct (s !! (a, t, i.1)); [|done]. destruct (same_intent _ _ _); [|done].
  by rewrite lookup_delete_ne by done.
Qed.

(** Clearing what the truth satisfies changes nothing the user sees. *)
Lemma finalized_visible a t m k : user_visible (finalized a t m) k = user_visible m k.
Proof.
  unfold user_visible, finalized. set (m1 := bumped a t m). cbn [intents set_intents thread_labels].
  change (intents m1) with (intents m). change (thread_labels m1) with (thread_labels m).
  destruct (intents m !! k) as [r|] eqn:E.
  - destruct (clearable m1 a t k r) eqn:Ec.
    + rewrite map_lookup_filter_None_2 by (right; intros r' Hr'; cbn; congruence).
      unfold clearable in Ec. apply andb_true_iff in Ec as [_ Ec]. destruct (threads m1 !! (a, t)); [|done].
      apply andb_true_iff in Ec as [_ Ec]. unfold satisfied in Ec. change (thread_labels m1) with (thread_labels m) in Ec.
      destruct (intent_op r); [done|]. rewrite bool_decide_eq_true in Ec. by apply bool_decide_eq_false_2.
    + erewrite map_lookup_filter_Some_2; [done|exact E|exact Ec].
  - rewrite map_lookup_filter_None_2 by (by left). done.
Qed.

(** An intent the truth satisfies is cleared. *)
Lemma finalized_cleared a t m l o g r :
  threads m !! (a, t) = Some r → g = label_membership_generation r →
  stated a t (l, o) g None m → in_truth m (a, t) l = bool_decide (o = Add) →
  intents (finalized a t m) !! (a, t, l) = None.
Proof.
  intros Hr -> (x & Hx & Hop & Hg & _) Ht. cbn [fst snd] in Hx, Hop. unfold finalized. set (m1 := bumped a t m).
  cbn [intents set_intents]. change (intents m1) with (intents m). apply map_lookup_filter_None_2. right.
  intros y Hy. rewrite Hx in Hy. injection Hy as <-. cbn. unfold clearable. rewrite bool_decide_eq_true_2 by done. cbn [andb].
  unfold m1, bumped at 1. cbn [threads set_threads]. rewrite lookup_alter_eq, Hr. cbn [fmap option_fmap option_map].
  rewrite (proj2 (Z.ltb_lt _ _)) by (cbn; lia). cbn [andb].
  unfold satisfied. rewrite Hop. change (thread_labels (bumped a t m)) with (thread_labels m).
  unfold in_truth in Ht. destruct o; cbn in Ht.
  - rewrite Ht. done.
  - rewrite bool_decide_eq_true_2; [done|]. by apply bool_decide_eq_false in Ht.
Qed.

(** ** One label through the engine *)

Section label.
Context `{Engine, Json, Runtime}.

(** Only calls have been made. *)
Definition called (w : world) (cs : list EngineCall) : world :=
  World (mb w) (in_flight w) cs (receipts w) (clock_reads w) (ids_made w).

Lemma engine_each_runs cs w : ∃ r cs', engine_each cs w = Some (r, called w cs').
Proof.
  revert w. induction cs as [|c cs IH]; intros w; cbn [engine_each].
  - exists (inr ()), (calls w). by destruct w.
  - unfold mbind, M_bind, engine. cbn. destruct (engine_answer _) as [e|].
    + by eexists _, _.
    + destruct (IH (called w (calls w ++ [c]))) as (r & cs' & Hr). exists r, cs'. exact Hr.
Qed.

Lemma dispatch_label_runs acc a k add ids w : ∃ r cs', dispatch_label_engine acc a k add ids w = Some (r, called w cs').
Proof.
  destruct k; cbn [dispatch_label_engine bifrost_label_for_kind]; apply engine_each_runs.
Qed.

Lemma resolve_runs a t p w : ∃ r, resolve_thread_messages a t p w = Some (r, w).
Proof.
  unfold resolve_thread_messages, with_write, on_db, mbind, M_bind, db_query. cbn. eexists. by destruct w.
Qed.

(** What the remote half comes to: the truth, or an error and nothing else. *)
Definition remote_half (a t : str) (ii : list label_intent) (w : world) (o : ActionOutcome) (w' : world) : Prop :=
  ∃ cs, match o with
  | Success => ∃ m1, db_each (confirm_intent a t) ii (mb w) = (inr (), m1) ∧
      w' = World (finalized a t m1) (in_flight w) cs (receipts w) (clock_reads w) (ids_made w)
  | LocalOnly e b => b = is_retryable e ∧ w' = called w cs
  | NoOp | Failed _ => False
  end.

Lemma confirm_runs a t ii m1 w :
  db_each (confirm_intent a t) ii (mb w) = (inr (), m1) →
  confirm_provider_intents a t ii w =
  Some (inr (), World (finalized a t m1) (in_flight w) (calls w) (receipts w) (clock_reads w) (ids_made w)).
Proof.
  intros Hm. unfold confirm_provider_intents, with_write, on_db.
  assert (transaction (confirmed_provider_label_intents a t ii) (mb w) = (inr (), finalized a t m1)) as Ht.
  { unfold transaction. by rewrite (confirmed_eq _ _ _ _ _ Hm). }
  unfold mbind, M_bind. by rewrite Ht.
Qed.

Lemma dispatch_and_confirm_runs acc a t k add ii ids w :
  confirmable a t ii (mb w) →
  ∃ o w', dispatch_and_confirm acc a t k add ii ids w = Some (o, w') ∧ remote_half a t ii w o w'.
Proof.
  intros Hc. unfold dispatch_and_confirm. unfold mbind at 1, M_bind at 1.
  destruct (dispatch_label_runs acc a k add ids w) as (r & cs & ->). destruct r as [e|[]].
  - eexists _, _. split; [done|]. by exists cs.
  - destruct (confirm_each_truth a t ii (mb w) Hc) as (m1 & Hm1 & _).
    unfold mbind, M_bind. rewrite (confirm_runs _ _ _ m1) by exact Hm1.
    eexists _, _. split; [done|]. exists cs. by exists m1.
Qed.

(** The row of a label intent is in the queue under its new identifier. *)
Definition queued (a t : str) (add : bool) (i : str) (m : mailbox) : Prop :=
  ∃ row, pending_operations m !! i = Some row ∧ op_live row ∧ live_key row = (a, t, label_type add).

Lemma enqueue_ok i a ty r ps retries now m :
  is_Some (accounts m !! a) → pending_operations m !! i = None →
  db_pending_ops_enqueue_sync i a ty r ps retries now m =
  (inr (), set_pending (λ t, <[i := mkPendingOp a ty r ps Pending 0 retries None now None]> (filter (λ e, ¬ live_for a r ty e.2) t)) m).
Proof.
  intros Ha Hi. unfold db_pending_ops_enqueue_sync, insert_pending, mbind, Sql_bind, db_query, db_update.
  cbn [pending_operations set_pending accounts].
  rewrite bool_decide_eq_true_2 by (by rewrite map_lookup_filter_None_2; [|left]).
  by rewrite bool_decide_eq_true_2 by done.
Qed.

(** The end of a failed dispatch that may be retried. *)
Lemma finalize_retryable a t l add g ii e w :
  is_retryable e = true → is_Some (accounts (mb w) !! a) →
  pending_operations (mb w) !! new_v4 (ids_made w) = None →
  (l, intent_op_of add) ∈ ii → stated a t (l, intent_op_of add) g None (mb w) →
  ∃ w', finalize_dispatch_outcome false a t (label_type add) (label_params l) ii g (LocalOnly e true) true w = Some ((), w') ∧
    in_flight w' = in_flight w ∧ thread_labels (mb w') = thread_labels (mb w) ∧
    (∀ k, (∀ i, i ∈ ii → k ≠ (a, t, i.1)) → intents (mb w') !! k = intents (mb w) !! k) ∧
    queued a t add (new_v4 (ids_made w)) (mb w') ∧
    stated a t (l, intent_op_of add) g (Some (new_v4 (ids_made w))) (mb w').
Proof.
  intros He Ha Hi Hin (r & Hr & Hop & Hg & _). cbn [fst snd] in Hr, Hop.
  unfold finalize_dispatch_outcome, enqueue_if_retryable_with_id. rewrite He. cbn [negb].
  unfold mbind, M_bind, fresh_id, now_epoch, with_write, on_db, mbind, M_bind. cbn [mb ids_made clock_reads].
  rewrite (enqueue_ok _ _ _ _ _ _ _ _ Ha Hi). cbn.
  unfold attach_pending_action_id, mbind, M_bind, now_epoch, with_write, on_db, attach_action_id_to_pending_thread_label_intents,
    mbind, M_bind. cbn [mb clock_reads].
  rewrite db_each_intents. cbn [db_err].
  eexists. split; [done|]. cbn. split_and!; [done..| | |].
  - intros k Hk. apply (foldl_others _ a t); [|exact Hk]. intros i s Hne. by apply attach_others.
  - eexists. split; [apply lookup_insert_eq|]. by split.
  - destruct (attached_row a t g (new_v4 (ids_made w)) (clock (S (clock_reads w))) ii (intents (mb w)) l (intent_op_of add) r)
      as (r' & Hr' & Hs & Hact); [done|by apply same_intent_true|].
    apply same_intent_true in Hs as [Hs1 Hs2]. exists r'. cbn. split_and!; [exact Hr'|done|done|]. apply Hact. by left.
Qed.

(** The end of one that may not. *)
Lemma finalize_permanent a t l add g ii e ty ps w :
  (l, intent_op_of add) ∈ ii → stated a t (l, intent_op_of add) g None (mb w) →
  ∃ w', finalize_dispatch_outcome false a t ty ps ii g (LocalOnly e false) true w = Some ((), w') ∧
    in_flight w' = in_flight w ∧ thread_labels (mb w') = thread_labels (mb w) ∧
    (∀ k, (∀ i, i ∈ ii → k ≠ (a, t, i.1)) → intents (mb w') !! k = intents (mb w) !! k) ∧
    intents (mb w') !! (a, t, l) = None.
Proof.
  intros Hin (r & Hr & Hop & Hg & _). cbn [fst snd] in Hr, Hop.
  unfold finalize_dispatch_outcome, clear_pending_intents_immediate, with_write, on_db,
    delete_pending_thread_label_intents_for_labels, mbind, M_bind.
  rewrite db_each_intents. eexists. split; [done|]. cbn. split_and!; [done..| |].
  - intros k Hk. apply (foldl_others _ a t); [|exact Hk]. intros i s Hne. by apply delete_others.
  - apply (clear_spec a t g ii (intents (mb w)) l (intent_op_of add)); [|by left].
    intros r' Hr'. rewrite Hr in Hr'. injection Hr' as <-. by apply same_intent_true.
Qed.
End label.

(** ** The life of a label intent *)

Section lifecycle.
Context `{Engine, Json, Runtime}.

Definition truth_side (acc : option ResidentActionAccount) (a t : str) (step : LocalLabelStep) (add : bool)
    : M ActionOutcome :=
  match acc with
  | None => mret (LocalOnly (remote resident_unavailable) true)
  | Some acc =>
      ids ← resolve_thread_messages a t (provider acc);
      match ids with
      | inl e => mret (LocalOnly e (is_retryable e))
      | inr ids => dispatch_and_confirm acc a t (label_kind step) add (step_intents step) ids
      end
  end.

Lemma truth_side_runs acc a t step add w :
  confirmable a t (step_intents step) (mb w) →
  ∃ o w', truth_side acc a t step add w = Some (o, w') ∧ remote_half a t (step_intents step) w o w'.
Proof.
  intros Hc. unfold truth_side. destruct acc as [acc|].
  - unfold mbind, M_bind. destruct (resolve_runs a t (provider acc) w) as [[e|ids] ->].
    + eexists _, _. split; [done|]. exists (calls w). by destruct w.
    + by apply dispatch_and_confirm_runs.
  - eexists _, _. split; [done|]. exists (calls w). by destruct w.
Qed.

(** What the user sees of a label under an intent. *)
Lemma stated_visible a t l add g action m :
  stated a t (l, intent_op_of add) g action m → user_visible m (a, t, l) = add.
Proof. intros (r & Hr & Hop & _). cbn in Hr, Hop. unfold user_visible. rewrite Hr, Hop. by destruct add. Qed.

Lemma same_visible m m' k :
  thread_labels m' = thread_labels m → intents m' !! k = intents m !! k → user_visible m' k = user_visible m k.
Proof. unfold user_visible. by intros -> ->. Qed.

(** Every way a label action on a known label and thread can end. *)
Definition label_ended (a t l : str) (k : LabelKind) (add : bool) (i : str) (m : mailbox) (o : ActionOutcome)
    (m' : mailbox) : Prop :=
  match o with
  | Success =>
      in_truth m' (a, t) l = add ∧ intents m' !! (a, t, l) = None ∧ user_visible m' (a, t, l) = add
  | LocalOnly e true =>
      is_retryable e = true ∧ thread_labels m' = thread_labels m ∧ user_visible m' (a, t, l) = add ∧
      queued a t add i m' ∧ ∃ g, stated a t (l, intent_op_of add) g (Some i) m'
  | LocalOnly e false =>
      is_retryable e = false ∧ thread_labels m' = thread_labels m ∧ intents m' !! (a, t, l) = None ∧
      user_visible m' (a, t, l) = in_truth m (a, t) l
  | NoOp | Failed _ => False
  end ∧
  ∀ x, (∀ j, j ∈ label_intents l k (intent_op_of add) → x ≠ (a, t, j.1)) → user_visible m' x = user_visible m x.

Lemma truth_own l k o b : label_storage_id k = l → truth (label_intents l k o) l b = bool_decide (o = Add).
Proof.
  intros <-. destruct (label_intents_cases (label_storage_id k) k o) as [[-> _]|(v & -> & -> & ->)].
  - unfold truth. cbn [foldl fst snd]. by rewrite decide_True by done.
  - unfold truth. cbn [foldl fst snd label_storage_id]. by rewrite (decide_True (P := importance_label_id v = _)) by done.
Qed.

Lemma truth_other ii l b : (∀ i, i ∈ ii → i.1 ≠ l) → truth ii l b = b.
Proof.
  unfold truth. revert b. induction ii as [|i ii IH]; intros b Hi; [done|]. cbn [foldl].
  rewrite decide_False by (apply Hi, list_elem_of_here). apply IH. intros j Hj. by apply Hi, list_elem_of_further.
Qed.

Lemma label_lifecycle acc a t l add k r w :
  label_known a l k (mb w) → threads (mb w) !! (a, t) = Some r →
  pending_operations (mb w) !! new_v4 (ids_made w) = None →
  ∃ o w', dispatch_label_via_engine false acc a t l add w = Some (o, w') ∧ in_flight w' = in_flight w ∧
    label_ended a t l k add (new_v4 (ids_made w)) (mb w) o (mb w').
Proof.
  intros Hk Hr Hi. set (o := intent_op_of add). set (ii := label_intents l k o). set (g := label_membership_generation r).
  assert (is_Some (accounts (mb w) !! a)) as Hacc by (destruct Hk as (text & _ & Ha & _); by exists text).
  pose proof (label_known_id _ _ _ _ Hk) as Hid.
  destruct (label_local_step_ok a t l o k r w Hk Hr) as (m1 & Hstep & Hol & Hst & Hth & Hoth).
  fold ii g in Hstep, Hst, Hth, Hoth.
  destruct (only_labels_fields _ _ Hol) as (Hf1 & Hf2 & _ & Hf4 & Hf5).
  set (w1 := after_reads w m1 1) in *. set (step := mkLocalStep k ii g) in *.
  assert (stated a t (l, o) g None m1) as Hown by (rewrite Forall_forall in Hst; apply Hst, label_intents_own).
  assert (confirmable a t ii m1) as Hc.
  { split; [unfold thread_there; by rewrite Hf1, Hr|]. eapply Forall_impl; [exact Hth|]. done. }
  unfold dispatch_label_via_engine. unfold mbind at 1, M_bind at 1. fold o. rewrite Hstep.
  unfold mbind at 1, M_bind at 1. fold (truth_side acc a t step add).
  destruct (truth_side_runs acc a t step add w1 Hc) as (out & w2 & Hout & cs & Hhalf).
  change (match acc with Some acc => _ | None => _ end) with (truth_side acc a t step add). rewrite Hout.
  unfold mbind, M_bind. destruct out as [| |e b|e]; [| done| |done].
  - destruct Hhalf as (m2 & Hm2 & ->). eexists _, _. split; [done|]. split; [done|]. cbn [mb].
    destruct (confirm_each_truth a t ii m1 Hc) as (m2' & Hm2' & (_ & Hth2 & _ & _ & Hin2 & _) & Htr).
    change (db_each (confirm_intent a t) ii m1 = (inr (), m2)) in Hm2. rewrite Hm2' in Hm2. injection Hm2 as ->.
    assert (in_truth m2 (a, t) l = add) as Hadd.
    { rewrite Htr, decide_True by done. unfold ii. rewrite truth_own by done. unfold o. by destruct add. }
    split; [split_and!|].
    + exact Hadd.
    + eapply (finalized_cleared a t m2 l o g); [by rewrite Hth2, Hf1|done| |].
      * destruct Hown as (x & Hx & Hx'). exists x. by rewrite Hin2.
      * rewrite Hadd. unfold o. by destruct add.
    + rewrite finalized_visible. eapply (stated_visible a t l add g None).
      destruct Hown as (x & Hx & Hx'). exists x. by rewrite Hin2.
    + intros x Hx. rewrite finalized_visible. unfold user_visible. rewrite Hin2, (Hoth x Hx).
      destruct (intents (mb w) !! x) as [y|]; [done|]. destruct x as [x l'].
      specialize (Htr x l'). unfold in_truth in Htr. rewrite Htr. case_decide as Hxa; [|by rewrite Hf2].
      subst x. rewrite truth_other; [by rewrite Hf2|]. intros j Hj <-. by apply (Hx j Hj).
  - destruct Hhalf as [-> ->]. destruct (is_retryable e) eqn:He.
    + destruct (finalize_retryable a t l add g ii e (called w1 cs)) as (w3 & Hw3 & Hfl & Htl & Hk3 & Hq & Hs3); try done.
      { cbn. by rewrite Hf4. } { cbn. by rewrite Hf5. } { apply label_intents_own. }
      cbn [step_intents step_generation step] in Hw3 |- *. rewrite Hw3. eexists _, _. split; [done|].
      split; [done|]. split; [split_and!|].
      * done.
      * by rewrite Htl, <-Hf2.
      * by eapply stated_visible.
      * exact Hq.
      * by exists g.
      * intros x Hx. apply same_visible; [by rewrite Htl, <-Hf2|]. rewrite Hk3 by done. cbn. by apply Hoth.
    + destruct (finalize_permanent a t l add g ii e (label_type add) (label_params l) (called w1 cs))
        as (w3 & Hw3 & Hfl & Htl & Hk3 & Hn); [apply label_intents_own|done|].
      cbn [step_intents step_generation step] in Hw3 |- *. rewrite Hw3. eexists _, _. split; [done|].
      split; [done|]. split; [split_and!|].
      * done.
      * by rewrite Htl, <-Hf2.
      * exact Hn.
      * unfold user_visible, in_truth. by rewrite Hn, Htl, <-Hf2.
      * intros x Hx. apply same_visible; [by rewrite Htl, <-Hf2|]. rewrite Hk3 by done. cbn. by apply Hoth.
Qed.

(** ** Refusals by name space *)

(** The column of a folder's rights that an operation needs. *)
Definition needed_right (op : MailOperation) : option (FolderRow → option Z) :=
  match op with
  | SetRead _ => Some right_set_seen
  | SetStarred _ => Some right_set_keywords
  | AddLabel _ | RemoveLabel _ => Some right_set_keywords
  | ApplyLabelGroup _ | RemoveLabelGroup _ => Some right_set_keywords
  | Archive | Trash | PermanentDelete => Some right_remove
  | SetSpam _ | MoveToFolder _ _ => Some right_remove
  | SetPinned _ | SetMuted _ | Snooze _ | Unsnooze => None
  end.

(** A folder of the thread has no row or denies the right: the column is 0; no
    column is negative. *)
Definition right_denied (col : FolderRow → option Z) (m : mailbox) (a t : str) : Prop :=
  (∃ f, (a, t, f) ∈ thread_folders m ∧
     ∀ row, folders m !! (a, f) = Some row → col row = Some 0%Z) ∧
  ∀ f row v, (a, t, f) ∈ thread_folders m → folders m !! (a, f) = Some row → col row = Some v → (0 ≤ v)%Z.

(** What is refused on a thread: with a remote half, any operation on a public
    thread; on a shared one that of an account of JMAP, without the right, or out of
    its mailbox; on a personal one a move into a shared or a public folder. *)
Definition refused_on (r : Thread) (prov : str) (m : mailbox) (a t : str) (op : MailOperation) : Prop :=
  is_Some (needed_right op) ∧
  ((is_Some (namespace_id r) ∧ namespace_kind r = Some (slit "public")) ∨
   (∃ owner, namespace_id r = Some owner ∧ namespace_kind r = Some (slit "shared") ∧
      (prov = slit "jmap" ∨
       (∃ col, needed_right op = Some col ∧ right_denied col m a t) ∨
       ∃ dest source, op = MoveToFolder (Folder dest) source ∧ ¬ (SHARED_FOLDER_PREFIX ++ owner ++ slit ":") `prefix_of` dest)) ∨
   ((namespace_id r = None ∨ namespace_kind r ≠ Some (slit "shared") ∧ namespace_kind r ≠ Some (slit "public")) ∧
      ∃ dest source, op = MoveToFolder (Folder dest) source ∧
        (SHARED_FOLDER_PREFIX `prefix_of` dest ∨ PUBLIC_FOLDER_PREFIX `prefix_of` dest))).

Definition refused_by (m : mailbox) (a t : str) (op : MailOperation) : Prop :=
  ∃ r prov, threads m !! (a, t) = Some r ∧ accounts m !! a = Some prov ∧ refused_on r prov m a t op.

Lemma min_zero (l : list Z) d : (0 < d)%Z →
  match l with [] => d | r :: rs => foldr Z.min r rs end = 0%Z ↔ 0%Z ∈ l ∧ Forall (λ v, 0 ≤ v)%Z l.
Proof.
  intros Hd. destruct l as [|r rs]; [split; [lia|by intros [?%elem_of_nil _]]|].
  induction rs as [|x rs IH]; cbn [foldr].
  - rewrite list_elem_of_singleton, Forall_singleton. lia.
  - rewrite !elem_of_cons, !Forall_cons in *. destruct (decide (0 ≤ x)%Z) as [Hx|Hx].
    + destruct (decide (x = 0)%Z) as [->|Hne].
      * split; [|intros [_ (Hr & _ & Hf)]].
        -- intros Hm. split; [tauto|]. split_and!; [|done|].
           ++ enough (∀ l r, (foldr Z.min r l ≤ r)%Z) as Hle by (specialize (Hle rs r); lia).
              clear. induction l as [|y l IH]; intros r; cbn; [lia|]. specialize (IH r). lia.
           ++ apply Forall_forall. intros y Hy. enough (∀ l r, y ∈ l → (foldr Z.min r l ≤ y)%Z) as Hle by (specialize (Hle rs r Hy); lia).
              clear. induction l as [|z l IH]; intros r; [by intros ?%elem_of_nil|]. cbn. intros [->|Hy]%elem_of_cons; [lia|]. specialize (IH r Hy). lia.
        -- enough (∀ l r, Forall (λ v, 0 ≤ v)%Z l → (0 ≤ r)%Z → (0 ≤ foldr Z.min r l)%Z) as Hge by (specialize (Hge rs r Hf Hr); lia).
           clear. induction 1; intros; cbn; lia.
      * assert (Z.min x (foldr Z.min r rs) = 0 ↔ foldr Z.min r rs = 0)%Z as -> by lia. rewrite IH. naive_solver.
    + split; [lia|]. intros [_ (_ & ? & _)]. lia.
Qed.

Lemma thread_right_spec get m a t : thread_right get m a t = false ↔ right_denied get m a t.
Proof.
  unfold thread_right, right_denied. rewrite negb_false_iff, Z.eqb_eq, min_zero by lia.
  set (value := λ k : key3, match folders m !! (k.1.1, k.2) with Some f => default 1%Z (get f) | None => 0%Z end).
  change (@map ?A ?B) with (@fmap list _ A B). rewrite list_elem_of_fmap, Forall_fmap, Forall_forall.
  assert (∀ k, k ∈ elements (filter (λ k : key3, k.1 = (a, t)) (thread_folders m)) ↔ ∃ f, k = (a, t, f) ∧ (a, t, f) ∈ thread_folders m) as Hk.
  { intros [k f]. rewrite elem_of_elements, elem_of_filter. cbn. naive_solver. }
  setoid_rewrite Hk. f_equiv.
  - split.
    + intros (k & Hv & f & -> & Hf). exists f. split; [done|]. intros row Hrow. unfold value in Hv. cbn in Hv. rewrite Hrow in Hv.
      destruct (get row); cbn in Hv; [by rewrite Hv|done].
    + intros (f & Hf & Hrow). exists (a, t, f). split; [|by exists f]. unfold value. cbn.
      destruct (folders m !! (a, f)) as [row|]; [by rewrite Hrow|done].
  - split.
    + intros Hv f row v Hf Hrow Hg. specialize (Hv (a, t, f) (ex_intro _ f (conj eq_refl Hf))). unfold value in Hv. cbn in Hv. by rewrite Hrow, Hg in Hv.
    + intros Hv k (f & -> & Hf). unfold value. cbn. destruct (folders m !! (a, f)) as [row|] eqn:Hrow; [|lia].
      destruct (get row) as [v|] eqn:Hg; cbn; [by eapply Hv|lia].
Qed.

Lemma permitted_spec m a t op :
  permitted_by (mkRights (thread_right right_remove m a t) (thread_right right_set_seen m a t)
                         (thread_right right_set_keywords m a t)) op = false ↔
  ∃ col, needed_right op = Some col ∧ right_denied col m a t.
Proof. destruct op; cbn; rewrite ?thread_right_spec; naive_solver. Qed.

Lemma starts_with_prefix p s : starts_with p s = true ↔ p `prefix_of` s.
Proof. rewrite starts_with_spec. done. Qed.

Lemma namespace_answer_spec m a t op :
  (∃ e, namespace_answer m a t op = inl e) ↔ refused_by m a t op.
Proof.
  unfold namespace_answer, refused_by. destruct (threads m !! (a, t)) as [r|]; [|split; [by intros [e He]|naive_solver]].
  destruct (accounts m !! a) as [prov|]; [|split; [by intros [e He]|naive_solver]].
  assert ((∃ e, match validate_namespace_action (attribution_of r) prov
      (mkRights (thread_right right_remove m a t) (thread_right right_set_seen m a t) (thread_right right_set_keywords m a t)) op with
      | Some e => inl e | None => inr (attribution_of r) end = inl e) ↔
    is_local_only op = false ∧
    match attribution_of r with
    | AttrPublic _ => True
    | AttrShared owner => prov = jmap_text ∨ (∃ col, needed_right op = Some col ∧ right_denied col m a t) ∨
        ∃ dest source, op = MoveToFolder dest source ∧ starts_with (SHARED_FOLDER_PREFIX ++ owner ++ slit ":") (folder_str dest) = false
    | AttrPersonal => ∃ dest source, op = MoveToFolder dest source ∧
        (starts_with SHARED_FOLDER_PREFIX (folder_str dest) = true ∨ starts_with PUBLIC_FOLDER_PREFIX (folder_str dest) = true)
    end) as Hv.
  { unfold validate_namespace_action. destruct (is_local_only op); [naive_solver|].
    destruct (attribution_of r) as [|owner|]; cbn [andb].
    - destruct op as [| | | | | | | |dest source| | | | | |]; try (split; [intros [? ?]; done|intros [_ (? & ? & ? & _)]; done]).
      unfold same_namespace. destruct (starts_with SHARED_FOLDER_PREFIX _) eqn:Es; cbn [negb andb].
      { split; [|intros _; by eexists]. intros _. split; [done|]. exists dest, source. split; [done|by left]. }
      destruct (starts_with PUBLIC_FOLDER_PREFIX _) eqn:Ep; cbn [negb].
      { split; [|intros _; by eexists]. intros _. split; [done|]. exists dest, source. split; [done|by right]. }
      split; [intros [? ?]; done|]. intros [_ (d & s & [= -> ->] & [Hd|Hd])]; congruence.
    - rewrite <-permitted_spec. case_bool_decide as Hj; [split; [intros _; split; [done|by left]|intros _; by eexists]|].
      destruct (permitted_by _ op) eqn:Hp; cbn [negb]; [|split; [intros _; split; [done|right; by left]|intros _; by eexists]].
      destruct op as [| | | | | | | |dest source| | | | | |];
        try (split; [intros [? ?]; done|intros [_ [?|[?|(? & ? & ? & ?)]]]; done]). unfold same_namespace.
      destruct (starts_with _ (folder_str dest)) eqn:E.
      + split; [intros [? ?]; done|]. intros [_ [?|[?|(d & s & [= -> ->] & Hd)]]]; [done..|]. by rewrite E in Hd.
      + split; [|intros _; by eexists]. intros _. split; [done|]. right. right. by exists dest, source.
    - split; [done|]. intros _. by eexists. }
  etrans; [exact Hv|]. clear Hv.
  transitivity (refused_on r prov m a t op); [|split; [intros Hr; by exists r, prov|by intros (? & ? & [= <-] & [= <-] & ?)]].
  unfold refused_on.
  assert (is_local_only op = false ↔ is_Some (needed_right op)) as ->.
  { destruct op; cbn; split; try done; try (by intros [? ?]); by eexists. }
  assert (∀ p s, starts_with p s = false ↔ ¬ p `prefix_of` s) as Hnp.
  { intros p s. rewrite <-starts_with_prefix. by destruct (starts_with p s). }
  unfold attribution_of. change (slit "shared") with shared_kind. change (slit "public") with public_kind.
  change (slit "jmap") with jmap_text.
  assert (shared_kind ≠ public_kind) as Hsp by discriminate.
  assert ((∃ dest source, op = MoveToFolder dest source ∧
      (starts_with SHARED_FOLDER_PREFIX (folder_str dest) = true ∨ starts_with PUBLIC_FOLDER_PREFIX (folder_str dest) = true)) ↔
    ∃ dest source, op = MoveToFolder (Folder dest) source ∧
      (SHARED_FOLDER_PREFIX `prefix_of` dest ∨ PUBLIC_FOLDER_PREFIX `prefix_of` dest)) as Hpers.
  { setoid_rewrite starts_with_prefix. split; [intros ([dest] & source & ? & ?)|intros (dest & source & ? & ?)].
    - by exists dest, source.
    - by exists (Folder dest), source. }
  assert (∀ o, (∃ dest source, op = MoveToFolder dest source ∧ starts_with (SHARED_FOLDER_PREFIX ++ o ++ slit ":") (folder_str dest) = false) ↔
    ∃ dest source, op = MoveToFolder (Folder dest) source ∧ ¬ (SHARED_FOLDER_PREFIX ++ o ++ slit ":") `prefix_of` dest) as Hsh.
  { intros o. setoid_rewrite Hnp. split; [intros ([dest] & source & ? & ?)|intros (dest & source & ? & ?)].
    - by exists dest, source.
    - by exists (Folder dest), source. }
  f_equiv. destruct (namespace_id r) as [i|], (namespace_kind r) as [k|]; 
    [destruct (decide (k = shared_kind)) as [->|Hks]; [|destruct (decide (k = public_kind)) as [->|Hkp]]|..].
  - rewrite Hsh. split.
    + intros Hr. right. left. by exists i.
    + intros [[_ [= ?]]|[(o & [= <-] & _ & Hr)|[[?|[? _]] _]]]; done.
  - split; [intros _; left; split; [by eexists|done]|done].
  - rewrite Hpers. split.
    + intros Hr. right. right. split; [right; split; congruence|done].
    + intros [[_ [= ?]]|[(o & _ & [= ?] & _)|[_ Hr]]]; done.
  - rewrite Hpers. split.
    + intros Hr. right. right. split; [by right|done].
    + intros [[_ ?]|[(o & _ & ? & _)|[_ Hr]]]; done.
  - rewrite Hpers. split.
    + intros Hr. right. right. split; [by left|done].
    + intros [[[? ?] _]|[(o & ? & _)|[_ Hr]]]; done.
  - rewrite Hpers. split.
    + intros Hr. right. right. split; [by left|done].
    + intros [[[? ?] _]|[(o & ? & _)|[_ Hr]]]; done.
Qed.

Lemma set_flights_back k w : k ∉ in_flight w → set_flights (.∖ {[ k ]}) (set_flights (.∪ {[ k ]}) w) = w.
Proof. intros Hk. destruct w. unfold set_flights. cbn in *. f_equal. set_solver. Qed.

Lemma preflight_eq a t op w : namespace_preflight a t op w = Some (namespace_answer (mb w) a t op, w).
Proof. unfold namespace_preflight, with_write, on_db, mbind, M_bind, db_query. cbn. destruct w. cbn. by destruct (namespace_answer _ _ _ _). Qed.

Lemma batch_refused suppress acc a t op e w :
  namespace_answer (mb w) a t op = inl e → flight_key a t ∉ in_flight w →
  resident_action_account (calls w) a = inr acc →
  batch_execute suppress true [(a, t, op)] w = Some ([Failed e], w).
Proof.
  intros He Hf Hacc.
  assert (is_local_only op = false) as Hlo.
  { destruct (proj1 (namespace_answer_spec (mb w) a t op)) as (r & prov & _ & _ & [? Hl] & _); [by exists e|].
    by destruct op. }
  unfold batch_execute. cbn [group_ops push_entry]. rewrite hash_order_single.
  unfold mbind at 1, M_bind at 1. cbn [collect fst snd]. unfold mbind at 1, M_bind at 1.
  unfold execute_account_group. cbn [forallb snd]. rewrite Hlo. cbn [andb negb].
  unfold mbind at 1, M_bind at 1. cbn [get_world]. rewrite Hacc.
  unfold group_by_engine. unfold mbind at 1, M_bind at 1. cbn [place_each].
  unfold mbind at 1, M_bind at 1. rewrite acquire_free by done. cbn [negb].
  unfold place. unfold mbind at 1, M_bind at 1, mbind at 1, M_bind at 1. rewrite preflight_eq. cbn [mb set_flights]. rewrite He.
  cbn. rewrite hash_order_nil. cbn. unfold release. unfold mbind, M_bind. cbn.
  rewrite set_flights_back by done. done.
Qed.

Lemma namespace_error m a t op e : namespace_answer m a t op = inl e → ∃ what, e = Remote NotImplemented what.
Proof.
  unfold namespace_answer. destruct (threads m !! (a, t)) as [r|]; [|done]. destruct (accounts m !! a) as [prov|]; [|done].
  destruct (validate_namespace_action _ _ _ _) as [e'|] eqn:Hv; [|done]. intros [= <-]. unfold validate_namespace_action in Hv.
  destruct (is_local_only op); [done|].
  destruct (attribution_of r); cbn [andb] in Hv;
    repeat (match type of Hv with
            | (if ?b then _ else _) = _ => destruct b
            | match ?o with _ => _ end = _ => destruct o
            end; try done); injection Hv as <-; unfold not_implemented; eauto.
Qed.
End lifecycle.

(** ** Statements that leave the queue alone *)

Definition keeps {A} (d : Sql A) : Prop := ∀ m, pending_operations (d m).2 = pending_operations m.

Lemma keeps_ret {A} (x : A) : keeps (mret x).
Proof. done. Qed.
Lemma keeps_fail {A} e : keeps (@db_fail A e).
Proof. done. Qed.
Lemma keeps_query {A} (f : mailbox → A) : keeps (db_query f).
Proof. done. Qed.
Lemma keeps_bind {A B} (d : Sql A) (f : A → Sql B) : keeps d → (∀ x, keeps (f x)) → keeps (d ≫= f).
Proof.
  intros Hd Hf m. unfold mbind, Sql_bind. specialize (Hd m). destruct (d m) as [[e|x] m']; [exact Hd|].
  cbn in Hd. rewrite <-Hd. apply Hf.
Qed.
Lemma keeps_update f : (∀ m, pending_operations (f m) = pending_operations m) → keeps (db_update f).
Proof. intros Hf m. apply Hf. Qed.
Lemma keeps_each {A} (f : A → Sql unit) l : (∀ x, keeps (f x)) → keeps (db_each f l).
Proof. intros Hf. induction l as [|x l IH]; [apply keeps_ret|]. by apply keeps_bind. Qed.
Lemma keeps_transaction {A} (d : Sql A) : keeps d → keeps (transaction d).
Proof. intros Hd m. unfold transaction. specialize (Hd m). by destruct (d m) as [[] ?]. Qed.

#[export] Hint Resolve keeps_ret keeps_fail keeps_query : keeps.

(** Statement by statement. *)
Ltac keep_queue :=
  repeat first
    [ solve [eauto with keeps]
    | apply keeps_bind; [|intros ?]
    | apply keeps_each; intros ?
    | apply keeps_transaction
    | apply keeps_update; intros ?; reflexivity
    | match goal with |- keeps (match ?x with _ => _ end) => destruct x end ].

Lemma keeps_remove_folder a t f : keeps (remove_folder a t f).
Proof. unfold remove_folder. keep_queue. Qed.
Lemma keeps_insert_folder a t f : keeps (insert_folder a t f).
Proof. unfold insert_folder. keep_queue. Qed.
Lemma keeps_bool_field get put a t v : keeps (set_thread_bool_field get put a t v).
Proof. unfold set_thread_bool_field. keep_queue. Qed.
#[export] Hint Resolve keeps_remove_folder keeps_insert_folder keeps_bool_field : keeps.

Lemma keeps_trash a t : keeps (trash_local a t).
Proof. unfold trash_local. keep_queue. Qed.
Lemma keeps_spam a t v : keeps (spam_local a t v).
Proof. unfold spam_local. keep_queue. Qed.
Lemma keeps_move a t d s : keeps (move_local a t d s).
Proof. unfold move_local. keep_queue. Qed.
Lemma keeps_mark_read a t v : keeps (mark_read_local a t v).
Proof. unfold mark_read_local, set_thread_read. keep_queue. Qed.
Lemma keeps_star a t v : keeps (star_rows a t v).
Proof. unfold star_rows, set_thread_starred, set_thread_messages_starred. keep_queue. Qed.
Lemma keeps_delete_thread a t : keeps (delete_thread a t).
Proof. apply keeps_update. intros m. by destruct (threads m !! (a, t)). Qed.
Lemma keeps_upsert a t ii action now : keeps (upsert_pending_thread_label_intents a t ii action now).
Proof. unfold upsert_pending_thread_label_intents, thread_generation, upsert_intent. keep_queue. Qed.
#[export] Hint Resolve keeps_trash keeps_spam keeps_move keeps_mark_read keeps_star keeps_delete_thread keeps_upsert : keeps.

Lemma keeps_ensure a k : keeps (ensure_typed_tag_label a k).
Proof. unfold ensure_typed_tag_label. keep_queue. Qed.
Lemma keeps_kind a l : keeps (label_kind_for_account_sync a l).
Proof. unfold label_kind_for_account_sync. keep_queue. Qed.
#[export] Hint Resolve keeps_ensure keeps_kind : keeps.

Lemma keeps_label_rows a t l o now : keeps (label_local_rows a t l o now).
Proof. unfold label_local_rows. keep_queue. Qed.
Lemma keeps_insert_or_ignore what has put fk `{!∀ m k, Decision (fk m k)} rows :
  (∀ r m, pending_operations (put r m) = pending_operations m) → keeps (insert_or_ignore what has put fk rows).
Proof. intros Hp. unfold insert_or_ignore. keep_queue. apply keeps_update. intros m. apply Hp. Qed.
Lemma keeps_confirm a t i : keeps (confirm_intent a t i).
Proof.
  destruct i as [l []]; cbn [confirm_intent]; unfold insert_thread_labels, insert_message_labels.
  - apply keeps_bind; [by apply keeps_insert_or_ignore|intros _; by apply keeps_insert_or_ignore].
  - keep_queue.
Qed.
#[export] Hint Resolve keeps_label_rows keeps_confirm : keeps.
Lemma keeps_confirmed a t ii : keeps (confirmed_provider_label_intents a t ii).
Proof.
  unfold confirmed_provider_label_intents. apply keeps_bind; [apply keeps_each; eauto with keeps|].
  intros _. unfold finalize_provider_truth_label_membership, bump_thread_label_membership_generation,
    clear_satisfied_pending_thread_label_intents. keep_queue.
Qed.
#[export] Hint Resolve keeps_confirmed : keeps.

(** ** The queue holds one live row per operation *)

Definition queue_ok (m : mailbox) : Prop :=
  ∀ i j o o', pending_operations m !! i = Some o → pending_operations m !! j = Some o' →
    op_live o → op_live o' → live_key o = live_key o' → i = j.

Definition queue_inv (m : mailbox) : Prop := queue_ok m ∧ counts_ok m.

Lemma queue_inv_same m m' : pending_operations m' = pending_operations m → queue_inv m → queue_inv m'.
Proof. unfold queue_inv, queue_ok, counts_ok. by intros ->. Qed.

Lemma queue_inv_shrink m m' : pending_operations m' ⊆ pending_operations m → queue_inv m → queue_inv m'.
Proof.
  intros Hs [Hq Hc]. split.
  - intros i j o o' Hi Hj. apply Hq; by eapply lookup_weaken.
  - intros i o Hi. apply (Hc i). by eapply lookup_weaken.
Qed.

Lemma queue_inv_insert i a ty r ps retries now m :
  queue_inv m → (∀ j o, pending_operations m !! j = Some o → ¬ live_for a r ty o) →
  queue_inv (set_pending <[i := mkPendingOp a ty r ps Pending 0 retries None now None]> m).
Proof.
  intros [Hq Hc] Hn.
  assert (∀ j o, pending_operations m !! j = Some o → op_live o → live_key o ≠ (a, r, ty)) as Hk.
  { intros j o Hj Hl [= Ha Hr Ht]. apply (Hn j o Hj). by repeat split. }
  split.
  - intros j k o o' Hj Hk'. cbn in Hj, Hk'. apply lookup_insert_Some in Hj as [[-> <-]|[Hij Hj]], Hk' as [[-> <-]|[Hik Hk']];
      intros Hl Hl' Hkey; [done| | |by eapply Hq].
    + exfalso. by apply (Hk k o').
    + exfalso. by apply (Hk j o).
  - apply map_Forall_insert_2; [cbn; lia|exact Hc].
Qed.

Lemma queue_inv_enqueue i a ty r ps retries now m :
  queue_inv m → queue_inv (db_pending_ops_enqueue_sync i a ty r ps retries now m).2.
Proof.
  intros Hi. unfold db_pending_ops_enqueue_sync, insert_pending, mbind, Sql_bind, db_update, db_query.
  set (m1 := set_pending _ m).
  assert (queue_inv m1) as H1 by (eapply queue_inv_shrink; [apply map_filter_subseteq|exact Hi]).
  destruct (_ && _); [|exact H1]. apply queue_inv_insert; [exact H1|].
  intros j o Hj. cbn in Hj. by apply map_lookup_filter_Some in Hj as [_ Hj].
Qed.

(** A failed attempt leaves the row what it was, but for the state. *)
Lemma attempt_failed_keeps now o :
  live_key (attempt_failed now o) = live_key o ∧ (op_live (attempt_failed now o) → op_state o = Pending → op_live o) ∧
  ((0 ≤ retry_count o)%Z → (0 ≤ retry_count (attempt_failed now o))%Z).
Proof.
  split; [apply live_key_attempt|]. unfold attempt_failed, op_live. destruct (_ <=? _)%Z; cbn; split; try lia; congruence.
Qed.

Lemma queue_inv_attempt now i o m :
  queue_inv m → pending_operations m !! i = Some o → op_state o = Pending → queue_inv (mailbox_attempt_failed now i o m).
Proof.
  intros [Hq Hc] Hi Hs. destruct (attempt_failed_keeps now o) as (Hk & Hl & Hn).
  assert (∀ j p, pending_operations (mailbox_attempt_failed now i o m) !! j = Some p → op_live p →
            ∃ p', pending_operations m !! j = Some p' ∧ op_live p' ∧ live_key p' = live_key p) as Hrow.
  { intros j p Hj Hp. destruct (decide (j = i)) as [->|Hne].
    - rewrite (attempt_failed_row _ _ _ _ Hi) in Hj. injection Hj as <-. exists o. by split_and!; [|apply Hl|].
    - rewrite attempt_failed_others in Hj by done. by exists p. }
  split.
  - intros j k p p' Hj Hk' Hp Hp' Heq. apply Hrow in Hj as (q & Hj & Hq1 & Hq2); [|done].
    apply Hrow in Hk' as (q' & Hk' & Hq1' & Hq2'); [|done]. eapply Hq; [exact Hj|exact Hk'|done..|congruence].
  - intros j p Hj. destruct (decide (j = i)) as [->|Hne].
    + rewrite (attempt_failed_row _ _ _ _ Hi) in Hj. injection Hj as <-. apply Hn, (Hc i), Hi.
    + rewrite attempt_failed_others in Hj by done. exact (Hc j p Hj).
Qed.

(** ** Runs that end, give the flights back and keep the queue *)

Definition steady {A} (m : M A) : Prop :=
  ∀ w, ∃ x w', m w = Some (x, w') ∧ in_flight w' = in_flight w ∧ (queue_inv (mb w) → queue_inv (mb w')).

Lemma steady_ret {A} (x : A) : steady (mret x).
Proof. intros w. by exists x, w. Qed.

Lemma steady_bind {A B} (m : M A) (f : A → M B) : steady m → (∀ x, steady (f x)) → steady (m ≫= f).
Proof.
  intros Hm Hf w. destruct (Hm w) as (x & w1 & E & Hi & Hq). destruct (Hf x w1) as (y & w2 & E2 & Hi2 & Hq2).
  exists y, w2. unfold mbind, M_bind. rewrite E. split_and!; [done|congruence|tauto].
Qed.

Lemma steady_on_db {A} (d : Sql A) : (∀ m, queue_inv m → queue_inv (d m).2) → steady (on_db d).
Proof. intros Hd w. unfold on_db. specialize (Hd (mb w)). destruct (d (mb w)) as [r m]. by eexists _, _. Qed.

Lemma steady_keeps {A} (d : Sql A) : keeps d → steady (on_db d).
Proof. intros Hd. apply steady_on_db. intros m. by apply queue_inv_same. Qed.

Lemma steady_write {A} (d : Sql A) : keeps d → steady (with_write d).
Proof. intros Hd. apply steady_bind; [by apply steady_keeps|intros; apply steady_ret]. Qed.

Lemma steady_mapped {A} (d : Sql (ActionError + A)) : keeps d → steady (with_write_mapped d).
Proof. intros Hd. apply steady_bind; [by apply steady_write|intros; apply steady_ret]. Qed.

Lemma steady_engine `{Engine} c : steady (engine c).
Proof. intros w. by eexists _, _. Qed.

Lemma steady_engine_each `{Engine} cs : steady (engine_each cs).
Proof.
  intros w. destruct (engine_each_runs cs w) as (r & cs' & Hr). by eexists _, _.
Qed.

Lemma steady_refresh `{Engine} a : steady (refresh a).
Proof.
  intros w. unfold refresh. pose proof (refresh_keeps_queue (calls w) a (mb w)) as Hq.
  destruct (refresh_containers (calls w) a (mb w)) as [r m]. eexists _, _. split; [done|]. split; [done|]. by apply queue_inv_same.
Qed.

Lemma steady_now `{Runtime} : steady now_epoch.
Proof. intros w. by eexists _, _. Qed.
Lemma steady_fresh `{Runtime} : steady fresh_id.
Proof. intros w. by eexists _, _. Qed.
Lemma steady_mdn a t : steady (send_mdn_for_read a t).
Proof. intros w. by eexists _, _. Qed.
Lemma steady_preflight a t op : steady (namespace_preflight a t op).
Proof. intros w. by eexists _, _; rewrite preflight_eq. Qed.
Lemma steady_resolve a t p : steady (resolve_thread_messages a t p).
Proof. intros w. destruct (resolve_runs a t p w) as (r & Hr). by eexists _, _. Qed.

#[export] Hint Resolve steady_ret steady_engine steady_engine_each steady_refresh steady_now steady_fresh steady_mdn
  steady_preflight steady_resolve : steady.
#[export] Hint Extern 1 (steady (with_write _)) => apply steady_write; solve [keep_queue] : steady.
#[export] Hint Extern 1 (steady (with_write_mapped _)) => apply steady_mapped; solve [keep_queue] : steady.
#[export] Hint Extern 1 (steady (on_db _)) => apply steady_keeps; solve [keep_queue] : steady.

(** Call by call. *)
Ltac go_steady :=
  repeat first
    [ solve [eauto with steady]
    | apply steady_bind; [|intros ?]
    | progress cbn beta iota zeta
    | match goal with |- steady (match ?x with _ => _ end) => destruct x end ].

Section steady.
Context `{Engine, Json, Runtime}.

Lemma steady_enqueue_id suppress o a ty r ps : steady (enqueue_if_retryable_with_id suppress o a ty r ps).
Proof.
  unfold enqueue_if_retryable_with_id. destruct suppress; [go_steady|]. destruct o as [| |e []|]; go_steady.
  apply steady_on_db. intros m. apply queue_inv_enqueue.
Qed.
#[local] Hint Resolve steady_enqueue_id : steady.

Lemma steady_enqueue suppress o a ty r ps : steady (enqueue_if_retryable suppress o a ty r ps).
Proof. unfold enqueue_if_retryable. go_steady. Qed.
#[local] Hint Resolve steady_enqueue : steady.

Lemma steady_enqueue_op suppress o a t op : is_local_only op = false → steady (enqueue_op suppress o a t op).
Proof. intros Hl. unfold enqueue_op. destruct op; try done; cbn; go_steady. Qed.

Lemma steady_label_step a t l o : steady (label_local_step a t l o).
Proof. unfold label_local_step. go_steady. Qed.
Lemma steady_attach a t ii g i : steady (attach_pending_action_id a t ii g i).
Proof. unfold attach_pending_action_id, attach_action_id_to_pending_thread_label_intents. go_steady. Qed.
Lemma steady_clear a t ii g : steady (clear_pending_intents_immediate a t ii g).
Proof. unfold clear_pending_intents_immediate, delete_pending_thread_label_intents_for_labels. go_steady. Qed.
Lemma steady_confirm a t ii : steady (confirm_provider_intents a t ii).
Proof. unfold confirm_provider_intents. go_steady. Qed.
#[local] Hint Resolve steady_label_step steady_attach steady_clear steady_confirm : steady.

Lemma steady_finalize suppress a t ty ps ii g o b : steady (finalize_dispatch_outcome suppress a t ty ps ii g o b).
Proof. unfold finalize_dispatch_outcome. destruct o as [| |e []|]; go_steady. Qed.
Lemma steady_dispatch_label acc a k add ids : steady (dispatch_label_engine acc a k add ids).
Proof. unfold dispatch_label_engine. destruct k; cbn [bifrost_label_for_kind]; go_steady. Qed.
#[local] Hint Resolve steady_finalize steady_dispatch_label : steady.

Lemma steady_confirmed acc a t k add ii ids : steady (dispatch_and_confirm acc a t k add ii ids).
Proof. unfold dispatch_and_confirm. go_steady. Qed.
#[local] Hint Resolve steady_confirmed : steady.

Lemma steady_label suppress acc a t l add : steady (dispatch_label_via_engine suppress acc a t l add).
Proof. unfold dispatch_label_via_engine. go_steady. Qed.
Lemma steady_member suppress acc a t l add g ids : steady (dispatch_member_label_via_engine suppress acc a t l add g ids).
Proof. unfold dispatch_member_label_via_engine, resolve_member_label_kind. go_steady. Qed.
#[local] Hint Resolve steady_label steady_member : steady.

Lemma steady_apply_group a t g k : steady (apply_label_group_local a t g k).
Proof. unfold apply_label_group_local, upsert_group_intents. go_steady. Qed.
Lemma steady_remove_group a t g k : steady (remove_label_group_local a t g k).
Proof. unfold remove_label_group_local, upsert_group_intents. go_steady. Qed.
#[local] Hint Resolve steady_apply_group steady_remove_group : steady.

Lemma steady_members suppress acc a t ls g apply saw failed ids :
  steady (member_outcomes suppress acc a t ls g apply saw failed ids).
Proof. revert saw failed. induction ls as [|l ls IH]; intros saw failed; cbn [member_outcomes]; go_steady. Qed.
#[local] Hint Resolve steady_members : steady.

Lemma steady_group suppress acc a t g apply : steady (dispatch_group_via_engine suppress acc a t g apply).
Proof.
  unfold dispatch_group_via_engine, group_local, dispatch_members, finalize_composite_outcome. go_steady.
Qed.
#[local] Hint Resolve steady_group : steady.

Lemma steady_local op a t : steady (op_local op a t).
Proof.
  unfold op_local. apply steady_bind; [go_steady|]. intros [e|ns]; [go_steady|].
  destruct op; unfold archive_local, star_local, after_verify, verify_thread_exists, changed, succeeded,
    add_label_local, remove_label_local, pin, mute, snooze, unsnooze, local_outcome, remove_inbox_folder,
    set_thread_pinned, set_thread_muted, snooze_thread_sync, unsnooze_thread_sync; go_steady.
Qed.
Lemma steady_local_only op a t : is_local_only op = true → steady (dispatch_local_only op a t).
Proof.
  intros Hl. destruct op; try done; cbn [dispatch_local_only]; unfold pin, mute, snooze, unsnooze, local_outcome,
    set_thread_pinned, set_thread_muted, snooze_thread_sync, unsnooze_thread_sync; go_steady.
Qed.
#[local] Hint Resolve steady_local : steady.

Lemma steady_move acc a plan ids : steady (run_container_move_plan acc a ids plan).
Proof. unfold run_container_move_plan. go_steady. Qed.
#[local] Hint Resolve steady_move : steady.
Lemma steady_container acc a op ids ns : steady (dispatch_container_op acc a op ids ns).
Proof. unfold dispatch_container_op. go_steady. Qed.
#[local] Hint Resolve steady_container : steady.

Definition is_label_op (op : MailOperation) : bool :=
  match op with AddLabel _ | RemoveLabel _ | ApplyLabelGroup _ | RemoveLabelGroup _ => true | _ => false end.

Lemma steady_mutation acc a op ids ns : is_label_op op = false → steady (dispatch_mutation acc a op ids ns).
Proof.
  intros Hl. destruct op; try done; cbn [dispatch_mutation]; unfold dispatch_flags, dispatch_permanent_delete; go_steady.
Qed.
Lemma steady_bulk acc a k ids ns : steady (dispatch_bulk_mutation acc a k ids ns).
Proof. destruct k; cbn [dispatch_bulk_mutation]; unfold dispatch_flags, dispatch_permanent_delete; go_steady. Qed.
Lemma steady_before acc op a t : steady (targets_before acc op a t).
Proof. unfold targets_before. go_steady. Qed.
Lemma steady_after acc b a t : steady (targets_after acc b a t).
Proof. unfold targets_after. go_steady. Qed.
#[local] Hint Resolve steady_bulk steady_before steady_after : steady.

Lemma steady_with_engine suppress acc op a t : steady (dispatch_with_engine suppress acc op a t).
Proof.
  unfold dispatch_with_engine. destruct (is_local_only op) eqn:Hl; [by apply steady_local_only|].
  apply steady_bind; [go_steady|]. intros [e|ns]; [go_steady|].
  destruct op; try done; unfold dispatch_delete, dispatch_mutation, dispatch_flags, dispatch_permanent_delete,
    enqueue_op; cbn [enqueue_params]; go_steady.
Qed.

Lemma steady_degraded suppress op a t e : is_local_only op = false → steady (handle_thread_degraded suppress op a t e).
Proof.
  intros Hl. unfold handle_thread_degraded. destruct op; try done; unfold enqueue_op; cbn [enqueue_params]; go_steady.
Qed.
End steady.

(** ** Batches *)

(** Steady, with an answer of which something holds. *)
Definition runs {A} (P : A → Prop) (m : M A) : Prop :=
  ∀ w, ∃ x w', m w = Some (x, w') ∧ P x ∧ in_flight w' = in_flight w ∧ (queue_inv (mb w) → queue_inv (mb w')).

Lemma runs_steady {A} (P : A → Prop) m : runs P m → steady m.
Proof. intros Hm w. destruct (Hm w) as (x & w' & E & _ & Hf & Hq). by exists x, w'. Qed.

Lemma steady_runs {A} (m : M A) : steady m → runs (λ _, True) m.
Proof. intros Hm w. destruct (Hm w) as (x & w' & E & Hf & Hq). by exists x, w'. Qed.

Lemma runs_ret {A} (P : A → Prop) x : P x → runs P (mret x).
Proof. intros Hx w. by exists x, w. Qed.

Lemma runs_bind {A B} (P : A → Prop) (Q : B → Prop) (m : M A) (f : A → M B) :
  runs P m → (∀ x, P x → runs Q (f x)) → runs Q (m ≫= f).
Proof.
  intros Hm Hf w. destruct (Hm w) as (x & w1 & E & Hx & Hi & Hq).
  destruct (Hf x Hx w1) as (y & w2 & E2 & Hy & Hi2 & Hq2).
  exists y, w2. unfold mbind, M_bind. rewrite E. split_and!; [done|done|congruence|tauto].
Qed.

Lemma runs_steady_bind {A B} (Q : B → Prop) (m : M A) (f : A → M B) : steady m → (∀ x, runs Q (f x)) → runs Q (m ≫= f).
Proof. intros Hm Hf. eapply runs_bind; [by apply steady_runs|auto]. Qed.

Lemma runs_collect {A B} (P : A → B → Prop) (f : A → M B) l :
  (∀ x, x ∈ l → runs (P x) (f x)) → runs (Forall2 P l) (collect f l).
Proof.
  induction l as [|x l IH]; intros Hf; cbn [collect]; [by apply runs_ret|].
  eapply runs_bind; [apply Hf, list_elem_of_here|]. intros y Hy.
  eapply runs_bind; [apply IH; intros z Hz; by apply Hf, list_elem_of_further|]. intros ys Hys.
  apply runs_ret. by constructor.
Qed.

Lemma release_back w w' k :
  k ∉ in_flight w → in_flight w' = in_flight (set_flights (.∪ {[ k ]}) w) →
  in_flight (set_flights (.∖ {[ k ]}) w') = in_flight w.
Proof. intros Hk Hw. cbn in *. rewrite Hw. set_solver. Qed.

Lemma steady_guarded a t run : steady run → steady (guarded a t run).
Proof.
  intros Hr w. unfold guarded. unfold mbind at 1, M_bind at 1.
  destruct (decide (flight_key a t ∈ in_flight w)) as [Hk|Hk].
  - rewrite acquire_held by done. by exists refused_in_flight, w.
  - rewrite acquire_free by done. cbn [negb]. unfold mbind, M_bind.
    destruct (Hr (set_flights (.∪ {[ flight_key a t ]}) w)) as (o & w' & -> & Hf & Hq).
    unfold release. exists o, (set_flights (.∖ {[ flight_key a t ]}) w'). split; [done|].
    split; [by apply (release_back w w')|exact Hq].
Qed.

(** The indices of a list of operations, and of a list of answers. *)
Definition op_indices (ops : list thread_op) : list nat := map (λ o : thread_op, o.1.1) ops.

Lemma runs_guarded_each a run ops :
  (∀ i t op, (i, t, op) ∈ ops → steady (run t op)) →
  runs (λ l, l.*1 = op_indices ops) (guarded_each a run ops).
Proof.
  induction ops as [|[[i t] op] ops IH]; intros Hr; cbn [guarded_each]; [by apply runs_ret|].
  apply runs_steady_bind; [apply steady_guarded, (Hr i), list_elem_of_here|]. intros o.
  eapply runs_bind; [apply IH; intros j u op' Hin; apply (Hr j); by apply list_elem_of_further|].
  intros l Hl. apply runs_ret. cbn. by rewrite Hl.
Qed.

Section batch.
Context `{Engine, Json, Runtime}.

Definition placed_ok (op : MailOperation) (p : placed) : Prop :=
  match p with Answered _ => True | Batched _ _ => is_local_only op = false end.

Lemma runs_answered op (m : M ActionOutcome) : steady m → runs (placed_ok op) (o ← m; mret (Answered o)).
Proof. intros Hm. apply runs_steady_bind; [done|]. intros o. by apply runs_ret. Qed.

Lemma runs_place_in_batch suppress acc k op a t :
  is_local_only op = false → runs (placed_ok op) (place_in_batch suppress acc k op a t).
Proof.
  intros Hl. assert (runs (placed_ok PermanentDelete) (place_in_batch suppress acc k PermanentDelete a t)) as Hd.
  { apply runs_steady_bind; [apply steady_resolve|]. intros [e|ids]; by apply runs_ret. }
  destruct op; try exact Hd; cbn [place_in_batch]; clear Hd.
  all: apply runs_steady_bind; [apply steady_before|]; intros [e|before]; [by apply runs_ret|].
  all: apply runs_steady_bind; [apply steady_local|]; intros [e|[]]; [by apply runs_ret| |by apply runs_ret].
  all: apply runs_steady_bind; [apply steady_after|]; intros [e|ids]; [|by apply runs_ret].
  all: apply runs_steady_bind; [by apply steady_enqueue_op|]; intros _; by apply runs_ret.
Qed.

Lemma runs_place suppress bulk acc op a t : runs (placed_ok op) (place suppress bulk acc op a t).
Proof.
  unfold place. apply runs_steady_bind; [apply steady_preflight|]. intros [e|ns]; [by apply runs_ret|].
  cbn zeta. destruct (_ || _); [apply runs_answered, steady_with_engine|].
  destruct (is_local_only op) eqn:Hl; [by apply runs_answered, steady_local_only|].
  destruct (from_operation op); [by apply runs_place_in_batch|apply runs_answered, steady_with_engine].
Qed.

(** Batches hold operations with a remote half; their indices. *)
Definition batches_ok (bs : list (RemoteBatchKey * list PendingRemote)) : Prop :=
  Forall (λ e, is_local_only (pr_op e) = false) (mjoin bs.*2).

Definition batch_indices (bs : list (RemoteBatchKey * list PendingRemote)) : list nat := pr_idx <$> mjoin bs.*2.

Lemma batches_push k e bs : is_local_only (pr_op e) = false → batches_ok bs → batches_ok (push_entry k e bs).
Proof.
  unfold batches_ok. intros He Hb. rewrite push_entry_join. apply Forall_app. split; [done|]. by constructor.
Qed.

Lemma batch_indices_push k e bs : batch_indices (push_entry k e bs) ≡ₚ batch_indices bs ++ [pr_idx e].
Proof. unfold batch_indices. rewrite push_entry_join, fmap_app. done. Qed.

(** The loop over a group: what it has taken so far is given back later. *)
Lemma place_each_runs suppress bulk acc a ops st w :
  batches_ok (remote_batches st) →
  ∃ st' gs w', place_each suppress bulk acc a ops st w = Some (st', w') ∧
    guards st' = guards st ++ gs ∧ batches_ok (remote_batches st') ∧
    (results st').*1 ++ batch_indices (remote_batches st') ≡ₚ
      (results st).*1 ++ batch_indices (remote_batches st) ++ op_indices ops ∧
    in_flight w' = in_flight w ∪ list_to_set gs ∧ (list_to_set gs : gset str) ## in_flight w ∧
    (queue_inv (mb w) → queue_inv (mb w')).
Proof.
  revert st w. induction ops as [|[[i t] op] ops IH]; intros st w Hb; cbn [place_each].
  { exists st, [], w. rewrite !app_nil_r. split_and!; try done; set_solver. }
  unfold mbind at 1, M_bind at 1. destruct (decide (flight_key a t ∈ in_flight w)) as [Hk|Hk].
  - rewrite acquire_held by done. cbn [negb].
    destruct (IH (mkGroup (guards st) (remote_batches st) (results st ++ [(i, refused_in_flight)])) w Hb)
      as (st' & gs & w' & -> & Hg & Hb' & Hi & Hf & Hd & Hq).
    exists st', gs, w'. split_and!; try done. rewrite Hi. cbn [results remote_batches op_indices map fst].
    rewrite fmap_app, <-!app_assoc. cbn. f_equiv. by rewrite Permutation_middle.
  - rewrite acquire_free by done. cbn [negb]. set (w1 := set_flights _ w). unfold mbind, M_bind.
    destruct (runs_place suppress bulk acc op a t w1) as (p & w2 & -> & Hp & Hf2 & Hq2).
    match goal with |- context [place_each _ _ _ _ _ ?s w2] => set (st2 := s) end.
    assert (batches_ok (remote_batches st2)) as Hb2 by (unfold st2; destruct p; [done|by apply batches_push]).
    destruct (IH st2 w2 Hb2) as (st' & gs & w' & -> & Hg & Hb' & Hi & Hf & Hd & Hq).
    exists st', (flight_key a t :: gs), w'. split_and!; [done| |done| | | |tauto].
    + rewrite Hg. unfold st2. destruct p; cbn; by rewrite <-app_assoc.
    + rewrite Hi. unfold st2. cbn [op_indices map fst]. destruct p; cbn [results remote_batches].
      * rewrite fmap_app, <-!app_assoc. cbn. f_equiv. by rewrite Permutation_middle.
      * rewrite batch_indices_push, <-!app_assoc. done.
    + rewrite Hf, Hf2. cbn. set_solver.
    + rewrite Hf2 in Hd. cbn in Hd |- *. set_solver.
Qed.

Lemma runs_entry_sent a k e : runs (λ x, x.1 = pr_idx e) (entry_sent a k e).
Proof.
  unfold entry_sent. apply runs_steady_bind.
  - destruct (pr_op e); try apply steady_ret. apply steady_bind; [apply steady_local|]. intros; apply steady_ret.
  - intros o. apply runs_steady_bind; [destruct (_ && _); [apply steady_mdn|apply steady_ret]|]. intros _. by apply runs_ret.
Qed.

Lemma runs_entry_failed suppress a reason e :
  is_local_only (pr_op e) = false → runs (λ x, x.1 = pr_idx e) (entry_failed suppress a reason e).
Proof.
  intros Hl. unfold entry_failed. apply runs_steady_bind; [by apply steady_enqueue_op|]. intros _. by apply runs_ret.
Qed.

Lemma Forall2_indices (es : list PendingRemote) (l : list (nat * ActionOutcome)) :
  Forall2 (λ e x, x.1 = pr_idx e) es l → l.*1 = pr_idx <$> es.
Proof. induction 1; cbn; congruence. Qed.

Lemma runs_send_batch suppress acc a b :
  Forall (λ e, is_local_only (pr_op e) = false) b.2 → runs (λ l, l.*1 = pr_idx <$> b.2) (send_batch suppress acc a b).
Proof.
  intros Hl. unfold send_batch. apply runs_steady_bind; [apply steady_bulk|].
  assert (∀ m : M (list (nat * ActionOutcome)), runs (Forall2 (λ e x, x.1 = pr_idx e) b.2) m →
            runs (λ l, l.*1 = pr_idx <$> b.2) m) as Hw.
  { intros m Hm w. destruct (Hm w) as (l & w' & E & Hl' & Hr). exists l, w'. split; [done|]. split; [by apply Forall2_indices|done]. }
  rewrite Forall_forall in Hl.
  intros [e|[]]; apply Hw, runs_collect; intros x Hx; [by apply runs_entry_failed, Hl|apply runs_entry_sent].
Qed.

Lemma releases gs w :
  ∃ w', for_each release gs w = Some ((), w') ∧ in_flight w' = in_flight w ∖ list_to_set gs ∧ mb w' = mb w.
Proof.
  revert w. induction gs as [|g gs IH]; intros w; cbn [for_each].
  - exists w. split_and!; [done|set_solver|done].
  - unfold mbind, M_bind. change (release g w) with (Some ((), set_flights (.∖ {[ g ]}) w)).
    destruct (IH (set_flights (.∖ {[ g ]}) w)) as (w' & -> & Hf & Hm).
    exists w'. split_and!; [done| |done]. rewrite Hf. cbn. set_solver.
Qed.

Lemma join_indices (bs : list (RemoteBatchKey * list PendingRemote)) (ls : list (list (nat * ActionOutcome))) :
  Forall2 (λ b l, l.*1 = pr_idx <$> b.2) bs ls → (mjoin ls).*1 = batch_indices bs.
Proof.
  unfold batch_indices. induction 1 as [|b l bs ls Hb _ IH]; [done|]. cbn. rewrite !fmap_app, Hb. by f_equal.
Qed.

Lemma hash_order_join (bs : list (RemoteBatchKey * list PendingRemote)) :
  mjoin (hash_order bs).*2 ≡ₚ mjoin bs.*2.
Proof. apply mjoin_perm. f_equiv. apply hash_order_rows. Qed.

Lemma runs_group suppress acc a ops : runs (λ l, l.*1 ≡ₚ op_indices ops) (group_by_engine suppress acc a ops).
Proof.
  intros w. unfold group_by_engine. unfold mbind at 1, M_bind at 1.
  destruct (place_each_runs suppress (1 <? length ops) acc a ops (mkGroup [] [] []) w) as (st & gs & w1 & -> & Hg & Hb & Hi & Hf & Hd & Hq);
    [constructor|]. cbn [guards app] in Hg.
  unfold mbind at 1, M_bind at 1.
  assert (Forall (λ e, is_local_only (pr_op e) = false) (mjoin (hash_order (remote_batches st)).*2)) as Hb'
    by (by rewrite hash_order_join).
  destruct (runs_collect (λ b l, l.*1 = pr_idx <$> b.2) (send_batch suppress acc a) (hash_order (remote_batches st)))
    with (w := w1) as (ls & w2 & -> & Hls & Hf2 & Hq2).
  { intros b Hb2. apply runs_send_batch. rewrite Forall_forall in Hb' |- *. intros e He. apply Hb'.
    apply list_elem_of_join. exists b.2. split; [done|]. by apply list_elem_of_fmap_2. }
  unfold mbind, M_bind. destruct (releases (guards st) w2) as (w3 & -> & Hf3 & Hm3).
  eexists _, w3. split; [done|]. split_and!.
  - rewrite fmap_app, (join_indices _ _ Hls). unfold batch_indices at 1. rewrite hash_order_join.
    fold (batch_indices (remote_batches st)). rewrite Hi. done.
  - rewrite Hf3, Hf2, Hf, Hg. set_solver.
  - rewrite Hm3. tauto.
Qed.
End batch.

Section batches.
Context `{Engine, Json, Runtime}.

(** There is an engine for every account. *)
Definition engine_up (runtime : bool) : Prop :=
  runtime = true ∧ ∀ cs a, ∃ acc, resident_action_account cs a = inr acc.

(** Operations that all stay local, or none does. *)
Definition unmixed (ops : list MailOperation) : Prop :=
  Forall (λ op, is_local_only op = true) ops ∨ Forall (λ op, is_local_only op = false) ops.

Lemma runs_execute suppress runtime a (ops : list thread_op) :
  engine_up runtime ∨ unmixed ops.*2 →
  runs (λ l, l.*1 ≡ₚ op_indices ops) (execute_account_group suppress runtime a ops).
Proof.
  assert (∀ run, (∀ i t op, (i, t, op) ∈ ops → steady (run t op)) →
            runs (λ l, l.*1 ≡ₚ op_indices ops) (guarded_each a run ops)) as Hg.
  { intros run Hr w. destruct (runs_guarded_each a run ops Hr w) as (l & w' & E & Hl & Hrest).
    exists l, w'. split; [done|]. split; [by rewrite Hl|done]. }
  intros Hu. unfold execute_account_group. destruct (forallb _ ops) eqn:Hloc.
  { apply Hg. intros i t op Hin. apply steady_local_only.
    rewrite forallb_forall in Hloc. by apply (Hloc (i, t, op)), list_elem_of_In. }
  assert (engine_up runtime ∨ ∀ i t op, (i, t, op) ∈ ops → is_local_only op = false) as Hn.
  { destruct Hu as [Hu|[Hu|Hu]]; [by left| |].
    - exfalso. apply not_true_iff_false in Hloc. apply Hloc, forallb_forall. intros o Ho%list_elem_of_In.
      rewrite Forall_forall in Hu. by apply Hu, list_elem_of_fmap_2.
    - right. intros i t op Hin. rewrite Forall_forall in Hu. apply Hu. apply list_elem_of_fmap. by exists (i, t, op). }
  assert (∀ e, (∀ i t op, (i, t, op) ∈ ops → is_local_only op = false) →
            runs (λ l, l.*1 ≡ₚ op_indices ops) (degraded_fallback suppress a e ops)) as Hd.
  { intros e Hno. apply Hg. intros i t op Hin. by eapply steady_degraded, Hno. }
  destruct Hn as [[-> Hup]|Hno].
  - cbn [negb]. intros w. unfold mbind, M_bind. cbn [get_world]. destruct (Hup (calls w) a) as [acc ->]. apply runs_group.
  - destruct runtime; cbn [negb]; [|by apply Hd]. intros w. unfold mbind, M_bind. cbn [get_world].
    destruct (resident_action_account (calls w) a); [by apply Hd|apply runs_group].
Qed.

Lemma group_ops_join i ops gs :
  op_indices (mjoin (group_ops i ops gs).*2) ≡ₚ op_indices (mjoin gs.*2) ++ seq i (length ops) ∧
  (mjoin (group_ops i ops gs).*2).*2 ≡ₚ (mjoin gs.*2).*2 ++ ops.*2.
Proof.
  revert i gs. induction ops as [|[[a t] op] ops IH]; intros i gs; cbn [group_ops length seq].
  - by rewrite !app_nil_r.
  - destruct (IH (S i) (push_entry a (i, t, op) gs)) as [IH1 IH2]. split.
    + rewrite IH1. assert (op_indices (mjoin (push_entry a (i, t, op) gs).*2) ≡ₚ op_indices (mjoin gs.*2) ++ [i]) as ->.
      { unfold op_indices. etrans; [apply Permutation_map, push_entry_join|]. by rewrite map_app. }
      by rewrite <-app_assoc.
    + rewrite IH2, push_entry_join, fmap_app, <-app_assoc. done.
Qed.

Lemma op_indices_join (gs : list (str * list thread_op)) (ls : list (list (nat * ActionOutcome))) :
  Forall2 (λ g l, l.*1 ≡ₚ op_indices g.2) gs ls → (mjoin ls).*1 ≡ₚ op_indices (mjoin gs.*2).
Proof.
  induction 1 as [|g l gs ls Hg _ IH]; [done|]. cbn [mjoin list_join fmap list_fmap].
  rewrite fmap_app, Hg. unfold op_indices in *. rewrite map_app. by f_equiv.
Qed.

(** The operations of an account, in their order, with their places in the batch. *)
Definition account_ops (ops : list batch_op) (a : str) : list thread_op :=
  omap (λ e : nat * batch_op, let '(i, (a', t, op)) := e in if decide (a' = a) then Some (i, t, op) else None) (imap pair ops).

(** Computations of several accounts, one after the other. *)
Inductive in_turn {A} (run : str → M A) : list str → world → list A → world → Prop :=
  | turn_none w : in_turn run [] w [] w
  | turn_one a accounts w x w1 xs w2 :
      run a w = Some (x, w1) → in_turn run accounts w1 xs w2 → in_turn run (a :: accounts) w (x :: xs) w2.

Lemma account_ops_snoc ops a t op x :
  account_ops (ops ++ [(a, t, op)]) x = account_ops ops x ++ (if decide (a = x) then [(length ops, t, op)] else []).
Proof.
  unfold account_ops. rewrite imap_app, omap_app. f_equal. cbn. rewrite Nat.add_0_r. by case_decide.
Qed.

(** Groups are the operations of each account. *)
Definition grouped (ops : list batch_op) (gs : list (str * list thread_op)) : Prop :=
  NoDup gs.*1 ∧ (∀ a, a ∈ gs.*1 ↔ a ∈ (λ o : batch_op, o.1.1) <$> ops) ∧ ∀ a l, (a, l) ∈ gs → l = account_ops ops a.

Lemma push_entry_keys {K A} `{EqDecision K} (k : K) (x : A) m :
  (push_entry k x m).*1 = if decide (k ∈ m.*1) then m.*1 else m.*1 ++ [k].
Proof.
  induction m as [|[k' l] m IH]; [by rewrite decide_False by apply not_elem_of_nil|]. cbn [push_entry].
  destruct (decide (k' = k)) as [->|Hne]; cbn [fmap list_fmap fst].
  - by rewrite decide_True by (by left).
  - rewrite IH. destruct (decide (k ∈ m.*1)); [by rewrite decide_True by (by right)|].
    rewrite decide_False; [done|]. by intros [?|?]%elem_of_cons.
Qed.

Lemma push_entry_elem {K A} `{EqDecision K} (k : K) (x : A) m k' l : NoDup m.*1 →
  (k', l) ∈ push_entry k x m → if decide (k' = k) then ∃ l0, l = l0 ++ [x] ∧ ((k, l0) ∈ m ∨ k ∉ m.*1 ∧ l0 = []) else (k', l) ∈ m.
Proof.
  induction m as [|[k2 l2] m IH]; intros Hn; cbn [push_entry].
  - intros [= -> ->]%list_elem_of_singleton. rewrite decide_True by done. exists []. split; [done|]. right.
    split; [by intros ?%elem_of_nil|done].
  - cbn in Hn. apply NoDup_cons in Hn as [Hk2 Hn]. destruct (decide (k2 = k)) as [->|Hne].
    + intros [[= -> ->]|Hin]%elem_of_cons.
      * rewrite decide_True by done. exists l2. split; [done|]. left. by left.
      * rewrite decide_False; [by right|]. intros ->. apply Hk2, list_elem_of_fmap. by exists (k, l).
    + intros [[= -> ->]|Hin]%elem_of_cons; [rewrite decide_False by done; by left|]. specialize (IH Hn Hin).
      destruct (decide (k' = k)) as [->|]; [|by right]. destruct IH as (l0 & -> & Hl). exists l0. split; [done|].
      destruct Hl as [Hl|[Hl ->]]; [left; by right|right]. split; [|done]. by intros [?|?]%elem_of_cons.
Qed.

Lemma grouped_push ops gs a t op : grouped ops gs → grouped (ops ++ [(a, t, op)]) (push_entry a (length ops, t, op) gs).
Proof.
  intros (Hn & Ha & Hl). unfold grouped. rewrite push_entry_keys. split_and!.
  - case_decide; [done|]. apply NoDup_app. split; [done|]. split; [|apply NoDup_singleton].
    intros x Hx ->%list_elem_of_singleton. done.
  - intros x. rewrite fmap_app, elem_of_app, <-Ha. cbn. rewrite list_elem_of_singleton.
    destruct (decide (a ∈ gs.*1)); [|rewrite elem_of_app, list_elem_of_singleton; done]. split; [by left|]. by intros [?| ->].
  - intros x l Hin. apply push_entry_elem in Hin; [|done]. rewrite account_ops_snoc. destruct (decide (x = a)) as [->|Hne].
    + destruct Hin as (l0 & -> & Hl0). rewrite decide_True by done. f_equal. destruct Hl0 as [Hl0|[Hl0 ->]]; [by apply Hl|].
      rewrite Ha in Hl0. symmetry. clear -Hl0. unfold account_ops. destruct (omap _ _) as [|e es] eqn:E; [done|].
      assert (e ∈ e :: es) as He by (by left). rewrite <-E in He. apply list_elem_of_omap in He as ([i [[a' t'] op']] & Hi & He).
      destruct (decide (a' = a)) as [->|]; [|done]. destruct Hl0. apply elem_of_lookup_imap in Hi as (j & o & [= -> <-] & Ho).
      apply list_elem_of_fmap. exists (a, t', op'). split; [done|]. by eapply list_elem_of_lookup_2.
    + rewrite decide_False by done. rewrite app_nil_r. by apply Hl.
Qed.

Lemma group_ops_grouped ops pre gs : grouped pre gs → grouped (pre ++ ops) (group_ops (length pre) ops gs).
Proof.
  revert pre gs. induction ops as [|[[a t] op] ops IH]; intros pre gs Hg; cbn [group_ops]; [by rewrite app_nil_r|].
  change ((a, t, op) :: ops) with ([(a, t, op)] ++ ops). rewrite (assoc app).
  replace (S (length pre)) with (length (pre ++ [(a, t, op)])) by (rewrite length_app; cbn; lia).
  apply IH, grouped_push, Hg.
Qed.

Lemma groups_of_accounts ops gs : grouped ops gs → gs = (λ a, (a, account_ops ops a)) <$> gs.*1.
Proof.
  intros (_ & _ & Hl). rewrite <-list_fmap_compose. rewrite <-(list_fmap_id gs) at 1. apply list_fmap_ext.
  intros i [a l] Hi%list_elem_of_lookup_2. cbn. by rewrite <-(Hl _ _ Hi).
Qed.

Lemma collect_in_turn {A} (run : str → list thread_op → M A) ops accounts w xs w' :
  collect (λ g : str * list thread_op, run g.1 g.2) ((λ a, (a, account_ops ops a)) <$> accounts) w = Some (xs, w') →
  in_turn (λ a, run a (account_ops ops a)) accounts w xs w'.
Proof.
  revert w xs. induction accounts as [|a accounts IH]; intros w xs; cbn [fmap list_fmap collect].
  - intros [= <- <-]. constructor.
  - unfold mbind, M_bind. cbn [fst snd]. destruct (run a (account_ops ops a) w) as [[x w1]|] eqn:E; [|done].
    destruct (collect _ _ w1) as [[xs' w2]|] eqn:E2; [|done]. intros [= <- <-]. econstructor; [exact E|by apply IH].
Qed.

Lemma batch_answers suppress runtime ops w :
  engine_up runtime ∨ unmixed ops.*2 →
  ∃ accounts per w', batch_execute suppress runtime ops w = Some (reassemble (length ops) (mjoin per), w') ∧
    NoDup accounts ∧ (∀ a, a ∈ accounts ↔ a ∈ (λ o : batch_op, o.1.1) <$> ops) ∧
    in_turn (λ a, execute_account_group suppress runtime a (account_ops ops a)) accounts w per w' ∧
    Forall2 (λ a answers, answers.*1 ≡ₚ op_indices (account_ops ops a)) accounts per ∧
    (mjoin per).*1 ≡ₚ seq 0 (length ops) ∧ in_flight w' = in_flight w ∧ (queue_inv (mb w) → queue_inv (mb w')).
Proof.
  intros Hu. unfold batch_execute. destruct (group_ops_join 0 ops []) as [Hidx Hops]. cbn [mjoin list_join fmap list_fmap app op_indices map] in Hidx, Hops.
  destruct (runs_collect (λ (g : str * list thread_op) l, l.*1 ≡ₚ op_indices g.2)
              (λ g : str * list thread_op, execute_account_group suppress runtime g.1 g.2)
              (hash_order (group_ops 0 ops []))) with (w := w) as (ls & w' & E & Hls & Hf & Hq).
  { intros g Hg. apply runs_execute. destruct Hu as [Hu|Hu]; [by left|right].
    rewrite hash_order_rows in Hg.
    assert (∀ op, op ∈ g.2.*2 → op ∈ ops.*2) as Hin.
    { intros op Hop. rewrite <-Hops. apply list_elem_of_fmap in Hop as (o & -> & Ho). apply list_elem_of_fmap_2.
      apply list_elem_of_join. exists g.2. split; [done|]. by apply list_elem_of_fmap_2. }
    destruct Hu as [Hu|Hu]; [left|right]; rewrite Forall_forall in Hu |- *; auto. }
  assert (grouped ops (hash_order (group_ops 0 ops []))) as Hg.
  { assert (grouped ops (group_ops 0 ops [])) as (Hn & Ha & Hl).
    { apply (group_ops_grouped ops [] []). split; [constructor|]. split; [done|]. by intros ? ? ?%elem_of_nil. }
    assert ((hash_order (group_ops 0 ops [])).*1 ≡ₚ (group_ops 0 ops []).*1) as Hp by apply Permutation_map, hash_order_rows.
    split; [by rewrite Hp|split].
    - intros a. by rewrite <-Ha, Hp.
    - intros a l. rewrite hash_order_rows. apply Hl. }
  pose proof (groups_of_accounts _ _ Hg) as Heq. destruct Hg as (Hn & Ha & _).
  exists (hash_order (group_ops 0 ops [])).*1, ls, w'. split_and!; [|done|done| | | |done|done].
  - unfold mbind, M_bind. by rewrite E.
  - rewrite Heq in E. by apply collect_in_turn in E.
  - rewrite Heq in Hls. by apply Forall2_fmap_l in Hls.
  - rewrite (op_indices_join _ _ Hls), <-Hidx. unfold op_indices. apply Permutation_map, mjoin_perm.
    f_equiv. apply hash_order_rows.
Qed.

(** The group of an operation's account has an answer for its place. *)
Lemma own_answer ops accounts per i a t op :
  Forall2 (λ a (answers : list (nat * ActionOutcome)), answers.*1 ≡ₚ op_indices (account_ops ops a)) accounts per →
  a ∈ accounts → ops !! i = Some (a, t, op) →
  ∃ answers o, (a, answers) ∈ zip accounts per ∧ (i, o) ∈ answers.
Proof.
  intros Hp Ha Hi. assert (i ∈ op_indices (account_ops ops a)) as Hin.
  { unfold op_indices. change (@map ?A ?B) with (@fmap list _ A B). apply list_elem_of_fmap. exists (i, t, op). split; [done|].
    unfold account_ops. apply list_elem_of_omap. exists (i, (a, t, op)). rewrite decide_True by done. split; [|done].
    apply elem_of_lookup_imap. by exists i, (a, t, op). }
  induction Hp as [|a' answers accounts per Hans _ IH]; [by apply elem_of_nil in Ha|].
  apply elem_of_cons in Ha as [<-|Ha].
  - rewrite <-Hans in Hin. apply list_elem_of_fmap in Hin as ([j o] & -> & Ho). exists answers, o. split; [by left|done].
  - destruct (IH Ha) as (l & o & Hl & Ho). exists l, o. split; [by right|done].
Qed.

(** [outcomes[idx] = outcome] over distinct indices in range. *)
Lemma reassemble_lookup n answers :
  answers.*1 ≡ₚ seq 0 n →
  length (reassemble n answers) = n ∧
  ∀ i o, reassemble n answers !! i = Some o ↔ (i, o) ∈ answers.
Proof.
  intros Hp. unfold reassemble. set (base := replicate n _).
  assert (NoDup answers.*1) as Hnd by (rewrite Hp; apply NoDup_seq).
  assert (∀ i o, (i, o) ∈ answers → i < length base) as Hr.
  { intros i o Hio. unfold base. rewrite length_replicate. assert (i ∈ answers.*1) as Hi by (apply list_elem_of_fmap; by exists (i, o)).
    rewrite Hp in Hi. apply elem_of_seq in Hi. lia. }
  assert (∀ b : list ActionOutcome, length (foldl (λ os (e : nat * ActionOutcome), <[e.1 := e.2]> os) b answers) = length b) as Hlen.
  { clear. induction answers as [|e l IH]; intros b; [done|]. cbn. by rewrite IH, length_insert. }
  split; [rewrite Hlen; apply length_replicate|].
  assert (∀ b : list ActionOutcome, (∀ i o, (i, o) ∈ answers → i < length b) → NoDup answers.*1 →
    ∀ i, foldl (λ os (e : nat * ActionOutcome), <[e.1 := e.2]> os) b answers !! i =
         match list_find (λ e : nat * ActionOutcome, e.1 = i) answers with Some (_, e) => Some e.2 | None => b !! i end) as Hl.
  { clear. induction answers as [|[j p] l IH]; intros b Hb Hn i; [done|]. cbn [foldl].
    cbn in Hn. apply NoDup_cons in Hn as [Hj Hn]. rewrite IH; [|intros k q Hk; rewrite length_insert; apply (Hb k q), list_elem_of_further, Hk|done].
    cbn [list_find]. case_decide as Hji; cbn in Hji.
    - subst j. cbn. destruct (list_find _ l) as [[k [k' q]]|] eqn:E.
      + apply list_find_Some in E as (E & Hk & _). cbn in Hk. subst k'. exfalso. apply Hj. apply list_elem_of_fmap.
        exists (i, q). split; [done|]. by eapply list_elem_of_lookup_2.
      + rewrite list_lookup_insert_eq; [done|]. apply (Hb i p), list_elem_of_here.
    - destruct (list_find _ l) as [[k [k' q]]|]; [done|]. cbn. by rewrite list_lookup_insert_ne by done. }
  intros i o. rewrite (Hl base Hr Hnd). destruct (list_find _ answers) as [[k [j p]]|] eqn:E.
  - apply list_find_Some in E as (E & Hj & _). cbn in Hj. subst j. cbn. assert ((i, p) ∈ answers) as Hin by (by eapply list_elem_of_lookup_2).
    split; [by intros [= <-]|]. intros Ho. f_equal.
    assert (∀ l : list (nat * ActionOutcome), NoDup l.*1 → (i, p) ∈ l → (i, o) ∈ l → p = o) as Hu.
    { clear. induction l as [|[j q] l IH]; intros Hn Hp Ho; [by apply elem_of_nil in Hp|].
      cbn in Hn. apply NoDup_cons in Hn as [Hj Hn]. apply elem_of_cons in Hp as [Hp|Hp], Ho as [Ho|Ho]; [congruence| | |by apply IH];
        exfalso; apply Hj, list_elem_of_fmap; [exists (i, o)|exists (i, p)]; (split; [cbn; congruence|done]). }
    by apply (Hu answers).
  - apply list_find_None in E. rewrite Forall_forall in E. split.
    + intros Hb. exfalso. assert (i < n) as Hi by (apply lookup_lt_Some in Hb; unfold base in Hb; by rewrite length_replicate in Hb).
      assert (i ∈ answers.*1) as (e & -> & He)%list_elem_of_fmap by (rewrite Hp; apply elem_of_seq; lia).
      by apply (E e He).
    + intros Hio. exfalso. by apply (E _ Hio).
Qed.
End batches.

(** A row made waiting again is as live as before. *)
Lemma queue_inv_recover m : queue_inv m → queue_inv (db_pending_ops_recover_on_boot_sync m).2.
Proof.
  assert (∀ o, live_key (recover_row o) = live_key o ∧ (op_live (recover_row o) ↔ op_live o) ∧ retry_count (recover_row o) = retry_count o) as Hr.
  { intros o. unfold recover_row. case_decide as He; [|done]. unfold op_live. rewrite He. cbn. done. }
  intros [Hq Hc]. change (queue_inv (set_drafts (fmap (λ s, if decide (s = sending) then failed else s)) (set_pending (fmap recover_row) m))).
  split.
  - intros i j o o' Hi Hj. cbn in Hi, Hj. apply lookup_fmap_Some in Hi as (p & <- & Hi), Hj as (p' & <- & Hj).
    destruct (Hr p) as (Hk & Hl & _), (Hr p') as (Hk' & Hl' & _). rewrite Hl, Hl', Hk, Hk'. by apply Hq.
  - intros i o Hi. cbn in Hi. apply lookup_fmap_Some in Hi as (p & <- & Hi). destruct (Hr p) as (_ & _ & ->). exact (Hc i p Hi).
Qed.

(** ** A pass and the queue *)

Section queue_pass.
Context `{Engine, Json, Runtime, PendingScan}.

Lemma queue_inv_attempts n l m :
  rows_current l m → Forall (λ e, op_state e.2 = Pending) l → queue_inv m → queue_inv (attempts n l m).
Proof.
  revert n m. induction l as [|[i o] l IH]; intros n m Hl Hs Hq; [done|]. cbn [attempts].
  apply Forall_cons in Hs as [Ho Hs]. apply IH; [by apply rows_current_tail|done|].
  destruct Hl as [_ [[Hi _] _]%Forall_cons]. by apply queue_inv_attempt.
Qed.

Lemma op_due_pending now o : op_due None now o = true → op_state o = Pending.
Proof. unfold op_due. cbn [andb]. intros [Hd _]%andb_true_iff. by apply bool_decide_eq_true in Hd. Qed.

Lemma queue_inv_pass runtime w :
  queue_inv (mb w) → ∃ w', process_pending_ops runtime w = Some ((), w') ∧ queue_inv (mb w').
Proof.
  intros Hq. pose proof Hq as [_ Hc]. rewrite process_pending_eq by done. eexists. split; [done|]. cbn.
  apply queue_inv_attempts; [| |by eapply queue_inv_same, Hq].
  - apply rows_current_filter. eapply rows_current_perm; [symmetry; apply turns_perm|]. exact (selected_current _ _ Hc).
  - apply Forall_forall. intros [i o] Hi. apply list_elem_of_filter in Hi as [_ Hi]. rewrite turns_perm in Hi.
    apply selected_in in Hi as [_ Hd]. by eapply op_due_pending.
Qed.
End queue_pass.
