(* ===== verification/BatchProperties.v ===== *)
(** * What the batch executor and the queue promise

    Retries, their budget and their texts; the destination of a move; the
    checks of name spaces; the life of a label intent; the answers of a batch;
    the queue's keys.  At the end closed runs in which the code does not do what
    it means to. *)

From stdpp Require Import sorting.
From S2P Require Import Prelude.
From S2P Require Import Graphemes.
From S2P Require Import Strings.
From S2P Require Import Bytes.
From S2P Require Import FolderLabel.
From S2P Require Import ActionTypes.
From S2P Require Import Mailbox.
From S2P Require Import Batch.
From S2P Require Import BatchTheory.

(** ** An account to run on

    A concrete engine that accepts every call, a concrete text for JSON, a clock
    that counts, and a small mailbox of one account. *)

(** JSON as a tree: an array is node 0, an object node 1 of fields, which are
    nodes 2 of a name and a value. *)
Fixpoint tree_of (v : json) : gen_tree (option bool + Z + str) :=
  match v with
  | JNull => GenLeaf (inl (inl None))
  | JBool b => GenLeaf (inl (inl (Some b)))
  | JInt z => GenLeaf (inl (inr z))
  | JStr s => GenLeaf (inr s)
  | JArr l => GenNode 0 (map tree_of l)
  | JObj fs => GenNode 1 (map (λ f : str * json, GenNode 2 [GenLeaf (inr f.1); tree_of f.2]) fs)
  end.

Fixpoint of_tree (t : gen_tree (option bool + Z + str)) : json :=
  match t with
  | GenLeaf (inl (inl None)) => JNull
  | GenLeaf (inl (inl (Some b))) => JBool b
  | GenLeaf (inl (inr z)) => JInt z
  | GenLeaf (inr s) => JStr s
  | GenNode 0 ts => JArr (map of_tree ts)
  | GenNode _ ts =>
      JObj (map (λ t, match t with GenNode _ [GenLeaf (inr n); v] => (n, of_tree v) | _ => ([], JNull) end) ts)
  end.

Definition tree_text (v : json) : str := [Npos (countable.encode (tree_of v))].

Definition flag_texts : list (str * json) :=
  n ← ["isSpam"; "starred"; "read"]%string; b ← [true; false]; [(flag_text n b, JObj [(slit n, JBool b)])].

(** The texts written by hand have more than one character. *)
Definition text_tree (s : str) : option json :=
  match s with
  | [Npos p] => of_tree <$> countable.decode p
  | _ =>
      if decide (s = empty_text) then Some (JObj [])
      else (λ e : nat * (str * json), e.2.2) <$> list_find (λ e : str * json, e.1 = s) flag_texts
  end.

Fixpoint of_tree_of v : of_tree (tree_of v) = v.
Proof.
  destruct v as [| | | |l|fs]; try reflexivity; cbn; f_equal.
  - induction l as [|x l IH]; [done|]. cbn. by rewrite of_tree_of, IH.
  - induction fs as [|[n x] fs IH]; [done|]. cbn. by rewrite of_tree_of, IH.
Qed.

Lemma text_tree_text v : text_tree (tree_text v) = Some v.
Proof. unfold text_tree, tree_text. rewrite countable.decode_encode. cbn. by rewrite of_tree_of. Qed.

Lemma text_tree_flag n b : n ∈ ["isSpam"; "starred"; "read"]%string →
  text_tree (flag_text n b) = Some (JObj [(slit n, JBool b)]).
Proof.
  intros Hn. assert (n = "isSpam" ∨ n = "starred" ∨ n = "read")%string as [-> | [-> | ->]] by set_solver;
    destruct b; vm_compute; reflexivity.
Qed.

Definition tree_json : Json := {|
  to_string := tree_text; from_str := text_tree;
  from_to_string := text_tree_text; from_empty_text := eq_refl; from_flag_text := text_tree_flag |}.

Definition counting_runtime : Runtime := {|
  clock := Z.of_nat; new_v4 n := [N.of_nat n]; hash_order A l := l; hash_order_rows A l := Permutation_refl l |}.

Definition key_scan : PendingScan := {|
  scan_pending := map_to_list; scan_pending_rows t := Permutation_refl _ |}.

Definition acct : str := Eval vm_compute in slit "acct".
Definition t1 : str := Eval vm_compute in slit "t1".
Definition todo : str := Eval vm_compute in slit "kw:todo".

(** The containers of the account, for every name space the same. *)
Definition its_containers : ContainerIndex :=
  mkContainers [(slit "INBOX", System SInbox); (slit "Archive", System SArchive)]
    (λ _ r, match r with RoleInbox => Some (slit "INBOX") | RoleArchive => Some (slit "Archive") | _ => None end).

Definition willing_engine : Engine := {|
  engine_answer _ := None;
  resident_action_account _ _ := inr (mkResident Imap its_containers);
  refresh_containers _ _ m := (inr its_containers, m);
  refresh_keeps_queue _ _ _ := eq_refl |}.

(** The thread [t1], unread in the inbox and in a folder of another mailbox if
    [kind] says so; its one message has the keyword [todo]. *)
Definition desk_of (kind : option str) (ids : gmap str PendingOperation) : mailbox := {|
  accounts := {[ acct := slit "imap" ]};
  threads := {[ (acct, t1) := mkThread false false false false false None kind ((λ _, slit "owner") <$> kind) 3 ]};
  messages := {[ (acct, slit "m1") := mkMessageRow t1 10 false false (Some (slit "INBOX")) (Some 7%Z) (Some 1%Z) ]};
  folders := {[ (acct, INBOX) := mkFolderRow (Some (slit "INBOX")) None None None ]};
  labels := {[ (acct, todo) := mkLabelRow (slit "todo") 0 false ]};
  thread_folders := {[ (acct, t1, INBOX) ]};
  thread_labels := {[ (acct, t1, todo) ]};
  message_folders := {[ (acct, slit "m1", INBOX) ]};
  message_labels := ∅;
  message_keywords := {[ (acct, slit "m1", todo) := slit "todo" ]};
  label_groups := ∅;
  label_group_members := ∅;
  intents := ∅;
  pending_operations := ids;
  local_drafts := ∅ |}.

Definition waiting : PendingOperation := mkPendingOp acct archive_type t1 empty_text Pending 0 10 None 0 None.
Definition desk : world := World (desk_of None {[ [5%N] := waiting ]}) ∅ [] [] 0 0.
Definition public_desk : world := World (desk_of (Some public_kind) ∅) ∅ [] [] 0 0.

(** What a run answers, with what is asked of the world after it. *)
Definition observed {A B} (f : world → B) (r : option (A * world)) : option (A * B) :=
  (λ x : A * world, (x.1, f x.2)) <$> r.

Definition unavailable : ActionOutcome := LocalOnly (remote resident_unavailable) true.

(** ** The theorems *)

Section properties.
Context `{Engine, Json, Runtime, PendingScan}.

(** C14. A pass over the queue of retries makes no call to a provider and sends no
    receipt, whatever the queue holds: every operation it takes up, if its thread
    is not in flight, is refused by the guard the pass itself holds for it, and
    counts one failed attempt; the others stay as they are.  Of the mail nothing
    changes but the queue and the intents. *)
Theorem retries_reach_no_provider runtime w :
  counts_ok (mb w) →
  ∃ w', process_pending_ops runtime w = Some ((), w') ∧
    calls w' = calls w ∧ receipts w' = receipts w ∧ in_flight w' = in_flight w ∧
    same_mail (mb w) (mb w') ∧
    (∀ i o, (i, o) ∈ selected (clock (clock_reads w)) (mb w) → op_free w o →
       ∃ k, pending_operations (mb w') !! i = Some (attempt_failed (clock k) o)) ∧
    (∀ i, (∀ o, (i, o) ∈ selected (clock (clock_reads w)) (mb w) → ¬ op_free w o) →
       pending_operations (mb w') !! i = pending_operations (mb w) !! i).
Proof.
  intros Hc. rewrite process_pending_eq by done.
  set (l := turns _ _). set (m := swept _ _). eexists. split; [done|]. cbn.
  assert (rows_current (free_ops w l) m) as Hl.
  { apply rows_current_filter. eapply rows_current_perm; [symmetry; apply turns_perm|].
    exact (selected_current _ _ Hc). }
  split_and!; [done..| | |].
  - eapply same_mail_trans; [|apply same_mail_attempts]. by destruct (mb w).
  - intros i o Hi Hf. destruct (attempts_row (S (S (clock_reads w))) _ m i o Hl) as (k & _ & Hk); [|by exists k].
    apply list_elem_of_filter. split; [done|]. unfold l. by rewrite turns_perm.
  - intros i Hi. rewrite attempts_others; [done|]. intros Hj%list_elem_of_fmap. destruct Hj as ([j o] & -> & Hj).
    apply list_elem_of_filter in Hj as [Hf Hj]. refine (Hi o _ Hf). unfold l in Hj. by rewrite turns_perm in Hj.
Qed.

(** What an operation leaves in the queue reads back as the operation: the
    type and the parameters written for a retry decode to it, for every
    operation that has a remote half. *)
Theorem pending_op_round_trip op ty ps :
  enqueue_params op = Some (ty, ps) →
  pending_operation_of ty (default JNull (from_str ps)) = Some op.
Proof.
  destruct op as [| | |to|to|to| | |[dest] [[source]|]|[l]|[l]|[g]|[g]| |]; intros [= <- <-];
    rewrite ?from_empty_text, ?from_flag_text by set_solver; unfold label_params, group_params;
    rewrite ?from_to_string; reflexivity.
Qed.

(** An operation has the attempts its type is given, ten, seven or five: until
    the last it waits in the queue between half a minute and an hour after the
    attempt before, then it is marked failed and stays so. *)
Theorem retry_budget a ty r ps created times :
  let o := mkPendingOp a ty r ps Pending 0 (retry_policy ty) None created None in
  let o' := foldl (λ o t, attempt_failed t o) o times in
  (5 ≤ retry_policy ty ≤ 10)%Z ∧
  retry_count o' = Z.of_nat (length times) ∧ live_key o' = live_key o ∧
  ((Z.of_nat (length times) < retry_policy ty)%Z →
     op_state o' = Pending ∧
     ∀ t, last times = Some t → ∃ d, next_retry_at o' = Some (t + d)%Z ∧ (30 ≤ d ≤ 3600)%Z) ∧
  ((retry_policy ty ≤ Z.of_nat (length times))%Z → op_state o' = OpFailed).
Proof. exact (retry_budget_aux a ty r ps created times). Qed.

(** C10. A confirmed label change and the recomputation from the messages agree:
    where the labels of a thread are those of its messages, they are so after a
    confirmation too, it makes the label there or not there as was asked and
    touches no other, and recomputing the thread afterwards changes no label. *)
Theorem confirmation_survives_recompute a t ii m :
  keywords_ok m → labels_derived a t m → thread_messages a t m ≠ ∅ → confirmable a t ii m →
  ∃ m', confirmed_provider_label_intents a t ii m = (inr (), m') ∧
    keywords_ok m' ∧ labels_derived a t m' ∧
    (∀ x l, in_truth m' x l = if decide (x = (a, t)) then truth ii l (in_truth m x l) else in_truth m x l) ∧
    (derived_fit a t m' → ∃ m'', recompute_thread_labels_from_messages a t m' = (inr (), m'') ∧
       thread_labels m'' = thread_labels m').
Proof.
  intros Hk Hd Hne Hc. destruct (confirm_each_truth a t ii m Hc) as (m1 & Hm1 & Hs & Ht).
  destruct (confirm_each_derived a t ii m m1 Hk Hd Hne Hc Hm1) as [Hk1 Hd1].
  exists (finalized a t m1). split_and!; [by apply confirmed_eq|exact Hk1|exact Hd1|exact Ht|].
  intros Hf. rewrite recompute_labels_ok; [|exact (finalized_there _ _ _ (proj1 (confirmable_same _ _ _ _ _ Hs Hc)))|done].
  eexists. split; [done|]. exact (recompute_idempotent a t _ Hd1).
Qed.

(** C33. Where a move goes, operation by operation, in the name space of the thread:
    trash to the trash, spam to the spam folder, what is no spam from the spam folder
    to the inbox, and a move to the folder that it names, from the one that it names
    as far as that is known; without the container there is no plan.  Archive goes to
    the archive; only on Gmail, where the archive is no container or one that only
    stands for it, the inbox is detached instead, or nothing sent when there is no
    inbox, and the same for a move to such a container. *)
Theorem move_goes_where_it_means p op c ns :
  meant_plan p op c ns (plan_for_container_op p op c ns).
Proof. apply move_plan_spec. Qed.


(** C15. With an engine for its account, and its thread not in flight, an action
    alone in its batch that the name space of its thread does not allow changes
    nothing: no table, no call, no retry, no receipt; the answer is a failure that is
    not retried.  Refused are, for an operation with a remote half, a public thread;
    a shared one of JMAP, or of which a folder has no row or denies the right that
    the operation needs, or a move out of its mailbox; and a personal one moved into
    a shared or a public folder. *)
Theorem refused_action_changes_nothing suppress acc a t op w :
  refused_by (mb w) a t op → flight_key a t ∉ in_flight w → resident_action_account (calls w) a = inr acc →
  ∃ what, batch_execute suppress true [(a, t, op)] w = Some ([Failed (Remote NotImplemented what)], w).
Proof.
  intros Hr Hf Hacc. apply namespace_answer_spec in Hr as [e He].
  destruct (namespace_error _ _ _ _ _ He) as [what ->]. exists what. by eapply batch_refused.
Qed.


(** C34. What the worker and the requests do to the queue keeps it a queue of
    operations: at most one live row for an account, a resource and a type.  A
    pass over the queue ends and keeps it; enqueueing, cancelling, deleting a row,
    and recovering after a crash keep it. *)
Theorem queue_has_one_live_row runtime w i a ty r ps retries now :
  queue_inv (mb w) →
  (∃ w', process_pending_ops runtime w = Some ((), w') ∧ queue_inv (mb w')) ∧
  queue_inv (db_pending_ops_enqueue_sync i a ty r ps retries now (mb w)).2 ∧
  queue_inv (db_pending_ops_cancel_for_resource_sync a r ty (mb w)).2 ∧
  queue_inv (db_pending_ops_delete_sync i (mb w)).2 ∧
  queue_inv (db_pending_ops_recover_on_boot_sync (mb w)).2.
Proof.
  intros Hq. split_and!.
  - by apply queue_inv_pass.
  - by apply queue_inv_enqueue.
  - eapply queue_inv_shrink; [apply map_filter_subseteq|exact Hq].
  - eapply queue_inv_shrink; [apply delete_subseteq|exact Hq].
  - by apply queue_inv_recover.
Qed.
End properties.

(** ** The theorems on the concrete account *)

#[local] Existing Instances tree_json counting_runtime key_scan willing_engine.

Lemma retries_reach_no_provider_witness :
  ∃ w', process_pending_ops true desk = Some ((), w') ∧ calls w' = [] ∧
    ∃ k, pending_operations (mb w') !! [5%N] = Some (attempt_failed (clock k) waiting).
Proof.
  assert (counts_ok (mb desk)) as Hc by (apply (bool_decide_unpack _); vm_compute; exact I).
  destruct (retries_reach_no_provider true desk Hc) as (w' & E & Hcalls & _ & _ & _ & Hsel & _).
  exists w'. split; [exact E|]. split; [exact Hcalls|]. apply Hsel.
  - vm_compute. left.
  - apply (bool_decide_unpack _). vm_compute. exact I.
Defined.

Lemma pending_op_round_trip_witness :
  pending_operation_of move_type
    (default JNull (from_str (to_string (JObj [(slit "folderId", JStr TRASH); (slit "sourceFolderId", JStr INBOX)]))))
  = Some (MoveToFolder (Folder TRASH) (Some (Folder INBOX))).
Proof. apply (pending_op_round_trip (MoveToFolder (Folder TRASH) (Some (Folder INBOX)))). reflexivity. Defined.

Lemma confirmation_survives_recompute_witness :
  ∃ m', confirmed_provider_label_intents acct t1 [(todo, Remove)] (mb desk) = (inr (), m') ∧
    labels_derived acct t1 m' ∧ in_truth m' (acct, t1) todo = false.
Proof.
  destruct (confirmation_survives_recompute acct t1 [(todo, Remove)] (mb desk)) as (m' & E & _ & Hd & Ht & _).
  - apply map_Forall_singleton. reflexivity.
  - assert (derived_labels acct t1 (mb desk) = thread_labels (mb desk)) as E.
    { apply (bool_decide_unpack _). vm_compute. exact I. }
    intros l. rewrite E. reflexivity.
  - apply (bool_decide_unpack _). vm_compute. exact I.
  - split; [vm_compute; reflexivity|]. apply Forall_singleton. discriminate.
  - exists m'. split; [exact E|]. split; [exact Hd|]. rewrite Ht. vm_compute. reflexivity.
Defined.


Lemma refused_action_changes_nothing_witness :
  ∃ what, batch_execute false true [(acct, t1, Trash)] public_desk = Some ([Failed (Remote NotImplemented what)], public_desk).
Proof.
  apply (refused_action_changes_nothing false (mkResident Imap its_containers)).
  - eexists _, _. split; [vm_compute; reflexivity|]. split; [vm_compute; reflexivity|]. split; [by eexists|]. left.
    split; [by eexists|]. vm_compute. reflexivity.
  - apply (bool_decide_unpack _). vm_compute. exact I.
  - reflexivity.
Defined.


Lemma queue_has_one_live_row_witness :
  queue_inv (db_pending_ops_enqueue_sync [6%N] acct archive_type t1 empty_text 10 3 (mb desk)).2.
Proof.
  apply (queue_has_one_live_row true desk [6%N] acct archive_type t1 empty_text 10 3).
  split.
  - intros i j o o' Hi Hj _ _ _. change (pending_operations (mb desk)) with ({[ [5%N] := waiting ]} : gmap str PendingOperation) in *.
    apply lookup_singleton_Some in Hi as [<- _]. apply lookup_singleton_Some in Hj as [<- _].
    reflexivity.
  - apply (bool_decide_unpack _). vm_compute. exact I.
Defined.

(** ** Where the code does not do what it means to *)

(** A batch that archives a thread and pins it (or another of the account), while there
    is no engine for the account, panics: pinning has no type in the queue. *)
Theorem mixed_batch_panics_without_engine :
  batch_execute false false [(acct, t1, Archive); (acct, t1, SetPinned true)] desk = None.
Proof. vm_compute. reflexivity. Qed.

(** What the preflight refuses with an engine is written as an intent and put into
    the queue without one. *)
Theorem label_unchecked_without_engine :
  let run up := observed (λ w, (intent_op <$> intents (mb w) !! (acct, t1, todo), size (pending_operations (mb w))))
    (batch_execute false up [(acct, t1, RemoveLabel (Label todo))] public_desk) in
  run true = Some ([Failed (not_implemented "public-folder items are read-only")], (None, 0)) ∧
  run false = Some ([unavailable], (Some Remove, 1)).
Proof. split; vm_compute; reflexivity. Qed.

(** An account without a trash folder: the action fails, "local not applied", no call is
    made, and the thread has left the inbox. *)
Theorem failed_trash_leaves_inbox :
  let in_inbox w := bool_decide ((acct, t1, INBOX) ∈ thread_folders (mb w)) in
  in_inbox desk = true ∧
  observed (λ w, (in_inbox w, calls w)) (batch_execute false true [(acct, t1, Trash)] desk) =
    Some ([Failed (Db fk_error)], (false, [])).
Proof. split; vm_compute; reflexivity. Qed.

(** Two labels taken off one thread: the retry of the second replaces that of the first,
    whose intent waits for a row that is gone. *)
Theorem second_label_replaces_retry :
  let other := slit "kw:other" in
  observed (λ w, (action_id <$> intents (mb w) !! (acct, t1, todo),
                  bool_decide (pending_operations (mb w) !! [0%N] = None),
                  params <$> pending_operations (mb w) !! [1%N]))
    (batch_execute false false [(acct, t1, RemoveLabel (Label todo)); (acct, t1, RemoveLabel (Label other))] desk) =
  Some ([unavailable; unavailable], (Some (Some [0%N]), true, Some (label_params other))).
Proof. vm_compute. reflexivity. Qed.

(** Two actions want the same of one label before the provider has spoken: the first,
    attaching late, takes the intent from the second, as both saw one generation. *)
Theorem late_attach_takes_intent :
  let ii := [(todo, Remove)] in
  let run := (
    g1 ← upsert_pending_thread_label_intents acct t1 ii None 1;
    g2 ← upsert_pending_thread_label_intents acct t1 ii None 2;
    attach_action_id_to_pending_thread_label_intents acct t1 ii g2 [2%N] 3;;
    attach_action_id_to_pending_thread_label_intents acct t1 ii g1 [1%N] 4) in
  action_id <$> intents (run (mb desk)).2 !! (acct, t1, todo) = Some (Some [1%N]).
Proof. vm_compute. reflexivity. Qed.
