(* ===== verification/Keybinding.v ===== *)
(** * Commands, key bindings and the keyboard

    src/crates/cmdk/src: id.rs (the commands and their names), keybinding.rs
    (chords, sequences, the table of bindings with the user's overrides and their
    file), registry (the defaults and when a command is available), context.rs;
    and src/crates/app/src/handlers/keyboard.rs with [iced_key_to_chord] of
    command_dispatch.rs: from a key press to the message the application updates
    itself with.

    The orders of hash maps and hash sets are [HashOrder].  The file of overrides
    is what serde reads from it, or what keeps it from being read.  Labels,
    categories and descriptions of commands, and the search of the palette, are
    left out. *)

From S2P Require Import Prelude.
From S2P Require Import Graphemes.
From S2P Require Import Strings.

(** ** Keys (keybinding.rs) *)

Inductive NamedKey :=
  | Escape | ArrowUp | ArrowDown | ArrowLeft | ArrowRight | Enter | Tab | Space | Backspace | Delete | Home
  | End | PageUp | PageDown | F1 | F2 | F3 | F4 | F5 | F6 | F7 | F8 | F9 | F10 | F11 | F12.

Definition all_named : list NamedKey :=
  [
   Escape; ArrowUp; ArrowDown; ArrowLeft; ArrowRight; Enter; Tab; Space; Backspace; Delete; Home; End;
   PageUp; PageDown; F1; F2; F3; F4; F5; F6; F7; F8; F9; F10; F11; F12].

Definition named_index (n : NamedKey) : nat :=
  match n with
  | Escape => 0 | ArrowUp => 1 | ArrowDown => 2 | ArrowLeft => 3 | ArrowRight => 4 | Enter => 5 | Tab => 6
  | Space => 7 | Backspace => 8 | Delete => 9 | Home => 10 | End => 11 | PageUp => 12 | PageDown => 13
  | F1 => 14 | F2 => 15 | F3 => 16 | F4 => 17 | F5 => 18 | F6 => 19 | F7 => 20 | F8 => 21 | F9 => 22
  | F10 => 23 | F11 => 24 | F12 => 25
  end.

Lemma named_of_index n : all_named !! named_index n = Some n.
Proof. by destruct n. Qed.

#[export] Instance named_index_inj : Inj (=) (=) named_index.
Proof. intros x y E. pose proof (named_of_index x) as H. rewrite E, named_of_index in H. congruence. Qed.

#[export] Instance NamedKey_eq_dec : EqDecision NamedKey := λ x y,
  match decide (named_index x = named_index y) with
  | left E => left (inj named_index _ _ E)
  | right E => right (λ e, E (f_equal named_index e))
  end.

#[export] Instance NamedKey_countable : Countable NamedKey :=
  inj_countable named_index (λ i, all_named !! i) named_of_index.

(** [NamedKey::as_str] *)
Definition named_str (n : NamedKey) : str :=
  slit match n with
    | Escape => "Escape" | ArrowUp => "ArrowUp" | ArrowDown => "ArrowDown" | ArrowLeft => "ArrowLeft"
    | ArrowRight => "ArrowRight" | Enter => "Enter" | Tab => "Tab" | Space => "Space"
    | Backspace => "Backspace" | Delete => "Delete" | Home => "Home" | End => "End" | PageUp => "PageUp"
    | PageDown => "PageDown" | F1 => "F1" | F2 => "F2" | F3 => "F3" | F4 => "F4" | F5 => "F5" | F6 => "F6"
    | F7 => "F7" | F8 => "F8" | F9 => "F9" | F10 => "F10" | F11 => "F11" | F12 => "F12"
    end.

(** [NamedKey::parse] *)
Definition named_parse (s : str) : option NamedKey :=
  snd <$> list_find (λ n, named_str n = s) all_named.

Inductive Key := Char (c : N) | Named (n : NamedKey).

#[export] Instance Key_eq_dec : EqDecision Key.
Proof. solve_decision. Defined.

#[export] Instance Key_countable : Countable Key :=
  inj_countable' (λ k, match k with Char c => inl c | Named n => inr n end)
    (λ x, match x with inl c => Char c | inr n => Named n end) ltac:(by intros []).

Record Modifiers := mkModifiers { mod_cmd_or_ctrl : bool; mod_shift : bool; mod_alt : bool }.

#[export] Instance Modifiers_eq_dec : EqDecision Modifiers.
Proof. solve_decision. Defined.

#[export] Instance Modifiers_countable : Countable Modifiers :=
  inj_countable' (λ m, (mod_cmd_or_ctrl m, mod_shift m, mod_alt m)) (λ '(c, s, a), mkModifiers c s a)
    ltac:(by intros []).

(** [Modifiers::NONE] *)
Definition no_modifiers : Modifiers := mkModifiers false false false.

Definition has_any (m : Modifiers) : bool := mod_cmd_or_ctrl m || mod_shift m || mod_alt m.

Record Chord := mkChord { chord_key : Key; modifiers : Modifiers }.

#[export] Instance Chord_eq_dec : EqDecision Chord.
Proof. solve_decision. Defined.

#[export] Instance Chord_countable : Countable Chord :=
  inj_countable' (λ c, (chord_key c, modifiers c)) (λ '(k, m), mkChord k m) ltac:(by intros []).

Definition unknown_modifier (m : str) : str := slit "unknown modifier: " ++ m.
Definition unknown_key (k : str) : str := slit "unknown key: " ++ k.

(** One modifier of [Chord::parse]. *)
Definition add_modifier (p : str) (m : Modifiers) : str + Modifiers :=
  if decide (p = slit "CmdOrCtrl" ∨ p = slit "Ctrl" ∨ p = slit "Cmd") then inr (mkModifiers true (mod_shift m) (mod_alt m))
  else if decide (p = slit "Alt") then inr (mkModifiers (mod_cmd_or_ctrl m) (mod_shift m) true)
  else if decide (p = slit "Shift") then inr (mkModifiers (mod_cmd_or_ctrl m) true (mod_alt m))
  else inl (unknown_modifier p).

Definition key_parse (s : str) : str + Key :=
  match named_parse s with
  | Some n => inr (Named n)
  | None => match s with [c] => inr (Char (lower_char c)) | _ => inl (unknown_key s) end
  end.

(** The modifiers and the key in the parts of a chord. *)
Fixpoint parts_parse (ps : list str) (m : Modifiers) : str + Chord :=
  match ps with
  | [] => inl (slit "empty chord")
  | [k] => match key_parse k with inl e => inl e | inr key => inr (mkChord key m) end
  | p :: ps => match add_modifier p m with inl e => inl e | inr m => parts_parse ps m end
  end.

(** [Chord::parse] *)
Definition chord_parse (s : str) : str + Chord := parts_parse (split_char 43 s) no_modifiers.

(** [char::to_ascii_uppercase] *)
Definition upper_char (c : N) : N := if ((97 <=? c) && (c <=? 122))%N then (c - 32)%N else c.

Definition format_with_modifier_label (label : str) (c : Chord) : str :=
  (if mod_cmd_or_ctrl (modifiers c) then label ++ slit "+" else []) ++
  (if mod_alt (modifiers c) then slit "Alt+" else []) ++
  (if mod_shift (modifiers c) then slit "Shift+" else []) ++
  match chord_key c with
  | Char x => [if has_any (modifiers c) then upper_char x else x]
  | Named n => named_str n
  end.

Inductive Platform := Mac | Windows | Linux.

Definition modifier_label (p : Platform) : str :=
  match p with Mac => slit "Cmd" | Windows | Linux => slit "Ctrl" end.

(** [Chord::display], [Chord::canonical] *)
Definition chord_display (p : Platform) : Chord → str := format_with_modifier_label (modifier_label p).
Definition chord_canonical : Chord → str := format_with_modifier_label (slit "CmdOrCtrl").

(** The constructor [Chord] of the source's enum is [Single]. *)
Inductive KeyBinding := Single (c : Chord) | Sequence (first second : Chord).

#[export] Instance KeyBinding_eq_dec : EqDecision KeyBinding.
Proof. solve_decision. Defined.

Definition char_of (c : string) : N := default 0%N (head (slit c)).

Definition chord_of (c : string) : Chord := mkChord (Char (char_of c)) no_modifiers.

(** [KeyBinding::key], [named], [cmd_or_ctrl], [cmd_or_ctrl_shift], [seq] *)
Definition key (c : string) : KeyBinding := Single (chord_of c).
Definition named (n : NamedKey) : KeyBinding := Single (mkChord (Named n) no_modifiers).
Definition cmd_or_ctrl (c : string) : KeyBinding := Single (mkChord (Char (char_of c)) (mkModifiers true false false)).
Definition cmd_or_ctrl_shift (c : string) : KeyBinding :=
  Single (mkChord (Char (char_of c)) (mkModifiers true true false)).
Definition seq (first second : string) : KeyBinding := Sequence (chord_of first) (chord_of second).

Definition then_ : str := Eval vm_compute in slit " then ".

(** [KeyBinding::parse] *)
Definition binding_parse (s : str) : str + KeyBinding :=
  match split_once_str then_ s with
  | Some (first, second) =>
      match chord_parse first with
      | inl e => inl e
      | inr a => match chord_parse second with inl e => inl e | inr b => inr (Sequence a b) end
      end
  | None => match chord_parse s with inl e => inl e | inr c => inr (Single c) end
  end.

Definition binding_display (p : Platform) (b : KeyBinding) : str :=
  match b with
  | Single c => chord_display p c
  | Sequence a b => chord_display p a ++ then_ ++ chord_display p b
  end.

(** [KeyBinding::canonical] *)
Definition canonical (b : KeyBinding) : str :=
  match b with
  | Single c => chord_canonical c
  | Sequence a b => chord_canonical a ++ then_ ++ chord_canonical b
  end.

(** ** Commands (id.rs) *)

Inductive CommandId :=
  | NavNext | NavPrev | NavOpen | NavMsgNext | NavMsgPrev | NavGoInbox | NavGoStarred | NavGoSent
  | NavGoDrafts | NavGoSnoozed | NavGoTrash | NavGoAllMail | NavGoPrimary | NavGoUpdates | NavGoPromotions
  | NavGoSocial | NavGoNewsletters | NavGoTasks | NavGoAttachments | NavEscape | NavigateToLabel
  | EmailArchive | EmailTrash | EmailPermanentDelete | EmailSpam | EmailMarkRead | EmailStar | EmailPin
  | EmailMute | EmailUnsubscribe | EmailMoveToFolder | EmailAddLabel | EmailRemoveLabel | EmailSnooze
  | EmailSelectAll | EmailSelectFromHere | ComposeNew | ComposeReply | ComposeReplyAll | ComposeForward
  | TaskCreate | TaskCreateFromEmail | TaskTogglePanel | TaskViewAll | ViewToggleSidebar
  | ViewSetThemeLight | ViewSetThemeDark | ViewSetThemeSystem | ViewToggleTaskPanel | ViewReadingPaneRight
  | ViewReadingPaneBottom | ViewReadingPaneHidden | CalendarToggle | SwitchToCalendar | SwitchToMail
  | CalendarViewDay | CalendarViewWorkWeek | CalendarViewWeek | CalendarViewMonth | CalendarToday
  | CalendarCreateEvent | CalendarPopOut | AppSearch | AppAskAi | AppHelp | AppSyncFolder | AppOpenPalette
  | Undo | SmartFolderSave | PinnedSearchesClearAll | AppRebuildSearchIndex.

Definition ALL_IDS : list CommandId :=
  [
   NavNext; NavPrev; NavOpen; NavMsgNext; NavMsgPrev; NavGoInbox; NavGoStarred; NavGoSent; NavGoDrafts;
   NavGoSnoozed; NavGoTrash; NavGoAllMail; NavGoPrimary; NavGoUpdates; NavGoPromotions; NavGoSocial;
   NavGoNewsletters; NavGoTasks; NavGoAttachments; NavEscape; NavigateToLabel; EmailArchive; EmailTrash;
   EmailPermanentDelete; EmailSpam; EmailMarkRead; EmailStar; EmailPin; EmailMute; EmailUnsubscribe;
   EmailMoveToFolder; EmailAddLabel; EmailRemoveLabel; EmailSnooze; EmailSelectAll; EmailSelectFromHere;
   ComposeNew; ComposeReply; ComposeReplyAll; ComposeForward; TaskCreate; TaskCreateFromEmail;
   TaskTogglePanel; TaskViewAll; ViewToggleSidebar; ViewSetThemeLight; ViewSetThemeDark;
   ViewSetThemeSystem; ViewToggleTaskPanel; ViewReadingPaneRight; ViewReadingPaneBottom;
   ViewReadingPaneHidden; CalendarToggle; CalendarViewDay; CalendarViewWorkWeek; CalendarViewWeek;
   CalendarViewMonth; CalendarToday; CalendarCreateEvent; CalendarPopOut; SwitchToCalendar; SwitchToMail;
   AppSearch; AppAskAi; AppHelp; AppSyncFolder; AppOpenPalette; Undo; SmartFolderSave;
   PinnedSearchesClearAll; AppRebuildSearchIndex].

Definition command_index (c : CommandId) : nat :=
  match c with
  | NavNext => 0 | NavPrev => 1 | NavOpen => 2 | NavMsgNext => 3 | NavMsgPrev => 4 | NavGoInbox => 5
  | NavGoStarred => 6 | NavGoSent => 7 | NavGoDrafts => 8 | NavGoSnoozed => 9 | NavGoTrash => 10
  | NavGoAllMail => 11 | NavGoPrimary => 12 | NavGoUpdates => 13 | NavGoPromotions => 14
  | NavGoSocial => 15 | NavGoNewsletters => 16 | NavGoTasks => 17 | NavGoAttachments => 18
  | NavEscape => 19 | NavigateToLabel => 20 | EmailArchive => 21 | EmailTrash => 22
  | EmailPermanentDelete => 23 | EmailSpam => 24 | EmailMarkRead => 25 | EmailStar => 26 | EmailPin => 27
  | EmailMute => 28 | EmailUnsubscribe => 29 | EmailMoveToFolder => 30 | EmailAddLabel => 31
  | EmailRemoveLabel => 32 | EmailSnooze => 33 | EmailSelectAll => 34 | EmailSelectFromHere => 35
  | ComposeNew => 36 | ComposeReply => 37 | ComposeReplyAll => 38 | ComposeForward => 39 | TaskCreate => 40
  | TaskCreateFromEmail => 41 | TaskTogglePanel => 42 | TaskViewAll => 43 | ViewToggleSidebar => 44
  | ViewSetThemeLight => 45 | ViewSetThemeDark => 46 | ViewSetThemeSystem => 47 | ViewToggleTaskPanel => 48
  | ViewReadingPaneRight => 49 | ViewReadingPaneBottom => 50 | ViewReadingPaneHidden => 51
  | CalendarToggle => 52 | CalendarViewDay => 53 | CalendarViewWorkWeek => 54 | CalendarViewWeek => 55
  | CalendarViewMonth => 56 | CalendarToday => 57 | CalendarCreateEvent => 58 | CalendarPopOut => 59
  | SwitchToCalendar => 60 | SwitchToMail => 61 | AppSearch => 62 | AppAskAi => 63 | AppHelp => 64
  | AppSyncFolder => 65 | AppOpenPalette => 66 | Undo => 67 | SmartFolderSave => 68
  | PinnedSearchesClearAll => 69 | AppRebuildSearchIndex => 70
  end.

Lemma command_of_index c : ALL_IDS !! command_index c = Some c.
Proof. by destruct c. Qed.

#[export] Instance command_index_inj : Inj (=) (=) command_index.
Proof. intros x y E. pose proof (command_of_index x) as H. rewrite E, command_of_index in H. congruence. Qed.

#[export] Instance CommandId_eq_dec : EqDecision CommandId := λ x y,
  match decide (command_index x = command_index y) with
  | left E => left (inj command_index _ _ E)
  | right E => right (λ e, E (f_equal command_index e))
  end.

#[export] Instance CommandId_countable : Countable CommandId :=
  inj_countable command_index (λ i, ALL_IDS !! i) command_of_index.

Definition TABLE : list (CommandId * string) :=
  [
   (NavNext, "nav.next"); (NavPrev, "nav.prev"); (NavOpen, "nav.open"); (NavMsgNext, "nav.msgNext");
   (NavMsgPrev, "nav.msgPrev"); (NavGoInbox, "nav.goInbox"); (NavGoStarred, "nav.goStarred");
   (NavGoSent, "nav.goSent"); (NavGoDrafts, "nav.goDrafts"); (NavGoSnoozed, "nav.goSnoozed");
   (NavGoTrash, "nav.goTrash"); (NavGoAllMail, "nav.goAllMail"); (NavGoPrimary, "nav.goPrimary");
   (NavGoUpdates, "nav.goUpdates"); (NavGoPromotions, "nav.goPromotions"); (NavGoSocial, "nav.goSocial");
   (NavGoNewsletters, "nav.goNewsletters"); (NavGoTasks, "nav.goTasks");
   (NavGoAttachments, "nav.goAttachments"); (NavEscape, "nav.escape"); (NavigateToLabel, "nav.goLabel");
   (EmailArchive, "email.archive"); (EmailTrash, "email.trash");
   (EmailPermanentDelete, "email.permanentDelete"); (EmailSpam, "email.spam");
   (EmailMarkRead, "email.markRead"); (EmailStar, "email.star"); (EmailPin, "email.pin");
   (EmailMute, "email.mute"); (EmailUnsubscribe, "email.unsubscribe");
   (EmailMoveToFolder, "email.moveToFolder"); (EmailAddLabel, "email.addLabel");
   (EmailRemoveLabel, "email.removeLabel"); (EmailSnooze, "email.snooze");
   (EmailSelectAll, "email.selectAll"); (EmailSelectFromHere, "email.selectFromHere");
   (ComposeNew, "compose.new"); (ComposeReply, "compose.reply"); (ComposeReplyAll, "compose.replyAll");
   (ComposeForward, "compose.forward"); (TaskCreate, "task.create");
   (TaskCreateFromEmail, "task.createFromEmail"); (TaskTogglePanel, "task.togglePanel");
   (TaskViewAll, "task.viewAll"); (ViewToggleSidebar, "view.toggleSidebar");
   (ViewSetThemeLight, "view.setThemeLight"); (ViewSetThemeDark, "view.setThemeDark");
   (ViewSetThemeSystem, "view.setThemeSystem"); (ViewToggleTaskPanel, "view.toggleTaskPanel");
   (ViewReadingPaneRight, "view.readingPaneRight"); (ViewReadingPaneBottom, "view.readingPaneBottom");
   (ViewReadingPaneHidden, "view.readingPaneHidden"); (CalendarToggle, "calendar.toggle");
   (CalendarViewDay, "calendar.viewDay"); (CalendarViewWorkWeek, "calendar.viewWorkWeek");
   (CalendarViewWeek, "calendar.viewWeek"); (CalendarViewMonth, "calendar.viewMonth");
   (CalendarToday, "calendar.today"); (CalendarCreateEvent, "calendar.createEvent");
   (CalendarPopOut, "calendar.popOut"); (SwitchToCalendar, "calendar.switchTo");
   (SwitchToMail, "app.switchToMail"); (AppSearch, "app.search"); (AppAskAi, "app.askAi");
   (AppHelp, "app.help"); (AppSyncFolder, "app.syncFolder"); (AppOpenPalette, "app.openPalette");
   (Undo, "app.undo"); (SmartFolderSave, "smartFolder.save");
   (PinnedSearchesClearAll, "pinnedSearches.clearAll"); (AppRebuildSearchIndex, "app.rebuildSearchIndex")]%string.

(** [CommandId::as_str] *)
Definition id_str (c : CommandId) : str :=
  match list_find (λ e : CommandId * string, e.1 = c) TABLE with
  | Some (_, (_, s)) => slit s
  | None => slit "unknown"
  end.

(** [CommandId::parse] *)
Definition id_parse (s : str) : option CommandId :=
  (λ e : nat * (CommandId * string), e.2.1) <$> list_find (λ e : CommandId * string, slit e.2 = s) TABLE.

(** ** When a command is available (context.rs, registry/scoring.rs) *)

(** The fields of [CommandContext] the availability of a command reads. *)
Record CommandContext := mkContext {
  selected_thread_ids : list str;
  active_message_id : option str;
  active_account_id : option str;
  thread_in_trash : option bool;
  composer_is_open : bool;
  active_pinned_search : option Z;
  has_pinned_searches : bool;
  may_remove_items : option bool;
  may_set_seen : option bool;
  may_set_keywords : option bool;
  may_submit : option bool
}.

Definition always (_ : CommandContext) : bool := true.
Definition has_selection (ctx : CommandContext) : bool := negb (is_nil (selected_thread_ids ctx)).
Definition has_single_selection (ctx : CommandContext) : bool := length (selected_thread_ids ctx) =? 1.
Definition allows_remove_items (ctx : CommandContext) : bool := negb (bool_decide (may_remove_items ctx = Some false)).
Definition allows_set_seen (ctx : CommandContext) : bool := negb (bool_decide (may_set_seen ctx = Some false)).
Definition allows_set_keywords (ctx : CommandContext) : bool := negb (bool_decide (may_set_keywords ctx = Some false)).
Definition allows_submit (ctx : CommandContext) : bool := negb (bool_decide (may_submit ctx = Some false)).

(** ** The registry *)

(** Of [CommandDescriptor] the binding and the availability. *)
Record CommandDescriptor := desc {
  descriptor_id : CommandId;
  keybinding : option KeyBinding;
  is_available : CommandContext → bool
}.

(** The registrations, in their order. *)
Definition register_navigation : list CommandDescriptor :=
  [
   desc NavNext (Some (key "j")) always;
   desc NavPrev (Some (key "k")) always;
   desc NavOpen (Some (key "o")) has_selection;
   desc NavMsgNext (Some (named ArrowDown)) (λ ctx, bool_decide (is_Some (active_message_id ctx)));
   desc NavMsgPrev (Some (named ArrowUp)) (λ ctx, bool_decide (is_Some (active_message_id ctx)));
   desc NavGoInbox (Some (seq "g" "i")) always;
   desc NavGoStarred (Some (seq "g" "s")) always;
   desc NavGoSent (Some (seq "g" "t")) always;
   desc NavGoDrafts (Some (seq "g" "d")) always;
   desc NavGoSnoozed None always;
   desc NavGoTrash None always;
   desc NavGoAllMail None always;
   desc NavigateToLabel (Some (seq "g" "l")) always;
   desc NavGoPrimary (Some (seq "g" "p")) always;
   desc NavGoUpdates (Some (seq "g" "u")) always;
   desc NavGoPromotions (Some (seq "g" "o")) always;
   desc NavGoSocial (Some (seq "g" "c")) always;
   desc NavGoNewsletters (Some (seq "g" "n")) always;
   desc NavGoTasks (Some (seq "g" "k")) always;
   desc NavGoAttachments (Some (seq "g" "a")) always;
   desc NavEscape (Some (named Escape)) (λ ctx, has_selection ctx || composer_is_open ctx)]%string.

Definition register_email : list CommandDescriptor :=
  [
   desc EmailArchive (Some (key "e")) (λ ctx, has_selection ctx && allows_remove_items ctx);
   desc EmailTrash (Some (key "#")) (λ ctx, has_selection ctx && negb (bool_decide (thread_in_trash ctx = Some true)) && allows_remove_items ctx);
   desc EmailPermanentDelete None (λ ctx, has_selection ctx && bool_decide (thread_in_trash ctx = Some true) && allows_remove_items ctx);
   desc EmailSpam (Some (key "!")) (λ ctx, has_selection ctx && allows_remove_items ctx);
   desc EmailMarkRead None (λ ctx, has_selection ctx && allows_set_seen ctx);
   desc EmailStar (Some (key "s")) (λ ctx, has_selection ctx && allows_set_keywords ctx);
   desc EmailPin (Some (key "p")) (λ ctx, has_selection ctx && allows_set_keywords ctx);
   desc EmailMute (Some (key "m")) (λ ctx, has_selection ctx && allows_set_keywords ctx);
   desc EmailUnsubscribe (Some (key "u")) has_single_selection;
   desc EmailMoveToFolder (Some (key "v")) (λ ctx, has_selection ctx && allows_remove_items ctx);
   desc EmailAddLabel None has_selection;
   desc EmailRemoveLabel None has_selection;
   desc EmailSnooze None has_selection;
   desc EmailSelectAll (Some (cmd_or_ctrl "a")) always;
   desc EmailSelectFromHere (Some (cmd_or_ctrl_shift "a")) has_selection]%string.

Definition register_compose : list CommandDescriptor :=
  [
   desc ComposeNew (Some (key "c")) always;
   desc ComposeReply (Some (key "r")) (λ ctx, has_selection ctx && allows_submit ctx);
   desc ComposeReplyAll (Some (key "a")) (λ ctx, has_selection ctx && allows_submit ctx);
   desc ComposeForward (Some (key "f")) (λ ctx, has_selection ctx && allows_submit ctx)]%string.

Definition register_tasks : list CommandDescriptor :=
  [
   desc TaskCreate None always;
   desc TaskCreateFromEmail (Some (key "t")) has_selection;
   desc TaskTogglePanel None always;
   desc TaskViewAll None always]%string.

Definition register_view : list CommandDescriptor :=
  [
   desc ViewToggleSidebar (Some (cmd_or_ctrl_shift "e")) always;
   desc ViewSetThemeLight None always;
   desc ViewSetThemeDark None always;
   desc ViewSetThemeSystem None always;
   desc ViewToggleTaskPanel None always;
   desc ViewReadingPaneRight None always;
   desc ViewReadingPaneBottom None always;
   desc ViewReadingPaneHidden None always]%string.

Definition register_calendar : list CommandDescriptor :=
  [
   desc CalendarToggle (Some (cmd_or_ctrl "2")) always;
   desc SwitchToCalendar None always;
   desc SwitchToMail (Some (cmd_or_ctrl "1")) always;
   desc CalendarViewDay None always;
   desc CalendarViewWorkWeek None always;
   desc CalendarViewWeek None always;
   desc CalendarViewMonth None always;
   desc CalendarToday None always;
   desc CalendarCreateEvent None always;
   desc CalendarPopOut None always]%string.

Definition register_app : list CommandDescriptor :=
  [
   desc AppSearch (Some (key "/")) always;
   desc AppAskAi (Some (key "i")) always;
   desc AppHelp (Some (key "?")) always;
   desc AppSyncFolder (Some (named F5)) (λ ctx, bool_decide (is_Some (active_account_id ctx)));
   desc AppOpenPalette (Some (cmd_or_ctrl "k")) always;
   desc Undo (Some (cmd_or_ctrl "z")) always;
   desc AppRebuildSearchIndex None always]%string.

Definition register_smart_folders : list CommandDescriptor :=
  [
   desc SmartFolderSave None (λ ctx, bool_decide (is_Some (active_pinned_search ctx)));
   desc PinnedSearchesClearAll None (λ ctx, has_pinned_searches ctx)]%string.

(** [CommandRegistry::new] *)
Definition registry : list CommandDescriptor :=
  register_navigation ++ register_email ++ register_compose ++ register_tasks ++
  register_view ++ register_calendar ++ register_app ++ register_smart_folders.

(** [CommandRegistry::get] *)
Definition registry_get (r : list CommandDescriptor) (id : CommandId) : option CommandDescriptor :=
  snd <$> list_find (λ d, descriptor_id d = id) r.

Definition default_bindings (r : list CommandDescriptor) : list (CommandId * KeyBinding) :=
  omap (λ d, b ← keybinding d; Some (descriptor_id d, b)) r.

(** ** The table of bindings *)

Record BindingTable := mkTable {
  defaults : gmap CommandId KeyBinding;
  overrides : gmap CommandId (option KeyBinding);
  single_reverse : gmap Chord CommandId;
  sequence_first_chords : gmap Chord (gmap Chord CommandId);
  platform : Platform
}.

(** A [match] on what the overrides have for a command. *)
Definition effective (ds : gmap CommandId KeyBinding) (os : gmap CommandId (option KeyBinding)) (id : CommandId)
    : option KeyBinding :=
  match os !! id with
  | Some b => b
  | None => ds !! id
  end.

Definition binding_for (t : BindingTable) (id : CommandId) : option KeyBinding :=
  effective (defaults t) (overrides t) id.

Definition display_binding (t : BindingTable) (id : CommandId) : option str :=
  binding_display (platform t) <$> binding_for t id.

Definition reverse_entry (r : gmap Chord CommandId * gmap Chord (gmap Chord CommandId)) (e : CommandId * KeyBinding)
    : gmap Chord CommandId * gmap Chord (gmap Chord CommandId) :=
  match e.2 with
  | Single c => (<[c := e.1]> r.1, r.2)
  | Sequence first second => (r.1, <[first := <[second := e.1]> (default ∅ (r.2 !! first))]> r.2)
  end.

(** The commands with a binding, in the order of the [HashSet]. *)
Definition bound_commands `{HashOrder} (ds : gmap CommandId KeyBinding) (os : gmap CommandId (option KeyBinding))
    : list (CommandId * KeyBinding) :=
  omap (λ id, b ← effective ds os id; Some (id, b)) (hash_order (elements (dom ds ∪ dom os))).

Definition rebuild_reverse `{HashOrder} (t : BindingTable) : BindingTable :=
  let r := foldl reverse_entry (∅, ∅) (bound_commands (defaults t) (overrides t)) in
  mkTable (defaults t) (overrides t) r.1 r.2 (platform t).

(** [BindingTable::new]; the check of a debug build is left out. *)
Definition new_table `{HashOrder} (r : list CommandDescriptor) (p : Platform) : BindingTable :=
  rebuild_reverse (mkTable (list_to_map (default_bindings r)) ∅ ∅ ∅ p).

Definition with_overrides `{HashOrder} (os : gmap CommandId (option KeyBinding)) (t : BindingTable) : BindingTable :=
  rebuild_reverse (mkTable (defaults t) os (single_reverse t) (sequence_first_chords t) (platform t)).

Definition load_overrides `{HashOrder} : gmap CommandId (option KeyBinding) → BindingTable → BindingTable :=
  with_overrides.

Inductive ResolveResult := NoMatch | Command (id : CommandId) | Pending.

Definition resolve_chord (t : BindingTable) (c : Chord) : ResolveResult :=
  match sequence_first_chords t !! c with
  | Some _ => Pending
  | None => match single_reverse t !! c with Some id => Command id | None => NoMatch end
  end.

Definition resolve_sequence (t : BindingTable) (first second : Chord) : option CommandId :=
  m ← sequence_first_chords t !! first; m !! second.

Definition check_chord_conflict `{HashOrder} (t : BindingTable) (id : CommandId) (c : Chord) : option CommandId :=
  match single_reverse t !! c with
  | Some existing => if decide (existing ≠ id) then Some existing else None
  | None => None
  end ∪
  (m ← sequence_first_chords t !! c;
   snd <$> list_find (λ cmd, cmd ≠ id) (hash_order (map snd (map_to_list m)))).

Definition check_sequence_conflict (t : BindingTable) (id : CommandId) (first second : Chord) : option CommandId :=
  match single_reverse t !! first with
  | Some existing => if decide (existing ≠ id) then Some existing else None
  | None => None
  end ∪
  (existing ← resolve_sequence t first second; if decide (existing ≠ id) then Some existing else None).

Definition check_conflict `{HashOrder} (t : BindingTable) (id : CommandId) (b : KeyBinding) : option CommandId :=
  match b with
  | Single c => check_chord_conflict t id c
  | Sequence first second => check_sequence_conflict t id first second
  end.

Definition set_override `{HashOrder} (id : CommandId) (b : KeyBinding) (t : BindingTable)
    : (CommandId + unit) * BindingTable :=
  match check_conflict t id b with
  | Some conflict => (inl conflict, t)
  | None => (inr (), with_overrides (<[id := Some b]> (overrides t)) t)
  end.

Definition unbind `{HashOrder} (id : CommandId) (t : BindingTable) : BindingTable :=
  with_overrides (<[id := None]> (overrides t)) t.

Definition remove_override `{HashOrder} (id : CommandId) (t : BindingTable) : BindingTable :=
  with_overrides (delete id (overrides t)) t.

Definition reset_all `{HashOrder} (t : BindingTable) : BindingTable := with_overrides ∅ t.

(** *** The file of overrides *)

(** [OverridesFile], as serde writes and reads it. *)
Definition OverridesFile := gmap str (option str).

Inductive disk := Missing | Unreadable (e : str) | Holds (f : OverridesFile).

Definition saved_row (e : CommandId * option KeyBinding) : str * option str := (id_str e.1, canonical <$> e.2).

(** Removing and writing do not fail here. *)
Definition save_overrides (t : BindingTable) (d : disk) : disk :=
  if decide (overrides t = ∅) then Missing
  else Holds (list_to_map (saved_row <$> map_to_list (overrides t))).

Definition read_entry (os : gmap CommandId (option KeyBinding)) (e : str * option str)
    : gmap CommandId (option KeyBinding) :=
  match id_parse e.1 with
  | None => os
  | Some id =>
      match e.2 with
      | None => <[id := None]> os
      | Some s => match binding_parse s with inl _ => os | inr b => <[id := Some b]> os end
      end
  end.

(** The keys of the file are distinct and so are the commands they name: the order
    in which they are read does not matter. *)
Definition load_overrides_from_file `{HashOrder} (d : disk) (t : BindingTable) : (str + unit) * BindingTable :=
  match d with
  | Missing => (inr (), t)
  | Unreadable e => (inl e, t)
  | Holds f => (inr (), with_overrides (foldl read_entry ∅ (map_to_list f)) t)
  end.

(** *** What the application does with them (handlers/commands.rs) *)

Definition set_keybinding `{HashOrder} (id : CommandId) (b : KeyBinding) (s : BindingTable * disk)
    : (CommandId + unit) * (BindingTable * disk) :=
  match set_override id b s.1 with
  | (inl c, t) => (inl c, (t, s.2))
  | (inr _, t) => (inr (), (t, save_overrides t s.2))
  end.

Definition and_save (f : BindingTable → BindingTable) (s : BindingTable * disk) : BindingTable * disk :=
  (f s.1, save_overrides (f s.1) s.2).

Definition unbind_keybinding `{HashOrder} (id : CommandId) : BindingTable * disk → BindingTable * disk := and_save (unbind id).
Definition remove_keybinding_override `{HashOrder} (id : CommandId) : BindingTable * disk → BindingTable * disk :=
  and_save (remove_override id).
Definition reset_all_keybindings `{HashOrder} : BindingTable * disk → BindingTable * disk := and_save reset_all.

(** ** The keyboard (keyboard.rs, command_dispatch.rs) *)

(** The keys of iced: the text a key gives, a named key the commands know or
    another, anything else. *)
Inductive iced_key := Character (s : str) | INamed (n : NamedKey) | IOtherNamed | Unidentified.

#[export] Instance iced_key_eq_dec : EqDecision iced_key.
Proof. solve_decision. Defined.

Record iced_modifiers := mkIcedModifiers { i_command : bool; i_control : bool; i_shift : bool; i_alt : bool }.

Inductive iced_status := Ignored | Captured.

#[export] Instance iced_status_eq_dec : EqDecision iced_status.
Proof. solve_decision. Defined.

Definition has_command_modifier (m : iced_modifiers) : bool := i_command m || i_control m.

Definition iced_key_to_chord (k : iced_key) (m : iced_modifiers) : option Chord :=
  k ← match k with
      | Character s => c ← head s; Some (Char (lower_char c))
      | INamed n => Some (Named n)
      | IOtherNamed | Unidentified => None
      end;
  Some (mkChord k (mkModifiers (has_command_modifier m) (i_shift m) (i_alt m))).

(** A composer in a window of its own, as far as the keyboard closes its dialogs. *)
Record ComposeState := mkCompose {
  link_dialog_open : bool;
  link_url : str;
  link_text : str;
  discard_confirm_open : bool;
  save_group_dialog_open : bool;
  save_group_name : str;
  save_group_error : option str;
  save_group_in_flight : bool
}.

Inductive PopOutWindow := Compose (s : ComposeState) | OtherWindow.

(** What the handlers of the keyboard read and write of the application. *)
Record app := mkApp {
  main_window_id : N;
  pop_out_windows : gmap N PopOutWindow;
  palette_open : bool;
  show_settings : bool;
  pending_discard : bool;
  focused_filter : option str;
  active_sheet : bool;
  typeahead_visible : bool;
  typeahead_selected : nat;
  binding_table : BindingTable;
  pending_chord : option Chord;
  command_context : CommandContext
}.

Definition set_pending_chord (p : option Chord) (a : app) : app :=
  mkApp (main_window_id a) (pop_out_windows a) (palette_open a) (show_settings a) (pending_discard a)
    (focused_filter a) (active_sheet a) (typeahead_visible a) (typeahead_selected a) (binding_table a) p
    (command_context a).

Definition set_pop_out (w : N) (s : PopOutWindow) (a : app) : app :=
  mkApp (main_window_id a) (<[w := s]> (pop_out_windows a)) (palette_open a) (show_settings a) (pending_discard a)
    (focused_filter a) (active_sheet a) (typeahead_visible a) (typeahead_selected a) (binding_table a)
    (pending_chord a) (command_context a).

(** The messages the application is updated with, and the closing of a window. *)
Inductive Message :=
  | PaletteClose | PaletteSelectNext | PaletteSelectPrev | PaletteConfirm
  | CancelDiscardEditorChanges | FilterCleared (id : str) | CloseSheet | CloseSettings
  | TypeaheadUp | TypeaheadDown | TypeaheadSelect (i : nat) | TypeaheadDismiss
  | ExecuteCommand (id : CommandId)
  | WindowClose (w : N).

Definition is_command_available (a : app) (id : CommandId) : bool :=
  match registry_get registry id with
  | Some d => is_available d (command_context a)
  | None => false
  end.

Definition handle_palette_key (k : iced_key) : option Message :=
  match k with
  | INamed Escape => Some PaletteClose
  | INamed ArrowDown => Some PaletteSelectNext
  | INamed ArrowUp => Some PaletteSelectPrev
  | INamed Enter => Some PaletteConfirm
  | _ => None
  end.

Definition handle_settings_key (k : iced_key) (a : app) : option Message :=
  if decide (k = INamed Escape) then
    Some (if pending_discard a then CancelDiscardEditorChanges
          else match focused_filter a with
               | Some f => FilterCleared f
               | None => if active_sheet a then CloseSheet else CloseSettings
               end)
  else None.

Definition handle_typeahead_key (k : iced_key) (a : app) : option Message :=
  match k with
  | INamed ArrowUp => Some TypeaheadUp
  | INamed ArrowDown => Some TypeaheadDown
  | INamed Tab => Some (TypeaheadSelect (typeahead_selected a))
  | INamed Escape => Some TypeaheadDismiss
  | _ => None
  end.

Definition execute (a : app) (id : CommandId) : option Message :=
  if is_command_available a id then Some (ExecuteCommand id) else None.

Definition try_resolve_single_chord (c : Chord) (a : app) : option Message * app :=
  match resolve_chord (binding_table a) c with
  | Command id => (execute a id, a)
  | Pending => (None, set_pending_chord (Some c) a)
  | NoMatch => (None, a)
  end.

(** The steps from the conversion to a chord on. *)
Definition handle_chord (c : Chord) (a : app) : option Message * app :=
  match pending_chord a with
  | Some first =>
      let a := set_pending_chord None a in
      match resolve_sequence (binding_table a) first c with
      | Some id => (execute a id, a)
      | None => try_resolve_single_chord c a
      end
  | None => try_resolve_single_chord c a
  end.

Definition handle_shortcut (k : iced_key) (m : iced_modifiers) (s : iced_status) (a : app) : option Message * app :=
  if bool_decide (s = Captured) && negb (has_command_modifier m) then (None, a)
  else match iced_key_to_chord k m with
       | None => (None, a)
       | Some c => handle_chord c a
       end.

Definition handle_key_pressed (k : iced_key) (m : iced_modifiers) (s : iced_status) (a : app) : option Message * app :=
  if palette_open a then (handle_palette_key k, a)
  else if show_settings a then (handle_settings_key k a, a)
  else
    match (if typeahead_visible a then handle_typeahead_key k a else None) with
    | Some msg => (Some msg, a)
    | None => handle_shortcut k m s a
    end.

(** Escape in the window of a composer closes what is open over it. *)
Definition close_dialog (s : ComposeState) : option ComposeState :=
  if link_dialog_open s then
    Some (mkCompose false [] [] (discard_confirm_open s) (save_group_dialog_open s) (save_group_name s)
            (save_group_error s) (save_group_in_flight s))
  else if discard_confirm_open s then
    Some (mkCompose (link_dialog_open s) (link_url s) (link_text s) false (save_group_dialog_open s)
            (save_group_name s) (save_group_error s) (save_group_in_flight s))
  else if save_group_dialog_open s then
    Some (mkCompose (link_dialog_open s) (link_url s) (link_text s) (discard_confirm_open s) false [] None false)
  else None.

Inductive KeyEventMessage :=
  | KeyPressed (k : iced_key) (m : iced_modifiers) (s : iced_status) (window : N)
  | PendingChordTimeout.

Definition handle_key_event (e : KeyEventMessage) (a : app) : option Message * app :=
  match e with
  | PendingChordTimeout => (None, set_pending_chord None a)
  | KeyPressed k m s w =>
      if decide (k = INamed Escape ∧ w ≠ main_window_id a) then
        match pop_out_windows a !! w with
        | Some (Compose c) =>
            match close_dialog c with
            | Some c => (None, set_pop_out w (Compose c) a)
            | None => (Some (WindowClose w), a)
            end
        | Some OtherWindow => (Some (WindowClose w), a)
        | None => handle_key_pressed k m s a
        end
      else handle_key_pressed k m s a
  end.
