(* ===== verification/KeybindingProperties.v ===== *)
(** * What the key bindings promise

    Texts of bindings read back as the bindings; the table resolves chords to the
    bindings in force, whatever the orders of its hash maps; overrides keep it free
    of conflicts and survive a restart; and what a press of a key does.  At the end
    closed runs in which the code does not do what it means to. *)

From Stdlib Require Import ZifyBool.
From S2P Require Import Prelude.
From S2P Require Import Graphemes.
From S2P Require Import Strings.
From S2P Require Import Keybinding.

(** ** Texts *)

(** A character as [Key::Char] holds it. *)
Definition lowercase_key (k : Key) : Prop := match k with Char c => lower_char c = c | Named _ => True end.
Definition not_plus (k : Key) : Prop := k ≠ Char 43.

(** The chords of a binding. *)
Definition chords (b : KeyBinding) : list Chord :=
  match b with Single c => [c] | Sequence a b => [a; b] end.

Definition lowercase (b : KeyBinding) : Prop := Forall (λ c, lowercase_key (chord_key c)) (chords b).
Definition printable (b : KeyBinding) : Prop := Forall (λ c, not_plus (chord_key c)) (chords b).

#[export] Instance printable_dec b : Decision (printable b).
Proof. unfold printable, not_plus. apply _. Defined.

Definition key_text (c : Chord) : str :=
  match chord_key c with
  | Char x => [if has_any (modifiers c) then upper_char x else x]
  | Named n => named_str n
  end.

Lemma named_parse_str n : named_parse (named_str n) = Some n.
Proof. by destruct n; vm_compute. Qed.

Lemma named_str_long n : ∃ x y s, named_str n = x :: y :: s.
Proof. by destruct n; eexists _, _, _; vm_compute. Qed.

Lemma named_parse_char x : named_parse [x] = None.
Proof.
  unfold named_parse. apply fmap_None, list_find_None, Forall_forall. intros n _ E.
  destruct (named_str_long n) as (a & b & s & En). congruence.
Qed.

Lemma lower_upper x : lower_char x = x → lower_char (upper_char x) = x.
Proof.
  unfold lower_char, upper_char. destruct ((65 <=? x) && (x <=? 90))%N eqn:E; [lia|]. intros _.
  destruct ((97 <=? x) && (x <=? 122))%N eqn:E2; [|by rewrite E].
  destruct ((65 <=? x - 32) && (x - 32 <=? 90))%N eqn:E3; lia.
Qed.

Lemma lower_lower x : lower_char (lower_char x) = lower_char x.
Proof.
  unfold lower_char. destruct ((65 <=? x) && (x <=? 90))%N eqn:E; [|by rewrite E].
  destruct ((65 <=? x + 32) && (x + 32 <=? 90))%N eqn:E'; lia.
Qed.

Lemma upper_plus x : upper_char x = 43%N → x = 43%N.
Proof. unfold upper_char. destruct ((97 <=? x) && (x <=? 122))%N eqn:E; lia. Qed.

Lemma key_text_no_plus c : not_plus (chord_key c) → 43%N ∉ key_text c.
Proof.
  unfold not_plus, key_text. destruct (chord_key c) as [x|n]; intros Hp.
  - intros Hx%list_elem_of_singleton. apply Hp. f_equal. destruct (has_any _); [symmetry in Hx; by apply upper_plus in Hx|done].
  - clear. destruct n; apply (bool_decide_unpack _); vm_compute; exact I.
Qed.

Lemma key_parse_text c : lowercase_key (chord_key c) → key_parse (key_text c) = inr (chord_key c).
Proof.
  unfold key_parse, key_text. destruct (chord_key c) as [x|n]; intros Hl; [|by rewrite named_parse_str].
  rewrite named_parse_char. do 2 f_equal. destruct (has_any _); [by apply lower_upper|done].
Qed.

(** The modifiers of a chord as its text has them. *)
Definition modifier_texts (m : Modifiers) : list str :=
  (if mod_cmd_or_ctrl m then [slit "CmdOrCtrl"] else []) ++ (if mod_alt m then [slit "Alt"] else []) ++
  (if mod_shift m then [slit "Shift"] else []).

Lemma split_modifier p s : bool_decide (43%N ∉ p) = true → split_char 43 ((p ++ slit "+") ++ s) = p :: split_char 43 s.
Proof. intros Hp%bool_decide_eq_true. rewrite <-app_assoc. by apply split_char_app. Qed.

Lemma canonical_parts c : 43%N ∉ key_text c → split_char 43 (chord_canonical c) = modifier_texts (modifiers c) ++ [key_text c].
Proof.
  intros Hk. unfold chord_canonical, format_with_modifier_label. fold (key_text c).
  change (slit "Alt+") with (slit "Alt" ++ slit "+"). change (slit "Shift+") with (slit "Shift" ++ slit "+").
  destruct (modifiers c) as [[] [] []]; unfold modifier_texts; cbn [mod_cmd_or_ctrl mod_shift mod_alt];
    rewrite ?app_nil_l; repeat (rewrite split_modifier; [|vm_compute; reflexivity]); by rewrite split_char_end.
Qed.

Lemma parse_texts m k : parts_parse (modifier_texts m ++ [k]) no_modifiers =
  match key_parse k with inl e => inl e | inr key => inr (mkChord key m) end.
Proof. by destruct m as [[] [] []]. Qed.

Lemma chord_parse_canonical c : lowercase_key (chord_key c) →
  if decide (not_plus (chord_key c)) then chord_parse (chord_canonical c) = inr c
  else ∃ e, chord_parse (chord_canonical c) = inl e.
Proof.
  intros Hl. destruct (decide _) as [Hp|Hp].
  - unfold chord_parse. rewrite canonical_parts; [|by apply key_text_no_plus].
    rewrite parse_texts, key_parse_text by done. by destruct c.
  - apply dec_stable in Hp. destruct c as [k m]. cbn in Hp. subst k.
    destruct m as [[] [] []]; eexists; vm_compute; reflexivity.
Qed.

Lemma split_char_parts c s p : p ∈ split_char c s → c ∉ p.
Proof.
  revert p. induction s as [|x s IH]; cbn; intros p; [intros ->%list_elem_of_singleton; apply not_elem_of_nil|].
  destruct (x =? c)%N eqn:E.
  - intros [->|Hp]%elem_of_cons; [apply not_elem_of_nil|by apply IH].
  - apply N.eqb_neq in E. destruct (split_char c s) as [|q qs].
    + intros ->%list_elem_of_singleton. set_solver.
    + intros [->|Hp]%elem_of_cons; [|apply IH; set_solver].
      assert (c ∉ q) by (apply IH; set_solver). set_solver.
Qed.

Lemma parts_parse_key ps m c : parts_parse ps m = inr c → ∃ k, k ∈ ps ∧ key_parse k = inr (chord_key c).
Proof.
  revert m. induction ps as [|p ps IH]; intros m; [done|]. destruct ps as [|q ps].
  - cbn. destruct (key_parse p) as [e|k] eqn:E; [done|]. intros [= <-]. exists p. by rewrite list_elem_of_singleton.
  - change (parts_parse (p :: q :: ps) m) with
      (match add_modifier p m with inl e => inl e | inr m => parts_parse (q :: ps) m end).
    destruct (add_modifier p m) as [e|m']; [done|]. intros (k & Hk & E)%IH. exists k. split; [by right|done].
Qed.

Lemma chord_parse_fits s c : chord_parse s = inr c → lowercase_key (chord_key c) ∧ not_plus (chord_key c).
Proof.
  intros (k & Hk & E)%parts_parse_key. apply split_char_parts in Hk. unfold key_parse in E.
  destruct (named_parse k) as [n|]; [injection E as <-; split; [done|discriminate]|].
  destruct k as [|x [|]]; [done| |done]. injection E as <-. cbn. split; [apply lower_lower|].
  unfold not_plus, lower_char. destruct ((65 <=? x) && (x <=? 90))%N eqn:E; intros [= ?]; [lia|set_solver].
Qed.

(** A text whose only blank, if any, is its last character. *)
Fixpoint blank_last (s : str) : Prop :=
  match s with
  | [] => True
  | x :: s => (x = 32%N → s = []) ∧ blank_last s
  end.

Lemma split_then a b : blank_last a → split_once_str then_ (a ++ then_ ++ b) = Some (a, b).
Proof.
  induction a as [|x a IH]; intros Ha; [reflexivity|]. destruct Ha as [Hx Ha].
  change ((x :: a) ++ then_ ++ b) with (x :: (a ++ then_ ++ b)).
  assert (strip_prefix then_ (x :: (a ++ then_ ++ b)) = None) as E.
  { unfold then_ at 1. cbn [strip_prefix]. destruct (32 =? x)%N eqn:Hd; [|done]. apply N.eqb_eq in Hd.
    rewrite Hx by done. reflexivity. }
  cbn [split_once_str]. rewrite E, (IH Ha). reflexivity.
Qed.

Lemma split_no_then a : blank_last a → split_once_str then_ a = None.
Proof.
  induction a as [|x a IH]; [reflexivity|]. intros [Hx Ha]. cbn [split_once_str].
  assert (strip_prefix then_ (x :: a) = None) as ->.
  { unfold then_. cbn [strip_prefix]. destruct (32 =? x)%N eqn:Hd; [|done]. apply N.eqb_eq in Hd.
    rewrite Hx by done. reflexivity. }
  by rewrite (IH Ha).
Qed.

Lemma blank_last_app a b : bool_decide (32%N ∉ a) = true → blank_last b → blank_last (a ++ b).
Proof.
  intros Ha%bool_decide_eq_true Hb. induction a as [|x a IH]; [done|]. split; [intros ->; set_solver|apply IH; set_solver].
Qed.

Lemma canonical_blank_last c : blank_last (chord_canonical c).
Proof.
  unfold chord_canonical, format_with_modifier_label. fold (key_text c).
  repeat (apply blank_last_app; [by destruct (modifiers c) as [[] [] []]; vm_compute|]).
  unfold key_text. destruct (chord_key c) as [x|n]; [done|]. destruct n; vm_compute; repeat split; intros; discriminate.
Qed.

(** The text of a binding reads back unless a key of it is the plus sign. *)
Lemma binding_parse_canonical b : lowercase b →
  (printable b ∧ binding_parse (canonical b) = inr b) ∨ (¬ printable b ∧ ∃ e, binding_parse (canonical b) = inl e).
Proof.
  unfold lowercase, printable. destruct b as [c|a b]; cbn [chords]; rewrite ?Forall_cons, ?Forall_nil.
  - intros [Hl _]. pose proof (chord_parse_canonical c Hl) as Hc. unfold binding_parse, canonical.
    rewrite split_no_then by apply canonical_blank_last.
    destruct (decide (not_plus (chord_key c))) as [Hp|Hp]; [left; by rewrite Hc|right].
    destruct Hc as [e ->]. split; [tauto|by exists e].
  - intros (Ha & Hb & _). pose proof (chord_parse_canonical a Ha) as Hca. pose proof (chord_parse_canonical b Hb) as Hcb.
    unfold binding_parse, canonical. rewrite split_then by apply canonical_blank_last.
    destruct (decide (not_plus (chord_key a))) as [Hpa|Hpa].
    + rewrite Hca. destruct (decide (not_plus (chord_key b))) as [Hpb|Hpb]; [left; by rewrite Hcb|right].
      destruct Hcb as [e ->]. split; [tauto|by exists e].
    + right. destruct Hca as [e ->]. split; [tauto|by exists e].
Qed.

Lemma binding_parse_fits s b : binding_parse s = inr b → lowercase b ∧ printable b.
Proof.
  unfold binding_parse, lowercase, printable. destruct (split_once_str then_ s) as [[f g]|].
  - destruct (chord_parse f) as [|x] eqn:Ex; [done|]. destruct (chord_parse g) as [|y] eqn:Ey; [done|].
    intros [= <-]. apply chord_parse_fits in Ex as [? ?], Ey as [? ?]. cbn. by rewrite !Forall_cons, !Forall_nil.
  - destruct (chord_parse s) as [|x] eqn:Ex; [done|]. intros [= <-]. apply chord_parse_fits in Ex as [? ?].
    cbn. by rewrite !Forall_cons, !Forall_nil.
Qed.

(** ** The table against the bindings in force *)

(** Two commands cannot both have these bindings. *)
Definition clash (b b' : KeyBinding) : Prop :=
  match b, b' with
  | Single c, Single d | Single c, Sequence d _ | Sequence c _, Single d => c = d
  | Sequence c d, Sequence c' d' => c = c' ∧ d = d'
  end.

#[export] Instance clash_dec b b' : Decision (clash b b').
Proof. destruct b, b'; cbn; apply _. Defined.

Lemma clash_sym b b' : clash b b' → clash b' b.
Proof. destruct b, b'; cbn; try done. by intros [-> ->]. Qed.

(** The bindings in force leave no chord to two commands. *)
Definition consistent (e : CommandId → option KeyBinding) : Prop :=
  ∀ i j b b', e i = Some b → e j = Some b' → clash b b' → i = j.

(** The commands, by what is found for them. *)
Record indexed (e : CommandId → option KeyBinding) (t : BindingTable) : Prop := {
  ix_single c id : single_reverse t !! c = Some id ↔ e id = Some (Single c);
  ix_sequence a b id : resolve_sequence t a b = Some id ↔ e id = Some (Sequence a b);
  ix_first a : is_Some (sequence_first_chords t !! a) ↔ ∃ id b, e id = Some (Sequence a b)
}.

Lemma effective_bound ds os id b : effective ds os id = Some b → id ∈ dom ds ∪ dom os.
Proof.
  unfold effective. destruct (os !! id) as [b'|] eqn:E; intros Hb.
  - apply elem_of_union_r, elem_of_dom. by eexists.
  - apply elem_of_union_l, elem_of_dom. by eexists.
Qed.

Lemma elem_bound_commands (H : HashOrder) ds os id b :
  (id, b) ∈ bound_commands ds os ↔ effective ds os id = Some b.
Proof.
  unfold bound_commands. rewrite list_elem_of_omap. split.
  - intros (x & _ & E). destruct (effective ds os x) as [b'|] eqn:Ex; cbn in E; [|done]. congruence.
  - intros Hb. exists id. rewrite hash_order_rows, elem_of_elements, Hb. split; [by eapply effective_bound|done].
Qed.

(** What the loop over the commands leaves, in any order of them. *)
Record entered (l : list (CommandId * KeyBinding)) (r : gmap Chord CommandId * gmap Chord (gmap Chord CommandId)) : Prop := {
  en_single c id : r.1 !! c = Some id ↔ (id, Single c) ∈ l;
  en_sequence a b id : r.2 !! a ≫= (.!! b) = Some id ↔ (id, Sequence a b) ∈ l;
  en_first a : is_Some (r.2 !! a) ↔ ∃ id b, (id, Sequence a b) ∈ l
}.

Lemma entered_step l r x : entered l r → (∀ y, y ∈ l → clash x.2 y.2 → x.1 = y.1) → entered (l ++ [x]) (reverse_entry r x).
Proof.
  intros [H1 H2 H3] Hx. destruct x as [i b], r as [r s]. cbn [fst snd] in *. unfold reverse_entry. cbn [fst snd].
  destruct b as [c|a b]; split; cbn [fst snd].
  - intros d id. rewrite elem_of_app, list_elem_of_singleton, <-H1, lookup_insert_Some.
    destruct (decide (c = d)) as [->|]; [|naive_solver].
    split; [naive_solver|]. intros [Hr|?]; [|naive_solver]. left. split; [done|].
    by apply (Hx (id, Single d)); [apply H1|].
  - intros. rewrite elem_of_app, list_elem_of_singleton, H2. naive_solver.
  - intros a. rewrite H3. split; intros (id & b & Hb); exists id, b; revert Hb; rewrite elem_of_app, list_elem_of_singleton; naive_solver.
  - intros. rewrite elem_of_app, list_elem_of_singleton, H1. naive_solver.
  - intros a' b' id. rewrite elem_of_app, list_elem_of_singleton, <-H2.
    destruct (decide (a = a')) as [->|]; [|rewrite lookup_insert_ne by done; naive_solver].
    rewrite lookup_insert_eq. cbn. rewrite lookup_insert_Some.
    assert (default ∅ (s !! a') !! b' = s !! a' ≫= (.!! b')) as -> by (by destruct (s !! a')).
    destruct (decide (b = b')) as [->|]; [|naive_solver].
    split; [naive_solver|]. intros [Hr|?]; [|naive_solver]. left. split; [done|].
    by apply (Hx (id, Sequence a' b')); [apply H2|].
  - intros a'. destruct (decide (a = a')) as [->|Ha]; [rewrite lookup_insert_eq|rewrite lookup_insert_ne, H3 by done].
    + split; [intros _; exists i, b; set_solver|by eexists].
    + split; intros (id & b' & Hb); exists id, b'; revert Hb; rewrite elem_of_app, list_elem_of_singleton; naive_solver.
Qed.

Lemma entered_foldl l : (∀ x y, x ∈ l → y ∈ l → clash x.2 y.2 → x.1 = y.1) → entered l (foldl reverse_entry (∅, ∅) l).
Proof.
  induction l as [|x l IH] using rev_ind; intros Hl.
  - split; cbn; intros; rewrite ?lookup_empty; cbn; set_solver.
  - rewrite foldl_app. apply entered_step; [apply IH|]; set_solver.
Qed.

Lemma rebuild_indexed (H : HashOrder) t :
  consistent (binding_for t) → indexed (binding_for t) (rebuild_reverse t).
Proof.
  intros Hc. destruct (entered_foldl (bound_commands (defaults t) (overrides t))) as [H1 H2 H3].
  { intros [i b] [j b']. rewrite !elem_bound_commands. apply Hc. }
  unfold binding_for. split; intros.
  - rewrite <-elem_bound_commands. apply H1.
  - rewrite <-elem_bound_commands. apply H2.
  - setoid_rewrite <-elem_bound_commands. apply H3.
Qed.

(** A table as the code keeps it. *)
Definition well_kept (t : BindingTable) : Prop := consistent (binding_for t) ∧ indexed (binding_for t) t.

Lemma with_overrides_kept (H : HashOrder) os t :
  consistent (effective (defaults t) os) → well_kept (with_overrides os t).
Proof. intros Hc. split; [exact Hc|].
  exact (rebuild_indexed _ (mkTable (defaults t) os (single_reverse t) (sequence_first_chords t) (platform t)) Hc).
Qed.

Lemma resolve_chord_spec t c : well_kept t →
  match resolve_chord t c with
  | Command id => binding_for t id = Some (Single c)
  | Pending => ∃ id d, binding_for t id = Some (Sequence c d)
  | NoMatch => ∀ id b, binding_for t id = Some b → head (chords b) ≠ Some c
  end.
Proof.
  intros [_ [H1 H2 H3]]. unfold resolve_chord. destruct (sequence_first_chords t !! c) as [m|] eqn:Em.
  - apply H3. by eexists.
  - assert (¬ ∃ id d, binding_for t id = Some (Sequence c d)) by (rewrite <-H3, Em; apply is_Some_None).
    destruct (single_reverse t !! c) as [id|] eqn:Es; [by apply H1|].
    intros id [d|d d'] Hb; cbn; intros [= ->]; [apply H1 in Hb; congruence|naive_solver].
Qed.

(** ** Steps of a table *)

(** The defaults of the registry, and what they are without overrides. *)
Definition default_for (id : CommandId) : option KeyBinding :=
  (list_to_map (default_bindings registry) : gmap CommandId KeyBinding) !! id.

Lemma default_in id b : default_for id = Some b → (id, b) ∈ default_bindings registry.
Proof. apply elem_of_list_to_map_2. Qed.

Lemma defaults_consistent : consistent default_for.
Proof.
  intros i j b b' Hi%default_in Hj%default_in.
  assert (Forall (λ x, Forall (λ y, clash x.2 y.2 → x.1 = y.1) (default_bindings registry)) (default_bindings registry)) as HF
    by (apply (bool_decide_unpack _); vm_compute; exact I).
  rewrite Forall_forall in HF. specialize (HF _ Hi). rewrite Forall_forall in HF. exact (HF _ Hj).
Qed.

(** What the settings do with a table, every time with hash maps of orders of their
    own.  An override is removed, or a binding given, when no other command holds
    what the command would have. *)
Inductive step (t : BindingTable) : BindingTable → Prop :=
  | step_set (H : HashOrder) id b t' : set_override id b t = (inr (), t') → step t t'
  | step_unbind (H : HashOrder) id : step t (unbind id t)
  | step_remove (H : HashOrder) id : (∀ b, defaults t !! id = Some b → check_conflict t id b = None) →
      step t (remove_override id t)
  | step_reset (H : HashOrder) : step t (reset_all t).

Inductive reachable (p : Platform) : BindingTable → Prop :=
  | reach_new (H : HashOrder) : reachable p (new_table registry p)
  | reach_step t t' : reachable p t → step t t' → reachable p t'.

Lemma elem_seconds (H : HashOrder) t c m j : indexed (binding_for t) t → sequence_first_chords t !! c = Some m →
  j ∈ hash_order (map snd (map_to_list m)) ↔ ∃ d, binding_for t j = Some (Sequence c d).
Proof.
  intros [_ H2 _] Hm. rewrite hash_order_rows, list_elem_of_fmap. setoid_rewrite <-H2. unfold resolve_sequence.
  rewrite Hm. cbn. split.
  - intros ([d j'] & -> & Hd%elem_of_map_to_list). by exists d.
  - intros [d Hd]. exists (d, j). by rewrite elem_of_map_to_list.
Qed.

(** Another command of a lookup. *)
Definition other (o : option CommandId) (id : CommandId) : option CommandId :=
  match o with Some e => if decide (e ≠ id) then Some e else None | None => None end.

Lemma other_spec (o : option CommandId) id (P : CommandId → Prop) : (∀ j, o = Some j ↔ P j) →
  match other o id with Some j => j ≠ id ∧ P j | None => ∀ j, P j → j = id end.
Proof.
  intros HP. unfold other. destruct o as [e|]; [destruct (decide (e ≠ id)) as [Hi|Hi]|].
  - split; [done|]. by apply HP.
  - intros j Hj%HP. apply dec_stable in Hi. congruence.
  - intros j Hj%HP. done.
Qed.

Lemma other_second (H : HashOrder) t id c : indexed (binding_for t) t →
  match (m ← sequence_first_chords t !! c; snd <$> list_find (λ cmd, cmd ≠ id) (hash_order (map snd (map_to_list m)))) with
  | Some j => j ≠ id ∧ ∃ d, binding_for t j = Some (Sequence c d)
  | None => ∀ j d, binding_for t j = Some (Sequence c d) → j = id
  end.
Proof.
  intros Hix. destruct (sequence_first_chords t !! c) as [m|] eqn:Em; cbn.
  - destruct (list_find _ _) as [[n j]|] eqn:El; cbn.
    + apply list_find_Some in El as (Hj & Hn & _). split; [done|]. rewrite <-(elem_seconds _ _ _ _ _ Hix Em).
      by eapply list_elem_of_lookup_2.
    + apply list_find_None in El. rewrite Forall_forall in El. intros j d Hd. apply dec_stable.
      apply El. rewrite (elem_seconds _ _ _ _ _ Hix Em). by eexists.
  - intros j d Hd. destruct (ix_first _ _ Hix c) as [_ []]; [by eexists _, _|congruence].
Qed.

Lemma check_conflict_spec (H : HashOrder) t id b : well_kept t →
  match check_conflict t id b with
  | Some j => j ≠ id ∧ ∃ b', binding_for t j = Some b' ∧ clash b b'
  | None => ∀ j b', binding_for t j = Some b' → clash b b' → j = id
  end.
Proof.
  intros [_ Hix]. destruct b as [c|a b]; cbn [check_conflict].
  - unfold check_chord_conflict. fold (other (single_reverse t !! c) id).
    pose proof (other_spec _ id _ (ix_single _ _ Hix c)) as H1. pose proof (other_second H t id c Hix) as H2.
    destruct (other _ _) as [j|], (_ ≫= _) as [k|];
      try (destruct H1; split; [done|by exists (Single c)]).
    { destruct H2 as (? & d & ?). split; [done|by exists (Sequence c d)]. }
    intros j [d|d d']; cbn; intros Hb ->; [by apply H1|by eapply H2].
  - unfold check_sequence_conflict. fold (other (single_reverse t !! a) id).
    change (_ ≫= _) with (other (resolve_sequence t a b) id).
    pose proof (other_spec _ id _ (ix_single _ _ Hix a)) as H1.
    pose proof (other_spec _ id _ (ix_sequence _ _ Hix a b)) as H2.
    destruct (other (single_reverse _ !! _) _) as [j|], (other (resolve_sequence _ _ _) _) as [k|];
      try (destruct H1; split; [done|by exists (Single a)]).
    { destruct H2. split; [done|by exists (Sequence a b)]. }
    intros j [d|d d']; cbn; [intros Hb ->; by apply H1|]. intros Hb [-> ->]. by apply H2.
Qed.

Lemma effective_insert ds os id o j : effective ds (<[id := o]> os) j = if decide (j = id) then o else effective ds os j.
Proof.
  unfold effective. case_decide as E; [by rewrite E, lookup_insert_eq|by rewrite lookup_insert_ne].
Qed.

Lemma effective_delete ds os id j : effective ds (delete id os) j = if decide (j = id) then ds !! id else effective ds os j.
Proof.
  unfold effective. case_decide as E; [by rewrite E, lookup_delete_eq|by rewrite lookup_delete_ne].
Qed.

(** One command gets what clashes with no other. *)
Lemma consistent_update e e' id : consistent e →
  (∀ j, j ≠ id → e' j = e j) → (∀ b j b', e' id = Some b → e j = Some b' → clash b b' → j = id) → consistent e'.
Proof.
  intros He Hne Hid i j b b' Hi Hj Hc. destruct (decide (i = id)) as [->|Hin], (decide (j = id)) as [->|Hjn]; [done| | |].
  - rewrite Hne in Hj by done. symmetry. by eapply Hid.
  - rewrite Hne in Hi by done. eapply Hid; [done..|by apply clash_sym].
  - rewrite Hne in Hi, Hj by done. by eapply He.
Qed.

Lemma set_override_kept (H : HashOrder) t id b : well_kept t → check_conflict t id b = None →
  well_kept (with_overrides (<[id := Some b]> (overrides t)) t).
Proof.
  intros Hk Hc. pose proof (check_conflict_spec H t id b Hk) as Hn. rewrite Hc in Hn. destruct Hk as [Hk _].
  apply with_overrides_kept, (consistent_update _ _ id Hk); [intros j Hj|intros b0 j b']; rewrite effective_insert;
    case_decide; try done. intros [= <-]. apply Hn.
Qed.

Lemma remove_override_kept (H : HashOrder) t id : well_kept t →
  (∀ b, defaults t !! id = Some b → check_conflict t id b = None) → well_kept (remove_override id t).
Proof.
  intros Hk Hc. pose proof (λ b, check_conflict_spec H t id b Hk) as Hn. destruct Hk as [Hk _].
  apply with_overrides_kept, (consistent_update _ _ id Hk); [intros j Hj|intros b j b']; rewrite effective_delete;
    case_decide; try done. intros Hb. specialize (Hn b). rewrite (Hc _ Hb) in Hn. apply Hn.
Qed.

Lemma unbind_kept (H : HashOrder) t id : well_kept t → well_kept (unbind id t).
Proof.
  intros [Hk _]. apply with_overrides_kept, (consistent_update _ _ id Hk); [intros j Hj|intros b j b'];
    rewrite effective_insert; by case_decide.
Qed.

Lemma effective_empty ds id : effective ds ∅ id = ds !! id.
Proof. unfold effective. by rewrite lookup_empty. Qed.

Lemma consistent_ext e e' : (∀ id, e' id = e id) → consistent e → consistent e'.
Proof. intros E He i j b b'. rewrite !E. apply He. Qed.

Definition default_map : gmap CommandId KeyBinding := list_to_map (default_bindings registry).

Lemma reachable_kept p t : reachable p t → defaults t = default_map ∧ well_kept t.
Proof.
  induction 1 as [H|t t' _ [Hd Hk] Hs].
  - split; [done|]. apply (with_overrides_kept H ∅ (mkTable default_map ∅ ∅ ∅ p)).
    eapply consistent_ext, defaults_consistent. apply effective_empty.
  - destruct Hs as [H id b t' E|H id|H id Hf|H].
    + unfold set_override in E. destruct (check_conflict t id b) eqn:Ec; [done|]. injection E as <-.
      split; [done|]. by apply set_override_kept.
    + split; [done|]. by apply unbind_kept.
    + split; [done|]. by apply remove_override_kept.
    + split; [done|]. apply with_overrides_kept. eapply consistent_ext, defaults_consistent.
      intros id. by rewrite effective_empty, Hd.
Qed.

Lemma lookups_agree p t : reachable p t →
  consistent (binding_for t) ∧
  (∀ c id, resolve_chord t c = Command id ↔ binding_for t id = Some (Single c)) ∧
  (∀ c, resolve_chord t c = Pending ↔ ∃ id d, binding_for t id = Some (Sequence c d)) ∧
  (∀ a b id, resolve_sequence t a b = Some id ↔ binding_for t id = Some (Sequence a b)).
Proof.
  intros [_ Hk]%reachable_kept. pose proof Hk as [Hc [H1 H2 H3]]. split; [done|]. split; [|split; [|done]].
  - intros c id. rewrite <-H1. unfold resolve_chord. destruct (sequence_first_chords t !! c) as [m|] eqn:E.
    + split; [done|]. intros Hid%H1. destruct (H3 c) as [(j & d & Hj) _]; [by eexists|].
      assert (id = j) as <- by (eapply Hc; by eauto). congruence.
    + destruct (single_reverse t !! c); naive_solver.
  - intros c. rewrite <-H3. unfold resolve_chord. destruct (sequence_first_chords t !! c) as [m|].
    + split; by eauto.
    + split; [by destruct (single_reverse t !! c)|by intros [? ?]].
Qed.

(** C19. After any settings changes that set or unbind overrides, reset them all, or
    remove one whose default no other command's binding clashes with by then, and
    whatever the orders of the hash maps were, no two commands hold bindings that
    clash and the lookups of the keyboard agree with the bindings in force.  Left out
    are the other removals and overrides loaded from a file
    ([removed_override_clashes], [loaded_override_clashes]).  A chord runs the command bound to it,
    waits for a second one when it begins a sequence, and else does nothing; and two
    chords run the command bound to the sequence. *)
Theorem lookups_agree_with_bindings p t : reachable p t →
  consistent (binding_for t) ∧
  (∀ c id, resolve_chord t c = Command id ↔ binding_for t id = Some (Single c)) ∧
  (∀ c, resolve_chord t c = Pending ↔ ∃ id d, binding_for t id = Some (Sequence c d)) ∧
  (∀ a b id, resolve_sequence t a b = Some id ↔ binding_for t id = Some (Sequence a b)).
Proof. apply lookups_agree. Qed.

(** A command gets a binding exactly when no other command holds one that clashes
    with it; then it holds that one and the others what they held.  Else nothing
    changes, and the command reported is one of those in the way. *)
Theorem set_override_exact (H : HashOrder) p t id b : reachable p t →
  match set_override id b t with
  | (inr _, t') =>
      (∀ j b', j ≠ id → binding_for t j = Some b' → ¬ clash b b') ∧
      (∀ j, binding_for t' j = if decide (j = id) then Some b else binding_for t j) ∧ defaults t' = defaults t
  | (inl j, t') => t' = t ∧ j ≠ id ∧ ∃ b', binding_for t j = Some b' ∧ clash b b'
  end.
Proof.
  intros [_ Hk]%reachable_kept. pose proof (check_conflict_spec H t id b Hk) as Hc. unfold set_override.
  destruct (check_conflict t id b) as [j|]; [done|]. split; [|split; [|done]].
  - intros j b' Hj Hb Hcl. by eapply Hj, Hc.
  - intros j. apply effective_insert.
Qed.

(** The text of a binding that the settings can record or a file hold reads back
    as the binding, unless a key of it is the plus sign: then it does not read at
    all; and every text that reads at all reads as a binding whose text reads back. *)
Theorem binding_text_round_trip :
  (∀ b, lowercase b → (printable b ∧ binding_parse (canonical b) = inr b) ∨
     (¬ printable b ∧ ∃ e, binding_parse (canonical b) = inl e)) ∧
  (∀ s b, binding_parse s = inr b → binding_parse (canonical b) = inr b).
Proof.
  split; [apply binding_parse_canonical|]. intros s b [Hl Hp]%binding_parse_fits.
  by destruct (binding_parse_canonical b Hl) as [[_ ?]|[? _]].
Qed.

(** ** The file of overrides *)

Lemma id_parse_str id : id_parse (id_str id) = Some id.
Proof. by destruct id; vm_compute. Qed.

#[export] Instance id_str_inj : Inj (=) (=) id_str.
Proof. intros i j E. pose proof (id_parse_str i) as H. rewrite E, id_parse_str in H. congruence. Qed.

(** What an entry of the file says. *)
Definition read_value (v : option str) : option (option KeyBinding) :=
  match v with
  | None => Some None
  | Some s => match binding_parse s with inl _ => None | inr b => Some (Some b) end
  end.

Lemma read_entry_spec os e : read_entry os e =
  match id_parse e.1, read_value e.2 with Some id, Some v => <[id := v]> os | _, _ => os end.
Proof.
  unfold read_entry, read_value. destruct (id_parse e.1), (e.2) as [s|]; [|done..]. by destruct (binding_parse s).
Qed.

Lemma exists_snoc {A} (l : list A) x (P : A → Prop) : (∃ e, e ∈ l ++ [x] ∧ P e) ↔ (∃ e, e ∈ l ∧ P e) ∨ P x.
Proof. setoid_rewrite elem_of_app. setoid_rewrite list_elem_of_singleton. naive_solver. Qed.

Lemma read_entries l : (∀ x y id, x ∈ l → y ∈ l → id_parse x.1 = Some id → id_parse y.1 = Some id → x = y) →
  ∀ id v, foldl read_entry ∅ l !! id = Some v ↔ ∃ e, e ∈ l ∧ id_parse e.1 = Some id ∧ read_value e.2 = Some v.
Proof.
  induction l as [|x l IH] using rev_ind; intros Hl id v.
  { cbn. rewrite lookup_empty. split; [done|]. by intros (? & ?%elem_of_nil & _). }
  assert (∀ e, e ∈ l → e ∈ l ++ [x]) as Hin by (intros; by apply elem_of_app; left).
  assert (x ∈ l ++ [x]) as Hx by (apply elem_of_app; by right; left).
  rewrite foldl_app, (exists_snoc l x), <-IH by eauto. cbn [foldl]. rewrite read_entry_spec.
  destruct (id_parse x.1) as [i|] eqn:Ei; [|split; [by left|by intros [?|[? ?]]]].
  destruct (read_value x.2) as [w|] eqn:Ew; [|split; [by left|by intros [?|[? ?]]]].
  rewrite lookup_insert_Some. destruct (decide (i = id)) as [->|Hi].
  - split; [intros [[_ ->]|[? _]]; [by right|done]|]. intros [Hf|[_ [= ->]]]; [|by left]. left. split; [done|].
    rewrite IH in Hf by eauto. destruct Hf as (e & He & Ee & Ev). assert (e = x) as -> by eauto. congruence.
  - split; [intros [[? _]|[_ ?]]; [done|by left]|intros [?|[[= ?] _]]; [by right|done]].
Qed.

(** What the file of a table holds. *)
Lemma saved_rows (os : gmap CommandId (option KeyBinding)) s v :
  (list_to_map (saved_row <$> map_to_list os) : gmap str (option str))
    !! s = Some v ↔ ∃ id w, os !! id = Some w ∧ s = id_str id ∧ v = canonical <$> w.
Proof.
  rewrite <-elem_of_list_to_map.
  - rewrite list_elem_of_fmap. split.
    + intros ([id w] & [= -> ->] & Hw%elem_of_map_to_list). by exists id, w.
    + intros (id & w & Hw & -> & ->). exists (id, w). by rewrite elem_of_map_to_list.
  - rewrite <-list_fmap_compose. change (fst ∘ _) with (id_str ∘ fst (A := CommandId) (B := option KeyBinding)).
    rewrite list_fmap_compose. apply NoDup_fmap_2; [apply _|apply NoDup_fst_map_to_list].
Qed.

Definition keeps_text (v : option KeyBinding) : Prop := match v with Some b => printable b | None => True end.

Lemma read_value_canonical w v : (∀ b, w = Some b → lowercase b) →
  read_value (canonical <$> w) = Some v ↔ w = v ∧ keeps_text v.
Proof.
  intros Hl. destruct w as [b|]; cbn; [|naive_solver].
  destruct (binding_parse_canonical b) as [[Hp ->]|[Hp [e ->]]]; [by apply Hl|naive_solver|].
  split; [done|]. intros [<- ?]. done.
Qed.

Lemma overrides_read_back os : (∀ id b, os !! id = Some (Some b) → lowercase b) →
  ∀ id v, foldl read_entry ∅ (map_to_list (list_to_map
      (saved_row <$> map_to_list os) : gmap str (option str))) !! id = Some v ↔
    os !! id = Some v ∧ keeps_text v.
Proof.
  intros Hl id v. rewrite read_entries.
  - split.
    + intros ([s o] & Hso%elem_of_map_to_list & Hi & Hv). apply saved_rows in Hso as (j & w & Hw & -> & ->).
      cbn [fst snd] in Hi, Hv. rewrite id_parse_str in Hi. injection Hi as ->.
      apply read_value_canonical in Hv as [-> ?]; [done|]. intros b ->. by eapply Hl.
    + intros [Hv Hk]. exists (id_str id, canonical <$> v). rewrite elem_of_map_to_list, saved_rows. cbn [fst snd].
      split; [by eexists _, _|]. split; [apply id_parse_str|]. apply read_value_canonical; [|done].
      intros b ->. by eapply Hl.
  - intros [s o] [s' o'] i Hx%elem_of_map_to_list Hy%elem_of_map_to_list Es Es'.
    pose proof Hx as Hx'. pose proof Hy as Hy'.
    apply saved_rows in Hx as (j & w & _ & -> & _), Hy as (j' & w' & _ & -> & _). cbn [fst snd] in Es, Es'.
    rewrite id_parse_str in Es, Es'. congruence.
Qed.

Lemma resolve_chord_ext t t' : well_kept t → well_kept t' → (∀ id, binding_for t' id = binding_for t id) →
  ∀ c, resolve_chord t' c = resolve_chord t c.
Proof.
  intros [_ [H1 H2 H3]] [_ [H1' H2' H3']] E c. unfold resolve_chord.
  assert (is_Some (sequence_first_chords t' !! c) ↔ is_Some (sequence_first_chords t !! c)) as Hs
    by (rewrite H3, H3'; by setoid_rewrite E).
  assert (single_reverse t' !! c = single_reverse t !! c) as ->
    by (apply option_eq; intros id; by rewrite H1, H1', E).
  destruct (sequence_first_chords t' !! c), (sequence_first_chords t !! c); [done|exfalso..|done];
    destruct Hs as [Ha Hb]; [apply (is_Some_None (A := gmap Chord CommandId))|apply (is_Some_None (A := gmap Chord CommandId))];
    [by apply Ha|by apply Hb].
Qed.

Lemma restart_table (H : HashOrder) p t d : defaults t = default_map →
  (∀ id b, overrides t !! id = Some (Some b) → lowercase b) →
  ∃ os, load_overrides_from_file (save_overrides t d) (new_table registry p) = (inr (), with_overrides os (new_table registry p)) ∧
    ∀ id v, os !! id = Some v ↔ overrides t !! id = Some v ∧ keeps_text v.
Proof.
  intros Hd Hl. unfold save_overrides. case_decide as E.
  - exists ∅. split; [done|]. intros. rewrite E, lookup_empty. naive_solver.
  - eexists. split; [reflexivity|]. by apply overrides_read_back.
Qed.

(** C35. Overrides survive a restart: what is saved and then read into a new table is
    every override, those without a binding too, except the bindings whose text does
    not read back; and when all read back, every command has the binding it had and
    every chord does what it did, whatever the orders of the hash maps of each run. *)
Theorem overrides_survive_restart (H : HashOrder) p t d : reachable p t →
  (∀ id b, overrides t !! id = Some (Some b) → lowercase b) →
  ∃ t', load_overrides_from_file (save_overrides t d) (new_table registry p) = (inr (), t') ∧
    (∀ id v, overrides t' !! id = Some v ↔ overrides t !! id = Some v ∧ keeps_text v) ∧
    ((∀ id b, overrides t !! id = Some (Some b) → printable b) →
      (∀ id, binding_for t' id = binding_for t id) ∧ (∀ c, resolve_chord t' c = resolve_chord t c)).
Proof.
  intros [Hd Hk]%reachable_kept Hl. destruct (restart_table H p t d Hd Hl) as (os & E & Hos). eexists. split; [exact E|].
  split; [exact Hos|]. intros Hp. assert (os = overrides t) as ->.
  { apply map_eq. intros id. apply option_eq. intros v. rewrite Hos. split; [by intros [? _]|]. intros Hv. split; [done|].
    destruct v; [|done]. by eapply Hp. }
  assert (∀ id, binding_for (with_overrides (overrides t) (new_table registry p)) id = binding_for t id) as Eb
    by (intros id; unfold binding_for; by rewrite Hd).
  split; [exact Eb|]. apply resolve_chord_ext; [done| |done].
  apply with_overrides_kept. change (defaults (new_table registry p)) with default_map. rewrite <-Hd. apply Hk.
Qed.

(** ** Keys and commands *)

(** Nothing that takes the keys before the commands is open. *)
Definition listening (a : app) : Prop := palette_open a = false ∧ show_settings a = false ∧ typeahead_visible a = false.

(** A key press that no widget took and that asks no other window to close. *)
Definition presses (a : app) (e : KeyEventMessage) (c : Chord) : Prop :=
  match e with
  | KeyPressed k m s w =>
      iced_key_to_chord k m = Some c ∧ (s = Ignored ∨ has_command_modifier m = true) ∧
      (k = INamed Escape → w = main_window_id a)
  | PendingChordTimeout => False
  end.

Lemma handle_press a e c : listening a → presses a e c → handle_key_event e a = handle_chord c a.
Proof.
  intros (Hp & Hs & Ht). destruct e as [k m s w|]; [|done]. intros (Hc & Hh & Hw). cbn [handle_key_event].
  rewrite decide_False by tauto. unfold handle_key_pressed. rewrite Hp, Hs, Ht. unfold handle_shortcut.
  destruct Hh as [->| ->]; [|rewrite andb_false_r]; cbn; by rewrite Hc.
Qed.

Lemma set_pending_none a : pending_chord a = None → set_pending_chord None a = a.
Proof. by destruct a; cbn; intros ->. Qed.

(** C18. In a window that listens, with the bindings as the settings left them: a key
    runs the command bound to it, when that is available, and nothing else happens;
    a key that begins a sequence is kept and the next one runs the command of the
    two, or does what it does on its own when they are no sequence; another key does
    nothing; and a kept key is dropped after a while. *)
Theorem keys_run_commands p a e c : listening a → reachable p (binding_table a) → pending_chord a = None → presses a e c →
  (∀ id, binding_for (binding_table a) id = Some (Single c) → handle_key_event e a = (execute a id, a)) ∧
  ((∀ id b, binding_for (binding_table a) id = Some b → head (chords b) ≠ Some c) → handle_key_event e a = (None, a)) ∧
  (∀ id d, binding_for (binding_table a) id = Some (Sequence c d) →
    let a' := set_pending_chord (Some c) a in
    handle_key_event e a = (None, a') ∧
    (∀ e', presses a e' d → handle_key_event e' a' = (execute a id, a)) ∧
    (∀ e' d', presses a e' d' → (∀ j, binding_for (binding_table a) j ≠ Some (Sequence c d')) →
      handle_key_event e' a' = handle_key_event e' a) ∧
    handle_key_event PendingChordTimeout a' = (None, a)).
Proof.
  intros Hl Hr Hn Hp. pose proof (lookups_agree p _ Hr) as (_ & H1 & H2 & H3).
  pose proof (set_pending_none a Hn) as Ha.
  rewrite (handle_press a e c Hl Hp). unfold handle_chord. rewrite Hn. unfold try_resolve_single_chord.
  split; [|split].
  - intros id Hid%H1. by rewrite Hid.
  - intros Hno. pose proof (resolve_chord_spec (binding_table a) c (proj2 (reachable_kept _ _ Hr))) as Hs.
    destruct (resolve_chord _ c) as [|id|]; [done| |]; [by destruct (Hno _ _ Hs)|].
    destruct Hs as (id & d & Hs). by destruct (Hno _ _ Hs).
  - intros id d Hd. assert (resolve_chord (binding_table a) c = Pending) as -> by (apply H2; by eexists _, _).
    split; [done|]. split; [|split].
    + intros e' He'. rewrite (handle_press _ e' d) by done. unfold handle_chord. cbn. apply H3 in Hd.
      change (set_pending_chord None (set_pending_chord (Some c) a)) with (set_pending_chord None a). rewrite Ha. by rewrite Hd.
    + intros e' d' He' Hno. rewrite (handle_press _ e' d') by done. rewrite (handle_press a e' d') by done.
      unfold handle_chord. rewrite Hn. cbn.
      change (set_pending_chord None (set_pending_chord (Some c) a)) with (set_pending_chord None a). rewrite Ha.
      destruct (resolve_sequence _ c d') as [j|] eqn:E; [|done]. apply H3 in E. by destruct (Hno j).
    + cbn. change (set_pending_chord None (set_pending_chord (Some c) a)) with (set_pending_chord None a). by rewrite Ha.
Qed.

(** ** Closed runs *)

Definition plain_order : HashOrder.
Proof. refine {| hash_order := λ A l, l |}. done. Defined.

Definition reversed_order : HashOrder.
Proof. refine {| hash_order := @rev |}. intros A l. apply Permutation_sym, Permutation_rev. Defined.

Definition first_table : BindingTable := @new_table plain_order registry Linux.

(** The next thread is given the letter e with control, the archive nothing. *)
Definition edited_table : BindingTable :=
  @unbind plain_order EmailArchive (@set_override plain_order NavNext (cmd_or_ctrl "e") first_table).2.

Lemma with_result {A B} (r : A * B) a : r.1 = a → r = (a, r.2).
Proof. by destruct r; cbn; intros ->. Qed.

Lemma edited_reachable : reachable Linux edited_table.
Proof.
  eapply reach_step; [|apply (step_unbind _ plain_order)]. eapply reach_step; [apply (reach_new _ plain_order)|].
  apply (step_set _ plain_order NavNext (cmd_or_ctrl "e")), with_result. vm_compute. reflexivity.
Qed.

Lemma lookups_agree_with_bindings_witness :
  reachable Linux edited_table ∧ resolve_chord edited_table (mkChord (Char 101) (mkModifiers true false false)) = Command NavNext.
Proof.
  split; [apply edited_reachable|].
  apply (lookups_agree_with_bindings Linux edited_table edited_reachable). vm_compute. reflexivity.
Defined.

(** The chord of the answer is taken, and a sequence of it too. *)
Lemma set_override_exact_witness :
  (@set_override plain_order NavNext (key "r") edited_table).2 = edited_table ∧
  (@set_override plain_order NavNext (Sequence (chord_of "r") (chord_of "x")) edited_table).1 = inl ComposeReply.
Proof.
  split; [|vm_compute; reflexivity].
  pose proof (set_override_exact plain_order Linux edited_table NavNext (key "r") edited_reachable) as H.
  assert ((@set_override plain_order NavNext (key "r") edited_table).1 = inl ComposeReply) as E by (vm_compute; reflexivity).
  destruct (@set_override plain_order NavNext (key "r") edited_table) as [r t]. cbn in E. subst r. apply H.
Defined.

Lemma overrides_survive_restart_witness :
  ∃ t', @load_overrides_from_file reversed_order (save_overrides edited_table Missing) (@new_table reversed_order registry Linux) =
    (inr (), t') ∧ binding_for t' NavNext = Some (cmd_or_ctrl "e") ∧ binding_for t' EmailArchive = None.
Proof.
  assert (∀ id b, overrides edited_table !! id = Some (Some b) → b = cmd_or_ctrl "e") as Hb.
  { assert (map_Forall (λ _ v, v = None ∨ v = Some (cmd_or_ctrl "e")) (overrides edited_table)) as HF
      by (apply (bool_decide_unpack _); vm_compute; exact I).
    intros id b E. destruct (HF _ _ E) as [?|[= ?]]; congruence. }
  destruct (overrides_survive_restart reversed_order Linux edited_table Missing edited_reachable) as (t' & E & _ & Ht).
  { intros id b ->%Hb. apply Forall_singleton. vm_compute. reflexivity. }
  exists t'. split; [exact E|]. destruct Ht as [Ht _].
  { intros id b ->%Hb. apply Forall_singleton. vm_compute. discriminate. }
  split; rewrite Ht; vm_compute; reflexivity.
Defined.

Definition window_app (t : BindingTable) : app :=
  mkApp 0 ∅ false false false None false false 0 t None
    (mkContext [] None (Some (slit "one")) None false None false None None None None).

Definition pressed (c : string) (shift : bool) : KeyEventMessage :=
  KeyPressed (Character (slit c)) (mkIcedModifiers false false shift false) Ignored 0.

(** What key presses one after the other make of an application: the messages. *)
Fixpoint messages (es : list KeyEventMessage) (a : app) : list (option Message) :=
  match es with
  | [] => []
  | e :: es => let r := handle_key_event e a in r.1 :: messages es r.2
  end.

Definition edited_app : app := window_app edited_table.

Lemma pressed_letter c x : iced_key_to_chord (Character (slit c)) (mkIcedModifiers false false false false) = Some x →
  presses edited_app (pressed c false) x.
Proof. intros E. split; [exact E|split; [by left|done]]. Qed.

Lemma keys_run_commands_witness :
  handle_key_event (pressed "c" false) edited_app = (Some (ExecuteCommand ComposeNew), edited_app) ∧
  handle_key_event (pressed "g" false) edited_app = (None, set_pending_chord (Some (chord_of "g")) edited_app).
Proof.
  assert (listening edited_app) as Hl by done. split.
  - destruct (keys_run_commands Linux edited_app (pressed "c" false) (chord_of "c")) as [H _];
      [exact Hl|exact edited_reachable|reflexivity|apply pressed_letter; reflexivity|].
    rewrite (H ComposeNew); [|vm_compute; reflexivity]. apply pair_eq. split; [vm_compute; reflexivity|reflexivity].
  - destruct (keys_run_commands Linux edited_app (pressed "g" false) (chord_of "g")) as (_ & _ & H);
      [exact Hl|exact edited_reachable|reflexivity|apply pressed_letter; reflexivity|].
    destruct (H NavGoInbox (chord_of "i")) as [E _]; [vm_compute; reflexivity|]. exact E.
Defined.

(** A run of keys: to the inbox, a sequence given up for the next thread, a new
    message. *)
Example typed_run :
  messages [pressed "g" false; pressed "i" false; pressed "g" false; pressed "j" false; pressed "c" false]
    (window_app first_table) =
  [None; Some (ExecuteCommand NavGoInbox); None; Some (ExecuteCommand NavNext); Some (ExecuteCommand ComposeNew)].
Proof. vm_compute. reflexivity. Qed.

(** The shortcuts are bound to the question mark without Shift: typed with Shift, as
    most keyboards have it, it shows nothing. *)
Theorem question_mark_with_shift_unheard :
  binding_for first_table AppHelp = Some (key "?") ∧
  messages [pressed "?" true; pressed "?" false] (window_app first_table) = [None; Some (ExecuteCommand AppHelp)].
Proof. split; vm_compute; reflexivity. Qed.

(** A binding of the plus sign is taken and saved, and gone after a restart. *)
Theorem plus_binding_lost_at_restart :
  let b := Single (mkChord (Char 43) (mkModifiers true false false)) in
  let s := @set_keybinding plain_order AppSearch b (first_table, Missing) in
  s.1 = inr () ∧ binding_for s.2.1 AppSearch = Some b ∧
  binding_for (@load_overrides_from_file plain_order s.2.2 first_table).2 AppSearch = Some (key "/").
Proof. repeat split; vm_compute; reflexivity. Qed.

(** The next thread moved from its letter, another command put on it, the next thread
    put back: both commands hold the letter, and the order of a hash map decides. *)
Definition two_on_one (H : HashOrder) : BindingTable :=
  @remove_override H NavNext (@set_override H AppSearch (key "j") (@set_override H NavNext (key "n") (@new_table H registry Linux)).2).2.

Theorem removed_override_clashes :
  (∀ H, H = plain_order ∨ H = reversed_order → binding_for (two_on_one H) NavNext = Some (key "j") ∧
    binding_for (two_on_one H) AppSearch = Some (key "j")) ∧
  resolve_chord (two_on_one plain_order) (chord_of "j") ≠ resolve_chord (two_on_one reversed_order) (chord_of "j").
Proof. split; [intros H [->| ->]; split; vm_compute; reflexivity|vm_compute; discriminate]. Qed.

(** A file with the letter of another command is loaded as it is. *)
Theorem loaded_override_clashes :
  let load (H : HashOrder) := (@load_overrides_from_file H (Holds {[id_str AppSearch := Some (slit "j")]}) (@new_table H registry Linux)).2 in
  binding_for (load plain_order) NavNext = binding_for (load plain_order) AppSearch ∧
  resolve_chord (load plain_order) (chord_of "j") ≠ resolve_chord (load reversed_order) (chord_of "j").
Proof. split; vm_compute; [reflexivity|discriminate]. Qed.
