(* ===== verification/SmartQuery.v ===== *)
(** * Queries of smart folders and of the search bar

    src/crates/smart-folder/src: parser/ (the operators of a query and its free
    text, dates, and where the cursor is), sql_builder.rs (from a parsed query to
    the threads of the database) and lib.rs; src/crates/types/src/date_bound.rs; and
    of src/crates/app/src/handlers/search.rs what completes a query.

    A query is a string of characters, offsets are in bytes: a slice that does not
    start and end between two characters is a panic, the outermost [None], and so is
    a span of more days than jiff has.  A statement of SQL is its clauses, as
    predicates on a row that read their parameters by number; [LIKE] and [LOWER] are
    [SqliteText].  Of the threads that a query selects only the keys are here, in
    their order and window, not the other columns. *)

From stdpp Require Import sorting.
From S2P Require Import Prelude.
From S2P Require Import Graphemes.
From S2P Require Import Strings.
From S2P Require Import Bytes.
From S2P Require Import FolderLabel.
From S2P Require Import Civil.
From S2P Require Import Mailbox.

(** ** Byte offsets *)

(** [str::len] *)
Definition byte_len (s : str) : nat := foldr (λ c n, len_utf8 c + n) 0 s.

(** [&s[..n]], which panics when byte [n] is not a character boundary. *)
Fixpoint slice_to (n : nat) (s : str) : option str :=
  match n with
  | O => Some []
  | S _ =>
      match s with
      | [] => None
      | c :: s' => if len_utf8 c <=? n then cons c <$> slice_to (n - len_utf8 c) s' else None
      end
  end.

(** [&s[a..b]] *)
Definition slice (a b : nat) (s : str) : option str := t ← slice_to b s; slice_from a t.

(** [u8::is_ascii_whitespace] *)
Definition is_ascii_whitespace (b : ascii) : bool :=
  bool_decide (byte_val b ∈ [32; 9; 10; 12; 13]%N).

(** What comes before the first white space. *)
Fixpoint token (s : str) : str :=
  match s with
  | [] => []
  | c :: s => if is_whitespace c then [] else c :: token s
  end.

Definition quote_char : N := 34.
Definition colon_char : N := 58.

(** ** The lexer (lexer.rs) *)

Record OperatorSpan := mkSpan { span_start : nat; span_end : nat; span_operator : str; span_value : str }.

Definition OPERATORS : list str := Eval vm_compute in
  slit <$> ["from"; "to"; "has"; "is"; "before"; "after"; "label"; "account"; "folder"; "in"; "type"]%string.

(** [extract_value] *)
Definition extract_value (input : str) (pos : nat) : option (str * nat) :=
  rest ← slice_from pos input;
  let trimmed := trim_start rest in
  let start := pos + (byte_len rest - byte_len trimmed) in
  match (q ← strip_prefix [quote_char] trimmed; split_once quote_char q) with
  | Some (value, _) => Some (value, start + byte_len value + 2)
  | None => Some (token trimmed, start + byte_len (token trimmed))
  end.

Definition is_ascii_digit (c : N) : bool := ((48 <=? c) && (c <=? 57))%N.

Definition is_four_digit_year (t : str) : bool := (byte_len t =? 4) && forallb is_ascii_digit t.

Definition is_short_digit_token (t : str) : bool := ((byte_len t =? 1) || (byte_len t =? 2)) && forallb is_ascii_digit t.

(** The loop of [greedy_consume_date_parts]. *)
Fixpoint date_parts (n : nat) (trimmed combined : str) (cursor : nat) : option (str * nat) :=
  match n with
  | O => Some (combined, cursor)
  | S n =>
      after ← slice_from cursor trimmed;
      let next := trim_start after in
      if is_nil next then Some (combined, cursor)
      else if is_short_digit_token (token next) then
        date_parts n trimmed (combined ++ slit " " ++ token next)
          (cursor + (byte_len after - byte_len next + byte_len (token next)))
      else Some (combined, cursor)
  end.

Definition greedy_consume_date_parts (trimmed first_token : str) (first_end abs_start : nat) : option (str * nat) :=
  '(combined, cursor) ← date_parts 2 trimmed first_token first_end;
  Some (combined, abs_start + cursor).

(** [extract_date_value] *)
Definition extract_date_value (input : str) (pos : nat) : option (str * nat) :=
  rest ← slice_from pos input;
  let trimmed := trim_start rest in
  let start := pos + (byte_len rest - byte_len trimmed) in
  match (q ← strip_prefix [quote_char] trimmed; split_once quote_char q) with
  | Some (value, _) => Some (value, start + byte_len value + 2)
  | None =>
      let first := token trimmed in
      if is_four_digit_year first then greedy_consume_date_parts trimmed first (byte_len first) start
      else Some (first, start + byte_len first)
  end.

Definition is_date_op (op : str) : bool := bool_decide (op = slit "before") || bool_decide (op = slit "after").

(** [match_single_operator]; the inner [None] is none. *)
Definition match_single_operator (input : str) (pos : nat) (op : str) : option (option OperatorSpan) :=
  rest ← slice_from pos input;
  let prefix := op ++ [colon_char] in
  if negb (starts_with prefix (to_ascii_lowercase rest)) then Some None
  else
    let after_colon := pos + byte_len prefix in
    '(value, e) ← (if is_date_op op then extract_date_value input after_colon else extract_value input after_colon);
    if is_nil value then Some None else Some (Some (mkSpan pos e op value)).

Fixpoint match_operators (input : str) (pos : nat) (ops : list str) : option (option OperatorSpan) :=
  match ops with
  | [] => Some None
  | op :: ops =>
      r ← match_single_operator input pos op;
      match r with
      | Some s => Some (Some s)
      | None => match_operators input pos ops
      end
  end.

(** At the start, or after white space: [input.as_bytes()[pos - 1]]. *)
Definition may_start (input : str) (pos : nat) : option bool :=
  if pos =? 0 then Some true else is_ascii_whitespace <$> encode input !! (pos - 1).

Definition try_parse_operator_at (input : str) (pos : nat) : option (option OperatorSpan) :=
  ok ← may_start input pos;
  if (ok : bool) then match_operators input pos OPERATORS else Some None.

(** The loop of [collect_operator_spans], with the bytes of the input as fuel. *)
Fixpoint collect_loop (fuel : nat) (input : str) (pos : nat) : option (list OperatorSpan) :=
  match fuel with
  | O => Some []
  | S fuel =>
      if pos <? byte_len input then
        r ← try_parse_operator_at input pos;
        match r with
        | Some span => cons span <$> collect_loop fuel input (span_end span)
        | None => collect_loop fuel input (pos + 1)
        end
      else Some []
  end.

Definition collect_operator_spans (input : str) : option (list OperatorSpan) := collect_loop (byte_len input) input 0.

(** ** Dates (dates.rs, date_bound.rs) *)

Inductive BoundDirection := BBefore | BAfter.

#[export] Instance BoundDirection_eq_dec : EqDecision BoundDirection.
Proof. solve_decision. Defined.

Record DateBound := mkBound { bound_timestamp : Z; bound_direction : BoundDirection }.

#[export] Instance DateBound_eq_dec : EqDecision DateBound.
Proof. solve_decision. Defined.

(** [DateBound::before], [DateBound::after] *)
Definition bound_before (t : Z) : DateBound := mkBound t BBefore.
Definition bound_after (t : Z) : DateBound := mkBound t BAfter.

Definition i64_max_N : N := 9223372036854775807.

(** The day of the clock, in the zone of the system. *)
Class Clock `{Jiff} := { today : Date }.

(** [i16::try_from(year)], [i8::try_from] of the others *)
Definition civil_date `{Jiff} (y m d : Z) : option Date :=
  if bool_decide (-32768 ≤ y ≤ 32767 ∧ -128 ≤ m ≤ 127 ∧ -128 ≤ d ≤ 127)%Z then date_new y m d else None.

(** [date.at(0, 0, 0, 0)] panics when the time is invalid. *)
Definition naive_date_to_timestamp `{Jiff} (d : Date) : option (option Z) :=
  dt ← date_at d 0 0 0; Some (to_timestamp tz_system dt).

Definition parse_i32 : str → option Z := parse_signed i32_max.
Definition parse_u32 (s : str) : option Z := Z.of_N <$> parse_unsigned u32_max s.

(** [civil_date(..)?] and then [naive_date_to_timestamp(date)] *)
Definition timestamp_of `{Jiff} (d : option Date) : option (option Z) :=
  match d with Some d => naive_date_to_timestamp d | None => Some None end.

Definition parse_relative_offset `{Clock} (s : str) : option (option Z) :=
  match parse_signed i64_max_N s with
  | None => Some None
  | Some days =>
      if (0 <? days)%Z then Some None
      else
        span ← span_days days;
        timestamp_of (date_add_days today span)
  end.

(** Two or three parts are a month or a day. *)
Definition date_of_parts `{Jiff} (parts : list str) : option Date :=
  match parts with
  | [y; m; d] => y ← parse_i32 y; m ← parse_u32 m; d ← parse_u32 d; civil_date y m d
  | [y; m] => y ← parse_i32 y; m ← parse_u32 m; civil_date y m 1
  | _ => None
  end.

Definition parse_separated_date `{Jiff} (s : str) : option (option Z) :=
  timestamp_of (date_of_parts (split_char (if decide (47%N ∈ s) then 47 else 45) s)).

Definition parse_space_separated_date `{Jiff} (s : str) : option (option Z) :=
  timestamp_of (date_of_parts (split_whitespace s)).

(** The string is ASCII where it is sliced. *)
Definition parse_compact_date `{Jiff} (s : str) : option (option Z) :=
  if negb (forallb is_ascii_digit s) then Some None
  else
    timestamp_of
      (if byte_len s =? 4 then y ← parse_i32 s; civil_date y 1 1
       else if byte_len s =? 6 then y ← parse_i32 (take 4 s); m ← parse_u32 (drop 4 s); civil_date y m 1
       else if byte_len s =? 8 then
         y ← parse_i32 (take 4 s); m ← parse_u32 (take 2 (drop 4 s)); d ← parse_u32 (drop 6 s); civil_date y m d
       else None).

Definition parse_date_to_timestamp `{Clock} (date_str : str) : option (option Z) :=
  let trimmed := trim date_str in
  if is_nil trimmed then Some None
  else if bool_decide (trimmed = slit "0") || starts_with [45%N] trimmed then parse_relative_offset trimmed
  else if bool_decide (47%N ∈ trimmed) || bool_decide (45%N ∈ trimmed) then parse_separated_date trimmed
  else if bool_decide (32%N ∈ trimmed) then parse_space_separated_date trimmed
  else parse_compact_date trimmed.
(** ** Parsed queries (mod.rs, apply.rs) *)

Record ParsedQuery := mkParsedQuery {
  q_free_text : str;
  q_from : list str;
  q_to : list str;
  q_account : list str;
  q_label : list str;
  q_folder : list str;
  q_in_folder : list str;
  q_has_attachment : bool;
  q_attachment_types : list str;
  q_has_contact : bool;
  q_is_unread : option bool;
  q_is_read : option bool;
  q_is_starred : option bool;
  q_is_snoozed : option bool;
  q_is_pinned : option bool;
  q_is_muted : option bool;
  q_is_tagged : option bool;
  q_before : option DateBound;
  q_after : option DateBound
}.

(** [ParsedQuery::default] *)
Definition empty_query : ParsedQuery :=
  mkParsedQuery [] [] [] [] [] [] [] false [] false None None None None None None None None None.

(** *** The fields a parse writes *)

Definition set_free_text (f : str → str) (q : ParsedQuery) : ParsedQuery :=
  mkParsedQuery
    (f (q_free_text q)) (q_from q) (q_to q) (q_account q) (q_label q) (q_folder q) (q_in_folder q)
    (q_has_attachment q) (q_attachment_types q) (q_has_contact q) (q_is_unread q) (q_is_read q)
    (q_is_starred q) (q_is_snoozed q) (q_is_pinned q) (q_is_muted q) (q_is_tagged q) (q_before q)
    (q_after q).

Definition set_from (f : list str → list str) (q : ParsedQuery) : ParsedQuery :=
  mkParsedQuery
    (q_free_text q) (f (q_from q)) (q_to q) (q_account q) (q_label q) (q_folder q) (q_in_folder q)
    (q_has_attachment q) (q_attachment_types q) (q_has_contact q) (q_is_unread q) (q_is_read q)
    (q_is_starred q) (q_is_snoozed q) (q_is_pinned q) (q_is_muted q) (q_is_tagged q) (q_before q)
    (q_after q).

Definition set_to (f : list str → list str) (q : ParsedQuery) : ParsedQuery :=
  mkParsedQuery
    (q_free_text q) (q_from q) (f (q_to q)) (q_account q) (q_label q) (q_folder q) (q_in_folder q)
    (q_has_attachment q) (q_attachment_types q) (q_has_contact q) (q_is_unread q) (q_is_read q)
    (q_is_starred q) (q_is_snoozed q) (q_is_pinned q) (q_is_muted q) (q_is_tagged q) (q_before q)
    (q_after q).

Definition set_account (f : list str → list str) (q : ParsedQuery) : ParsedQuery :=
  mkParsedQuery
    (q_free_text q) (q_from q) (q_to q) (f (q_account q)) (q_label q) (q_folder q) (q_in_folder q)
    (q_has_attachment q) (q_attachment_types q) (q_has_contact q) (q_is_unread q) (q_is_read q)
    (q_is_starred q) (q_is_snoozed q) (q_is_pinned q) (q_is_muted q) (q_is_tagged q) (q_before q)
    (q_after q).

Definition set_label (f : list str → list str) (q : ParsedQuery) : ParsedQuery :=
  mkParsedQuery
    (q_free_text q) (q_from q) (q_to q) (q_account q) (f (q_label q)) (q_folder q) (q_in_folder q)
    (q_has_attachment q) (q_attachment_types q) (q_has_contact q) (q_is_unread q) (q_is_read q)
    (q_is_starred q) (q_is_snoozed q) (q_is_pinned q) (q_is_muted q) (q_is_tagged q) (q_before q)
    (q_after q).

Definition set_folder (f : list str → list str) (q : ParsedQuery) : ParsedQuery :=
  mkParsedQuery
    (q_free_text q) (q_from q) (q_to q) (q_account q) (q_label q) (f (q_folder q)) (q_in_folder q)
    (q_has_attachment q) (q_attachment_types q) (q_has_contact q) (q_is_unread q) (q_is_read q)
    (q_is_starred q) (q_is_snoozed q) (q_is_pinned q) (q_is_muted q) (q_is_tagged q) (q_before q)
    (q_after q).

Definition set_in_folder (f : list str → list str) (q : ParsedQuery) : ParsedQuery :=
  mkParsedQuery
    (q_free_text q) (q_from q) (q_to q) (q_account q) (q_label q) (q_folder q) (f (q_in_folder q))
    (q_has_attachment q) (q_attachment_types q) (q_has_contact q) (q_is_unread q) (q_is_read q)
    (q_is_starred q) (q_is_snoozed q) (q_is_pinned q) (q_is_muted q) (q_is_tagged q) (q_before q)
    (q_after q).

Definition set_has_attachment (f : bool → bool) (q : ParsedQuery) : ParsedQuery :=
  mkParsedQuery
    (q_free_text q) (q_from q) (q_to q) (q_account q) (q_label q) (q_folder q) (q_in_folder q) (f
    (q_has_attachment q)) (q_attachment_types q) (q_has_contact q) (q_is_unread q) (q_is_read q)
    (q_is_starred q) (q_is_snoozed q) (q_is_pinned q) (q_is_muted q) (q_is_tagged q) (q_before q)
    (q_after q).

Definition set_attachment_types (f : list str → list str) (q : ParsedQuery) : ParsedQuery :=
  mkParsedQuery
    (q_free_text q) (q_from q) (q_to q) (q_account q) (q_label q) (q_folder q) (q_in_folder q)
    (q_has_attachment q) (f (q_attachment_types q)) (q_has_contact q) (q_is_unread q) (q_is_read q)
    (q_is_starred q) (q_is_snoozed q) (q_is_pinned q) (q_is_muted q) (q_is_tagged q) (q_before q)
    (q_after q).

Definition set_has_contact (f : bool → bool) (q : ParsedQuery) : ParsedQuery :=
  mkParsedQuery
    (q_free_text q) (q_from q) (q_to q) (q_account q) (q_label q) (q_folder q) (q_in_folder q)
    (q_has_attachment q) (q_attachment_types q) (f (q_has_contact q)) (q_is_unread q) (q_is_read q)
    (q_is_starred q) (q_is_snoozed q) (q_is_pinned q) (q_is_muted q) (q_is_tagged q) (q_before q)
    (q_after q).

Definition set_is_unread (f : option bool → option bool) (q : ParsedQuery) : ParsedQuery :=
  mkParsedQuery
    (q_free_text q) (q_from q) (q_to q) (q_account q) (q_label q) (q_folder q) (q_in_folder q)
    (q_has_attachment q) (q_attachment_types q) (q_has_contact q) (f (q_is_unread q)) (q_is_read q)
    (q_is_starred q) (q_is_snoozed q) (q_is_pinned q) (q_is_muted q) (q_is_tagged q) (q_before q)
    (q_after q).

Definition set_is_read (f : option bool → option bool) (q : ParsedQuery) : ParsedQuery :=
  mkParsedQuery
    (q_free_text q) (q_from q) (q_to q) (q_account q) (q_label q) (q_folder q) (q_in_folder q)
    (q_has_attachment q) (q_attachment_types q) (q_has_contact q) (q_is_unread q) (f (q_is_read q))
    (q_is_starred q) (q_is_snoozed q) (q_is_pinned q) (q_is_muted q) (q_is_tagged q) (q_before q)
    (q_after q).

Definition set_is_starred (f : option bool → option bool) (q : ParsedQuery) : ParsedQuery :=
  mkParsedQuery
    (q_free_text q) (q_from q) (q_to q) (q_account q) (q_label q) (q_folder q) (q_in_folder q)
    (q_has_attachment q) (q_attachment_types q) (q_has_contact q) (q_is_unread q) (q_is_read q) (f
    (q_is_starred q)) (q_is_snoozed q) (q_is_pinned q) (q_is_muted q) (q_is_tagged q) (q_before q)
    (q_after q).

Definition set_is_snoozed (f : option bool → option bool) (q : ParsedQuery) : ParsedQuery :=
  mkParsedQuery
    (q_free_text q) (q_from q) (q_to q) (q_account q) (q_label q) (q_folder q) (q_in_folder q)
    (q_has_attachment q) (q_attachment_types q) (q_has_contact q) (q_is_unread q) (q_is_read q)
    (q_is_starred q) (f (q_is_snoozed q)) (q_is_pinned q) (q_is_muted q) (q_is_tagged q) (q_before q)
    (q_after q).

Definition set_is_pinned (f : option bool → option bool) (q : ParsedQuery) : ParsedQuery :=
  mkParsedQuery
    (q_free_text q) (q_from q) (q_to q) (q_account q) (q_label q) (q_folder q) (q_in_folder q)
    (q_has_attachment q) (q_attachment_types q) (q_has_contact q) (q_is_unread q) (q_is_read q)
    (q_is_starred q) (q_is_snoozed q) (f (q_is_pinned q)) (q_is_muted q) (q_is_tagged q) (q_before q)
    (q_after q).

Definition set_is_muted (f : option bool → option bool) (q : ParsedQuery) : ParsedQuery :=
  mkParsedQuery
    (q_free_text q) (q_from q) (q_to q) (q_account q) (q_label q) (q_folder q) (q_in_folder q)
    (q_has_attachment q) (q_attachment_types q) (q_has_contact q) (q_is_unread q) (q_is_read q)
    (q_is_starred q) (q_is_snoozed q) (q_is_pinned q) (f (q_is_muted q)) (q_is_tagged q) (q_before q)
    (q_after q).

Definition set_is_tagged (f : option bool → option bool) (q : ParsedQuery) : ParsedQuery :=
  mkParsedQuery
    (q_free_text q) (q_from q) (q_to q) (q_account q) (q_label q) (q_folder q) (q_in_folder q)
    (q_has_attachment q) (q_attachment_types q) (q_has_contact q) (q_is_unread q) (q_is_read q)
    (q_is_starred q) (q_is_snoozed q) (q_is_pinned q) (q_is_muted q) (f (q_is_tagged q)) (q_before q)
    (q_after q).

Definition set_before (f : option DateBound → option DateBound) (q : ParsedQuery) : ParsedQuery :=
  mkParsedQuery
    (q_free_text q) (q_from q) (q_to q) (q_account q) (q_label q) (q_folder q) (q_in_folder q)
    (q_has_attachment q) (q_attachment_types q) (q_has_contact q) (q_is_unread q) (q_is_read q)
    (q_is_starred q) (q_is_snoozed q) (q_is_pinned q) (q_is_muted q) (q_is_tagged q) (f (q_before q))
    (q_after q).

Definition set_after (f : option DateBound → option DateBound) (q : ParsedQuery) : ParsedQuery :=
  mkParsedQuery
    (q_free_text q) (q_from q) (q_to q) (q_account q) (q_label q) (q_folder q) (q_in_folder q)
    (q_has_attachment q) (q_attachment_types q) (q_has_contact q) (q_is_unread q) (q_is_read q)
    (q_is_starred q) (q_is_snoozed q) (q_is_pinned q) (q_is_muted q) (q_is_tagged q) (q_before q) (f
    (q_after q)).

(** [ParsedQuery::has_any_operator] *)
Definition has_any_operator (q : ParsedQuery) : bool :=
  negb (is_nil (q_from q)) || negb (is_nil (q_to q)) || negb (is_nil (q_account q)) || negb (is_nil (q_label q)) ||
  negb (is_nil (q_folder q)) || negb (is_nil (q_in_folder q)) || q_has_attachment q || negb (is_nil (q_attachment_types q)) ||
  q_has_contact q || bool_decide (is_Some (q_is_unread q)) || bool_decide (is_Some (q_is_read q)) ||
  bool_decide (is_Some (q_is_starred q)) || bool_decide (is_Some (q_is_snoozed q)) || bool_decide (is_Some (q_is_pinned q)) ||
  bool_decide (is_Some (q_is_muted q)) || bool_decide (is_Some (q_is_tagged q)) || bool_decide (is_Some (q_before q)) ||
  bool_decide (is_Some (q_after q)).

Definition HAS_EXPANSIONS : list (string * list string) :=
  [
   ("pdf", ["application/pdf"]);
   ("image", ["image/jpeg"; "image/png"; "image/gif"; "image/webp"; "image/svg+xml"]);
   ("excel", ["application/vnd.ms-excel"; "application/vnd.openxmlformats-officedocument.spreadsheetml.sheet";
              "application/vnd.oasis.opendocument.spreadsheet"; "text/csv"]);
   ("word", ["application/msword"; "application/vnd.openxmlformats-officedocument.wordprocessingml.document";
             "application/vnd.oasis.opendocument.text"; "application/rtf"]);
   ("powerpoint", ["application/vnd.ms-powerpoint";
                   "application/vnd.openxmlformats-officedocument.presentationml.presentation";
                   "application/vnd.oasis.opendocument.presentation"]);
   ("archive", ["application/zip"; "application/gzip"; "application/x-tar"; "application/x-7z-compressed";
                "application/x-rar-compressed"]);
   ("video", ["video/*"]);
   ("audio", ["audio/*"]);
   ("calendar", ["text/calendar"; "application/ics"])]%string.

Definition push {A} (x : A) (l : list A) : list A := l ++ [x].

(** The query, and whether the value was recognized. *)
Definition push_expansion_mimes (key : str) (q : ParsedQuery) : ParsedQuery * bool :=
  match list_find (λ e : string * list string, slit e.1 = key) HAS_EXPANSIONS with
  | Some (_, (_, mimes)) => (set_attachment_types (λ l, l ++ (slit <$> mimes)) q, true)
  | None => (q, false)
  end.

Definition expand_has_value (value : str) (q : ParsedQuery) : ParsedQuery * bool :=
  if decide (value = slit "spreadsheet") then ((push_expansion_mimes (slit "excel") q).1, true)
  else if decide (value = slit "document") then
    ((push_expansion_mimes (slit "pdf") (push_expansion_mimes (slit "word") q).1).1, true)
  else push_expansion_mimes value q.

Definition apply_has_operator (value : str) (q : ParsedQuery) : ParsedQuery * bool :=
  let lower := to_ascii_lowercase value in
  if decide (lower = slit "attachment") then (set_has_attachment (λ _, true) q, true)
  else if decide (lower = slit "contact") then (set_has_contact (λ _, true) q, true)
  else expand_has_value lower q.

Definition set_true (_ : option bool) : option bool := Some true.

Definition apply_is_operator (value : str) (q : ParsedQuery) : ParsedQuery * bool :=
  let lower := to_ascii_lowercase value in
  if decide (lower = slit "unread") then (set_is_unread set_true q, true)
  else if decide (lower = slit "read") then (set_is_read set_true q, true)
  else if decide (lower = slit "starred") then (set_is_starred set_true q, true)
  else if decide (lower = slit "snoozed") then (set_is_snoozed set_true q, true)
  else if decide (lower = slit "pinned") then (set_is_pinned set_true q, true)
  else if decide (lower = slit "muted") then (set_is_muted set_true q, true)
  else if decide (lower = slit "tagged") then (set_is_tagged set_true q, true)
  else (q, false).

Definition apply_operator `{Clock} (operator value : str) (q : ParsedQuery) : option (ParsedQuery * bool) :=
  if decide (operator = slit "from") then Some (set_from (push value) q, true)
  else if decide (operator = slit "to") then Some (set_to (push value) q, true)
  else if decide (operator = slit "has") then Some (apply_has_operator value q)
  else if decide (operator = slit "is") then Some (apply_is_operator value q)
  else if decide (operator = slit "before") then
    t ← parse_date_to_timestamp value; Some (set_before (λ _, bound_before <$> t) q, true)
  else if decide (operator = slit "after") then
    t ← parse_date_to_timestamp value; Some (set_after (λ _, bound_after <$> t) q, true)
  else if decide (operator = slit "label") then Some (set_label (push value) q, true)
  else if decide (operator = slit "account") then Some (set_account (push value) q, true)
  else if decide (operator = slit "folder") then Some (set_folder (push value) q, true)
  else if decide (operator = slit "in") then Some (set_in_folder (push value) q, true)
  else if decide (operator = slit "type") then Some (set_attachment_types (push value) q, true)
  else Some (q, false).

(** The operators applied in their order, and which were recognized. *)
Fixpoint apply_spans `{Clock} (spans : list OperatorSpan) (q : ParsedQuery) : option (ParsedQuery * list bool) :=
  match spans with
  | [] => Some (q, [])
  | s :: spans =>
      '(q, r) ← apply_operator (span_operator s) (span_value s) q;
      '(q, rs) ← apply_spans spans q;
      Some (q, r :: rs)
  end.

(** The recognized spans cut out, the last first. *)
Fixpoint cut_spans (spans : list (OperatorSpan * bool)) (input : str) : option str :=
  match spans with
  | [] => Some input
  | (s, r) :: spans =>
      remaining ← cut_spans spans input;
      if (r : bool) then
        a ← slice_to (span_start s) remaining; b ← slice_from (span_end s) remaining; Some (a ++ b)
      else Some remaining
  end.

(** [parts.join(" ")] *)
Fixpoint join_space (ws : list str) : str :=
  match ws with
  | [] => []
  | [w] => w
  | w :: ws => w ++ slit " " ++ join_space ws
  end.

Definition collapse_whitespace (s : str) : str := join_space (split_whitespace s).

Definition parse_query `{Clock} (input : str) : option ParsedQuery :=
  spans ← collect_operator_spans input;
  '(q, recognized) ← apply_spans spans empty_query;
  remaining ← cut_spans (zip spans recognized) input;
  Some (set_free_text (λ _, collapse_whitespace remaining) q).

(** ** Where the cursor is (mod.rs), and completion (search.rs) *)

Inductive CursorContext :=
  | FreeText
  | InsideOperator (operator partial_value : str) (value_start value_end : nat).

#[export] Instance CursorContext_eq_dec : EqDecision CursorContext.
Proof. solve_decision. Defined.

(** The offsets of a character, from the first. *)
Fixpoint match_indices_from (pos : nat) (c : N) (s : str) : list nat :=
  match s with
  | [] => []
  | x :: s => (if (x =? c)%N then [pos] else []) ++ match_indices_from (pos + len_utf8 x) c s
  end.

(** [str::rmatch_indices] *)
Definition rmatch_indices (c : N) (s : str) : list nat := rev (match_indices_from 0 c s).

(** [str::rfind(char::is_whitespace)] *)
Fixpoint rfind_whitespace_from (pos : nat) (s : str) : option nat :=
  match s with
  | [] => None
  | x :: s =>
      match rfind_whitespace_from (pos + len_utf8 x) s with
      | Some p => Some p
      | None => if is_whitespace x then Some pos else None
      end
  end.

Definition rfind_whitespace : str → option nat := rfind_whitespace_from 0.

(** What one colon before the cursor says. *)
Definition at_colon (before : str) (colon_pos : nat) : option (option CursorContext) :=
  before_colon ← slice_to colon_pos before;
  let op_start := match rfind_whitespace before_colon with Some p => p + 1 | None => 0 end in
  candidate ← slice_from op_start before_colon;
  if is_nil candidate then Some None
  else
    let lower := to_ascii_lowercase candidate in
    if decide (lower ∈ OPERATORS) then
      let value_start := colon_pos + 1 in
      partial ← slice_from value_start before;
      match strip_prefix [quote_char] partial with
      | Some after_open =>
          if decide (quote_char ∈ after_open) then Some None
          else Some (Some (InsideOperator lower after_open value_start (byte_len before)))
      | None =>
          if existsb is_whitespace partial then Some None
          else Some (Some (InsideOperator lower partial value_start (byte_len before)))
      end
    else Some None.

Fixpoint colons_loop (before : str) (colons : list nat) : option CursorContext :=
  match colons with
  | [] => Some FreeText
  | p :: colons =>
      r ← at_colon before p;
      match r with
      | Some ctx => Some ctx
      | None => colons_loop before colons
      end
  end.

(** [analyze_cursor_context]: the slice up to the cursor ends at the cursor. *)
Definition analyze_cursor_context (query : str) (cursor_pos : nat) : option CursorContext :=
  let cursor := cursor_pos `min` byte_len query in
  before ← slice_to cursor query;
  colons_loop before (rmatch_indices colon_char before).

(** What a change of the query asks suggestions for ([handle_search_query_changed]). *)
Definition typeahead_for (query : str) : option (option (str * str)) :=
  ctx ← analyze_cursor_context query (byte_len query);
  Some match ctx with
       | InsideOperator operator partial _ _ => if is_nil partial then None else Some (operator, partial)
       | FreeText => None
       end.

(** The query with a suggestion in it ([handle_typeahead_select]). *)
Definition complete (query insert_value : str) : option (option str) :=
  ctx ← analyze_cursor_context query (byte_len query);
  match ctx with
  | InsideOperator _ _ value_start value_end =>
      let value :=
        if decide (32%N ∈ insert_value) then [quote_char] ++ insert_value ++ [quote_char] ++ slit " "
        else insert_value ++ slit " " in
      a ← slice_to value_start query;
      b ← slice_from value_end query;
      Some (Some (a ++ value ++ b))
  | FreeText => Some None
  end.

(** ** The statement (sql_builder.rs) *)

(** [s LIKE pattern] and [LOWER] of SQLite. *)
Class SqliteText := { sql_like : str → str → bool; sql_lower : str → str }.

Inductive SqlValue := Text (s : str) | Integer (n : Z).

(** The columns of [messages], [contacts] and [attachments] that queries read. *)
Record MailRow := mkMailRow {
  m_account : str; m_id : str; m_thread : str;
  m_from_address : option str; m_from_name : option str;
  m_to : option str; m_cc : option str; m_bcc : option str;
  m_subject : option str; m_snippet : option str;
  m_date : Z
}.

Record Contact := mkContact { c_email : str; c_email2 : option str; c_display_name : option str }.

Record Attachment := mkAttachment { a_account : str; a_message : str; a_mime_type : option str }.

(** A database as a query reads it: [mail] has the threads, the folders and labels
    of threads, the members of the label groups and the pending intents. *)
Record search_db := mkSearchDb {
  mail : mailbox;
  mail_rows : list MailRow;
  contacts : list Contact;
  attachments : list Attachment;
  account_rows : gmap str (str * option str);  (** [email], [display_name] *)
  folder_names : gmap key2 (str * option str);  (** [name], [imap_folder_path] *)
  group_names : gmap Z str;
  last_message_at : key2 → option Z
}.

(** A condition on a message [m], which reads the parameters by their numbers, and
    a condition on a thread [t]. *)
Definition clause := list SqlValue → search_db → MailRow → bool.
Definition thread_clause := search_db → key2 → Thread → bool.

Record QueryContext := mkContext {
  msg_clauses : list clause;
  thread_flag_clauses : list thread_clause;
  ctx_params : list SqlValue;
  next_idx : nat
}.

Definition new_context : QueryContext := mkContext [] [] [] 1.

(** [push_param]: the number of the parameter. *)
Definition push_param (v : SqlValue) (ctx : QueryContext) : nat * QueryContext :=
  (next_idx ctx, mkContext (msg_clauses ctx) (thread_flag_clauses ctx) (ctx_params ctx ++ [v]) (next_idx ctx + 1)).

Definition push_clause (c : clause) (ctx : QueryContext) : QueryContext :=
  mkContext (msg_clauses ctx ++ [c]) (thread_flag_clauses ctx) (ctx_params ctx) (next_idx ctx).

Definition push_thread_clause (c : thread_clause) (ctx : QueryContext) : QueryContext :=
  mkContext (msg_clauses ctx) (thread_flag_clauses ctx ++ [c]) (ctx_params ctx) (next_idx ctx).

(** [?idx], a text or an integer; what compares with anything else is not true. *)
Definition text_param (ps : list SqlValue) (idx : nat) : option str :=
  match ps !! (idx - 1) with Some (Text s) => Some s | _ => None end.

Definition int_param (ps : list SqlValue) (idx : nat) : option Z :=
  match ps !! (idx - 1) with Some (Integer n) => Some n | _ => None end.

(** [a = b] with columns that may be NULL *)
Definition eq_col (a b : option str) : bool :=
  match a, b with Some a, Some b => bool_decide (a = b) | _, _ => false end.

Section Statements.
  Context `{SqliteText}.

(** [col LIKE '%' || x || '%'] *)
Definition contains (col x : option str) : bool :=
  match col, x with Some s, Some x => sql_like s (slit "%" ++ x ++ slit "%") | _, _ => false end.

Definition contains_param (ps : list SqlValue) (idx : nat) (col : option str) : bool := contains col (text_param ps idx).

(** A part for each value, with a parameter of its own. *)
Fixpoint map_params (part : nat → clause) (vs : list str) (ctx : QueryContext) : list clause * QueryContext :=
  match vs with
  | [] => ([], ctx)
  | v :: vs =>
      let '(idx, ctx) := push_param (Text v) ctx in
      let '(parts, ctx) := map_params part vs ctx in
      (part idx :: parts, ctx)
  end.

(** [parts.join(" OR ")] *)
Definition or_clause (parts : list clause) : clause := λ ps d m, existsb (λ c, c ps d m) parts.

(** What the builders of repeated operators share: nothing for no value. *)
Definition any_clause (part : nat → clause) (vs : list str) (ctx : QueryContext) : QueryContext :=
  if is_nil vs then ctx
  else let '(parts, ctx) := map_params part vs ctx in push_clause (or_clause parts) ctx.

Definition free_text_part (idx : nat) : clause := λ ps d m,
  contains_param ps idx (m_subject m) || contains_param ps idx (m_from_name m) ||
  contains_param ps idx (m_from_address m) || contains_param ps idx (m_snippet m).

Definition build_free_text_clause (parsed : ParsedQuery) (ctx : QueryContext) : QueryContext :=
  if is_nil (q_free_text parsed) then ctx
  else
    let '(idx, ctx) := push_param (Text (q_free_text parsed)) ctx in
    push_clause (free_text_part idx) ctx.

Definition from_part (idx : nat) : clause := λ ps d m,
  contains_param ps idx (m_from_address m) || contains_param ps idx (m_from_name m) ||
  existsb (λ c, contains_param ps idx (c_display_name c) &&
                (eq_col (m_from_address m) (Some (c_email c)) || eq_col (m_from_address m) (c_email2 c))) (contacts d).

Definition build_from_clause (parsed : ParsedQuery) : QueryContext → QueryContext := any_clause from_part (q_from parsed).

(** An address column contains [x]. *)
Definition recipients_contain (x : option str) (m : MailRow) : bool :=
  contains (m_to m) x || contains (m_cc m) x || contains (m_bcc m) x.

Definition to_part (idx : nat) : clause := λ ps d m,
  recipients_contain (text_param ps idx) m ||
  existsb (λ c, contains_param ps idx (c_display_name c) &&
                (recipients_contain (Some (c_email c)) m || recipients_contain (c_email2 c) m)) (contacts d).

Definition build_to_clause (parsed : ParsedQuery) : QueryContext → QueryContext := any_clause to_part (q_to parsed).

Definition attached (f : option str → bool) : search_db → MailRow → bool := λ d m,
  existsb (λ a, bool_decide (a_account a = m_account m) && bool_decide (a_message a = m_id m) && f (a_mime_type a)) (attachments d).

Definition build_attachment_clause (parsed : ParsedQuery) (ctx : QueryContext) : QueryContext :=
  if q_has_attachment parsed then push_clause (λ ps, attached (λ _, true)) ctx else ctx.

(** [DateBound::to_sql_clause] of [m.date] *)
Definition date_part (dir : BoundDirection) (idx : nat) : clause := λ ps d m,
  match int_param ps idx with
  | Some t => match dir with BBefore => (m_date m <? t)%Z | BAfter => (t <? m_date m)%Z end
  | None => false
  end.

Definition build_date_clause (b : option DateBound) (ctx : QueryContext) : QueryContext :=
  match b with
  | Some b =>
      let idx := next_idx ctx in
      let '(_, ctx) := push_param (Integer (bound_timestamp b)) ctx in
      push_clause (date_part (bound_direction b) idx) ctx
  | None => ctx
  end.

Definition build_date_clauses (parsed : ParsedQuery) (ctx : QueryContext) : QueryContext :=
  build_date_clause (q_after parsed) (build_date_clause (q_before parsed) ctx).

Inductive AccountScope := ScopeSingle (id : str) | ScopeMultiple (ids : list str) | ScopeAll.

Definition account_is (idx : nat) : clause := λ ps d m, eq_col (Some (m_account m)) (text_param ps idx).

Definition build_scope_clause (scope : AccountScope) (ctx : QueryContext) : QueryContext :=
  match scope with
  | ScopeSingle id => let '(idx, ctx) := push_param (Text id) ctx in push_clause (account_is idx) ctx
  | ScopeMultiple ids =>
      if is_nil ids then push_clause (λ _ _ _, false) ctx
      else let '(parts, ctx) := map_params account_is ids ctx in push_clause (or_clause parts) ctx
  | ScopeAll => ctx
  end.

Definition account_part (idx : nat) : clause := λ ps d m,
  match account_rows d !! m_account m with
  | Some (email, display_name) => contains_param ps idx display_name || contains_param ps idx (Some email)
  | None => false
  end.

Definition build_account_clause (parsed : ParsedQuery) (ctx : QueryContext) : QueryContext :=
  let '(parts, ctx) := map_params account_part (q_account parsed) ctx in push_clause (or_clause parts) ctx.

Definition build_effective_scope (parsed : ParsedQuery) (scope : AccountScope) (ctx : QueryContext) : QueryContext :=
  if is_nil (q_account parsed) then build_scope_clause scope ctx else build_account_clause parsed ctx.

(** The thread of a message is in a folder of which [f] holds. *)
Definition in_some_folder (f : str → bool) : search_db → MailRow → bool := λ d m,
  existsb (λ k : key3, bool_decide (k.1 = (m_account m, m_thread m)) && f k.2) (elements (thread_folders (mail d))).

Definition folder_part (idx : nat) : clause := λ ps d m,
  in_some_folder (λ fid, match folder_names d !! (m_account m, fid) with
                         | Some (name, path) => contains_param ps idx (Some name) || contains_param ps idx path
                         | None => false
                         end) d m.

Definition build_folder_clause (parsed : ParsedQuery) : QueryContext → QueryContext := any_clause folder_part (q_folder parsed).

Definition folder_is (idx : nat) : clause := λ ps d m, in_some_folder (λ fid, eq_col (Some fid) (text_param ps idx)) d m.

Definition folder_values (parsed : ParsedQuery) : list str :=
  omap (λ v, system_as_str <$> system_parse_shorthand v) (q_in_folder parsed).

Definition build_in_folder_clauses (parsed : ParsedQuery) : QueryContext → QueryContext :=
  any_clause folder_is (folder_values parsed).

(** [build_single_mime_condition]: what is compared and how. *)
Definition mime_glob (mime : str) : bool := bool_decide (slit "/*" `suffix_of` mime).

Definition mime_value (mime : str) : str :=
  if mime_glob mime then take (length mime - 1) mime ++ slit "%" else mime.

Definition mime_part (glob : bool) (idx : nat) (ps : list SqlValue) (mime : option str) : bool :=
  if glob then match mime, text_param ps idx with Some s, Some p => sql_like s p | _, _ => false end
  else eq_col mime (text_param ps idx).

Fixpoint mime_conditions (mimes : list str) (ctx : QueryContext)
    : list (list SqlValue → option str → bool) * QueryContext :=
  match mimes with
  | [] => ([], ctx)
  | mime :: mimes =>
      let '(idx, ctx) := push_param (Text (mime_value mime)) ctx in
      let '(cs, ctx) := mime_conditions mimes ctx in
      (mime_part (mime_glob mime) idx :: cs, ctx)
  end.

Definition build_attachment_type_clause (parsed : ParsedQuery) (ctx : QueryContext) : QueryContext :=
  if is_nil (q_attachment_types parsed) then ctx
  else
    let '(cs, ctx) := mime_conditions (q_attachment_types parsed) ctx in
    push_clause (λ ps, attached (λ mime, existsb (λ c, c ps mime) cs)) ctx.

Definition build_has_contact_clause (parsed : ParsedQuery) (ctx : QueryContext) : QueryContext :=
  if q_has_contact parsed then
    push_clause (λ ps d m,
      existsb (λ c, eq_col (Some (c_email c)) (m_from_address m) || recipients_contain (Some (c_email c)) m ||
                    eq_col (c_email2 c) (m_from_address m) || recipients_contain (c_email2 c) m) (contacts d)) ctx
  else ctx.

Definition build_message_clauses (parsed : ParsedQuery) (ctx : QueryContext) : QueryContext :=
  let ctx := build_free_text_clause parsed ctx in
  let ctx := build_from_clause parsed ctx in
  let ctx := build_to_clause parsed ctx in
  let ctx := build_attachment_clause parsed ctx in
  let ctx := build_date_clauses parsed ctx in
  let ctx := build_folder_clause parsed ctx in
  let ctx := build_in_folder_clauses parsed ctx in
  let ctx := build_attachment_type_clause parsed ctx in
  build_has_contact_clause parsed ctx.

(** [label_group_rendered_fragment]: the thread shows a label of a group of which
    [f] holds. *)
Definition group_shown (f : str → bool) (d : search_db) (a t : str) : bool :=
  existsb (λ e : key2 * Z,
      bool_decide (e.1.1 = a) && match group_names d !! e.2 with Some n => f n | None => false end &&
      user_visible (mail d) (a, t, e.1.2)) (map_to_list (label_group_members (mail d))).

Definition when (b : bool) (c : thread_clause) (ctx : QueryContext) : QueryContext :=
  if b then push_thread_clause c ctx else ctx.

Definition is_set (f : option bool) : bool := bool_decide (f = Some true).

Definition build_thread_state_clauses (parsed : ParsedQuery) (ctx : QueryContext) : QueryContext :=
  let ctx := when (is_set (q_is_unread parsed)) (λ _ _ t, negb (is_read t)) ctx in
  let ctx := when (is_set (q_is_read parsed)) (λ _ _ t, is_read t) ctx in
  when (is_set (q_is_starred parsed)) (λ _ _ t, is_starred t) ctx.

(** [IN_FLAG_SHORTHANDS] *)
Definition flag_shorthand (v : str) : option thread_clause :=
  let lower := to_ascii_lowercase v in
  if decide (lower = slit "starred") then Some (λ _ _ t, is_starred t)
  else if decide (lower = slit "snoozed") then Some (λ _ _ t, is_snoozed t)
  else None.

Definition build_in_folder_flag_clauses (parsed : ParsedQuery) (ctx : QueryContext) : QueryContext :=
  foldl (λ ctx c, push_thread_clause c ctx) ctx (omap flag_shorthand (q_in_folder parsed)).

Definition build_thread_flag_clauses (parsed : ParsedQuery) (ctx : QueryContext) : QueryContext :=
  let ctx := build_thread_state_clauses parsed ctx in
  let ctx := when (is_set (q_is_snoozed parsed)) (λ _ _ t, is_snoozed t) ctx in
  let ctx := when (is_set (q_is_pinned parsed)) (λ _ _ t, is_pinned t) ctx in
  let ctx := when (is_set (q_is_muted parsed)) (λ _ _ t, is_muted t) ctx in
  let ctx := when (is_set (q_is_tagged parsed)) (λ d k _, group_shown (λ _, true) d k.1 k.2) ctx in
  build_in_folder_flag_clauses parsed ctx.

Definition label_part (idx : nat) : clause := λ ps d m,
  group_shown (λ name, eq_col (Some (sql_lower name)) (sql_lower <$> text_param ps idx)) d (m_account m) (m_thread m).

Definition build_label_clause (parsed : ParsedQuery) : QueryContext → QueryContext := any_clause label_part (q_label parsed).

(** What every statement starts with. *)
Definition build_query (parsed : ParsedQuery) (scope : AccountScope) : QueryContext :=
  let ctx := build_message_clauses parsed new_context in
  let ctx := build_effective_scope parsed scope ctx in
  let ctx := build_thread_flag_clauses parsed ctx in
  build_label_clause parsed ctx.

(** [WHERE]: a message of the thread meets the clauses on messages, and the thread
    those on threads. *)
Definition selected (ps : list SqlValue) (ctx : QueryContext) (d : search_db) (k : key2) (t : Thread) : bool :=
  existsb (λ m, bool_decide ((m_account m, m_thread m) = k) && forallb (λ c, c ps d m) (msg_clauses ctx)) (mail_rows d) &&
  forallb (λ c, c d k t) (thread_flag_clauses ctx).

Definition matching (ps : list SqlValue) (ctx : QueryContext) (d : search_db) : gmap key2 Thread :=
  filter (λ e, selected ps ctx d e.1 e.2 = true) (threads (mail d)).

Definition query_thread_keys_read (d : search_db) (parsed : ParsedQuery) (scope : AccountScope) : gset key2 :=
  let ctx := build_query parsed scope in dom (matching (ctx_params ctx) ctx d).

Definition count_matching_read (d : search_db) (parsed : ParsedQuery) (scope : AccountScope) : nat :=
  let ctx := build_query parsed scope in size (matching (ctx_params ctx) ctx d).

(** [ORDER BY t.is_pinned DESC, t.last_message_at DESC]: NULL is last. *)
Definition newest_first (d : search_db) (x y : key2 * Thread) : Prop :=
  (is_pinned y.2 = true ∧ is_pinned x.2 = false → False) ∧
  (is_pinned x.2 = is_pinned y.2 →
    match last_message_at d x.1, last_message_at d y.1 with
    | Some a, Some b => (b ≤ a)%Z
    | None, Some _ => False
    | _, None => True
    end).

#[export] Instance newest_first_dec d x y : Decision (newest_first d x y).
Proof.
  unfold newest_first.
  destruct (last_message_at d x.1), (last_message_at d y.1); apply _.
Defined.

(** The order in which SQLite has the rows before it sorts them. *)
Class ThreadScan := {
  scan_threads : gmap key2 Thread → list (key2 * Thread);
  scan_threads_rows t : scan_threads t ≡ₚ map_to_list t
}.

(** [LIMIT n OFFSET m]; a negative offset is none. *)
Definition window (limit offset : option Z) {A} (l : list A) : list A :=
  sql_limit (default (-1)%Z limit) (drop (Z.to_nat (default 0%Z offset)) l).

(** The joined latest message is at most one a thread: it adds columns, no rows. *)
Definition query_threads_read `{ThreadScan} (d : search_db) (parsed : ParsedQuery) (scope : AccountScope)
    (limit offset : option Z) : list key2 :=
  let lim := default 50%Z limit in
  let off := default 0%Z offset in
  let ctx := build_query parsed scope in
  let limit_idx := next_idx ctx in
  let offset_idx := next_idx ctx + 1 in
  let '(_, ctx) := push_param (Integer lim) ctx in
  let '(_, ctx) := push_param (Integer off) ctx in
  let ps := ctx_params ctx in
  window (int_param ps limit_idx) (int_param ps offset_idx)
    (fst <$> merge_sort (newest_first d) (scan_threads (matching ps ctx d))).

(** [count_smart_folder_unread] *)
Definition count_smart_folder_unread `{Clock} (d : search_db) (query : str) (scope : AccountScope) : option nat :=
  parsed ← parse_query query;
  Some (count_matching_read d (set_is_unread (λ _, Some true) parsed) scope).

End Statements.
