(* ===== verification/SmartTheory.v ===== *)
(** * What queries select

    The statement built from a query as a condition on threads and messages that
    has no parameters; the spans of a query as segments of its characters, without
    offsets. *)

From stdpp Require Import sorting.
From S2P Require Import Prelude.
From S2P Require Import Graphemes.
From S2P Require Import Strings.
From S2P Require Import Bytes.
From S2P Require Import FolderLabel.
From S2P Require Import Civil.
From S2P Require Import Mailbox.
From S2P Require Import SmartQuery.

(** ** The statement *)

Section Statements.
  Context `{SqliteText}.

(** Repeated operators: one of them, or there is none. *)
Definition any_of {A} (f : A → bool) (l : list A) : bool := is_nil l || existsb f l.

Definition text_in (x : str) (m : MailRow) : bool :=
  contains (m_subject m) (Some x) || contains (m_from_name m) (Some x) || contains (m_from_address m) (Some x) ||
  contains (m_snippet m) (Some x).

(** The contacts named so. *)
Definition by_contact (x : str) (f : Contact → bool) (d : search_db) : bool :=
  existsb (λ c, contains (c_display_name c) (Some x) && f c) (contacts d).

Definition sent_by (x : str) (d : search_db) (m : MailRow) : bool :=
  contains (m_from_address m) (Some x) || contains (m_from_name m) (Some x) ||
  by_contact x (λ c, eq_col (m_from_address m) (Some (c_email c)) || eq_col (m_from_address m) (c_email2 c)) d.

Definition sent_to (x : str) (d : search_db) (m : MailRow) : bool :=
  recipients_contain (Some x) m ||
  by_contact x (λ c, recipients_contain (Some (c_email c)) m || recipients_contain (c_email2 c) m) d.

Definition in_account (x : str) (d : search_db) (m : MailRow) : bool :=
  match account_rows d !! m_account m with
  | Some (email, name) => contains name (Some x) || contains (Some email) (Some x)
  | None => false
  end.

Definition in_named_folder (x : str) (d : search_db) (m : MailRow) : bool :=
  in_some_folder (λ fid, match folder_names d !! (m_account m, fid) with
                         | Some (name, path) => contains (Some name) (Some x) || contains path (Some x)
                         | None => false
                         end) d m.

Definition of_type (x : str) (mime : option str) : bool :=
  if mime_glob x then match mime with Some s => sql_like s (mime_value x) | None => false end
  else eq_col mime (Some x).

Definition with_contact (d : search_db) (m : MailRow) : bool :=
  existsb (λ c, eq_col (Some (c_email c)) (m_from_address m) || recipients_contain (Some (c_email c)) m ||
                eq_col (c_email2 c) (m_from_address m) || recipients_contain (c_email2 c) m) (contacts d).

Definition in_bound (b : DateBound) (m : MailRow) : bool :=
  match bound_direction b with
  | BBefore => (m_date m <? bound_timestamp b)%Z
  | BAfter => (bound_timestamp b <? m_date m)%Z
  end.

Definition in_bounds (b : option DateBound) (m : MailRow) : bool := from_option (λ b, in_bound b m) true b.

Definition in_scope (q : ParsedQuery) (scope : AccountScope) (d : search_db) (m : MailRow) : bool :=
  if is_nil (q_account q) then
    match scope with
    | ScopeSingle id => bool_decide (m_account m = id)
    | ScopeMultiple ids => existsb (λ id, bool_decide (m_account m = id)) ids
    | ScopeAll => true
    end
  else existsb (λ x, in_account x d m) (q_account q).

(** A message meets a query. *)
Definition message_meets (q : ParsedQuery) (scope : AccountScope) (d : search_db) (m : MailRow) : bool :=
  (is_nil (q_free_text q) || text_in (q_free_text q) m) &&
  any_of (λ x, sent_by x d m) (q_from q) &&
  any_of (λ x, sent_to x d m) (q_to q) &&
  (negb (q_has_attachment q) || attached (λ _, true) d m) &&
  in_bounds (q_before q) m && in_bounds (q_after q) m &&
  any_of (λ x, in_named_folder x d m) (q_folder q) &&
  any_of (λ x, in_some_folder (λ fid, bool_decide (fid = x)) d m) (folder_values q) &&
  (is_nil (q_attachment_types q) || attached (λ mime, existsb (λ x, of_type x mime) (q_attachment_types q)) d m) &&
  (negb (q_has_contact q) || with_contact d m) &&
  in_scope q scope d m &&
  any_of (λ x, group_shown (λ name, bool_decide (sql_lower name = sql_lower x)) d (m_account m) (m_thread m)) (q_label q).

Definition flag (f : option bool) (b : bool) : bool := negb (is_set f) || b.

(** A thread meets a query. *)
Definition thread_meets (q : ParsedQuery) (d : search_db) (k : key2) (t : Thread) : bool :=
  flag (q_is_unread q) (negb (is_read t)) && flag (q_is_read q) (is_read t) && flag (q_is_starred q) (is_starred t) &&
  flag (q_is_snoozed q) (is_snoozed t) && flag (q_is_pinned q) (is_pinned t) && flag (q_is_muted q) (is_muted t) &&
  flag (q_is_tagged q) (group_shown (λ _, true) d k.1 k.2) &&
  forallb (λ c : thread_clause, c d k t) (omap flag_shorthand (q_in_folder q)).

(** *** Growing contexts *)

Definition numbered (ctx : QueryContext) : Prop := next_idx ctx = S (length (ctx_params ctx)).

(** A builder adds clauses that mean [P], whatever parameters come later. *)
Record adds (P : search_db → MailRow → bool) (ctx ctx' : QueryContext) : Prop := {
  adds_numbered : numbered ctx → numbered ctx';
  adds_threads : thread_flag_clauses ctx' = thread_flag_clauses ctx;
  adds_clauses : ∃ ps cs, ctx_params ctx' = ctx_params ctx ++ ps ∧ msg_clauses ctx' = msg_clauses ctx ++ cs ∧
    (numbered ctx → ∀ more d m, forallb (λ c : clause, c (ctx_params ctx' ++ more) d m) cs = P d m)
}.

Lemma adds_nothing ctx : adds (λ _ _, true) ctx ctx.
Proof. split; [done..|]. exists [], []. by rewrite !app_nil_r. Qed.

Lemma adds_trans P Q a b c : adds P a b → adds Q b c → adds (λ d m, P d m && Q d m) a c.
Proof.
  intros [N1 T1 (ps1 & cs1 & E1 & F1 & H1)] [N2 T2 (ps2 & cs2 & E2 & F2 & H2)]. split; [auto|congruence|].
  exists (ps1 ++ ps2), (cs1 ++ cs2). rewrite E2, E1, F2, F1, <-!app_assoc. split; [done|]. split; [done|].
  intros Hn more d m. rewrite forallb_app. f_equal.
  - rewrite <-(H1 Hn (ps2 ++ more) d m), E1, <-!app_assoc. done.
  - rewrite <-(H2 (N1 Hn) more d m), E2, E1, <-!app_assoc. done.
Qed.

Lemma adds_ext P Q a b : (∀ d m, P d m = Q d m) → adds P a b → adds Q a b.
Proof.
  intros E [N T (ps & cs & E1 & F1 & H1)]. split; [done..|]. exists ps, cs. split; [done|]. split; [done|].
  intros Hn more d m. rewrite <-E. by apply H1.
Qed.

Lemma adds_clause (c : clause) P ctx : (∀ ps d m, c ps d m = P d m) → adds P ctx (push_clause c ctx).
Proof.
  intros E. split; [done..|]. exists [], [c]. rewrite app_nil_r. split; [done|]. split; [done|].
  intros _ more d m. cbn. by rewrite andb_true_r.
Qed.

(** A part that reads one parameter. *)
Definition reads (part : nat → clause) (den : str → search_db → MailRow → bool) : Prop :=
  ∀ idx ps x d m, text_param ps idx = Some x → part idx ps d m = den x d m.

Lemma param_value ctx v (more : list SqlValue) : numbered ctx → (ctx_params ctx ++ v :: more) !! (next_idx ctx - 1) = Some v.
Proof. intros Hn. apply list_lookup_middle. rewrite Hn. lia. Qed.

Lemma pushed_text ctx x more : numbered ctx → text_param (ctx_params ctx ++ Text x :: more) (next_idx ctx) = Some x.
Proof. intros Hn. unfold text_param. by rewrite (param_value ctx (Text x) more Hn). Qed.

Lemma push_numbered v ctx : numbered ctx → numbered (push_param v ctx).2.
Proof. unfold numbered. cbn. rewrite length_app. cbn. lia. Qed.

Lemma map_params_spec part den vs ctx : reads part den →
  let '(parts, ctx') := map_params part vs ctx in
  msg_clauses ctx' = msg_clauses ctx ∧ thread_flag_clauses ctx' = thread_flag_clauses ctx ∧
  ctx_params ctx' = ctx_params ctx ++ (Text <$> vs) ∧ (numbered ctx → numbered ctx') ∧
  (numbered ctx → ∀ more d m, or_clause parts (ctx_params ctx' ++ more) d m = existsb (λ x, den x d m) vs).
Proof.
  intros Hr. revert ctx. induction vs as [|v vs IH]; intros ctx; cbn [map_params].
  { by rewrite app_nil_r. }
  pose proof (push_numbered (Text v) ctx) as Hpn. specialize (IH (push_param (Text v) ctx).2).
  destruct (push_param (Text v) ctx) as [idx ctx1] eqn:E. cbn [snd] in IH, Hpn.
  destruct (map_params part vs ctx1) as [parts ctx2]. destruct IH as (Hm & Ht & Hp & Hn & Hc).
  injection E as <- <-. cbn in Hm, Ht, Hp. rewrite <-app_assoc in Hp. cbn in Hp.
  split; [done|]. split; [done|]. split; [done|]. split; [auto|].
  intros Hnum more d m. specialize (Hc (Hpn Hnum) more d m). unfold or_clause in *. cbn. rewrite Hc. f_equal.
  apply Hr. rewrite Hp, <-app_assoc. by apply (pushed_text ctx v _ Hnum).
Qed.

Lemma adds_or part den vs ctx : reads part den →
  adds (λ d m, existsb (λ x, den x d m) vs) ctx (let '(parts, ctx) := map_params part vs ctx in push_clause (or_clause parts) ctx).
Proof.
  intros Hr. pose proof (map_params_spec part den vs ctx Hr) as Hs. destruct (map_params part vs ctx) as [parts ctx'].
  destruct Hs as (Hm & Ht & Hp & Hn & Hc). split; [done..|]. exists (Text <$> vs), [or_clause parts].
  cbn. rewrite Hm. split; [done|]. split; [done|]. intros Hnum more d m. rewrite andb_true_r. by apply Hc.
Qed.

Lemma adds_any part den vs ctx : reads part den → adds (λ d m, any_of (λ x, den x d m) vs) ctx (any_clause part vs ctx).
Proof.
  intros Hr. unfold any_clause, any_of. destruct vs as [|v vs]; [apply adds_nothing|].
  exact (adds_or part den (v :: vs) ctx Hr).
Qed.

Lemma adds_date b ctx : adds (λ _ m, in_bounds b m) ctx (build_date_clause b ctx).
Proof.
  destruct b as [b|]; [|apply adds_nothing]. split; [apply push_numbered|done|].
  exists [Integer (bound_timestamp b)], [date_part (bound_direction b) (next_idx ctx)]. split; [done|]. split; [done|].
  intros Hn more d m. cbn. rewrite andb_true_r. unfold date_part, int_param. rewrite <-app_assoc. cbn [app].
  rewrite (param_value ctx (Integer (bound_timestamp b)) more Hn).
  unfold in_bounds, in_bound. cbn. by destruct (bound_direction b).
Qed.

(** *** The builders *)

Lemma reads_free_text : reads free_text_part (λ x _ m, text_in x m).
Proof. intros idx ps x d m E. unfold free_text_part, contains_param. by rewrite E. Qed.

Lemma reads_from : reads from_part sent_by.
Proof. intros idx ps x d m E. unfold from_part, contains_param. by rewrite E. Qed.

Lemma reads_to : reads to_part sent_to.
Proof. intros idx ps x d m E. unfold to_part, contains_param. by rewrite E. Qed.

Lemma reads_folder : reads folder_part in_named_folder.
Proof. intros idx ps x d m E. unfold folder_part, contains_param. by rewrite E. Qed.

Lemma reads_folder_is : reads folder_is (λ x d m, in_some_folder (λ fid, bool_decide (fid = x)) d m).
Proof. intros idx ps x d m E. unfold folder_is. by rewrite E. Qed.

Lemma reads_account_is : reads account_is (λ x _ m, bool_decide (m_account m = x)).
Proof. intros idx ps x d m E. unfold account_is. by rewrite E. Qed.

Lemma reads_account : reads account_part in_account.
Proof. intros idx ps x d m E. unfold account_part, contains_param. by rewrite E. Qed.

Lemma reads_label :
  reads label_part (λ x d m, group_shown (λ n, bool_decide (sql_lower n = sql_lower x)) d (m_account m) (m_thread m)).
Proof. intros idx ps x d m E. unfold label_part. by rewrite E. Qed.

Lemma adds_text part den x ctx : reads part den →
  adds (den x) ctx (let '(idx, ctx) := push_param (Text x) ctx in push_clause (part idx) ctx).
Proof.
  intros Hr. split; [apply push_numbered|done|]. exists [Text x], [part (next_idx ctx)]. split; [done|]. split; [done|].
  intros Hn more d m. cbn [forallb]. rewrite andb_true_r. apply Hr. cbn. rewrite <-app_assoc. by apply pushed_text.
Qed.

Lemma adds_free_text q ctx : adds (λ _ m, is_nil (q_free_text q) || text_in (q_free_text q) m) ctx (build_free_text_clause q ctx).
Proof.
  unfold build_free_text_clause. destruct (q_free_text q) as [|c s]; [apply adds_nothing|].
  apply (adds_text _ _ _ _ reads_free_text).
Qed.

Lemma adds_scope q scope ctx : adds (λ d m, in_scope q scope d m) ctx (build_effective_scope q scope ctx).
Proof.
  unfold build_effective_scope, in_scope. destruct (is_nil (q_account q)); [|apply adds_or, reads_account].
  destruct scope as [id|ids|]; cbn [build_scope_clause].
  - apply (adds_text _ _ _ _ reads_account_is).
  - destruct ids as [|id ids]; [by apply adds_clause|]. apply (adds_or account_is _ (id :: ids)), reads_account_is.
  - apply adds_nothing.
Qed.

Lemma mime_conditions_spec mimes ctx :
  let '(cs, ctx') := mime_conditions mimes ctx in
  msg_clauses ctx' = msg_clauses ctx ∧ thread_flag_clauses ctx' = thread_flag_clauses ctx ∧
  (∃ ps, ctx_params ctx' = ctx_params ctx ++ ps) ∧ (numbered ctx → numbered ctx') ∧
  (numbered ctx → ∀ more mime, existsb (λ c, c (ctx_params ctx' ++ more) mime) cs = existsb (λ x, of_type x mime) mimes).
Proof.
  revert ctx. induction mimes as [|x mimes IH]; intros ctx; cbn [mime_conditions].
  { split_and!; [done|done|exists []; by rewrite app_nil_r|done|done]. }
  pose proof (push_numbered (Text (mime_value x)) ctx) as Hpn. specialize (IH (push_param (Text (mime_value x)) ctx).2).
  destruct (push_param (Text (mime_value x)) ctx) as [idx ctx1] eqn:E. cbn [snd] in IH, Hpn.
  destruct (mime_conditions mimes ctx1) as [cs ctx2]. destruct IH as (Hm & Ht & [ps Hp] & Hn & Hc).
  injection E as <- <-. cbn in Hm, Ht, Hp. rewrite <-app_assoc in Hp. cbn in Hp.
  split_and!; [done|done|by eexists|auto|].
  intros Hnum more mime. cbn. rewrite (Hc (Hpn Hnum) more mime). f_equal. unfold mime_part, of_type.
  rewrite Hp, <-app_assoc. cbn [app]. rewrite (pushed_text ctx (mime_value x) (ps ++ more) Hnum).
  destruct (mime_glob x) eqn:Eg; [done|]. unfold mime_value. by rewrite Eg.
Qed.

Lemma attached_ext f g d m : (∀ mime, f mime = g mime) → attached f d m = attached g d m.
Proof. intros E. unfold attached. induction (attachments d) as [|a l IH]; [done|]. cbn. by rewrite IH, E. Qed.

Lemma adds_types q ctx :
  adds (λ d m, is_nil (q_attachment_types q) || attached (λ mime, existsb (λ x, of_type x mime) (q_attachment_types q)) d m)
    ctx (build_attachment_type_clause q ctx).
Proof.
  unfold build_attachment_type_clause. destruct (q_attachment_types q) as [|x l]; [apply adds_nothing|].
  pose proof (mime_conditions_spec (x :: l) ctx) as Hs. cbn [is_nil]. destruct (mime_conditions (x :: l) ctx) as [cs ctx'].
  destruct Hs as (Hm & Ht & [ps Hp] & Hn & Hc). split; [done..|]. eexists ps, [_]. cbn [msg_clauses push_clause]. rewrite Hm.
  split; [done|]. split; [done|]. intros Hnum more d m. cbn [forallb orb]. rewrite andb_true_r. apply attached_ext. intros mime.
  by apply Hc.
Qed.

Lemma adds_if (b : bool) (c : clause) P ctx : (∀ ps d m, c ps d m = P d m) →
  adds (λ d m, negb b || P d m) ctx (if b then push_clause c ctx else ctx).
Proof. intros E. destruct b; [by apply adds_clause|apply adds_nothing]. Qed.

Lemma adds_message_clauses q ctx :
  adds (λ d m, (is_nil (q_free_text q) || text_in (q_free_text q) m) &&
    any_of (λ x, sent_by x d m) (q_from q) && any_of (λ x, sent_to x d m) (q_to q) &&
    (negb (q_has_attachment q) || attached (λ _, true) d m) && (in_bounds (q_before q) m && in_bounds (q_after q) m) &&
    any_of (λ x, in_named_folder x d m) (q_folder q) &&
    any_of (λ x, in_some_folder (λ fid, bool_decide (fid = x)) d m) (folder_values q) &&
    (is_nil (q_attachment_types q) || attached (λ mime, existsb (λ x, of_type x mime) (q_attachment_types q)) d m) &&
    (negb (q_has_contact q) || with_contact d m)) ctx (build_message_clauses q ctx).
Proof.
  unfold build_message_clauses.
  eapply (adds_trans (λ d m, _) (λ d m, _)); [|by apply adds_if].
  eapply (adds_trans (λ d m, _) (λ d m, _)); [|apply adds_types].
  eapply (adds_trans (λ d m, _) (λ d m, _)); [|apply adds_any, reads_folder_is].
  eapply (adds_trans (λ d m, _) (λ d m, _)); [|apply adds_any, reads_folder].
  eapply (adds_trans (λ d m, _) (λ d m, _)); [|apply (adds_trans _ _ _ _ _ (adds_date _ _) (adds_date _ _))].
  eapply (adds_trans (λ d m, _) (λ d m, _)); [|by apply adds_if].
  eapply (adds_trans (λ d m, _) (λ d m, _)); [|apply adds_any, reads_to].
  eapply (adds_trans (λ d m, _) (λ d m, _)); [|apply adds_any, reads_from].
  apply adds_free_text.
Qed.

(** *** The clauses on threads *)

(** A builder of clauses on threads that mean [P], and nothing else. *)
Record adds_thread (P : search_db → key2 → Thread → bool) (ctx ctx' : QueryContext) : Prop := {
  at_numbered : numbered ctx → numbered ctx';
  at_messages : msg_clauses ctx' = msg_clauses ctx;
  at_params : ctx_params ctx' = ctx_params ctx;
  at_clauses : ∃ cs, thread_flag_clauses ctx' = thread_flag_clauses ctx ++ cs ∧
    ∀ d k t, forallb (λ c : thread_clause, c d k t) cs = P d k t
}.

Lemma adds_thread_trans P Q a b c : adds_thread P a b → adds_thread Q b c →
  adds_thread (λ d k t, P d k t && Q d k t) a c.
Proof.
  intros [N1 M1 P1 (cs1 & E1 & H1)] [N2 M2 P2 (cs2 & E2 & H2)]. split; [auto|congruence..|].
  exists (cs1 ++ cs2). split; [by rewrite E2, E1, <-app_assoc|]. intros d k t. by rewrite forallb_app, H1, H2.
Qed.

Lemma adds_when f (c : thread_clause) ctx : adds_thread (λ d k t, flag f (c d k t)) ctx (when (is_set f) c ctx).
Proof.
  unfold when, flag. destruct (is_set f).
  - split; [done..|]. exists [c]. split; [done|]. intros. cbn. by rewrite andb_true_r.
  - split; [done..|]. exists []. by rewrite app_nil_r.
Qed.

Lemma adds_flags cs ctx :
  adds_thread (λ d k t, forallb (λ c : thread_clause, c d k t) cs) ctx (foldl (λ ctx c, push_thread_clause c ctx) ctx cs).
Proof.
  revert ctx. induction cs as [|c cs IH]; intros ctx; cbn [foldl].
  - split; [done..|]. exists []. by rewrite app_nil_r.
  - apply (adds_thread_trans (λ d k t, c d k t) (λ d k t, forallb (λ c : thread_clause, c d k t) cs) _ (push_thread_clause c ctx)); [|apply IH].
    split; [done..|]. exists [c]. split; [done|]. intros. cbn. by rewrite andb_true_r.
Qed.

Lemma adds_thread_clauses q ctx : adds_thread (thread_meets q) ctx (build_thread_flag_clauses q ctx).
Proof.
  unfold build_thread_flag_clauses, build_thread_state_clauses, build_in_folder_flag_clauses, thread_meets.
  eapply (adds_thread_trans (λ d k t, _) (λ d k t, _)); [|apply adds_flags].
  do 7 (eapply (adds_thread_trans (λ d k t, _) (λ d k t, _)); [|apply (adds_when _ (λ d k t, _))] || apply (adds_when _ (λ d k t, _))).
Qed.

Lemma build_query_spec q scope : ∃ ctx, ctx = build_query q scope ∧ numbered ctx ∧
  (∀ more d m, forallb (λ c : clause, c (ctx_params ctx ++ more) d m) (msg_clauses ctx) = message_meets q scope d m) ∧
  (∀ d k t, forallb (λ c : thread_clause, c d k t) (thread_flag_clauses ctx) = thread_meets q d k t).
Proof.
  eexists. split; [reflexivity|]. unfold build_query.
  pose proof (adds_trans _ _ _ _ _ (adds_message_clauses q new_context) (adds_scope q scope _)) as H1.
  pose proof (adds_thread_clauses q (build_effective_scope q scope (build_message_clauses q new_context))) as H2.
  pose proof (adds_any label_part _ (q_label q) (build_thread_flag_clauses q
    (build_effective_scope q scope (build_message_clauses q new_context))) reads_label) as H3.
  fold (build_label_clause q) in H3 |- *.
  destruct H1 as [N1 T1 (ps1 & cs1 & E1 & F1 & H1)], H2 as [N2 M2 P2 (cs2 & E2 & H2)], H3 as [N3 T3 (ps3 & cs3 & E3 & F3 & H3)].
  assert (numbered new_context) as Hn by done. split; [auto|]. split.
  - intros more d m. rewrite F3, M2, F1, forallb_app. cbn [msg_clauses new_context app].
    rewrite (H3 (N2 (N1 Hn)) more d m). rewrite E3, P2, <-app_assoc, (H1 Hn (ps3 ++ more) d m). unfold message_meets.
    rewrite <-!andb_assoc. done.
  - intros d k t. rewrite T3, E2, T1, <-H2. done.
Qed.

End Statements.

(** ** What is asked of messages and threads

    Written out without the builders of the statement, column by column; [v]s are
    the values of one operator, of which one has to be met. *)

Section Conditions.
  Context `{SqliteText} (d : search_db).

(** A column has the text in it. *)
Definition has_text (col : option str) (x : str) : Prop :=
  ∃ s, col = Some s ∧ sql_like s (slit "%" ++ x ++ slit "%") = true.

Definition one_of (vs : list str) (P : str → Prop) : Prop := vs ≠ [] → ∃ v, v ∈ vs ∧ P v.

Definition received_by (m : MailRow) (x : str) : Prop := has_text (m_to m) x ∨ has_text (m_cc m) x ∨ has_text (m_bcc m) x.

Definition address_of (c : Contact) (a : str) : Prop := c_email c = a ∨ c_email2 c = Some a.

Definition known_as (x a : str) : Prop := ∃ c, c ∈ contacts d ∧ has_text (c_display_name c) x ∧ address_of c a.

Definition attachment_of (m : MailRow) (a : Attachment) : Prop :=
  a ∈ attachments d ∧ a_account a = m_account m ∧ a_message a = m_id m.

(** A type, or all the types before a final star. *)
Definition is_type (x mime : str) : Prop :=
  (∃ base, x = base ++ slit "/*" ∧ sql_like mime (base ++ slit "/%") = true) ∨
  ((∀ base, x ≠ base ++ slit "/*") ∧ mime = x).

Definition filed_in (m : MailRow) (f : str) : Prop := (m_account m, m_thread m, f) ∈ thread_folders (mail d).

(** The folders that [in:] names, in letters of either case. *)
Definition NAMED_FOLDERS : list (string * string) :=
  [("inbox", "INBOX"); ("sent", "SENT"); ("drafts", "DRAFT"); ("draft", "DRAFT"); ("trash", "TRASH"); ("spam", "SPAM");
   ("archive", "archive")]%string.

Definition folder_asked (q : ParsedQuery) (f : str) : Prop :=
  ∃ v name fid, v ∈ q_in_folder q ∧ to_ascii_lowercase v = slit name ∧ (name, fid) ∈ NAMED_FOLDERS ∧ f = slit fid.

(** The thread shows a label of a group with such a name. *)
Definition shows_group (a t : str) (P : str → Prop) : Prop :=
  ∃ l g name, label_group_members (mail d) !! (a, l) = Some g ∧ group_names d !! g = Some name ∧ P name ∧
    user_visible (mail d) (a, t, l) = true.

(** A date as it is stored is before or after the number of the query. *)
Definition within (b : option DateBound) (m : MailRow) : Prop :=
  ∀ t dir, b = Some (mkBound t dir) → match dir with BBefore => m_date m < t | BAfter => t < m_date m end%Z.

(** [account:] or else the scope of the view. *)
Definition of_account (q : ParsedQuery) (scope : AccountScope) (m : MailRow) : Prop :=
  if decide (q_account q = []) then
    match scope with ScopeAll => True | ScopeSingle id => m_account m = id | ScopeMultiple ids => m_account m ∈ ids end
  else ∃ x email name, x ∈ q_account q ∧ account_rows d !! m_account m = Some (email, name) ∧
    (has_text (Some email) x ∨ has_text name x).

Record message_chosen (q : ParsedQuery) (scope : AccountScope) (m : MailRow) : Prop := {
  mc_text : q_free_text q ≠ [] →
    ∃ col, col ∈ [m_subject m; m_from_name m; m_from_address m; m_snippet m] ∧ has_text col (q_free_text q);
  mc_from : one_of (q_from q) (λ x, has_text (m_from_address m) x ∨ has_text (m_from_name m) x ∨
    ∃ a, known_as x a ∧ m_from_address m = Some a);
  mc_to : one_of (q_to q) (λ x, received_by m x ∨ ∃ a, known_as x a ∧ received_by m a);
  mc_attachment : q_has_attachment q = true → ∃ a, attachment_of m a;
  mc_before : within (q_before q) m;
  mc_after : within (q_after q) m;
  mc_folder : one_of (q_folder q) (λ x, ∃ f name path, filed_in m f ∧ folder_names d !! (m_account m, f) = Some (name, path) ∧
    (has_text (Some name) x ∨ has_text path x));
  mc_in : (∃ f, folder_asked q f) → ∃ f, folder_asked q f ∧ filed_in m f;
  mc_type : one_of (q_attachment_types q) (λ x, ∃ a mime, attachment_of m a ∧ a_mime_type a = Some mime ∧ is_type x mime);
  mc_contact : q_has_contact q = true →
    ∃ c a, c ∈ contacts d ∧ address_of c a ∧ (m_from_address m = Some a ∨ received_by m a);
  mc_scope : of_account q scope m;
  mc_label : one_of (q_label q) (λ x, shows_group (m_account m) (m_thread m) (λ name, sql_lower name = sql_lower x))
}.

Record thread_chosen (q : ParsedQuery) (k : key2) (t : Thread) : Prop := {
  th_unread : q_is_unread q = Some true → is_read t = false;
  th_read : q_is_read q = Some true → is_read t = true;
  th_starred : q_is_starred q = Some true → is_starred t = true;
  th_snoozed : q_is_snoozed q = Some true → is_snoozed t = true;
  th_pinned : q_is_pinned q = Some true → is_pinned t = true;
  th_muted : q_is_muted q = Some true → is_muted t = true;
  th_tagged : q_is_tagged q = Some true → shows_group k.1 k.2 (λ _, True);
  th_in_starred v : v ∈ q_in_folder q → to_ascii_lowercase v = slit "starred" → is_starred t = true;
  th_in_snoozed v : v ∈ q_in_folder q → to_ascii_lowercase v = slit "snoozed" → is_snoozed t = true
}.

(** The threads that are asked for. *)
Definition chosen (q : ParsedQuery) (scope : AccountScope) (k : key2) : Prop :=
  ∃ t m, threads (mail d) !! k = Some t ∧ thread_chosen q k t ∧
    m ∈ mail_rows d ∧ (m_account m, m_thread m) = k ∧ message_chosen q scope m.

(** *** The conditions of the statement *)

Lemma contains_spec col x : contains col (Some x) = true ↔ has_text col x.
Proof. unfold contains, has_text. destruct col; naive_solver. Qed.

Lemma any_of_spec (f : str → bool) (P : str → Prop) vs : (∀ v, f v = true ↔ P v) → any_of f vs = true ↔ one_of vs P.
Proof.
  intros Hf. unfold any_of, one_of. rewrite orb_true_iff, existsb_exists. setoid_rewrite <-list_elem_of_In. setoid_rewrite Hf.
  destruct vs as [|v vs]; [|naive_solver]. split; [done|]. by left.
Qed.

Lemma recipients_spec m x : recipients_contain (Some x) m = true ↔ received_by m x.
Proof. unfold recipients_contain, received_by. by rewrite !orb_true_iff, !contains_spec, (assoc or). Qed.

Lemma recipients_none m : recipients_contain None m = false.
Proof. unfold recipients_contain, contains. by destruct (m_to m), (m_cc m), (m_bcc m). Qed.

Lemma recipients_address m c :
  recipients_contain (Some (c_email c)) m || recipients_contain (c_email2 c) m = true ↔ ∃ a, address_of c a ∧ received_by m a.
Proof.
  unfold address_of. rewrite orb_true_iff, recipients_spec. destruct (c_email2 c) as [e|]; rewrite ?recipients_none, ?recipients_spec;
    naive_solver.
Qed.

Lemma eq_col_spec a b : eq_col a b = true ↔ ∃ s, a = Some s ∧ b = Some s.
Proof. unfold eq_col. destruct a, b; rewrite ?bool_decide_eq_true; naive_solver. Qed.

Lemma attached_spec f m : attached f d m = true ↔ ∃ a, attachment_of m a ∧ f (a_mime_type a) = true.
Proof.
  unfold attached, attachment_of. rewrite existsb_exists. setoid_rewrite <-list_elem_of_In.
  setoid_rewrite andb_true_iff. setoid_rewrite andb_true_iff. setoid_rewrite bool_decide_eq_true. naive_solver.
Qed.

Lemma in_some_folder_spec f m : in_some_folder f d m = true ↔ ∃ x, filed_in m x ∧ f x = true.
Proof.
  unfold in_some_folder, filed_in. rewrite existsb_exists. setoid_rewrite <-list_elem_of_In. setoid_rewrite elem_of_elements.
  setoid_rewrite andb_true_iff. setoid_rewrite bool_decide_eq_true. split.
  - intros ([k x] & Hk & [= ->] & Hx). by exists x.
  - intros (x & Hk & Hx). by exists (m_account m, m_thread m, x).
Qed.

Lemma group_shown_spec f a t (P : str → Prop) : (∀ n, f n = true ↔ P n) → group_shown f d a t = true ↔ shows_group a t P.
Proof.
  intros Hf. unfold group_shown, shows_group. rewrite existsb_exists. split.
  - intros ([[a' l] g] & Hin & Hb). apply list_elem_of_In, elem_of_map_to_list in Hin. cbn in Hb.
    rewrite !andb_true_iff, bool_decide_eq_true in Hb. destruct Hb as [[-> Hn] Hv]. destruct (group_names d !! g) as [n|] eqn:E; [|done].
    exists l, g, n. by rewrite <-Hf.
  - intros (l & g & n & Hl & Hg & Hn%Hf & Hv). exists (a, l, g). split; [by apply list_elem_of_In, elem_of_map_to_list|].
    cbn. by rewrite bool_decide_true, Hg, Hn, Hv by done.
Qed.

Lemma by_contact_spec x f (P : str → Prop) : (∀ c, f c = true ↔ ∃ a, address_of c a ∧ P a) →
  by_contact x f d = true ↔ ∃ a, known_as x a ∧ P a.
Proof.
  intros Hf. unfold by_contact, known_as. rewrite existsb_exists. setoid_rewrite <-list_elem_of_In. setoid_rewrite andb_true_iff.
  setoid_rewrite contains_spec. setoid_rewrite Hf. naive_solver.
Qed.

Lemma sent_by_spec x m : sent_by x d m = true ↔
  has_text (m_from_address m) x ∨ has_text (m_from_name m) x ∨ ∃ a, known_as x a ∧ m_from_address m = Some a.
Proof.
  unfold sent_by. rewrite !orb_true_iff, !contains_spec, (by_contact_spec _ _ (λ a, m_from_address m = Some a)); [by rewrite (assoc or)|].
  intros c. unfold address_of. rewrite orb_true_iff, !eq_col_spec. naive_solver.
Qed.

Lemma sent_to_spec x m : sent_to x d m = true ↔ received_by m x ∨ ∃ a, known_as x a ∧ received_by m a.
Proof.
  unfold sent_to. rewrite orb_true_iff, recipients_spec, (by_contact_spec _ _ (received_by m)); [done|]. intros c. apply recipients_address.
Qed.

Lemma with_contact_spec m : with_contact d m = true ↔
  ∃ c a, c ∈ contacts d ∧ address_of c a ∧ (m_from_address m = Some a ∨ received_by m a).
Proof.
  unfold with_contact. rewrite existsb_exists. setoid_rewrite <-list_elem_of_In.
  assert (∀ c, eq_col (Some (c_email c)) (m_from_address m) || recipients_contain (Some (c_email c)) m ||
    eq_col (c_email2 c) (m_from_address m) || recipients_contain (c_email2 c) m = true ↔
    ∃ a, address_of c a ∧ (m_from_address m = Some a ∨ received_by m a)) as Hc; [|setoid_rewrite Hc; naive_solver].
  intros c. pose proof (recipients_address m c) as Hr. rewrite orb_true_iff in Hr. rewrite !orb_true_iff, !eq_col_spec.
  unfold address_of in *. naive_solver.
Qed.

Lemma of_type_spec x mime : of_type x mime = true ↔ ∃ s, mime = Some s ∧ is_type x s.
Proof.
  unfold of_type, is_type, mime_value, mime_glob. case_bool_decide as Hs.
  - destruct Hs as [base ->]. assert (take (length (base ++ slit "/*") - 1) (base ++ slit "/*") ++ slit "%" = base ++ slit "/%") as ->.
    { rewrite length_app, take_app_ge by (cbn; lia). replace (_ - 1 - _) with 1 by (cbn; lia). by rewrite <-app_assoc. }
    destruct mime as [s|]; [|naive_solver]. split.
    + intros Hl. exists s. split; [done|]. left. by exists base.
    + intros (s' & [= <-] & [(b & Hb%(inj (.++ _)) & Hl)|[Hb _]]); [by subst|]. by destruct (Hb base).
  - rewrite eq_col_spec. split.
    + intros (s & -> & [= <-]). exists x. split; [done|]. right. split; [|done]. intros base ->. apply Hs. by exists base.
    + intros (s & -> & [(b & -> & _)|[_ ->]]); [|by exists x]. destruct Hs. by exists b.
Qed.

Lemma in_named_folder_spec x m : in_named_folder x d m = true ↔
  ∃ f name path, filed_in m f ∧ folder_names d !! (m_account m, f) = Some (name, path) ∧ (has_text (Some name) x ∨ has_text path x).
Proof.
  unfold in_named_folder. rewrite in_some_folder_spec. split.
  - intros (f & Hf & Hn). destruct (folder_names d !! _) as [[name path]|] eqn:E; [|done]. rewrite orb_true_iff, !contains_spec in Hn.
    by exists f, name, path.
  - intros (f & name & path & Hf & E & Hn). exists f. by rewrite E, orb_true_iff, !contains_spec.
Qed.

Lemma in_bounds_spec b m : in_bounds b m = true ↔ within b m.
Proof.
  unfold in_bounds, in_bound, within. destruct b as [[t dir]|]; cbn; [|naive_solver].
  destruct dir; rewrite Z.ltb_lt; split; [intros ? ? ? [= <- <-]; done|intros Hb; by apply (Hb t BBefore)|
    intros ? ? ? [= <- <-]; done|intros Hb; by apply (Hb t BAfter)].
Qed.

Lemma in_scope_spec q scope m : in_scope q scope d m = true ↔ of_account q scope m.
Proof.
  unfold in_scope, of_account. destruct (decide (q_account q = [])) as [->|Hne]; cbn [is_nil].
  - destruct scope; [apply bool_decide_eq_true| |done]. rewrite existsb_exists. setoid_rewrite <-list_elem_of_In.
    setoid_rewrite bool_decide_eq_true. naive_solver.
  - assert (is_nil (q_account q) = false) as -> by (by destruct (q_account q)). rewrite existsb_exists. setoid_rewrite <-list_elem_of_In.
    unfold in_account. split.
    + intros (x & Hx & Ha). destruct (account_rows d !! _) as [[email name]|]; [|done]. rewrite orb_true_iff, !contains_spec in Ha.
      exists x, email, name. naive_solver.
    + intros (x & email & name & Hx & -> & Ha). exists x. rewrite orb_true_iff, !contains_spec. naive_solver.
Qed.

(** [in:] of folders. *)
Lemma named_folder v f : system_as_str <$> system_parse_shorthand v = Some f ↔
  ∃ name f', to_ascii_lowercase v = slit name ∧ (name, f') ∈ NAMED_FOLDERS ∧ f = slit f'.
Proof.
  unfold system_parse_shorthand. generalize (to_ascii_lowercase v). intros l. split.
  - repeat case_decide; try done; intros [= <-]; subst.
    + by exists "inbox"%string, "INBOX"%string; split; [|split; [repeat constructor|]].
    + by exists "sent"%string, "SENT"%string; split; [|split; [repeat constructor|]].
    + destruct_or!; subst; [exists "drafts"%string|exists "draft"%string]; exists "DRAFT"%string; (split; [|split; [repeat constructor|]]); done.
    + by exists "trash"%string, "TRASH"%string; split; [|split; [repeat constructor|]].
    + by exists "spam"%string, "SPAM"%string; split; [|split; [repeat constructor|]].
    + by exists "archive"%string, "archive"%string; split; [|split; [repeat constructor|]].
  - intros (name & f' & -> & Hin & ->). unfold NAMED_FOLDERS in Hin.
    repeat (apply elem_of_cons in Hin as [[= -> ->]|Hin]; [reflexivity|]). by apply elem_of_nil in Hin.
Qed.

Lemma in_folders_spec q m :
  any_of (λ x, in_some_folder (λ fid, bool_decide (fid = x)) d m) (folder_values q) = true ↔
  ((∃ f, folder_asked q f) → ∃ f, folder_asked q f ∧ filed_in m f).
Proof.
  assert (∀ f, f ∈ folder_values q ↔ folder_asked q f) as Hv.
  { intros f. unfold folder_values, folder_asked. rewrite list_elem_of_omap. setoid_rewrite named_folder. naive_solver. }
  rewrite (any_of_spec _ (filed_in m)).
  - unfold one_of. setoid_rewrite Hv. split.
    + intros Hin [f Hf]. apply Hin. intros E. apply Hv in Hf. rewrite E in Hf. by apply elem_of_nil in Hf.
    + intros Hin Hne. apply Hin. destruct (folder_values q) as [|f l] eqn:E; [done|]. exists f. apply Hv. by left.
  - intros v. rewrite in_some_folder_spec. setoid_rewrite bool_decide_eq_true. naive_solver.
Qed.

Lemma message_chosen_spec q scope m : message_meets q scope d m = true ↔ message_chosen q scope m.
Proof.
  unfold message_meets. rewrite !andb_true_iff, !in_bounds_spec, in_folders_spec, in_scope_spec.
  rewrite (any_of_spec _ _ (q_from q) (λ x, sent_by_spec x m)), (any_of_spec _ _ (q_to q) (λ x, sent_to_spec x m)).
  rewrite (any_of_spec _ _ (q_folder q) (λ x, in_named_folder_spec x m)).
  rewrite (any_of_spec _ (λ x, shows_group (m_account m) (m_thread m) (λ name, sql_lower name = sql_lower x)) (q_label q))
    by (intros x; apply group_shown_spec; intros n; apply bool_decide_eq_true).
  assert (is_nil (q_free_text q) || text_in (q_free_text q) m = true ↔ (q_free_text q ≠ [] →
    ∃ col, col ∈ [m_subject m; m_from_name m; m_from_address m; m_snippet m] ∧ has_text col (q_free_text q))) as ->.
  { unfold text_in. rewrite !orb_true_iff, !contains_spec. destruct (q_free_text q) as [|c t]; [by split; [|left]|]. cbn [is_nil].
    split.
    - intros [?|[[[?|?]|?]|?]] _; [done| | | |]; eexists; (split; [|done]); set_solver.
    - intros Ht. destruct (Ht ltac:(done)) as (col & Hin & Hc). rewrite !elem_of_cons, elem_of_nil in Hin.
      destruct Hin as [->|[->|[->|[->|[]]]]]; auto. }
  assert (negb (q_has_attachment q) || attached (λ _, true) d m = true ↔ (q_has_attachment q = true → ∃ a, attachment_of m a)) as ->.
  { rewrite orb_true_iff, negb_true_iff, attached_spec. destruct (q_has_attachment q); naive_solver. }
  assert (negb (q_has_contact q) || with_contact d m = true ↔ (q_has_contact q = true →
    ∃ c a, c ∈ contacts d ∧ address_of c a ∧ (m_from_address m = Some a ∨ received_by m a))) as ->.
  { rewrite orb_true_iff, negb_true_iff, with_contact_spec. destruct (q_has_contact q); naive_solver. }
  assert (is_nil (q_attachment_types q) || attached (λ mime, existsb (λ x, of_type x mime) (q_attachment_types q)) d m = true ↔
    one_of (q_attachment_types q) (λ x, ∃ a mime, attachment_of m a ∧ a_mime_type a = Some mime ∧ is_type x mime)) as ->.
  { unfold one_of. rewrite orb_true_iff, attached_spec. setoid_rewrite existsb_exists. setoid_rewrite <-list_elem_of_In.
    setoid_rewrite of_type_spec. destruct (q_attachment_types q) as [|x l]; [by split; [|left]|]. split.
    - intros [?|(a & Ha & x' & Hx & mime & Hm & Ht)]; [done|]. intros _. by exists x'; split; [|exists a, mime].
    - intros Hx. right. destruct (Hx ltac:(done)) as (x' & Hx' & a & mime & Ha & Hm & Ht). exists a. split; [done|]. exists x'. eauto. }
  split; [intros Hm; destruct_and! Hm; by split|by intros []].
Qed.

Lemma flag_spec f b : flag f b = true ↔ (f = Some true → b = true).
Proof. unfold flag, is_set. case_bool_decide; cbn; naive_solver. Qed.

Lemma flag_shorthands_spec q k t :
  forallb (λ c : thread_clause, c d k t) (omap flag_shorthand (q_in_folder q)) = true ↔
  ∀ v, v ∈ q_in_folder q → (to_ascii_lowercase v = slit "starred" → is_starred t = true) ∧
                           (to_ascii_lowercase v = slit "snoozed" → is_snoozed t = true).
Proof.
  rewrite forallb_forall. setoid_rewrite <-list_elem_of_In. setoid_rewrite list_elem_of_omap. split.
  - intros Hc v Hv. unfold flag_shorthand in Hc. split; intros Hl.
    + apply (Hc (λ _ _ t, is_starred t)). exists v. split; [done|]. by rewrite Hl.
    + apply (Hc (λ _ _ t, is_snoozed t)). exists v. split; [done|]. by rewrite Hl.
  - intros Hv c (v & Hin & Hc). unfold flag_shorthand in Hc. destruct (Hv v Hin) as [Hs Hz]. repeat case_decide; try done; injection Hc as <-; auto.
Qed.

Lemma thread_chosen_spec q k t : thread_meets q d k t = true ↔ thread_chosen q k t.
Proof.
  unfold thread_meets. rewrite !andb_true_iff, !flag_spec, negb_true_iff, flag_shorthands_spec.
  rewrite (group_shown_spec _ _ _ (λ _, True)) by done. split.
  - intros Ht. destruct Ht as [Ht Hin]. destruct_and! Ht. split; auto; intros v Hv; destruct (Hin v Hv); auto.
  - intros []. split_and!; auto. intros v Hv. split; eauto.
Qed.

End Conditions.

(** ** Byte offsets *)

Definition char_ok (c : N) : Prop := (c < 1114112)%N.

Lemma len_utf8_pos c : 1 ≤ len_utf8 c.
Proof. unfold len_utf8. repeat case_match; lia. Qed.

Lemma byte_len_app a b : byte_len (a ++ b) = byte_len a + byte_len b.
Proof. induction a as [|c a IH]; [done|]. cbn. unfold byte_len in *. rewrite IH. lia. Qed.

Lemma byte_len_cons c s : byte_len (c :: s) = len_utf8 c + byte_len s.
Proof. done. Qed.

Lemma byte_len_length s : length s ≤ byte_len s.
Proof. induction s as [|c s IH]; [done|]. rewrite byte_len_cons. cbn. pose proof (len_utf8_pos c). lia. Qed.

Lemma slice_from_app a b : slice_from (byte_len a) (a ++ b) = Some b.
Proof.
  induction a as [|c a IH]; [by destruct b|]. rewrite byte_len_cons. pose proof (len_utf8_pos c) as Hc.
  destruct (len_utf8 c + byte_len a) as [|n] eqn:E; [lia|]. cbn [app slice_from].
  replace (len_utf8 c <=? S n) with true by (symmetry; apply Nat.leb_le; lia).
  by replace (S n - len_utf8 c) with (byte_len a) by lia.
Qed.

Lemma slice_to_app a b : slice_to (byte_len a) (a ++ b) = Some a.
Proof.
  induction a as [|c a IH]; [by destruct b|]. rewrite byte_len_cons. pose proof (len_utf8_pos c) as Hc.
  destruct (len_utf8 c + byte_len a) as [|n] eqn:E; [lia|]. cbn [app slice_to].
  replace (len_utf8 c <=? S n) with true by (symmetry; apply Nat.leb_le; lia).
  replace (S n - len_utf8 c) with (byte_len a) by lia. by rewrite IH.
Qed.

Lemma slice_from_whole a : slice_from (byte_len a) a = Some [].
Proof. rewrite <-(app_nil_r a) at 2. apply slice_from_app. Qed.

Lemma slice_to_whole a : slice_to (byte_len a) a = Some a.
Proof. rewrite <-(app_nil_r a) at 2. apply slice_to_app. Qed.

Lemma encode_char_length c : length (encode_char c) = len_utf8 c.
Proof. unfold encode_char, len_utf8. by repeat case_match. Qed.

Lemma encode_app a b : encode (a ++ b) = encode a ++ encode b.
Proof. apply bind_app. Qed.

Lemma encode_length s : length (encode s) = byte_len s.
Proof. induction s as [|c s IH]; [done|]. cbn. rewrite length_app, encode_char_length. f_equal. exact IH. Qed.

(** White space of one byte. *)
Definition ws_char (c : N) : bool := bool_decide (c ∈ [32; 9; 10; 12; 13]%N).

Lemma byte_val_of n : (n < 256)%N → byte_val (byte_of n) = n.
Proof. apply N_ascii_embedding. Qed.

Lemma high_byte_not_ws n : (128 ≤ n < 256)%N → is_ascii_whitespace (byte_of n) = false.
Proof.
  intros Hn. unfold is_ascii_whitespace. rewrite byte_val_of by lia. apply bool_decide_eq_false.
  rewrite !elem_of_cons, elem_of_nil. lia.
Qed.

Lemma encode_char_ws c k b : char_ok c → encode_char c !! k = Some b → is_ascii_whitespace b = ws_char c.
Proof.
  unfold char_ok. intros Hc Hb. destruct (N.ltb_spec c 128) as [Hl|Hl].
  - unfold encode_char in Hb. destruct (N.ltb_spec c 128); [|lia]. destruct k; [|done]. injection Hb as <-.
    unfold is_ascii_whitespace. by rewrite byte_val_of by lia.
  - assert (ws_char c = false) as -> by (apply bool_decide_eq_false; rewrite !elem_of_cons, elem_of_nil; lia).
    assert (∃ n, b = byte_of n ∧ (128 ≤ n < 256)%N) as (n & -> & Hn); [|by apply high_byte_not_ws].
    apply list_elem_of_lookup_2 in Hb. revert Hb. unfold encode_char.
    destruct (N.ltb_spec c 128); [lia|]. destruct (N.ltb_spec c 2048); [|destruct (N.ltb_spec c 65536)];
      rewrite !elem_of_cons, elem_of_nil; intros; destruct_or?; subst; try done;
      (eexists; split; [reflexivity|]); zify; Z.to_euclidean_division_equations; lia.
Qed.

Lemma may_start_inside a c r k : char_ok c → 0 < k ≤ len_utf8 c →
  may_start (a ++ c :: r) (byte_len a + k) = Some (ws_char c).
Proof.
  intros Hc Hk. unfold may_start. replace (byte_len a + k =? 0) with false by (symmetry; apply Nat.eqb_neq; lia).
  rewrite encode_app. change (encode (c :: r)) with (encode_char c ++ encode r).
  rewrite lookup_app_r by (rewrite encode_length; lia). rewrite encode_length.
  replace (byte_len a + k - 1 - byte_len a) with (k - 1) by lia.
  rewrite lookup_app_l by (rewrite encode_char_length; lia).
  destruct (lookup_lt_is_Some_2 (encode_char c) (k - 1)) as [b Hb]; [rewrite encode_char_length; lia|].
  rewrite Hb. cbn. by rewrite (encode_char_ws _ _ _ Hc Hb).
Qed.

Lemma wide_not_ws c : 1 < len_utf8 c → ws_char c = false.
Proof.
  unfold len_utf8. destruct (N.ltb_spec c 128); [lia|]. intros _. apply bool_decide_eq_false.
  rewrite !elem_of_cons, elem_of_nil. lia.
Qed.

Lemma ws_char_whitespace c : ws_char c = true → is_whitespace c = true.
Proof. intros Hc%bool_decide_eq_true. revert c Hc. apply Forall_forall. repeat constructor. Qed.

(** ** Reading operators without offsets *)

Definition lex_value (s : str) : str * str :=
  let t := trim_start s in
  match (q ← strip_prefix [quote_char] t; split_once quote_char q) with
  | Some (v, r) => (v, r)
  | None => (token t, drop (length (token t)) t)
  end.

Fixpoint lex_date_parts (n : nat) (combined r : str) : str * str :=
  match n with
  | O => (combined, r)
  | S n =>
      let next := trim_start r in
      if is_nil next then (combined, r)
      else if is_short_digit_token (token next) then
        lex_date_parts n (combined ++ slit " " ++ token next) (drop (length (token next)) next)
      else (combined, r)
  end.

Definition lex_date_value (s : str) : str * str :=
  let t := trim_start s in
  match (q ← strip_prefix [quote_char] t; split_once quote_char q) with
  | Some (v, r) => (v, r)
  | None =>
      let r := drop (length (token t)) t in
      if is_four_digit_year (token t) then lex_date_parts 2 (token t) r else (token t, r)
  end.

(** The value of the operator at the front, and what comes after it. *)
Definition read_operator (op s : str) : option (str * str) :=
  if starts_with (op ++ [colon_char]) (to_ascii_lowercase s) then
    let rest := drop (length op + 1) s in
    let '(v, r) := if is_date_op op then lex_date_value rest else lex_value rest in
    if is_nil v then None else Some (v, r)
  else None.

Fixpoint read_operators (ops : list str) (s : str) : option (str * str * str) :=
  match ops with
  | [] => None
  | op :: ops =>
      match read_operator op s with
      | Some (v, r) => Some (op, v, r)
      | None => read_operators ops s
      end
  end.

Inductive segment := Plain (c : N) | Field (op value raw : str).

#[export] Instance segment_eq_dec : EqDecision segment.
Proof. solve_decision. Defined.

Definition segment_text (g : segment) : str := match g with Plain c => [c] | Field _ _ raw => raw end.

(** What of [s] comes before its suffix [r]. *)
Definition consumed (s r : str) : str := take (length s - length r) s.

Fixpoint segments (fuel : nat) (ok : bool) (s : str) : list segment :=
  match fuel with
  | O => []
  | S fuel =>
      match s with
      | [] => []
      | c :: s' =>
          match (if ok then read_operators OPERATORS s else None) with
          | Some (op, v, r) => Field op v (consumed s r) :: segments fuel false r
          | None => Plain c :: segments fuel (ws_char c) s'
          end
      end
  end.

Definition segments_of (s : str) : list segment := segments (length s) true s.

Fixpoint spans_at (pos : nat) (gs : list segment) : list OperatorSpan :=
  match gs with
  | [] => []
  | Plain c :: gs => spans_at (pos + len_utf8 c) gs
  | Field op v raw :: gs => mkSpan pos (pos + byte_len raw) op v :: spans_at (pos + byte_len raw) gs
  end.

(** The operators applied in their order, and the text that is left. *)
Fixpoint read_segments `{Clock} (gs : list segment) (q : ParsedQuery) : option (ParsedQuery * str) :=
  match gs with
  | [] => Some (q, [])
  | Plain c :: gs => '(q, t) ← read_segments gs q; Some (q, c :: t)
  | Field op v raw :: gs =>
      '(q, r) ← apply_operator op v q;
      '(q, t) ← read_segments gs q;
      Some (q, if (r : bool) then t else raw ++ t)
  end.

(** *** A value and what it takes of the text *)

(** [s] is [raw] and then [r], and [raw] does not end in white space of one byte. *)
Definition takes (s raw r : str) : Prop := s = raw ++ r ∧ ∀ a c, raw = a ++ [c] → is_whitespace c = false.

Lemma token_split t : t = token t ++ drop (length (token t)) t.
Proof. induction t as [|c t IH]; [done|]. cbn. destruct (is_whitespace c); [done|]. cbn. by rewrite <-IH. Qed.

Lemma token_no_ws t c : c ∈ token t → is_whitespace c = false.
Proof.
  induction t as [|x t IH]; cbn; [by intros ?%elem_of_nil|]. destruct (is_whitespace x) eqn:E; [by intros ?%elem_of_nil|].
  intros [->|?]%elem_of_cons; [done|auto].
Qed.

Lemma ends_in (a b : str) x c : a ++ [x] = b ++ [c] → x = c.
Proof. intros [_ ?]%app_inj_tail. done. Qed.

Lemma takes_token w t : token t ≠ [] → takes (w ++ t) (w ++ token t) (drop (length (token t)) t).
Proof.
  intros Ht. split; [by rewrite <-app_assoc, <-token_split|]. intros a c E.
  destruct (exists_last Ht) as (b & x & Ex). rewrite Ex, app_assoc in E. apply ends_in in E as <-.
  apply (token_no_ws t). rewrite Ex. set_solver.
Qed.

Lemma byte_len_trimmed w t : byte_len (w ++ t) - byte_len t = byte_len w.
Proof. rewrite byte_len_app. lia. Qed.

Lemma trim_split s : ∃ w, s = w ++ trim_start s.
Proof. destruct (trim_start_by_suffix is_whitespace s) as (w & E & _). by exists w. Qed.

Lemma takes_quoted w v r : takes (w ++ quote_char :: v ++ quote_char :: r) (w ++ quote_char :: v ++ [quote_char]) r.
Proof.
  split; [by rewrite <-app_assoc; cbn; rewrite <-app_assoc|]. intros a c E. rewrite app_comm_cons, app_assoc in E.
  apply ends_in in E as <-. reflexivity.
Qed.

Lemma quoted_split t v r : (q ← strip_prefix [quote_char] t; split_once quote_char q) = Some (v, r) →
  t = quote_char :: v ++ quote_char :: r.
Proof.
  intros (q & Hq & Hs)%bind_Some. apply strip_prefix_Some in Hq as ->. by apply split_once_Some in Hs as [-> _].
Qed.

Lemma byte_len_quoted w v : byte_len (w ++ quote_char :: v ++ [quote_char]) = byte_len w + byte_len v + 2.
Proof. rewrite byte_len_app, byte_len_cons, byte_len_app. cbn. lia. Qed.

Lemma extract_value_spec a s : let '(v, r) := lex_value s in
  ∃ raw, (v ≠ [] → takes s raw r) ∧ extract_value (a ++ s) (byte_len a) = Some (v, byte_len a + byte_len raw).
Proof.
  destruct (trim_split s) as [w E]. unfold lex_value, extract_value. rewrite slice_from_app. cbn [mbind option_bind].
  set (t := trim_start s) in *. clearbody t. subst s. rewrite byte_len_trimmed.
  destruct (q ← strip_prefix [quote_char] t; split_once quote_char q) as [[v r]|] eqn:Eq.
  - apply quoted_split in Eq. exists (w ++ quote_char :: v ++ [quote_char]). rewrite byte_len_quoted, Eq.
    split; [intros _; apply takes_quoted|]. do 2 f_equal. lia.
  - exists (w ++ token t). rewrite byte_len_app. split; [apply takes_token|]. do 2 f_equal. lia.
Qed.

(** The text up to the cursor does not end in white space. *)
Definition ends_solid (a : str) : Prop := ∀ x c, a = x ++ [c] → is_whitespace c = false.

Lemma date_parts_spec n : ∀ combined a r, ends_solid a → let '(v, r') := lex_date_parts n combined r in
  ∃ more, r = more ++ r' ∧ ends_solid (a ++ more) ∧ (combined ≠ [] → v ≠ []) ∧
    date_parts n (a ++ r) combined (byte_len a) = Some (v, byte_len (a ++ more)).
Proof.
  induction n as [|n IH]; intros combined a r Ha; cbn [lex_date_parts date_parts].
  { exists []. by rewrite app_nil_r. }
  rewrite slice_from_app. cbn [mbind option_bind]. destruct (is_nil (trim_start r)) eqn:En.
  { exists []. by rewrite app_nil_r. }
  destruct (is_short_digit_token (token (trim_start r))) eqn:Es; [|exists []; by rewrite app_nil_r].
  destruct (trim_split r) as [w E]. set (t := trim_start r) in *. clearbody t. subst r.
  assert (token t ≠ []) as Ht by (intros H; by rewrite H in Es).
  assert (ends_solid (a ++ w ++ token t)) as Ha'.
  { intros x c Ex. rewrite app_assoc in Ex. destruct (takes_token (a ++ w) t Ht) as [_ H]. by eapply H. }
  specialize (IH (combined ++ slit " " ++ token t) (a ++ w ++ token t) (drop (length (token t)) t) Ha').
  destruct (lex_date_parts n _ _) as [v r']. destruct IH as (more & Er & Hs & Hv & Hd).
  exists ((w ++ token t) ++ more). split_and!.
  - rewrite <-!app_assoc. f_equal. rewrite <-Er. apply token_split.
  - by rewrite !app_assoc in *.
  - intros Hc. apply Hv. by destruct combined.
  - replace (a ++ w ++ t) with ((a ++ w ++ token t) ++ drop (length (token t)) t)
      by (rewrite <-!app_assoc; do 2 f_equal; symmetry; apply token_split).
    replace (byte_len a + _) with (byte_len (a ++ w ++ token t)); [rewrite Hd; by rewrite <-!app_assoc|].
    rewrite byte_len_trimmed, !byte_len_app. lia.
Qed.

Lemma extract_date_value_spec a s : let '(v, r) := lex_date_value s in
  ∃ raw, (v ≠ [] → takes s raw r) ∧ extract_date_value (a ++ s) (byte_len a) = Some (v, byte_len a + byte_len raw).
Proof.
  destruct (trim_split s) as [w E]. unfold lex_date_value, extract_date_value. rewrite slice_from_app. cbn [mbind option_bind].
  set (t := trim_start s) in *. clearbody t. subst s. rewrite byte_len_trimmed.
  destruct (q ← strip_prefix [quote_char] t; split_once quote_char q) as [[v r]|] eqn:Eq.
  - apply quoted_split in Eq. exists (w ++ quote_char :: v ++ [quote_char]). rewrite byte_len_quoted, Eq.
    split; [intros _; apply takes_quoted|]. do 2 f_equal. lia.
  - destruct (is_four_digit_year (token t)) eqn:Ey.
    + assert (token t ≠ []) as Ht by (intros H; by rewrite H in Ey).
      assert (ends_solid (token t)) as Hs by (intros x c Ex; apply (token_no_ws t); rewrite Ex; set_solver).
      pose proof (date_parts_spec 2 (token t) (token t) (drop (length (token t)) t) Hs) as H.
      destruct (lex_date_parts 2 _ _) as [v r']. destruct H as (more & Er & Hs' & Hv & Hd).
      exists (w ++ token t ++ more). split.
      * intros _. split; [rewrite (token_split t) at 1; rewrite Er; by rewrite <-!app_assoc|].
        intros x c Ex. destruct (exists_last (l := token t ++ more)) as (b & y & Eb); [by destruct (token t)|].
        rewrite Eb, app_assoc in Ex. apply ends_in in Ex as <-. by eapply Hs'.
      * unfold greedy_consume_date_parts. rewrite (token_split t) at 1. rewrite Hd. cbn. rewrite !byte_len_app. do 2 f_equal. lia.
    + exists (w ++ token t). rewrite byte_len_app. split; [apply takes_token|]. do 2 f_equal. lia.
Qed.

Lemma lower_byte_len p : byte_len (to_ascii_lowercase p) = byte_len p.
Proof.
  induction p as [|c p IH]; [done|]. change (to_ascii_lowercase (c :: p)) with (lower_char c :: to_ascii_lowercase p).
  rewrite !byte_len_cons, IH. f_equal. unfold lower_char. destruct ((65 <=? c) && (c <=? 90))%N eqn:E; [|done].
  apply andb_true_iff in E as [?%N.leb_le ?%N.leb_le]. unfold len_utf8. repeat case_match; rewrite ?N.ltb_lt, ?N.ltb_ge in *; lia.
Qed.

(** The name of an operator at the front, in either case. *)
Lemma starts_split op s : starts_with op (to_ascii_lowercase s) = true →
  ∃ p, s = p ++ drop (length op) s ∧ to_ascii_lowercase p = op ∧ byte_len p = byte_len op.
Proof.
  intros [k Hk]%starts_with_spec. unfold to_ascii_lowercase in Hk. apply fmap_app_inv in Hk as (p & r & -> & _ & ->).
  exists p. rewrite length_fmap, drop_app_length. split; [done|]. split; [done|]. symmetry. apply lower_byte_len.
Qed.

Lemma consumed_app raw r : consumed (raw ++ r) r = raw.
Proof. unfold consumed. rewrite length_app. replace (length raw + length r - length r) with (length raw) by lia. apply take_app_length. Qed.

Lemma read_value_spec op a s : let '(v, r) := if is_date_op op then lex_date_value s else lex_value s in
  ∃ raw, (v ≠ [] → takes s raw r) ∧
    (if is_date_op op then extract_date_value (a ++ s) (byte_len a) else extract_value (a ++ s) (byte_len a)) =
      Some (v, byte_len a + byte_len raw).
Proof. destruct (is_date_op op); [apply extract_date_value_spec|apply extract_value_spec]. Qed.

Lemma match_single_spec op a s :
  match_single_operator (a ++ s) (byte_len a) op =
    Some ('(v, r) ← read_operator op s; Some (mkSpan (byte_len a) (byte_len a + byte_len (consumed s r)) op v)) ∧
  ∀ v r, read_operator op s = Some (v, r) → takes s (consumed s r) r ∧ consumed s r ≠ [].
Proof.
  unfold match_single_operator, read_operator. rewrite slice_from_app. cbn [mbind option_bind].
  destruct (starts_with (op ++ [colon_char]) (to_ascii_lowercase s)) eqn:Es; [|done]. cbn [negb].
  destruct (starts_split _ _ Es) as (p & Ep & Hp & Hl). rewrite length_app in Ep. cbn [length] in Ep.
  set (rest := drop (length op + 1) s) in *. clearbody rest. subst s.
  pose proof (read_value_spec op (a ++ p) rest) as H. rewrite <-app_assoc, byte_len_app, Hl in H.
  destruct (if is_date_op op then lex_date_value rest else lex_value rest) as [v r].
  destruct H as (raw & Hr & ->). cbn. destruct (is_nil v) eqn:Ev; [done|].
  destruct Hr as [-> Hs]; [by destruct v|]. cbn. rewrite app_assoc, consumed_app. split.
  - rewrite (byte_len_app p raw), Hl. do 3 f_equal. lia.
  - intros v' r' [= <- <-]. rewrite consumed_app. split; [split; [done|]|by destruct p, op].
    intros x c Ex. destruct raw as [|y raw _] using rev_ind.
    + rewrite app_nil_r in Ex. subst p. unfold to_ascii_lowercase in Hp. rewrite fmap_app in Hp. cbn in Hp.
      apply app_inj_tail in Hp as [_ Hc]. destruct (is_whitespace c) eqn:Ec; [|done]. exfalso. revert Ec Hc.
      unfold lower_char, colon_char. destruct ((65 <=? c) && (c <=? 90))%N eqn:E; [|by intros Ec ->].
      apply andb_true_iff in E as [?%N.leb_le ?%N.leb_le]. intros _ ?. lia.
    + rewrite app_assoc in Ex. apply ends_in in Ex as <-. by eapply Hs.
Qed.

Lemma match_operators_spec ops a s :
  match_operators (a ++ s) (byte_len a) ops =
    Some ('(op, v, r) ← read_operators ops s; Some (mkSpan (byte_len a) (byte_len a + byte_len (consumed s r)) op v)) ∧
  ∀ op v r, read_operators ops s = Some (op, v, r) → takes s (consumed s r) r ∧ consumed s r ≠ [].
Proof.
  induction ops as [|op ops [IH1 IH2]]; [done|]. cbn [match_operators read_operators].
  destruct (match_single_spec op a s) as [-> H]. destruct (read_operator op s) as [[v r]|]; cbn; [|done].
  split; [done|]. intros op' v' r' [= <- <- <-]. by eapply H.
Qed.

(** *** The spans of a text *)

(** An operator may start after [a]. *)
Definition open_after (a : str) (ok : bool) : Prop := may_start a (byte_len a) = Some ok.

Lemma may_start_prefix a b : may_start (a ++ b) (byte_len a) = may_start a (byte_len a).
Proof.
  unfold may_start. destruct (byte_len a =? 0) eqn:E; [done|]. apply Nat.eqb_neq in E.
  rewrite encode_app, lookup_app_l; [done|]. rewrite encode_length. lia.
Qed.

Lemma open_after_char a c : char_ok c → open_after (a ++ [c]) (ws_char c).
Proof.
  intros Hc. unfold open_after. rewrite byte_len_app. apply may_start_inside; [done|]. cbn. pose proof (len_utf8_pos c). lia.
Qed.

Lemma collect_past c fuel a r : char_ok c → byte_len (c :: r) ≤ S fuel → ∀ k, k < len_utf8 c →
  collect_loop (fuel - k) (a ++ c :: r) (byte_len a + S k) =
  collect_loop (fuel - (len_utf8 c - 1)) (a ++ c :: r) (byte_len a + len_utf8 c).
Proof.
  intros Hc Hf k Hk. remember (len_utf8 c - 1 - k) as n eqn:Hn. revert k Hk Hn. induction n as [|n IH]; intros k Hk Hn.
  { replace k with (len_utf8 c - 1) by lia. do 2 f_equal; lia. }
  rewrite byte_len_cons in Hf. destruct (fuel - k) as [|f] eqn:Ef; [lia|]. cbn [collect_loop].
  rewrite byte_len_app, byte_len_cons.
  replace (byte_len a + S k <? _) with true by (symmetry; apply Nat.ltb_lt; lia).
  unfold try_parse_operator_at. rewrite may_start_inside by (done || lia). rewrite wide_not_ws by lia. cbn [mbind option_bind].
  replace f with (fuel - S k) by lia. replace (byte_len a + S k + 1) with (byte_len a + S (S k)) by lia. apply IH; lia.
Qed.

Lemma collect_segments n : ∀ a s ok fuel, Forall char_ok s → length s ≤ n → byte_len s ≤ fuel → open_after a ok →
  collect_loop fuel (a ++ s) (byte_len a) = Some (spans_at (byte_len a) (segments n ok s)).
Proof.
  induction n as [|n IH]; intros a s ok fuel Hs Hn Hf Hok.
  { destruct s; [|cbn in Hn; lia]. rewrite app_nil_r. destruct fuel; [done|]. cbn [collect_loop]. by rewrite Nat.ltb_irrefl. }
  destruct s as [|c s].
  { rewrite app_nil_r. destruct fuel; [done|]. cbn [collect_loop]. by rewrite Nat.ltb_irrefl. }
  inversion Hs as [|?? Hc Hs']; subst. pose proof (len_utf8_pos c) as Hpos. pose proof Hf as Hf'. rewrite byte_len_cons in Hf'.
  destruct fuel as [|fuel]; [lia|]. cbn [collect_loop segments].
  replace (byte_len a <? byte_len (a ++ c :: s)) with true
    by (symmetry; apply Nat.ltb_lt; rewrite byte_len_app, byte_len_cons; lia).
  unfold try_parse_operator_at. rewrite may_start_prefix, Hok. cbn [mbind option_bind].
  assert (collect_loop fuel (a ++ c :: s) (byte_len a + 1) =
    Some (spans_at (byte_len a) (Plain c :: segments n (ws_char c) s))) as Hplain.
  { pose proof (collect_past c fuel a s Hc Hf 0 ltac:(lia)) as Hp. rewrite Nat.sub_0_r in Hp. rewrite Hp.
    cbn [spans_at]. replace (byte_len a + len_utf8 c) with (byte_len (a ++ [c])) by (rewrite byte_len_app; cbn; lia).
    replace (a ++ c :: s) with ((a ++ [c]) ++ s) by (by rewrite <-app_assoc).
    apply IH; [done|cbn in Hn; lia|lia|by apply open_after_char]. }
  destruct ok; [|exact Hplain].
  destruct (match_operators_spec OPERATORS a (c :: s)) as [-> Ht].
  destruct (read_operators OPERATORS (c :: s)) as [[[op v] r]|] eqn:Er; cbn [mbind option_bind]; [|exact Hplain].
  destruct (Ht _ _ _ eq_refl) as [[Ecs Hend] Hne]. set (raw := consumed (c :: s) r) in *. clearbody raw.
  cbn [spans_at span_end]. rewrite Ecs in *. rewrite app_assoc.
  replace (byte_len a + byte_len raw) with (byte_len (a ++ raw)) by apply byte_len_app.
  destruct (exists_last Hne) as (b & x & Eb). assert (1 ≤ byte_len raw) as Hraw.
  { rewrite Eb, byte_len_app. pose proof (len_utf8_pos x). cbn. lia. }
  apply Forall_app in Hs as [Hsr Hs]. rewrite byte_len_app in Hf. rewrite length_app in Hn.
  assert (1 ≤ length raw) by (rewrite Eb, length_app; cbn; lia).
  rewrite (IH (a ++ raw) r false); [done|done|lia|lia|].
  assert (ws_char x = false) as Ex.
  { destruct (ws_char x) eqn:E; [|done]. apply ws_char_whitespace in E. by rewrite (Hend _ _ Eb) in E. }
  rewrite Eb, app_assoc, <-Ex. apply open_after_char. rewrite Eb in Hsr. apply Forall_app in Hsr as [_ Hx]. by inversion Hx.
Qed.

Lemma collect_operator_spans_segments input : Forall char_ok input →
  collect_operator_spans input = Some (spans_at 0 (segments_of input)).
Proof. intros Hi. by apply (collect_segments (length input) [] input true). Qed.

(** The segments are the text. *)
Lemma segments_text n : ∀ ok s, length s ≤ n → concat (segment_text <$> segments n ok s) = s.
Proof.
  induction n as [|n IH]; intros ok s Hn; [by destruct s; [|cbn in Hn; lia]|]. destruct s as [|c s]; [done|]. cbn [segments].
  assert (concat (segment_text <$> Plain c :: segments n (ws_char c) s) = c :: s) as Hplain.
  { cbn. f_equal. apply IH. cbn in Hn. lia. }
  destruct ok; [|exact Hplain]. destruct (read_operators OPERATORS (c :: s)) as [[[op v] r]|] eqn:Er; [|exact Hplain].
  destruct (match_operators_spec OPERATORS [] (c :: s)) as [_ Ht]. destruct (Ht _ _ _ Er) as [[Ecs _] Hne].
  cbn [fmap list_fmap concat segment_text]. rewrite IH; [by rewrite <-Ecs|].
  apply (f_equal length) in Ecs. rewrite length_app in Ecs. destruct (consumed (c :: s) r); [done|]. cbn in Ecs, Hn. lia.
Qed.

(** *** The free text *)

(** The text without the recognized operators. *)
Fixpoint kept (gs : list segment) (rs : list bool) : str :=
  match gs with
  | [] => []
  | Plain c :: gs => c :: kept gs rs
  | Field _ _ raw :: gs =>
      match rs with
      | r :: rs => if r then kept gs rs else raw ++ kept gs rs
      | [] => raw ++ kept gs []
      end
  end.

Lemma cut_kept gs : ∀ a rs, cut_spans (zip (spans_at (byte_len a) gs) rs) (a ++ concat (segment_text <$> gs)) = Some (a ++ kept gs rs).
Proof.
  induction gs as [|[c|op v raw] gs IH]; intros a rs; cbn [spans_at kept fmap list_fmap concat segment_text].
  - by rewrite app_nil_r.
  - specialize (IH (a ++ [c]) rs). rewrite byte_len_app in IH. rewrite <-!app_assoc in IH. cbn in IH.
    by rewrite Nat.add_0_r in IH.
  - specialize (IH (a ++ raw)). rewrite byte_len_app in IH. destruct rs as [|r rs]; cbn [zip zip_with cut_spans].
    + specialize (IH []). rewrite <-!app_assoc in IH. by destruct (spans_at _ gs).
    + rewrite <-!app_assoc in *. specialize (IH rs). rewrite <-!app_assoc in IH. rewrite IH. cbn [mbind option_bind span_start span_end].
      destruct r; [|done]. rewrite slice_to_app. cbn [mbind option_bind]. rewrite <-byte_len_app, app_assoc, slice_from_app. done.
Qed.

Lemma apply_spans_segments `{Clock} gs : ∀ pos q,
  ('(q, rs) ← apply_spans (spans_at pos gs) q; Some (q, kept gs rs)) = read_segments gs q.
Proof.
  induction gs as [|[c|op v raw] gs IH]; intros pos q; [done|..]; cbn [spans_at read_segments].
  - rewrite <-(IH (pos + len_utf8 c)). by destruct (apply_spans _ q) as [[q' rs]|].
  - cbn [apply_spans span_operator span_value]. destruct (apply_operator op v q) as [[q' r]|]; cbn; [|done].
    rewrite <-(IH (pos + byte_len raw)). destruct (apply_spans _ q') as [[q'' rs]|]; cbn; [|done]. by destruct r.
Qed.

Lemma parse_query_segments `{Clock} input : Forall char_ok input →
  parse_query input = ('(q, t) ← read_segments (segments_of input) empty_query; Some (set_free_text (λ _, collapse_whitespace t) q)).
Proof.
  intros Hi. unfold parse_query. rewrite collect_operator_spans_segments by done. cbn [mbind option_bind].
  rewrite <-(apply_spans_segments _ 0). destruct (apply_spans _ _) as [[q rs]|]; cbn [mbind option_bind]; [|done].
  pose proof (cut_kept (segments_of input) [] rs) as Hc. unfold segments_of in Hc at 2. rewrite segments_text in Hc by done.
  change (spans_at (byte_len []) (segments_of input)) with (spans_at 0 (segments_of input)) in Hc. cbn [app] in Hc. by rewrite Hc.
Qed.
