(* ===== verification/SmartProperties.v ===== *)
(** * What queries promise

    The threads a query selects, queries that read back, the completion of a query
    and when reading one panics; at the end closed runs in which the code does not
    do what it means to. *)

From stdpp Require Import sorting.
From Stdlib Require Import ZifyBool.
From S2P Require Import Prelude.
From S2P Require Import Graphemes.
From S2P Require Import Strings.
From S2P Require Import Bytes.
From S2P Require Import FolderLabel.
From S2P Require Import Civil.
From S2P Require Import CivilInstances.
From S2P Require Import Mailbox.
From S2P Require Import SmartQuery.
From S2P Require Import SmartTheory.

(** ** The threads of a query *)

Lemma selected_spec `{SqliteText} q scope more d k t :
  selected (ctx_params (build_query q scope) ++ more) (build_query q scope) d k t = true ↔
  thread_chosen d q k t ∧ ∃ m, m ∈ mail_rows d ∧ (m_account m, m_thread m) = k ∧ message_chosen d q scope m.
Proof.
  destruct (build_query_spec q scope) as (ctx & <- & _ & Hm & Ht). unfold selected.
  rewrite andb_true_iff, Ht, thread_chosen_spec, existsb_exists, (comm and). f_equiv. f_equiv. intros m.
  rewrite andb_true_iff, bool_decide_eq_true, Hm, message_chosen_spec, list_elem_of_In. done.
Qed.

Lemma elem_matching `{SqliteText} q scope more d k :
  k ∈ dom (matching (ctx_params (build_query q scope) ++ more) (build_query q scope) d) ↔ chosen d q scope k.
Proof.
  unfold matching, chosen. rewrite elem_of_dom. split.
  - intros [t [Hl (Ht & m & Hs)%selected_spec]%map_lookup_filter_Some]. exists t, m. tauto.
  - intros (t & m & Hl & Ht & Hs). exists t. apply map_lookup_filter_Some. split; [done|]. apply selected_spec. split; [done|]. by exists m.
Qed.

Lemma elem_matching_now `{SqliteText} q scope d k :
  k ∈ dom (matching (ctx_params (build_query q scope)) (build_query q scope) d) ↔ chosen d q scope k.
Proof. rewrite <-(app_nil_r (ctx_params _)). apply elem_matching. Qed.

Lemma window_params ctx n m : numbered ctx →
  int_param (ctx_params ctx ++ [Integer n; Integer m]) (next_idx ctx) = Some n ∧
  int_param (ctx_params ctx ++ [Integer n; Integer m]) (next_idx ctx + 1) = Some m.
Proof.
  intros Hn. unfold int_param. split; [by rewrite (param_value ctx (Integer n) [Integer m] Hn)|].
  rewrite Hn, lookup_app_r by lia. by replace (_ + 1 - 1 - _) with 1 by lia.
Qed.

#[export] Instance newest_first_total d : Total (newest_first d).
Proof.
  intros [k t] [k' t']. unfold newest_first. cbn.
  destruct (is_pinned t), (is_pinned t'), (last_message_at d k), (last_message_at d k'); intuition (try done); lia.
Qed.

(** C20. The statement built for a query selects the threads that have a message
    which meets each condition of the query on messages and that meet those on
    threads ([chosen]): one of the values of an operator for each operator that has
    any, and for [in:] one of the folders it names and besides each of the flags it
    names; a date is compared with the number that the message has, whatever its
    unit.  So every numbered parameter stands for the value it was pushed for, also
    behind those pushed later.  The keys, the count and the rows agree: the rows are
    those threads, each once, pinned and newest ones first, cut to the window asked
    for. *)
Theorem queries_select_what_they_say `{SqliteText, ThreadScan} d q scope limit offset :
  (∀ k, k ∈ query_thread_keys_read d q scope ↔ chosen d q scope k) ∧
  count_matching_read d q scope = size (query_thread_keys_read d q scope) ∧
  ∃ rows, fst <$> rows ≡ₚ elements (query_thread_keys_read d q scope) ∧ Sorted (newest_first d) rows ∧
    query_threads_read d q scope limit offset =
      sql_limit (default 50%Z limit) (drop (Z.to_nat (default 0%Z offset)) (fst <$> rows)).
Proof.
  split; [apply elem_matching_now|]. split; [unfold count_matching_read, query_thread_keys_read; by rewrite size_dom|].
  unfold query_threads_read. destruct (build_query_spec q scope) as (ctx & -> & Hn & _).
  cbn [push_param next_idx ctx_params msg_clauses thread_flag_clauses]. rewrite <-app_assoc. cbn [app].
  set (ps := ctx_params _ ++ _). exists (merge_sort (newest_first d) (scan_threads (matching ps (build_query q scope) d))).
  split; [|split; [apply (Sorted_merge_sort _)|]].
  - rewrite merge_sort_Permutation, scan_threads_rows. apply NoDup_Permutation.
    + apply NoDup_fst_map_to_list.
    + apply NoDup_elements.
    + intros k. rewrite elem_of_elements. etrans; [|symmetry; apply elem_matching_now].
      rewrite <-(elem_matching q scope [Integer (default 50%Z limit); Integer (default 0%Z offset)]).
      rewrite elem_of_dom, list_elem_of_fmap. split.
      * intros ([k' t] & -> & Ht%elem_of_map_to_list). by exists t.
      * intros [t Ht]. exists (k, t). by rewrite elem_of_map_to_list.
  - destruct (window_params (build_query q scope) (default 50%Z limit) (default 0%Z offset) Hn) as [El Eo].
    fold ps in El, Eo. unfold window. by rewrite El, Eo.
Qed.

(** ** Queries that read back *)




Definition no_space (s : str) : Prop := Forall (λ c, is_whitespace c = false) s.


















(** *** The segments of a rendered text *)
















(** *** The free text *)


Lemma split_whitespace_word cur w : no_space w → split_whitespace_go cur w = if is_nil (cur ++ w) then [] else [cur ++ w].
Proof.
  intros Hw. revert cur. induction Hw as [|c w Hc _ IH]; intros cur; cbn.
  - by rewrite app_nil_r.
  - rewrite Hc, IH. by rewrite <-app_assoc.
Qed.







(** *** The query of some items, field by field *)



(** A flag is named, in letters of either case. *)
Definition named (flag : string) (vs : list str) : bool := existsb (λ v, bool_decide (to_ascii_lowercase v = slit flag)) vs.








Section QueryOf.
  Context `{Clock}.













Lemma named_one f v : named f [v] = bool_decide (to_ascii_lowercase v = slit f).
Proof. apply orb_false_r. Qed.




Lemma flag_values (fl : string) v (x : option bool) :
  (if named fl [v] then set_true else id) x = if decide (to_ascii_lowercase v = slit fl) then Some true else x.
Proof. rewrite named_one. case_decide; [by rewrite bool_decide_true|by rewrite bool_decide_false]. Qed.






End QueryOf.


(** Reading a query loses nothing of it: its segments, plain characters and
    operators with their values, are the text; the query is the operators applied in
    their order, and its free text what is left of it when the recognized ones are
    cut out, by words. *)
Theorem query_is_its_segments `{Clock} input : Forall char_ok input →
  parse_query input = ('(q, t) ← read_segments (segments_of input) empty_query; Some (set_free_text (λ _, collapse_whitespace t) q)) ∧
  collect_operator_spans input = Some (spans_at 0 (segments_of input)) ∧
  concat (segment_text <$> segments_of input) = input.
Proof. intros Hi. split; [by apply parse_query_segments|]. split; [by apply collect_operator_spans_segments|by apply segments_text]. Qed.

(** ** When reading panics *)

(** An offset of more days than a span has. *)
Definition far_date (v : str) : Prop := ∃ n, parse_signed i64_max_N (trim v) = Some n ∧ (n < - SPAN_MAX_DAYS)%Z.

Section Panics.
  Context `{J : Jiff, L : !JiffLaws J, C : !Clock} (Htoday : valid_date today).

Lemma timestamp_total d : (∀ x, d = Some x → valid_date x) → is_Some (timestamp_of d).
Proof.
  intros Hd. destruct d as [x|]; [|by eexists]. unfold timestamp_of, naive_date_to_timestamp.
  assert (date_at x 0 0 0 = Some (mkDateTime x (mkTime 0 0 0))) as ->; [|by eexists].
  apply date_at_spec. split; [done|]. unfold valid_time. cbn. lia.
Qed.

Lemma civil_date_is_valid y m d x : civil_date y m d = Some x → valid_date x.
Proof. unfold civil_date. case_bool_decide; [|done]. by intros [-> ?]%date_new_spec. Qed.

Lemma date_of_parts_valid ps x : date_of_parts ps = Some x → valid_date x.
Proof.
  unfold date_of_parts. destruct ps as [|y [|m [|d [|]]]]; try done; intros E;
    repeat (apply bind_Some in E as (? & _ & E)); by apply civil_date_is_valid in E.
Qed.

Lemma compact_date_total s : is_Some (parse_compact_date s).
Proof.
  unfold parse_compact_date. destruct (negb _); [by eexists|]. apply timestamp_total. intros x.
  repeat case_match; intros E; try done; repeat (apply bind_Some in E as (? & _ & E)); by apply civil_date_is_valid in E.
Qed.

Lemma relative_offset_none s : parse_relative_offset s = None ↔
  ∃ n, parse_signed i64_max_N s = Some n ∧ (n < - SPAN_MAX_DAYS)%Z.
Proof.
  unfold parse_relative_offset. destruct (parse_signed i64_max_N s) as [n|]; [|split; [done|naive_solver]].
  destruct (Z.ltb_spec 0 n).
  { split; [done|]. intros (? & [= <-] & ?). unfold SPAN_MAX_DAYS in *. lia. }
  destruct (decide (n < - SPAN_MAX_DAYS)%Z) as [Hf|Hf].
  - assert (span_days n = None) as ->; [|split; [intros _; by exists n|done]].
    destruct (span_days n) as [k|] eqn:E; [|done]. apply span_days_spec in E as [_ ?]. lia.
  - assert (span_days n = Some n) as -> by (apply span_days_spec; unfold SPAN_MAX_DAYS in *; split; [done|lia]).
    cbn [mbind option_bind]. destruct (timestamp_total (date_add_days today n)) as [t ->].
    { intros x Hx. by apply date_add_days_spec in Hx as [? _]. }
    split; [done|]. intros (? & [= <-] & ?). lia.
Qed.

Lemma parse_date_none v : parse_date_to_timestamp v = None ↔ far_date v.
Proof.
  unfold parse_date_to_timestamp, far_date. generalize (trim v). intros t. destruct (is_nil t) eqn:Et.
  { destruct t; [|done]. split; [done|]. by intros (n & ? & _). }
  destruct (bool_decide (t = slit "0") || starts_with [45%N] t) eqn:Er; [apply relative_offset_none|].
  assert (∀ n, parse_signed i64_max_N t = Some n → (0 ≤ n)%Z) as Hp.
  { apply orb_false_iff in Er as [_ Er]. intros n. unfold parse_signed. destruct t as [|c r]; [done|].
    destruct (N.eqb_spec c 45) as [->|_]; [|intros (? & _ & ->)%fmap_Some; lia]. exfalso.
    assert (starts_with [45%N] (45%N :: r) = true); [|congruence]. apply starts_with_spec. by exists r. }
  assert (is_Some (if bool_decide (47%N ∈ t) || bool_decide (45%N ∈ t) then parse_separated_date t
    else if bool_decide (32%N ∈ t) then parse_space_separated_date t else parse_compact_date t)) as [r ->].
  { destruct (bool_decide (47%N ∈ t) || bool_decide (45%N ∈ t)); [apply timestamp_total, date_of_parts_valid|].
    destruct (bool_decide (32%N ∈ t)); [apply timestamp_total, date_of_parts_valid|apply compact_date_total]. }
  split; [done|]. intros (n & Hn%Hp & ?). unfold SPAN_MAX_DAYS in *. lia.
Qed.

Lemma apply_operator_none op v q : apply_operator op v q = None ↔ is_date_op op = true ∧ far_date v.
Proof.
  rewrite <-parse_date_none. destruct (is_date_op op) eqn:Ed.
  - apply orb_true_iff in Ed as [->%bool_decide_eq_true| ->%bool_decide_eq_true].
    + change (apply_operator (slit "before") v q) with
        (t ← parse_date_to_timestamp v; Some (set_before (λ _, bound_before <$> t) q, true)).
      destruct (parse_date_to_timestamp v); [|done]. split; [done|]. by intros [_ ?].
    + change (apply_operator (slit "after") v q) with
        (t ← parse_date_to_timestamp v; Some (set_after (λ _, bound_after <$> t) q, true)).
      destruct (parse_date_to_timestamp v); [|done]. split; [done|]. by intros [_ ?].
  - split; [|by intros [? _]]. apply orb_false_iff in Ed as [?%bool_decide_eq_false ?%bool_decide_eq_false].
    unfold apply_operator. by repeat case_decide.
Qed.

Lemma read_segments_none gs q : read_segments gs q = None ↔
  ∃ op v raw, Field op v raw ∈ gs ∧ is_date_op op = true ∧ far_date v.
Proof.
  revert q. induction gs as [|[c|op v raw] gs IH]; intros q; cbn [read_segments].
  - split; [done|]. by intros (? & ? & ? & ?%elem_of_nil & _).
  - assert (read_segments gs q = None ↔ ('(q', t) ← read_segments gs q; Some (q', c :: t)) = None) as <-.
    { by destruct (read_segments gs q) as [[]|]. }
    rewrite IH. split; intros (op & v & raw & Hin & ?); exists op, v, raw; (split; [|done]); [by right|].
    apply elem_of_cons in Hin as [?|?]; done.
  - destruct (apply_operator op v q) as [[q' r]|] eqn:Ea; cbn [mbind option_bind].
    + specialize (IH q'). destruct (read_segments gs q') as [[q'' t]|]; cbn [mbind option_bind].
      * split; [done|]. intros (op' & v' & raw' & Hin & Hd). apply elem_of_cons in Hin as [[= -> -> _]|Hin].
        -- by apply (apply_operator_none _ _ q) in Hd as Hd; rewrite Ea in Hd.
        -- destruct IH as [_ IH]. discriminate IH. by exists op', v', raw'.
      * split; [|done]. intros _. destruct IH as [IH _]. destruct (IH eq_refl) as (op' & v' & raw' & Hin & Hd).
        exists op', v', raw'. split; [by right|done].
    + split; [|done]. intros _. exists op, v, raw. split; [by left|]. by apply (apply_operator_none _ _ q).
Qed.

(** Reading a query panics exactly when it has a date operator with an offset of
    more days than jiff has; any other text is read. *)
Theorem parse_panics_on_far_dates input : Forall char_ok input →
  parse_query input = None ↔
  ∃ op v raw, Field op v raw ∈ segments_of input ∧ is_date_op op = true ∧ far_date v.
Proof.
  intros Hi. rewrite parse_query_segments, <-(read_segments_none _ empty_query) by done.
  by destruct (read_segments _ _) as [[]|].
Qed.

End Panics.

(** ** Completing a query *)















(** ** Closed runs *)

(** [LIKE] of SQLite, for ASCII letters in either case, and [LOWER]. *)
Fixpoint like (p : str) : str → bool :=
  match p with
  | [] => λ s, is_nil s
  | c :: p =>
      if (c =? 37)%N then
        fix any (s : str) : bool := like p s || match s with [] => false | _ :: s => any s end
      else λ s,
        match s with
        | [] => false
        | x :: s => ((c =? 95)%N || (lower_char x =? lower_char c)%N) && like p s
        end
  end.

#[export] Instance sqlite : SqliteText := {| sql_like s p := like p s; sql_lower := to_ascii_lowercase |}.

#[export] Instance key_order : ThreadScan := {| scan_threads := map_to_list; scan_threads_rows t := reflexivity _ |}.

#[export] Instance calendar : Jiff := gregorian_with [] UTC.
#[export] Instance midsummer : Clock := {| today := mkDate 2026 7 1 |}.

(** The first of July 2026 in milliseconds. *)
Definition july_ms : Z := 1782864000000.

Definition row_of (thread from : string) : MailRow :=
  mkMailRow (slit "one") (slit thread) (slit thread) (Some (slit from)) None None None None (Some (slit "Plans")) None july_ms.

Definition thread_of (read starred : bool) : Thread := mkThread read starred false false false None None None 1.

(** A thread in the inbox from Alice and a starred one from Bob. *)
Definition two_threads : search_db :=
  mkSearchDb
    (mkMailbox {[slit "one" := slit "gmail"]}
       {[(slit "one", slit "t1") := thread_of false false; (slit "one", slit "t2") := thread_of true true]}
       ∅ ∅ ∅ {[(slit "one", slit "t1", slit "INBOX")]} ∅ ∅ ∅ ∅ ∅ ∅ ∅ ∅ ∅)
    [row_of "t1" "alice@example.org"; row_of "t2" "bob@example.org"]
    [mkContact (slit "bob@example.org") None (Some (slit "Robert"))] [] ∅ ∅ ∅ (λ _, Some july_ms).

(** The threads of a query as it is typed. *)
Definition found (d : search_db) (query : string) : option (list str) :=
  q ← parse_query (slit query); Some (snd <$> query_threads_read d q ScopeAll None None).

Example found_by_contact : found two_threads "from:robert" = Some [slit "t2"].
Proof. vm_compute. reflexivity. Qed.

Example found_unread : found two_threads "plans is:unread in:inbox" = Some [slit "t1"].
Proof. vm_compute. reflexivity. Qed.




Definition unread_from_alice : ParsedQuery := set_is_unread set_true (set_from (push (slit "alice")) empty_query).

Lemma queries_select_what_they_say_witness : (slit "one", slit "t1") ∈ query_thread_keys_read two_threads unread_from_alice ScopeAll.
Proof.
  apply (queries_select_what_they_say two_threads unread_from_alice ScopeAll None None).
  exists (thread_of false false), (row_of "t1" "alice@example.org"). split; [reflexivity|].
  split; [apply thread_chosen_spec; vm_compute; reflexivity|]. split; [by left|].
  split; [reflexivity|apply message_chosen_spec; vm_compute; reflexivity].
Defined.

Lemma query_is_its_segments_witness :
  concat (segment_text <$> segments_of (slit "x from:alice is:odd")) = slit "x from:alice is:odd" ∧
  q_from <$> parse_query (slit "x from:alice is:odd") = Some [slit "alice"].
Proof.
  destruct (query_is_its_segments (slit "x from:alice is:odd")) as (E & _ & Ec);
    [apply (bool_decide_unpack _); vm_compute; exact I|].
  split; [exact Ec|]. rewrite E. vm_compute. reflexivity.
Defined.


(** An offset of ten million days. *)
Lemma parse_panics_on_far_dates_witness : parse_query (slit "plans before:-9999999") = None.
Proof.
  apply parse_panics_on_far_dates.
  - apply (bool_decide_unpack _). vm_compute. exact I.
  - apply (bool_decide_unpack _). vm_compute. exact I.
  - exists (slit "before"), (slit "-9999999"), (slit "before:-9999999"). split; [|split; [reflexivity|]].
    + apply (bool_decide_unpack _). vm_compute. exact I.
    + exists (-9999999)%Z. split; [vm_compute; reflexivity|reflexivity].
Defined.

(** Dates of messages are milliseconds, those of queries seconds: before any day
    there is no message, and after any day there are all. *)
Theorem dates_compare_seconds_with_milliseconds :
  found two_threads "before:2027-01-01" = Some [] ∧
  found two_threads "after:2027-01-01" = Some [slit "t2"; slit "t1"].
Proof. split; vm_compute; reflexivity. Qed.

(** An ideographic space before an operator: reading where the cursor is panics, at
    any key. *)
Theorem wide_space_panics : typeahead_for (12288%N :: slit "from:") = None.
Proof. vm_compute. reflexivity. Qed.

(** The value of an operator may stand behind spaces, so that another operator is
    read as the value: suggestions are for the second one, the query has the first. *)
Theorem completed_operator_is_a_value :
  typeahead_for (slit "from: to:al") = Some (Some (slit "to", slit "al")) ∧
  ∃ query', complete (slit "from: to:al") (slit "alice") = Some (Some query') ∧
    (λ q, (q_from q, q_to q)) <$> parse_query query' = Some ([slit "to:alice"], []).
Proof. split; [vm_compute; reflexivity|]. exists (slit "from: to:alice "). split; vm_compute; reflexivity. Qed.

(** A date that does not read and a folder that is not known are taken for
    recognized: they leave the free text and select nothing out. *)
Theorem unknown_values_select_everything :
  found two_threads "before:yesterday" = Some [slit "t2"; slit "t1"] ∧
  found two_threads "in:primary" = Some [slit "t2"; slit "t1"] ∧
  q_free_text <$> parse_query (slit "before:yesterday in:primary") = Some [].
Proof. repeat split; vm_compute; reflexivity. Qed.

(** Repeated [in:] is any of the folders, but not with the starred ones. *)
Theorem repeated_in_is_not_or :
  found two_threads "in:inbox" = Some [slit "t1"] ∧ found two_threads "in:starred" = Some [slit "t2"] ∧
  found two_threads "in:inbox in:starred" = Some [].
Proof. repeat split; vm_compute; reflexivity. Qed.
