(* ===== verification/Search.v ===== *)
(** * Mail search

    src/crates/core/src/search_pipeline.rs (routing, the three ways to search,
    grouping, hydration), src/crates/search/src/lib.rs (documents, queries of the
    index, what matched), the statements of
    db/src/db/queries_extra/search_fallback.rs and
    db-read/src/db/queries_extra/extract_reindex.rs, and what the application keeps
    (app/src/handlers/search.rs).

    A query of the index is its tree ([Query]); tantivy, which runs it, is
    [Tantivy]: whether text parses, which documents parsed text matches, and the
    hits of a query, with what tantivy documents of them.  A document of the index
    is the list of its values by field.  A score is a non-negative [f32], here its
    bits, which are ordered as it is.  Each statement on the database may fail
    ([failing]).  Reading the body store is an argument. *)

From stdpp Require Import sorting.
From S2P Require Import Prelude.
From S2P Require Import Graphemes.
From S2P Require Import Input.
From S2P Require Import Strings.
From S2P Require Import Bytes.
From S2P Require Import FolderLabel.
From S2P Require Import Civil.
From S2P Require Import Mailbox.
From S2P Require Import SmartQuery.

(** ** Results with an error *)

Definition rbind {E A B} (f : A → E + B) (r : E + A) : E + B :=
  match r with inl e => inl e | inr a => f a end.

Declare Scope search_scope.
Notation "x <- r ; k" := (rbind (λ x, k) r) (at level 60, r at next level, right associativity) : search_scope.
Open Scope search_scope.

(** [sort_by]: stable; [before y x] when [y] must go before [x]. *)
Fixpoint insert_stable {A} (before : A → A → bool) (x : A) (l : list A) : list A :=
  match l with
  | [] => [x]
  | y :: l' => if before y x then y :: insert_stable before x l' else x :: l
  end.

Definition sort_stable {A} (before : A → A → bool) : list A → list A := foldr (insert_stable before) [].

(** ** Documents *)

Record AttachmentDocFragment := mkFragment {
  df_attachment_id : str; df_filename : str; df_mime : str; df_extracted_text : str
}.

Record SearchDocument := mkDoc {
  sd_message_id : str; sd_account_id : str; sd_thread_id : str;
  sd_subject : option str; sd_from_name : option str; sd_from_address : option str;
  sd_to_addresses : option str; sd_body_text : option str; sd_snippet : option str;
  sd_date : Z;
  sd_is_read : bool; sd_is_starred : bool; sd_has_attachment : bool;
  sd_attachments : list AttachmentDocFragment
}.

Inductive Field :=
  | FSubject | FFromName | FFromAddress | FToAddresses | FBodyText | FSnippet
  | FMessageId | FThreadId | FAccountId | FDate | FIsRead | FIsStarred | FHasAttachment
  | FAttachmentText | FAttachmentFilename | FAttachmentMime | FAttachmentId.

#[export] Instance Field_eq_dec : EqDecision Field.
Proof. solve_decision. Defined.

Inductive Value := VText (s : str) | VDate (secs : Z) | VU64 (n : N).

#[export] Instance Value_eq_dec : EqDecision Value.
Proof. solve_decision. Defined.

Abbreviation Document := (list (Field * Value)).

Definition ATTACHMENT_BOUNDARY_TOKEN : str := slit "rtskbnd".
Definition ATTACHMENT_BOUNDARY_REPEATS : nat := 32.

Definition build_boundary_string : str := join_space (replicate ATTACHMENT_BOUNDARY_REPEATS ATTACHMENT_BOUNDARY_TOKEN).

(** [u64::from(bool)] *)
Definition u64_of (b : bool) : N := if b then 1 else 0.

Definition attachment_values (i : nat) (a : AttachmentDocFragment) : Document :=
  [(FAttachmentText, VText (if i =? 0 then df_extracted_text a
                            else build_boundary_string ++ slit " " ++ df_extracted_text a));
   (FAttachmentFilename, VText (df_filename a));
   (FAttachmentMime, VText (df_mime a));
   (FAttachmentId, VText (df_attachment_id a))].

Definition build_search_doc (d : SearchDocument) : Document :=
  [(FMessageId, VText (sd_message_id d)); (FAccountId, VText (sd_account_id d)); (FThreadId, VText (sd_thread_id d));
   (FSubject, VText (default [] (sd_subject d))); (FFromName, VText (default [] (sd_from_name d)));
   (FFromAddress, VText (default [] (sd_from_address d))); (FToAddresses, VText (default [] (sd_to_addresses d)));
   (FBodyText, VText (default [] (sd_body_text d))); (FSnippet, VText (default [] (sd_snippet d)));
   (FDate, VDate (sd_date d)); (FIsRead, VU64 (u64_of (sd_is_read d))); (FIsStarred, VU64 (u64_of (sd_is_starred d)));
   (FHasAttachment, VU64 (u64_of (sd_has_attachment d)))] ++ concat (imap attachment_values (sd_attachments d)).

(** ** Queries of the index *)

Inductive Occur := Must | Should.

Inductive Query :=
  | TermText (f : Field) (s : str)
  | TermU64 (f : Field) (n : N)
  | Parsed (fields : list Field) (text : str)  (** what [QueryParser] makes of a text *)
  | RangeDate (lower upper : option Z)  (** bounds are excluded *)
  | Boolean (clauses : list (Occur * Query))
  | Boost (q : Query) (boost : N).

(** The documents that a query matches; a factor on scores does not matter. *)
Fixpoint query_matches (text_match : list Field → str → Document → bool) (q : Query) (doc : Document) : bool :=
  match q with
  | TermText f s => bool_decide ((f, VText s) ∈ doc)
  | TermU64 f n => bool_decide ((f, VU64 n) ∈ doc)
  | Parsed fields text => text_match fields text doc
  | RangeDate lower upper =>
      existsb (λ e, match e with
                    | (FDate, VDate t) => from_option (λ l, l <? t)%Z true lower && from_option (λ u, t <? u)%Z true upper
                    | _ => false
                    end) doc
  | Boolean clauses =>
      forallb (λ c, match c with (Must, q) => query_matches text_match q doc | (Should, _) => true end) clauses &&
      existsb (λ c, match c with (Must, _) => true | (Should, q) => query_matches text_match q doc end) clauses
  | Boost q _ => query_matches text_match q doc
  end.

(** Tantivy on the documents [ix] that its reader sees.  [top_docs] is
    [searcher.search(q, TopDocs::with_limit(n).order_by_score())]. *)
Class Tantivy := {
  parse_error : list Field → str → option str;
  text_match : list Field → str → Document → bool;
  top_docs : list Document → Query → nat → str + list (N * Document);
  top_docs_hits ix q n l : top_docs ix q n = inr l →
    length l ≤ n ∧ l.*2 ⊆+ filter (λ d, query_matches text_match q d = true) ix;
  top_docs_order ix q n l : top_docs ix q n = inr l → StronglySorted (λ a b, (b.1 ≤ a.1)%N) l;
  top_docs_all ix q n l : top_docs ix q n = inr l → length l < n →
    l.*2 ≡ₚ filter (λ d, query_matches text_match q d = true) ix;
  (** [SnippetGenerator::create] and [snippet]: how many ranges of a text a query
      highlights, and the best fragment. *)
  snippet_gen : list Document → str → Field → option (str → nat * str)
}.

Inductive MatchKind :=
  | MBody | MSubject | MFrom
  | MAttachment (attachment_id filename mime snippet : str).

Record SearchResult := mkResult {
  r_message_id : str; r_account_id : str; r_thread_id : str;
  r_subject : option str; r_from_name : option str; r_from_address : option str; r_snippet : option str;
  r_date : Z;
  r_rank : N;
  r_match_kind : MatchKind;
  r_also_matched : list MatchKind
}.

Record SearchParams := mkParams {
  p_account_ids : option (list str);
  p_free_text : option str;
  p_from : list str;
  p_to : list str;
  p_subject : option str;
  p_has_attachment : option bool;
  p_is_unread : option bool;
  p_is_starred : option bool;
  p_before : option DateBound;
  p_after : option DateBound;
  p_thread_filter : option (list key2);
  p_limit : option nat
}.

(** A value of a stored field. *)
Definition get_text (doc : Document) (f : Field) : option str :=
  '(_, v) ← snd <$> list_find (λ e : Field * Value, e.1 = f) doc;
  match v with VText s => Some s | _ => None end.

Definition get_date_secs (doc : Document) (f : Field) : Z :=
  match snd <$> list_find (λ e : Field * Value, e.1 = f) doc with Some (_, VDate t) => t | _ => 0 end.

Definition collect_result (hit : N * Document) : SearchResult :=
  let '(score, doc) := hit in
  mkResult (default [] (get_text doc FMessageId)) (default [] (get_text doc FAccountId)) (default [] (get_text doc FThreadId))
    (get_text doc FSubject) (get_text doc FFromName) (get_text doc FFromAddress) (get_text doc FSnippet)
    (get_date_secs doc FDate) score MBody [].

(** [collect_results] *)
Definition collect_results : list (N * Document) → list SearchResult := map collect_result.

Definition build_account_filter (account_ids : option (list str)) : option Query :=
  match account_ids with
  | None | Some [] => None
  | Some [id] => Some (TermText FAccountId id)
  | Some ids => Some (Boolean ((λ id, (Should, TermText FAccountId id)) <$> ids))
  end.

(** The fields of free text. *)
Definition SEARCHED : list Field :=
  [FSubject; FFromName; FToAddresses; FBodyText; FSnippet; FAttachmentText; FAttachmentFilename].

Section SearchIndex.
  Context `{Tantivy}.

(** [QueryParser::for_index(..).parse_query(text)] *)
Definition parsed (what : string) (fields : list Field) (text : str) : str + Query :=
  match parse_error fields text with Some e => inl (slit what ++ e) | None => inr (Parsed fields text) end.

Definition free_text_clause (text : option str) : str + list (Occur * Query) :=
  match text with
  | None | Some [] => inr []
  | Some text => q <- parsed "parse free text: " SEARCHED text; inr [(Must, q)]
  end.

Fixpoint from_clauses (vs : list str) : str + list (Occur * Query) :=
  match vs with
  | [] => inr []
  | v :: vs =>
      if is_nil v then from_clauses vs
      else
        q <- parsed "parse from: " [FFromName] v;
        cs <- from_clauses vs;
        inr ((Should, TermText FFromAddress v) :: (Should, q) :: cs)
  end.

Fixpoint to_clauses (vs : list str) : str + list (Occur * Query) :=
  match vs with
  | [] => inr []
  | v :: vs =>
      if is_nil v then to_clauses vs
      else
        q <- parsed "parse to: " [FToAddresses] v;
        cs <- to_clauses vs;
        inr ((Should, q) :: cs)
  end.

(** A clause of the alternatives, if there are any. *)
Definition alternatives (cs : list (Occur * Query)) : list (Occur * Query) :=
  if is_nil cs then [] else [(Must, Boolean cs)].

Definition subject_clause (subject : option str) : str + list (Occur * Query) :=
  match subject with
  | None | Some [] => inr []
  | Some s => q <- parsed "parse subject: " [FSubject] s; inr [(Must, q)]
  end.

Definition flag_clause (f : Field) (b : option bool) : list (Occur * Query) :=
  match b with Some b => [(Must, TermU64 f (u64_of b))] | None => [] end.

Definition date_clause (after before : option DateBound) : list (Occur * Query) :=
  match after, before with
  | None, None => []
  | _, _ => [(Must, RangeDate (bound_timestamp <$> after) (bound_timestamp <$> before))]
  end.

Definition thread_pair (k : key2) : Occur * Query :=
  (Should, Boolean [(Must, TermText FAccountId k.1); (Must, TermText FThreadId k.2)]).

(** The clauses but those of [thread_filter]. *)
Definition filter_clauses (p : SearchParams) : str + list (Occur * Query) :=
  let accounts := match build_account_filter (p_account_ids p) with Some q => [(Must, q)] | None => [] end in
  text <- free_text_clause (p_free_text p);
  from <- from_clauses (p_from p);
  to <- to_clauses (p_to p);
  subject <- subject_clause (p_subject p);
  inr (accounts ++ text ++ alternatives from ++ alternatives to ++ subject ++ flag_clause FHasAttachment (p_has_attachment p) ++
       flag_clause FIsRead (negb <$> p_is_unread p) ++ flag_clause FIsStarred (p_is_starred p) ++
       date_clause (p_after p) (p_before p)).

(** [search_with_filters] *)
Definition search_with_filters (ix : list Document) (p : SearchParams) : str + list SearchResult :=
  clauses <- filter_clauses p;
  match p_thread_filter p with
  | Some [] => inr []
  | filter =>
      let clauses := clauses ++ match filter with
                                | Some threads => [(Must, Boost (Boolean (thread_pair <$> threads)) 0)]
                                | None => []
                                end in
      if is_nil clauses then inr []
      else
        match top_docs ix (Boolean clauses) (default 50 (p_limit p)) with
        | inl e => inl (slit "search: " ++ e)
        | inr l => inr (collect_results l)
        end
  end.

End SearchIndex.

(** ** What matched (crate search) *)

Record AttachmentAttributionInput := mkAttachmentInput {
  ai_attachment_id : str; ai_filename : str; ai_mime : str; ai_extracted_text : str
}.

Record AttributionInputs := mkInputs {
  in_subject : str; in_from_name : str; in_body_text : str; in_attachments : list AttachmentAttributionInput
}.

(** [str::trim_matches] *)
Definition trim_matches (f : N → bool) (s : str) : str := trim_end_by f (trim_start_by f s).

(** Nothing before or after, or a character that is not alphanumeric. *)
Definition word_edge `{CharTables} (c : option N) : bool := negb (from_option is_alphanumeric false c).

(** The loop of [count_word_occurrences]: [prev] is the text before [rest], [n] the
    fuel, one for each byte of it. *)
Fixpoint count_loop `{CharTables} (n : nat) (prev rest needle : str) : nat :=
  match n with
  | O => 0
  | S n =>
      match split_once_str needle rest with
      | Some (before, after) =>
          (if word_edge (last (prev ++ before)) && word_edge (head after) then 1 else 0) +
          count_loop n (prev ++ before ++ needle) after needle
      | None => 0
      end
  end.

Definition count_word_occurrences `{CharTables} (haystack needle : str) : nat :=
  if is_nil needle || is_nil haystack then 0 else count_loop (length haystack) [] haystack needle.

(** Lower-cased, sorted and without repetitions. *)
Definition query_tokens `{CharTables, TextTables} (trimmed : str) : list str :=
  merge_sort str_le (remove_dups
    (filter (λ t, is_nil t = false) ((λ t, lowercase (trim_matches (λ c, negb (is_alphanumeric c)) t)) <$> split_whitespace trimmed))).

(** [score_field]; [None] when the query does not parse for the field. *)
Definition score_field (gen : option (str → nat * str)) (text : str) : nat :=
  if is_nil text then 0 else from_option (λ g, (g text).1) 0 gen.

(** Highlights, frequency of the query's words, best fragment, attachment. *)
Abbreviation scored_attachment := (nat * nat * str * AttachmentAttributionInput)%type.

Definition score_attachment `{CharTables, TextTables} (tokens : list str) (gen : option (str → nat * str))
    (a : AttachmentAttributionInput) : option scored_attachment :=
  if is_nil (ai_extracted_text a) then None
  else
    g ← gen;
    let '(highlights, fragment) := g (ai_extracted_text a) in
    if highlights =? 0 then None
    else Some (highlights, sum_list (count_word_occurrences (lowercase (ai_extracted_text a)) <$> tokens), fragment, a).

(** More highlights first, then the more frequent words, then by file name. *)
Definition attachment_before (y x : scored_attachment) : bool :=
  let '(hy, fy, _, ay) := y in
  let '(hx, fx, _, ax) := x in
  (hx <? hy) || ((hx =? hy) && ((fx <? fy) || ((fx =? fy) && negb (str_leb (ai_filename ax) (ai_filename ay))))).

Definition attachment_candidate (x : scored_attachment) : MatchKind * nat :=
  let '(h, _, fragment, a) := x in (MAttachment (ai_attachment_id a) (ai_filename a) (ai_mime a) fragment, h).

(** A field is a candidate when the query matches in it. *)
Definition field_candidate (k : MatchKind) (score : nat) : list (MatchKind * nat) := if 0 <? score then [(k, score)] else [].

Section Attribution.
  Context `{Tantivy, CharTables, TextTables}.

(** The candidates of a message before they are ranked. *)
Definition candidates (ix : list Document) (trimmed : str) (i : AttributionInputs) : list (MatchKind * nat) :=
  let gen := snippet_gen ix trimmed in
  field_candidate MBody (score_field (gen FBodyText) (in_body_text i)) ++
  field_candidate MSubject (score_field (gen FSubject) (in_subject i)) ++
  field_candidate MFrom (score_field (gen FFromName) (in_from_name i)) ++
  (attachment_candidate <$>
    sort_stable attachment_before (omap (score_attachment (query_tokens trimmed) (gen FAttachmentText)) (in_attachments i))).

(** The candidates ranked, the first and those of at least half its score. *)
Definition attribute_result (ix : list Document) (trimmed : str) (i : AttributionInputs) (r : SearchResult) : SearchResult :=
  match sort_stable (λ y x, x.2 <? y.2) (candidates ix trimmed i) with
  | [] => r
  | (primary, top_score) :: rest =>
      let threshold := max (top_score / 2) 1 in
      mkResult (r_message_id r) (r_account_id r) (r_thread_id r) (r_subject r) (r_from_name r) (r_from_address r)
        (r_snippet r) (r_date r) (r_rank r) primary (fst <$> filter (λ c, threshold ≤ c.2) rest)
  end.

Definition enrich_match_kinds (ix : list Document) (free_text : str) (inputs : gmap str AttributionInputs)
    (results : list SearchResult) : list SearchResult :=
  let trimmed := trim free_text in
  if is_nil trimmed then results
  else (λ r, match inputs !! r_message_id r with Some i => attribute_result ix trimmed i r | None => r end) <$> results.

End Attribution.

(** ** Grouping by thread (crate search) *)

(** A hit of the thread replaces the one before when it ranks higher. *)
Definition best_hit (best : gmap str SearchResult) (r : SearchResult) : gmap str SearchResult :=
  match best !! r_thread_id r with
  | None => <[r_thread_id r := r]> best
  | Some e => if (r_rank e <? r_rank r)%N then <[r_thread_id r := r]> best else best
  end.

Definition ranks_higher (y x : SearchResult) : bool := (r_rank x <? r_rank y)%N.

(** [group_by_thread] *)
Definition group_by_thread `{HashOrder} (results : list SearchResult) : list SearchResult :=
  sort_stable ranks_higher (hash_order (snd <$> map_to_list (foldl best_hit ∅ results))).

(** ** The pipeline (crate core) *)

(** Columns of [threads] that [Mailbox.Thread] does not have. *)
Record ThreadColumns := mkColumns {
  tc_subject : option str; tc_snippet : option str; tc_has_attachments : bool; tc_message_count : Z
}.

(** A row of [attachments] with its row of [attachment_extracted_text]: text and status. *)
Record AttachmentRow := mkAttachmentRow {
  ar_account : str; ar_message : str; ar_id : str; ar_filename : option str; ar_mime : option str;
  ar_extracted : option (option str * str)
}.

(** The statements that a search reads with: the rows of a query, those of a text
    without an index, the keys of a query, the rows of results, the attachments. *)
Inductive Statement := RowsStmt | FreetextStmt | KeysStmt | HydrateStmt | AttachmentsStmt.

(** The database as a search reads it: [attachment_rows] are in the order of their
    row numbers, [failing] are the statements that fail, with the error that the
    function which runs the statement returns. *)
Record world := mkWorld {
  sdb : search_db;
  columns : key2 → ThreadColumns;
  attachment_rows : list AttachmentRow;
  failing : Statement → option str
}.

(** What a statement reads, or its error. *)
Definition run {A} (w : world) (stmt : Statement) (rows : A) : str + A :=
  match failing w stmt with Some e => inl e | None => inr rows end.

(** A row with the columns of [DbThread] that a result shows. *)
Record DbThread := mkDbThread {
  t_account_id : str; t_id : str; t_subject : option str; t_snippet : option str; t_last_message_at : option Z;
  t_is_read : bool; t_is_starred : bool; t_has_attachments : bool; t_message_count : Z;
  t_from_name : option str; t_from_address : option str
}.

(** [ORDER BY date DESC, id DESC] *)
Definition later (y x : MailRow) : bool :=
  (m_date x <? m_date y)%Z || ((m_date x =? m_date y)%Z && negb (str_leb (m_id y) (m_id x))).

(** [LATEST_MESSAGE_SUBQUERY] for a thread *)
Definition latest_message (d : search_db) (k : key2) : option MailRow :=
  head (sort_stable later (filter (λ m, (m_account m, m_thread m) = k) (mail_rows d))).

(** [SELECT t.*, m.from_name, m.from_address] of a thread *)
Definition db_thread (w : world) (k : key2) : option DbThread :=
  t ← threads (mail (sdb w)) !! k;
  let c := columns w k in
  let m := latest_message (sdb w) k in
  Some (mkDbThread k.1 k.2 (tc_subject c) (tc_snippet c) (last_message_at (sdb w) k) (is_read t) (is_starred t)
          (tc_has_attachments c) (tc_message_count c) (m ≫= m_from_name) (m ≫= m_from_address)).

Record UnifiedSearchResult := mkUnified {
  u_thread_id : str; u_account_id : str;
  u_subject : option str; u_snippet : option str; u_from_name : option str; u_from_address : option str;
  u_date : option Z;
  u_is_read : bool; u_is_starred : bool; u_has_attachments : bool; u_message_count : option Z;
  u_rank : N;
  u_match_kind : option MatchKind;
  u_also_matched : list MatchKind
}.

Inductive SearchResults :=
  | FullIndex (rs : list UnifiedSearchResult)
  | Degraded (rs : list UnifiedSearchResult).

Definition db_thread_to_unified (t : DbThread) : UnifiedSearchResult :=
  mkUnified (t_id t) (t_account_id t) (t_subject t) (t_snippet t) (t_from_name t) (t_from_address t) (t_last_message_at t)
    (t_is_read t) (t_is_starred t) (t_has_attachments t) (Some (t_message_count t)) 0 None [].

Definition tantivy_result_to_unified (r : SearchResult) : UnifiedSearchResult :=
  mkUnified (r_thread_id r) (r_account_id r) (r_subject r) (r_snippet r) (r_from_name r) (r_from_address r) (Some (r_date r))
    false false false None (r_rank r) (Some (r_match_kind r)) (r_also_matched r).

Definition enrich_from_sql (r : UnifiedSearchResult) (t : DbThread) : UnifiedSearchResult :=
  mkUnified (u_thread_id r) (u_account_id r) (t_subject t) (t_snippet t) (t_from_name t) (t_from_address t) (t_last_message_at t)
    (t_is_read t) (t_is_starred t) (t_has_attachments t) (Some (t_message_count t)) (u_rank r) (u_match_kind r) (u_also_matched r).

Definition u_key (r : UnifiedSearchResult) : key2 := (u_account_id r, u_thread_id r).

(** The account narrowing of [account:] is the SQL builder's. *)
Definition build_scope (_ : ParsedQuery) : AccountScope := ScopeAll.

Definition build_tantivy_params (p : ParsedQuery) : SearchParams :=
  mkParams (if is_nil (q_account p) then None else Some (q_account p)) (Some (q_free_text p)) (q_from p) (q_to p) None
    (if q_has_attachment p then Some true else None) (q_is_unread p) (q_is_starred p) (q_before p) (q_after p) None (Some 200).

Definition fetch_thread_rows_for_results (w : world) (rs : list UnifiedSearchResult) : str + list DbThread :=
  let keys := remove_dups (u_key <$> rs) in
  if is_nil keys then inr [] else run w HydrateStmt (omap (db_thread w) keys).

Definition thread_map (rows : list DbThread) : gmap key2 DbThread :=
  list_to_map ((λ t, ((t_account_id t, t_id t), t)) <$> rows).

(** The results of which there is a row, with its columns. *)
Definition hydrate (rows : list DbThread) (rs : list UnifiedSearchResult) : list UnifiedSearchResult :=
  omap (λ r, enrich_from_sql r <$> thread_map rows !! u_key r) rs.

(** *** Attribution *)

Definition MAX_PAIRS_PER_CHUNK : nat := 256.

(** [slice::chunks], with a chunk for each element as fuel *)
Fixpoint chunks_loop {A} (fuel n : nat) (l : list A) : list (list A) :=
  match fuel with
  | O => []
  | S fuel => if is_nil l then [] else take n l :: chunks_loop fuel n (drop n l)
  end.

Definition chunks {A} (n : nat) (l : list A) : list (list A) := chunks_loop (length l) n l.

Definition fragment_of (r : AttachmentRow) : AttachmentAttributionInput :=
  mkAttachmentInput (ar_id r) (default [] (ar_filename r)) (default [] (ar_mime r))
    match ar_extracted r with
    | Some (Some t, status) => if decide (status = slit "indexed") then t else []
    | _ => []
    end.

(** The rows of a message, for every chunk that names it. *)
Definition fragments_of (rows : list AttachmentRow) (pairs : list key2) (k : key2) : list AttachmentAttributionInput :=
  concat ((λ chunk, fragment_of <$> filter (λ r, (ar_account r, ar_message r) = k ∧ k ∈ chunk) rows)
            <$> chunks MAX_PAIRS_PER_CHUNK pairs).

(** The texts of the messages read from the body store; nothing when that fails. *)
Definition bodies_by_message (body_read : option (list str → option (list (str * option str)))) (ids : list str) : gmap str str :=
  match (read ← body_read; read ids) with
  | Some bodies => foldl (λ m b, match b.2 with Some t => <[b.1 := t]> m | None => m end) ∅ bodies
  | None => ∅
  end.

(** One input for each message identifier; a body is taken by the first result of it. *)
Definition add_input (rows : list AttachmentRow) (pairs : list key2) (acc : gmap str str * gmap str AttributionInputs)
    (r : SearchResult) : gmap str str * gmap str AttributionInputs :=
  let '(bodies, inputs) := acc in
  (delete (r_message_id r) bodies,
   <[r_message_id r := mkInputs (default [] (r_subject r)) (default [] (r_from_name r))
                         (default [] (bodies !! r_message_id r))
                         (fragments_of rows pairs (r_account_id r, r_message_id r))]> inputs).

Section Pipeline.
  Context `{Tantivy, CharTables, TextTables, HashOrder, SqliteText, ThreadScan}.

Definition enrich_with_attribution (ix : list Document) (w : world)
    (body_read : option (list str → option (list (str * option str)))) (free_text : str)
    (results : list SearchResult) : list SearchResult :=
  if is_nil (trim free_text) || is_nil results then results
  else
    let pairs := (λ r, (r_account_id r, r_message_id r)) <$> results in
    match run w AttachmentsStmt (attachment_rows w) with
    | inl _ => results
    | inr rows =>
        let bodies := bodies_by_message body_read (r_message_id <$> results) in
        let '(_, inputs) := foldl (add_input rows pairs) (bodies, ∅) results in
        enrich_match_kinds ix free_text inputs results
    end.

Definition group_by_thread_unified (results : list SearchResult) : list UnifiedSearchResult :=
  tantivy_result_to_unified <$> group_by_thread results.

Definition unified_ranks_higher (y x : UnifiedSearchResult) : bool := (u_rank x <? u_rank y)%N.

(** What both ways through the index do with its hits. *)
Definition present (ix : list Document) (w : world) (body_read : option (list str → option (list (str * option str))))
    (free_text : str) (results : list SearchResult) : str + list UnifiedSearchResult :=
  let results := enrich_with_attribution ix w body_read free_text results in
  let grouped := group_by_thread_unified results in
  rows <- fetch_thread_rows_for_results w grouped;
  inr (sort_stable unified_ranks_higher (hydrate rows grouped)).

(** The rows of [query_threads_read] *)
Definition query_rows (p : ParsedQuery) (w : world) (scope : AccountScope) : str + list UnifiedSearchResult :=
  db_threads <- run w RowsStmt (omap (db_thread w) (query_threads_read (sdb w) p scope (Some 200%Z) (Some 0%Z)));
  inr (db_thread_to_unified <$> db_threads).

Definition search_sql_only (p : ParsedQuery) (w : world) : str + list UnifiedSearchResult := query_rows p w (build_scope p).

Definition search_tantivy_only (p : ParsedQuery) (ix : list Document) (w : world)
    (body_read : option (list str → option (list (str * option str)))) : str + list UnifiedSearchResult :=
  results <- search_with_filters ix (build_tantivy_params p);
  present ix w body_read (q_free_text p) results.

(** Only the text and the threads that the operators select. *)
Definition combined_params (p : ParsedQuery) (candidate_pairs : list key2) : SearchParams :=
  let params := build_tantivy_params p in
  mkParams None (p_free_text params) [] [] (p_subject params) None None None None None (Some candidate_pairs) (p_limit params).

Definition search_combined (p : ParsedQuery) (ix : list Document) (w : world)
    (body_read : option (list str → option (list (str * option str)))) : str + list UnifiedSearchResult :=
  let sql_parsed := set_free_text (λ _, []) p in
  candidate_pairs <- run w KeysStmt (elements (query_thread_keys_read (sdb w) sql_parsed (build_scope p)));
  if is_nil candidate_pairs then inr []
  else
    results <- search_with_filters ix (combined_params p candidate_pairs);
    present ix w body_read (q_free_text p) results.

End Pipeline.

(** *** Without an index *)

(** The columns of [threads], and those the statement for free text reads of it. *)
Definition THREAD_COLUMNS : list string :=
  ["id"; "account_id"; "subject"; "snippet"; "last_message_at"; "message_count"; "is_read"; "is_starred"; "is_important";
   "has_attachments"; "is_snoozed"; "snooze_until"; "is_pinned"; "is_muted"; "namespace_kind"; "namespace_id";
   "is_chat_thread"; "label_membership_generation"]%string.

Definition FREETEXT_COLUMNS : list string :=
  ["id"; "account_id"; "subject"; "snippet"; "last_message_at"; "message_count"; "is_read"; "is_starred";
   "has_attachments"; "from_name"; "from_address"]%string.

(** The error of SQLite for a column that a table does not have. *)
Class SqliteErrors := { no_such_column : string → str }.

(** [search_threads_freetext_sync].  A statement is prepared only when its columns
    exist, if preparing it does not fail before; [from_name] and [from_address] of a row would be columns of [threads]. *)
Definition search_threads_freetext_sync `{SqliteText, ThreadScan, SqliteErrors} (w : world) (pattern : str) (scope : AccountScope)
    (limit : Z) : str + list UnifiedSearchResult :=
  match failing w FreetextStmt, list_find (.∉ THREAD_COLUMNS) FREETEXT_COLUMNS with
  | Some e, _ => inl e
  | None, Some (_, c) => inl (slit "prepare search: " ++ no_such_column c)
  | None, None =>
      let matched (e : key2 * Thread) :=
        existsb (λ col : option str, from_option (λ s, sql_like s pattern) false col) [tc_subject (columns w e.1); tc_snippet (columns w e.1)] &&
        match scope with ScopeAll => true | ScopeSingle id => bool_decide (e.1.1 = id) | ScopeMultiple ids => bool_decide (e.1.1 ∈ ids) end in
      let newest (y x : key2) :=
        match last_message_at (sdb w) y, last_message_at (sdb w) x with
        | Some a, Some b => (b <? a)%Z
        | Some _, None => true
        | None, _ => false
        end in
      let keys := sort_stable newest (fst <$> scan_threads (filter (λ e, matched e = true) (threads (mail (sdb w))))) in
      inr (db_thread_to_unified <$> omap (db_thread w) (sql_limit limit keys))
  end.

Section Search.
  Context `{Tantivy, CharTables, TextTables, HashOrder, SqliteText, ThreadScan, SqliteErrors, Clock}.

Definition search_sql_fallback (p : ParsedQuery) (w : world) (scope : AccountScope) : str + list UnifiedSearchResult :=
  if has_any_operator p || is_nil (q_free_text p) then query_rows p w scope
  else search_threads_freetext_sync w (slit "%" ++ q_free_text p ++ slit "%") scope 200.

(** [search]; the outer [None] is the panic of [parse_query]. *)
Definition search (query : str) (search_state : option (list Document)) (w : world) (scope : AccountScope)
    (body_read : option (list str → option (list (str * option str)))) : option (str + SearchResults) :=
  p ← parse_query query;
  Some
    (if is_nil (q_free_text p) && negb (has_any_operator p) then inr (FullIndex [])
     else
       match search_state with
       | None => results <- search_sql_fallback p w scope; inr (Degraded results)
       | Some ix =>
           results <- (if is_nil (q_free_text p) then search_sql_only p w
                       else if has_any_operator p then search_combined p ix w body_read
                       else search_tantivy_only p ix w body_read);
           inr (FullIndex results)
       end).

(** [thread_matches_scope] *)
Definition in_scope (scope : AccountScope) (r : UnifiedSearchResult) : bool :=
  match scope with
  | ScopeAll => true
  | ScopeSingle id => bool_decide (u_account_id r = id)
  | ScopeMultiple ids => bool_decide (u_account_id r ∈ ids)
  end.

(** [execute_search], before the decorations of the list *)
Definition execute_search (query : str) (search_state : option (list Document)) (w : world) (scope : AccountScope)
    (body_read : option (list str → option (list (str * option str)))) : option (str + list UnifiedSearchResult) :=
  r ← search query search_state w scope body_read;
  Some (results <- r;
        let results := match results with FullIndex rs | Degraded rs => rs end in
        inr (filter (λ r, in_scope scope r = true) results)).

End Search.
