(* ===== verification/SearchProperties.v ===== *)
(** * SearchProperties: what a search answers

    Against the documents of tantivy ([Search.Tantivy]): the results are the best
    hits of their threads, meet the operators of the query and are shown as the
    database has them; when a search fails; which match a result names.  At the end
    closed runs. *)

From stdpp Require Import sorting.
From S2P Require Import Prelude.
From S2P Require Import Graphemes.
From S2P Require Import Input.
From S2P Require Import Strings.
From S2P Require Import Bytes.
From S2P Require Import FolderLabel.
From S2P Require Import Civil.
From S2P Require Import Mailbox.
From S2P Require Import SmartQuery.
From S2P Require Import SmartTheory.
From S2P Require Import SmartProperties.
From S2P Require Import Search.

(** ** Stable sorting *)

Lemma insert_stable_perm {A} (before : A → A → bool) x l : insert_stable before x l ≡ₚ x :: l.
Proof.
  induction l as [|y l IH]; [done|]. cbn [insert_stable]. destruct (before y x); [|done].
  rewrite IH. apply Permutation_swap.
Qed.

Lemma sort_stable_perm {A} (before : A → A → bool) l : sort_stable before l ≡ₚ l.
Proof.
  induction l as [|x l IH]; [done|]. change (sort_stable before (x :: l)) with (insert_stable before x (sort_stable before l)).
  by rewrite insert_stable_perm, IH.
Qed.

Lemma elem_sort_stable {A} (before : A → A → bool) l x : x ∈ sort_stable before l ↔ x ∈ l.
Proof. by rewrite sort_stable_perm. Qed.

Section ByKey.
  Context {A} (key : A → N) (before : A → A → bool) (Hbefore : ∀ y x, before y x = (key x <? key y)%N).

Lemma insert_stable_sorted x l :
  StronglySorted (λ a b, (key b ≤ key a)%N) l → StronglySorted (λ a b, (key b ≤ key a)%N) (insert_stable before x l).
Proof.
  induction 1 as [|y l Hs IH Hf]; cbn [insert_stable]; [repeat constructor|]. rewrite Hbefore.
  destruct (N.ltb_spec (key x) (key y)) as [Hlt|Hle].
  - constructor; [done|]. rewrite insert_stable_perm. constructor; [lia|done].
  - constructor; [by constructor|]. constructor; [done|]. eapply Forall_impl; [exact Hf|]. cbn. lia.
Qed.

Lemma sort_stable_sorted l : StronglySorted (λ a b, (key b ≤ key a)%N) (sort_stable before l).
Proof. induction l as [|x l IH]; [constructor|]. by apply insert_stable_sorted. Qed.

(** What has one key stays in its order. *)
Lemma insert_stable_filter n x l :
  filter (λ a, key a = n) (insert_stable before x l) = filter (λ a, key a = n) (x :: l).
Proof.
  induction l as [|y l IH]; [done|]. cbn [insert_stable]. rewrite Hbefore.
  destruct (N.ltb_spec (key x) (key y)) as [Hlt|Hle]; [|done].
  rewrite filter_cons, IH, !filter_cons. repeat case_decide; done || lia.
Qed.

Lemma sort_stable_filter n l : filter (λ a, key a = n) (sort_stable before l) = filter (λ a, key a = n) l.
Proof.
  induction l as [|x l IH]; [done|]. change (sort_stable before (x :: l)) with (insert_stable before x (sort_stable before l)).
  rewrite insert_stable_filter, !filter_cons, IH. done.
Qed.

End ByKey.

(** ** Documents in the index *)

(** The key of the thread of a document. *)
Definition doc_key (d : SearchDocument) : key2 := (sd_account_id d, sd_thread_id d).

(** The fields that a document has once. *)
Definition single (f : Field) : Prop := f ∉ [FAttachmentText; FAttachmentFilename; FAttachmentMime; FAttachmentId].

Lemma attachment_fields k l f v : (f, v) ∈ concat (imap (λ i a, attachment_values (k + i) a) l) → ¬ single f.
Proof.
  revert k. induction l as [|a l IH]; intros k; [intros Hv; by apply elem_of_nil in Hv|].
  rewrite imap_cons. cbn [concat]. rewrite elem_of_app. intros [Hv|Hv].
  - intros Hs. apply Hs. unfold attachment_values in Hv. set_solver.
  - apply (IH (S k)). erewrite imap_ext; [exact Hv|]. intros i x _. cbn. f_equal. lia.
Qed.

Lemma doc_account d s : (FAccountId, VText s) ∈ build_search_doc d ↔ s = sd_account_id d.
Proof.
  unfold build_search_doc. rewrite elem_of_app. split.
  - intros [Hv|Hv]; [set_solver|]. apply (attachment_fields 0) in Hv. destruct Hv. unfold single. set_solver.
  - intros ->. left. set_solver.
Qed.

Lemma doc_thread d s : (FThreadId, VText s) ∈ build_search_doc d ↔ s = sd_thread_id d.
Proof.
  unfold build_search_doc. rewrite elem_of_app. split.
  - intros [Hv|Hv]; [set_solver|]. apply (attachment_fields 0) in Hv. destruct Hv. unfold single. set_solver.
  - intros ->. left. set_solver.
Qed.

(** The hit of a document. *)
Lemma collect_hit score d :
  let r := collect_result (score, build_search_doc d) in
  r_message_id r = sd_message_id d ∧ (r_account_id r, r_thread_id r) = doc_key d ∧ r_rank r = score.
Proof. done. Qed.

Lemma should_matches tm cs doc : Forall (λ c : Occur * Query, c.1 = Should) cs →
  query_matches tm (Boolean cs) doc = true ↔ ∃ c, c ∈ cs ∧ query_matches tm c.2 doc = true.
Proof.
  intros Hs. cbn [query_matches]. rewrite andb_true_iff, forallb_forall, existsb_exists. split.
  - intros [_ ([o q] & Hin%list_elem_of_In & Hq)]. rewrite Forall_forall in Hs. specialize (Hs _ Hin) as Ho. cbn in Ho. subst o.
    by exists (Should, q).
  - intros ([o q] & Hin & Hq). rewrite Forall_forall in Hs. split.
    + intros [o' q'] Hin'%list_elem_of_In%Hs. cbn in Hin'. by subst.
    + exists (o, q). split; [by apply list_elem_of_In|]. specialize (Hs _ Hin) as Ho. cbn in Ho. by subst.
Qed.

Lemma must_matches tm cs doc : Forall (λ c : Occur * Query, c.1 = Must) cs → cs ≠ [] →
  query_matches tm (Boolean cs) doc = true ↔ ∀ c, c ∈ cs → query_matches tm c.2 doc = true.
Proof.
  intros Hs Hne. cbn [query_matches]. rewrite andb_true_iff, forallb_forall, existsb_exists. rewrite Forall_forall in Hs. split.
  - intros [Hall _] [o q] Hin. specialize (Hs _ Hin) as Ho. cbn in Ho. subst o. by apply (Hall (Must, q)), list_elem_of_In.
  - intros Hall. split.
    + intros [o q] Hin%list_elem_of_In. specialize (Hs _ Hin) as Ho. cbn in Ho. subst o. by apply (Hall (Must, q)).
    + destruct cs as [|[o q] cs]; [done|]. exists (o, q). split; [by left|].
      specialize (Hs (o, q) (list_elem_of_here _ _)). cbn in Hs. by subst.
Qed.

Lemma thread_pair_matches tm k d : query_matches tm (thread_pair k).2 (build_search_doc d) = true ↔ doc_key d = k.
Proof.
  unfold thread_pair. cbn [snd]. rewrite must_matches by (done || by repeat constructor). split.
  - intros Hall. pose proof (Hall (_, _) (list_elem_of_here _ _)) as Ha.
    pose proof (Hall (_, _) (list_elem_of_further _ _ _ (list_elem_of_here _ _))) as Ht. cbn [snd query_matches] in Ha, Ht.
    apply bool_decide_eq_true, doc_account in Ha. apply bool_decide_eq_true, doc_thread in Ht. unfold doc_key.
    destruct k. cbn in *. by subst.
  - intros <- c [->|[->|[]%elem_of_nil]%elem_of_cons]%elem_of_cons; cbn [snd query_matches]; apply bool_decide_eq_true.
    + by apply doc_account.
    + by apply doc_thread.
Qed.

(** The filter on threads holds of the documents of the threads. *)
Lemma thread_filter_matches tm keys d :
  query_matches tm (Boost (Boolean (thread_pair <$> keys)) 0) (build_search_doc d) = true ↔ doc_key d ∈ keys.
Proof.
  change (query_matches tm (Boost ?q 0) ?doc) with (query_matches tm q doc).
  rewrite should_matches by (apply Forall_fmap, Forall_forall; done). setoid_rewrite list_elem_of_fmap. split.
  - intros (c & (k & -> & Hk) & Hm). apply thread_pair_matches in Hm. by subst.
  - intros Hk. eexists. split; [by exists (doc_key d)|]. by apply thread_pair_matches.
Qed.

(** ** The hits of a search *)

(** The documents a search of the index asks for: by their text, and for a query
    with operators only those of the candidates. *)
Definition asked `{Tantivy} (p : ParsedQuery) (candidates : option (list key2)) (d : SearchDocument) : Prop :=
  text_match SEARCHED (q_free_text p) (build_search_doc d) = true ∧
  from_option (λ ks, doc_key d ∈ ks) True candidates.

#[export] Instance asked_dec `{Tantivy} p candidates d : Decision (asked p candidates d).
Proof. unfold asked. destruct candidates; cbn [from_option]; apply _. Defined.

(** The query of a search of the index. *)
Definition index_query (p : ParsedQuery) (candidates : option (list key2)) : Query :=
  Boolean ((Must, Parsed SEARCHED (q_free_text p)) ::
    from_option (λ ks, [(Must, Boost (Boolean (thread_pair <$> ks)) 0)]) [] candidates).

Lemma index_query_matches `{Tantivy} p candidates d :
  query_matches text_match (index_query p candidates) (build_search_doc d) = true ↔ asked p candidates d.
Proof.
  unfold index_query, asked. rewrite must_matches; [|constructor; [done|]; destruct candidates; by repeat constructor|done]. split.
  - intros Hall. split; [exact (Hall (_, _) (list_elem_of_here _ _))|]. destruct candidates as [ks|]; [|done].
    apply (thread_filter_matches text_match). exact (Hall (_, _) (list_elem_of_further _ _ _ (list_elem_of_here _ _))).
  - intros [Ht Hk] c [->|Hc]%elem_of_cons; [done|]. destruct candidates as [ks|]; [|by apply elem_of_nil in Hc].
    apply list_elem_of_singleton in Hc as ->. by apply thread_filter_matches.
Qed.

(** A query without operators has none of the fields that narrow a search. *)
Lemma no_operator p : has_any_operator p = false →
  q_from p = [] ∧ q_to p = [] ∧ q_account p = [] ∧ q_has_attachment p = false ∧ q_is_unread p = None ∧ q_is_starred p = None ∧
  q_before p = None ∧ q_after p = None.
Proof.
  unfold has_any_operator. rewrite !orb_false_iff, !bool_decide_eq_false, !negb_false_iff.
  intros H. destruct_and! H.
  assert (∀ A (o : option A), ¬ is_Some o → o = None) as Ho by (intros A [x|] Hx; [by destruct Hx|done]).
  assert (∀ l : list str, is_nil l = true → l = []) as Hl by (by intros []).
  split_and!; auto.
Qed.

Lemma index_search `{Tantivy} ix p candidates params :
  p_free_text params = Some (q_free_text p) → q_free_text p ≠ [] → p_account_ids params = None → p_from params = [] →
  p_to params = [] → p_subject params = None → p_has_attachment params = None → p_is_unread params = None →
  p_is_starred params = None → p_before params = None → p_after params = None → p_thread_filter params = candidates →
  candidates ≠ Some [] → p_limit params = Some 200 →
  search_with_filters ix params =
    match parse_error SEARCHED (q_free_text p) with
    | Some e => inl (slit "parse free text: " ++ e)
    | None =>
        match top_docs ix (index_query p candidates) 200 with
        | inl e => inl (slit "search: " ++ e)
        | inr l => inr (collect_results l)
        end
    end.
Proof.
  intros Ht Hne Ha Hf Hto Hs Hatt Hu Hst Hb Haf Hc Hcn Hl. unfold search_with_filters, filter_clauses.
  rewrite Ht, Ha, Hf, Hto, Hs, Hatt, Hu, Hst, Hb, Haf, Hc, Hl. cbn [build_account_filter free_text_clause].
  destruct (q_free_text p) as [|c t] eqn:E; [done|]. unfold parsed. destruct (parse_error _ _); [done|].
  cbn [rbind from_clauses to_clauses subject_clause flag_clause date_clause alternatives app fmap option_fmap option_map is_nil].
  unfold index_query. rewrite E. by destruct candidates as [[|k ks]|].
Qed.

(** ** From hits to results *)

(** One hit of the index, whatever is said to have matched. *)
Definition same_hit (r r' : SearchResult) : Prop :=
  r_account_id r' = r_account_id r ∧ r_thread_id r' = r_thread_id r ∧ r_rank r' = r_rank r.

#[export] Instance same_hit_refl : Reflexive same_hit.
Proof. done. Qed.

Lemma attribute_same_hit `{Tantivy, CharTables, TextTables} ix t i r : same_hit r (attribute_result ix t i r).
Proof. unfold attribute_result. by destruct (sort_stable _ _) as [|[k n] rest]. Qed.

Lemma enrich_same_hits `{Tantivy, CharTables, TextTables} ix w body text results :
  Forall2 same_hit results (enrich_with_attribution ix w body text results).
Proof.
  assert (∀ l, Forall2 same_hit l l) as Hr by (induction l; by constructor).
  unfold enrich_with_attribution. destruct (_ || _); [done|]. destruct (run w _ _) as [|rows]; [done|].
  destruct (foldl _ _ _) as [bodies inputs]. unfold enrich_match_kinds. destruct (is_nil (trim text)); [done|].
  induction results as [|r results IH]; [constructor|]. rewrite fmap_cons. constructor; [|done].
  destruct (inputs !! r_message_id r); [apply attribute_same_hit|done].
Qed.

Lemma best_hits results t :
  match foldl best_hit ∅ results !! t with
  | Some r => r ∈ results ∧ r_thread_id r = t ∧ ∀ r', r' ∈ results → r_thread_id r' = t → (r_rank r' ≤ r_rank r)%N
  | None => ∀ r', r' ∈ results → r_thread_id r' ≠ t
  end.
Proof.
  induction results as [|x results IH] using rev_ind; [cbn; rewrite lookup_empty; intros r' Hr; by apply elem_of_nil in Hr|].
  rewrite foldl_snoc. set (m := foldl best_hit ∅ results) in *. unfold best_hit.
  destruct (decide (r_thread_id x = t)) as [<-|Hne].
  - destruct (m !! r_thread_id x) as [e|] eqn:E; rewrite ?E.
    + destruct IH as (Hin & He & Hle). destruct (N.ltb_spec (r_rank e) (r_rank x)).
      * rewrite lookup_insert_eq. split; [set_solver|]. split; [done|].
        intros r' [Hr| ->%list_elem_of_singleton]%elem_of_app Ht; [specialize (Hle _ Hr Ht); lia|lia].
      * rewrite E. split; [set_solver|]. split; [done|].
        intros r' [Hr| ->%list_elem_of_singleton]%elem_of_app Ht; [by apply Hle|lia].
    + rewrite lookup_insert_eq. split; [set_solver|]. split; [done|].
      intros r' [Hr| ->%list_elem_of_singleton]%elem_of_app Ht; [by destruct (IH _ Hr)|lia].
  - assert ((match m !! r_thread_id x with
             | None => <[r_thread_id x := x]> m
             | Some e => if (r_rank e <? r_rank x)%N then <[r_thread_id x := x]> m else m
             end) !! t = m !! t) as ->.
    { destruct (m !! r_thread_id x); [destruct (_ <? _)%N|]; rewrite ?lookup_insert_ne by done; done. }
    destruct (m !! t) as [e|].
    + destruct IH as (Hin & He & Hle). split; [set_solver|]. split; [done|].
      intros r' [Hr| ->%list_elem_of_singleton]%elem_of_app Ht; [by apply Hle|done].
    + intros r' [Hr| ->%list_elem_of_singleton]%elem_of_app; [by apply IH|done].
Qed.

(** A group is the best hit of its thread identifier. *)
Lemma elem_group `{HashOrder} results r :
  r ∈ group_by_thread results ↔ foldl best_hit ∅ results !! r_thread_id r = Some r.
Proof.
  unfold group_by_thread. rewrite elem_sort_stable, hash_order_rows, list_elem_of_fmap. split.
  - intros ([t r'] & -> & Hin%elem_of_map_to_list). cbn. pose proof (best_hits results t) as Hb. rewrite Hin in Hb.
    by destruct Hb as (_ & -> & _).
  - intros E. exists (r_thread_id r, r). split; [done|]. by apply elem_of_map_to_list.
Qed.

Lemma group_NoDup `{HashOrder} results : NoDup (r_thread_id <$> group_by_thread results).
Proof.
  unfold group_by_thread. rewrite sort_stable_perm, hash_order_rows, <-list_fmap_compose.
  assert (r_thread_id ∘ snd <$> map_to_list (foldl best_hit ∅ results) = (map_to_list (foldl best_hit ∅ results)).*1) as ->.
  - apply list_fmap_ext. intros i [t r] Hi%list_elem_of_lookup_2%elem_of_map_to_list. cbn.
    pose proof (best_hits results t) as Hb. rewrite Hi in Hb. by destruct Hb as (_ & -> & _).
  - apply NoDup_fst_map_to_list.
Qed.

(** A row has the key of its thread. *)
Lemma db_thread_key w k t : db_thread w k = Some t → (t_account_id t, t_id t) = k.
Proof. unfold db_thread. intros (x & _ & [= <-])%bind_Some. by destruct k. Qed.

(** The rows fetched for results are those of their threads. *)
Lemma thread_map_lookup w ks k : NoDup ks → k ∈ ks → thread_map (omap (db_thread w) ks) !! k = db_thread w k.
Proof.
  intros Hn Hk. unfold thread_map. induction Hn as [|x ks Hx Hn IH]; [by apply elem_of_nil in Hk|]. cbn [omap list_omap].
  destruct (decide (x = k)) as [->|Hne].
  - destruct (db_thread w k) as [t|] eqn:E.
    { by rewrite fmap_cons, (db_thread_key _ _ _ E), list_to_map_cons, lookup_insert_eq. }
    apply not_elem_of_list_to_map_1. rewrite list_elem_of_fmap. intros ([k' t] & -> & Hin).
    apply list_elem_of_fmap in Hin as (t' & [= -> ->] & (k2 & Hk2 & E2)%list_elem_of_omap).
    apply db_thread_key in E2. cbn in Hx. by rewrite E2 in Hx.
  - apply elem_of_cons in Hk as [->|Hk]; [done|]. destruct (db_thread w x) as [t|] eqn:E; [|by apply IH].
    rewrite fmap_cons, (db_thread_key _ _ _ E), list_to_map_cons, lookup_insert_ne by done. by apply IH.
Qed.

Lemma hydrate_rows w ks rs : NoDup ks → (∀ r, r ∈ rs → u_key r ∈ ks) →
  hydrate (omap (db_thread w) ks) rs = omap (λ r, enrich_from_sql r <$> db_thread w (u_key r)) rs.
Proof.
  intros Hn. unfold hydrate. induction rs as [|r rs IH]; intros Hr; [done|]. cbn [omap list_omap].
  rewrite IH by (intros x Hx; apply Hr; by right). rewrite thread_map_lookup; [done|done|]. apply Hr. by left.
Qed.

Lemma omap_NoDup_key {A B C} (f : A → option B) (ka : A → C) (kb : B → C) xs :
  (∀ x y, f x = Some y → kb y = ka x) → NoDup (ka <$> xs) → NoDup (kb <$> omap f xs).
Proof.
  intros Hk. induction xs as [|x xs IH]; [done|]. rewrite fmap_cons, NoDup_cons. intros [Hx Hn]. cbn [omap list_omap].
  destruct (f x) as [y|] eqn:E; [|by apply IH]. rewrite fmap_cons, NoDup_cons. split; [|by apply IH].
  rewrite (Hk _ _ E), list_elem_of_fmap. intros (y' & Ey & (x' & Hx' & E')%list_elem_of_omap). apply Hx.
  apply list_elem_of_fmap. exists x'. split; [|done]. by rewrite Ey, (Hk _ _ E').
Qed.

Lemma Forall2_partner_l {A B} (P : A → B → Prop) l k x : Forall2 P l k → x ∈ l → ∃ y, y ∈ k ∧ P x y.
Proof.
  induction 1 as [|a b l k Hp _ IH]; intros Hx; [by apply elem_of_nil in Hx|].
  apply elem_of_cons in Hx as [->|Hx]; [exists b; split; [by left|done]|]. destruct (IH Hx) as (y & Hy & ?).
  exists y. split; [by right|done].
Qed.

Lemma Forall2_partner_r {A B} (P : A → B → Prop) l k y : Forall2 P l k → y ∈ k → ∃ x, x ∈ l ∧ P x y.
Proof. intros H Hy. by apply (Forall2_partner_l (flip P) k l), Hy; apply Forall2_flip. Qed.

Lemma filter_image {A B} (f : A → B) (P : B → Prop) `{!∀ x, Decision (P x)} (Q : A → Prop) `{!∀ x, Decision (Q x)} (l : list A) :
  (∀ x, P (f x) ↔ Q x) → filter P (f <$> l) = f <$> filter Q l.
Proof.
  intros Hpq. induction l as [|x l IH]; [done|]. rewrite fmap_cons, !filter_cons.
  specialize (Hpq x). repeat case_decide; rewrite IH; tauto.
Qed.

Section Answers.
  Context `{Tantivy, CharTables, TextTables, HashOrder, SqliteText, ThreadScan, SqliteErrors, Clock}.

(** The thread of a hit. *)
Definition hit_key (r : SearchResult) : key2 := (r_account_id r, r_thread_id r).

(** What is presented when the rows are read. *)
Definition presented ix w body text results : list UnifiedSearchResult :=
  sort_stable unified_ranks_higher (omap (λ r, enrich_from_sql r <$> db_thread w (u_key r))
    (group_by_thread_unified (enrich_with_attribution ix w body text results))).

Lemma group_nil results : group_by_thread results = [] ↔ results = [].
Proof.
  split; intros E.
  2:{ subst. destruct (group_by_thread []) as [|r l] eqn:E; [done|]. assert (r ∈ group_by_thread []) as Hr by (rewrite E; by left).
      by apply elem_group in Hr. }
  destruct results as [|r l]; [done|]. pose proof (best_hits (r :: l) (r_thread_id r)) as Hb.
  destruct (_ !! r_thread_id r) as [g|] eqn:Eg; [|by destruct (Hb r); [left|]]. destruct Hb as (_ & Ht & _).
  assert (g ∈ group_by_thread (r :: l)) as Hg by (apply elem_group; by rewrite Ht). rewrite E in Hg. by apply elem_of_nil in Hg.
Qed.

Lemma present_spec ix w body text results :
  present ix w body text results =
    match results, failing w HydrateStmt with
    | _ :: _, Some e => inl e
    | _, _ => inr (presented ix w body text results)
    end.
Proof.
  unfold present, presented, fetch_thread_rows_for_results, run.
  set (grouped := group_by_thread_unified _). pose proof (enrich_same_hits ix w body text results) as Hs.
  destruct results as [|r l].
  { apply Forall2_nil_inv_l in Hs. unfold grouped, group_by_thread_unified. rewrite Hs, (proj2 (group_nil [])) by done. done. }
  assert (is_nil (remove_dups (u_key <$> grouped)) = false) as ->.
  { destruct (remove_dups (u_key <$> grouped)) as [|k ks] eqn:E; [|done]. exfalso.
    assert (grouped = []) as En.
    { destruct grouped as [|u us]; [done|]. exfalso. assert (u_key u ∈ remove_dups (u_key <$> u :: us)) as Hu
        by (apply elem_of_remove_dups; by left). rewrite E in Hu. by apply elem_of_nil in Hu. }
    unfold grouped, group_by_thread_unified in En. apply fmap_nil_inv in En. apply (proj1 (group_nil _)) in En. rewrite En in Hs. by apply Forall2_nil_inv_r in Hs. }
  destruct (failing w HydrateStmt); [done|]. cbn [rbind]. do 2 f_equal. apply hydrate_rows; [apply NoDup_remove_dups|].
  intros u Hu. apply elem_of_remove_dups, list_elem_of_fmap. by exists u.
Qed.

Lemma elem_presented ix w body text results u :
  u ∈ presented ix w body text results ↔
  ∃ r t, r ∈ group_by_thread (enrich_with_attribution ix w body text results) ∧ db_thread w (hit_key r) = Some t ∧
    u = enrich_from_sql (tantivy_result_to_unified r) t.
Proof.
  unfold presented. rewrite elem_sort_stable, list_elem_of_omap. unfold group_by_thread_unified.
  setoid_rewrite list_elem_of_fmap. split.
  - intros (u' & (r & -> & Hr) & (t & Ht & ->)%fmap_Some). by exists r, t.
  - intros (r & t & Hr & Ht & ->). exists (tantivy_result_to_unified r). split; [by exists r|].
    apply fmap_Some. by exists t.
Qed.

Lemma presented_NoDup ix w body text results : NoDup (u_thread_id <$> presented ix w body text results).
Proof.
  unfold presented. rewrite sort_stable_perm. apply (omap_NoDup_key _ u_thread_id).
  - by intros x y (t & _ & ->)%fmap_Some.
  - unfold group_by_thread_unified. rewrite <-list_fmap_compose. apply group_NoDup.
Qed.

Lemma presented_sorted ix w body text results :
  StronglySorted (λ a b, (u_rank b ≤ u_rank a)%N) (presented ix w body text results).
Proof. by apply sort_stable_sorted. Qed.

(** What is presented of the hits: the best one of a thread identifier, as the
    database shows its thread. *)
Lemma presented_sound ix w body text results u : u ∈ presented ix w body text results →
  (∃ r, r ∈ results ∧ hit_key r = u_key u ∧ r_rank r = u_rank u) ∧
  (∀ r, r ∈ results → r_thread_id r = u_thread_id u → (r_rank r ≤ u_rank u)%N) ∧
  ∃ t, db_thread w (u_key u) = Some t ∧ enrich_from_sql u t = u.
Proof.
  intros (g & t & Hg & Ht & ->)%elem_presented. apply elem_group in Hg. pose proof (best_hits (enrich_with_attribution ix w body text results) (r_thread_id g)) as Hb.
  rewrite Hg in Hb. destruct Hb as (Hin & _ & Hle). pose proof (enrich_same_hits ix w body text results) as Hs. split_and!.
  - destruct (Forall2_partner_r _ _ _ _ Hs Hin) as (r & Hr & Ha & Htt & Hk). exists r. unfold hit_key, u_key. cbn. by rewrite <-Ha, <-Htt, <-Hk.
  - intros r Hr Hth. cbn in *. destruct (Forall2_partner_l _ _ _ _ Hs Hr) as (r' & Hr' & Ha & Htt & Hk). rewrite <-Hk.
    apply Hle; [done|]. congruence.
  - exists t. done.
Qed.

Lemma presented_complete ix w body text results r : r ∈ results → is_Some (db_thread w (hit_key r)) →
  (∀ r', r' ∈ results → r_thread_id r' = r_thread_id r → hit_key r' = hit_key r) →
  hit_key r ∈ u_key <$> presented ix w body text results.
Proof.
  intros Hr [t Ht] Hone. pose proof (enrich_same_hits ix w body text results) as Hs.
  destruct (Forall2_partner_l _ _ _ _ Hs Hr) as (r1 & Hr1 & Ha1 & Ht1 & _).
  pose proof (best_hits (enrich_with_attribution ix w body text results) (r_thread_id r)) as Hb.
  destruct (_ !! r_thread_id r) as [g|] eqn:Eg; [|by destruct (Hb r1 Hr1)]. destruct Hb as (Hg & Hgt & _).
  destruct (Forall2_partner_r _ _ _ _ Hs Hg) as (r2 & Hr2 & Ha2 & Ht2 & _).
  assert (hit_key g = hit_key r) as Hkey.
  { rewrite <-(Hone r2 Hr2) by congruence. unfold hit_key. congruence. }
  apply list_elem_of_fmap. exists (enrich_from_sql (tantivy_result_to_unified g) t). split; [by rewrite <-Hkey|].
  apply elem_presented. exists g, t. split_and!; [|by rewrite Hkey|done]. apply elem_group. by rewrite Hgt.
Qed.

(** *** The ways through the index *)

Lemma tantivy_only_hits p ix w body : q_free_text p ≠ [] → has_any_operator p = false →
  search_tantivy_only p ix w body =
    match parse_error SEARCHED (q_free_text p) with
    | Some e => inl (slit "parse free text: " ++ e)
    | None =>
        match top_docs ix (index_query p None) 200 with
        | inl e => inl (slit "search: " ++ e)
        | inr l => present ix w body (q_free_text p) (collect_results l)
        end
    end.
Proof.
  intros Hne Ho. destruct (no_operator p Ho) as (Hf & Ht & Ha & Hatt & Hu & Hs & Hb & Haf).
  unfold search_tantivy_only. rewrite (index_search ix p None); [|unfold build_tantivy_params; cbn; rewrite ?Ha, ?Hatt; done..].
  destruct (parse_error _ _); [done|]. by destruct (top_docs _ _ _).
Qed.

Definition candidates_of (w : world) (p : ParsedQuery) : list key2 :=
  elements (query_thread_keys_read (sdb w) (set_free_text (λ _, []) p) ScopeAll).

Lemma combined_hits p ix w body : q_free_text p ≠ [] →
  search_combined p ix w body =
    match failing w KeysStmt with
    | Some e => inl e
    | None =>
        if is_nil (candidates_of w p) then inr []
        else
          match parse_error SEARCHED (q_free_text p) with
          | Some e => inl (slit "parse free text: " ++ e)
          | None =>
              match top_docs ix (index_query p (Some (candidates_of w p))) 200 with
              | inl e => inl (slit "search: " ++ e)
              | inr l => present ix w body (q_free_text p) (collect_results l)
              end
          end
    end.
Proof.
  intros Hne. unfold search_combined, build_scope, run. fold (candidates_of w p). destruct (failing w KeysStmt); [done|].
  cbn [rbind]. destruct (is_nil (candidates_of w p)) eqn:E; [done|].
  rewrite (index_search ix p (Some (candidates_of w p))); [|try done..].
  - destruct (parse_error _ _); [done|]. by destruct (top_docs _ _ _).
  - intros [= Ec]. by rewrite Ec in E.
Qed.

(** The threads that the operators of a query select. *)
Definition selects (w : world) (p : ParsedQuery) (k : key2) : Prop :=
  chosen (sdb w) (set_free_text (λ _, []) p) ScopeAll k.

Lemma elem_candidates w p k : k ∈ candidates_of w p ↔ selects w p k.
Proof. unfold candidates_of. rewrite elem_of_elements. apply elem_matching_now. Qed.

(** The candidates of the query, when it has operators. *)
Definition narrowed (w : world) (p : ParsedQuery) : option (list key2) :=
  if has_any_operator p then Some (candidates_of w p) else None.

(** The threads that a query with text may find. *)
Definition eligible (w : world) (p : ParsedQuery) (k : key2) : Prop :=
  if has_any_operator p then selects w p k else is_Some (threads (mail (sdb w)) !! k).

(** The error of the statement for the keys, which only operators need. *)
Definition keys_error (w : world) (p : ParsedQuery) : option str := if has_any_operator p then failing w KeysStmt else None.

(** A search of the index, however it is routed. *)
Lemma search_by_index q ix w scope body p : parse_query q = Some p → q_free_text p ≠ [] →
  search q (Some ix) w scope body = Some
    match keys_error w p with
    | Some e => inl e
    | None =>
        if bool_decide (narrowed w p = Some []) then inr (FullIndex [])
        else
          match parse_error SEARCHED (q_free_text p) with
          | Some e => inl (slit "parse free text: " ++ e)
          | None =>
              match top_docs ix (index_query p (narrowed w p)) 200, failing w HydrateStmt with
              | inl e, _ => inl (slit "search: " ++ e)
              | inr (_ :: _), Some e => inl e
              | inr l, _ => inr (FullIndex (presented ix w body (q_free_text p) (collect_results l)))
              end
          end
    end.
Proof.
  intros Hp Hne. unfold search. rewrite Hp. cbn [mbind option_bind]. destruct (q_free_text p) as [|c t] eqn:Et; [done|].
  cbn [is_nil andb]. unfold narrowed, keys_error. destruct (has_any_operator p) eqn:Eo.
  - rewrite combined_hits by (by rewrite Et). rewrite Et. destruct (failing w KeysStmt); [done|].
    destruct (candidates_of w p); [done|]. cbn [is_nil]. rewrite bool_decide_false by done.
    destruct (parse_error _ _); [done|]. destruct (top_docs _ _ _) as [|hits]; [done|]. rewrite present_spec.
    destruct hits; cbn [collect_results map]; by destruct (failing w HydrateStmt).
  - rewrite tantivy_only_hits by (done || by rewrite Et). rewrite Et, bool_decide_false by done. destruct (parse_error _ _); [done|].
    destruct (top_docs _ _ _) as [|hits]; [done|]. rewrite present_spec.
    destruct hits; cbn [collect_results map]; by destruct (failing w HydrateStmt).
Qed.

(** The hits are scored documents that were asked for; fewer than the limit are all. *)
Lemma hits_of_documents docs p c l : top_docs (build_search_doc <$> docs) (index_query p c) 200 = inr l →
  ∃ hits : list (N * SearchDocument), l = (λ h, (h.1, build_search_doc h.2)) <$> hits ∧
    hits.*2 ⊆+ filter (asked p c) docs ∧
    (length (filter (asked p c) docs) < 200 → hits.*2 ≡ₚ filter (asked p c) docs).
Proof.
  intros Et. destruct (top_docs_hits _ _ _ _ Et) as [_ Hsub]. pose proof (top_docs_all _ _ _ _ Et) as Hall.
  assert (filter (λ d, query_matches text_match (index_query p c) d = true) (build_search_doc <$> docs) =
    build_search_doc <$> filter (asked p c) docs) as Ef.
  { apply filter_image. intros d. apply index_query_matches. }
  rewrite Ef in Hsub, Hall. pose proof Hsub as [rest Hp]%submseteq_Permutation. symmetry in Hp.
  apply Permutation_map_inv in Hp as (ds & Hds & Hp). symmetry in Hds. apply fmap_app_inv in Hds as (ds1 & ds2 & E1 & _ & ->).
  exists (zip l.*1 ds1). assert (length l = length ds1) as Hlen.
  { apply (f_equal length) in E1. by rewrite !length_fmap in E1. }
  assert ((zip l.*1 ds1).*2 = ds1) as Ez by (apply snd_zip; by rewrite length_fmap, Hlen).
  rewrite Ez. split_and!.
  - clear -E1 Hlen. revert ds1 E1 Hlen. induction l as [|[n x] l IH]; intros [|d ds] E Hlen; try done.
    cbn in *. injection E as -> E. injection Hlen as Hlen. by rewrite <-IH.
  - rewrite Hp. by apply submseteq_inserts_r.
  - intros Hlt. assert (length l < 200) as Hl.
    { apply submseteq_length in Hsub. rewrite !length_fmap in Hsub. lia. }
    specialize (Hall Hl). apply (f_equal length) in E1 as El. apply Permutation_length in Hall. rewrite !length_fmap in Hall.
    apply Permutation_length in Hp as Hpl. rewrite length_app in Hpl. destruct ds2 as [|]; [by rewrite app_nil_r in Hp|cbn in Hpl; lia].
Qed.

Lemma eligible_candidate w p k : is_Some (db_thread w k) → from_option (λ ks, k ∈ ks) True (narrowed w p) → eligible w p k.
Proof.
  unfold eligible, narrowed, db_thread. destruct (has_any_operator p); cbn [from_option]; [by rewrite <-elem_candidates|].
  intros [t (t' & -> & _)%bind_Some] _. by eexists.
Qed.

Lemma elem_collected hits r :
  r ∈ collect_results ((λ h : N * SearchDocument, (h.1, build_search_doc h.2)) <$> hits) ↔
  ∃ score d, (score, d) ∈ hits ∧ r = collect_result (score, build_search_doc d).
Proof.
  unfold collect_results. change (@map ?A ?B) with (@fmap list _ A B). rewrite list_elem_of_fmap. split.
  - intros (h & -> & ([score d] & -> & Hd)%list_elem_of_fmap). by exists score, d.
  - intros (score & d & Hd & ->). eexists. split; [done|]. apply list_elem_of_fmap. by exists (score, d).
Qed.

(** C21. The answer of a search for text: the hits are the documents that the index
    returns, with its scores, for the query of the text, narrowed to the threads that
    the operators select; no hits when there are no such threads.  There is one
    result for each thread identifier, the best ranked first; each is a thread that
    the operators select, has a message among the hits, carries the score of the best
    hit of its identifier and is shown as the database has it; and every hit of a
    thread with a row is in it, unless a hit of another account has the same thread
    identifier.  When the index has fewer than 200 messages to offer, all of them are
    hits. *)
Theorem search_answers docs q p w scope body rs :
  parse_query q = Some p → q_free_text p ≠ [] →
  search q (Some (build_search_doc <$> docs)) w scope body = Some (inr (FullIndex rs)) →
  NoDup (u_thread_id <$> rs) ∧
  StronglySorted (λ a b, (u_rank b ≤ u_rank a)%N) rs ∧
  ∃ hits : list (N * SearchDocument),
    (if decide (narrowed w p = Some []) then hits = []
     else top_docs (build_search_doc <$> docs) (index_query p (narrowed w p)) 200 =
            inr ((λ h, (h.1, build_search_doc h.2)) <$> hits)) ∧
    hits.*2 ⊆+ filter (asked p (narrowed w p)) docs ∧
    (length (filter (asked p (narrowed w p)) docs) < 200 → hits.*2 ≡ₚ filter (asked p (narrowed w p)) docs) ∧
    (∀ u, u ∈ rs → eligible w p (u_key u) ∧
      (∃ d, (u_rank u, d) ∈ hits ∧ doc_key d = u_key u) ∧
      (∀ score d, (score, d) ∈ hits → sd_thread_id d = u_thread_id u → (score ≤ u_rank u)%N) ∧
      ∃ t, db_thread w (u_key u) = Some t ∧ enrich_from_sql u t = u) ∧
    (∀ d, d ∈ hits.*2 → is_Some (db_thread w (doc_key d)) →
      (∀ d', d' ∈ hits.*2 → sd_thread_id d' = sd_thread_id d → doc_key d' = doc_key d) →
      doc_key d ∈ u_key <$> rs).
Proof.
  intros Hp Hne Hs. rewrite (search_by_index _ _ _ _ _ p) in Hs by done. apply (inj Some) in Hs.
  destruct (keys_error w p); [done|]. destruct (decide (narrowed w p = Some [])) as [En|En].
  { rewrite bool_decide_true in Hs by done. injection Hs as <-. split; [constructor|]. split; [constructor|].
    assert (∀ d, ¬ asked p (narrowed w p) d) as Hn by (rewrite En; intros d [_ Hd]; by apply elem_of_nil in Hd).
    assert (filter (asked p (narrowed w p)) docs = []) as ->.
    { destruct (filter _ docs) as [|d l] eqn:Ef; [done|]. destruct (Hn d). assert (d ∈ d :: l) as Hd by (by left).
      rewrite <-Ef in Hd. rewrite list_elem_of_filter in Hd. apply Hd. }
    exists []. split_and!; [done|done|done| |]; intros x Hx; by apply elem_of_nil in Hx. }
  rewrite bool_decide_false in Hs by done.
  destruct (parse_error _ _); [done|]. destruct (top_docs _ _ _) as [e|l] eqn:Et; [done|].
  assert (rs = presented (build_search_doc <$> docs) w body (q_free_text p) (collect_results l)) as ->.
  { destruct l; [|destruct (failing w HydrateStmt); [done|]]; by injection Hs as <-. }
  destruct (hits_of_documents docs p (narrowed w p) l Et) as (hits & Hl & Hsub & Hall). rewrite Hl.
  split; [apply presented_NoDup|]. split; [apply presented_sorted|].
  exists hits. split; [done|]. split; [done|]. split; [done|]. split.
  - intros u Hu. apply presented_sound in Hu as ((r & Hr & Hk & Hrank) & Hbest & t & Ht & Heq).
    apply elem_collected in Hr as (score & d & Hd & ->).
    assert (d ∈ filter (asked p (narrowed w p)) docs) as Hf.
    { eapply elem_of_submseteq; [|exact Hsub]. apply list_elem_of_fmap. exists (score, d). split; [reflexivity|exact Hd]. }
    rewrite list_elem_of_filter in Hf. destruct Hf as [[Hm Hc] _].
    change (doc_key d = u_key u) in Hk. change (score = u_rank u) in Hrank. subst score. split_and!.
    + rewrite <-Hk. apply eligible_candidate; [rewrite Hk, Ht; by eexists|exact Hc].
    + exists d. split; [exact Hd|exact Hk].
    + intros score' d' Hd' Hth. apply (Hbest (collect_result (score', build_search_doc d'))); [|done].
      apply elem_collected. exists score', d'. split; [exact Hd'|reflexivity].
    + exists t. split; [exact Ht|exact Heq].
  - intros d ([score d2] & -> & Hd2)%list_elem_of_fmap Hrow Hone.
    apply (presented_complete _ _ _ _ _ (collect_result (score, build_search_doc d2))).
    + apply elem_collected. exists score, d2. split; [exact Hd2|reflexivity].
    + exact Hrow.
    + intros r' (score' & d' & Hd' & ->)%elem_collected Hth. apply Hone; [|exact Hth].
      apply list_elem_of_fmap. exists (score', d'). split; [reflexivity|exact Hd'].
Qed.

(** What fails when, way by way. *)
Lemma query_rows_fails p w scope e : query_rows p w scope = inl e ↔ failing w RowsStmt = Some e.
Proof. unfold query_rows, run. destruct (failing w RowsStmt); cbn; naive_solver. Qed.

Lemma search_without_text_fails q ix w scope body p e : parse_query q = Some p → q_free_text p = [] →
  search q ix w scope body = Some (inl e) ↔ has_any_operator p = true ∧ failing w RowsStmt = Some e.
Proof.
  intros Hp Hn. unfold search. rewrite Hp. cbn [mbind option_bind]. rewrite Hn. cbn [is_nil andb].
  destruct (has_any_operator p) eqn:Eo; cbn [negb]; [|split; [done|by intros [? _]]].
  rewrite <-(query_rows_fails p w (if ix then build_scope p else scope)). unfold search_sql_fallback, search_sql_only. rewrite Eo.
  destruct ix; (destruct (query_rows _ _ _); cbn; split; [by intros [= ->]|by intros [_ [= ->]]|done|by intros [_ ?]]).
Qed.

Lemma search_without_index_fails q w scope body p e : parse_query q = Some p → q_free_text p ≠ [] →
  search q None w scope body = Some (inl e) ↔
    if has_any_operator p then failing w RowsStmt = Some e
    else e = default (slit "prepare search: " ++ no_such_column "from_name") (failing w FreetextStmt).
Proof.
  intros Hp Hn. assert (is_nil (q_free_text p) = false) as En by (by destruct (q_free_text p)).
  unfold search, search_sql_fallback. rewrite Hp. cbn [mbind option_bind]. rewrite En. cbn [andb].
  destruct (has_any_operator p); cbn [orb].
  - rewrite <-(query_rows_fails p w scope). destruct (query_rows _ _ _); cbn; split; congruence.
  - assert (list_find (.∉ THREAD_COLUMNS) FREETEXT_COLUMNS = Some (9, "from_name"%string)) as Ec by reflexivity.
    unfold search_threads_freetext_sync. rewrite Ec. destruct (failing w FreetextStmt); cbn [rbind from_option]; (split; [by intros [= <-]|by intros ->]).
Qed.

Lemma search_by_index_fails q ix w scope body p e : parse_query q = Some p → q_free_text p ≠ [] →
  search q (Some ix) w scope body = Some (inl e) ↔
    (has_any_operator p = true ∧ failing w KeysStmt = Some e) ∨
    ((has_any_operator p = true → failing w KeysStmt = None ∧ ∃ k, selects w p k) ∧
     match parse_error SEARCHED (q_free_text p), top_docs ix (index_query p (narrowed w p)) 200 with
     | Some e', _ => e = slit "parse free text: " ++ e'
     | None, inl e' => e = slit "search: " ++ e'
     | None, inr hits => hits ≠ [] ∧ failing w HydrateStmt = Some e
     end).
Proof.
  intros Hp Hn. rewrite (search_by_index _ _ _ _ _ p) by done. unfold keys_error.
  destruct (has_any_operator p) eqn:Eo; [destruct (failing w KeysStmt) as [e'|]|].
  - split; [intros [= ->]; by left|]. intros [[_ [= ->]]|[Hk _]]; [done|]. by destruct (Hk eq_refl).
  - destruct (decide (narrowed w p = Some [])) as [En|En].
    { rewrite bool_decide_true by done. split; [done|]. intros [[_ ?]|[Hk _]]; [done|]. destruct (Hk eq_refl) as [_ [k Hs]].
      unfold narrowed in En. rewrite Eo in En. injection En as En. apply elem_candidates in Hs. rewrite En in Hs. by apply elem_of_nil in Hs. }
    assert (∃ k, selects w p k) as Hs.
    { unfold narrowed in En. rewrite Eo in En. destruct (candidates_of w p) as [|k l] eqn:Ec; [done|]. exists k.
      apply elem_candidates. rewrite Ec. by left. }
    rewrite bool_decide_false by done. destruct (parse_error _ _); [|destruct (top_docs _ _ _) as [|[|]], (failing w HydrateStmt)];
      (split; [intros [= <-]; right; by split|intros [[_ ?]|[_ Ht]]; destruct_and?; congruence]).
  - rewrite bool_decide_false by (unfold narrowed; by rewrite Eo).
    destruct (parse_error _ _); [|destruct (top_docs _ _ _) as [|[|]], (failing w HydrateStmt)];
      (split; [intros [= <-]; right; by split|intros [[? _]|[_ Ht]]; destruct_and?; congruence]).
Qed.

(** C24. When a search fails, and with which error.  A query of operators alone
    fails exactly when the statement for its rows does.  With text and without an
    index, a query with operators fails just so, and one of text alone always fails,
    since its statement reads a column that threads do not have.  With text and an
    index: when the statement for the keys of its operators fails; and otherwise,
    unless the operators select no thread at all, when tantivy does not parse the
    text, when it fails to search, and when it has hits and the statement for their
    rows fails.  The statement for attachments never makes a search fail. *)
Theorem search_fails q ix w scope body e :
  search q ix w scope body = Some (inl e) ↔
  ∃ p, parse_query q = Some p ∧
    if decide (q_free_text p = []) then has_any_operator p = true ∧ failing w RowsStmt = Some e
    else match ix with
    | None =>
        if has_any_operator p then failing w RowsStmt = Some e
        else e = default (slit "prepare search: " ++ no_such_column "from_name") (failing w FreetextStmt)
    | Some ix =>
        (has_any_operator p = true ∧ failing w KeysStmt = Some e) ∨
        ((has_any_operator p = true → failing w KeysStmt = None ∧ ∃ k, selects w p k) ∧
         match parse_error SEARCHED (q_free_text p), top_docs ix (index_query p (narrowed w p)) 200 with
         | Some e', _ => e = slit "parse free text: " ++ e'
         | None, inl e' => e = slit "search: " ++ e'
         | None, inr hits => hits ≠ [] ∧ failing w HydrateStmt = Some e
         end)
    end.
Proof.
  destruct (parse_query q) as [p|] eqn:Hp; [|unfold search; rewrite Hp; split; [done|by intros (? & [=] & _)]].
  split; [intros Hs; exists p; split; [done|]; revert Hs|intros (p' & [= <-] & Hs); revert Hs];
    (destruct (decide (q_free_text p = [])) as [Hn|Hn];
      [apply (search_without_text_fails _ ix w scope body p e Hp Hn)|
       destruct ix as [ix|];
         [apply (search_by_index_fails _ ix w scope body p e Hp Hn)|apply (search_without_index_fails _ w scope body p e Hp Hn)]]).
Qed.

(** *** What a result says has matched *)

(** The scores of the candidates of a message: the ranges highlighted in its body,
    subject and sender, and in each of its attachments with text. *)
Definition scores_of (ix : list Document) (t : str) (i : AttributionInputs) (k : MatchKind) (n : nat) : Prop :=
  match k with
  | MBody => n = score_field (snippet_gen ix t FBodyText) (in_body_text i)
  | MSubject => n = score_field (snippet_gen ix t FSubject) (in_subject i)
  | MFrom => n = score_field (snippet_gen ix t FFromName) (in_from_name i)
  | MAttachment id file mime fragment =>
      ∃ text g, mkAttachmentInput id file mime text ∈ in_attachments i ∧ text ≠ [] ∧
        snippet_gen ix t FAttachmentText = Some g ∧ g text = (n, fragment)
  end.

Lemma elem_field_candidate k k' score n : (k, n) ∈ field_candidate k' score ↔ k = k' ∧ n = score ∧ 0 < n.
Proof.
  unfold field_candidate. destruct (Nat.ltb_spec 0 score).
  - rewrite list_elem_of_singleton. naive_solver lia.
  - rewrite elem_of_nil. naive_solver lia.
Qed.

Lemma elem_attachment_candidates ix t i k n :
  (k, n) ∈ attachment_candidate <$>
    sort_stable attachment_before (omap (score_attachment (query_tokens t) (snippet_gen ix t FAttachmentText)) (in_attachments i)) ↔
  ∃ id file mime fragment, k = MAttachment id file mime fragment ∧ scores_of ix t i k n ∧ 0 < n.
Proof.
  rewrite list_elem_of_fmap. setoid_rewrite elem_sort_stable. setoid_rewrite list_elem_of_omap. split.
  - intros ([[[h f] fragment] a] & Ek & (a' & Ha & Es)). injection Ek as -> ->. unfold score_attachment in Es.
    destruct a' as [id file mime text]. cbn [ai_extracted_text] in Es. destruct text as [|c text]; [done|]. cbn [is_nil] in Es.
    destruct (snippet_gen ix t FAttachmentText) as [g|] eqn:Eg; [|done]. cbn [mbind option_bind] in Es.
    destruct (g (c :: text)) as [h' fragment'] eqn:E. destruct (Nat.eqb_spec h' 0) as [|Hh]; [done|]. injection Es as <- <- <- <-.
    exists id, file, mime, fragment'. split; [done|]. split; [|lia]. by exists (c :: text), g.
  - intros (id & file & mime & fragment & -> & (text & g & Ha & Hne & Eg & E) & Hn).
    eexists (n, _, fragment, mkAttachmentInput id file mime text). split; [done|]. eexists. split; [exact Ha|].
    unfold score_attachment. cbn [ai_extracted_text]. destruct text as [|c text]; [done|]. cbn [is_nil]. rewrite Eg. cbn [mbind option_bind].
    rewrite E. destruct (Nat.eqb_spec n 0); [lia|]. reflexivity.
Qed.

Lemma elem_candidates_of ix t i k n : (k, n) ∈ candidates ix t i ↔ scores_of ix t i k n ∧ 0 < n.
Proof.
  unfold candidates. rewrite !elem_of_app, !elem_field_candidate, elem_attachment_candidates.
  destruct k as [| | |id file mime fragment]; cbn [scores_of]; naive_solver.
Qed.

(** C25. What a result says has matched is what scored highest: the body, the
    subject, the sender or an attachment, whichever the query highlights most, in
    this order among equals; and what else has matched are the others of at least
    half its score rounded down, which is 1 for a score of 3, the best first.  A result where nothing scored stays as it is. *)
Theorem match_is_the_best ix t i r :
  let r' := attribute_result ix t i r in
  if decide (candidates ix t i = []) then r' = r
  else ∃ score rest,
    let ranked := (r_match_kind r', score) :: rest in
    (∀ k n, (k, n) ∈ ranked ↔ scores_of ix t i k n ∧ 0 < n) ∧
    length ranked = length (candidates ix t i) ∧
    StronglySorted (λ a b, b.2 ≤ a.2) ranked ∧
    (∀ n, filter (λ c, c.2 = n) ranked = filter (λ c, c.2 = n) (candidates ix t i)) ∧
    r_also_matched r' = fst <$> filter (λ c, score / 2 ≤ c.2) rest.
Proof.
  cbn zeta. unfold attribute_result. set (cs := candidates ix t i). set (before := λ y x : MatchKind * nat, x.2 <? y.2).
  assert (∀ y x, before y x = (N.of_nat x.2 <? N.of_nat y.2)%N) as Hb.
  { intros y x. unfold before. destruct (Nat.ltb_spec x.2 y.2), (N.ltb_spec (N.of_nat x.2) (N.of_nat y.2)); done || lia. }
  pose proof (sort_stable_perm before cs) as Hp. pose proof (sort_stable_sorted (λ c, N.of_nat c.2) before Hb cs) as Hs.
  assert (∀ n, filter (λ c, c.2 = n) (sort_stable before cs) = filter (λ c, c.2 = n) cs) as Hf.
  { intros n. rewrite !(list_filter_iff (λ c : MatchKind * nat, c.2 = n) (λ c, N.of_nat c.2 = N.of_nat n)) by (intros c; lia).
    apply (sort_stable_filter (λ c, N.of_nat c.2) before Hb (N.of_nat n) cs). }
  destruct (sort_stable before cs) as [|[k score] rest] eqn:E.
  { apply Permutation_nil_l in Hp. by rewrite decide_True. }
  rewrite decide_False by (intros Ec; rewrite Ec in E; discriminate E). exists score, rest. cbn [r_match_kind r_also_matched].
  assert (∀ c, c ∈ (k, score) :: rest → 0 < c.2) as Hpos.
  { intros [k' n] Hc. rewrite Hp in Hc. by apply elem_candidates_of in Hc as [_ ?]. }
  split_and!.
  - intros k' n. rewrite Hp. apply elem_candidates_of.
  - by rewrite Hp.
  - clear -Hs. induction Hs as [|c l Hs IH Hc]; constructor; [done|]. eapply Forall_impl; [exact Hc|]. cbn. lia.
  - exact Hf.
  - f_equal. assert (∀ c, c ∈ rest → 0 < c.2) as Hr by (intros c Hc; apply Hpos; by right).
    clear -Hr. induction rest as [|c rest IH]; [done|]. rewrite !filter_cons.
    assert (0 < c.2) by (apply Hr; by left). rewrite IH by (intros c' Hc'; apply Hr; by right). repeat case_decide; done || lia.
Qed.

End Answers.

(** ** Closed runs *)

(** An index that finds a text in the values of its fields, ranks by date and does
    not parse a double quote. *)
Definition text_in (t : str) (v : Value) : bool :=
  match v with VText s => like (slit "%" ++ t ++ slit "%") s | _ => false end.

Definition plain_match (fields : list Field) (t : str) (doc : Document) : bool :=
  existsb (λ e : Field * Value, bool_decide (e.1 ∈ fields) && text_in t e.2) doc.

Definition plain_parse_error (_ : list Field) (t : str) : option str :=
  if decide (quote_char ∈ t) then Some (slit "unclosed quote") else None.

Definition plain_ranked (ix : list Document) (q : Query) : list (N * Document) :=
  sort_stable (λ y x, (x.1 <? y.1)%N)
    ((λ d, (Z.to_N (get_date_secs d FDate), d)) <$> filter (λ d, query_matches plain_match q d = true) ix).

Definition plain_top_docs (ix : list Document) (q : Query) (n : nat) : str + list (N * Document) := inr (take n (plain_ranked ix q)).

Lemma plain_ranked_docs ix q : (plain_ranked ix q).*2 ≡ₚ filter (λ d, query_matches plain_match q d = true) ix.
Proof. unfold plain_ranked. rewrite sort_stable_perm, <-list_fmap_compose. by rewrite list_fmap_id. Qed.

(** How many words of a text are [t]. *)
Definition plain_count (t s : str) : nat :=
  length (filter (λ x, to_ascii_lowercase x = to_ascii_lowercase t) (split_whitespace s)).

#[export, refine] Instance plain_index : Tantivy := {|
  parse_error := plain_parse_error;
  text_match := plain_match;
  top_docs := plain_top_docs;
  snippet_gen ix t f := Some (λ s, (plain_count t s, take 5 s))
|}.
Proof.
  - intros ix q n l [= <-]. split; [rewrite length_take; lia|]. rewrite <-plain_ranked_docs, fmap_take.
    apply sublist_submseteq, sublist_take.
  - intros ix q n l [= <-].
    assert (StronglySorted (λ a b, (b.1 ≤ a.1)%N) (plain_ranked ix q)) as Hs by (by apply (sort_stable_sorted (λ h, h.1))).
    rewrite <-(take_drop n (plain_ranked ix q)) in Hs. by apply StronglySorted_app_1_l in Hs.
  - intros ix q n l [= <-] Hn. rewrite take_ge; [apply plain_ranked_docs|]. rewrite length_take in Hn. lia.
Defined.

#[export] Instance last_first : HashOrder := {| hash_order A l := rev l; hash_order_rows A l := symmetry (Permutation_rev l) |}.

#[export] Instance plain_errors : SqliteErrors := {| no_such_column c := slit "no such column: t." ++ slit c |}.
#[local] Existing Instances ascii_tables ascii_text.

Definition plain_world (d : search_db) : world :=
  mkWorld d (λ _, mkColumns (Some (slit "Plans")) None false 1) [] (λ _, None).

(** The document of a message with the subject Plans. *)
Definition doc_of (account message thread : string) (date : Z) : SearchDocument :=
  mkDoc (slit message) (slit account) (slit thread) (Some (slit "Plans")) None None None None None date false false false [].

Definition two_docs : list SearchDocument := [doc_of "one" "m1" "t1" 1; doc_of "one" "m2" "t2" 2].

(** The keys of what the application shows. *)
Definition shown (query : string) (docs : list SearchDocument) (d : search_db) (scope : AccountScope) : option (list key2) :=
  r ← execute_search (slit query) (Some (build_search_doc <$> docs)) (plain_world d) scope None;
  match (r : str + list UnifiedSearchResult) with inr rs => Some (u_key <$> rs) | inl _ => None end.

Example both_threads : shown "plans" two_docs two_threads ScopeAll = Some [(slit "one", slit "t2"); (slit "one", slit "t1")].
Proof. vm_compute. reflexivity. Qed.

Example only_unread : shown "plans is:unread" two_docs two_threads ScopeAll = Some [(slit "one", slit "t1")].
Proof. vm_compute. reflexivity. Qed.

Definition plans_unread : ParsedQuery := set_free_text (λ _, slit "plans") (set_is_unread set_true empty_query).

(** The unread one of two threads that match is found, and shown unread. *)
Lemma search_answers_witness : ∃ rs,
  search (slit "plans is:unread") (Some (build_search_doc <$> two_docs)) (plain_world two_threads) ScopeAll None = Some (inr (FullIndex rs)) ∧
  NoDup (u_thread_id <$> rs) ∧ (slit "one", slit "t1") ∈ u_key <$> rs.
Proof.
  destruct (search (slit "plans is:unread") (Some (build_search_doc <$> two_docs)) (plain_world two_threads) ScopeAll None)
    as [[e|[rs|rs]]|] eqn:E; [vm_compute in E; discriminate E| |vm_compute in E; discriminate E..].
  assert (parse_query (slit "plans is:unread") = Some plans_unread) as Hp by (vm_compute; reflexivity).
  assert (q_free_text plans_unread ≠ []) as Hne by discriminate.
  destruct (search_answers two_docs _ _ _ _ _ _ Hp Hne E) as (Hn & _ & hits & _ & _ & Hall & _ & Hin).
  exists rs. split; [reflexivity|]. split; [exact Hn|].
  assert (hits.*2 ≡ₚ [doc_of "one" "m1" "t1" 1]) as Hh by (apply Hall; vm_compute; lia).
  apply (Hin (doc_of "one" "m1" "t1" 1)).
  - rewrite Hh. by left.
  - vm_compute. by eexists.
  - intros d' Hd' _. rewrite Hh in Hd'. by apply list_elem_of_singleton in Hd' as ->.
Defined.

(** The same database with a thread t1 of a second account. *)
Definition two_accounts : search_db :=
  mkSearchDb
    (mkMailbox {[slit "one" := slit "gmail"; slit "two" := slit "gmail"]}
       {[(slit "one", slit "t1") := thread_of false false; (slit "two", slit "t1") := thread_of false false]}
       ∅ ∅ ∅ ∅ ∅ ∅ ∅ ∅ ∅ ∅ ∅ ∅ ∅)
    [] [] [] ∅ ∅ ∅ (λ _, Some july_ms).

(** Results are grouped by the identifier of a thread without its account: of two
    accounts with a thread of one identifier only one has it found, also when the
    search is for the other account. *)
Theorem same_thread_identifier_lost :
  let docs := [doc_of "one" "m1" "t1" 1; doc_of "two" "m2" "t1" 2] in
  shown "plans" docs two_accounts ScopeAll = Some [(slit "two", slit "t1")] ∧
  shown "plans" docs two_accounts (ScopeSingle (slit "one")) = Some [].
Proof. split; vm_compute; reflexivity. Qed.

(** The index is asked for 200 messages, of all accounts: 200 newer messages of one
    thread, of another account even, leave nothing else to be found. *)
Theorem busy_thread_hides_others :
  let docs := doc_of "two" "m0" "t2" 1 :: replicate 200 (doc_of "one" "m1" "t1" 2) in
  let d := mkSearchDb
    (mkMailbox ∅ {[(slit "one", slit "t1") := thread_of false false; (slit "two", slit "t2") := thread_of false false]}
       ∅ ∅ ∅ ∅ ∅ ∅ ∅ ∅ ∅ ∅ ∅ ∅ ∅) [] [] [] ∅ ∅ ∅ (λ _, Some july_ms) in
  shown "plans" docs d ScopeAll = Some [(slit "one", slit "t1")] ∧
  shown "plans" docs d (ScopeSingle (slit "two")) = Some [].
Proof. split; vm_compute; reflexivity. Qed.

(** Half of a score is rounded down: beside a body with three matches the subject is
    named for one. *)
Theorem third_of_best_is_named :
  let i := mkInputs (slit "Plans") [] (slit "plans plans plans") [] in
  let r := attribute_result [] (slit "plans") i (collect_result (1%N, build_search_doc (doc_of "one" "m1" "t1" 1))) in
  candidates [] (slit "plans") i = [(MBody, 3); (MSubject, 1)] ∧ (r_match_kind r, r_also_matched r) = (MBody, [MSubject]).
Proof. split; vm_compute; reflexivity. Qed.

(** Without an index a query of text fails, though a thread has the subject. *)
Theorem free_text_fails_without_index :
  search (slit "plans") None (plain_world two_threads) ScopeAll None =
    Some (inl (slit "prepare search: no such column: t.from_name")).
Proof. vm_compute. reflexivity. Qed.

(** Bodies are handed out by message identifier: of two accounts with a message of
    one identifier neither is said to match in its body. *)
Theorem shared_identifier_loses_body :
  let bodies ids := Some ((λ i : str, (i, Some (slit "plans for May"))) <$> remove_dups ids) in
  let result account := collect_result (1%N, build_search_doc (mkDoc (slit "m") (slit account) (slit account) (Some (slit "Plans"))
                                                                None None None None None 1 false false false [])) in
  (λ r, (r_match_kind r, r_also_matched r)) <$>
    enrich_with_attribution [] (plain_world two_threads) (Some bodies) (slit "plans") [result "one"; result "two"] =
    [(MSubject, []); (MSubject, [])] ∧
  (λ r, (r_match_kind r, r_also_matched r)) <$>
    enrich_with_attribution [] (plain_world two_threads) (Some bodies) (slit "plans") [result "one"] =
    [(MBody, [MSubject])].
Proof. split; vm_compute; reflexivity. Qed.
